(* ===== verification/_CoqProject ===== *)
-Q . S2P
Prelude.v
Effects.v
IntervalSet.v
Striper.v
Pg.v
Hobject.v
OrderedMap.v
Encoding.v
MonCommand.v
Election.v
PaxosState.v
Paxos.v
PaxosNet.v
PaxosReplica.v
OSDMap.v
CrushLn.v
Crush.v
CrushChoice.v
CrushFirstn.v
CrushIndep.v
CrushRule.v
CrushTheorems.v
CrushWrapper.v
CleanRegions.v
PgMissing.v
PgLog.v
PgLogFacts.v
PgLogMerge.v
PgLogOps.v
PgLogRecovery.v
PgLogTheorems.v
PastIntervals.v
PeerChoice.v
PeerChoiceFacts.v
PeerChoiceTheorems.v
PeerTrim.v
AvlAllocator.v
AvlFacts.v
AvlTheorems.v
IntervalMap.v
PgTransaction.v
PgTransactionFacts.v
PgTransactionTheorems.v
ExtentRefMap.v
ExtentRefFacts.v
ExtentRefTheorems.v
CleanMarks.v
ObjectInfo.v
PrimaryLogPG.v
SnapSpec.v
SnapFacts.v
SnapOps.v
SnapVector.v
SnapCommit.v
TrimObject.v
TrimFacts.v
SnapTheorems.v
SnapFindings.v
ObjectKeys.v
MapCacher.v
SnapMapper.v
SnapMapperFacts.v
PgSnapMap.v
SnapMapperTheorems.v
PurgedSnaps.v
PurgedFacts.v
PurgedTheorems.v
