(* ===== verification/Prelude.v ===== *)
(** * A verification library for Ceph 15.2.17

    The program is the storage system under src/ceph-15.2.17/src: monitors that
    agree on the cluster maps, OSDs that store replicated or erasure-coded
    placement groups, and the clients and gateways above them.  The library
    models the parts of it that decide whether data is agreed on, found and
    kept: the agreement of the monitors, the placement of objects, and the
    data structures these share.  Each definition is a translation of the C++
    function of the same name; each theorem is a property of those definitions.

    ** Conventions

    - A [ceph_assert] that may fail makes the function return an [option];
      [None] is the failed assertion.  Theorems that a function returns [Some]
      are theorems that it never aborts.
    - Unsigned integers are [Z] with their wrap-around written out ([add64],
      [sub64], [mul64] here, [u32] and [i32] in Pg.v), and the bounds under
      which no wrap occurs are hypotheses of the theorems that need them.
    - A loop whose recursion is not structural takes fuel and returns [None]
      without it; the theorems give a fuel that suffices and show that the
      loop ends.
    - Message handlers are computations of the monad of Effects.v: they read
      and write the state of their daemon, emit messages and callbacks in
      order, and may fail an assertion.
    - Paxos treats a value as an encoded transaction, which is never empty, and
      does not reduce versions and proposal numbers to 64 bits (PaxosState.v).
    - Statements about requests to objects are about those [request_ok] covers;
      SnapFindings.v shows what the others can do.

    ** Files and the code they model

    - Prelude.v: notation, machine integers, list lemmas, tactics.
    - Effects.v: the handler monad, its total-correctness rules ([runs], and
      [works] for code that needs working surroundings to return), and the rules
      for properties every handler keeps ([keeps], [emits]).
    - IntervalSet.v: include/interval_set.h, the set of 64-bit integers kept as
      a map from start to length.  The theorems refine each operation to the
      operation on mathematical sets and keep the representation invariant.
    - Striper.v: osdc/Striper.cc, the mapping of file ranges to object extents
      and back, truncation, and the assembly of striped reads.  The theorems
      compare them with the striping rule byte by byte.
    - MonCommand.v: mon/MonCommand.h and part of common/cmdparse.cc, the command
      descriptions that a victory carries and their encoding.
    - Election.v: mon/ElectionLogic.cc and mon/Elector.cc with the functions of
      mon/Monitor.cc they call, as handlers on one monitor ([Elector]), then a
      network that loses, duplicates and reorders messages and restarts
      monitors ([ElectionNet]).  What a daemon runs on ([build]: features,
      commands, the database and its return codes) is a parameter; on one that works
      ([build_works]) no assertion fails in any reachable state.  An epoch has at
      most one leader recognised by a majority, quorums are majorities, and
      persisted epochs never decrease.
    - PaxosState.v, Paxos.v, PaxosNet.v, PaxosReplica.v: mon/Paxos.cc.  The
      state and its store, every handler, timer and the asynchronous commit
      ([Paxos]), the monitors over ordered connections ([PaxosNet]), and the
      replicated log that the stores hold ([Replica]): promises, proposal
      numbers, what a commit needs, catching up, a full round of agreement, and
      a run after restarts in which two monitors commit different values.
    - Pg.v: pg_t and the placement part of pg_pool_t of osd/osd_types.{h,cc},
      ceph_stable_mod, cbits and the hash of crush/hash.c.  The theorems relate
      them to a reference binning ([Binning.bin]): growing a pool only splits
      groups, is_split finds exactly the children, merging undoes splitting.
    - Hobject.v: common/hobject.{h,cc}, common/reverse.c, common/ceph_hash.cc.
      The order of objects is a total order and a placement group is one
      interval of it.
    - OSDMap.v: the mapping pipeline of osd/OSDMap.cc, over an interface to
      CRUSH ([CrushMap]).  Up and acting sets name only OSDs that are up, follow
      the CRUSH selection, honour primary affinity, and upmap overrides keep
      them free of duplicates.
    - AvlAllocator.v, AvlFacts.v, AvlTheorems.v: os/bluestore/AvlAllocator.{h,cc}
      and include/intarith.h, the free space of a device as ranges in a tree by
      offset and a tree by size, over a parameter for the ranges that a bounded
      allocator spills.  Allocation hands out free, disjoint, aligned extents,
      release gives them back, and the count of free bytes is exact.
    - ExtentRefMap.v, ExtentRefFacts.v, ExtentRefTheorems.v:
      bluestore_extent_ref_map_t of os/bluestore/bluestore_types.{h,cc}, the
      reference counts of the extents of shared blobs.  Taking and dropping a
      reference moves the count of exactly the bytes of the range, released
      bytes are exactly those that reach zero, the representation is canonical.
    - CrushLn.v, Crush.v: crush/crush_ln_table.h and crush/mapper.c over the
      structures of crush/crush.h.  CrushChoice.v: the choice of an item of a
      bucket of each kind (the shuffle of uniform buckets, the draws of straw2).
      CrushFirstn.v, CrushIndep.v: the two selections of distinct items.
      CrushRule.v: the rule interpreter.  CrushTheorems.v: rules end and stay
      in their buffers, replicated rules return distinct usable devices,
      erasure rules fill positions, straw2 moves the minimum.
    - CrushWrapper.v: the part of crush/CrushWrapper.{h,cc} that placement
      calls.  It implements the interface of OSDMap.v, and the up set of a
      replicated pool is shown free of duplicates end to end.
    - PastIntervals.v: osd/osd_types.{h,cc} [PastIntervals]: the intervals with
      one acting set, the compact representation a primary keeps of them
      ([pi_compact_rep]), when a map starts a new one ([check_new_interval]), and
      the prior set of OSDs to hear from ([PriorSet], with the callback of
      [PeeringState::build_prior]) over an interface [IsPGRecoverable] for the
      backend's predicate.  Nothing the kept intervals imply is lost, a prior
      set that is not down covers every past write, and maps that leave it
      alone are told apart from those that do not.
    - PeerChoice.v, PeerChoiceFacts.v, PeerChoiceTheorems.v: osd/PeeringState.cc
      from [find_best_info] to [choose_acting]: the authoritative log, the acting
      set wanted for replicated and erasure-coded pools, asynchronous recovery.
      std::sort is an interface [StdSort], since the order of equals is its own.
    - PeerTrim.v: [calc_trim_to] and [calc_trim_to_aggressive] of
      osd/PeeringState.cc over the log of PgLog.v.
    - CleanRegions.v: ObjectCleanRegions of osd/osd_types.{h,cc}, the bytes of an
      object that did not change, on the interval sets.  Merging and marking
      never lose a changed byte.
    - PgMissing.v: eversion_t, pg_log_entry_t and pg_missing_set of
      osd/osd_types.h, with the invariant of the index by version.
    - PgLog.v: osd/PGLog.{h,cc}, from the index of the log to merge_log and
      proc_replica_log.  PgLogFacts.v: what each phase of merge_log does to one
      object, over an interface to the object store ([ObjectStore]), and to all
      objects.  PgLogMerge.v: the composition of the phases.
    - PgLogOps.v: the other operations of the log: trimming, recovery pointers,
      splitting, merging, copying.  PgLogRecovery.v: trimming keeps the index and
      the recent requests, recovery completes, splitting partitions.
    - PgLogTheorems.v: merging an authoritative log leaves a missing set that
      describes the store; a primary's view of a peer is the peer's own; the
      index by version is exact while version numbers are not reused, and a
      merge in which they are.
    - IntervalMap.v: common/interval_map.h, the map from intervals to values in
      which later insertions overwrite, over an interface [SplitMerger] for the
      values, with the buffers of osd/ExtentCache.h as one instance.
    - PgTransaction.v, PgTransactionFacts.v, PgTransactionTheorems.v:
      osd/PGTransaction.h and [generate_transaction] of osd/ReplicatedBackend.cc,
      over the operations of the object store that os/Transaction.h documents.
      A transaction refines the sequence of its calls; a second removal of an
      object in one transaction is the exception.
    - CleanMarks.v: dirty marks of no bytes, which the write path makes, on the
      clean regions of CleanRegions.v.
    - ObjectInfo.v, PrimaryLogPG.v, TrimObject.v: object_info_t, SnapSet and
      SnapContext of osd/osd_types.{h,cc} and common/snap_types.cc, and the
      requests to the objects of one name of osd/PrimaryLogPG.cc: do_osd_ops with
      its operations, make_writeable, finish_ctx and prepare_transaction over the
      transactions of PgTransaction.v, find_object_context, and trim_object.  The
      functions it calls and that are not modelled (the checksum, the encoders,
      the tiering decision, the recovery state) are fields of [Env].
    - SnapSpec.v: the abstract object with snapshots, and [represents], which
      relates contexts, snapset, store and statistics to it.  SnapFacts.v,
      SnapOps.v, SnapVector.v, SnapCommit.v and TrimFacts.v prove the
      simulation operation by operation; SnapTheorems.v has its consequences for
      sequences of requests and trims: snapshots read what was frozen for them
      and never change, statistics and overlaps are exact and sound, log entries
      mark only unchanged bytes clean.  The requests are those of a replicated
      pool that is no cache tier ([plain_pool]) with operations as clients send
      them ([op_ok]).  SnapFindings.v has runs outside or at the edge of these.
    - OrderedMap.v: std::map and std::set as lists in the order of their keys, for
      any key type with a total order ([Ordered]).
    - Encoding.v: the byte encodings of include/encoding.h, of hobject_t and of the
      records of the snapshot mapper, and that decoding undoes encoding.
    - ObjectKeys.v: the string forms of object names (to_str, get_prefixes of
      common/hobject.cc) and the keys of osd/SnapMapper.cc, that they tell objects
      apart and that the prefixes of a group are those of its objects.
    - MapCacher.v: common/map_cacher.hpp over common/sharedptr_registry.hpp, the
      interfaces of a store driver ([Reads]) and of a map of keys ([BackendOk]), and
      that the cache provides the one over the other.  The loop of get_next has the
      number of cached keys as fuel.
    - SnapMapper.v, SnapMapperFacts.v, PgSnapMap.v, SnapMapperTheorems.v:
      osd/SnapMapper.{h,cc} over any backend, and its callers in osd/PG.cc and
      osd/ReplicatedBackend.cc: it implements an assignment of snapshots to objects,
      finds exactly the clones of a snapshot in a group, and follows the log.
    - PurgedSnaps.v, PurgedFacts.v, PurgedTheorems.v: the rest of osd/SnapMapper.cc:
      the record of purged snapshots, the scrub for clones of purged snapshots, and
      the conversion of the keys of older releases.  The inner loop of the scrub has
      the number of records left as fuel, the outer one that of mappings.
    ** Bounds and fuel

    - The loop of [Pg.is_split] ends within the new number of groups, the loop
      of [Pg.is_merge_source] within the seed; group counts are below 2^30, the
      range in which the [int] arithmetic of the masks does not overflow.
    - The fuel of the striping loops is the number of blocks of the range, and
      that of the interval loops the number of intervals.
    - The best-fit loop of the allocator halves the size and takes 65 as fuel,
      the allocation loop the number of units wanted; offsets are below 2^62.
      The loops of the extent reference map take the number of records, twice
      for [get], which may fill a gap before each.  Lengths and counts of records
      are below 2^32 and so is the number of bytes a map covers.
    - The fuel of a CRUSH descent covers [tries] restarts, each with the local
      retries and a bucket size of extra tries, times the depth of the map
      ([RuleFacts.limits_ok]); the same condition keeps the 32-bit counters of
      the C code from wrapping.  A CRUSH map is well-formed ([CrushFacts.map_ok])
      when its buckets form no cycle and their arrays have an entry per item.
    - The loop of [CleanRegions.trim] takes the number of intervals as fuel; all
      loops of the placement-group log are structural.
    - The traversal of a transaction takes four times its number of objects as
      fuel; clones must not form a cycle.
    ** Not modelled

    The peering state machine and the messages of recovery and scrub, the threads and
    queues of the OSD, BlueStore beyond an allocator and its extent reference map,
    FileStore, the MDS, RBD, RGW, the clients, the messenger, authentication, the
    manager and the other Paxos services are not modelled: they are I/O, third-party
    code or systems of their own above the parts modelled here.  Of the requests to
    objects, reads, omap and attribute operations, watch and notify, copies and cache
    tiering are not modelled.  Wall-clock time appears as timers that may fire at any
    step.  Of the wire and disk encodings, those of object names and of the records of
    the snapshot mapper (Encoding.v) and of command descriptions (MonCommand.v) are modelled; of scrub, the repair of the snapshot
    mapping and the search for purged snapshots.

    ** How the parts fit

    A request is executed by PrimaryLogPG.v on contexts and a snapset (ObjectInfo.v),
    collects its changes in a transaction (PgTransaction.v, over IntervalMap.v) that
    is applied to a store of objects, and leaves log entries with clean regions
    (CleanRegions.v).  The snapshot mapper (SnapMapper.v over MapCacher.v, fed with log
    entries by PgSnapMap.v) finds the clones of a removed snapshot, which TrimObject.v
    trims, and PurgedSnaps.v looks for those that were missed.  The placement-group log (PgLog*.v) merges and recovers such
    entries, peering (PastIntervals.v, PeerChoice.v) chooses who has them, and OSDMap.v
    over CrushWrapper.v and Crush.v says where they are.  The maps come from the
    monitors' agreement (Election.v, Paxos*.v). *)
From Stdlib Require Export ZArith Lia.
From stdpp Require Export base option numbers gmap sets tactics sorting list.

#[global] Open Scope Z_scope.

(** ** Failing assertions

    [ceph_assert] and [ceph_abort] end the process.  An operation that can
    reach one returns an [option]: [None] is the failed assertion, [Some] the
    normal return.  Sequencing is stdpp's bind on [option]. *)

Declare Scope ceph_scope.
Delimit Scope ceph_scope with ceph.
#[global] Open Scope ceph_scope.

Notation "'ceph_assert' b ';;' k" :=
  (match b with true => k | false => None end)
  (at level 100, b at level 99, k at level 200, right associativity) : ceph_scope.

Abbreviation ceph_abort := None (only parsing).

(** ** Machine integers

    [uint64_t] values are integers of [0 .. 2^64 - 1]; the arithmetic of the
    code wraps, and the theorems state the bounds under which it does not. *)

Abbreviation two64 := 18446744073709551616 (only parsing).
Abbreviation two32 := 4294967296 (only parsing).

Definition add64 (a b : Z) : Z := (a + b) mod two64.
Definition sub64 (a b : Z) : Z := (a - b) mod two64.
Definition mul64 (a b : Z) : Z := (a * b) mod two64.

Definition u64 (a : Z) : Prop := 0 <= a < two64.

Lemma add64_small a b : 0 <= a + b < two64 -> add64 a b = a + b.
Proof. intros H. unfold add64. by apply Z.mod_small. Qed.

Lemma sub64_small a b : 0 <= a - b < two64 -> sub64 a b = a - b.
Proof. intros H. unfold sub64. by apply Z.mod_small. Qed.

Lemma mul64_small a b : 0 <= a * b < two64 -> mul64 a b = a * b.
Proof. intros H. unfold mul64. by apply Z.mod_small. Qed.

Lemma add64_range a b : u64 (add64 a b).
Proof. unfold u64, add64. by apply Z.mod_pos_bound. Qed.

Lemma sub64_range a b : u64 (sub64 a b).
Proof. unfold u64, sub64. by apply Z.mod_pos_bound. Qed.

(** [sub64] undoes [add64] even when the sum wraps. *)
Lemma sub64_add64 a b : u64 a -> sub64 (add64 a b) b = a.
Proof.
  intros H. unfold sub64, add64. rewrite Zminus_mod_idemp_l.
  replace (a + b - b) with a by lia. by apply Z.mod_small.
Qed.

(** ** Lists *)

Section ListFilter.
Context {A : Type} (P : A -> Prop) `{!forall x, Decision (P x)}.

Lemma filter_all l : Forall P l -> filter P l = l.
Proof. induction 1 as [|x l Hx _ IH]; [done|]. rewrite filter_cons_True by done. by rewrite IH. Qed.
Lemma filter_none l : Forall (fun x => ~ P x) l -> filter P l = [].
Proof. induction 1 as [|x l Hx _ IH]; [done|]. by rewrite filter_cons_False by done. Qed.
Lemma filter_sorted (R : A -> A -> Prop) l : StronglySorted R l -> StronglySorted R (filter P l).
Proof.
  induction 1 as [|x l Hs IH Hx]; [constructor|]. rewrite filter_cons. case_decide; [|done].
  constructor; [done|]. rewrite Forall_forall in Hx |- *. intros y [_ Hy]%list_elem_of_filter. auto.
Qed.
End ListFilter.

Lemma sorted_fmap {A B} (R : A -> A -> Prop) (S : B -> B -> Prop) (f : A -> B) l :
  (forall x y, R x y -> S (f x) (f y)) -> StronglySorted R l -> StronglySorted S (f <$> l).
Proof.
  intros Hf. induction 1 as [|x l Hs IH Hx]; [constructor|]. constructor; [done|].
  apply Forall_fmap. eapply Forall_impl; [exact Hx|]. simpl. auto.
Qed.

Lemma seqZ_sorted a n : StronglySorted Z.le (seqZ a n).
Proof.
  destruct (Z.le_gt_cases 0 n) as [Hn|]; [|rewrite seqZ_nil by lia; constructor].
  rewrite <- (Z2Nat.id n) by done. generalize (Z.to_nat n). intros k. revert a.
  induction k as [|k IH]; intros a; [constructor|].
  rewrite seqZ_cons by lia. replace (Z.pred (Z.of_nat (S k))) with (Z.of_nat k) by lia.
  constructor; [apply IH|]. apply Forall_forall. intros x Hx%elem_of_seqZ. lia.
Qed.

(** A sorted list without duplicates is determined by its elements. *)
Lemma sorted_seqZ l a n :
  StronglySorted Z.le l -> NoDup l -> (forall x, x ∈ l <-> a <= x < a + n) -> l = seqZ a n.
Proof.
  intros Hs Hn Hx. apply (StronglySorted_unique Z.le); [done|apply seqZ_sorted|].
  apply NoDup_Permutation; [done|apply NoDup_seqZ|]. intros x. by rewrite Hx, elem_of_seqZ.
Qed.

Lemma NoDup_snoc {A} (l : list A) x : NoDup l -> x ∉ l -> NoDup (l ++ [x]).
Proof. intros Hl Hx. apply NoDup_app. split; [done|]. split; [|apply NoDup_singleton]. set_solver. Qed.

Lemma NoDup_take {A} n (l : list A) : NoDup l -> NoDup (take n l).
Proof. rewrite <- (take_drop n l) at 1. by intros [? _]%NoDup_app. Qed.

(** ** Automation *)

Create HintDb ceph.

(** Remove the wrap-around of the 64-bit sums and differences that provably
    stay in range. *)
Ltac unwrap64 :=
  repeat match goal with
  | |- context [add64 ?a ?b] => rewrite (add64_small a b) by lia
  | |- context [sub64 ?a ?b] => rewrite (sub64_small a b) by lia
  | H : context [add64 ?a ?b] |- _ => rewrite (add64_small a b) in H by lia
  | H : context [sub64 ?a ?b] |- _ => rewrite (sub64_small a b) in H by lia
  end.

(** Turn the boolean comparisons of the code into propositions [lia] reads. *)
Ltac zbool :=
  repeat match goal with
  | H : (_ <? _) = true |- _ => apply Z.ltb_lt in H
  | H : (_ <? _) = false |- _ => apply Z.ltb_ge in H
  | H : (_ <=? _) = true |- _ => apply Z.leb_le in H
  | H : (_ <=? _) = false |- _ => apply Z.leb_gt in H
  | H : (_ =? _) = true |- _ => apply Z.eqb_eq in H
  | H : (_ =? _) = false |- _ => apply Z.eqb_neq in H
  | H : (_ && _)%bool = true |- _ => apply andb_true_iff in H as [? ?]
  | H : (_ || _)%bool = false |- _ => apply orb_false_iff in H as [? ?]
  | H : (_ && _)%bool = false |- _ => apply andb_false_iff in H as [?|?]
  | H : (_ || _)%bool = true |- _ => apply orb_true_iff in H as [?|?]
  | H : negb _ = true |- _ => apply negb_true_iff in H
  | H : negb _ = false |- _ => apply negb_false_iff in H
  end.

(** Case analysis on the innermost test of the goal. *)
Ltac case_tests :=
  repeat (case_match; simplify_eq/=; zbool).
