(* ===== verification/Effects.v ===== *)
(** Effects of the message handlers: a handler reads and writes the state of
    its daemon, emits events (messages sent, callbacks into other components)
    and may fail an assertion.  The monad, its notation, and the rules with
    which the components' theorems execute handlers symbolically. *)
From S2P Require Import Prelude.

(** A handler on states [St] that emits events [Ev] and returns an [A]:
    [None] is a failed [ceph_assert]. *)
Definition handler (St Ev A : Type) : Type := St -> option (A * St * list Ev).

Section Handler.
Context {St Ev : Type}.

#[global] Instance handler_ret : MRet (handler St Ev) := fun A a s => Some (a, s, []).

#[global] Instance handler_bind : MBind (handler St Ev) := fun A B k m s =>
  match m s with
  | None => None
  | Some (a, s1, o1) =>
      match k a s1 with
      | None => None
      | Some (b, s2, o2) => Some (b, s2, o1 ++ o2)
      end
  end.

Definition get : handler St Ev St := fun s => Some (s, s, []).
Definition modify (f : St -> St) : handler St Ev unit := fun s => Some (tt, f s, []).
Definition emit (e : Ev) : handler St Ev unit := fun s => Some (tt, s, [e]).
Definition emit_all (es : list Ev) : handler St Ev unit := fun s => Some (tt, s, es).
Definition assertion (b : bool) : handler St Ev unit :=
  fun s => if b then Some (tt, s, []) else None.
Definition when (b : bool) (m : handler St Ev unit) : handler St Ev unit :=
  if b then m else mret tt.

(** [runs m s Q]: from state [s] the handler returns, no assertion fails, and
    the result, the new state and the events satisfy [Q]. *)
Definition runs {A} (m : handler St Ev A) (s : St) (Q : A -> St -> list Ev -> Prop) : Prop :=
  exists a s' o, m s = Some (a, s', o) /\ Q a s' o.

Lemma runs_ret {A} (a : A) s (Q : A -> St -> list Ev -> Prop) : Q a s [] -> runs (mret a) s Q.
Proof. intros H. by exists a, s, []. Qed.

Lemma runs_bind {A B} (m : handler St Ev A) (k : A -> handler St Ev B) s Q :
  runs m s (fun a s1 o1 => runs (k a) s1 (fun b s2 o2 => Q b s2 (o1 ++ o2))) -> runs (m ≫= k) s Q.
Proof.
  intros (a & s1 & o1 & E1 & b & s2 & o2 & E2 & H). exists b, s2, (o1 ++ o2).
  split; [|done]. unfold mbind, handler_bind. by rewrite E1, E2.
Qed.

Lemma runs_mono {A} (m : handler St Ev A) s (P Q : A -> St -> list Ev -> Prop) :
  runs m s P -> (forall a s' o, P a s' o -> Q a s' o) -> runs m s Q.
Proof. intros (a & s' & o & E & H) HQ. exists a, s', o. auto. Qed.

(** Running twice gives the same result. *)
Lemma runs_det {A} (m : handler St Ev A) s Q a s' o :
  runs m s Q -> m s = Some (a, s', o) -> Q a s' o.
Proof. intros (a1 & s1 & o1 & E1 & H) E. rewrite E1 in E. by simplify_eq. Qed.

Lemma runs_get s (Q : St -> St -> list Ev -> Prop) : Q s s [] -> runs get s Q.
Proof. intros H. by exists s, s, []. Qed.
Lemma runs_modify f s (Q : unit -> St -> list Ev -> Prop) : Q tt (f s) [] -> runs (modify f) s Q.
Proof. intros H. by exists tt, (f s), []. Qed.
Lemma runs_emit e s (Q : unit -> St -> list Ev -> Prop) : Q tt s [e] -> runs (emit e) s Q.
Proof. intros H. by exists tt, s, [e]. Qed.
Lemma runs_emit_all es s (Q : unit -> St -> list Ev -> Prop) : Q tt s es -> runs (emit_all es) s Q.
Proof. intros H. by exists tt, s, es. Qed.
Lemma runs_assertion b s (Q : unit -> St -> list Ev -> Prop) :
  b = true -> Q tt s [] -> runs (assertion b) s Q.
Proof. intros -> H. by exists tt, s, []. Qed.
Lemma runs_when b m s (Q : unit -> St -> list Ev -> Prop) :
  (b = true -> runs m s Q) -> (b = false -> Q tt s []) -> runs (when b m) s Q.
Proof. destruct b; intros H1 H2; [by apply H1|]. apply runs_ret. by apply H2. Qed.

Lemma runs_if {A} (b : bool) (m1 m2 : handler St Ev A) s Q :
  (b = true -> runs m1 s Q) -> (b = false -> runs m2 s Q) -> runs (if b then m1 else m2) s Q.
Proof. destruct b; auto. Qed.

(** [works P m s Q]: when the handler returns, its result satisfies [Q], and under the
    assumption [P] on what it runs on it does return. *)
Definition works {A} (P : Prop) (m : handler St Ev A) (s : St) (Q : A -> St -> list Ev -> Prop) : Prop :=
  match m s with Some (a, s', o) => Q a s' o | None => ~ P end.
#[global] Arguments works : simpl never.

Section Works.
Context (P : Prop).

Lemma works_runs {A} (m : handler St Ev A) s Q : P -> works P m s Q -> runs m s Q.
Proof. intros HP. unfold works. destruct (m s) as [[[a s'] o]|] eqn:E; [|done]. intros H. by exists a, s', o. Qed.
Lemma works_det {A} (m : handler St Ev A) s Q a s' o : works P m s Q -> m s = Some (a, s', o) -> Q a s' o.
Proof. unfold works. intros H E. by rewrite E in H. Qed.
Lemma works_mono {A} (m : handler St Ev A) s (Q R : A -> St -> list Ev -> Prop) :
  works P m s Q -> (forall a s' o, Q a s' o -> R a s' o) -> works P m s R.
Proof. unfold works. destruct (m s) as [[[a s'] o]|]; auto. Qed.
Lemma works_eq {A} (m : handler St Ev A) s a s' o (Q : A -> St -> list Ev -> Prop) :
  m s = Some (a, s', o) -> Q a s' o -> works P m s Q.
Proof. unfold works. by intros ->. Qed.
Lemma works_fails {A} (m : handler St Ev A) s (Q : A -> St -> list Ev -> Prop) : ~ P -> m s = None -> works P m s Q.
Proof. unfold works. by intros ? ->. Qed.

Lemma works_ret {A} (a : A) s (Q : A -> St -> list Ev -> Prop) : Q a s [] -> works P (mret a) s Q.
Proof. done. Qed.
Lemma works_bind {A B} (m : handler St Ev A) (k : A -> handler St Ev B) s Q :
  works P m s (fun a s1 o1 => works P (k a) s1 (fun b s2 o2 => Q b s2 (o1 ++ o2))) -> works P (m ≫= k) s Q.
Proof.
  unfold works, mbind, handler_bind. destruct (m s) as [[[a s1] o1]|]; [|done]. by destruct (k a s1) as [[[b s2] o2]|].
Qed.
Lemma works_get s (Q : St -> St -> list Ev -> Prop) : Q s s [] -> works P get s Q.
Proof. done. Qed.
Lemma works_modify f s (Q : unit -> St -> list Ev -> Prop) : Q tt (f s) [] -> works P (modify f) s Q.
Proof. done. Qed.
Lemma works_emit e s (Q : unit -> St -> list Ev -> Prop) : Q tt s [e] -> works P (emit e) s Q.
Proof. done. Qed.
Lemma works_emit_all es s (Q : unit -> St -> list Ev -> Prop) : Q tt s es -> works P (emit_all es) s Q.
Proof. done. Qed.
Lemma works_assertion b s (Q : unit -> St -> list Ev -> Prop) : b = true -> Q tt s [] -> works P (assertion b) s Q.
Proof. by intros ->. Qed.
Lemma works_when b m s (Q : unit -> St -> list Ev -> Prop) :
  (b = true -> works P m s Q) -> (b = false -> Q tt s []) -> works P (when b m) s Q.
Proof. destruct b; intros H1 H2; [by apply H1|]. apply works_ret. by apply H2. Qed.
Lemma works_if {A} (b : bool) (m1 m2 : handler St Ev A) s Q :
  (b = true -> works P m1 s Q) -> (b = false -> works P m2 s Q) -> works P (if b then m1 else m2) s Q.
Proof. destruct b; auto. Qed.
End Works.

(** Inversion of a successful run. *)
Lemma bind_inv {A B} (m : handler St Ev A) (k : A -> handler St Ev B) s b s2 o :
  (m ≫= k) s = Some (b, s2, o) ->
  exists a s1 o1 o2, m s = Some (a, s1, o1) /\ k a s1 = Some (b, s2, o2) /\ o = o1 ++ o2.
Proof.
  unfold mbind, handler_bind. destruct (m s) as [[[a s1] o1]|]; [|done].
  destruct (k a s1) as [[[b' s2'] o2]|] eqn:E; [|done]. intros [= <- <- <-]. eauto 10.
Qed.

(** [keeps R m]: whenever the handler returns, the states before and after are
    related by [R]. *)
Definition keeps {A} (R : St -> St -> Prop) (m : handler St Ev A) : Prop :=
  forall s a s' o, m s = Some (a, s', o) -> R s s'.

Section Keeps.
Context (R : St -> St -> Prop) `{!PreOrder R}.

Lemma keeps_ret {A} (a : A) : keeps R (mret a : handler St Ev A).
Proof. intros s ? s' o [= <- <- <-]. reflexivity. Qed.
Lemma keeps_get : keeps R get.
Proof. intros s ? s' o [= <- <- <-]. reflexivity. Qed.
Lemma keeps_emit e : keeps R (emit e).
Proof. intros s ? s' o [= <- <- <-]. reflexivity. Qed.
Lemma keeps_emit_all es : keeps R (emit_all es).
Proof. intros s ? s' o [= <- <- <-]. reflexivity. Qed.
Lemma keeps_assertion b : keeps R (assertion b).
Proof. intros s ? s' o. unfold assertion. destruct b; [|done]. intros [= <- <- <-]. reflexivity. Qed.
Lemma keeps_modify f : (forall s, R s (f s)) -> keeps R (modify f).
Proof. intros H s ? s' o [= <- <- <-]. apply H. Qed.
Lemma keeps_bind {A B} (m : handler St Ev A) (k : A -> handler St Ev B) :
  keeps R m -> (forall a, keeps R (k a)) -> keeps R (m ≫= k).
Proof. intros Hm Hk s b s2 o (a & s1 & o1 & o2 & E1 & E2 & _)%bind_inv. etrans; [by eapply Hm|by eapply Hk]. Qed.
Lemma keeps_when b m : keeps R m -> keeps R (when b m).
Proof. intros. destruct b; [done|]. apply keeps_ret. Qed.
Lemma keeps_if {A} (b : bool) (m1 m2 : handler St Ev A) : keeps R m1 -> keeps R m2 -> keeps R (if b then m1 else m2).
Proof. by destruct b. Qed.
End Keeps.

(** [emits P m]: whenever the handler returns, its events satisfy [P]. *)
Definition emits {A} (P : Ev -> Prop) (m : handler St Ev A) : Prop :=
  forall s a s' o, m s = Some (a, s', o) -> Forall P o.

Section Emits.
Context (P : Ev -> Prop).

Lemma emits_ret {A} (a : A) : emits P (mret a : handler St Ev A).
Proof. intros s ? s' o [= <- <- <-]. constructor. Qed.
Lemma emits_get : emits P get.
Proof. intros s ? s' o [= <- <- <-]. constructor. Qed.
Lemma emits_modify f : emits P (modify f).
Proof. intros s ? s' o [= <- <- <-]. constructor. Qed.
Lemma emits_emit e : P e -> emits P (emit e).
Proof. intros H s ? s' o [= <- <- <-]. by constructor. Qed.
Lemma emits_emit_all es : Forall P es -> emits P (emit_all es).
Proof. intros H s ? s' o [= <- <- <-]. done. Qed.
Lemma emits_assertion b : emits P (assertion b).
Proof. intros s ? s' o. unfold assertion. destruct b; [|done]. intros [= <- <- <-]. constructor. Qed.
Lemma emits_bind {A B} (m : handler St Ev A) (k : A -> handler St Ev B) :
  emits P m -> (forall a, emits P (k a)) -> emits P (m ≫= k).
Proof.
  intros Hm Hk s b s2 o (a & s1 & o1 & o2 & E1 & E2 & ->)%bind_inv.
  apply Forall_app. split; [by eapply Hm|by eapply Hk].
Qed.
Lemma emits_when b m : emits P m -> emits P (when b m).
Proof. intros. destruct b; [done|]. apply emits_ret. Qed.
Lemma emits_if {A} (b : bool) (m1 m2 : handler St Ev A) : emits P m1 -> emits P m2 -> emits P (if b then m1 else m2).
Proof. by destruct b. Qed.
End Emits.
End Handler.

(** Prove that a handler keeps a relation, structurally; the handlers it calls
    are left to [known] and the updates to [tac]. *)
Ltac keeps_tac known tac :=
  repeat first
    [ solve [known]
    | lazymatch goal with
      | |- keeps _ (_ ≫= _) => apply keeps_bind; [apply _| |intros ?]
      | |- keeps _ (mret _) => apply keeps_ret; apply _
      | |- keeps _ get => apply keeps_get; apply _
      | |- keeps _ (emit _) => apply keeps_emit; apply _
      | |- keeps _ (emit_all _) => apply keeps_emit_all; apply _
      | |- keeps _ (assertion _) => apply keeps_assertion; apply _
      | |- keeps _ (modify _) => apply keeps_modify; intros ?; tac
      | |- keeps _ (when _ _) => apply keeps_when; [apply _|]
      | |- keeps _ (if _ then _ else _) => apply keeps_if
      | |- keeps _ (let _ := _ in _) => cbv zeta
      | |- keeps _ (match ?x with _ => _ end) => destruct x
      end ].

Ltac emits_tac known tac :=
  repeat first
    [ solve [known]
    | lazymatch goal with
      | |- emits _ (_ ≫= _) => apply emits_bind; [|intros ?]
      | |- emits _ (mret _) => apply emits_ret
      | |- emits _ get => apply emits_get
      | |- emits _ (modify _) => apply emits_modify
      | |- emits _ (assertion _) => apply emits_assertion
      | |- emits _ (emit _) => apply emits_emit; tac
      | |- emits _ (emit_all _) => apply emits_emit_all; tac
      | |- emits _ (when _ _) => apply emits_when
      | |- emits _ (if _ then _ else _) => apply emits_if
      | |- emits _ (let _ := _ in _) => cbv zeta
      | |- emits _ (match ?x with _ => _ end) => destruct x
      end ].

Ltac hinj H :=
  first [injection H as <- <- <- | injection H as <- <- | injection H as <- | injection H; clear H; intros; subst].

(** Invert a successful run, one sequencing at a time. *)
Ltac hinv H :=
  lazymatch type of H with
  | (_ ≫= _) _ = Some _ =>
      let a := fresh "a" in let s := fresh "s" in let o1 := fresh "o" in let o2 := fresh "o" in
      let E1 := fresh "E" in let E2 := fresh "E" in
      apply bind_inv in H as (a & s & o1 & o2 & E1 & E2 & ->); hinv E1; hinv E2
  | get _ = Some _ => hinj H
  | modify _ _ = Some _ => hinj H
  | emit _ _ = Some _ => hinj H
  | emit_all _ _ = Some _ => hinj H
  | mret _ _ = Some _ => hinj H
  | assertion ?b _ = Some _ =>
      let B := fresh "B" in unfold assertion in H; destruct b eqn:B; [hinj H|discriminate H]
  | _ => idtac
  end.

(** One symbolic step of a handler. *)
Ltac hstep :=
  lazymatch goal with
  | |- runs (_ ≫= _) _ _ => apply runs_bind
  | |- runs (mret _) _ _ => apply runs_ret
  | |- runs get _ _ => apply runs_get
  | |- runs (modify _) _ _ => apply runs_modify
  | |- runs (emit _) _ _ => apply runs_emit
  | |- runs (emit_all _) _ _ => apply runs_emit_all
  | |- runs (assertion _) _ _ => apply runs_assertion
  | |- runs (when _ _) _ _ => apply runs_when; intros ?
  | |- runs (if _ then _ else _) _ _ => apply runs_if; intros ?
  | |- runs (let _ := _ in _) _ _ => cbv zeta
  | |- works _ (_ ≫= _) _ _ => apply works_bind
  | |- works _ (mret _) _ _ => apply works_ret
  | |- works _ get _ _ => apply works_get
  | |- works _ (modify _) _ _ => apply works_modify
  | |- works _ (emit _) _ _ => apply works_emit
  | |- works _ (emit_all _) _ _ => apply works_emit_all
  | |- works _ (assertion _) _ _ => apply works_assertion
  | |- works _ (when _ _) _ _ => apply works_when; intros ?
  | |- works _ (if _ then _ else _) _ _ => apply works_if; intros ?
  | |- works _ (let _ := _ in _) _ _ => cbv zeta
  end.

(** Compute a handler on a state. *)
Ltac hred :=
  cbv [mbind handler_bind mret handler_ret get modify emit emit_all assertion when]; cbn -[Z.modulo].
