(* ===== verification/IntervalSet.v ===== *)
(** The interval sets of src/ceph-15.2.17/src/include/interval_set.h: a set of
    64-bit integers kept as a [std::map] from start to length, with its cached
    size.  The template parameter [T] is [uint64_t], the instance BlueStore and
    the OSD use.  The file defines the operations of the class and proves that
    each refines the operation on mathematical sets. *)
From S2P Require Import Prelude.

(** ** The ordered map

    [std::map<T,T>] is the list of its (key, value) pairs in increasing key
    order. *)
Module OMap.

Definition t := list (Z * Z).

(** [m[k] = v]: overwrite the entry of [k] or create it at its place. *)
Fixpoint put (m : list (Z * Z)) (k v : Z) : list (Z * Z) :=
  match m with
  | [] => [(k, v)]
  | (k', v') :: m' =>
      if k <? k' then (k, v) :: m
      else if k =? k' then (k, v) :: m'
      else (k', v') :: put m' k v
  end.

(** [m.emplace_hint(_, k, v)] and [m.insert(_, {k, v})]: create the entry
    unless the key is present. *)
Fixpoint emplace (m : list (Z * Z)) (k v : Z) : list (Z * Z) :=
  match m with
  | [] => [(k, v)]
  | (k', v') :: m' =>
      if k <? k' then (k, v) :: m
      else if k =? k' then m
      else (k', v') :: emplace m' k v
  end.

(** An iterator is the position between the entries before it, nearest first,
    and the entries from it on; the end iterator has none of the latter. *)
Definition iter := (list (Z * Z) * list (Z * Z))%type.

(** The map an iterator points into. *)
Definition close (it : iter) : list (Z * Z) := rev_append it.1 it.2.

(** [m.lower_bound(k)]: the first entry whose key is not below [k]. *)
Fixpoint lower_bound_from (pre suf : list (Z * Z)) (k : Z) : iter :=
  match suf with
  | [] => (pre, [])
  | (k', v') :: suf' =>
      if k' <? k then lower_bound_from ((k', v') :: pre) suf' k else (pre, suf)
  end.

Definition lower_bound (m : list (Z * Z)) (k : Z) : iter := lower_bound_from [] m k.

End OMap.
Import OMap.

(** ** The class *)
Module interval_set.

Record interval_set := mk { size : Z; m : list (Z * Z) }.

Definition clear : interval_set := mk 0 [].

Definition empty (s : interval_set) : bool :=
  match m s with [] => true | _ => false end.

(** The entry that contains [start], or the first one after it. *)
Definition find_inc (m : list (Z * Z)) (start : Z) : iter :=
  let '(pre, suf) := lower_bound m start in
  match pre with
  | [] => (pre, suf)
  | (k, l) :: pre' =>
      if match suf with [] => true | (k2, _) :: _ => start <? k2 end then
        if add64 k l <=? start then (pre, suf) else (pre', (k, l) :: suf)
      else (pre, suf)
  end.

(** The entry that contains or touches [start], or the first one after it. *)
Definition find_adj (m : list (Z * Z)) (start : Z) : iter :=
  let '(pre, suf) := lower_bound m start in
  match pre with
  | [] => (pre, suf)
  | (k, l) :: pre' =>
      if match suf with [] => true | (k2, _) :: _ => start <? k2 end then
        if add64 k l <? start then (pre, suf) else (pre', (k, l) :: suf)
      else (pre, suf)
  end.

(** [contains(i)]. *)
Definition contains1 (s : interval_set) (i : Z) : option bool :=
  match (find_inc (m s) i).2 with
  | [] => Some false
  | (k, l) :: _ =>
      if i <? k then Some false
      else if add64 k l <=? i then Some false
      else ceph_assert ((k <=? i) && (i <? add64 k l)) ;; Some true
  end.

(** [contains(start, len)]. *)
Definition contains (s : interval_set) (start len : Z) : option bool :=
  match (find_inc (m s) start).2 with
  | [] => Some false
  | (k, l) :: _ =>
      if start <? k then Some false
      else if add64 k l <=? start then Some false
      else ceph_assert ((k <=? start) && (start <? add64 k l)) ;;
        Some (negb (add64 k l <? add64 start len))
  end.

Definition range_start (s : interval_set) : option Z :=
  match m s with [] => ceph_abort | (k, _) :: _ => Some k end.

Definition range_end (s : interval_set) : option Z :=
  match last (m s) with None => ceph_abort | Some (k, l) => Some (add64 k l) end.

(** [insert(start, len, pstart, plen)]: the set, and what the two optional
    output arguments receive. *)
Definition insert_out (s : interval_set) (start len : Z)
  : option (interval_set * Z * Z) :=
  ceph_assert (0 <? len) ;;
  let sz := add64 (size s) len in
  let p := find_adj (m s) start in
  match p.2 with
  | [] => Some (mk sz (put (m s) start len), start, len)
  | (k, l) :: suf =>
      if k <? start then
        if negb (add64 k l =? start) then ceph_abort
        else
          let l1 := add64 l len in
          match suf with
          | (k2, l2) :: suf' =>
              if add64 start len =? k2 then
                Some (mk sz (close (p.1, (k, add64 l1 l2) :: suf')), k, add64 l1 l2)
              else Some (mk sz (close (p.1, (k, l1) :: suf)), k, l1)
          | [] => Some (mk sz (close (p.1, [(k, l1)])), k, l1)
          end
      else if add64 start len =? k then
        Some (mk sz (put (close (p.1, suf)) start (add64 len l)), start, add64 len l)
      else
        ceph_assert (add64 start len <? k) ;;
        Some (mk sz (put (m s) start len), start, len)
  end.

Definition insert (s : interval_set) (start len : Z) : option interval_set :=
  '(s', _, _) ← insert_out s start len; Some s'.

(** [erase(start, len, claim)].  [claim] decides which of the two remainders
    the caller takes away; it is [None] when the argument is defaulted.  The
    assertion [_size >= 0] of the code is always true of a [uint64_t]. *)
Definition erase_claim (claim : option (Z -> Z -> bool)) (s : interval_set)
    (start len : Z) : option interval_set :=
  let p := find_inc (m s) start in
  let sz := sub64 (size s) len in
  match p.2 with
  | [] => ceph_abort
  | (k, l) :: suf =>
      ceph_assert (k <=? start) ;;
      let before := sub64 start k in
      ceph_assert (add64 before len <=? l) ;;
      let after := sub64 (sub64 l before) len in
      let claimed a b := match claim with None => false | Some f => f a b end in
      let '(sz1, m1) :=
        if negb (before =? 0) then
          if claimed k before then (sub64 sz before, close (p.1, suf))
          else (sz, close (p.1, (k, before) :: suf))
        else (sz, close (p.1, suf)) in
      if negb (after =? 0) then
        if claimed (add64 start len) after then Some (mk (sub64 sz1 after) m1)
        else Some (mk sz1 (put m1 (add64 start len) after))
      else Some (mk sz1 m1)
  end.

Definition erase := erase_claim None.

(** [subtract(a)]: erase every interval of [a]. *)
Definition subtract (s a : interval_set) : option interval_set :=
  foldl (fun r '(start, len) => s' ← r; erase s' start len) (Some s) (m a).

(** [insert(a)]: insert every interval of [a]. *)
Definition insert_set (s a : interval_set) : option interval_set :=
  foldl (fun r '(start, len) => s' ← r; insert s' start len) (Some s) (m a).

(** The [do .. while] over equal heads, shared by the two intersections. *)
Fixpoint take_equal (pa pb : list (Z * Z)) (acc : interval_set)
  : list (Z * Z) * list (Z * Z) * interval_set :=
  match pa, pb with
  | (ka, la) :: pa', (kb, lb) :: pb' =>
      if (ka =? kb) && (la =? lb) then
        take_equal pa' pb' (mk (add64 (size acc) la) (emplace (m acc) ka la))
      else (pa, pb, acc)
  | _, _ => (pa, pb, acc)
  end.

(** The sequential intersection.  [None] is a failed assertion or exhausted
    fuel; [inter_fuel] is enough. *)
Fixpoint inter_loop (fuel : nat) (pa pb : list (Z * Z)) (acc : interval_set)
  : option interval_set :=
  match fuel with
  | O => None
  | S fuel =>
      match pa, pb with
      | (ka, la) :: pa', (kb, lb) :: pb' =>
          if add64 ka la <=? kb then inter_loop fuel pa' pb acc
          else if add64 kb lb <=? ka then inter_loop fuel pa pb' acc
          else if (ka =? kb) && (la =? lb) then
            let '(pa2, pb2, acc2) := take_equal pa pb acc in
            inter_loop fuel pa2 pb2 acc2
          else
            let start := Z.max ka kb in
            let en := Z.min (add64 ka la) (add64 kb lb) in
            ceph_assert (start <? en) ;;
            let acc2 := mk (add64 (size acc) (sub64 en start))
                           (emplace (m acc) start (sub64 en start)) in
            if add64 kb lb <? add64 ka la then inter_loop fuel pa pb' acc2
            else inter_loop fuel pa' pb acc2
      | _, _ => Some acc
      end
  end.

(** [while (ps != s.m.end() && ps->first + ps->second <= pl->first) ++ps]. *)
Fixpoint skip_before (ps : list (Z * Z)) (k : Z) : list (Z * Z) :=
  match ps with
  | (ks, ls) :: ps' => if add64 ks ls <=? k then skip_before ps' k else ps
  | [] => []
  end.

(** The [lower_bound] intersection of a small set with a large one. *)
Fixpoint asym_loop (fuel : nat) (ps l : list (Z * Z)) (offset : Z)
    (acc : interval_set) : option interval_set :=
  match fuel with
  | O => None
  | S fuel =>
      match (find_inc l offset).2 with
      | [] => Some acc
      | ((kl, ll) :: pl') as pl =>
          match skip_before ps kl with
          | [] => Some acc
          | ((ks, ls) :: ps') as ps1 =>
              let offset1 := add64 kl ll in
              if offset1 <=? ks then asym_loop fuel ps1 l ks acc
              else if (ks =? kl) && (ls =? ll) then
                let '(ps2, _, acc2) := take_equal ps1 pl acc in
                match ps2 with
                | [] => Some acc2
                | (ks2, _) :: _ => asym_loop fuel ps2 l ks2 acc2
                end
              else
                let start := Z.max ks kl in
                let en := Z.min (add64 ks ls) offset1 in
                ceph_assert (start <? en) ;;
                let acc2 := mk (add64 (size acc) (sub64 en start))
                               (emplace (m acc) start (sub64 en start)) in
                if add64 ks ls <=? offset1 then
                  match ps' with
                  | [] => Some acc2
                  | (ks2, _) :: _ => asym_loop fuel ps' l ks2 acc2
                  end
                else asym_loop fuel ps1 l offset1 acc2
          end
      end
  end.

Definition inter_fuel (a b : interval_set) : nat := S (length (m a) + length (m b)).

Definition intersection_size_asym (s l : interval_set) : option interval_set :=
  match m s with
  | [] => ceph_abort
  | (k, _) :: _ => asym_loop (inter_fuel s l) (m s) (m l) k clear
  end.

(** [intersection_of(a, b)]: chooses between the two algorithms by the ratio
    of the sizes. *)
Definition intersection_of (a b : interval_set) : option interval_set :=
  let '(s, l) := if size a <? size b then (a, b) else (b, a) in
  if size s =? 0 then Some clear
  else if 10 <=? size l / size s then intersection_size_asym s l
  else inter_loop (inter_fuel a b) (m a) (m b) clear.

(** [union_of(a, b)]: a, minus their intersection, plus b. *)
Definition union_of (a b : interval_set) : option interval_set :=
  ab ← intersection_of a b;
  s ← subtract a ab;
  insert_set s b.

Definition union_insert (s : interval_set) (off len : Z) : option interval_set :=
  a ← insert clear off len; union_of s a.

Definition intersects (s : interval_set) (start len : Z) : option bool :=
  a ← insert clear start len;
  i ← intersection_of s a;
  Some (negb (empty i)).

(** [while (pb->first + pb->second <= pa->first)]: [None] when [pb] runs out. *)
Fixpoint pass_before (pb : list (Z * Z)) (k : Z) : option (list (Z * Z)) :=
  match pb with
  | [] => None
  | (kb, lb) :: pb' => if add64 kb lb <=? k then pass_before pb' k else Some pb
  end.

Fixpoint skip_equal (pa pb : list (Z * Z)) : list (Z * Z) * list (Z * Z) :=
  match pa, pb with
  | (ka, la) :: pa', (kb, lb) :: pb' =>
      if (ka =? kb) && (la =? lb) then skip_equal pa' pb' else (pa, pb)
  | _, _ => (pa, pb)
  end.

Fixpoint subset_loop (fuel : nat) (pa pb : list (Z * Z)) : option bool :=
  match fuel with
  | O => None
  | S fuel =>
      match pa, pb with
      | (ka, la) :: pa', _ :: _ =>
          match pass_before pb ka with
          | None => Some false
          | Some pb1 =>
              match pb1 with
              | [] => None
              | (kb, lb) :: _ =>
                  if (ka =? kb) && (la =? lb) then
                    let '(pa2, pb2) := skip_equal pa pb1 in subset_loop fuel pa2 pb2
                  else if ka <? kb then Some false
                  else if add64 kb lb <? add64 ka la then Some false
                  else subset_loop fuel pa' pb1
              end
          end
      | [], _ => Some true
      | _ :: _, [] => Some false
      end
  end.

Definition subset_size_sym (a b : interval_set) : option bool :=
  subset_loop (S (length (m a))) (m a) (m b).

(** The [for] of [subset_of]: every interval is inside [big]. *)
Fixpoint all_contained (l : list (Z * Z)) (big : interval_set) : option bool :=
  match l with
  | [] => Some true
  | (start, len) :: l' =>
      c ← contains big start len;
      if negb c then Some false else all_contained l' big
  end.

Definition subset_of (s big : interval_set) : option bool :=
  if size s =? 0 then Some true
  else if size big <? size s then Some false
  else
    e ← range_end s;
    be ← range_end big;
    if be <? e then Some false
    else if size big / size s <? 10 then subset_size_sym s big
    else all_contained (m s) big.

(** The [while] of [span_of]. *)
Fixpoint span_loop (p : list (Z * Z)) (len : Z) (acc : interval_set)
  : option interval_set :=
  match p with
  | [] => Some acc
  | (k, l) :: p' =>
      if 0 <? len then
        if l <? len then acc' ← insert acc k l; span_loop p' (sub64 len l) acc'
        else insert acc k len
      else Some acc
  end.

Definition span_of (other : interval_set) (start len : Z) : option interval_set :=
  match (find_inc (m other) start).2 with
  | [] => Some clear
  | ((k, l) :: p') as p =>
      if k <? start then
        if add64 k l <? start then Some clear
        else if add64 k l <? add64 start len then
          let howmuch := sub64 l (sub64 start k) in
          acc ← insert clear start howmuch;
          span_loop p' (sub64 len howmuch) acc
        else insert clear start len
      else span_loop p len clear
  end.

End interval_set.

(** ** The set a map denotes, and well-formed maps *)
Module IntervalFacts.
Import interval_set.

(** [x] is in one of the intervals. *)
Fixpoint mem (x : Z) (m : list (Z * Z)) : Prop :=
  match m with
  | [] => False
  | (k, l) :: m' => k <= x < k + l \/ mem x m'
  end.

(** Increasing, non-empty, pairwise non-adjacent intervals from [lo] on, each
    ending below [2^64]. *)
Fixpoint wf_from (lo : Z) (m : list (Z * Z)) : Prop :=
  match m with
  | [] => True
  | (k, l) :: m' => lo <= k /\ 0 < l /\ k + l < two64 /\ wf_from (k + l + 1) m'
  end.

(** Where an interval appended to [m] may start. *)
Fixpoint next (lo : Z) (m : list (Z * Z)) : Z :=
  match m with [] => lo | (k, l) :: m' => next (k + l + 1) m' end.

Fixpoint total (m : list (Z * Z)) : Z :=
  match m with [] => 0 | (_, l) :: m' => l + total m' end.

(** The class invariant: canonical intervals and an exact cached size. *)
Definition wf (s : interval_set) : Prop := wf_from 0 (m s) /\ size s = total (m s).

(** Membership in a set of the class. *)
Definition In_set (x : Z) (s : interval_set) : Prop := mem x (m s).

Lemma mem_app x m1 m2 : mem x (m1 ++ m2) <-> mem x m1 \/ mem x m2.
Proof. induction m1 as [|[k l] m1 IH]; simpl; tauto. Qed.

Lemma total_app m1 m2 : total (m1 ++ m2) = total m1 + total m2.
Proof. induction m1 as [|[k l] m1 IH]; simpl; lia. Qed.

Lemma wf_from_app lo m1 m2 :
  wf_from lo (m1 ++ m2) <-> wf_from lo m1 /\ wf_from (next lo m1) m2.
Proof. revert lo. induction m1 as [|[k l] m1 IH]; intros lo; simpl; [tauto|]. rewrite IH. tauto. Qed.

Lemma next_app lo m1 m2 : next lo (m1 ++ m2) = next (next lo m1) m2.
Proof. revert lo. induction m1 as [|[k l] m1 IH]; intros lo; simpl; auto. Qed.

Lemma wf_from_weaken lo lo' m : lo' <= lo -> wf_from lo m -> wf_from lo' m.
Proof. destruct m as [|[k l] m]; simpl; intuition lia. Qed.

Lemma mem_bounds lo m x : wf_from lo m -> mem x m -> lo <= x < two64.
Proof.
  revert lo. induction m as [|[k l] m IH]; intros lo; simpl; [tauto|].
  intros (?&?&?&Hm) [?|Hx]; [lia|]. specialize (IH _ Hm Hx). lia.
Qed.

Lemma next_ge lo m : wf_from lo m -> lo <= next lo m.
Proof.
  revert lo. induction m as [|[k l] m IH]; intros lo; simpl; [lia|].
  intros (?&?&?&Hm). specialize (IH _ Hm). lia.
Qed.

Lemma next_le lo m : 0 <= lo <= two64 -> wf_from lo m -> next lo m <= two64.
Proof.
  revert lo. induction m as [|[k l] m IH]; intros lo; simpl; [lia|].
  intros ? (?&?&?&Hm). apply IH; [lia|done].
Qed.

Lemma mem_lt_next lo m x : wf_from lo m -> mem x m -> x < next lo m - 1.
Proof.
  revert lo. induction m as [|[k l] m IH]; intros lo; simpl; [tauto|].
  intros (?&?&?&Hm) [?|Hx]; [|by apply IH]. pose proof (next_ge _ _ Hm). lia.
Qed.

Lemma total_nonneg lo m : wf_from lo m -> 0 <= total m.
Proof.
  revert lo. induction m as [|[k l] m IH]; intros lo; simpl; [lia|].
  intros (?&?&?&Hm). specialize (IH _ Hm). lia.
Qed.

Lemma total_bound lo m : 0 <= lo -> wf_from lo m -> total m <= next lo m - lo.
Proof.
  revert lo. induction m as [|[k l] m IH]; intros lo; simpl; [lia|].
  intros ? (?&?&?&Hm). specialize (IH (k + l + 1) ltac:(lia) Hm). lia.
Qed.

Lemma total_lt lo m : 0 <= lo < two64 -> wf_from lo m -> 0 <= total m < two64.
Proof.
  intros Hlo Hm. destruct m as [|[k l] m]; [simpl; lia|].
  pose proof (total_nonneg _ _ Hm). destruct Hm as (?&?&?&Hm). simpl in *.
  pose proof (total_bound (k + l + 1) m ltac:(lia) Hm).
  pose proof (next_le (k + l + 1) m ltac:(lia) Hm). lia.
Qed.

Lemma total_zero lo m : wf_from lo m -> total m = 0 -> m = [].
Proof.
  destruct m as [|[k l] m]; [done|]. intros (?&?&?&Hm); simpl.
  pose proof (total_nonneg _ _ Hm). lia.
Qed.

(** *** The map operations at a position *)

Lemma close_eq pre suf : close (pre, suf) = rev pre ++ suf.
Proof. unfold close. simpl. by rewrite rev_append_rev. Qed.

Lemma put_app m1 m2 k v lo :
  wf_from lo m1 -> next lo m1 <= k + 1 ->
  Forall (fun e => k < e.1) m2 ->
  put (m1 ++ m2) k v = m1 ++ (k, v) :: m2.
Proof.
  revert lo. induction m1 as [|[k' l'] m1 IH]; intros lo; simpl.
  - intros _ _ Hm2. destruct m2 as [|[k2 l2] m2]; simpl; [done|].
    apply Forall_cons in Hm2 as [Hk _]; simpl in Hk. case_tests; [done|lia..].
  - intros (?&?&?&Hm) Hn Hm2. pose proof (next_ge _ _ Hm).
    case_tests; [lia..|]. f_equal. by eapply IH.
Qed.

Lemma emplace_end m k v lo :
  wf_from lo m -> next lo m <= k -> emplace m k v = m ++ [(k, v)].
Proof.
  revert lo. induction m as [|[k' l'] m IH]; intros lo; simpl; [done|].
  intros (?&?&?&Hm) Hn. pose proof (next_ge _ _ Hm).
  case_tests; [lia..|]. f_equal. by eapply IH.
Qed.

Lemma wf_from_keys lo m : wf_from lo m -> Forall (fun e => lo <= e.1) m.
Proof.
  revert lo. induction m as [|[k l] m IH]; intros lo; simpl; [done|].
  intros (?&?&?&Hm). constructor; simpl; [lia|].
  eapply Forall_impl; [by apply (IH (k + l + 1))|]. intros [??]; simpl; lia.
Qed.

(** [find_inc] and [find_adj] split the map at the position they return. *)
Lemma lower_bound_from_spec pre suf k :
  exists m1 m2, suf = m1 ++ m2 /\ lower_bound_from pre suf k = (rev m1 ++ pre, m2) /\
    Forall (fun e => e.1 < k) m1 /\
    match m2 with [] => True | (k2, _) :: _ => k <= k2 end.
Proof.
  revert pre. induction suf as [|[k' v'] suf IH]; intros pre; simpl.
  - by exists [], [].
  - case_tests.
    + destruct (IH ((k', v') :: pre)) as (m1 & m2 & -> & -> & ? & ?).
      exists ((k', v') :: m1), m2. simpl. rewrite <- app_assoc. simpl. auto.
    + exists [], ((k', v') :: suf). simpl. auto with lia.
Qed.

(** A position of the map: everything before it ends before [x + d], and the
    entry at it, if any, does not.  [find_inc] is the case [d = 1], [find_adj]
    the case [d = 0]. *)
Definition splits (d : Z) (m : list (Z * Z)) (x : Z) (it : iter) : Prop :=
  m = rev it.1 ++ it.2 /\
  next 0 (rev it.1) <= x + d /\
  match it.2 with [] => True | (k, l) :: _ => x + d <= k + l end.

Lemma lower_bound_spec m x :
  exists pre suf, lower_bound m x = (pre, suf) /\ m = rev pre ++ suf /\
    Forall (fun e => e.1 < x) pre /\
    match suf with [] => True | (k, _) :: _ => x <= k end.
Proof.
  destruct (lower_bound_from_spec [] m x) as (m1 & m2 & -> & Heq & Hlt & Hm2).
  exists (rev m1), m2. unfold lower_bound. rewrite Heq, app_nil_r, rev_involutive.
  split_and!; try done. by apply Forall_rev.
Qed.

(** The two searches differ in the test for leaving the previous entry. *)
Lemma find_split (stop : Z -> Z -> bool) d m x :
  wf_from 0 m ->
  (forall a, stop a x = (a <? x + d)) ->
  0 <= d <= 1 -> 0 <= x ->
  splits d m x
   (let '(pre, suf) := lower_bound m x in
    match pre with
    | [] => (pre, suf)
    | (k, l) :: pre' =>
        if match suf with [] => true | (k2, _) :: _ => x <? k2 end then
          if stop (add64 k l) x then (pre, suf) else (pre', (k, l) :: suf)
        else (pre, suf)
    end).
Proof.
  intros Hwf Hstop Hd Hx. unfold splits.
  destruct (lower_bound_spec m x) as (pre & suf & -> & -> & Hpre & Hsuf).
  apply wf_from_app in Hwf as [Hwp Hws].
  destruct pre as [|[k l] pre]; simpl in *.
  { split_and!; [done|lia|]. destruct suf as [|[k l] suf]; [done|].
    simpl in Hws. lia. }
  apply wf_from_app in Hwp as [Hwp Hwk]. simpl in Hwk.
  apply Forall_cons in Hpre as [Hkx Hpre]; simpl in Hkx.
  pose proof (next_ge _ _ Hwp) as Hng.
  rewrite next_app in Hws. simpl in Hws.
  rewrite add64_small, Hstop by lia.
  destruct suf as [|[k2 l2] suf]; [|destruct (Z.ltb_spec x k2)];
    [destruct (Z.ltb_spec (k + l) (x + d))|destruct (Z.ltb_spec (k + l) (x + d))|];
    simpl in *; rewrite ?next_app, <-?app_assoc; simpl; split_and!; try done; lia.
Qed.

Lemma find_inc_spec m x : wf_from 0 m -> 0 <= x -> splits 1 m x (find_inc m x).
Proof.
  intros. apply (find_split Z.leb); [done| |lia|done].
  intros a. destruct (Z.leb_spec a x), (Z.ltb_spec a (x + 1)); done || lia.
Qed.

Lemma find_adj_spec m x : wf_from 0 m -> 0 <= x -> splits 0 m x (find_adj m x).
Proof. intros. apply (find_split Z.ltb); [done| |lia|done]. intros a. by rewrite Z.add_0_r. Qed.

(** From a position on, membership is membership in the entries after it. *)
Lemma splits_mem d m x pre suf y :
  wf_from 0 m -> splits d m x (pre, suf) -> x + d <= y + 1 ->
  mem y m <-> mem y suf.
Proof.
  intros Hwf (Hm & Hpre & _) Hy. simpl in *. subst m. apply wf_from_app in Hwf as [Hwp _].
  rewrite mem_app. split; [|auto]. intros [Hx|]; [|done].
  pose proof (mem_lt_next _ _ _ Hwp Hx). lia.
Qed.

(** At or before the end of the first entry, only that entry matters. *)
Lemma mem_head lo k l m y :
  wf_from lo ((k, l) :: m) -> y <= k + l -> mem y ((k, l) :: m) <-> k <= y < k + l.
Proof.
  simpl. intros (?&?&?&Hm) Hy. split; [|auto]. intros [|Hx]; [done|].
  pose proof (mem_bounds _ _ _ Hm Hx). lia.
Qed.

Lemma contains1_spec s x :
  wf s -> 0 <= x -> exists b, contains1 s x = Some b /\ (b = true <-> In_set x s).
Proof.
  intros [Hwf _] Hx. unfold contains1, In_set.
  pose proof (find_inc_spec _ _ Hwf Hx) as Hs. destruct (find_inc (m s) x) as [pre suf].
  setoid_rewrite (splits_mem _ _ _ _ _ x Hwf Hs ltac:(lia)).
  destruct Hs as (Hm & _ & Hsuf). rewrite Hm in Hwf. apply wf_from_app in Hwf as [Hwp Hws].
  simpl in *. destruct suf as [|[k l] suf]; [exists false; naive_solver|].
  pose proof (next_ge _ _ Hwp). setoid_rewrite (mem_head _ _ _ _ x Hws ltac:(lia)).
  destruct Hws as (?&?&?&_). unwrap64.
  case_tests; try lia; eexists; (split; [done|]); split; intros; done || lia.
Qed.

Lemma contains_spec s start len :
  wf s -> 0 <= start -> 0 < len -> start + len < two64 ->
  exists b, contains s start len = Some b /\
    (b = true <-> forall x, start <= x < start + len -> In_set x s).
Proof.
  intros [Hwf _] Hx Hl Hsl. unfold contains, In_set.
  pose proof (find_inc_spec _ _ Hwf Hx) as Hs. destruct (find_inc (m s) start) as [pre suf].
  assert (forall y, start <= y -> mem y (m s) <-> mem y suf) as Hmem.
  { intros y ?. apply (splits_mem _ _ _ _ _ y Hwf Hs). lia. }
  destruct Hs as (Hm & _ & Hsuf). rewrite Hm in Hwf. apply wf_from_app in Hwf as [Hwp Hws].
  simpl in *. destruct suf as [|[k l] suf].
  { exists false. split; [done|]. split; [done|]. intros H.
    destruct (proj1 (Hmem start ltac:(lia)) (H start ltac:(lia))). }
  pose proof (next_ge _ _ Hwp).
  assert (forall y, start <= y <= k + l -> mem y (m s) <-> k <= y < k + l) as Hh.
  { simpl in Hsuf. intros y ?. rewrite Hmem by lia. apply (mem_head _ _ _ _ y Hws). lia. }
  simpl in Hsuf. destruct Hws as (?&?&?&_). unwrap64.
  case_tests; try lia; eexists; (split; [done|]); split; intros Hb; try done.
  - specialize (Hb start ltac:(lia)). rewrite Hh in Hb; lia.
  - destruct (Z.ltb_spec (k + l) (start + len)); [done|].
    intros y ?. apply Hh; lia.
  - destruct (Z.ltb_spec (k + l) (start + len)); [|done].
    specialize (Hb (k + l) ltac:(lia)). rewrite Hh in Hb; lia.
Qed.

(** What [insert] must produce. *)
Definition adds (s s' : interval_set) (start len : Z) : Prop :=
  wf s' /\ size s' = size s + len /\
  forall x, In_set x s' <-> In_set x s \/ start <= x < start + len.


(** Rebuilding the entries after a position is enough to add an interval. *)
Lemma adds_of_map s pre suf suf' start len :
  wf s -> m s = rev pre ++ suf -> 0 < len ->
  wf_from (next 0 (rev pre)) suf' -> total suf' = total suf + len ->
  (forall x, mem x suf' <-> mem x suf \/ start <= x < start + len) ->
  adds s (mk (add64 (size s) len) (rev pre ++ suf')) start len.
Proof.
  intros [Hwf Hsz] Hm Hl Hwf' Htot Hmem. unfold adds, wf, In_set; simpl. rewrite Hm in *.
  apply wf_from_app in Hwf as [Hwp Hws]. rewrite !total_app in *.
  assert (wf_from 0 (rev pre ++ suf')) as Hw by by apply wf_from_app.
  pose proof (total_lt 0 _ ltac:(lia) Hw) as Hlt. rewrite total_app in Hlt.
  pose proof (total_nonneg _ _ Hwp). pose proof (total_nonneg _ _ Hws).
  unwrap64. split_and!; [done|lia|lia|]. intros x. rewrite !mem_app, Hmem. tauto.
Qed.

Ltac insert_case :=
  rewrite ?close_eq; eexists _, _, _; split; [done|]; split;
  [eapply adds_of_map; [eassumption|eassumption|lia|simpl|simpl; lia|intros ?; simpl; intuition lia];
     split_and!; try lia; try done; (eapply wf_from_weaken; [|eassumption]; lia)
  |split; [set_solver|lia]].

Lemma insert_out_spec s start len :
  wf s -> 0 <= start -> 0 < len -> start + len < two64 ->
  (forall x, start <= x < start + len -> ~ In_set x s) ->
  exists s' pstart plen, insert_out s start len = Some (s', pstart, plen) /\
    adds s s' start len /\ (pstart, plen) ∈ m s' /\
    pstart <= start /\ start + len <= pstart + plen.
Proof.
  intros Hwfs Hx Hl Hsl Hdis. pose proof Hwfs as [Hwf Hsz]. unfold insert_out, In_set in *.
  rewrite (proj2 (Z.ltb_lt 0 len)) by done.
  pose proof (find_adj_spec _ _ Hwf Hx) as Hs. destruct (find_adj (m s) start) as [pre suf].
  assert (forall y, start <= y -> mem y (m s) <-> mem y suf) as Hmem.
  { intros y ?. apply (splits_mem _ _ _ _ _ y Hwf Hs). lia. }
  destruct Hs as (Hm & Hpre & Hsuf). pose proof Hm as Hm'.
  rewrite Hm in Hwf. apply wf_from_app in Hwf as [Hwp Hws].
  pose proof (next_ge _ _ Hwp). simpl in *.
  destruct suf as [|[k l] suf]; simpl in *.
  { rewrite Hm, (put_app _ _ _ _ 0) by (done || lia). insert_case. }
  destruct Hws as (?&?&?&Hws). pose proof (Hmem start ltac:(lia)) as Hst.
  pose proof (Hdis start ltac:(lia)). unwrap64. destruct (Z.ltb_spec k start).
  - assert (k + l = start) as Hkl by (rewrite Hst in *; lia). subst start.
    rewrite Z.eqb_refl. simpl. destruct suf as [|[k2 l2] suf]; simpl in *.
    { unwrap64. insert_case. }
    assert (k + l + len <= k2).
    { apply Z.le_ngt. intros ?. apply (Hdis k2 ltac:(lia)). apply Hmem; lia. }
    destruct Hws as (?&?&?&Hws).
    unwrap64. destruct (Z.eqb_spec (k + l + len) k2); unwrap64; insert_case.
  - assert (start + len <= k).
    { apply Z.le_ngt. intros ?. apply (Hdis k ltac:(lia)). apply Hmem; lia. }
    destruct (Z.eqb_spec (start + len) k).
    + rewrite close_eq, (put_app _ _ _ _ 0); [|done|lia|].
      * unwrap64. insert_case.
      * eapply Forall_impl; [by apply wf_from_keys|]. simpl. lia.
    + rewrite (proj2 (Z.ltb_lt _ _)) by lia. rewrite Hm, (put_app _ _ _ _ 0); [|done|lia|].
      * insert_case.
      * constructor; [simpl; lia|]. eapply Forall_impl; [by apply wf_from_keys|]. simpl. lia.
Qed.

(** The part of the set [erase] removes: the range itself, and the remainders
    of its interval [k, k + l) that the caller claims. *)
Definition erased (claimed : Z -> Z -> bool) (k l start len x : Z) : Prop :=
  start <= x < start + len \/
  (if claimed k (start - k) then k <= x < start else False) \/
  (if claimed (start + len) (k + l - (start + len)) then start + len <= x < k + l else False).

Definition claims (claim : option (Z -> Z -> bool)) (a b : Z) : bool :=
  match claim with None => false | Some f => f a b end.

(** Rebuilding the entries after a position shrinks the set. *)
Lemma removes_of_map s pre suf suf' sz (P : Z -> Prop) :
  wf s -> m s = rev pre ++ suf -> wf_from (next 0 (rev pre)) suf' ->
  sz = size s - total suf + total suf' ->
  (forall x, mem x suf' <-> mem x suf /\ ~ P x) ->
  (forall x, mem x (rev pre) -> ~ P x) ->
  wf (mk sz (rev pre ++ suf')) /\
  (forall x, In_set x (mk sz (rev pre ++ suf')) <-> In_set x s /\ ~ P x).
Proof.
  intros [Hwf Hsz] Hm Hw Hz Hmem Hpre. unfold wf, In_set; simpl. rewrite Hm in *.
  apply wf_from_app in Hwf as [Hwp Hws]. rewrite !total_app in *.
  split; [split; [by apply wf_from_app|lia]|].
  intros x. rewrite !mem_app, Hmem. specialize (Hpre x). tauto.
Qed.

Lemma erase_claim_spec claim s start len :
  wf s -> 0 <= start -> 0 < len -> start + len < two64 ->
  (forall x, start <= x < start + len -> In_set x s) ->
  exists s' k l, erase_claim claim s start len = Some s' /\
    (k, l) ∈ m s /\ k <= start /\ start + len <= k + l /\
    wf s' /\ forall x, In_set x s' <-> In_set x s /\ ~ erased (claims claim) k l start len x.
Proof.
  intros Hwfs Hx Hl Hsl Hin. pose proof Hwfs as [Hwf Hsz]. unfold erase_claim, In_set in *.
  pose proof (find_inc_spec _ _ Hwf Hx) as Hs. destruct (find_inc (m s) start) as [pre suf].
  assert (forall y, start <= y -> mem y (m s) <-> mem y suf) as Hmem.
  { intros y ?. apply (splits_mem _ _ _ _ _ y Hwf Hs). lia. }
  destruct Hs as (Hm & Hpre & Hsuf). simpl in *.
  pose proof (total_lt 0 _ ltac:(lia) Hwf) as Htot.
  rewrite Hm in Hwf. apply wf_from_app in Hwf as [Hwp Hws].
  pose proof (next_ge _ _ Hwp). pose proof (total_nonneg _ _ Hwp).
  destruct suf as [|[k l] suf]; simpl in *.
  { destruct (proj1 (Hmem start ltac:(lia)) (Hin start ltac:(lia))). }
  assert (forall y, start <= y <= k + l -> mem y (m s) <-> k <= y < k + l) as Hh.
  { intros y ?. rewrite Hmem by lia. apply (mem_head _ _ _ _ y Hws). lia. }
  assert (k <= start) by (apply (Hh start ltac:(lia)), Hin; lia).
  assert (start + len <= k + l).
  { apply Z.le_ngt. intros ?. assert (k <= k + l < k + l); [|lia].
    apply (Hh (k + l) ltac:(lia)), Hin; lia. }
  destruct Hws as (?&?&?&Hws). pose proof (total_nonneg _ _ Hws).
  pose proof (fun y => mem_bounds _ _ y Hws) as Htl.
  assert (forall y, mem y (rev pre) -> y < k) as Hlo.
  { intros y Hy. pose proof (mem_lt_next _ _ _ Hwp Hy). lia. }
  rewrite Hm, total_app in Hsz, Htot; simpl in Hsz, Htot.
  rewrite (proj2 (Z.leb_le k start)) by done. unwrap64.
  rewrite (proj2 (Z.leb_le _ _)) by lia. unwrap64.
  replace (l - (start - k) - len) with (k + l - (start + len)) by lia.
  fold (claims claim k (start - k)).
  fold (claims claim (start + len) (k + l - (start + len))).
  assert (Forall (fun e : Z * Z => start + len < e.1) suf) as Hkeys.
  { eapply Forall_impl; [by apply wf_from_keys|]. simpl. lia. }
  assert (forall v, put (rev pre ++ suf) (start + len) v = rev pre ++ (start + len, v) :: suf) as Hp1.
  { intros v. apply (put_app _ _ _ _ 0); [done|lia|done]. }
  assert (forall v, put (rev pre ++ (k, start - k) :: suf) (start + len) v =
    rev pre ++ (k, start - k) :: (start + len, v) :: suf \/ start = k) as Hp2.
  { intros v. destruct (decide (start = k)); [auto|left].
    pose proof (put_app (rev pre ++ [(k, start - k)]) suf (start + len) v 0) as Hp.
    rewrite <- !app_assoc in Hp. apply Hp; [|rewrite next_app; simpl; lia|done].
    apply wf_from_app; simpl; split_and!; done || lia. }
  unfold erased.
  destruct (claims claim k (start - k)) eqn:Hc1,
    (claims claim (start + len) (k + l - (start + len))) eqn:Hc2;
  destruct (Z.eqb_spec (start - k) 0), (Z.eqb_spec (k + l - (start + len)) 0); simpl;
  rewrite ?close_eq, ?Hp1; try (destruct (Hp2 (k + l - (start + len))) as [->|]; [|lia]);
  unwrap64; eexists _, k, l; (split; [done|]); rewrite ?Hc1, ?Hc2;
  (split; [rewrite Hm; set_solver|]); (split; [done|]); (split; [done|]);
  (eapply removes_of_map; [eassumption|eassumption|simpl|simpl; lia| |intros y Hy; specialize (Hlo y Hy); lia]).
  all: try by (eapply wf_from_weaken; [|eassumption]; lia).
  all: try by (split_and!; try lia; (eapply wf_from_weaken; [|eassumption]; lia)).
  all: intros y; specialize (Htl y); simpl;
    (split; [intros ?; split|]); intuition lia.
Qed.

Lemma erase_spec s start len :
  wf s -> 0 <= start -> 0 < len -> start + len < two64 ->
  (forall x, start <= x < start + len -> In_set x s) ->
  exists s', erase s start len = Some s' /\ wf s' /\
    forall x, In_set x s' <-> In_set x s /\ ~ start <= x < start + len.
Proof.
  intros Hwf ? ? ? Hin.
  destruct (erase_claim_spec None s start len) as (s' & k & l & He & _ & _ & _ & Hw & Hs); [done..|].
  exists s'. split_and!; [done..|]. intros x. rewrite Hs. unfold erased; simpl. intuition lia.
Qed.

(** [erase] of a range that is not inside the set fails an assertion. *)
Lemma erase_abort s start len :
  wf s -> 0 <= start -> 0 < len -> start + len < two64 ->
  erase s start len <> None -> forall x, start <= x < start + len -> In_set x s.
Proof.
  intros [Hwf _] Hx Hl Hsl. unfold erase, erase_claim, In_set.
  pose proof (find_inc_spec _ _ Hwf Hx) as Hs. destruct (find_inc (m s) start) as [pre suf].
  destruct Hs as (Hm & Hpre & Hsuf). simpl in *.
  rewrite Hm in Hwf |- *. apply wf_from_app in Hwf as [Hwp Hws].
  pose proof (next_ge _ _ Hwp).
  destruct suf as [|[k l] suf]; simpl in *; [done|]. destruct Hws as (?&?&?&_).
  destruct (Z.leb_spec k start); [|done]. unwrap64.
  destruct (Z.leb_spec (start - k + len) l); [|done].
  intros _ x ?. apply mem_app. simpl. right; left. lia.
Qed.

(** *** Whole-set operations *)

Lemma subtract_list_spec l lo s :
  wf s -> wf_from lo l -> 0 <= lo -> (forall x, mem x l -> In_set x s) ->
  exists s', foldl (fun r '(start, len) => s' ← r; erase s' start len) (Some s) l = Some s' /\
    wf s' /\ forall x, In_set x s' <-> In_set x s /\ ~ mem x l.
Proof.
  revert lo s. induction l as [|[k n] l IH]; intros lo s Hs Hl Hlo Hsub; simpl in *.
  { exists s. naive_solver. }
  destruct Hl as (?&?&?&Hl).
  destruct (erase_spec s k n) as (s1 & He & Hw1 & Hs1); [done|lia..|auto|].
  cbn [option_bind mbind]. rewrite He.
  destruct (IH (k + n + 1) s1) as (s2 & Hf & Hw2 & Hs2); [done|done|lia| |].
  { intros x Hx. apply Hs1. pose proof (mem_bounds _ _ _ Hl Hx). split; [auto|lia]. }
  exists s2. split_and!; [done..|]. intros x. rewrite Hs2, Hs1. tauto.
Qed.

Lemma insert_spec s start len :
  wf s -> 0 <= start -> 0 < len -> start + len < two64 ->
  (forall x, start <= x < start + len -> ~ In_set x s) ->
  exists s', insert s start len = Some s' /\ adds s s' start len.
Proof.
  intros ? ? ? ? Hd.
  destruct (insert_out_spec s start len) as (s' & ps & pl & He & Ha & _); [done..|].
  exists s'. unfold insert. by rewrite He.
Qed.

Lemma insert_list_spec l lo s :
  wf s -> wf_from lo l -> 0 <= lo -> (forall x, mem x l -> ~ In_set x s) ->
  exists s', foldl (fun r '(start, len) => s' ← r; insert s' start len) (Some s) l = Some s' /\
    wf s' /\ forall x, In_set x s' <-> In_set x s \/ mem x l.
Proof.
  revert lo s. induction l as [|[k n] l IH]; intros lo s Hs Hl Hlo Hdis; simpl in *.
  { exists s. naive_solver. }
  destruct Hl as (?&?&?&Hl).
  destruct (insert_spec s k n) as (s1 & He & Hw1 & _ & Hs1); [done|lia..|auto|].
  cbn [option_bind mbind]. rewrite He.
  destruct (IH (k + n + 1) s1) as (s2 & Hf & Hw2 & Hs2); [done|done|lia| |].
  { intros x Hx. rewrite Hs1. pose proof (mem_bounds _ _ _ Hl Hx).
    intros [Hc|]; [|lia]. by apply (Hdis x); auto. }
  exists s2. split_and!; [done..|]. intros x. rewrite Hs2, Hs1. tauto.
Qed.

(** Two well-formed sets with the same elements are the same object: the
    representation is canonical. *)
Lemma map_ext lo m1 m2 :
  wf_from lo m1 -> wf_from lo m2 -> (forall x, mem x m1 <-> mem x m2) -> m1 = m2.
Proof.
  revert lo m2. induction m1 as [|[k1 l1] m1 IH]; intros lo [|[k2 l2] m2] H1 H2 Heq; [done| | |].
  - destruct H2 as (?&?&_). destruct (proj2 (Heq k2)); simpl; lia.
  - destruct H1 as (?&?&_). destruct (proj1 (Heq k1)); simpl; lia.
  - assert (k1 = k2) as <-.
    { pose proof (Heq k1) as E1. pose proof (Heq k2) as E2.
      destruct (Z.lt_total k1 k2) as [Hlt|[->|Hlt]]; [|done|].
      - rewrite (mem_head _ _ _ _ k1 H2), (mem_head _ _ _ _ k1 H1) in E1;
          destruct H1 as (?&?&?&_), H2 as (?&?&?&_); lia.
      - rewrite (mem_head _ _ _ _ k2 H2), (mem_head _ _ _ _ k2 H1) in E2;
          destruct H1 as (?&?&?&_), H2 as (?&?&?&_); lia. }
    assert (l1 = l2) as <-.
    { pose proof (Heq (k1 + l1)) as E1. pose proof (Heq (k1 + l2)) as E2.
      destruct (Z.lt_total l1 l2) as [Hlt|[->|Hlt]]; [|done|].
      - rewrite (mem_head _ _ _ _ (k1 + l1) H2), (mem_head _ _ _ _ (k1 + l1) H1) in E1;
          destruct H1 as (?&?&?&_), H2 as (?&?&?&_); lia.
      - rewrite (mem_head _ _ _ _ (k1 + l2) H2), (mem_head _ _ _ _ (k1 + l2) H1) in E2;
          destruct H1 as (?&?&?&_), H2 as (?&?&?&_); lia. }
    f_equal. destruct H1 as (?&?&?&H1), H2 as (?&?&?&H2). apply (IH (k1 + l1 + 1)); [done..|].
    intros x. specialize (Heq x). simpl in Heq.
    pose proof (mem_bounds _ _ x H1). pose proof (mem_bounds _ _ x H2). intuition lia.
Qed.

(** *** Intersection *)

(** Append an interval to the result under construction. *)
Definition emit (acc : interval_set) (start n : Z) : interval_set :=
  mk (add64 (size acc) n) (emplace (m acc) start n).

Lemma emit_spec acc start n :
  wf acc -> next 0 (m acc) <= start -> 0 < n -> start + n < two64 ->
  wf (emit acc start n) /\ next 0 (m (emit acc start n)) = start + n + 1 /\
  forall x, mem x (m (emit acc start n)) <-> mem x (m acc) \/ start <= x < start + n.
Proof.
  intros [Hw Hz] Hn ? ?. unfold emit, wf; simpl. rewrite (emplace_end _ _ _ 0) by done.
  assert (wf_from 0 (m acc ++ [(start, n)])) as Hw2 by (apply wf_from_app; simpl; split_and!; done || lia).
  pose proof (total_lt 0 _ ltac:(lia) Hw2) as Ht. pose proof (total_nonneg _ _ Hw).
  rewrite total_app in Ht |- *. rewrite next_app. simpl in *. unwrap64.
  split_and!; [done|lia|lia|]. intros x. rewrite mem_app. simpl. tauto.
Qed.

(** The loops keep: what is left of both maps is well formed, and the result
    so far ends before what is left of one of them. *)
Definition inter_inv (pa pb : list (Z * Z)) (acc : interval_set) : Prop :=
  exists la lb, 0 <= la /\ 0 <= lb /\ wf_from la pa /\ wf_from lb pb /\ wf acc /\
    next 0 (m acc) <= Z.max la lb.

(** What the loops still have to produce. *)
Definition inter_todo (x : Z) (pa pb : list (Z * Z)) (acc : interval_set) : Prop :=
  mem x (m acc) \/ (mem x pa /\ mem x pb).

Ltac inter_bounds x :=
  repeat match goal with
  | H : wf_from ?lo ?m |- _ =>
      lazymatch goal with
      | _ : mem x m -> _ |- _ => fail
      | _ => pose proof (mem_bounds lo m x H)
      end
  end.

(** An equal head pair is emitted and both maps advance. *)
Lemma inter_equal k l pa pb acc :
  inter_inv ((k, l) :: pa) ((k, l) :: pb) acc ->
  inter_inv pa pb (emit acc k l) /\
  forall x, inter_todo x pa pb (emit acc k l) <-> inter_todo x ((k, l) :: pa) ((k, l) :: pb) acc.
Proof.
  intros (a & b & ? & ? & (?&?&?&Ha) & (?&?&?&Hb) & Hacc & Hn).
  destruct (emit_spec acc k l) as (Hw & Hnx & Hmem); [done|lia..|].
  split; [exists (k + l + 1), (k + l + 1); split_and!; done || lia|].
  intros x. unfold inter_todo. rewrite Hmem. simpl. inter_bounds x. intuition lia.
Qed.

Lemma take_equal_cons k l pa pb acc :
  take_equal ((k, l) :: pa) ((k, l) :: pb) acc = take_equal pa pb (emit acc k l).
Proof. cbn. by rewrite !Z.eqb_refl. Qed.

Lemma take_equal_spec pa pb acc pa2 pb2 acc2 :
  inter_inv pa pb acc -> take_equal pa pb acc = (pa2, pb2, acc2) ->
  inter_inv pa2 pb2 acc2 /\
  (forall x, inter_todo x pa2 pb2 acc2 <-> inter_todo x pa pb acc) /\
  (length pa2 <= length pa)%nat /\ (length pb2 <= length pb)%nat.
Proof.
  revert pb acc. induction pa as [|[ka la] pa IH]; intros [|[kb lb] pb] acc Hinv;
    try by intros [= <- <- <-].
  destruct (decide (ka = kb /\ la = lb)) as [[<- <-]|Hne].
  - rewrite take_equal_cons. destruct (inter_equal _ _ _ _ _ Hinv) as [Hi Ht].
    intros Heq. destruct (IH _ _ Hi Heq) as (?&Ht2&?&?). simpl.
    split_and!; [done| |lia|lia]. intros x. by rewrite Ht2, Ht.
  - simpl. case_tests; [lia|by intros [= <- <- <-]..].
Qed.

(** Two overlapping heads: their common part is emitted and the one that ends
    first is dropped. *)
Lemma inter_overlap ka la kb lb pa pb acc :
  inter_inv ((ka, la) :: pa) ((kb, lb) :: pb) acc -> kb < ka + la -> ka < kb + lb ->
  let start := Z.max ka kb in let en := Z.min (ka + la) (kb + lb) in
  let acc2 := emit acc start (en - start) in
  let pa2 := if kb + lb <? ka + la then (ka, la) :: pa else pa in
  let pb2 := if kb + lb <? ka + la then pb else (kb, lb) :: pb in
  inter_inv pa2 pb2 acc2 /\
  forall x, inter_todo x pa2 pb2 acc2 <-> inter_todo x ((ka, la) :: pa) ((kb, lb) :: pb) acc.
Proof.
  intros (a & b & ? & ? & HA & HB & Hacc & Hn) ? ?. pose proof HA as (?&?&?&Ha). pose proof HB as (?&?&?&Hb).
  intros start en acc2 pa2 pb2.
  destruct (emit_spec acc start (en - start)) as (Hw & Hnx & Hmem); [done|lia..|].
  fold acc2 in Hw, Hnx, Hmem. unfold pa2, pb2. destruct (Z.ltb_spec (kb + lb) (ka + la)).
  - split; [exists a, (kb + lb + 1); split_and!; done || lia|].
    intros x. unfold inter_todo. rewrite Hmem. simpl. inter_bounds x. intuition lia.
  - split; [exists (ka + la + 1), b; split_and!; done || lia|].
    intros x. unfold inter_todo. rewrite Hmem. simpl. inter_bounds x. intuition lia.
Qed.

(** A head that ends before the other starts is dropped. *)
Lemma inter_pass_l ka la kb lb pa pb acc :
  inter_inv ((ka, la) :: pa) ((kb, lb) :: pb) acc -> ka + la <= kb ->
  inter_inv pa ((kb, lb) :: pb) acc /\
  forall x, inter_todo x pa ((kb, lb) :: pb) acc <-> inter_todo x ((ka, la) :: pa) ((kb, lb) :: pb) acc.
Proof.
  intros (a & b & ? & ? & HA & HB & Hacc & Hn) ?. pose proof HA as (?&?&?&Ha). pose proof HB as (?&?&?&Hb).
  split; [exists (ka + la + 1), b; split_and!; done || lia|].
  intros x. unfold inter_todo. simpl. inter_bounds x. intuition lia.
Qed.

Lemma inter_sym pa pb acc :
  (inter_inv pa pb acc <-> inter_inv pb pa acc) /\
  forall x, inter_todo x pa pb acc <-> inter_todo x pb pa acc.
Proof.
  split; [|unfold inter_todo; tauto].
  split; intros (a & b & ?); exists b, a; rewrite Z.max_comm; tauto.
Qed.

(** Nothing is left to do once one map is exhausted. *)
Lemma inter_done pa pb acc P :
  inter_inv pa pb acc -> pa = [] \/ pb = [] ->
  (forall x, inter_todo x pa pb acc <-> P x) ->
  exists r, Some acc = Some r /\ wf r /\ forall x, In_set x r <-> P x.
Proof.
  intros (a & b & _ & _ & _ & _ & Hacc & _) Hnil HP. exists acc. split_and!; [done..|].
  intros x. rewrite <- HP. unfold In_set, inter_todo. destruct Hnil as [->| ->]; simpl; tauto.
Qed.

Lemma inter_loop_spec fuel pa pb acc :
  inter_inv pa pb acc -> (length pa + length pb < fuel)%nat ->
  exists r, inter_loop fuel pa pb acc = Some r /\ wf r /\
    forall x, In_set x r <-> inter_todo x pa pb acc.
Proof.
  revert pa pb acc. induction fuel as [|fuel IH]; intros pa pb acc Hinv Hf; [lia|].
  destruct pa as [|[ka la] pa]; [|destruct pb as [|[kb lb] pb]]; cbn [inter_loop].
  1,2: by eapply inter_done; eauto.
  assert (forall pa2 pb2 acc2, inter_inv pa2 pb2 acc2 /\
    (forall x, inter_todo x pa2 pb2 acc2 <-> inter_todo x ((ka, la) :: pa) ((kb, lb) :: pb) acc) ->
    (length pa2 + length pb2 < fuel)%nat ->
    exists r, inter_loop fuel pa2 pb2 acc2 = Some r /\ wf r /\
      forall x, In_set x r <-> inter_todo x ((ka, la) :: pa) ((kb, lb) :: pb) acc) as Hgo.
  { intros pa2 pb2 acc2 [Hi Ht] Hl. destruct (IH pa2 pb2 acc2 Hi Hl) as (r & -> & ? & Hr).
    exists r. split_and!; [done..|]. intros x. by rewrite Hr, Ht. }
  pose proof Hinv as (a & b & ? & ? & (?&?&?&_) & (?&?&?&_) & _ & _). simpl in Hf. unwrap64.
  destruct (Z.leb_spec (ka + la) kb); [|destruct (Z.leb_spec (kb + lb) ka)].
  - apply Hgo; [by apply inter_pass_l|simpl; lia].
  - apply Hgo; [|simpl; lia]. destruct (inter_sym ((ka, la) :: pa) pb acc) as [-> Hs].
    setoid_rewrite Hs. setoid_rewrite (proj2 (inter_sym _ _ _)) at 2.
    apply inter_pass_l; [by apply inter_sym|done].
  - destruct ((ka =? kb) && (la =? lb)) eqn:Heq.
    + zbool. subst kb lb. rewrite take_equal_cons.
      destruct (take_equal pa pb (emit acc ka la)) as [[pa2 pb2] acc2] eqn:Hte.
      destruct (inter_equal _ _ _ _ _ Hinv) as [Hi Ht].
      destruct (take_equal_spec _ _ _ _ _ _ Hi Hte) as (?&Ht2&?&?).
      apply Hgo; [|lia]. split; [done|]. intros x. by rewrite Ht2, Ht.
    + rewrite (proj2 (Z.ltb_lt _ _)) by lia. unwrap64.
      pose proof (inter_overlap _ _ _ _ _ _ _ Hinv ltac:(lia) ltac:(lia)) as Ho. simpl in Ho.
      fold (emit acc (Z.max ka kb) (Z.min (ka + la) (kb + lb) - Z.max ka kb)).
      destruct (Z.ltb_spec (kb + lb) (ka + la)); (apply Hgo; [exact Ho|simpl; lia]).
Qed.

(** The [lower_bound] search is the linear scan. *)
Lemma skip_before_app m1 m2 lo x :
  0 <= lo -> wf_from lo m1 -> next lo m1 <= x + 1 -> skip_before (m1 ++ m2) x = skip_before m2 x.
Proof.
  revert lo. induction m1 as [|[k l] m1 IH]; intros lo; simpl; [done|].
  intros ? (?&?&?&Hm) Hn. pose proof (next_ge _ _ Hm). unwrap64.
  rewrite (proj2 (Z.leb_le _ _)) by lia. apply (IH (k + l + 1)); done || lia.
Qed.

Lemma find_inc_skip l x : wf_from 0 l -> 0 <= x -> (find_inc l x).2 = skip_before l x.
Proof.
  intros Hwf Hx. pose proof (find_inc_spec l x Hwf Hx) as (Hm & Hp & Hs).
  destruct (find_inc l x) as [pre suf]; simpl in *. rewrite Hm in Hwf |- *.
  apply wf_from_app in Hwf as [Hwp Hws]. pose proof (next_ge _ _ Hwp).
  rewrite (skip_before_app _ _ 0) by (done || lia).
  destruct suf as [|[k l'] suf]; simpl in *; [done|]. unwrap64.
  rewrite (proj2 (Z.leb_gt _ _)) by lia. done.
Qed.

Lemma skip_before_trans lo l x y :
  0 <= lo -> wf_from lo l -> x <= y -> skip_before (skip_before l x) y = skip_before l y.
Proof.
  revert lo. induction l as [|[k n] l IH]; intros lo Hlo; simpl; [done|].
  intros (?&?&?&Hl) Hxy. unwrap64. destruct (Z.leb_spec (k + n) x).
  - rewrite (IH (k + n + 1)) by (done || lia). by rewrite (proj2 (Z.leb_le (k + n) y)) by lia.
  - cbn [skip_before]. by rewrite add64_small by lia.
Qed.

Lemma skip_before_length l x : (length (skip_before l x) <= length l)%nat.
Proof. induction l as [|[k n] l IH]; simpl; [lia|]. case_tests; simpl; lia. Qed.

Lemma skip_before_head lo l x k n l' :
  0 <= lo -> wf_from lo l -> skip_before l x = (k, n) :: l' -> x < k + n.
Proof.
  revert lo. induction l as [|[k0 n0] l IH]; intros lo Hlo; simpl; [done|].
  intros (?&?&?&Hl). unwrap64. destruct (Z.leb_spec (k0 + n0) x); [|intros [= <- <- <-]; lia].
  apply (IH (k0 + n0 + 1)); done || lia.
Qed.

Lemma inter_skip_l ps k n pl acc :
  inter_inv ps ((k, n) :: pl) acc ->
  inter_inv (skip_before ps k) ((k, n) :: pl) acc /\
  forall x, inter_todo x (skip_before ps k) ((k, n) :: pl) acc <-> inter_todo x ps ((k, n) :: pl) acc.
Proof.
  induction ps as [|[ks ls] ps IH]; intros Hinv; [done|]. cbn [skip_before].
  pose proof Hinv as (a & b & ? & ? & (?&?&?&_) & _). unwrap64.
  destruct (Z.leb_spec (ks + ls) k); [|done].
  destruct (inter_pass_l _ _ _ _ _ _ _ Hinv) as [Hi Ht]; [done|].
  destruct (IH Hi) as [? Ht2]. split; [done|]. intros x. by rewrite Ht2, Ht.
Qed.

Lemma inter_skip_r k n ps pl acc :
  inter_inv ((k, n) :: ps) pl acc ->
  inter_inv ((k, n) :: ps) (skip_before pl k) acc /\
  forall x, inter_todo x ((k, n) :: ps) (skip_before pl k) acc <-> inter_todo x ((k, n) :: ps) pl acc.
Proof.
  intros Hinv. apply inter_sym in Hinv. destruct (inter_skip_l _ _ _ _ _ Hinv) as [Hi Ht].
  split; [by apply inter_sym|]. intros x.
  rewrite (proj2 (inter_sym _ (skip_before pl k) _)), (proj2 (inter_sym _ pl _)). apply Ht.
Qed.

Lemma take_equal_wf ps pl acc ps2 pl2 acc2 la :
  wf_from la ps -> take_equal ps pl acc = (ps2, pl2, acc2) -> wf_from la ps2.
Proof.
  revert pl acc la. induction ps as [|[ks ls] ps IH]; intros [|[kl ll] pl] acc la Ha;
    try by intros [= <- <- <-].
  cbn [take_equal]. destruct ((ks =? kl) && (ls =? ll)); [|by intros [= <- <- <-]].
  destruct Ha as (?&?&?&Ha). intros Ht. eapply wf_from_weaken; [|by eapply IH]. lia.
Qed.

Lemma take_equal_skip ps pl acc ps2 pl2 acc2 la lb k n ps2' :
  0 <= la -> 0 <= lb -> wf_from la ps -> wf_from lb pl -> take_equal ps pl acc = (ps2, pl2, acc2) ->
  ps2 = (k, n) :: ps2' -> skip_before pl k = skip_before pl2 k.
Proof.
  revert pl acc la lb. induction ps as [|[ks ls] ps IH]; intros [|[kl ll] pl] acc la lb Hla Hlb Ha Hb;
    try by intros [= <- <- <-].
  destruct (decide (ks = kl /\ ls = ll)) as [[<- <-]|Hne].
  - rewrite take_equal_cons. intros Ht ->. cbn [skip_before].
    destruct Ha as (?&?&?&Ha), Hb as (?&?&?&Hb). unwrap64.
    assert (ks + ls + 1 <= k) as Hk.
    { by destruct (take_equal_wf _ _ _ _ _ _ _ Ha Ht). }
    rewrite (proj2 (Z.leb_le _ _)) by lia. eapply (IH _ _ (ks + ls + 1) (ks + ls + 1)); done || lia.
  - cbn [take_equal]. destruct ((ks =? kl) && (ls =? ll)) eqn:E; [zbool; lia|by intros [= <- <- <-]].
Qed.

(** The first interval left ends at or after [o]. *)
Definition head_after (o : Z) (ps : list (Z * Z)) : Prop :=
  match ps with [] => True | (k, n) :: _ => o <= k + n end.

Lemma head_after_skip o lo ps k :
  wf_from lo ps -> head_after o ps -> head_after o (skip_before ps k).
Proof.
  revert lo. induction ps as [|[ks ls] ps IH]; intros lo; [done|].
  intros (?&?&?&Hw) Ho. cbn [skip_before]. case_match; [|done].
  apply (IH (ks + ls + 1)); [done|]. destruct ps as [|[k2 n2] ps]; simpl in *; [done|]. lia.
Qed.

Lemma asym_loop_spec fuel l ps offset acc :
  wf_from 0 l -> 0 <= offset ->
  inter_inv ps (skip_before l offset) acc ->
  head_after offset ps ->
  (length ps + length (skip_before l offset) < fuel)%nat ->
  exists r, asym_loop fuel ps l offset acc = Some r /\ wf r /\
    forall x, In_set x r <-> inter_todo x ps (skip_before l offset) acc.
Proof.
  intros Hl. revert ps offset acc. induction fuel as [|fuel IH]; intros ps offset acc Ho Hinv Hps Hf; [lia|].
  cbn [asym_loop]. rewrite find_inc_skip by done.
  destruct (skip_before l offset) as [|[kl ll] pl] eqn:Hpl.
  { by eapply inter_done; eauto. }
  pose proof (skip_before_head 0 _ _ _ _ _ ltac:(lia) Hl Hpl) as Hoff.
  assert (forall y, offset <= y -> skip_before l y = skip_before ((kl, ll) :: pl) y) as Htr.
  { intros y Hy. rewrite <- Hpl. symmetry. by apply (skip_before_trans 0). }
  pose proof (inter_skip_l _ _ _ _ _ Hinv) as [Hinv1 Htodo1].
  pose proof (skip_before_length ps kl) as Hlen.
  assert (head_after offset (skip_before ps kl)) as Hps1.
  { destruct Hinv as (a & b & _ & _ & Ha & _). by apply (head_after_skip _ a). }
  assert (forall k n l', skip_before ps kl = (k, n) :: l' -> kl < k + n) as Hks.
  { destruct Hinv as (a & b & ? & _ & Ha & _). intros. by eapply skip_before_head. }
  setoid_rewrite <- Htodo1. clear Htodo1 Hinv.
  destruct (skip_before ps kl) as [|[ks ls] ps'] eqn:Hsk.
  { by eapply inter_done; eauto. }
  specialize (Hks _ _ _ eq_refl).
  assert (forall k n ps2 pl2 acc2, inter_inv ((k, n) :: ps2) pl2 acc2 /\
    (forall x, inter_todo x ((k, n) :: ps2) pl2 acc2 <-> inter_todo x ((ks, ls) :: ps') ((kl, ll) :: pl) acc) ->
    offset <= k -> skip_before ((kl, ll) :: pl) k = skip_before pl2 k ->
    (S (length ps2) + length pl2 < fuel)%nat ->
    exists r, asym_loop fuel ((k, n) :: ps2) l k acc2 = Some r /\ wf r /\
      forall x, In_set x r <-> inter_todo x ((ks, ls) :: ps') ((kl, ll) :: pl) acc) as Hgo.
  { intros k n ps2 pl2 acc2 [Hi Ht] Hk Hskip Hlt. destruct (inter_skip_r _ _ _ _ _ Hi) as [Hi2 Ht2].
    pose proof (skip_before_length pl2 k).
    destruct (IH ((k, n) :: ps2) k acc2) as (r & Hr & ? & Hx); rewrite ?Htr, ?Hskip by done; [lia|done| |simpl; lia|].
    { destruct Hi as (a & b & ? & ? & (?&?&?&_) & _). simpl. lia. }
    exists r. split_and!; [done..|]. intros x. by rewrite Hx, Htr, Hskip, Ht2, Ht by done. }
  pose proof Hinv1 as (a & b & ? & ? & Hwa & Hwb & Hacc & Hn).
  pose proof Hwa as (?&?&?&Ha). pose proof Hwb as (?&?&?&Hb). simpl in Hf, Hlen, Hps1. unwrap64.
  destruct (Z.leb_spec (kl + ll) ks).
  { apply (Hgo _ _ _ pl); [|lia| |lia].
    - apply inter_sym in Hinv1. destruct (inter_pass_l _ _ _ _ _ _ _ Hinv1) as [Hi Ht]; [done|].
      split; [by apply inter_sym|]. intros x.
      rewrite (proj2 (inter_sym _ pl _)), Ht. apply inter_sym.
    - cbn [skip_before]. rewrite add64_small by lia. by rewrite (proj2 (Z.leb_le _ _)) by lia. }
  destruct ((ks =? kl) && (ls =? ll)) eqn:Heq.
  - destruct (take_equal ((ks, ls) :: ps') ((kl, ll) :: pl) acc) as [[ps2 pl2] acc2] eqn:Hte.
    zbool. subst kl ll. pose proof Hte as Hte'. rewrite take_equal_cons in Hte.
    destruct (inter_equal _ _ _ _ _ Hinv1) as [Hi Ht].
    destruct (take_equal_spec _ _ _ _ _ _ Hi Hte) as (Hi2&Ht2&?&?).
    assert (forall x, inter_todo x ps2 pl2 acc2 <-> inter_todo x ((ks, ls) :: ps') ((ks, ls) :: pl) acc) as Ht3.
    { intros x. by rewrite Ht2, Ht. }
    destruct ps2 as [|[k2 n2] ps2].
    + by eapply inter_done; eauto.
    + pose proof (take_equal_wf _ _ _ _ _ _ _ Ha Hte) as (?&_).
      apply (Hgo _ _ _ pl2); [done|lia| |simpl in *; lia].
      eapply (take_equal_skip _ _ _ _ _ _ a b); [lia|lia|exact Hwa|exact Hwb|exact Hte'|done].
  - rewrite (proj2 (Z.ltb_lt _ _)) by lia. unwrap64.
    pose proof (inter_overlap _ _ _ _ _ _ _ Hinv1 ltac:(lia) ltac:(lia)) as Hov. simpl in Hov.
    fold (emit acc (Z.max ks kl) (Z.min (ks + ls) (kl + ll) - Z.max ks kl)).
    destruct (Z.ltb_spec (kl + ll) (ks + ls)).
    + rewrite (proj2 (Z.leb_gt _ _)) by lia. destruct Hov as [Hi Ht].
      assert (skip_before l (kl + ll) = pl) as Hsk2.
      { rewrite Htr by lia. cbn [skip_before]. rewrite add64_small, Z.leb_refl by lia.
        destruct pl as [|[k2 n2] pl]; [done|]. cbn [skip_before]. destruct Hb as (?&?&?&_).
        unwrap64. by rewrite (proj2 (Z.leb_gt _ _)) by lia. }
      destruct (IH ((ks, ls) :: ps') (kl + ll) (emit acc (Z.max ks kl) (Z.min (ks + ls) (kl + ll) - Z.max ks kl)))
        as (r & Hr & ? & Hx); rewrite ?Hsk2; [lia|done|simpl; lia|simpl; lia|].
      exists r. split_and!; [done..|]. intros x. by rewrite Hx, Hsk2, Ht.
    + rewrite (proj2 (Z.leb_le _ _)) by lia. destruct Hov as [Hi Ht].
      destruct ps' as [|[k2 n2] ps2].
      * by eapply inter_done; eauto.
      * destruct Ha as (?&_). apply (Hgo _ _ _ ((kl, ll) :: pl)); [done|lia|done|simpl in *; lia].
Qed.


Lemma wf_clear : wf clear.
Proof. done. Qed.

Lemma wf_ext s t : wf s -> wf t -> (forall x, In_set x s <-> In_set x t) -> s = t.
Proof.
  intros [Hs Hzs] [Ht Hzt] Heq. destruct s as [zs ms], t as [zt mt]; simpl in *.
  assert (ms = mt) as -> by by apply (map_ext 0). by subst.
Qed.

Lemma inter_init a b :
  wf a -> wf b -> inter_inv (m a) (m b) clear /\
  forall x, inter_todo x (m a) (m b) clear <-> In_set x a /\ In_set x b.
Proof.
  intros [Ha _] [Hb _]. split; [exists 0, 0; split_and!; try done|].
  intros x. unfold inter_todo, In_set. simpl. tauto.
Qed.

Lemma asym_spec s l :
  wf s -> wf l -> m s <> [] ->
  exists r, intersection_size_asym s l = Some r /\ wf r /\
    forall x, In_set x r <-> In_set x s /\ In_set x l.
Proof.
  intros Hs Hl Hne. unfold intersection_size_asym, inter_fuel.
  destruct (inter_init s l Hs Hl) as [Hi Ht].
  destruct (m s) as [|[k n] ps] eqn:Hms; [done|].
  destruct (inter_skip_r _ _ _ _ _ Hi) as [Hi2 Ht2].
  destruct Hi as (a & b & ? & ? & (?&?&?&_) & _).
  pose proof (skip_before_length (m l) k).
  destruct (asym_loop_spec (S (length ((k, n) :: ps) + length (m l))) (m l) ((k, n) :: ps) k clear)
    as (r & Hr & Hw & Hx); [by destruct Hl|lia|done|simpl; lia|lia|].
  exists r. split_and!; [done..|]. intros x. by rewrite Hx, Ht2, Ht.
Qed.

Lemma seq_spec a b :
  wf a -> wf b -> exists r, inter_loop (inter_fuel a b) (m a) (m b) clear = Some r /\ wf r /\
    forall x, In_set x r <-> In_set x a /\ In_set x b.
Proof.
  intros Ha Hb. destruct (inter_init a b Ha Hb) as [Hi Ht].
  destruct (inter_loop_spec (inter_fuel a b) (m a) (m b) clear) as (r & Hr & Hw & Hx);
    [done|unfold inter_fuel; lia|].
  exists r. split_and!; [done..|]. intros x. by rewrite Hx, Ht.
Qed.

Lemma inter_spec a b :
  wf a -> wf b -> exists r, intersection_of a b = Some r /\ wf r /\
    forall x, In_set x r <-> In_set x a /\ In_set x b.
Proof.
  intros Ha Hb. unfold intersection_of.
  assert (forall s, wf s -> size s = 0 -> m s = []) as Hz.
  { intros s [Hw Hsz] ?. apply (total_zero 0); [done|lia]. }
  destruct (size a <? size b).
  - destruct (Z.eqb_spec (size a) 0) as [E|E].
    + exists clear. unfold In_set. rewrite (Hz a Ha E). simpl. split_and!; [done..|]. tauto.
    + case_match; [|by apply seq_spec]. apply asym_spec; [done..|]. intros Hm.
      destruct Ha as [_ Ha]. rewrite Hm in Ha. done.
  - destruct (Z.eqb_spec (size b) 0) as [E|E].
    + exists clear. unfold In_set. rewrite (Hz b Hb E). simpl. split_and!; [done..|]. tauto.
    + case_match; [|by apply seq_spec]. setoid_rewrite (and_comm (In_set _ a)).
      apply asym_spec; [done..|]. intros Hm. destruct Hb as [_ Hb]. rewrite Hm in Hb. done.
Qed.

Lemma mem_dec x m : mem x m \/ ~ mem x m.
Proof.
  induction m as [|[k l] m [|]]; simpl; [auto..|].
  destruct (Z.le_gt_cases k x), (Z.lt_ge_cases x (k + l)); intuition lia.
Qed.

Lemma union_spec a b :
  wf a -> wf b -> exists r, union_of a b = Some r /\ wf r /\
    forall x, In_set x r <-> In_set x a \/ In_set x b.
Proof.
  intros Ha Hb. unfold union_of.
  destruct (inter_spec a b Ha Hb) as (ab & -> & Hab & Hi). simpl.
  destruct (subtract_list_spec (m ab) 0 a) as (s & Hs & Hws & Hxs); [done|by destruct Hab|done| |].
  { intros x Hx. by apply Hi in Hx as []. }
  unfold subtract. rewrite Hs. simpl.
  destruct (insert_list_spec (m b) 0 s) as (r & Hr & Hwr & Hxr); [done|by destruct Hb|done| |].
  { intros x Hx Hc. apply Hxs in Hc as [? Hc]. apply Hc, Hi. done. }
  exists r. split_and!; [done..|]. intros x. rewrite Hxr, Hxs.
  unfold In_set in Hi. rewrite Hi. fold (In_set x b).
  destruct (mem_dec x (m b)); unfold In_set; tauto.
Qed.

(** *** Size *)

Lemma erase_size s s' start len :
  wf s -> 0 <= start -> 0 < len -> start + len < two64 ->
  (forall x, start <= x < start + len -> In_set x s) -> wf s' ->
  (forall x, In_set x s' <-> In_set x s /\ ~ start <= x < start + len) ->
  insert s' start len = Some s /\ size s = size s' + len.
Proof.
  intros Hs ? ? ? Hin Hs' Hx.
  destruct (insert_spec s' start len) as (r & Hr & Hwr & Hz & Hxr); [done..| |].
  { intros x ?. rewrite Hx. tauto. }
  assert (r = s) as ->; [|done]. apply wf_ext; [done..|]. intros x. rewrite Hxr, Hx.
  destruct (Z.le_gt_cases start x), (Z.lt_ge_cases x (start + len)); specialize (Hin x); intuition lia.
Qed.

Lemma subset_size l lo s :
  wf_from lo l -> 0 <= lo -> wf s -> (forall x, mem x l -> In_set x s) -> total l <= size s.
Proof.
  revert lo s. induction l as [|[k n] l IH]; intros lo s; simpl.
  { intros _ _ [Hw ->] _. by eapply total_nonneg. }
  intros (?&?&?&Hl) ? Hs Hsub.
  destruct (erase_spec s k n) as (s' & _ & Hs' & Hx); [done|lia..|auto|].
  destruct (erase_size s s' k n) as [_ ->]; [done|lia..|auto|done|done|].
  specialize (IH (k + n + 1) s' Hl ltac:(lia) Hs'). cut (total l <= size s'); [lia|].
  apply IH. intros x Hm. apply Hx. pose proof (mem_bounds _ _ _ Hl Hm). split; [auto|lia].
Qed.

(** *** Inclusion *)

Definition incl_map (pa pb : list (Z * Z)) : Prop := forall x, mem x pa -> mem x pb.

Lemma pass_before_spec lo pb k :
  0 <= lo -> wf_from lo pb ->
  match pass_before pb k with
  | None => forall x, k <= x -> ~ mem x pb
  | Some pb1 => (exists kb lb pb', pb1 = (kb, lb) :: pb' /\ k < kb + lb) /\
      (exists lo', 0 <= lo' /\ wf_from lo' pb1) /\ forall x, k <= x -> mem x pb <-> mem x pb1
  end.
Proof.
  revert lo. induction pb as [|[kb lb] pb IH]; intros lo Hlo; simpl; [auto|].
  intros (?&?&?&Hb). unwrap64. destruct (Z.leb_spec (kb + lb) k).
  - specialize (IH (kb + lb + 1) ltac:(lia) Hb). destruct (pass_before pb k) as [pb1|].
    + destruct IH as (?&?&Hx). split_and!; [done..|]. intros x ?. rewrite <- Hx by lia. intuition lia.
    + intros x ? [|Hx]; [lia|]. by apply (IH x).
  - split; [eauto|]. split; [|done]. exists lo. simpl. split_and!; done || lia.
Qed.

Lemma incl_cons_equal la lb k n pa pb :
  wf_from la ((k, n) :: pa) -> wf_from lb ((k, n) :: pb) ->
  incl_map ((k, n) :: pa) ((k, n) :: pb) <-> incl_map pa pb.
Proof.
  intros (?&?&?&Ha) (?&?&?&Hb). unfold incl_map. simpl.
  split; intros Hi x; specialize (Hi x); inter_bounds x; intuition lia.
Qed.

Lemma skip_equal_spec la lb pa pb pa2 pb2 :
  wf_from la pa -> wf_from lb pb -> skip_equal pa pb = (pa2, pb2) ->
  wf_from la pa2 /\ wf_from lb pb2 /\ (incl_map pa2 pb2 <-> incl_map pa pb) /\
  (length pa2 <= length pa)%nat.
Proof.
  revert pb la lb. induction pa as [|[ka na] pa IH]; intros [|[kb nb] pb] la lb Ha Hb;
    try by intros [= <- <-].
  cbn [skip_equal]. destruct ((ka =? kb) && (na =? nb)) eqn:E; [|by intros [= <- <-]].
  zbool. subst kb nb. pose proof Ha as (?&?&?&Ha'). pose proof Hb as (?&?&?&Hb'). intros Heq.
  destruct (IH _ _ _ Ha' Hb' Heq) as (?&?&Hi&?). rewrite (incl_cons_equal _ _ _ _ _ _ Ha Hb).
  split_and!; [by eapply wf_from_weaken; [|done]; lia..|done|simpl; lia].
Qed.

Lemma subset_loop_spec fuel pa pb la lb :
  0 <= la -> 0 <= lb -> wf_from la pa -> wf_from lb pb -> (length pa < fuel)%nat ->
  exists v, subset_loop fuel pa pb = Some v /\ (v = true <-> incl_map pa pb).
Proof.
  revert pa pb la lb. induction fuel as [|fuel IH]; intros pa pb la lb Hla Hlb Ha Hb Hf; [lia|].
  destruct pa as [|[ka na] pa]; cbn [subset_loop].
  { exists true. unfold incl_map. simpl. tauto. }
  pose proof Ha as (?&?&?&Ha'). assert (mem ka ((ka, na) :: pa)) as Hka by (simpl; lia).
  destruct pb as [|eb pb].
  { exists false. split; [done|]. split; [done|]. intros Hi. destruct (Hi ka Hka). }
  pose proof (pass_before_spec lb (eb :: pb) ka Hlb Hb) as Hp.
  destruct (pass_before (eb :: pb) ka) as [pb1|].
  2: { exists false. split; [done|]. split; [done|]. intros Hi. destruct (Hp ka); [lia|auto]. }
  destruct Hp as ((kb & nb & pb' & -> & Hkb) & (lo & Hlo & Hb1) & Hmem).
  assert (incl_map ((ka, na) :: pa) (eb :: pb) <-> incl_map ((ka, na) :: pa) ((kb, nb) :: pb')) as Hinc.
  { assert (wf_from ka ((ka, na) :: pa)) as Hka' by (simpl; split_and!; done || lia).
    unfold incl_map. split; intros Hi x Hx; pose proof (mem_bounds _ _ x Hka' Hx);
      (apply Hmem; [lia|by apply Hi]). }
  setoid_rewrite Hinc. clear Hinc Hmem Hb. pose proof Hb1 as (?&?&?&Hb'). simpl in Hf. unwrap64.
  destruct ((ka =? kb) && (na =? nb)) eqn:E.
  - zbool. subst kb nb. cbn [skip_equal]. rewrite !Z.eqb_refl. simpl.
    destruct (skip_equal pa pb') as [pa2 pb2] eqn:Hsk.
    destruct (skip_equal_spec _ _ _ _ _ _ Ha' Hb' Hsk) as (?&?&Hi&?).
    destruct (IH pa2 pb2 (ka + na + 1) (ka + na + 1)) as (v & -> & Hv); [lia|lia|done|done|lia|].
    exists v. split; [done|]. by rewrite Hv, Hi, (incl_cons_equal _ _ _ _ _ _ Ha Hb1).
  - destruct (Z.ltb_spec ka kb); [|destruct (Z.ltb_spec (kb + nb) (ka + na))].
    + exists false. split; [done|]. split; [done|]. intros Hi.
      apply (mem_head _ _ _ _ ka Hb1) in Hi; [lia|lia|done].
    + exists false. split; [done|]. split; [done|]. intros Hi.
      assert (mem (kb + nb) ((kb, nb) :: pb')) as Hm by (apply Hi; simpl; lia).
      apply (mem_head _ _ _ _ (kb + nb) Hb1) in Hm; lia.
    + destruct (IH pa ((kb, nb) :: pb') (ka + na + 1) lo) as (v & -> & Hv); [lia|lia|done|done|lia|].
      exists v. split; [done|]. rewrite Hv. unfold incl_map. simpl.
      split; intros Hi x; specialize (Hi x); intuition lia.
Qed.

Lemma range_end_spec lo m :
  0 <= lo -> wf_from lo m -> m <> [] -> exists k l, last m = Some (k, l) /\
    0 <= k /\ 0 < l /\ k + l < two64 /\ mem (k + l - 1) m /\ forall x, mem x m -> x < k + l.
Proof.
  revert lo. induction m as [|[k l] m IH]; intros lo Hlo; [done|]. intros (?&?&?&Hm) _.
  destruct m as [|e m].
  - exists k, l. simpl. split_and!; done || lia.
  - destruct (IH (k + l + 1) ltac:(lia) Hm) as (k' & l' & Hl & ? & ? & ? & Hin & Hx); [done|].
    exists k', l'. split; [done|]. split_and!; [done..| |].
    + right. done.
    + intros x [?|Hx']; [|by apply Hx]. pose proof (mem_bounds _ _ _ Hm Hin). lia.
Qed.

Lemma all_contained_spec lo l big :
  0 <= lo -> wf_from lo l -> wf big ->
  exists v, all_contained l big = Some v /\ (v = true <-> forall x, mem x l -> In_set x big).
Proof.
  revert lo. induction l as [|[k n] l IH]; intros lo Hlo Hl Hb; simpl.
  { exists true. naive_solver. }
  destruct Hl as (?&?&?&Hl). destruct (contains_spec big k n) as (c & -> & Hc); [done|lia..|]. simpl.
  destruct c; simpl.
  - destruct (IH (k + n + 1)) as (v & -> & Hv); [lia|done|done|]. exists v. split; [done|].
    rewrite Hv. pose proof (proj1 Hc eq_refl). naive_solver.
  - exists false. split; [done|]. split; [done|]. intros Hi. apply Hc. auto.
Qed.

Lemma subset_spec s big :
  wf s -> wf big ->
  exists v, subset_of s big = Some v /\ (v = true <-> forall x, In_set x s -> In_set x big).
Proof.
  intros Hs Hb. pose proof Hs as [Hws Hzs]. pose proof Hb as [Hwb Hzb]. unfold subset_of.
  destruct (Z.eqb_spec (size s) 0) as [E|E].
  { exists true. split; [done|]. split; [|done]. intros _ x Hx.
    unfold In_set in Hx. rewrite (total_zero 0 (m s)) in Hx by (done || lia). done. }
  destruct (Z.ltb_spec (size big) (size s)).
  { exists false. split; [done|]. split; [done|]. intros Hi.
    pose proof (subset_size (m s) 0 big Hws ltac:(lia) Hb Hi). lia. }
  assert (m s <> []) as Hne by (intros Hn; rewrite Hn in Hzs; done).
  pose proof (total_nonneg _ _ Hws).
  assert (m big <> []) as Hne2 by (intros Hn; rewrite Hn in Hzb; simpl in Hzb; lia).
  unfold range_end.
  destruct (range_end_spec 0 _ ltac:(lia) Hws Hne) as (k & l & -> & ? & ? & ? & Hin & Hx).
  destruct (range_end_spec 0 _ ltac:(lia) Hwb Hne2) as (k2 & l2 & -> & ? & ? & ? & Hin2 & Hx2).
  simpl. unwrap64. destruct (Z.ltb_spec (k2 + l2) (k + l)).
  { exists false. split; [done|]. split; [done|]. intros Hi. specialize (Hi _ Hin). apply Hx2 in Hi. lia. }
  case_match.
  - apply (subset_loop_spec _ _ _ 0 0); done || lia.
  - by apply (all_contained_spec 0).
Qed.

(** *** Spans *)

(** [r] is [acc] and the elements of [p] below [cut]; it holds [len] more
    elements than [acc], or all of [p]. *)
Definition takes (p : list (Z * Z)) (len : Z) (acc r : interval_set) : Prop :=
  wf r /\ (exists cut, forall x, In_set x r <-> In_set x acc \/ (mem x p /\ x < cut)) /\
  (size r = size acc + len \/ (size r <= size acc + len /\ forall x, mem x p -> In_set x r)).

Lemma span_loop_spec p lo len acc :
  0 <= lo -> wf_from lo p -> wf acc -> (forall x, In_set x acc -> x < lo) ->
  0 <= len < two64 -> exists r, span_loop p len acc = Some r /\ takes p len acc r.
Proof.
  revert lo len acc. induction p as [|[k l] p IH]; intros lo len acc Hlo Hp Hacc Hlt Hlen; simpl.
  { exists acc. split; [done|]. split; [done|]. split; [exists 0; simpl; tauto|]. right. split; [lia|done]. }
  destruct Hp as (?&?&?&Hp). pose proof (fun x => mem_bounds _ _ x Hp) as Hb.
  destruct (Z.ltb_spec 0 len); [destruct (Z.ltb_spec l len)|].
  - destruct (insert_spec acc k l) as (acc1 & -> & Hw1 & Hz1 & Hx1); [done|lia..| |].
    { intros x ? Hx. apply Hlt in Hx. lia. }
    simpl. unwrap64.
    destruct (IH (k + l + 1) (len - l) acc1) as (r & -> & Hwr & (cut & Hx) & Hsz); [lia|done|done| |lia|].
    { intros x. rewrite Hx1. intros [Hx|]; [apply Hlt in Hx|]; lia. }
    exists r. split; [done|]. split; [done|]. split.
    + exists (Z.max (k + l) cut). intros x. rewrite Hx, Hx1. simpl. specialize (Hb x). intuition lia.
    + rewrite Hz1 in Hsz. destruct Hsz as [|[? Hall]]; [left; lia|right; split; [lia|]].
      intros x [?|]; [|by apply Hall]. apply Hx. left. apply Hx1. auto.
  - destruct (insert_spec acc k len) as (acc1 & -> & Hw1 & Hz1 & Hx1); [done|lia..| |].
    { intros x ? Hx. apply Hlt in Hx. lia. }
    exists acc1. split; [done|]. split; [done|]. split; [|left; lia].
    exists (k + len). intros x. rewrite Hx1. simpl. specialize (Hb x). intuition lia.
  - exists acc. split; [done|]. split; [done|]. split; [|left; lia].
    exists lo. intros x. simpl. specialize (Hb x). intuition lia.
Qed.

Lemma span_spec other start len :
  wf other -> 0 <= start -> 0 < len -> start + len < two64 ->
  exists r cut, span_of other start len = Some r /\ wf r /\
    (forall x, In_set x r <-> In_set x other /\ start <= x < cut) /\
    (size r = len \/ (size r <= len /\ forall x, In_set x other -> start <= x -> In_set x r)).
Proof.
  intros [Hwf _] Hst Hlen Hsl. unfold span_of.
  pose proof (find_inc_spec _ _ Hwf Hst) as Hs. destruct (find_inc (m other) start) as [pre suf].
  assert (forall y, start <= y -> In_set y other <-> mem y suf) as Hmem.
  { intros y ?. apply (splits_mem _ _ _ _ _ y Hwf Hs). lia. }
  destruct Hs as (Hm & _ & Hsuf). rewrite Hm in Hwf. apply wf_from_app in Hwf as [Hwp Hws].
  pose proof (next_ge _ _ Hwp). cbn [fst snd] in *.
  destruct suf as [|[k l] suf].
  { exists clear, start. split_and!; [done..| |].
    - intros x. unfold In_set at 1. simpl. lia.
    - right. split; [simpl; lia|]. intros x Hx ?. apply Hmem in Hx; done. }
  pose proof Hws as (?&?&?&Hws'). simpl in Hsuf. unwrap64.
  pose proof (fun x => mem_bounds _ _ x Hws') as Hb.
  destruct (Z.ltb_spec k start).
  - rewrite (proj2 (Z.ltb_ge _ _)) by lia.
    destruct (Z.ltb_spec (k + l) (start + len)).
    + unwrap64. destruct (insert_spec clear start (l - (start - k))) as (acc & -> & Hwa & Hza & Hxa);
        [done|lia..|by intros x ? []|]. simpl. unwrap64.
      destruct (span_loop_spec suf (k + l + 1) (len - (l - (start - k))) acc)
        as (r & -> & Hwr & (cut & Hx) & Hsz); [lia|done|done| |lia|].
      { intros x. rewrite Hxa. intros [[]|]. lia. }
      exists r, (Z.max (k + l) cut). split_and!; [done..| |].
      * intros x. rewrite Hx, Hxa. specialize (Hb x). split.
        -- intros [[[]|]|[]]; (split; [apply Hmem; simpl; intuition lia|intuition lia]).
        -- intros [Ho ?]. apply Hmem in Ho; [|lia]. simpl in Ho. intuition lia.
      * simpl in Hza. destruct Hsz as [|[? Hall]]; [left; lia|right; split; [lia|]].
        intros x Ho ?. apply Hmem in Ho; [|lia]. destruct Ho as [?|?]; [|by apply Hall].
        apply Hx. left. apply Hxa. right. lia.
    + destruct (insert_spec clear start len) as (acc & -> & Hwa & Hza & Hxa);
        [done|lia..|by intros x ? []|]. simpl in Hza.
      exists acc, (start + len). split_and!; [done..| |left; lia].
      intros x. rewrite Hxa. specialize (Hb x). split.
      * intros [[]|]. split; [apply Hmem; simpl; lia|lia].
      * intros [_ ?]. right. lia.
  - destruct (span_loop_spec ((k, l) :: suf) (next 0 (rev pre)) len clear)
      as (r & -> & Hwr & (cut & Hx) & Hsz); [lia|done|done|by intros x []|lia|].
    pose proof (fun x => mem_bounds k ((k, l) :: suf) x) as Hb2.
    assert (wf_from k ((k, l) :: suf)) as Hw2 by (simpl; split_and!; done || lia).
    exists r, cut. split_and!; [done..| |].
    + intros x. rewrite Hx. specialize (Hb2 x Hw2). split.
      * intros [[]|[Hin ?]]. split; [apply Hmem; [|done]|]; specialize (Hb2 Hin); lia.
      * intros [Ho ?]. right. apply Hmem in Ho; [|lia]. split; [done|lia].
    + simpl in Hsz. destruct Hsz as [|[? Hall]]; [left; lia|right; split; [lia|]].
      intros x Ho ?. apply Hall, Hmem; done.
Qed.

End IntervalFacts.

(** ** The theorems *)
Module IntervalTheorems.
Import interval_set IntervalFacts.

(** inserting a range disjoint from a well-formed set returns, without
    failing an assertion, a well-formed set that is the union of the two, whose
    cached size grew by the length; the reported interval is an entry of the
    result that covers the range, merged with the neighbours it touches. *)
Theorem insert_correct s start len :
  wf s -> 0 <= start -> 0 < len -> start + len < two64 ->
  (forall x, start <= x < start + len -> ~ In_set x s) ->
  exists s' pstart plen, insert_out s start len = Some (s', pstart, plen) /\
    wf s' /\ size s' = size s + len /\
    (forall x, In_set x s' <-> In_set x s \/ start <= x < start + len) /\
    (pstart, plen) ∈ m s' /\ pstart <= start /\ start + len <= pstart + plen.
Proof.
  intros ? ? ? ? Hd. destruct (insert_out_spec s start len) as (s' & a & b & ? & (?&?&?) & ?); [done..|].
  exists s', a, b. split_and!; try done; naive_solver.
Qed.

Lemma insert_correct_witness :
  exists s' pstart plen, insert_out (mk 15 [(5, 10); (20, 5)]) 15 5 = Some (s', pstart, plen) /\
    size s' = 20.
Proof.
  destruct (insert_correct (mk 15 [(5, 10); (20, 5)]) 15 5) as (s' & a & b & He & _ & Hz & _).
  - split; [simpl; lia|reflexivity].
  - lia.
  - lia.
  - lia.
  - unfold In_set; simpl; lia.
  - exists s', a, b. split; [exact He|]. rewrite Hz. reflexivity.
Defined.

(** on a well-formed set, [erase] returns exactly when the range is inside
    the set, otherwise it fails an assertion; the result is well formed and is
    the set difference, and inserting the range again restores the very same
    object. *)
Theorem erase_correct s start len :
  wf s -> 0 <= start -> 0 < len -> start + len < two64 ->
  (erase s start len <> None <-> forall x, start <= x < start + len -> In_set x s) /\
  (forall s', erase s start len = Some s' ->
     wf s' /\ (forall x, In_set x s' <-> In_set x s /\ ~ start <= x < start + len) /\
     size s = size s' + len /\ insert s' start len = Some s).
Proof.
  intros Hw ? ? ?.
  assert (erase s start len <> None -> forall x, start <= x < start + len -> In_set x s) as Hab
    by by apply erase_abort.
  split; [split; [done|]|].
  - intros Hin. destruct (erase_spec s start len) as (s' & -> & _); done.
  - intros s' He. assert (forall x, start <= x < start + len -> In_set x s) as Hin by (apply Hab; congruence).
    destruct (erase_spec s start len) as (s1 & He1 & Hw1 & Hx); [done..|]. simplify_eq.
    destruct (erase_size s s' start len) as [? ?]; done.
Qed.

Lemma erase_correct_witness :
  exists s', erase (mk 15 [(5, 10); (20, 5)]) 8 5 = Some s' /\
    insert s' 8 5 = Some (mk 15 [(5, 10); (20, 5)]).
Proof.
  exists (mk 10 [(5, 3); (13, 2); (20, 5)]). split; [reflexivity|].
  refine (proj2 (proj2 (proj2 (proj2 (erase_correct (mk 15 [(5, 10); (20, 5)]) 8 5 _ _ _ _) _ _)))).
  - split; [simpl; lia|reflexivity].
  - lia.
  - lia.
  - lia.
  - reflexivity.
Defined.

(** [intersection_of] terminates without failing an assertion and computes
    the set intersection, whichever of its two algorithms the sizes select;
    and on non-empty sets the [lower_bound] algorithm and the sequential one
    return the same object. *)
Theorem intersection_correct a b :
  wf a -> wf b ->
  (exists r, intersection_of a b = Some r /\ wf r /\
    forall x, In_set x r <-> In_set x a /\ In_set x b) /\
  (m a <> [] -> intersection_size_asym a b = inter_loop (inter_fuel a b) (m a) (m b) clear).
Proof.
  intros Ha Hb. split; [by apply inter_spec|]. intros Hne.
  destruct (asym_spec a b) as (r1 & -> & Hw1 & Hx1); [done..|].
  destruct (seq_spec a b) as (r2 & -> & Hw2 & Hx2); [done..|].
  f_equal. apply wf_ext; [done..|]. intros x. by rewrite Hx1, Hx2.
Qed.

Lemma intersection_correct_witness :
  intersection_size_asym (mk 5 [(7, 1); (104, 2); (240, 2)]) (mk 150 [(5, 100); (200, 50)]) =
  Some (mk 4 [(7, 1); (104, 1); (240, 2)]).
Proof.
  rewrite (proj2 (intersection_correct (mk 5 [(7, 1); (104, 2); (240, 2)]) (mk 150 [(5, 100); (200, 50)])
    ltac:(split; [simpl; lia|reflexivity]) ltac:(split; [simpl; lia|reflexivity])) ltac:(discriminate)).
  reflexivity.
Defined.

(** [union_of] returns, without failing an assertion, the well-formed set
    that is the union of two well-formed sets, however they overlap. *)
Theorem union_correct a b :
  wf a -> wf b ->
  exists r, union_of a b = Some r /\ wf r /\ forall x, In_set x r <-> In_set x a \/ In_set x b.
Proof. apply union_spec. Qed.

Lemma union_correct_witness :
  exists r, union_of (mk 100 [(5, 100)]) (mk 5 [(0, 3); (104, 2)]) = Some r /\ wf r.
Proof.
  destruct (union_correct (mk 100 [(5, 100)]) (mk 5 [(0, 3); (104, 2)])) as (r & He & Hw & _).
  - split; [simpl; lia|reflexivity].
  - split; [simpl; lia|reflexivity].
  - exists r. split; [exact He|exact Hw].
Defined.

(** [subset_of] never fails on well-formed sets and decides inclusion,
    through its size and range shortcuts and whichever algorithm it selects. *)
Theorem subset_correct s big :
  wf s -> wf big ->
  exists v, subset_of s big = Some v /\ (v = true <-> forall x, In_set x s -> In_set x big).
Proof. apply subset_spec. Qed.

Lemma subset_correct_witness :
  exists v, subset_of (mk 3 [(7, 1); (103, 2)]) (mk 150 [(5, 100); (200, 50)]) = Some v.
Proof.
  destruct (subset_correct (mk 3 [(7, 1); (103, 2)]) (mk 150 [(5, 100); (200, 50)])) as (v & He & _).
  - split; [simpl; lia|reflexivity].
  - split; [simpl; lia|reflexivity].
  - exists v. exact He.
Defined.

(** [span_of other start len] is the initial segment, from [start] on, of
    [other]: exactly the elements of [other] between [start] and some cut, and
    it holds [len] elements unless [other] has fewer from [start] on. *)
Theorem span_correct other start len :
  wf other -> 0 <= start -> 0 < len -> start + len < two64 ->
  exists r cut, span_of other start len = Some r /\ wf r /\
    (forall x, In_set x r <-> In_set x other /\ start <= x < cut) /\
    (size r = len \/ (size r <= len /\ forall x, In_set x other -> start <= x -> In_set x r)).
Proof. apply span_spec. Qed.

Lemma span_correct_witness :
  exists r cut, span_of (mk 15 [(5, 10); (20, 5)]) 12 5 = Some r /\
    (forall x, In_set x r <-> In_set x (mk 15 [(5, 10); (20, 5)]) /\ 12 <= x < cut).
Proof.
  destruct (span_correct (mk 15 [(5, 10); (20, 5)]) 12 5) as (r & cut & He & _ & Hx & _).
  - split; [simpl; lia|reflexivity].
  - lia.
  - lia.
  - lia.
  - exists r, cut. split; [exact He|exact Hx].
Defined.

(** The example in the comment of [span_of] reads a~b as the range from a to b;
    with b a length the call returns one interval. *)
Example span_of_comment : span_of (mk 15 [(5, 10); (20, 5)]) 8 5 = Some (mk 5 [(8, 5)]).
Proof. reflexivity. Qed.

(** [insert] checks for overlap with the next interval in every branch but the
    one that appends to the previous interval: there an overlapping range is
    accepted and the result is no longer well formed. *)
Example insert_overlap_unchecked :
  insert (mk 15 [(0, 10); (15, 5)]) 10 10 = Some (mk 25 [(0, 20); (15, 5)]).
Proof. reflexivity. Qed.

End IntervalTheorems.
