(* ===== verification/Striper.v ===== *)
(** File striping, src/ceph-15.2.17/src/osdc/Striper.cc: the mapping of a byte
    range of a file (or of an RBD image) to extents of the objects it is
    striped over, its inverse, object truncation and counting, and the assembly
    of a striped read from the per-object reads. *)
From S2P Require Import Prelude.

Module Striper.

(** [file_layout_t]: the striping parameters, [uint32_t] in the code. *)
Record file_layout_t := {
  stripe_unit : Z;
  stripe_count : Z;
  object_size : Z
}.

Definition get_period (l : file_layout_t) : Z := mul64 (stripe_count l) (object_size l).

Definition CEPH_MIN_STRIPE_UNIT : Z := 65536.

Definition is_valid (l : file_layout_t) : bool :=
  if (stripe_unit l =? 0) || negb (Z.land (stripe_unit l) (CEPH_MIN_STRIPE_UNIT - 1) =? 0) then false
  else if (object_size l =? 0) || negb (Z.land (object_size l) (CEPH_MIN_STRIPE_UNIT - 1) =? 0) then false
  else if (object_size l <? stripe_unit l) || negb (object_size l mod stripe_unit l =? 0) then false
  else if stripe_count l =? 0 then false
  else true.

(** [striper::LightweightObjectExtent]. *)
Record ObjectExtent := {
  object_no : Z;
  offset : Z;
  length : Z;
  truncate_size : Z;
  buffer_extents : list (Z * Z)
}.

Definition object_truncate_size (l : file_layout_t) (objectno trunc_size : Z) : option Z :=
  if (trunc_size =? 0) || (trunc_size =? two64 - 1) then Some trunc_size
  else
    let su := stripe_unit l in
    ceph_assert (su <=? object_size l) ;;
    let stripes_per_object := object_size l / su in
    let objectsetno := objectno / stripe_count l in
    let trunc_objectsetno := trunc_size / object_size l / stripe_count l in
    if trunc_objectsetno <? objectsetno then Some 0
    else if objectsetno <? trunc_objectsetno then Some (object_size l)
    else
      let trunc_blockno := trunc_size / su in
      let trunc_stripeno := trunc_blockno / stripe_count l in
      let trunc_stripepos := trunc_blockno mod stripe_count l in
      let trunc_objectno := add64 (mul64 trunc_objectsetno (stripe_count l)) trunc_stripepos in
      if objectno <? trunc_objectno then
        Some (mul64 (add64 (trunc_stripeno mod stripes_per_object) 1) su)
      else if trunc_objectno <? objectno then
        Some (mul64 (trunc_stripeno mod stripes_per_object) su)
      else
        Some (add64 (mul64 (trunc_stripeno mod stripes_per_object) su) (trunc_size mod su)).

(** [std::upper_bound(.., objectno, OrderByObject())] on the sorted vector:
    the extents up to [objectno], last first, and the rest. *)
Fixpoint upper_bound (pre suf : list ObjectExtent) (objectno : Z)
  : list ObjectExtent * list ObjectExtent :=
  match suf with
  | [] => (pre, [])
  | e :: suf' =>
      if objectno <? object_no e then (pre, suf) else upper_bound (e :: pre) suf' objectno
  end.

(** One block: extend the extent before the insertion point when it is the
    same object and contiguous, else emplace a new one there. *)
Definition add_block (l : file_layout_t) (trunc_size objectno x_offset x_len buf_off : Z)
    (exts : list ObjectExtent) : option (list ObjectExtent) :=
  let '(rev_it, it) := upper_bound [] exts objectno in
  let fresh :=
    t ← object_truncate_size l objectno trunc_size;
    Some (rev_append rev_it
      ({| object_no := objectno; offset := x_offset; length := x_len;
          truncate_size := t; buffer_extents := [(buf_off, x_len)] |} :: it)) in
  match rev_it with
  | [] => fresh
  | e :: rest =>
      if negb (object_no e =? objectno) || negb (add64 (offset e) (length e) =? x_offset)
      then fresh
      else
        Some (rev_append rest
          ({| object_no := object_no e; offset := offset e; length := add64 (length e) x_len;
              truncate_size := truncate_size e;
              buffer_extents := buffer_extents e ++ [(buf_off, x_len)] |} :: it))
  end.

(** The [while (left > 0)] of [file_to_extents]; [su] is the local variable
    that is reset when the stripe count is one.  [None] is a failed assertion
    or exhausted fuel. *)
Fixpoint extents_loop (fuel : nat) (l : file_layout_t) (su off trunc_size buffer_offset cur left : Z)
    (exts : list ObjectExtent) : option (list ObjectExtent) :=
  if 0 <? left then
    match fuel with
    | O => None
    | S fuel =>
        let stripes_per_object := object_size l / su in
        let blockno := cur / su in
        let stripeno := blockno / stripe_count l in
        let stripepos := blockno mod stripe_count l in
        let objectsetno := stripeno / stripes_per_object in
        let objectno := add64 (mul64 objectsetno (stripe_count l)) stripepos in
        let block_start := mul64 (stripeno mod stripes_per_object) su in
        let block_off := cur mod su in
        let max := sub64 su block_off in
        let x_offset := add64 block_start block_off in
        let x_len := if max <? left then max else left in
        exts' ← add_block l trunc_size objectno x_offset x_len
                  (add64 (sub64 cur off) buffer_offset) exts;
        extents_loop fuel l su off trunc_size buffer_offset (add64 cur x_len) (sub64 left x_len) exts'
    end
  else Some exts.

(** Enough iterations for a range: the blocks it touches. *)
Definition extents_fuel (su cur left : Z) : nat := Z.to_nat ((cur mod su + left) / su + 1).

(** [file_to_extents(layout, offset, len, trunc_size, buffer_offset, exts)]:
    [exts] is the vector the caller passes in. *)
Definition file_to_extents (l : file_layout_t) (off len trunc_size buffer_offset : Z)
    (exts : list ObjectExtent) : option (list ObjectExtent) :=
  ceph_assert (0 <? len) ;;
  ceph_assert (stripe_unit l <=? object_size l) ;;
  let su := if stripe_count l =? 1 then object_size l else stripe_unit l in
  extents_loop (extents_fuel su off len) l su off trunc_size buffer_offset off len exts.

(** [extent_to_file]: the file ranges an object extent holds. *)
Fixpoint to_file_loop (fuel : nat) (l : file_layout_t) (objectno off len off_in_block : Z)
  : option (list (Z * Z)) :=
  if 0 <? len then
    match fuel with
    | O => None
    | S fuel =>
        let su := stripe_unit l in
        let stripes_per_object := object_size l / su in
        let stripepos := objectno mod stripe_count l in
        let objectsetno := objectno / stripe_count l in
        let stripeno := add64 (off / su) (mul64 objectsetno stripes_per_object) in
        let blockno := add64 (mul64 stripeno (stripe_count l)) stripepos in
        let extent_off := add64 (mul64 blockno su) off_in_block in
        let extent_len := Z.min len (sub64 su off_in_block) in
        rest ← to_file_loop fuel l objectno (add64 off extent_len) (sub64 len extent_len) 0;
        Some ((extent_off, extent_len) :: rest)
    end
  else Some [].

Definition extent_to_file (l : file_layout_t) (objectno off len : Z) : option (list (Z * Z)) :=
  ceph_assert (stripe_unit l <=? object_size l) ;;
  to_file_loop (extents_fuel (stripe_unit l) off len) l objectno off len (off mod stripe_unit l).

Definition get_num_objects (l : file_layout_t) (size : Z) : Z :=
  let period := get_period l in
  let num_periods := sub64 (add64 size period) 1 / period in
  let remainder_bytes := size mod period in
  let remainder_objs :=
    if (0 <? remainder_bytes) && (remainder_bytes <? mul64 (stripe_count l) (stripe_unit l))
    then sub64 (stripe_count l)
           (sub64 (add64 remainder_bytes (stripe_unit l)) 1 / stripe_unit l)
    else 0 in
  sub64 (mul64 num_periods (stripe_count l)) remainder_objs.

End Striper.

(** ** Assembling a striped read *)
Module StripedReadResult.

(** A bufferlist is its bytes. *)
Abbreviation bufferlist := (list Byte.byte).

(** Buffer offset -> (data, intended length), and the sum of the lengths. *)
Record t := {
  partial : gmap Z (bufferlist * Z);
  total_intended_len : Z
}.

Definition fresh : t := {| partial := ∅; total_intended_len := 0 |}.

(** [partial[k]]: the entry, created empty when absent. *)
Definition entry (r : t) (k : Z) : bufferlist * Z := default ([], 0) (partial r !! k).

Definition set_entry (r : t) (k : Z) (data : bufferlist) (len : Z) : t :=
  {| partial := <[k := (data, len)]> (partial r);
     total_intended_len := add64 (total_intended_len r) len |}.

(** [bl.splice(0, n, &claim)]: move the first [n] bytes to the end of
    [claim]; throws when there are not that many. *)
Definition splice (bl : bufferlist) (n : nat) (claim : bufferlist) : option (bufferlist * bufferlist) :=
  if (n =? 0)%nat then Some (bl, claim)
  else if (n <=? length bl)%nat then Some (drop n bl, claim ++ take n bl)
  else None.

(** [add_partial_result] over a vector of buffer extents. *)
Fixpoint add_partial_result (r : t) (bl : bufferlist) (buffer_extents : list (Z * Z)) : option t :=
  match buffer_extents with
  | [] => Some r
  | (k, len) :: rest =>
      let actual := Z.min (Z.of_nat (length bl)) len in
      '(bl', data) ← splice bl (Z.to_nat actual) (entry r k).1;
      add_partial_result (set_entry r k data len) bl' rest
  end.

(** The overload on an rvalue bufferlist: a single buffer extent takes the
    whole buffer instead of splicing. *)
Definition add_partial_result_move (r : t) (bl : bufferlist) (buffer_extents : list (Z * Z)) : option t :=
  match buffer_extents with
  | [(k, len)] => Some (set_entry r k bl len)
  | _ => add_partial_result r bl buffer_extents
  end.

(** One buffer extent of a sparse read: the results so far, the remaining data,
    the remaining source extents and the source offset reached. *)
Fixpoint add_sparse_extent (r : t) (bl : bufferlist) (s : list (Z * Z)) (bl_off tofs tlen : Z)
  : option (t * bufferlist * list (Z * Z) * Z) :=
  if 0 <? tlen then
    match s with
    | [] => Some (set_entry r tofs (entry r tofs).1 tlen, bl, [], bl_off)
    | (k, n) :: s' =>
        if n =? 0 then add_sparse_extent r bl s' bl_off tofs tlen
        else
          let gap := Z.min (sub64 k bl_off) tlen in
          let '(r1, bl_off1, tofs1, tlen1) :=
            if bl_off <? k then
              (set_entry r tofs (entry r tofs).1 gap, add64 bl_off gap, add64 tofs gap, sub64 tlen gap)
            else (r, bl_off, tofs, tlen) in
          if (bl_off <? k) && (tlen1 =? 0) then Some (r1, bl, s, bl_off1)
          else
            ceph_assert (k <=? bl_off1) ;;
            let left := sub64 (add64 k n) bl_off1 in
            let actual := Z.min left tlen1 in
            if 0 <? actual then
              '(bl', data) ← splice bl (Z.to_nat actual) (entry r1 tofs1).1;
              let r2 := set_entry r1 tofs1 data actual in
              if actual =? left
              then add_sparse_extent r2 bl' s' (add64 bl_off1 actual) (add64 tofs1 actual) (sub64 tlen1 actual)
              else Some (r2, bl', s, add64 bl_off1 actual)
            else
              if actual =? left then add_sparse_extent r1 bl s' bl_off1 tofs1 tlen1
              else None
    end
  else Some (r, bl, s, bl_off).

Fixpoint add_partial_sparse_result (r : t) (bl : bufferlist) (s : list (Z * Z)) (bl_off : Z)
    (buffer_extents : list (Z * Z)) : option t :=
  match buffer_extents with
  | [] => Some r
  | (tofs, tlen) :: rest =>
      '(r', bl', s', bl_off') ← add_sparse_extent r bl s bl_off tofs tlen;
      add_partial_sparse_result r' bl' s' bl_off' rest
  end.

(** The entries of [partial] in key order. *)
Definition key_le (a b : Z * (bufferlist * Z)) : Prop := a.1 <= b.1.
#[export] Instance key_le_dec : RelDecision key_le.
Proof. intros a b. unfold key_le. apply _. Defined.

Definition entries (r : t) : list (Z * (bufferlist * Z)) := merge_sort key_le (map_to_list (partial r)).

Definition zeros (n : Z) : bufferlist := replicate (Z.to_nat n) Byte.x00.

(** [assemble_result(bl, zero_tail)], appending to [bl]. *)
Fixpoint assemble_loop (es : list (Z * (bufferlist * Z))) (pending : Z) (bl : bufferlist) (zero_tail : bool)
  : bufferlist :=
  match es with
  | [] => if zero_tail && negb (pending =? 0) then bl ++ zeros pending else bl
  | (_, (data, expect)) :: es' =>
      let got := Z.of_nat (length data) in
      let '(pending1, bl1) :=
        if negb (got =? 0) then
          (0, (if negb (pending =? 0) then bl ++ zeros pending else bl) ++ data)
        else (pending, bl) in
      assemble_loop es' (add64 pending1 (sub64 expect got)) bl1 zero_tail
  end.

Definition assemble_result (r : t) (bl : bufferlist) (zero_tail : bool) : bufferlist * t :=
  (assemble_loop (entries r) 0 bl zero_tail,
   {| partial := ∅; total_intended_len := total_intended_len r |}).

(** Copy bytes into a buffer; [None] is a write past its end. *)
Definition write_at (buf : bufferlist) (pos : Z) (data : bufferlist) : option bufferlist :=
  let p := Z.to_nat pos in
  if (p + length data <=? length buf)%nat
  then Some (take p buf ++ data ++ drop (p + length data) buf)
  else None.

(** [assemble_result(buffer, length)], from the last entry to the first: the
    entries must tile the buffer exactly. *)
Fixpoint assemble_buffer_loop (es : list (Z * (bufferlist * Z))) (curr en : Z) (buffer : bufferlist)
  : option bufferlist :=
  match es with
  | [] => ceph_assert (curr =? 0) ;; Some buffer
  | (off, (data, expect)) :: es' =>
      ceph_assert (off =? sub64 en expect) ;;
      ceph_assert (expect <=? curr) ;;
      let curr1 := sub64 curr expect in
      let len := Z.of_nat (length data) in
      buffer1 ←
        (if len <? expect then
           b ← (if negb (len =? 0) then write_at buffer curr1 data else Some buffer);
           write_at b (add64 curr1 len) (zeros (sub64 expect len))
         else write_at buffer curr1 data);
      assemble_buffer_loop es' curr1 off buffer1
  end.

Definition assemble_buffer (r : t) (buffer : bufferlist) : option (bufferlist * t) :=
  ceph_assert (Z.of_nat (length buffer) =? total_intended_len r) ;;
  match reverse (entries r) with
  | [] => Some (buffer, r)
  | (off, (_, expect)) :: _ =>
      b ← assemble_buffer_loop (reverse (entries r)) (Z.of_nat (length buffer)) (add64 off expect) buffer;
      Some (b, {| partial := ∅; total_intended_len := total_intended_len r |})
  end.

(** [assemble_result(extent_map, bl)]: the extents that returned data. *)
Fixpoint assemble_sparse_loop (es : list (Z * (bufferlist * Z))) (extent_map : gmap Z Z) (bl : bufferlist)
  : gmap Z Z * bufferlist :=
  match es with
  | [] => (extent_map, bl)
  | (off, (data, _)) :: es' =>
      let len := Z.of_nat (length data) in
      if 0 <? len then assemble_sparse_loop es' (<[off := len]> extent_map) (bl ++ data)
      else assemble_sparse_loop es' extent_map bl
  end.

Definition assemble_sparse (r : t) (extent_map : gmap Z Z) (bl : bufferlist) : gmap Z Z * bufferlist * t :=
  (assemble_sparse_loop (entries r) extent_map bl,
   {| partial := ∅; total_intended_len := total_intended_len r |}).

End StripedReadResult.

(** ** The location of a byte *)
Module StriperFacts.
Import Striper.

(** A usable layout: the bounds of the [uint32_t] fields and what [is_valid]
    checks. *)
Definition layout_ok (l : file_layout_t) : Prop :=
  0 < stripe_unit l /\ 0 < stripe_count l < two32 /\
  stripe_unit l <= object_size l < two32 /\ object_size l mod stripe_unit l = 0.

(** The object and the offset in it of byte [f] of the file, for a stripe unit
    [su], [sc] objects per stripe and [spo] stripe units per object. *)
Definition loc (su sc spo f : Z) : Z * Z :=
  let b := f / su in
  (b / sc / spo * sc + b mod sc, (b / sc) mod spo * su + f mod su).

(** The byte of the file at offset [x] of object [o]. *)
Definition foff (su sc spo o x : Z) : Z :=
  ((x / su + o / sc * spo) * sc + o mod sc) * su + x mod su.

Lemma div_mod_unique a b q r : 0 <= r < b -> a = q * b + r -> a / b = q /\ a mod b = r.
Proof.
  intros Hr ->. split; symmetry; [apply (Z.div_unique _ _ _ r)|apply (Z.mod_unique _ _ q)]; lia.
Qed.

Section Arith.
Context (su sc spo : Z) (Hsu : 0 < su) (Hsc : 0 < sc) (Hspo : 0 < spo).

Lemma foff_loc f : foff su sc spo (loc su sc spo f).1 (loc su sc spo f).2 = f.
Proof.
  unfold foff, loc; simpl. set (b := f / su). set (s := b / sc).
  pose proof (Z.mod_pos_bound f su Hsu). pose proof (Z.mod_pos_bound b sc Hsc).
  destruct (div_mod_unique (s mod spo * su + f mod su) su (s mod spo) (f mod su)) as [-> ->]; [done..|].
  destruct (div_mod_unique (s / spo * sc + b mod sc) sc (s / spo) (b mod sc)) as [-> ->]; [done..|].
  replace (s mod spo + s / spo * spo) with s by (pose proof (Z.div_mod s spo); lia).
  replace (s * sc + b mod sc) with b by (pose proof (Z.div_mod b sc); subst s; lia).
  pose proof (Z.div_mod f su). subst b. lia.
Qed.

Lemma loc_foff o x : 0 <= x < su * spo -> loc su sc spo (foff su sc spo o x) = (o, x).
Proof.
  intros Hx. unfold foff, loc. set (t := x / su + o / sc * spo).
  pose proof (Z.mod_pos_bound x su Hsu). pose proof (Z.mod_pos_bound o sc Hsc).
  assert (0 <= x / su < spo) as Hxs by (split; [apply Z.div_pos; lia|apply Z.div_lt_upper_bound; lia]).
  destruct (div_mod_unique ((t * sc + o mod sc) * su + x mod su) su (t * sc + o mod sc) (x mod su)) as [-> ->]; [done..|].
  destruct (div_mod_unique (t * sc + o mod sc) sc t (o mod sc)) as [-> ->]; [done..|].
  destruct (div_mod_unique t spo (o / sc) (x / su)) as [-> ->]; [done|subst t; lia|].
  pose proof (Z.div_mod o sc). pose proof (Z.div_mod x su). f_equal; lia.
Qed.

Lemma loc_nonneg f : 0 <= f -> 0 <= (loc su sc spo f).1 /\ 0 <= (loc su sc spo f).2 < su * spo.
Proof.
  intros Hf. unfold loc; simpl. pose proof (Z.mod_pos_bound f su Hsu).
  assert (0 <= f / su) by (apply Z.div_pos; lia).
  assert (0 <= f / su / sc) by (apply Z.div_pos; lia).
  assert (0 <= f / su / sc / spo) by (apply Z.div_pos; lia).
  pose proof (Z.mod_pos_bound (f / su) sc Hsc). pose proof (Z.mod_pos_bound (f / su / sc) spo Hspo). nia.
Qed.

(** Within a stripe unit the location advances byte by byte. *)
Lemma loc_block f i :
  0 <= i < su - f mod su ->
  loc su sc spo (f + i) = ((loc su sc spo f).1, (loc su sc spo f).2 + i).
Proof.
  intros Hi. unfold loc; simpl. pose proof (Z.mod_pos_bound f su Hsu).
  destruct (div_mod_unique (f + i) su (f / su) (f mod su + i)) as [-> ->]; [lia| |f_equal; lia].
  pose proof (Z.div_mod f su). lia.
Qed.

(** The object of a byte is not past the byte: the code's products do not
    wrap. *)
Lemma loc_le f : 0 <= f -> f / su / sc / spo * sc + (f / su) mod sc <= f.
Proof.
  intros Hf. assert (0 <= f / su) by (apply Z.div_pos; lia).
  assert (f / su <= f) by (apply Z.div_le_upper_bound; nia).
  assert (0 <= f / su / sc) by (apply Z.div_pos; lia).
  assert (f / su / sc / spo <= f / su / sc) by (apply Z.div_le_upper_bound; nia).
  pose proof (Z.div_mod (f / su) sc). nia.
Qed.
End Arith.

(** With one object per stripe the stripe unit does not matter, which is why
    the code may take the whole object as the unit. *)
Lemma loc_one su spo f : 0 < su -> 0 < spo -> loc su 1 spo f = loc (su * spo) 1 1 f.
Proof.
  intros Hsu Hspo. unfold loc. rewrite !Z.div_1_r, !Z.mod_1_r, !Z.div_div by lia.
  f_equal. rewrite Z.mul_comm, Z.add_comm, <- Z.rem_mul_r by lia. lia.
Qed.

(** ** What a vector of extents maps *)

(** The buffer positions of an extent, in the order of its bytes. *)
Definition positions (be : list (Z * Z)) : list Z := '(b, n) ← be; seqZ b n.

(** The bytes an extent maps: buffer position, object, offset in it. *)
Definition bytes_of (e : ObjectExtent) : list (Z * (Z * Z)) :=
  zip (positions (buffer_extents e)) (pair (object_no e) <$> seqZ (offset e) (Striper.length e)).

Definition all_bytes (exts : list ObjectExtent) : list (Z * (Z * Z)) := exts ≫= bytes_of.

(** The bytes of a file range: byte [f] of the file goes to position
    [f - off + bo] of the buffer. *)
Definition range_bytes (L : Z -> Z * Z) (off bo cur n : Z) : list (Z * (Z * Z)) :=
  (fun f => (f - off + bo, L f)) <$> seqZ cur n.

(** An extent has as many buffer positions as bytes and stays below 2^64. *)
Definition ext_ok (e : ObjectExtent) : Prop :=
  Z.of_nat (base.length (positions (buffer_extents e))) = Striper.length e /\
  0 <= offset e /\ 0 < Striper.length e /\ offset e + Striper.length e < two64 /\
  Forall (fun be => 0 < be.2) (buffer_extents e).

Definition obj_le (a b : ObjectExtent) : Prop := object_no a <= object_no b.

Lemma seqZ_fmap a n : seqZ a n = (fun i => a + i) <$> seqZ 0 n.
Proof. rewrite fmap_add_seqZ. f_equal; lia. Qed.

Lemma block_bytes L off bo cur n o x b :
  (forall i, 0 <= i < n -> L (cur + i) = (o, x + i)) -> b = cur - off + bo ->
  zip (seqZ b n) (pair o <$> seqZ x n) = range_bytes L off bo cur n.
Proof.
  intros HL ->. unfold range_bytes. rewrite (seqZ_fmap cur), (seqZ_fmap x), (seqZ_fmap (cur - off + bo)).
  rewrite <- !list_fmap_compose, zip_with_fmap_r, zip_with_fmap_l, zip_with_diag.
  apply list_fmap_ext. intros k i Hi%lookup_seqZ. simpl. rewrite HL by lia. f_equal. lia.
Qed.

Lemma range_bytes_app L off bo cur n m :
  0 <= n -> 0 <= m -> range_bytes L off bo cur (n + m) = range_bytes L off bo cur n ++ range_bytes L off bo (cur + n) m.
Proof. intros ? ?. unfold range_bytes. by rewrite seqZ_app, fmap_app by done. Qed.


(** *** Adding a block *)

Lemma upper_bound_spec pre suf o :
  exists m1 m2, suf = m1 ++ m2 /\ upper_bound pre suf o = (rev m1 ++ pre, m2) /\
    Forall (fun e => object_no e <= o) m1 /\
    match m2 with [] => True | e :: _ => o < object_no e end.
Proof.
  revert pre. induction suf as [|e suf IH]; intros pre; simpl; [by exists [], []|].
  destruct (Z.ltb_spec o (object_no e)).
  - exists [], (e :: suf). auto.
  - destruct (IH (e :: pre)) as (m1 & m2 & -> & -> & ? & ?).
    exists (e :: m1), m2. simpl. rewrite <- app_assoc. auto.
Qed.

Lemma upper_bound_split exts o :
  StronglySorted obj_le exts ->
  exists pre suf, upper_bound [] exts o = (pre, suf) /\ exts = rev pre ++ suf /\
    Forall (fun e => object_no e <= o) (rev pre) /\ Forall (fun e => o < object_no e) suf.
Proof.
  intros Hs. destruct (upper_bound_spec [] exts o) as (m1 & m2 & -> & Hu & H1 & H2).
  exists (rev m1), m2. rewrite app_nil_r in Hu. rewrite rev_involutive. split_and!; [done..|].
  destruct m2 as [|e m2]; [done|]. apply StronglySorted_app_1_r in Hs.
  inversion_clear Hs as [|? ? _ Hf]. constructor; [done|].
  eapply Forall_impl; [exact Hf|]. unfold obj_le. simpl. lia.
Qed.

Lemma sorted_insert pre suf e :
  StronglySorted obj_le (rev pre ++ suf) ->
  Forall (fun a => object_no a <= object_no e) (rev pre) ->
  Forall (fun a => object_no e < object_no a) suf ->
  StronglySorted obj_le (rev pre ++ e :: suf).
Proof.
  rewrite !StronglySorted_app. intros (Hx & Hp & Hs) H1 H2. split_and!; [|done|].
  - intros a b Ha [->|Hb]%elem_of_cons; [by eapply Forall_forall in H1|by apply Hx].
  - constructor; [done|]. eapply Forall_impl; [exact H2|]. unfold obj_le. lia.
Qed.

Lemma all_bytes_app a b : all_bytes (a ++ b) = all_bytes a ++ all_bytes b.
Proof. apply bind_app. Qed.

Lemma all_bytes_mid pre suf e bs :
  bytes_of e = bs -> all_bytes (rev pre ++ e :: suf) ≡ₚ all_bytes (rev pre ++ suf) ++ bs.
Proof.
  intros <-. rewrite !all_bytes_app. unfold all_bytes at 2. rewrite bind_cons.
  fold (all_bytes suf). rewrite <- app_assoc. f_equiv. apply Permutation_app_comm.
Qed.

(** Appending a contiguous block to an extent. *)
Lemma bytes_of_extend e n b t :
  ext_ok e -> 0 <= n ->
  bytes_of {| object_no := object_no e; offset := offset e; length := Striper.length e + n;
              truncate_size := t; buffer_extents := buffer_extents e ++ [(b, n)] |} =
  bytes_of e ++ zip (seqZ b n) (pair (object_no e) <$> seqZ (offset e + Striper.length e) n).
Proof.
  intros (Hl & ? & ? & ?) Hn. unfold bytes_of; simpl. unfold positions in *.
  rewrite bind_app, seqZ_app, fmap_app, bind_singleton by lia.
  apply zip_with_app. rewrite length_fmap, length_seqZ. lia.
Qed.

Lemma truncate_some l o ts :
  stripe_unit l <= object_size l -> exists t, object_truncate_size l o ts = Some t.
Proof.
  intros H. unfold object_truncate_size. case_match; [by eexists|].
  rewrite (proj2 (Z.leb_le _ _)) by done. repeat case_match; by eexists.
Qed.

Lemma add_block_spec l ts o x n b exts :
  stripe_unit l <= object_size l -> StronglySorted obj_le exts -> Forall ext_ok exts ->
  0 <= x -> 0 < n -> x + n < two64 ->
  exists r, add_block l ts o x n b exts = Some r /\ StronglySorted obj_le r /\ Forall ext_ok r /\
    all_bytes r ≡ₚ all_bytes exts ++ zip (seqZ b n) (pair o <$> seqZ x n).
Proof.
  intros Hl Hs Hok Hx Hn Hxn. unfold add_block.
  destruct (upper_bound_split exts o Hs) as (pre & suf & -> & -> & Hpre & Hsuf).
  destruct (truncate_some l o ts Hl) as [t ->]. cbn [mbind option_bind]. rewrite rev_append_rev.
  set (f := {| object_no := o |}).
  assert (exists r, Some (rev pre ++ f :: suf) = Some r /\ StronglySorted obj_le r /\ Forall ext_ok r /\
    all_bytes r ≡ₚ all_bytes (rev pre ++ suf) ++ zip (seqZ b n) (pair o <$> seqZ x n)) as Hfresh.
  { eexists. split_and!; [done|by apply sorted_insert| |].
    - apply Forall_app in Hok as [? ?]. apply Forall_app; split; [done|]. constructor; [|done].
      unfold ext_ok, f; simpl. rewrite app_nil_r, length_seqZ. split_and!; [lia..|by repeat constructor].
    - apply all_bytes_mid. unfold bytes_of, f; simpl. by rewrite app_nil_r. }
  destruct pre as [|e pre]; [done|]. case_match eqn:Hc; [done|]. clear Hfresh. zbool. subst o x.
  apply Forall_app in Hok as [Hok1 Hok2]. simpl in Hok1. apply Forall_app in Hok1 as [Hok0 Hoke].
  apply Forall_cons in Hoke as [Hoke _]. pose proof Hoke as (? & ? & ? & ? & ?). unwrap64.
  rewrite rev_append_rev. eexists. split; [done|].
  simpl in Hs, Hpre. rewrite <- app_assoc in Hs. apply Forall_app in Hpre as [Hpre _].
  split_and!.
  - apply sorted_insert; simpl; [|done|done].
    apply StronglySorted_app in Hs as (Hs1 & Hs2 & Hs3). apply StronglySorted_app. split_and!; [|done|].
    + intros; apply Hs1; set_solver.
    + by inversion_clear Hs3.
  - apply Forall_app; split; [done|]. constructor; [|done]. unfold ext_ok; simpl. unfold positions in *.
    rewrite bind_app, bind_singleton, length_app, length_seqZ.
    split_and!; [lia..|apply Forall_app; split; [done|by repeat constructor]].
  - rewrite all_bytes_mid by (apply bytes_of_extend; [done|lia]).
    simpl. rewrite <- (app_assoc (rev pre)). simpl. rewrite (all_bytes_mid pre suf e) by done.
    by rewrite <- app_assoc.
Qed.

(** *** The loop *)

(** The parameters of the loop: the unit it runs with and the location map it
    computes. *)
Definition unit_ok (l : file_layout_t) (su : Z) : Prop :=
  0 < su <= object_size l /\ object_size l < two32 /\ 0 < stripe_count l < two32.

Definition L (l : file_layout_t) (su : Z) : Z -> Z * Z := loc su (stripe_count l) (object_size l / su).

Lemma unit_spo l su : unit_ok l su -> 0 < object_size l / su /\ su * (object_size l / su) <= object_size l.
Proof.
  intros (? & ? & ?). split; [apply Z.div_str_pos; lia|]. apply Z.mul_div_le. lia.
Qed.

(** What one iteration computes, without wrap-around. *)
Lemma step_loc l su cur :
  unit_ok l su -> 0 <= cur < two64 ->
  add64 (mul64 (cur / su / stripe_count l / (object_size l / su)) (stripe_count l))
        ((cur / su) mod stripe_count l) = (L l su cur).1 /\
  add64 (mul64 ((cur / su / stripe_count l) mod (object_size l / su)) su) (cur mod su) = (L l su cur).2 /\
  0 <= (L l su cur).2 /\ (L l su cur).2 + (su - cur mod su) <= object_size l.
Proof.
  intros Hu Hc. pose proof (unit_spo l su Hu) as [Hspo Hle]. destruct Hu as (? & ? & ?).
  set (spo := object_size l / su) in *. set (sc := stripe_count l) in *. unfold L. fold spo sc.
  pose proof (loc_le su sc spo ltac:(lia) ltac:(lia) Hspo cur ltac:(lia)) as Hl.
  assert (0 <= cur / su) by (apply Z.div_pos; lia).
  assert (0 <= cur / su / sc) by (apply Z.div_pos; lia).
  assert (0 <= cur / su / sc / spo) by (apply Z.div_pos; lia).
  pose proof (Z.mod_pos_bound (cur / su) sc ltac:(lia)).
  pose proof (Z.mod_pos_bound (cur / su / sc) spo ltac:(lia)).
  pose proof (Z.mod_pos_bound cur su ltac:(lia)). unfold loc; simpl.
  assert ((cur / su / sc) mod spo * su + su <= su * spo) by nia.
  rewrite !mul64_small by nia. rewrite !add64_small by nia. split_and!; [done..|nia|lia].
Qed.

Lemma extents_loop_spec fuel l su off ts bo cur left exts :
  unit_ok l su -> stripe_unit l <= object_size l ->
  0 <= off <= cur -> 0 <= left -> cur + left < two64 -> 0 <= bo -> cur + left - off + bo < two64 ->
  StronglySorted obj_le exts -> Forall ext_ok exts ->
  (0 < left -> (cur mod su + left) / su < Z.of_nat fuel) ->
  exists r, extents_loop fuel l su off ts bo cur left exts = Some r /\
    StronglySorted obj_le r /\ Forall ext_ok r /\
    all_bytes r ≡ₚ all_bytes exts ++ range_bytes (L l su) off bo cur left.
Proof.
  intros Hu Hl. revert cur left exts. induction fuel as [|fuel IH];
    intros cur left exts Hoff Hleft Hcl Hbo Hb Hs Hok Hf.
  all: cbn [extents_loop]; destruct (Z.ltb_spec 0 left).
  2,4: (exists exts; split_and!; [done..|]; replace left with 0 by lia; unfold range_bytes; simpl;
       by rewrite app_nil_r).
  { pose proof Hu as (? & ? & ?). pose proof (Z.mod_pos_bound cur su ltac:(lia)).
    pose proof (Z.div_pos (cur mod su + left) su ltac:(lia) ltac:(lia)). lia. }
  destruct (step_loc l su cur Hu ltac:(lia)) as (-> & -> & Hx0 & Hx1).
  pose proof Hu as (? & ? & ?). pose proof (Z.mod_pos_bound cur su ltac:(lia)). unwrap64.
  set (n := if su - cur mod su <? left then su - cur mod su else left).
  assert (0 < n <= left /\ n <= su - cur mod su) as Hn by (unfold n; destruct (Z.ltb_spec (su - cur mod su) left); lia).
  destruct (add_block_spec l ts (L l su cur).1 (L l su cur).2 n (cur - off + bo) exts)
    as (r1 & -> & Hs1 & Hok1 & Hp1); [done..|lia|lia|lia|]. cbn [mbind option_bind].
  destruct (IH (cur + n) (left - n) r1) as (r & Hr & ? & ? & Hp); [lia..|done|done| |].
  { unfold n. destruct (Z.ltb_spec (su - cur mod su) left); [|lia]. intros _. specialize (Hf ltac:(lia)).
    replace ((cur + (su - cur mod su)) mod su) with 0.
    - replace (cur mod su + left) with (0 + (left - (su - cur mod su)) + 1 * su) in Hf by lia.
      rewrite Z.div_add in Hf by lia. lia.
    - apply (Z.mod_unique _ _ (cur / su + 1)); [lia|]. pose proof (Z.div_mod cur su). lia. }
  exists r. unwrap64. split_and!; [done..|]. rewrite Hp, Hp1, <- app_assoc. f_equiv.
  rewrite (block_bytes (L l su) off bo cur n) by (done || (intros i ?; apply loc_block; lia)).
  rewrite <- range_bytes_app by lia. by replace (n + (left - n)) with left by lia.
Qed.

(** *** One extent per object *)

Definition obj_lt (a b : ObjectExtent) : Prop := object_no a < object_no b.

Lemma strict_sorted exts : StronglySorted obj_lt exts -> StronglySorted obj_le exts.
Proof.
  induction 1 as [|e exts _ IH Hf]; constructor; [done|].
  eapply Forall_impl; [exact Hf|]. unfold obj_lt, obj_le. lia.
Qed.

Lemma strict_insert pre suf e :
  StronglySorted obj_lt (rev pre ++ suf) ->
  Forall (fun a => object_no a < object_no e) (rev pre) ->
  Forall (fun a => object_no e < object_no a) suf ->
  StronglySorted obj_lt (rev pre ++ e :: suf).
Proof.
  rewrite !StronglySorted_app. intros (Hx & Hp & Hs) H1 H2. split_and!; [|done|by constructor].
  intros a b Ha [->|Hb]%elem_of_cons; [by eapply Forall_forall in H1|by apply Hx].
Qed.

(** When the extent of the object ends where the block starts, the block
    extends it: no second extent of the object appears. *)
Lemma add_block_strict l ts o x n b exts r :
  StronglySorted obj_lt exts -> Forall ext_ok exts ->
  (forall e, e ∈ exts -> object_no e = o -> offset e + Striper.length e = x) ->
  0 < n -> x + n < two64 ->
  add_block l ts o x n b exts = Some r ->
  StronglySorted obj_lt r /\
  forall e, e ∈ r -> (object_no e = o /\ offset e + Striper.length e = x + n) \/
                     (object_no e <> o /\ e ∈ exts).
Proof.
  intros Hs Hok Hend Hn Hxn. unfold add_block.
  destruct (upper_bound_split exts o (strict_sorted _ Hs)) as (pre & suf & -> & -> & Hpre & Hsuf).
  assert (forall e, e ∈ suf -> object_no e <> o) as Hns.
  { intros e He. eapply Forall_forall in Hsuf; [|done]. simpl in Hsuf. lia. }
  destruct pre as [|e0 pre].
  { destruct (object_truncate_size l o ts) as [t|]; [|done]. intros [= <-]. simpl. split.
    - apply (strict_insert [] suf); [done|constructor|done].
    - intros e [->|He]%elem_of_cons; simpl; [auto|]. right. split; [by apply Hns|set_solver]. }
  simpl in *. rewrite <- app_assoc in Hs. apply Forall_app in Hpre as [Hpre He0].
  apply Forall_cons in He0 as [He0 _].
  pose proof Hs as (Hs1 & Hs2 & Hs3)%StronglySorted_app.
  assert (Forall (fun a => object_no a < object_no e0) (rev pre)) as Hlt.
  { apply Forall_forall. intros a Ha. apply (Hs1 a e0 Ha). set_solver. }
  case_match eqn:Hc.
  - assert (object_no e0 <> o) as Hne.
    { intros E. zbool; [done|]. rewrite add64_small in *.
      - specialize (Hend e0). set_solver by lia.
      - apply Forall_app in Hok as [Hok _]. simpl in Hok. apply Forall_app in Hok as [_ Hok].
        apply Forall_cons in Hok as [(?&?&?&?) _]. lia. }
    destruct (object_truncate_size l o ts) as [t|]; [|done]. intros [= <-].
    rewrite rev_append_rev. split.
    + match goal with |- StronglySorted _ (_ ++ _ :: ?f :: _) => pose proof (strict_insert (e0 :: pre) suf f) as Hi end.
      simpl in Hi. rewrite <- !app_assoc in Hi. apply Hi; [done| |done].
      apply Forall_app. split; [|constructor; [lia|done]].
      eapply Forall_impl; [exact Hlt|]. simpl. intros; lia.
    + intros e [He|[->|[->|He]%elem_of_cons]%elem_of_cons]%elem_of_app.
      * right. rewrite Forall_forall in Hlt. specialize (Hlt e He). split; [lia|set_solver].
      * right. split; [done|set_solver].
      * left. done.
      * right. split; [by apply Hns|set_solver].
  - intros [= <-]. zbool. subst o. rewrite rev_append_rev.
    assert (ext_ok e0) as (?&?&?&?) by (eapply Forall_forall in Hok; [done|set_solver]). unwrap64. subst x.
    split.
    + apply strict_insert; simpl; [|done|done]. apply StronglySorted_app. split_and!; [|done|].
      * intros; apply Hs1; set_solver.
      * by inversion_clear Hs3.
    + intros e [He|[->|He]%elem_of_cons]%elem_of_app.
      * right. rewrite Forall_forall in Hlt. specialize (Hlt e He). split; [lia|set_solver].
      * left. simpl. lia.
      * right. split; [by apply Hns|set_solver].
Qed.

(** How many stripe units of object [o] lie in the first [B] blocks of the
    file. *)
Definition frontier (sc spo B o : Z) : Z :=
  Z.min spo (Z.max 0 ((B - o mod sc + sc - 1) / sc - o / sc * spo)).

Lemma ceil_count sc B p :
  0 < sc -> 0 <= p < sc -> (B - p + sc - 1) / sc = B / sc + (if p <? B mod sc then 1 else 0).
Proof.
  intros Hsc Hp. pose proof (Z.mod_pos_bound B sc Hsc). pose proof (Z.div_mod B sc).
  destruct (Z.ltb_spec p (B mod sc)).
  - symmetry. apply (Z.div_unique _ _ _ (B mod sc - p - 1)); lia.
  - symmetry. apply (Z.div_unique _ _ _ (B mod sc - p + sc - 1)); lia.
Qed.

Lemma frontier_here sc spo B :
  0 < sc -> 0 < spo ->
  let o := B / sc / spo * sc + B mod sc in
  frontier sc spo B o = (B / sc) mod spo /\ frontier sc spo (B + 1) o = (B / sc) mod spo + 1.
Proof.
  intros Hsc Hspo o. pose proof (Z.mod_pos_bound B sc Hsc). unfold frontier, o.
  destruct (div_mod_unique (B / sc / spo * sc + B mod sc) sc (B / sc / spo) (B mod sc)) as [-> ->]; [done..|].
  pose proof (Z.div_mod (B / sc) spo). pose proof (Z.mod_pos_bound (B / sc) spo Hspo).
  rewrite ceil_count by done. rewrite Z.ltb_irrefl. split; [lia|].
  replace (B + 1 - B mod sc + sc - 1) with ((B / sc + 1) * sc) by (pose proof (Z.div_mod B sc); lia).
  rewrite Z.div_mul by lia. lia.
Qed.

Lemma frontier_other sc spo B o :
  0 < sc -> 0 < spo -> o <> B / sc / spo * sc + B mod sc ->
  frontier sc spo (B + 1) o = frontier sc spo B o.
Proof.
  intros Hsc Hspo Ho. unfold frontier. pose proof (Z.mod_pos_bound o sc Hsc).
  destruct (decide (o mod sc = B mod sc)) as [Hp|Hp].
  - rewrite (ceil_count sc B) by done. rewrite Hp, Z.ltb_irrefl.
    replace (B + 1 - B mod sc + sc - 1) with ((B / sc + 1) * sc) by (pose proof (Z.div_mod B sc); lia).
    rewrite Z.div_mul by lia.
    assert (o / sc <> B / sc / spo) as Hne.
    { intros E. apply Ho. pose proof (Z.div_mod o sc). lia. }
    pose proof (Z.div_mod (B / sc) spo). pose proof (Z.mod_pos_bound (B / sc) spo Hspo).
    destruct (Z.lt_total (o / sc) (B / sc / spo)) as [Hlt|[E|Hlt]]; [|done|]; nia.
  - do 2 f_equal. f_equal. pose proof (Z.mod_pos_bound B sc Hsc). pose proof (Z.div_mod B sc).
    destruct (Z.ltb_spec (o mod sc) (B mod sc)).
    + rewrite <- (Z.div_unique (B + 1 - o mod sc + sc - 1) sc (B / sc + 1) (B mod sc - o mod sc)) by lia.
      rewrite <- (Z.div_unique (B - o mod sc + sc - 1) sc (B / sc + 1) (B mod sc - o mod sc - 1)) by lia. done.
    + rewrite <- (Z.div_unique (B + 1 - o mod sc + sc - 1) sc (B / sc) (B mod sc + 1 - o mod sc + sc - 1)) by lia.
      rewrite <- (Z.div_unique (B - o mod sc + sc - 1) sc (B / sc) (B mod sc - o mod sc + sc - 1)) by lia. done.
Qed.

(** Every extent ends at the frontier of the bytes mapped so far. *)
Definition ends_at (l : file_layout_t) (su B : Z) (exts : list ObjectExtent) : Prop :=
  forall e, e ∈ exts -> offset e + Striper.length e = su * frontier (stripe_count l) (object_size l / su) B (object_no e).

Lemma extents_loop_strict fuel l su off ts bo cur left exts r :
  unit_ok l su -> stripe_unit l <= object_size l -> 0 <= off <= cur -> 0 <= left -> cur + left < two64 ->
  StronglySorted obj_lt exts -> Forall ext_ok exts ->
  left = 0 \/ exts = [] \/ (cur mod su = 0 /\ ends_at l su (cur / su) exts) ->
  extents_loop fuel l su off ts bo cur left exts = Some r -> StronglySorted obj_lt r.
Proof.
  intros Hu Hl. revert cur left exts. induction fuel as [|fuel IH]; intros cur left exts Hoff Hleft Hcl Hs Hok Hinv;
    cbn [extents_loop]; destruct (Z.ltb_spec 0 left); try by intros [= <-].
  destruct (step_loc l su cur Hu ltac:(lia)) as (-> & -> & Hx0 & Hx1).
  pose proof (unit_spo l su Hu) as [Hspo _].
  pose proof Hu as (? & ? & ?). pose proof (Z.mod_pos_bound cur su ltac:(lia)). unwrap64.
  set (n := if su - cur mod su <? left then su - cur mod su else left).
  assert (0 < n <= left /\ n <= su - cur mod su) as Hn by (unfold n; destruct (Z.ltb_spec (su - cur mod su) left); lia).
  set (o := (L l su cur).1) in *. set (x := (L l su cur).2) in *.
  destruct (add_block l ts o x n (add64 (cur - off) bo) exts) as [r1|] eqn:Hadd; [|done]. cbn [mbind option_bind].
  destruct (frontier_here (stripe_count l) (object_size l / su) (cur / su)) as [Hf1 Hf2]; [lia|done|].
  assert (x = su * ((cur / su / stripe_count l) mod (object_size l / su)) + cur mod su) as Hx.
  { unfold x, L, loc. simpl. lia. }
  change (cur / su / stripe_count l / (object_size l / su) * stripe_count l + (cur / su) mod stripe_count l)
    with o in Hf1, Hf2.
  destruct (add_block_strict l ts o x n (add64 (cur - off) bo) exts r1) as [Hs1 Hel]; [done|done| |lia|lia|done|].
  { intros e He Ho. destruct Hinv as [|[->|[Hc Hinv]]]; [lia|set_solver|]. rewrite (Hinv e He), Ho, Hf1. lia. }
  assert (Forall ext_ok r1) as Hok1.
  { destruct (add_block_spec l ts o x n (add64 (cur - off) bo) exts) as (r2 & ? & _ & ? & _);
      [done|by apply strict_sorted|done|lia|lia|lia|by simplify_eq]. }
  unwrap64. apply IH; [lia..|done|done|].
  unfold n in *. destruct (Z.ltb_spec (su - cur mod su) left).
  - do 2 right. pose proof (Z.div_mod cur su).
    destruct (div_mod_unique (cur + (su - cur mod su)) su (cur / su + 1) 0) as [-> ->]; [lia|lia|].
    split; [done|]. intros e He. destruct (Hel e He) as [[Ho Hend]|[Ho Hin]].
    + rewrite Ho, Hf2, Hend. lia.
    + rewrite frontier_other by (lia || done). destruct Hinv as [|[->|[Hc Hinv]]]; [lia|set_solver|]. by apply Hinv.
  - left. lia.
Qed.

(** ** The component's lemmas *)

(** The location of a byte under a layout. *)
Definition locate (l : file_layout_t) : Z -> Z * Z :=
  loc (stripe_unit l) (stripe_count l) (object_size l / stripe_unit l).

Lemma layout_unit l : layout_ok l -> unit_ok l (stripe_unit l) /\ unit_ok l (object_size l).
Proof. unfold layout_ok, unit_ok. lia. Qed.

Lemma layout_spo l :
  layout_ok l -> 0 < object_size l / stripe_unit l /\
  object_size l = stripe_unit l * (object_size l / stripe_unit l).
Proof.
  intros Hl. destruct (layout_unit l Hl) as [Hu _]. split; [by apply unit_spo|].
  destruct Hl as (? & ? & ? & Hm). pose proof (Z.div_mod (object_size l) (stripe_unit l)). lia.
Qed.

Definition loop_unit (l : file_layout_t) : Z :=
  if stripe_count l =? 1 then object_size l else stripe_unit l.

Lemma loop_unit_ok l : layout_ok l -> unit_ok l (loop_unit l) /\ forall f, L l (loop_unit l) f = locate l f.
Proof.
  intros Hl. pose proof (layout_unit l Hl) as [? ?]. unfold loop_unit.
  destruct (Z.eqb_spec (stripe_count l) 1) as [E|]; [|done]. split; [done|]. intros f.
  unfold L, locate. destruct (layout_spo l Hl) as [Hs Heq]. destruct Hl as (? & _).
  rewrite E, (loc_one (stripe_unit l)), <- Heq by lia. rewrite Z.div_same by lia. done.
Qed.

Lemma fuel_ok su cur left :
  0 < su -> 0 <= left -> (cur mod su + left) / su < Z.of_nat (extents_fuel su cur left).
Proof.
  intros ? ?. unfold extents_fuel. pose proof (Z.mod_pos_bound cur su ltac:(lia)).
  pose proof (Z.div_pos (cur mod su + left) su ltac:(lia) ltac:(lia)). lia.
Qed.

Lemma range_bytes_ext f g off bo cur n :
  (forall x, f x = g x) -> range_bytes f off bo cur n = range_bytes g off bo cur n.
Proof. intros H. unfold range_bytes. apply list_fmap_ext. intros _ x _. by rewrite H. Qed.

Lemma file_to_extents_spec l off len ts bo exts :
  layout_ok l -> 0 <= off -> 0 < len -> off + len < two64 -> 0 <= bo -> len + bo < two64 ->
  StronglySorted obj_le exts -> Forall ext_ok exts ->
  exists r, file_to_extents l off len ts bo exts = Some r /\
    StronglySorted obj_le r /\ Forall ext_ok r /\
    all_bytes r ≡ₚ all_bytes exts ++ range_bytes (locate l) off bo off len.
Proof.
  intros Hl ? ? ? ? ? ? ?. unfold file_to_extents. pose proof Hl as (? & ? & ? & ?).
  rewrite (proj2 (Z.ltb_lt _ _)), (proj2 (Z.leb_le _ _)) by lia. fold (loop_unit l).
  destruct (loop_unit_ok l Hl) as [Hu HL].
  rewrite <- (range_bytes_ext _ _ off bo off len HL).
  apply extents_loop_spec; try done; try lia. intros _. apply fuel_ok; [destruct Hu|]; lia.
Qed.

(** *** Object extents back to file ranges *)

Lemma mul_add_bound a b r : 0 <= a -> 0 <= r < b -> a <= a * b <= a * b + r /\ a * b + r + 1 <= (a + 1) * b.
Proof. nia. Qed.

(** The products of [extent_to_file] stay below the end of the object set. *)
Lemma chain_bounds su sc spo q a p r :
  0 <= q -> 0 <= a < spo -> 0 <= p < sc -> 0 <= r < su ->
  let A := a + q * spo in let B := A * sc + p in
  0 <= q * spo <= A /\ 0 <= A <= A * sc /\ A * sc <= B <= B * su /\
  B * su + r < (q + 1) * (sc * (su * spo)).
Proof.
  intros Hq Ha Hp Hr A B.
  pose proof (mul_add_bound q spo a Hq Ha). pose proof (mul_add_bound A sc p ltac:(lia) Hp).
  pose proof (mul_add_bound B su r ltac:(lia) Hr).
  replace ((q + 1) * (sc * (su * spo))) with ((q + 1) * spo * sc * su) by lia.
  split_and!; try lia.
  assert (A + 1 <= (q + 1) * spo) by lia. assert (B + 1 <= (A + 1) * sc) by lia. clearbody A B.
  assert ((A + 1) * sc <= (q + 1) * spo * sc) by (apply Z.mul_le_mono_nonneg_r; lia).
  assert ((B + 1) * su <= (q + 1) * spo * sc * su) by (apply Z.mul_le_mono_nonneg_r; lia). lia.
Qed.

Lemma to_file_spec fuel l o off len :
  layout_ok l -> 0 <= o -> 0 <= off -> 0 <= len -> off + len <= object_size l ->
  (o / stripe_count l + 1) * (stripe_count l * object_size l) < two64 ->
  (0 < len -> (off mod stripe_unit l + len) / stripe_unit l < Z.of_nat fuel) ->
  exists r, to_file_loop fuel l o off len (off mod stripe_unit l) = Some r /\
    positions r = foff (stripe_unit l) (stripe_count l) (object_size l / stripe_unit l) o <$> seqZ off len.
Proof.
  intros Hl Ho. revert off len. induction fuel as [|fuel IH]; intros off len Hoff Hlen Hos Hbig Hf;
    cbn [to_file_loop]; destruct (Z.ltb_spec 0 len) as [Hp|Hp];
    try (by exists []; replace len with 0 by lia).
  { specialize (Hf Hp). destruct Hl as (? & _). pose proof (Z.mod_pos_bound off (stripe_unit l) ltac:(lia)).
    pose proof (Z.div_pos (off mod stripe_unit l + len) (stripe_unit l) ltac:(lia) ltac:(lia)). lia. }
  destruct (layout_spo l Hl) as [Hspo Heq]. pose proof Hl as (Hsu & Hsc & ? & ?).
  set (su := stripe_unit l) in *. set (sc := stripe_count l) in *. set (spo := object_size l / su) in *.
  pose proof (Z.mod_pos_bound off su Hsu). pose proof (Z.mod_pos_bound o sc ltac:(lia)).
  pose proof (Z.div_mod off su ltac:(lia)).
  assert (0 <= o / sc) by (apply Z.div_pos; lia). assert (0 <= off / su) by (apply Z.div_pos; lia).
  assert (off / su < spo) by (apply Z.div_lt_upper_bound; lia).
  pose proof (chain_bounds su sc spo (o / sc) (off / su) (o mod sc) (off mod su)
    ltac:(lia) ltac:(lia) ltac:(lia) ltac:(lia)) as Hch. simpl in Hch. rewrite <- Heq in Hch.
  rewrite (mul64_small (o / sc)), (add64_small (off / su)), (mul64_small _ sc),
    (add64_small (_ * sc)), (mul64_small _ su), (add64_small (_ * su)) by lia.
  unwrap64. set (n := Z.min len (su - off mod su)) in *. unwrap64.
  assert (forall i, 0 <= i < n -> foff su sc spo o (off + i) = foff su sc spo o off + i) as Hfo.
  { intros i Hi. unfold foff.
    destruct (div_mod_unique (off + i) su (off / su) (off mod su + i)) as [-> ->]; lia. }
  specialize (IH (off + n) (len - n)).
  destruct IH as (r & Hr & Hpos); [lia..|done| |].
  { intros Hln. specialize (Hf Hp). assert (n = su - off mod su) as -> by lia.
    destruct (div_mod_unique (off + (su - off mod su)) su (off / su + 1) 0) as [_ ->]; [lia|lia|].
    replace (off mod su + len) with (0 + (len - (su - off mod su)) + 1 * su) in Hf by lia.
    rewrite Z.div_add in Hf by lia. lia. }
  assert (to_file_loop fuel l o (off + n) (len - n) 0 = Some r) as ->.
  { destruct (Z.ltb_spec 0 (len - n)).
    - assert (n = su - off mod su) as En by lia. rewrite En in Hr.
      destruct (div_mod_unique (off + (su - off mod su)) su (off / su + 1) 0) as [_ E]; [lia|lia|].
      by rewrite E, <- En in Hr.
    - destruct fuel; cbn [to_file_loop] in *; rewrite (proj2 (Z.ltb_ge 0 _)) in * by lia; done. }
  eexists. split; [done|]. unfold positions in *. rewrite bind_cons, Hpos.
  replace len with (n + (len - n)) at 2 by lia. rewrite seqZ_app, fmap_app by lia. f_equal.
  rewrite (seqZ_fmap off), (seqZ_fmap (_ + _)), <- list_fmap_compose.
  apply list_fmap_ext. intros k i Hi%lookup_seqZ. simpl. rewrite Hfo by lia. done.
Qed.

Lemma extent_to_file_spec l o off len :
  layout_ok l -> 0 <= o -> 0 <= off -> 0 <= len -> off + len <= object_size l ->
  (o / stripe_count l + 1) * (stripe_count l * object_size l) < two64 ->
  exists r, extent_to_file l o off len = Some r /\
    locate l <$> positions r = pair o <$> seqZ off len.
Proof.
  intros Hl ? ? ? ? ?. unfold extent_to_file. pose proof Hl as (? & ? & ? & ?).
  rewrite (proj2 (Z.leb_le _ _)) by lia.
  destruct (to_file_spec (extents_fuel (stripe_unit l) off len) l o off len) as (r & -> & Hpos);
    [done|done|done|done|done|done|intros _; apply fuel_ok; lia|].
  exists r. split; [done|]. rewrite Hpos, <- list_fmap_compose.
  apply list_fmap_ext. intros k i Hi%lookup_seqZ. simpl.
  destruct (layout_spo l Hl). apply loc_foff; lia.
Qed.

(** *** Truncation and object counts *)

Lemma lex_lt a b r a' r' : 0 <= r < b -> 0 <= r' < b -> a * b + r < a' * b + r' <-> a < a' \/ (a = a' /\ r < r').
Proof. intros ? ?. split; [|nia]. destruct (Z.lt_total a a') as [|[->|]]; [lia|lia|nia]. Qed.

Lemma block_lt a b r c : 0 <= r < b -> a * b + r < c * b <-> a < c.
Proof. nia. Qed.

Lemma lex_eq a b r a' r' : 0 <= r < b -> 0 <= r' < b -> a * b + r = a' * b + r' <-> a = a' /\ r = r'.
Proof. intros ? ?. split; [|lia]. destruct (Z.lt_total a a') as [|[->|]]; [nia|lia|nia]. Qed.

Lemma truncate_spec l o ts :
  layout_ok l -> 0 < ts < two64 - 1 ->
  exists t, object_truncate_size l o ts = Some t /\ 0 <= t <= object_size l /\
    forall f, 0 <= f -> (locate l f).1 = o -> ((locate l f).2 < t <-> f < ts).
Proof.
  intros Hl Hts. unfold object_truncate_size.
  rewrite (proj2 (Z.eqb_neq ts 0)), (proj2 (Z.eqb_neq ts _)) by lia. cbn [orb].
  destruct (layout_spo l Hl) as [Hspo Heq]. pose proof Hl as (Hsu & Hsc & ? & ?).
  rewrite (proj2 (Z.leb_le _ _)) by lia. unfold locate.
  set (su := stripe_unit l) in *. set (sc := stripe_count l) in *. set (spo := object_size l / su) in *.
  assert (ts / object_size l / sc = ts / su / sc / spo) as ->.
  { rewrite Heq, !Z.div_div by lia. f_equal. lia. }
  set (tb := ts / su). set (tt := tb / sc). set (tS := tt / spo).
  pose proof (loc_le su sc spo ltac:(lia) ltac:(lia) Hspo ts ltac:(lia)) as Hle. fold tb tt tS in Hle.
  pose proof (Z.mod_pos_bound tb sc ltac:(lia)). pose proof (Z.mod_pos_bound tt spo ltac:(lia)).
  pose proof (Z.mod_pos_bound ts su ltac:(lia)).
  pose proof (Z.div_mod ts su ltac:(lia)) as Ets. pose proof (Z.div_mod tb sc ltac:(lia)) as Etb.
  pose proof (Z.div_mod tt spo ltac:(lia)) as Ett. fold tb in Ets. fold tt in Etb. fold tS in Ett.
  assert (0 <= tS) by (repeat apply Z.div_pos; lia).
  assert (0 <= tS * sc) by nia. assert (tt mod spo * su + su <= su * spo) by nia.
  assert (0 <= tt mod spo * su) by nia.
  rewrite (mul64_small tS), (add64_small (_ * sc)), (mul64_small (_ mod _)), !(add64_small (_ mod _)),
    (mul64_small (_ + _)), (add64_small (_ * su)) by lia.
  (* the byte f, written in the mixed radix of the layout *)
  assert (forall f, 0 <= f -> (loc su sc spo f).1 = o ->
    exists s' r, 0 <= s' < spo /\ 0 <= r < su /\ (loc su sc spo f).2 = s' * su + r /\
      (f < ts <-> (o / sc * spo + s') * sc + o mod sc < tb \/
                 ((o / sc * spo + s') * sc + o mod sc = tb /\ r < ts mod su))) as Hf.
  { intros f Hf0 <-. pose proof (foff_loc su sc spo ltac:(lia) ltac:(lia) ltac:(lia) f) as Ef.
    destruct (loc_nonneg su sc spo ltac:(lia) ltac:(lia) Hspo f Hf0) as [_ Hx].
    set (o := (loc su sc spo f).1) in *. set (x := (loc su sc spo f).2) in *.
    exists (x / su), (x mod su). pose proof (Z.div_mod x su ltac:(lia)).
    pose proof (Z.mod_pos_bound x su Hsu).
    split_and!; try lia; [apply Z.div_pos; lia|apply Z.div_lt_upper_bound; lia|].
    rewrite <- Ef at 1. rewrite Ets at 1. unfold foff. rewrite (Z.mul_comm su tb).
    rewrite (Z.add_comm (o / sc * spo)). apply lex_lt; lia. }
  pose proof (Z.mod_pos_bound o sc ltac:(lia)).
  assert (forall s', (o / sc * spo + s') * sc + o mod sc < tb <->
    o / sc * spo + s' < tt \/ (o / sc * spo + s' = tt /\ o mod sc < tb mod sc)) as Hlt.
  { intros s'. rewrite Etb at 1. rewrite (Z.mul_comm sc tt). apply lex_lt; lia. }
  assert (forall s', (o / sc * spo + s') * sc + o mod sc = tb <->
    o / sc * spo + s' = tt /\ o mod sc = tb mod sc) as Heqb.
  { intros s'. rewrite Etb at 1. rewrite (Z.mul_comm sc tt). apply lex_eq; lia. }
  pose proof (Z.div_mod o sc ltac:(lia)) as Eo.
  destruct (Z.ltb_spec tS (o / sc)); [|destruct (Z.ltb_spec (o / sc) tS)].
  - exists 0. split_and!; [done|lia|lia|]. intros f Hf0 Ho. destruct (Hf f Hf0 Ho) as (s' & r & ? & ? & -> & ->).
    rewrite Hlt, Heqb. assert (0 <= s' * su) by (apply Z.mul_nonneg_nonneg; lia).
    assert ((tS + 1) * spo <= o / sc * spo) by (apply Z.mul_le_mono_nonneg_r; lia). lia.
  - exists (object_size l). split_and!; [done|lia|lia|]. intros f Hf0 Ho.
    destruct (Hf f Hf0 Ho) as (s' & r & ? & ? & -> & ->).
    rewrite Hlt, Heqb. assert ((s' + 1) * su <= spo * su) by (apply Z.mul_le_mono_nonneg_r; lia).
    assert ((o / sc + 1) * spo <= tS * spo) by (apply Z.mul_le_mono_nonneg_r; lia). lia.
  - assert (o / sc = tS) as Eq by lia. rewrite Eq in *. rewrite (Z.mul_comm tS sc) in *.
    assert (forall s', tS * spo + s' < tt <-> s' < tt mod spo) as E1 by (intros; lia).
    assert (forall s', tS * spo + s' = tt <-> s' = tt mod spo) as E2 by (intros; lia).
    destruct (Z.ltb_spec o (sc * tS + tb mod sc)); [|destruct (Z.ltb_spec (sc * tS + tb mod sc) o)];
      eexists; (split_and!; [done|lia|lia|]); intros f Hf0 Ho;
      destruct (Hf f Hf0 Ho) as (s' & r & ? & ? & -> & ->); rewrite Hlt, Heqb, E1, E2.
    + rewrite block_lt by lia. lia.
    + rewrite block_lt by lia. lia.
    + rewrite lex_lt by lia. lia.
Qed.

Lemma ceil_lt p rem su : 0 < su -> p < (rem + su - 1) / su <-> p * su < rem.
Proof.
  intros Hsu. split; intros H.
  - pose proof (Z.mul_div_le (rem + su - 1) su Hsu). nia.
  - assert (p + 1 <= (rem + su - 1) / su); [|lia]. apply Z.div_le_lower_bound; lia.
Qed.

(** Objects below [q] full sets and [c] of the next one. *)
Lemma count_lt S sc p q c : 0 <= p < sc -> 0 <= c <= sc -> sc * S + p < q * sc + c <-> S < q \/ (S = q /\ p < c).
Proof.
  intros ? ?. rewrite (Z.mul_comm sc S). destruct (decide (c = sc)) as [->|].
  - replace (q * sc + sc) with ((q + 1) * sc) by lia. rewrite block_lt by lia. lia.
  - apply lex_lt; lia.
Qed.

Lemma num_objects_spec l size o :
  layout_ok l -> 0 <= size -> size + stripe_count l * object_size l < two64 -> 0 <= o ->
  o < get_num_objects l size <-> exists f, 0 <= f < size /\ (locate l f).1 = o.
Proof.
  intros Hl Hsz Hbig Ho. destruct (layout_spo l Hl) as [Hspo Heq]. pose proof Hl as (Hsu & Hsc & ? & ?).
  unfold get_num_objects, get_period, locate.
  set (su := stripe_unit l) in *. set (sc := stripe_count l) in *. set (spo := object_size l / su) in *.
  set (P := sc * object_size l) in *. assert (sc * su <= P) by nia. assert (0 < sc * su) by nia.
  rewrite (mul64_small sc (object_size l)), (mul64_small sc su) by lia. fold P.
  rewrite (add64_small size P), (sub64_small (size + P)) by lia.
  pose proof (Z.mod_pos_bound size P ltac:(lia)). pose proof (Z.div_mod size P ltac:(lia)) as Es.
  assert (0 <= size / P) by (apply Z.div_pos; lia).
  (* an object appears in the file as soon as its first byte does *)
  assert ((exists f, 0 <= f < size /\ (loc su sc spo f).1 = o) <-> o / sc * P + o mod sc * su < size) as ->.
  { assert (foff su sc spo o 0 = o / sc * P + o mod sc * su) as E0.
    { unfold foff, P. rewrite Heq, Z.div_0_l, Z.mod_0_l by lia. lia. }
    pose proof (Z.mod_pos_bound o sc ltac:(lia)). assert (0 <= o / sc) by (apply Z.div_pos; lia).
    rewrite <- E0. split.
    - intros (f & Hf & <-). pose proof (foff_loc su sc spo ltac:(lia) ltac:(lia) ltac:(lia) f) as Ef.
      destruct (loc_nonneg su sc spo ltac:(lia) ltac:(lia) Hspo f ltac:(lia)) as [_ Hx].
      revert Ef Hx. generalize (loc su sc spo f).1 (loc su sc spo f).2. intros a x Ef Hx.
      unfold foff in *. rewrite Z.div_0_l, Z.mod_0_l by lia.
      pose proof (Z.div_pos x su ltac:(lia) ltac:(lia)). pose proof (Z.mod_pos_bound x su Hsu). nia.
    - intros Hlt. exists (foff su sc spo o 0). split; [|rewrite loc_foff by lia; done].
      split; [|done]. rewrite E0. nia. }
  pose proof (Z.mod_pos_bound o sc ltac:(lia)) as Hp. pose proof (Z.div_mod o sc ltac:(lia)) as Eo.
  assert (o mod sc * su < P) as HpP by nia.
  assert (o / sc * P + o mod sc * su < size <-> o / sc < size / P \/ (o / sc = size / P /\ o mod sc * su < size mod P)) as ->.
  { rewrite Es at 1. rewrite (Z.mul_comm P). apply lex_lt; nia. }
  set (q := size / P) in *. set (rem := size mod P) in *.
  assert (q * sc <= q * P) by (apply Z.mul_le_mono_nonneg_l; nia). rewrite (Z.mul_comm P) in Es.
  assert ((size + P - 1) / P = q + (if 0 <? rem then 1 else 0)) as ->.
  { destruct (Z.ltb_spec 0 rem); symmetry;
      [apply (Z.div_unique _ _ _ (rem - 1))|apply (Z.div_unique _ _ _ (P - 1))]; lia. }
  assert (sc <= P) by nia. assert (0 <= q * sc) by (apply Z.mul_nonneg_nonneg; lia).
  rewrite Eo at 1. pose proof (ceil_lt (o mod sc) rem su Hsu) as Hceil.
  destruct (Z.ltb_spec 0 rem); [destruct (Z.ltb_spec rem (sc * su))|]; cbn [andb].
  - rewrite (add64_small rem), (sub64_small (rem + su)) by lia. set (c := (rem + su - 1) / su) in *.
    assert (0 <= c <= sc).
    { split; [apply Z.div_pos; lia|]. apply Z.lt_succ_r, Z.div_lt_upper_bound; lia. }
    rewrite (sub64_small sc), mul64_small, sub64_small by lia.
    replace ((q + 1) * sc - (sc - c)) with (q * sc + c) by lia. rewrite count_lt by lia. lia.
  - rewrite mul64_small, sub64_small by lia.
    replace ((q + 1) * sc - 0) with (q * sc + sc) by lia. rewrite count_lt by lia.
    assert ((o mod sc + 1) * su <= sc * su) by (apply Z.mul_le_mono_nonneg_r; lia). lia.
  - rewrite mul64_small, sub64_small by lia.
    replace ((q + 0) * sc - 0) with (q * sc + 0) by lia. rewrite count_lt by lia.
    assert (0 <= o mod sc * su) by (apply Z.mul_nonneg_nonneg; lia). lia.
Qed.

End StriperFacts.

(** ** Striped reads *)

Module ReadFacts.
Import Striper StriperFacts StripedReadResult.

(** The pieces a buffer is cut into by buffer extents. *)
Fixpoint chunks (bl : bufferlist) (be : list (Z * Z)) : list (Z * (bufferlist * Z)) :=
  match be with
  | [] => []
  | (b, n) :: be' => (b, (take (Z.to_nat n) bl, n)) :: chunks (drop (Z.to_nat n) bl) be'
  end.

(** A piece padded with zeros to its intended length. *)
Definition pad (e : Z * (bufferlist * Z)) : bufferlist :=
  e.2.1 ++ zeros (e.2.2 - Z.of_nat (base.length e.2.1)).

(** A piece that holds what [g] says of the positions it covers. *)
Definition piece_ok (g : Z -> Byte.byte) (e : Z * (bufferlist * Z)) : Prop :=
  pad e = g <$> seqZ e.1 e.2.2 /\ Z.of_nat (base.length e.2.1) <= e.2.2 /\ 0 < e.2.2.

Lemma splice_take bl n c :
  0 <= n -> splice bl (Z.to_nat (Z.min (Z.of_nat (base.length bl)) n)) c =
  Some (drop (Z.to_nat n) bl, c ++ take (Z.to_nat n) bl).
Proof.
  intros Hn. unfold splice. case_tests.
  - apply Nat.eqb_eq in H.
    destruct (Z.min_spec (Z.of_nat (base.length bl)) n) as [[? E]|[? E]]; rewrite E in H.
    + destruct bl; simpl in *; [|lia]. by rewrite drop_nil, take_nil, app_nil_r.
    + replace (Z.to_nat n) with 0%nat by lia. rewrite drop_0, take_0, app_nil_r. done.
  - destruct (Z.min_spec (Z.of_nat (base.length bl)) n) as [[? E]|[? E]]; rewrite E; [|done].
    rewrite Nat2Z.id, !drop_ge, !take_ge by lia. done.
  - apply Nat.leb_gt in H0. lia.
Qed.

Lemma chunks_keys bl be : (chunks bl be).*1 = be.*1.
Proof. revert bl. induction be as [|[b n] be IH]; intros bl; simpl; [done|]. by rewrite IH. Qed.

Lemma add_partial_spec be bl r :
  Forall (fun e => 0 <= e.2) be -> NoDup be.*1 -> (forall b, b ∈ be.*1 -> partial r !! b = None) ->
  exists r', add_partial_result r bl be = Some r' /\
    partial r' = list_to_map (chunks bl be) ∪ partial r.
Proof.
  revert bl r. induction be as [|[b n] be IH]; intros bl r Hn Hnd Hfr; cbn [add_partial_result chunks].
  { exists r. split; [done|]. simpl. by rewrite (left_id_L ∅ (∪)). }
  apply Forall_cons in Hn as [? Hn]. simpl in *. apply NoDup_cons in Hnd as [Hb Hnd].
  rewrite splice_take by done. cbn [mbind option_bind].
  unfold entry. rewrite (Hfr b) by set_solver. simpl.
  destruct (IH (drop (Z.to_nat n) bl) (set_entry r b (take (Z.to_nat n) bl) n)) as (r' & -> & Hp); [done|done| |].
  { intros b' Hb'. simpl. rewrite lookup_insert_ne by set_solver. apply Hfr. set_solver. }
  exists r'. split; [done|]. rewrite Hp. simpl.
  assert ((list_to_map (chunks (drop (Z.to_nat n) bl) be) : gmap Z (bufferlist * Z)) !! b = None) as Hnone.
  { apply not_elem_of_list_to_map_1. by rewrite chunks_keys. }
  rewrite <- insert_union_r by done. by rewrite insert_union_l.
Qed.

Lemma zeros_split n k : 0 <= n -> 0 <= k -> zeros (n + k) = zeros n ++ zeros k.
Proof. intros. unfold zeros. by rewrite Z2Nat.inj_add, replicate_add by lia. Qed.

Lemma chunks_ok g be bl k :
  0 <= k -> Forall (fun e => 0 < e.2) be -> g <$> positions be = bl ++ zeros k ->
  Forall (piece_ok g) (chunks bl be).
Proof.
  revert bl k. induction be as [|[b n] be IH]; intros bl k Hk Hn Hg; simpl; [done|].
  apply Forall_cons in Hn as [Hn1 Hn]. simpl in Hn1.
  unfold positions in *. rewrite bind_cons, fmap_app in Hg.
  assert (g <$> seqZ b n = take (Z.to_nat n) (bl ++ zeros k)) as E1.
  { rewrite <- Hg, take_app_le, take_ge; rewrite ?length_fmap, ?length_seqZ; lia || done. }
  assert (g <$> positions be = drop (Z.to_nat n) (bl ++ zeros k)) as E2.
  { unfold positions. rewrite <- Hg, drop_app_ge, length_fmap, length_seqZ, Nat.sub_diag; [done|].
    rewrite length_fmap, length_seqZ. lia. }
  constructor.
  - unfold piece_ok, pad; simpl. rewrite E1. rewrite length_take. split_and!; [|lia|done].
    destruct (Nat.le_gt_cases (Z.to_nat n) (base.length bl)).
    + rewrite take_app_le by done. rewrite Nat.min_l by done.
      replace (n - Z.of_nat (Z.to_nat n)) with 0 by lia. by rewrite app_nil_r.
    + rewrite (take_ge bl), take_app_ge by lia. f_equal. rewrite Nat.min_r by lia. unfold zeros.
      rewrite take_replicate. f_equal.
      apply (f_equal base.length) in E1. rewrite length_fmap, length_seqZ, length_take, length_app in E1.
      unfold zeros in E1. rewrite length_replicate in E1. lia.
  - destruct (Nat.le_gt_cases (Z.to_nat n) (base.length bl)).
    + rewrite drop_app_le in E2 by done. by eapply IH.
    + rewrite drop_app_ge in E2 by lia. rewrite (drop_ge bl) by lia. unfold zeros in E2.
      rewrite drop_replicate in E2.
      eapply (IH [] (Z.of_nat (Z.to_nat k - (Z.to_nat n - base.length bl)))); [lia|done|].
      unfold zeros. by rewrite Nat2Z.id.
Qed.

(** *** Sorting the pieces *)

Definition piece_positions (es : list (Z * (bufferlist * Z))) : list Z := es ≫= fun e => seqZ e.1 e.2.2.

Lemma pieces_sorted es :
  StronglySorted key_le es -> Forall (fun e => 0 < e.2.2) es -> NoDup (piece_positions es) ->
  StronglySorted Z.le (piece_positions es).
Proof.
  induction 1 as [|[b [c n]] es Hs IH Hk]; intros Hn Hnd; [constructor|].
  apply Forall_cons in Hn as [Hn1 Hn]. unfold piece_positions in *. rewrite bind_cons in *. simpl in *.
  apply NoDup_app in Hnd as (_ & Hdis & Hnd). apply StronglySorted_app_2; [|apply seqZ_sorted|by apply IH].
  intros x y Hx Hy. apply list_elem_of_bind in Hy as ([b2 [c2 n2]] & Hy & Hin). simpl in Hy.
  rewrite Forall_forall in Hk. specialize (Hk _ Hin). unfold key_le in Hk; simpl in Hk.
  rewrite Forall_forall in Hn. specialize (Hn _ Hin). simpl in Hn.
  apply elem_of_seqZ in Hx, Hy. destruct (Z.le_gt_cases x b2); [lia|]. exfalso.
  apply (Hdis b2); [apply elem_of_seqZ; lia|]. apply list_elem_of_bind.
  exists (b2, (c2, n2)). split; [apply elem_of_seqZ; simpl; lia|done].
Qed.

#[local] Instance key_le_trans : Transitive key_le.
Proof. intros a b c. unfold key_le. lia. Qed.
#[local] Instance key_le_total : Total key_le.
Proof. intros a b. unfold key_le. lia. Qed.

(** Pieces that tile a range are enumerated in the order of the range. *)
Lemma entries_tile r ps len :
  partial r = list_to_map ps -> NoDup ps.*1 -> Forall (fun e => 0 < e.2.2) ps ->
  piece_positions ps ≡ₚ seqZ 0 len ->
  entries r ≡ₚ ps /\ piece_positions (entries r) = seqZ 0 len.
Proof.
  intros Hp Hnd Hn Hperm.
  assert (entries r ≡ₚ ps) as He.
  { unfold entries. rewrite merge_sort_Permutation, Hp. by apply map_to_list_to_map. }
  split; [done|]. assert (piece_positions (entries r) ≡ₚ seqZ 0 len) as Hps.
  { rewrite <- Hperm. unfold piece_positions. by rewrite He. }
  apply (StronglySorted_unique Z.le); [|apply seqZ_sorted|done].
  apply pieces_sorted; [by apply StronglySorted_merge_sort; apply _| |].
  - by rewrite He.
  - rewrite Hps. apply NoDup_seqZ.
Qed.

Lemma assemble_loop_spec es pending bl :
  Forall (fun e => Z.of_nat (base.length e.2.1) <= e.2.2) es -> 0 <= pending ->
  pending + Z.of_nat (base.length (piece_positions es)) < two64 ->
  assemble_loop es pending bl true = bl ++ zeros pending ++ (es ≫= pad).
Proof.
  revert pending bl. induction es as [|[b [c n]] es IH]; intros pending bl Hl Hp Hb; cbn [assemble_loop].
  { simpl. rewrite app_nil_r. destruct (Z.eqb_spec pending 0) as [->|]; simpl; [by rewrite app_nil_r|done]. }
  apply Forall_cons in Hl as [Hc Hl]. simpl in Hc.
  unfold piece_positions in Hb. rewrite bind_cons, length_app, length_seqZ in Hb. simpl in Hb.
  fold (piece_positions es) in Hb. rewrite bind_cons. unfold pad at 1. simpl. unwrap64.
  destruct (Z.eqb_spec (Z.of_nat (base.length c)) 0) as [E|E]; simpl.
  - destruct c; [|simpl in E; lia]. simpl. rewrite (add64_small pending) by lia.
    rewrite IH by (done || lia). rewrite zeros_split by lia. by rewrite <- app_assoc.
  - rewrite (add64_small 0) by lia. rewrite IH by (done || lia). simpl.
    destruct (Z.eqb_spec pending 0) as [->|]; simpl; by rewrite <- !app_assoc.
Qed.

Lemma bind_pad g es : Forall (piece_ok g) es -> es ≫= pad = g <$> piece_positions es.
Proof.
  unfold piece_positions. induction 1 as [|e es [He _] _ IH]; [done|].
  rewrite !bind_cons, fmap_app, IH. by rewrite He.
Qed.

(** *** Reading the objects *)

(** What an object of [sz o] bytes returns for an extent: the file bytes it
    holds, up to its end. *)
Definition read_object (l : file_layout_t) (data : Z -> Byte.byte) (sz : Z -> Z) (e : ObjectExtent) : bufferlist :=
  (fun x => data (foff (stripe_unit l) (stripe_count l) (object_size l / stripe_unit l) (object_no e) x)) <$>
    seqZ (offset e) (Z.min (Striper.length e) (Z.max 0 (sz (object_no e) - offset e))).

(** The byte a reader must see: the file's, or zero past the end of its object. *)
Definition content (l : file_layout_t) (data : Z -> Byte.byte) (sz : Z -> Z) (f : Z) : Byte.byte :=
  if (locate l f).2 <? sz (locate l f).1 then data f else Byte.x00.

(** Collect the reads of a vector of extents. *)
Definition collect (rd : ObjectExtent -> bufferlist) (exts : list ObjectExtent) : option t :=
  foldl (fun acc e => r ← acc; add_partial_result r (rd e) (buffer_extents e)) (Some fresh) exts.

Lemma zip_fun {A B} (h : B -> A) (l : list A) (k : list B) :
  base.length l = base.length k -> (forall a b, (a, b) ∈ zip l k -> a = h b) -> l = h <$> k.
Proof.
  revert k. induction l as [|a l IH]; intros [|b k] Hl Hz; simpl in *; try done.
  rewrite (Hz a b) by set_solver. f_equal. apply IH; [lia|]. intros; apply Hz; set_solver.
Qed.

Lemma extent_data l data sz off len e :
  layout_ok l -> ext_ok e -> (forall y, y ∈ bytes_of e -> y ∈ range_bytes (locate l) off 0 off len) ->
  0 <= off ->
  exists k, 0 <= k /\
    (fun j => content l data sz (off + j)) <$> positions (buffer_extents e) = read_object l data sz e ++ zeros k.
Proof.
  intros Hl (Hlen & Hof & Hln & _) Hin Hoff.
  destruct (layout_spo l Hl) as [Hspo Heq]. pose proof Hl as (Hsu & Hsc & _).
  set (F := foff (stripe_unit l) (stripe_count l) (object_size l / stripe_unit l) (object_no e)).
  assert (forall p y, (p, y) ∈ bytes_of e -> y.1 = object_no e /\ locate l (off + p) = y /\ off + p = F y.2) as Hby.
  { intros p y Hy. pose proof (elem_of_zip_r _ _ _ _ Hy) as Hyo. apply list_elem_of_fmap in Hyo as (x & -> & _).
    apply Hin, list_elem_of_fmap in Hy as (f & E & _). apply pair_equal_spec in E as [-> E].
    replace (off + (f - off + 0)) with f by lia. split_and!; [done|done|].
    pose proof (foff_loc (stripe_unit l) (stripe_count l) (object_size l / stripe_unit l) ltac:(lia) ltac:(lia) Hspo f) as Ef.
    fold (locate l) in Ef. change (loc (stripe_unit l) (stripe_count l) (object_size l / stripe_unit l) f) with (locate l f) in Ef.
    rewrite <- E in Ef. done. }
  assert (positions (buffer_extents e) = (fun y => F y.2 - off) <$> (pair (object_no e) <$> seqZ (offset e) (Striper.length e))) as Hpos.
  { apply zip_fun; [rewrite length_fmap, length_seqZ; lia|].
    intros p y Hy. apply Hby in Hy as (_ & _ & E). lia. }
  assert (forall x, offset e <= x < offset e + Striper.length e -> locate l (F x) = (object_no e, x)) as HF.
  { intros x Hx. destruct (list_elem_of_lookup_1 (seqZ (offset e) (Striper.length e)) x) as [i Hi]; [apply elem_of_seqZ; lia|].
    assert (bytes_of e !! i = Some (F x - off, (object_no e, x))) as Hb.
    { unfold bytes_of. rewrite Hpos. rewrite lookup_zip_with, !list_lookup_fmap, Hi. done. }
    apply list_elem_of_lookup_2 in Hb. apply Hby in Hb as (_ & E & _). by replace (off + (F x - off)) with (F x) in E by lia. }
  set (m := Z.min (Striper.length e) (Z.max 0 (sz (object_no e) - offset e))).
  exists (Striper.length e - m). split; [lia|]. rewrite Hpos, <- !list_fmap_compose.
  replace (Striper.length e) with (m + (Striper.length e - m)) at 1 by lia.
  rewrite seqZ_app, fmap_app by lia. f_equal.
  - unfold read_object. fold F m. apply list_fmap_ext. intros i x Hi%lookup_seqZ. simpl.
    replace (off + (F x - off)) with (F x) by lia. unfold content. rewrite HF by lia. simpl.
    by rewrite (proj2 (Z.ltb_lt _ _)) by lia.
  - unfold zeros. apply list_eq_Forall2, Forall2_same_length_lookup_2;
      [rewrite length_fmap, length_seqZ, length_replicate; done|].
    intros i a b Ha Hb. apply lookup_replicate in Hb as [-> _].
    apply list_lookup_fmap_Some in Ha as (x & -> & Hi%lookup_seqZ). simpl.
    replace (off + (F x - off)) with (F x) by lia. unfold content. rewrite HF by lia. simpl.
    by rewrite (proj2 (Z.ltb_ge _ _)) by lia.
Qed.

(** The pieces a vector of extents is read into. *)
Definition pieces (rd : ObjectExtent -> bufferlist) (exts : list ObjectExtent) : list (Z * (bufferlist * Z)) :=
  exts ≫= fun e => chunks (rd e) (buffer_extents e).

Lemma pieces_keys rd exts : (pieces rd exts).*1 = exts ≫= fun e => (buffer_extents e).*1.
Proof.
  unfold pieces. induction exts as [|e exts IH]; [done|].
  rewrite !bind_cons, fmap_app, IH, chunks_keys. done.
Qed.

Lemma collect_spec rd exts r :
  Forall ext_ok exts -> NoDup (pieces rd exts).*1 -> (forall b, b ∈ (pieces rd exts).*1 -> partial r !! b = None) ->
  exists r', foldl (fun acc e => r ← acc; add_partial_result r (rd e) (buffer_extents e)) (Some r) exts = Some r' /\
    partial r' = list_to_map (pieces rd exts) ∪ partial r.
Proof.
  unfold pieces. revert r. induction exts as [|e exts IH]; intros r Hok Hnd Hfr.
  { exists r. split; [done|]. simpl. by rewrite (left_id_L ∅ (∪)). }
  apply Forall_cons in Hok as [(_ & _ & _ & _ & Hbe) Hok]. rewrite bind_cons in *. rewrite fmap_app in *.
  rewrite chunks_keys in *. apply NoDup_app in Hnd as (Hnd1 & Hdis & Hnd2).
  destruct (add_partial_spec (buffer_extents e) (rd e) r) as (r1 & E1 & Hp1).
  { eapply Forall_impl; [exact Hbe|]. simpl. intros; lia. }
  { done. } { intros b Hb. apply Hfr. set_solver. }
  destruct (IH r1) as (r2 & E2 & Hp2); [done|done| |].
  { intros b Hb. rewrite Hp1, lookup_union_None. split; [|apply Hfr; set_solver].
    apply not_elem_of_list_to_map_1. rewrite chunks_keys. intros Hb'. by apply (Hdis b). }
  exists r2. split; [cbn [foldl]; simpl; rewrite E1; exact E2|].
  rewrite Hp2, Hp1, (assoc_L (∪)), list_to_map_app. f_equal. apply map_union_comm.
  apply map_disjoint_list_to_map_l, Forall_forall. intros [b x] Hb. simpl.
  apply not_elem_of_list_to_map_1. rewrite chunks_keys. intros Hb'.
  apply (Hdis b); [done|]. apply list_elem_of_fmap. by exists (b, x).
Qed.

Lemma pieces_positions rd exts : piece_positions (pieces rd exts) = exts ≫= fun e => positions (buffer_extents e).
Proof.
  unfold piece_positions, pieces. induction exts as [|e exts IH]; [done|].
  rewrite !bind_cons, bind_app, IH. f_equal. unfold positions. generalize (rd e).
  induction (buffer_extents e) as [|[b n] be IHb]; intros bl; [done|].
  cbn [chunks]. rewrite !bind_cons. f_equal. apply IHb.
Qed.

Lemma positions_bytes exts : Forall ext_ok exts -> (exts ≫= fun e => positions (buffer_extents e)) = (all_bytes exts).*1.
Proof.
  unfold all_bytes. induction 1 as [|e exts (Hl & _) _ IH]; [done|].
  rewrite !bind_cons, fmap_app, <- IH. f_equal. unfold bytes_of. rewrite fst_zip; [done|].
  rewrite length_fmap, length_seqZ. lia.
Qed.

(** Distinct positions have distinct starts. *)
Lemma pieces_nodup ps : Forall (fun e => 0 < e.2.2) ps -> NoDup (piece_positions ps) -> NoDup ps.*1.
Proof.
  unfold piece_positions. induction 1 as [|[b [c n]] ps Hn Hps IH]; [constructor|]. simpl in Hn.
  rewrite bind_cons. simpl. intros (_ & Hdis & Hnd)%NoDup_app. constructor; [|by apply IH].
  intros ([b' [c' n']] & E & Hin)%list_elem_of_fmap. simpl in E. subst b'.
  rewrite Forall_forall in Hps. specialize (Hps _ Hin). simpl in Hps.
  apply (Hdis b); [apply elem_of_seqZ; lia|]. apply list_elem_of_bind.
  exists (b, (c', n')). split; [apply elem_of_seqZ; simpl; lia|done].
Qed.

(** Everything the reads put in the map is what the file holds there. *)
Lemma pieces_content l data sz off len exts :
  layout_ok l -> 0 <= off -> Forall ext_ok exts -> all_bytes exts ≡ₚ range_bytes (locate l) off 0 off len ->
  Forall (piece_ok (fun j => content l data sz (off + j))) (pieces (read_object l data sz) exts).
Proof.
  intros Hl Hoff Hok Hb. unfold pieces. apply Forall_bind.
  rewrite Forall_forall in Hok. apply Forall_forall. intros e He.
  destruct (extent_data l data sz off len e Hl (Hok e He)) as (k & Hk & E); [|done|].
  { intros y Hy. rewrite <- Hb. apply list_elem_of_bind. by exists e. }
  eapply chunks_ok; [exact Hk| |exact E]. by destruct (Hok e He) as (_ & _ & _ & _ & ?).
Qed.

Lemma striped_read l data sz off len ts exts :
  layout_ok l -> 0 <= off -> 0 < len -> off + len < two64 ->
  file_to_extents l off len ts 0 [] = Some exts ->
  exists s, collect (read_object l data sz) exts = Some s /\
    (assemble_result s [] true).1 = content l data sz <$> seqZ off len.
Proof.
  intros Hl Hoff Hlen Hb E. set (rd := read_object l data sz).
  destruct (file_to_extents_spec l off len ts 0 []) as (r & E' & _ & Hok & Hby); try done || lia || constructor.
  rewrite E in E'. injection E' as <-. change (all_bytes [] ++ ?x) with x in Hby.
  pose proof (pieces_content l data sz off len exts Hl Hoff Hok Hby) as Hpc. fold rd in Hpc.
  assert (piece_positions (pieces rd exts) ≡ₚ seqZ 0 len) as Hpos.
  { rewrite pieces_positions, positions_bytes, Hby by done. unfold range_bytes. rewrite <- list_fmap_compose.
    rewrite seqZ_fmap, <- list_fmap_compose. erewrite list_fmap_ext; [by rewrite list_fmap_id|].
    intros i x _. simpl. lia. }
  assert (Forall (fun e => 0 < e.2.2) (pieces rd exts)) as Hpp.
  { eapply Forall_impl; [exact Hpc|]. by intros x (_ & _ & ?). }
  assert (NoDup (pieces rd exts).*1) as Hnd.
  { apply pieces_nodup; [done|]. rewrite Hpos. apply NoDup_seqZ. }
  destruct (collect_spec rd exts fresh Hok Hnd) as (s & Es & Hs); [done|].
  exists s. split; [exact Es|]. simpl in Hs. rewrite (right_id_L ∅ (∪)) in Hs.
  destruct (entries_tile s (pieces rd exts) len Hs Hnd Hpp Hpos) as [He Ht].
  assert (Forall (piece_ok (fun j => content l data sz (off + j))) (entries s)) as Hpe by by rewrite He.
  unfold assemble_result. simpl. rewrite assemble_loop_spec.
  - simpl. rewrite (bind_pad _ _ Hpe), Ht, (seqZ_fmap off), <- list_fmap_compose. done.
  - eapply Forall_impl; [exact Hpe|]. by intros x (_ & ? & _).
  - lia.
  - rewrite Ht, length_seqZ. lia.
Qed.
End ReadFacts.

(** ** Properties *)

Module StriperTheorems.
Import Striper StriperFacts StripedReadResult ReadFacts.

(** What [is_valid] accepts, of fields that fit [uint32_t], is usable. *)
Lemma is_valid_ok l :
  0 <= stripe_unit l -> 0 <= stripe_count l < two32 -> 0 <= object_size l < two32 ->
  is_valid l = true -> layout_ok l.
Proof.
  intros ? ? ?. unfold is_valid, layout_ok.
  destruct (Z.eqb_spec (stripe_unit l) 0); [done|]. cbn [orb]. destruct (negb _); [done|].
  destruct (Z.eqb_spec (object_size l) 0); [done|]. cbn [orb]. destruct (negb _); [done|].
  destruct (Z.ltb_spec (object_size l) (stripe_unit l)); [done|]. cbn [orb].
  destruct (Z.eqb_spec (object_size l mod stripe_unit l) 0); [|done].
  destruct (Z.eqb_spec (stripe_count l) 0); [done|]. cbn [negb]. lia.
Qed.

(** The layout of the witnesses: stripe units of 64 KiB over 3 objects of
    128 KiB. *)
Definition layout3 : file_layout_t := {| stripe_unit := 65536; stripe_count := 3; object_size := 131072 |}.

Lemma layout3_ok : layout_ok layout3.
Proof. apply is_valid_ok; vm_compute; done. Qed.

(** On a valid layout, [file_to_extents] returns for every non-empty range
    that does not wrap; the extents are strictly sorted by object number (one
    per object); each extent has as many buffer bytes as object bytes; and
    together they map, each exactly once, the bytes of the file range: byte [f]
    of the file to buffer position [f - off + bo], at the object and offset
    the striping rule gives it. *)
Theorem file_to_extents_correct l off len ts bo :
  layout_ok l -> 0 <= off -> 0 < len -> off + len < two64 -> 0 <= bo -> len + bo < two64 ->
  exists r, file_to_extents l off len ts bo [] = Some r /\
    StronglySorted obj_lt r /\ Forall ext_ok r /\
    all_bytes r ≡ₚ range_bytes (locate l) off bo off len.
Proof.
  intros Hl ? ? ? ? ?. destruct (file_to_extents_spec l off len ts bo []) as (r & E & _ & Hok & Hb);
    [done|lia|lia|lia|lia|lia|constructor|constructor|].
  exists r. split_and!; [done| |done|exact Hb]. unfold file_to_extents in E.
  destruct (loop_unit_ok l Hl) as [Hu _]. pose proof Hl as (? & _ & ? & _).
  rewrite (proj2 (Z.ltb_lt _ _)), (proj2 (Z.leb_le _ _)) in E by lia.
  eapply extents_loop_strict; [exact Hu|lia| | | |constructor|constructor|right; left; done|exact E]; lia.
Qed.

Lemma file_to_extents_correct_witness :
  exists r, file_to_extents layout3 60000 400000 0 0 [] = Some r /\ base.length r = 5%nat /\
    StronglySorted obj_lt r.
Proof.
  destruct (file_to_extents_correct layout3 60000 400000 0 0 layout3_ok) as (r & E & Hs & _); try lia.
  exists r. split; [exact E|]. split; [|exact Hs]. revert E. vm_compute. intros [= <-]. reflexivity.
Defined.

(** [extent_to_file] inverts the striping: the file ranges it returns for
    an extent of an object are, byte for byte and in order, the bytes the
    striping rule stores in that extent. *)
Theorem extent_to_file_inverse l o off len :
  layout_ok l -> 0 <= o -> 0 <= off -> 0 <= len -> off + len <= object_size l ->
  (o / stripe_count l + 1) * (stripe_count l * object_size l) < two64 ->
  exists r, extent_to_file l o off len = Some r /\
    locate l <$> positions r = pair o <$> seqZ off len.
Proof. apply extent_to_file_spec. Qed.

Lemma extent_to_file_inverse_witness :
  exists r, extent_to_file layout3 4 60000 70000 = Some r /\
    locate layout3 <$> positions r = pair 4 <$> seqZ 60000 70000.
Proof. apply (extent_to_file_inverse layout3 4 60000 70000 layout3_ok); vm_compute; done. Defined.

(** [object_truncate_size] of a truncation to [ts] bytes keeps of object
    [o] exactly the bytes of the file below [ts]. *)
Theorem object_truncate_size_correct l o ts :
  layout_ok l -> 0 < ts < two64 - 1 ->
  exists t, object_truncate_size l o ts = Some t /\ 0 <= t <= object_size l /\
    forall f, 0 <= f -> (locate l f).1 = o -> ((locate l f).2 < t <-> f < ts).
Proof. apply truncate_spec. Qed.

Lemma object_truncate_size_correct_witness :
  exists t, object_truncate_size layout3 1 70000 = Some t /\ 0 <= t <= 131072.
Proof.
  destruct (object_truncate_size_correct layout3 1 70000 layout3_ok) as (t & E & Ht & _); [lia|].
  exists t. split; [exact E|exact Ht].
Defined.

(** [get_num_objects] counts the objects of a file of [size] bytes: object
    [o] is below the count exactly when some byte of the file lives in it. *)
Theorem get_num_objects_correct l size o :
  layout_ok l -> 0 <= size -> size + stripe_count l * object_size l < two64 -> 0 <= o ->
  o < get_num_objects l size <-> exists f, 0 <= f < size /\ (locate l f).1 = o.
Proof. apply num_objects_spec. Qed.

Lemma get_num_objects_correct_witness : exists f, 0 <= f < 500000 /\ (locate layout3 f).1 = 4.
Proof. apply (get_num_objects_correct layout3 500000 4 layout3_ok); vm_compute; done. Defined.

(** C35: A striped read returns the file. Map a range with [file_to_extents],
    read every extent from its object (short where the object ends before the
    extent does), collect the reads with [add_partial_result] and assemble them
    with [assemble_result]: every step returns, and the result is the range of
    the file, zeros where the object holding a byte is too short to have it. *)
Theorem striped_read_correct l data sz off len ts :
  layout_ok l -> 0 <= off -> 0 < len -> off + len < two64 ->
  exists exts s, file_to_extents l off len ts 0 [] = Some exts /\
    collect (read_object l data sz) exts = Some s /\
    (assemble_result s [] true).1 = content l data sz <$> seqZ off len.
Proof.
  intros Hl ? ? ?. destruct (file_to_extents_spec l off len ts 0 []) as (r & E & _);
    [done|lia|lia|lia|lia|lia|constructor|constructor|].
  destruct (striped_read l data sz off len ts r Hl) as (s & Hs & Ha); [lia|lia|lia|done|].
  by exists r, s.
Qed.

(** Units of 2 bytes over 2 objects of 4: the first object is a byte short. *)
Lemma striped_read_correct_witness :
  exists exts s, file_to_extents {| stripe_unit := 2; stripe_count := 2; object_size := 4 |} 1 6 0 0 [] = Some exts /\
    collect (read_object {| stripe_unit := 2; stripe_count := 2; object_size := 4 |}
               (fun _ => Byte.x41) (fun o => if o =? 0 then 3 else 4)) exts = Some s /\
    (assemble_result s [] true).1 = [Byte.x41; Byte.x41; Byte.x41; Byte.x41; Byte.x00; Byte.x41].
Proof.
  destruct (striped_read_correct {| stripe_unit := 2; stripe_count := 2; object_size := 4 |}
              (fun _ => Byte.x41) (fun o => if o =? 0 then 3 else 4) 1 6 0) as (exts & s & He & Hs & Ha);
    [unfold layout_ok; split_and!; vm_compute; done|lia|lia|lia|].
  exists exts, s. split; [exact He|]. split; [exact Hs|]. rewrite Ha. reflexivity.
Defined.

End StriperTheorems.
