(* ===== verification/Pg.v ===== *)
(** Placement group numbering, src/ceph-15.2.17/src/osd/osd_types.{h,cc},
    include/rados.h, include/intarith.h and crush/hash.c: how the hash of an
    object selects a placement group, and how the groups of a pool split and
    merge when the number of groups changes. *)
From S2P Require Import Prelude.

(** ** 32-bit integers *)

Definition u32 (x : Z) : Z := x mod two32.
Definition i32 (x : Z) : Z := (x + 2147483648) mod two32 - 2147483648.

Module Bits.

(** [__builtin_clz] on a 32-bit value (undefined on zero). *)
Definition clz (v : Z) : Z := 31 - Z.log2 v.

Definition cbits (v : Z) : Z := if v =? 0 then 0 else 32 - clz v.

Definition ceph_stable_mod (x b bmask : Z) : Z :=
  if Z.land x bmask <? b then Z.land x bmask else Z.land x (Z.shiftr bmask 1).

(** ** The Jenkins mix of crush/hash.c, on [__u32] values *)

Definition sub32 (a b : Z) : Z := u32 (a - b).

Definition crush_hashmix (a b c : Z) : Z * Z * Z :=
  let a := Z.lxor (sub32 (sub32 a b) c) (Z.shiftr c 13) in
  let b := Z.lxor (sub32 (sub32 b c) a) (u32 (Z.shiftl a 8)) in
  let c := Z.lxor (sub32 (sub32 c a) b) (Z.shiftr b 13) in
  let a := Z.lxor (sub32 (sub32 a b) c) (Z.shiftr c 12) in
  let b := Z.lxor (sub32 (sub32 b c) a) (u32 (Z.shiftl a 16)) in
  let c := Z.lxor (sub32 (sub32 c a) b) (Z.shiftr b 5) in
  let a := Z.lxor (sub32 (sub32 a b) c) (Z.shiftr c 3) in
  let b := Z.lxor (sub32 (sub32 b c) a) (u32 (Z.shiftl a 10)) in
  let c := Z.lxor (sub32 (sub32 c a) b) (Z.shiftr b 15) in
  (a, b, c).

Definition crush_hash_seed : Z := 1315423911.

Definition crush_hash32_rjenkins1 (a : Z) : Z :=
  let hash := Z.lxor crush_hash_seed a in
  let b := a in
  let x := 231232 in
  let y := 1232 in
  let '(b, x, hash) := crush_hashmix b x hash in
  let '(y, a, hash) := crush_hashmix y a hash in
  hash.

Definition crush_hash32_rjenkins1_2 (a b : Z) : Z :=
  let hash := Z.lxor (Z.lxor crush_hash_seed a) b in
  let x := 231232 in
  let y := 1232 in
  let '(a, b, hash) := crush_hashmix a b hash in
  let '(x, a, hash) := crush_hashmix x a hash in
  let '(b, y, hash) := crush_hashmix b y hash in
  hash.

Definition crush_hash32_rjenkins1_3 (a b c : Z) : Z :=
  let hash := Z.lxor (Z.lxor (Z.lxor crush_hash_seed a) b) c in
  let x := 231232 in
  let y := 1232 in
  let '(a, b, hash) := crush_hashmix a b hash in
  let '(c, x, hash) := crush_hashmix c x hash in
  let '(y, a, hash) := crush_hashmix y a hash in
  let '(b, x, hash) := crush_hashmix b x hash in
  let '(y, c, hash) := crush_hashmix y c hash in
  hash.

Definition crush_hash32_rjenkins1_4 (a b c d : Z) : Z :=
  let hash := Z.lxor (Z.lxor (Z.lxor (Z.lxor crush_hash_seed a) b) c) d in
  let x := 231232 in
  let y := 1232 in
  let '(a, b, hash) := crush_hashmix a b hash in
  let '(c, d, hash) := crush_hashmix c d hash in
  let '(a, x, hash) := crush_hashmix a x hash in
  let '(y, b, hash) := crush_hashmix y b hash in
  let '(c, x, hash) := crush_hashmix c x hash in
  let '(y, d, hash) := crush_hashmix y d hash in
  hash.

(** The only hash type, [CRUSH_HASH_RJENKINS1], is 0; other types hash to 0. *)
Definition CRUSH_HASH_RJENKINS1 : Z := 0.
Definition crush_hash32_2 (type a b : Z) : Z :=
  if type =? CRUSH_HASH_RJENKINS1 then crush_hash32_rjenkins1_2 a b else 0.
Definition crush_hash32_3 (type a b c : Z) : Z :=
  if type =? CRUSH_HASH_RJENKINS1 then crush_hash32_rjenkins1_3 a b c else 0.
Definition crush_hash32_4 (type a b c d : Z) : Z :=
  if type =? CRUSH_HASH_RJENKINS1 then crush_hash32_rjenkins1_4 a b c d else 0.

End Bits.

Module Pg.
Import Bits.

(** [pg_t]: the pool ([uint64_t]) and the seed ([uint32_t]). *)
Record pg_t := mk_pg { m_pool : Z; m_seed : Z }.

#[export] Instance pg_t_eq_dec : EqDecision pg_t.
Proof. solve_decision. Defined.
#[export] Program Instance pg_t_countable : Countable pg_t :=
  inj_countable' (fun p => (m_pool p, m_seed p)) (fun '(a, b) => mk_pg a b) _.
Next Obligation. by intros []. Qed.

Definition with_seed (s : Z) (p : pg_t) : pg_t := mk_pg (m_pool p) s.

Definition get_ancestor (p : pg_t) (old_pg_num : Z) : pg_t :=
  let old_bits := cbits old_pg_num in
  let old_mask := i32 (i32 (Z.shiftl 1 old_bits) - 1) in
  with_seed (u32 (ceph_stable_mod (i32 (m_seed p)) (i32 old_pg_num) old_mask)) p.

(** The loop of [is_split] from [n] on; [None] when the fuel is used up. *)
Fixpoint split_loop (fuel : nat) (p : pg_t) (old_pg_num new_pg_num old_bits old_mask n : Z)
    (split : bool) (children : gset pg_t) : option (bool * gset pg_t) :=
  match fuel with
  | O => None
  | S fuel =>
    let next_bit := u32 (Z.shiftl n (old_bits - 1)) in
    let s := Z.lor next_bit (m_seed p) in
    if (s <? old_pg_num) || (s =? m_seed p) then
      split_loop fuel p old_pg_num new_pg_num old_bits old_mask (u32 (n + 1)) split children
    else if new_pg_num <=? s then Some (split, children)
    else if u32 (ceph_stable_mod (i32 s) (i32 old_pg_num) (i32 old_mask)) =? m_seed p then
      split_loop fuel p old_pg_num new_pg_num old_bits old_mask (u32 (n + 1)) true
        ({[ mk_pg (m_pool p) s ]} ∪ children)
    else
      split_loop fuel p old_pg_num new_pg_num old_bits old_mask (u32 (n + 1)) split children
  end.

(** [is_split]: whether the group splits when the pool grows, and the seeds
    inserted in [*children]. *)
Definition is_split (fuel : nat) (p : pg_t) (old_pg_num new_pg_num : Z) (children : gset pg_t)
    : option (bool * gset pg_t) :=
  if old_pg_num <=? m_seed p then Some (false, children)
  else if new_pg_num <=? old_pg_num then Some (false, children)
  else
    let old_bits := cbits old_pg_num in
    let old_mask := u32 (Z.shiftl 1 old_bits - 1) in
    split_loop fuel p old_pg_num new_pg_num old_bits old_mask 1 false children.

Definition get_split_bits (p : pg_t) (pg_num : Z) : option Z :=
  if pg_num =? 1 then Some 0
  else
    ceph_assert (1 <? pg_num) ;;
    let b := cbits pg_num in
    ceph_assert (negb (b =? 0)) ;;
    if m_seed p mod Z.shiftl 1 (b - 1) <? pg_num mod Z.shiftl 1 (b - 1) then Some b
    else Some (b - 1).

Definition get_parent (p : pg_t) : option pg_t :=
  let bits := cbits (m_seed p) in
  ceph_assert (negb (bits =? 0)) ;;
  Some (with_seed (Z.land (m_seed p) (Z.lnot (Z.shiftl (-1) (bits - 1)))) p).

(** The [while] of [is_merge_source]. *)
Fixpoint merge_loop (fuel : nat) (t : pg_t) (new_pg_num : Z) : option pg_t :=
  match fuel with
  | O => None
  | S fuel =>
    if new_pg_num <=? m_seed t then
      t' ← get_parent t; merge_loop fuel t' new_pg_num
    else Some t
  end.

(** [is_merge_source]: [Some None] is a return of [false], [Some (Some t)] of
    [true] with [*parent = t]. *)
Definition is_merge_source (fuel : nat) (p : pg_t) (old_pg_num new_pg_num : Z)
    : option (option pg_t) :=
  if (m_seed p <? old_pg_num) && (new_pg_num <=? m_seed p) then
    t ← merge_loop fuel p new_pg_num; Some (Some t)
  else Some None.

Definition is_merge_target (fuel : nat) (p : pg_t) (old_pg_num new_pg_num : Z) : option bool :=
  if m_seed p <? new_pg_num then
    r ← is_split fuel p new_pg_num old_pg_num ∅; Some (fst r)
  else Some false.

End Pg.

Module PgPool.
Import Bits Pg.

(** [pg_pool_t]: the fields that decide the placement. *)
Record pg_pool_t := {
  flags : Z;
  type : Z;
  size : Z;
  crush_rule : Z;
  object_hash : Z;
  pg_num : Z;
  pgp_num : Z;
  pg_num_mask : Z;
  pgp_num_mask : Z
}.

Definition FLAG_HASHPSPOOL : Z := 1.
Definition TYPE_REPLICATED : Z := 1.
Definition TYPE_ERASURE : Z := 3.

Definition calc_pg_masks (pi : pg_pool_t) : pg_pool_t := {|
  flags := flags pi; type := type pi; size := size pi; crush_rule := crush_rule pi;
  object_hash := object_hash pi;
  pg_num := pg_num pi; pgp_num := pgp_num pi;
  pg_num_mask := u32 (i32 (Z.shiftl 1 (cbits (u32 (pg_num pi - 1)))) - 1);
  pgp_num_mask := u32 (i32 (Z.shiftl 1 (cbits (u32 (pgp_num pi - 1)))) - 1)
|}.

Definition get_pg_num_divisor (pi : pg_pool_t) (pgid : pg_t) : Z :=
  if pg_num pi =? u32 (pg_num_mask pi + 1) then pg_num pi
  else
    let mask := Z.shiftr (pg_num_mask pi) 1 in
    if Z.land (m_seed pgid) mask <? Z.land (pg_num pi) mask
    then u32 (pg_num_mask pi + 1)
    else Z.shiftr (u32 (pg_num_mask pi + 1)) 1.

Definition raw_hash_to_pg (pi : pg_pool_t) (v : Z) : Z :=
  u32 (ceph_stable_mod (i32 v) (i32 (pg_num pi)) (i32 (pg_num_mask pi))).

Definition raw_pg_to_pg (pi : pg_pool_t) (pg : pg_t) : pg_t :=
  with_seed (u32 (ceph_stable_mod (i32 (m_seed pg)) (i32 (pg_num pi)) (i32 (pg_num_mask pi)))) pg.

Definition raw_pg_to_pps (pi : pg_pool_t) (pg : pg_t) : Z :=
  let ps := ceph_stable_mod (i32 (m_seed pg)) (i32 (pgp_num pi)) (i32 (pgp_num_mask pi)) in
  if negb (Z.land (flags pi) FLAG_HASHPSPOOL =? 0) then
    crush_hash32_2 CRUSH_HASH_RJENKINS1 (u32 ps) (u32 (m_pool pg))
  else u32 (ps + m_pool pg).

Definition get_random_pg_position (pi : pg_pool_t) (pg : pg_t) (seed : Z) : Z :=
  let r := crush_hash32_2 CRUSH_HASH_RJENKINS1 seed 123 in
  let r :=
    if pg_num pi =? u32 (pg_num_mask pi + 1) then Z.ldiff r (pg_num_mask pi)
    else
      let smaller_mask := Z.shiftr (pg_num_mask pi) 1 in
      if Z.land (m_seed pg) smaller_mask <? Z.land (pg_num pi) smaller_mask
      then Z.ldiff r (pg_num_mask pi)
      else Z.ldiff r smaller_mask in
  Z.lor r (m_seed pg).

End PgPool.
(** ** The reference binning

    [bin n x] is the group of hash [x] among [n] groups: the low bits that
    address the next power of two, one bit fewer when that group does not
    exist yet. *)
Module Binning.
Import Bits Pg PgPool.

Definition bin (n x : Z) : Z :=
  let k := Z.log2 n in
  if x mod 2 ^ (k + 1) <? n then x mod 2 ^ (k + 1) else x mod 2 ^ k.

Lemma mod_pow2_le x a b : 0 <= b <= a -> (x mod 2 ^ a) mod 2 ^ b = x mod 2 ^ b.
Proof.
  intros H. apply Z.mod_mod_divide.
  exists (2 ^ (a - b)). rewrite <- Z.pow_add_r by lia. f_equal; lia.
Qed.

Lemma pow2_double k : 0 <= k -> 2 ^ (k + 1) = 2 * 2 ^ k.
Proof. intros. rewrite Z.pow_add_r by lia. lia. Qed.

Lemma log2_bounds n : 1 <= n -> 0 <= Z.log2 n /\ 2 ^ Z.log2 n <= n < 2 * 2 ^ Z.log2 n.
Proof.
  intros H. pose proof (Z.log2_nonneg n). split; [done|].
  destruct (Z.log2_spec n) as [H1 H2]; [lia|].
  rewrite <- Z.add_1_r, pow2_double in H2 by done. done.
Qed.

(** [mod 2^(k+1)] is [mod 2^k] with or without one more bit. *)
Lemma mod_pow2_step x k : 0 <= k ->
  x mod 2 ^ (k + 1) = x mod 2 ^ k \/ x mod 2 ^ (k + 1) = x mod 2 ^ k + 2 ^ k.
Proof.
  intros Hk. rewrite pow2_double by done. set (p := 2 ^ k).
  assert (0 < p) by (apply Z.pow_pos_nonneg; lia).
  pose proof (Z.mod_pos_bound x (2 * p)). pose proof (Z.mod_pos_bound x p).
  pose proof (Z.div_mod x (2 * p)). pose proof (Z.div_mod x p).
  assert (x / p = 2 * (x / (2 * p)) \/ x / p = 2 * (x / (2 * p)) + 1) as [E|E] by nia;
    rewrite E in *; [left|right]; nia.
Qed.

Lemma bin_range n x : 1 <= n -> 0 <= bin n x < n.
Proof.
  intros Hn. destruct (log2_bounds n Hn) as (Hk & Hlo & Hhi).
  assert (0 < 2 ^ Z.log2 n) by (apply Z.pow_pos_nonneg; lia).
  unfold bin. pose proof (pow2_double _ Hk).
  pose proof (Z.mod_pos_bound x (2 ^ (Z.log2 n + 1))).
  pose proof (Z.mod_pos_bound x (2 ^ Z.log2 n)). case_match; zbool; lia.
Qed.

Lemma bin_small n x : 0 <= x < n -> bin n x = x.
Proof.
  intros Hx. destruct (log2_bounds n) as (Hk & Hlo & Hhi); [lia|].
  unfold bin. rewrite pow2_double by done. rewrite Z.mod_small by lia.
  case_match; zbool; [done|lia].
Qed.

(** Binning among [n] groups factors through binning among any larger number. *)
Lemma bin_bin n m x : 1 <= n <= m -> bin n (bin m x) = bin n x.
Proof.
  intros Hnm. destruct (log2_bounds n) as (Hk & Hlo & Hhi); [lia|].
  destruct (log2_bounds m) as (Hk' & Hlo' & Hhi'); [lia|].
  assert (Z.log2 n <= Z.log2 m) as Hle by (apply Z.log2_le_mono; lia).
  unfold bin at 2. cbv zeta. destruct (x mod 2 ^ (Z.log2 m + 1) <? m) eqn:E; zbool.
  - unfold bin. rewrite !mod_pow2_le by lia. done.
  - destruct (decide (Z.log2 n = Z.log2 m)) as [Heq|].
    + rewrite <- Heq in *. rewrite bin_small.
      * unfold bin. case_match; zbool; [lia|done].
      * pose proof (Z.mod_pos_bound x (2 ^ Z.log2 n)). lia.
    + unfold bin. rewrite !mod_pow2_le by lia. done.
Qed.

(** The hashes of a group are those that agree with its seed on [w] bits. *)
Lemma bin_width n s x (w := if s mod 2 ^ Z.log2 n <? n mod 2 ^ Z.log2 n
                           then Z.log2 n + 1 else Z.log2 n) :
  0 <= s < n -> bin n x = s <-> x mod 2 ^ w = s mod 2 ^ w.
Proof.
  intros Hs. destruct (log2_bounds n) as (Hk & Hlo & Hhi); [lia|].
  set (k := Z.log2 n) in *. assert (0 < 2 ^ k) by (apply Z.pow_pos_nonneg; lia).
  assert (n mod 2 ^ k = n - 2 ^ k) as En by (symmetry; apply (Z.mod_unique_pos n (2 ^ k) 1 (n - 2 ^ k)); lia).
  pose proof (pow2_double k Hk) as E2.
  pose proof (Z.mod_pos_bound x (2 ^ k) ltac:(lia)).
  pose proof (Z.mod_pos_bound s (2 ^ k) ltac:(lia)).
  assert (s mod 2 ^ (k + 1) = s) as Es by (apply Z.mod_small; lia).
  assert (s mod 2 ^ k = s \/ s mod 2 ^ k = s - 2 ^ k) as Esk.
  { destruct (mod_pow2_step s k Hk); lia. }
  unfold bin, w. fold k. rewrite En.
  destruct (mod_pow2_step x k Hk) as [Ex|Ex]; rewrite Ex in *;
  destruct (s mod 2 ^ k <? n - 2 ^ k) eqn:E1; rewrite ?Es, ?Ex;
  case_match; zbool; split; intros; try lia.
Qed.

(** *** The code computes [bin] *)

Lemma i32_small x : 0 <= x < 2147483648 -> i32 x = x.
Proof. intros. unfold i32. rewrite Z.mod_small; lia. Qed.
Lemma u32_small x : 0 <= x < two32 -> u32 x = x.
Proof. intros. unfold u32. by apply Z.mod_small. Qed.
Lemma u32_i32 x : u32 (i32 x) = u32 x.
Proof.
  unfold u32, i32. rewrite Zminus_mod_idemp_l. f_equal. lia.
Qed.

Lemma cbits_log2 v : 1 <= v -> cbits v = Z.log2 v + 1.
Proof. intros. unfold cbits, clz. case_match; zbool; lia. Qed.

Lemma i32_mod_pow2 x k : 0 <= k <= 31 -> i32 x mod 2 ^ k = x mod 2 ^ k.
Proof.
  intros Hk. rewrite <- (mod_pow2_le _ 32 k) by lia. change (2 ^ 32) with two32.
  fold (u32 (i32 x)). rewrite u32_i32. unfold u32. change two32 with (2 ^ 32).
  apply mod_pow2_le. lia.
Qed.

Lemma land_mask x k : 0 <= k -> Z.land x (2 ^ k - 1) = x mod 2 ^ k.
Proof. intros. rewrite <- Z.land_ones, Z.ones_equiv by done. by rewrite Z.sub_1_r. Qed.

Lemma pow2_le a b : 0 <= a <= b -> 2 ^ a <= 2 ^ b.
Proof. intros. apply Z.pow_le_mono_r; lia. Qed.

Lemma shiftr_mask k : 0 <= k -> Z.shiftr (2 ^ (k + 1) - 1) 1 = 2 ^ k - 1.
Proof.
  intros. rewrite Z.shiftr_div_pow2, pow2_double by lia. change (2 ^ 1) with 2.
  symmetry. apply (Z.div_unique_pos _ 2 _ 1); lia.
Qed.

(** [ceph_stable_mod] with the mask of [get_ancestor]. *)
Lemma stable_mod_bin x n : 1 <= n < 2 ^ 30 ->
  ceph_stable_mod (i32 x) n (2 ^ (Z.log2 n + 1) - 1) = bin n x.
Proof.
  intros Hn. destruct (log2_bounds n) as (Hk & Hlo & Hhi); [lia|].
  assert (Z.log2 n < 30) by (apply Z.log2_lt_pow2; lia).
  unfold ceph_stable_mod, bin. rewrite shiftr_mask by lia.
  rewrite !land_mask, !i32_mod_pow2 by lia. done.
Qed.

(** The number of bits of [n - 1], by whether [n] is a power of two. *)
Lemma cbits_pred_pow2 n : 1 <= n -> n = 2 ^ Z.log2 n -> cbits (n - 1) = Z.log2 n.
Proof.
  intros Hn E. destruct (decide (n = 1)) as [-> | ]; [done|]. rewrite cbits_log2 by lia.
  assert (1 <= Z.log2 n) by (apply Z.log2_le_pow2; lia).
  assert (0 < 2 ^ (Z.log2 n - 1)) by (apply Z.pow_pos_nonneg; lia).
  rewrite (Z.log2_unique' (n - 1) (Z.log2 n - 1) (2 ^ (Z.log2 n - 1) - 1)); [lia|lia|lia|].
  rewrite E at 1. replace (Z.log2 n) with (Z.log2 n - 1 + 1) at 1 by lia.
  rewrite pow2_double by lia. lia.
Qed.

Lemma cbits_pred n : 1 <= n -> n <> 2 ^ Z.log2 n -> cbits (n - 1) = Z.log2 n + 1.
Proof.
  intros Hn Hne. destruct (log2_bounds n) as (Hk & Hlo & Hhi); [lia|].
  assert (0 < 2 ^ Z.log2 n) by (apply Z.pow_pos_nonneg; lia).
  rewrite cbits_log2 by lia. f_equal. apply Z.log2_unique; [done|].
  rewrite <- Z.add_1_r, pow2_double by lia. lia.
Qed.

(** [ceph_stable_mod] with the mask of [calc_pg_masks]: the mask is the same
    except for powers of two, where the top bit does not matter. *)
Lemma stable_mod_bin_pool x n : 1 <= n < 2 ^ 30 ->
  ceph_stable_mod (i32 x) n (2 ^ cbits (n - 1) - 1) = bin n x.
Proof.
  intros Hn. destruct (log2_bounds n) as (Hk & Hlo & Hhi); [lia|].
  destruct (decide (n = 2 ^ Z.log2 n)) as [E|].
  - rewrite cbits_pred_pow2 by (done || lia).
    assert (Z.log2 n < 30) by (apply Z.log2_lt_pow2; lia).
    pose proof (Z.mod_pos_bound x (2 ^ Z.log2 n)).
    unfold ceph_stable_mod, bin. rewrite land_mask, i32_mod_pow2 by lia.
    destruct (_ <? _) eqn:E1; zbool; [|lia].
    destruct (mod_pow2_step x _ Hk); case_match; zbool; lia.
  - rewrite cbits_pred by (done || lia). by apply stable_mod_bin.
Qed.

End Binning.
Module PgFacts.
Import Bits Pg PgPool Binning.

Lemma raw_hash_to_pg_bin pi v : 1 <= pg_num pi < 2 ^ 30 ->
  raw_hash_to_pg (calc_pg_masks pi) v = bin (pg_num pi) v.
Proof.
  intros Hn. unfold raw_hash_to_pg. simpl. pose proof (bin_range (pg_num pi) v).
  assert (0 <= cbits (pg_num pi - 1) <= 30) as Hc.
  { unfold cbits, clz. case_match; [lia|]. zbool.
    assert (Z.log2 (pg_num pi - 1) < 30) by (apply Z.log2_lt_pow2; lia).
    pose proof (Z.log2_nonneg (pg_num pi - 1)). lia. }
  pose proof (pow2_le (cbits (pg_num pi - 1)) 30 ltac:(lia)).
  assert (0 < 2 ^ cbits (pg_num pi - 1)) by (apply Z.pow_pos_nonneg; lia).
  rewrite (u32_small (pg_num pi - 1)), Z.shiftl_1_l, (i32_small (pg_num pi)) by lia.
  rewrite (i32_small (2 ^ _)), (u32_small (2 ^ _ - 1)), (i32_small (2 ^ _ - 1)) by lia.
  rewrite stable_mod_bin_pool, u32_small by lia. done.
Qed.

Lemma raw_pg_to_pg_bin pi p : 1 <= pg_num pi < 2 ^ 30 ->
  raw_pg_to_pg (calc_pg_masks pi) p = with_seed (bin (pg_num pi) (m_seed p)) p.
Proof. intros H. rewrite <- (raw_hash_to_pg_bin pi) by done. done. Qed.

Lemma mask_range n : 1 <= n < 2 ^ 30 -> 0 < 2 ^ (Z.log2 n + 1) <= 2 ^ 30.
Proof.
  intros Hn. pose proof (Z.log2_nonneg n).
  assert (Z.log2 n < 30) by (apply Z.log2_lt_pow2; lia).
  split; [apply Z.pow_pos_nonneg|apply pow2_le]; lia.
Qed.

Lemma get_ancestor_bin p n : 1 <= n < 2 ^ 30 -> get_ancestor p n = with_seed (bin n (m_seed p)) p.
Proof.
  intros Hn. unfold get_ancestor. pose proof (bin_range n (m_seed p)). pose proof (mask_range n Hn).
  rewrite cbits_log2, Z.shiftl_1_l, !(i32_small (2 ^ _)), !(i32_small (2 ^ _ - 1)), (i32_small n) by lia.
  rewrite stable_mod_bin, u32_small by lia. done.
Qed.

(** *** Candidates of the split loop *)
Section Candidates.
Context (k seed : Z) (Hk : 0 <= k) (Hseed : 0 <= seed < 2 ^ (k + 1)).

Definition candidate (j : Z) : Z := Z.lor (j * 2 ^ k) seed.

Lemma high_bit : seed / 2 ^ k = 0 \/ seed / 2 ^ k = 1.
Proof.
  rewrite pow2_double in Hseed by done. assert (0 < 2 ^ k) by (apply Z.pow_pos_nonneg; lia).
  assert (0 <= seed / 2 ^ k < 2); [|lia].
  split; [apply Z.div_pos; lia|apply Z.div_lt_upper_bound; lia].
Qed.

Lemma candidate_eq j :
  candidate j = Z.lor j (seed / 2 ^ k) * 2 ^ k + seed mod 2 ^ k.
Proof.
  assert (0 < 2 ^ k) by (apply Z.pow_pos_nonneg; lia). unfold candidate.
  rewrite (Z.div_mod (Z.lor _ _) (2 ^ k)) by lia. rewrite (Z.mul_comm (2 ^ k)). f_equal.
  - f_equal. rewrite <- !Z.shiftr_div_pow2, Z.shiftr_lor, !Z.shiftr_div_pow2, Z.div_mul by lia. done.
  - rewrite <- !Z.land_ones, Z.land_lor_distr_l by lia.
    rewrite (Z.land_ones (j * _)), Z.mod_mul, Z.lor_0_l by lia. done.
Qed.

Lemma lor_bit j h : 0 <= j -> h = 0 \/ h = 1 ->
  Z.lor j h = if Z.even j then j + h else j.
Proof.
  intros Hj [-> | ->]; [rewrite Z.lor_0_r; case_match; lia|].
  destruct j as [|[]|]; done.
Qed.

Lemma candidate_ge j : 0 <= j -> j <= candidate j.
Proof.
  intros Hj. assert (0 < 2 ^ k) by (apply Z.pow_pos_nonneg; lia).
  pose proof (Z.mod_pos_bound seed (2 ^ k)). rewrite candidate_eq, lor_bit by (done || apply high_bit).
  destruct high_bit as [-> | ->]; case_match; nia.
Qed.

Lemma candidate_mono i j : 0 <= i <= j -> candidate i <= candidate j.
Proof.
  intros Hj. assert (0 < 2 ^ k) by (apply Z.pow_pos_nonneg; lia).
  rewrite !candidate_eq, !lor_bit by (lia || apply high_bit).
  destruct (decide (i = j)) as [-> | ]; [done|].
  destruct high_bit as [-> | ->]; do 2 case_match; nia.
Qed.

(** Every seed that bins to [seed] is a candidate. *)
Lemma candidate_complete n x : Z.log2 n = k -> 1 <= n -> n <= x -> bin n x = seed ->
  exists j, 1 <= j /\ candidate j = x.
Proof.
  intros Ek Hn Hx Hb. destruct (log2_bounds n Hn) as (_ & Hlo & Hhi). rewrite Ek in Hlo, Hhi.
  pose proof high_bit as Hh. set (q := 2 ^ k) in *. assert (0 < q) by lia. pose proof (pow2_double _ Hk) as E2. fold q in E2.
  pose proof (bin_range n x Hn) as Hr.
  pose proof (Z.div_mod seed q ltac:(lia)) as Hsd.
  unfold bin in Hb. rewrite Ek in Hb. fold q in Hb. rewrite E2 in Hb. destruct (_ <? _) eqn:E; zbool.
  - pose proof (Z.div_mod x (2 * q) ltac:(lia)) as Hd. rewrite Hb in Hd.
    assert (1 <= x / (2 * q)) by nia. exists (2 * (x / (2 * q))). split; [lia|].
    rewrite candidate_eq, lor_bit by (lia || done). fold q.
    rewrite Z.even_mul. simpl. nia.
  - pose proof (Z.div_mod x q ltac:(lia)) as Hd. rewrite Hb in Hd.
    assert (seed / q = 0) as Hz.
    { apply Z.div_small. rewrite <- Hb. apply Z.mod_pos_bound. lia. }
    assert (1 <= x / q) by (apply Z.div_le_lower_bound; lia). exists (x / q). split; [done|].
    rewrite candidate_eq. fold q. rewrite Hz, Z.lor_0_r in *. nia.
Qed.
End Candidates.

(** The groups the loop finds from [n] on. *)
Definition found (p : pg_t) (old new n : Z) (c : pg_t) : Prop :=
  exists j, n <= j /\ c = mk_pg (m_pool p) (candidate (Z.log2 old) (m_seed p) j) /\
    old <= m_seed c < new /\ bin old (m_seed c) = m_seed p.

Lemma found_step p old new n c (s := candidate (Z.log2 old) (m_seed p) n) :
  found p old new n c <->
  c = mk_pg (m_pool p) s /\ old <= s < new /\ bin old s = m_seed p \/ found p old new (n + 1) c.
Proof.
  split.
  - intros (j & Hj & -> & Hr). destruct (decide (j = n)) as [-> | ]; [by left|].
    right. exists j. split; [lia|done].
  - intros [[-> Hr]|(j & Hj & Hr)]; [exists n; done|exists j; split; [lia|done]].
Qed.

Section SplitLoop.
Context (p : pg_t) (old new : Z).
Let k := Z.log2 old.
Hypotheses (Hold : 1 <= old < 2 ^ 30) (Hnew : old < new <= 2 ^ 31) (Hs : 0 <= m_seed p < old).

Lemma seed_width : 0 <= k /\ 0 <= m_seed p < 2 ^ (k + 1).
Proof using Hold Hs.
  destruct (log2_bounds old) as (Hk & Hlo & Hhi); [lia|]. fold k in Hk, Hlo, Hhi.
  rewrite pow2_double by done. lia.
Qed.

(** The shift of the loop counter does not overflow before the bound. *)
Lemma candidate_no_overflow n : 1 <= n ->
  (forall j, 1 <= j < n -> candidate k (m_seed p) j < new) -> n * 2 ^ k < two32 /\ n + 1 < two32.
Proof using Hold Hnew Hs.
  intros Hn Hlt. destruct seed_width as [Hk Hw]. pose proof (mask_range old Hold) as Hmask. fold k in Hmask.
  rewrite pow2_double in Hmask by done.
  destruct (decide (n = 1)) as [-> | ]; [lia|].
  pose proof (Hlt (n - 1) ltac:(lia)) as H1.
  pose proof (candidate_ge k (m_seed p) Hk Hw (n - 1) ltac:(lia)). rewrite candidate_eq in H1 by done.
  pose proof (Z.mod_pos_bound (m_seed p) (2 ^ k)).
  pose proof (high_bit k (m_seed p) Hk Hw) as Hh. rewrite lor_bit in H1 by (done || lia).
  destruct Hh as [E|E]; rewrite E in H1; case_match; split; nia.
Qed.

Lemma split_loop_spec fuel n split children :
  1 <= n -> new < n + Z.of_nat fuel ->
  (forall j, 1 <= j < n -> candidate k (m_seed p) j < new) ->
  (split = true <-> children <> ∅) ->
  exists split' children',
    split_loop fuel p old new (k + 1) (2 ^ (k + 1) - 1) n split children = Some (split', children') /\
    (split' = true <-> children' <> ∅) /\
    forall c, c ∈ children' <-> c ∈ children \/ found p old new n c.
Proof using Hold Hnew Hs.
  destruct seed_width as [Hk Hw]. pose proof (mask_range old Hold) as Hmask. fold k in Hmask.
  assert (0 < 2 ^ k) by (apply Z.pow_pos_nonneg; lia).
  revert n split children. induction fuel as [|fuel IH]; intros n split children Hn Hf Hlt Hsc.
  { pose proof (Hlt (n - 1) ltac:(lia)) as H1.
    pose proof (candidate_ge k (m_seed p) Hk Hw (n - 1) ltac:(lia)). lia. }
  pose proof (candidate_no_overflow n Hn Hlt) as [Hn32 Hn1].
  cbn [split_loop]. replace (k + 1 - 1) with k by lia.
  rewrite Z.shiftl_mul_pow2, (u32_small (n * _)), (u32_small (n + 1)) by (lia || nia).
  fold (candidate k (m_seed p) n). setoid_rewrite found_step. fold k.
  set (s := candidate k (m_seed p) n) in *.
  destruct (decide (new <= s)) as [Hbig|Hsmall].
  - assert ((s <? old) || (s =? m_seed p) = false) as -> by
      (apply orb_false_iff; split; [apply Z.ltb_ge|apply Z.eqb_neq]; lia).
    rewrite (proj2 (Z.leb_le new s)) by done.
    exists split, children. split; [done|]. split; [done|]. intros c. split; [tauto|].
    intros [|[(_ & ? & _)|(j & Hj & -> & Hr & _)]]; [done|lia|]. simpl in Hr. fold k in Hr.
    pose proof (candidate_mono k (m_seed p) Hk Hw n j ltac:(lia)). fold s in H0. lia.
  - assert (forall j, 1 <= j < n + 1 -> candidate k (m_seed p) j < new) as Hlt'.
    { intros j Hj. destruct (decide (j = n)) as [-> | ]; [fold s; lia|apply Hlt; lia]. }
    rewrite (proj2 (Z.leb_gt new s)) by lia.
    rewrite !(i32_small old), (i32_small (2 ^ _ - 1)) by lia. unfold k at 3. rewrite stable_mod_bin by done.
    pose proof (bin_range old s ltac:(lia)). rewrite u32_small by lia.
    destruct ((s <? old) || (s =? m_seed p)) eqn:E1; [|destruct (bin old s =? m_seed p) eqn:E2].
    + assert (s < old) by (zbool; lia).
      destruct (IH (n + 1) split children) as (b & C & -> & Hb & HC); [lia|lia|done..|].
      exists b, C. split; [done|]. split; [done|]. intros c. rewrite HC.
      split; [tauto|]. intros [|[(_ & ? & _)|]]; [tauto|lia|tauto].
    + zbool. destruct (IH (n + 1) true ({[mk_pg (m_pool p) s]} ∪ children)) as (b & C & -> & Hb & HC);
        [lia|lia|done|split; [set_solver|done]|].
      exists b, C. split; [done|]. split; [done|]. intros c. rewrite HC, elem_of_union, elem_of_singleton.
      assert (old <= s < new) by lia. tauto.
    + zbool. destruct (IH (n + 1) split children) as (b & C & -> & Hb & HC); [lia|lia|done..|].
      exists b, C. split; [done|]. split; [done|]. intros c. rewrite HC.
      split; [tauto|]. intros [|[(_ & _ & ?)|]]; [tauto|lia|tauto].
Qed.
End SplitLoop.

(** *** Merging *)

Lemma low_mask k : 0 <= k -> Z.lnot (Z.shiftl (-1) k) = 2 ^ k - 1.
Proof. intros. rewrite Z.shiftl_mul_pow2 by done. unfold Z.lnot. lia. Qed.

Lemma get_parent_spec p : 1 <= m_seed p ->
  get_parent p = Some (with_seed (m_seed p mod 2 ^ Z.log2 (m_seed p)) p).
Proof.
  intros Hs. pose proof (Z.log2_nonneg (m_seed p)). unfold get_parent. rewrite cbits_log2 by done.
  rewrite (proj2 (Z.eqb_neq (Z.log2 (m_seed p) + 1) 0)) by lia. simpl.
  by rewrite Z.add_simpl_r, low_mask, land_mask by lia.
Qed.

Lemma bin_parent new s : 1 <= new <= s -> bin new (s mod 2 ^ Z.log2 s) = bin new s.
Proof.
  intros Hs. destruct (log2_bounds s) as (Hk & Hlo & Hhi); [lia|].
  destruct (log2_bounds new) as (Hk' & Hlo' & Hhi'); [lia|].
  assert (Z.log2 new <= Z.log2 s) by (apply Z.log2_le_mono; lia).
  destruct (decide (Z.log2 new = Z.log2 s)) as [E|].
  - pose proof (Z.mod_pos_bound s (2 ^ Z.log2 s)). rewrite <- E in *. rewrite bin_small by lia.
    unfold bin. rewrite pow2_double, (Z.mod_small s (2 * _)) by lia. case_match; zbool; [lia|done].
  - unfold bin. rewrite !mod_pow2_le by lia. done.
Qed.

Lemma merge_loop_spec fuel t new : 1 <= new -> 0 <= m_seed t < Z.of_nat fuel ->
  merge_loop fuel t new = Some (with_seed (bin new (m_seed t)) t).
Proof.
  intros Hn. revert t. induction fuel as [|fuel IH]; intros t Ht; [lia|]. simpl.
  destruct (new <=? m_seed t) eqn:E; zbool.
  - rewrite get_parent_spec by lia. simpl. pose proof (log2_bounds (m_seed t) ltac:(lia)).
    pose proof (Z.mod_pos_bound (m_seed t) (2 ^ Z.log2 (m_seed t))).
    rewrite IH by (simpl; lia). unfold with_seed. simpl. rewrite bin_parent by lia. done.
  - rewrite bin_small by lia. by destruct t.
Qed.

(** *** The code against the reference *)

Lemma is_split_spec fuel p old new :
  1 <= old < 2 ^ 30 -> new <= 2 ^ 31 -> 0 <= m_seed p -> new <= Z.of_nat fuel ->
  exists split children,
    is_split fuel p old new ∅ = Some (split, children) /\
    (split = true <-> children <> ∅) /\
    forall c, c ∈ children <-> m_pool c = m_pool p /\ old <= m_seed c < new /\
                              bin old (m_seed c) = m_seed p.
Proof.
  intros Ho Hnew Hp Hf. pose proof (mask_range old Ho). unfold is_split.
  destruct (old <=? m_seed p) eqn:E1; [|destruct (new <=? old) eqn:E2]; zbool.
  - exists false, ∅. split; [done|]. split; [split; [done|set_solver]|]. intros c.
    split; [set_solver|]. intros (_ & _ & Hb). pose proof (bin_range old (m_seed c)). lia.
  - exists false, ∅. split; [done|]. split; [split; [done|set_solver]|]. intros c.
    split; [set_solver|]. lia.
  - rewrite cbits_log2, Z.shiftl_1_l, (u32_small (_ - 1)) by lia.
    assert (old < new <= 2 ^ 31) as Hno by lia. assert (0 <= m_seed p < old) as Hpo by lia.
    destruct (split_loop_spec p old new Ho Hno Hpo fuel 1 false ∅) as (b & C & -> & Hb & HC);
      [lia|lia|lia|set_solver|].
    exists b, C. split; [done|]. split; [done|]. intros c. rewrite HC.
    destruct (seed_width p old Ho Hpo) as [Hk Hw]. split.
    + intros [|(j & _ & -> & Hr & Hb')]; [set_solver|done].
    + intros (Hpool & Hr & Hb'). right.
      destruct (candidate_complete (Z.log2 old) (m_seed p) Hk Hw old (m_seed c)) as (j & Hj & Ej); [done|lia|lia|done|].
      exists j. rewrite Ej, <- Hpool. by destruct c.
Qed.

Lemma is_merge_source_spec fuel p old new :
  1 <= new -> 0 <= m_seed p < Z.of_nat fuel ->
  is_merge_source fuel p old new =
  Some (if decide (new <= m_seed p < old) then Some (with_seed (bin new (m_seed p)) p) else None).
Proof.
  intros Hn Hp. unfold is_merge_source. case_decide as Hd.
  - rewrite (proj2 (Z.ltb_lt _ _)), (proj2 (Z.leb_le _ _)) by lia. simpl.
    by rewrite merge_loop_spec.
  - destruct (_ && _)%bool eqn:E; [|done]. zbool. lia.
Qed.

Lemma get_split_bits_spec p n : 1 <= n -> 0 <= m_seed p ->
  get_split_bits p n = Some (if m_seed p mod 2 ^ Z.log2 n <? n mod 2 ^ Z.log2 n
                             then Z.log2 n + 1 else Z.log2 n).
Proof.
  intros Hn Hp. unfold get_split_bits. destruct (n =? 1) eqn:E; zbool.
  - subst n. simpl. by rewrite Z.mod_1_r.
  - rewrite (proj2 (Z.ltb_lt 1 n)), cbits_log2 by lia. pose proof (Z.log2_nonneg n).
    rewrite (proj2 (Z.eqb_neq (Z.log2 n + 1) 0)) by lia. simpl. rewrite Z.add_simpl_r, Z.shiftl_1_l.
    by case_match.
Qed.

End PgFacts.
Module PgTheorems.
Import Bits Pg PgPool Binning PgFacts.

Definition pool_of (n : Z) : pg_pool_t := calc_pg_masks {|
  flags := FLAG_HASHPSPOOL; type := TYPE_REPLICATED; size := 3; crush_rule := 0;
  object_hash := 2;  pg_num := n; pgp_num := n; pg_num_mask := 0; pgp_num_mask := 0 |}.

(** Growing a pool only splits groups.  With masks from [calc_pg_masks],
    every hash selects an existing group; the group it selects after growth
    has, by [get_ancestor], the group it selected before as its ancestor; and
    a hash that still selects an old group number has not moved. *)
Theorem growth_only_splits small large v pool :
  1 <= pg_num small <= pg_num large -> pg_num large < 2 ^ 30 ->
  let before := raw_hash_to_pg (calc_pg_masks small) v in
  let after := raw_hash_to_pg (calc_pg_masks large) v in
  (0 <= before < pg_num small) /\
  get_ancestor (mk_pg pool after) (pg_num small) = mk_pg pool before /\
  (after < pg_num small -> after = before).
Proof.
  intros H1 H2. simpl. rewrite !raw_hash_to_pg_bin, get_ancestor_bin by lia. simpl.
  pose proof (bin_range (pg_num large) v ltac:(lia)). split; [apply bin_range; lia|].
  unfold with_seed. simpl. rewrite <- (bin_bin (pg_num small) (pg_num large) v) by lia.
  split; [done|]. intros. by rewrite (bin_small (pg_num small)) by lia.
Qed.

Lemma growth_only_splits_witness :
  get_ancestor (mk_pg 7 (raw_hash_to_pg (pool_of 12) 4242424251)) 5 =
  mk_pg 7 (raw_hash_to_pg (pool_of 5) 4242424251).
Proof. apply (growth_only_splits (pool_of 5) (pool_of 12) 4242424251 7); simpl; lia. Defined.

(** [is_split] is the brute-force split.  Its loop always ends, and the
    children it inserts are exactly the new group numbers whose ancestor is
    the group, the specification kept as dead code in the function; it
    returns [true] exactly when there is one. *)
Theorem is_split_exact fuel p old_pg_num new_pg_num :
  1 <= old_pg_num < 2 ^ 30 -> new_pg_num <= 2 ^ 31 -> 0 <= m_seed p ->
  new_pg_num <= Z.of_nat fuel ->
  exists split children,
    is_split fuel p old_pg_num new_pg_num ∅ = Some (split, children) /\
    (split = true <-> children <> ∅) /\
    forall c, c ∈ children <-> old_pg_num <= m_seed c < new_pg_num /\
                              get_ancestor c old_pg_num = p.
Proof.
  intros Ho Hn Hp Hf. destruct (is_split_spec fuel p old_pg_num new_pg_num) as (b & C & E & Hb & HC); [done..|].
  exists b, C. split; [done|]. split; [done|]. intros c. rewrite HC, get_ancestor_bin by done.
  destruct p as [pool s], c as [pool' x]. unfold with_seed. simpl. split.
  - intros (-> & ? & ->). done.
  - intros (? & [= -> ->]). done.
Qed.

Lemma is_split_exact_witness :
  exists split children, is_split 13 (mk_pg 7 1) 5 13 ∅ = Some (split, children) /\
    mk_pg 7 9 ∈ children.
Proof.
  destruct (is_split_exact 13 (mk_pg 7 1) 5 13) as (b & C & E & _ & HC); [simpl; lia..|].
  exists b, C. split; [exact E|]. apply HC. split; [simpl; lia|reflexivity].
Defined.

(** Merging undoes splitting.  [is_merge_source] always returns; it names
    [t] as the group that [p] merges into when the pool shrinks exactly when
    [p] is one of the children [t] splits into when the pool grows back, and
    then [t] is the ancestor of [p] among the remaining groups. *)
Theorem merge_inverts_split fuel p t large small :
  1 <= small < 2 ^ 30 -> large <= 2 ^ 31 -> 0 <= m_seed p < Z.of_nat fuel -> 0 <= m_seed t ->
  large <= Z.of_nat fuel ->
  exists r split children,
    is_merge_source fuel p large small = Some r /\
    is_split fuel t small large ∅ = Some (split, children) /\
    (r = Some t <-> p ∈ children) /\
    (r = Some t -> t = get_ancestor p small).
Proof.
  intros Hs Hl Hp Ht Hf.
  destruct (is_split_spec fuel t small large) as (b & C & E & _ & HC); [done..|].
  exists (if decide (small <= m_seed p < large) then Some (with_seed (bin small (m_seed p)) p) else None), b, C.
  rewrite is_merge_source_spec, HC, get_ancestor_bin by lia. split; [done|]. split; [done|].
  destruct p as [pool x], t as [pool' s]. unfold with_seed. simpl in *. case_decide; [|split; [naive_solver|done]].
  split; [|naive_solver]. split; [intros [= <- <-]; done|]. intros (-> & _ & ->). done.
Qed.

Lemma merge_inverts_split_witness :
  exists split children, is_split 13 (mk_pg 7 1) 5 13 ∅ = Some (split, children) /\
    is_merge_source 13 (mk_pg 7 9) 13 5 = Some (Some (mk_pg 7 1)) /\ mk_pg 7 9 ∈ children.
Proof.
  destruct (merge_inverts_split 13 (mk_pg 7 9) (mk_pg 7 1) 13 5) as (r & b & C & Hr & Hs & Hi & Ha);
    [simpl; lia..|].
  exists b, C. split; [exact Hs|]. split; [reflexivity|]. apply Hi. vm_compute in Hr. congruence.
Defined.

End PgTheorems.
