(* ===== verification/Hobject.v ===== *)
(** Object names and their order, src/ceph-15.2.17/src/common/hobject.{h,cc},
    common/reverse.c, common/ceph_hash.cc and the parts of osd/osd_types.cc
    that relate objects to placement groups: the hash of a name, the
    bit-reversed order in which stores list objects, and the range of that
    order a placement group occupies. *)
From S2P Require Import Prelude Pg.
Import Bits Pg PgPool.

(** ** Lexicographic comparison

    [std::string] compares its bytes as unsigned characters; a string is the
    list of its bytes. *)
Module Lex.

(** The laws of a total order. *)
Class TotalCmp {T} (d : T -> T -> comparison) := {
  cmp_eq : forall x y, d x y = Eq <-> x = y;
  cmp_flip : forall x y, d y x = CompOpp (d x y);
  cmp_lt_trans : forall x y z, d x y = Lt -> d y z = Lt -> d x z = Lt
}.

Lemma cmp_refl `{!TotalCmp (T := T) d} x : d x x = Eq.
Proof. by apply cmp_eq. Qed.

Section Lex.
Context {A : Type} (c : A -> A -> comparison).

Fixpoint lex (a b : list A) : comparison :=
  match a, b with
  | [], [] => Eq
  | [], _ :: _ => Lt
  | _ :: _, [] => Gt
  | x :: a, y :: b => match c x y with Eq => lex a b | o => o end
  end.

#[export] Instance lex_total `{!TotalCmp c} : TotalCmp lex.
Proof.
  assert (forall a b, lex a b = Eq <-> a = b) as Heq.
  { induction a as [|x a IH]; intros [|y b]; simpl; try done.
    destruct (c x y) eqn:E.
    - apply (cmp_eq x y) in E as ->. rewrite IH. naive_solver.
    - split; [done|]. intros [= -> _]. by rewrite (cmp_refl (d := c)) in E.
    - split; [done|]. intros [= -> _]. by rewrite (cmp_refl (d := c)) in E. }
  split; [done| |].
  - induction x as [|x a IH]; intros [|y b]; simpl; try done.
    rewrite (cmp_flip (d := c) x y). destruct (c x y); simpl; auto.
  - induction x as [|x a IH]; intros [|y b] [|z d]; simpl; try done.
    destruct (c x y) eqn:E1; [|intros _|done]; destruct (c y z) eqn:E2; try done.
    + apply (cmp_eq x y) in E1 as ->. apply (cmp_eq y z) in E2 as ->. rewrite (cmp_refl (d := c)). apply IH.
    + apply (cmp_eq x y) in E1 as ->. by rewrite E2.
    + apply (cmp_eq y z) in E2 as ->. by rewrite E1.
    + by rewrite (cmp_lt_trans (d := c) x y z).
Qed.
End Lex.

#[export] Instance Z_total : TotalCmp Z.compare.
Proof.
  split.
  - apply Z.compare_eq_iff.
  - intros. apply Z.compare_antisym.
  - intros x y z. rewrite !Z.compare_lt_iff. lia.
Qed.

End Lex.

Module Hobject.
Import Lex.

Definition string_compare : list Z -> list Z -> comparison := lex Z.compare.
Definition string_lt (a b : list Z) : bool :=
  match string_compare a b with Lt => true | _ => false end.
Definition string_eq (a b : list Z) : bool :=
  match string_compare a b with Eq => true | _ => false end.

(** ** common/reverse.c, on [uint32_t] values *)

Definition reverse_bits (v : Z) : Z :=
  if v =? 0 then v
  else
    let v := Z.lor (Z.land (Z.shiftr v 1) 0x55555555) (u32 (Z.shiftl (Z.land v 0x55555555) 1)) in
    let v := Z.lor (Z.land (Z.shiftr v 2) 0x33333333) (u32 (Z.shiftl (Z.land v 0x33333333) 2)) in
    let v := Z.lor (Z.land (Z.shiftr v 4) 0x0F0F0F0F) (u32 (Z.shiftl (Z.land v 0x0F0F0F0F) 4)) in
    let v := Z.lor (Z.land (Z.shiftr v 8) 0x00FF00FF) (u32 (Z.shiftl (Z.land v 0x00FF00FF) 8)) in
    Z.lor (Z.shiftr v 16) (u32 (Z.shiftl v 16)).

Definition reverse_nibbles (retval : Z) : Z :=
  let retval := Z.lor (u32 (Z.shiftl (Z.land retval 0x0f0f0f0f) 4)) (Z.shiftr (Z.land retval 0xf0f0f0f0) 4) in
  let retval := Z.lor (u32 (Z.shiftl (Z.land retval 0x00ff00ff) 8)) (Z.shiftr (Z.land retval 0xff00ff00) 8) in
  Z.lor (u32 (Z.shiftl (Z.land retval 0x0000ffff) 16)) (Z.shiftr (Z.land retval 0xffff0000) 16).

(** ** [hobject_t] *)

Record hobject_t := {
  oid : list Z;
  snap : Z;
  hash : Z;
  max : bool;
  nibblewise_key_cache : Z;
  hash_reverse_bits : Z;
  pool : Z;
  nspace : list Z;
  key : list Z
}.

Definition INT64_MIN : Z := -9223372036854775808.
Definition CEPH_NOSNAP : Z := two64 - 2.
Definition POOL_TEMP_START : Z := -2.

(** The constructor of an ordinary object: a key equal to the name is dropped
    and the reversed hashes are cached. *)
Definition mk_hobject (oid key : list Z) (snap hash pool : Z) (nspace : list Z) : hobject_t := {|
  oid := oid; snap := snap; hash := hash; max := false;
  nibblewise_key_cache := reverse_nibbles hash; hash_reverse_bits := reverse_bits hash;
  pool := pool; nspace := nspace; key := if string_eq oid key then [] else key |}.

(** [hobject_t()] and [hobject_t::get_max()]. *)
Definition hobject_min : hobject_t := mk_hobject [] [] 0 0 INT64_MIN [].
Definition hobject_max : hobject_t := {|
  oid := []; snap := 0; hash := 0; max := true; nibblewise_key_cache := reverse_nibbles 0;
  hash_reverse_bits := reverse_bits 0; pool := INT64_MIN; nspace := []; key := [] |}.

Definition set_key (k : list Z) (h : hobject_t) : hobject_t := {|
  oid := oid h; snap := snap h; hash := hash h; max := max h;
  nibblewise_key_cache := nibblewise_key_cache h; hash_reverse_bits := hash_reverse_bits h;
  pool := pool h; nspace := nspace h; key := if string_eq k (oid h) then [] else k |}.

Definition set_hash (value : Z) (h : hobject_t) : hobject_t := {|
  oid := oid h; snap := snap h; hash := value; max := max h;
  nibblewise_key_cache := reverse_nibbles value; hash_reverse_bits := reverse_bits value;
  pool := pool h; nspace := nspace h; key := key h |}.

Definition set_bitwise_key_u32 (value : Z) (h : hobject_t) : hobject_t := {|
  oid := oid h; snap := snap h; hash := reverse_bits value; max := max h;
  nibblewise_key_cache := reverse_nibbles (reverse_bits value); hash_reverse_bits := value;
  pool := pool h; nspace := nspace h; key := key h |}.

Definition match_hash (to_check bits m : Z) : bool :=
  let mask := u32 (Z.lnot (Z.shiftl (-1) bits)) in
  Z.land m mask =? Z.land to_check mask.

Definition match_ (h : hobject_t) (bits m : Z) : bool := match_hash (hash h) bits m.

Definition is_temp_pool (pool : Z) : bool := pool <=? POOL_TEMP_START.
Definition get_temp_pool (pool : Z) : Z := POOL_TEMP_START - pool.
Definition get_logical_pool (h : hobject_t) : Z :=
  if is_temp_pool (pool h) then get_temp_pool (pool h) else pool h.

Definition get_bitwise_key (h : hobject_t) : Z := if max h then two32 else hash_reverse_bits h.

Definition get_effective_key (h : hobject_t) : list Z :=
  match key h with [] => oid h | _ => key h end.

Definition key_empty (h : hobject_t) : bool := match key h with [] => true | _ => false end.

Definition cmp (l r : hobject_t) : Z :=
  if (Z.b2z (max l) <? Z.b2z (max r)) then -1
  else if (Z.b2z (max r) <? Z.b2z (max l)) then 1
  else if pool l <? pool r then -1
  else if pool r <? pool l then 1
  else if get_bitwise_key l <? get_bitwise_key r then -1
  else if get_bitwise_key r <? get_bitwise_key l then 1
  else if string_lt (nspace l) (nspace r) then -1
  else if string_lt (nspace r) (nspace l) then 1
  else if negb (key_empty l && key_empty r) && string_lt (get_effective_key l) (get_effective_key r) then -1
  else if negb (key_empty l && key_empty r) && string_lt (get_effective_key r) (get_effective_key l) then 1
  else if string_lt (oid l) (oid r) then -1
  else if string_lt (oid r) (oid l) then 1
  else if snap l <? snap r then -1
  else if snap r <? snap l then 1
  else 0.

(** [pg_t::contains], [get_hobj_start] and [get_hobj_end]; the pool number of
    a group is converted from [uint64_t]. *)
Definition contains (p : pg_t) (bits : Z) (o : hobject_t) : bool :=
  (m_pool p =? get_logical_pool o) && match_ o bits (m_seed p).

Definition get_hobj_start (p : pg_t) : hobject_t := mk_hobject [] [] 0 (m_seed p) (m_pool p) [].

Definition get_hobj_end (p : pg_t) (pg_num : Z) : option hobject_t :=
  bits ← get_split_bits p pg_num;
  let rev_start := reverse_bits (m_seed p) in
  let rev_end := add64 (Z.lor rev_start (Z.shiftr 0xffffffff bits)) 1 in
  if 0x100000000 <=? rev_end then
    ceph_assert (rev_end =? 0x100000000) ;;
    Some hobject_max
  else Some (mk_hobject [] [] CEPH_NOSNAP (reverse_bits rev_end) (m_pool p) []).

End Hobject.

(** ** The hash of an object name, common/ceph_hash.cc *)
Module StrHash.

Definition add32 (a b : Z) : Z := u32 (a + b).
Definition byte_at (k : list Z) (i : nat) : Z := default 0 (k !! i).

(** The macro [mix] is the macro [crush_hashmix]. *)
Definition mix : Z -> Z -> Z -> Z * Z * Z := crush_hashmix.

Definition word_at (k : list Z) (i : nat) : Z :=
  add32 (add32 (add32 (byte_at k i) (u32 (Z.shiftl (byte_at k (i + 1)) 8)))
    (u32 (Z.shiftl (byte_at k (i + 2)) 16))) (u32 (Z.shiftl (byte_at k (i + 3)) 24)).

(** [while (len >= 12)], by recursion on the bytes left. *)
Fixpoint rjenkins_loop (fuel : nat) (k : list Z) (a b c : Z) : list Z * Z * Z * Z :=
  match fuel with
  | O => (k, a, b, c)
  | S fuel =>
    if (12 <=? length k)%nat then
      let '(a, b, c) := mix (add32 a (word_at k 0)) (add32 b (word_at k 4)) (add32 c (word_at k 8)) in
      rjenkins_loop fuel (drop 12 k) a b c
    else (k, a, b, c)
  end.

(** The [switch] falls through: byte [i] is added when [len > i]. *)
Definition tail_byte (k : list Z) (acc : Z) (i : nat) (sh : Z) : Z :=
  if (i <? length k)%nat then add32 acc (u32 (Z.shiftl (byte_at k i) sh)) else acc.

Definition ceph_str_hash_rjenkins (str : list Z) : Z :=
  let '(k, a, b, c) := rjenkins_loop (length str) str 0x9e3779b9 0x9e3779b9 0 in
  let c := add32 c (u32 (Z.of_nat (length str))) in
  let c := tail_byte k (tail_byte k (tail_byte k c 10 24) 9 16) 8 8 in
  let b := tail_byte k (tail_byte k (tail_byte k (tail_byte k b 7 24) 6 16) 5 8) 4 0 in
  let a := tail_byte k (tail_byte k (tail_byte k (tail_byte k a 3 24) 2 16) 1 8) 0 0 in
  let '(a, b, c) := mix a b c in c.

Definition ceph_str_hash_linux (str : list Z) : Z :=
  foldl (fun hash c => u32 (add32 (add32 hash (Z.shiftl c 4)) (Z.shiftr c 4) * 11)) 0 str.

Definition CEPH_STR_HASH_LINUX : Z := 1.
Definition CEPH_STR_HASH_RJENKINS : Z := 2.

Definition ceph_str_hash (type : Z) (s : list Z) : Z :=
  if type =? CEPH_STR_HASH_LINUX then ceph_str_hash_linux s
  else if type =? CEPH_STR_HASH_RJENKINS then ceph_str_hash_rjenkins s
  else u32 (-1).

(** [pg_pool_t::hash_key]: the namespace, a unit separator and the key. *)
Definition hash_key (pi : pg_pool_t) (key ns : list Z) : Z :=
  match ns with
  | [] => ceph_str_hash (object_hash pi) key
  | _ => ceph_str_hash (object_hash pi) (ns ++ 31 :: key)
  end.

End StrHash.
Module HobjectFacts.
Import Lex Hobject Binning.

(** *** Reversing the bits of a word *)

Lemma testbit_u32 x i : 0 <= i -> Z.testbit (u32 x) i = (i <? 32) && Z.testbit x i.
Proof.
  intros Hi. unfold u32. change two32 with (2 ^ 32). destruct (i <? 32) eqn:E; zbool.
  - rewrite Z.mod_pow2_bits_low by lia. done.
  - rewrite Z.mod_pow2_bits_high by lia. done.
Qed.

Lemma swap_bits v s m i : 0 <= s ->
  Z.testbit (Z.lor (Z.land (Z.shiftr v s) m) (u32 (Z.shiftl (Z.land v m) s))) i =
  (Z.testbit m i && Z.testbit v (i + s)) ||
  ((i <? 32) && (Z.testbit m (i - s) && Z.testbit v (i - s))).
Proof.
  intros Hs. destruct (Z.le_gt_cases 0 i) as [Hi|Hi].
  2: { rewrite (Z.testbit_neg_r m i), (Z.testbit_neg_r m (i - s)), andb_false_r by lia. by apply Z.testbit_neg_r. }
  rewrite Z.lor_spec, testbit_u32, Z.land_spec by done.
  rewrite Z.shiftr_spec, Z.shiftl_spec, Z.land_spec by done.
  by rewrite (andb_comm (Z.testbit m i)), (andb_comm (Z.testbit m (i - s))).
Qed.

Lemma swap_halves v i : 0 <= i ->
  Z.testbit (Z.lor (Z.shiftr v 16) (u32 (Z.shiftl v 16))) i =
  Z.testbit v (i + 16) || ((i <? 32) && Z.testbit v (i - 16)).
Proof.
  intros Hi. rewrite Z.lor_spec, testbit_u32, Z.shiftr_spec, Z.shiftl_spec by done. done.
Qed.

Lemma small_cases (P : Z -> Prop) : Forall P (seqZ 0 32) -> forall i, 0 <= i < 32 -> P i.
Proof. intros H i Hi. rewrite Forall_forall in H. apply H, elem_of_seqZ. lia. Qed.

Lemma testbit_high v i : 0 <= v < two32 -> 32 <= i -> Z.testbit v i = false.
Proof.
  intros Hv Hi. rewrite <- (Z.mod_small v (2 ^ 32)) by (change (2 ^ 32) with two32; lia).
  apply Z.mod_pow2_bits_high. lia.
Qed.

Lemma reverse_bits_spec v i : 0 <= v < two32 -> 0 <= i < 32 ->
  Z.testbit (reverse_bits v) i = Z.testbit v (31 - i).
Proof.
  intros Hv. unfold reverse_bits. destruct (v =? 0) eqn:E; zbool.
  { subst v. intros. by rewrite !Z.bits_0. }
  revert i. apply small_cases.
  cbv zeta. apply Forall_forall. intros i Hi%elem_of_seqZ.
  rewrite swap_halves, !swap_bits by lia. revert i Hi. generalize (Z.testbit v). intros f.
  apply small_cases. repeat constructor; vm_compute; by repeat case_match.
Qed.

Lemma bits_bound x n : 0 <= x -> 0 <= n -> (forall i, n <= i -> Z.testbit x i = false) -> 0 <= x < 2 ^ n.
Proof.
  intros Hx Hn Hi. split; [done|]. replace x with (x mod 2 ^ n); [apply Z.mod_pos_bound, Z.pow_pos_nonneg; lia|].
  apply Z.bits_inj'. intros i Hi'. destruct (Z.lt_ge_cases i n).
  - by rewrite Z.mod_pow2_bits_low by lia.
  - rewrite Z.mod_pow2_bits_high, Hi by lia. done.
Qed.

Lemma lor_range a b : 0 <= a < two32 -> 0 <= b < two32 -> 0 <= Z.lor a b < two32.
Proof.
  intros Ha Hb. change two32 with (2 ^ 32). apply bits_bound; [by apply Z.lor_nonneg; lia|done|].
  intros i Hi. rewrite Z.lor_spec, !testbit_high by lia. done.
Qed.

Lemma u32_range x : 0 <= u32 x < two32.
Proof. apply Z.mod_pos_bound. done. Qed.

Lemma land_range a m : 0 <= m < two32 -> 0 <= Z.land a m < two32.
Proof.
  intros Hm. change two32 with (2 ^ 32). apply bits_bound; [apply Z.land_nonneg; lia|done|].
  intros i Hi. by rewrite Z.land_spec, (testbit_high m), andb_false_r by lia.
Qed.

Lemma reverse_bits_range v : 0 <= v < two32 -> 0 <= reverse_bits v < two32.
Proof.
  intros Hv. unfold reverse_bits. case_match; [done|]. cbv zeta.
  assert (forall x, 0 <= x < two32 -> 0 <= Z.shiftr x 16 < two32) as Hsh.
  { intros x Hx. rewrite Z.shiftr_div_pow2 by done. split; [apply Z.div_pos; lia|].
    apply Z.div_lt_upper_bound; lia. }
  apply lor_range; [apply Hsh|apply u32_range].
  apply lor_range; [apply land_range; done|apply u32_range].
Qed.

Lemma reverse_bits_involutive v : 0 <= v < two32 -> reverse_bits (reverse_bits v) = v.
Proof.
  intros Hv. pose proof (reverse_bits_range v Hv) as Hr. pose proof (reverse_bits_range _ Hr) as Hrr.
  apply Z.bits_inj'. intros i Hi. destruct (Z.lt_ge_cases i 32).
  - rewrite !reverse_bits_spec by lia. f_equal. lia.
  - by rewrite !testbit_high by lia.
Qed.

(** The top [w] bits of the reversed word are the low [w] bits of the word. *)
Lemma reverse_bits_high v s w : 0 <= v < two32 -> 0 <= s < two32 -> 0 <= w <= 32 ->
  reverse_bits v / 2 ^ (32 - w) = reverse_bits s / 2 ^ (32 - w) <-> v mod 2 ^ w = s mod 2 ^ w.
Proof.
  intros Hv Hs Hw. rewrite <- !Z.shiftr_div_pow2 by lia. split; intros E; apply Z.bits_inj'; intros i Hi.
  - destruct (Z.lt_ge_cases i w); [|by rewrite !Z.mod_pow2_bits_high by lia].
    rewrite !Z.mod_pow2_bits_low by lia.
    apply (f_equal (fun x => Z.testbit x (w - 1 - i))) in E.
    rewrite !Z.shiftr_spec, !reverse_bits_spec in E by lia.
    by replace (31 - (w - 1 - i + (32 - w))) with i in E by lia.
  - rewrite !Z.shiftr_spec by lia. pose proof (reverse_bits_range v Hv). pose proof (reverse_bits_range s Hs).
    destruct (Z.lt_ge_cases i w); [|by rewrite !testbit_high by lia].
    rewrite !reverse_bits_spec by lia.
    apply (f_equal (fun x => Z.testbit x (31 - (i + (32 - w))))) in E.
    by rewrite !Z.mod_pow2_bits_low in E by lia.
Qed.

(** A word below [2^w] reverses to a multiple of [2^(32-w)]. *)
Lemma reverse_bits_low s w : 0 <= w <= 32 -> 0 <= s < 2 ^ w -> reverse_bits s mod 2 ^ (32 - w) = 0.
Proof.
  intros Hw Hs. assert (2 ^ w <= 2 ^ 32) by (apply pow2_le; lia).
  apply Z.bits_inj'. intros i Hi. rewrite Z.bits_0.
  destruct (Z.lt_ge_cases i (32 - w)); [|by rewrite Z.mod_pow2_bits_high by lia].
  rewrite Z.mod_pow2_bits_low, reverse_bits_spec by lia.
  rewrite <- (Z.mod_small s (2 ^ w)) by lia. apply Z.mod_pow2_bits_high. lia.
Qed.

(** The reversed words that agree with [s] on [w] low bits are an interval. *)
Lemma reverse_bits_interval v s w : 0 <= v < two32 -> 0 <= w <= 32 -> 0 <= s < 2 ^ w ->
  v mod 2 ^ w = s <-> reverse_bits s <= reverse_bits v < reverse_bits s + 2 ^ (32 - w).
Proof.
  intros Hv Hw Hs. assert (2 ^ w <= 2 ^ 32) by (apply pow2_le; lia).
  rewrite <- (Z.mod_small s (2 ^ w)) at 1 by lia. rewrite <- reverse_bits_high by lia.
  pose proof (reverse_bits_low s w Hw Hs) as Hlow.
  set (q := 2 ^ (32 - w)) in *. assert (0 < q) by (apply Z.pow_pos_nonneg; lia).
  pose proof (Z.div_mod (reverse_bits s) q). pose proof (Z.div_mod (reverse_bits v) q).
  pose proof (Z.mod_pos_bound (reverse_bits v) q). split; intros; nia.
Qed.

Lemma rev_end_eq s w : 0 <= w <= 31 -> 0 <= s < 2 ^ w ->
  add64 (Z.lor (reverse_bits s) (Z.shiftr 0xffffffff w)) 1 = reverse_bits s + 2 ^ (32 - w).
Proof.
  intros Hw Hs. assert (2 ^ w <= 2 ^ 31) by (apply pow2_le; lia).
  pose proof (reverse_bits_low s w ltac:(lia) Hs) as Hlow.
  assert (Z.shiftr 0xffffffff w = 2 ^ (32 - w) - 1) as ->.
  { rewrite Z.shiftr_div_pow2 by lia. symmetry. apply (Z.div_unique_pos _ _ _ (2 ^ w - 1)); [lia|].
    rewrite Z.mul_sub_distr_l, <- Z.pow_add_r by lia. replace (w + (32 - w)) with 32 by lia. lia. }
  set (q := 2 ^ (32 - w)) in *. assert (0 < q <= 2 ^ 32) by (split; [apply Z.pow_pos_nonneg; lia|apply pow2_le; lia]).
  assert (Z.lor (reverse_bits s) (q - 1) = reverse_bits s + (q - 1)) as ->.
  { rewrite <- Z.lxor_lor, <- Z.add_nocarry_lxor; [done|..];
    unfold q; rewrite Z.sub_1_r, <- Z.ones_equiv, Z.land_ones by lia; done. }
  pose proof (reverse_bits_range s ltac:(lia)). rewrite add64_small; lia.
Qed.

(** *** The order of objects *)

#[export] Instance string_total : TotalCmp string_compare.
Proof. exact (lex_total _). Qed.

#[local] Arguments string_compare : simpl never.

(** What [cmp] orders by, most significant first. *)
Definition sort_key (h : hobject_t) : list (list Z) :=
  [[Z.b2z (max h)]; [pool h]; [get_bitwise_key h]; nspace h; get_effective_key h; oid h; [snap h]].

Definition key_compare : list (list Z) -> list (list Z) -> comparison := lex string_compare.

#[export] Instance key_total : TotalCmp key_compare.
Proof. exact (lex_total _). Qed.

Definition sign (c : comparison) : Z := match c with Lt => -1 | Eq => 0 | Gt => 1 end.

Lemma z_test {A} a b (x y z : A) :
  (if a <? b then x else if b <? a then y else z) =
  match Z.compare a b with Lt => x | Gt => y | Eq => z end.
Proof.
  destruct (Z.compare_spec a b) as [->|H|H]; repeat case_match; zbool; done || lia.
Qed.

Lemma string_test {A} a b (x y z : A) :
  (if string_lt a b then x else if string_lt b a then y else z) =
  match string_compare a b with Lt => x | Gt => y | Eq => z end.
Proof. unfold string_lt. rewrite (cmp_flip a b). by destruct (string_compare a b). Qed.

Lemma string_single a b : string_compare [a] [b] = Z.compare a b.
Proof. unfold string_compare. simpl. by destruct (Z.compare a b). Qed.

Lemma key_empty_effective h : key_empty h = true -> get_effective_key h = oid h.
Proof. unfold key_empty, get_effective_key. by destruct (key h). Qed.

(** Comparing effective keys only when one of the keys is set makes no
    difference, since otherwise they are the names compared next. *)
Lemma effective_key_test l r (z : Z) :
  (if negb (key_empty l && key_empty r) && string_lt (get_effective_key l) (get_effective_key r) then -1
   else if negb (key_empty l && key_empty r) && string_lt (get_effective_key r) (get_effective_key l) then 1
   else match string_compare (oid l) (oid r) with Lt => -1 | Gt => 1 | Eq => z end) =
  match string_compare (get_effective_key l) (get_effective_key r) with
  | Lt => -1 | Gt => 1
  | Eq => match string_compare (oid l) (oid r) with Lt => -1 | Gt => 1 | Eq => z end
  end.
Proof.
  destruct (key_empty l && key_empty r) eqn:E; simpl.
  - apply andb_true_iff in E as [El%key_empty_effective Er%key_empty_effective]. rewrite El, Er.
    by destruct (string_compare (oid l) (oid r)).
  - by rewrite string_test.
Qed.

Lemma cmp_key l r : cmp l r = sign (key_compare (sort_key l) (sort_key r)).
Proof.
  unfold cmp. rewrite (z_test (snap l)), (string_test (oid l)), effective_key_test.
  rewrite (string_test (nspace l)), !z_test.
  unfold key_compare, sort_key. simpl. rewrite !string_single.
  repeat (case_match; try done).
Qed.

Lemma sign_lt c : sign c < 0 <-> c = Lt.
Proof. by destruct c. Qed.
Lemma sign_eq c : sign c = 0 <-> c = Eq.
Proof. by destruct c. Qed.

(** The invariant of the class: cached reversed hashes, no redundant key, one
    maximum. *)
Definition hobject_wf (h : hobject_t) : Prop :=
  0 <= hash h < two32 /\ nibblewise_key_cache h = reverse_nibbles (hash h) /\
  hash_reverse_bits h = reverse_bits (hash h) /\ (key h = [] \/ key h <> oid h) /\
  0 <= snap h < two64 /\ (max h = true -> h = hobject_max).

Lemma key_determined l r : hobject_wf l -> hobject_wf r ->
  get_effective_key l = get_effective_key r -> oid l = oid r -> key l = key r.
Proof.
  intros (_ & _ & _ & Hl & _) (_ & _ & _ & Hr & _). unfold get_effective_key.
  destruct (key l) eqn:E1, (key r) eqn:E2; intros Ek Eo; try done; exfalso;
    destruct Hl as [Hl|Hl], Hr as [Hr|Hr]; congruence.
Qed.

Lemma sort_key_inj l r : hobject_wf l -> hobject_wf r -> sort_key l = sort_key r -> l = r.
Proof.
  intros Hl Hr E. assert (get_effective_key l = get_effective_key r -> oid l = oid r -> key l = key r) as Hk
    by by apply key_determined.
  destruct Hl as (Rl & Nl & Cl & _ & _ & Ml), Hr as (Rr & Nr & Cr & _ & _ & Mr).
  unfold sort_key, get_bitwise_key in E.
  destruct (max l) eqn:El, (max r) eqn:Er; try discriminate E.
  - by rewrite Ml, Mr by done.
  - simplify_eq/=. assert (hash l = hash r) as Eh.
    { rewrite <- (reverse_bits_involutive (hash l)), <- (reverse_bits_involutive (hash r)) by done. congruence. }
    destruct l, r; simpl in *; f_equal; try congruence. by apply Hk.
Qed.
End HobjectFacts.
Module PgRange.
Import Lex Hobject HobjectFacts Binning PgFacts.

#[local] Arguments string_compare : simpl never.

Lemma string_nil_le a : string_compare [] a <> Gt.
Proof. by destruct a. Qed.
Lemma string_nil_gt a : a <> [] -> string_compare a [] = Gt.
Proof. by destruct a. Qed.
Lemma effective_key_nonempty o : oid o <> [] -> get_effective_key o <> [].
Proof. unfold get_effective_key. by destruct (key o). Qed.

(** An object compares with the nameless objects that bound a group by its
    bit-reversed hash. *)
Section Bounds.
Context (o : hobject_t) (Hwf : hobject_wf o) (Hmax : max o = false).

Lemma cmp_start p : pool o = m_pool p ->
  cmp (get_hobj_start p) o <= 0 <-> reverse_bits (m_seed p) <= reverse_bits (hash o).
Proof using Hwf Hmax.
  intros Hp. destruct Hwf as (_ & _ & Hc & _ & Hs & _). rewrite cmp_key.
  unfold get_hobj_start, sort_key, key_compare, get_bitwise_key. simpl. rewrite !string_single, Hmax, Hp, Hc. simpl.
  rewrite Z.compare_refl. destruct (Z.compare_spec (reverse_bits (m_seed p)) (reverse_bits (hash o))); simpl; try lia.
  pose proof (string_nil_le (nspace o)). pose proof (string_nil_le (get_effective_key o)).
  pose proof (string_nil_le (oid o)). unfold get_effective_key at 1. simpl.
  do 3 (case_match; simpl; try done; try lia).
  destruct (snap o); simpl; lia.
Qed.

Lemma cmp_end s h pl : oid o <> [] -> pool o = pl ->
  cmp o (mk_hobject [] [] s h pl []) < 0 <-> reverse_bits (hash o) < reverse_bits h.
Proof using Hwf Hmax.
  intros Ho Hp. destruct Hwf as (_ & _ & Hc & _ & Hs & _). rewrite cmp_key.
  unfold sort_key, key_compare, get_bitwise_key. simpl. rewrite !string_single, Hmax, Hp, Hc. simpl.
  rewrite Z.compare_refl. destruct (Z.compare_spec (reverse_bits (hash o)) (reverse_bits h)); simpl; try lia.
  unfold get_effective_key at 2. simpl. rewrite (string_nil_gt (get_effective_key o)) by by apply effective_key_nonempty.
  destruct (string_compare (nspace o) []) eqn:E; simpl; try lia. by destruct (nspace o).
Qed.

Lemma cmp_max : cmp o hobject_max < 0.
Proof using Hmax. unfold cmp. by rewrite Hmax. Qed.
End Bounds.

(** The width of a group, with its seed below [2^width]. *)
Lemma split_bits_width p n : 1 <= n < 2 ^ 30 -> 0 <= m_seed p < n ->
  exists w, get_split_bits p n = Some w /\ 0 <= w <= 30 /\ 0 <= m_seed p < 2 ^ w /\
    forall x, bin n x = m_seed p <-> x mod 2 ^ w = m_seed p.
Proof.
  intros Hn Hs. rewrite get_split_bits_spec by lia.
  destruct (log2_bounds n) as (Hk & Hlo & Hhi); [lia|].
  assert (Z.log2 n < 30) by (apply Z.log2_lt_pow2; lia).
  pose proof (pow2_double _ Hk) as E2.
  assert (n mod 2 ^ Z.log2 n = n - 2 ^ Z.log2 n) as En by (symmetry; apply (Z.mod_unique_pos _ _ 1); lia).
  eexists. split; [done|].
  set (w := if _ <? _ then _ else _).
  assert (0 <= w <= 30 /\ 0 <= m_seed p < 2 ^ w) as [Hw Hsw].
  { unfold w. case_match; zbool; (split; [lia|]); [lia|].
    destruct (Z.lt_ge_cases (m_seed p) (2 ^ Z.log2 n)); [lia|].
    rewrite <- (Z.mod_unique_pos (m_seed p) (2 ^ Z.log2 n) 1 (m_seed p - 2 ^ Z.log2 n)) in H0 by lia. lia. }
  split; [done|]. split; [done|]. intros x. rewrite (bin_width n (m_seed p) x) by lia. fold w.
  by rewrite (Z.mod_small (m_seed p)) by lia.
Qed.

Lemma match_hash_mod v w s : 0 <= w <= 31 -> 0 <= s < 2 ^ w ->
  match_hash v w s = true <-> v mod 2 ^ w = s.
Proof.
  intros Hw Hs. unfold match_hash. rewrite low_mask, u32_small.
  - rewrite !land_mask, (Z.mod_small s) by lia. rewrite Z.eqb_eq. done.
  - assert (2 ^ w <= 2 ^ 31) by (apply pow2_le; lia). lia.
  - lia.
Qed.

(** Setting the bits above the width of a group does not change the group. *)
Lemma ldiff_lor_mod r w s : 0 <= w -> 0 <= s < 2 ^ w -> Z.lor (Z.ldiff r (2 ^ w - 1)) s mod 2 ^ w = s.
Proof.
  intros Hw Hs. rewrite Z.sub_1_r, <- Z.ones_equiv, <- Z.land_ones, Z.land_lor_distr_l by done.
  replace (Z.land (Z.ldiff r (Z.ones w)) (Z.ones w)) with 0; [|symmetry].
  - rewrite Z.land_ones, Z.mod_small by lia. done.
  - apply Z.bits_inj'. intros i Hi. rewrite Z.land_spec, Z.ldiff_spec, Z.bits_0.
    destruct (Z.testbit (Z.ones w) i); by rewrite ?andb_false_r.
Qed.

(** The masks of a pool: the divisor is the size of the group's hash class. *)
Lemma pool_mask_width pi p (w := if m_seed p mod 2 ^ Z.log2 (pg_num pi) <? pg_num pi mod 2 ^ Z.log2 (pg_num pi)
                                 then Z.log2 (pg_num pi) + 1 else Z.log2 (pg_num pi)) :
  1 <= pg_num pi < 2 ^ 30 ->
  get_pg_num_divisor (calc_pg_masks pi) p = 2 ^ w /\
  (if pg_num pi =? u32 (pg_num_mask (calc_pg_masks pi) + 1) then pg_num_mask (calc_pg_masks pi)
   else if Z.land (m_seed p) (Z.shiftr (pg_num_mask (calc_pg_masks pi)) 1) <?
           Z.land (pg_num pi) (Z.shiftr (pg_num_mask (calc_pg_masks pi)) 1)
        then pg_num_mask (calc_pg_masks pi)
        else Z.shiftr (pg_num_mask (calc_pg_masks pi)) 1) = 2 ^ w - 1.
Proof.
  intros Hn. unfold get_pg_num_divisor. simpl. destruct (log2_bounds (pg_num pi)) as (Hk & Hlo & Hhi); [lia|].
  set (n := pg_num pi) in *. set (k := Z.log2 n) in *. pose proof (pow2_double _ Hk) as E2.
  assert (k < 30) by (apply Z.log2_lt_pow2; lia).
  assert (n mod 2 ^ k = n - 2 ^ k) as En by (symmetry; apply (Z.mod_unique_pos _ _ 1); lia).
  pose proof (Z.mod_pos_bound (m_seed p) (2 ^ k) ltac:(lia)).
  assert (2 ^ (k + 1) <= 2 ^ 30) by (apply pow2_le; lia).
  rewrite (u32_small (n - 1)), Z.shiftl_1_l by lia.
  destruct (decide (n = 2 ^ k)) as [E|].
  - rewrite cbits_pred_pow2 by (done || lia). fold k. rewrite (i32_small (2 ^ _)), (u32_small (2 ^ _ - 1)) by lia.
    rewrite Z.sub_add, u32_small by lia. rewrite (proj2 (Z.eqb_eq n (2 ^ k))) by done.
    unfold w. rewrite (proj2 (Z.ltb_ge _ _)) by lia. lia.
  - rewrite cbits_pred by (done || lia). fold k. rewrite (i32_small (2 ^ _)), (u32_small (2 ^ _ - 1)) by lia.
    rewrite Z.sub_add, u32_small by lia. rewrite (proj2 (Z.eqb_neq n (2 ^ (k + 1)))) by lia.
    rewrite shiftr_mask, !land_mask by done. unfold w. rewrite Z.shiftr_div_pow2, E2 by done.
    case_match; [lia|]. rewrite Z.mul_comm, Z.div_mul by done. lia.
Qed.

End PgRange.
Module HobjectTheorems.
Import Lex Hobject HobjectFacts Binning PgFacts PgRange PgTheorems.

(** A head object named "a" in pool 7. *)
Definition obj (h : Z) : hobject_t := mk_hobject [97] [] CEPH_NOSNAP h 7 [].

Lemma obj_wf h : 0 <= h < two32 -> hobject_wf (obj h).
Proof. intros Hh. repeat split; simpl; try done; try lia. by left. Qed.

(** [cmp] is a total order on well-formed objects: it is antisymmetric and
    transitive, two objects compare equal only when they are the same object,
    and [get_max] is above every other object. *)
Theorem cmp_total_order a b c :
  hobject_wf a -> hobject_wf b -> hobject_wf c ->
  cmp b a = - cmp a b /\
  (cmp a b = 0 <-> a = b) /\
  (cmp a b < 0 -> cmp b c < 0 -> cmp a c < 0) /\
  (a <> hobject_max -> cmp a hobject_max < 0).
Proof.
  intros Ha Hb Hc. rewrite !cmp_key. rewrite (cmp_flip (d := key_compare) (sort_key a)).
  rewrite !sign_lt, sign_eq, cmp_eq. split; [by destruct (key_compare _ _)|].
  split; [split; [by apply sort_key_inj|by intros ->]|]. split; [apply cmp_lt_trans|].
  intros Hne. destruct (max a) eqn:E; [by destruct Ha as (_ & _ & _ & _ & _ & Hm); destruct Hne; apply Hm|].
  rewrite <- sign_lt, <- cmp_key. by apply cmp_max.
Qed.

Lemma cmp_total_order_witness : cmp (obj 1) (obj 2) = - cmp (obj 2) (obj 1) /\ cmp (obj 2) (obj 1) < 0.
Proof.
  split; [|vm_compute; reflexivity].
  apply (cmp_total_order (obj 2) (obj 1) (obj 1)); apply obj_wf; lia.
Defined.

(** The class invariant.  The constructor, [set_key], [set_hash] and
    [set_bitwise_key_u32] keep the cached reversed hashes equal to what
    [build_hash_cache] computes and never leave a key equal to the name;
    writing the bitwise key and reading it back returns what was written. *)
Theorem setters_keep_invariant h k value :
  hobject_wf h -> max h = false -> 0 <= value < two32 ->
  hobject_wf (set_key k h) /\ hobject_wf (set_hash value h) /\
  hobject_wf (set_bitwise_key_u32 value h) /\
  hobject_wf (mk_hobject (oid h) k (snap h) value (pool h) (nspace h)) /\
  get_bitwise_key (set_bitwise_key_u32 value h) = value /\
  hash (set_bitwise_key_u32 (get_bitwise_key h) h) = hash h.
Proof.
  intros (H1 & H2 & H3 & H4 & H5 & H6) Hm Hv. pose proof (reverse_bits_range value Hv).
  assert (forall a b, (if string_eq a b then [] else b) = [] \/ (if string_eq a b then [] else b) <> a) as Hk.
  { intros a b. unfold string_eq. destruct (string_compare a b) eqn:E; [by left|right|right]; intros ->;
    by rewrite (cmp_refl (d := string_compare)) in E. }
  unfold get_bitwise_key. simpl. rewrite Hm.
  split_and!; try done; simpl; unfold hobject_wf; simpl.
  - split_and!; try done; try lia; [|congruence]. specialize (Hk k (oid h)).
    unfold string_eq in *. destruct (string_compare k (oid h)) eqn:E; [by left|right|right]; intros ->;
    by rewrite (cmp_refl (d := string_compare)) in E.
  - split_and!; try done; try lia. congruence.
  - split_and!; try done; try lia; [|congruence]. by rewrite reverse_bits_involutive.
  - split_and!; try done; lia.
  - rewrite H3. by apply reverse_bits_involutive.
Qed.

Lemma setters_keep_invariant_witness : get_bitwise_key (set_bitwise_key_u32 77 (obj 5)) = 77.
Proof. apply (setters_keep_invariant (obj 5) [98] 77); [apply obj_wf; lia|reflexivity|lia]. Defined.

(** C38: A placement group is one interval of the object order.  For a group
    of a pool of [n] groups, [get_split_bits] returns a width such that a named
    object of the pool hashes to the group exactly when [contains] holds, and
    exactly when it lies between [get_hobj_start] (included) and
    [get_hobj_end] (excluded); the assertion of [get_hobj_end] never fails. *)
Theorem pg_is_interval pi p o :
  1 <= pg_num pi < 2 ^ 30 -> 0 <= m_seed p < pg_num pi -> 0 <= m_pool p ->
  hobject_wf o -> max o = false -> pool o = m_pool p -> oid o <> [] ->
  exists bits hend,
    get_split_bits p (pg_num pi) = Some bits /\ get_hobj_end p (pg_num pi) = Some hend /\
    (raw_hash_to_pg (calc_pg_masks pi) (hash o) = m_seed p <-> contains p bits o = true) /\
    (contains p bits o = true <-> cmp (get_hobj_start p) o <= 0 /\ cmp o hend < 0).
Proof.
  intros Hn Hs Hpool Hwf Hmax Hp Ho. pose proof Hwf as (Hh & _ & Hc & _).
  destruct (split_bits_width p (pg_num pi) Hn Hs) as (w & Ew & Hw & Hsw & Hbin).
  assert (contains p w o = true <-> hash o mod 2 ^ w = m_seed p) as Hcon.
  { unfold contains, get_logical_pool, is_temp_pool, POOL_TEMP_START, match_.
    rewrite Hp, (proj2 (Z.leb_gt _ _)), Z.eqb_refl by lia. simpl. apply match_hash_mod; lia. }
  unfold get_hobj_end. rewrite Ew. simpl. rewrite rev_end_eq by lia.
  assert (raw_hash_to_pg (calc_pg_masks pi) (hash o) = m_seed p <-> contains p w o = true) as Hraw
    by by rewrite raw_hash_to_pg_bin, Hbin, Hcon.
  pose proof (reverse_bits_interval (hash o) (m_seed p) w ltac:(lia) ltac:(lia) Hsw) as Hint.
  set (e := reverse_bits (m_seed p) + 2 ^ (32 - w)) in *.
  assert (0 <= e <= two32) as He.
  { assert (2 ^ w <= 2 ^ 30) by (apply pow2_le; lia).
    pose proof (reverse_bits_range (m_seed p) ltac:(lia)). pose proof (reverse_bits_low (m_seed p) w ltac:(lia) Hsw) as Hl.
    assert (two32 = 2 ^ w * 2 ^ (32 - w)) as E32 by (rewrite <- Z.pow_add_r by lia; change two32 with (2 ^ 32); f_equal; lia).
    assert (0 < 2 ^ (32 - w)) by (apply Z.pow_pos_nonneg; lia).
    pose proof (Z.div_mod (reverse_bits (m_seed p)) (2 ^ (32 - w))). unfold e. split; [lia|].
    assert (reverse_bits (m_seed p) / 2 ^ (32 - w) < 2 ^ w) by nia. nia. }
  pose proof (reverse_bits_range _ Hh).
  destruct (0x100000000 <=? e) eqn:E; zbool.
  - rewrite (proj2 (Z.eqb_eq _ _)) by lia. exists w, hobject_max. split; [done|]. split; [done|]. split; [done|].
    rewrite Hcon, cmp_start, Hint by done. pose proof (cmp_max o Hmax). lia.
  - exists w. eexists. split; [done|]. split; [done|]. split; [done|].
    rewrite Hcon, cmp_start, cmp_end, Hint by done. rewrite (reverse_bits_involutive e) by lia. done.
Qed.

Lemma pg_is_interval_witness :
  contains (mk_pg 7 5) 3 (obj 4242424245) = true /\
  exists hend, get_hobj_end (mk_pg 7 5) 12 = Some hend /\ cmp (obj 4242424245) hend < 0.
Proof.
  destruct (pg_is_interval (pool_of 12) (mk_pg 7 5) (obj 4242424245)) as (b & e & Hb & He & H1 & H2);
    try (simpl; lia); try done; [apply obj_wf; lia|].
  vm_compute in Hb. injection Hb as <-. split; [reflexivity|].
  exists e. split; [exact He|]. apply H2. reflexivity.
Defined.

(** The hash class of a group.  [get_pg_num_divisor] is the number of
    equal parts of the hash space the group is one of, [2^get_split_bits], and
    [get_random_pg_position] returns a position that belongs to the group,
    whatever the seed. *)
Theorem pg_fraction pi p seed :
  1 <= pg_num pi < 2 ^ 30 -> 0 <= m_seed p < pg_num pi ->
  exists bits, get_split_bits p (pg_num pi) = Some bits /\
    get_pg_num_divisor (calc_pg_masks pi) p = 2 ^ bits /\
    raw_hash_to_pg (calc_pg_masks pi) (get_random_pg_position (calc_pg_masks pi) p seed) = m_seed p.
Proof.
  intros Hn Hs. destruct (split_bits_width p (pg_num pi) Hn Hs) as (w & Ew & Hw & Hsw & Hbin).
  exists w. split; [done|]. destruct (pool_mask_width pi p Hn) as [Hd Hm].
  rewrite get_split_bits_spec in Ew by lia. injection Ew as Ew. rewrite Ew in Hd, Hm. split; [done|].
  assert (exists r, get_random_pg_position (calc_pg_masks pi) p seed = Z.lor (Z.ldiff r (2 ^ w - 1)) (m_seed p))
    as [r ->].
  { exists (crush_hash32_2 CRUSH_HASH_RJENKINS1 seed 123). rewrite <- Hm. unfold get_random_pg_position.
    change (pg_num (calc_pg_masks pi)) with (pg_num pi). by repeat case_match. }
  rewrite raw_hash_to_pg_bin, Hbin by done. apply ldiff_lor_mod; lia.
Qed.

Lemma pg_fraction_witness :
  raw_hash_to_pg (pool_of 12) (get_random_pg_position (pool_of 12) (mk_pg 7 5) 99) = 5.
Proof. destruct (pg_fraction (pool_of 12) (mk_pg 7 5) 99) as (b & _ & _ & H); [simpl; lia..|exact H]. Defined.

(** The comment on [get_split_bits] asks that the low bits of the hash are
    zero; hash 1 belongs to group 1 of 2, of width 1. *)
Example split_bits_comment :
  get_split_bits (mk_pg 7 1) 2 = Some 1 /\ raw_hash_to_pg (pool_of 2) 1 = 1 /\
  Z.land (Z.lnot (Z.shiftl (-1) 1)) 1 <> 0.
Proof. split; [reflexivity|]. split; [reflexivity|]. discriminate. Qed.

End HobjectTheorems.
