(* ===== verification/OrderedMap.v ===== *)
(** [std::map] and [std::set]: finite maps and sets kept in the order of their
    keys, with the operations and the iterators the code uses.  A map is the
    list of its entries in order, a set the list of its elements; an iterator
    is what is left of the list from its position on, [end()] the empty list. *)
From S2P Require Import Prelude Hobject.
Import Lex.

(** A key type with its order, [std::less]. *)
Class Ordered (K : Type) := {
  compare : K -> K -> comparison;
  compare_total :: TotalCmp compare
}.
#[export] Instance Z_ordered : Ordered Z := {| compare := Z.compare |}.
#[export] Instance string_ordered : Ordered (list Z) := {| compare := Hobject.string_compare |}.

Module OrdMap.
Section Ops.
Context {K : Type} `{!Ordered K} {V : Type}.
Implicit Types (k : K) (m : list (K * V)).

Definition klt (k k' : K) : Prop := compare k k' = Lt.

Fixpoint find k m : option V :=
  match m with
  | [] => None
  | (k', v) :: m => match compare k k' with Eq => Some v | _ => find k m end
  end.
(** [m[k] = v]. *)
Fixpoint set k (v : V) m : list (K * V) :=
  match m with
  | [] => [(k, v)]
  | (k', v') :: m' =>
      match compare k k' with
      | Lt => (k, v) :: m
      | Eq => (k, v) :: m'
      | Gt => (k', v') :: set k v m'
      end
  end.
(** [m.insert(make_pair(k, v))]: an entry that exists stays. *)
Definition insert k (v : V) m : list (K * V) :=
  match find k m with Some _ => m | None => set k v m end.
Fixpoint erase k m : list (K * V) :=
  match m with
  | [] => []
  | (k', v) :: m => match compare k k' with Eq => m | _ => (k', v) :: erase k m end
  end.
(** The iterator at the first key after [k], and at the first key not before [k]. *)
Fixpoint upper_bound k m : list (K * V) :=
  match m with
  | [] => []
  | (k', v) :: m' => match compare k k' with Lt => m | _ => upper_bound k m' end
  end.
Fixpoint lower_bound k m : list (K * V) :=
  match m with
  | [] => []
  | (k', v) :: m' => match compare k' k with Lt => lower_bound k m' | _ => m end
  end.

(** Sets. *)
Fixpoint sinsert k (s : list K) : list K :=
  match s with
  | [] => [k]
  | k' :: s' =>
      match compare k k' with
      | Lt => k :: s
      | Eq => s
      | Gt => k' :: sinsert k s'
      end
  end.

(** *** Order *)

Definition sorted m : Prop := StronglySorted (fun a b => klt a.1 b.1) m.
Definition ssorted (s : list K) : Prop := StronglySorted klt s.

#[global] Instance klt_trans : Transitive klt.
Proof. intros x y z. apply cmp_lt_trans. Qed.
#[global] Instance klt_irrefl : Irreflexive klt.
Proof. intros x. unfold complement, klt. by rewrite cmp_refl. Qed.
Lemma compare_spec k k' :
  (compare k k' = Lt /\ klt k k') \/ (compare k k' = Eq /\ k = k') \/ (compare k k' = Gt /\ klt k' k).
Proof.
  unfold klt. pose proof (cmp_eq (d := compare) k k'). pose proof (cmp_flip (d := compare) k k') as ->.
  destruct (compare k k'); naive_solver.
Qed.
Lemma klt_not_self k : ~ klt k k.
Proof. apply (irreflexivity klt). Qed.
Lemma klt_asym k k' : klt k k' -> ~ klt k' k.
Proof. intros H1 H2. apply (irreflexivity klt k). by trans k'. Qed.
End Ops.

(** Case analysis on the comparison the code makes. *)
Ltac cmp_cases :=
  repeat match goal with
  | |- context [match compare ?a ?b with _ => _ end] =>
      let E := fresh "E" in let H := fresh "H" in
      destruct (compare_spec a b) as [[E H]|[[E H]|[E H]]]; rewrite ?E; subst
  end.

Section Facts.
Context {K : Type} `{!Ordered K, !EqDecision K} {V : Type}.
Implicit Types (k : K) (m : list (K * V)).

Lemma sorted_inv kv m : sorted (kv :: m) -> sorted m /\ forall k v, find k m = Some v -> klt kv.1 k.
Proof.
  intros [Hs Hf]%StronglySorted_inv. split; [done|]. clear Hs. revert Hf.
  induction m as [|[k' v'] m IH]; simpl; intros Hf k v; [done|]. apply Forall_cons in Hf as [H1 H2].
  cmp_cases; eauto.
Qed.

Lemma find_head k v m : find k ((k, v) :: m) = Some v.
Proof. simpl. by rewrite cmp_refl. Qed.

Lemma find_entry k v m : sorted m -> find k m = Some v <-> (k, v) ∈ m.
Proof.
  induction m as [|[k' v'] m IH]; intros Hs; simpl; [set_solver|].
  pose proof (sorted_inv _ _ Hs) as [Hs' Hlt]. rewrite elem_of_cons, <- (IH Hs').
  cmp_cases; simpl in *.
  - split; [naive_solver|]. intros [?|?]; [|done]. simplify_eq. by apply klt_not_self in H.
  - split; [naive_solver|]. intros [?|Hf]; [by simplify_eq|]. apply Hlt in Hf. by apply klt_not_self in Hf.
  - split; [naive_solver|]. intros [?|?]; [|done]. simplify_eq. by apply klt_not_self in H.
Qed.

Lemma find_set k v m k' : find k' (set k v m) = if decide (k' = k) then Some v else find k' m.
Proof.
  induction m as [|[k1 v1] m IH]; simpl.
  { cmp_cases; repeat case_decide; subst; try done; by apply klt_not_self in H. }
  cmp_cases; simpl; cmp_cases; try rewrite IH; repeat case_decide; subst; try done;
    try (exfalso; by eapply klt_not_self); exfalso; by eapply klt_asym.
Qed.

Lemma find_insert k v m k' :
  find k' (insert k v m) = match find k' m with Some v' => Some v' | None => if decide (k' = k) then Some v else None end.
Proof.
  unfold insert. destruct (find k m) eqn:E; [|rewrite find_set]; case_decide; subst; rewrite ?E; try done;
    by destruct (find k' m).
Qed.

Lemma find_erase k m k' : sorted m -> find k' (erase k m) = if decide (k' = k) then None else find k' m.
Proof.
  induction m as [|[k1 v1] m IH]; simpl; intros Hs; [by case_decide|].
  pose proof (sorted_inv _ _ Hs) as [Hs' Hlt]. specialize (IH Hs').
  cmp_cases; simpl; cmp_cases; try rewrite IH; repeat case_decide; subst; try done;
    try (exfalso; by eapply klt_not_self).
  - destruct (find k1 m) eqn:E'; [|done]. apply Hlt in E'. simpl in E'. exfalso; by eapply klt_not_self.
Qed.

Lemma sorted_alt m : sorted m <-> StronglySorted klt m.*1.
Proof.
  unfold sorted. induction m as [|kv m IH]; simpl.
  { split; constructor. }
  split; intros [H1 H2]%StronglySorted_inv; constructor; try (by apply IH).
  - rewrite Forall_fmap. done.
  - by rewrite Forall_fmap in H2.
Qed.

Lemma Forall_set (P : K * V -> Prop) k v m : P (k, v) -> Forall P m -> Forall P (set k v m).
Proof.
  intros Hp. induction 1 as [|[k1 v1] m H1 Hf IH]; simpl; [by constructor|].
  cmp_cases; repeat (constructor; try done).
Qed.
Lemma Forall_erase (P : K * V -> Prop) k m : Forall P m -> Forall P (erase k m).
Proof.
  induction 1 as [|[k1 v1] m H1 Hf IH]; simpl; [by constructor|].
  cmp_cases; try done; by constructor.
Qed.

Lemma sorted_set k v m : sorted m -> sorted (set k v m).
Proof.
  unfold sorted. induction m as [|[k1 v1] m IH]; simpl; intros Hs; [by repeat constructor|].
  apply StronglySorted_inv in Hs as [H1 H2]. cmp_cases.
  - constructor; [by constructor|]. constructor; [done|]. eapply Forall_impl; [exact H2|].
    intros x Hx. simpl in *. by trans k1.
  - by constructor.
  - constructor; [by apply IH|]. by apply Forall_set.
Qed.
Lemma sorted_minsert k v m : sorted m -> sorted (insert k v m).
Proof. intros. unfold insert. case_match; [done|by apply sorted_set]. Qed.
Lemma sorted_erase k m : sorted m -> sorted (erase k m).
Proof.
  unfold sorted. induction m as [|[k1 v1] m IH]; simpl; intros Hs; [done|].
  apply StronglySorted_inv in Hs as [H1 H2]. cmp_cases; try done; constructor; auto; by apply Forall_erase.
Qed.

(** Sorted maps are determined by what they hold. *)
Lemma omap_ext m1 m2 : sorted m1 -> sorted m2 -> (forall k, find k m1 = find k m2) -> m1 = m2.
Proof.
  revert m2. induction m1 as [|[k1 v1] m1 IH]; intros [|[k2 v2] m2] H1 H2 Hf; [done|..].
  - specialize (Hf k2). simpl in Hf. by rewrite cmp_refl in Hf.
  - specialize (Hf k1). simpl in Hf. by rewrite cmp_refl in Hf.
  - pose proof (sorted_inv _ _ H1) as [Hs1 L1]. pose proof (sorted_inv _ _ H2) as [Hs2 L2]. simpl in *.
    assert (k1 = k2) as ->.
    { pose proof (Hf k1) as F1. pose proof (Hf k2) as F2. simpl in F1, F2. rewrite cmp_refl in F1, F2.
      destruct (compare_spec k1 k2) as [[E L]|[[E L]|[E L]]]; [|done|].
      - rewrite E in F1. symmetry in F1. apply L2 in F1. exfalso. by eapply klt_asym.
      - rewrite (cmp_flip k1 k2), E in F2. simpl in F2. apply L1 in F2. exfalso. by eapply klt_asym. }
    assert (v1 = v2) as ->. { specialize (Hf k2). simpl in Hf. rewrite !cmp_refl in Hf. congruence. }
    f_equal. apply IH; try done. intros k. specialize (Hf k). simpl in Hf.
    destruct (compare_spec k k2) as [[E L]|[[E L]|[E L]]]; rewrite E in Hf; try done. subst.
    destruct (find k2 m1) eqn:E1; [apply L1 in E1; exfalso; by eapply klt_not_self|].
    destruct (find k2 m2) eqn:E2; [apply L2 in E2; exfalso; by eapply klt_not_self|]. done.
Qed.

(** *** Iterators *)

Lemma upper_bound_suffix k m : exists l, m = l ++ upper_bound k m /\ Forall (fun kv => ~ klt k kv.1) l.
Proof.
  induction m as [|[k1 v1] m (l & E & Hl)]; simpl; [by exists []|]. cmp_cases.
  - by exists [].
  - exists ((k1, v1) :: l). rewrite E at 1. split; [done|]. constructor; [by apply klt_not_self|done].
  - exists ((k1, v1) :: l). rewrite E at 1. split; [done|]. constructor; [by apply klt_asym|done].
Qed.

Lemma sorted_app_r l m : sorted (l ++ m) -> sorted m.
Proof. induction l as [|kv l IH]; [done|]. simpl. intros [H _]%StronglySorted_inv. auto. Qed.
Lemma sorted_upper_bound k m : sorted m -> sorted (upper_bound k m).
Proof. destruct (upper_bound_suffix k m) as (l & E & _). rewrite E at 1. apply sorted_app_r. Qed.

Lemma elem_upper_bound k m kv : sorted m -> kv ∈ upper_bound k m <-> kv ∈ m /\ klt k kv.1.
Proof.
  induction m as [|[k1 v1] m IH]; intros Hs; simpl; [set_solver|].
  apply StronglySorted_inv in Hs as [H1 H2]. specialize (IH H1). rewrite Forall_forall in H2. cmp_cases.
  - split; [|naive_solver]. intros Hkv. split; [done|]. apply elem_of_cons in Hkv as [->|Hkv]; [done|].
    etrans; [done|]. by apply H2.
  - rewrite IH, elem_of_cons. split; [naive_solver|]. intros [[->|?] L]; [by apply klt_not_self in L|done].
  - rewrite IH, elem_of_cons. split; [naive_solver|]. intros [[->|?] L]; [by apply klt_asym in L|done].
Qed.

(** The entry an iterator at the upper bound points to. *)
Lemma upper_bound_head k m k' v l : sorted m -> upper_bound k m = (k', v) :: l ->
  find k' m = Some v /\ klt k k' /\ forall k2 v2, find k2 m = Some v2 -> klt k k2 -> k2 = k' \/ klt k' k2.
Proof.
  intros Hs E. pose proof (sorted_upper_bound k m Hs) as Hu. rewrite E in Hu.
  assert ((k', v) ∈ upper_bound k m) as [Hm L]%elem_upper_bound by (rewrite E; by left); [|done].
  split_and!; [by apply find_entry|done|]. intros k2 v2 F%find_entry L2; [|done].
  assert ((k2, v2) ∈ upper_bound k m) as Hin by by apply elem_upper_bound.
  rewrite E in Hin. apply elem_of_cons in Hin as [?|Hin]; [left; congruence|right].
  apply StronglySorted_inv in Hu as [_ Hf]. rewrite Forall_forall in Hf. by apply (Hf _ Hin).
Qed.
Lemma upper_bound_nil k m : sorted m -> upper_bound k m = [] -> forall k2 v2, find k2 m = Some v2 -> ~ klt k k2.
Proof.
  intros Hs E k2 v2 F%find_entry L; [|done].
  assert ((k2, v2) ∈ upper_bound k m) as Hin by by apply elem_upper_bound. rewrite E in Hin. set_solver.
Qed.

(** The iterator after the entry an upper bound points to. *)
Lemma upper_bound_next k m k' c l : sorted m -> upper_bound k m = (k', c) :: l ->
  upper_bound k' m = l.
Proof.
  induction m as [|[k1 c1] r IH]; intros Hr; simpl; [done|]. pose proof (sorted_inv _ _ Hr) as [Hr' Hlt].
  destruct (compare_spec k k1) as [[-> H]|[[-> <-]|[-> H]]]; intros Eu.
  - injection Eu as -> -> ->. rewrite cmp_refl.
    destruct l as [|[k2 c2] l]; [done|]. simpl. assert (klt k' k2) as L by (apply (Hlt k2 c2); simpl; by rewrite cmp_refl).
    unfold klt in L. by rewrite L.
  - assert (klt k k') as L.
    { assert ((k', c) ∈ upper_bound k r) as Hin by (rewrite Eu; by left). apply elem_upper_bound in Hin as [_ ?]; done. }
    rewrite (cmp_flip k k'), L. simpl. by apply IH.
  - assert (klt k1 k') as L.
    { assert ((k', c) ∈ upper_bound k r) as Hin by (rewrite Eu; by left). apply elem_upper_bound in Hin as [Hin _]; [|done].
      apply find_entry in Hin; [|done]. by eapply Hlt. }
    rewrite (cmp_flip k1 k'), L. simpl. by apply IH.
Qed.

Lemma elem_lower_bound k m kv : sorted m -> kv ∈ lower_bound k m <-> kv ∈ m /\ ~ klt kv.1 k.
Proof.
  induction m as [|[k1 v1] m IH]; intros Hs; simpl; [set_solver|].
  apply StronglySorted_inv in Hs as [H1 H2]. specialize (IH H1). rewrite Forall_forall in H2. cmp_cases.
  - rewrite IH, elem_of_cons. split; [naive_solver|]. intros [[->|?] L]; [done|done].
  - split; [|naive_solver]. intros Hkv. split; [done|]. apply elem_of_cons in Hkv as [->|Hkv].
    + by apply klt_not_self.
    + apply klt_asym. by apply H2.
  - split; [|naive_solver]. intros Hkv. split; [done|]. apply elem_of_cons in Hkv as [->|Hkv].
    + by apply klt_asym.
    + apply klt_asym. etrans; [done|]. by apply H2.
Qed.
Lemma sorted_lower_bound k m : sorted m -> sorted (lower_bound k m).
Proof.
  induction m as [|[k1 v1] m IH]; simpl; intros Hs; [done|].
  pose proof Hs as [H1 _]%StronglySorted_inv. cmp_cases; auto.
Qed.

(** The entry an iterator at the lower bound points to. *)
Lemma lower_bound_head k m kv l : sorted m -> lower_bound k m = kv :: l ->
  kv ∈ m /\ ~ klt kv.1 k /\ forall kv2, kv2 ∈ m -> ~ klt kv2.1 k -> kv2 = kv \/ klt kv.1 kv2.1.
Proof.
  intros Hs E. pose proof (sorted_lower_bound k m Hs) as Hu. rewrite E in Hu.
  assert (kv ∈ lower_bound k m) as [Hm L]%elem_lower_bound by (rewrite E; by left); [|done].
  split_and!; [done|done|]. intros kv2 Hin L2. assert (kv2 ∈ lower_bound k m) as Hin2 by by apply elem_lower_bound.
  rewrite E in Hin2. apply elem_of_cons in Hin2 as [?|Hin2]; [by left|right].
  apply StronglySorted_inv in Hu as [_ Hf]. rewrite Forall_forall in Hf. by apply (Hf _ Hin2).
Qed.

(** *** Sets *)

Lemma elem_sinsert k s x : x ∈ sinsert k s <-> x = k \/ x ∈ s.
Proof. induction s as [|k1 s IH]; simpl; [set_solver|]. cmp_cases; set_solver. Qed.
Lemma ssorted_sinsert k s : ssorted s -> ssorted (sinsert k s).
Proof.
  unfold ssorted. induction s as [|k1 s IH]; simpl; intros Hs; [by repeat constructor|].
  pose proof Hs as [H1 H2]%StronglySorted_inv. cmp_cases; [|done|].
  - constructor; [done|]. constructor; [done|]. eapply Forall_impl; [exact H2|]. intros x Hx. by trans k1.
  - constructor; [by apply IH|]. rewrite Forall_forall in H2 |- *. intros x [->|Hx]%elem_sinsert; [done|]. by apply H2.
Qed.
Lemma ssorted_nodup (s : list K) : ssorted s -> NoDup s.
Proof.
  unfold ssorted. induction 1 as [|k s Hs IH Hf]; constructor; [|done]. intros Hin.
  rewrite Forall_forall in Hf. by apply Hf, klt_not_self in Hin.
Qed.
Lemma set_ext (s1 s2 : list K) : ssorted s1 -> ssorted s2 -> (forall x, x ∈ s1 <-> x ∈ s2) -> s1 = s2.
Proof.
  intros H1 H2 He. apply (StronglySorted_unique_strong klt); try done.
  - intros x y _ _ L1 L2. exfalso. by eapply klt_asym.
  - apply NoDup_Permutation; [by apply ssorted_nodup|by apply ssorted_nodup|done].
Qed.
End Facts.
#[global] Hint Resolve sorted_set sorted_minsert sorted_erase ssorted_sinsert : ceph.
End OrdMap.
