(* ===== verification/Encoding.v ===== *)
(** The byte encodings of include/encoding.h that the object-name and snapshot
    records use: little-endian integers, strings, sets, versioned blocks
    ([ENCODE_START] .. [ENCODE_FINISH] and the [DECODE_] macros), and the
    records themselves: [hobject_t] of common/hobject.cc and the values of
    osd/SnapMapper.  A byte is an integer of [0 .. 255], a buffer a list of
    bytes, and decoding takes a prefix of the buffer; [None] is the exception a
    malformed buffer raises (or a failed assertion). *)
From S2P Require Import Prelude Pg Hobject OrderedMap.
Import Hobject Bits.

Module Encoding.

Definition buffer : Type := list Z.
Definition decoder (A : Type) : Type := buffer -> option (A * buffer).

#[global] Instance decoder_ret : MRet decoder := fun A a l => Some (a, l).
#[global] Instance decoder_bind : MBind decoder := fun A B k m l =>
  match m l with Some (a, l) => k a l | None => None end.
Definition throw {A} : decoder A := fun _ => None.
Definition get_remaining : decoder nat := fun l => Some (length l, l).

(** *** Integers, [encode_raw] and [decode_raw] of the little-endian types *)

Fixpoint le_bytes (n : nat) (v : Z) : buffer :=
  match n with O => [] | S n => v mod 256 :: le_bytes n (v / 256) end.
Fixpoint of_le (l : buffer) : Z :=
  match l with [] => 0 | b :: l => b + 256 * of_le l end.

(** [p.copy(n, ..)]: [end_of_buffer] when fewer bytes are left. *)
Definition copy (n : nat) : decoder buffer := fun l =>
  if (n <=? length l)%nat then Some (take n l, drop n l) else None.
Definition decode_uint (n : nat) : decoder Z := l ← copy n; mret (of_le l).

Definition encode_u8 : Z -> buffer := le_bytes 1.
Definition encode_u32 : Z -> buffer := le_bytes 4.
Definition encode_u64 : Z -> buffer := le_bytes 8.
#[global] Arguments encode_u8 : simpl never.
#[global] Arguments encode_u32 : simpl never.
#[global] Arguments encode_u64 : simpl never.
Definition decode_u8 : decoder Z := decode_uint 1.
Definition decode_u32 : decoder Z := decode_uint 4.
Definition decode_u64 : decoder Z := decode_uint 8.
(** [int64_t], in two's complement. *)
Definition decode_s64 : decoder Z :=
  v ← decode_u64; mret (if v <? two64 / 2 then v else v - two64).

Definition encode_bool (b : bool) : buffer := encode_u8 (if b then 1 else 0).
Definition decode_bool : decoder bool := v ← decode_u8; mret (negb (v =? 0)).

(** *** Strings and sets *)

Definition encode_string (s : list Z) : buffer := encode_u32 (Z.of_nat (length s)) ++ s.
Definition decode_string : decoder (list Z) := len ← decode_u32; copy (Z.to_nat len).

(** [std::set<snapid_t>]. *)
Definition encode_set (s : list Z) : buffer := encode_u32 (Z.of_nat (length s)) ++ concat (encode_u64 <$> s).
Fixpoint decode_items (n : nat) (s : list Z) : decoder (list Z) :=
  match n with
  | O => mret s
  | S n => v ← decode_u64; decode_items n (OrdMap.sinsert v s)
  end.
Definition decode_set : decoder (list Z) := n ← decode_u32; decode_items (Z.to_nat n) [].

(** *** Versioned blocks *)

Definition encode_block (struct_v struct_compat : Z) (body : buffer) : buffer :=
  encode_u8 struct_v ++ encode_u8 struct_compat ++ encode_u32 (Z.of_nat (length body)) ++ body.

(** [DECODE_FINISH] after a body that began with [avail] bytes left: the body may
    not have run past the block, and what it did not read is skipped. *)
Definition decode_finish {A} (avail struct_len : nat) (a : A) : decoder A :=
  left ← get_remaining;
  let read := (avail - left)%nat in
  if (struct_len <? read)%nat then throw
  else _ ← copy (struct_len - read); mret a.

(** [DECODE_START(v, bl)] .. [DECODE_FINISH(bl)] around a body. *)
Definition decode_block {A} (v : Z) (body : Z -> decoder A) : decoder A :=
  struct_v ← decode_u8;
  struct_compat ← decode_u8;
  if v <? struct_compat then throw
  else
    struct_len ← decode_u32;
    avail ← get_remaining;
    if Z.of_nat avail <? struct_len then throw
    else a ← body struct_v; decode_finish avail (Z.to_nat struct_len) a.

(** [DECODE_START_LEGACY_COMPAT_LEN(v, compatv, lenv, bl)] .. [DECODE_FINISH(bl)]:
    old blocks have no compatible version and no length. *)
Definition decode_legacy_block {A} (v compatv lenv : Z) (body : Z -> decoder A) : decoder A :=
  struct_v ← decode_u8;
  struct_compat ← (if compatv <=? struct_v then decode_u8 else mret 0);
  if (compatv <=? struct_v) && (v <? struct_compat) then throw
  else if lenv <=? struct_v then
    struct_len ← decode_u32;
    avail ← get_remaining;
    if Z.of_nat avail <? struct_len then throw
    else a ← body struct_v; decode_finish avail (Z.to_nat struct_len) a
  else body struct_v.

(** *** [hobject_t::encode], [hobject_t::decode] *)

#[global] Instance hobject_eq_dec : EqDecision hobject_t.
Proof. solve_decision. Defined.

Definition hobject_body (h : hobject_t) : buffer :=
  encode_string (key h) ++ encode_string (oid h) ++ encode_u64 (snap h) ++ encode_u32 (hash h) ++
  encode_bool (max h) ++ encode_string (nspace h) ++ encode_u64 (pool h).
Definition encode_hobject (h : hobject_t) : option buffer :=
  ceph_assert (if max h then bool_decide (h = hobject_max) else true);;
  Some (encode_block 4 3 (hobject_body h)).

Definition is_min (h : hobject_t) : bool :=
  (snap h =? 0) && (hash h =? 0) && negb (max h) && (pool h =? INT64_MIN).

(** [build_hash_cache] over the fields read. *)
Definition built (key oid : list Z) (snap hash : Z) (max : bool) (nspace : list Z) (pool : Z) : hobject_t := {|
  oid := oid; snap := snap; hash := hash; max := max; nibblewise_key_cache := reverse_nibbles hash;
  hash_reverse_bits := reverse_bits hash; pool := pool; nspace := nspace; key := key |}.

Definition decode_hobject : decoder hobject_t :=
  decode_legacy_block 4 3 3 (fun struct_v =>
    key ← (if 1 <=? struct_v then decode_string else mret []);
    oid ← decode_string;
    snap ← decode_u64;
    hash ← decode_u32;
    max ← (if 2 <=? struct_v then decode_bool else mret false);
    if 4 <=? struct_v then
      nspace ← decode_string;
      pool ← decode_s64;
      let h := built key oid snap hash max nspace pool in
      let old_min := (pool =? -1) && (snap =? 0) && (hash =? 0) && negb max && bool_decide (oid = []) in
      let h := if old_min then built key oid snap hash max nspace INT64_MIN else h in
      if old_min && negb (is_min h) then throw
      else mret (if max then hobject_max else h)
    else mret (built key oid snap hash max [] INT64_MIN)).

(** *** The records of SnapMapper.h *)

Record Mapping := mk_mapping { mapping_snap : Z; mapping_hoid : hobject_t }.
Record object_snaps := mk_object_snaps { os_oid : hobject_t; os_snaps : list Z }.

Definition encode_mapping (m : Mapping) : option buffer :=
  h ← encode_hobject (mapping_hoid m);
  Some (encode_block 1 1 (encode_u64 (mapping_snap m) ++ h)).
Definition decode_mapping : decoder Mapping :=
  decode_block 1 (fun _ => snap ← decode_u64; hoid ← decode_hobject; mret (mk_mapping snap hoid)).

Definition encode_object_snaps (o : object_snaps) : option buffer :=
  h ← encode_hobject (os_oid o);
  Some (encode_block 1 1 (h ++ encode_set (os_snaps o))).
Definition decode_object_snaps : decoder object_snaps :=
  decode_block 1 (fun _ => oid ← decode_hobject; snaps ← decode_set; mret (mk_object_snaps oid snaps)).

(** A record of purged snapshots: pool and range. *)
Record purged := mk_purged { purged_pool : Z; purged_begin : Z; purged_end : Z }.
Definition encode_purged (p : purged) : buffer :=
  encode_u64 (purged_pool p) ++ encode_u64 (purged_begin p) ++ encode_u64 (purged_end p).
Definition decode_purged : decoder purged :=
  pool ← decode_s64; b ← decode_u64; e ← decode_u64; mret (mk_purged pool b e).

End Encoding.

(** ** Decoding undoes encoding *)
Module EncodingFacts.
Import Encoding.

(** [reads d b a]: the decoder takes exactly [b] off the front of any buffer and
    returns [a]. *)
Definition reads {A} (d : decoder A) (b : buffer) (a : A) : Prop := forall rest, d (b ++ rest) = Some (a, rest).

Lemma reads_ret {A} (a : A) : reads (mret a) [] a.
Proof. done. Qed.
Lemma reads_bind {A B} (d : decoder A) (k : A -> decoder B) b1 b2 a c :
  reads d b1 a -> reads (k a) b2 c -> reads (d ≫= k) (b1 ++ b2) c.
Proof. intros H1 H2 rest. unfold mbind, decoder_bind. rewrite <- app_assoc, H1. apply H2. Qed.
Lemma reads_last {A B} (d : decoder A) (k : A -> B) b a : reads d b a -> reads (d ≫= fun a => mret (k a)) b (k a).
Proof. intros H. rewrite <- (app_nil_r b). eapply reads_bind; [exact H|apply reads_ret]. Qed.

Lemma length_le_bytes n v : length (le_bytes n v) = n.
Proof. revert v. induction n as [|n IH]; simpl; auto. Qed.
Lemma of_le_bytes n v : 0 <= v -> of_le (le_bytes n v) = v mod 256 ^ Z.of_nat n.
Proof.
  revert v. induction n as [|n IH]; intros v Hv; simpl le_bytes; simpl of_le.
  { by rewrite Z.mod_1_r. }
  rewrite IH by (apply Z.div_pos; lia). rewrite Nat2Z.inj_succ, Z.pow_succ_r by lia.
  rewrite Z.rem_mul_r by lia. lia.
Qed.
Lemma le_bytes_mod n v : le_bytes n v = le_bytes n (v mod 256 ^ Z.of_nat n).
Proof.
  revert v. induction n as [|n IH]; intros v; [done|]. simpl le_bytes.
  rewrite Nat2Z.inj_succ, Z.pow_succ_r by lia. rewrite (Z.rem_mul_r v) by lia. f_equal.
  - rewrite Z.mul_comm, Z.mod_add by lia. by rewrite Z.mod_mod by lia.
  - rewrite Z.mul_comm, Z.div_add by lia.
    rewrite (Z.div_small (v mod 256)) by (apply Z.mod_pos_bound; lia). apply IH.
Qed.

Lemma reads_copy l : reads (copy (length l)) l l.
Proof.
  intros rest. unfold copy. rewrite length_app, (proj2 (Nat.leb_le _ _)) by lia.
  by rewrite take_app_length, drop_app_length.
Qed.
Lemma reads_uint n v : 0 <= v < 256 ^ Z.of_nat n -> reads (decode_uint n) (le_bytes n v) v.
Proof.
  intros Hv. unfold decode_uint. rewrite <- (length_le_bytes n v) at 1.
  replace v with (of_le (le_bytes n v)) at 3 by (rewrite of_le_bytes by lia; by apply Z.mod_small).
  apply (reads_last (copy _) of_le). apply reads_copy.
Qed.
Lemma reads_u8 v : 0 <= v < 256 -> reads decode_u8 (encode_u8 v) v.
Proof. apply (reads_uint 1). Qed.
Lemma reads_u32 v : 0 <= v < two32 -> reads decode_u32 (encode_u32 v) v.
Proof. apply (reads_uint 4). Qed.
Lemma reads_u64 v : 0 <= v < two64 -> reads decode_u64 (encode_u64 v) v.
Proof. apply (reads_uint 8). Qed.
Lemma reads_s64 v : INT64_MIN <= v < two64 / 2 -> reads decode_s64 (encode_u64 v) v.
Proof.
  intros Hv. unfold decode_s64, encode_u64. rewrite le_bytes_mod. change (256 ^ Z.of_nat 8) with two64.
  set (w := v mod two64). assert (0 <= w < two64) by by apply Z.mod_pos_bound.
  replace v with (if w <? two64 / 2 then w else w - two64).
  { apply (reads_last decode_u64 (fun v => if v <? two64 / 2 then v else v - two64)). by apply reads_u64. }
  change (two64 / 2) with 9223372036854775808 in *. unfold INT64_MIN in *.
  assert (w = v \/ w = v + two64) as [-> | ->].
  { subst w. destruct (Z.le_gt_cases 0 v); [left; apply Z.mod_small; lia|right].
    rewrite <- (Z_mod_plus_full v 1 two64). apply Z.mod_small. lia. }
  all: case_match; zbool; lia.
Qed.
Lemma reads_bool b : reads decode_bool (encode_bool b) b.
Proof. intros rest. by destruct b. Qed.

Lemma reads_string s : Z.of_nat (length s) < two32 -> reads decode_string (encode_string s) s.
Proof.
  intros Hs. eapply reads_bind; [apply reads_u32; lia|]. rewrite Nat2Z.id. apply reads_copy.
Qed.

Lemma reads_items l acc : Forall u64 l ->
  reads (decode_items (length l) acc) (concat (encode_u64 <$> l)) (foldl (fun s v => OrdMap.sinsert v s) acc l).
Proof.
  intros Hl. revert acc. induction Hl as [|v l Hv Hl IH]; intros acc; [apply reads_ret|].
  change (reads (v ← decode_u64; decode_items (length l) (OrdMap.sinsert v acc))
    (encode_u64 v ++ concat (encode_u64 <$> l)) (foldl (fun s v => OrdMap.sinsert v s) (OrdMap.sinsert v acc) l)).
  eapply reads_bind; [by apply reads_u64|]. apply IH.
Qed.

(** A sorted set comes back as it is. *)
Lemma sinsert_last (v : Z) s : Forall (fun x => x < v) s -> OrdMap.sinsert v s = s ++ [v].
Proof.
  induction 1 as [|x s Hx Hs IH]; [done|]. simpl. replace (v ?= x) with Gt by (symmetry; apply Z.compare_gt_iff; lia).
  by rewrite IH.
Qed.
Lemma insert_sorted_all (l acc : list Z) : OrdMap.ssorted (acc ++ l) ->
  foldl (fun s v => OrdMap.sinsert v s) acc l = acc ++ l.
Proof.
  revert acc. induction l as [|v l IH]; intros acc Hs; simpl; [by rewrite app_nil_r|].
  rewrite sinsert_last.
  - rewrite cons_middle, app_assoc in Hs. rewrite IH by done. by rewrite <- app_assoc.
  - clear IH. induction acc as [|x acc IH]; [constructor|]. apply StronglySorted_inv in Hs as [H1 H2].
    constructor; [|by apply IH]. rewrite Forall_forall in H2. apply Z.compare_lt_iff, H2. set_solver.
Qed.
Lemma reads_set s : Z.of_nat (length s) < two32 -> Forall u64 s -> OrdMap.ssorted s -> reads decode_set (encode_set s) s.
Proof.
  intros Hl Hu Hs. eapply reads_bind; [apply reads_u32; lia|]. rewrite Nat2Z.id.
  pose proof (reads_items s [] Hu) as H. by rewrite insert_sorted_all in H.
Qed.

(** *** Blocks *)

Section Block.
Context {A : Type} (v sv compat : Z) (body : Z -> decoder A) (b : buffer) (a : A).
Hypotheses (Hsv : 0 <= sv < 256) (Hc : 0 <= compat < 256) (Hv : compat <= v)
  (Hb : Z.of_nat (length b) < two32) (Hread : reads (body sv) b a).

Lemma block_body : reads (struct_len ← decode_u32; avail ← get_remaining;
    if Z.of_nat avail <? struct_len then throw
    else a ← body sv; decode_finish avail (Z.to_nat struct_len) a)
  (encode_u32 (Z.of_nat (length b)) ++ b) a.
Proof.
  eapply reads_bind; [apply reads_u32; lia|]. intros rest. unfold mbind, decoder_bind at 1, get_remaining at 1.
  rewrite length_app. rewrite (proj2 (Z.ltb_ge _ _)) by lia.
  unfold decoder_bind. rewrite Hread. unfold decode_finish, mbind, decoder_bind, get_remaining, copy.
  rewrite Nat2Z.id. replace (length b + length rest - length rest)%nat with (length b) by lia.
  rewrite Nat.ltb_irrefl, Nat.sub_diag. done.
Qed.

Lemma reads_block : reads (decode_block v body) (encode_block sv compat b) a.
Proof.
  eapply reads_bind; [by apply reads_u8|]. eapply reads_bind; [by apply reads_u8|].
  rewrite (proj2 (Z.ltb_ge _ _)) by lia. apply block_body.
Qed.
Lemma reads_legacy_block compatv lenv : compatv <= sv -> lenv <= sv ->
  reads (decode_legacy_block v compatv lenv body) (encode_block sv compat b) a.
Proof.
  intros H1 H2. eapply reads_bind; [by apply reads_u8|]. rewrite (proj2 (Z.leb_le compatv sv)) by lia.
  eapply reads_bind; [by apply reads_u8|]. rewrite (proj2 (Z.ltb_ge v compat)) by lia.
  rewrite (proj2 (Z.leb_le lenv sv)) by lia. apply block_body.
Qed.
End Block.

(** *** The records *)

(** What an object name needs for its encoding to hold it: the class invariant, a
    64-bit pool, strings that fit a block, and not the name old encodings used for
    the least object. *)
Definition storable (h : hobject_t) : Prop :=
  HobjectFacts.hobject_wf h /\ max h = false /\ INT64_MIN <= pool h < two64 / 2 /\
  Z.of_nat (length (key h) + length (oid h) + length (nspace h)) < 2 ^ 31 /\ oid h <> [].

Lemma length_string s : length (encode_string s) = (4 + length s)%nat.
Proof. unfold encode_string, encode_u32. by rewrite length_app, length_le_bytes. Qed.
Lemma length_hobject_body h : length (hobject_body h) = (33 + length (key h) + length (oid h) + length (nspace h))%nat.
Proof.
  unfold hobject_body, encode_u64, encode_u32, encode_bool, encode_u8.
  repeat rewrite ?length_app, ?length_string, ?length_le_bytes. lia.
Qed.
Lemma length_block sv c b : length (encode_block sv c b) = (6 + length b)%nat.
Proof. unfold encode_block, encode_u8, encode_u32. by rewrite !length_app, !length_le_bytes. Qed.

Lemma hobject_rebuild h : storable h -> built (key h) (oid h) (snap h) (hash h) (max h) (nspace h) (pool h) = h.
Proof. intros ((_ & E1 & E2 & _) & _). destruct h; simpl in *. unfold built. by rewrite E1, E2. Qed.

Lemma reads_hobject h : storable h -> exists b, encode_hobject h = Some b /\ Z.of_nat (length b) < 2 ^ 31 + 39 /\ reads decode_hobject b h.
Proof.
  intros Hh. pose proof Hh as (Hwf & Hm & Hp & Hl & Ho). destruct Hwf as (Hhash & _ & _ & _ & Hsnap & _).
  exists (encode_block 4 3 (hobject_body h)). unfold encode_hobject. rewrite Hm. split; [done|]. split.
  { rewrite length_block, length_hobject_body. lia. }
  apply reads_legacy_block; try lia; [rewrite length_hobject_body; lia|]. unfold hobject_body.
  cbv beta iota delta [Z.leb Z.compare Pos.compare Pos.compare_cont].
  eapply reads_bind; [apply reads_string; lia|]. eapply reads_bind; [apply reads_string; lia|].
  eapply reads_bind; [by apply reads_u64|]. eapply reads_bind; [by apply reads_u32|].
  eapply reads_bind; [apply reads_bool|]. eapply reads_bind; [apply reads_string; lia|].
  rewrite <- (app_nil_r (encode_u64 (pool h))). eapply reads_bind; [by apply reads_s64|].
  rewrite (bool_decide_eq_false_2 (oid h = [])) by done. rewrite andb_false_r, hobject_rebuild, Hm by done.
  apply reads_ret.
Qed.

Lemma reads_mapping s h : storable h -> u64 s ->
  exists b, encode_mapping (mk_mapping s h) = Some b /\ reads decode_mapping b (mk_mapping s h).
Proof.
  intros Hh Hs. destruct (reads_hobject h Hh) as (b & E & Hb & Hr). unfold encode_mapping. simpl. rewrite E.
  exists (encode_block 1 1 (encode_u64 s ++ b)). split; [done|]. apply reads_block; try lia.
  { unfold encode_u64. rewrite length_app, length_le_bytes. lia. }
  eapply reads_bind; [by apply reads_u64|]. by apply (reads_last decode_hobject (mk_mapping s)).
Qed.

(** A set of snapshots as the code keeps it. *)
Definition snap_set (s : list Z) : Prop := OrdMap.ssorted s /\ Forall u64 s /\ Z.of_nat (length s) < 2 ^ 27.

Lemma reads_object_snaps h s : storable h -> snap_set s ->
  exists b, encode_object_snaps (mk_object_snaps h s) = Some b /\ reads decode_object_snaps b (mk_object_snaps h s).
Proof.
  intros Hh (Hs & Hu & Hl). destruct (reads_hobject h Hh) as (b & E & Hb & Hr). unfold encode_object_snaps. simpl.
  rewrite E. exists (encode_block 1 1 (b ++ encode_set s)). split; [done|]. apply reads_block; try lia.
  { assert (length (concat (encode_u64 <$> s)) = (8 * length s)%nat) as Hc.
    { clear. induction s as [|x s IH]; [done|]. rewrite fmap_cons, concat_cons, length_app, IH.
      unfold encode_u64. rewrite length_le_bytes. simpl. lia. }
    unfold encode_set, encode_u32. rewrite !length_app, length_le_bytes, Hc. lia. }
  eapply reads_bind; [done|]. apply (reads_last decode_set (mk_object_snaps h)). apply reads_set; [lia|done|done].
Qed.

Lemma reads_purged p b e : INT64_MIN <= p < two64 / 2 -> u64 b -> u64 e ->
  reads decode_purged (encode_purged (mk_purged p b e)) (mk_purged p b e).
Proof.
  intros Hp Hb He. eapply reads_bind; [by apply reads_s64|]. eapply reads_bind; [by apply reads_u64|].
  by apply (reads_last decode_u64 (mk_purged p b)), reads_u64.
Qed.
End EncodingFacts.
