(* ===== verification/MonCommand.v ===== *)
(** Command descriptions: mon/MonCommand.h with its encoding, which the victory
    messages of the elections carry, and the form pre-Nautilus monitors are given
    (common/cmdparse.cc).  Strings are lists of character codes. *)
From S2P Require Import Prelude Pg Hobject OrderedMap Encoding.
Import Encoding.

Module MonCommand.

Record MonCommand := {
  cmdstring : list Z;
  helpstring : list Z;
  module : list Z;
  req_perms : list Z;
  flags : Z
}.
#[global] Instance MonCommand_eq_dec : EqDecision MonCommand.
Proof. solve_decision. Defined.

(** *** Encoding *)

Definition encode_u16 : Z -> buffer := le_bytes 2.
#[global] Arguments encode_u16 : simpl never.
Definition decode_u16 : decoder Z := decode_uint 2.

(** "cli,rest", a field that is gone. *)
Definition availability : list Z := [99; 108; 105; 44; 114; 101; 115; 116].

Definition encode_bare (c : MonCommand) : buffer :=
  encode_string (cmdstring c) ++ encode_string (helpstring c) ++ encode_string (module c) ++
  encode_string (req_perms c) ++ encode_string availability.
(** The flags are read after all the commands. *)
Definition decode_bare : decoder MonCommand :=
  cmd ← decode_string;
  help ← decode_string;
  mod_ ← decode_string;
  perms ← decode_string;
  _ ← decode_string;
  mret {| cmdstring := cmd; helpstring := help; module := mod_; req_perms := perms; flags := 0 |}.

(** The count is a [uint16_t], also as the bound of the loops. *)
Definition vector_body (cmds : list MonCommand) : buffer :=
  let s := Z.of_nat (length cmds) mod 65536 in
  let cmds := take (Z.to_nat s) cmds in
  encode_u16 s ++ concat (encode_bare <$> cmds) ++ concat ((fun c => encode_u64 (flags c)) <$> cmds).
Definition encode_vector (cmds : list MonCommand) : buffer := encode_block 2 1 (vector_body cmds).

Fixpoint decode_bares (n : nat) : decoder (list MonCommand) :=
  match n with
  | O => mret []
  | S n => c ← decode_bare; l ← decode_bares n; mret (c :: l)
  end.
Definition with_flags (c : MonCommand) (f : Z) : MonCommand :=
  {| cmdstring := cmdstring c; helpstring := helpstring c; module := module c; req_perms := req_perms c; flags := f |}.
Fixpoint decode_flags (cmds : list MonCommand) : decoder (list MonCommand) :=
  match cmds with
  | [] => mret []
  | c :: cmds => f ← decode_u64; l ← decode_flags cmds; mret (with_flags c f :: l)
  end.
Definition decode_vector : decoder (list MonCommand) :=
  decode_block 2 (fun struct_v =>
    s ← decode_u16;
    cmds ← decode_bares (Z.to_nat s);
    if 2 <=? struct_v then decode_flags cmds else mret ((fun c => with_flags c 0) <$> cmds)).

(** *** The form for older monitors *)

Abbreviation COMMA := 44 (only parsing).
Abbreviation EQUALS := 61 (only parsing).
Abbreviation SPACE := 32 (only parsing).

(** [std::getline] with a delimiter, to the end: what follows the last delimiter
    counts when it is not empty. *)
Fixpoint getlines (d : Z) (cur s : list Z) : list (list Z) :=
  match s with
  | [] => if bool_decide (cur = []) then [] else [cur]
  | c :: s => if c =? d then cur :: getlines d [] s else getlines d (cur ++ [c]) s
  end.
(** [for_each_substr]: the pieces between delimiters that are not empty. *)
Definition for_each_substr (d : Z) (s : list Z) : list (list Z) := filter (fun w => w <> []) (getlines d [] s).

(** The part before the first [c] and the part after it. *)
Fixpoint split_at (c : Z) (s : list Z) : option (list Z * list Z) :=
  match s with
  | [] => None
  | x :: s => if x =? c then Some ([], s) else '(a, b) ← split_at c s; Some (x :: a, b)
  end.
Definition cmddesc_get_args (desc : list Z) : list (list Z * list Z) :=
  foldl (fun m kv => match split_at EQUALS kv with Some (k, v) => OrdMap.set k v m | None => m end)
    [] (for_each_substr COMMA desc).

(** "type", "CephBool", "CephChoices", "name", "strings". *)
Definition TYPE : list Z := [116; 121; 112; 101].
Definition CEPH_BOOL : list Z := [67; 101; 112; 104; 66; 111; 111; 108].
Definition CEPH_CHOICES : list Z := [67; 101; 112; 104; 67; 104; 111; 105; 99; 101; 115].
Definition NAME : list Z := [110; 97; 109; 101].
Definition STRINGS : list Z := [115; 116; 114; 105; 110; 103; 115].

Fixpoint joined (d : Z) (l : list (list Z)) : list Z :=
  match l with [] => [] | [w] => w | w :: l => w ++ d :: joined d l end.

(** One word: [None] when it stays as it is. *)
Definition prenautilus_word (word : list Z) : option (list Z) :=
  if bool_decide (Forall (fun c => c <> COMMA /\ c <> EQUALS) word) then None
  else
    let desckv := cmddesc_get_args word in
    match OrdMap.find TYPE desckv with
    | Some t =>
        if bool_decide (t = CEPH_BOOL) then
          let desckv := OrdMap.insert NAME [] desckv in
          let name := default [] (OrdMap.find NAME desckv) in
          let val := (fun c => if c =? 95 then 45 else c) <$> [45; 45] ++ name in
          let desckv := OrdMap.set STRINGS val (OrdMap.set TYPE CEPH_CHOICES desckv) in
          Some (joined COMMA ((fun kv => kv.1 ++ EQUALS :: kv.2) <$> desckv))
        else None
    | None => None
    end.
Definition cmddesc_get_prenautilus_compat (cmddesc : list Z) : list Z :=
  let words := getlines SPACE [] cmddesc in
  if existsb (fun w => bool_decide (is_Some (prenautilus_word w))) words
  then joined SPACE ((fun w => default w (prenautilus_word w)) <$> words)
  else cmddesc.

(** The list of the constructor of [Monitor]. *)
Definition prenautilus (cmds : list MonCommand) : list MonCommand :=
  (fun c => {| cmdstring := cmddesc_get_prenautilus_compat (cmdstring c); helpstring := helpstring c;
               module := module c; req_perms := req_perms c; flags := flags c |}) <$> cmds.

(** "ab name=x_y,type=CephBool,req=false" *)
Example prenautilus_bool :
  cmddesc_get_prenautilus_compat
    ([97; 98; 32] ++ NAME ++ [61; 120; 95; 121; 44] ++ TYPE ++ [61] ++ CEPH_BOOL ++ [44; 114; 101; 113; 61; 102]) =
  [97; 98; 32] ++ NAME ++ [61; 120; 95; 121; 44; 114; 101; 113; 61; 102; 44] ++ STRINGS ++ [61; 45; 45; 120; 45; 121; 44] ++ TYPE ++ [61] ++ CEPH_CHOICES.
Proof. by vm_compute. Qed.

End MonCommand.

Module CommandFacts.
Import EncodingFacts MonCommand.

(** A table the encoding holds: strings and the whole within 32-bit lengths. *)
Definition fits (cmds : list MonCommand) : Prop :=
  Forall (fun c => u64 (flags c) /\ Forall (fun s => Z.of_nat (length s) < two32) [cmdstring c; helpstring c; module c; req_perms c]) cmds /\
  Z.of_nat (length (vector_body cmds)) < two32.

Lemma reads_bare c : Forall (fun s => Z.of_nat (length s) < two32) [cmdstring c; helpstring c; module c; req_perms c] ->
  reads decode_bare (encode_bare c) (with_flags c 0).
Proof.
  rewrite !Forall_cons. intros (H1 & H2 & H3 & H4 & _). do 4 (eapply reads_bind; [by apply reads_string|]).
  apply (reads_last decode_string (fun _ => with_flags c 0) (encode_string availability) availability). by apply reads_string.
Qed.

Lemma reads_bares cmds :
  Forall (fun c => Forall (fun s => Z.of_nat (length s) < two32) [cmdstring c; helpstring c; module c; req_perms c]) cmds ->
  reads (decode_bares (length cmds)) (concat (encode_bare <$> cmds)) ((fun c => with_flags c 0) <$> cmds).
Proof.
  induction 1 as [|c cmds Hc Hcs IH]; [apply reads_ret|]. rewrite !fmap_cons. cbn [length decode_bares concat].
  eapply reads_bind; [by apply reads_bare|]. apply (reads_last (decode_bares (length cmds)) (cons (with_flags c 0))). exact IH.
Qed.
Lemma reads_flags cmds : Forall (fun c => u64 (flags c)) cmds ->
  reads (decode_flags ((fun c => with_flags c 0) <$> cmds)) (concat ((fun c => encode_u64 (flags c)) <$> cmds)) cmds.
Proof.
  induction 1 as [|c cmds Hc Hcs IH]; [apply reads_ret|]. rewrite !fmap_cons. cbn [decode_flags concat].
  eapply reads_bind; [by apply reads_u64|].
  assert (with_flags (with_flags c 0) (flags c) = c) as -> by by destruct c.
  apply (reads_last (decode_flags _) (cons c)). exact IH.
Qed.

(** What is encoded is read back: all of it, when there are fewer than 65536. *)
Lemma reads_vector cmds : fits cmds ->
  reads decode_vector (encode_vector cmds) (take (Z.to_nat (Z.of_nat (length cmds) mod 65536)) cmds).
Proof.
  intros [Hc Hl]. apply reads_block; [lia|lia|lia|done|]. unfold vector_body.
  pose proof (Z.mod_pos_bound (Z.of_nat (length cmds)) 65536) as Hs. set (s := _ mod 65536) in *.
  assert (s <= Z.of_nat (length cmds)) as Hle by (apply Z.mod_le; lia).
  set (t := take (Z.to_nat s) cmds). assert (length t = Z.to_nat s) as Ht by (unfold t; rewrite length_take; lia).
  assert (Forall (fun c => u64 (flags c) /\ Forall (fun s => Z.of_nat (length s) < two32) [cmdstring c; helpstring c; module c; req_perms c]) t) as Hf
    by by apply Forall_take.
  eapply reads_bind; [apply (reads_uint 2); change (256 ^ Z.of_nat 2) with 65536; lia|].
  rewrite <- Ht. eapply reads_bind; [apply reads_bares; eapply Forall_impl; [exact Hf|by intros ? [_ ?]]|].
  change (2 <=? 2) with true. cbv iota. apply reads_flags. eapply Forall_impl; [exact Hf|by intros ? [? _]].
Qed.
Lemma encoded_nonempty cmds : encode_vector cmds <> [].
Proof. done. Qed.
End CommandFacts.
