(* ===== verification/Election.v ===== *)
(** Monitor elections: src/ceph-15.2.17/src/mon/ElectionLogic.cc (the
    algorithm), mon/Elector.cc (its owner: messages, timer, feature checks) and
    the functions of mon/Monitor.cc the two call, as handlers on the state of
    one monitor, with its store (whose database may fail, [build]) and the commands
    a victory carries (MonCommand.v); then a network of monitors that lose, reorder, duplicate
    messages, time out, restart and change participation at any time. *)
From S2P Require Import Prelude Effects Encoding MonCommand.
Import MonCommand.

(** ** The state of a monitor *)

Module Mon.

(** [MonMap]: a monitor is identified by its address; its rank is the position
    of that address. *)
Record MonMap := {
  map_epoch : Z;
  fsid : Z;
  addrs : list Z;
  min_mon_release : Z
}.

Definition map_size (mm : MonMap) : Z := Z.of_nat (length (addrs mm)).

Fixpoint rank_from (i : Z) (l : list Z) (a : Z) : Z :=
  match l with
  | [] => -1
  | b :: l' => if b =? a then i else rank_from (i + 1) l' a
  end.

Definition get_rank (mm : MonMap) (a : Z) : Z := rank_from 0 (addrs mm) a.

(** [Monitor::state]. *)
Inductive mon_state := STATE_PROBING | STATE_SYNCHRONIZING | STATE_ELECTING | STATE_LEADER | STATE_PEON.

Definition is_electing (s : mon_state) : bool := match s with STATE_ELECTING => true | _ => false end.
Definition is_probing (s : mon_state) : bool := match s with STATE_PROBING => true | _ => false end.
Definition is_synchronizing (s : mon_state) : bool := match s with STATE_SYNCHRONIZING => true | _ => false end.

(** [elector_info_t], without the free-form metadata. *)
Record elector_info_t := {
  cluster_features : Z;
  mon_features : Z;
  mon_release : Z
}.

(** The members of [ElectionLogic]; [epoch_t] is a [uint32_t]. *)
Record ElectionLogic := {
  epoch : Z;
  leader_acked : Z;
  participating : bool;
  electing_me : bool;
  acked_me : gset Z
}.

(** What the election reads and writes of [Monitor], of its store and of
    [Elector]. *)
Record Monitor := {
  rank : Z;
  my_addr : Z;
  monmap : MonMap;
  state : mon_state;
  leader : Z;
  quorum : gset Z;
  has_ever_joined : bool;
  required_features : Z;
  required_mon_features : Z;
  store_epoch : Z;             (* "election_epoch", 0 when absent *)
  store_monmap : option MonMap;
  peer_info : gmap Z elector_info_t;
  expire_event : bool;
  leader_mon_commands : list MonCommand;
  logic : ElectionLogic
}.

(** [MMonElection]; source rank and address are the messenger's. *)
Inductive election_op := OP_PROPOSE | OP_ACK | OP_NAK | OP_VICTORY.

Record MMonElection := {
  m_from : Z;
  m_addr : Z;
  m_op : election_op;
  m_epoch : Z;
  m_monmap : MonMap;
  m_quorum : gset Z;
  m_quorum_features : Z;
  m_mon_features : Z;
  m_mon_release : Z;
  m_sharing_bl : list Z
}.

(** What a handler does to the outside. *)
Inductive event :=
| Send (to : Z) (m : MMonElection)
| Probe (to : Z)
| Win (e : Z) (q : gset Z)
| Lose (e : Z) (q : gset Z) (l : Z)
| Exit.

Definition set_logic (f : ElectionLogic -> ElectionLogic) (s : Monitor) : Monitor :=
  {| rank := rank s; my_addr := my_addr s; monmap := monmap s; state := state s; leader := leader s;
     quorum := quorum s; has_ever_joined := has_ever_joined s; required_features := required_features s;
     required_mon_features := required_mon_features s; store_epoch := store_epoch s;
     store_monmap := store_monmap s; peer_info := peer_info s; expire_event := expire_event s;
     leader_mon_commands := leader_mon_commands s; logic := f (logic s) |}.

Definition set_epoch (e : Z) : Monitor -> Monitor := set_logic (fun l =>
  {| epoch := e; leader_acked := leader_acked l; participating := participating l;
     electing_me := electing_me l; acked_me := acked_me l |}).
Definition set_leader_acked (who : Z) : Monitor -> Monitor := set_logic (fun l =>
  {| epoch := epoch l; leader_acked := who; participating := participating l;
     electing_me := electing_me l; acked_me := acked_me l |}).
Definition set_participating (b : bool) : Monitor -> Monitor := set_logic (fun l =>
  {| epoch := epoch l; leader_acked := leader_acked l; participating := b;
     electing_me := electing_me l; acked_me := acked_me l |}).
Definition set_electing_me (b : bool) : Monitor -> Monitor := set_logic (fun l =>
  {| epoch := epoch l; leader_acked := leader_acked l; participating := participating l;
     electing_me := b; acked_me := acked_me l |}).
Definition set_acked_me (q : gset Z) : Monitor -> Monitor := set_logic (fun l =>
  {| epoch := epoch l; leader_acked := leader_acked l; participating := participating l;
     electing_me := electing_me l; acked_me := q |}).

Definition set_mon (r : Z) (st : mon_state) (l : Z) (q : gset Z) (s : Monitor) : Monitor :=
  {| rank := r; my_addr := my_addr s; monmap := monmap s; state := st; leader := l;
     quorum := q; has_ever_joined := has_ever_joined s; required_features := required_features s;
     required_mon_features := required_mon_features s; store_epoch := store_epoch s;
     store_monmap := store_monmap s; peer_info := peer_info s; expire_event := expire_event s;
     leader_mon_commands := leader_mon_commands s; logic := logic s |}.
Definition set_store_epoch (e : Z) (s : Monitor) : Monitor :=
  {| rank := rank s; my_addr := my_addr s; monmap := monmap s; state := state s; leader := leader s;
     quorum := quorum s; has_ever_joined := has_ever_joined s; required_features := required_features s;
     required_mon_features := required_mon_features s; store_epoch := e;
     store_monmap := store_monmap s; peer_info := peer_info s; expire_event := expire_event s;
     leader_mon_commands := leader_mon_commands s; logic := logic s |}.
Definition set_elector (p : gmap Z elector_info_t) (t : bool) (s : Monitor) : Monitor :=
  {| rank := rank s; my_addr := my_addr s; monmap := monmap s; state := state s; leader := leader s;
     quorum := quorum s; has_ever_joined := has_ever_joined s; required_features := required_features s;
     required_mon_features := required_mon_features s; store_epoch := store_epoch s;
     store_monmap := store_monmap s; peer_info := p; expire_event := t;
     leader_mon_commands := leader_mon_commands s; logic := logic s |}.
Definition set_monmap (mm : MonMap) (s : Monitor) : Monitor :=
  {| rank := rank s; my_addr := my_addr s; monmap := mm; state := state s; leader := leader s;
     quorum := quorum s; has_ever_joined := has_ever_joined s; required_features := required_features s;
     required_mon_features := required_mon_features s; store_epoch := store_epoch s;
     store_monmap := store_monmap s; peer_info := peer_info s; expire_event := expire_event s;
     leader_mon_commands := leader_mon_commands s; logic := logic s |}.
Definition set_store_monmap (mm : MonMap) (s : Monitor) : Monitor :=
  {| rank := rank s; my_addr := my_addr s; monmap := monmap s; state := state s; leader := leader s;
     quorum := quorum s; has_ever_joined := has_ever_joined s; required_features := required_features s;
     required_mon_features := required_mon_features s; store_epoch := store_epoch s;
     store_monmap := Some mm; peer_info := peer_info s; expire_event := expire_event s;
     leader_mon_commands := leader_mon_commands s; logic := logic s |}.
Definition set_joined (s : Monitor) : Monitor :=
  {| rank := rank s; my_addr := my_addr s; monmap := monmap s; state := state s; leader := leader s;
     quorum := quorum s; has_ever_joined := true; required_features := required_features s;
     required_mon_features := required_mon_features s; store_epoch := store_epoch s;
     store_monmap := store_monmap s; peer_info := peer_info s; expire_event := expire_event s;
     leader_mon_commands := leader_mon_commands s; logic := logic s |}.

Definition set_leader_commands (cmds : list MonCommand) (s : Monitor) : Monitor :=
  {| rank := rank s; my_addr := my_addr s; monmap := monmap s; state := state s; leader := leader s;
     quorum := quorum s; has_ever_joined := has_ever_joined s; required_features := required_features s;
     required_mon_features := required_mon_features s; store_epoch := store_epoch s;
     store_monmap := store_monmap s; peer_info := peer_info s; expire_event := expire_event s;
     leader_mon_commands := cmds; logic := logic s |}.

End Mon.

(** ** The handlers *)

Module Elector.
Import Mon.

(** What a transaction of the elections puts into the store: "election_epoch",
    "election_writeable_test", and a monitor map with its version. *)
Inductive put := PutElectionEpoch (e : Z) | PutWriteableTest (v : Z) | PutMonMap (mm : MonMap).

(** What the daemon runs on: what this build of it supports ([CEPH_FEATURES_ALL],
    [ceph::features::mon::get_supported()], [ceph_release()]), its table of commands,
    and the key-value database with its return codes. *)
Record build := {
  CEPH_FEATURES_ALL : Z; get_supported : Z; ceph_release : Z;
  mon_commands : list MonCommand;
  rand : Z;
  submit_transaction_sync : list put -> Z
}.

(** The database accepts what is written, and the table of commands is within the
    lengths of its encoding. *)
Record build_works (B : build) : Prop := {
  store_works : forall t, 0 <= submit_transaction_sync B t;
  commands_fit : CommandFacts.fits (mon_commands B);
  old_commands_fit : CommandFacts.fits (prenautilus (mon_commands B))
}.

Section Handlers.
Context (B : build).
#[local] Abbreviation H := (handler Monitor event).

Definition add32 (a b : Z) : Z := (a + b) mod two32.

(** *** Callbacks of [ElectionLogic] into [Elector] and [Monitor] *)

(** [MonitorDBStore::apply_transaction]: aborts when the database fails.  The test key
    is never read. *)
Definition apply_put (p : put) : Monitor -> Monitor :=
  match p with
  | PutElectionEpoch e => set_store_epoch e
  | PutWriteableTest _ => fun s => s
  | PutMonMap mm => set_store_monmap mm
  end.
Definition apply_transaction (t : list put) : H Z :=
  let r := submit_transaction_sync B t in
  assertion (0 <=? r) ;;
  modify (fun s => foldl (fun s p => apply_put p s) s t) ;;
  mret r.

Definition persist_epoch (e : Z) : H unit := _ ← apply_transaction [PutElectionEpoch e]; mret tt.
Definition read_persisted_epoch (s : Monitor) : Z := store_epoch s.

Definition validate_store : H unit :=
  r ← apply_transaction [PutWriteableTest (rand B)];
  assertion (0 <=? r).
Definition is_current_member (s : Monitor) (r : Z) : bool := bool_decide (r ∈ quorum s).
Definition ever_participated (s : Monitor) : bool := has_ever_joined s.
Definition paxos_size (s : Monitor) : Z := map_size (monmap s).

Definition cancel_timer : H unit := modify (fun s => set_elector (peer_info s) false s).
Definition reset_timer : H unit := cancel_timer ;; modify (fun s => set_elector (peer_info s) true s).

(** [Monitor::_reset], [Monitor::join_election]. *)
Definition _reset : H unit := modify (fun s => set_mon (rank s) (state s) (leader s) ∅ s).
Definition join_election : H unit :=
  _reset ;; modify (fun s => set_mon (rank s) STATE_ELECTING (leader s) (quorum s) s).
Definition notify_bump_epoch : H unit := join_election.

Definition mk_msg (s : Monitor) (op : election_op) (e : Z) : MMonElection :=
  {| m_from := rank s; m_addr := my_addr s; m_op := op; m_epoch := e; m_monmap := monmap s;
     m_quorum := ∅; m_quorum_features := 0; m_mon_features := get_supported B;
     m_mon_release := ceph_release B; m_sharing_bl := [] |}.

Definition propose_to_peers (e : Z) : H unit :=
  s ← get;
  emit_all ((fun i => Send i (mk_msg s OP_PROPOSE e)) <$>
              filter (fun i => i <> rank s) (seqZ 0 (map_size (monmap s)))).

Definition my_info : elector_info_t :=
  {| cluster_features := CEPH_FEATURES_ALL B; mon_features := get_supported B; mon_release := ceph_release B |}.

Definition _start : H unit :=
  modify (fun s => set_elector {[ rank s := my_info ]} (expire_event s) s) ;; reset_timer.

Definition _defer_to (who : Z) : H unit :=
  s ← get;
  emit (Send who (mk_msg s OP_ACK (epoch (logic s)))) ;;
  reset_timer.

(** [mon_feature_t::contains_all]. *)
Definition contains_all (f other : Z) : bool := Z.land f other =? other.

(** The commands of this build, in the form the features of the quorum ask for. *)
Definition FEATURE_NAUTILUS : Z := 16.
Definition get_local_commands (f : Z) : list MonCommand :=
  if contains_all f FEATURE_NAUTILUS then mon_commands B else prenautilus (mon_commands B).
Definition get_local_commands_bl (f : Z) : list Z :=
  if contains_all f FEATURE_NAUTILUS then encode_vector (mon_commands B) else encode_vector (prenautilus (mon_commands B)).

(** [Monitor::win_election], [Monitor::lose_election]: their effect on the
    election; the calls into Paxos and the services are the events. *)
Definition win_election (e : Z) (active : gset Z) (mf : Z) : H unit :=
  s ← get;
  assertion (is_electing (state s)) ;;
  modify (fun s => set_mon (rank s) STATE_LEADER (rank s) active s) ;;
  modify (set_leader_commands (get_local_commands mf)) ;;
  emit (Win e active).

Definition lose_election (e : Z) (q : gset Z) (l : Z) : H unit :=
  modify (fun s => set_mon (rank s) STATE_PEON l q s) ;;
  emit (Lose e q l).

(** The features common to a quorum and its oldest release: the loop of
    [message_victory]. *)
Fixpoint quorum_info (peers : gmap Z elector_info_t) (q : list Z) (cf mf mr : Z) : option (Z * Z * Z) :=
  match q with
  | [] => Some (cf, mf, mr)
  | id :: q' =>
      info ← peers !! id;
      quorum_info peers q' (Z.land cf (cluster_features info)) (Z.land mf (mon_features info))
        (if (mr =? 0) || (mon_release info <? mr) then mon_release info else mr)
  end.

Definition in_order (q : gset Z) : list Z := merge_sort Z.le (elements q).

Definition message_victory (q : gset Z) : H unit :=
  s ← get;
  match quorum_info (peer_info s) (in_order q) (CEPH_FEATURES_ALL B) (get_supported B) 0 with
  | None => assertion false
  | Some (cf, mf, mr) =>
      cancel_timer ;;
      emit_all ((fun p => Send p
          {| m_from := rank s; m_addr := my_addr s; m_op := OP_VICTORY; m_epoch := epoch (logic s);
             m_monmap := monmap s; m_quorum := q; m_quorum_features := cf; m_mon_features := mf;
             m_mon_release := mr; m_sharing_bl := get_local_commands_bl mf |}) <$> filter (fun i => i <> rank s) (in_order q)) ;;
      win_election (epoch (logic s)) q mf
  end.

(** *** [ElectionLogic] *)

Definition init : H unit :=
  modify (fun s => set_epoch (read_persisted_epoch s) s) ;;
  s ← get;
  let e := epoch (logic s) in
  if e =? 0 then modify (set_epoch 1)
  else if negb (e mod 2 =? 0) then
    modify (set_epoch (add32 e 1)) ;; persist_epoch (add32 e 1)
  else mret tt.

Definition bump_epoch (e : Z) : H unit :=
  s ← get;
  assertion (epoch (logic s) <=? e) ;;
  modify (set_epoch e) ;;
  persist_epoch e ;;
  modify (set_electing_me false) ;;
  modify (set_acked_me ∅) ;;
  notify_bump_epoch.

Definition declare_standalone_victory : H unit :=
  s ← get;
  assertion ((paxos_size s =? 1) && (rank s =? 0)) ;;
  init ;;
  s ← get;
  bump_epoch (add32 (epoch (logic s)) 1).

Definition start : H unit :=
  s ← get;
  if negb (participating (logic s)) then mret tt
  else
    modify (set_acked_me ∅) ;;
    init ;;
    s ← get;
    (if epoch (logic s) mod 2 =? 0 then bump_epoch (add32 (epoch (logic s)) 1) else validate_store) ;;
    modify (set_electing_me true) ;;
    modify (fun s => set_acked_me ({[ rank s ]} ∪ acked_me (logic s)) s) ;;
    modify (set_leader_acked (-1)) ;;
    s ← get;
    propose_to_peers (epoch (logic s)) ;;
    _start.

(** [Monitor::start_election], reached through [trigger_new_election] and
    from outside the election. *)
Definition start_election : H unit :=
  _reset ;;
  modify (fun s => set_mon (rank s) STATE_ELECTING (leader s) (quorum s) s) ;;
  start.
Definition trigger_new_election : H unit := start_election.

(** [Monitor::win_standalone_election]. *)
Definition win_standalone_election : H unit :=
  declare_standalone_victory ;;
  s ← get;
  assertion (get_rank (monmap s) (my_addr s) =? 0) ;;
  modify (fun s => set_mon 0 (state s) (leader s) (quorum s) s) ;;
  s ← get;
  win_election (epoch (logic s)) {[ rank s ]} (get_supported B).

Definition can_upgrade_from (from_release : Z) : bool :=
  (from_release =? 0) || (ceph_release B <=? from_release + 2).

(** [Monitor::bootstrap]: a removed member and an unsupported release exit. *)
Definition bootstrap : H unit :=
  s ← get;
  let newrank := get_rank (monmap s) (my_addr s) in
  if negb (can_upgrade_from (min_mon_release (monmap s))) then emit Exit
  else if (newrank <? 0) && (0 <=? rank s) && has_ever_joined s then emit Exit
  else
    modify (fun s => set_mon newrank STATE_PROBING (leader s) (quorum s) s) ;;
    _reset ;;
    (if (map_size (monmap s) =? 1) && (newrank =? 0) then win_standalone_election
     else emit_all (Probe <$> filter (fun i => i <> newrank) (seqZ 0 (map_size (monmap s))))).
Definition reset_election : H unit := bootstrap.

Definition defer (who : Z) : H unit :=
  s ← get;
  when (electing_me (logic s)) (modify (set_acked_me ∅) ;; modify (set_electing_me false)) ;;
  modify (set_leader_acked who) ;;
  _defer_to who.

Definition declare_victory : H unit :=
  modify (set_leader_acked (-1)) ;;
  modify (set_electing_me false) ;;
  s ← get;
  let new_quorum := acked_me (logic s) in
  modify (set_acked_me ∅) ;;
  assertion (epoch (logic s) mod 2 =? 1) ;;
  bump_epoch (add32 (epoch (logic s)) 1) ;;
  message_victory new_quorum.

Definition end_election_period : H unit :=
  s ← get;
  if electing_me (logic s) && (paxos_size s / 2 <? Z.of_nat (size (acked_me (logic s)))) then declare_victory
  else if ever_participated s then start
  else reset_election.

Definition receive_propose (from mepoch : Z) : H unit :=
  s ← get;
  let e := epoch (logic s) in
  if mepoch <? e then
    if (e mod 2 =? 0) && negb (is_current_member s from) then trigger_new_election else mret tt
  else
    when (e <? mepoch) (bump_epoch mepoch) ;;
    s ← get;
    let acked := leader_acked (logic s) in
    if rank s <? from then
      if 0 <=? acked then assertion (acked <? from)
      else when (negb (electing_me (logic s))) trigger_new_election
    else if (acked <? 0) || (from <? acked) || (acked =? from) then defer from
    else mret tt.

Definition receive_ack (from from_epoch : Z) : H unit :=
  assertion (from_epoch mod 2 =? 1) ;;
  s ← get;
  if epoch (logic s) <? from_epoch then bump_epoch from_epoch ;; start
  else if electing_me (logic s) then
    modify (set_acked_me ({[ from ]} ∪ acked_me (logic s))) ;;
    s ← get;
    when (Z.of_nat (size (acked_me (logic s))) =? paxos_size s) declare_victory
  else assertion (0 <=? leader_acked (logic s)).

Definition receive_victory_claim (from from_epoch : Z) : H bool :=
  s ← get;
  assertion (from <? rank s) ;;
  assertion (from_epoch mod 2 =? 0) ;;
  modify (set_leader_acked (-1)) ;;
  if negb (from_epoch =? add32 (epoch (logic s)) 1) then
    bump_epoch from_epoch ;; start ;; mret false
  else bump_epoch from_epoch ;; mret true.

(** *** [Elector]'s message handlers; [con] is [get_connection()->get_features()] *)

Definition nak_old_peer (m : MMonElection) : H unit :=
  s ← get;
  emit (Send (m_from m)
    {| m_from := rank s; m_addr := my_addr s; m_op := OP_NAK; m_epoch := m_epoch m; m_monmap := monmap s;
       m_quorum := ∅; m_quorum_features := required_features s; m_mon_features := required_mon_features s;
       m_mon_release := min_mon_release (monmap s); m_sharing_bl := [] |}).

Definition missing_features (s : Monitor) (con : Z) : bool :=
  negb (Z.land (Z.lxor (required_features s) con) (required_features s) =? 0).

Definition handle_propose (con : Z) (m : MMonElection) : H unit :=
  assertion (m_epoch m mod 2 =? 1) ;;
  s ← get;
  if missing_features s con then nak_old_peer m
  else if m_mon_release m <? min_mon_release (monmap s) then nak_old_peer m
  else
    (* no return after this nak *)
    when (negb (contains_all (m_mon_features m) (required_mon_features s))) (nak_old_peer m) ;;
    receive_propose (m_from m) (m_epoch m).

Definition handle_ack (con : Z) (m : MMonElection) : H unit :=
  s ← get;
  assertion (m_epoch m =? epoch (logic s)) ;;
  if missing_features s con then mret tt
  else if negb (contains_all (m_mon_features m) (required_mon_features s)) then mret tt
  else
    when (electing_me (logic s))
      (modify (fun s => set_elector
         (<[ m_from m := {| cluster_features := con; mon_features := m_mon_features m;
                            mon_release := m_mon_release m |} ]> (peer_info s)) (expire_event s) s) ;;
       s ← get;
       assertion (bool_decide (acked_me (logic s) ⊆ dom (peer_info s)))) ;;
    receive_ack (m_from m) (m_epoch m).

Definition handle_victory (m : MMonElection) : H unit :=
  accept_victory ← receive_victory_claim (m_from m) (m_epoch m);
  when accept_victory
    (s ← get;
     lose_election (epoch (logic s)) (m_quorum m) (m_from m) ;;
     cancel_timer ;;
     assertion (negb (bool_decide (m_sharing_bl m = []))) ;;
     match decode_vector (m_sharing_bl m) with
     | None => assertion false
     | Some (new_cmds, _) => modify (set_leader_commands new_cmds)
     end).

Definition handle_nak (m : MMonElection) : H unit := emit Exit.

Definition dispatch (con : Z) (m : MMonElection) : H unit :=
  s ← get;
  if negb (participating (logic s)) then mret tt
  else if map_size (monmap s) <=? m_from m then mret tt
  else if negb (fsid (m_monmap m) =? fsid (monmap s)) then mret tt
  else if negb (bool_decide (m_addr m ∈ addrs (monmap s))) then mret tt
  else if map_epoch (monmap s) <? map_epoch (m_monmap m) then
    modify (set_monmap (m_monmap m)) ;;
    _ ← apply_transaction [PutMonMap (m_monmap m)];
    cancel_timer ;;
    bootstrap
  else
    match m_op m with
    | OP_PROPOSE => handle_propose con m
    | op =>
        if m_epoch m <? epoch (logic s) then mret tt
        else
          match op with
          | OP_ACK => handle_ack con m
          | OP_VICTORY => handle_victory m
          | _ => handle_nak m
          end
    end.

(** The guard of [Monitor::dispatch_op]. *)
Definition dispatch_op (con : Z) (m : MMonElection) : H unit :=
  s ← get;
  when (negb (is_probing (state s)) && negb (is_synchronizing (state s))) (dispatch con m).

(** "quorum enter" and "quorum exit". *)
Definition quorum_enter : H unit := modify (set_participating true) ;; start_election.
Definition quorum_exit : H unit := start_election ;; modify (set_participating false).

(** A new process on the same store: the constructors of [Monitor], [Elector]
    and [ElectionLogic]. *)
Definition restarted (s : Monitor) : Monitor :=
  {| rank := rank s; my_addr := my_addr s; monmap := monmap s; state := STATE_PROBING; leader := -1;
     quorum := ∅; has_ever_joined := has_ever_joined s; required_features := required_features s;
     required_mon_features := required_mon_features s; store_epoch := store_epoch s;
     store_monmap := store_monmap s; peer_info := ∅; expire_event := false;
     leader_mon_commands := mon_commands B;
     logic := {| epoch := 0; leader_acked := -1; participating := true; electing_me := false; acked_me := ∅ |} |}.

End Handlers.
End Elector.

(** ** A network of monitors *)

Module ElectionNet.
Import Mon Elector.

Section Net.
Context (B : build) (mm : MonMap).
#[local] Abbreviation n := (map_size mm).

(** What can happen to a monitor: a caller starts an election, the election
    timer fires, a message (sent at some time, to it) arrives over a connection
    with features [con], the monitor bootstraps, the process restarts, the
    operator changes its participation, it joins its first quorum. *)
Inductive action :=
| Call | Timer | Deliver (con : Z) (m : MMonElection) | Bootstrap | Restart | Enter | Leave | Joined.

Definition act (a : action) : handler Monitor event unit :=
  match a with
  | Call => start_election B
  | Timer => end_election_period B
  | Deliver con m => dispatch_op B con m
  | Bootstrap => bootstrap B
  | Restart => modify (restarted B)
  | Enter => quorum_enter B
  | Leave => quorum_exit B
  | Joined => modify set_joined
  end.

Definition sends (o : list event) : list (Z * MMonElection) :=
  omap (fun e => match e with Send to m => Some (to, m) | _ => None end) o.

(** A quorum installed at a monitor: the epoch, the leader, the members. *)
Definition installs (r : Z) (o : list event) : list (Z * (Z * Z * gset Z)) :=
  omap (fun e => match e with
    | Win e q => Some (r, (e, r, q))
    | Lose e q l => Some (r, (e, l, q))
    | _ => None end) o.

(** The monitors, every message ever sent (any of them may still arrive, any
    number of times), and the quorums installed so far. *)
Record net := { nodes : gmap Z Monitor; sent : list (Z * MMonElection); log : list (Z * (Z * Z * gset Z)) }.

Definition allowed (N : net) (r : Z) (s : Monitor) (a : action) : Prop :=
  match a with
  | Deliver _ m => (r, m) ∈ sent N
  | Timer => expire_event s = true
  | _ => True
  end.

Inductive step (N : net) : net -> Prop :=
| Step r s a s' o :
    nodes N !! r = Some s -> allowed N r s a -> act a s = Some (tt, s', o) ->
    step N {| nodes := <[ r := s' ]> (nodes N); sent := sent N ++ sends o; log := log N ++ installs r o |}.

(** The epoch the monitor has at least reached, as its store remembers it. *)
Definition floor (s : Monitor) : Z := if store_epoch s =? 0 then 1 else store_epoch s.

Definition initial (N : net) : Prop :=
  sent N = [] /\ log N = [] /\
  (forall r, 0 <= r < n <-> is_Some (nodes N !! r)) /\
  (forall r s, nodes N !! r = Some s -> exists s0,
     s = restarted B s0 /\ rank s0 = r /\ monmap s0 = mm /\ get_rank mm (my_addr s0) = r /\ 0 <= store_epoch s0).

(** Executions whose election epochs stay clear of the 32-bit wrap. *)
Definition bounded (N : net) : Prop := forall r s, nodes N !! r = Some s -> floor s + 3 < two32.

Inductive reachable : net -> Prop :=
| reach_init N : initial N -> reachable N
| reach_step N N' : reachable N -> bounded N -> step N N' -> reachable N'.

(** *** Invariants *)

Definition odd (e : Z) : Prop := e mod 2 = 1.
Definition even (e : Z) : Prop := e mod 2 = 0.

Definition proposed (ms : list (Z * MMonElection)) (l e : Z) : Prop :=
  exists to m, (to, m) ∈ ms /\ m_op m = OP_PROPOSE /\ m_from m = l /\ m_epoch m = e.
Definition acked (ms : list (Z * MMonElection)) (x l e : Z) : Prop :=
  exists m, (l, m) ∈ ms /\ m_op m = OP_ACK /\ m_from m = x /\ m_epoch m = e.

(** A quorum of leader [l] at epoch [E]: a majority, the leader its lowest
    rank, every other member having acknowledged the leader in the election
    epoch before. *)
Definition good_quorum (ms : list (Z * MMonElection)) (E l : Z) (q : gset Z) : Prop :=
  0 <= l < n /\ l ∈ q /\ (forall x, x ∈ q -> x = l \/ (l < x < n /\ acked ms x l (E - 1))) /\
  n < 2 * Z.of_nat (size q).

Definition static (r : Z) (s : Monitor) : Prop :=
  rank s = r /\ monmap s = mm /\ get_rank mm (my_addr s) = r /\ 0 <= r < n.

Definition fresh (s : Monitor) : Prop :=
  epoch (logic s) = 0 /\ electing_me (logic s) = false /\ acked_me (logic s) = ∅ /\
  (state s = STATE_PROBING \/ participating (logic s) = false).
Definition live (s : Monitor) : Prop := epoch (logic s) = floor s.

Record node_ok (ms : list (Z * MMonElection)) (r : Z) (s : Monitor) : Prop := {
  ok_static : static r s;
  ok_store : 0 <= store_epoch s;
  ok_phase : fresh s \/ live s;
  ok_electing : electing_me (logic s) = true ->
    odd (epoch (logic s)) /\ r ∈ acked_me (logic s) /\ leader_acked (logic s) = -1;
  ok_idle : electing_me (logic s) = false -> acked_me (logic s) = ∅;
  ok_odd : live s -> odd (epoch (logic s)) -> electing_me (logic s) = true \/ 0 <= leader_acked (logic s);
  ok_leader : -1 <= leader_acked (logic s) < r;
  ok_peers : acked_me (logic s) ⊆ dom (peer_info s);
  ok_acks : forall x, x ∈ acked_me (logic s) -> x = r \/ (r < x < n /\ acked ms x r (epoch (logic s)))
}.

(** What a step of monitor [r] sends. *)
Definition out_ok (ms : list (Z * MMonElection)) (r : Z) (s' : Monitor) (x : Z * MMonElection) : Prop :=
  let '(to, m) := x in
  m_from m = r /\ m_monmap m = mm /\
  match m_op m with
  | OP_PROPOSE => odd (m_epoch m) /\ 1 <= m_epoch m <= floor s' /\ to <> r
  | OP_ACK => odd (m_epoch m) /\ to < r /\ m_epoch m <= floor s' /\ proposed ms to (m_epoch m)
  | OP_VICTORY => even (m_epoch m) /\ r < to /\ m_epoch m <= floor s' /\ to ∈ m_quorum m /\
      good_quorum ms (m_epoch m) r (m_quorum m) /\ (exists f, m_sharing_bl m = get_local_commands_bl B f)
  | OP_NAK => True
  end.

(** What it installs: a quorum of a new, even epoch. *)
Definition install_ok (ms : list (Z * MMonElection)) (r : Z) (s s' : Monitor) (x : Z * (Z * Z * gset Z)) : Prop :=
  let '(y, (E, l, q)) := x in
  y = r /\ even E /\ floor s < E /\ E = floor s' /\ r ∈ q /\ good_quorum ms E l q.

Record step_ok (ms : list (Z * MMonElection)) (r : Z) (s s' : Monitor) (o : list event) : Prop := {
  so_node : node_ok (ms ++ sends o) r s';
  so_floor : floor s <= floor s';
  so_out : Forall (out_ok ms r s') (sends o);
  so_log : Forall (install_ok ms r s s') (installs r o);
  so_one : (length (installs r o) <= 1)%nat
}.
End Net.
End ElectionNet.

Module ElectionFacts.
Import Mon Elector ElectionNet.

#[local] Ltac Zify.zify_post_hook ::= Z.div_mod_to_equations.

Section Facts.
Context (B : build) (mm : MonMap).
#[local] Abbreviation n := (map_size mm).
#[local] Abbreviation safely := (works (build_works B)).
#[local] Abbreviation node_ok := (ElectionNet.node_ok mm).
#[local] Abbreviation static := (ElectionNet.static mm).
#[local] Abbreviation out_ok := (ElectionNet.out_ok B mm).
#[local] Abbreviation install_ok := (ElectionNet.install_ok mm).
#[local] Abbreviation step_ok := (ElectionNet.step_ok B mm).
#[local] Abbreviation good_quorum := (ElectionNet.good_quorum mm).

Lemma sends_app a b : sends (a ++ b) = sends a ++ sends b.
Proof. apply omap_app. Qed.
Lemma installs_app r a b : installs r (a ++ b) = installs r a ++ installs r b.
Proof. apply omap_app. Qed.

Lemma sends_fmap {A} (f : A -> Z) (g : A -> MMonElection) l :
  sends ((fun x => Send (f x) (g x)) <$> l) = (fun x => (f x, g x)) <$> l.
Proof. unfold sends. induction l as [|a l IH]; [done|]. cbn. f_equal. exact IH. Qed.
Lemma installs_fmap {A} r (f : A -> Z) (g : A -> MMonElection) l :
  installs r ((fun x => Send (f x) (g x)) <$> l) = [].
Proof. unfold installs. induction l; simpl; done. Qed.
Lemma probes_nothing r l : sends (Probe <$> l) = [] /\ installs r (Probe <$> l) = [].
Proof. unfold sends, installs. induction l as [|a l [IH1 IH2]]; simpl; auto. Qed.

Lemma acked_mono ms ms' x l e : acked ms x l e -> acked (ms ++ ms') x l e.
Proof. intros (m & Hm & ?). exists m. set_solver. Qed.
Lemma good_quorum_mono ms ms' E l q : good_quorum ms E l q -> good_quorum (ms ++ ms') E l q.
Proof.
  intros (? & ? & Hx & ?). split_and!; [lia|lia|done| |done]. intros x Hxq.
  destruct (Hx x Hxq) as [->|[? ?]]; [by left|right]. auto using acked_mono.
Qed.

Lemma node_ok_incl ms ms' r s : ms ⊆ ms' -> node_ok ms r s -> node_ok ms' r s.
Proof.
  intros Hi []. split; try done. intros x Hx. destruct (ok_acks0 x Hx) as [->|[? (m & Hm & ?)]]; [by left|right].
  split; [done|]. exists m. split; [by apply Hi|done].
Qed.

Lemma static_ext r s s' : rank s' = r -> monmap s' = monmap s -> my_addr s' = my_addr s -> static r s -> static r s'.
Proof. intros ? Em Ea (? & ? & ? & ?). unfold ElectionNet.static. by rewrite Em, Ea. Qed.

(** A step that only changes the monitor, and one that does nothing. *)
Lemma step_ok_quiet ms r s s' o :
  node_ok ms r s' -> floor s <= floor s' -> sends o = [] -> installs r o = [] -> step_ok ms r s s' o.
Proof.
  intros H ? Hs Hi. split; rewrite ?Hs, ?Hi, ?app_nil_r; try done; simpl; auto; lia.
Qed.
Lemma step_ok_same ms r s : node_ok ms r s -> step_ok ms r s s [].
Proof. intros H. by apply step_ok_quiet. Qed.

Lemma step_ok_from ms r s s1 s' o : floor s <= floor s1 -> step_ok ms r s1 s' o -> step_ok ms r s s' o.
Proof.
  intros Hf []. split; try done; [lia|]. eapply Forall_impl; [exact so_log0|].
  intros [? [[E l] q]]. unfold ElectionNet.install_ok. intuition lia.
Qed.

Lemma step_ok_nak ms r s s' o to m :
  m_from m = r -> m_monmap m = mm -> m_op m = OP_NAK -> step_ok ms r s s' o -> step_ok ms r s s' (Send to m :: o).
Proof.
  intros ? ? Hop []. split; try done.
  - eapply node_ok_incl; [|done]. cbn. set_solver.
  - cbn. constructor; [|done]. cbn. by rewrite Hop.
Qed.

(** Proposals. *)
Lemma proposals_ok ms r s s' e l :
  static r s -> odd e -> 1 <= e <= floor s' -> (forall i, i ∈ l -> i <> r) ->
  Forall (out_ok ms r s') ((fun i : Z => (i, mk_msg B s OP_PROPOSE e)) <$> l).
Proof.
  intros (Hr & Hm & _) ? ? Hi. apply Forall_fmap, Forall_forall. intros i Hin. simpl. rewrite Hr, Hm. auto 10.
Qed.

(** The epoch [start] reaches. *)
Definition next_election (s : Monitor) : Z :=
  if store_epoch s =? 0 then 1 else if store_epoch s mod 2 =? 0 then store_epoch s + 1 else store_epoch s + 2.

Lemma next_election_odd s : odd (next_election s).
Proof. unfold next_election, odd. case_tests; lia. Qed.

(** A write to the store. *)
Lemma transaction_spec t s :
  safely (apply_transaction B t) s (fun r s' o => 0 <= r /\ s' = foldl (fun s p => apply_put p s) s t /\ o = []).
Proof.
  unfold apply_transaction. cbv zeta. destruct (Z.leb_spec 0 (submit_transaction_sync B t)) as [Hr|Hr].
  - by eapply works_eq.
  - apply works_fails; [|done]. intros [Hs _ _]. specialize (Hs t). lia.
Qed.
Lemma persist_spec e s : safely (persist_epoch B e) s (fun _ s' o => s' = set_store_epoch e s /\ o = []).
Proof. unfold persist_epoch. hstep. eapply works_mono; [apply transaction_spec|]. intros r s' o (_ & -> & ->). hstep. done. Qed.
Lemma validate_spec s : safely (validate_store B) s (fun _ s' o => s' = s /\ o = []).
Proof.
  unfold validate_store. hstep. eapply works_mono; [apply transaction_spec|]. intros r s' o (Hr & -> & ->). hstep; [by apply Z.leb_le|done].
Qed.

Lemma init_spec s :
  0 <= store_epoch s -> floor s + 3 < two32 ->
  let e := if store_epoch s =? 0 then 1 else if store_epoch s mod 2 =? 0 then store_epoch s else store_epoch s + 1 in
  safely (init B) s (fun _ s' o => s' = set_store_epoch (if store_epoch s =? 0 then 0 else e) (set_epoch e s) /\ o = []).
Proof.
  intros Hs Hb. unfold init, floor, read_persisted_epoch in *. do 4 hstep. cbv zeta.
  destruct s; cbn -[Z.modulo] in *. destruct (Z.eqb_spec store_epoch0 0) as [->|]; [done|].
  destruct (Z.eqb_spec (store_epoch0 mod 2) 0); cbn -[Z.modulo]; [done|].
  hstep. hstep. eapply works_mono; [apply persist_spec|]. intros _ s' o (-> & ->). unfold add32. by rewrite Z.mod_small by lia.
Qed.

(** Clearing the election when the monitor moves to a later epoch. *)
Definition bumped (e : Z) (s : Monitor) : Monitor :=
  set_mon (rank s) STATE_ELECTING (leader s) ∅
    (set_acked_me ∅ (set_electing_me false (set_store_epoch e (set_epoch e s)))).

Lemma bump_spec s e :
  epoch (logic s) <= e -> safely (bump_epoch B e) s (fun _ s' o => s' = bumped e s /\ o = []).
Proof.
  intros He. unfold bump_epoch, notify_bump_epoch, join_election, _reset. do 3 hstep. hstep; [by apply Z.leb_le|].
  do 3 hstep. eapply works_mono; [apply persist_spec|]. intros _ s' o (-> & ->). repeat hstep. done.
Qed.

(** The state [start] leaves. *)
Definition started (s s' : Monitor) : Prop :=
  rank s' = rank s /\ monmap s' = monmap s /\ my_addr s' = my_addr s /\
  store_epoch s' = (if store_epoch s =? 0 then 0 else next_election s) /\
  epoch (logic s') = next_election s /\ electing_me (logic s') = true /\
  acked_me (logic s') = {[ rank s ]} /\ leader_acked (logic s') = -1 /\ rank s ∈ dom (peer_info s') /\
  participating (logic s') = participating (logic s).

Lemma start_spec s :
  participating (logic s) = true -> 0 <= store_epoch s -> floor s + 3 < two32 ->
  safely (start B) s (fun _ s' o => started s s' /\
    exists s1 l, rank s1 = rank s /\ monmap s1 = monmap s /\ my_addr s1 = my_addr s /\
      (forall i, i ∈ l -> i <> rank s) /\ o = (fun i => Send i (mk_msg B s1 OP_PROPOSE (next_election s))) <$> l).
Proof.
  intros Hp Hs Hb. unfold start. hstep. hstep. rewrite Hp. cbn [negb].
  hstep. hstep. hstep. eapply works_mono; [apply init_spec; cbn; done|]. intros _ s0 o0 (-> & ->).
  hstep. hstep. hstep.
  set (s1 := set_store_epoch _ _). cbv beta zeta.
  assert (safely (if epoch (logic s1) mod 2 =? 0 then bump_epoch B (add32 (epoch (logic s1)) 1) else validate_store B) s1 (fun _ s2 o =>
    o = [] /\ rank s2 = rank s /\ monmap s2 = monmap s /\ my_addr s2 = my_addr s /\
    store_epoch s2 = (if store_epoch s =? 0 then 0 else next_election s) /\
    epoch (logic s2) = next_election s /\ acked_me (logic s2) = ∅ /\ participating (logic s2) = participating (logic s))) as H2.
  { unfold floor in Hb. unfold next_election. subst s1. cbn -[Z.modulo].
    destruct (Z.eqb_spec (store_epoch s) 0) as [E0|E0]; cbn -[Z.modulo].
    { eapply works_mono; [apply validate_spec|]. intros _ s2 o2 (-> & ->). done. }
    destruct (Z.eqb_spec (store_epoch s mod 2) 0) as [E1|E1]; cbn -[Z.modulo].
    - rewrite E1. cbn. unfold add32. rewrite Z.mod_small by lia. eapply works_mono; [apply bump_spec; cbn; lia|]. by intros _ s2 o2 (-> & ->).
    - rewrite (proj2 (Z.eqb_eq _ _)) by lia. unfold add32. rewrite Z.mod_small by lia.
      eapply works_mono; [apply bump_spec; cbn; lia|]. intros _ s2 o2 (-> & ->). cbn. split_and!; done || lia. }
  eapply works_mono; [exact H2|]. clear H2. intros _ s2 o2 (-> & R & M & A & St & Ep & Ac & Pa).
  unfold propose_to_peers, _start, reset_timer, cancel_timer.
  repeat hstep. cbn. rewrite ?R, ?M, ?A, ?St, ?Ep, ?Ac, ?Pa. split.
  - unfold started; cbn. rewrite ?R, ?M, ?A, ?St, ?Ep, ?Ac, ?Pa.
    split_and!; try done; [set_solver|]. rewrite dom_insert_L. set_solver.
  - rewrite app_nil_r. eexists _, _. split_and!; [| | | |reflexivity]; try done.
    intros i Hi. cbn in Hi. apply list_elem_of_filter in Hi as [? _]. congruence.
Qed.

Lemma started_ok ms r s s' : static r s -> 0 <= store_epoch s -> started s s' -> node_ok ms r s' /\ floor s <= floor s'.
Proof.
  intros (Hr & Hm & Hg & Hn) Hs (R & M & A & St & Ep & El & Ac & La & Di & _).
  pose proof (next_election_odd s) as Ho.
  assert (floor s' = next_election s) as Hf.
  { unfold floor. rewrite St. unfold next_election. case_tests; lia. }
  assert (floor s <= next_election s) by (unfold floor, next_election; case_tests; lia).
  split; [|lia]. split; rewrite ?Ep, ?El, ?Ac, ?La.
  - unfold ElectionNet.static. by rewrite R, M, A.
  - rewrite St. unfold next_election. case_tests; lia.
  - right. unfold live. congruence.
  - intros _. split_and!; [done|set_solver|done].
  - done.
  - by left.
  - lia.
  - set_solver.
  - intros x Hx. left. set_solver.
Qed.

Lemma start_ok ms r s :
  static r s -> 0 <= store_epoch s -> floor s + 3 < two32 -> (participating (logic s) = true \/ node_ok ms r s) ->
  safely (start B) s (fun _ s' o => step_ok ms r s s' o).
Proof.
  intros Hst Hs Hb Hp. destruct (participating (logic s)) eqn:E.
  - eapply works_mono; [by apply start_spec|]. intros _ s' o (Hs' & s1 & l & R & M & A & Hi & ->).
    destruct (started_ok (ms ++ sends ((fun i => Send i (mk_msg B s1 OP_PROPOSE (next_election s))) <$> l)) r s s' Hst Hs Hs') as [Hn Hf].
    split; [done|done| |by rewrite installs_fmap|rewrite installs_fmap; simpl; lia].
    rewrite sends_fmap. apply proposals_ok; [|apply next_election_odd| |].
    + destruct Hst as (? & ? & ? & ?). unfold ElectionNet.static. by rewrite R, M, A.
    + pose proof (next_election_odd s). destruct Hs' as (_ & _ & _ & St & _). unfold floor. rewrite St.
      unfold next_election in *. case_tests; lia.
    + destruct Hst as (<- & _). done.
  - destruct Hp as [|Hn]; [done|]. unfold start. hstep. hstep. rewrite E. cbn. hstep. by apply step_ok_same.
Qed.

Lemma start_election_ok ms r s :
  static r s -> 0 <= store_epoch s -> floor s + 3 < two32 -> (participating (logic s) = true \/ node_ok ms r s) ->
  safely (start_election B) s (fun _ s' o => step_ok ms r s s' o).
Proof.
  intros Hst Hs Hb Hp. unfold start_election, _reset. do 4 hstep. cbn.
  eapply works_mono; [apply (start_ok ms r)|]; try done.
  - cbn. destruct Hp as [?|Hok]; [by left|]. destruct (participating (logic s)) eqn:E; [by left|right].
    destruct Hok. split; try done. cbn. destruct ok_phase0 as [(?&?&?&?)|?]; [left|by right]. split_and!; auto.
  - intros [] s' o Hs'. eapply step_ok_from; [|exact Hs']. done.
Qed.

Lemma quorum_info_some peers q cf mf mr :
  (forall x, x ∈ q -> x ∈ dom peers) -> exists i, quorum_info peers q cf mf mr = Some i.
Proof.
  revert cf mf mr. induction q as [|x q IH]; intros cf mf mr Hq; simpl; [by eexists|].
  destruct (proj1 (elem_of_dom peers x)) as [i Hi]; [apply Hq; set_solver|]. rewrite Hi. simpl.
  apply IH. intros; apply Hq; set_solver.
Qed.

Lemma elem_of_in_order x q : x ∈ in_order q <-> x ∈ q.
Proof. unfold in_order. rewrite merge_sort_Permutation. apply elem_of_elements. Qed.

Lemma live_next s : 0 <= store_epoch s -> live s -> floor s + 3 < two32 ->
  add32 (epoch (logic s)) 1 = epoch (logic s) + 1 /\ 1 <= epoch (logic s).
Proof.
  unfold live, add32, floor. intros ? E ?. rewrite E in *. case_tests; (split; [apply Z.mod_small|]); lia.
Qed.

Lemma electing_live ms r s : node_ok ms r s -> electing_me (logic s) = true -> live s.
Proof. intros [_ _ [(? & ? & _)|?] _ _ _ _ _ _] ?; [congruence|done]. Qed.

Lemma declare_victory_ok ms r s :
  node_ok ms r s -> floor s + 3 < two32 -> electing_me (logic s) = true ->
  n < 2 * Z.of_nat (size (acked_me (logic s))) ->
  safely (declare_victory B) s (fun _ s' o => step_ok ms r s s' o).
Proof.
  intros Hok Hb He Hq. pose proof (electing_live _ _ _ Hok He) as Hl.
  destruct Hok as [Hst Hs _ Hel _ _ Hla Hpe Hac]. destruct (Hel He) as (Hodd & Hme & _).
  destruct (live_next s Hs Hl Hb) as [Hn1 H1]. pose proof Hst as (Hr & Hm & _).
  unfold declare_victory. do 10 hstep. { cbn -[Z.modulo]. by apply Z.eqb_eq. }
  hstep. cbn -[Z.modulo]. rewrite Hn1.
  eapply works_mono; [apply bump_spec; cbn; lia|]. intros _ sb ob (-> & ->).
  unfold message_victory, cancel_timer, win_election. hstep. hstep. cbn.
  destruct (quorum_info_some (peer_info s) (in_order (acked_me (logic s))) (CEPH_FEATURES_ALL B) (get_supported B) 0)
    as [[[cf mf] mr] ->]. { intros x Hx%elem_of_in_order. set_solver. }
  repeat hstep; [done|]. cbn. rewrite Hr, Hm.
  set (q := acked_me (logic s)) in *. set (e := epoch (logic s)) in *.
  assert (good_quorum ms (e + 1) r q) as Hgq.
  { destruct Hst as (_ & _ & _ & ?). split_and!; [lia|lia|done| |done]. intros x Hx. replace (e + 1 - 1) with e by lia. by apply Hac. }
  set (msgs := _ <$> filter _ (in_order q)).
  assert (sends (msgs ++ [Win (e + 1) q]) = sends msgs) as E1 by (rewrite sends_app; apply app_nil_r).
  assert (installs r (msgs ++ [Win (e + 1) q]) = [(r, (e + 1, r, q))]) as E2.
  { rewrite installs_app. unfold msgs. by rewrite installs_fmap. }
  assert (floor s = e) as Hf by done.
  split; rewrite ?E1, ?E2.
  - split; cbn; try done; try lia.
    + by apply (static_ext r s).
    + right. unfold live, floor. cbn. case_tests; lia.
    + unfold live, odd, floor. cbn -[Z.modulo]. unfold odd in Hodd. lia.
  - unfold floor at 2. cbn. case_tests; lia.
  - unfold msgs. rewrite sends_fmap. apply Forall_fmap, Forall_forall. intros x Hx.
    apply list_elem_of_filter in Hx as [Hne Hx%elem_of_in_order]. simpl.
    split_and!; [done|done| | | |done|done|by eexists].
    + unfold even, odd in *. lia.
    + destruct (Hac x Hx) as [->|[? _]]; [done|lia].
    + unfold floor. cbn. case_tests; lia.
  - constructor; [|constructor]. simpl. split_and!; [done| |lia| |done|done].
    + unfold even, odd in *. lia.
    + unfold floor. cbn. case_tests; lia.
  - simpl. lia.
Qed.

Lemma bumped_floor e s : 1 <= e -> floor (bumped e s) = e.
Proof. intros. unfold floor. cbn. case_tests; lia. Qed.

Lemma bumped_ok ms r s e la :
  node_ok ms r s -> 1 <= e -> -1 <= la < r -> (odd e -> 0 <= la) ->
  node_ok ms r (set_leader_acked la (bumped e s)).
Proof.
  intros [Hst _ _ _ _ _ Hla _ _] He Hr Ho. split; cbn; try done; try lia.
  - right. unfold live. change (floor _) with (floor (bumped e s)). by rewrite bumped_floor.
Qed.

Lemma defer_ok ms r s from :
  static r s -> 0 <= store_epoch s -> live s -> odd (epoch (logic s)) ->
  (electing_me (logic s) = false -> acked_me (logic s) = ∅) -> 0 <= from < r ->
  proposed ms from (epoch (logic s)) -> safely (defer B from) s (fun _ s' o => step_ok ms r s s' o).
Proof.
  intros Hst Hs Hl Ho Hid Hf Hp. pose proof Hst as (Hr & Hm & _).
  assert (safely (defer B from) s (fun _ s' o =>
    o = [Send from (mk_msg B s OP_ACK (epoch (logic s)))] /\ rank s' = rank s /\ monmap s' = monmap s /\ my_addr s' = my_addr s /\
    store_epoch s' = store_epoch s /\ epoch (logic s') = epoch (logic s) /\ leader_acked (logic s') = from /\
    electing_me (logic s') = false /\ acked_me (logic s') = ∅)) as Hrun.
  { unfold defer, _defer_to, reset_timer, cancel_timer. hstep. hstep. hstep.
    destruct (electing_me (logic s)) eqn:E; cbn [when]; repeat hstep; cbn; split_and!; try done; auto. }
  eapply works_mono; [exact Hrun|]. intros _ s' o (-> & R & M & A & St & Ep & La & El & Ac).
  assert (floor s' = floor s) as Hfl by (unfold floor; by rewrite St).
  split; cbn; [|lia| |by constructor|lia].
  - split; rewrite ?St, ?Ep, ?La, ?El, ?Ac; try done; try lia.
    + apply (static_ext r s); congruence.
    + right. unfold live. congruence.
  - constructor; [|constructor]. cbn. split_and!; try done; try lia. unfold live in Hl. lia.
Qed.

Lemma live_floor s : 0 <= store_epoch s -> 1 <= floor s.
Proof. unfold floor. case_tests; lia. Qed.

(** The second half of [receive_propose], in the epoch of the proposal. *)
Definition judge_propose (from : Z) : handler Monitor event unit :=
  s ← get;
  let acked := leader_acked (logic s) in
  if rank s <? from then
    if 0 <=? acked then assertion (acked <? from)
    else when (negb (electing_me (logic s))) (trigger_new_election B)
  else if (acked <? 0) || (from <? acked) || (acked =? from) then defer B from
  else mret tt.

Lemma judge_propose_ok ms r s from :
  static r s -> 0 <= store_epoch s -> live s -> floor s + 3 < two32 -> participating (logic s) = true ->
  odd (epoch (logic s)) -> -1 <= leader_acked (logic s) < r ->
  (electing_me (logic s) = false -> acked_me (logic s) = ∅) ->
  (electing_me (logic s) = true \/ 0 <= leader_acked (logic s) -> node_ok ms r s) ->
  0 <= from -> from <> r -> proposed ms from (epoch (logic s)) ->
  safely (judge_propose from) s (fun _ s' o => step_ok ms r s s' o).
Proof.
  intros Hst Hs Hl Hb Hpa Ho Hla Hid Hok Hf Hne Hp. pose proof Hst as (Hr & _).
  unfold judge_propose. hstep. hstep. cbv zeta. rewrite Hr. hstep; zbool.
  - hstep; zbool; [hstep; [apply Z.ltb_lt; lia|]; apply step_ok_same; auto|].
    hstep; zbool; [|apply step_ok_same; auto]. apply start_election_ok; auto.
  - hstep; zbool; [apply defer_ok; auto; lia..|].
    hstep. apply step_ok_same. apply Hok. right. lia.
Qed.

Lemma receive_propose_ok ms r s from mepoch :
  node_ok ms r s -> live s -> floor s + 3 < two32 -> participating (logic s) = true ->
  odd mepoch -> 1 <= mepoch -> mepoch + 3 < two32 -> 0 <= from -> from <> r -> proposed ms from mepoch ->
  safely (receive_propose B from mepoch) s (fun _ s' o => step_ok ms r s s' o).
Proof.
  intros Hok Hl Hb Hpa Ho H1 Hb2 Hf Hne Hp. pose proof Hok as [Hst Hs _ _ Hid _ Hla _ _].
  pose proof (live_floor s Hs) as Hfl. pose proof Hl as Hl'. unfold live in Hl'.
  unfold receive_propose. hstep. hstep. cbv zeta. hstep; zbool.
  { hstep; [by apply start_election_ok; auto|]. hstep. by apply step_ok_same. }
  fold (judge_propose from). hstep. hstep; zbool.
  - eapply works_mono; [apply bump_spec; lia|]. intros _ sb ob (-> & ->).
    eapply works_mono; [apply (judge_propose_ok ms r)|]; rewrite ?bumped_floor; try done; cbn; try lia.
    + unfold live. by rewrite bumped_floor.
    + intros [?|?]; [done|].
      pose proof (bumped_ok ms r s mepoch (leader_acked (logic s)) Hok H1 Hla ltac:(done)) as Hb'.
      by destruct s as [? ? ? ? ? ? ? ? ? ? ? ? ? []].
    + intros [] s' o Hs'. eapply step_ok_from; [|exact Hs']. rewrite bumped_floor; lia.
  - assert (mepoch = epoch (logic s)) as -> by lia. eapply works_mono; [apply (judge_propose_ok ms r)|]; try done.
Qed.

Lemma receive_ack_ok ms r s from :
  node_ok ms r s -> live s -> floor s + 3 < two32 -> odd (epoch (logic s)) ->
  r < from < n -> acked ms from r (epoch (logic s)) ->
  (electing_me (logic s) = true -> from ∈ dom (peer_info s)) ->
  safely (receive_ack B from (epoch (logic s))) s (fun _ s' o => step_ok ms r s s' o).
Proof.
  intros Hok Hl Hb Ho Hf Hac Hdom. pose proof Hok as [Hst Hs Hph Hel Hid Hod Hla Hpe Hacs].
  unfold receive_ack. hstep. hstep; [by apply Z.eqb_eq|]. hstep. hstep. hstep; zbool; [lia|]. hstep.
  - destruct (Hel H0) as (? & Hme & Hlm). hstep. hstep. hstep. hstep. cbn.
    set (s1 := set_acked_me _ s).
    assert (node_ok ms r s1) as Hok1.
    { split; cbn; rewrite ?H0; try done.
      - by right.
      - intros _. split_and!; [done|set_solver|done].
      - set_solver.
      - set_solver.
      - intros x [Hx|Hx]%elem_of_union; [right|by apply Hacs]. apply elem_of_singleton in Hx as ->. done. }
    hstep; zbool; [|by apply step_ok_quiet].
    eapply works_mono; [apply (declare_victory_ok ms r s1 Hok1 Hb H0)|].
    { unfold paxos_size in *. destruct Hst as (_ & Hm & _ & ?). cbn in *. rewrite Hm in *. lia. }
    intros [] s' o Hs'. eapply step_ok_from; [|exact Hs']; done.
  - hstep; [|by apply step_ok_same]. apply Z.leb_le. destruct (Hod Hl Ho) as [?|?]; [congruence|done].
Qed.

Lemma handle_ack_ok ms r s con m :
  node_ok ms r s -> live s -> floor s + 3 < two32 -> odd (m_epoch m) -> m_epoch m = epoch (logic s) ->
  r < m_from m < n -> acked ms (m_from m) r (m_epoch m) ->
  safely (handle_ack B con m) s (fun _ s' o => step_ok ms r s s' o).
Proof.
  intros Hok Hl Hb Ho He Hf Hac. rewrite He in *. unfold handle_ack. rewrite He. hstep. hstep. hstep.
  hstep; [by apply Z.eqb_refl|]. hstep; [hstep; by apply step_ok_same|]. hstep; [hstep; by apply step_ok_same|].
  hstep. hstep.
  - do 4 hstep. pose proof Hok as [Hst Hs Hph Hel Hid Hod Hla Hpe Hacs].
    hstep. { apply bool_decide_eq_true. cbn. rewrite dom_insert. set_solver. }
    set (s1 := set_elector _ _ s). assert (node_ok ms r s1) as Hok1.
    { split; cbn; try done. rewrite dom_insert. set_solver. }
    change (epoch (logic s)) with (epoch (logic s1)).
    eapply works_mono; [apply (receive_ack_ok ms r s1 (m_from m))|]; try done.
    { intros _. cbn. rewrite dom_insert. set_solver. }
    intros [] s' o Hs'. eapply step_ok_from; [|exact Hs']; done.
  - apply receive_ack_ok; try done. congruence.
Qed.

(** The commands a leader sends are not empty and can be read. *)
Definition shares_commands (m : MMonElection) : Prop := exists f, m_sharing_bl m = get_local_commands_bl B f.
Lemma shared_commands m : shares_commands m ->
  m_sharing_bl m <> [] /\ (build_works B -> is_Some (decode_vector (m_sharing_bl m))).
Proof.
  assert (forall cmds, CommandFacts.fits cmds -> is_Some (decode_vector (encode_vector cmds))) as Hd.
  { intros cmds Hc%CommandFacts.reads_vector. specialize (Hc []). rewrite app_nil_r in Hc. rewrite Hc. by eexists. }
  intros [f ->]. unfold get_local_commands_bl. case_match; (split; [done|]); intros []; auto.
Qed.

Lemma handle_victory_ok ms r s m :
  node_ok ms r s -> floor s + 3 < two32 -> participating (logic s) = true -> live s -> even (m_epoch m) ->
  epoch (logic s) <= m_epoch m -> m_epoch m + 3 < two32 -> 0 <= m_from m < r -> r ∈ m_quorum m ->
  good_quorum ms (m_epoch m) (m_from m) (m_quorum m) -> shares_commands m ->
  safely (handle_victory B m) s (fun _ s' o => step_ok ms r s s' o).
Proof.
  intros Hok Hb Hpa Hl He Hle Hb2 Hf Hin Hgq [Hbl Hdec]%shared_commands. pose proof Hok as [Hst Hs Hph Hel Hid Hod Hla Hpe Hacs].
  destruct (live_next s Hs Hl Hb) as [Hn H1]. pose proof Hst as (Hr & _). pose proof Hl as Hl'. unfold live in Hl'.
  unfold handle_victory, receive_victory_claim. do 5 hstep; [apply Z.ltb_lt; lia|].
  hstep. hstep; [by apply Z.eqb_eq|]. hstep. hstep. rewrite Hn.
  set (E := m_epoch m) in *. set (s1 := set_leader_acked (-1) s).
  hstep; zbool.
  - do 1 hstep. eapply works_mono; [apply bump_spec; cbn; lia|]. intros _ sb ob (-> & ->). hstep.
    assert (floor s <= floor (bumped E s1)) by (rewrite bumped_floor; lia).
    eapply works_mono; [apply (start_ok ms r (bumped E s1))|].
    { done. } { cbn; lia. } { rewrite bumped_floor; lia. } { by left. }
    intros [] s' o Hs'. repeat (hstep; cbn [when]).
    rewrite ?app_nil_r. eapply step_ok_from; [|exact Hs']; done.
  - do 1 hstep. eapply works_mono; [apply bump_spec; cbn; lia|]. intros _ sb ob (-> & ->). hstep.
    unfold lose_election, cancel_timer. cbn [when]. repeat hstep; [by rewrite bool_decide_eq_false_2|].
    destruct (decode_vector (m_sharing_bl m)) as [[new_cmds rest]|]; [hstep|apply works_fails; [|done]; by intros [? [=]]%Hdec]. cbn.
    match goal with |- ElectionNet.step_ok _ _ _ _ _ ?x _ => set (s2 := x) end.
    assert (floor s2 = E) as HfE by (unfold floor; cbn; case_tests; lia).
    split; cbn [sends installs omap list_omap]; rewrite ?HfE, ?app_nil_r.
    + split; cbn; try done; try lia.
      * right. by unfold live.
      * unfold odd, even in *. lia.
    + lia.
    + done.
    + constructor; [|constructor]. cbn. rewrite HfE. split_and!; try done. lia.
    + simpl. lia.
Qed.

Lemma bootstrap_ok ms r s :
  1 < n -> node_ok ms r s -> safely (bootstrap B) s (fun _ s' o => step_ok ms r s s' o).
Proof.
  intros Hn Hok. pose proof Hok as [Hst Hs Hph Hel Hid Hod Hla Hpe Hacs]. pose proof Hst as (Hr & Hm & Hg & ?).
  unfold bootstrap, _reset. hstep. hstep. cbv zeta. rewrite Hm, Hg.
  hstep; [hstep; by apply step_ok_quiet|]. hstep; [hstep; by apply step_ok_quiet|].
  do 4 hstep. destruct (Z.eqb_spec n 1) as [?|_]; [lia|]. cbn [andb]. hstep. cbn. destruct (probes_nothing r (filter (fun i => i <> r) (seqZ 0 n))).
  apply step_ok_quiet; try done. split; cbn; try done.
  destruct Hph as [(? & ? & ? & ?)|?]; [left|by right]. split_and!; auto.
Qed.

Lemma end_election_period_ok ms r s :
  1 < n -> node_ok ms r s -> floor s + 3 < two32 ->
  safely (end_election_period B) s (fun _ s' o => step_ok ms r s s' o).
Proof.
  intros Hn Hok Hb. pose proof Hok as [Hst Hs Hph Hel Hid Hod Hla Hpe Hacs]. pose proof Hst as (Hr & Hm & Hg & ?).
  unfold end_election_period, paxos_size. hstep. hstep. rewrite Hm. hstep; zbool.
  - apply declare_victory_ok; try done. lia.
  - hstep; [apply start_ok; auto|]. by apply bootstrap_ok.
  - hstep; [apply start_ok; auto|]. by apply bootstrap_ok.
Qed.

(** *** Messages and the network *)

(** A message on the wire, against the epochs the monitors have reached. *)
Definition msg_ok (ms : list (Z * MMonElection)) (fl : Z -> Z) (x : Z * MMonElection) : Prop :=
  let '(to, m) := x in
  0 <= m_from m < n /\ m_monmap m = mm /\
  match m_op m with
  | OP_PROPOSE => odd (m_epoch m) /\ 1 <= m_epoch m <= fl (m_from m) /\ to <> m_from m
  | OP_ACK => odd (m_epoch m) /\ to < m_from m /\ m_epoch m <= fl (m_from m) /\ m_epoch m <= fl to
  | OP_VICTORY => even (m_epoch m) /\ m_from m < to /\ m_epoch m <= fl (m_from m) /\ to ∈ m_quorum m /\
      good_quorum ms (m_epoch m) (m_from m) (m_quorum m) /\ shares_commands m
  | OP_NAK => True
  end.

Lemma dispatch_ok ms r s fl con m :
  1 < n -> node_ok ms r s -> floor s + 3 < two32 -> fl r = floor s -> (forall x, 0 <= x < n -> fl x + 3 < two32) ->
  (r, m) ∈ ms -> msg_ok ms fl (r, m) ->
  safely (dispatch_op B con m) s (fun _ s' o => step_ok ms r s s' o).
Proof.
  intros Hn Hok Hb Hfl Hbs Hin (Hfrom & Hmm & Hop). pose proof (ok_static _ _ _ _ Hok) as (Hr & Hm & _ & Hrn).
  unfold dispatch_op. hstep. hstep. hstep; [|by apply step_ok_same].
  unfold dispatch. hstep. hstep. rewrite Hm, Hmm.
  hstep; [hstep; by apply step_ok_same|].
  assert (live s) as Hl.
  { destruct (ok_phase _ _ _ _ Hok) as [(_ & _ & _ & [E|E])|?]; [|by rewrite E in H0|done]. rewrite E in H. done. }
  hstep; [hstep; by apply step_ok_same|].
  hstep; [hstep; by apply step_ok_same|]. hstep; [hstep; by apply step_ok_same|].
  hstep; zbool; [lia|]. specialize (Hbs (m_from m) Hfrom) as Hbf.
  destruct (m_op m) eqn:Eop.
  - destruct Hop as (Ho & He & Hto). unfold handle_propose. hstep. hstep; [by apply Z.eqb_eq|].
    assert (safely (receive_propose B (m_from m) (m_epoch m)) s (fun _ s' o => step_ok ms r s s' o)) as Hrun.
    { apply receive_propose_ok; try done; try lia. by exists r, m. }
    hstep. hstep. unfold nak_old_peer. hstep; [hstep; hstep; hstep; by apply step_ok_nak, step_ok_same|].
    hstep; [hstep; hstep; hstep; by apply step_ok_nak, step_ok_same|].
    hstep. hstep; [|done]. do 3 hstep. eapply works_mono; [exact Hrun|]. intros [] s' o Hs'. by apply step_ok_nak.
  - hstep; zbool; [hstep; by apply step_ok_same|]. destruct Hop as (Ho & Hlt & ? & Hle).
    apply handle_ack_ok; try done; [|by exists m]. unfold live in Hl. lia.
  - hstep; zbool; [hstep; by apply step_ok_same|]. unfold handle_nak. hstep. by apply step_ok_quiet.
  - hstep; zbool; [hstep; by apply step_ok_same|]. destruct Hop as (Ho & Hlt & ? & Hq & Hg & Hsh).
    apply handle_victory_ok; try done; try lia.
Qed.

Lemma act_ok ms fl r s a :
  1 < n -> node_ok ms r s -> fl r = floor s -> (forall x, 0 <= x < n -> fl x + 3 < two32) ->
  (forall con m, a = Deliver con m -> (r, m) ∈ ms /\ msg_ok ms fl (r, m)) ->
  safely (act B a) s (fun _ s' o => step_ok ms r s s' o).
Proof.
  intros Hn Hok Hfl Hbs Hdel. pose proof (ok_static _ _ _ _ Hok) as (? & ? & ? & Hr).
  specialize (Hbs r Hr) as Hb. rewrite Hfl in Hb. pose proof (ok_store _ _ _ _ Hok) as Hs.
  pose proof (ok_static _ _ _ _ Hok) as Hst. destruct a; simpl.
  - apply start_election_ok; auto.
  - by apply end_election_period_ok.
  - destruct (Hdel con m eq_refl). by eapply dispatch_ok.
  - by apply bootstrap_ok.
  - hstep. apply step_ok_quiet; try done. split; cbn; try done.
    + left. by split_and!; auto.
    + unfold live, floor. cbn. case_tests; lia.

  - unfold quorum_enter. hstep. hstep. eapply works_mono; [apply (start_election_ok ms r); auto|].
    intros [] s' o Hs'. eapply step_ok_from; [|exact Hs']. done.
  - unfold quorum_exit. hstep. eapply works_mono; [apply (start_election_ok ms r); auto|].
    intros [] s' o Hs'. hstep. rewrite app_nil_r. destruct Hs' as [[]]. split; try done. split; try done.
    cbn. destruct ok_phase0 as [(?&?&?&?)|?]; [left|by right]. split_and!; auto.
  - hstep. apply step_ok_quiet; try done. destruct Hok. split; done.
Qed.

(** The invariant of the network. *)
Definition floor_of (N : net) (r : Z) : Z := from_option floor 0 (nodes N !! r).

Record net_ok (N : net) : Prop := {
  no_dom : forall r, is_Some (nodes N !! r) <-> 0 <= r < n;
  no_nodes : forall r s, nodes N !! r = Some s -> node_ok (sent N) r s;
  no_sent : Forall (msg_ok (sent N) (floor_of N)) (sent N);
  no_log : Forall (fun '(r, (E, l, q)) => even E /\ E <= floor_of N r /\ r ∈ q /\ good_quorum (sent N) E l q) (log N);
  no_once : NoDup ((fun x => (x.1, x.2.1.1)) <$> log N)
}.

Lemma initial_ok N : initial B mm N -> net_ok N.
Proof.
  intros (Hs & Hl & Hd & Hi). split.
  - intros r. symmetry. apply Hd.
  - intros r s Hr. destruct (Hi r s Hr) as (s0 & -> & R & M & G & St).
    assert (0 <= r < n) by by apply Hd. split; cbn; try done.
    + left. split_and!; auto.
    + unfold live, floor. cbn. case_tests; lia.
  - by rewrite Hs.
  - by rewrite Hl.
  - rewrite Hl. constructor.
Qed.

Lemma msg_ok_mono ms ms' fl fl' x :
  (forall r, fl r <= fl' r) -> msg_ok ms fl x -> msg_ok (ms ++ ms') fl' x.
Proof.
  intros Hf. destruct x as [to m]. unfold msg_ok. intros (? & ? & H). split_and!; [lia|lia|done|].
  pose proof (Hf (m_from m)). pose proof (Hf to).
  destruct (m_op m); intuition (try lia). by apply good_quorum_mono.
Qed.

Lemma out_msg_ok ms r s' fl x :
  0 <= r < n -> Forall (msg_ok ms fl) ms -> fl r = floor s' -> out_ok ms r s' x -> msg_ok ms fl x.
Proof.
  intros Hr Hms Hfl. destruct x as [to m]. unfold ElectionNet.out_ok, msg_ok. intros (-> & -> & H).
  rewrite Hfl. split_and!; [lia|lia|done|].
  destruct (m_op m); intuition.
  match goal with H : proposed _ _ _ |- _ => destruct H as (to' & m' & Hin & Hop & Hfr & He) end.
  rewrite Forall_forall in Hms. specialize (Hms _ Hin). unfold msg_ok in Hms. rewrite Hop, Hfr, He in Hms. lia.
Qed.

Lemma floor_of_insert N r s' x ms lg :
  floor_of {| nodes := <[ r := s' ]> (nodes N); sent := ms; log := lg |} x =
  if decide (x = r) then floor s' else floor_of N x.
Proof.
  unfold floor_of; simpl. case_decide as E.
  - rewrite E. by rewrite lookup_insert_eq.
  - by rewrite lookup_insert_ne by congruence.
Qed.

Lemma bounded_floor N x : net_ok N -> bounded N -> 0 <= x < n -> floor_of N x + 3 < two32.
Proof.
  intros Hok Hb Hx. destruct (proj2 (no_dom N Hok x) Hx) as [s Hs]. unfold floor_of. rewrite Hs. by apply (Hb x s).
Qed.

(** Every action of every monitor that returns leaves a state that satisfies the
    invariant, and on a build that works every action returns. *)
Lemma net_act_ok N r s a :
  1 < n -> net_ok N -> bounded N -> nodes N !! r = Some s -> allowed N r s a ->
  safely (act B a) s (fun _ s' o => step_ok (sent N) r s s' o).
Proof.
  intros Hn Hok Hb Hr Ha. apply (act_ok _ (floor_of N)); try done.
  - by apply (no_nodes N Hok).
  - unfold floor_of. by rewrite Hr.
  - intros x Hx. by apply bounded_floor.
  - intros con m ->. split; [done|]. pose proof (no_sent N Hok) as Hs. rewrite Forall_forall in Hs. by apply Hs.
Qed.

Lemma step_preserves N N1 : 1 < n -> net_ok N -> bounded N -> step B N N1 -> net_ok N1.
Proof.
  intros Hn Hok Hb [r s a s' o Hr Ha E].
  pose proof (works_det _ _ _ _ _ _ _ (net_act_ok N r s a Hn Hok Hb Hr Ha) E) as [Hnode Hfl Hout Hlog Hone].
  assert (0 <= r < n) as Hrn by (apply (no_dom N Hok); by eexists).
  assert (floor_of N r = floor s) as Hfs by (unfold floor_of; by rewrite Hr).
  set (N' := {| nodes := _; sent := _; log := _ |}).
  assert (forall x, floor_of N x <= floor_of N' x) as Hmono.
  { intros x. unfold N'. rewrite floor_of_insert. case_decide as Ex; [|lia]. rewrite Ex. lia. }
  assert (floor_of N' r = floor s') as Hfr by (unfold N'; rewrite floor_of_insert; by case_decide).
  pose proof (no_sent N Hok) as Hsent.
  split.
  - intros x. unfold N'; simpl. destruct (decide (x = r)) as [->|].
    + rewrite lookup_insert_eq. split; [done|by eexists].
    + rewrite lookup_insert_ne by done. apply (no_dom N Hok).
  - intros x sx. unfold N'; simpl. destruct (decide (x = r)) as [->|].
    + rewrite lookup_insert_eq. by intros [= <-].
    + rewrite lookup_insert_ne by done. intros Hx. eapply node_ok_incl; [|by apply (no_nodes N Hok)]. set_solver.
  - apply Forall_app. split.
    + eapply Forall_impl; [exact Hsent|]. intros x Hx. by eapply msg_ok_mono.
    + eapply Forall_impl; [exact Hout|]. intros x Hx.
      apply (msg_ok_mono (sent N) (sends o) (floor_of N')); [done|].
      eapply out_msg_ok; [done| |done|done].
      eapply Forall_impl; [exact Hsent|]. intros y Hy.
      rewrite <- (app_nil_r (sent N)). by eapply msg_ok_mono.
  - apply Forall_app. split.
    + eapply Forall_impl; [exact (no_log N Hok)|]. intros [x [[e l] q]] (? & ? & ? & ?).
      specialize (Hmono x). split_and!; [done|lia|done|by apply good_quorum_mono].
    + eapply Forall_impl; [exact Hlog|]. intros [x [[e l] q]] (-> & ? & ? & ? & ? & ?).
      split_and!; [done|lia|done|by apply good_quorum_mono].
  - unfold N'; cbn [log]. rewrite fmap_app. apply NoDup_app. split_and!; [exact (no_once N Hok)| |].
    + intros [x e] Hold Hnew. apply list_elem_of_fmap in Hold as ([x1 [[e1 l1] q1]] & [= -> ->] & Hold).
      apply list_elem_of_fmap in Hnew as ([x2 [[e2 l2] q2]] & [= -> ->] & Hnew).
      pose proof (no_log N Hok) as Hl. rewrite Forall_forall in Hl, Hlog.
      specialize (Hl _ Hold). specialize (Hlog _ Hnew). simpl in Hl, Hlog.
      destruct Hlog as (-> & _ & ? & _). lia.
    + destruct (installs r o) as [|? [|? ?]]; simpl in *; [constructor| |lia]. apply NoDup_singleton.
Qed.

Lemma reachable_ok N : 1 < n -> reachable B mm N -> net_ok N.
Proof. intros Hn. induction 1; [by apply initial_ok|by eapply step_preserves]. Qed.

(** Two majorities of the monitors share a member. *)
Lemma majorities_meet (q1 q2 : gset Z) :
  (forall x, x ∈ q1 -> 0 <= x < n) -> (forall x, x ∈ q2 -> 0 <= x < n) ->
  n < 2 * Z.of_nat (size q1) -> n < 2 * Z.of_nat (size q2) -> exists x, x ∈ q1 /\ x ∈ q2.
Proof.
  intros H1 H2 Hs1 Hs2. destruct (decide (q1 ∩ q2 = ∅)) as [E|E].
  - exfalso. assert (size (q1 ∪ q2) <= size (list_to_set (seqZ 0 n) : gset Z))%nat as Hle.
    { apply subseteq_size. intros x [Hx|Hx]%elem_of_union; apply elem_of_list_to_set, elem_of_seqZ;
        [specialize (H1 x Hx)|specialize (H2 x Hx)]; lia. }
    rewrite size_union in Hle by set_solver.
    rewrite size_list_to_set in Hle by apply NoDup_seqZ. rewrite length_seqZ in Hle. unfold map_size in *. lia.
  - apply set_choose_L in E as [x Hx]. exists x. set_solver.
Qed.

Lemma good_quorum_ranks ms E l q x : good_quorum ms E l q -> x ∈ q -> 0 <= x < n.
Proof. intros (? & _ & Hx & _) Hin. destruct (Hx x Hin) as [->|[? _]]; lia. Qed.

(** *** Executing traces *)

#[global] Instance MonMap_eq_dec : EqDecision MonMap.
Proof. solve_decision. Defined.
#[global] Instance election_op_eq_dec : EqDecision election_op.
Proof. solve_decision. Defined.
#[global] Instance MMonElection_eq_dec : EqDecision MMonElection.
Proof. solve_decision. Defined.

#[global] Instance allowed_dec N r s a : Decision (allowed N r s a).
Proof. destruct a; simpl; apply _. Defined.

Definition boundedb (N : net) : bool := forallb (fun x => floor x.2 + 3 <? two32) (map_to_list (nodes N)).

(** Perform an action; [inl k] delivers the [k]th message sent. *)
Definition exec (N : net) (x : nat + Z * action) : option net :=
  '(r, a) ← match x with
    | inl k => '(to, m) ← sent N !! k; Some (to, Deliver (CEPH_FEATURES_ALL B) m)
    | inr y => Some y
    end;
  s ← nodes N !! r;
  if boundedb N && bool_decide (allowed N r s a) then
    '(_, s', o) ← act B a s;
    Some {| nodes := <[ r := s' ]> (nodes N); sent := sent N ++ sends o; log := log N ++ installs r o |}
  else None.

Fixpoint exec_all (N : net) (xs : list (nat + Z * action)) : option net :=
  match xs with
  | [] => Some N
  | x :: xs' => N' ← exec N x; exec_all N' xs'
  end.

Lemma boundedb_ok N : boundedb N = true -> bounded N.
Proof.
  unfold boundedb, bounded. rewrite forallb_True || rewrite forallb_forall. intros H r s Hs.
  specialize (H (r, s)). simpl in H. apply Z.ltb_lt, H. apply list_elem_of_In, elem_of_map_to_list. done.
Qed.

Lemma exec_reachable N x N' : reachable B mm N -> exec N x = Some N' -> reachable B mm N'.
Proof.
  unfold exec. intros HN E. apply bind_Some in E as ([r a] & _ & E). simpl in E.
  apply bind_Some in E as (s & Hs & E).
  destruct (boundedb N) eqn:Hb; [|done]. destruct (bool_decide (allowed N r s a)) eqn:Ha; [|done]. simpl in E.
  apply bool_decide_eq_true in Ha.
  apply bind_Some in E as ([[[] s'] o] & Hact & [= <-]).
  eapply reach_step; [exact HN|by apply boundedb_ok|]. by eapply Step.
Qed.

Lemma exec_all_reachable N xs N' : reachable B mm N -> exec_all N xs = Some N' -> reachable B mm N'.
Proof.
  revert N. induction xs as [|x xs IH]; intros N HN; simpl; [by intros [= <-]|].
  intros (N1 & E & ?)%bind_Some. eapply IH; [|done]. by eapply exec_reachable.
Qed.
End Facts.
End ElectionFacts.

(** ** Properties *)

Module ElectionTheorems.
Import Mon Elector ElectionNet ElectionFacts.

(** Three monitors, for the witnesses. *)
Definition command3 : MonCommand := {| cmdstring := [115]; helpstring := []; module := [109]; req_perms := [114]; flags := 1 |}.
Definition build3 : build :=
  {| CEPH_FEATURES_ALL := 7; get_supported := 19; ceph_release := 15; mon_commands := [command3]; rand := 4;
     submit_transaction_sync := fun _ => 0 |}.
Lemma build3_works : build_works build3.
Proof. split; [done|..]; (split; [repeat constructor; unfold u64; simpl; lia|by vm_compute]). Qed.
Definition map3 : MonMap := {| map_epoch := 1; fsid := 9; addrs := [10; 11; 12]; min_mon_release := 15 |}.
Definition mon3 (r : Z) : Monitor :=
  {| rank := r; my_addr := 10 + r; monmap := map3; state := STATE_PROBING; leader := -1; quorum := ∅;
     has_ever_joined := true; required_features := 1; required_mon_features := 1; store_epoch := 0;
     store_monmap := None; peer_info := ∅; expire_event := false; leader_mon_commands := [command3];
     logic := {| epoch := 0; leader_acked := -1; participating := true; electing_me := false; acked_me := ∅ |} |}.
Definition net3 : net :=
  {| nodes := <[ 0 := mon3 0 ]> (<[ 1 := mon3 1 ]> (<[ 2 := mon3 2 ]> ∅)); sent := []; log := [] |}.

Lemma net3_initial : initial build3 map3 net3.
Proof.
  split_and!; [done|done| |].
  - intros r. unfold net3; cbn [nodes]. rewrite !lookup_insert_is_Some, lookup_empty. split.
    + intros Hr. change (0 <= r < 3) in Hr. assert (r = 0 \/ r = 1 \/ r = 2) as [-> | [-> | ->]] by lia; naive_solver.
    + intros H. change (0 <= r < 3). destruct H as [|[? [|[? [|[? []]]]]]]; lia || done.
  - intros r s. unfold net3; cbn [nodes]. rewrite !lookup_insert_Some, lookup_empty.
    intros [[<- <-]|[? [[<- <-]|[? [[<- <-]|[? [=]]]]]]]; 
      [exists (mon3 0)|exists (mon3 1)|exists (mon3 2)]; split_and!; reflexivity || (simpl; lia).
Qed.

(** Monitor 2 first defers to 1, then to 0 who outranks it; both 1 and 0 gather
    a majority and win epoch 2; monitor 2 follows the first victory it sees and
    answers the second with a new election. *)
Definition race : list (nat + Z * action) :=
  [inr (2, Call); inr (1, Call); inl 3%nat; inr (0, Call); inl 6%nat; inl 4%nat; inl 7%nat;
   inr (1, Timer); inr (0, Timer); inl 8%nat; inl 9%nat].

Definition after_race : option net := exec_all build3 net3 race.

Example race_log : log <$> after_race =
  Some [(1, (2, 1, {[1; 2]})); (0, (2, 0, {[0; 2]})); (2, (2, 1, {[1; 2]}))].
Proof. vm_compute. reflexivity. Qed.

Lemma race_entry N k x : after_race = Some N ->
  [(1, (2, 1, {[1; 2]})); (0, (2, 0, {[0; 2]})); (2, (2, 1, {[1; 2]}))] !! k = Some x -> x ∈ log N.
Proof. intros E Hk. pose proof race_log as Hl. rewrite E in Hl. injection Hl as ->. by eapply list_elem_of_lookup_2. Qed.

Lemma race_reachable N : after_race = Some N -> reachable build3 map3 N.
Proof. apply exec_all_reachable. apply reach_init, net3_initial. Qed.

(** C7: No election handler of any monitor fails an assertion, aborts on a failed
    write or on commands it cannot read: in every state that messages lost,
    duplicated and reordered, timeouts, restarts, bootstraps and participation
    changes can reach, every enabled action returns.  There are at least two
    monitors, all with the map [mm] and the build [B], whose database accepts
    writes and whose command table fits its encoding ([build_works]), and election
    epochs stay below [2^32 - 3]. *)
Theorem election_never_asserts B mm N r s a :
  build_works B -> 1 < map_size mm -> reachable B mm N -> bounded N -> nodes N !! r = Some s -> allowed N r s a ->
  exists s' o, act B a s = Some (tt, s', o).
Proof.
  intros HB Hn HN Hb Hr Ha.
  destruct (works_runs _ _ _ _ HB (net_act_ok B mm N r s a Hn (reachable_ok B mm N Hn HN) Hb Hr Ha)) as ([] & s' & o & E & _).
  by exists s', o.
Qed.

(** Monitor 2 after the race up to the first victory, and that message. *)
Definition before_victory : net := default net3 (exec_all build3 net3 (take 9 race)).
Definition voter : Monitor := default (mon3 2) (nodes before_victory !! 2).
Definition victory : MMonElection := (default (0, mk_msg build3 (mon3 2) OP_NAK 0) (sent before_victory !! 8%nat)).2.

Lemma election_never_asserts_witness : m_op victory = OP_VICTORY /\
  exists s' o, act build3 (Deliver 7 victory) voter = Some (tt, s', o) /\ leader_mon_commands s' = [command3].
Proof.
  split; [reflexivity|].
  destruct (election_never_asserts build3 map3 before_victory 2 voter (Deliver 7 victory) build3_works) as (s' & o & E).
  - reflexivity.
  - apply (exec_all_reachable build3 map3 net3 (take 9 race)); [apply reach_init, net3_initial|by vm_compute].
  - apply boundedb_ok. by vm_compute.
  - by vm_compute.
  - apply (list_elem_of_lookup_2 _ 8%nat). by vm_compute.
  - exists s', o. split; [exact E|]. vm_compute in E. by injection E as <- <-.
Defined.

(** C1: A monitor recognises at most one leader, and one quorum, per election
    epoch: the quorums installed at it by winning or by accepting a victory
    have distinct epochs, across restarts too. *)
Theorem one_leader_per_epoch B mm N r e l1 q1 l2 q2 :
  1 < map_size mm -> reachable B mm N -> (r, (e, l1, q1)) ∈ log N -> (r, (e, l2, q2)) ∈ log N ->
  l1 = l2 /\ q1 = q2.
Proof.
  intros Hn HN H1 H2. pose proof (no_once B mm N (reachable_ok B mm N Hn HN)) as Hnd.
  apply list_elem_of_lookup in H1 as [i Hi], H2 as [j Hj].
  assert (i = j) as ->.
  { eapply (NoDup_lookup _ i j (r, e) Hnd); by rewrite list_lookup_fmap, ?Hi, ?Hj. }
  rewrite Hi in Hj. by simplify_eq.
Qed.

Lemma one_leader_per_epoch_witness :
  exists N, after_race = Some N /\ forall l q, (2, (2, l, q)) ∈ log N -> l = 1.
Proof.
  destruct after_race as [N|] eqn:E; [|exfalso; revert E; vm_compute; discriminate].
  exists N. split; [reflexivity|]. intros l q H.
  assert ((2, (2, 1, {[1; 2]})) ∈ log N) as H1.
  { by apply (race_entry N 2). }
  refine (proj1 (one_leader_per_epoch build3 map3 N 2 2 l q 1 _ _ _ H H1)); [reflexivity|by apply race_reachable].
Defined.

(** C5: Every quorum a monitor installs, as its leader or behind one, belongs
    to an even epoch, holds a strict majority with the monitor in it, is led by
    its lowest rank, and consists of monitors that acknowledged the leader in
    the election epoch just before; any two installed quorums intersect. *)
Theorem quorums_are_majorities B mm N r e l q :
  1 < map_size mm -> reachable B mm N -> (r, (e, l, q)) ∈ log N ->
  even e /\ r ∈ q /\ good_quorum mm (sent N) e l q /\
  forall r' e' l' q', (r', (e', l', q')) ∈ log N -> exists x, x ∈ q /\ x ∈ q'.
Proof.
  intros Hn HN H. pose proof (no_log B mm N (reachable_ok B mm N Hn HN)) as Hl. rewrite Forall_forall in Hl.
  destruct (Hl _ H) as (He & _ & Hr & Hq). split_and!; [done|done|done|]. intros r' e' l' q' H'.
  destruct (Hl _ H') as (_ & _ & _ & Hq').
  apply (majorities_meet mm); [by eauto using good_quorum_ranks..|by apply Hq|by apply Hq'].
Qed.

Lemma quorums_are_majorities_witness :
  exists N, after_race = Some N /\ good_quorum map3 (sent N) 2 0 {[0; 2]}.
Proof.
  destruct after_race as [N|] eqn:E; [|exfalso; revert E; vm_compute; discriminate].
  exists N. split; [reflexivity|].
  refine (proj1 (proj2 (proj2 (quorums_are_majorities build3 map3 N 0 2 0 {[0; 2]} _ _ _))));
    [reflexivity|by apply race_reachable|by apply (race_entry N 1)].
Defined.

(** Election epochs never go back: no step, a restart included, lowers the
    epoch a monitor's store remembers, and a participating monitor that has
    left the probing state is at that epoch. *)
Theorem epoch_never_decreases B mm N N' r s :
  1 < map_size mm -> reachable B mm N -> bounded N -> step B N N' -> nodes N !! r = Some s ->
  exists s', nodes N' !! r = Some s' /\ floor s <= floor s' /\
    (state s' <> STATE_PROBING -> participating (logic s') = true -> epoch (logic s') = floor s').
Proof.
  intros Hn HN Hb Hst Hr. pose proof (reachable_ok B mm N Hn HN) as Hok.
  pose proof (step_preserves B mm N N' Hn Hok Hb Hst) as Hok'.
  destruct Hst as [r0 s0 a s1 o Hr0 Ha E].
  pose proof (works_det _ _ _ _ _ _ _ (net_act_ok B mm N r0 s0 a Hn Hok Hb Hr0 Ha) E) as [_ Hfl _ _ _].
  assert (exists s', nodes {| nodes := <[ r0 := s1 ]> (nodes N); sent := sent N ++ sends o; log := log N ++ installs r0 o |} !! r = Some s'
    /\ floor s <= floor s') as (s' & Hs' & Hf).
  { simpl. destruct (decide (r = r0)) as [->|].
    - rewrite lookup_insert_eq. exists s1. split; [done|]. simplify_eq. done.
    - rewrite lookup_insert_ne by done. by exists s. }
  exists s'. split_and!; [done|done|]. intros Hns Hp.
  destruct (ok_phase _ _ _ _ (no_nodes B mm _ Hok' r s' Hs')) as [(_ & _ & _ & [?|?])|?]; [done|congruence|done].
Qed.

Lemma epoch_never_decreases_witness :
  exists N' s', step build3 net3 N' /\ nodes N' !! 1 = Some s' /\ floor (mon3 1) <= floor s'.
Proof.
  destruct (act build3 Call (mon3 1)) as [[[[] s1] o]|] eqn:E; [|exfalso; revert E; vm_compute; discriminate].
  pose proof (Step build3 net3 1 (mon3 1) Call s1 o eq_refl I E) as Hstep.
  destruct (epoch_never_decreases build3 map3 net3 _ 1 (mon3 1) ltac:(reflexivity)
    (reach_init _ _ _ net3_initial) (boundedb_ok net3 eq_refl) Hstep eq_refl) as (s' & Hs & Hf & _).
  eexists _, s'. split; [exact Hstep|]. split; [exact Hs|exact Hf].
Defined.

(** The election by itself does not make the leader unique: two monitors
    can both win, with majorities, the same epoch.  (Paxos proposal numbers,
    which are distinct for distinct ranks, are what orders them.) *)
Theorem two_winners_possible :
  exists B mm N, reachable B mm N /\
    (0, (2, 0, {[0; 2]})) ∈ log N /\ (1, (2, 1, {[1; 2]})) ∈ log N.
Proof.
  destruct after_race as [N|] eqn:E; [|exfalso; revert E; vm_compute; discriminate].
  exists build3, map3, N. split; [by apply race_reachable|].
  split; [by apply (race_entry N 1)|by apply (race_entry N 0)].
Qed.

(** *** Where the code and its comments part *)

(** A monitor that is alone in its map settles, from its second start on, in an
    odd epoch, although an odd epoch is documented to mean an election. *)
Definition mon1 : Monitor :=
  {| rank := 0; my_addr := 10; monmap := {| map_epoch := 1; fsid := 9; addrs := [10]; min_mon_release := 15 |};
     state := STATE_PROBING; leader := -1; quorum := ∅;
     has_ever_joined := true; required_features := 1; required_mon_features := 1; store_epoch := 2;
     store_monmap := None; peer_info := ∅; expire_event := false; leader_mon_commands := [command3];
     logic := {| epoch := 0; leader_acked := -1; participating := true; electing_me := false; acked_me := ∅ |} |}.
Example standalone_epoch_odd :
  (fun x => (state x.1.2, epoch (logic x.1.2), x.2)) <$> bootstrap build3 mon1 = Some (STATE_LEADER, 3, [Win 3 {[0]}]).
Proof. vm_compute. reflexivity. Qed.

(** A proposal from a monitor without the required monitor features is answered
    with a NAK and then processed all the same: here it is acknowledged too. *)
Example naked_propose_still_processed :
  option_map (fun x : unit * Monitor * list event =>
    (fun e => match e with Send to m => Some (to, m_op m) | _ => None end) <$> x.2) (
  (start_election build3 ;;
   handle_propose build3 7
     {| m_from := 0; m_addr := 10; m_op := OP_PROPOSE; m_epoch := 1; m_monmap := map3; m_quorum := ∅;
        m_quorum_features := 0; m_mon_features := 2; m_mon_release := 15; m_sharing_bl := [] |}) (mon3 1))
  = Some [Some (0, OP_PROPOSE); Some (2, OP_PROPOSE); Some (0, OP_NAK); Some (0, OP_ACK)].
Proof. vm_compute. reflexivity. Qed.

End ElectionTheorems.
