(* ===== verification/PaxosState.v ===== *)
(** The state of the monitors' Paxos (src/ceph-15.2.17/src/mon/Paxos.h): the
    members of [Paxos], the keys of its store, its messages and events, and
    the update of each field. *)
From S2P Require Import Prelude Effects Election.

Module PaxosState.

(** ** Data *)

(** A committed value is an encoded [MonitorDBStore::Transaction].  What Paxos
    itself can see of one are its writes to the Paxos prefix (the first commit
    and trimming); the rest belongs to the services.  An empty [bufferlist] is
    [None].  A transaction, also one without operations, has an encoding that is not
    empty, so the assertions on the length of a value that is there hold by
    representation, and a missing one is [None] where it is tested.  One case differs:
    a BEGIN without a value, which [begin] never sends, would store an empty buffer
    and not the empty transaction.  Versions and proposal numbers are not reduced to
    64 bits. *)
Inductive vop :=
| PutFirstCommitted (v : Z)
| EraseVersion (v : Z)
| PutService (k d : Z)
| EraseService (k : Z).
Definition value := list vop.

(** The keys of the Paxos prefix (0 when absent) and the services' keys. *)
Record Store := {
  k_last_pn : Z;
  k_accepted_pn : Z;
  k_last_committed : Z;
  k_first_committed : Z;
  k_pending_v : Z;
  k_pending_pn : Z;
  versions : gmap Z value;
  service : gmap Z Z
}.

Definition set_k_last_pn (x : Z) (s : Store) : Store :=
  {| k_last_pn := x; k_accepted_pn := k_accepted_pn s; k_last_committed := k_last_committed s;
     k_first_committed := k_first_committed s; k_pending_v := k_pending_v s; k_pending_pn := k_pending_pn s;
     versions := versions s; service := service s |}.
Definition set_k_accepted_pn (x : Z) (s : Store) : Store :=
  {| k_last_pn := k_last_pn s; k_accepted_pn := x; k_last_committed := k_last_committed s;
     k_first_committed := k_first_committed s; k_pending_v := k_pending_v s; k_pending_pn := k_pending_pn s;
     versions := versions s; service := service s |}.
Definition set_k_last_committed (x : Z) (s : Store) : Store :=
  {| k_last_pn := k_last_pn s; k_accepted_pn := k_accepted_pn s; k_last_committed := x;
     k_first_committed := k_first_committed s; k_pending_v := k_pending_v s; k_pending_pn := k_pending_pn s;
     versions := versions s; service := service s |}.
Definition set_k_first_committed (x : Z) (s : Store) : Store :=
  {| k_last_pn := k_last_pn s; k_accepted_pn := k_accepted_pn s; k_last_committed := k_last_committed s;
     k_first_committed := x; k_pending_v := k_pending_v s; k_pending_pn := k_pending_pn s; versions := versions s;
     service := service s |}.
Definition set_k_pending_v (x : Z) (s : Store) : Store :=
  {| k_last_pn := k_last_pn s; k_accepted_pn := k_accepted_pn s; k_last_committed := k_last_committed s;
     k_first_committed := k_first_committed s; k_pending_v := x; k_pending_pn := k_pending_pn s;
     versions := versions s; service := service s |}.
Definition set_k_pending_pn (x : Z) (s : Store) : Store :=
  {| k_last_pn := k_last_pn s; k_accepted_pn := k_accepted_pn s; k_last_committed := k_last_committed s;
     k_first_committed := k_first_committed s; k_pending_v := k_pending_v s; k_pending_pn := x;
     versions := versions s; service := service s |}.
Definition set_versions (x : gmap Z value) (s : Store) : Store :=
  {| k_last_pn := k_last_pn s; k_accepted_pn := k_accepted_pn s; k_last_committed := k_last_committed s;
     k_first_committed := k_first_committed s; k_pending_v := k_pending_v s; k_pending_pn := k_pending_pn s;
     versions := x; service := service s |}.
Definition set_service (x : gmap Z Z) (s : Store) : Store :=
  {| k_last_pn := k_last_pn s; k_accepted_pn := k_accepted_pn s; k_last_committed := k_last_committed s;
     k_first_committed := k_first_committed s; k_pending_v := k_pending_v s; k_pending_pn := k_pending_pn s;
     versions := versions s; service := x |}.

Definition apply_op (o : vop) (st : Store) : Store :=
  match o with
  | PutFirstCommitted v => set_k_first_committed v st
  | EraseVersion v => set_versions (delete v (versions st)) st
  | PutService k d => set_service (<[ k := d ]> (service st)) st
  | EraseService k => set_service (delete k (service st)) st
  end.
Definition apply_value (v : value) (st : Store) : Store := fold_left (fun st o => apply_op o st) v st.
Arguments apply_value : simpl never.
Definition put_version (v : Z) (x : value) (st : Store) : Store := set_versions (<[ v := x ]> (versions st)) st.

(** The store of a monitor that has never run. *)
Definition empty_store : Store :=
  {| k_last_pn := 0; k_accepted_pn := 0; k_last_committed := 0; k_first_committed := 0; k_pending_v := 0;
     k_pending_pn := 0; versions := ∅; service := ∅ |}.

(** Callbacks: a client's, or the one that ends a trim. *)
Inductive ctx := Client (id : Z) | Trimmed.

Record Timers := {
  collect_timeout_event : bool;
  accept_timeout_event : bool;
  lease_renew_event : bool;
  lease_ack_timeout_event : bool;
  lease_timeout_event : bool
}.

Definition set_collect_timeout_event (x : bool) (s : Timers) : Timers :=
  {| collect_timeout_event := x; accept_timeout_event := accept_timeout_event s;
     lease_renew_event := lease_renew_event s; lease_ack_timeout_event := lease_ack_timeout_event s;
     lease_timeout_event := lease_timeout_event s |}.
Definition set_accept_timeout_event (x : bool) (s : Timers) : Timers :=
  {| collect_timeout_event := collect_timeout_event s; accept_timeout_event := x;
     lease_renew_event := lease_renew_event s; lease_ack_timeout_event := lease_ack_timeout_event s;
     lease_timeout_event := lease_timeout_event s |}.
Definition set_lease_renew_event (x : bool) (s : Timers) : Timers :=
  {| collect_timeout_event := collect_timeout_event s; accept_timeout_event := accept_timeout_event s;
     lease_renew_event := x; lease_ack_timeout_event := lease_ack_timeout_event s;
     lease_timeout_event := lease_timeout_event s |}.
Definition set_lease_ack_timeout_event (x : bool) (s : Timers) : Timers :=
  {| collect_timeout_event := collect_timeout_event s; accept_timeout_event := accept_timeout_event s;
     lease_renew_event := lease_renew_event s; lease_ack_timeout_event := x;
     lease_timeout_event := lease_timeout_event s |}.
Definition set_lease_timeout_event (x : bool) (s : Timers) : Timers :=
  {| collect_timeout_event := collect_timeout_event s; accept_timeout_event := accept_timeout_event s;
     lease_renew_event := lease_renew_event s; lease_ack_timeout_event := lease_ack_timeout_event s;
     lease_timeout_event := x |}.

Record Waiters := {
  pending_finishers : list ctx;
  committing_finishers : list ctx;
  waiting_for_active : list ctx;
  waiting_for_readable : list ctx;
  waiting_for_writeable : list ctx
}.

Definition set_pending_finishers (x : list ctx) (s : Waiters) : Waiters :=
  {| pending_finishers := x; committing_finishers := committing_finishers s;
     waiting_for_active := waiting_for_active s; waiting_for_readable := waiting_for_readable s;
     waiting_for_writeable := waiting_for_writeable s |}.
Definition set_committing_finishers (x : list ctx) (s : Waiters) : Waiters :=
  {| pending_finishers := pending_finishers s; committing_finishers := x;
     waiting_for_active := waiting_for_active s; waiting_for_readable := waiting_for_readable s;
     waiting_for_writeable := waiting_for_writeable s |}.
Definition set_waiting_for_active (x : list ctx) (s : Waiters) : Waiters :=
  {| pending_finishers := pending_finishers s; committing_finishers := committing_finishers s;
     waiting_for_active := x; waiting_for_readable := waiting_for_readable s;
     waiting_for_writeable := waiting_for_writeable s |}.
Definition set_waiting_for_readable (x : list ctx) (s : Waiters) : Waiters :=
  {| pending_finishers := pending_finishers s; committing_finishers := committing_finishers s;
     waiting_for_active := waiting_for_active s; waiting_for_readable := x;
     waiting_for_writeable := waiting_for_writeable s |}.
Definition set_waiting_for_writeable (x : list ctx) (s : Waiters) : Waiters :=
  {| pending_finishers := pending_finishers s; committing_finishers := committing_finishers s;
     waiting_for_active := waiting_for_active s; waiting_for_readable := waiting_for_readable s;
     waiting_for_writeable := x |}.

Inductive paxos_state :=
| STATE_RECOVERING | STATE_ACTIVE | STATE_UPDATING | STATE_UPDATING_PREVIOUS
| STATE_WRITING | STATE_WRITING_PREVIOUS | STATE_REFRESH | STATE_SHUTDOWN.

(** The members of [Paxos], what it reads of [Monitor], the clock, the store
    and the transaction queued to it. *)
Record Paxos := {
  rank : Z;
  mstate : Mon.mon_state;
  leader : Z;
  quorum : gset Z;
  epoch : Z;
  map_size : Z;
  clock : Z;
  store : Store;
  queued : option value;
  state : paxos_state;
  last_pn : Z;
  accepted_pn : Z;
  accepted_pn_from : Z;
  first_committed : Z;
  last_committed : Z;
  lease_expire : Z;
  num_last : Z;
  uncommitted_v : Z;
  uncommitted_pn : Z;
  uncommitted_value : option value;
  peer_first_committed : gmap Z Z;
  peer_last_committed : gmap Z Z;
  new_value : option value;
  accepted : gset Z;
  acked_lease : gset Z;
  pending_proposal : option value;
  trimming : bool;
  plugged : bool;
  commits_started : Z;
  timers : Timers;
  waiters : Waiters
}.

Definition set_rank (x : Z) (s : Paxos) : Paxos :=
  {| rank := x; mstate := mstate s; leader := leader s; quorum := quorum s; epoch := epoch s;
     map_size := map_size s; clock := clock s; store := store s; queued := queued s; state := state s;
     last_pn := last_pn s; accepted_pn := accepted_pn s; accepted_pn_from := accepted_pn_from s;
     first_committed := first_committed s; last_committed := last_committed s; lease_expire := lease_expire s;
     num_last := num_last s; uncommitted_v := uncommitted_v s; uncommitted_pn := uncommitted_pn s;
     uncommitted_value := uncommitted_value s; peer_first_committed := peer_first_committed s;
     peer_last_committed := peer_last_committed s; new_value := new_value s; accepted := accepted s;
     acked_lease := acked_lease s; pending_proposal := pending_proposal s; trimming := trimming s;
     plugged := plugged s; commits_started := commits_started s; timers := timers s; waiters := waiters s |}.
Definition set_mstate (x : Mon.mon_state) (s : Paxos) : Paxos :=
  {| rank := rank s; mstate := x; leader := leader s; quorum := quorum s; epoch := epoch s; map_size := map_size s;
     clock := clock s; store := store s; queued := queued s; state := state s; last_pn := last_pn s;
     accepted_pn := accepted_pn s; accepted_pn_from := accepted_pn_from s; first_committed := first_committed s;
     last_committed := last_committed s; lease_expire := lease_expire s; num_last := num_last s;
     uncommitted_v := uncommitted_v s; uncommitted_pn := uncommitted_pn s;
     uncommitted_value := uncommitted_value s; peer_first_committed := peer_first_committed s;
     peer_last_committed := peer_last_committed s; new_value := new_value s; accepted := accepted s;
     acked_lease := acked_lease s; pending_proposal := pending_proposal s; trimming := trimming s;
     plugged := plugged s; commits_started := commits_started s; timers := timers s; waiters := waiters s |}.
Definition set_leader (x : Z) (s : Paxos) : Paxos :=
  {| rank := rank s; mstate := mstate s; leader := x; quorum := quorum s; epoch := epoch s; map_size := map_size s;
     clock := clock s; store := store s; queued := queued s; state := state s; last_pn := last_pn s;
     accepted_pn := accepted_pn s; accepted_pn_from := accepted_pn_from s; first_committed := first_committed s;
     last_committed := last_committed s; lease_expire := lease_expire s; num_last := num_last s;
     uncommitted_v := uncommitted_v s; uncommitted_pn := uncommitted_pn s;
     uncommitted_value := uncommitted_value s; peer_first_committed := peer_first_committed s;
     peer_last_committed := peer_last_committed s; new_value := new_value s; accepted := accepted s;
     acked_lease := acked_lease s; pending_proposal := pending_proposal s; trimming := trimming s;
     plugged := plugged s; commits_started := commits_started s; timers := timers s; waiters := waiters s |}.
Definition set_quorum (x : gset Z) (s : Paxos) : Paxos :=
  {| rank := rank s; mstate := mstate s; leader := leader s; quorum := x; epoch := epoch s; map_size := map_size s;
     clock := clock s; store := store s; queued := queued s; state := state s; last_pn := last_pn s;
     accepted_pn := accepted_pn s; accepted_pn_from := accepted_pn_from s; first_committed := first_committed s;
     last_committed := last_committed s; lease_expire := lease_expire s; num_last := num_last s;
     uncommitted_v := uncommitted_v s; uncommitted_pn := uncommitted_pn s;
     uncommitted_value := uncommitted_value s; peer_first_committed := peer_first_committed s;
     peer_last_committed := peer_last_committed s; new_value := new_value s; accepted := accepted s;
     acked_lease := acked_lease s; pending_proposal := pending_proposal s; trimming := trimming s;
     plugged := plugged s; commits_started := commits_started s; timers := timers s; waiters := waiters s |}.
Definition set_epoch (x : Z) (s : Paxos) : Paxos :=
  {| rank := rank s; mstate := mstate s; leader := leader s; quorum := quorum s; epoch := x;
     map_size := map_size s; clock := clock s; store := store s; queued := queued s; state := state s;
     last_pn := last_pn s; accepted_pn := accepted_pn s; accepted_pn_from := accepted_pn_from s;
     first_committed := first_committed s; last_committed := last_committed s; lease_expire := lease_expire s;
     num_last := num_last s; uncommitted_v := uncommitted_v s; uncommitted_pn := uncommitted_pn s;
     uncommitted_value := uncommitted_value s; peer_first_committed := peer_first_committed s;
     peer_last_committed := peer_last_committed s; new_value := new_value s; accepted := accepted s;
     acked_lease := acked_lease s; pending_proposal := pending_proposal s; trimming := trimming s;
     plugged := plugged s; commits_started := commits_started s; timers := timers s; waiters := waiters s |}.
Definition set_map_size (x : Z) (s : Paxos) : Paxos :=
  {| rank := rank s; mstate := mstate s; leader := leader s; quorum := quorum s; epoch := epoch s; map_size := x;
     clock := clock s; store := store s; queued := queued s; state := state s; last_pn := last_pn s;
     accepted_pn := accepted_pn s; accepted_pn_from := accepted_pn_from s; first_committed := first_committed s;
     last_committed := last_committed s; lease_expire := lease_expire s; num_last := num_last s;
     uncommitted_v := uncommitted_v s; uncommitted_pn := uncommitted_pn s;
     uncommitted_value := uncommitted_value s; peer_first_committed := peer_first_committed s;
     peer_last_committed := peer_last_committed s; new_value := new_value s; accepted := accepted s;
     acked_lease := acked_lease s; pending_proposal := pending_proposal s; trimming := trimming s;
     plugged := plugged s; commits_started := commits_started s; timers := timers s; waiters := waiters s |}.
Definition set_clock (x : Z) (s : Paxos) : Paxos :=
  {| rank := rank s; mstate := mstate s; leader := leader s; quorum := quorum s; epoch := epoch s;
     map_size := map_size s; clock := x; store := store s; queued := queued s; state := state s;
     last_pn := last_pn s; accepted_pn := accepted_pn s; accepted_pn_from := accepted_pn_from s;
     first_committed := first_committed s; last_committed := last_committed s; lease_expire := lease_expire s;
     num_last := num_last s; uncommitted_v := uncommitted_v s; uncommitted_pn := uncommitted_pn s;
     uncommitted_value := uncommitted_value s; peer_first_committed := peer_first_committed s;
     peer_last_committed := peer_last_committed s; new_value := new_value s; accepted := accepted s;
     acked_lease := acked_lease s; pending_proposal := pending_proposal s; trimming := trimming s;
     plugged := plugged s; commits_started := commits_started s; timers := timers s; waiters := waiters s |}.
Definition set_store (x : Store) (s : Paxos) : Paxos :=
  {| rank := rank s; mstate := mstate s; leader := leader s; quorum := quorum s; epoch := epoch s;
     map_size := map_size s; clock := clock s; store := x; queued := queued s; state := state s;
     last_pn := last_pn s; accepted_pn := accepted_pn s; accepted_pn_from := accepted_pn_from s;
     first_committed := first_committed s; last_committed := last_committed s; lease_expire := lease_expire s;
     num_last := num_last s; uncommitted_v := uncommitted_v s; uncommitted_pn := uncommitted_pn s;
     uncommitted_value := uncommitted_value s; peer_first_committed := peer_first_committed s;
     peer_last_committed := peer_last_committed s; new_value := new_value s; accepted := accepted s;
     acked_lease := acked_lease s; pending_proposal := pending_proposal s; trimming := trimming s;
     plugged := plugged s; commits_started := commits_started s; timers := timers s; waiters := waiters s |}.
Definition set_queued (x : option value) (s : Paxos) : Paxos :=
  {| rank := rank s; mstate := mstate s; leader := leader s; quorum := quorum s; epoch := epoch s;
     map_size := map_size s; clock := clock s; store := store s; queued := x; state := state s;
     last_pn := last_pn s; accepted_pn := accepted_pn s; accepted_pn_from := accepted_pn_from s;
     first_committed := first_committed s; last_committed := last_committed s; lease_expire := lease_expire s;
     num_last := num_last s; uncommitted_v := uncommitted_v s; uncommitted_pn := uncommitted_pn s;
     uncommitted_value := uncommitted_value s; peer_first_committed := peer_first_committed s;
     peer_last_committed := peer_last_committed s; new_value := new_value s; accepted := accepted s;
     acked_lease := acked_lease s; pending_proposal := pending_proposal s; trimming := trimming s;
     plugged := plugged s; commits_started := commits_started s; timers := timers s; waiters := waiters s |}.
Definition set_state (x : paxos_state) (s : Paxos) : Paxos :=
  {| rank := rank s; mstate := mstate s; leader := leader s; quorum := quorum s; epoch := epoch s;
     map_size := map_size s; clock := clock s; store := store s; queued := queued s; state := x;
     last_pn := last_pn s; accepted_pn := accepted_pn s; accepted_pn_from := accepted_pn_from s;
     first_committed := first_committed s; last_committed := last_committed s; lease_expire := lease_expire s;
     num_last := num_last s; uncommitted_v := uncommitted_v s; uncommitted_pn := uncommitted_pn s;
     uncommitted_value := uncommitted_value s; peer_first_committed := peer_first_committed s;
     peer_last_committed := peer_last_committed s; new_value := new_value s; accepted := accepted s;
     acked_lease := acked_lease s; pending_proposal := pending_proposal s; trimming := trimming s;
     plugged := plugged s; commits_started := commits_started s; timers := timers s; waiters := waiters s |}.
Definition set_last_pn (x : Z) (s : Paxos) : Paxos :=
  {| rank := rank s; mstate := mstate s; leader := leader s; quorum := quorum s; epoch := epoch s;
     map_size := map_size s; clock := clock s; store := store s; queued := queued s; state := state s;
     last_pn := x; accepted_pn := accepted_pn s; accepted_pn_from := accepted_pn_from s;
     first_committed := first_committed s; last_committed := last_committed s; lease_expire := lease_expire s;
     num_last := num_last s; uncommitted_v := uncommitted_v s; uncommitted_pn := uncommitted_pn s;
     uncommitted_value := uncommitted_value s; peer_first_committed := peer_first_committed s;
     peer_last_committed := peer_last_committed s; new_value := new_value s; accepted := accepted s;
     acked_lease := acked_lease s; pending_proposal := pending_proposal s; trimming := trimming s;
     plugged := plugged s; commits_started := commits_started s; timers := timers s; waiters := waiters s |}.
Definition set_accepted_pn (x : Z) (s : Paxos) : Paxos :=
  {| rank := rank s; mstate := mstate s; leader := leader s; quorum := quorum s; epoch := epoch s;
     map_size := map_size s; clock := clock s; store := store s; queued := queued s; state := state s;
     last_pn := last_pn s; accepted_pn := x; accepted_pn_from := accepted_pn_from s;
     first_committed := first_committed s; last_committed := last_committed s; lease_expire := lease_expire s;
     num_last := num_last s; uncommitted_v := uncommitted_v s; uncommitted_pn := uncommitted_pn s;
     uncommitted_value := uncommitted_value s; peer_first_committed := peer_first_committed s;
     peer_last_committed := peer_last_committed s; new_value := new_value s; accepted := accepted s;
     acked_lease := acked_lease s; pending_proposal := pending_proposal s; trimming := trimming s;
     plugged := plugged s; commits_started := commits_started s; timers := timers s; waiters := waiters s |}.
Definition set_accepted_pn_from (x : Z) (s : Paxos) : Paxos :=
  {| rank := rank s; mstate := mstate s; leader := leader s; quorum := quorum s; epoch := epoch s;
     map_size := map_size s; clock := clock s; store := store s; queued := queued s; state := state s;
     last_pn := last_pn s; accepted_pn := accepted_pn s; accepted_pn_from := x;
     first_committed := first_committed s; last_committed := last_committed s; lease_expire := lease_expire s;
     num_last := num_last s; uncommitted_v := uncommitted_v s; uncommitted_pn := uncommitted_pn s;
     uncommitted_value := uncommitted_value s; peer_first_committed := peer_first_committed s;
     peer_last_committed := peer_last_committed s; new_value := new_value s; accepted := accepted s;
     acked_lease := acked_lease s; pending_proposal := pending_proposal s; trimming := trimming s;
     plugged := plugged s; commits_started := commits_started s; timers := timers s; waiters := waiters s |}.
Definition set_first_committed (x : Z) (s : Paxos) : Paxos :=
  {| rank := rank s; mstate := mstate s; leader := leader s; quorum := quorum s; epoch := epoch s;
     map_size := map_size s; clock := clock s; store := store s; queued := queued s; state := state s;
     last_pn := last_pn s; accepted_pn := accepted_pn s; accepted_pn_from := accepted_pn_from s;
     first_committed := x; last_committed := last_committed s; lease_expire := lease_expire s;
     num_last := num_last s; uncommitted_v := uncommitted_v s; uncommitted_pn := uncommitted_pn s;
     uncommitted_value := uncommitted_value s; peer_first_committed := peer_first_committed s;
     peer_last_committed := peer_last_committed s; new_value := new_value s; accepted := accepted s;
     acked_lease := acked_lease s; pending_proposal := pending_proposal s; trimming := trimming s;
     plugged := plugged s; commits_started := commits_started s; timers := timers s; waiters := waiters s |}.
Definition set_last_committed (x : Z) (s : Paxos) : Paxos :=
  {| rank := rank s; mstate := mstate s; leader := leader s; quorum := quorum s; epoch := epoch s;
     map_size := map_size s; clock := clock s; store := store s; queued := queued s; state := state s;
     last_pn := last_pn s; accepted_pn := accepted_pn s; accepted_pn_from := accepted_pn_from s;
     first_committed := first_committed s; last_committed := x; lease_expire := lease_expire s;
     num_last := num_last s; uncommitted_v := uncommitted_v s; uncommitted_pn := uncommitted_pn s;
     uncommitted_value := uncommitted_value s; peer_first_committed := peer_first_committed s;
     peer_last_committed := peer_last_committed s; new_value := new_value s; accepted := accepted s;
     acked_lease := acked_lease s; pending_proposal := pending_proposal s; trimming := trimming s;
     plugged := plugged s; commits_started := commits_started s; timers := timers s; waiters := waiters s |}.
Definition set_lease_expire (x : Z) (s : Paxos) : Paxos :=
  {| rank := rank s; mstate := mstate s; leader := leader s; quorum := quorum s; epoch := epoch s;
     map_size := map_size s; clock := clock s; store := store s; queued := queued s; state := state s;
     last_pn := last_pn s; accepted_pn := accepted_pn s; accepted_pn_from := accepted_pn_from s;
     first_committed := first_committed s; last_committed := last_committed s; lease_expire := x;
     num_last := num_last s; uncommitted_v := uncommitted_v s; uncommitted_pn := uncommitted_pn s;
     uncommitted_value := uncommitted_value s; peer_first_committed := peer_first_committed s;
     peer_last_committed := peer_last_committed s; new_value := new_value s; accepted := accepted s;
     acked_lease := acked_lease s; pending_proposal := pending_proposal s; trimming := trimming s;
     plugged := plugged s; commits_started := commits_started s; timers := timers s; waiters := waiters s |}.
Definition set_num_last (x : Z) (s : Paxos) : Paxos :=
  {| rank := rank s; mstate := mstate s; leader := leader s; quorum := quorum s; epoch := epoch s;
     map_size := map_size s; clock := clock s; store := store s; queued := queued s; state := state s;
     last_pn := last_pn s; accepted_pn := accepted_pn s; accepted_pn_from := accepted_pn_from s;
     first_committed := first_committed s; last_committed := last_committed s; lease_expire := lease_expire s;
     num_last := x; uncommitted_v := uncommitted_v s; uncommitted_pn := uncommitted_pn s;
     uncommitted_value := uncommitted_value s; peer_first_committed := peer_first_committed s;
     peer_last_committed := peer_last_committed s; new_value := new_value s; accepted := accepted s;
     acked_lease := acked_lease s; pending_proposal := pending_proposal s; trimming := trimming s;
     plugged := plugged s; commits_started := commits_started s; timers := timers s; waiters := waiters s |}.
Definition set_uncommitted_v (x : Z) (s : Paxos) : Paxos :=
  {| rank := rank s; mstate := mstate s; leader := leader s; quorum := quorum s; epoch := epoch s;
     map_size := map_size s; clock := clock s; store := store s; queued := queued s; state := state s;
     last_pn := last_pn s; accepted_pn := accepted_pn s; accepted_pn_from := accepted_pn_from s;
     first_committed := first_committed s; last_committed := last_committed s; lease_expire := lease_expire s;
     num_last := num_last s; uncommitted_v := x; uncommitted_pn := uncommitted_pn s;
     uncommitted_value := uncommitted_value s; peer_first_committed := peer_first_committed s;
     peer_last_committed := peer_last_committed s; new_value := new_value s; accepted := accepted s;
     acked_lease := acked_lease s; pending_proposal := pending_proposal s; trimming := trimming s;
     plugged := plugged s; commits_started := commits_started s; timers := timers s; waiters := waiters s |}.
Definition set_uncommitted_pn (x : Z) (s : Paxos) : Paxos :=
  {| rank := rank s; mstate := mstate s; leader := leader s; quorum := quorum s; epoch := epoch s;
     map_size := map_size s; clock := clock s; store := store s; queued := queued s; state := state s;
     last_pn := last_pn s; accepted_pn := accepted_pn s; accepted_pn_from := accepted_pn_from s;
     first_committed := first_committed s; last_committed := last_committed s; lease_expire := lease_expire s;
     num_last := num_last s; uncommitted_v := uncommitted_v s; uncommitted_pn := x;
     uncommitted_value := uncommitted_value s; peer_first_committed := peer_first_committed s;
     peer_last_committed := peer_last_committed s; new_value := new_value s; accepted := accepted s;
     acked_lease := acked_lease s; pending_proposal := pending_proposal s; trimming := trimming s;
     plugged := plugged s; commits_started := commits_started s; timers := timers s; waiters := waiters s |}.
Definition set_uncommitted_value (x : option value) (s : Paxos) : Paxos :=
  {| rank := rank s; mstate := mstate s; leader := leader s; quorum := quorum s; epoch := epoch s;
     map_size := map_size s; clock := clock s; store := store s; queued := queued s; state := state s;
     last_pn := last_pn s; accepted_pn := accepted_pn s; accepted_pn_from := accepted_pn_from s;
     first_committed := first_committed s; last_committed := last_committed s; lease_expire := lease_expire s;
     num_last := num_last s; uncommitted_v := uncommitted_v s; uncommitted_pn := uncommitted_pn s;
     uncommitted_value := x; peer_first_committed := peer_first_committed s;
     peer_last_committed := peer_last_committed s; new_value := new_value s; accepted := accepted s;
     acked_lease := acked_lease s; pending_proposal := pending_proposal s; trimming := trimming s;
     plugged := plugged s; commits_started := commits_started s; timers := timers s; waiters := waiters s |}.
Definition set_peer_first_committed (x : gmap Z Z) (s : Paxos) : Paxos :=
  {| rank := rank s; mstate := mstate s; leader := leader s; quorum := quorum s; epoch := epoch s;
     map_size := map_size s; clock := clock s; store := store s; queued := queued s; state := state s;
     last_pn := last_pn s; accepted_pn := accepted_pn s; accepted_pn_from := accepted_pn_from s;
     first_committed := first_committed s; last_committed := last_committed s; lease_expire := lease_expire s;
     num_last := num_last s; uncommitted_v := uncommitted_v s; uncommitted_pn := uncommitted_pn s;
     uncommitted_value := uncommitted_value s; peer_first_committed := x;
     peer_last_committed := peer_last_committed s; new_value := new_value s; accepted := accepted s;
     acked_lease := acked_lease s; pending_proposal := pending_proposal s; trimming := trimming s;
     plugged := plugged s; commits_started := commits_started s; timers := timers s; waiters := waiters s |}.
Definition set_peer_last_committed (x : gmap Z Z) (s : Paxos) : Paxos :=
  {| rank := rank s; mstate := mstate s; leader := leader s; quorum := quorum s; epoch := epoch s;
     map_size := map_size s; clock := clock s; store := store s; queued := queued s; state := state s;
     last_pn := last_pn s; accepted_pn := accepted_pn s; accepted_pn_from := accepted_pn_from s;
     first_committed := first_committed s; last_committed := last_committed s; lease_expire := lease_expire s;
     num_last := num_last s; uncommitted_v := uncommitted_v s; uncommitted_pn := uncommitted_pn s;
     uncommitted_value := uncommitted_value s; peer_first_committed := peer_first_committed s;
     peer_last_committed := x; new_value := new_value s; accepted := accepted s; acked_lease := acked_lease s;
     pending_proposal := pending_proposal s; trimming := trimming s; plugged := plugged s;
     commits_started := commits_started s; timers := timers s; waiters := waiters s |}.
Definition set_new_value (x : option value) (s : Paxos) : Paxos :=
  {| rank := rank s; mstate := mstate s; leader := leader s; quorum := quorum s; epoch := epoch s;
     map_size := map_size s; clock := clock s; store := store s; queued := queued s; state := state s;
     last_pn := last_pn s; accepted_pn := accepted_pn s; accepted_pn_from := accepted_pn_from s;
     first_committed := first_committed s; last_committed := last_committed s; lease_expire := lease_expire s;
     num_last := num_last s; uncommitted_v := uncommitted_v s; uncommitted_pn := uncommitted_pn s;
     uncommitted_value := uncommitted_value s; peer_first_committed := peer_first_committed s;
     peer_last_committed := peer_last_committed s; new_value := x; accepted := accepted s;
     acked_lease := acked_lease s; pending_proposal := pending_proposal s; trimming := trimming s;
     plugged := plugged s; commits_started := commits_started s; timers := timers s; waiters := waiters s |}.
Definition set_accepted (x : gset Z) (s : Paxos) : Paxos :=
  {| rank := rank s; mstate := mstate s; leader := leader s; quorum := quorum s; epoch := epoch s;
     map_size := map_size s; clock := clock s; store := store s; queued := queued s; state := state s;
     last_pn := last_pn s; accepted_pn := accepted_pn s; accepted_pn_from := accepted_pn_from s;
     first_committed := first_committed s; last_committed := last_committed s; lease_expire := lease_expire s;
     num_last := num_last s; uncommitted_v := uncommitted_v s; uncommitted_pn := uncommitted_pn s;
     uncommitted_value := uncommitted_value s; peer_first_committed := peer_first_committed s;
     peer_last_committed := peer_last_committed s; new_value := new_value s; accepted := x;
     acked_lease := acked_lease s; pending_proposal := pending_proposal s; trimming := trimming s;
     plugged := plugged s; commits_started := commits_started s; timers := timers s; waiters := waiters s |}.
Definition set_acked_lease (x : gset Z) (s : Paxos) : Paxos :=
  {| rank := rank s; mstate := mstate s; leader := leader s; quorum := quorum s; epoch := epoch s;
     map_size := map_size s; clock := clock s; store := store s; queued := queued s; state := state s;
     last_pn := last_pn s; accepted_pn := accepted_pn s; accepted_pn_from := accepted_pn_from s;
     first_committed := first_committed s; last_committed := last_committed s; lease_expire := lease_expire s;
     num_last := num_last s; uncommitted_v := uncommitted_v s; uncommitted_pn := uncommitted_pn s;
     uncommitted_value := uncommitted_value s; peer_first_committed := peer_first_committed s;
     peer_last_committed := peer_last_committed s; new_value := new_value s; accepted := accepted s;
     acked_lease := x; pending_proposal := pending_proposal s; trimming := trimming s; plugged := plugged s;
     commits_started := commits_started s; timers := timers s; waiters := waiters s |}.
Definition set_pending_proposal (x : option value) (s : Paxos) : Paxos :=
  {| rank := rank s; mstate := mstate s; leader := leader s; quorum := quorum s; epoch := epoch s;
     map_size := map_size s; clock := clock s; store := store s; queued := queued s; state := state s;
     last_pn := last_pn s; accepted_pn := accepted_pn s; accepted_pn_from := accepted_pn_from s;
     first_committed := first_committed s; last_committed := last_committed s; lease_expire := lease_expire s;
     num_last := num_last s; uncommitted_v := uncommitted_v s; uncommitted_pn := uncommitted_pn s;
     uncommitted_value := uncommitted_value s; peer_first_committed := peer_first_committed s;
     peer_last_committed := peer_last_committed s; new_value := new_value s; accepted := accepted s;
     acked_lease := acked_lease s; pending_proposal := x; trimming := trimming s; plugged := plugged s;
     commits_started := commits_started s; timers := timers s; waiters := waiters s |}.
Definition set_trimming (x : bool) (s : Paxos) : Paxos :=
  {| rank := rank s; mstate := mstate s; leader := leader s; quorum := quorum s; epoch := epoch s;
     map_size := map_size s; clock := clock s; store := store s; queued := queued s; state := state s;
     last_pn := last_pn s; accepted_pn := accepted_pn s; accepted_pn_from := accepted_pn_from s;
     first_committed := first_committed s; last_committed := last_committed s; lease_expire := lease_expire s;
     num_last := num_last s; uncommitted_v := uncommitted_v s; uncommitted_pn := uncommitted_pn s;
     uncommitted_value := uncommitted_value s; peer_first_committed := peer_first_committed s;
     peer_last_committed := peer_last_committed s; new_value := new_value s; accepted := accepted s;
     acked_lease := acked_lease s; pending_proposal := pending_proposal s; trimming := x; plugged := plugged s;
     commits_started := commits_started s; timers := timers s; waiters := waiters s |}.
Definition set_plugged (x : bool) (s : Paxos) : Paxos :=
  {| rank := rank s; mstate := mstate s; leader := leader s; quorum := quorum s; epoch := epoch s;
     map_size := map_size s; clock := clock s; store := store s; queued := queued s; state := state s;
     last_pn := last_pn s; accepted_pn := accepted_pn s; accepted_pn_from := accepted_pn_from s;
     first_committed := first_committed s; last_committed := last_committed s; lease_expire := lease_expire s;
     num_last := num_last s; uncommitted_v := uncommitted_v s; uncommitted_pn := uncommitted_pn s;
     uncommitted_value := uncommitted_value s; peer_first_committed := peer_first_committed s;
     peer_last_committed := peer_last_committed s; new_value := new_value s; accepted := accepted s;
     acked_lease := acked_lease s; pending_proposal := pending_proposal s; trimming := trimming s; plugged := x;
     commits_started := commits_started s; timers := timers s; waiters := waiters s |}.
Definition set_commits_started (x : Z) (s : Paxos) : Paxos :=
  {| rank := rank s; mstate := mstate s; leader := leader s; quorum := quorum s; epoch := epoch s;
     map_size := map_size s; clock := clock s; store := store s; queued := queued s; state := state s;
     last_pn := last_pn s; accepted_pn := accepted_pn s; accepted_pn_from := accepted_pn_from s;
     first_committed := first_committed s; last_committed := last_committed s; lease_expire := lease_expire s;
     num_last := num_last s; uncommitted_v := uncommitted_v s; uncommitted_pn := uncommitted_pn s;
     uncommitted_value := uncommitted_value s; peer_first_committed := peer_first_committed s;
     peer_last_committed := peer_last_committed s; new_value := new_value s; accepted := accepted s;
     acked_lease := acked_lease s; pending_proposal := pending_proposal s; trimming := trimming s;
     plugged := plugged s; commits_started := x; timers := timers s; waiters := waiters s |}.
Definition set_timers (x : Timers) (s : Paxos) : Paxos :=
  {| rank := rank s; mstate := mstate s; leader := leader s; quorum := quorum s; epoch := epoch s;
     map_size := map_size s; clock := clock s; store := store s; queued := queued s; state := state s;
     last_pn := last_pn s; accepted_pn := accepted_pn s; accepted_pn_from := accepted_pn_from s;
     first_committed := first_committed s; last_committed := last_committed s; lease_expire := lease_expire s;
     num_last := num_last s; uncommitted_v := uncommitted_v s; uncommitted_pn := uncommitted_pn s;
     uncommitted_value := uncommitted_value s; peer_first_committed := peer_first_committed s;
     peer_last_committed := peer_last_committed s; new_value := new_value s; accepted := accepted s;
     acked_lease := acked_lease s; pending_proposal := pending_proposal s; trimming := trimming s;
     plugged := plugged s; commits_started := commits_started s; timers := x; waiters := waiters s |}.
Definition set_waiters (x : Waiters) (s : Paxos) : Paxos :=
  {| rank := rank s; mstate := mstate s; leader := leader s; quorum := quorum s; epoch := epoch s;
     map_size := map_size s; clock := clock s; store := store s; queued := queued s; state := state s;
     last_pn := last_pn s; accepted_pn := accepted_pn s; accepted_pn_from := accepted_pn_from s;
     first_committed := first_committed s; last_committed := last_committed s; lease_expire := lease_expire s;
     num_last := num_last s; uncommitted_v := uncommitted_v s; uncommitted_pn := uncommitted_pn s;
     uncommitted_value := uncommitted_value s; peer_first_committed := peer_first_committed s;
     peer_last_committed := peer_last_committed s; new_value := new_value s; accepted := accepted s;
     acked_lease := acked_lease s; pending_proposal := pending_proposal s; trimming := trimming s;
     plugged := plugged s; commits_started := commits_started s; timers := timers s; waiters := x |}.

(** [MMonPaxos]. *)
Inductive paxos_op := OP_COLLECT | OP_LAST | OP_BEGIN | OP_ACCEPT | OP_COMMIT | OP_LEASE | OP_LEASE_ACK.

Record MMonPaxos := {
  m_from : Z;
  m_epoch : Z;
  m_op : paxos_op;
  m_first_committed : Z;
  m_last_committed : Z;
  m_pn_from : Z;
  m_pn : Z;
  m_uncommitted_pn : Z;
  m_lease_timestamp : Z;
  m_values : gmap Z value
}.

Inductive event :=
| Send (to : Z) (m : MMonPaxos)
| Complete (c : Z) (r : Z)
| Refresh
| Bootstrap.

(** A monitor that has never run. *)
Definition newborn (n r : Z) : Paxos :=
  {| rank := r; mstate := Mon.STATE_PROBING; leader := -1; quorum := ∅; epoch := 0;
     map_size := n; clock := 0; store := empty_store; queued := None; state := STATE_RECOVERING;
     last_pn := 0; accepted_pn := 0; accepted_pn_from := 0; first_committed := 0; last_committed := 0;
     lease_expire := 0; num_last := 0; uncommitted_v := 0; uncommitted_pn := 0; uncommitted_value := None;
     peer_first_committed := ∅; peer_last_committed := ∅; new_value := None; accepted := ∅; acked_lease := ∅;
     pending_proposal := None; trimming := false; plugged := false; commits_started := 0;
     timers := {| collect_timeout_event := false; accept_timeout_event := false; lease_renew_event := false;
                  lease_ack_timeout_event := false; lease_timeout_event := false |};
     waiters := {| pending_finishers := []; committing_finishers := []; waiting_for_active := [];
                   waiting_for_readable := []; waiting_for_writeable := [] |} |}.

End PaxosState.
