(* ===== verification/Paxos.v ===== *)
(** The monitors' Paxos: src/ceph-15.2.17/src/mon/Paxos.cc.  The handlers of
    one monitor's instance, messages and timers, over the state of
    PaxosState.v; the election layer that tells a monitor its role is
    Election.v. *)
From S2P Require Import Prelude Effects Election PaxosState.

Module Paxos.
Export PaxosState.
Import Mon (mon_state, STATE_LEADER, STATE_PEON, STATE_PROBING, STATE_SYNCHRONIZING).

(** Options ([g_conf()]) the handlers read. *)
Record config := { mon_lease : Z; paxos_min : Z; paxos_trim_min : Z; paxos_trim_max : Z }.

Section Handlers.
Context (conf : config).

(** [Monitor::refresh_from_paxos]: whether the services, reading the store,
    ask for a bootstrap. *)
Context (need_bootstrap : Store -> bool).
#[local] Abbreviation H := (handler Paxos event).

Definition EAGAIN : Z := 11.

Definition is_leader (s : Paxos) : bool := match mstate s with STATE_LEADER => true | _ => false end.
Definition is_peon (s : Paxos) : bool := match mstate s with STATE_PEON => true | _ => false end.
Definition is_active (s : Paxos) : bool := match state s with STATE_ACTIVE => true | _ => false end.
Definition is_updating (s : Paxos) : bool := match state s with STATE_UPDATING => true | _ => false end.
Definition is_updating_previous (s : Paxos) : bool :=
  match state s with STATE_UPDATING_PREVIOUS => true | _ => false end.
Definition is_writing (s : Paxos) : bool := match state s with STATE_WRITING => true | _ => false end.
Definition is_writing_previous (s : Paxos) : bool :=
  match state s with STATE_WRITING_PREVIOUS => true | _ => false end.
Definition is_refresh (s : Paxos) : bool := match state s with STATE_REFRESH => true | _ => false end.

Definition quorum_size (s : Paxos) : Z := Z.of_nat (size (quorum s)).

(** The quorum without this monitor, in the order of the [std::set]. *)
Definition peers (s : Paxos) : list Z := filter (fun p => p <> rank s) (Elector.in_order (quorum s)).

Definition blank (s : Paxos) (op : paxos_op) : MMonPaxos :=
  {| m_from := rank s; m_epoch := epoch s; m_op := op; m_first_committed := 0; m_last_committed := 0;
     m_pn_from := 0; m_pn := 0; m_uncommitted_pn := 0; m_lease_timestamp := 0; m_values := ∅ |}.

Definition on_store (f : Store -> Store) : H unit := modify (fun s => set_store (f (store s)) s).
Definition on_timers (f : Timers -> Timers) : H unit := modify (fun s => set_timers (f (timers s)) s).
Definition on_waiters (f : Waiters -> Waiters) : H unit := modify (fun s => set_waiters (f (waiters s)) s).

(** [finish_contexts]: run and clear callbacks with a result. *)
Fixpoint finish (cs : list ctx) (r : Z) : H unit :=
  match cs with
  | [] => mret tt
  | Client c :: cs' => emit (Complete c r) ;; finish cs' r
  | Trimmed :: cs' => modify (set_trimming false) ;; finish cs' r
  end.

Definition finish_waiting_for_active (r : Z) : H unit :=
  s ← get; on_waiters (set_waiting_for_active []) ;; finish (waiting_for_active (waiters s)) r.
Definition finish_waiting_for_readable (r : Z) : H unit :=
  s ← get; on_waiters (set_waiting_for_readable []) ;; finish (waiting_for_readable (waiters s)) r.
Definition finish_waiting_for_writeable (r : Z) : H unit :=
  s ← get; on_waiters (set_waiting_for_writeable []) ;; finish (waiting_for_writeable (waiters s)) r.
Definition finish_committing (r : Z) : H unit :=
  s ← get; on_waiters (set_committing_finishers []) ;; finish (committing_finishers (waiters s)) r.

Definition reset_pending_committing_finishers : H unit :=
  on_waiters (fun w => set_pending_finishers []
    (set_committing_finishers (committing_finishers w ++ pending_finishers w) w)) ;;
  finish_committing (- EAGAIN).

Definition cancel_events : H unit :=
  on_timers (fun _ => {| collect_timeout_event := false; accept_timeout_event := false;
    lease_renew_event := false; lease_ack_timeout_event := false; lease_timeout_event := false |}).

(** [Paxos::restart]; its wait for a queued commit is in [bootstrap]. *)
Definition restart : H unit :=
  cancel_events ;;
  modify (set_new_value None) ;;
  modify (set_state STATE_RECOVERING) ;;
  modify (set_pending_proposal None) ;;
  reset_pending_committing_finishers ;;
  finish_waiting_for_active (- EAGAIN).

(** [Monitor::bootstrap] as Paxos sees it: the role and the quorum are gone,
    and [Monitor::_reset] restarts Paxos. *)
Definition bootstrap_now : H unit :=
  modify (set_mstate STATE_PROBING) ;;
  modify (set_quorum ∅) ;;
  restart ;;
  emit Bootstrap.

Definition do_refresh : H bool :=
  s ← get;
  emit Refresh ;;
  if need_bootstrap (store s) then bootstrap_now ;; mret false else mret true.

(** *** Proposal numbers *)

Definition get_new_proposal_number (gt : Z) : H Z :=
  s ← get;
  let pn := if last_pn s <? gt then gt else last_pn s in
  let pn := add64 (mul64 (add64 (pn / 100) 1) 100) (rank s) in
  modify (set_last_pn pn) ;;
  on_store (set_k_last_pn pn) ;;
  mret pn.

(** *** Leases *)

Definition is_lease_valid (s : Paxos) : bool := (quorum_size s =? 1) || (clock s <? lease_expire s).

Definition is_readable (s : Paxos) (v : Z) : bool :=
  if last_committed s <? v then false
  else (is_peon s || is_leader s) && (is_active s || is_updating s || is_writing s) &&
       (0 <? last_committed s) && is_lease_valid s.

Definition is_writeable (s : Paxos) : bool := is_leader s && is_active s && is_lease_valid s.

Definition reset_lease_timeout : H unit := on_timers (set_lease_timeout_event true).

Definition extend_lease : H unit :=
  s ← get;
  assertion (is_leader s) ;;
  let expire := clock s + mon_lease conf in
  modify (set_lease_expire expire) ;;
  modify (set_acked_lease {[ rank s ]}) ;;
  emit_all ((fun p => Send p
    {| m_from := rank s; m_epoch := epoch s; m_op := OP_LEASE; m_first_committed := first_committed s;
       m_last_committed := last_committed s; m_pn_from := 0; m_pn := 0; m_uncommitted_pn := 0;
       m_lease_timestamp := expire; m_values := ∅ |}) <$> peers s) ;;
  on_timers (set_lease_ack_timeout_event true) ;;
  on_timers (set_lease_renew_event true).

(** *** Proposing and committing *)

Definition commit_start : H unit :=
  s ← get;
  modify (set_queued (new_value s)) ;;
  (if is_updating_previous s then modify (set_state STATE_WRITING_PREVIOUS)
   else if is_updating s then modify (set_state STATE_WRITING)
   else assertion false) ;;
  modify (set_commits_started (commits_started s + 1)) ;;
  when (1 <? quorum_size s) (on_timers (set_accept_timeout_event false)).

Definition begin (v : value) : H unit :=
  s ← get;
  assertion (is_leader s) ;;
  assertion (is_updating s || is_updating_previous s) ;;
  assertion ((quorum_size s =? 1) || (map_size s / 2 <? num_last s)) ;;
  assertion (match new_value s with None => true | Some _ => false end) ;;
  modify (set_accepted {[ rank s ]}) ;;
  let x := if last_committed s =? 0 then PutFirstCommitted 1 :: v else v in
  modify (set_new_value (Some x)) ;;
  on_store (fun st => set_k_pending_pn (accepted_pn s)
    (set_k_pending_v (last_committed s + 1) (put_version (last_committed s + 1) x st))) ;;
  if quorum_size s =? 1 then commit_start
  else
    emit_all ((fun p => Send p
      {| m_from := rank s; m_epoch := epoch s; m_op := OP_BEGIN; m_first_committed := 0;
         m_last_committed := last_committed s; m_pn_from := 0; m_pn := accepted_pn s; m_uncommitted_pn := 0;
         m_lease_timestamp := 0; m_values := {[ last_committed s + 1 := x ]} |}) <$> peers s) ;;
    on_timers (set_accept_timeout_event true).

Definition propose_pending : H unit :=
  s ← get;
  assertion (is_active s) ;;
  match pending_proposal s with
  | None => assertion false
  | Some bl =>
      cancel_events ;;
      modify (set_pending_proposal None) ;;
      on_waiters (fun w => set_pending_finishers (committing_finishers w)
        (set_committing_finishers (pending_finishers w) w)) ;;
      modify (set_state STATE_UPDATING) ;;
      begin bl
  end.

Definition queue_pending_finisher (c : ctx) : H unit :=
  on_waiters (fun w => set_pending_finishers (pending_finishers w ++ [c]) w).

(** The transaction being accumulated, created empty when there is none. *)
Definition get_pending_transaction : H value :=
  s ← get;
  assertion (is_leader s) ;;
  match pending_proposal s with
  | Some v => mret v
  | None =>
      modify (set_pending_proposal (Some [])) ;;
      assertion (match pending_finishers (waiters s) with [] => true | _ => false end) ;;
      mret []
  end.

Definition trigger_propose : H bool :=
  s ← get;
  if plugged s then mret false
  else if is_active s then propose_pending ;; mret true
  else mret false.

(** *** Trimming *)

Definition int32 (z : Z) : Z := (z + 2147483648) mod two32 - 2147483648.

Definition should_trim (s : Paxos) : bool :=
  let available_versions := int32 (last_committed s - first_committed s) in
  let maximum_versions := int32 (paxos_min conf + paxos_trim_min conf) in
  negb (trimming s || (available_versions <=? maximum_versions)).

Definition trim : H unit :=
  s ← get;
  assertion (should_trim s) ;;
  let end_ := Z.min (sub64 (last_committed s) (paxos_min conf)) (add64 (first_committed s) (paxos_trim_max conf)) in
  if end_ <=? first_committed s then mret tt
  else
    t ← get_pending_transaction;
    modify (set_pending_proposal (Some
      (t ++ (EraseVersion <$> seqZ (first_committed s) (end_ - first_committed s)) ++ [PutFirstCommitted end_]))) ;;
    modify (set_trimming true) ;;
    queue_pending_finisher Trimmed.

Definition finish_round : H unit :=
  s ← get;
  assertion (is_leader s) ;;
  modify (set_state STATE_ACTIVE) ;;
  finish_waiting_for_active 0 ;;
  finish_waiting_for_readable 0 ;;
  finish_waiting_for_writeable 0 ;;
  s ← get;
  when (should_trim s) trim ;;
  s ← get;
  when (is_active s && match pending_proposal s with Some _ => true | None => false end) propose_pending.

Definition commit_proposal : H unit :=
  s ← get;
  assertion (is_leader s) ;;
  assertion (is_refresh s) ;;
  finish_committing 0.

Definition _sanity_check_store : H unit :=
  s ← get; assertion (k_last_committed (store s) =? last_committed s).

Definition commit_finish : H unit :=
  modify (set_lease_expire 0) ;;
  modify (fun s => set_last_committed (last_committed s + 1) s) ;;
  modify (fun s => set_first_committed (k_first_committed (store s)) s) ;;
  _sanity_check_store ;;
  s ← get;
  emit_all ((fun p => Send p
    {| m_from := rank s; m_epoch := epoch s; m_op := OP_COMMIT; m_first_committed := 0;
       m_last_committed := last_committed s; m_pn_from := 0; m_pn := accepted_pn s; m_uncommitted_pn := 0;
       m_lease_timestamp := 0;
       m_values := {[ last_committed s := default [] (new_value s) ]} |}) <$> peers s) ;;
  modify (set_new_value None) ;;
  assertion (is_writing s || is_writing_previous s) ;;
  modify (set_state STATE_REFRESH) ;;
  assertion (0 <? commits_started s) ;;
  modify (set_commits_started (commits_started s - 1)) ;;
  ok ← do_refresh;
  when ok
    (commit_proposal ;;
     s ← get;
     when (1 <? quorum_size s) extend_lease ;;
     finish_round).

(** The queued transaction of [commit_start] reaches the store and its
    completion runs. *)
Definition committed : H unit :=
  s ← get;
  match queued s with
  | None => assertion false
  | Some v =>
      modify (set_queued None) ;;
      on_store (fun st => apply_value v (set_k_last_committed (last_committed s + 1) st)) ;;
      commit_finish
  end.

(** [Monitor::bootstrap] from a state that may have a commit in flight:
    [wait_for_paxos_write] lets it complete first. *)
Definition bootstrap : H unit :=
  s ← get;
  when (is_writing s || is_writing_previous s) committed ;;
  bootstrap_now.

(** *** Sharing and storing committed values *)

Definition shared_values (st : Store) (from last : Z) : gmap Z value :=
  list_to_map (omap (fun v => (fun x => (v, x)) <$> versions st !! v) (seqZ (from + 1) (last - from))).

(** [share_state] fills in a message. *)
Definition share_state (m : MMonPaxos) (peer_last_committed : Z) : H MMonPaxos :=
  s ← get;
  assertion (peer_last_committed <? last_committed s) ;;
  mret {| m_from := m_from m; m_epoch := m_epoch m; m_op := m_op m; m_first_committed := m_first_committed m;
     m_last_committed := last_committed s; m_pn_from := m_pn_from m; m_pn := m_pn m;
     m_uncommitted_pn := m_uncommitted_pn m; m_lease_timestamp := m_lease_timestamp m;
     m_values := shared_values (store s) peer_last_committed (last_committed s) ∪ m_values m |}.

Definition key_le (a b : Z * value) : Prop := a.1 <= b.1.
#[local] Instance key_le_dec a b : Decision (key_le a b).
Proof. unfold key_le. apply _. Defined.

(** The entries of a [std::map], in order. *)
Definition entries (m : gmap Z value) : list (Z * value) := merge_sort key_le (map_to_list m).

Fixpoint skip_old (lc : Z) (es : list (Z * value)) : list (Z * value) :=
  match es with
  | (k, v) :: es' => if k <=? lc then skip_old lc es' else es
  | [] => []
  end.

Fixpoint take_until (mlc : Z) (es : list (Z * value)) : list (Z * value) :=
  match es with
  | (k, v) :: es' => if k <=? mlc then (k, v) :: take_until mlc es' else []
  | [] => []
  end.

Definition store_value (st : Store) (e : Z * value) : Store := apply_value e.2 (put_version e.1 e.2 st).

Definition store_state (m : MMonPaxos) : H bool :=
  s ← get;
  let es := entries (m_values m) in
  if match es with (k, _) :: _ => last_committed s + 1 <? k | [] => false end then mret false
  else
    let es := take_until (m_last_committed m) (skip_old (last_committed s) es) in
    match last es with
    | None => mret false
    | Some (lc, _) =>
        modify (set_last_committed lc) ;;
        when (negb (uncommitted_v s =? 0) && (uncommitted_v s <=? lc))
          (modify (set_uncommitted_v 0) ;; modify (set_uncommitted_pn 0) ;; modify (set_uncommitted_value None)) ;;
        on_store (fun st => fold_left store_value es (set_k_last_committed lc st)) ;;
        modify (fun s => set_first_committed (k_first_committed (store s)) s) ;;
        _sanity_check_store ;;
        mret true
    end.

(** *** Phase 1 *)

(** The accepted but uncommitted value in the store and the proposal number to
    report it under. *)
Definition uncommitted (s : Paxos) (pn : Z) : option (Z * value) :=
  (fun x =>
     (if negb (k_pending_v (store s) =? 0) && negb (k_pending_pn (store s) =? 0) &&
         (k_pending_v (store s) =? last_committed s + 1)
      then k_pending_pn (store s) else pn, x)) <$> versions (store s) !! (last_committed s + 1).

Definition collect (oldpn : Z) : H unit :=
  modify (set_state STATE_RECOVERING) ;;
  s ← get;
  assertion (is_leader s) ;;
  modify (set_peer_first_committed ∅) ;;
  modify (set_peer_last_committed ∅) ;;
  match uncommitted s (accepted_pn s) with
  | Some (pn, x) =>
      modify (set_uncommitted_v (last_committed s + 1)) ;;
      modify (set_uncommitted_pn pn) ;;
      modify (set_uncommitted_value (Some x))
  | None =>
      modify (set_uncommitted_v 0) ;;
      modify (set_uncommitted_pn 0) ;;
      modify (set_uncommitted_value None)
  end ;;
  pn ← get_new_proposal_number (Z.max (accepted_pn s) oldpn);
  modify (set_accepted_pn pn) ;;
  modify (set_accepted_pn_from (last_committed s)) ;;
  modify (set_num_last 1) ;;
  emit_all ((fun p => Send p
    {| m_from := rank s; m_epoch := epoch s; m_op := OP_COLLECT; m_first_committed := first_committed s;
       m_last_committed := last_committed s; m_pn_from := 0; m_pn := pn; m_uncommitted_pn := 0;
       m_lease_timestamp := 0; m_values := ∅ |}) <$> peers s) ;;
  on_timers (set_collect_timeout_event true).

Definition handle_collect (m : MMonPaxos) : H unit :=
  s ← get;
  assertion (is_peon s) ;;
  modify (set_state STATE_RECOVERING) ;;
  reset_lease_timeout ;;
  if last_committed s + 1 <? m_first_committed m then bootstrap_now
  else
    let previous_pn := accepted_pn s in
    when (accepted_pn s <? m_pn m)
      (modify (set_accepted_pn (m_pn m)) ;;
       modify (set_accepted_pn_from (m_pn_from m)) ;;
       on_store (set_k_accepted_pn (m_pn m))) ;;
    s ← get;
    let reply :=
      {| m_from := rank s; m_epoch := epoch s; m_op := OP_LAST; m_first_committed := first_committed s;
         m_last_committed := last_committed s; m_pn_from := accepted_pn_from s; m_pn := accepted_pn s;
         m_uncommitted_pn := 0; m_lease_timestamp := 0; m_values := ∅ |} in
    reply ← (if m_last_committed m <? last_committed s then share_state reply (m_last_committed m) else mret reply);
    let reply :=
      match (if m_last_committed m <=? last_committed s then uncommitted s previous_pn else None) with
      | Some (pn, x) =>
          {| m_from := m_from reply; m_epoch := m_epoch reply; m_op := m_op reply;
             m_first_committed := m_first_committed reply; m_last_committed := m_last_committed reply;
             m_pn_from := m_pn_from reply; m_pn := m_pn reply; m_uncommitted_pn := pn;
             m_lease_timestamp := m_lease_timestamp reply;
             m_values := <[ last_committed s + 1 := x ]> (m_values reply) |}
      | None => reply
      end in
    emit (Send (m_from m) reply).

(** Bring every peer that answered up to date; [true] when one is too far
    behind and the monitor has bootstrapped. *)
Fixpoint push_commits (ps : list (Z * Z)) : H bool :=
  match ps with
  | [] => mret false
  | (p, lc) :: ps' =>
      s ← get;
      if (lc + 1 <? first_committed s) && (1 <? first_committed s) then bootstrap_now ;; mret true
      else
        when (lc <? last_committed s)
          (m ← share_state (blank s OP_COMMIT) lc; emit (Send p m)) ;;
        push_commits ps'
  end.

Definition peer_le (a b : Z * Z) : Prop := a.1 <= b.1.
#[local] Instance peer_le_dec a b : Decision (peer_le a b).
Proof. unfold peer_le. apply _. Defined.
Definition peer_entries (m : gmap Z Z) : list (Z * Z) := merge_sort peer_le (map_to_list m).

(** An uncommitted value reported by a peer replaces the one known when its
    proposal number is not lower and it is not for an older version. *)
Definition learn_uncommitted (m : MMonPaxos) : H unit :=
  s ← get;
  when (negb (m_uncommitted_pn m =? 0) && (uncommitted_pn s <=? m_uncommitted_pn m) &&
        (last_committed s <=? m_last_committed m) && (uncommitted_v s <=? m_last_committed m + 1))
    (modify (set_uncommitted_v (m_last_committed m + 1)) ;;
     modify (set_uncommitted_pn (m_uncommitted_pn m)) ;;
     modify (set_uncommitted_value (m_values m !! (m_last_committed m + 1)))).

(** Everybody has answered: propose the value learnt, or go active. *)
Definition collected (need_refresh : bool) : H bool :=
  on_timers (set_collect_timeout_event false) ;;
  modify (set_peer_first_committed ∅) ;;
  modify (set_peer_last_committed ∅) ;;
  s ← get;
  match uncommitted_value s with
  | Some v =>
      if uncommitted_v s =? last_committed s + 1 then
        modify (set_state STATE_UPDATING_PREVIOUS) ;; begin v ;; mret need_refresh
      else
        extend_lease ;; ok ← do_refresh; when ok finish_round ;; mret false
  | None => extend_lease ;; ok ← do_refresh; when ok finish_round ;; mret false
  end.

Definition handle_last (m : MMonPaxos) : H unit :=
  s ← get;
  if negb (is_leader s) then mret tt
  else
    modify (fun s => set_peer_first_committed (<[ m_from m := m_first_committed m ]> (peer_first_committed s)) s) ;;
    modify (fun s => set_peer_last_committed (<[ m_from m := m_last_committed m ]> (peer_last_committed s)) s) ;;
    if last_committed s + 1 <? m_first_committed m then bootstrap_now
    else
      need_refresh ← store_state m;
      s ← get;
      gone ← push_commits (peer_entries (peer_last_committed s));
      when (negb gone)
        (s ← get;
         need_refresh ←
           (if accepted_pn s <? m_pn m then
              on_timers (set_collect_timeout_event false) ;; collect (m_pn m) ;; mret need_refresh
            else if m_pn m =? accepted_pn s then
              modify (fun s => set_num_last (num_last s + 1) s) ;;
              learn_uncommitted m ;;
              s ← get;
              if num_last s =? quorum_size s then collected need_refresh else mret need_refresh
            else mret need_refresh);
         when need_refresh (_ ← do_refresh; mret tt)).

(** *** Phase 2 *)

Definition handle_begin (m : MMonPaxos) : H unit :=
  s ← get;
  if m_pn m <? accepted_pn s then mret tt
  else
    assertion (m_pn m =? accepted_pn s) ;;
    assertion (m_last_committed m =? last_committed s) ;;
    modify (set_state STATE_UPDATING) ;;
    modify (set_lease_expire 0) ;;
    let v := last_committed s + 1 in
    on_store (fun st => set_k_pending_pn (accepted_pn s) (set_k_pending_v v
      (put_version v (default [] (m_values m !! v)) st))) ;;
    emit (Send (m_from m)
      {| m_from := rank s; m_epoch := epoch s; m_op := OP_ACCEPT; m_first_committed := 0;
         m_last_committed := last_committed s; m_pn_from := 0; m_pn := accepted_pn s; m_uncommitted_pn := 0;
         m_lease_timestamp := 0; m_values := ∅ |}).

Definition handle_accept (m : MMonPaxos) : H unit :=
  s ← get;
  if negb (m_pn m =? accepted_pn s) then mret tt
  else if (0 <? last_committed s) && (m_last_committed m <? last_committed s - 1) then mret tt
  else
    assertion ((m_last_committed m =? last_committed s) || (m_last_committed m =? last_committed s - 1)) ;;
    assertion (is_updating s || is_updating_previous s) ;;
    assertion (negb (bool_decide (m_from m ∈ accepted s))) ;;
    modify (fun s => set_accepted ({[ m_from m ]} ∪ accepted s) s) ;;
    s ← get;
    when (bool_decide (accepted s = quorum s)) commit_start.

Definition handle_commit (m : MMonPaxos) : H unit :=
  s ← get;
  assertion (is_peon s) ;;
  _ ← store_state m;
  _ ← do_refresh;
  mret tt.

(** *** Leases *)

Definition handle_lease (m : MMonPaxos) : H unit :=
  s ← get;
  if negb (is_peon s) || negb (last_committed s =? m_last_committed m) then mret tt
  else
    when (lease_expire s <? m_lease_timestamp m) (modify (set_lease_expire (m_lease_timestamp m))) ;;
    modify (set_state STATE_ACTIVE) ;;
    emit (Send (m_from m)
      {| m_from := rank s; m_epoch := epoch s; m_op := OP_LEASE_ACK; m_first_committed := first_committed s;
         m_last_committed := last_committed s; m_pn_from := 0; m_pn := 0; m_uncommitted_pn := 0;
         m_lease_timestamp := clock s; m_values := ∅ |}) ;;
    reset_lease_timeout ;;
    finish_waiting_for_active 0 ;;
    s ← get;
    when (is_readable s 0) (finish_waiting_for_readable 0).

Definition handle_lease_ack (m : MMonPaxos) : H unit :=
  s ← get;
  if negb (lease_ack_timeout_event (timers s)) then mret tt
  else if bool_decide (m_from m ∈ acked_lease s) then mret tt
  else
    modify (fun s => set_acked_lease ({[ m_from m ]} ∪ acked_lease s) s) ;;
    s ← get;
    when (bool_decide (acked_lease s = quorum s)) (on_timers (set_lease_ack_timeout_event false)).

(** *** Timeouts *)

Definition collect_timeout : H unit :=
  on_timers (set_collect_timeout_event false) ;;
  s ← get; assertion (is_leader s) ;; bootstrap.

Definition accept_timeout : H unit :=
  on_timers (set_accept_timeout_event false) ;;
  s ← get;
  assertion (is_leader s) ;;
  assertion (is_updating s || is_updating_previous s || is_writing s || is_writing_previous s) ;;
  bootstrap.

Definition lease_ack_timeout : H unit :=
  s ← get;
  assertion (is_leader s) ;;
  assertion (is_active s) ;;
  on_timers (set_lease_ack_timeout_event false) ;;
  bootstrap.

Definition lease_timeout : H unit :=
  s ← get;
  assertion (is_peon s) ;;
  on_timers (set_lease_timeout_event false) ;;
  bootstrap.

Definition lease_renew_timeout : H unit := on_timers (set_lease_renew_event false) ;; extend_lease.

(** *** Roles *)

Definition leader_init : H unit :=
  cancel_events ;;
  modify (set_new_value None) ;;
  modify (set_pending_proposal None) ;;
  reset_pending_committing_finishers ;;
  s ← get;
  if quorum_size s =? 1 then modify (set_state STATE_ACTIVE)
  else
    modify (set_state STATE_RECOVERING) ;;
    modify (set_lease_expire 0) ;;
    collect 0.

Definition peon_init : H unit :=
  cancel_events ;;
  modify (set_new_value None) ;;
  modify (set_state STATE_RECOVERING) ;;
  modify (set_lease_expire 0) ;;
  reset_lease_timeout ;;
  modify (set_pending_proposal None) ;;
  reset_pending_committing_finishers ;;
  finish_waiting_for_writeable (- EAGAIN).

(** [Paxos::init]: load the variables from the store. *)
Definition init : H unit :=
  s ← get;
  let st := store s in
  modify (set_last_pn (k_last_pn st)) ;;
  modify (set_accepted_pn (k_accepted_pn st)) ;;
  modify (set_last_committed (k_last_committed st)) ;;
  modify (set_first_committed (k_first_committed st)) ;;
  assertion (k_first_committed st <=? k_last_committed st).

Definition dispatch (m : MMonPaxos) : H unit :=
  s ← get;
  if negb (is_leader s) && negb (is_peon s) then mret tt
  else
    assertion (is_leader s || (is_peon s && (m_from m =? leader s))) ;;
    match m_op m with
    | OP_COLLECT => handle_collect m
    | OP_LAST => handle_last m
    | OP_BEGIN => handle_begin m
    | OP_ACCEPT => handle_accept m
    | OP_COMMIT => handle_commit m
    | OP_LEASE => handle_lease m
    | OP_LEASE_ACK => handle_lease_ack m
    end.

(** The guards of [Monitor::dispatch_op]. *)
Definition dispatch_op (m : MMonPaxos) : H unit :=
  s ← get;
  match mstate s with
  | STATE_SYNCHRONIZING => mret tt
  | _ =>
      if epoch s <? m_epoch m then bootstrap
      else if negb (m_epoch m =? epoch s) then mret tt
      else dispatch m
  end.

End Handlers.
End Paxos.

(** ** Lemmas *)

Module PaxosFacts.
Import Paxos.

#[local] Create HintDb promise.
#[local] Create HintDb noacc.
#[local] Create HintDb nocommit.

Section Facts.
Context (conf : config) (need_bootstrap : Store -> bool).

(** *** Proposal numbers *)

Lemma new_pn_spec s gt :
  0 <= rank s < 100 -> 0 <= gt -> 0 <= last_pn s -> Z.max gt (last_pn s) + 200 < two64 ->
  exists pn, get_new_proposal_number gt s =
      Some (pn, set_store (set_k_last_pn pn (store s)) (set_last_pn pn s), []) /\
    pn mod 100 = rank s /\ Z.max gt (last_pn s) < pn <= Z.max gt (last_pn s) + 200.
Proof.
  intros Hr Hg Hl Hb. unfold get_new_proposal_number, on_store. hred.
  set (b := if last_pn s <? gt then gt else last_pn s).
  assert (b = Z.max gt (last_pn s)) as Eb by (unfold b; destruct (Z.ltb_spec (last_pn s) gt); lia).
  pose proof (Z.div_mod b 100 ltac:(lia)). pose proof (Z.mod_pos_bound b 100 ltac:(lia)).
  rewrite (add64_small (b / 100)), mul64_small, add64_small by lia.
  eexists. split; [done|]. split.
  - rewrite Z.add_comm, Z_mod_plus_full. by apply Z.mod_small.
  - lia.
Qed.

(** *** What most handlers leave alone *)

(** The promise and its durable copy. *)
Definition same_promise (s s' : Paxos) : Prop :=
  accepted_pn s' = accepted_pn s /\ k_accepted_pn (store s') = k_accepted_pn (store s).
#[local] Instance same_promise_preorder : PreOrder same_promise.
Proof. unfold same_promise. split; [done|]. intros x y z [] []. split; congruence. Qed.

Lemma apply_value_frame v st :
  k_accepted_pn (apply_value v st) = k_accepted_pn st /\ k_last_committed (apply_value v st) = k_last_committed st /\
  k_last_pn (apply_value v st) = k_last_pn st /\ k_pending_v (apply_value v st) = k_pending_v st /\
  k_pending_pn (apply_value v st) = k_pending_pn st.
Proof.
  unfold apply_value. revert st. induction v as [|o v IH]; intros st; simpl; [done|].
  destruct (IH (apply_op o st)) as (-> & -> & -> & -> & ->). by destruct o.
Qed.

Lemma store_values_frame es st :
  k_accepted_pn (fold_left store_value es st) = k_accepted_pn st /\
  k_last_committed (fold_left store_value es st) = k_last_committed st.
Proof.
  revert st. induction es as [|e es IH]; intros st; simpl; [done|].
  destruct (IH (store_value st e)) as [-> ->]. unfold store_value.
  destruct (apply_value_frame e.2 (put_version e.1 e.2 st)) as (-> & -> & _). done.
Qed.

Ltac promise :=
  unfold on_store, on_timers, on_waiters; keeps_tac ltac:(auto 1 with promise nocore) ltac:(first [done | split; [done|];
    cbn;
    first [done | by rewrite (proj1 (apply_value_frame _ _)) | by rewrite (proj1 (store_values_frame _ _))]]).

Lemma finish_promise cs r : keeps same_promise (finish cs r).
Proof. induction cs as [|[c|] cs IH]; cbn [finish]; promise. Qed.
#[local] Hint Resolve finish_promise : promise.
Lemma bootstrap_now_promise : keeps same_promise bootstrap_now.
Proof.
  unfold bootstrap_now, restart, cancel_events, reset_pending_committing_finishers, finish_committing,
    finish_waiting_for_active. promise.
Qed.
#[local] Hint Resolve bootstrap_now_promise : promise.
Lemma do_refresh_promise : keeps same_promise (do_refresh need_bootstrap).
Proof. unfold do_refresh. promise. Qed.
#[local] Hint Resolve do_refresh_promise : promise.
Lemma begin_promise v : keeps same_promise (begin v).
Proof. unfold begin, commit_start. promise. Qed.
#[local] Hint Resolve begin_promise : promise.
Lemma finish_round_promise : keeps same_promise (finish_round conf).
Proof.
  unfold finish_round, finish_waiting_for_active, finish_waiting_for_readable, finish_waiting_for_writeable, trim,
    get_pending_transaction, queue_pending_finisher, propose_pending, cancel_events. promise.
Qed.
#[local] Hint Resolve finish_round_promise : promise.
Lemma extend_lease_promise : keeps same_promise (extend_lease conf).
Proof. unfold extend_lease. promise. Qed.
#[local] Hint Resolve extend_lease_promise : promise.
Lemma commit_finish_promise : keeps same_promise (commit_finish conf need_bootstrap).
Proof. unfold commit_finish, _sanity_check_store, commit_proposal, finish_committing. promise. Qed.
#[local] Hint Resolve commit_finish_promise : promise.
Lemma committed_promise : keeps same_promise (committed conf need_bootstrap).
Proof. unfold committed. promise. Qed.
#[local] Hint Resolve committed_promise : promise.
Lemma bootstrap_promise : keeps same_promise (bootstrap conf need_bootstrap).
Proof. unfold bootstrap. promise. Qed.
#[local] Hint Resolve bootstrap_promise : promise.
Lemma store_state_promise m : keeps same_promise (store_state m).
Proof. unfold store_state, _sanity_check_store. promise. Qed.
#[local] Hint Resolve store_state_promise : promise.
Lemma handle_begin_promise m : keeps same_promise (handle_begin m).
Proof. unfold handle_begin. promise. Qed.
Lemma handle_accept_promise m : keeps same_promise (handle_accept m).
Proof. unfold handle_accept, commit_start. promise. Qed.
Lemma handle_commit_promise m : keeps same_promise (handle_commit need_bootstrap m).
Proof. unfold handle_commit. promise. Qed.
Lemma handle_lease_promise m : keeps same_promise (handle_lease m).
Proof. unfold handle_lease, reset_lease_timeout, finish_waiting_for_active, finish_waiting_for_readable. promise. Qed.
Lemma handle_lease_ack_promise m : keeps same_promise (handle_lease_ack m).
Proof. unfold handle_lease_ack. promise. Qed.

(** *** Acceptances *)

Definition no_accept (e : event) : Prop := match e with Send _ r => m_op r <> OP_ACCEPT | _ => True end.

Lemma sends_no_accept {A} (f : A -> Z) (g : A -> MMonPaxos) l :
  (forall x, m_op (g x) <> OP_ACCEPT) -> Forall no_accept ((fun x => Send (f x) (g x)) <$> l).
Proof. intros. apply Forall_fmap, Forall_true. intros x. simpl. auto. Qed.

Ltac noacc :=
  unfold on_store, on_timers, on_waiters;
  emits_tac ltac:(auto 1 with noacc nocore) ltac:(first [done | apply sends_no_accept; done]).

Lemma finish_noacc cs r : emits no_accept (finish cs r).
Proof. induction cs as [|[c|] cs IH]; cbn [finish]; noacc. Qed.
#[local] Hint Resolve finish_noacc : noacc.
Lemma bootstrap_now_noacc : emits no_accept bootstrap_now.
Proof.
  unfold bootstrap_now, restart, cancel_events, reset_pending_committing_finishers, finish_committing,
    finish_waiting_for_active. noacc.
Qed.
#[local] Hint Resolve bootstrap_now_noacc : noacc.
Lemma do_refresh_noacc : emits no_accept (do_refresh need_bootstrap).
Proof. unfold do_refresh. noacc. Qed.
#[local] Hint Resolve do_refresh_noacc : noacc.
Lemma store_state_noacc m : emits no_accept (store_state m).
Proof. unfold store_state, _sanity_check_store. noacc. Qed.
#[local] Hint Resolve store_state_noacc : noacc.
Lemma handle_accept_noacc m : emits no_accept (handle_accept m).
Proof. unfold handle_accept, commit_start. noacc. Qed.
Lemma handle_commit_noacc m : emits no_accept (handle_commit need_bootstrap m).
Proof. unfold handle_commit. noacc. Qed.
Lemma handle_lease_noacc m : emits no_accept (handle_lease m).
Proof. unfold handle_lease, reset_lease_timeout, finish_waiting_for_active, finish_waiting_for_readable. noacc. Qed.
Lemma handle_lease_ack_noacc m : emits no_accept (handle_lease_ack m).
Proof. unfold handle_lease_ack. noacc. Qed.
Lemma share_state_op m lc s r s' o : share_state m lc s = Some (r, s', o) -> m_op r = m_op m /\ s' = s /\ o = [].
Proof. unfold share_state. intros E. hinv E. done. Qed.

(** What a monitor answers a COLLECT with, and the promise it has then made. *)
Lemma handle_collect_spec m s s' o :
  handle_collect m s = Some (tt, s', o) ->
  Forall no_accept o /\ accepted_pn s <= accepted_pn s' /\
  (accepted_pn s < accepted_pn s' -> accepted_pn s' = m_pn m /\ k_accepted_pn (store s') = m_pn m).
Proof.
  unfold handle_collect, reset_lease_timeout, on_timers, on_store. intros E. hinv E.
  match goal with Hx : (if _ then _ else _) _ = _ |- _ => rename Hx into E end. destruct (Z.ltb_spec (last_committed s + 1) (m_first_committed m)).
  - pose proof (bootstrap_now_noacc _ _ _ _ E). pose proof (bootstrap_now_promise _ _ _ _ E) as [Ea _]. cbn in Ea.
    split; [done|]. rewrite Ea. lia.
  - cbv zeta in E. hinv E.
    match goal with Hx : (if _ then share_state _ _ else _) _ = _ |- _ => rename Hx into Eshare end.
    match goal with Hx : when _ _ _ = _ |- _ => rename Hx into Ewhen end.
    match type of Eshare with _ = Some (?r, ?s2, ?o2) =>
      assert (m_op r = OP_LAST /\ s2 = s0 /\ o2 = []) as (Hop & -> & ->) end.
    { destruct (m_last_committed m <? last_committed s0); [by apply share_state_op in Eshare as (? & ? & ?)|by hinv Eshare]. }
    destruct (Z.ltb_spec (accepted_pn s) (m_pn m)); cbn [when] in Ewhen; hinv Ewhen; cbn.
    + split; [|lia]. constructor; [|constructor]. cbn. repeat case_match; cbn; by rewrite Hop.
    + split; [|lia]. constructor; [|constructor]. cbn. repeat case_match; cbn; by rewrite Hop.
Qed.

Lemma handle_begin_spec m s s' o to r :
  handle_begin m s = Some (tt, s', o) -> Send to r ∈ o ->
  m_pn m = accepted_pn s /\ m_pn r = accepted_pn s /\ m_last_committed m = last_committed s /\
  k_pending_pn (store s') = m_pn m /\ k_pending_v (store s') = last_committed s + 1 /\
  versions (store s') !! (last_committed s + 1) = Some (default [] (m_values m !! (last_committed s + 1))).
Proof.
  unfold handle_begin, on_store. intros E Hin. hinv E.
  match goal with Hx : (if _ then _ else _) _ = _ |- _ => rename Hx into E end.
  destruct (_ <? _); hinv E; [by apply elem_of_nil in Hin|]. cbv zeta in *.
  zbool.
  apply list_elem_of_singleton in Hin as [= -> ->]. cbn. split_and!; try done. by rewrite lookup_insert_eq.
Qed.

Lemma peon_promise_spec m s s' o :
  is_peon s = true -> dispatch conf need_bootstrap m s = Some (tt, s', o) ->
  accepted_pn s <= accepted_pn s' /\
  (accepted_pn s < accepted_pn s' ->
     m_op m = OP_COLLECT /\ accepted_pn s' = m_pn m /\ k_accepted_pn (store s') = m_pn m) /\
  (forall to r, Send to r ∈ o -> m_op r = OP_ACCEPT ->
     m_op m = OP_BEGIN /\ m_pn m = accepted_pn s /\ m_pn r = accepted_pn s /\
     m_last_committed m = last_committed s /\
     k_pending_pn (store s') = m_pn m /\ k_pending_v (store s') = last_committed s + 1 /\
     versions (store s') !! (last_committed s + 1) = Some (default [] (m_values m !! (last_committed s + 1)))).
Proof.
  intros Hp E. assert (is_leader s = false) as Hl by (unfold is_peon, is_leader in *; by destruct (mstate s)).
  unfold dispatch in E. hinv E. rewrite Hl, Hp in *. cbn in *.
  match goal with Hx : (_ ≫= _) _ = Some _ |- _ => hinv Hx end.
  assert (forall o, Forall no_accept o -> forall to r, Send to r ∈ o -> m_op r = OP_ACCEPT -> False) as Hno.
  { intros o' Hf to r Hin Hr. rewrite Forall_forall in Hf. by apply (Hf _ Hin). }
  match goal with Hx : (match m_op m with _ => _ end) _ = Some _ |- _ => rename Hx into E end.
  destruct (m_op m) eqn:Em; cbn in *.
  - apply handle_collect_spec in E as (Hn & ? & ?). split_and!; [lia|naive_solver|]. intros; exfalso; eauto.
  - unfold handle_last in E. hinv E. rewrite Hl in *. cbn in *.
    match goal with Hx : mret _ _ = _ |- _ => hinv Hx end. split_and!; [lia|lia|]. intros ? ? []%elem_of_nil.
  - pose proof (handle_begin_promise _ _ _ _ _ E) as [Ea _]. rewrite Ea. split_and!; [lia|lia|].
    intros to r Hin _. split; [done|]. by eapply handle_begin_spec.
  - pose proof (handle_accept_promise _ _ _ _ _ E) as [Ea _]. rewrite Ea. split_and!; [lia|lia|].
    intros; exfalso; by eapply Hno; [exact (handle_accept_noacc _ _ _ _ _ E)|..].
  - pose proof (handle_commit_promise _ _ _ _ _ E) as [Ea _]. rewrite Ea. split_and!; [lia|lia|].
    intros; exfalso; by eapply Hno; [exact (handle_commit_noacc _ _ _ _ _ E)|..].
  - pose proof (handle_lease_promise _ _ _ _ _ E) as [Ea _]. rewrite Ea. split_and!; [lia|lia|].
    intros; exfalso; by eapply Hno; [exact (handle_lease_noacc _ _ _ _ _ E)|..].
  - pose proof (handle_lease_ack_promise _ _ _ _ _ E) as [Ea _]. rewrite Ea. split_and!; [lia|lia|].
    intros; exfalso; by eapply Hno; [exact (handle_lease_ack_noacc _ _ _ _ _ E)|..].
Qed.

(** *** Commits *)

(** No commit is queued, unless the monitor is alone in its quorum. *)
Definition no_commit (s s' : Paxos) : Prop :=
  (quorum s' = quorum s \/ quorum s' = ∅) /\ (queued s' = queued s \/ quorum_size s = 1).
#[local] Instance no_commit_preorder : PreOrder no_commit.
Proof.
  split; [by unfold no_commit; intros ?; auto|].
  intros x y z [Hq Hc] [Hq' Hc']. split; [destruct Hq, Hq'; first [left; congruence|right; congruence]|].
  destruct Hc as [Hc|]; [|by right]. rewrite <- Hc. destruct Hc' as [|H1]; [by left|right].
  unfold quorum_size in *. destruct Hq as [<-|E]; [done|]. rewrite E in H1. done.
Qed.

Ltac nocommit :=
  unfold on_store, on_timers, on_waiters;
  keeps_tac ltac:(auto 1 with nocommit nocore) ltac:(solve [split; cbn; auto]).

Lemma finish_nc cs r : keeps no_commit (finish cs r).
Proof. induction cs as [|[c|] cs IH]; cbn [finish]; nocommit. Qed.
#[local] Hint Resolve finish_nc : nocommit.
Lemma bootstrap_now_nc : keeps no_commit bootstrap_now.
Proof.
  unfold bootstrap_now, restart, cancel_events, reset_pending_committing_finishers, finish_committing,
    finish_waiting_for_active. nocommit.
Qed.
#[local] Hint Resolve bootstrap_now_nc : nocommit.
Lemma do_refresh_nc : keeps no_commit (do_refresh need_bootstrap).
Proof. unfold do_refresh. nocommit. Qed.
#[local] Hint Resolve do_refresh_nc : nocommit.
Definition same_quorum (s s' : Paxos) : Prop := quorum s' = quorum s.
#[local] Instance same_quorum_preorder : PreOrder same_quorum.
Proof. unfold same_quorum. split; [done|]. intros ? ? ?. congruence. Qed.
Lemma commit_start_quorum : keeps same_quorum commit_start.
Proof. unfold commit_start, on_timers. keeps_tac idtac ltac:(done). Qed.

Lemma begin_nc v : keeps no_commit (begin v).
Proof.
  intros s [] s' o E. unfold begin, on_store, on_timers in E. hinv E.
  match goal with Hx : (if _ then _ else _) _ = _ |- _ => rename Hx into E end.
  destruct (Z.eqb_spec (quorum_size s) 1); [|hinv E; split; cbn; auto].
  split; [left|by right]. by apply commit_start_quorum in E.
Qed.
#[local] Hint Resolve begin_nc : nocommit.
Lemma finish_round_nc : keeps no_commit (finish_round conf).
Proof.
  unfold finish_round, finish_waiting_for_active, finish_waiting_for_readable, finish_waiting_for_writeable, trim,
    get_pending_transaction, queue_pending_finisher, propose_pending, cancel_events. nocommit.
Qed.
#[local] Hint Resolve finish_round_nc : nocommit.
Lemma extend_lease_nc : keeps no_commit (extend_lease conf).
Proof. unfold extend_lease. nocommit. Qed.
#[local] Hint Resolve extend_lease_nc : nocommit.
Lemma store_state_nc m : keeps no_commit (store_state m).
Proof. unfold store_state, _sanity_check_store. nocommit. Qed.
#[local] Hint Resolve store_state_nc : nocommit.
Lemma share_state_nc m lc : keeps no_commit (share_state m lc).
Proof. unfold share_state. nocommit. Qed.
#[local] Hint Resolve share_state_nc : nocommit.
Lemma push_commits_nc ps : keeps no_commit (push_commits ps).
Proof. induction ps as [|[p lc] ps IH]; cbn [push_commits]; nocommit. Qed.
#[local] Hint Resolve push_commits_nc : nocommit.
Lemma collect_nc oldpn : keeps no_commit (collect oldpn).
Proof. unfold collect, get_new_proposal_number. nocommit. Qed.
#[local] Hint Resolve collect_nc : nocommit.
Lemma handle_last_nc m : keeps no_commit (handle_last conf need_bootstrap m).
Proof. unfold handle_last, learn_uncommitted, collected. nocommit. Qed.
Lemma handle_collect_nc m : keeps no_commit (handle_collect m).
Proof. unfold handle_collect, reset_lease_timeout. nocommit. Qed.
Lemma handle_begin_nc m : keeps no_commit (handle_begin m).
Proof. unfold handle_begin. nocommit. Qed.
Lemma handle_commit_nc m : keeps no_commit (handle_commit need_bootstrap m).
Proof. unfold handle_commit. nocommit. Qed.
Lemma handle_lease_nc m : keeps no_commit (handle_lease m).
Proof. unfold handle_lease, reset_lease_timeout, finish_waiting_for_active, finish_waiting_for_readable. nocommit. Qed.
Lemma handle_lease_ack_nc m : keeps no_commit (handle_lease_ack m).
Proof. unfold handle_lease_ack. nocommit. Qed.

Lemma commit_start_queued s s' o : commit_start s = Some (tt, s', o) -> queued s' = new_value s.
Proof.
  unfold commit_start, on_timers. intros E. hinv E. cbn in *.
  destruct (is_updating_previous s); [|destruct (is_updating s)];
  repeat match goal with
  | Hx : modify _ _ = Some _ |- _ => hinv Hx
  | Hx : assertion _ _ = Some _ |- _ => hinv Hx
  | Hx : when ?b _ _ = Some _ |- _ => destruct b; cbn [when] in Hx; hinv Hx
  end; try done.
Qed.

Lemma handle_accept_commit m s s' o :
  handle_accept m s = Some (tt, s', o) ->
  queued s' = queued s \/
  (m_pn m = accepted_pn s /\ quorum s = {[ m_from m ]} ∪ accepted s /\ m_from m ∉ accepted s /\
   queued s' = new_value s).
Proof.
  unfold handle_accept. intros E. hinv E.
  match goal with Hx : (if _ then _ else _) _ = _ |- _ => rename Hx into E end.
  destruct (Z.eqb_spec (m_pn m) (accepted_pn s)); cbn [negb] in E; [|by hinv E; left].
  destruct ((0 <? last_committed s) && _); [by hinv E; left|]. hinv E.
  match goal with Hx : when ?b _ _ = Some _ |- _ => destruct b eqn:Hb; cbn [when] in Hx; [|by hinv Hx; left] end.
  right. match goal with Hx : commit_start _ = Some _ |- _ => apply commit_start_queued in Hx as -> end.
  apply bool_decide_eq_true in Hb. cbn in Hb. split_and!; [done|done| |done].
  match goal with Hx : negb (bool_decide _) = true |- _ => apply negb_true_iff, bool_decide_eq_false in Hx end. done.
Qed.

(** A message leads to a queued commit only as the acceptance that completes
    the quorum (or in a quorum of one). *)
Lemma commit_spec m s s' o x :
  dispatch conf need_bootstrap m s = Some (tt, s', o) -> queued s = None -> queued s' = Some x ->
  quorum_size s = 1 \/
  (m_op m = OP_ACCEPT /\ m_pn m = accepted_pn s /\ quorum s = {[ m_from m ]} ∪ accepted s /\
   m_from m ∉ accepted s /\ new_value s = Some x).
Proof.
  intros E H0 H1. assert (no_commit s s' -> quorum_size s = 1) as Hnc by (intros [_ [?|?]]; [congruence|done]).
  unfold dispatch in E. hinv E.
  match goal with Hx : (if _ then _ else _) _ = _ |- _ => rename Hx into E end.
  destruct (negb (is_leader s) && negb (is_peon s)); [hinv E; congruence|]. hinv E.
  match goal with Hx : (match m_op m with _ => _ end) _ = Some _ |- _ => rename Hx into E end.
  destruct (m_op m) eqn:Em; cbn in E.
  4: { apply handle_accept_commit in E as [?|(? & ? & ? & ?)]; [congruence|right]. split_and!; congruence. }
  all: left; apply Hnc.
  - by eapply handle_collect_nc.
  - by eapply handle_last_nc.
  - by eapply handle_begin_nc.
  - by eapply handle_commit_nc.
  - by eapply handle_lease_nc.
  - by eapply handle_lease_ack_nc.
Qed.
End Facts.
End PaxosFacts.

(** ** Properties of the handlers *)

Module PaxosTheorems.
Import Paxos PaxosFacts.

(** Proposal numbers are fresh and unique: the number a monitor picks is
    greater than every number it has used or seen, is recorded in the store,
    and differs from every number a monitor of another rank ever picks (ranks
    below 100, numbers clear of the 64-bit wrap). *)
Theorem proposal_number_unique s gt s2 gt2 :
  0 <= rank s < 100 -> 0 <= gt -> 0 <= last_pn s -> Z.max gt (last_pn s) + 200 < two64 ->
  0 <= rank s2 < 100 -> 0 <= gt2 -> 0 <= last_pn s2 -> Z.max gt2 (last_pn s2) + 200 < two64 ->
  exists pn pn2 s' s2',
    get_new_proposal_number gt s = Some (pn, s', []) /\ get_new_proposal_number gt2 s2 = Some (pn2, s2', []) /\
    gt < pn /\ last_pn s < pn /\ last_pn s' = pn /\ k_last_pn (store s') = pn /\ (rank s <> rank s2 -> pn <> pn2).
Proof.
  intros ? ? ? ? ? ? ? ?.
  destruct (new_pn_spec s gt) as (pn & E & Hm & ?); try done.
  destruct (new_pn_spec s2 gt2) as (pn2 & E2 & Hm2 & ?); try done.
  eexists pn, pn2, _, _. split; [exact E|]. split; [exact E2|]. split_and!; [lia|lia|done|done|]. congruence.
Qed.

(** C3: A peon keeps its promises.  No message lowers the proposal number it
    has accepted; it is raised only by a COLLECT, to that message's number, and
    then durably; and an acceptance is sent only for a BEGIN under exactly that
    number and for the next version, with the value and its number stored. *)
Theorem peon_promise conf nb m s s' o :
  is_peon s = true -> dispatch conf nb m s = Some (tt, s', o) ->
  accepted_pn s <= accepted_pn s' /\
  (accepted_pn s < accepted_pn s' ->
     m_op m = OP_COLLECT /\ accepted_pn s' = m_pn m /\ k_accepted_pn (store s') = m_pn m) /\
  (forall to r, Send to r ∈ o -> m_op r = OP_ACCEPT ->
     m_op m = OP_BEGIN /\ m_pn m = accepted_pn s /\ m_pn r = accepted_pn s /\
     m_last_committed m = last_committed s /\
     k_pending_pn (store s') = m_pn m /\ k_pending_v (store s') = last_committed s + 1 /\
     versions (store s') !! (last_committed s + 1) = Some (default [] (m_values m !! (last_committed s + 1)))).
Proof. apply peon_promise_spec. Qed.

(** C4: A leader commits only what its whole quorum has accepted: a message
    that makes it queue a commit is an acceptance under its current proposal
    number from the one member whose acceptance was missing, and the commit is
    of the value it proposed (or the leader is alone in its quorum). *)
Theorem commit_needs_quorum conf nb m s s' o x :
  dispatch conf nb m s = Some (tt, s', o) -> queued s = None -> queued s' = Some x ->
  quorum_size s = 1 \/
  (m_op m = OP_ACCEPT /\ m_pn m = accepted_pn s /\ quorum s = {[ m_from m ]} ∪ accepted s /\
   m_from m ∉ accepted s /\ new_value s = Some x).
Proof. apply commit_spec. Qed.

(** *** Witnesses *)

Definition conf0 : config := {| mon_lease := 5; paxos_min := 500; paxos_trim_min := 250; paxos_trim_max := 500 |}.
Definition no_bootstrap : Store -> bool := fun _ => false.
Definition mon (r : Z) : Paxos := newborn 3 r.
Definition leader0 : Paxos :=
  set_mstate Mon.STATE_LEADER (set_leader 0 (set_quorum {[ 0; 1 ]} (set_epoch 2 (set_num_last 2 (mon 0))))).
Definition peon1 : Paxos := set_mstate Mon.STATE_PEON (set_leader 0 (set_quorum {[ 0; 1 ]} (set_epoch 2 (mon 1)))).

Lemma proposal_number_unique_witness :
  exists pn pn2 s' s2', get_new_proposal_number 0 (mon 0) = Some (pn, s', []) /\
    get_new_proposal_number 0 (mon 1) = Some (pn2, s2', []) /\ pn <> pn2.
Proof.
  destruct (proposal_number_unique (mon 0) 0 (mon 1) 0) as (pn & pn2 & s' & s2' & E & E2 & _ & _ & _ & _ & Hd);
    try (vm_compute; done).
  exists pn, pn2, s', s2'. split; [exact E|]. split; [exact E2|]. apply Hd. vm_compute. done.
Defined.

Lemma peon_promise_witness :
  exists s' o, dispatch conf0 no_bootstrap
      {| m_from := 0; m_epoch := 2; m_op := OP_COLLECT; m_first_committed := 0; m_last_committed := 0;
         m_pn_from := 0; m_pn := 100; m_uncommitted_pn := 0; m_lease_timestamp := 0; m_values := ∅ |} peon1
      = Some (tt, s', o) /\ accepted_pn peon1 <= accepted_pn s'.
Proof.
  match goal with |- exists s' o, ?d = _ /\ _ => destruct d as [[[[] s'] o]|] eqn:E end;
    [|exfalso; revert E; vm_compute; discriminate].
  exists s', o. split; [reflexivity|]. refine (proj1 (peon_promise _ _ _ _ _ _ _ E)). reflexivity.
Defined.

Lemma commit_needs_quorum_witness :
  exists s' o, dispatch conf0 no_bootstrap 
      {| m_from := 1; m_epoch := 2; m_op := OP_ACCEPT; m_first_committed := 0; m_last_committed := 0; m_pn_from := 0;
         m_pn := 0; m_uncommitted_pn := 0; m_lease_timestamp := 0; m_values := ∅ |}
      (set_accepted {[ 0 ]} (set_state STATE_UPDATING (set_new_value (Some []) leader0))) = Some (tt, s', o) /\
    queued s' = Some [] /\ quorum leader0 = {[ 1 ]} ∪ {[ 0 ]}.
Proof.
  match goal with |- exists s' o, ?d = _ /\ _ => destruct d as [[[[] s'] o]|] eqn:E end;
    [|exfalso; revert E; vm_compute; discriminate].
  assert (queued s' = Some []) as Hq by (revert E; vm_compute; intros [= <- <-]; reflexivity).
  exists s', o. split; [reflexivity|]. split; [exact Hq|].
  destruct (commit_needs_quorum _ _ _ _ _ _ _ E eq_refl Hq) as [H|(_ & _ & H & _)]; [|exact H].
  exfalso. revert H. vm_compute. discriminate.
Defined.

End PaxosTheorems.
