(* ===== verification/PaxosNet.v ===== *)
(** Monitors running Paxos over reliable, ordered connections, with elections,
    restarts and asynchronous commits: the system the handlers of Paxos.v form.
    Elections appear by what Election.v guarantees of them: the quorums a
    monitor is told of are majorities led by their lowest rank, of increasing
    epochs. *)
From S2P Require Import Prelude Effects Election PaxosState Paxos.

Module PaxosNet.
Import Paxos.

Section Net.
Context (conf : config) (need_bootstrap : Store -> bool) (n : Z).

(** The monitors and, per pair of sender and receiver, the messages in
    flight, oldest first. *)
Record net := { nodes : gmap Z Paxos; links : gmap (Z * Z) (list MMonPaxos) }.

Inductive action :=
| Role (l e : Z) (q : gset Z)      (* an election of epoch [e] made [l] leader of [q] *)
| Deliver (from : Z)               (* the next message of a link arrives *)
| Propose (v : value)              (* the services propose a transaction *)
| Committed                        (* the queued transaction is on disk *)
| Restart (flushed : bool)         (* the process restarts, the queued transaction on disk or lost *)
| Tick (dt : Z)
| CollectTimeout | AcceptTimeout | LeaseAckTimeout | LeaseTimeout | LeaseRenew.

(** What the election layer establishes of a quorum. *)
Definition elected (s : Paxos) (l e : Z) (q : gset Z) : bool :=
  (epoch s <? e) && bool_decide (rank s ∈ q) && bool_decide (l ∈ q) &&
  bool_decide (Forall (fun x => l <= x < n) (elements q)) && (0 <=? l) && (n <? 2 * Z.of_nat (size q)).

Definition set_role (l e : Z) (q : gset Z) (s : Paxos) : Paxos :=
  set_mstate (if l =? rank s then Mon.STATE_LEADER else Mon.STATE_PEON)
    (set_leader l (set_quorum q (set_epoch e s))).

(** A new process: the constructor of [Paxos] on the store. *)
Definition fresh (s : Paxos) : Paxos :=
  {| rank := rank s; mstate := Mon.STATE_PROBING; leader := -1; quorum := ∅; epoch := epoch s;
     map_size := map_size s; clock := clock s; store := store s; queued := None; state := STATE_RECOVERING;
     last_pn := 0; accepted_pn := 0; accepted_pn_from := 0; first_committed := 0; last_committed := 0;
     lease_expire := 0; num_last := 0; uncommitted_v := 0; uncommitted_pn := 0; uncommitted_value := None;
     peer_first_committed := ∅; peer_last_committed := ∅; new_value := None; accepted := ∅; acked_lease := ∅;
     pending_proposal := None; trimming := false; plugged := false; commits_started := 0;
     timers := {| collect_timeout_event := false; accept_timeout_event := false; lease_renew_event := false;
                  lease_ack_timeout_event := false; lease_timeout_event := false |};
     waiters := {| pending_finishers := []; committing_finishers := []; waiting_for_active := [];
                   waiting_for_readable := []; waiting_for_writeable := [] |} |}.

Definition flush (s : Paxos) : Paxos :=
  match queued s with
  | Some v => set_store (apply_value v (set_k_last_committed (last_committed s + 1) (store s))) s
  | None => s
  end.

Definition act (a : action) : handler Paxos event unit :=
  match a with
  | Role l e q =>
      s ← get;
      assertion (elected s l e q && match queued s with None => true | Some _ => false end) ;;
      restart ;;
      modify (set_role l e q) ;;
      if l =? rank s then leader_init else peon_init
  | Deliver _ => mret tt
  | Propose v =>
      s ← get;
      assertion (is_leader s && is_active s) ;;
      t ← get_pending_transaction;
      modify (set_pending_proposal (Some (t ++ v))) ;;
      _ ← trigger_propose;
      mret tt
  | Committed => committed conf need_bootstrap
  | Restart flushed =>
      modify (fun s => fresh (if flushed then flush s else s)) ;; init
  | Tick dt => assertion (0 <=? dt) ;; modify (fun s => set_clock (clock s + dt) s)
  | CollectTimeout =>
      s ← get; assertion (collect_timeout_event (timers s)) ;; collect_timeout conf need_bootstrap
  | AcceptTimeout =>
      s ← get; assertion (accept_timeout_event (timers s)) ;; accept_timeout conf need_bootstrap
  | LeaseAckTimeout =>
      s ← get; assertion (lease_ack_timeout_event (timers s)) ;; lease_ack_timeout conf need_bootstrap
  | LeaseTimeout =>
      s ← get; assertion (lease_timeout_event (timers s)) ;; lease_timeout conf need_bootstrap
  | LeaseRenew =>
      s ← get; assertion (lease_renew_event (timers s)) ;; lease_renew_timeout conf
  end.

Definition link (N : net) (a b : Z) : list MMonPaxos := default [] (links N !! (a, b)).

Fixpoint push_all (r : Z) (o : list event) (ls : gmap (Z * Z) (list MMonPaxos)) : gmap (Z * Z) (list MMonPaxos) :=
  match o with
  | Send to m :: o' => push_all r o' (<[ (r, to) := default [] (ls !! (r, to)) ++ [m] ]> ls)
  | _ :: o' => push_all r o' ls
  | [] => ls
  end.

(** A restarted process has new connections: what was in flight to and from
    it is gone. *)
Definition reset_links (r : Z) (ls : gmap (Z * Z) (list MMonPaxos)) : gmap (Z * Z) (list MMonPaxos) :=
  filter (fun x => x.1.1 <> r /\ x.1.2 <> r) ls.

(** Monitor [r] performs an action. *)
Definition exec (N : net) (x : Z * action) : option net :=
  let '(r, a) := x in
  s ← nodes N !! r;
  match a with
  | Deliver from =>
      match link N from r with
      | [] => None
      | m :: ms =>
          '(_, s', o) ← dispatch_op conf need_bootstrap m s;
          Some {| nodes := <[ r := s' ]> (nodes N); links := push_all r o (<[ (from, r) := ms ]> (links N)) |}
      end
  | _ =>
      '(_, s', o) ← act a s;
      Some {| nodes := <[ r := s' ]> (nodes N);
              links := push_all r o (match a with Restart _ => reset_links r (links N) | _ => links N end) |}
  end.

Definition step (N N' : net) : Prop := exists x, exec N x = Some N'.

Fixpoint exec_all (N : net) (xs : list (Z * action)) : option net :=
  match xs with
  | [] => Some N
  | x :: xs' => N' ← exec N x; exec_all N' xs'
  end.

Definition initial : net :=
  {| nodes := list_to_map ((fun r => (r, newborn n r)) <$> seqZ 0 n); links := ∅ |}.

Definition reachable (N : net) : Prop := rtc step initial N.

Lemma trace_reachable N xs N' : reachable N -> exec_all N xs = Some N' -> reachable N'.
Proof.
  revert N. induction xs as [|x xs IH]; intros N HN; simpl; [by intros [= <-]|].
  intros (N1 & E & ?)%bind_Some. eapply IH; [|done]. eapply rtc_r; [done|]. by exists x.
Qed.

End Net.
End PaxosNet.
