(* ===== verification/PaxosReplica.v ===== *)
(** The replicated log: what the monitors' stores hold of it, how they catch
    up and extend it, and the properties of the Paxos handlers. *)
From S2P Require Import Prelude Effects Election PaxosState Paxos PaxosNet.

(** ** The replicated log *)

Module Replica.
Import Paxos.

(** Version [v] of a log of committed values. *)
Definition version_of (h : list value) (v : Z) : option value := h !! Z.to_nat (v - 1).

(** The versions [lc+1 .. mlc] of the log. *)
Definition segment (h : list value) (lc mlc : Z) : list (Z * value) :=
  (fun v => (v, default [] (version_of h v))) <$> seqZ (lc + 1) (mlc - lc).

(** The specification: the store after the first [lc] values of the log. *)
Definition commit_log (h : list value) (lc : Z) : Store := fold_left store_value (segment h 0 lc) empty_store.

(** Two stores agree up to version [lc]: the services' data, the first
    version, and the versions themselves. *)
Definition agree (lc : Z) (st sp : Store) : Prop :=
  service st = service sp /\ k_first_committed st = k_first_committed sp /\
  forall v, v <= lc -> versions st !! v = versions sp !! v.

(** A monitor that has committed the first [lc] values of the log [h]. *)
Definition replica (h : list value) (lc : Z) (st : Store) : Prop :=
  0 <= lc <= Z.of_nat (length h) /\ k_last_committed st = lc /\ agree lc st (commit_log h lc).

Lemma segment_split h a b c : a <= b <= c -> segment h a c = segment h a b ++ segment h b c.
Proof.
  intros H. unfold segment. rewrite <- fmap_app. f_equal. replace (c - a) with ((b - a) + (c - b)) by lia.
  rewrite seqZ_app by lia. do 2 f_equal. lia.
Qed.

Lemma segment_one h a : segment h a (a + 1) = [(a + 1, default [] (version_of h (a + 1)))].
Proof. unfold segment. replace (a + 1 - a) with 1 by lia. done. Qed.

Lemma segment_last h a c : a < c -> last (segment h a c) = Some (c, default [] (version_of h c)).
Proof.
  intros H. rewrite (segment_split h a (c - 1) c) by lia.
  pose proof (segment_one h (c - 1)) as E. replace (c - 1 + 1) with c in E by lia. by rewrite E, last_snoc.
Qed.

Lemma apply_op_agree lc o st sp : agree lc st sp -> agree lc (apply_op o st) (apply_op o sp).
Proof.
  intros (Hs & Hf & Hv). destruct o as [v|v|k d|k]; cbn; (split_and!; cbn; [congruence|congruence|]); try done.
  intros w Hw. destruct (decide (w = v)) as [->|]; [by rewrite !lookup_delete_eq|].
  rewrite !lookup_delete_ne by done. by apply Hv.
Qed.

Lemma apply_value_agree lc x st sp : agree lc st sp -> agree lc (apply_value x st) (apply_value x sp).
Proof.
  unfold apply_value. revert st sp. induction x as [|o x IH]; intros st sp H; simpl; [done|].
  by apply IH, apply_op_agree.
Qed.

Lemma store_value_agree lc x st sp :
  agree lc st sp -> agree (lc + 1) (store_value st (lc + 1, x)) (store_value sp (lc + 1, x)).
Proof.
  intros (Hs & Hf & Hv). unfold store_value. apply apply_value_agree. split_and!; [done|done|].
  intros v Hle. cbn. destruct (decide (v = lc + 1)) as [->|]; [by rewrite !lookup_insert_eq|].
  rewrite !lookup_insert_ne by done. apply Hv. lia.
Qed.

Lemma segment_agree h lc mlc st sp :
  lc <= mlc -> agree lc st sp ->
  agree mlc (fold_left store_value (segment h lc mlc) st) (fold_left store_value (segment h lc mlc) sp).
Proof.
  intros Hle. replace mlc with (lc + (mlc - lc)) by lia. generalize (Z2Nat.id (mlc - lc) ltac:(lia)).
  generalize (Z.to_nat (mlc - lc)). intros k <-. clear Hle. revert lc st sp.
  induction k as [|k IH]; intros lc st sp H.
  { unfold segment. rewrite seqZ_nil by lia. by replace (lc + Z.of_nat 0) with lc by lia. }
  rewrite (segment_split h lc (lc + 1)) by lia. rewrite segment_one. cbn [app fold_left].
  replace (lc + Z.of_nat (S k)) with ((lc + 1) + Z.of_nat k) by lia. apply IH. by apply store_value_agree.
Qed.

Lemma commit_log_split h lc mlc :
  0 <= lc <= mlc -> commit_log h mlc = fold_left store_value (segment h lc mlc) (commit_log h lc).
Proof. intros H. unfold commit_log. by rewrite <- fold_left_app, <- segment_split. Qed.

Lemma segment_ext h h' lc mlc :
  (forall v, lc < v <= mlc -> version_of h v = version_of h' v) -> segment h lc mlc = segment h' lc mlc.
Proof.
  intros H. unfold segment. apply list_fmap_ext. intros i v Hi%lookup_seqZ. f_equal. f_equal. apply H. lia.
Qed.

(** What the specification has of a version is the log's entry. *)
Lemma apply_op_versions o st v x : versions (apply_op o st) !! v = Some x -> versions st !! v = Some x.
Proof. destruct o; cbn; [done| |done|done]. by intros [_ ?]%lookup_delete_Some. Qed.
Lemma apply_value_versions y st v x : versions (apply_value y st) !! v = Some x -> versions st !! v = Some x.
Proof.
  unfold apply_value. revert st. induction y as [|o y IH]; intros st; simpl; [done|].
  intros H%IH. by eapply apply_op_versions.
Qed.

Lemma commit_log_versions h lc v x :
  0 <= lc -> versions (commit_log h lc) !! v = Some x -> 1 <= v <= lc /\ x = default [] (version_of h v).
Proof.
  intros Hlc. rewrite <- (Z2Nat.id lc) by lia. generalize (Z.to_nat lc). intros k.
  induction k as [|k IH]; [done|].
  rewrite (commit_log_split h (Z.of_nat k)) by lia. replace (Z.of_nat (S k)) with (Z.of_nat k + 1) by lia.
  rewrite segment_one. cbn [fold_left]. unfold store_value. intros H%apply_value_versions. cbn in H.
  apply lookup_insert_Some in H as [[<- <-]|[? H]]; [split; [lia|done]|]. apply IH in H as [? ->]. split; [lia|done].
Qed.

(** *** Storing a shared range *)

#[local] Instance key_le_trans : Transitive key_le.
Proof. intros a b c. unfold key_le. lia. Qed.
#[local] Instance key_le_total : Total key_le.
Proof. intros a b. unfold key_le. lia. Qed.

Lemma skip_old_filter lc es :
  StronglySorted key_le es -> skip_old lc es = filter (fun e => lc < e.1) es.
Proof.
  induction 1 as [|[k x] es Hs IH Hk]; cbn [skip_old]; [done|]. rewrite filter_cons. simpl.
  destruct (Z.leb_spec k lc); case_decide; try lia; [done|]. f_equal. symmetry. apply filter_all.
  eapply Forall_impl; [exact Hk|]. intros [k' x']. unfold key_le. simpl. lia.
Qed.

Lemma take_until_filter mlc es :
  StronglySorted key_le es -> take_until mlc es = filter (fun e => e.1 <= mlc) es.
Proof.
  induction 1 as [|[k x] es Hs IH Hk]; cbn [take_until]; [done|]. rewrite filter_cons. simpl.
  destruct (Z.leb_spec k mlc); case_decide; try lia; [by rewrite IH|]. symmetry. apply filter_none.
  eapply Forall_impl; [exact Hk|]. intros [k' x']. unfold key_le. simpl. lia.
Qed.

Lemma entries_sorted m : StronglySorted key_le (entries m).
Proof. unfold entries. apply StronglySorted_merge_sort; apply _. Qed.
Lemma elem_of_entries m k x : (k, x) ∈ entries m <-> m !! k = Some x.
Proof. unfold entries. rewrite merge_sort_Permutation. apply elem_of_map_to_list. Qed.
Lemma entries_nodup m : NoDup (entries m).*1.
Proof. unfold entries. rewrite merge_sort_Permutation. apply NoDup_fst_map_to_list. Qed.

Lemma filter_nodup_fst {B} (P : Z * B -> Prop) `{!forall x, Decision (P x)} (l : list (Z * B)) :
  NoDup l.*1 -> NoDup (filter P l).*1.
Proof.
  induction l as [|[k x] l IH]; [done|]. rewrite filter_cons. cbn. intros [Hn Hd]%NoDup_cons.
  case_decide; [|auto]. cbn. apply NoDup_cons. split; [|auto]. intros ([k' y] & -> & Hy)%list_elem_of_fmap.
  apply Hn, list_elem_of_fmap. exists (k', y). split; [done|]. by apply list_elem_of_filter in Hy as [_ ?].
Qed.

(** Of the values of a message, [store_state] takes exactly the missing range. *)
Lemma range_entries h vals lc mlc :
  (forall v, lc < v <= mlc -> vals !! v = Some (default [] (version_of h v))) ->
  take_until mlc (skip_old lc (entries vals)) = segment h lc mlc.
Proof.
  intros Hv. rewrite skip_old_filter by apply entries_sorted.
  rewrite take_until_filter by apply filter_sorted, entries_sorted.
  set (l := filter _ (filter _ _)).
  assert (forall k x, (k, x) ∈ l <-> lc < k <= mlc /\ vals !! k = Some x) as Hl.
  { intros k x. unfold l. rewrite !list_elem_of_filter, elem_of_entries. simpl. tauto. }
  assert (l.*1 = seqZ (lc + 1) (mlc - lc)) as Hf.
  { apply sorted_seqZ.
    - apply (sorted_fmap key_le); [done|]. by apply filter_sorted, filter_sorted, entries_sorted.
    - unfold l. do 2 apply filter_nodup_fst. apply entries_nodup.
    - intros k. rewrite list_elem_of_fmap. split.
      + intros ([k' x] & -> & Hx%Hl). simpl. lia.
      + intros Hk. exists (k, default [] (version_of h k)). split; [done|]. apply Hl. split; [lia|]. apply Hv. lia. }
  unfold segment. rewrite <- Hf, <- list_fmap_compose.
  rewrite <- (list_fmap_id l) at 1. apply list_fmap_ext. intros i [k x] Hi%list_elem_of_lookup_2. simpl.
  apply Hl in Hi as [Hk Hx]. rewrite Hv in Hx by done. by injection Hx as <-.
Qed.

Lemma entries_head vals lc x :
  vals !! (lc + 1) = Some x -> match entries vals with (k, _) :: _ => lc + 1 <? k | [] => false end = false.
Proof.
  intros Hv%elem_of_entries. pose proof (entries_sorted vals) as Hs.
  destruct (entries vals) as [|[k y] l]; [done|]. apply Z.ltb_ge.
  apply elem_of_cons in Hv as [[= -> _]|Hin]; [done|]. inversion Hs as [|? ? _ Hall]; subst.
  rewrite Forall_forall in Hall. apply (Hall _ Hin).
Qed.

(** [store_state] brings a replica of the log from version [lc] to the last
    version of the message. *)
Lemma store_state_replica h m s :
  let lc := last_committed s in let mlc := m_last_committed m in
  replica h lc (store s) -> lc < mlc <= Z.of_nat (length h) ->
  (forall v, lc < v <= mlc -> m_values m !! v = version_of h v) ->
  exists s', store_state m s = Some (true, s', []) /\ last_committed s' = mlc /\
    first_committed s' = k_first_committed (store s') /\ replica h mlc (store s') /\
    accepted_pn s' = accepted_pn s /\ state s' = state s /\ mstate s' = mstate s.
Proof.
  intros lc mlc (Hlc & Hk & Ha) Hm Hv.
  assert (forall v, lc < v <= mlc -> m_values m !! v = Some (default [] (version_of h v))) as Hv'.
  { intros v Hvr. rewrite Hv by done. unfold version_of. destruct (lookup_lt_is_Some_2 h (Z.to_nat (v - 1))) as [x ->]; [lia|done]. }
  unfold store_state, on_store, _sanity_check_store. hred. fold lc mlc.
  rewrite (entries_head _ lc _ (Hv' (lc + 1) ltac:(lia))), (range_entries h) by done.
  rewrite segment_last by lia.
  set (b := negb (uncommitted_v s =? 0) && (uncommitted_v s <=? mlc)).
  assert (agree mlc (fold_left store_value (segment h lc mlc) (set_k_last_committed mlc (store s)))
                (commit_log h mlc)) as Hagree.
  { rewrite (commit_log_split h lc) by lia. apply segment_agree; [lia|]. destruct Ha as (? & ? & ?). by split_and!. }
  destruct b; cbn;
    (rewrite (proj2 (PaxosFacts.store_values_frame _ _)); cbn; rewrite Z.eqb_refl; cbn;
     eexists; split; [done|]; cbn; split_and!; try done;
     split; [lia|split; [by rewrite (proj2 (PaxosFacts.store_values_frame _ _))|exact Hagree]]).
Qed.

(** *** Sharing *)

Lemma shared_values_lookup st from lst v :
  from < v <= lst -> shared_values st from lst !! v = versions st !! v.
Proof.
  intros Hv. unfold shared_values. set (f := fun v => _).
  assert (NoDup (omap f (seqZ (from + 1) (lst - from))).*1) as Hnd.
  { pose proof (NoDup_seqZ (from + 1) (lst - from)) as Hn. induction Hn as [|w l Hw _ IH]; [constructor|].
    cbn. unfold f at 1. destruct (versions st !! w) as [x|]; cbn; [|done]. constructor; [|done].
    intros ([w' y] & -> & Hy)%list_elem_of_fmap. apply Hw.
    apply list_elem_of_omap in Hy as (z & Hz & E). unfold f in E.
    destruct (versions st !! z); cbn in E; [|done]. by injection E as -> ->. }
  destruct (versions st !! v) as [x|] eqn:E.
  - apply elem_of_list_to_map_1; [done|]. apply list_elem_of_omap. exists v.
    split; [apply elem_of_seqZ; lia|]. unfold f. by rewrite E.
  - apply not_elem_of_list_to_map_1. intros ([w y] & -> & Hy)%list_elem_of_fmap.
    apply list_elem_of_omap in Hy as (z & Hz & Ez). unfold f in Ez.
    destruct (versions st !! z) eqn:Ez'; cbn in Ez; [|done]. injection Ez as -> ->. cbn in E. congruence.
Qed.

Lemma replica_version h lc st v x :
  replica h lc st -> v <= lc -> versions st !! v = Some x -> version_of h v = Some x.
Proof.
  intros (Hlc & _ & _ & _ & Hv) Hle Hx. rewrite Hv in Hx by done.
  apply commit_log_versions in Hx as [Hr ->]; [|lia]. unfold version_of.
  destruct (lookup_lt_is_Some_2 h (Z.to_nat (v - 1))) as [y ->]; [lia|done].
Qed.

(** A replica that is behind catches up from one that still has the versions
    it misses. *)
Lemma catch_up_spec h a b m0 :
  replica h (last_committed a) (store a) -> replica h (last_committed b) (store b) ->
  last_committed b < last_committed a -> m_values m0 = ∅ ->
  (forall v, last_committed b < v <= last_committed a -> is_Some (versions (store a) !! v)) ->
  exists m b', share_state m0 (last_committed b) a = Some (m, a, []) /\
    store_state m b = Some (true, b', []) /\ last_committed b' = last_committed a /\
    replica h (last_committed a) (store b') /\ service (store b') = service (store a).
Proof.
  intros Ha Hb Hlt Hm0 Hv. unfold share_state. hred. rewrite (proj2 (Z.ltb_lt _ _)) by done.
  set (m := {| m_from := m_from m0; m_epoch := m_epoch m0; m_op := m_op m0; m_first_committed := m_first_committed m0;
     m_last_committed := last_committed a; m_pn_from := m_pn_from m0; m_pn := m_pn m0;
     m_uncommitted_pn := m_uncommitted_pn m0; m_lease_timestamp := m_lease_timestamp m0;
     m_values := shared_values (store a) (last_committed b) (last_committed a) ∪ m_values m0 |}).
  exists m.
  destruct (store_state_replica h m b) as (b' & E & Hlc & _ & Hr & _).
  - done.
  - destruct Ha as (? & _). change (m_last_committed m) with (last_committed a). lia.
  - intros v Hvr. change (m_last_committed m) with (last_committed a) in Hvr. unfold m; cbn [m_values]. rewrite Hm0, (right_id_L ∅ (∪)). rewrite shared_values_lookup by done.
    destruct (Hv v Hvr) as [x Hx]. rewrite Hx. symmetry. eapply replica_version; [exact Ha|lia|done].
  - exists b'. split_and!; [done|done|done|done|]. destruct Hr as (_ & _ & -> & _), Ha as (_ & _ & -> & _). done.
Qed.

(** *** Committing *)

(** The value proposed next is not part of the log yet, and committing it
    extends the log. *)
Lemma commit_replica h x st :
  replica h (Z.of_nat (length h)) st -> versions st !! (Z.of_nat (length h) + 1) = Some x ->
  replica (h ++ [x]) (Z.of_nat (length h) + 1)
    (apply_value x (set_k_last_committed (Z.of_nat (length h) + 1) st)).
Proof.
  intros (Hlc & Hk & Ha) Hx. set (lc := Z.of_nat (length h)) in *.
  split; [rewrite length_app; simpl; lia|]. destruct (PaxosFacts.apply_value_frame x (set_k_last_committed (lc + 1) st)) as (_ & -> & _).
  split; [done|]. rewrite (commit_log_split _ lc) by lia. rewrite segment_one. cbn [fold_left].
  assert (version_of (h ++ [x]) (lc + 1) = Some x) as ->.
  { unfold version_of. replace (Z.to_nat (lc + 1 - 1)) with (length h) by lia. by apply list_lookup_middle. }
  cbn [default]. assert (commit_log (h ++ [x]) lc = commit_log h lc) as ->.
  { unfold commit_log. f_equal. apply segment_ext. intros v Hv. unfold version_of. apply lookup_app_l. lia. }
  unfold store_value. cbn [fst snd]. apply apply_value_agree. destruct Ha as (? & ? & Hv). split_and!; [done|done|].
  intros v Hle. cbn. destruct (decide (v = lc + 1)) as [->|]; [by rewrite lookup_insert_eq|].
  rewrite lookup_insert_ne by done. apply Hv. lia.
Qed.

(** *** A round *)

Section Round.
Context (conf : config) (need_bootstrap : Store -> bool).

(** What [begin] stores and sends for the pending value. *)
Definition proposal (L : Paxos) (v : value) : value :=
  if last_committed L =? 0 then PutFirstCommitted 1 :: v else v.
Definition begin_msg (L : Paxos) (x : value) : MMonPaxos :=
  {| m_from := rank L; m_epoch := epoch L; m_op := OP_BEGIN; m_first_committed := 0;
     m_last_committed := last_committed L; m_pn_from := 0; m_pn := accepted_pn L; m_uncommitted_pn := 0;
     m_lease_timestamp := 0; m_values := {[ last_committed L + 1 := x ]} |}.
Definition accept_msg (L : Paxos) (p : Z) : MMonPaxos :=
  {| m_from := p; m_epoch := epoch L; m_op := OP_ACCEPT; m_first_committed := 0;
     m_last_committed := last_committed L; m_pn_from := 0; m_pn := accepted_pn L; m_uncommitted_pn := 0;
     m_lease_timestamp := 0; m_values := ∅ |}.
Definition commit_msg (L : Paxos) (x : value) : MMonPaxos :=
  {| m_from := rank L; m_epoch := epoch L; m_op := OP_COMMIT; m_first_committed := 0;
     m_last_committed := last_committed L + 1; m_pn_from := 0; m_pn := accepted_pn L; m_uncommitted_pn := 0;
     m_lease_timestamp := 0; m_values := {[ last_committed L + 1 := x ]} |}.

Definition accepted_store (st : Store) (lc pn : Z) (x : value) : Store :=
  set_k_pending_pn pn (set_k_pending_v (lc + 1) (put_version (lc + 1) x st)).

(** A leader ready to propose [v] to a quorum of several. *)
Record ready (L : Paxos) (v : value) : Prop := {
  r_leader : mstate L = Mon.STATE_LEADER;
  r_active : state L = STATE_ACTIVE;
  r_plugged : plugged L = false;
  r_pending : pending_proposal L = Some v;
  r_value : new_value L = None;
  r_queued : queued L = None;
  r_commits : commits_started L = 0;
  r_quorum : 1 < quorum_size L;
  r_member : rank L ∈ quorum L;
  r_last : map_size L / 2 < num_last L
}.

(** The leader [L], since it proposed [x], with the acceptances [acc]. *)
Record proposing (L : Paxos) (x : value) (acc : gset Z) (s : Paxos) : Prop := {
  p_leader : mstate s = Mon.STATE_LEADER;
  p_state : state s = STATE_UPDATING;
  p_rank : rank s = rank L;
  p_epoch : epoch s = epoch L;
  p_quorum : quorum s = quorum L;
  p_pn : accepted_pn s = accepted_pn L;
  p_lc : last_committed s = last_committed L;
  p_value : new_value s = Some x;
  p_accepted : accepted s = acc;
  p_store : store s = accepted_store (store L) (last_committed L) (accepted_pn L) x;
  p_queued : queued s = None;
  p_commits : commits_started s = 0;
  p_pending : pending_proposal s = None;
  p_trimming : trimming s = trimming L
}.

Lemma propose_round L v :
  ready L v ->
  runs trigger_propose L (fun b L1 o =>
    o = (fun p => Send p (begin_msg L (proposal L v))) <$> peers L /\
    proposing L (proposal L v) {[ rank L ]} L1).
Proof.
  intros [Hl Ha Hp Hpe Hv Hq Hc Hn Hm Hnl].
  unfold trigger_propose, propose_pending, begin, cancel_events, on_store, on_timers, on_waiters.
  hstep. hstep. hstep; [congruence|]. hstep; [|unfold is_active in *; by rewrite Ha in *].
  hstep. hstep. hstep. hstep. hstep; [done|]. rewrite Hpe. do 12 hstep.
  { unfold is_leader. cbn. by rewrite Hl. }
  hstep. hstep; [done|]. hstep. hstep. { apply orb_true_iff. right. by apply Z.ltb_lt. }
  hstep. hstep. { cbn. by rewrite Hv. }
  do 6 hstep. hstep; [zbool; unfold quorum_size in *; cbn in *; lia|].
  repeat hstep. split.
  - cbn. rewrite ?app_nil_r. done.
  - split; done.
Qed.

Lemma accept_step L x acc s p :
  proposing L x acc s -> p ∉ acc -> 1 < quorum_size L ->
  runs (dispatch conf need_bootstrap (accept_msg L p)) s (fun _ s' o => o = [] /\
    if bool_decide ({[ p ]} ∪ acc = quorum L) then
      mstate s' = Mon.STATE_LEADER /\ state s' = STATE_WRITING /\ rank s' = rank L /\ epoch s' = epoch L /\
      quorum s' = quorum L /\ accepted_pn s' = accepted_pn L /\ last_committed s' = last_committed L /\
      new_value s' = Some x /\ store s' = accepted_store (store L) (last_committed L) (accepted_pn L) x /\
      queued s' = Some x /\ commits_started s' = 1 /\ pending_proposal s' = None /\ trimming s' = trimming L
    else proposing L x ({[ p ]} ∪ acc) s').
Proof.
  intros [Hl Hst Hr He Hq Hpn Hlc Hv Ha Hs Hqu Hc Hp Ht] Hn Hqs.
  unfold dispatch, is_leader, is_peon. hstep. hstep. rewrite Hl. cbn [negb andb orb m_op accept_msg].
  hstep. hstep; [done|]. unfold handle_accept. hstep. hstep. cbn [m_pn m_last_committed m_from accept_msg].
  rewrite Hpn, Z.eqb_refl, Hlc. cbn [negb]. hstep; [zbool; lia|].
  hstep. hstep; [by rewrite Z.eqb_refl|]. hstep. hstep; [unfold is_updating; by rewrite Hst|].
  hstep. hstep. { apply negb_true_iff, bool_decide_eq_false. by rewrite Ha. }
  do 4 hstep. cbn [accepted quorum set_accepted]. rewrite Ha, Hq.
  hstep; rewrite H0.
  - unfold commit_start, is_updating, is_updating_previous, on_timers. hstep. hstep. hstep. hstep. cbn [state set_accepted set_queued].
    rewrite Hst. do 4 hstep. cbn. rewrite Hc. hstep; [hstep|]; (split; [done|]); cbn; split_and!; first [done|congruence].
  - split; [done|]. split; cbn; done.
Qed.

Fixpoint handle_all (ms : list MMonPaxos) : handler Paxos event unit :=
  match ms with
  | [] => mret tt
  | m :: ms' => dispatch conf need_bootstrap m ;; handle_all ms'
  end.

(** The leader when the whole quorum has accepted. *)
Record writing (L : Paxos) (x : value) (s : Paxos) : Prop := {
  w_leader : mstate s = Mon.STATE_LEADER;
  w_state : state s = STATE_WRITING;
  w_rank : rank s = rank L;
  w_epoch : epoch s = epoch L;
  w_quorum : quorum s = quorum L;
  w_pn : accepted_pn s = accepted_pn L;
  w_lc : last_committed s = last_committed L;
  w_value : new_value s = Some x;
  w_store : store s = accepted_store (store L) (last_committed L) (accepted_pn L) x;
  w_queued : queued s = Some x;
  w_commits : commits_started s = 1;
  w_pending : pending_proposal s = None
}.

Lemma accept_round L x acc s order :
  proposing L x acc s -> 1 < quorum_size L -> NoDup order -> (forall p, p ∈ order -> p ∉ acc) ->
  order <> [] -> list_to_set order ∪ acc = quorum L ->
  runs (handle_all (accept_msg L <$> order)) s (fun _ s' o => o = [] /\ writing L x s').
Proof.
  intros Hp Hq. revert acc s Hp. induction order as [|p order IH]; intros acc s Hp Hnd Hno Hne Hall; [done|].
  apply NoDup_cons in Hnd as [Hpo Hnd]. cbn [fmap list_fmap handle_all]. hstep.
  eapply runs_mono; [apply (accept_step L x acc s p Hp); [apply Hno; set_solver|done]|].
  intros _ s1 o [-> H1]. destruct (bool_decide_reflect ({[ p ]} ∪ acc = quorum L)) as [E|E].
  - assert (order = []) as ->.
    { destruct order as [|p' order]; [done|]. exfalso. assert (p' ∈ {[ p ]} ∪ acc) as Hin by (rewrite E, <- Hall; set_solver).
      apply elem_of_union in Hin as [->%elem_of_singleton|Hin]; [set_solver|]. apply (Hno p'); [set_solver|done]. }
    cbn. hstep. split; [done|]. destruct H1 as (? & ? & ? & ? & ? & ? & ? & ? & ? & ? & ? & ? & ?). by split.
  - destruct order as [|p' order]; [exfalso; apply E; rewrite <- Hall; set_solver|].
    eapply runs_mono; [apply (IH ({[ p ]} ∪ acc))|]; try done; set_solver.
Qed.

(** Callbacks change nothing else. *)
Definition woken (s s' : Paxos) : Prop := exists w b, s' = set_waiters w (set_trimming b s).

Lemma finish_woken cs r s : runs (finish cs r) s (fun _ s' o => exists b, s' = set_trimming b s).
Proof.
  revert s. induction cs as [|[c|] cs IH]; intros s; cbn [finish].
  - hstep. exists (trimming s). by destruct s.
  - hstep. hstep. eapply runs_mono; [apply IH|]. done.
  - hstep. hstep. eapply runs_mono; [apply IH|]. intros _ s' o [b ->]. by exists b.
Qed.

Definition commit_store (L : Paxos) (x : value) : Store :=
  apply_value x (set_k_last_committed (last_committed L + 1)
    (accepted_store (store L) (last_committed L) (accepted_pn L) x)).

(** The callbacks, the lease and the end of a round keep what was committed. *)
Definition settled (s s' : Paxos) : Prop :=
  store s' = store s /\ last_committed s' = last_committed s /\ first_committed s' = first_committed s /\
  mstate s' = mstate s /\ quorum s' = quorum s /\ pending_proposal s' = pending_proposal s /\ state s' = state s.

Lemma wake_settled f get_list r s :
  runs (s0 ← get; on_waiters f ;; finish (get_list s0) r) s (fun _ s' _ => settled s s').
Proof.
  hstep. hstep. unfold on_waiters. hstep. hstep.
  eapply runs_mono; [apply finish_woken|]. intros _ s' o [b ->]. done.
Qed.

Lemma finish_round_settled s :
  mstate s = Mon.STATE_LEADER -> pending_proposal s = None ->
  int32 (last_committed s - first_committed s) <= int32 (paxos_min conf + paxos_trim_min conf) ->
  runs (finish_round conf) s (fun _ s' _ => settled (set_state STATE_ACTIVE s) s').
Proof.
  intros Hl Hp Ht. unfold finish_round. hstep. hstep. hstep. hstep; [unfold is_leader; by rewrite Hl|]. hstep. hstep.
  hstep. eapply runs_mono; [apply wake_settled|]. intros [] s1 _ H1.
  hstep. eapply runs_mono; [apply wake_settled|]. intros [] s2 _ H2.
  hstep. eapply runs_mono; [apply wake_settled|]. intros [] s3 _ H3.
  assert (settled (set_state STATE_ACTIVE s) s3) as (S1 & S2 & S3 & S4 & S5 & S6 & S7).
  { destruct H1 as (?&?&?&?&?&?&?), H2 as (?&?&?&?&?&?&?), H3 as (?&?&?&?&?&?&?). split_and!; congruence. }
  cbn in *. assert (should_trim conf s3 = false) as Etrim.
  { unfold should_trim. rewrite S2, S3. apply negb_false_iff, orb_true_iff. right. by apply Z.leb_le. }
  hstep. hstep. hstep. rewrite Etrim. cbn [when]. hstep. hstep. hstep. rewrite S6, Hp, andb_false_r. cbn [when]. hstep.
  done.
Qed.

Lemma after_refresh s :
  mstate s = Mon.STATE_LEADER -> pending_proposal s = None -> state s = STATE_REFRESH ->
  int32 (last_committed s - first_committed s) <= int32 (paxos_min conf + paxos_trim_min conf) ->
  runs (commit_proposal ;; s ← get; when (1 <? quorum_size s) (extend_lease conf) ;; finish_round conf) s
    (fun _ s' _ => settled (set_state STATE_ACTIVE s) s').
Proof.
  intros Hl Hp Hst Ht. unfold commit_proposal. hstep. hstep. hstep. hstep. hstep; [unfold is_leader; by rewrite Hl|].
  hstep. hstep; [unfold is_refresh; by rewrite Hst|]. eapply runs_mono; [apply wake_settled|].
  intros [] s1 _ (S1 & S2 & S3 & S4 & S5 & S6 & S7). hstep. hstep. hstep.
  assert (forall s2, settled s1 s2 -> runs (finish_round conf) s2 (fun _ s' _ => settled (set_state STATE_ACTIVE s) s')) as Hfr.
  { intros s2 (T1 & T2 & T3 & T4 & T5 & T6 & T7).
    eapply runs_mono; [apply finish_round_settled; congruence|]. intros [] s' _ (U1 & U2 & U3 & U4 & U5 & U6 & U7).
    cbn in *. split_and!; cbn; congruence. }
  hstep.
  - unfold extend_lease, on_timers. hstep. hstep. hstep. hstep; [unfold is_leader; by rewrite S4, Hl|].
    do 9 hstep. by apply Hfr.
  - by apply Hfr.
Qed.

(** The commit is on disk: tell the others and end the round. *)
Lemma commit_finish_round L x s :
  mstate s = Mon.STATE_LEADER -> state s = STATE_WRITING -> rank s = rank L -> epoch s = epoch L ->
  quorum s = quorum L -> accepted_pn s = accepted_pn L -> last_committed s = last_committed L ->
  new_value s = Some x -> store s = commit_store L x -> commits_started s = 1 -> pending_proposal s = None ->
  need_bootstrap (commit_store L x) = false ->
  int32 (last_committed L + 1 - k_first_committed (commit_store L x)) <=
    int32 (paxos_min conf + paxos_trim_min conf) ->
  runs (commit_finish conf need_bootstrap) s (fun _ s' o =>
    store s' = commit_store L x /\ last_committed s' = last_committed L + 1 /\
    first_committed s' = k_first_committed (store s') /\ state s' = STATE_ACTIVE /\
    forall p, p ∈ peers L -> Send p (commit_msg L x) ∈ o).
Proof.
  intros Hl Hst Hr He Hq Hpn Hlc Hv Hs Hc Hp Hnb Htr.
  assert (k_last_committed (commit_store L x) = last_committed L + 1) as Hk by apply PaxosFacts.apply_value_frame.
  unfold commit_finish, _sanity_check_store. do 6 hstep.
  match goal with |- runs _ ?st _ => set (s1 := st) end.
  assert (store s1 = commit_store L x) as Hs1 by exact Hs.
  assert (last_committed s1 = last_committed L + 1) as Hlc1 by (cbn; lia).
  assert (first_committed s1 = k_first_committed (commit_store L x)) as Hfc1 by (cbn; by rewrite Hs).
  assert (mstate s1 = Mon.STATE_LEADER /\ state s1 = STATE_WRITING /\ commits_started s1 = 1 /\
    pending_proposal s1 = None /\ new_value s1 = Some x) as (Hl1 & Hst1 & Hc1 & Hp1 & Hv1) by done.
  assert (rank s1 = rank L /\ epoch s1 = epoch L /\ accepted_pn s1 = accepted_pn L /\ peers s1 = peers L)
    as (Hr1 & He1 & Hpn1 & Hpe1).
  { unfold peers. cbn. by rewrite Hr, Hq. }
  clearbody s1. clear Hl Hst Hr He Hq Hpn Hlc Hv Hs Hc Hp s.
  do 4 hstep; [rewrite Hs1, Hlc1, Hk; apply Z.eqb_refl|].
  do 6 hstep. hstep. hstep; [unfold is_writing; cbn; by rewrite Hst1|].
  do 3 hstep. hstep; [cbn; by rewrite Hc1|]. hstep. hstep.
  unfold do_refresh. do 5 hstep. cbn [store set_commits_started set_state set_new_value]. rewrite Hs1, Hnb.
  hstep. cbn [when]. eapply runs_mono; [apply after_refresh; cbn; try done; by rewrite Hlc1, Hfc1|].
  intros [] s' o (S1 & S2 & S3 & S4 & S5 & S6 & S7). cbn in S1, S2, S3, S7.
  rewrite S1, S2, S3, S7. split_and!; [done|done|congruence|done|].
  intros p Hpe. rewrite Hr1, He1, Hpn1, Hv1, Hlc1, Hpe1.
  repeat (apply elem_of_app; first [left; apply list_elem_of_fmap; by exists p | right]).
Qed.

Lemma commit_round L x s :
  writing L x s -> need_bootstrap (commit_store L x) = false ->
  int32 (last_committed L + 1 - k_first_committed (commit_store L x)) <=
    int32 (paxos_min conf + paxos_trim_min conf) ->
  runs (committed conf need_bootstrap) s (fun _ s' o =>
    store s' = commit_store L x /\ last_committed s' = last_committed L + 1 /\
    first_committed s' = k_first_committed (store s') /\ state s' = STATE_ACTIVE /\
    forall p, p ∈ peers L -> Send p (commit_msg L x) ∈ o).
Proof.
  intros [Hl Hst Hr He Hq Hpn Hlc Hv Hs Hqu Hc Hp] Hnb Htr.
  unfold committed, on_store. hstep. hstep. rewrite Hqu, Hlc. do 4 hstep.
  eapply runs_mono; [apply (commit_finish_round L x); try done|done]. cbn. by rewrite Hs.
Qed.

(** A peon in step with the leader. *)
Record follows (L P : Paxos) : Prop := {
  f_peon : mstate P = Mon.STATE_PEON;
  f_leader : leader P = rank L;
  f_epoch : epoch P = epoch L;
  f_pn : accepted_pn P = accepted_pn L;
  f_lc : last_committed P = last_committed L
}.

Lemma peon_begin L x P :
  follows L P ->
  runs (dispatch conf need_bootstrap (begin_msg L x)) P (fun _ P1 o =>
    o = [Send (rank L) (accept_msg L (rank P))] /\ follows L P1 /\
    store P1 = accepted_store (store P) (last_committed L) (accepted_pn L) x).
Proof.
  intros [Hp Hl He Hpn Hlc]. unfold dispatch, is_leader, is_peon. hstep. hstep. rewrite Hp, Hl.
  cbn [negb andb orb m_op m_from begin_msg]. rewrite Z.eqb_refl. cbn [negb andb]. hstep. hstep; [done|].
  unfold handle_begin, on_store. hstep. hstep. cbn [m_pn m_last_committed m_values begin_msg]. rewrite Hpn, Hlc.
  hstep; [zbool; lia|]. hstep. hstep; [by rewrite Z.eqb_refl|]. hstep. hstep; [by rewrite Z.eqb_refl|].
  repeat hstep. cbn. rewrite lookup_singleton_eq. cbn. rewrite He. split_and!; [done| |done]. by split.
Qed.

(** Accepting leaves the committed prefix alone. *)
Lemma accepted_replica h lc pn x st : replica h lc st -> replica h lc (accepted_store st lc pn x).
Proof.
  intros (? & ? & ? & ? & Hv). do 4 (split; [done|]). intros v Hle. cbn.
  rewrite lookup_insert_ne by lia. by apply Hv.
Qed.

Lemma replica_app h lc st x : replica h lc st -> replica (h ++ [x]) lc st.
Proof.
  intros (? & ? & ?). split; [rewrite length_app; lia|]. split; [done|].
  assert (commit_log (h ++ [x]) lc = commit_log h lc) as ->; [|done].
  unfold commit_log. f_equal. apply segment_ext. intros v Hv. unfold version_of. apply lookup_app_l. lia.
Qed.

Lemma peon_commit L x h P :
  follows L P -> (forall st, need_bootstrap st = false) ->
  replica h (last_committed P) (store P) -> last_committed L < Z.of_nat (length h) ->
  version_of h (last_committed L + 1) = Some x ->
  runs (dispatch conf need_bootstrap (commit_msg L x)) P (fun _ P2 o =>
    last_committed P2 = last_committed L + 1 /\ replica h (last_committed L + 1) (store P2)).
Proof.
  intros [Hp Hl He Hpn Hlc] Hnb Hr Hlen Hx. unfold dispatch, is_leader, is_peon. hstep. hstep. rewrite Hp, Hl.
  cbn [negb andb orb m_op m_from commit_msg]. rewrite Z.eqb_refl. cbn [negb andb]. hstep. hstep; [done|].
  unfold handle_commit, is_peon. hstep. hstep. hstep. hstep; [by rewrite Hp|]. hstep.
  destruct (store_state_replica h (commit_msg L x) P Hr) as (P2 & E & Hlc2 & _ & Hr2 & _).
  { cbn. lia. }
  { cbn. intros v Hv. replace v with (last_committed L + 1) by lia. by rewrite lookup_singleton_eq, Hx. }
  exists true, P2, []. split; [done|]. hstep. unfold do_refresh. hstep. hstep. hstep. hstep. rewrite Hnb. hstep. hstep.
  done.
Qed.
End Round.

End Replica.

(** ** Properties *)

Module ReplicaTheorems.
Import Paxos PaxosFacts PaxosTheorems Replica.

(** C6: A monitor that is behind catches up exactly: when two monitors hold
    prefixes of one log of committed values and the longer still has the
    versions the other misses, [share_state] at the one and [store_state] at
    the other make the shorter a replica of the longer, with the same service
    data. *)
Theorem catch_up h a b m0 :
  replica h (last_committed a) (store a) -> replica h (last_committed b) (store b) ->
  last_committed b < last_committed a -> m_values m0 = ∅ ->
  (forall v, last_committed b < v <= last_committed a -> is_Some (versions (store a) !! v)) ->
  exists m b', share_state m0 (last_committed b) a = Some (m, a, []) /\
    store_state m b = Some (true, b', []) /\ last_committed b' = last_committed a /\
    replica h (last_committed a) (store b') /\ service (store b') = service (store a).
Proof. apply catch_up_spec. Qed.

(** C2: A round without failures commits.  When a leader proposes to a quorum
    of two or more whose other members follow it, with no trimming due and no
    bootstrap asked for by the services, and their acceptances arrive in any order,
    every handler returns, the leader commits and goes active, and the leader
    and every peon that handles the COMMIT hold the log extended by the value
    proposed. *)
Theorem round_commits conf nb h L v order :
  let x := proposal L v in
  ready L v -> (forall st, nb st = false) -> replica h (last_committed L) (store L) ->
  last_committed L = Z.of_nat (length h) ->
  int32 (last_committed L + 1 - k_first_committed (commit_store L x)) <= int32 (paxos_min conf + paxos_trim_min conf) ->
  NoDup order -> list_to_set order = quorum L ∖ {[ rank L ]} ->
  runs trigger_propose L (fun _ L1 o1 =>
    (forall p, p ∈ order -> Send p (begin_msg L x) ∈ o1) /\
    runs (handle_all conf nb (accept_msg L <$> order)) L1 (fun _ L2 _ =>
      runs (committed conf nb) L2 (fun _ L3 o3 =>
        state L3 = STATE_ACTIVE /\ replica (h ++ [x]) (last_committed L + 1) (store L3) /\
        forall p, p ∈ order -> Send p (commit_msg L x) ∈ o3))) /\
  forall P, follows L P -> replica h (last_committed P) (store P) ->
    runs (dispatch conf nb (begin_msg L x)) P (fun _ P1 o =>
      o = [Send (rank L) (accept_msg L (rank P))] /\
      runs (dispatch conf nb (commit_msg L x)) P1 (fun _ P2 _ =>
        replica (h ++ [x]) (last_committed L + 1) (store P2))).
Proof.
  intros x Hready Hnb Hrep Hlen Htrim Hnd Hset. pose proof Hready as [_ _ _ _ _ _ _ Hqs Hmem _].
  assert (forall p, p ∈ order <-> p ∈ peers L) as Hpeers.
  { intros p. rewrite <- (elem_of_list_to_set (C := gset Z)), Hset. unfold peers.
    rewrite list_elem_of_filter, ElectionFacts.elem_of_in_order. set_solver. }
  split.
  - eapply runs_mono; [by apply propose_round|]. intros b L1 o1 [-> Hprop]. split.
    { intros p Hp%Hpeers. apply list_elem_of_fmap. by exists p. }
    eapply runs_mono; [eapply (accept_round conf nb L x)|]; try done.
    + intros p Hp Hin. assert (p ∈ (list_to_set order : gset Z)) as Hpq by by apply elem_of_list_to_set.
      rewrite Hset in Hpq. set_solver.
    + intros ->. unfold quorum_size in Hqs. assert (quorum L = {[ rank L ]}) as E.
      { apply set_eq. intros p. split; [|set_solver]. intros Hp. destruct (decide (p = rank L)); [set_solver|].
        assert (p ∈ quorum L ∖ {[ rank L ]}) as Hd by set_solver. rewrite <- Hset in Hd. set_solver. }
      rewrite E, size_singleton in Hqs. lia.
    + rewrite Hset. apply set_eq. intros p. destruct (decide (p = rank L)); set_solver.
    + intros _ L2 _ [_ Hw]. eapply runs_mono; [apply (commit_round conf nb L x); auto|].
      intros _ L3 o3 (Hs & Hlc & _ & Hst & Hc). split_and!; [done| |intros p Hp%Hpeers; by apply Hc].
      rewrite Hs, Hlen. unfold commit_store. rewrite Hlen. apply commit_replica; [by apply accepted_replica; rewrite <- Hlen|].
      cbn. by rewrite lookup_insert_eq.
  - intros P HP HrP. eapply runs_mono; [by apply peon_begin|]. intros _ P1 o (-> & HP1 & Hs). split; [done|].
    pose proof HP as [_ _ _ _ HlP]. pose proof HP1 as [_ _ _ _ HlP1].
    eapply runs_mono; [apply (peon_commit conf nb L x (h ++ [x])); try done|].
    + rewrite HlP1, Hs. apply accepted_replica, replica_app. by rewrite <- HlP.
    + rewrite length_app. simpl. lia.
    + unfold version_of. rewrite Hlen. replace (Z.to_nat (Z.of_nat (length h) + 1 - 1)) with (length h) by lia.
      by apply list_lookup_middle.
    + by intros _ P2 _ [_ ?].
Qed.

Definition one : value := [PutFirstCommitted 1; PutService 7 8].

Lemma catch_up_witness :
  exists b', service (store b') = {[ 7 := 8 ]} /\ last_committed b' = 1.
Proof.
  destruct (catch_up [one] (set_last_committed 1 (set_store (set_k_last_committed 1 (commit_log [one] 1)) (mon 0))) (mon 1)
    (blank (mon 0) OP_COMMIT)) as (m & b' & _ & _ & Hlc & _ & Hs).
  - split; [simpl; lia|]. split; [reflexivity|]. split; [reflexivity|]. split; [reflexivity|]. intros v _. reflexivity.
  - split; [simpl; lia|]. split; [reflexivity|]. split; [reflexivity|]. split; [reflexivity|]. intros v _. reflexivity.
  - simpl. lia.
  - reflexivity.
  - intros v Hv. cbn in Hv. replace v with 1 by lia. exists one. reflexivity.
  - exists b'. split; [|exact Hlc]. rewrite Hs. reflexivity.
Defined.

Lemma round_commits_witness :
  let L := set_state STATE_ACTIVE (set_pending_proposal (Some [PutService 7 8]) leader0) in
  runs (dispatch conf0 no_bootstrap (begin_msg L one)) peon1 (fun _ P1 o =>
    o = [Send 0 (accept_msg L 1)] /\
    runs (dispatch conf0 no_bootstrap (commit_msg L one)) P1 (fun _ P2 _ => replica [one] 1 (store P2))).
Proof.
  intros L.
  refine (proj2 (round_commits conf0 no_bootstrap [] L [PutService 7 8] [1] _ _ _ _ _ _ _) peon1 _ _).
  - split; vm_compute; done.
  - intros st. reflexivity.
  - split; [simpl; lia|]. split; [reflexivity|]. split; [reflexivity|]. split; [reflexivity|]. intros v _. reflexivity.
  - reflexivity.
  - vm_compute. done.
  - apply NoDup_singleton.
  - vm_compute. reflexivity.
  - split; reflexivity.
  - split; [simpl; lia|]. split; [reflexivity|]. split; [reflexivity|]. split; [reflexivity|]. intros v _. reflexivity.
Defined.

(** *** A restart forgets a promise *)

(** The traces of one election: the leader and the others take their roles. *)
Definition elect (l e : Z) (q : gset Z) (others : list Z) : list (Z * PaxosNet.action) :=
  (fun r => (r, PaxosNet.Role l e q)) <$> (l :: others).
Definition deliver (k : nat) (to from : Z) : list (Z * PaxosNet.action) := replicate k (to, PaxosNet.Deliver from).

(** Five monitors, nothing committed.
    1. Monitor 1 leads {1,3,4} under 101 and stores [PutService 1 1] itself, no more.
    2. Monitor 2 leads {2,3,4}, is elected three times and reaches 302, and
       proposes [PutService 1 2]; 3 and 4 accept it.
    3. Monitors 1 and 2 restart.  A leader's own number is only in memory and
       in "last_pn": "accepted_pn" on disk is still 0.
    4. Monitor 0 leads {0,1,2} under 100, which 2 accepts although it had led
       under 302, and re-proposes [PutService 1 2]; only 2 accepts it, now under 100.
    5. Monitor 0 leads {0,1,2} again, under 200: the highest number reported is
       101, so [PutService 1 1] is proposed, accepted by all and committed by 0.
    6. Monitor 2 leads {2,3,4}: 3 and 4 report [PutService 1 2] under 302, above 200,
       so it is proposed, accepted and committed. *)
Definition forgetful : list (Z * PaxosNet.action) :=
  elect 1 2 {[ 1; 3; 4 ]} [3; 4] ++ deliver 1 3 1 ++ deliver 1 4 1 ++ deliver 1 1 3 ++ deliver 1 1 4 ++
  [(1, PaxosNet.Propose [PutService 1 1])] ++
  elect 2 4 {[ 2; 3; 4 ]} [3; 4] ++ elect 2 6 {[ 2; 3; 4 ]} [3; 4] ++ elect 2 8 {[ 2; 3; 4 ]} [3; 4] ++
  deliver 3 3 2 ++ deliver 3 4 2 ++ deliver 1 2 3 ++ deliver 1 2 4 ++
  [(2, PaxosNet.Propose [PutService 1 2])] ++ deliver 2 3 2 ++ deliver 2 4 2 ++
  [(1, PaxosNet.Restart false); (2, PaxosNet.Restart false)] ++
  elect 0 10 {[ 0; 1; 2 ]} [1; 2] ++ deliver 1 1 0 ++ deliver 1 2 0 ++ deliver 1 0 1 ++ deliver 1 0 2 ++ deliver 1 2 0 ++
  elect 0 12 {[ 0; 1; 2 ]} [1; 2] ++ deliver 2 1 0 ++ deliver 1 2 0 ++ deliver 1 0 1 ++ deliver 2 0 2 ++
  deliver 1 1 0 ++ deliver 1 2 0 ++ deliver 1 0 1 ++ deliver 1 0 2 ++ [(0, PaxosNet.Committed)] ++
  elect 2 14 {[ 2; 3; 4 ]} [3; 4] ++ deliver 1 3 2 ++ deliver 1 4 2 ++ deliver 1 2 3 ++ deliver 1 2 4 ++
  deliver 1 3 2 ++ deliver 1 4 2 ++ deliver 1 2 3 ++ deliver 1 2 4 ++ [(2, PaxosNet.Committed)].

Definition after_forgetful : option PaxosNet.net :=
  PaxosNet.exec_all conf0 no_bootstrap 5 (PaxosNet.initial 5) forgetful.

Definition committed_data (N : PaxosNet.net) (r : Z) : option (Z * option Z) :=
  (fun s => (k_last_committed (store s), service (store s) !! 1)) <$> PaxosNet.nodes N !! r.

Lemma forgetful_result :
  (fun N => (committed_data N 0, committed_data N 2)) <$> after_forgetful =
  Some (Some (1, Some 1), Some (1, Some 2)).
Proof. vm_compute. reflexivity. Qed.

(** C8: The promise a leader makes to itself does not survive a restart, and
    agreement does not either: an execution with majority quorums, ordered
    reliable links and two restarts ends with monitors 0 and 2 having each
    committed a different first value. *)
Theorem restart_breaks_agreement :
  exists N, PaxosNet.reachable conf0 no_bootstrap 5 N /\
    committed_data N 0 = Some (1, Some 1) /\ committed_data N 2 = Some (1, Some 2).
Proof.
  destruct after_forgetful as [N|] eqn:E; [|exfalso; revert E; vm_compute; discriminate].
  exists N. split; [eapply PaxosNet.trace_reachable; [apply rtc_refl|exact E]|].
  pose proof forgetful_result as Hr. rewrite E in Hr. clear E.
  injection Hr as H0 H2. split; [exact H0|exact H2].
Qed.

End ReplicaTheorems.

