(* ===== verification/OSDMap.v ===== *)
(** Placement, src/ceph-15.2.17/src/osd/OSDMap.{h,cc}: from an object name to a
    placement group, and from a placement group to the ordered sets of OSDs
    that should serve it (up) and that serve it now (acting). *)
From S2P Require Import Prelude Pg Hobject.
Import Bits Pg PgPool.

(** What placement asks of the CRUSH map: the rule for a rule set, and the
    devices a rule selects for an input [x].  Neither the rule nor the devices
    are constrained: every theorem below holds for any answer. *)
Class CrushMap := {
  find_rule : Z -> Z -> Z -> Z;
  do_rule : Z -> Z -> Z -> list Z -> Z -> list Z
}.

Module OSDMap.
Import StrHash.

Definition CRUSH_ITEM_NONE : Z := 0x7fffffff.
Definition CEPH_OSD_EXISTS : Z := 1.
Definition CEPH_OSD_UP : Z := 2.
Definition CEPH_OSD_MAX_PRIMARY_AFFINITY : Z := 0x10000.
Definition CEPH_OSD_DEFAULT_PRIMARY_AFFINITY : Z := 0x10000.
Definition ENOENT : Z := 2.
Definition NO_SHARD : Z := -1.

(** The fields of [OSDMap] that placement reads. *)
Record OSDMap := {
  max_osd : Z;
  osd_state : list Z;
  osd_weight : list Z;
  osd_primary_affinity : option (list Z);
  pools : gmap Z pg_pool_t;
  pg_temp : gmap pg_t (list Z);
  primary_temp : gmap pg_t Z;
  pg_upmap : gmap pg_t (list Z);
  pg_upmap_items : gmap pg_t (list (Z * Z))
}.

(** [v[i]]; a vector is only read at indices below [max_osd]. *)
Definition vec (v : list Z) (i : Z) : Z := default 0 (v !! Z.to_nat i).

Definition can_shift_osds (pi : pg_pool_t) : option bool :=
  if type pi =? TYPE_REPLICATED then Some true
  else if type pi =? TYPE_ERASURE then Some false
  else ceph_abort.

Section Placement.
Context (m : OSDMap).

Definition exists_ (osd : Z) : bool :=
  (0 <=? osd) && (osd <? max_osd m) && negb (Z.land (vec (osd_state m) osd) CEPH_OSD_EXISTS =? 0).
Definition is_up (osd : Z) : bool :=
  exists_ osd && negb (Z.land (vec (osd_state m) osd) CEPH_OSD_UP =? 0).
Definition is_down (osd : Z) : bool := negb (is_up osd).

(** ** Objects to groups *)

Definition map_to_pg (poolid : Z) (name key nspace : list Z) : pg_t + Z :=
  match pools m !! poolid with
  | None => inr (- ENOENT)
  | Some pi =>
    let ps := match key with
              | _ :: _ => hash_key pi key nspace
              | [] => hash_key pi name nspace
              end in
    inl (mk_pg poolid ps)
  end.

(** [object_locator_t]: pool, key, namespace, and an explicit hash when it is
    not negative. *)
Record object_locator_t := { loc_pool : Z; loc_key : list Z; loc_nspace : list Z; loc_hash : Z }.

Definition object_locator_to_pg (name : list Z) (loc : object_locator_t) : pg_t + Z :=
  if 0 <=? loc_hash loc then
    match pools m !! loc_pool loc with
    | None => inr (- ENOENT)
    | Some _ => inl (mk_pg (loc_pool loc) (u32 (loc_hash loc)))
    end
  else map_to_pg (loc_pool loc) name (loc_key loc) (loc_nspace loc).

(** ** Groups to devices *)

(** The compaction loop: [n] indices left, at index [i]. *)
Fixpoint remove_loop (n i removed : nat) (osds : list Z) : nat * list Z :=
  match n with
  | O => (removed, osds)
  | S n =>
    let osd := default 0 (osds !! i) in
    if negb (exists_ osd) then remove_loop n (S i) (S removed) osds
    else if (0 <? removed)%nat then remove_loop n (S i) removed (<[(i - removed)%nat := osd]> osds)
    else remove_loop n (S i) removed osds
  end.

Definition _remove_nonexistent_osds (pi : pg_pool_t) (osds : list Z) : option (list Z) :=
  shift ← can_shift_osds pi;
  if (shift : bool) then
    let '(removed, osds) := remove_loop (length osds) 0 0 osds in
    Some (if (0 <? removed)%nat then take (length osds - removed) osds else osds)
  else Some (map (fun osd => if exists_ osd then osd else CRUSH_ITEM_NONE) osds).

Definition _pg_to_raw_osds `{CrushMap} (pi : pg_pool_t) (pg : pg_t) : option (list Z * Z) :=
  let pps := raw_pg_to_pps pi pg in
  let ruleno := find_rule (crush_rule pi) (type pi) (size pi) in
  let osds := if 0 <=? ruleno then do_rule ruleno pps (size pi) (osd_weight m) (m_pool pg) else [] in
  osds ← _remove_nonexistent_osds pi osds;
  Some (osds, pps).

Fixpoint _pick_primary (osds : list Z) : Z :=
  match osds with
  | [] => -1
  | osd :: osds => if negb (osd =? CRUSH_ITEM_NONE) then osd else _pick_primary osds
  end.

(** The target is a known device that is marked out. *)
Definition marked_out (osd : Z) : bool :=
  negb (osd =? CRUSH_ITEM_NONE) && (osd <? max_osd m) && (0 <=? osd) && (vec (osd_weight m) osd =? 0).

(** The scan of [raw] for one [pg_upmap_items] pair, from index [i]: whether
    the target occurs, and where the source first does. *)
Fixpoint scan_item (r : Z * Z) (raw : list Z) (i : nat) (pos : Z) : bool * Z :=
  match raw with
  | [] => (false, pos)
  | osd :: raw =>
    if osd =? snd r then (true, pos)
    else if (osd =? fst r) && (pos <? 0) && negb (marked_out (snd r))
      then scan_item r raw (S i) (Z.of_nat i)
      else scan_item r raw (S i) pos
  end.

Definition apply_item (raw : list Z) (r : Z * Z) : list Z :=
  let '(found, pos) := scan_item r raw 0 (-1) in
  if negb found && (0 <=? pos) then <[Z.to_nat pos := snd r]> raw else raw.

Definition _apply_upmap (pi : pg_pool_t) (raw_pg : pg_t) (raw : list Z) : list Z :=
  let pg := raw_pg_to_pg pi raw_pg in
  let items raw :=
    match pg_upmap_items m !! pg with
    | Some q => foldl apply_item raw q
    | None => raw
    end in
  match pg_upmap m !! pg with
  | Some p => if existsb marked_out p then raw else items p
  | None => items raw
  end.

Definition _raw_to_up_osds (pi : pg_pool_t) (raw : list Z) : option (list Z) :=
  shift ← can_shift_osds pi;
  if (shift : bool) then
    Some (foldl (fun up o => if negb (exists_ o) || is_down o then up else up ++ [o]) [] raw)
  else
    Some (map (fun o => if negb (exists_ o) || is_down o then CRUSH_ITEM_NONE else o) raw).

(** [osd_primary_affinity[o]], [None] out of range. *)
Definition affinity_at (v : list Z) (o : Z) : option Z :=
  if 0 <=? o then v !! Z.to_nat o else None.

Fixpoint any_affinity (v : list Z) (osds : list Z) : option bool :=
  match osds with
  | [] => Some false
  | osd :: osds =>
    if osd =? CRUSH_ITEM_NONE then any_affinity v osds
    else
      a ← affinity_at v osd;
      if negb (a =? CEPH_OSD_DEFAULT_PRIMARY_AFFINITY) then Some true else any_affinity v osds
  end.

(** The hash decides that an OSD of affinity [a] is not to be primary. *)
Definition rejects (seed a o : Z) : bool :=
  (a <? CEPH_OSD_MAX_PRIMARY_AFFINITY) &&
  (a <=? Z.shiftr (crush_hash32_2 CRUSH_HASH_RJENKINS1 seed (u32 o)) 16).

Fixpoint affinity_pos (v : list Z) (seed : Z) (osds : list Z) (i : nat) (pos : Z) : option Z :=
  match osds with
  | [] => Some pos
  | o :: osds =>
    if o =? CRUSH_ITEM_NONE then affinity_pos v seed osds (S i) pos
    else
      a ← affinity_at v o;
      if rejects seed a o then affinity_pos v seed osds (S i) (if pos <? 0 then Z.of_nat i else pos)
      else Some (Z.of_nat i)
  end.

(** [for (i = pos; i > 0; --i) osds[i] = osds[i-1]]. *)
Fixpoint shift_right (pos : nat) (osds : list Z) : list Z :=
  match pos with
  | O => osds
  | S i => shift_right i (<[pos := default 0 (osds !! i)]> osds)
  end.

Definition _apply_primary_affinity (seed : Z) (pi : pg_pool_t) (osds : list Z) (primary : Z)
    : option (list Z * Z) :=
  match osd_primary_affinity m with
  | None => Some (osds, primary)
  | Some v =>
    any ← any_affinity v osds;
    if negb any then Some (osds, primary)
    else
      pos ← affinity_pos v seed osds 0 (-1);
      if pos <? 0 then Some (osds, primary)
      else
        let primary := default 0 (osds !! Z.to_nat pos) in
        shift ← can_shift_osds pi;
        if (shift : bool) && (0 <? pos)
        then Some (<[0%nat := primary]> (shift_right (Z.to_nat pos) osds), primary)
        else Some (osds, primary)
  end.

(** [pool.can_shift_osds()] is only asked for a device that is not up. *)
Fixpoint temp_loop (pi : pg_pool_t) (p temp_pg : list Z) : option (list Z) :=
  match p with
  | [] => Some temp_pg
  | o :: p =>
    if negb (exists_ o) || is_down o then
      shift ← can_shift_osds pi;
      if (shift : bool) then temp_loop pi p temp_pg else temp_loop pi p (temp_pg ++ [CRUSH_ITEM_NONE])
    else temp_loop pi p (temp_pg ++ [o])
  end.

Definition _get_temp_osds (pi : pg_pool_t) (pg : pg_t) : option (list Z * Z) :=
  let pg := raw_pg_to_pg pi pg in
  temp_pg ← match pg_temp m !! pg with
            | Some p => temp_loop pi p []
            | None => Some []
            end;
  let temp_primary :=
    match primary_temp m !! pg with
    | Some o => o
    | None => _pick_primary temp_pg
    end in
  Some (temp_pg, temp_primary).

Definition pg_to_raw_osds `{CrushMap} (pg : pg_t) : option (list Z * Z) :=
  match pools m !! m_pool pg with
  | None => Some ([], -1)
  | Some pi => '(raw, _) ← _pg_to_raw_osds pi pg; Some (raw, _pick_primary raw)
  end.

Definition pg_to_raw_up `{CrushMap} (pg : pg_t) : option (list Z * Z) :=
  match pools m !! m_pool pg with
  | None => Some ([], -1)
  | Some pi =>
    '(raw, pps) ← _pg_to_raw_osds pi pg;
    let raw := _apply_upmap pi pg raw in
    up ← _raw_to_up_osds pi raw;
    _apply_primary_affinity pps pi up (_pick_primary raw)
  end.

(** The result of [_pg_to_up_acting_osds]; [up] is absent when the caller
    passed neither [up] nor [up_primary] and it was not needed. *)
Record up_acting := { up : option (list Z * Z); acting : list Z; acting_primary : Z }.

Definition compute_up `{CrushMap} (pi : pg_pool_t) (pg : pg_t) : option (list Z * Z) :=
  '(raw, pps) ← _pg_to_raw_osds pi pg;
  let raw := _apply_upmap pi pg raw in
  _up ← _raw_to_up_osds pi raw;
  _apply_primary_affinity pps pi _up (_pick_primary _up).

Definition _pg_to_up_acting_osds `{CrushMap} (pg : pg_t) (want_up : bool) (raw_to_pg : bool)
    : option up_acting :=
  match pools m !! m_pool pg with
  | None => Some {| up := Some ([], -1); acting := []; acting_primary := -1 |}
  | Some pi =>
    if negb raw_to_pg && (pg_num pi <=? m_seed pg)
    then Some {| up := Some ([], -1); acting := []; acting_primary := -1 |}
    else
      '(_acting, _acting_primary) ← _get_temp_osds pi pg;
      let empty := match _acting with [] => true | _ => false end in
      if empty || want_up then
        '(_up, _up_primary) ← compute_up pi pg;
        if (empty : bool) then
          Some {| up := Some (_up, _up_primary); acting := _up;
                  acting_primary := if _acting_primary =? -1 then _up_primary else _acting_primary |}
        else
          Some {| up := Some (_up, _up_primary); acting := _acting; acting_primary := _acting_primary |}
      else Some {| up := None; acting := _acting; acting_primary := _acting_primary |}
  end.

End Placement.

(** [pg_shard_t]: an OSD and its shard. *)
Definition calc_pg_role (osd shard : Z) (acting : list Z) : Z :=
  if shard =? NO_SHARD then
    match list_find (fun o => o = osd) acting with
    | Some (i, _) => Z.of_nat i
    | None => -1
    end
  else if (shard <? Z.of_nat (length acting)) && (vec acting shard =? osd) then shard
  else -1.

End OSDMap.
Module OSDMapFacts.
Import OSDMap.

(** The vectors are sized by [max_osd], which is an [int]. *)
Record osdmap_wf (m : OSDMap) : Prop := {
  wf_max : 0 <= max_osd m <= CRUSH_ITEM_NONE;
  wf_affinity : forall v, osd_primary_affinity m = Some v -> Z.of_nat (length v) = max_osd m
}.

Section Facts.
Context (m : OSDMap).

Definition known (o : Z) : Prop := exists_ m o = true.
Definition alive (o : Z) : Prop := is_up m o = true.

#[global] Instance known_dec o : Decision (known o).
Proof. unfold known. apply _. Defined.
#[global] Instance alive_dec o : Decision (alive o).
Proof. unfold alive. apply _. Defined.

Lemma not_up o : negb (exists_ m o) || is_down m o = negb (is_up m o).
Proof. unfold is_down, is_up. by destruct (exists_ m o). Qed.

Lemma alive_known o : alive o -> known o.
Proof. unfold alive, known, is_up. by intros [? _]%andb_true_iff. Qed.

Lemma known_range o : known o -> 0 <= o < max_osd m.
Proof. unfold known, exists_. intros H. zbool. lia. Qed.

Lemma alive_real o : osdmap_wf m -> alive o -> o <> CRUSH_ITEM_NONE.
Proof. intros [Hm _] H%alive_known%known_range. lia. Qed.

(** *** The loops compute filters and maps *)

(** Close a step of the compaction loop with the induction hypothesis. *)
Local Ltac loop_step E :=
  etrans; [|etrans; [exact E|]]; [f_equal|]; rewrite ?length_app, <- ?app_assoc; simpl; (done || lia).

Lemma remove_loop_spec R : forall K J,
  exists r' J', remove_loop m (length R) (length K + length J) (length J) (K ++ J ++ R) =
    (r', K ++ filter known R ++ J') /\ length J' = r' /\ (length J <= r')%nat /\
    (r' = 0%nat -> filter known R = R).
Proof.
  induction R as [|o R IH]; intros K J.
  { exists (length J), J. simpl. rewrite app_nil_r. split_and!; done. }
  cbn [remove_loop length]. rewrite (app_assoc K J), (list_lookup_middle (K ++ J) R o) by (rewrite length_app; done).
  cbv zeta. change (default 0 (Some o)) with o. rewrite filter_cons. destruct (exists_ m o) eqn:E; cbn [negb].
  - rewrite decide_True by done. destruct J as [|j J].
    + destruct (IH (K ++ [o]) []) as (r' & J' & E' & H1 & H2 & H3); exists r', J'.
      split; [loop_step E'|]. split_and!; [done|lia|]. intros ->. f_equal. by apply H3.
    + replace (length K + length (j :: J) - length (j :: J))%nat with (length K + 0)%nat by lia.
      rewrite (proj2 (Nat.ltb_lt 0 _)) by (simpl; lia). rewrite <- !app_assoc, insert_app_r. simpl.
      destruct (IH (K ++ [o]) (J ++ [o])) as (r' & J' & E' & H1 & H2 & H3). exists r', J'.
      rewrite length_app in H2. simpl in H2. split; [loop_step E'|]. split_and!; [done|lia|lia].
  - rewrite decide_False by (unfold known; congruence).
    destruct (IH K (J ++ [o])) as (r' & J' & E' & H1 & H2 & H3). exists r', J'.
    rewrite length_app in H2. simpl in H2. split; [loop_step E'|]. split_and!; [done|lia|lia].
Qed.

Lemma remove_nonexistent_spec pi osds shift : can_shift_osds pi = Some shift ->
  _remove_nonexistent_osds m pi osds =
  Some (if shift then filter known osds
        else map (fun o => if exists_ m o then o else CRUSH_ITEM_NONE) osds).
Proof.
  intros Hs. unfold _remove_nonexistent_osds. rewrite Hs. simpl. destruct shift; [|done].
  destruct (remove_loop_spec osds [] []) as (r & J & E & Hl & _ & Hz). simpl in E. rewrite E.
  destruct (0 <? r)%nat eqn:Er; [|apply Nat.ltb_ge in Er].
  - rewrite length_app, Hl, Nat.add_sub. by rewrite take_app_length.
  - destruct J; [|simpl in *; lia]. by rewrite app_nil_r.
Qed.

Lemma push_filter raw acc :
  foldl (fun up o => if negb (exists_ m o) || is_down m o then up else up ++ [o]) acc raw =
  acc ++ filter alive raw.
Proof.
  revert acc. induction raw as [|o raw IH]; intros acc; simpl; [by rewrite app_nil_r|].
  rewrite not_up, filter_cons. destruct (is_up m o) eqn:E; simpl; rewrite IH.
  - rewrite decide_True by done. by rewrite <- app_assoc.
  - rewrite decide_False by (unfold alive; congruence). done.
Qed.

(** The devices of a list that are up: shifted together, or with holes. *)
Definition keep_up (shift : bool) (l : list Z) : list Z :=
  if shift then filter alive l else map (fun o => if is_up m o then o else CRUSH_ITEM_NONE) l.

Lemma raw_to_up_spec pi raw shift : can_shift_osds pi = Some shift ->
  _raw_to_up_osds m pi raw = Some (keep_up shift raw).
Proof.
  intros Hs. unfold _raw_to_up_osds. rewrite Hs. simpl. destruct shift; [by rewrite push_filter|].
  f_equal. apply map_ext. intros o. rewrite not_up. by destruct (is_up m o).
Qed.

Lemma temp_loop_spec pi p acc shift : can_shift_osds pi = Some shift ->
  temp_loop m pi p acc = Some (acc ++ keep_up shift p).
Proof.
  intros Hs. revert acc. induction p as [|o p IH]; intros acc; simpl.
  { destruct shift; simpl; by rewrite app_nil_r. }
  rewrite not_up, Hs. unfold keep_up in *.
  destruct (is_up m o) eqn:E; destruct shift; simpl; rewrite IH, <- ?app_assoc; simpl; rewrite ?filter_cons, ?E.
  - by rewrite decide_True.
  - done.
  - rewrite decide_False by (unfold alive; congruence). done.
  - done.
Qed.

(** *** Primaries *)

Lemma pick_primary_spec osds :
  (_pick_primary osds ∈ osds /\ _pick_primary osds <> CRUSH_ITEM_NONE) \/
  (_pick_primary osds = -1 /\ Forall (fun o => o = CRUSH_ITEM_NONE) osds).
Proof.
  induction osds as [|o osds IH]; simpl; [by right|].
  destruct (o =? CRUSH_ITEM_NONE) eqn:E; zbool; simpl.
  - destruct IH as [[H1 H2]|[H1 H2]]; [left|right]; split; [set_solver|done|done|by constructor].
  - left. split; [set_solver|done].
Qed.

(** The first of a list that satisfies a test, with its index. *)
Section Affinity.
Context (v : list Z) (seed : Z).

Definition real (o : Z) : Prop := o <> CRUSH_ITEM_NONE.
Definition accepted (o : Z) : Prop := real o /\ rejects seed (vec v o) o = false.

#[global] Instance real_dec o : Decision (real o).
Proof. unfold real. apply _. Defined.
#[global] Instance accepted_dec o : Decision (accepted o).
Proof. unfold accepted. apply _. Defined.

(** The position of the primary: the first OSD the hash accepts, or else the
    first OSD at all. *)
Definition primary_pos (osds : list Z) : option nat :=
  match list_find accepted osds with
  | Some (i, _) => Some i
  | None => fst <$> list_find real osds
  end.

Definition in_range (o : Z) : Prop := real o -> 0 <= o < Z.of_nat (length v).

Lemma affinity_at_range o : in_range o -> real o -> affinity_at v o = Some (vec v o).
Proof.
  intros H Hr. specialize (H Hr). unfold affinity_at, vec. rewrite (proj2 (Z.leb_le 0 o)) by lia.
  destruct (lookup_lt_is_Some_2 v (Z.to_nat o)) as [x ->]; [lia|done].
Qed.

Lemma any_affinity_some osds : Forall in_range osds -> exists b, any_affinity v osds = Some b.
Proof.
  induction 1 as [|o osds Ho _ [b IH]]; simpl; [eauto|]. destruct (o =? CRUSH_ITEM_NONE) eqn:E; zbool; [eauto|].
  rewrite affinity_at_range by done. simpl. case_match; eauto.
Qed.

Lemma affinity_pos_spec osds i pos : Forall in_range osds ->
  affinity_pos v seed osds i pos = Some (
    match list_find accepted osds with
    | Some (j, _) => Z.of_nat (i + j)
    | None => if pos <? 0 then match list_find real osds with
                               | Some (j, _) => Z.of_nat (i + j)
                               | None => pos
                               end
              else pos
    end).
Proof.
  intros H. revert i pos. induction H as [|o osds Ho _ IH]; intros i pos; simpl; [by case_match|].
  destruct (o =? CRUSH_ITEM_NONE) eqn:E; zbool.
  - rewrite (decide_False (P := accepted o)) by (unfold accepted, real; tauto).
    rewrite (decide_False (P := real o)) by (unfold real; tauto). rewrite IH.
    destruct (list_find accepted osds) as [[j x]|]; simpl; [f_equal; lia|].
    destruct (list_find real osds) as [[j x]|]; simpl; [|done]. do 2 f_equal. case_match; lia.
  - rewrite affinity_at_range by done. simpl. rewrite (decide_True (P := real o)) by done.
    destruct (rejects seed (vec v o) o) eqn:Er.
    + rewrite decide_False by (unfold accepted; rewrite Er; naive_solver). rewrite IH.
      destruct (list_find accepted osds) as [[j x]|]; simpl; [f_equal; lia|].
      destruct (pos <? 0) eqn:Ep; [|by rewrite Ep]. rewrite (proj2 (Z.ltb_ge (Z.of_nat i) 0)) by lia. f_equal; lia.
    + rewrite decide_True by done. f_equal. lia.
Qed.
End Affinity.

Lemma shift_right_spec pos x osds p : (pos < length (x :: osds))%nat ->
  <[0%nat := p]> (shift_right pos (x :: osds)) = p :: take pos (x :: osds) ++ drop (S pos) (x :: osds).
Proof.
  assert (forall pos l, (pos < length l)%nat ->
    shift_right pos l = take 1 l ++ take pos l ++ drop (S pos) l) as H.
  { clear. induction pos as [|i IH]; intros l Hl; cbn [shift_right].
    { destruct l; [simpl in Hl; lia|]. simpl. by rewrite drop_0. }
    destruct (lookup_lt_is_Some_2 l i) as [y Hy]; [lia|].
    rewrite IH by (rewrite length_insert; lia). rewrite Hy. simpl default.
    rewrite !take_insert_ge by lia. rewrite (drop_insert_ge l (S i) (S i)) by lia.
    replace (S i - S i)%nat with 0%nat by lia.
    destruct (lookup_lt_is_Some_2 l (S i)) as [z Hz]; [lia|].
    rewrite (drop_S l z (S i)) by done. simpl insert. rewrite (take_S_r l i y) by done.
    by rewrite <- app_assoc. }
  intros Hl. rewrite H by done. simpl. destruct pos; done.
Qed.

(** *** Upmap items *)

(** No device occurs twice. *)
Definition distinct (l : list Z) : Prop :=
  forall i j o, l !! i = Some o -> l !! j = Some o -> real o -> i = j.

Lemma scan_item_spec r raw i pos found p :
  scan_item m r raw i pos = (found, p) ->
  (found = false -> snd r ∉ raw) /\
  (p = pos \/ exists k, p = Z.of_nat (i + k) /\ raw !! k = Some (fst r) /\ marked_out m (snd r) = false).
Proof.
  revert i pos. induction raw as [|o raw IH]; intros i pos; simpl.
  { intros [= <- <-]. split; [set_solver|by left]. }
  destruct (o =? snd r) eqn:E; zbool; [intros [= <- <-]; split; [done|by left]|].
  intros H. destruct ((o =? fst r) && (pos <? 0) && negb (marked_out m (snd r))) eqn:E1;
    apply IH in H as [H1 H2]; (split; [set_solver|]).
  - zbool. right. destruct H2 as [-> | (k & -> & Hk & Hm)].
    + exists 0%nat. subst o. split_and!; [lia|done|done].
    + exists (S k). split_and!; [lia|done|done].
  - destruct H2 as [-> | (k & -> & Hk & Hm)]; [by left|right]. exists (S k). split_and!; [lia|done|done].
Qed.

Lemma apply_item_spec raw r :
  apply_item m raw r = raw \/
  exists k, raw !! k = Some (fst r) /\ snd r ∉ raw /\ marked_out m (snd r) = false /\
    apply_item m raw r = <[k := snd r]> raw.
Proof.
  unfold apply_item. destruct (scan_item m r raw 0 (-1)) as [found p] eqn:E.
  apply scan_item_spec in E as [H1 H2]. destruct found; simpl; [by left|].
  destruct (0 <=? p) eqn:Ep; zbool; [|by left]. destruct H2 as [->|(k & -> & Hk & Hm)]; [lia|].
  right. exists k. simpl. rewrite Nat2Z.id. auto.
Qed.

Lemma apply_item_distinct raw r : distinct raw -> distinct (apply_item m raw r).
Proof.
  intros Hd. destruct (apply_item_spec raw r) as [->|(k & Hk & Hn & _ & ->)]; [done|].
  assert (k < length raw)%nat by by eapply lookup_lt_Some.
  intros i j o Hi Hj Ho. destruct (decide (i = k)) as [-> | Hik], (decide (j = k)) as [-> | Hjk]; [done| | |].
  - rewrite list_lookup_insert_eq in Hi by done. rewrite list_lookup_insert_ne in Hj by done. simplify_eq.
    destruct Hn. by eapply list_elem_of_lookup_2.
  - rewrite list_lookup_insert_eq in Hj by done. rewrite list_lookup_insert_ne in Hi by done. simplify_eq.
    destruct Hn. by eapply list_elem_of_lookup_2.
  - rewrite list_lookup_insert_ne in Hi, Hj by done. by eapply Hd.
Qed.

Lemma apply_items_distinct q raw : distinct raw -> distinct (foldl (apply_item m) raw q).
Proof. revert raw. induction q as [|r q IH]; intros raw Hd; simpl; [done|]. by apply IH, apply_item_distinct. Qed.

Lemma apply_items_length q raw : length (foldl (apply_item m) raw q) = length raw.
Proof.
  revert raw. induction q as [|r q IH]; intros raw; simpl; [done|]. rewrite IH.
  destruct (apply_item_spec raw r) as [-> | (k & _ & _ & _ & ->)]; [done|]. apply length_insert.
Qed.

Lemma upmap_distinct pi pg raw : distinct raw ->
  (forall p, pg_upmap m !! raw_pg_to_pg pi pg = Some p -> distinct p) -> distinct (_apply_upmap m pi pg raw).
Proof.
  intros Hd Hp. unfold _apply_upmap. destruct (pg_upmap m !! _) as [p|].
  - case_match; [done|]. case_match; [|by apply Hp]. by apply apply_items_distinct, Hp.
  - case_match; [|done]. by apply apply_items_distinct.
Qed.

End Facts.
End OSDMapFacts.
Module UpActing.
Import OSDMap OSDMapFacts.

Lemma list_find_lt {A} (P : A -> Prop) `{!forall x, Decision (P x)} l i x :
  list_find P l = Some (i, x) -> (i < length l)%nat.
Proof. intros (Hl & _)%list_find_Some. by eapply lookup_lt_Some. Qed.

Section Up.
Context (m : OSDMap) (Hwf : osdmap_wf m).

(** A set of devices as clients may use it: every entry is up, except for the
    holes of an erasure-coded set. *)
Definition placed (shift : bool) (l : list Z) : Prop :=
  Forall (fun o => alive m o \/ (shift = false /\ o = CRUSH_ITEM_NONE)) l.

#[global] Instance placed_proper shift : Proper ((≡ₚ) ==> iff) (placed shift).
Proof. intros l1 l2 E. unfold placed. by rewrite !Forall_forall; setoid_rewrite E. Qed.

Definition primary_ok (l : list Z) (p : Z) : Prop :=
  (p ∈ l /\ real p) \/ (p = -1 /\ Forall (fun o => o = CRUSH_ITEM_NONE) l).

Lemma keep_up_placed shift l : placed shift (keep_up m shift l).
Proof.
  unfold placed, keep_up. destruct shift.
  - apply Forall_forall. intros o [Ho _]%list_elem_of_filter. by left.
  - apply Forall_fmap, Forall_forall. intros o _. simpl. unfold alive.
    destruct (is_up m o) eqn:E; [by left; rewrite E|by right].
Qed.

Lemma placed_in_range v shift l : osd_primary_affinity m = Some v -> placed shift l -> Forall (in_range v) l.
Proof using Hwf.
  intros Hv Hp. eapply Forall_impl; [exact Hp|]. intros o [Ho|[_ ->]]; [|by intros []].
  intros _. apply alive_known, known_range in Ho. rewrite (wf_affinity m Hwf v Hv). lia.
Qed.

(** The effect of primary affinity: the list and the primary, given the
    position picked. *)
Definition with_primary (shift : bool) (osds : list Z) (primary : Z) (pos : option nat) : list Z * Z :=
  match pos with
  | None => (osds, primary)
  | Some i =>
    let p := default 0 (osds !! i) in
    (if shift && (0 <? i)%nat then p :: take i osds ++ drop (S i) osds else osds, p)
  end.

Lemma primary_pos_lt v seed osds i : primary_pos v seed osds = Some i ->
  exists o, osds !! i = Some o /\ real o.
Proof.
  unfold primary_pos. destruct (list_find _ osds) as [[j o]|] eqn:E.
  - intros [= <-]. apply list_find_Some in E as (? & [? _] & _). eauto.
  - destruct (list_find real osds) as [[j o]|] eqn:E1; simpl; [|done]. intros [= <-].
    apply list_find_Some in E1 as (? & ? & _). eauto.
Qed.

(** [_apply_primary_affinity] when the map has affinities: nothing unless some
    OSD of the set has one, then the picked OSD becomes the primary, moved to
    the front of a replicated set. *)
Lemma apply_affinity_spec pi shift v seed osds primary :
  can_shift_osds pi = Some shift -> osd_primary_affinity m = Some v -> Forall (in_range v) osds ->
  exists any, any_affinity v osds = Some any /\
  _apply_primary_affinity m seed pi osds primary =
    Some (with_primary shift osds primary (if any then primary_pos v seed osds else None)).
Proof.
  intros Hs Hv Hr. destruct (any_affinity_some v osds Hr) as [any Ha]. exists any. split; [done|].
  unfold _apply_primary_affinity. rewrite Hv, Ha. destruct any; [|done].
  cbn [mbind option_bind negb]. rewrite affinity_pos_spec by done. cbn [mbind option_bind].
  unfold primary_pos. destruct (list_find (accepted v seed) osds) as [[j x]|] eqn:E1; simpl;
    [|destruct (list_find real osds) as [[j x]|] eqn:E2; simpl; [|done]].
  all: rewrite (proj2 (Z.ltb_ge (Z.of_nat j) 0)) by lia; rewrite Hs, Nat2Z.id; simpl.
  all: assert (j < length osds)%nat as Hj by (eapply list_find_lt; eauto).
  all: destruct shift; simpl; [|done]; destruct osds as [|y osds]; [simpl in Hj; lia|].
  all: destruct j; simpl; [done|]; rewrite <- (shift_right_spec (S j) y osds) by done; done.
Qed.

Lemma with_primary_ok shift osds v seed (any : bool) primary :
  placed shift osds -> primary_ok osds primary ->
  let r := with_primary shift osds primary (if any then primary_pos v seed osds else None) in
  placed shift (fst r) /\ primary_ok (fst r) (snd r) /\ fst r ≡ₚ osds.
Proof.
  intros Hp Hk. simpl. destruct any; [|done]. destruct (primary_pos v seed osds) as [i|] eqn:E; [|done].
  apply primary_pos_lt in E as (o & Ho & Hr). simpl. rewrite Ho. simpl.
  assert (o :: take i osds ++ drop (S i) osds ≡ₚ osds) as Hperm.
  { rewrite <- (take_drop_middle osds i o Ho) at 3. apply Permutation_middle. }
  destruct (shift && _); simpl.
  - split; [by rewrite Hperm|]. split; [|done]. left. split; [set_solver|done].
  - split; [done|]. split; [|done]. left. split; [by eapply list_elem_of_lookup_2|done].
Qed.

(** [_apply_primary_affinity] on any set that is up. *)
Lemma apply_affinity_ok pi shift seed osds :
  can_shift_osds pi = Some shift -> placed shift osds ->
  exists r, _apply_primary_affinity m seed pi osds (_pick_primary osds) = Some r /\
    placed shift (fst r) /\ primary_ok (fst r) (snd r) /\ fst r ≡ₚ osds /\
    (shift = false -> fst r = osds).
Proof using Hwf.
  intros Hs Hp. destruct (osd_primary_affinity m) as [v|] eqn:Hv.
  - destruct (apply_affinity_spec pi shift v seed osds (_pick_primary osds)) as (any & _ & ->);
      [done..|by eapply placed_in_range|].
    eexists. split; [done|].
    destruct (with_primary_ok shift osds v seed any (_pick_primary osds)) as (H1 & H2 & H3);
      [done|apply pick_primary_spec|].
    split_and!; [done..|]. intros ->. by destruct any, (primary_pos v seed osds).
  - unfold _apply_primary_affinity. rewrite Hv. eexists. split; [done|]. split_and!; [done| |done|done].
    apply pick_primary_spec.
Qed.

Context `{CrushMap}.

(** What CRUSH selected for a group, without the devices that do not exist. *)
Definition raw_osds (pi : pg_pool_t) (shift : bool) (pg : pg_t) : list Z :=
  let ruleno := find_rule (crush_rule pi) (type pi) (size pi) in
  let osds := if 0 <=? ruleno
              then do_rule ruleno (raw_pg_to_pps pi pg) (size pi) (osd_weight m) (m_pool pg) else [] in
  if shift then filter (known m) osds
  else map (fun o => if exists_ m o then o else CRUSH_ITEM_NONE) osds.

Lemma compute_up_ok pi shift pg : can_shift_osds pi = Some shift ->
  exists u p, compute_up m pi pg = Some (u, p) /\ placed shift u /\ primary_ok u p /\
    u ≡ₚ keep_up m shift (_apply_upmap m pi pg (raw_osds pi shift pg)) /\
    (shift = false -> u = keep_up m shift (_apply_upmap m pi pg (raw_osds pi shift pg))).
Proof using Hwf.
  intros Hs. unfold compute_up, _pg_to_raw_osds. rewrite (remove_nonexistent_spec m pi _ shift) by done.
  simpl. fold (raw_osds pi shift pg). rewrite (raw_to_up_spec m pi _ shift) by done. simpl.
  destruct (apply_affinity_ok pi shift (raw_pg_to_pps pi pg)
    (keep_up m shift (_apply_upmap m pi pg (raw_osds pi shift pg)))) as ([u p] & -> & H1 & H2 & H3 & H4);
    [done|apply keep_up_placed|].
  exists u, p. done.
Qed.

Lemma get_temp_ok pi shift pg : can_shift_osds pi = Some shift ->
  _get_temp_osds m pi pg = Some (
    let t := keep_up m shift (default [] (pg_temp m !! raw_pg_to_pg pi pg)) in
    (t, default (_pick_primary t) (primary_temp m !! raw_pg_to_pg pi pg))).
Proof.
  intros Hs. unfold _get_temp_osds.
  destruct (pg_temp m !! _) as [p|]; [rewrite (temp_loop_spec m pi p [] shift) by done|].
  - simpl. by destruct (primary_temp m !! _).
  - simpl. destruct shift; simpl; by destruct (primary_temp m !! _).
Qed.
End Up.
End UpActing.
Module OSDMapTheorems.
Import OSDMap OSDMapFacts UpActing PgTheorems.

(** Six OSDs, all existing, all up but osd.1, osd.3 marked out; pool 7 has 12
    groups and CRUSH answers with osd.4, osd.1 and osd.2. *)
#[local] Instance toy_crush : CrushMap := {
  find_rule := fun _ _ _ => 0;
  do_rule := fun _ _ _ _ _ => [4; 1; 2]
}.
Definition toy_map : OSDMap := {|
  max_osd := 6; osd_state := [3; 1; 3; 3; 3; 3]; osd_weight := [65536; 65536; 65536; 0; 65536; 65536];
  osd_primary_affinity := Some [65536; 65536; 65536; 65536; 0; 65536];
  pools := {[ 7 := pool_of 12 ]}; pg_temp := {[ mk_pg 7 3 := [5; 1; 0] ]}; primary_temp := ∅;
  pg_upmap := ∅; pg_upmap_items := {[ mk_pg 7 5 := [(2, 5)] ]} |}.

Lemma toy_wf : osdmap_wf toy_map.
Proof. split; [unfold CRUSH_ITEM_NONE; simpl; lia|]. by intros v [= <-]. Qed.

(** C39: Every placement answer is usable.  For a pool of a known type,
    [_pg_to_up_acting_osds] never reads outside a vector or aborts, whatever
    CRUSH answers and whatever the overrides in the map; the up and the acting
    set name only OSDs that exist and are up (an erasure-coded set may have
    holes); the up primary is a member of the up set, or -1 when the set has no
    OSD; and so is the acting primary of the acting set unless [primary_temp] names
    one, which then is the answer for a group of the pool, member or not. *)
Theorem up_acting_sound `{CrushMap} m pg pi shift want_up raw_to_pg :
  osdmap_wf m -> pools m !! m_pool pg = Some pi -> can_shift_osds pi = Some shift ->
  exists u, _pg_to_up_acting_osds m pg want_up raw_to_pg = Some u /\
    (want_up = true -> is_Some (up u)) /\
    placed m shift (acting u) /\
    (forall l p, up u = Some (l, p) -> placed m shift l /\ primary_ok l p) /\
    (primary_temp m !! raw_pg_to_pg pi pg = None -> primary_ok (acting u) (acting_primary u)) /\
    (forall o, primary_temp m !! raw_pg_to_pg pi pg = Some o -> o <> -1 -> raw_to_pg = true \/ m_seed pg < pg_num pi ->
       acting_primary u = o).
Proof.
  intros Hwf Hpi Hs. unfold _pg_to_up_acting_osds. rewrite Hpi.
  assert (primary_ok [] (-1)) by (by right).
  destruct (negb raw_to_pg && _) eqn:Eout.
  { eexists. split; [done|]. split_and!; simpl; [eauto|constructor|intros l p [= <- <-]; split; [constructor|done]|done|].
    apply andb_true_iff in Eout as [?%negb_true_iff ?%Z.leb_le]. intros o _ _ [->|?]; [done|lia]. }
  rewrite (get_temp_ok m pi shift) by done. simpl.
  set (t := keep_up m shift _).
  assert (placed m shift t) as Ht by apply keep_up_placed.
  destruct (compute_up_ok m Hwf pi shift pg Hs) as (l & p & E & Hl & Hp & _).
  pose proof (pick_primary_spec t) as Hpt. fold (primary_ok t (_pick_primary t)) in Hpt.
  destruct t as [|o t'] eqn:Et; rewrite <- Et in *; [|destruct want_up]; simpl; rewrite ?E; simpl.
  - eexists. split; [done|]. split_and!; simpl; [eauto|done|by intros ? ? [= <- <-]|..].
    + intros ->. simpl. by rewrite Et.
    + intros o -> Ho _. simpl. by rewrite (proj2 (Z.eqb_neq o (-1))).
  - eexists. split; [done|]. split_and!; simpl; [eauto|done|by intros ? ? [= <- <-]|by intros ->|by intros ? ->].
  - eexists. split; [done|]. split_and!; simpl; [done|done|done|by intros ->|by intros ? ->].
Qed.

Lemma up_acting_sound_witness :
  exists u, _pg_to_up_acting_osds toy_map (mk_pg 7 5) true true = Some u /\
    placed toy_map true (acting u) /\ acting u = [5; 4].
Proof.
  destruct (up_acting_sound toy_map (mk_pg 7 5) (pool_of 12) true true true) as (u & E & _ & Ha & _);
    [apply toy_wf|reflexivity|reflexivity|].
  exists u. split; [exact E|]. split; [exact Ha|]. vm_compute in E. injection E as <-. reflexivity.
Defined.

(** The up set is what CRUSH selects.  In an erasure-coded pool position
    [i] of the up set is position [i] of the CRUSH selection (after the upmap
    overrides), or a hole when that device is missing or down; in a replicated
    pool the up set has exactly the selected devices that are up, and only the
    primary may have been moved, to the front. *)
Theorem up_set_functional `{CrushMap} m pi shift pg :
  osdmap_wf m -> can_shift_osds pi = Some shift ->
  let selected := _apply_upmap m pi pg (raw_osds m pi shift pg) in
  exists l p, compute_up m pi pg = Some (l, p) /\
    if shift then l ≡ₚ filter (alive m) selected
    else length l = length selected /\
         forall i o, selected !! i = Some o ->
           l !! i = Some (if is_up m o then o else CRUSH_ITEM_NONE).
Proof.
  intros Hwf Hs. simpl. destruct (compute_up_ok m Hwf pi shift pg Hs) as (l & p & E & _ & _ & Hperm & Heq).
  exists l, p. split; [done|]. destruct shift; [done|]. rewrite Heq by done. simpl. split; [apply length_map|].
  intros i o Ho. rewrite list_lookup_fmap, Ho. done.
Qed.

Lemma up_set_functional_witness :
  exists l p, compute_up toy_map (pool_of 12) (mk_pg 7 5) = Some (l, p) /\ l ≡ₚ [4; 5].
Proof.
  destruct (up_set_functional toy_map (pool_of 12) true (mk_pg 7 5)) as (l & p & E & H);
    [apply toy_wf|reflexivity|].
  exists l, p. split; [exact E|]. exact H.
Defined.

(** Primary affinity.  With affinities in the map and all OSDs of the set
    in range, [_apply_primary_affinity] leaves the set alone when all its OSDs
    have the default affinity; otherwise the primary is the first OSD the hash
    does not reject, or the first OSD when it rejects all of them, so a
    non-empty set always gets a primary; a replicated set is rotated to start
    with it and keeps the order of the others, an erasure-coded set keeps its
    positions. *)
Theorem primary_affinity_choice m pi shift v seed osds primary :
  can_shift_osds pi = Some shift -> osd_primary_affinity m = Some v -> Forall (in_range v) osds ->
  exists any, any_affinity v osds = Some any /\
    (any = false -> _apply_primary_affinity m seed pi osds primary = Some (osds, primary)) /\
    (any = true -> forall i p, osds !! i = Some p -> primary_pos v seed osds = Some i ->
       _apply_primary_affinity m seed pi osds primary =
         Some (if shift && (0 <? i)%nat then p :: take i osds ++ drop (S i) osds else osds, p) /\
       (accepted v seed p \/ Forall (fun o => ~ accepted v seed o) osds)) /\
    (any = true -> is_Some (primary_pos v seed osds) <-> Exists real osds).
Proof.
  intros Hs Hv Hr. destruct (apply_affinity_spec m pi shift v seed osds primary) as (any & Ha & E); [done..|].
  exists any. split; [done|]. rewrite E. split; [by intros ->|]. split.
  - intros -> i p Hp Hpos. rewrite Hpos. simpl. rewrite Hp. simpl. split; [done|].
    unfold primary_pos in Hpos. destruct (list_find (accepted v seed) osds) as [[j x]|] eqn:El.
    + left. injection Hpos as ->. apply list_find_Some in El as (? & ? & _). by simplify_eq.
    + right. by apply list_find_None in El.
  - intros ->. unfold primary_pos. rewrite Exists_exists. split.
    + intros [i Hi]. change (primary_pos v seed osds = Some i) in Hi.
      apply primary_pos_lt in Hi as (o & Ho & Hr'). exists o. split; [by eapply list_elem_of_lookup_2|done].
    + intros (o & Ho & Hro). destruct (list_find (accepted v seed) osds) as [[]|]; [eauto|].
      destruct (list_find_elem_of real osds o Ho Hro) as [[j x] ->]. simpl. eauto.
Qed.

Lemma primary_affinity_choice_witness :
  _apply_primary_affinity toy_map 17 (pool_of 12) [4; 2] 4 = Some ([2; 4], 2).
Proof.
  destruct (primary_affinity_choice toy_map (pool_of 12) true
    [65536; 65536; 65536; 65536; 0; 65536] 17 [4; 2] 4) as (any & Ha & _ & Hc & _);
    [reflexivity|reflexivity|do 2 (apply List.Forall_cons; [intros _; simpl; lia|]); constructor|].
  vm_compute in Ha. injection Ha as <-.
  destruct (Hc eq_refl 1%nat 2) as [E _]; [reflexivity|vm_compute; reflexivity|]. exact E.
Defined.

(** Upmap overrides keep placements distinct.  If CRUSH's selection and
    the explicit [pg_upmap] entry name no device twice, neither does the
    selection after [_apply_upmap], however many [pg_upmap_items] pairs apply;
    an explicit entry with a device that is marked out is ignored, and the
    pairs never change the number of positions. *)
Theorem upmap_keeps_distinct m pi pg raw :
  distinct raw ->
  (forall p, pg_upmap m !! raw_pg_to_pg pi pg = Some p -> distinct p) ->
  distinct (_apply_upmap m pi pg raw) /\
  (pg_upmap m !! raw_pg_to_pg pi pg = None -> length (_apply_upmap m pi pg raw) = length raw) /\
  (forall p o, pg_upmap m !! raw_pg_to_pg pi pg = Some p -> o ∈ p -> marked_out m o = true ->
     _apply_upmap m pi pg raw = raw).
Proof.
  intros Hd Hp. split; [by apply upmap_distinct|]. unfold _apply_upmap. destruct (pg_upmap m !! _) as [p|].
  - split; [done|]. intros p' o [= ->] Ho Hm. rewrite (proj2 (existsb_exists _ _)); [done|]. exists o.
    by rewrite <- list_elem_of_In.
  - split; [|done]. intros _. case_match; [|done]. apply apply_items_length.
Qed.

Lemma upmap_keeps_distinct_witness :
  distinct (_apply_upmap toy_map (pool_of 12) (mk_pg 7 5) [4; 2]) /\
  _apply_upmap toy_map (pool_of 12) (mk_pg 7 5) [4; 2] = [4; 5].
Proof.
  split; [|vm_compute; reflexivity].
  apply (upmap_keeps_distinct toy_map (pool_of 12) (mk_pg 7 5) [4; 2]).
  - intros [|[|i]] [|[|j]] o; simpl; intros; simplify_eq; done.
  - intros p E. vm_compute in E. discriminate E.
Defined.

End OSDMapTheorems.
