(* ===== verification/CrushLn.v ===== *)
(** The fixed-point logarithm of CRUSH, src/ceph-15.2.17/src/crush/mapper.c
    ([crush_ln]) with the tables of crush/crush_ln_table.h. *)
From S2P Require Import Prelude Pg.
Import Bits.

Module CrushLn.

(** [RH_LH_tbl[2*k] = 2^48/(1.0+k/128.0)],
    [RH_LH_tbl[2*k+1] = 2^48*log2(1.0+k/128.0)]. *)
Definition RH_LH_tbl : list Z := [
  0x1000000000000; 0x0; 0xfe03f80fe040; 0x2dfca16dde1; 0xfc0fc0fc0fc1; 0x5b9e5a170b4;
  0xfa232cf25214; 0x88e68ea899a; 0xf83e0f83e0f9; 0xb5d69bac77e; 0xf6603d980f67; 0xe26fd5c8555;
  0xf4898d5f85bc; 0x10eb389fa29f; 0xf2b9d6480f2c; 0x13aa2fdd27f1; 0xf0f0f0f0f0f1; 0x1663f6fac913;
  0xef2eb71fc435; 0x1918a16e4633; 0xed7303b5cc0f; 0x1bc84240adab; 0xebbdb2a5c162; 0x1e72ec117fa5;
  0xea0ea0ea0ea1; 0x2118b119b4f3; 0xe865ac7b7604; 0x23b9a32eaa56; 0xe6c2b4481cd9; 0x2655d3c4f15c;
  0xe525982af70d; 0x28ed53f307ee; 0xe38e38e38e39; 0x2b803473f7ad; 0xe1fc780e1fc8; 0x2e0e85a9de04;
  0xe070381c0e08; 0x309857a05e07; 0xdee95c4ca038; 0x331dba0efce1; 0xdd67c8a60dd7; 0x359ebc5b69d9;
  0xdbeb61eed19d; 0x381b6d9bb29b; 0xda740da740db; 0x3a93dc9864b2; 0xd901b2036407; 0x3d0817ce9cd4;
  0xd79435e50d7a; 0x3f782d7204d0; 0xd62b80d62b81; 0x41e42b6ec0c0; 0xd4c77b03531e; 0x444c1f6b4c2d;
  0xd3680d3680d4; 0x46b016ca47c1; 0xd20d20d20d21; 0x49101eac381c; 0xd0b69fcbd259; 0x4b6c43f1366a;
  0xcf6474a8819f; 0x4dc4933a9337; 0xce168a772509; 0x501918ec6c11; 0xcccccccccccd; 0x5269e12f346e;
  0xcb8727c065c4; 0x54b6f7f1325a; 0xca4587e6b750; 0x570068e7ef5a; 0xc907da4e8712; 0x59463f919dee;
  0xc7ce0c7ce0c8; 0x5b8887367433; 0xc6980c6980c7; 0x5dc74ae9fbec; 0xc565c87b5f9e; 0x6002958c5871;
  0xc4372f855d83; 0x623a71cb82c8; 0xc30c30c30c31; 0x646eea247c5c; 0xc1e4bbd595f7; 0x66a008e4788c;
  0xc0c0c0c0c0c1; 0x68cdd829fd81; 0xbfa02fe80bfb; 0x6af861e5fc7d; 0xbe82fa0be830; 0x6d1fafdce20a;
  0xbd6910470767; 0x6f43cba79e40; 0xbc52640bc527; 0x7164beb4a56d; 0xbb3ee721a54e; 0x73829248e961;
  0xba2e8ba2e8bb; 0x759d4f80cba8; 0xb92143fa36f6; 0x77b4ff5108d9; 0xb81702e05c0c; 0x79c9aa879d53;
  0xb70fbb5a19bf; 0x7bdb59cca388; 0xb60b60b60b61; 0x7dea15a32c1b; 0xb509e68a9b95; 0x7ff5e66a0ffe;
  0xb40b40b40b41; 0x81fed45cbccb; 0xb30f63528918; 0x8404e793fb81; 0xb21642c8590c; 0x86082806b1d5;
  0xb11fd3b80b12; 0x88089d8a9e47; 0xb02c0b02c0b1; 0x8a064fd50f2a; 0xaf3addc680b0; 0x8c01467b94bb;
  0xae4c415c9883; 0x8df988f4ae80; 0xad602b580ad7; 0x8fef1e987409; 0xac7691840ac8; 0x91e20ea1393e;
  0xab8f69e2835a; 0x93d2602c2e5f; 0xaaaaaaaaaaab; 0x95c01a39fbd6; 0xa9c84a47a080; 0x97ab43af59f9;
  0xa8e83f5717c1; 0x9993e355a4e5; 0xa80a80a80a81; 0x9b79ffdb6c8b; 0xa72f0539782a; 0x9d5d9fd5010b;
  0xa655c4392d7c; 0x9f3ec9bcfb80; 0xa57eb50295fb; 0xa11d83f4c355; 0xa4a9cf1d9684; 0xa2f9d4c51039;
  0xa3d70a3d70a4; 0xa4d3c25e68dc; 0xa3065e3fae7d; 0xa6ab52d99e76; 0xa237c32b16d0; 0xa8808c384547;
  0xa16b312ea8fd; 0xaa5374652a1c; 0xa0a0a0a0a0a1; 0xac241134c4e9; 0x9fd809fd80a0; 0xadf26865a8a1;
  0x9f1165e72549; 0xafbe7fa0f04d; 0x9e4cad23dd60; 0xb1885c7aa982; 0x9d89d89d89d9; 0xb35004723c46;
  0x9cc8e160c3fc; 0xb5157cf2d078; 0x9c09c09c09c1; 0xb6d8cb53b0ca; 0x9b4c6f9ef03b; 0xb899f4d8ab63;
  0x9a90e7d95bc7; 0xba58feb2703a; 0x99d722dabde6; 0xbc15edfeed32; 0x991f1a515886; 0xbdd0c7c9a817;
  0x9868c809868d; 0xbf89910c1678; 0x97b425ed097c; 0xc1404eadf383; 0x97012e025c05; 0xc2f5058593d9;
  0x964fda6c0965; 0xc4a7ba58377c; 0x95a02568095b; 0xc65871da59dd; 0x94f2094f2095; 0xc80730b00016;
  0x944580944581; 0xc9b3fb6d0559; 0x939a85c4093a; 0xcb5ed69565af; 0x92f113840498; 0xcd07c69d8702;
  0x924924924925; 0xceaecfea8085; 0x91a2b3c4d5e7; 0xd053f6d26089; 0x90fdbc090fdc; 0xd1f73f9c70c0;
  0x905a38633e07; 0xd398ae817906; 0x8fb823ee08fc; 0xd53847ac00a6; 0x8f1779d9fdc4; 0xd6d60f388e41;
  0x8e78356d1409; 0xd8720935e643; 0x8dda5202376a; 0xda0c39a54804; 0x8d3dcb08d3dd; 0xdba4a47aa996;
  0x8ca29c046515; 0xdd3b4d9cf24b; 0x8c08c08c08c1; 0xded038e633f3; 0x8b70344a139c; 0xe0636a23e2ee;
  0x8ad8f2fba939; 0xe1f4e5170d02; 0x8a42f870566a; 0xe384ad748f0e; 0x89ae4089ae41; 0xe512c6e54998;
  0x891ac73ae982; 0xe69f35065448; 0x888888888889; 0xe829fb693044; 0x87f78087f781; 0xe9b31d93f98e;
  0x8767ab5f34e5; 0xeb3a9f019750; 0x86d905447a35; 0xecc08321eb30; 0x864b8a7de6d2; 0xee44cd59ffab;
  0x85bf37612cef; 0xefc781043579; 0x853408534086; 0xf148a170700a; 0x84a9f9c8084b; 0xf2c831e44116;
  0x842108421085; 0xf446359b1353; 0x839930523fbf; 0xf5c2afc65447; 0x83126e978d50; 0xf73da38d9d4a;
  0x828cbfbeb9a1; 0xf8b7140edbb1; 0x820820820821; 0xfa2f045e7832; 0x81848da8faf1; 0xfba577877d7d;
  0x810204081021; 0xfd1a708bbe11; 0x808080808081; 0xfe8df263f957; 0x800000000000; 0xffff00000000].

(** [LL_tbl[k] = 2^48*log2(1.0+k/2^15)]. *)
Definition LL_tbl : list Z := [
  0x0; 0x2e2a60a00; 0x70cb64ec5; 0x9ef50ce67; 0xcd1e588fd; 0xfb4747e9c; 0x1296fdaf5e; 0x1579811b58;
  0x185bfec2a1; 0x1b3e76a552; 0x1e20e8c380; 0x2103551d43; 0x23e5bbb2b2; 0x26c81c83e4; 0x29aa7790f0;
  0x2c8cccd9ed; 0x2f6f1c5ef2; 0x3251662017; 0x3533aa1d71; 0x3815e8571a; 0x3af820cd26; 0x3dda537fae;
  0x40bc806ec8; 0x439ea79a8c; 0x4680c90310; 0x4962e4a86c; 0x4c44fa8ab6; 0x4f270aaa06; 0x5209150672;
  0x54eb19a013; 0x57cd1876fd; 0x5aaf118b4a; 0x5d9104dd0f; 0x6072f26c64; 0x6354da3960; 0x6636bc441a;
  0x6918988ca8; 0x6bfa6f1322; 0x6edc3fd79f; 0x71be0ada35; 0x749fd01afd; 0x77818f9a0c; 0x7a6349577a;
  0x7d44fd535e; 0x8026ab8dce; 0x83085406e3; 0x85e9f6beb2; 0x88cb93b552; 0x8bad2aeadc; 0x8e8ebc5f65;
  0x9170481305; 0x9451ce05d3; 0x97334e37e5; 0x9a14c8a953; 0x9cf63d5a33; 0x9fd7ac4a9d; 0xa2b07f3458;
  0xa59a78ea6a; 0xa87bd699fb; 0xab5d2e8970; 0xae3e80b8e3; 0xb11fcd2869; 0xb40113d818; 0xb6e254c80a;
  0xb9c38ff853; 0xbca4c5690c; 0xbf85f51a4a; 0xc2671f0c26; 0xc548433eb6; 0xc82961b211; 0xcb0a7a664d;
  0xcdeb8d5b82; 0xd0cc9a91c8; 0xd3ada20933; 0xd68ea3c1dd; 0xd96f9fbbdb; 0xdc5095f744; 0xdf31867430;
  0xe2127132b5; 0xe4f35632ea; 0xe7d43574e6; 0xeab50ef8c1; 0xed95e2be90; 0xf076b0c66c; 0xf35779106a;
  0xf6383b9ca2; 0xf918f86b2a; 0xfbf9af7c1a; 0xfeda60cf88; 0x101bb0c658c; 0x1049bb23e3c;
  0x1077c5259af; 0x10a5cecb7fc; 0x10d3d81593a; 0x1101e103d7f; 0x112fe9964e4; 0x115df1ccf7e;
  0x118bf9a7d64; 0x11ba0126ead; 0x11e8084a371; 0x12160f11bc6; 0x1244157d7c3; 0x12721b8d77f;
  0x12a02141b10; 0x12ce269a28e; 0x12fc2b96e0f; 0x132a3037daa; 0x1358347d177; 0x1386386698c;
  0x13b43bf45ff; 0x13e23f266e9; 0x141041fcc5e; 0x143e4477678; 0x146c469654b; 0x149a48598f0;
  0x14c849c117c; 0x14f64accf08; 0x15244b7d1a9; 0x15524bd1976; 0x15804bca687; 0x15ae4b678f2;
  0x15dc4aa90ce; 0x160a498ee31; 0x16384819134; 0x166646479ec; 0x1694441a870; 0x16c24191cd7;
  0x16df6ca19bd; 0x171e3b6d7aa; 0x174c37d1e44; 0x177a33dab1c; 0x17a82f87e49; 0x17d62ad97e2;
  0x180425cf7fe; 0x182b07f3458; 0x18601aa8c19; 0x188e148c046; 0x18bc0e13b52; 0x18ea073fd52;
  0x1918001065d; 0x1945f88568b; 0x1973f09edf2; 0x19a1e85ccaa; 0x19cfdfbf2c8; 0x19fdd6c6063;
  0x1a2bcd71593; 0x1a59c3c126e; 0x1a87b9b570b; 0x1ab5af4e380; 0x1ae3a48b7e5; 0x1b11996d450;
  0x1b3f8df38d9; 0x1b6d821e595; 0x1b9b75eda9b; 0x1bc96961803; 0x1bf75c79de3; 0x1c254f36c51;
  0x1c534198365; 0x1c81339e336; 0x1caf2548bd9; 0x1cdd1697d67; 0x1d0b078b7f5; 0x1d38f823b9a;
  0x1d66e86086d; 0x1d94d841e86; 0x1dc2c7c7df9; 0x1df0b6f26df; 0x1e1ea5c194e; 0x1e4c943555d;
  0x1e7a824db23; 0x1ea8700aab5; 0x1ed65d6c42b; 0x1f044a7279d; 0x1f32371d51f; 0x1f60236ccca;
  0x1f8e0f60eb3; 0x1fbbfaf9af3; 0x1fe9e63719e; 0x2017d1192cc; 0x2045bb9fe94; 0x2073a5cb50d;
  0x209c06e6212; 0x20cf791026a; 0x20fd622997c; 0x212b07f3458; 0x2159334a8d8; 0x21871b52150;
  0x21b502fe517; 0x21d6a73a78f; 0x2210d144eee; 0x223eb7df52c; 0x226c9e1e713; 0x229a84024bb;
  0x22c23679b4e; 0x22f64eb83a8; 0x2324338a51b; 0x235218012a9; 0x237ffc1cc69; 0x23a2c3b0ea4;
  0x23d13ee805b; 0x24035e9221f; 0x243788faf25; 0x24656b4e735; 0x247ed646bfe; 0x24c12ee3d98;
  0x24ef1025c1a; 0x251cf10c799; 0x25492644d65; 0x2578b1c85ee; 0x25a6919d8f0; 0x25d13ee805b;
  0x26025036716; 0x26296453882; 0x265e0d62b53; 0x268beb701f3; 0x26b9c92265e; 0x26d32f798a9;
  0x271583758eb; 0x2743601673b; 0x27713c5c3b0; 0x279f1846e5f; 0x27ccf3d6761; 0x27e6580aecb;
  0x2828a9e44b3; 0x28568462932; 0x287bdbf5255; 0x28b2384de4a; 0x28d13ee805b; 0x29035e9221f;
  0x29296453882; 0x29699bdfb61; 0x29902a37aab; 0x29c54b864c9; 0x29deabd1083; 0x2a20f9c0bb5;
  0x2a4c7605d61; 0x2a7bdbf5255; 0x2a96056dafc; 0x2ac3daf14ef; 0x2af1b019eca; 0x2b296453882;
  0x2b5d022d80f; 0x2b8fa471cb3; 0x2ba9012e713; 0x2bd6d4901cc; 0x2c04a796cf6; 0x2c327a428a6;
  0x2c61a5e8f4c; 0x2c8e1e891f6; 0x2cbbf023fc2; 0x2ce9c163e6e; 0x2d179248e13; 0x2d4562d2ec6;
  0x2d73330209d; 0x2da102d63b0; 0x2dced24f814].

Definition tbl (t : list Z) (i : Z) : option Z := if 0 <=? i then t !! Z.to_nat i else None.

(** [compute 2^44*log2(input+1)]; [None] is a table index out of range. *)
Definition crush_ln (xin : Z) : option Z :=
  let x := u32 (xin + 1) in
  let '(x, iexpon) :=
    if Z.land x 0x18000 =? 0 then
      let bits := clz (Z.land x 0x1FFFF) - 16 in
      (u32 (Z.shiftl x bits), 15 - bits)
    else (x, 15) in
  let index1 := u32 (Z.shiftl (Z.shiftr x 8) 1) in
  RH ← tbl RH_LH_tbl (index1 - 256);
  LH ← tbl RH_LH_tbl (index1 + 1 - 256);
  let xl64 := Z.shiftr (mul64 x RH) 48 in
  let result := Z.shiftl iexpon (12 + 32) mod two64 in
  let index2 := Z.land xl64 0xff in
  LL ← tbl LL_tbl index2;
  let LH := add64 LH LL in
  let LH := Z.shiftr LH (48 - 12 - 32) in
  Some (add64 result LH).

End CrushLn.
Module CrushLnFacts.
Import CrushLn Binning.

(** The fraction of the logarithm, for a normalised input [y]: the two table
    entries it adds. *)
Definition fraction (y : Z) : option Z :=
  RH ← tbl RH_LH_tbl (Z.shiftl (Z.shiftr y 8) 1 - 256);
  LH ← tbl RH_LH_tbl (Z.shiftl (Z.shiftr y 8) 1 + 1 - 256);
  LL ← tbl LL_tbl (Z.land (Z.shiftr (y * RH) 48) 0xff);
  Some (LH + LL).

(** Every normalised input below [2^16], row by row of the table. *)
Definition row_ok (k : Z) : bool :=
  match tbl RH_LH_tbl (2 * k), tbl RH_LH_tbl (2 * k + 1) with
  | Some RH, Some LH =>
    (0 <=? RH) && (RH <=? 2 ^ 48) &&
    forallb (fun xf =>
      match tbl LL_tbl (Z.land (Z.shiftr (((128 + k) * 256 + xf) * RH) 48) 0xff) with
      | Some LL => (0 <=? LH + LL) && (LH + LL <? 2 ^ 48)
      | None => false
      end) (seqZ 0 256)
  | _, _ => false
  end.

Lemma rows_ok : forallb row_ok (seqZ 0 128) = true.
Proof. vm_compute. reflexivity. Qed.

Lemma forallb_seqZ (P : Z -> bool) a n i : forallb P (seqZ a n) = true -> a <= i < a + n -> P i = true.
Proof. intros H Hi. rewrite forallb_forall in H. apply H, list_elem_of_In, elem_of_seqZ. lia. Qed.

Lemma index_eq y k xf : y = (128 + k) * 256 + xf -> 0 <= xf < 256 ->
  Z.shiftl (Z.shiftr y 8) 1 = 2 * k + 256.
Proof.
  intros -> Hx. rewrite Z.shiftl_mul_pow2, Z.shiftr_div_pow2 by lia. change (2 ^ 8) with 256. change (2 ^ 1) with 2.
  rewrite Z.div_add_l, (Z.div_small xf) by lia. lia.
Qed.

Lemma fraction_bounds y : 2 ^ 15 <= y < 2 ^ 16 ->
  exists RH s, tbl RH_LH_tbl (Z.shiftl (Z.shiftr y 8) 1 - 256) = Some RH /\ 0 <= RH <= 2 ^ 48 /\
    fraction y = Some s /\ 0 <= s < 2 ^ 48.
Proof.
  intros Hy. pose proof (Z.div_mod y 256 ltac:(lia)) as E. pose proof (Z.mod_pos_bound y 256 ltac:(lia)) as Hm.
  set (k := y / 256 - 128) in *. assert (y = (128 + k) * 256 + y mod 256) as Ey by lia.
  assert (0 <= k < 128) as Hk by lia.
  pose proof (forallb_seqZ row_ok 0 128 k rows_ok ltac:(lia)) as Hr. unfold row_ok in Hr.
  pose proof (index_eq y k (y mod 256) Ey Hm) as Ei.
  destruct (tbl RH_LH_tbl (2 * k)) as [RH|] eqn:E1; [|done].
  destruct (tbl RH_LH_tbl (2 * k + 1)) as [LH|] eqn:E2; [|done].
  apply andb_true_iff in Hr as [Hb Hr]. zbool.
  apply (forallb_seqZ _ 0 256 (y mod 256)) in Hr; [|lia]. cbv beta in Hr. rewrite <- Ey in Hr.
  unfold fraction. rewrite Ei.
  replace (2 * k + 256 - 256) with (2 * k) by lia. replace (2 * k + 256 + 1 - 256) with (2 * k + 1) by lia.
  rewrite E1, E2. cbn [mbind option_bind].
  destruct (tbl LL_tbl _) as [LL|] eqn:E3; [|done]. zbool. exists RH, (LH + LL). cbn [mbind option_bind].
  split_and!; try done; lia.
Qed.

Lemma testbit_15 x : 0 <= x < 2 ^ 17 -> Z.land x 0x18000 = 0 <-> x < 2 ^ 15.
Proof.
  intros Hx. split.
  - intros E. apply (f_equal (fun z => Z.shiftr z 15)) in E. rewrite Z.shiftr_land in E.
    change (Z.shiftr 0x18000 15) with (Z.ones 2) in E. rewrite Z.land_ones, Z.shiftr_div_pow2 in E by lia.
    change (Z.shiftr 0 15) with 0 in E. rewrite Z.mod_small in E.
    + pose proof (Z.div_mod x (2 ^ 15) ltac:(lia)). pose proof (Z.mod_pos_bound x (2 ^ 15) ltac:(lia)). lia.
    + split; [apply Z.div_pos; lia|]. apply Z.div_lt_upper_bound; lia.
  - intros Hs. apply Z.bits_inj'. intros i Hi. rewrite Z.land_spec, Z.bits_0.
    destruct (Z.lt_ge_cases i 15).
    + assert (Z.testbit 0x18000 i = false) as ->; [|by rewrite andb_false_r].
      change 0x18000 with (3 * 2 ^ 15). by rewrite Z.mul_pow2_bits_low.
    + replace x with (x mod 2 ^ 15) by (apply Z.mod_small; lia). by rewrite Z.mod_pow2_bits_high by lia.
Qed.

(** The value of [crush_ln] on a normalised input. *)
Lemma ln_tail y e : 2 ^ 15 <= y < 2 ^ 16 -> 0 <= e <= 15 ->
  exists v, (RH ← tbl RH_LH_tbl (u32 (Z.shiftl (Z.shiftr y 8) 1) - 256);
    LH ← tbl RH_LH_tbl (u32 (Z.shiftl (Z.shiftr y 8) 1) + 1 - 256);
    LL ← tbl LL_tbl (Z.land (Z.shiftr (mul64 y RH) 48) 0xff);
    Some (add64 (Z.shiftl e (12 + 32) mod two64) (Z.shiftr (add64 LH LL) (48 - 12 - 32)))) = Some v /\
    e * 2 ^ 44 <= v < (e + 1) * 2 ^ 44.
Proof.
  intros Hy He. destruct (fraction_bounds y Hy) as (RH & s & E1 & HR & Es & Hs).
  assert (Z.shiftl (Z.shiftr y 8) 1 < two32) as Hi.
  { rewrite Z.shiftl_mul_pow2, Z.shiftr_div_pow2 by lia. pose proof (Z.div_lt_upper_bound y (2 ^ 8) 256 ltac:(lia) ltac:(lia)). lia. }
  assert (0 <= Z.shiftl (Z.shiftr y 8) 1) by (apply Z.shiftl_nonneg, Z.shiftr_nonneg; lia).
  rewrite (u32_small (Z.shiftl _ _)) by lia. unfold fraction in Es. rewrite E1 in Es |- *. cbn [mbind option_bind] in Es |- *.
  rewrite mul64_small by nia.
  destruct (tbl RH_LH_tbl _) as [LH|] in Es |- *; [|done]. cbn [mbind option_bind] in Es |- *.
  destruct (tbl LL_tbl _) as [LL|] in Es |- *; [|done]. cbn [mbind option_bind] in Es |- *. injection Es as <-.
  rewrite (add64_small LH LL), Z.shiftl_mul_pow2 by lia. change (12 + 32) with 44. change (48 - 12 - 32) with 4.
  rewrite (Z.mod_small (e * 2 ^ 44)) by lia. rewrite Z.shiftr_div_pow2 by lia.
  assert (0 <= (LH + LL) / 2 ^ 4 < 2 ^ 44) by (split; [apply Z.div_pos; lia|apply Z.div_lt_upper_bound; lia]).
  rewrite add64_small by lia. eexists. split; [done|]. lia.
Qed.

Lemma crush_ln_spec u : 0 <= u <= 0xffff -> exists v, crush_ln u = Some v /\ 0 <= v < 2 ^ 48.
Proof.
  intros Hu. destruct (decide (u = 0xffff)) as [-> | Hne].
  { eexists. split; [vm_compute; reflexivity|lia]. }
  unfold crush_ln. rewrite (u32_small (u + 1)) by lia.
  destruct (Z.land (u + 1) 0x18000 =? 0) eqn:E; zbool.
  - rewrite testbit_15 in E by lia. destruct (log2_bounds (u + 1)) as (Hk & Hlo & Hhi); [lia|].
    assert (Z.log2 (u + 1) < 15) by (apply Z.log2_lt_pow2; lia).
    assert (Z.land (u + 1) 0x1FFFF = u + 1) as ->.
    { change 0x1FFFF with (Z.ones 17). rewrite Z.land_ones, Z.mod_small; lia. }
    unfold clz. replace (31 - Z.log2 (u + 1) - 16) with (15 - Z.log2 (u + 1)) by lia.
    set (k := Z.log2 (u + 1)) in *.
    assert (2 ^ 15 <= (u + 1) * 2 ^ (15 - k) < 2 ^ 16) as Hy.
    { assert (2 ^ k * 2 ^ (15 - k) = 2 ^ 15) by (rewrite <- Z.pow_add_r by lia; f_equal; lia).
      assert (0 < 2 ^ (15 - k)) by (apply Z.pow_pos_nonneg; lia). nia. }
    rewrite (Z.shiftl_mul_pow2 (u + 1)), (u32_small ((u + 1) * _)) by lia.
    replace (15 - (15 - k)) with k by lia.
    destruct (ln_tail _ k Hy ltac:(lia)) as (v & Ev & Hv). exists v. split; [exact Ev|lia].
  - assert (2 ^ 15 <= u + 1) by (rewrite testbit_15 in E by lia; lia).
    destruct (ln_tail (u + 1) 15 ltac:(lia) ltac:(lia)) as (v & Ev & Hv). exists v. split; [exact Ev|lia].
Qed.

End CrushLnFacts.
