(* ===== verification/Crush.v ===== *)
(** CRUSH, src/ceph-15.2.17/src/crush/mapper.c over the structures of
    crush/crush.h: the choice of an item of a bucket, the selection of distinct
    items by [crush_choose_firstn] and [crush_choose_indep], and the
    interpretation of a placement rule.  [None] is an access outside an array or
    through a null pointer, a failed [BUG_ON], or the end of the fuel. *)
From S2P Require Import Prelude Pg CrushLn OSDMap.
Import Bits.

Module Crush.
Import CrushLn.

Definition CRUSH_ITEM_UNDEF : Z := 0x7ffffffe.
Definition CRUSH_ITEM_NONE : Z := 0x7fffffff.
Definition S64_MIN : Z := -9223372036854775808.

(** ** Data *)

(** What the five kinds of bucket add to the common header. *)
Inductive bucket_alg :=
  | CRUSH_BUCKET_UNIFORM
  | CRUSH_BUCKET_LIST (item_weights sum_weights : list Z)
  | CRUSH_BUCKET_TREE (num_nodes : Z) (node_weights : list Z)
  | CRUSH_BUCKET_STRAW (straws : list Z)
  | CRUSH_BUCKET_STRAW2 (item_weights : list Z)
  | CRUSH_BUCKET_UNKNOWN.

(** [struct crush_bucket]; [size] is the length of [items]. *)
Record crush_bucket := {
  id : Z;
  type : Z;
  hash : Z;
  alg : bucket_alg;
  items : list Z
}.
Definition size (b : crush_bucket) : Z := Z.of_nat (length (items b)).

Record crush_choose_arg := { ids : option (list Z); weight_set : option (list (list Z)) }.

Inductive rule_op :=
  | CRUSH_RULE_TAKE | CRUSH_RULE_CHOOSE_FIRSTN | CRUSH_RULE_CHOOSE_INDEP | CRUSH_RULE_EMIT
  | CRUSH_RULE_CHOOSELEAF_FIRSTN | CRUSH_RULE_CHOOSELEAF_INDEP
  | CRUSH_RULE_SET_CHOOSE_TRIES | CRUSH_RULE_SET_CHOOSELEAF_TRIES
  | CRUSH_RULE_SET_CHOOSE_LOCAL_TRIES | CRUSH_RULE_SET_CHOOSE_LOCAL_FALLBACK_TRIES
  | CRUSH_RULE_SET_CHOOSELEAF_VARY_R | CRUSH_RULE_SET_CHOOSELEAF_STABLE
  | CRUSH_RULE_NOOP.

Record crush_rule_step := { op : rule_op; arg1 : Z; arg2 : Z }.
Record crush_rule := {
  mask_ruleset : Z; mask_type : Z; mask_min_size : Z; mask_max_size : Z;
  steps : list crush_rule_step
}.

Record crush_map := {
  buckets : list (option crush_bucket);
  rules : list (option crush_rule);
  max_devices : Z;
  choose_local_tries : Z;
  choose_local_fallback_tries : Z;
  choose_total_tries : Z;
  chooseleaf_descend_once : Z;
  chooseleaf_vary_r : Z;
  chooseleaf_stable : Z
}.
Definition max_buckets (m : crush_map) : Z := Z.of_nat (length (buckets m)).
Definition max_rules (m : crush_map) : Z := Z.of_nat (length (rules m)).

(** The scratch space of a bucket: a random permutation under construction. *)
Record crush_work_bucket := { perm_x : Z; perm_n : Z; perm : list Z }.
Abbreviation crush_work := (gmap Z crush_work_bucket).

Definition at_ {A} (l : list A) (i : Z) : option A := if 0 <=? i then l !! Z.to_nat i else None.

(** [map->buckets[-1-item]], dereferenced. *)
Definition bucket_of (m : crush_map) (item : Z) : option crush_bucket := mjoin (at_ (buckets m) (-1 - item)).

(** The buckets from index [i] on; the memory of the permutations is not
    initialised, and never read before it is written. *)
Fixpoint init_workspace_from (bs : list (option crush_bucket)) (i : Z) : crush_work :=
  match bs with
  | [] => ∅
  | None :: bs => init_workspace_from bs (i + 1)
  | Some b :: bs =>
    <[i := {| perm_x := 0; perm_n := 0; perm := replicate (length (items b)) 0 |}]> (init_workspace_from bs (i + 1))
  end.

Definition crush_init_workspace (m : crush_map) : crush_work := init_workspace_from (buckets m) 0.

(** ** Finding a rule *)

Definition rule_matches (r : crush_rule) (ruleset type size : Z) : bool :=
  (mask_ruleset r =? ruleset) && (mask_type r =? type) &&
  (mask_min_size r <=? size) && (size <=? mask_max_size r).

Fixpoint find_rule_from (rs : list (option crush_rule)) (i : Z) (ruleset type size : Z) : Z :=
  match rs with
  | [] => -1
  | Some r :: rs => if rule_matches r ruleset type size then i else find_rule_from rs (i + 1) ruleset type size
  | None :: rs => find_rule_from rs (i + 1) ruleset type size
  end.

Definition crush_find_rule (m : crush_map) (ruleset type size : Z) : Z :=
  find_rule_from (rules m) 0 ruleset type size.

(** ** Choosing an item of a bucket *)

Definition h3 (b : crush_bucket) (x a c : Z) : Z := crush_hash32_3 (hash b) (u32 x) (u32 a) (u32 c).
Definition h4 (b : crush_bucket) (x a c d : Z) : Z := crush_hash32_4 (hash b) (u32 x) (u32 a) (u32 c) (u32 d).

(** One round of the shuffle: position [p] gets its final entry. *)
Definition perm_step (b : crush_bucket) (x p : Z) (l : list Z) : option (list Z) :=
  if p <? size b - 1 then
    let i := h3 b x (id b) p mod (size b - p) in
    if negb (i =? 0) then
      t ← at_ l (p + i);
      s ← at_ l p;
      Some (<[Z.to_nat p := t]> (<[Z.to_nat (p + i) := s]> l))
    else Some l
  else Some l.

(** [while (work->perm_n <= pr)]. *)
Fixpoint perm_loop (fuel : nat) (b : crush_bucket) (x pr : Z) (w : crush_work_bucket) : option crush_work_bucket :=
  match fuel with
  | O => None
  | S fuel =>
    if perm_n w <=? pr then
      l ← perm_step b x (perm_n w) (perm w);
      perm_loop fuel b x pr {| perm_x := perm_x w; perm_n := perm_n w + 1; perm := l |}
    else Some w
  end.

Definition bucket_perm_choose (b : crush_bucket) (w : crush_work_bucket) (x r : Z)
    : option (Z * crush_work_bucket) :=
  ceph_assert (0 <? size b) ;;
  let pr := u32 r mod size b in
  let fresh := negb (perm_x w =? u32 x) || (perm_n w =? 0) in
  if fresh && (pr =? 0) then
    let s := h3 b x (id b) 0 mod size b in
    item ← at_ (items b) s;
    Some (item, {| perm_x := u32 x; perm_n := 0xffff; perm := <[0%nat := s]> (perm w) |})
  else
    w ← if fresh then Some {| perm_x := u32 x; perm_n := 0; perm := seqZ 0 (size b) |}
        else if perm_n w =? 0xffff then
          s ← at_ (perm w) 0;
          Some {| perm_x := perm_x w; perm_n := 1; perm := <[Z.to_nat s := 0]> (s :: seqZ 1 (size b - 1)) |}
        else Some w;
    w ← perm_loop (S (length (items b))) b x pr w;
    s ← at_ (perm w) pr;
    item ← at_ (items b) s;
    Some (item, w).

(** [for (i = size-1; i >= 0; i--)], with [n = i + 1] left. *)
Fixpoint list_loop (n : nat) (b : crush_bucket) (iw sw : list Z) (x r : Z) : option Z :=
  match n with
  | O => at_ (items b) 0
  | S i =>
    item ← items b !! i;
    sum ← sw !! i;
    weight ← iw !! i;
    let w := Z.land (h4 b x item r (id b)) 0xffff in
    let w := Z.shiftr (mul64 w sum) 16 in
    if w <? weight then Some item else list_loop i b iw sw x r
  end.

Fixpoint height (fuel : nat) (n : Z) : option Z :=
  match fuel with
  | O => None
  | S fuel => if Z.land n 1 =? 0 then h ← height fuel (Z.shiftr n 1); Some (h + 1) else Some 0
  end.
Definition left (x : Z) : option Z := h ← height 32 x; Some (x - Z.shiftl 1 (h - 1)).
Definition right (x : Z) : option Z := h ← height 32 x; Some (x + Z.shiftl 1 (h - 1)).
Definition terminal (x : Z) : bool := negb (Z.land x 1 =? 0).

Fixpoint tree_loop (fuel : nat) (b : crush_bucket) (nw : list Z) (x r n : Z) : option Z :=
  match fuel with
  | O => None
  | S fuel =>
    if terminal n then Some n
    else
      w ← at_ nw n;
      let t := Z.shiftr (mul64 (h4 b x n r (id b)) w) 32 in
      l ← left n;
      lw ← at_ nw l;
      if t <? lw then tree_loop fuel b nw x r l
      else rt ← right n; tree_loop fuel b nw x r rt
  end.

Definition bucket_tree_choose (b : crush_bucket) (num_nodes : Z) (nw : list Z) (x r : Z) : option Z :=
  n ← tree_loop 32 b nw x r (Z.shiftr num_nodes 1);
  at_ (items b) (Z.shiftr n 1).

(** The scan for the highest draw: [i == 0 || draw > high_draw]. *)
Fixpoint high_loop (draws : list Z) (i high high_draw : Z) : Z :=
  match draws with
  | [] => high
  | d :: draws =>
    if (i =? 0) || (high_draw <? d) then high_loop draws (i + 1) i d
    else high_loop draws (i + 1) high high_draw
  end.

Definition straw_draw (b : crush_bucket) (x r item straw : Z) : Z :=
  mul64 (Z.land (h3 b x item r) 0xffff) straw.

Definition bucket_straw_choose (b : crush_bucket) (straws : list Z) (x r : Z) : option Z :=
  ceph_assert (length (items b) <=? length straws)%nat ;;
  at_ (items b) (high_loop (zip_with (straw_draw b x r) (items b) straws) 0 0 0).

Definition get_choose_arg_weights (iw : list Z) (arg : option crush_choose_arg) (position : Z) : option (list Z) :=
  match arg with
  | Some {| weight_set := Some ws |} =>
    let positions := Z.of_nat (length ws) in
    at_ ws (if positions <=? position then positions - 1 else position)
  | _ => Some iw
  end.

Definition get_choose_arg_ids (b : crush_bucket) (arg : option crush_choose_arg) : list Z :=
  match arg with
  | Some {| ids := Some l |} => l
  | _ => items b
  end.

(** [div64_s64] truncates; [weight] is passed as an [int]. *)
Definition generate_exponential_distribution (b : crush_bucket) (x y z weight : Z) : option Z :=
  let u := Z.land (h3 b x y z) 0xffff in
  ln ← crush_ln u;
  Some (Z.quot (ln - 0x1000000000000) (i32 weight)).

Definition straw2_draw (b : crush_bucket) (x r id weight : Z) : option Z :=
  if negb (weight =? 0) then generate_exponential_distribution b x id r weight else Some S64_MIN.

Definition bucket_straw2_choose (b : crush_bucket) (iw : list Z) (x r : Z)
    (arg : option crush_choose_arg) (position : Z) : option Z :=
  weights ← get_choose_arg_weights iw arg position;
  let l := get_choose_arg_ids b arg in
  ceph_assert ((length (items b) <=? length weights) && (length (items b) <=? length l))%nat ;;
  draws ← mapM (fun '(i, w) => straw2_draw b x r i w) (take (length (items b)) (zip l weights));
  at_ (items b) (high_loop draws 0 0 0).

Definition crush_bucket_choose (b : crush_bucket) (w : crush_work_bucket) (x r : Z)
    (arg : option crush_choose_arg) (position : Z) : option (Z * crush_work_bucket) :=
  ceph_assert (negb (size b =? 0)) ;;
  match alg b with
  | CRUSH_BUCKET_UNIFORM => bucket_perm_choose b w x r
  | CRUSH_BUCKET_LIST iw sw => item ← list_loop (length (items b)) b iw sw x r; Some (item, w)
  | CRUSH_BUCKET_TREE nn nw => item ← bucket_tree_choose b nn nw x r; Some (item, w)
  | CRUSH_BUCKET_STRAW st => item ← bucket_straw_choose b st x r; Some (item, w)
  | CRUSH_BUCKET_STRAW2 iw => item ← bucket_straw2_choose b iw x r arg position; Some (item, w)
  | CRUSH_BUCKET_UNKNOWN => item ← at_ (items b) 0; Some (item, w)
  end.

Definition is_out (weight : list Z) (item x : Z) : option bool :=
  if Z.of_nat (length weight) <=? item then Some true
  else
    w ← at_ weight item;
    if 0x10000 <=? w then Some false
    else if w =? 0 then Some true
    else if Z.land (crush_hash32_2 CRUSH_HASH_RJENKINS1 (u32 x) (u32 item)) 0xffff <? w then Some false
    else Some true.

(** ** Choosing distinct items, depth first *)

Section Choose.
Context (m : crush_map) (weight : list Z) (choose_args : option (list crush_choose_arg)) (x : Z).

Definition arg_of (b : crush_bucket) : option (option crush_choose_arg) :=
  match choose_args with
  | Some args => Some <$> at_ args (-1 - id b)
  | None => Some None
  end.

(** The choice of an item, by permutation when the local retries are used up. *)
Definition choose_item (by_perm : bool) (b : crush_bucket) (work : crush_work) (r position : Z)
    : option (Z * crush_work) :=
  w ← work !! (-1 - id b);
  '(item, w) ← if by_perm then bucket_perm_choose b w x r
               else arg ← arg_of b; crush_bucket_choose b w x r arg position;
  Some (item, <[-1 - id b := w]> work).

Definition item_type (item : Z) : option Z :=
  if item <? 0 then type <$> bucket_of m item else Some 0.

(** The parameters a call of [crush_choose_firstn] does not change. *)
Record firstn_args := {
  f_type : Z;
  tries : Z;
  recurse_tries : Z;
  local_retries : Z;
  local_fallback_retries : Z;
  recurse_to_leaf : bool;
  vary_r : Z;
  stable : bool;
  parent_r : Z
}.

(** The recursive call: bucket, parameters, [numrep], [out] up to [outpos],
    [out_size]; it returns [out] up to the new [outpos]. *)
Definition firstn_call := crush_bucket -> firstn_args -> Z -> list Z -> Z -> crush_work -> option (list Z * crush_work).

Section Firstn.
Context (rec : firstn_call) (a : firstn_args).

(** What one descent for replica [rep] gives: an item and its leaf, or
    [skip_rep]. *)
Inductive attempt := Got (item leaf : Z) | Skip.

(** The leaf of a chosen item: [Some None] is a reject. *)
Definition choose_leaf (item r count : Z) (out2 : list Z) (work : crush_work) : option (option Z * crush_work) :=
  if negb (recurse_to_leaf a) then Some (Some 0, work)
  else if item <? 0 then
    let sub_r := if negb (vary_r a =? 0) then Z.shiftr r (vary_r a - 1) else 0 in
    let outpos := Z.of_nat (length out2) in
    b ← bucket_of m item;
    '(out2', work) ← rec b {| f_type := 0; tries := recurse_tries a; recurse_tries := 0;
        local_retries := local_retries a; local_fallback_retries := local_fallback_retries a;
        recurse_to_leaf := false; vary_r := vary_r a; stable := stable a; parent_r := sub_r |}
      (if stable a then 1 else outpos + 1) out2 count work;
    if Z.of_nat (length out2') <=? outpos then Some (None, work)
    else leaf ← out2' !! length out2; Some (Some leaf, work)
  else Some (Some item, work).

(** The label [reject]: [again] restarts the inner loop in a bucket. *)
Definition rejected (again : crush_bucket -> Z -> Z -> crush_work -> option (attempt * crush_work))
    (bucket b : crush_bucket) (ftotal flocal : Z) (collide : bool) (work : crush_work)
    : option (attempt * crush_work) :=
  let ftotal := u32 (ftotal + 1) in
  let flocal := u32 (flocal + 1) in
  if collide && (flocal <=? local_retries a) then again b ftotal flocal work
  else if (0 <? local_fallback_retries a) && (flocal <=? u32 (size b + local_fallback_retries a)) then
    again b ftotal flocal work
  else if ftotal <? tries a then again bucket ftotal 0 work
  else Some (Skip, work).

(** The two nested [do] loops for one replica.  [out] and [out2] hold the
    [outpos] items and leaves placed so far. *)
Fixpoint descend (fuel : nat) (bucket b : crush_bucket) (rep count ftotal flocal : Z)
    (out out2 : list Z) (work : crush_work) : option (attempt * crush_work) :=
  match fuel with
  | O => None
  | S fuel =>
    let outpos := Z.of_nat (length out) in
    let r := i32 (rep + parent_r a + ftotal) in
    let rejected collide work := rejected
      (fun b ftotal flocal work => descend fuel bucket b rep count ftotal flocal out out2 work)
      bucket b ftotal flocal collide work in
    if size b =? 0 then rejected false work
    else
      let by_perm := (0 <? local_fallback_retries a) && (Z.shiftr (size b) 1 <=? flocal) &&
                     (local_fallback_retries a <? flocal) in
      '(item, work) ← choose_item by_perm b work r outpos;
      if max_devices m <=? item then Some (Skip, work)
      else
        itemtype ← item_type item;
        if negb (itemtype =? f_type a) then
          if (0 <=? item) || (max_buckets m <=? -1 - item) then Some (Skip, work)
          else
            b ← bucket_of m item;
            descend fuel bucket b rep count ftotal flocal out out2 work
        else if bool_decide (item ∈ out) then rejected true work
        else
          '(leaf, work) ← choose_leaf item r count out2 work;
          match leaf with
          | None => rejected false work
          | Some leaf =>
            reject ← if itemtype =? 0 then is_out weight item x else Some false;
            if (reject : bool) then rejected false work else Some (Got item leaf, work)
          end
  end.

(** [for (rep = ..; rep < numrep && count > 0; rep++)], [n] replicas left. *)
Fixpoint firstn_loop (fuel n : nat) (bucket : crush_bucket) (rep count : Z) (out out2 : list Z)
    (work : crush_work) : option (list Z * list Z * crush_work) :=
  match n with
  | O => Some (out, out2, work)
  | S n =>
    if count <=? 0 then Some (out, out2, work)
    else
      '(got, work) ← descend fuel bucket bucket rep count 0 0 out out2 work;
      match got with
      | Got item leaf =>
        firstn_loop fuel n bucket (rep + 1) (count - 1) (out ++ [item])
          (if recurse_to_leaf a then out2 ++ [leaf] else out2) work
      | Skip => firstn_loop fuel n bucket (rep + 1) count out out2 work
      end
  end.
End Firstn.

(** A call with [recurse_to_leaf = 0] makes no recursive call. *)
Definition choose_firstn_leaf (fuel : nat) : firstn_call := fun bucket a numrep out out_size work =>
  let rep := if stable a then 0 else Z.of_nat (length out) in
  '(out, _, work) ← firstn_loop (fun _ _ _ _ _ _ => None) a fuel (Z.to_nat (numrep - rep)) bucket rep
                      out_size out [] work;
  Some (out, work).

Definition crush_choose_firstn (fuel : nat) (bucket : crush_bucket) (a : firstn_args) (numrep : Z)
    (out : list Z) (out_size : Z) (out2 : list Z) (work : crush_work) : option (list Z * list Z * crush_work) :=
  let rep := if stable a then 0 else Z.of_nat (length out) in
  firstn_loop (choose_firstn_leaf fuel) a fuel (Z.to_nat (numrep - rep)) bucket rep out_size out out2 work.

(** ** Choosing distinct items, by position *)

Record indep_args := {
  i_numrep : Z;
  i_type : Z;
  i_tries : Z;
  i_recurse_tries : Z;
  i_recurse_to_leaf : bool;
  i_parent_r : Z
}.

(** Bucket, parameters, the array, [outpos], [left]. *)
Definition indep_call := crush_bucket -> indep_args -> list Z -> nat -> nat -> crush_work ->
  option (list Z * crush_work).

Section Indep.
Context (rec : indep_call) (a : indep_args) (outpos left : nat).

Definition slots : list nat := seq outpos left.

Definition set_slot (rep : nat) (v : Z) (out2 : option (list Z)) : option (list Z) :=
  (fun o => <[rep := v]> o) <$> out2.

(** The [for (;;)] loop for position [rep] on pass [ftotal]; the counter
    [left] of the code is the number of slots still undefined. *)
Fixpoint place (fuel : nat) (b : crush_bucket) (rep : nat) (ftotal : Z) (out : list Z)
    (out2 : option (list Z)) (work : crush_work) : option (list Z * option (list Z) * crush_work) :=
  match fuel with
  | O => None
  | S fuel =>
    let r := Z.of_nat rep + i_parent_r a in
    let uniform := match alg b with CRUSH_BUCKET_UNIFORM => true | _ => false end in
    let r := i32 (if uniform && (size b mod i_numrep a =? 0)
                  then r + (i_numrep a + 1) * ftotal else r + i_numrep a * ftotal) in
    if size b =? 0 then Some (out, out2, work)
    else
      '(item, work) ← choose_item false b work r (Z.of_nat outpos);
      let none := Some (<[rep := CRUSH_ITEM_NONE]> out, set_slot rep CRUSH_ITEM_NONE out2, work) in
      if max_devices m <=? item then none
      else
        itemtype ← item_type item;
        if negb (itemtype =? i_type a) then
          if (0 <=? item) || (max_buckets m <=? -1 - item) then none
          else b ← bucket_of m item; place fuel b rep ftotal out out2 work
        else if existsb (fun i => bool_decide (out !! i = Some item)) slots then Some (out, out2, work)
        else
          '(ok, out2, work) ←
            if negb (i_recurse_to_leaf a) then Some (true, out2, work)
            else if item <? 0 then
              c ← bucket_of m item;
              o2 ← out2;
              '(o2, work) ← rec c {| i_numrep := i_numrep a; i_type := 0; i_tries := i_recurse_tries a;
                  i_recurse_tries := 0; i_recurse_to_leaf := false; i_parent_r := r |} o2 rep 1%nat work;
              Some (negb (bool_decide (o2 !! rep = Some CRUSH_ITEM_NONE)), Some o2, work)
            else Some (true, set_slot rep item out2, work);
          if negb ok then Some (out, out2, work)
          else
            out_ ← if itemtype =? 0 then is_out weight item x else Some false;
            if (out_ : bool) then Some (out, out2, work) else Some (<[rep := item]> out, out2, work)
  end.

(** One pass over the positions. *)
Fixpoint indep_pass (fuel : nat) (reps : list nat) (bucket : crush_bucket) (ftotal : Z) (out : list Z)
    (out2 : option (list Z)) (work : crush_work) : option (list Z * option (list Z) * crush_work) :=
  match reps with
  | [] => Some (out, out2, work)
  | rep :: reps =>
    if negb (bool_decide (out !! rep = Some CRUSH_ITEM_UNDEF)) then indep_pass fuel reps bucket ftotal out out2 work
    else
      '(out, out2, work) ← place fuel bucket rep ftotal out out2 work;
      indep_pass fuel reps bucket ftotal out out2 work
  end.

Definition undefined (out : list Z) : bool :=
  existsb (fun i => bool_decide (out !! i = Some CRUSH_ITEM_UNDEF)) slots.

(** [for (ftotal = 0; left > 0 && ftotal < tries; ftotal++)]. *)
Fixpoint indep_loop (fuel n : nat) (bucket : crush_bucket) (ftotal : Z) (out : list Z)
    (out2 : option (list Z)) (work : crush_work) : option (list Z * option (list Z) * crush_work) :=
  match n with
  | O => Some (out, out2, work)
  | S n =>
    if negb (undefined out) then Some (out, out2, work)
    else
      '(out, out2, work) ← indep_pass fuel slots bucket ftotal out out2 work;
      indep_loop fuel n bucket (ftotal + 1) out out2 work
  end.

Definition fill (v : Z) (out : list Z) : list Z := foldl (fun o i => <[i := v]> o) out slots.

Definition finish (out : list Z) : list Z :=
  foldl (fun o i => if bool_decide (o !! i = Some CRUSH_ITEM_UNDEF) then <[i := CRUSH_ITEM_NONE]> o else o)
    out slots.

Definition choose_indep (fuel : nat) (bucket : crush_bucket) (out : list Z) (out2 : option (list Z))
    (work : crush_work) : option (list Z * option (list Z) * crush_work) :=
  match indep_loop fuel (Z.to_nat (i_tries a)) bucket 0
          (fill CRUSH_ITEM_UNDEF out) (fill CRUSH_ITEM_UNDEF <$> out2) work with
  | Some (out, out2, work) => Some (finish out, finish <$> out2, work)
  | None => None
  end.
End Indep.

Definition choose_indep_leaf (fuel : nat) : indep_call := fun bucket a out outpos left work =>
  '(out, _, work) ← choose_indep (fun _ _ _ _ _ _ => None) a outpos left fuel bucket out None work;
  Some (out, work).

Definition crush_choose_indep (fuel : nat) (bucket : crush_bucket) (a : indep_args) (left : nat)
    (work : crush_work) : option (list Z * list Z * crush_work) :=
  '(out, out2, work) ← choose_indep (choose_indep_leaf fuel) a 0 left fuel bucket
    (replicate left 0) (Some (replicate left 0)) work;
  Some (out, default [] out2, work).

(** ** Interpreting a rule *)

(** The locals of [crush_do_rule]: the working vector [w], the result and the
    tunables a step may override. *)
Record rule_state := {
  w : list Z;
  result : list Z;
  choose_tries : Z;
  choose_leaf_tries : Z;
  choose_local_retries : Z;
  choose_local_fallback_retries : Z;
  r_vary_r : Z;
  r_stable : Z;
  r_work : crush_work
}.

Definition set_w (l : list Z) (wk : crush_work) (s : rule_state) : rule_state := {|
  w := l; result := result s; choose_tries := choose_tries s; choose_leaf_tries := choose_leaf_tries s;
  choose_local_retries := choose_local_retries s;
  choose_local_fallback_retries := choose_local_fallback_retries s;
  r_vary_r := r_vary_r s; r_stable := r_stable s; r_work := wk |}.

(** [CRUSH_RULE_TAKE]: a device or an existing bucket. *)
Definition take_ok (arg : Z) : bool :=
  ((0 <=? arg) && (arg <? max_devices m)) ||
  ((0 <=? -1 - arg) && (-1 - arg <? max_buckets m) &&
   match bucket_of m arg with Some _ => true | None => false end).

(** The loop over the working vector of a choose step: [o] and [c] are the
    items and the leaves chosen so far. *)
Fixpoint choose_each (fuel : nat) (firstn leaf : bool) (arg1 arg2 result_max : Z) (s : rule_state)
    (ws o c : list Z) (work : crush_work) : option (list Z * list Z * crush_work) :=
  match ws with
  | [] => Some (o, c, work)
  | wi :: ws =>
    let osize := Z.of_nat (length o) in
    let numrep := if arg1 <=? 0 then arg1 + result_max else arg1 in
    if numrep <=? 0 then choose_each fuel firstn leaf arg1 arg2 result_max s ws o c work
    else if (-1 - wi <? 0) || (max_buckets m <=? -1 - wi) then
      choose_each fuel firstn leaf arg1 arg2 result_max s ws o c work
    else
      b ← bucket_of m wi;
      '(out, out2, work) ←
        if firstn then
          let recurse_tries :=
            if negb (choose_leaf_tries s =? 0) then choose_leaf_tries s
            else if negb (chooseleaf_descend_once m =? 0) then 1
            else choose_tries s in
          crush_choose_firstn fuel b {| f_type := arg2; tries := choose_tries s; recurse_tries := recurse_tries;
              local_retries := choose_local_retries s;
              local_fallback_retries := choose_local_fallback_retries s;
              recurse_to_leaf := leaf; vary_r := r_vary_r s; stable := negb (r_stable s =? 0); parent_r := 0 |}
            numrep [] (result_max - osize) [] work
        else
          let out_size := if numrep <? result_max - osize then numrep else result_max - osize in
          crush_choose_indep fuel b {| i_numrep := numrep; i_type := arg2; i_tries := choose_tries s;
              i_recurse_tries := if negb (choose_leaf_tries s =? 0) then choose_leaf_tries s else 1;
              i_recurse_to_leaf := leaf; i_parent_r := 0 |} (Z.to_nat out_size) work;
      choose_each fuel firstn leaf arg1 arg2 result_max s ws (o ++ out) (c ++ out2) work
  end.

Definition choose_step (fuel : nat) (firstn leaf : bool) (arg1 arg2 result_max : Z) (s : rule_state)
    : option rule_state :=
  match w s with
  | [] => Some s
  | _ =>
    '(o, c, work) ← choose_each fuel firstn leaf arg1 arg2 result_max s (w s) [] [] (r_work s);
    Some (set_w (if leaf then c else o) work s)
  end.

Definition do_step (fuel : nat) (result_max : Z) (s : rule_state) (st : crush_rule_step) : option rule_state :=
  match op st with
  | CRUSH_RULE_TAKE => Some (if take_ok (arg1 st) then set_w [arg1 st] (r_work s) s else s)
  | CRUSH_RULE_SET_CHOOSE_TRIES => Some (if 0 <? arg1 st then {|
      w := w s; result := result s; choose_tries := arg1 st; choose_leaf_tries := choose_leaf_tries s;
      choose_local_retries := choose_local_retries s;
      choose_local_fallback_retries := choose_local_fallback_retries s;
      r_vary_r := r_vary_r s; r_stable := r_stable s; r_work := r_work s |} else s)
  | CRUSH_RULE_SET_CHOOSELEAF_TRIES => Some (if 0 <? arg1 st then {|
      w := w s; result := result s; choose_tries := choose_tries s; choose_leaf_tries := arg1 st;
      choose_local_retries := choose_local_retries s;
      choose_local_fallback_retries := choose_local_fallback_retries s;
      r_vary_r := r_vary_r s; r_stable := r_stable s; r_work := r_work s |} else s)
  | CRUSH_RULE_SET_CHOOSE_LOCAL_TRIES => Some (if 0 <=? arg1 st then {|
      w := w s; result := result s; choose_tries := choose_tries s; choose_leaf_tries := choose_leaf_tries s;
      choose_local_retries := arg1 st;
      choose_local_fallback_retries := choose_local_fallback_retries s;
      r_vary_r := r_vary_r s; r_stable := r_stable s; r_work := r_work s |} else s)
  | CRUSH_RULE_SET_CHOOSE_LOCAL_FALLBACK_TRIES => Some (if 0 <=? arg1 st then {|
      w := w s; result := result s; choose_tries := choose_tries s; choose_leaf_tries := choose_leaf_tries s;
      choose_local_retries := choose_local_retries s;
      choose_local_fallback_retries := arg1 st;
      r_vary_r := r_vary_r s; r_stable := r_stable s; r_work := r_work s |} else s)
  | CRUSH_RULE_SET_CHOOSELEAF_VARY_R => Some (if 0 <=? arg1 st then {|
      w := w s; result := result s; choose_tries := choose_tries s; choose_leaf_tries := choose_leaf_tries s;
      choose_local_retries := choose_local_retries s;
      choose_local_fallback_retries := choose_local_fallback_retries s;
      r_vary_r := arg1 st; r_stable := r_stable s; r_work := r_work s |} else s)
  | CRUSH_RULE_SET_CHOOSELEAF_STABLE => Some (if 0 <=? arg1 st then {|
      w := w s; result := result s; choose_tries := choose_tries s; choose_leaf_tries := choose_leaf_tries s;
      choose_local_retries := choose_local_retries s;
      choose_local_fallback_retries := choose_local_fallback_retries s;
      r_vary_r := r_vary_r s; r_stable := arg1 st; r_work := r_work s |} else s)
  | CRUSH_RULE_CHOOSE_FIRSTN => choose_step fuel true false (arg1 st) (arg2 st) result_max s
  | CRUSH_RULE_CHOOSELEAF_FIRSTN => choose_step fuel true true (arg1 st) (arg2 st) result_max s
  | CRUSH_RULE_CHOOSE_INDEP => choose_step fuel false false (arg1 st) (arg2 st) result_max s
  | CRUSH_RULE_CHOOSELEAF_INDEP => choose_step fuel false true (arg1 st) (arg2 st) result_max s
  | CRUSH_RULE_EMIT => Some {|
      w := []; result := result s ++ take (Z.to_nat (result_max - Z.of_nat (length (result s)))) (w s);
      choose_tries := choose_tries s; choose_leaf_tries := choose_leaf_tries s;
      choose_local_retries := choose_local_retries s;
      choose_local_fallback_retries := choose_local_fallback_retries s;
      r_vary_r := r_vary_r s; r_stable := r_stable s; r_work := r_work s |}
  | CRUSH_RULE_NOOP => Some s
  end.

Fixpoint do_steps (fuel : nat) (result_max : Z) (s : rule_state) (l : list crush_rule_step) : option rule_state :=
  match l with
  | [] => Some s
  | st :: l => s ← do_step fuel result_max s st; do_steps fuel result_max s l
  end.

Definition crush_do_rule (fuel : nat) (ruleno result_max : Z) (work : crush_work) : option (list Z) :=
  if max_rules m <=? u32 ruleno then Some []
  else
    rule ← mjoin (at_ (rules m) ruleno);
    s ← do_steps fuel result_max {| w := []; result := [];
      choose_tries := choose_total_tries m + 1; choose_leaf_tries := 0;
      choose_local_retries := choose_local_tries m;
      choose_local_fallback_retries := choose_local_fallback_tries m;
      r_vary_r := chooseleaf_vary_r m; r_stable := chooseleaf_stable m; r_work := work |} (steps rule);
    Some (result s).

End Choose.

End Crush.
