(* ===== verification/CrushChoice.v ===== *)
(** The choice of an item of a CRUSH bucket: the cached permutation of uniform
    buckets, the straws of straw2 buckets, and that every kind of well-formed
    bucket returns one of its items. *)
From S2P Require Import Prelude Pg CrushLn OSDMap Crush.
Import Bits Binning.

(** ** Random permutations *)
Module Shuffle.
Import Crush.

Lemma at_lookup {A} (l : list A) i : 0 <= i -> at_ l i = l !! Z.to_nat i.
Proof. intros. unfold at_. by rewrite (proj2 (Z.leb_le 0 i)). Qed.

Lemma swap_perm {A} (l : list A) i j a b : (i < j)%nat -> l !! i = Some a -> l !! j = Some b ->
  <[i := b]> (<[j := a]> l) ≡ₚ l.
Proof.
  intros Hij Hi Hj. assert (j < length l)%nat by by eapply lookup_lt_Some.
  assert (drop (S i) l !! (j - S i)%nat = Some b) as Hd by (rewrite lookup_drop; rewrite <- Hj; f_equal; lia).
  pose proof (take_drop_middle l i a Hi) as E1. pose proof (take_drop_middle _ _ b Hd) as E2.
  set (A1 := take i l) in *. set (B1 := take _ (drop (S i) l)) in *. set (C1 := drop _ (drop (S i) l)) in *.
  assert (length A1 = i) by (unfold A1; rewrite length_take; lia).
  assert (length B1 = (j - S i)%nat) by (unfold B1; rewrite length_take, length_drop; lia).
  clearbody A1 B1 C1. rewrite <- E2 in E1. subst l i.
  replace j with (length A1 + S (length B1 + 0))%nat by lia.
  rewrite (insert_app_r A1). simpl. rewrite (insert_app_r B1). simpl.
  rewrite <- (Nat.add_0_r (length A1)), (insert_app_r A1). simpl.
  apply Permutation_app_head. rewrite <- !Permutation_middle. apply Permutation_swap.
Qed.

Section Shuffle.
Context (b : crush_bucket) (x : Z).

(** The first [n] rounds of the shuffle of the positions of the bucket. *)
Fixpoint shuffle (n : nat) : option (list Z) :=
  match n with
  | O => Some (seqZ 0 (size b))
  | S n => l ← shuffle n; perm_step b x (Z.of_nat n) l
  end.

Lemma perm_step_ok p l : 0 <= p < size b -> length l = length (items b) ->
  exists l', perm_step b x p l = Some l' /\ l' ≡ₚ l /\ length l' = length l /\
    forall i, (Z.of_nat i < p) -> l' !! i = l !! i.
Proof.
  intros Hp Hl. unfold perm_step. destruct (p <? size b - 1) eqn:E; zbool; [|by exists l].
  set (i := h3 b x (id b) p mod (size b - p)).
  assert (0 <= i < size b - p) as Hi by (apply Z.mod_pos_bound; lia).
  destruct (i =? 0) eqn:E0; zbool; simpl; [by exists l|]. unfold size in *.
  rewrite !at_lookup by lia.
  destruct (lookup_lt_is_Some_2 l (Z.to_nat (p + i))) as [t Ht]; [lia|].
  destruct (lookup_lt_is_Some_2 l (Z.to_nat p)) as [s Hs]; [lia|].
  rewrite Ht, Hs. simpl. eexists. split; [done|]. split; [apply swap_perm; [lia|done..]|].
  split; [by rewrite !length_insert|]. intros j Hj. by rewrite !list_lookup_insert_ne by lia.
Qed.

Lemma shuffle_ok n : (n <= length (items b))%nat ->
  exists l, shuffle n = Some l /\ l ≡ₚ seqZ 0 (size b) /\ length l = length (items b).
Proof.
  induction n as [|n IH]; intros Hn; simpl.
  { eexists. split; [done|]. split; [done|]. rewrite length_seqZ. unfold size. lia. }
  destruct IH as (l & -> & Hp & Hl); [lia|]. simpl.
  destruct (perm_step_ok (Z.of_nat n) l) as (l' & -> & Hp' & Hl' & _); [unfold size; lia|done|].
  exists l'. split; [done|]. split; [by rewrite Hp'|congruence].
Qed.

(** Later rounds keep the positions already fixed. *)
Lemma shuffle_prefix n k l l' i : (n + k <= length (items b))%nat -> (i < n)%nat ->
  shuffle n = Some l -> shuffle (n + k) = Some l' -> l' !! i = l !! i.
Proof.
  intros Hn Hi Hl. revert l'. induction k as [|k IH]; intros l'.
  { rewrite Nat.add_0_r, Hl. by intros [= <-]. }
  rewrite Nat.add_succ_r. simpl. destruct (shuffle_ok (n + k)) as (l1 & E1 & _ & Hl1); [lia|].
  rewrite E1. simpl. destruct (perm_step_ok (Z.of_nat (n + k)) l1) as (l2 & -> & _ & _ & Hpre);
    [unfold size; lia|done|]. intros [= <-]. rewrite Hpre by lia. apply IH; [lia|done].
Qed.
End Shuffle.

Lemma h3_u32 b x a c : h3 b (u32 x) a c = h3 b x a c.
Proof. unfold h3, u32. by rewrite Zmod_mod. Qed.

Lemma perm_step_u32 b x p l : perm_step b (u32 x) p l = perm_step b x p l.
Proof. unfold perm_step. by rewrite h3_u32. Qed.

Lemma shuffle_u32 b x n : shuffle b (u32 x) n = shuffle b x n.
Proof. induction n as [|n IH]; [done|]. simpl. rewrite IH. destruct (shuffle b x n); [|done]. simpl. apply perm_step_u32. Qed.

(** The scratch space of a bucket holds nothing, the first entry only (the
    [0xffff] of the code), or some rounds of the shuffle for [perm_x]. *)
Definition work_ok (b : crush_bucket) (w : crush_work_bucket) : Prop :=
  length (perm w) = length (items b) /\ perm_x w = u32 (perm_x w) /\
  (perm_n w = 0 \/
   (perm_n w = 0xffff /\ perm w !! 0%nat = Some (h3 b (perm_x w) (id b) 0 mod size b)) \/
   (1 <= perm_n w <= size b /\ shuffle b (perm_x w) (Z.to_nat (perm_n w)) = Some (perm w))).

(** The clean-up after the [r = 0] shortcut rebuilds the first round. *)
Lemma cleanup_first b x : 0 < size b ->
  let s := h3 b x (id b) 0 mod size b in
  shuffle b x 1 = Some (<[Z.to_nat s := 0]> (s :: seqZ 1 (size b - 1))).
Proof.
  intros Hs s. assert (0 <= s < size b) as Hr by (apply Z.mod_pos_bound; lia).
  simpl. unfold perm_step. replace (size b - Z.of_nat 0) with (size b) by lia. fold s.
  rewrite seqZ_cons by lia. change (Z.succ 0) with 1. replace (Z.pred (size b)) with (size b - 1) by lia.
  destruct (Z.of_nat 0 <? size b - 1) eqn:E; zbool.
  - change (Z.of_nat 0) with 0. fold s. destruct (s =? 0) eqn:E0; zbool; [by rewrite E0|].
    simpl. rewrite !at_lookup by lia. replace (0 + s) with s by lia.
    assert (Z.to_nat s = S (Z.to_nat (s - 1))) as -> by lia. simpl. change (Z.to_nat 0) with 0%nat.
    rewrite lookup_seqZ_lt by lia. simpl. do 2 f_equal. lia.
  - replace s with 0 by lia. done.
Qed.

Lemma perm_loop_ok b x pr : forall fuel n l,
  0 <= pr < size b -> 0 <= n <= size b -> pr < n + Z.of_nat fuel - 1 \/ pr < n -> (0 < fuel)%nat ->
  shuffle b x (Z.to_nat n) = Some l ->
  exists n' l', perm_loop fuel b x pr {| perm_x := u32 x; perm_n := n; perm := l |} =
    Some {| perm_x := u32 x; perm_n := n'; perm := l' |} /\
    pr < n' <= size b /\ shuffle b x (Z.to_nat n') = Some l'.
Proof.
  induction fuel as [|fuel IH]; intros n l Hpr Hn Hf H0 Hs; [lia|]. simpl.
  destruct (n <=? pr) eqn:E; zbool; [|exists n, l; split; [done|]; split; [lia|done]].
  destruct (shuffle_ok b x (Z.to_nat n)) as (l1 & E1 & _ & Hl1); [unfold size in *; lia|]. simplify_eq.
  destruct (perm_step_ok b x n l) as (l2 & E2 & _); [lia|done|]. rewrite E2. simpl.
  destruct fuel as [|fuel]; [lia|].
  apply IH; [lia|lia|lia|lia|]. replace (Z.to_nat (n + 1)) with (S (Z.to_nat n)) by lia.
  simpl. rewrite Hs. simpl. rewrite Z2Nat.id by lia. done.
Qed.

Lemma shuffle_full b x n l1 l i : (i < n <= length (items b))%nat ->
  shuffle b x n = Some l1 -> shuffle b x (length (items b)) = Some l -> l !! i = l1 !! i.
Proof.
  intros Hi H1 Hl. apply (shuffle_prefix b x n (length (items b) - n) l1 l i); [lia|lia|done|].
  by replace (n + (length (items b) - n))%nat with (length (items b)) by lia.
Qed.

Lemma shuffle_first b x l : 0 < size b -> shuffle b x (length (items b)) = Some l ->
  l !! 0%nat = Some (h3 b x (id b) 0 mod size b).
Proof.
  intros Hs Hl. rewrite (shuffle_full b x 1 _ l 0 ltac:(unfold size in *; lia) (cleanup_first b x Hs) Hl).
  set (s0 := h3 b x (id b) 0 mod size b). assert (0 <= s0 < size b) by (apply Z.mod_pos_bound; lia).
  destruct (Z.to_nat s0) eqn:E0; simpl; [|done]. f_equal. lia.
Qed.

(** The permutation the loop starts from. *)
Definition resume (b : crush_bucket) (w : crush_work_bucket) (x : Z) : option crush_work_bucket :=
  if negb (perm_x w =? u32 x) || (perm_n w =? 0)
  then Some {| perm_x := u32 x; perm_n := 0; perm := seqZ 0 (size b) |}
  else if perm_n w =? 0xffff then
    s ← at_ (perm w) 0;
    Some {| perm_x := perm_x w; perm_n := 1; perm := <[Z.to_nat s := 0]> (s :: seqZ 1 (size b - 1)) |}
  else Some w.

Lemma resume_ok b w x : 0 < size b < 0xffff -> work_ok b w ->
  exists n l, resume b w x = Some {| perm_x := u32 x; perm_n := n; perm := l |} /\
    0 <= n <= size b /\ shuffle b x (Z.to_nat n) = Some l.
Proof.
  intros Hs (Hlen & Hx & Hw). unfold resume.
  destruct (perm_x w =? u32 x) eqn:Ex; zbool; simpl; [|exists 0, (seqZ 0 (size b)); split_and!; [done|lia|lia|done]].
  destruct (perm_n w =? 0) eqn:E0; zbool; [exists 0, (seqZ 0 (size b)); split_and!; [done|lia|lia|done]|].
  destruct (perm_n w =? 0xffff) eqn:Ef; zbool.
  - destruct Hw as [?|[[_ Hw]|[? _]]]; [lia| |lia]. rewrite at_lookup by done. change (Z.to_nat 0) with 0%nat.
    rewrite Hw. simpl. rewrite Ex. eexists _, _. split; [done|]. split; [lia|].
    rewrite h3_u32. apply cleanup_first. lia.
  - destruct Hw as [?|[[? _]|[Hn Hw]]]; [lia|lia|]. exists (perm_n w), (perm w). rewrite <- Ex.
    split; [by destruct w|]. split; [lia|]. rewrite Ex, shuffle_u32 in Hw. done.
Qed.

(** The scratch space after a call, and the position it chose: that of the
    complete shuffle, whatever was cached before. *)
Lemma perm_choose_spec b w x r (pr := Z.to_nat (u32 r mod size b)) :
  0 < size b < 0xffff -> work_ok b w ->
  exists l s item w', shuffle b x (length (items b)) = Some l /\ l ≡ₚ seqZ 0 (size b) /\
    l !! pr = Some s /\ items b !! Z.to_nat s = Some item /\
    bucket_perm_choose b w x r = Some (item, w') /\ work_ok b w'.
Proof.
  intros Hs Hw. assert (0 <= u32 r mod size b < size b) as Hpr by (apply Z.mod_pos_bound; lia).
  destruct (shuffle_ok b x (length (items b))) as (l & El & Hp & Hl); [done|].
  destruct (lookup_lt_is_Some_2 l pr) as [s Es]; [unfold pr, size in *; lia|].
  assert (0 <= s < size b) as Hsr.
  { assert (s ∈ seqZ 0 (size b)) as Hin%elem_of_seqZ by (rewrite <- Hp; by eapply list_elem_of_lookup_2). lia. }
  destruct (lookup_lt_is_Some_2 (items b) (Z.to_nat s)) as [item Ei]; [unfold size in *; lia|].
  exists l, s, item. unfold bucket_perm_choose. rewrite (proj2 (Z.ltb_lt 0 (size b))) by lia.
  fold (resume b w x). destruct (_ && (_ =? 0)) eqn:E.
  - apply andb_true_iff in E as [_ E]. zbool. assert (pr = 0%nat) as Hz by (unfold pr; lia). rewrite Hz in *.
    pose proof (shuffle_first b x l ltac:(lia) El) as Hf. rewrite Es in Hf. injection Hf as Hf. rewrite <- Hf.
    rewrite at_lookup, Ei by lia. simpl. eexists. do 5 (split; [done|]). destruct Hw as (Hlen & _).
    unfold work_ok. cbn [perm_x perm_n perm]. split; [by rewrite length_insert|]. split; [unfold u32; by rewrite Zmod_mod|].
    right; left. split; [done|]. rewrite list_lookup_insert_eq by (unfold size in *; lia).
    by rewrite h3_u32, <- Hf.
  - destruct (resume_ok b w x Hs Hw) as (n & l1 & -> & Hn & E1). cbn [mbind option_bind].
    destruct (perm_loop_ok b x (u32 r mod size b) (S (length (items b))) n l1) as (n' & l' & E2 & Hn' & E3);
      [done|done|unfold size in *; lia|lia|done|].
    rewrite E2. cbn [mbind option_bind perm]. rewrite at_lookup by lia. fold pr.
    rewrite (shuffle_full b x (Z.to_nat n') l' l pr ltac:(unfold pr, size in *; lia) E3 El) in Es.
    rewrite Es. cbn [mbind option_bind]. rewrite at_lookup, Ei by lia. cbn [mbind option_bind].
    eexists. rewrite (shuffle_full b x (Z.to_nat n') l' l pr ltac:(unfold pr, size in *; lia) E3 El).
    do 5 (split; [done|]).
    destruct (shuffle_ok b x (Z.to_nat n')) as (l2 & E4 & _ & Hl2); [unfold size in *; lia|]. simplify_eq.
    unfold work_ok. cbn [perm_x perm_n perm]. split; [done|]. split; [unfold u32; by rewrite Zmod_mod|]. right; right. split; [lia|].
    by rewrite shuffle_u32.
Qed.

End Shuffle.
(** ** Straws *)
Module Straws.
Import Crush CrushLn CrushLnFacts Shuffle.

(** The first position of the highest draw. *)
Definition highest (draws : list Z) (h : nat) : Prop :=
  exists d, draws !! h = Some d /\
    forall j e, draws !! j = Some e -> e <= d /\ ((j < h)%nat -> e < d).

Lemma highest_unique draws h h' : highest draws h -> highest draws h' -> h = h'.
Proof.
  intros (d & Hd & H) (d' & Hd' & H'). destruct (H _ _ Hd') as [H1 H2]. destruct (H' _ _ Hd) as [H3 H4].
  destruct (Nat.lt_total h h') as [Hlt|[->|Hlt]]; [|done|]; [specialize (H4 Hlt)|specialize (H2 Hlt)]; lia.
Qed.

Lemma high_loop_spec pre draws h : highest pre h ->
  exists h', high_loop draws (Z.of_nat (length pre)) (Z.of_nat h) (default 0 (pre !! h)) = Z.of_nat h' /\
    highest (pre ++ draws) h'.
Proof.
  revert pre h. induction draws as [|d draws IH]; intros pre h Hh; simpl.
  { exists h. by rewrite app_nil_r. }
  pose proof Hh as (e & He & Hmax). rewrite He. simpl.
  assert (h < length pre)%nat by by eapply lookup_lt_Some.
  rewrite (proj2 (Z.eqb_neq (Z.of_nat (length pre)) 0)) by lia. simpl.
  replace (Z.of_nat (length pre) + 1) with (Z.of_nat (length (pre ++ [d]))) by (rewrite length_app; simpl; lia).
  destruct (e <? d) eqn:E; zbool.
  - destruct (IH (pre ++ [d]) (length pre)) as (h' & E' & Hh').
    + exists d. rewrite list_lookup_middle by done. split; [done|]. intros j f Hj.
      destruct (decide (j < length pre)%nat) as [Hl|Hl].
      * rewrite lookup_app_l in Hj by done. destruct (Hmax j f Hj). lia.
      * rewrite lookup_app_r in Hj by lia. destruct (j - length pre)%nat eqn:Ej; [|done]. simplify_eq/=. lia.
    + rewrite list_lookup_middle in E' by done. exists h'. rewrite <- app_assoc in Hh'. done.
  - destruct (IH (pre ++ [d]) h) as (h' & E' & Hh').
    + exists e. rewrite lookup_app_l by done. split; [done|]. intros j f Hj.
      destruct (decide (j < length pre)%nat) as [Hl|Hl].
      * rewrite lookup_app_l in Hj by done. by apply Hmax.
      * rewrite lookup_app_r in Hj by lia. destruct (j - length pre)%nat eqn:Ej; [|done]. simplify_eq/=. lia.
    + rewrite lookup_app_l, He in E' by done. exists h'. rewrite <- app_assoc in Hh'. done.
Qed.

Lemma high_loop_highest draws : draws <> [] ->
  exists h, high_loop draws 0 0 0 = Z.of_nat h /\ highest draws h.
Proof.
  destruct draws as [|d draws]; [done|]. intros _. simpl.
  destruct (high_loop_spec [d] draws 0) as (h & E & Hh); [|by exists h].
  exists d. split; [done|]. intros [|j] e; simpl; [intros [= ->]; lia|done].
Qed.

(** *** Draws of straw2 buckets *)

Definition weight_ok (w : Z) : Prop := 0 <= w < 2147483648.

Lemma land_ffff x : 0 <= Z.land x 0xffff <= 0xffff.
Proof.
  change (0 <= Z.land x (Z.ones 16) <= 65535). rewrite Z.land_ones by done.
  pose proof (Z.mod_pos_bound x (2 ^ 16)). lia.
Qed.

(** The draw of an item: a negative logarithm divided by its weight. *)
Lemma straw2_draw_spec b x r i : exists ln, 0 < ln <= 2 ^ 48 /\
  forall w, weight_ok w -> straw2_draw b x r i w = Some (if w =? 0 then S64_MIN else - (ln / w)).
Proof.
  destruct (crush_ln_spec (Z.land (h3 b x i r) 0xffff)) as (v & Ev & Hv); [apply land_ffff|].
  exists (2 ^ 48 - v). split; [lia|]. intros w Hw. unfold straw2_draw, generate_exponential_distribution.
  destruct (w =? 0) eqn:E; zbool; simpl; [done|]. rewrite Ev. simpl. rewrite i32_small by (unfold weight_ok in Hw; lia).
  f_equal. replace (v - 281474976710656) with (- (2 ^ 48 - v)) by lia.
  rewrite Z.quot_opp_l, Z.quot_div_nonneg by (unfold weight_ok in Hw; lia). done.
Qed.

(** Raising a weight never lowers the draw, and zero weights draw below all
    others. *)
Lemma straw2_draw_mono b x r i w w' d d' : weight_ok w -> weight_ok w' -> w <= w' ->
  straw2_draw b x r i w = Some d -> straw2_draw b x r i w' = Some d' -> d <= d'.
Proof.
  intros Hw Hw' Hle. destruct (straw2_draw_spec b x r i) as (ln & Hln & H). rewrite !H by done.
  intros [= <-] [= <-]. unfold weight_ok, S64_MIN in *.
  destruct (w =? 0) eqn:E, (w' =? 0) eqn:E'; zbool; try lia.
  - pose proof (Z.div_le_upper_bound ln w' ln ltac:(lia) ltac:(nia)). lia.
  - pose proof (Z.div_le_compat_l ln w w' ltac:(lia) ltac:(lia)). lia.
Qed.

Lemma straw2_draw_zero b x r i w d : weight_ok w ->
  straw2_draw b x r i w = Some d -> S64_MIN <= d /\ (d = S64_MIN <-> w = 0).
Proof.
  intros Hw. destruct (straw2_draw_spec b x r i) as (ln & Hln & H). rewrite H by done.
  intros [= <-]. unfold weight_ok, S64_MIN in *. destruct (w =? 0) eqn:E; zbool; [lia|].
  pose proof (Z.div_le_upper_bound ln w ln ltac:(lia) ltac:(nia)). pose proof (Z.div_pos ln w). lia.
Qed.

(** The draws of a bucket without overrides. *)
Definition draws (b : crush_bucket) (x r : Z) (iw : list Z) : option (list Z) :=
  mapM (fun '(i, w) => straw2_draw b x r i w) (zip (items b) iw).

Lemma draws_ok b x r iw : Forall weight_ok iw ->
  exists ds, draws b x r iw = Some ds /\
    Forall2 (fun p d => straw2_draw b x r p.1 p.2 = Some d) (zip (items b) iw) ds.
Proof.
  intros Hw. unfold draws. revert iw Hw. induction (items b) as [|i l IH]; intros iw Hw; [by exists []; split|].
  destruct Hw as [|w iw Hw0 Hw]; [by exists []; split|].
  destruct (IH iw Hw) as (ds & E & HF). destruct (straw2_draw_spec b x r i) as (ln & _ & H).
  exists ((if w =? 0 then S64_MIN else - (ln / w)) :: ds). cbn [zip zip_with mapM]. rewrite H by done.
  cbn [mbind option_bind]. rewrite E. split; [done|].
  constructor; [by apply H|done].
Qed.

(** The item a bucket of known weights chooses. *)
Lemma straw2_choose_spec b iw x r : items b <> [] -> length iw = length (items b) -> Forall weight_ok iw ->
  exists ds h item, draws b x r iw = Some ds /\ highest ds h /\ items b !! h = Some item /\
    bucket_straw2_choose b iw x r None 0 = Some item /\
    Forall2 (fun p d => straw2_draw b x r p.1 p.2 = Some d) (zip (items b) iw) ds.
Proof.
  intros Hne Hl Hw. destruct (draws_ok b x r iw Hw) as (ds & E & HF).
  assert (length ds = length (items b)) as Hd.
  { apply Forall2_length in HF. rewrite length_zip_with in HF. lia. }
  destruct (high_loop_highest ds) as (h & Eh & Hh); [by destruct ds, (items b)|].
  destruct (lookup_lt_is_Some_2 (items b) h) as [item Hi].
  { destruct Hh as (d & Hd' & _). rewrite <- Hd. by eapply lookup_lt_Some. }
  exists ds, h, item. split_and!; try done.
  unfold bucket_straw2_choose. simpl. rewrite Hl, Nat.leb_refl. simpl.
  rewrite take_ge by (rewrite length_zip_with; lia). fold (draws b x r iw). rewrite E. simpl.
  rewrite Eh, at_lookup, Nat2Z.id by lia. done.
Qed.

End Straws.
(** ** Trees *)
Module Trees.
Import Crush CrushLnFacts Shuffle.

Definition word (a : Z) : Prop := 0 <= a < two32.

Lemma lxor_word a b : word a -> word b -> word (Z.lxor a b).
Proof.
  unfold word. intros Ha Hb. change two32 with (2 ^ 32) in *.
  assert (forall z i, 0 <= z < 2 ^ 32 -> 32 <= i -> Z.testbit z i = false) as Hhigh.
  { intros z i Hz Hi. rewrite <- (Z.mod_small z (2 ^ 32)) by lia. apply Z.mod_pow2_bits_high. lia. }
  assert (0 <= Z.lxor a b) by (apply Z.lxor_nonneg; lia).
  replace (Z.lxor a b) with (Z.lxor a b mod 2 ^ 32); [apply Z.mod_pos_bound; lia|].
  apply Z.bits_inj'. intros i Hi. destruct (Z.lt_ge_cases i 32).
  - by rewrite Z.mod_pow2_bits_low.
  - rewrite Z.mod_pow2_bits_high, Z.lxor_spec, !Hhigh by lia. done.
Qed.

Lemma u32_word a : word (u32 a).
Proof. apply Z.mod_pos_bound. done. Qed.

Lemma shiftr_word a n : 0 <= n -> word a -> word (Z.shiftr a n).
Proof.
  unfold word. intros Hn Ha. rewrite Z.shiftr_div_pow2 by done. assert (1 <= 2 ^ n) by (apply (pow2_le 0 n); lia).
  split; [apply Z.div_pos; lia|]. apply Z.div_lt_upper_bound; nia.
Qed.

Local Ltac word_solve :=
  repeat (apply lxor_word || apply u32_word); first [assumption | unfold word; lia].

Lemma hashmix_word a b c a' b' c' : word a -> word b -> word c ->
  crush_hashmix a b c = (a', b', c') -> word a' /\ word b' /\ word c'.
Proof.
  intros Ha Hb Hc. unfold crush_hashmix. intros [= <- <- <-]. unfold sub32.
  split_and!; repeat (apply lxor_word || apply u32_word || (apply shiftr_word; [lia|])).
Qed.

Lemma h4_word b x a c d : word (h4 b x a c d).
Proof.
  unfold h4, crush_hash32_4. case_match; [|unfold word; lia]. unfold crush_hash32_rjenkins1_4.
  assert (word crush_hash_seed) by (unfold word, crush_hash_seed; lia).
  repeat match goal with |- context [crush_hashmix ?a ?b ?c] =>
    let E := fresh in let H := fresh in
    destruct (crush_hashmix a b c) as [[? ?] ?] eqn:E;
    apply hashmix_word in E as (? & ? & ?); [|word_solve..] end.
  assumption.
Qed.

Lemma land_1 n : Z.land n 1 = n mod 2.
Proof. change 1 with (Z.ones 1). by rewrite Z.land_ones. Qed.

(** Nodes are [(2j+1) * 2^h], at height [h]. *)
Lemma height_spec fuel j h : (h < fuel)%nat -> height fuel ((2 * j + 1) * 2 ^ Z.of_nat h) = Some (Z.of_nat h).
Proof.
  revert fuel. induction h as [|h IH]; intros [|fuel] Hf; try lia; cbn [height]; rewrite land_1.
  - rewrite Z.mul_1_r, (Z.add_comm _ 1), (Z.mul_comm 2 j), Z_mod_plus_full. done.
  - replace (Z.of_nat (S h)) with (Z.of_nat h + 1) by lia. rewrite pow2_double by lia.
    replace ((2 * j + 1) * (2 * 2 ^ Z.of_nat h)) with ((2 * j + 1) * 2 ^ Z.of_nat h * 2) by lia.
    rewrite Z_mod_mult, Z.shiftr_div_pow2 by lia. change (2 ^ 1) with 2. rewrite Z.div_mul by lia.
    cbn [Z.eqb]. rewrite IH by lia. done.
Qed.

Section Tree.
Context (b : crush_bucket) (d : Z) (nw : list Z).

Definition node (n : Z) : Z := default 0 (at_ nw n).

(** A tree as the builder makes it, with items in it: inner nodes hold the sum
    of their children, and the leaves past the items hold nothing. *)
Record tree_ok : Prop := {
  t_depth : 1 <= d <= 8;
  t_length : Z.of_nat (length nw) = 2 ^ d;
  t_words : forall n, 0 <= n < 2 ^ d -> word (node n);
  t_sums : forall j h, 0 <= j -> 1 <= h -> (2 * j + 1) * 2 ^ h < 2 ^ d ->
    node ((2 * j + 1) * 2 ^ h) =
    node ((2 * j + 1) * 2 ^ h - 2 ^ (h - 1)) + node ((2 * j + 1) * 2 ^ h + 2 ^ (h - 1));
  t_leaves : forall i, size b <= i -> 2 * i + 1 < 2 ^ d -> node (2 * i + 1) = 0;
  t_root : 0 < node (2 ^ (d - 1))
}.

Context (Ht : tree_ok).

Lemma node_at n : 0 <= n < 2 ^ d -> at_ nw n = Some (node n).
Proof using Ht.
  intros Hn. unfold node. rewrite at_lookup by lia. pose proof (t_length Ht).
  destruct (lookup_lt_is_Some_2 nw (Z.to_nat n)) as [v ->]; [lia|done].
Qed.

(** The loop stays on nodes of positive weight, down to a leaf. *)
Lemma tree_loop_spec x r h : forall fuel j,
  (h < fuel)%nat -> Z.of_nat h < 32 -> 0 <= j -> (2 * j + 1) * 2 ^ Z.of_nat h < 2 ^ d ->
  0 < node ((2 * j + 1) * 2 ^ Z.of_nat h) ->
  exists i, tree_loop fuel b nw x r ((2 * j + 1) * 2 ^ Z.of_nat h) = Some (2 * i + 1) /\
    0 <= i /\ 2 * i + 1 < 2 ^ d /\ 0 < node (2 * i + 1).
Proof using Ht.
  induction h as [|h IH]; intros [|fuel] j Hf Hh Hj Hn Hpos; try lia; cbn [tree_loop]; unfold terminal; rewrite land_1.
  - exists j. rewrite Z.mul_1_r in *. rewrite (Z.add_comm _ 1) at 1. rewrite (Z.mul_comm 2 j), Z_mod_plus_full.
    rewrite (Z.mul_comm j 2). done.
  - set (p := 2 ^ Z.of_nat h) in *. assert (2 ^ Z.of_nat (S h) = 2 * p) as Ep.
    { unfold p. rewrite <- pow2_double by lia. f_equal. lia. }
    assert (0 < p) by (apply Z.pow_pos_nonneg; lia).
    rewrite Ep in Hn, Hpos |- *. set (n := (2 * j + 1) * (2 * p)) in *.
    assert (n mod 2 = 0) as -> by (unfold n; replace ((2 * j + 1) * (2 * p)) with ((2 * j + 1) * p * 2) by lia; apply Z_mod_mult).
    cbn [Z.eqb negb]. rewrite node_at by (unfold n in *; nia). cbn [mbind option_bind].
    assert (height 32 n = Some (Z.of_nat (S h))) as Hhn.
    { unfold n. rewrite <- Ep. apply height_spec. lia. }
    unfold left, right. rewrite Hhn. cbn [mbind option_bind].
    replace (Z.of_nat (S h) - 1) with (Z.of_nat h) by lia. rewrite Z.shiftl_1_l. fold p.
    assert (n - p = (2 * (2 * j) + 1) * p) as El by (unfold n; lia).
    assert (n + p = (2 * (2 * j + 1) + 1) * p) as Er by (unfold n; lia).
    assert (n + p < 2 ^ d) as Hr.
    { assert (Z.of_nat (S h) < d) by (apply (Z.pow_lt_mono_r_iff 2); [lia|pose proof (t_depth Ht); lia|rewrite Ep; unfold n in *; nia]).
      assert (2 ^ d = 2 ^ (d - Z.of_nat (S h)) * (2 * p)) as Ed by (rewrite <- Ep, <- Z.pow_add_r by lia; f_equal; lia).
      rewrite Ed in Hn |- *. unfold n in *. assert (2 * j + 1 < 2 ^ (d - Z.of_nat (S h))) by nia. nia. }
    pose proof (t_sums Ht j (Z.of_nat (S h)) Hj ltac:(lia)) as Hsum. rewrite Ep in Hsum. fold n in Hsum.
    replace (Z.of_nat (S h) - 1) with (Z.of_nat h) in Hsum by lia. fold p in Hsum. specialize (Hsum Hn).
    rewrite node_at by nia. cbn [mbind option_bind].
    pose proof (h4_word b x n r (id b)) as Hw. pose proof (t_words Ht n ltac:(unfold n in *; nia)) as Hnw.
    pose proof (t_words Ht (n - p) ltac:(nia)). unfold word in *.
    rewrite mul64_small by nia. rewrite Z.shiftr_div_pow2 by lia. change (2 ^ 32) with two32.
    assert (h4 b x n r (id b) * node n / two32 < node n) by (apply Z.div_lt_upper_bound; nia).
    assert (0 <= h4 b x n r (id b) * node n / two32) by (apply Z.div_pos; nia).
    destruct (_ <? node (n - p)) eqn:E; zbool.
    + rewrite El in *. apply IH; lia.
    + rewrite Er in *. apply IH; lia.
Qed.

Lemma tree_choose_spec x r : exists item, bucket_tree_choose b (2 ^ d) nw x r = Some item /\ item ∈ items b.
Proof using Ht.
  pose proof (t_depth Ht) as Hd. unfold bucket_tree_choose.
  assert (Z.shiftr (2 ^ d) 1 = (2 * 0 + 1) * 2 ^ Z.of_nat (Z.to_nat (d - 1))) as ->.
  { rewrite Z.shiftr_div_pow2, Z2Nat.id, Z.mul_1_l by lia. change (2 ^ 1) with 2.
    replace d with (d - 1 + 1) at 1 by lia. rewrite pow2_double, Z.mul_comm, Z.div_mul by lia. done. }
  destruct (tree_loop_spec x r (Z.to_nat (d - 1)) 32 0) as (i & -> & Hi & Hlt & Hpos); try lia.
  { rewrite Z2Nat.id, Z.mul_1_l by lia. apply Z.pow_lt_mono_r; lia. }
  { rewrite Z2Nat.id, Z.mul_1_l by lia. apply (t_root Ht). }
  cbn [mbind option_bind]. rewrite Z.shiftr_div_pow2 by lia. change (2 ^ 1) with 2.
  rewrite (Z.add_comm _ 1), (Z.mul_comm 2 i), Z.div_add, Z.add_0_l by lia.
  destruct (Z.lt_ge_cases i (size b)); [|by rewrite (t_leaves Ht i) in Hpos by lia].
  rewrite at_lookup by lia. destruct (lookup_lt_is_Some_2 (items b) (Z.to_nat i)) as [item Hitem]; [unfold size in *; lia|].
  exists item. split; [done|]. by eapply list_elem_of_lookup_2.
Qed.
End Tree.
End Trees.

(** ** Any bucket *)
Module BucketChoice.
Import Crush CrushLn CrushLnFacts Shuffle Straws Trees.

(** The arrays of a bucket have an entry per item, its weights are below
    [2^31], and its permutation fits the scratch space. *)
Definition bucket_ok (b : crush_bucket) : Prop :=
  size b < 0xffff /\ 0 < type b /\
  match alg b with
  | CRUSH_BUCKET_LIST iw sw => length iw = length (items b) /\ length sw = length (items b)
  | CRUSH_BUCKET_TREE nn nw => exists d, nn = 2 ^ d /\ tree_ok b d nw
  | CRUSH_BUCKET_STRAW st => length st = length (items b)
  | CRUSH_BUCKET_STRAW2 iw => length iw = length (items b) /\ Forall weight_ok iw
  | _ => True
  end.

(** Overrides of a bucket have an entry per item too. *)
Definition arg_ok (b : crush_bucket) (arg : option crush_choose_arg) : Prop :=
  match arg with
  | None => True
  | Some a =>
    (forall l, ids a = Some l -> length l = length (items b)) /\
    (forall ws, weight_set a = Some ws -> ws <> [] /\
       Forall (fun l => length l = length (items b) /\ Forall weight_ok l) ws)
  end.

Lemma list_loop_spec b iw sw x r n : items b <> [] -> (n <= length (items b))%nat ->
  length iw = length (items b) -> length sw = length (items b) ->
  exists item, list_loop n b iw sw x r = Some item /\ item ∈ items b.
Proof.
  intros Hne Hn Hi Hs. induction n as [|n IH]; simpl.
  { destruct (items b) as [|i l]; [done|]. exists i. split; [done|set_solver]. }
  destruct (lookup_lt_is_Some_2 (items b) n) as [it Eit]; [lia|].
  destruct (lookup_lt_is_Some_2 sw n) as [su Esu]; [lia|].
  destruct (lookup_lt_is_Some_2 iw n) as [wt Ewt]; [lia|]. rewrite Eit, Esu, Ewt. simpl.
  case_match; [|apply IH; lia]. exists it. split; [done|]. by eapply list_elem_of_lookup_2.
Qed.

Lemma high_item (l : list Z) ds : ds <> [] -> length ds = length l ->
  exists item, at_ l (high_loop ds 0 0 0) = Some item /\ item ∈ l.
Proof.
  intros Hne Hl. destruct (high_loop_highest ds Hne) as (h & -> & (d & Hd & _)).
  rewrite at_lookup, Nat2Z.id by lia. destruct (lookup_lt_is_Some_2 l h) as [item Hi].
  { rewrite <- Hl. by eapply lookup_lt_Some. }
  exists item. split; [done|]. by eapply list_elem_of_lookup_2.
Qed.

Lemma straw2_draws_some b x r l : Forall (fun p => weight_ok p.2) l ->
  exists ds, mapM (fun '(i, w) => straw2_draw b x r i w) l = Some ds /\ length ds = length l.
Proof.
  induction 1 as [|[i w] l Hw _ (ds & E & Hl)]; [by exists []|]. cbn [mapM].
  destruct (straw2_draw_spec b x r i) as (ln & _ & H). rewrite (H w) by done. cbn [mbind option_bind].
  rewrite E. eexists. split; [done|]. simpl. lia.
Qed.

Lemma straw2_choose_in b iw x r arg position : items b <> [] -> 0 <= position ->
  length iw = length (items b) -> Forall weight_ok iw -> arg_ok b arg ->
  exists item, bucket_straw2_choose b iw x r arg position = Some item /\ item ∈ items b.
Proof.
  intros Hne Hp Hl Hw Ha. unfold bucket_straw2_choose.
  assert (exists ws, get_choose_arg_weights iw arg position = Some ws /\
    length ws = length (items b) /\ Forall weight_ok ws) as (ws & -> & Hws & Hwo).
  { destruct arg as [[oi [wss|]]|]; simpl; [|by exists iw..]. destruct Ha as [_ Ha].
    destruct (Ha wss eq_refl) as [Hn Hf]. assert (0 < Z.of_nat (length wss)) by (destruct wss; [done|simpl; lia]).
    rewrite at_lookup by (case_match; zbool; lia).
    destruct (lookup_lt_is_Some_2 wss (Z.to_nat (if Z.of_nat (length wss) <=? position
      then Z.of_nat (length wss) - 1 else position))) as [ws Ews].
    { case_match; zbool; lia. }
    exists ws. split; [done|]. rewrite Forall_forall in Hf. apply Hf. by eapply list_elem_of_lookup_2. }
  assert (length (get_choose_arg_ids b arg) = length (items b)) as Hid.
  { destruct arg as [[[l|] o]|]; simpl; try done. destruct Ha as [Ha _]. by apply Ha. }
  cbn [mbind option_bind]. rewrite Hws, Hid, Nat.leb_refl. simpl.
  destruct (straw2_draws_some b x r (take (length (items b)) (zip (get_choose_arg_ids b arg) ws))) as (ds & -> & Hds).
  { apply Forall_take, Forall_forall. intros [i w] Hz%elem_of_zip_r. rewrite Forall_forall in Hwo. by apply Hwo. }
  rewrite length_take, length_zip_with in Hds. cbn [mbind option_bind].
  assert (0 < length (items b))%nat by (destruct (items b); [done|simpl; lia]).
  apply high_item; [|lia]. destruct ds; [simpl in Hds; lia|done].
Qed.

(** Every well-formed bucket chooses one of its items, and keeps its scratch
    space well-formed. *)
Lemma bucket_choose_in b w x r arg position :
  bucket_ok b -> items b <> [] -> work_ok b w -> 0 <= position -> arg_ok b arg ->
  exists item w', crush_bucket_choose b w x r arg position = Some (item, w') /\ item ∈ items b /\ work_ok b w'.
Proof.
  intros (Hsz & _ & Hb) Hne Hw Hp Ha. unfold crush_bucket_choose.
  assert (0 < size b) by (unfold size; destruct (items b); [done|simpl; lia]).
  rewrite (proj2 (Z.eqb_neq (size b) 0)) by lia. simpl. destruct (alg b) as [|iw sw|nn nw|st|iw|].
  - destruct (perm_choose_spec b w x r ltac:(lia) Hw) as (l & s & item & w' & _ & _ & _ & Hi & -> & Hw').
    exists item, w'. split; [done|]. split; [by eapply list_elem_of_lookup_2|done].
  - destruct Hb as [H1 H2]. destruct (list_loop_spec b iw sw x r (length (items b))) as (item & -> & Hi); [done..|].
    exists item, w. done.
  - destruct Hb as (d & -> & Ht). destruct (tree_choose_spec b d nw Ht x r) as (item & -> & Hi). by exists item, w.
  - unfold bucket_straw_choose. rewrite Hb, Nat.leb_refl.
    destruct (high_item (items b) (zip_with (straw_draw b x r) (items b) st)) as (item & -> & Hi);
      [|rewrite length_zip_with; lia|by exists item, w].
    destruct (items b), st; simpl in *; done.
  - destruct Hb as [H1 H2]. destruct (straw2_choose_in b iw x r arg position) as (item & -> & Hi); [done..|].
    by exists item, w.
  - destruct (items b) as [|i l]; [done|]. simpl. exists i, w. split; [done|]. split; [set_solver|done].
Qed.

End BucketChoice.
