(* ===== verification/CrushFirstn.v ===== *)
(** CRUSH placement, depth first: on well-formed maps [crush_choose_firstn]
    ends and selects distinct items of the requested type, with distinct leaf
    devices, none of them marked out. *)
From S2P Require Import Prelude Pg CrushLn OSDMap Crush CrushChoice.
Import Bits Binning.

Module CrushFacts.
Import Crush CrushLn Shuffle Straws Trees BucketChoice.

(** A well-formed map: buckets sit at the index of their id, are well-formed,
    and their inner items are existing buckets of smaller rank; [depth] bounds
    the ranks and [width] the sizes. *)
Record map_ok (m : crush_map) (rank : Z -> nat) (depth width : nat) : Prop := {
  ok_id : forall i b, buckets m !! i = Some (Some b) -> id b = -1 - Z.of_nat i;
  ok_bucket : forall item b, bucket_of m item = Some b -> bucket_ok b;
  ok_items : forall item b i, bucket_of m item = Some b -> i ∈ items b -> i < 0 ->
    (exists c, bucket_of m i = Some c) /\ (rank i < rank item)%nat;
  ok_depth : forall item, (rank item <= depth)%nat;
  ok_width : forall item b, bucket_of m item = Some b -> size b <= Z.of_nat width;
  ok_max : max_devices m <= CRUSH_ITEM_UNDEF
}.

(** The scratch space has a well-formed entry for every bucket. *)
Definition space_ok (m : crush_map) (work : crush_work) : Prop :=
  forall item b, bucket_of m item = Some b -> exists wb, work !! (-1 - id b) = Some wb /\ work_ok b wb.

Definition args_ok (m : crush_map) (args : option (list crush_choose_arg)) : Prop :=
  match args with
  | None => True
  | Some l => forall item b, bucket_of m item = Some b -> exists a, at_ l (-1 - id b) = Some a /\ arg_ok b (Some a)
  end.

Section Facts.
Context (m : crush_map) (weight : list Z) (args : option (list crush_choose_arg)) (x : Z).
Context (rank : Z -> nat) (depth width : nat).
Hypotheses (Hm : map_ok m rank depth width) (Hargs : args_ok m args).

Lemma bucket_of_id item b : bucket_of m item = Some b -> id b = item /\ item < 0.
Proof using Hm.
  unfold bucket_of, at_. case_match; [|done]. zbool. intros E.
  destruct (buckets m !! Z.to_nat (-1 - item)) as [[c|]|] eqn:Eb; simpl in E; simplify_eq.
  apply (ok_id _ _ _ _ Hm) in Eb. lia.
Qed.

Lemma init_from_lookup bs i k b : bs !! k = Some (Some b) ->
  init_workspace_from bs i !! (i + Z.of_nat k) =
  Some {| perm_x := 0; perm_n := 0; perm := replicate (length (items b)) 0 |}.
Proof.
  revert i k. induction bs as [|o bs IH]; intros i [|k] E; simplify_eq/=.
  - rewrite Z.add_0_r, lookup_insert_eq. done.
  - destruct o as [c|]; [rewrite lookup_insert_ne by lia|];
      replace (i + Z.of_nat (S k)) with (i + 1 + Z.of_nat k) by lia; by apply IH.
Qed.

Lemma init_space_ok : space_ok m (crush_init_workspace m).
Proof using Hm.
  intros item b Hb. pose proof (bucket_of_id item b Hb) as [Hid Hneg].
  unfold bucket_of in Hb. rewrite at_lookup in Hb by lia.
  destruct (buckets m !! Z.to_nat (-1 - item)) as [[c|]|] eqn:Eb; simpl in Hb; simplify_eq.
  exists {| perm_x := 0; perm_n := 0; perm := replicate (length (items b)) 0 |}.
  split; [|split; [apply length_replicate|]; split; [done|by left]].
  unfold crush_init_workspace. rewrite <- (init_from_lookup _ 0 _ b Eb). f_equal. lia.
Qed.

Lemma choose_item_ok by_perm item b work r position :
  bucket_of m item = Some b -> items b <> [] -> space_ok m work -> 0 <= position ->
  exists i work', choose_item args x by_perm b work r position = Some (i, work') /\
    i ∈ items b /\ space_ok m work'.
Proof using Hm Hargs.
  intros Hb Hne Hsp Hpos. destruct (Hsp item b Hb) as (wb & Ewb & Hwb).
  pose proof (ok_bucket _ _ _ _ Hm item b Hb) as Hok. unfold choose_item. rewrite Ewb. cbn [mbind option_bind].
  assert (exists i w', (if by_perm then bucket_perm_choose b wb x r
    else arg ← arg_of args b; crush_bucket_choose b wb x r arg position) = Some (i, w') /\
    i ∈ items b /\ work_ok b w') as (i & w' & -> & Hi & Hw').
  { destruct by_perm.
    - destruct (perm_choose_spec b wb x r) as (l & s & i & w' & _ & _ & _ & Hi & -> & Hw'); [|done|].
      + destruct Hok as [Hs _]. unfold size in *. destruct (items b); [done|simpl in *; lia].
      + exists i, w'. split; [done|]. split; [by eapply list_elem_of_lookup_2|done].
    - assert (exists arg, arg_of args b = Some arg /\ arg_ok b arg) as (arg & -> & Ha).
      { unfold arg_of. unfold args_ok in Hargs. destruct args as [l|]; [|by exists None].
        destruct (Hargs item b Hb) as (a & -> & Ha). by exists (Some a). }
      cbn [mbind option_bind]. by apply bucket_choose_in. }
  cbn [mbind option_bind]. exists i. eexists. split; [done|]. split; [done|].
  intros item' b' Hb'. destruct (bucket_of_id item b Hb) as [E1 _]. destruct (bucket_of_id item' b' Hb') as [E2 _].
  destruct (decide (item = item')) as [<-|Hne'].
  - simplify_eq. exists w'. rewrite lookup_insert_eq. done.
  - rewrite lookup_insert_ne by lia. by apply (Hsp item').
Qed.

Lemma is_out_some item : 0 <= item -> exists o, is_out weight item x = Some o.
Proof.
  intros Hi. unfold is_out. destruct (_ <=? item) eqn:E; zbool; [eauto|].
  rewrite at_lookup by lia. destruct (lookup_lt_is_Some_2 weight (Z.to_nat item)) as [v ->]; [lia|].
  cbn [mbind option_bind]. repeat case_match; eauto.
Qed.

(** An item of type [ty] that placement may use. *)
Definition usable (ty item : Z) : Prop :=
  item_type m item = Some ty /\ item < max_devices m /\ (ty = 0 -> 0 <= item /\ is_out weight item x = Some false).

Lemma item_type_some item b i : bucket_of m item = Some b -> i ∈ items b ->
  exists ty, item_type m i = Some ty /\ (ty = 0 <-> 0 <= i) /\
    (i < 0 -> exists c, bucket_of m i = Some c /\ (rank i < rank item)%nat).
Proof using Hm.
  intros Hb Hi. unfold item_type. destruct (i <? 0) eqn:E; zbool.
  - destruct (ok_items _ _ _ _ Hm item b i Hb Hi E) as [[c Hc] Hr]. rewrite Hc. simpl. exists (type c).
    split; [done|]. destruct (ok_bucket _ _ _ _ Hm i c Hc) as (_ & Ht & _). split; [lia|]. eauto.
  - exists 0. split; [done|]. split; [lia|lia].
Qed.

(** *** Depth-first choice *)
Section Firstn.
Context (rec : firstn_call) (a : firstn_args).

(** Local retries of a replica. *)
Definition L : Z := local_retries a + local_fallback_retries a + Z.of_nat width.

(** The tunables are in range: the counters of a replica never wrap. *)
Definition tunables_ok : Prop :=
  0 <= tries a /\ 0 <= local_retries a /\ 0 <= local_fallback_retries a /\
  tries a + local_retries a + local_fallback_retries a + Z.of_nat width + 2 < two32.

(** The recursive call adds at most one leaf: a new, usable device. *)
Definition leaf_call_ok : Prop :=
  forall item c sub_r count out2 work,
    bucket_of m item = Some c -> space_ok m work -> 0 < count ->
    exists out2' work',
      rec c {| f_type := 0; tries := recurse_tries a; recurse_tries := 0;
               local_retries := local_retries a; local_fallback_retries := local_fallback_retries a;
               recurse_to_leaf := false; vary_r := vary_r a; stable := stable a; parent_r := sub_r |}
        (if stable a then 1 else Z.of_nat (length out2) + 1) out2 count work = Some (out2', work') /\
      space_ok m work' /\
      (out2' = out2 \/ exists leaf, out2' = out2 ++ [leaf] /\ leaf ∉ out2 /\ usable 0 leaf).

Hypotheses (Ha : tunables_ok) (Hrec : recurse_to_leaf a = true -> leaf_call_ok).

(** The leaf that goes with an item. *)
Definition leaf_good (out2 : list Z) (item leaf : Z) : Prop :=
  recurse_to_leaf a = true -> if item <? 0 then leaf ∉ out2 /\ usable 0 leaf else leaf = item.

Lemma choose_leaf_ok item r count out2 work :
  (item < 0 -> exists c, bucket_of m item = Some c) -> space_ok m work -> 0 < count ->
  exists res work', choose_leaf m rec a item r count out2 work = Some (res, work') /\ space_ok m work' /\
    forall leaf, res = Some leaf -> leaf_good out2 item leaf.
Proof using Hrec.
  intros Hb Hsp Hc. unfold choose_leaf, leaf_good. destruct (recurse_to_leaf a); simpl.
  2: { eexists _, _. split; [done|]. split; [done|]. done. }
  destruct (item <? 0) eqn:E; zbool.
  2: { eexists _, _. split; [done|]. split; [done|]. by intros leaf [= <-]. }
  destruct (Hb E) as [c Ec]. rewrite Ec. cbn [mbind option_bind].
  destruct (Hrec eq_refl item c (if negb (vary_r a =? 0) then Z.shiftr r (vary_r a - 1) else 0) count out2 work)
    as (out2' & work' & -> & Hsp' & Hout); [done..|]. cbn [mbind option_bind].
  destruct Hout as [->|(leaf & -> & Hl)].
  - rewrite Z.leb_refl. eexists _, _. split; [done|]. split; done.
  - rewrite length_app. simpl. rewrite (proj2 (Z.leb_gt _ _)) by lia.
    rewrite list_lookup_middle by done. simpl. eexists _, _. split; [done|]. split; [done|]. by intros ? [= <-].
Qed.

(** What a descent may return for replica [rep]. *)
Definition attempt_ok (out out2 : list Z) (res : attempt) : Prop :=
  match res with
  | Skip => True
  | Got item leaf => item ∉ out /\ usable (f_type a) item /\ leaf_good out2 item leaf
  end.

Definition work_left (ftotal flocal : Z) : Z := Z.max 0 (tries a - ftotal) * (L + 1) + (L - flocal).

Definition fuel_ok (ftotal flocal : Z) (item : Z) (fuel : nat) : Prop :=
  work_left ftotal flocal * (Z.of_nat depth + 1) + Z.of_nat (rank item) < Z.of_nat fuel.

Definition counters_ok (ftotal flocal : Z) : Prop := 0 <= ftotal <= tries a + flocal /\ 0 <= flocal <= L.

(** A rejected item leaves less to do. *)
Lemma rejected_ok again (Q : option (attempt * crush_work) -> Prop) item0 bucket item b ftotal flocal collide work fuel :
  bucket_of m item0 = Some bucket -> bucket_of m item = Some b ->
  counters_ok ftotal flocal -> fuel_ok ftotal flocal item (S fuel) ->
  (forall item' b' ft fl, bucket_of m item' = Some b' -> counters_ok ft fl -> fuel_ok ft fl item' fuel ->
     Q (again b' ft fl work)) ->
  Q (Some (Skip, work)) -> Q (rejected a again bucket b ftotal flocal collide work).
Proof using Hm Ha.
  intros Hb0 Hb [Hft Hfl] Hfuel Hagain HQ. unfold rejected, counters_ok, fuel_ok, tunables_ok in *.
  pose proof (ok_width _ _ _ _ Hm item b Hb) as Hwd.
  assert (u32 (ftotal + 1) = ftotal + 1) as -> by (apply u32_small; unfold L in *; lia).
  assert (u32 (flocal + 1) = flocal + 1) as -> by (apply u32_small; unfold L in *; lia).
  assert (u32 (size b + local_fallback_retries a) = size b + local_fallback_retries a) as ->.
  { apply u32_small. unfold size in *. lia. }
  destruct (collide && _) eqn:E1; [|destruct ((0 <? _) && _) eqn:E2; [|destruct (_ <? tries a) eqn:E3; [|done]]].
  - apply andb_true_iff in E1 as [_ E1%Z.leb_le].
    apply (Hagain item); [done|unfold L in *; lia|]. unfold work_left in *. nia.
  - apply andb_true_iff in E2 as [_ E2%Z.leb_le].
    apply (Hagain item); [done|unfold L in *; lia|]. unfold work_left in *. nia.
  - apply Z.ltb_lt in E3. apply (Hagain item0); [done|unfold L in *; lia|].
    pose proof (ok_depth _ _ _ _ Hm item0). unfold work_left in *. nia.
Qed.

Lemma descend_ok fuel : forall item0 bucket item b rep count ftotal flocal out out2 work,
  bucket_of m item0 = Some bucket -> bucket_of m item = Some b -> space_ok m work -> 0 < count ->
  counters_ok ftotal flocal -> fuel_ok ftotal flocal item fuel ->
  exists res work', descend m weight args x rec a fuel bucket b rep count ftotal flocal out out2 work = Some (res, work') /\
    space_ok m work' /\ attempt_ok out out2 res.
Proof using Hm Hargs Ha Hrec.
  induction fuel as [|fuel IH]; intros item0 bucket item b rep count ftotal flocal out out2 work Hb0 Hb Hsp Hc Hct Hfuel.
  { unfold counters_ok, fuel_ok, tunables_ok, work_left, L in *. nia. }
  cbn [descend].
  assert (forall collide w1, space_ok m w1 -> exists res w',
    rejected a (fun b ftotal flocal work => descend m weight args x rec a fuel bucket b rep count ftotal flocal out out2 work)
      bucket b ftotal flocal collide w1 = Some (res, w') /\ space_ok m w' /\ attempt_ok out out2 res) as Hrej.
  { intros collide w1 Hsp1.
    apply (rejected_ok _ (fun o => exists res w', o = Some (res, w') /\ space_ok m w' /\ attempt_ok out out2 res)
      item0 _ item _ _ _ _ _ fuel); try done; [|by exists Skip, w1]. intros. by apply (IH item0 bucket item'). }
  destruct (size b =? 0) eqn:Es; [by apply Hrej|]. zbool.
  destruct (choose_item_ok (((0 <? local_fallback_retries a) && (Z.shiftr (size b) 1 <=? flocal)) &&
    (local_fallback_retries a <? flocal)) item b work (i32 (rep + parent_r a + ftotal)) (Z.of_nat (length out)))
    as (i & w1 & -> & Hi & Hsp1); [done|unfold size in Es; by destruct (items b)|done|lia|]. cbn [mbind option_bind].
  destruct (max_devices m <=? i) eqn:Emax; zbool; [by exists Skip, w1|].
  destruct (item_type_some item b i Hb Hi) as (ty & Ety & Hty & Hneg). rewrite Ety. cbn [mbind option_bind].
  destruct (ty =? f_type a) eqn:Et; zbool; cbn [negb].
  2: { destruct ((0 <=? i) || _) eqn:Eb; [by exists Skip, w1|]. zbool.
       destruct Hneg as (c & Hc' & Hr); [lia|]. rewrite Hc'. cbn [mbind option_bind].
       apply (IH item0 bucket i c); try done. unfold fuel_ok in *. lia. }
  case_bool_decide as Hcol; [by apply Hrej|].
  destruct (choose_leaf_ok i (i32 (rep + parent_r a + ftotal)) count out2 w1) as (res & w2 & -> & Hsp2 & Hleaf);
    [intros; destruct Hneg as (c & ? & _); [done|eauto]|done|done|]. cbn [mbind option_bind].
  destruct res as [leaf|]; [|by apply Hrej].
  assert (exists rej, (if ty =? 0 then is_out weight i x else Some false) = Some rej /\
    (ty = 0 -> is_out weight i x = Some rej)) as (rej & -> & Hrejd).
  { destruct (ty =? 0) eqn:E0; zbool; [|by exists false]. destruct (is_out_some i) as [o Ho]; [by apply Hty|].
    exists o. rewrite Ho. done. }
  cbn [mbind option_bind]. destruct rej; [by apply Hrej|].
  exists (Got i leaf), w2. split; [done|]. split; [done|]. split; [done|]. split; [|by apply Hleaf].
  split; [congruence|]. split; [lia|]. intros E0. split; [apply Hty; congruence|apply Hrejd; congruence].
Qed.

(** The leaves go with the items. *)
Definition leaves_ok (out out2 : list Z) : Prop :=
  recurse_to_leaf a = true ->
  length out2 = length out /\ NoDup out2 /\ Forall (usable 0) out2 /\ (f_type a = 0 -> out2 = out).

Lemma leaves_snoc out out2 item leaf : leaves_ok out out2 -> item ∉ out -> usable (f_type a) item ->
  leaf_good out2 item leaf ->
  leaves_ok (out ++ [item]) (if recurse_to_leaf a then out2 ++ [leaf] else out2).
Proof using Hm.
  intros Hl Hni Hu Hg Hr. rewrite Hr. destruct (Hl Hr) as (H1 & H2 & H3 & H4). specialize (Hg Hr).
  split; [rewrite !length_app; simpl; lia|]. destruct Hu as (Hty & Hmax & Hz).
  destruct (item <? 0) eqn:E; zbool.
  - destruct Hg as [Hn Hu]. split; [apply NoDup_snoc; done|]. split; [apply Forall_app; auto|].
    intros E0. destruct (Hz E0). lia.
  - subst leaf. unfold item_type in Hty. rewrite (proj2 (Z.ltb_ge item 0)) in Hty by lia. injection Hty as Hty.
    rewrite H4 by done. rewrite H4 in H2, H3 by done. split; [apply NoDup_snoc; done|].
    split; [|done]. apply Forall_app. split; [done|]. constructor; [|done].
    split; [|split; [done|intros _; by apply Hz]].
    unfold item_type. by rewrite (proj2 (Z.ltb_ge item 0)) by lia.
Qed.

Lemma firstn_loop_ok fuel n : forall item bucket rep count out out2 work,
  bucket_of m item = Some bucket -> space_ok m work -> fuel_ok 0 0 item fuel ->
  NoDup out -> Forall (usable (f_type a)) out -> leaves_ok out out2 ->
  exists new out2' work', firstn_loop m weight args x rec a fuel n bucket rep count out out2 work =
      Some (out ++ new, out2', work') /\
    space_ok m work' /\ NoDup (out ++ new) /\ Forall (usable (f_type a)) (out ++ new) /\
    leaves_ok (out ++ new) out2' /\ (length new <= n)%nat /\ Z.of_nat (length new) <= Z.max 0 count.
Proof using Hm Hargs Ha Hrec.
  induction n as [|n IH]; intros item bucket rep count out out2 work Hb Hsp Hfuel Hnd Hu Hl; simpl.
  { exists [], out2, work. rewrite app_nil_r. split_and!; try done; simpl; lia. }
  destruct (count <=? 0) eqn:Ec; zbool.
  { exists [], out2, work. rewrite app_nil_r. split_and!; try done; simpl; lia. }
  destruct (descend_ok fuel item bucket item bucket rep count 0 0 out out2 work) as (res & w1 & -> & Hsp1 & Hat);
    [done..|unfold counters_ok, L, tunables_ok in *; lia|done|]. cbn [mbind option_bind].
  destruct res as [i leaf|].
  - destruct Hat as (Hni & Hui & Hg).
    destruct (IH item bucket (rep + 1) (count - 1) (out ++ [i]) (if recurse_to_leaf a then out2 ++ [leaf] else out2) w1)
      as (new & out2' & w' & -> & Hsp' & Hnd' & Hu' & Hl' & Hn' & Hc'); [done..|by apply NoDup_snoc| |by apply leaves_snoc|].
    { apply Forall_app. auto. }
    rewrite <- app_assoc in *. simpl in *. exists (i :: new), out2', w'. split_and!; try done; simpl; lia.
  - destruct (IH item bucket (rep + 1) count out out2 w1) as (new & out2' & w' & -> & H); [done..|].
    exists new, out2', w'. split; [done|]. destruct H as (? & ? & ? & ? & ? & ?). split_and!; try done; lia.
Qed.
End Firstn.

Definition leaf_args (a : firstn_args) (sub_r : Z) : firstn_args := {|
  f_type := 0; tries := recurse_tries a; recurse_tries := 0;
  local_retries := local_retries a; local_fallback_retries := local_fallback_retries a;
  recurse_to_leaf := false; vary_r := vary_r a; stable := stable a; parent_r := sub_r |}.

(** Fuel for a replica: each of the [tries] descents may retry locally, and
    passes through at most [depth] buckets between retries. *)
Definition enough (a : firstn_args) (fuel : nat) : Prop :=
  (tries a * (L a + 1) + L a) * (Z.of_nat depth + 1) + Z.of_nat depth < Z.of_nat fuel.

Lemma enough_fuel a fuel item : tunables_ok a -> enough a fuel -> fuel_ok a 0 0 item fuel.
Proof using Hm.
  intros (H1 & _) H2. pose proof (ok_depth _ _ _ _ Hm item). unfold fuel_ok, enough, work_left in *.
  rewrite Z.max_r by lia. rewrite !Z.sub_0_r. lia.
Qed.

Lemma leaf_call a fuel : tunables_ok (leaf_args a 0) -> enough (leaf_args a 0) fuel ->
  leaf_call_ok (choose_firstn_leaf m weight args x fuel) a.
Proof using Hm Hargs.
  intros Hta Hen item c sub_r count out2 work Hb Hsp Hc. fold (leaf_args a sub_r). unfold choose_firstn_leaf.
  change (stable (leaf_args a sub_r)) with (stable a).
  assert (Z.to_nat ((if stable a then 1 else Z.of_nat (length out2) + 1) -
    (if stable a then 0 else Z.of_nat (length out2))) = 1%nat) as -> by (destruct (stable a); lia).
  cbn [firstn_loop]. rewrite (proj2 (Z.leb_gt count 0)) by lia.
  destruct (descend_ok (fun _ _ _ _ _ _ => None) (leaf_args a sub_r) Hta ltac:(done) fuel item c item c
    (if stable a then 0 else Z.of_nat (length out2)) count 0 0 out2 [] work) as (res & w1 & -> & Hsp1 & Hat);
    [done..|unfold counters_ok, L, tunables_ok in *; simpl in *; lia|by apply (enough_fuel (leaf_args a sub_r))|].
  cbn [mbind option_bind]. destruct res as [leaf lf|]; cbn [mbind option_bind recurse_to_leaf leaf_args].
  - exists (out2 ++ [leaf]), w1. split; [done|]. split; [done|]. right. exists leaf. destruct Hat as (? & ? & _). done.
  - exists out2, w1. split; [done|]. split; [done|]. by left.
Qed.

Lemma firstn_spec a fuel item bucket numrep out_size work :
  bucket_of m item = Some bucket -> space_ok m work -> 0 <= numrep -> 0 <= out_size ->
  tunables_ok a -> enough a fuel ->
  (recurse_to_leaf a = true -> tunables_ok (leaf_args a 0) /\ enough (leaf_args a 0) fuel) ->
  exists out out2 work', crush_choose_firstn m weight args x fuel bucket a numrep [] out_size [] work =
      Some (out, out2, work') /\
    space_ok m work' /\ NoDup out /\ Forall (usable (f_type a)) out /\ leaves_ok a out out2 /\
    Z.of_nat (length out) <= numrep /\ Z.of_nat (length out) <= out_size.
Proof using Hm Hargs.
  intros Hb Hsp Hn Ho Hta Hen Hleaf. unfold crush_choose_firstn. simpl length.
  destruct (firstn_loop_ok (choose_firstn_leaf m weight args x fuel) a Hta
    (fun Hr => leaf_call a fuel (proj1 (Hleaf Hr)) (proj2 (Hleaf Hr))) fuel
    (Z.to_nat (numrep - (if stable a then 0 else Z.of_nat 0))) item bucket
    (if stable a then 0 else Z.of_nat 0) out_size [] [] work)
    as (out & out2 & w' & -> & Hsp' & Hnd & Hu & Hl & Hlen & Hlen'); try done.
  - by apply enough_fuel.
  - apply NoDup_nil_2.
  - intros _. split; [done|]. split; [apply NoDup_nil_2|]. done.
  - simpl in *. exists out, out2, w'. split_and!; try done; destruct (stable a); lia.
Qed.

End Facts.
End CrushFacts.
