(* ===== verification/CrushIndep.v ===== *)
(** CRUSH placement by position: [crush_choose_indep] ends on well-formed maps,
    fills each position with a usable item or with CRUSH_ITEM_NONE, and never
    uses an item in two positions. *)
From S2P Require Import Prelude Pg CrushLn OSDMap Crush CrushChoice CrushFirstn.
Import Bits Binning.

Module IndepFacts.
Import Crush CrushLn Shuffle BucketChoice CrushFacts.

(** *** Updating slots of an array *)

Lemma foldl_alter (g : Z -> Z) (l : list nat) (out : list Z) j : (forall v, g (g v) = g v) ->
  foldl (fun o i => alter g i o) out l !! j = if decide (j ∈ l) then g <$> out !! j else out !! j.
Proof.
  intros Hg. revert out. induction l as [|i l IH]; intros out; [done|]. cbn [foldl]. rewrite IH.
  destruct (decide (i = j)) as [->|Hne].
  - rewrite list_lookup_alter_eq, (decide_True (P := j ∈ j :: l)) by set_solver.
    case_decide; [|done]. destruct (out !! j); simpl; [by rewrite Hg|done].
  - rewrite list_lookup_alter_ne by done.
    destruct (decide (j ∈ l)); [rewrite decide_True by set_solver|rewrite decide_False by set_solver]; done.
Qed.

Lemma foldl_ext_fun {A B} (f f' : A -> B -> A) a l : (forall a b, f a b = f' a b) -> foldl f a l = foldl f' a l.
Proof. intros H. revert a. induction l as [|b l IH]; intros a; simpl; [done|]. by rewrite H, IH. Qed.

Definition none_if_undef (v : Z) : Z := if v =? CRUSH_ITEM_UNDEF then CRUSH_ITEM_NONE else v.

Lemma fill_lookup outpos left v out j :
  fill outpos left v out !! j = if decide (j ∈ slots outpos left) then (fun _ => v) <$> out !! j else out !! j.
Proof.
  unfold fill. rewrite <- (foldl_alter (fun _ => v)) by done. f_equal. apply foldl_ext_fun. intros o i.
  apply list_eq. intros k. destruct (decide (i = k)) as [->|]; [|by rewrite list_lookup_insert_ne, list_lookup_alter_ne].
  rewrite list_lookup_alter_eq. destruct (o !! k) eqn:E; simpl.
  - rewrite list_lookup_insert_eq; [done|by eapply lookup_lt_Some].
  - apply lookup_ge_None in E. apply lookup_ge_None. by rewrite length_insert.
Qed.

Lemma finish_lookup outpos left out j :
  finish outpos left out !! j = if decide (j ∈ slots outpos left) then none_if_undef <$> out !! j else out !! j.
Proof.
  unfold finish. rewrite <- (foldl_alter none_if_undef).
  2: { intros v. unfold none_if_undef. by destruct (v =? CRUSH_ITEM_UNDEF) eqn:E; [|rewrite E]. }
  f_equal. apply foldl_ext_fun. intros o i. apply list_eq. intros k. case_bool_decide as E.
  - destruct (decide (i = k)) as [->|]; [|by rewrite list_lookup_insert_ne, list_lookup_alter_ne].
    rewrite list_lookup_alter_eq, E, list_lookup_insert_eq by by eapply lookup_lt_Some. done.
  - destruct (decide (i = k)) as [->|]; [|by rewrite list_lookup_alter_ne]. rewrite list_lookup_alter_eq.
    destruct (o !! k) as [v|] eqn:Ev; [|done]. simpl. f_equal. unfold none_if_undef.
    destruct (v =? CRUSH_ITEM_UNDEF) eqn:E'; zbool; [congruence|done].
Qed.

Section Indep.
Context (m : crush_map) (weight : list Z) (args : option (list crush_choose_arg)) (x : Z).
Context (rank : Z -> nat) (depth width : nat).
Hypotheses (Hm : map_ok m rank depth width) (Hargs : args_ok m args).
Context (rec : indep_call) (a : indep_args) (outpos left : nat).

Abbreviation usable := (usable m weight x).
Abbreviation slots := (slots outpos left).

Lemma usable_real ty v : usable ty v -> v <> CRUSH_ITEM_UNDEF /\ v <> CRUSH_ITEM_NONE.
Proof using Hm.
  intros (_ & H & _). pose proof (ok_max _ _ _ _ Hm). unfold CRUSH_ITEM_UNDEF, CRUSH_ITEM_NONE in *. lia.
Qed.

Lemma usable_leaf v : usable 0 v -> 0 <= v.
Proof. intros (_ & _ & H). by apply H. Qed.

(** The recursive call fills one slot, with nothing or with a usable device. *)
Definition slot_call_ok : Prop :=
  forall item c r o2 rep work,
    bucket_of m item = Some c -> space_ok m work -> (rep < length o2)%nat ->
    exists u work',
      rec c {| i_numrep := i_numrep a; i_type := 0; i_tries := i_recurse_tries a;
               i_recurse_tries := 0; i_recurse_to_leaf := false; i_parent_r := r |} o2 rep 1%nat work =
        Some (<[rep := u]> o2, work') /\
      space_ok m work' /\ (u = CRUSH_ITEM_NONE \/ usable 0 u).

Hypothesis (Hrec : i_recurse_to_leaf a = true -> slot_call_ok).

(** What placing one position does to the arrays. *)
Inductive placed (rep : nat) (out : list Z) (out2 : option (list Z)) : list Z -> option (list Z) -> Prop :=
  | placed_nothing : placed rep out out2 out out2
  | placed_leaf_only u : 0 <= u -> (i_type a <> 0 -> u = CRUSH_ITEM_NONE) -> placed rep out out2 out (set_slot rep u out2)
  | placed_none : placed rep out out2 (<[rep := CRUSH_ITEM_NONE]> out) (set_slot rep CRUSH_ITEM_NONE out2)
  | placed_item item out2' : usable (i_type a) item -> (forall i, i ∈ slots -> out !! i <> Some item) ->
      (if i_recurse_to_leaf a then exists u, out2' = set_slot rep u out2 /\ usable 0 u else out2' = out2) ->
      placed rep out out2 (<[rep := item]> out) out2'.

Definition has_leaves (rep : nat) (out2 : option (list Z)) : Prop :=
  i_recurse_to_leaf a = true -> exists o2, out2 = Some o2 /\ (rep < length o2)%nat.

(** The leaf step of [place]: whether to go on, and the leaf array. *)
Definition leaf_step (rep : nat) (item r : Z) (out2 : option (list Z)) (work : crush_work)
    : option (bool * option (list Z) * crush_work) :=
  if negb (i_recurse_to_leaf a) then Some (true, out2, work)
  else if item <? 0 then
    c ← bucket_of m item;
    o2 ← out2;
    '(o2, work) ← rec c {| i_numrep := i_numrep a; i_type := 0; i_tries := i_recurse_tries a;
        i_recurse_tries := 0; i_recurse_to_leaf := false; i_parent_r := r |} o2 rep 1%nat work;
    Some (negb (bool_decide (o2 !! rep = Some CRUSH_ITEM_NONE)), Some o2, work)
  else Some (true, set_slot rep item out2, work).

Lemma leaf_step_ok rep item r out2 work :
  (item < 0 -> exists c, bucket_of m item = Some c) -> space_ok m work -> has_leaves rep out2 ->
  exists ok out2' work', leaf_step rep item r out2 work = Some (ok, out2', work') /\ space_ok m work' /\
    if i_recurse_to_leaf a then
      exists u, out2' = set_slot rep u out2 /\
        if item <? 0 then (if ok then usable 0 u else u = CRUSH_ITEM_NONE) else ok = true /\ u = item
    else ok = true /\ out2' = out2.
Proof using Hm Hrec.
  intros Hb Hsp Hl. unfold leaf_step. destruct (i_recurse_to_leaf a) eqn:Er; simpl.
  2: { eexists _, _, _. split; [done|]. done. }
  destruct (item <? 0) eqn:E; zbool.
  2: { eexists _, _, _. split; [done|]. split; [done|]. by exists item. }
  destruct (Hb E) as [c Ec]. rewrite Ec. destruct (Hl Er) as (o2 & -> & Hlen). cbn [mbind option_bind].
  destruct (Hrec eq_refl item c r o2 rep work) as (u & w' & -> & Hsp' & Hu); [done..|]. cbn [mbind option_bind].
  rewrite list_lookup_insert_eq by done. eexists _, _, _. split; [done|]. split; [done|].
  exists u. split; [done|]. case_bool_decide as En; simpl.
  - by injection En.
  - destruct Hu; [congruence|done].
Qed.

Lemma place_ok fuel : forall item b rep ftotal out out2 work,
  bucket_of m item = Some b -> space_ok m work -> (rank item < fuel)%nat -> has_leaves rep out2 ->
  exists out' out2' work', place m weight args x rec a outpos left fuel b rep ftotal out out2 work = Some (out', out2', work') /\
    space_ok m work' /\ placed rep out out2 out' out2'.
Proof using Hm Hargs Hrec.
  induction fuel as [|fuel IH]; intros item b rep ftotal out out2 work Hb Hsp Hf Hl; [lia|]. cbn [place].
  destruct (size b =? 0) eqn:Es; zbool; [by eexists _, _, _; split_and!; [done|done|constructor]|].
  set (r := i32 _).
  destruct (choose_item_ok m args x rank depth width Hm Hargs false item b work r (Z.of_nat outpos))
    as (i & w1 & -> & Hi & Hsp1); [done|unfold size in Es; by destruct (items b)|done|lia|]. cbn [mbind option_bind].
  destruct (max_devices m <=? i) eqn:Emax; zbool; [by eexists _, _, _; split_and!; [done|done|constructor]|].
  destruct (item_type_some m rank depth width Hm item b i Hb Hi) as (ty & Ety & Hty & Hneg). rewrite Ety. cbn [mbind option_bind].
  destruct (ty =? i_type a) eqn:Et; zbool; cbn [negb].
  2: { destruct ((0 <=? i) || _) eqn:Eb; [by eexists _, _, _; split_and!; [done|done|constructor]|]. zbool.
       destruct Hneg as (c & Hc' & Hr); [lia|]. rewrite Hc'. cbn [mbind option_bind]. apply (IH i c); try done. lia. }
  destruct (existsb _ slots) eqn:Ecol; [by eexists _, _, _; split_and!; [done|done|constructor]|].
  assert (forall k, k ∈ slots -> out !! k <> Some i) as Hnew.
  { intros k Hk Ek. assert (existsb (fun i0 => bool_decide (out !! i0 = Some i)) slots = true); [|congruence].
    apply existsb_exists. exists k. split; [by apply list_elem_of_In|by apply bool_decide_eq_true_2]. }
  destruct (leaf_step_ok rep i r out2 w1) as (ok & out2' & w2 & E2 & Hsp2 & Hleaf);
    [intros; destruct Hneg as (c & ? & _); [done|eauto]|done|done|].
  unfold leaf_step in E2. rewrite E2. clear E2. cbn [mbind option_bind].
  assert (exists o, (if ty =? 0 then is_out weight i x else Some false) = Some o /\
    (ty = 0 -> is_out weight i x = Some o) /\ (o = true -> ty = 0)) as (o & -> & Ho & Ho').
  { destruct (ty =? 0) eqn:E0; zbool; [|by exists false]. destruct (is_out_some weight x i) as [o Ho]; [by apply Hty|].
    exists o. rewrite Ho. done. }
  assert (i < 0 -> i_type a <> 0) as Hnz by (intros Hi0 E0; assert (0 <= i) by (apply Hty; congruence); lia).
  cbn [mbind option_bind]. destruct ok; cbn [negb]; [destruct o|].
  - eexists _, _, _. split; [done|]. split; [done|]. destruct (i_recurse_to_leaf a); [|destruct Hleaf as [_ ->]; constructor].
    destruct Hleaf as (u & -> & Hu). constructor; [|intros Hnt; specialize (Ho' eq_refl); congruence].
    destruct (i <? 0) eqn:E; zbool; [by apply usable_leaf|]. by destruct Hu as [_ ->].
  - eexists _, _, _. split; [done|]. split; [done|].
    assert (usable (i_type a) i) as Hu.
    { split; [congruence|]. split; [lia|]. intros E0. split; [apply Hty; congruence|apply Ho; congruence]. }
    constructor; [done|done|]. destruct (i_recurse_to_leaf a); [|by destruct Hleaf as [_ ->]].
    destruct Hleaf as (u & -> & Hl'). exists u. split; [done|]. destruct (i <? 0) eqn:E; zbool; [done|].
    destruct Hl' as [_ ->]. replace 0 with (i_type a); [done|]. rewrite <- Et. by apply Hty.
  - eexists _, _, _. split; [done|]. split; [done|]. destruct (i_recurse_to_leaf a); [|by destruct Hleaf].
    destruct Hleaf as (u & -> & Hu). destruct (i <? 0) eqn:E; [|by destruct Hu]. subst u. by constructor.
Qed.

(** The array of items: every slot is open, given up or holds a usable item,
    and no item occurs twice; outside the slots nothing changes. *)
Record items_inv (out0 out : list Z) : Prop := {
  inv_length : length out = length out0;
  inv_frame : forall i, i ∉ slots -> out !! i = out0 !! i;
  inv_slot : forall i, i ∈ slots -> exists v, out !! i = Some v /\
    (v = CRUSH_ITEM_UNDEF \/ v = CRUSH_ITEM_NONE \/ usable (i_type a) v);
  inv_distinct : forall i j v, i ∈ slots -> j ∈ slots -> out !! i = Some v -> out !! j = Some v ->
    usable (i_type a) v -> i = j
}.

(** The leaf that goes with the content of a slot. *)
Definition leaf_inv (out : list Z) (out2 : option (list Z)) : Prop :=
  i_recurse_to_leaf a = true ->
  exists o2, out2 = Some o2 /\ length o2 = length out /\
    forall i v, i ∈ slots -> out !! i = Some v -> exists u, o2 !! i = Some u /\ 0 <= u /\
      (usable (i_type a) v -> usable 0 u) /\
      (i_type a <> 0 -> ~ usable (i_type a) v -> u = CRUSH_ITEM_UNDEF \/ u = CRUSH_ITEM_NONE).

Lemma placed_inv rep out0 out out2 out' out2' :
  rep ∈ slots -> items_inv out0 out -> leaf_inv out out2 -> out !! rep = Some CRUSH_ITEM_UNDEF ->
  placed rep out out2 out' out2' -> items_inv out0 out' /\ leaf_inv out' out2'.
Proof using Hm.
  clear Hrec. intros Hrep Hi Hl Hu Hp. assert (rep < length out)%nat as Hlt by by eapply lookup_lt_Some.
  assert (~ usable (i_type a) CRUSH_ITEM_UNDEF) as Hnu by (intros H; by destruct (usable_real _ _ H)).
  assert (~ usable (i_type a) CRUSH_ITEM_NONE) as Hnn by (intros H; by destruct (usable_real _ _ H)).
  assert (forall v, v = CRUSH_ITEM_NONE \/ (usable (i_type a) v /\ forall i, i ∈ slots -> out !! i <> Some v) ->
    items_inv out0 (<[rep := v]> out)) as Hput.
  { intros v Hv. split.
    - rewrite length_insert. apply Hi.
    - intros i Hni. rewrite list_lookup_insert_ne by (intros ->; done). by apply Hi.
    - intros i Hs. destruct (decide (i = rep)) as [->|].
      + exists v. rewrite list_lookup_insert_eq by done. split; [done|]. destruct Hv as [->|[? _]]; auto.
      + rewrite list_lookup_insert_ne by done. by apply Hi.
    - intros i j w Hsi Hsj Ei Ej Hw. destruct (decide (i = rep)) as [->|Hni], (decide (j = rep)) as [->|Hnj]; [done| | |].
      + rewrite list_lookup_insert_eq in Ei by done. rewrite list_lookup_insert_ne in Ej by done. simplify_eq.
        destruct Hv as [->|[_ Hv]]; [done|]. by destruct (Hv j Hsj).
      + rewrite list_lookup_insert_eq in Ej by done. rewrite list_lookup_insert_ne in Ei by done. simplify_eq.
        destruct Hv as [->|[_ Hv]]; [done|]. by destruct (Hv i Hsi).
      + rewrite list_lookup_insert_ne in Ei, Ej by done. by eapply Hi. }
  assert (forall v u, 0 <= u -> (usable (i_type a) v -> usable 0 u) ->
    (i_type a <> 0 -> ~ usable (i_type a) v -> u = CRUSH_ITEM_UNDEF \/ u = CRUSH_ITEM_NONE) ->
    leaf_inv (<[rep := v]> out) (set_slot rep u out2)) as Hleaf.
  { intros v u H0 H1 H2 Hr. destruct (Hl Hr) as (o2 & -> & Hlen & H). exists (<[rep := u]> o2). split; [done|].
    split; [by rewrite !length_insert|]. intros i w Hs Ew. destruct (decide (i = rep)) as [->|].
    - rewrite list_lookup_insert_eq in Ew by done. simplify_eq. exists u. rewrite list_lookup_insert_eq by lia. done.
    - rewrite list_lookup_insert_ne in Ew by done. rewrite list_lookup_insert_ne by done. by apply H. }
  destruct Hp as [|u Hu0 Hn| |item out2' Husable Hnew Hif].
  - done.
  - split; [done|]. specialize (Hleaf CRUSH_ITEM_UNDEF u). rewrite (list_insert_id out rep) in Hleaf by done.
    apply Hleaf; [done|intros H; by destruct (Hnu H)|]. intros H _. right. by apply Hn.
  - split; [apply Hput; by left|]. apply Hleaf; [done|intros H; by destruct (Hnn H)|]. intros _ _. by right.
  - split; [apply Hput; auto|]. destruct (i_recurse_to_leaf a) eqn:Er; [|intros Hr; rewrite Er in Hr; discriminate Hr].
    destruct Hif as (u & -> & Hu0). apply Hleaf; [by apply usable_leaf|done|done].
Qed.

Lemma has_leaves_inv rep out out2 : leaf_inv out out2 -> (rep < length out)%nat -> has_leaves rep out2.
Proof. intros Hl Hlt Hr. destruct (Hl Hr) as (o2 & -> & Hlen & _). exists o2. split; [done|lia]. Qed.

Lemma indep_pass_ok fuel item bucket ftotal out0 reps : forall out out2 work,
  bucket_of m item = Some bucket -> (rank item < fuel)%nat -> (forall i, i ∈ reps -> i ∈ slots) ->
  space_ok m work -> items_inv out0 out -> leaf_inv out out2 ->
  exists out' out2' work', indep_pass m weight args x rec a outpos left fuel reps bucket ftotal out out2 work = Some (out', out2', work') /\
    space_ok m work' /\ items_inv out0 out' /\ leaf_inv out' out2'.
Proof using Hm Hargs Hrec.
  induction reps as [|rep reps IH]; intros out out2 work Hb Hf Hreps Hsp Hi Hl; cbn [indep_pass].
  { eexists _, _, _. split; [done|]. done. }
  case_bool_decide as Hu; cbn [negb]; [|apply IH; try done; set_solver].
  assert (rep ∈ slots) as Hrep by (apply Hreps; set_solver).
  destruct (place_ok fuel item bucket rep ftotal out out2 work) as (out' & out2' & w' & -> & Hsp' & Hp);
    [done..|eapply has_leaves_inv; [done|by eapply lookup_lt_Some]|]. cbn [mbind option_bind].
  destruct (placed_inv rep out0 out out2 out' out2' Hrep Hi Hl Hu Hp) as [Hi' Hl'].
  apply IH; try done. set_solver.
Qed.

Lemma indep_loop_ok fuel n item bucket out0 : forall ftotal out out2 work,
  bucket_of m item = Some bucket -> (rank item < fuel)%nat ->
  space_ok m work -> items_inv out0 out -> leaf_inv out out2 ->
  exists out' out2' work', indep_loop m weight args x rec a outpos left fuel n bucket ftotal out out2 work = Some (out', out2', work') /\
    space_ok m work' /\ items_inv out0 out' /\ leaf_inv out' out2'.
Proof using Hm Hargs Hrec.
  induction n as [|n IH]; intros ftotal out out2 work Hb Hf Hsp Hi Hl; cbn [indep_loop];
    [eexists _, _, _; split; [done|]; done|].
  destruct (undefined _ _ out); cbn [negb]; [|eexists _, _, _; split; [done|]; done].
  destruct (indep_pass_ok fuel item bucket ftotal out0 slots out out2 work) as (out' & out2' & w' & -> & Hsp' & Hi' & Hl');
    [done..|]. cbn [mbind option_bind]. by apply IH.
Qed.

(** The final arrays: as during the loop, with no slot left open. *)
Record items_done (out0 out : list Z) : Prop := {
  done_length : length out = length out0;
  done_frame : forall i, i ∉ slots -> out !! i = out0 !! i;
  done_slot : forall i, i ∈ slots -> exists v, out !! i = Some v /\
    (v = CRUSH_ITEM_NONE \/ usable (i_type a) v);
  done_distinct : forall i j v, i ∈ slots -> j ∈ slots -> out !! i = Some v -> out !! j = Some v ->
    v <> CRUSH_ITEM_NONE -> i = j
}.

Definition leaves_done (out : list Z) (out2 : option (list Z)) : Prop :=
  i_recurse_to_leaf a = true ->
  exists o2, out2 = Some o2 /\ length o2 = length out /\
    forall i v, i ∈ slots -> out !! i = Some v -> exists u, o2 !! i = Some u /\ 0 <= u /\
      (v <> CRUSH_ITEM_NONE -> usable 0 u) /\
      (i_type a <> 0 -> v = CRUSH_ITEM_NONE -> u = CRUSH_ITEM_NONE).

Lemma length_finish out : length (finish outpos left out) = length out.
Proof.
  unfold finish. generalize slots. intros l. revert out. induction l as [|i l IH]; intros out; [done|]. cbn [foldl].
  rewrite IH. case_bool_decide; [apply length_insert|done].
Qed.

Lemma length_fill v out : length (fill outpos left v out) = length out.
Proof.
  unfold fill. generalize slots. intros l. revert out. induction l as [|i l IH]; intros out; [done|]. cbn [foldl].
  rewrite IH. apply length_insert.
Qed.

Lemma none_if_undef_spec v : v = CRUSH_ITEM_UNDEF \/ v = CRUSH_ITEM_NONE \/ usable (i_type a) v ->
  (none_if_undef v = CRUSH_ITEM_NONE /\ ~ usable (i_type a) v) \/ (none_if_undef v = v /\ usable (i_type a) v).
Proof using Hm.
  clear Hrec. intros Hv. unfold none_if_undef. destruct (v =? CRUSH_ITEM_UNDEF) eqn:E; zbool.
  - left. split; [done|]. intros H. by destruct (usable_real _ _ H).
  - destruct Hv as [?|[->|?]]; [done|left|by right]. split; [done|]. intros H. by destruct (usable_real _ _ H).
Qed.

Lemma fill_slot out i : i ∈ slots -> (i < length out)%nat ->
  fill outpos left CRUSH_ITEM_UNDEF out !! i = Some CRUSH_ITEM_UNDEF.
Proof.
  intros Hs Hlt. rewrite fill_lookup, decide_True by done.
  by destruct (lookup_lt_is_Some_2 out i Hlt) as [v ->].
Qed.

Lemma init_inv out0 out2 : (forall i, i ∈ slots -> (i < length out0)%nat) ->
  (i_recurse_to_leaf a = true -> exists o2, out2 = Some o2 /\ length o2 = length out0) ->
  items_inv out0 (fill outpos left CRUSH_ITEM_UNDEF out0) /\
  leaf_inv (fill outpos left CRUSH_ITEM_UNDEF out0) (fill outpos left CRUSH_ITEM_UNDEF <$> out2).
Proof using Hm.
  clear Hrec. intros Hs H2.
  assert (~ usable (i_type a) CRUSH_ITEM_UNDEF) as Hnu by (intros H; by destruct (usable_real _ _ H)).
  split; [split|].
  - apply length_fill.
  - intros i Hi. by rewrite fill_lookup, decide_False.
  - intros i Hi. exists CRUSH_ITEM_UNDEF. split; [by apply fill_slot; auto|by left].
  - intros i j v Hi Hj Ei Ej Hv. rewrite fill_slot in Ei by auto. injection Ei as <-. by destruct (Hnu Hv).
  - intros Hr. destruct (H2 Hr) as (o2 & -> & Hlen). eexists. split; [done|].
    split; [by rewrite !length_fill|]. intros i v Hi Ev. rewrite fill_slot in Ev by auto. injection Ev as <-.
    exists CRUSH_ITEM_UNDEF. split; [apply fill_slot; [done|rewrite Hlen; auto]|].
    split; [done|]. split; [intros H; by destruct (Hnu H)|]. intros _ _. by left.
Qed.

Lemma done_inv out0 out out2 : items_inv out0 out -> leaf_inv out out2 ->
  items_done out0 (finish outpos left out) /\ leaves_done (finish outpos left out) (finish outpos left <$> out2).
Proof using Hm.
  clear Hrec. intros Hi Hl.
  assert (forall i w, i ∈ slots -> finish outpos left out !! i = Some w -> exists v, out !! i = Some v /\
    ((w = CRUSH_ITEM_NONE /\ ~ usable (i_type a) v) \/ (w = v /\ usable (i_type a) v))) as Hf.
  { intros i w Hs. rewrite finish_lookup, decide_True by done. destruct (inv_slot _ _ Hi i Hs) as (v & -> & Hv).
    intros [= <-]. exists v. split; [done|]. by apply none_if_undef_spec. }
  split; [split|].
  - rewrite length_finish. apply Hi.
  - intros i Hs. rewrite finish_lookup, decide_False by done. by apply Hi.
  - intros i Hs. destruct (inv_slot _ _ Hi i Hs) as (v & Ev & Hv). exists (none_if_undef v).
    rewrite finish_lookup, decide_True, Ev by done. split; [done|].
    destruct (none_if_undef_spec v Hv) as [[-> _]|[-> ?]]; auto.
  - intros i j w Hsi Hsj Ei Ej Hw. destruct (Hf i w Hsi Ei) as (v & Ev & [[-> _]|[-> Hu]]); [done|].
    destruct (Hf j v Hsj Ej) as (v' & Ev' & [[-> _]|[-> _]]); [done|]. by eapply (inv_distinct _ _ Hi).
  - intros Hr. destruct (Hl Hr) as (o2 & -> & Hlen & H). eexists. split; [done|].
    split; [by rewrite !length_finish|]. intros i w Hs Ew. destruct (Hf i w Hs Ew) as (v & Ev & Hv).
    destruct (H i v Hs Ev) as (u & Eu & H0 & H1 & H2'). exists (none_if_undef u).
    rewrite finish_lookup, decide_True, Eu by done. split; [done|]. split; [unfold none_if_undef; by case_match|]. unfold none_if_undef.
    destruct Hv as [[-> Hv]|[-> Hv]].
    + split; [done|]. intros Hne _. destruct (H2' Hne Hv) as [-> | ->]; by case_match.
    + specialize (H1 Hv). split; [|intros _ Hn; destruct (usable_real _ _ Hv) as [_ []]; exact Hn]. intros _.
      destruct (u =? CRUSH_ITEM_UNDEF) eqn:E; zbool; [|done]. destruct (usable_real _ _ H1) as [[] _]. exact E.
Qed.

Lemma choose_indep_ok fuel item bucket out0 out2 work :
  bucket_of m item = Some bucket -> (rank item < fuel)%nat -> space_ok m work ->
  (forall i, i ∈ slots -> (i < length out0)%nat) ->
  (i_recurse_to_leaf a = true -> exists o2, out2 = Some o2 /\ length o2 = length out0) ->
  exists out' out2' work', choose_indep m weight args x rec a outpos left fuel bucket out0 out2 work = Some (out', out2', work') /\
    space_ok m work' /\ items_done out0 out' /\ leaves_done out' out2'.
Proof using Hm Hargs Hrec.
  intros Hb Hf Hsp Hslots H2. unfold choose_indep. destruct (init_inv out0 out2 Hslots H2) as [Hi0 Hl0].
  destruct (indep_loop_ok fuel (Z.to_nat (i_tries a)) item bucket out0 0 (fill outpos left CRUSH_ITEM_UNDEF out0)
    (fill outpos left CRUSH_ITEM_UNDEF <$> out2) work) as (out & o2' & w' & -> & Hsp' & Hi & Hl); [done..|].
  eexists _, _, _. split; [done|]. split; [done|]. by apply done_inv.
Qed.

End Indep.

Section Top.
Context (m : crush_map) (weight : list Z) (args : option (list crush_choose_arg)) (x : Z).
Context (rank : Z -> nat) (depth width : nat).
Hypotheses (Hm : map_ok m rank depth width) (Hargs : args_ok m args).

Lemma slot_call a fuel : (depth < fuel)%nat -> slot_call_ok m weight x (choose_indep_leaf m weight args x fuel) a.
Proof using Hm Hargs.
  intros Hf item c r o2 rep work Hb Hsp Hlt. unfold choose_indep_leaf.
  set (a' := {| i_numrep := _; i_type := 0; i_tries := _; i_recurse_tries := 0; i_recurse_to_leaf := false; i_parent_r := r |}).
  pose proof (ok_depth _ _ _ _ Hm item) as Hd.
  destruct (choose_indep_ok m weight args x rank depth width Hm Hargs (fun _ _ _ _ _ _ => None) a' rep 1 ltac:(done)
    fuel item c o2 None work) as (out' & out2' & w' & -> & Hsp' & Hdone & _); [done|lia|done| |done|].
  { intros i Hi. unfold slots in Hi. apply elem_of_seq in Hi. lia. }
  cbn [mbind option_bind]. assert (rep ∈ slots rep 1) as Hrep by (apply elem_of_seq; lia).
  destruct (done_slot _ _ _ _ _ _ _ _ Hdone rep Hrep) as (u & Eu & Hu).
  exists u, w'. split; [|split; [done|exact Hu]]. do 2 f_equal. apply list_eq. intros i.
  destruct (decide (i = rep)) as [->|Hne]; [by rewrite Eu, list_lookup_insert_eq|].
  rewrite list_lookup_insert_ne by done. apply (done_frame _ _ _ _ _ _ _ _ Hdone).
  unfold slots. rewrite elem_of_seq. lia.
Qed.

Lemma indep_spec a fuel item bucket left work :
  bucket_of m item = Some bucket -> space_ok m work -> (depth < fuel)%nat ->
  exists out out2 work', crush_choose_indep m weight args x fuel bucket a left work = Some (out, out2, work') /\
    space_ok m work' /\ length out = left /\
    (forall i v, out !! i = Some v -> v = CRUSH_ITEM_NONE \/ usable m weight x (i_type a) v) /\
    (forall i j v, out !! i = Some v -> out !! j = Some v -> v <> CRUSH_ITEM_NONE -> i = j) /\
    (i_recurse_to_leaf a = true -> length out2 = left /\
      forall i v, out !! i = Some v -> exists u, out2 !! i = Some u /\ 0 <= u /\
        (v <> CRUSH_ITEM_NONE -> usable m weight x 0 u) /\
        (i_type a <> 0 -> v = CRUSH_ITEM_NONE -> u = CRUSH_ITEM_NONE)).
Proof using Hm Hargs.
  intros Hb Hsp Hf. unfold crush_choose_indep. pose proof (ok_depth _ _ _ _ Hm item) as Hd.
  destruct (choose_indep_ok m weight args x rank depth width Hm Hargs (choose_indep_leaf m weight args x fuel) a 0 left
    (fun _ => slot_call a fuel Hf) fuel item bucket (replicate left 0) (Some (replicate left 0)) work)
    as (out & o2 & w' & -> & Hsp' & Hdone & Hleaves); [done|lia|done| |by eauto|].
  { intros i Hi. rewrite length_replicate. unfold slots in Hi. apply elem_of_seq in Hi. lia. }
  cbn [mbind option_bind]. eexists _, _, _. split; [done|]. split; [done|].
  assert (length out = left) as Hlen by (rewrite (done_length _ _ _ _ _ _ _ _ Hdone); apply length_replicate).
  assert (forall i v, out !! i = Some v -> i ∈ slots 0 left) as Hs.
  { intros i v Ev%lookup_lt_Some. unfold slots. apply elem_of_seq. lia. }
  split; [done|]. split; [|split].
  - intros i v Ev. destruct (done_slot _ _ _ _ _ _ _ _ Hdone i) as (v' & Ev' & Hv); [by eapply Hs|]. congruence.
  - intros i j v Ei Ej Hv. apply (done_distinct _ _ _ _ _ _ _ _ Hdone i j v); eauto.
  - intros Hr. destruct (Hleaves Hr) as (o & -> & Hlen' & H). simpl. split; [congruence|]. eauto.
Qed.
End Top.
End IndepFacts.
