(* ===== verification/CrushRule.v ===== *)
(** CRUSH rules: on well-formed maps every rule ends, within the result bound;
    the rules of replicated and of erasure-coded pools select usable devices. *)
From S2P Require Import Prelude Pg CrushLn OSDMap Crush CrushChoice CrushFirstn CrushIndep.
Import Bits Binning.

Module RuleFacts.
Import Crush CrushLn Shuffle BucketChoice CrushFacts IndepFacts.

(** A rule whose overrides of the tunables stay within limits: [T] tries, [R]
    local retries and [F] local fallback retries. *)
Definition step_ok (T R F : Z) (st : crush_rule_step) : Prop :=
  match op st with
  | CRUSH_RULE_SET_CHOOSE_TRIES | CRUSH_RULE_SET_CHOOSELEAF_TRIES => arg1 st <= T
  | CRUSH_RULE_SET_CHOOSE_LOCAL_TRIES => arg1 st <= R
  | CRUSH_RULE_SET_CHOOSE_LOCAL_FALLBACK_TRIES => arg1 st <= F
  | _ => True
  end.

(** The tunables of the map are within the limits. *)
Definition map_limits (m : crush_map) (T R F : Z) : Prop :=
  0 <= choose_total_tries m < T /\ 0 <= choose_local_tries m <= R /\ 0 <= choose_local_fallback_tries m <= F.

(** The limits keep the 32-bit counters from wrapping, and the fuel covers
    them. *)
Definition limits_ok (T R F : Z) (depth width fuel : nat) : Prop :=
  T + R + F + Z.of_nat width + 2 < two32 /\
  (T * (R + F + Z.of_nat width + 1) + (R + F + Z.of_nat width)) * (Z.of_nat depth + 1) + Z.of_nat depth < Z.of_nat fuel.

Section Rule.
Context (m : crush_map) (weight : list Z) (args : option (list crush_choose_arg)) (x : Z).
Context (rank : Z -> nat) (depth width : nat).
Hypotheses (Hm : map_ok m rank depth width) (Hargs : args_ok m args).
Context (T R F : Z) (fuel : nat) (result_max : Z).
Hypotheses (Hlim : limits_ok T R F depth width fuel) (Hmax : 0 <= result_max).

Abbreviation usable := (usable m weight x).

(** An entry of a working vector: a device, a hole or an existing bucket. *)
Definition good (i : Z) : Prop := i < 0 -> exists b, bucket_of m i = Some b.

Lemma usable_good ty i : usable ty i -> good i.
Proof.
  intros (H & _ & _) Hi. unfold item_type in H. rewrite (proj2 (Z.ltb_lt i 0)) in H by lia.
  destruct (bucket_of m i); [eauto|done].
Qed.

Record tuned (s : rule_state) : Prop := {
  tuned_tries : 0 <= choose_tries s <= T;
  tuned_leaf_tries : 0 <= choose_leaf_tries s <= T;
  tuned_local : 0 <= choose_local_retries s <= R;
  tuned_fallback : 0 <= choose_local_fallback_retries s <= F
}.

Record state_ok (s : rule_state) : Prop := {
  st_tuned : tuned s;
  st_space : space_ok m (r_work s);
  st_w : Forall good (w s);
  st_w_size : Z.of_nat (length (w s)) <= Z.max 1 result_max;
  st_result : Forall good (result s);
  st_result_size : Z.of_nat (length (result s)) <= result_max
}.

(** The arguments a choose step passes on. *)
Definition firstn_of (leaf : bool) (arg2 : Z) (s : rule_state) : firstn_args := {|
  f_type := arg2; tries := choose_tries s;
  recurse_tries := if negb (choose_leaf_tries s =? 0) then choose_leaf_tries s
                   else if negb (chooseleaf_descend_once m =? 0) then 1 else choose_tries s;
  local_retries := choose_local_retries s; local_fallback_retries := choose_local_fallback_retries s;
  recurse_to_leaf := leaf; vary_r := r_vary_r s; stable := negb (r_stable s =? 0); parent_r := 0 |}.

Definition indep_of (leaf : bool) (numrep arg2 : Z) (s : rule_state) : indep_args := {|
  i_numrep := numrep; i_type := arg2; i_tries := choose_tries s;
  i_recurse_tries := if negb (choose_leaf_tries s =? 0) then choose_leaf_tries s else 1;
  i_recurse_to_leaf := leaf; i_parent_r := 0 |}.

Lemma within a t lr lf : tries a = t -> local_retries a = lr -> local_fallback_retries a = lf ->
  0 <= t <= T -> 0 <= lr <= R -> 0 <= lf <= F -> tunables_ok width a /\ enough depth width a fuel.
Proof using Hlim.
  intros <- <- <- Ht Hr Hf. unfold limits_ok in Hlim. unfold tunables_ok, enough, L. destruct Hlim as [H1 H2].
  split; [lia|]. eapply Z.le_lt_trans; [|exact H2].
  apply Z.add_le_mono_r, Z.mul_le_mono_nonneg_r; [lia|]. apply Z.add_le_mono; [|lia].
  apply Z.mul_le_mono_nonneg; lia.
Qed.

Lemma deep s : 1 <= T -> tuned s -> (depth < fuel)%nat.
Proof using Hlim.
  intros HT [_ _ H3 H4]. destruct Hlim as [_ H].
  assert (0 <= T * (R + F + Z.of_nat width + 1)) by (apply Z.mul_nonneg_nonneg; lia).
  assert (0 <= (T * (R + F + Z.of_nat width + 1) + (R + F + Z.of_nat width)) * (Z.of_nat depth + 1))
    by (apply Z.mul_nonneg_nonneg; lia). lia.
Qed.

Lemma firstn_call_ok leaf arg2 s item b numrep out_size work :
  1 <= T -> tuned s -> bucket_of m item = Some b -> space_ok m work -> 0 <= numrep -> 0 <= out_size ->
  exists out out2 work', crush_choose_firstn m weight args x fuel b (firstn_of leaf arg2 s) numrep [] out_size [] work =
      Some (out, out2, work') /\
    space_ok m work' /\ NoDup out /\ Forall (usable arg2) out /\ leaves_ok m weight x (firstn_of leaf arg2 s) out out2 /\
    Z.of_nat (length out) <= numrep /\ Z.of_nat (length out) <= out_size.
Proof using Hm Hargs Hlim.
  intros HT [H1 H2 H3 H4] Hb Hsp Hn Ho.
  destruct (within (firstn_of leaf arg2 s) _ _ _ eq_refl eq_refl eq_refl H1 H3 H4) as [Ha He].
  eapply (firstn_spec m weight args x rank depth width Hm Hargs); [done..|]. intros _.
  apply (within (leaf_args (firstn_of leaf arg2 s) 0) _ _ _ eq_refl eq_refl eq_refl); [|done|done].
  simpl. repeat case_match; lia.
Qed.

(** What a choose step adds for one entry of the working vector. *)
Definition added (leaf : bool) (room : Z) (out out2 : list Z) : Prop :=
  Forall good out /\ Z.of_nat (length out) <= room /\
  (leaf = true -> Forall good out2 /\ length out2 = length out).

Lemma firstn_added leaf arg2 s out out2 room :
  Forall (usable arg2) out -> leaves_ok m weight x (firstn_of leaf arg2 s) out out2 ->
  Z.of_nat (length out) <= room -> added leaf room out out2.
Proof.
  intros Hu Hl Hlen. split; [eapply Forall_impl; [exact Hu|apply usable_good]|]. split; [done|].
  intros ->. destruct (Hl eq_refl) as (H1 & _ & H3 & _). split; [|done].
  eapply Forall_impl; [exact H3|apply usable_good].
Qed.

Lemma nonneg_good i : 0 <= i -> good i.
Proof. intros H1 H2. lia. Qed.

Lemma none_nonneg : 0 <= CRUSH_ITEM_NONE.
Proof. done. Qed.

Lemma choose_each_ok (firstn leaf : bool) a1 a2 s ws : forall o c work,
  1 <= T -> tuned s -> Forall good ws -> space_ok m work -> added leaf result_max o c ->
  exists o' c' work', choose_each m weight args x fuel firstn leaf a1 a2 result_max s ws o c work = Some (o', c', work') /\
    space_ok m work' /\ added leaf result_max o' c'.
Proof using Hm Hargs Hlim Hmax.
  induction ws as [|wi ws IH]; intros o c work HT Hs Hws Hsp Hoc; cbn [choose_each]; [by eexists _, _, _|].
  inversion Hws as [|? ? Hwi Hws']; subst. set (numrep := if a1 <=? 0 then a1 + result_max else a1).
  destruct (numrep <=? 0) eqn:En; zbool; [by apply IH|].
  destruct ((-1 - wi <? 0) || _) eqn:Eb; [by apply IH|]. zbool.
  destruct (Hwi ltac:(lia)) as [b Hb]. rewrite Hb. cbn [mbind option_bind].
  destruct Hoc as (Ho & Hlen & Hc).
  assert (exists out out2 work', (if firstn then
      crush_choose_firstn m weight args x fuel b (firstn_of leaf a2 s) numrep [] (result_max - Z.of_nat (length o)) [] work
    else crush_choose_indep m weight args x fuel b (indep_of leaf numrep a2 s)
      (Z.to_nat (if numrep <? result_max - Z.of_nat (length o) then numrep else result_max - Z.of_nat (length o))) work) =
    Some (out, out2, work') /\ space_ok m work' /\ added leaf (result_max - Z.of_nat (length o)) out out2)
    as (out & out2 & work' & E & Hsp' & Hadd).
  { destruct firstn.
    - destruct (firstn_call_ok leaf a2 s wi b numrep (result_max - Z.of_nat (length o)) work)
        as (out & out2 & w' & E & Hsp' & _ & Hu & Hl & _ & Hroom); [done..|lia|lia|].
      exists out, out2, w'. split; [exact E|]. split; [done|]. by eapply firstn_added.
    - set (n := if numrep <? _ then _ else _).
      assert (depth < fuel)%nat as Hf by by apply (deep s).
      destruct (indep_spec m weight args x rank depth width Hm Hargs (indep_of leaf numrep a2 s) fuel wi b (Z.to_nat n) work)
        as (out & out2 & w' & E & Hsp' & Hout & Hv & _ & Hl); [done..|].
      exists out, out2, w'. split; [exact E|]. split; [done|]. split; [|split].
      + apply Forall_lookup. intros i v Ev. destruct (Hv i v Ev) as [->|Hu]; [apply nonneg_good, none_nonneg|by eapply usable_good].
      + rewrite Hout. unfold n. case_match; zbool; lia.
      + intros ->. destruct (Hl eq_refl) as [H1 H2]. split; [|congruence]. apply Forall_lookup. intros i u Eu.
        assert (i < length out)%nat as Hi by (apply lookup_lt_Some in Eu; lia).
        destruct (lookup_lt_is_Some_2 out i Hi) as [v Ev]. destruct (H2 i v Ev) as (u' & Eu' & Hp & _).
        simplify_eq. by apply nonneg_good. }
  unfold firstn_of, indep_of in E. rewrite E. cbn [mbind option_bind]. apply IH; try done.
  destruct Hadd as (H1 & H2 & H3). split; [by apply Forall_app|]. split; [rewrite length_app; lia|].
  intros ->. destruct (Hc eq_refl), (H3 eq_refl). split; [by apply Forall_app|]. rewrite !length_app. lia.
Qed.

Lemma added_nil leaf : added leaf result_max [] [].
Proof using Hmax. repeat split; simpl; auto. Qed.

Lemma choose_step_ok (firstn leaf : bool) a1 a2 s : 1 <= T -> state_ok s ->
  exists s', choose_step m weight args x fuel firstn leaf a1 a2 result_max s = Some s' /\ state_ok s'.
Proof using Hm Hargs Hlim Hmax.
  intros HT Hs. unfold choose_step. destruct (w s) as [|wi ws] eqn:Ew; [by exists s|]. rewrite <- Ew.
  destruct (choose_each_ok firstn leaf a1 a2 s (w s) [] [] (r_work s)) as (o & c & work & -> & Hsp & Ho & Hlen & Hc);
    [done|apply Hs|apply Hs|apply Hs|apply added_nil|]. cbn [mbind option_bind]. eexists. split; [done|].
  destruct Hs as [[H1 H2 H3 H4] _ _ _ H7 H8]. split; simpl; try done.
  - destruct leaf; [|done]. by apply Hc.
  - destruct leaf; [|lia]. destruct (Hc eq_refl) as [_ ->]. lia.
Qed.

Lemma do_step_ok st s : 1 <= T -> step_ok T R F st -> state_ok s ->
  exists s', do_step m weight args x fuel result_max s st = Some s' /\ state_ok s'.
Proof using Hm Hargs Hlim Hmax.
  intros HT Hst Hs. unfold do_step, step_ok in *. destruct (op st); try by apply choose_step_ok.
  3-8: eexists; split; [reflexivity|]; case_match; [|done]; zbool;
    destruct Hs as [[H1 H2 H3 H4] ? ? ? ? ?]; repeat (split; simpl; try done; try lia).
  - eexists. split; [reflexivity|]. destruct (take_ok m (arg1 st)) eqn:E; [|done].
    destruct Hs as [[H1 H2 H3 H4] ? ? ? ? ?]. repeat (split; simpl; try done; try lia).
    constructor; [|done]. intros Hneg. unfold take_ok in E.
    rewrite (proj2 (Z.leb_gt 0 (arg1 st))) in E by lia. simpl in E. apply andb_true_iff in E as [_ E].
    destruct (bucket_of m (arg1 st)); [eauto|done].
  - eexists. split; [reflexivity|]. destruct Hs as [[H1 H2 H3 H4] ? ? ? ? ?].
    repeat (split; simpl; try done; try lia).
    + apply Forall_app. split; [done|]. by apply Forall_take.
    + rewrite length_app, length_take. lia.
  - by exists s.
Qed.

Lemma do_steps_ok l : forall s, 1 <= T -> Forall (step_ok T R F) l -> state_ok s ->
  exists s', do_steps m weight args x fuel result_max s l = Some s' /\ state_ok s'.
Proof using Hm Hargs Hlim Hmax.
  induction l as [|st l IH]; intros s HT Hl Hs; [by exists s|]. inversion Hl; subst. cbn [do_steps].
  destruct (do_step_ok st s) as (s1 & -> & Hs1); [done..|]. cbn [mbind option_bind]. by apply IH.
Qed.

(** The locals at the start of a rule. *)
Definition start (work : crush_work) : rule_state := {|
  w := []; result := []; choose_tries := choose_total_tries m + 1; choose_leaf_tries := 0;
  choose_local_retries := choose_local_tries m; choose_local_fallback_retries := choose_local_fallback_tries m;
  r_vary_r := chooseleaf_vary_r m; r_stable := chooseleaf_stable m; r_work := work |}.

Lemma rule_start_ok work : map_limits m T R F -> space_ok m work -> state_ok (start work).
Proof using Hmax.
  intros (H1 & H2 & H3) Hsp. repeat (split; simpl; try done; try lia).
Qed.

Lemma do_steps_app l1 l2 s :
  do_steps m weight args x fuel result_max s (l1 ++ l2) =
  (s' ← do_steps m weight args x fuel result_max s l1; do_steps m weight args x fuel result_max s' l2).
Proof.
  revert s. induction l1 as [|st l1 IH]; intros s; [done|]. cbn [do_steps app].
  destruct (do_step m weight args x fuel result_max s st); [|done]. cbn [mbind option_bind]. apply IH.
Qed.

(** Setters do not touch the vectors. *)
Definition is_setter (st : crush_rule_step) : bool :=
  match op st with
  | CRUSH_RULE_SET_CHOOSE_TRIES | CRUSH_RULE_SET_CHOOSELEAF_TRIES | CRUSH_RULE_SET_CHOOSE_LOCAL_TRIES
  | CRUSH_RULE_SET_CHOOSE_LOCAL_FALLBACK_TRIES | CRUSH_RULE_SET_CHOOSELEAF_VARY_R
  | CRUSH_RULE_SET_CHOOSELEAF_STABLE => true
  | _ => false
  end.

Lemma setter_frame st s s' : is_setter st = true -> do_step m weight args x fuel result_max s st = Some s' ->
  w s' = w s /\ result s' = result s.
Proof. unfold is_setter, do_step. intros Hst E. destruct (op st); try discriminate Hst; simplify_eq; by case_match. Qed.

Lemma setters_frame l : forall s s', forallb is_setter l = true ->
  do_steps m weight args x fuel result_max s l = Some s' -> w s' = w s /\ result s' = result s.
Proof.
  induction l as [|st l IH]; intros s s' Hl E; [by simplify_eq/=|]. simpl in Hl. apply andb_true_iff in Hl as [H1 H2].
  cbn [do_steps] in E. destruct (do_step m weight args x fuel result_max s st) as [s1|] eqn:E1; [|done].
  cbn [mbind option_bind] in E. destruct (setter_frame st s s1 H1 E1) as [<- <-]. by apply IH.
Qed.

(** Depth-first choice of devices below one entry of the working vector. *)
Lemma firstn_one (leaf : bool) a1 a2 s : 1 <= T -> state_ok s -> (length (w s) <= 1)%nat -> (leaf = true \/ a2 = 0) ->
  exists s', choose_step m weight args x fuel true leaf a1 a2 result_max s = Some s' /\ state_ok s' /\
    result s' = result s /\ (w s' = w s /\ w s = [] \/ NoDup (w s') /\ Forall (usable 0) (w s')).
Proof using Hm Hargs Hlim Hmax.
  intros HT Hs Hlen Hleaf. destruct (choose_step_ok true leaf a1 a2 s HT Hs) as (s' & E & Hs'). exists s'.
  split; [done|]. split; [done|]. revert E. unfold choose_step.
  destruct (w s) as [|wi [|]] eqn:Ew; [by intros [= <-]; auto| |simpl in Hlen; lia].
  assert (good wi) as Hwi by (pose proof (st_w s Hs) as H; rewrite Ew in H; by inversion H).
  cbn [choose_each length]. set (numrep := if a1 <=? 0 then a1 + result_max else a1).
  destruct (numrep <=? 0) eqn:En; zbool;
    [cbn [mbind option_bind]; intros [= <-]; split; [done|]; right; destruct leaf; split; constructor|].
  destruct ((-1 - wi <? 0) || _) eqn:Eb;
    [cbn [mbind option_bind]; intros [= <-]; split; [done|]; right; destruct leaf; split; constructor|].
  zbool. destruct (Hwi ltac:(lia)) as [b Hb]. rewrite Hb. cbn [mbind option_bind].
  destruct (firstn_call_ok leaf a2 s wi b numrep (result_max - Z.of_nat 0) (r_work s))
    as (out & out2 & w' & E & _ & Hnd & Hu & Hl & _); [done|apply Hs|done|apply Hs|lia|lia|].
  unfold firstn_of in E. rewrite E. cbn [mbind option_bind app]. intros [= <-]. split; [done|]. right.
  destruct leaf; simpl; [destruct (Hl eq_refl) as (_ & H2 & H3 & _); done|]. destruct Hleaf as [Hf | ->]; [discriminate Hf|done].
Qed.

(** The shape of a rule for replicated pools: overrides, then one bucket,
    distinct devices below it, and the result. *)
Definition replicated_rule (l : list crush_rule_step) : Prop :=
  exists pre root (leaf : bool) n ty a2 b1 b2, l = pre ++ [
    {| op := CRUSH_RULE_TAKE; arg1 := root; arg2 := a2 |};
    {| op := if leaf then CRUSH_RULE_CHOOSELEAF_FIRSTN else CRUSH_RULE_CHOOSE_FIRSTN; arg1 := n; arg2 := ty |};
    {| op := CRUSH_RULE_EMIT; arg1 := b1; arg2 := b2 |}] /\
  forallb is_setter pre = true /\ (leaf = true \/ ty = 0).

Lemma take_frame arg s s' a2 : do_step m weight args x fuel result_max s
    {| op := CRUSH_RULE_TAKE; arg1 := arg; arg2 := a2 |} = Some s' ->
  w s = [] -> result s' = result s /\ (length (w s') <= 1)%nat.
Proof. intros [= <-] Hw. case_match; simpl; [by auto|]. rewrite Hw. simpl. auto. Qed.

Lemma replicated_steps l s : 1 <= T -> Forall (step_ok T R F) l -> state_ok s -> replicated_rule l ->
  w s = [] -> result s = [] ->
  exists s', do_steps m weight args x fuel result_max s l = Some s' /\ state_ok s' /\
    NoDup (result s') /\ Forall (usable 0) (result s').
Proof using Hm Hargs Hlim Hmax.
  intros HT Hl Hs (pre & root & leaf & n & ty & a2 & b1 & b2 & -> & Hpre & Hleaf) Hw Hr.
  apply Forall_app in Hl as [Hl1 Hl2]. rewrite do_steps_app.
  destruct (do_steps_ok pre s HT Hl1 Hs) as (s1 & E1 & Hs1). rewrite E1.
  destruct (setters_frame pre s s1 Hpre E1) as [Hw1 Hr1]. cbn [mbind option_bind do_steps].
  inversion Hl2 as [|? ? Htk _]; subst. destruct (do_step_ok _ s1 HT Htk Hs1) as (s2 & E2 & Hs2). rewrite E2.
  destruct (take_frame _ _ _ _ E2) as [Hr2 Hw2]; [congruence|]. cbn [mbind option_bind].
  destruct (firstn_one leaf n ty s2) as (s3 & E3 & Hs3 & Hr3 & Hres); [done..|].
  assert (do_step m weight args x fuel result_max s2
    {| op := if leaf then CRUSH_RULE_CHOOSELEAF_FIRSTN else CRUSH_RULE_CHOOSE_FIRSTN; arg1 := n; arg2 := ty |} = Some s3)
    as -> by by destruct leaf. cbn [mbind option_bind].
  destruct (do_step_ok {| op := CRUSH_RULE_EMIT; arg1 := b1; arg2 := b2 |} s3 HT I Hs3) as (s4 & E4 & Hs4). rewrite E4.
  exists s4. split; [done|]. split; [done|]. injection E4 as <-. simpl.
  rewrite Hr3, Hr2, Hr1, Hr. cbn [app length].
  destruct Hres as [[-> ->]|[Hnd Hu]]; [rewrite take_nil; split; constructor|].
  split; [by apply NoDup_take|by apply Forall_take].
Qed.

(** Positional choice of devices below one bucket. *)
Definition positions (a1 : Z) : Z := let n := if a1 <=? 0 then a1 + result_max else a1 in Z.max 0 (Z.min n result_max).

Definition position_ok (v : Z) : Prop := v = CRUSH_ITEM_NONE \/ usable 0 v.

Lemma bucket_index wi b : bucket_of m wi = Some b -> wi < 0 /\ -1 - wi < max_buckets m.
Proof using Hm.
  intros Hb. destruct (bucket_of_id m rank depth width Hm wi b Hb) as [_ Hneg]. split; [done|].
  unfold bucket_of in Hb. rewrite at_lookup in Hb by lia.
  destruct (buckets m !! Z.to_nat (-1 - wi)) eqn:El; [|done].
  apply lookup_lt_Some in El. unfold max_buckets. lia.
Qed.

Lemma indep_one (leaf : bool) a1 a2 s wi b : 1 <= T -> state_ok s -> w s = [wi] -> bucket_of m wi = Some b ->
  (if leaf then a2 <> 0 else a2 = 0) ->
  exists s', choose_step m weight args x fuel false leaf a1 a2 result_max s = Some s' /\ state_ok s' /\
    result s' = result s /\ Z.of_nat (length (w s')) = positions a1 /\ Forall position_ok (w s') /\
    (leaf = false -> OSDMapFacts.distinct (w s')).
Proof using Hm Hargs Hlim Hmax.
  intros HT Hs Hw Hb Hleaf. destruct (choose_step_ok false leaf a1 a2 s HT Hs) as (s' & E & Hs'). exists s'.
  split; [done|]. split; [done|]. revert E. unfold choose_step, positions. rewrite Hw.
  cbn [choose_each length]. set (numrep := if a1 <=? 0 then a1 + result_max else a1).
  destruct (numrep <=? 0) eqn:En; zbool.
  { cbn [mbind option_bind]. intros [= <-]. split; [done|].
    destruct leaf; cbn [set_w w length]; (split; [lia|]); (split; [apply List.Forall_nil|]); intros _ i j o Hi; discriminate Hi. }
  destruct (bucket_index wi b Hb) as [Hneg Hmb].
  rewrite (proj2 (Z.ltb_ge (-1 - wi) 0)), (proj2 (Z.leb_gt (max_buckets m) (-1 - wi))) by lia. cbn [orb].
  rewrite Hb. cbn [mbind option_bind]. set (n := if numrep <? _ then _ else _).
  assert (depth < fuel)%nat as Hf by by eapply deep, st_tuned.
  destruct (indep_spec m weight args x rank depth width Hm Hargs (indep_of leaf numrep a2 s) fuel wi b (Z.to_nat n) (r_work s))
    as (out & out2 & w' & E & _ & Hout & Hv & Hd & Hl); [done|apply Hs|done|].
  unfold indep_of in E. rewrite E. cbn [mbind option_bind app]. intros [= <-]. split; [done|]. simpl.
  assert (Z.of_nat (Z.to_nat n) = Z.max 0 (Z.min numrep result_max)) as Hn by (unfold n; simpl; destruct (numrep <? _) eqn:E'; zbool; lia).
  destruct leaf.
  - destruct (Hl eq_refl) as [H1 H2]. split; [congruence|]. split; [|done]. apply Forall_lookup. intros i u Eu.
    assert (i < length out)%nat as Hi by (apply lookup_lt_Some in Eu; lia).
    destruct (lookup_lt_is_Some_2 out i Hi) as [v Ev]. destruct (H2 i v Ev) as (u' & Eu' & _ & H3 & H4).
    simplify_eq. destruct (Z.eq_dec v CRUSH_ITEM_NONE) as [Ez|Ez]; [left; by apply H4|right; by apply H3].
  - split; [congruence|]. split; [|intros _ i j o Hi Hj Ho; by apply (Hd i j o)].
    apply Forall_lookup. intros i v Ev. destruct (Hv i v Ev) as [?|Hu]; [by left|right]. simpl in Hu. by rewrite Hleaf in Hu.
Qed.

(** The shape of a rule for erasure-coded pools. *)
Definition erasure_rule (l : list crush_rule_step) (root : Z) (leaf : bool) (n : Z) : Prop :=
  exists pre ty a2 b1 b2, l = pre ++ [
    {| op := CRUSH_RULE_TAKE; arg1 := root; arg2 := a2 |};
    {| op := if leaf then CRUSH_RULE_CHOOSELEAF_INDEP else CRUSH_RULE_CHOOSE_INDEP; arg1 := n; arg2 := ty |};
    {| op := CRUSH_RULE_EMIT; arg1 := b1; arg2 := b2 |}] /\
  forallb is_setter pre = true /\ (if leaf then ty <> 0 else ty = 0).

Lemma take_bucket root b : bucket_of m root = Some b -> take_ok m root = true.
Proof using Hm.
  intros Hb. destruct (bucket_index root b Hb) as [Hneg Hmb]. unfold take_ok. rewrite Hb. apply orb_true_iff. right.
  rewrite !andb_true_iff, Z.leb_le, Z.ltb_lt. split; [lia|done].
Qed.

Lemma erasure_steps l s root b leaf n : 1 <= T -> Forall (step_ok T R F) l -> state_ok s ->
  erasure_rule l root leaf n -> bucket_of m root = Some b -> w s = [] -> result s = [] ->
  exists s', do_steps m weight args x fuel result_max s l = Some s' /\ state_ok s' /\
    Z.of_nat (length (result s')) = positions n /\ Forall position_ok (result s') /\
    (leaf = false -> OSDMapFacts.distinct (result s')).
Proof using Hm Hargs Hlim Hmax.
  intros HT Hl Hs (pre & ty & a2 & b1 & b2 & -> & Hpre & Hleaf) Hb Hw Hr.
  apply Forall_app in Hl as [Hl1 Hl2]. rewrite do_steps_app.
  destruct (do_steps_ok pre s HT Hl1 Hs) as (s1 & E1 & Hs1). rewrite E1.
  destruct (setters_frame pre s s1 Hpre E1) as [Hw1 Hr1]. cbn [mbind option_bind do_steps].
  inversion Hl2 as [|? ? Htk _]; subst. destruct (do_step_ok _ s1 HT Htk Hs1) as (s2 & E2 & Hs2). rewrite E2.
  cbn [mbind option_bind]. cbn [do_step op arg1] in E2. rewrite (take_bucket root b) in E2 by done.
  destruct (indep_one leaf n ty s2 root b) as (s3 & E3 & Hs3 & Hr3 & H1 & H2 & H3); [done|done|by injection E2 as <-|done|done|].
  assert (do_step m weight args x fuel result_max s2
    {| op := if leaf then CRUSH_RULE_CHOOSELEAF_INDEP else CRUSH_RULE_CHOOSE_INDEP; arg1 := n; arg2 := ty |} = Some s3)
    as -> by by destruct leaf. cbn [mbind option_bind].
  destruct (do_step_ok {| op := CRUSH_RULE_EMIT; arg1 := b1; arg2 := b2 |} s3 HT I Hs3) as (s4 & E4 & Hs4). rewrite E4.
  exists s4. split; [done|]. split; [done|]. injection E4 as <-. simpl.
  assert (result s3 = []) as -> by (rewrite Hr3; injection E2 as <-; simpl; congruence). cbn [app length].
  rewrite take_ge; [done|]. unfold positions in H1. lia.
Qed.
End Rule.
End RuleFacts.
