(* ===== verification/CrushTheorems.v ===== *)
(** CRUSH: what the placement functions promise, and a sample cluster on which
    the promises are exercised. *)
From S2P Require Import Prelude Pg CrushLn OSDMap Crush CrushChoice CrushFirstn CrushIndep CrushRule.
Import Bits Binning.

(** A small cluster: three hosts of two devices, one of the six marked out,
    under a straw2 root, and a uniform bucket with the first three devices. *)
Module Sample.
Import Crush CrushLn Straws Trees BucketChoice CrushFacts.

Definition host (n : Z) (l : list Z) : crush_bucket := {|
  id := n; type := 1; hash := 0; alg := CRUSH_BUCKET_STRAW2 [0x10000; 0x10000]; items := l |}.
Definition root : crush_bucket := {|
  id := -1; type := 10; hash := 0; alg := CRUSH_BUCKET_STRAW2 [0x20000; 0x20000; 0x20000]; items := [-2; -3; -4] |}.
Definition flat : crush_bucket := {|
  id := -5; type := 1; hash := 0; alg := CRUSH_BUCKET_UNIFORM; items := [0; 1; 2] |}.

Definition step (o : rule_op) (a b : Z) : crush_rule_step := {| op := o; arg1 := a; arg2 := b |}.
Definition rule (l : list crush_rule_step) : crush_rule := {|
  mask_ruleset := 0; mask_type := 1; mask_min_size := 1; mask_max_size := 10; steps := l |}.

Definition replicated : list crush_rule_step := [
  step CRUSH_RULE_SET_CHOOSELEAF_TRIES 5 0;
  step CRUSH_RULE_TAKE (-1) 0; step CRUSH_RULE_CHOOSELEAF_FIRSTN 0 1; step CRUSH_RULE_EMIT 0 0].
Definition erasure : list crush_rule_step := [
  step CRUSH_RULE_SET_CHOOSELEAF_TRIES 5 0;
  step CRUSH_RULE_TAKE (-1) 0; step CRUSH_RULE_CHOOSELEAF_INDEP 0 1; step CRUSH_RULE_EMIT 0 0].
Definition flat_leaf : list crush_rule_step := [
  step CRUSH_RULE_TAKE (-5) 0; step CRUSH_RULE_CHOOSELEAF_INDEP 0 0; step CRUSH_RULE_EMIT 0 0].
Definition flat_indep : list crush_rule_step := [
  step CRUSH_RULE_TAKE (-5) 0; step CRUSH_RULE_CHOOSE_INDEP 0 0; step CRUSH_RULE_EMIT 0 0].

Definition map : crush_map := {|
  buckets := [Some root; Some (host (-2) [0; 1]); Some (host (-3) [2; 3]); Some (host (-4) [4; 5]); Some flat];
  rules := [Some (rule replicated); Some (rule erasure); Some (rule flat_leaf); Some (rule flat_indep)];
  max_devices := 6; choose_local_tries := 0; choose_local_fallback_tries := 0; choose_total_tries := 50;
  chooseleaf_descend_once := 1; chooseleaf_vary_r := 1; chooseleaf_stable := 1 |}.
Definition weights : list Z := [0x10000; 0x10000; 0; 0x10000; 0x10000; 0x10000].
Definition rank (i : Z) : nat := if i =? -1 then 1 else 0.

Lemma bucket_cases item b : bucket_of map item = Some b ->
  (item, b) ∈ [(-1, root); (-2, host (-2) [0; 1]); (-3, host (-3) [2; 3]); (-4, host (-4) [4; 5]); (-5, flat)].
Proof.
  unfold bucket_of, at_. destruct (0 <=? -1 - item) eqn:E; [|done]. zbool. intros H.
  assert (item = - 1 - Z.of_nat (Z.to_nat (-1 - item))) as Hi by lia.
  destruct (Z.to_nat (-1 - item)) as [|[|[|[|[|n]]]]]; simpl in H; try discriminate H;
    injection H as <-; rewrite Hi; clear; set_solver.
Qed.

Lemma ok : map_ok map rank 1 3.
Proof.
  split.
  - intros [|[|[|[|[|i]]]]] b E; simpl in E; simplify_eq; done.
  - intros item b H%bucket_cases. repeat (apply elem_of_cons in H as [[= -> ->]|H]; 
      [split; [reflexivity|]; split; [reflexivity|]; simpl; first [exact I|split; [reflexivity|]];
       repeat (apply List.Forall_cons; [split; [discriminate|reflexivity]|]); apply List.Forall_nil|]).
    by apply elem_of_nil in H.
  - intros item b i H%bucket_cases Hi Hneg.
    repeat (apply elem_of_cons in H as [[= -> ->]|H]; [|try (by apply elem_of_nil in H)]); simpl in Hi;
      repeat (apply elem_of_cons in Hi as [->|Hi]; [first [lia|split; [eexists; reflexivity|vm_compute; lia]]|try (by apply elem_of_nil in Hi)]).
  - intros item. unfold rank. case_match; lia.
  - intros item b H%bucket_cases. repeat (apply elem_of_cons in H as [[= -> ->]|H]; [vm_compute; discriminate|]). by apply elem_of_nil in H.
  - vm_compute. discriminate.
Qed.
End Sample.

Module CrushTheorems.
Import Crush CrushLn Shuffle Straws Trees BucketChoice CrushFacts IndepFacts RuleFacts.

(** Uniform buckets.  [bucket_perm_choose] builds its permutation of the
    bucket lazily, keeps it in the scratch space between calls and has a
    shortcut for the first entry.  Whatever part of the permutation the scratch
    space holds, for whatever input, the answer is the entry [r mod size] of
    the complete pseudo-random shuffle of the bucket for [x], which is a
    permutation of its positions; so [size] consecutive values of [r] give
    every item once.  The scratch space stays valid. *)
Theorem perm_choose_is_shuffle b w x r :
  0 < size b < 0xffff -> work_ok b w ->
  exists l s item w', shuffle b x (length (items b)) = Some l /\ l ≡ₚ seqZ 0 (size b) /\
    l !! Z.to_nat (u32 r mod size b) = Some s /\ items b !! Z.to_nat s = Some item /\
    bucket_perm_choose b w x r = Some (item, w') /\ work_ok b w'.
Proof. apply perm_choose_spec. Qed.

Lemma perm_choose_is_shuffle_witness :
  exists item w', bucket_perm_choose Sample.flat {| perm_x := 7; perm_n := 0; perm := [0; 0; 0] |} 11 4 = Some (item, w') /\
    item = 1.
Proof.
  destruct (perm_choose_is_shuffle Sample.flat {| perm_x := 7; perm_n := 0; perm := [0; 0; 0] |} 11 4)
    as (l & s & item & w' & _ & _ & _ & _ & E & _); [by vm_compute|split; [reflexivity|]; split; [reflexivity|by left]|].
  exists item, w'. split; [exact E|]. vm_compute in E. by injection E as <- _.
Defined.

Lemma highest_raise ds ds' h h' k : highest ds h -> highest ds' h' ->
  length ds = length ds' ->
  (forall j, j <> k -> ds' !! j = ds !! j) ->
  (forall d d', ds !! k = Some d -> ds' !! k = Some d' -> d <= d') ->
  h' = h \/ h' = k.
Proof.
  intros (d & Hd & H) (d' & Hd' & H') Hlen Heq Hk. destruct (decide (h' = k)) as [|Hn]; [by right|left].
  rewrite (Heq h' Hn) in Hd'. destruct (H _ _ Hd') as [H1 H2].
  assert (exists e, ds' !! h = Some e /\ d <= e) as (e & He & Hde).
  { destruct (decide (h = k)) as [->|Hn']; [|exists d; by rewrite Heq].
    destruct (lookup_lt_is_Some_2 ds' k) as [e He]; [rewrite <- Hlen; by eapply lookup_lt_Some|]. exists e. eauto. }
  destruct (H' _ _ He) as [H3 H4]. destruct (Nat.lt_total h h') as [Hlt|[->|Hlt]]; [|done|].
  - specialize (H4 Hlt). lia.
  - specialize (H2 Hlt). lia.
Qed.

Lemma draws_lookup b x r iw ds j i v : length iw = length (items b) ->
  Forall2 (fun p d => straw2_draw b x r p.1 p.2 = Some d) (zip (items b) iw) ds ->
  items b !! j = Some i -> iw !! j = Some v -> exists d, ds !! j = Some d /\ straw2_draw b x r i v = Some d.
Proof.
  intros Hl HF Hi Hv. destruct (Forall2_lookup_l _ _ _ j (i, v) HF) as (d & Hd & E); [|eauto].
  apply lookup_zip_with_Some. eauto.
Qed.

Lemma draws_change b x r iw iw' ds ds' k : length iw = length (items b) -> length iw' = length (items b) ->
  (forall j, j <> k -> iw' !! j = iw !! j) ->
  Forall2 (fun p d => straw2_draw b x r p.1 p.2 = Some d) (zip (items b) iw) ds ->
  Forall2 (fun p d => straw2_draw b x r p.1 p.2 = Some d) (zip (items b) iw') ds' ->
  length ds = length ds' /\ forall j, j <> k -> ds' !! j = ds !! j.
Proof.
  intros Hl Hl' Heq HF HF'. pose proof (Forall2_length _ _ _ HF) as L1. pose proof (Forall2_length _ _ _ HF') as L2.
  rewrite length_zip_with in L1, L2. split; [lia|]. intros j Hj.
  destruct (decide (j < length (items b))%nat) as [Hlt|Hge].
  - destruct (lookup_lt_is_Some_2 (items b) j Hlt) as [i Hi]. destruct (lookup_lt_is_Some_2 iw j) as [v Hv]; [lia|].
    destruct (draws_lookup b x r iw ds j i v) as (d & -> & E); [done..|].
    destruct (draws_lookup b x r iw' ds' j i v) as (d' & -> & E'); [done..|by rewrite Heq|]. congruence.
  - rewrite !lookup_ge_None_2 by lia. done.
Qed.

(** Straw2 buckets move the minimum.  When the weight of one item [k] of
    a straw2 bucket is raised, an input changes its item only by moving to
    [k]; read backwards, lowering a weight moves only inputs that were on that
    item.  This holds for the draws as computed, with the 64-bit fixed-point
    logarithm table, the truncating division and ties resolved by position.  An
    item of weight zero is never chosen while some item has weight. *)
Theorem straw2_minimal_movement b iw k v' x r :
  items b <> [] -> length iw = length (items b) -> Forall weight_ok iw -> weight_ok v' ->
  (forall v, iw !! k = Some v -> v <= v') ->
  exists h h' item item',
    items b !! h = Some item /\ items b !! h' = Some item' /\
    bucket_straw2_choose b iw x r None 0 = Some item /\
    bucket_straw2_choose b (<[k := v']> iw) x r None 0 = Some item' /\
    (h' = h \/ h' = k) /\
    (Exists (fun v => v <> 0) iw -> iw !! h <> Some 0).
Proof.
  intros Hne Hl Hw Hv' Hup. destruct (straw2_choose_spec b iw x r Hne Hl Hw) as (ds & h & item & _ & Hh & Hi & E & HF).
  destruct (straw2_choose_spec b (<[k := v']> iw) x r) as (ds' & h' & item' & _ & Hh' & Hi' & E' & HF');
    [done|by rewrite length_insert|by apply Forall_insert|].
  exists h, h', item, item'. do 4 (split; [done|]). split.
  - destruct (draws_change b x r iw (<[k := v']> iw) ds ds' k) as [H1 H2];
      [done|by rewrite length_insert|intros; by apply list_lookup_insert_ne|done|done|].
    eapply highest_raise; [exact Hh|exact Hh'|done|done|]. intros d d' Hd Hd'.
    assert (k < length iw)%nat as Hk.
    { apply lookup_lt_Some in Hd. apply Forall2_length in HF. rewrite length_zip_with in HF. lia. }
    destruct (lookup_lt_is_Some_2 iw k Hk) as [v Hv]. destruct (lookup_lt_is_Some_2 (items b) k) as [i Hik]; [lia|].
    destruct (draws_lookup b x r iw ds k i v) as (e & He & Ev); [done..|].
    destruct (draws_lookup b x r (<[k := v']> iw) ds' k i v') as (e' & He' & Ev');
      [by rewrite length_insert|done|done|by apply list_lookup_insert_eq|].
    simplify_eq. eapply straw2_draw_mono; [| |by apply Hup|done|done]; [|done]. by eapply Forall_lookup.
  - intros (v & Hin & Hnz)%Exists_exists E0. apply list_elem_of_lookup in Hin as [j Hj].
    destruct (draws_lookup b x r iw ds h item 0) as (d & Hd & Ed); [done..|].
    destruct (lookup_lt_is_Some_2 (items b) j) as [i Hij]; [rewrite <- Hl; by eapply lookup_lt_Some|].
    destruct (draws_lookup b x r iw ds j i v) as (e & He & Ee); [done..|].
    destruct Hh as (d0 & Hd0 & Hmax). simplify_eq. destruct (Hmax _ _ He) as [Hle _].
    destruct (straw2_draw_zero b x r item 0 d0) as [_ H0]; [by vm_compute|done|].
    destruct (straw2_draw_zero b x r i v e) as [Hmin H1]; [by eapply Forall_lookup|done|].
    apply Hnz, H1. assert (d0 = S64_MIN) by by apply H0. lia.
Qed.

Lemma straw2_minimal_movement_witness :
  exists h h' item item',
    items Sample.root !! h = Some item /\ items Sample.root !! h' = Some item' /\
    bucket_straw2_choose Sample.root [0x10000; 0; 0x20000] 3 0 None 0 = Some item /\
    bucket_straw2_choose Sample.root [0x90000; 0; 0x20000] 3 0 None 0 = Some item' /\ (h' = h \/ h' = 0%nat).
Proof.
  destruct (straw2_minimal_movement Sample.root [0x10000; 0; 0x20000] 0 0x90000 3 0)
    as (h & h' & item & item' & H1 & H2 & H3 & H4 & H5 & _);
    [discriminate|reflexivity|repeat (apply List.Forall_cons; [split; [discriminate|reflexivity]|]); apply List.Forall_nil
    |split; [discriminate|reflexivity]|intros v [= <-]; discriminate|].
  exists h, h', item, item'. do 4 (split; [assumption|]). assumption.
Defined.
(** What the rule interpreter is run on: a well-formed map with its overrides
    and scratch space, a rule of the map, and fuel that covers the tunables. *)
Record rule_run (m : crush_map) (args : option (list crush_choose_arg)) (rank : Z -> nat) (depth width : nat)
    (T R F : Z) (fuel : nat) (ruleno : Z) (rule : crush_rule) (work : crush_work) : Prop := {
  run_map : map_ok m rank depth width;
  run_args : args_ok m args;
  run_space : space_ok m work;
  run_tunables : map_limits m T R F;
  run_limits : limits_ok T R F depth width fuel;
  run_ruleno : 0 <= ruleno < two32;
  run_rule : mjoin (at_ (rules m) ruleno) = Some rule;
  run_steps : Forall (step_ok T R F) (steps rule)
}.

Section Run.
Context (m : crush_map) (weight : list Z) (args : option (list crush_choose_arg)) (x : Z).
Context (rank : Z -> nat) (depth width : nat) (T R F : Z) (fuel : nat) (ruleno : Z) (rule : crush_rule).
Context (work : crush_work) (result_max : Z).
Hypotheses (Hrun : rule_run m args rank depth width T R F fuel ruleno rule work) (Hmax : 0 <= result_max).

Lemma run_T : 1 <= T.
Proof using Hrun. destruct (run_tunables _ _ _ _ _ _ _ _ _ _ _ _ Hrun) as [? _]. lia. Qed.

Lemma do_rule_eq : crush_do_rule m weight args x fuel ruleno result_max work =
  result <$> do_steps m weight args x fuel result_max (start m work) (steps rule).
Proof using Hrun.
  destruct Hrun as [_ _ _ _ _ Hno Hr _]. unfold crush_do_rule. rewrite (u32_small ruleno) by done.
  unfold max_rules. rewrite at_lookup in Hr by lia. rewrite at_lookup by lia.
  destruct (rules m !! Z.to_nat ruleno) as [[r|]|] eqn:E; simplify_eq/=.
  assert (Z.to_nat ruleno < length (rules m))%nat by by eapply lookup_lt_Some.
  rewrite (proj2 (Z.leb_gt _ _)) by lia. unfold start.
  destruct (do_steps _ _ _ _ _ _ _ _); done.
Qed.

Lemma run_start : state_ok m T R F result_max (start m work).
Proof using Hrun Hmax. destruct Hrun. by apply rule_start_ok. Qed.
End Run.

(** C33: Rules end and stay in their buffers.  On a well-formed map, any rule,
    for any input and any device weights, ends within the fuel bound, never
    reads outside an array, dereferences a missing bucket or trips an assertion,
    and returns at most [result_max] entries, each of them a device number, a
    hole or an existing bucket. *)
Theorem do_rule_total m weight args x rank depth width T R F fuel ruleno rule work result_max :
  rule_run m args rank depth width T R F fuel ruleno rule work -> 0 <= result_max ->
  exists res, crush_do_rule m weight args x fuel ruleno result_max work = Some res /\
    Z.of_nat (length res) <= result_max /\
    forall i, i ∈ res -> i < 0 -> exists b, bucket_of m i = Some b.
Proof.
  intros Hrun Hmax. rewrite (do_rule_eq _ _ _ _ _ _ _ _ _ _ _ _ _ _ _ Hrun). destruct Hrun as [] eqn:E. clear E.
  destruct (do_steps_ok m weight args x rank depth width run_map0 run_args0 T R F fuel result_max run_limits0 Hmax
    (steps rule) (start m work)) as (s & -> & Hs); [by eapply run_T|done|by eapply run_start|].
  exists (result s). split; [done|]. split; [apply Hs|]. intros i Hi Hneg.
  pose proof (st_result _ _ _ _ _ _ Hs) as HF. rewrite Forall_forall in HF. by apply (HF i Hi).
Qed.

Lemma sample_run ruleno rule : 0 <= ruleno < 4 -> mjoin (at_ (rules Sample.map) ruleno) = Some rule ->
  Forall (step_ok 51 0 0) (steps rule) ->
  rule_run Sample.map None Sample.rank 1 3 51 0 0 500 ruleno rule (crush_init_workspace Sample.map).
Proof.
  intros Hno Hr Hst. split; try done.
  - apply Sample.ok.
  - eapply init_space_ok, Sample.ok.
  - lia.
Qed.

Lemma do_rule_total_witness :
  exists res, crush_do_rule Sample.map Sample.weights None 1 500 2 3 (crush_init_workspace Sample.map) = Some res /\
    Z.of_nat (length res) <= 3.
Proof.
  destruct (do_rule_total Sample.map Sample.weights None 1 Sample.rank 1 3 51 0 0 500 2 (Sample.rule Sample.flat_leaf)
    (crush_init_workspace Sample.map) 3) as (res & E & Hl & _);
    [apply sample_run; [lia|reflexivity|repeat constructor]|discriminate|].
  exists res. split; assumption.
Defined.

Lemma replicated_run m weight args x rank depth width T R F fuel ruleno rule work result_max :
  rule_run m args rank depth width T R F fuel ruleno rule work -> 0 <= result_max ->
  replicated_rule (steps rule) ->
  exists res, crush_do_rule m weight args x fuel ruleno result_max work = Some res /\
    NoDup res /\ Z.of_nat (length res) <= result_max /\
    forall o, o ∈ res -> 0 <= o < max_devices m /\ is_out weight o x = Some false.
Proof.
  intros Hrun Hmax Hrule. rewrite (do_rule_eq _ _ _ _ _ _ _ _ _ _ _ _ _ _ _ Hrun). destruct Hrun as [] eqn:E. clear E.
  destruct (replicated_steps m weight args x rank depth width run_map0 run_args0 T R F fuel result_max run_limits0 Hmax
    (steps rule) (start m work)) as (s & -> & Hs & Hnd & Hu);
    [by eapply run_T|done|by eapply run_start|done|done|done|].
  exists (result s). split; [done|]. split; [done|]. split; [apply Hs|]. intros o Ho.
  rewrite Forall_forall in Hu. destruct (Hu o Ho) as (_ & H1 & H2). destruct (H2 eq_refl). done.
Qed.

(** C30: Replicated placement.  A rule that takes a bucket and chooses
    depth-first (devices directly, or one device under each of several distinct
    items of a type) returns distinct devices, all of them below
    [max_devices] and none of them out: every device has a weight entry that
    is full or whose probability test accepts [x].  The rule may first override
    tunables. *)
Theorem replicated_rule_distinct m weight args x rank depth width T R F fuel ruleno rule work result_max :
  rule_run m args rank depth width T R F fuel ruleno rule work -> 0 <= result_max ->
  replicated_rule (steps rule) ->
  exists res, crush_do_rule m weight args x fuel ruleno result_max work = Some res /\
    NoDup res /\ Z.of_nat (length res) <= result_max /\
    forall o, o ∈ res -> 0 <= o < max_devices m /\ is_out weight o x = Some false.
Proof.
  apply replicated_run.
Qed.

Lemma replicated_sample : replicated_rule Sample.replicated.
Proof. exists [Sample.step CRUSH_RULE_SET_CHOOSELEAF_TRIES 5 0], (-1), true, 0, 1, 0, 0, 0. split; [done|]. auto. Qed.

Lemma replicated_rule_distinct_witness :
  exists res, crush_do_rule Sample.map Sample.weights None 0 500 0 3 (crush_init_workspace Sample.map) = Some res /\
    NoDup res /\ res = [4; 0; 3].
Proof.
  destruct (replicated_rule_distinct Sample.map Sample.weights None 0 Sample.rank 1 3 51 0 0 500 0
    (Sample.rule Sample.replicated) (crush_init_workspace Sample.map) 3) as (res & E & Hnd & _);
    [apply sample_run; [lia|reflexivity|repeat constructor; discriminate]|discriminate|apply replicated_sample|].
  exists res. split; [exact E|]. split; [exact Hnd|]. vm_compute in E. by injection E as <-.
Defined.

(** By position under type 0, [CHOOSELEAF_INDEP] puts osd.2, which is out, into the
    result, where [CHOOSE_INDEP] leaves a hole. *)
Lemma chooseleaf_device_out :
  let run ruleno := crush_do_rule Sample.map Sample.weights None 0 500 ruleno 3 (crush_init_workspace Sample.map) in
  run 2 = Some [0; 2; 1] /\ run 3 = Some [0; CRUSH_ITEM_NONE; 1] /\ is_out Sample.weights 2 0 = Some true.
Proof. by vm_compute. Qed.

(** C32: Erasure-coded placement.  A rule that takes a bucket and chooses
    devices by position ([CHOOSE_INDEP] of type 0), or one device under each of
    several items of another type by position ([CHOOSELEAF_INDEP] of a type other
    than 0), returns exactly the number of positions asked for (at most
    [result_max]); each holds a usable device, or the hole [CRUSH_ITEM_NONE]
    when no device could be found for it, and when devices are chosen directly
    no device is in two positions.  [CHOOSELEAF_INDEP] of type 0 is excluded: it can
    return a device that is out ([chooseleaf_device_out]). *)
Theorem erasure_rule_positions m weight args x rank depth width T R F fuel ruleno rule work result_max root b leaf n :
  rule_run m args rank depth width T R F fuel ruleno rule work -> 0 <= result_max ->
  erasure_rule (steps rule) root leaf n -> bucket_of m root = Some b ->
  exists res, crush_do_rule m weight args x fuel ruleno result_max work = Some res /\
    Z.of_nat (length res) = Z.max 0 (Z.min (if n <=? 0 then n + result_max else n) result_max) /\
    (forall o, o ∈ res -> o = CRUSH_ITEM_NONE \/ 0 <= o < max_devices m /\ is_out weight o x = Some false) /\
    (leaf = false -> forall i j o, res !! i = Some o -> res !! j = Some o -> o <> CRUSH_ITEM_NONE -> i = j).
Proof.
  intros Hrun Hmax Hrule Hb. rewrite (do_rule_eq _ _ _ _ _ _ _ _ _ _ _ _ _ _ _ Hrun). destruct Hrun as [] eqn:E. clear E.
  destruct (erasure_steps m weight args x rank depth width run_map0 run_args0 T R F fuel result_max run_limits0 Hmax
    (steps rule) (start m work) root b leaf n) as (s & -> & Hs & Hlen & Hu & Hd);
    [by eapply run_T|done|by eapply run_start|done|done|done|done|].
  exists (result s). split; [done|]. split; [done|]. split; [|intros Hl i j o; by apply (Hd Hl)]. intros o Ho.
  rewrite Forall_forall in Hu. destruct (Hu o Ho) as [->|(_ & H1 & H2)]; [by left|right]. destruct (H2 eq_refl). done.
Qed.

Lemma erasure_sample : erasure_rule Sample.erasure (-1) true 0.
Proof. exists [Sample.step CRUSH_RULE_SET_CHOOSELEAF_TRIES 5 0], 1, 0, 0, 0. split; [done|]. auto. Qed.

Lemma erasure_rule_positions_witness :
  exists res, crush_do_rule Sample.map Sample.weights None 0 500 1 4 (crush_init_workspace Sample.map) = Some res /\
    Z.of_nat (length res) = 4 /\ CRUSH_ITEM_NONE ∈ res.
Proof.
  destruct (erasure_rule_positions Sample.map Sample.weights None 0 Sample.rank 1 3 51 0 0 500 1
    (Sample.rule Sample.erasure) (crush_init_workspace Sample.map) 4 (-1) Sample.root true 0) as (res & E & Hl & _);
    [apply sample_run; [lia|reflexivity|repeat constructor; discriminate]|discriminate|apply erasure_sample|reflexivity|].
  exists res. split; [exact E|]. split; [exact Hl|]. vm_compute in E. injection E as <-.
  apply (bool_decide_unpack _). vm_compute. exact I.
Defined.
End CrushTheorems.
