(* ===== verification/CrushWrapper.v ===== *)
(** CRUSH as the OSD map uses it, src/ceph-15.2.17/src/crush/CrushWrapper.{h,cc}:
    the choice of a rule for a pool, the weight overrides of a pool, and the
    run of a rule.  The wrapper implements the interface [CrushMap] of
    OSDMap.v; the theorem at the end composes the two. *)
From S2P Require Import Prelude Pg CrushLn OSDMap Crush CrushChoice CrushFirstn CrushIndep CrushRule CrushTheorems.
Import Bits.

Module CrushWrapper.
Import Crush.

(** The members of [CrushWrapper] that placement reads: the map, whether every
    rule set is the rule of the same number, and the weight overrides by pool. *)
Record CrushWrapper := {
  crush : option crush_map;
  have_uniform_rules : bool;
  choose_args : gmap Z (list crush_choose_arg)
}.
Definition DEFAULT_CHOOSE_ARGS : Z := -1.

Fixpoint legacy_from (rs : list (option crush_rule)) (i : Z) : bool :=
  match rs with
  | [] => false
  | Some r :: rs => negb (mask_ruleset r =? i) || legacy_from rs (i + 1)
  | None :: rs => legacy_from rs (i + 1)
  end.
Definition has_legacy_rule_ids (m : crush_map) : bool := legacy_from (rules m) 0.

(** [finalize]: the part that concerns rules. *)
Definition finalize_rules (c : CrushWrapper) : option CrushWrapper :=
  m ← crush c;
  Some {| crush := crush c; have_uniform_rules := negb (has_legacy_rule_ids m); choose_args := choose_args c |}.

(** [ruleset] is the unsigned byte of a pool. *)
Definition find_rule (c : CrushWrapper) (ruleset type size : Z) : Z :=
  match crush c with
  | None => -1
  | Some m =>
    let fast := have_uniform_rules c && (ruleset <? max_rules m) &&
      match mjoin (at_ (rules m) ruleset) with
      | Some r => (mask_type r =? type) && (mask_min_size r <=? size) && (size <=? mask_max_size r)
      | None => false
      end in
    if fast then ruleset else crush_find_rule m ruleset type size
  end.

Definition choose_args_get_with_fallback (c : CrushWrapper) (index : Z) : option (list crush_choose_arg) :=
  match choose_args c !! index with
  | Some a => Some a
  | None => choose_args c !! DEFAULT_CHOOSE_ARGS
  end.

Definition do_rule (c : CrushWrapper) (fuel : nat) (rule x maxout : Z) (weight : list Z) (index : Z) : option (list Z) :=
  m ← crush c;
  crush_do_rule m weight (choose_args_get_with_fallback c index) x fuel rule maxout (crush_init_workspace m).

(** CRUSH as placement uses it. *)
#[global] Instance wrapper_crush (c : CrushWrapper) (fuel : nat) : CrushMap := {
  OSDMap.find_rule := find_rule c;
  OSDMap.do_rule := fun rule x maxout weight pool => default [] (do_rule c fuel rule x maxout weight pool)
}.
End CrushWrapper.

Module WrapperTheorems.
Import Crush Shuffle CrushFacts RuleFacts CrushTheorems CrushWrapper OSDMap OSDMapFacts UpActing Pg PgPool.

(** [find_rule] finds a rule that fits, or none does. *)
Lemma find_rule_from_spec rs i ruleset type size :
  let n := find_rule_from rs i ruleset type size in
  (n = -1 /\ forall k r, rs !! k = Some (Some r) -> rule_matches r ruleset type size = false) \/
  exists k r, n = i + Z.of_nat k /\ rs !! k = Some (Some r) /\ rule_matches r ruleset type size = true.
Proof.
  revert i. induction rs as [|[r|] rs IH]; intros i; simpl; [by left| |].
  - destruct (rule_matches r ruleset type size) eqn:E; [right; exists 0%nat, r; split_and!; [lia|done|done]|].
    destruct (IH (i + 1)) as [[-> H]|(k & r' & -> & H)].
    + left. split; [done|]. intros [|k] r' Hk; simplify_eq/=; eauto.
    + right. exists (S k), r'. split; [lia|done].
  - destruct (IH (i + 1)) as [[-> H]|(k & r' & -> & H)].
    + left. split; [done|]. intros [|k] r' Hk; simplify_eq/=; eauto.
    + right. exists (S k), r'. split; [lia|done].
Qed.

Lemma is_out_weight weight o x : is_out weight o x = Some false -> vec weight o <> 0.
Proof.
  unfold is_out, vec. case_match; [done|]. unfold at_. destruct (0 <=? o); [|done].
  destruct (weight !! Z.to_nat o) as [v|]; [|done]. cbn [mbind option_bind]. intros Ho E. simpl in E. subst v.
  discriminate Ho.
Qed.

Lemma distinct_NoDup l : NoDup l -> distinct l.
Proof. intros H i j o Hi Hj _. by eapply NoDup_lookup. Qed.

Lemma distinct_filter m l : osdmap_wf m -> distinct l -> NoDup (filter (alive m) l).
Proof.
  intros Hwf Hd. induction l as [|o l IH]; [constructor|]. rewrite filter_cons.
  assert (distinct l) as Hl by (intros i j v Hi Hj Hv; specialize (Hd (S i) (S j) v Hi Hj Hv); lia).
  case_decide as Ho; [|by apply IH]. constructor; [|by apply IH].
  intros [_ [j Hj]%list_elem_of_lookup]%list_elem_of_filter.
  specialize (Hd 0%nat (S j) o eq_refl Hj (alive_real m o Hwf Ho)). lia.
Qed.

(** The selection for a group of a replicated pool, once the rule is known. *)
Lemma raw_osds_replicated c fuel m pi pg cm rank depth width T R F rule :
  let ruleno := find_rule c (crush_rule pi) (PgPool.type pi) (PgPool.size pi) in
  crush c = Some cm -> 0 <= PgPool.size pi ->
  rule_run cm (choose_args_get_with_fallback c (m_pool pg)) rank depth width T R F fuel ruleno rule (crush_init_workspace cm) ->
  replicated_rule (steps rule) ->
  exists l, @raw_osds m (wrapper_crush c fuel) pi true pg = l /\ NoDup l /\ Z.of_nat (length l) <= PgPool.size pi /\
    forall o, o ∈ l -> vec (osd_weight m) o <> 0.
Proof.
  intros ruleno Hc Hsz Hrun Hrule. eexists. split; [done|]. unfold raw_osds, OSDMap.find_rule, OSDMap.do_rule, wrapper_crush.
  fold ruleno. pose proof (run_ruleno _ _ _ _ _ _ _ _ _ _ _ _ Hrun) as Hno. rewrite (proj2 (Z.leb_le 0 ruleno)) by lia.
  unfold do_rule. rewrite Hc. cbn [mbind option_bind].
  destruct (replicated_run cm (osd_weight m) _ (raw_pg_to_pps pi pg) _ _ _ _ _ _ _ _ _ _ (PgPool.size pi) Hrun Hsz Hrule)
    as (res & -> & Hnd & Hlen & Hu). simpl. split; [by apply NoDup_filter|]. split.
  - pose proof (length_filter (known m) res). lia.
  - intros o [_ Ho]%list_elem_of_filter. eapply is_out_weight, Hu, Ho.
Qed.

Lemma legacy_from_spec rs i : legacy_from rs i = false ->
  forall k r, rs !! k = Some (Some r) -> mask_ruleset r = i + Z.of_nat k.
Proof.
  revert i. induction rs as [|[r0|] rs IH]; intros i Hl [|k] r Hk; simplify_eq/=.
  - apply orb_false_iff in Hl as [Hl _]. apply negb_false_iff in Hl. zbool. lia.
  - apply orb_false_iff in Hl as [_ Hl]. specialize (IH _ Hl k r Hk). lia.
  - specialize (IH _ Hl k r Hk). lia.
Qed.

(** The rule of a pool.  The fast path of [CrushWrapper::find_rule], taken
    when every rule set is the rule of its own number, gives the same answer as
    the search of [crush_find_rule]; and the answer is a rule of the map that
    matches the rule set, the pool type and the size, or -1 when none does. *)
Theorem find_rule_correct c m c' ruleset type size :
  crush c = Some m -> 0 <= ruleset -> finalize_rules c = Some c' ->
  let n := find_rule c' ruleset type size in
  n = crush_find_rule m ruleset type size /\
  ((n = -1 /\ forall k r, rules m !! k = Some (Some r) -> rule_matches r ruleset type size = false) \/
   exists k r, n = Z.of_nat k /\ rules m !! k = Some (Some r) /\ rule_matches r ruleset type size = true).
Proof.
  intros Hc Hr Hf. unfold finalize_rules in Hf. rewrite Hc in Hf. injection Hf as <-.
  pose proof (find_rule_from_spec (rules m) 0 ruleset type size) as Hspec. cbv zeta in Hspec.
  fold (crush_find_rule m ruleset type size) in Hspec.
  assert (find_rule {| crush := crush c; have_uniform_rules := negb (has_legacy_rule_ids m); choose_args := choose_args c |}
    ruleset type size = crush_find_rule m ruleset type size) as E; [|cbv zeta; rewrite Hc in E; rewrite E; split; [done|exact Hspec]].
  unfold find_rule. simpl. rewrite Hc. destruct (_ && _ && _) eqn:Ef; [|done].
  rewrite !andb_true_iff in Ef. destruct Ef as [[Hu%negb_true_iff _] Hm].
  rewrite at_lookup in Hm by lia. destruct (rules m !! Z.to_nat ruleset) as [[r|]|] eqn:Er; simpl in Hm; try done.
  rewrite !andb_true_iff in Hm. destruct Hm as [[H1 H2] H3].
  pose proof (legacy_from_spec _ _ Hu _ _ Er) as Hset.
  assert (rule_matches r ruleset type size = true) as Hmatch.
  { unfold rule_matches. rewrite H1, H2, H3, !andb_true_r. apply Z.eqb_eq. lia. }
  destruct Hspec as [[_ Hn]|(k & r' & -> & Hk & Hk')]; [specialize (Hn _ _ Er); congruence|].
  pose proof (legacy_from_spec _ _ Hu _ _ Hk) as Hset'. unfold rule_matches in Hk'. zbool. lia.
Qed.

Definition sample_wrapper : CrushWrapper := {| crush := Some Sample.map; have_uniform_rules := false; choose_args := ∅ |}.

Lemma find_rule_correct_witness :
  exists c', finalize_rules sample_wrapper = Some c' /\ find_rule c' 0 1 3 = crush_find_rule Sample.map 0 1 3.
Proof.
  destruct (finalize_rules sample_wrapper) as [c'|] eqn:E; [|discriminate E]. exists c'. split; [reflexivity|].
  apply (find_rule_correct sample_wrapper Sample.map c' 0 1 3); [reflexivity|discriminate|exact E].
Defined.

(** C31: From a placement group to distinct devices.  For a replicated pool
    whose rule has the usual shape, on a well-formed OSD map and CRUSH map with
    any choose-args overrides, the up set computed through CRUSH, the upmap
    overrides, the device states and primary affinity names no OSD twice, only
    OSDs that exist and are up, and its primary is a member (or -1 for the empty
    set).  Without overrides for the group the set is no larger than the pool
    size and no OSD in it is marked out. *)
Theorem replicated_up_distinct c fuel m pi pg cm rank depth width T R F rule :
  osdmap_wf m -> can_shift_osds pi = Some true -> crush c = Some cm -> 0 <= PgPool.size pi ->
  rule_run cm (choose_args_get_with_fallback c (m_pool pg)) rank depth width T R F fuel
    (find_rule c (crush_rule pi) (PgPool.type pi) (PgPool.size pi)) rule (crush_init_workspace cm) ->
  replicated_rule (steps rule) ->
  (forall p, pg_upmap m !! raw_pg_to_pg pi pg = Some p -> distinct p) ->
  exists l p, @compute_up m (wrapper_crush c fuel) pi pg = Some (l, p) /\
    NoDup l /\ Forall (alive m) l /\ primary_ok l p /\
    (pg_upmap m !! raw_pg_to_pg pi pg = None -> pg_upmap_items m !! raw_pg_to_pg pi pg = None ->
     Z.of_nat (length l) <= PgPool.size pi /\ forall o, o ∈ l -> vec (osd_weight m) o <> 0).
Proof.
  intros Hwf Hs Hc Hsz Hrun Hrule Hup.
  destruct (raw_osds_replicated c fuel m pi pg cm rank depth width T R F rule Hc Hsz Hrun Hrule) as (raw & Er & Hnd & Hlen & Hw).
  destruct (@compute_up_ok m Hwf (wrapper_crush c fuel) pi true pg Hs) as (l & p & E & Hpl & Hp & Hperm & _).
  exists l, p. split; [done|]. rewrite Er in Hperm. simpl in Hperm.
  split; [rewrite Hperm; apply distinct_filter; [done|]; by apply upmap_distinct; [apply distinct_NoDup|]|].
  split; [eapply Forall_impl; [exact Hpl|]; by intros o [?|[? _]]|]. split; [done|].
  intros Hn1 Hn2. unfold _apply_upmap in Hperm. rewrite Hn1, Hn2 in Hperm. split.
  - rewrite Hperm. pose proof (length_filter (alive m) raw). lia.
  - intros o Ho. rewrite Hperm in Ho. apply list_elem_of_filter in Ho as [_ Ho]. by apply Hw.
Qed.

Lemma replicated_up_distinct_witness :
  exists l p, @compute_up OSDMapTheorems.toy_map (wrapper_crush sample_wrapper 500) (PgTheorems.pool_of 12) (mk_pg 7 4) = Some (l, p) /\
    NoDup l /\ p ∈ l.
Proof.
  destruct (replicated_up_distinct sample_wrapper 500 OSDMapTheorems.toy_map (PgTheorems.pool_of 12) (mk_pg 7 4)
    Sample.map Sample.rank 1 3 51 0 0 (Sample.rule Sample.replicated)) as (l & p & E & Hnd & _);
    [apply OSDMapTheorems.toy_wf|reflexivity|reflexivity|discriminate
    |apply sample_run; [vm_compute; split; [discriminate|reflexivity]|reflexivity|repeat constructor; discriminate]
    |apply replicated_sample|intros p E; vm_compute in E; discriminate E|].
  exists l, p. split; [exact E|]. split; [exact Hnd|]. vm_compute in E. injection E as <- <-. apply (bool_decide_unpack _). vm_compute. exact I.
Defined.
End WrapperTheorems.
