(* ===== verification/CleanRegions.v ===== *)
(** The clean regions of an object, [ObjectCleanRegions] of
    src/ceph-15.2.17/src/osd/osd_types.{h,cc}: which byte ranges a stale copy of
    an object shares with the current version, so that recovery copies only the
    rest.  Built on the interval sets of IntervalSet.v. *)
From S2P Require Import Prelude IntervalSet.
Module CleanRegions.
Import interval_set.

Record ObjectCleanRegions := {
  new_object : bool;
  clean_omap : bool;
  clean_offsets : interval_set
}.

(** [(uint64_t)-1], the length of the whole object. *)
Definition all64 : Z := two64 - 1.

(** [std::atomic<uint32_t> max_num_intervals = {10}]. *)
Definition max_num_intervals : nat := 10.

(** [ObjectCleanRegions()]: everything is clean. *)
Definition all_clean : option ObjectCleanRegions :=
  s ← insert clear 0 all64;
  Some {| new_object := false; clean_omap := true; clean_offsets := s |}.

(** The first of the shortest intervals. *)
Fixpoint shortest (l : list (Z * Z)) (best : Z * Z) : Z * Z :=
  match l with
  | [] => best
  | it :: l => shortest l (if snd it <? snd best then it else best)
  end.

(** [interval_set::erase(iterator)]. *)
Definition erase_iter (it : Z * Z) (s : interval_set) : option interval_set :=
  let size' := size s - snd it in
  ceph_assert (0 <=? size') ;;
  Some (mk size' (filter (fun p => p.1 <> it.1) (m s))).

(** [while (clean_offsets.num_intervals() > max_num_intervals)], one interval
    leaves per round. *)
Fixpoint trim (n : nat) (s : interval_set) : option interval_set :=
  match n with
  | O => Some s
  | S n =>
    if (max_num_intervals <? length (m s))%nat then
      match m s with
      | [] => Some s
      | it :: _ => s ← erase_iter (shortest (m s) it) s; trim n s
      end
    else Some s
  end.
Definition trimmed (s : interval_set) : option interval_set := trim (length (m s)) s.

Definition merge (r other : ObjectCleanRegions) : option ObjectCleanRegions :=
  s ← intersection_of (clean_offsets r) (clean_offsets other);
  s ← trimmed s;
  Some {| new_object := new_object r; clean_omap := clean_omap r && clean_omap other; clean_offsets := s |}.

Definition mark_data_region_dirty (offset len : Z) (r : ObjectCleanRegions) : option ObjectCleanRegions :=
  clean_region ← insert clear 0 all64;
  clean_region ← erase clean_region offset len;
  s ← intersection_of (clean_offsets r) clean_region;
  s ← trimmed s;
  Some {| new_object := new_object r; clean_omap := clean_omap r; clean_offsets := s |}.

Definition mark_omap_dirty (r : ObjectCleanRegions) : ObjectCleanRegions :=
  {| new_object := new_object r; clean_omap := false; clean_offsets := clean_offsets r |}.

Definition mark_object_new (r : ObjectCleanRegions) : ObjectCleanRegions :=
  {| new_object := true; clean_omap := clean_omap r; clean_offsets := clean_offsets r |}.

Definition mark_fully_dirty (r : ObjectCleanRegions) : option ObjectCleanRegions :=
  r ← mark_data_region_dirty 0 all64 r;
  Some (mark_object_new (mark_omap_dirty r)).

Definition get_dirty_regions (r : ObjectCleanRegions) : option interval_set :=
  dirty ← insert clear 0 all64;
  subtract dirty (clean_offsets r).

Definition omap_is_dirty (r : ObjectCleanRegions) : bool := negb (clean_omap r).
Definition object_is_exist (r : ObjectCleanRegions) : bool := negb (new_object r).
End CleanRegions.

Module CleanRegionsFacts.
Import interval_set IntervalFacts CleanRegions.

Definition clean (r : ObjectCleanRegions) (x : Z) : Prop := In_set x (clean_offsets r).
Definition regions_ok (r : ObjectCleanRegions) : Prop :=
  wf (clean_offsets r) /\ forall x, clean r x -> x < all64.

Lemma full_spec : exists s, insert clear 0 all64 = Some s /\ wf s /\ forall x, In_set x s <-> 0 <= x < all64.
Proof.
  destruct (insert_spec clear 0 all64) as (s & E & Hw & _ & Hx); [by split|lia|unfold all64; lia|unfold all64; lia|by intros x _ []|].
  exists s. split; [done|]. split; [done|]. intros x. rewrite Hx. unfold In_set. simpl. tauto.
Qed.

Lemma shortest_in l best : shortest l best ∈ best :: l.
Proof.
  revert best. induction l as [|it l IH]; intros best; simpl; [set_solver|].
  destruct (_ <? _); specialize (IH it) as H1; specialize (IH best) as H2; set_solver.
Qed.

Lemma wf_from_entry lo l k v : wf_from lo l -> (k, v) ∈ l -> lo <= k /\ 0 < v.
Proof.
  revert lo. induction l as [|[k' v'] l IH]; intros lo; simpl; [set_solver|]. intros (?&?&?&Hl) [[= -> ->]|Hin]%elem_of_cons;
    [lia|]. specialize (IH _ Hl Hin). lia.
Qed.

(** Erasing one interval: it leaves, and everything else stays. *)
Lemma filter_key lo l k v : wf_from lo l -> (k, v) ∈ l ->
  wf_from lo (filter (fun p => p.1 <> k) l) /\ total l = v + total (filter (fun p => p.1 <> k) l) /\
  (forall x, mem x (filter (fun p => p.1 <> k) l) -> mem x l) /\
  S (length (filter (fun p => p.1 <> k) l)) = length l.
Proof.
  revert lo. induction l as [|[k' v'] l IH]; intros lo; [set_solver|]. intros (?&?&?&Hl) Hin.
  destruct (decide (k' = k)) as [->|Hne].
  - rewrite filter_cons_False by (simpl; tauto).
    assert (filter (fun p => p.1 <> k) l = l) as ->.
    { apply filter_all, Forall_forall. intros [a b] Ha. pose proof (wf_from_entry _ _ _ _ Hl Ha). simpl. lia. }
    apply elem_of_cons in Hin as [[= ->]|Hin]; [|pose proof (wf_from_entry _ _ _ _ Hl Hin); lia].
    split; [eapply wf_from_weaken; [|exact Hl]; lia|]. simpl. split; [lia|]. split; [tauto|done].
  - rewrite filter_cons_True by done. apply elem_of_cons in Hin as [[= -> ->]|Hin]; [done|].
    destruct (IH _ Hl Hin) as (G1 & G2 & G3 & G4). simpl. split; [done|]. split; [lia|].
    split; [intros x [?|?]; auto|lia].
Qed.

Lemma erase_iter_ok it s : wf s -> it ∈ m s ->
  exists s', erase_iter it s = Some s' /\ wf s' /\ (forall x, In_set x s' -> In_set x s) /\
    S (length (m s')) = length (m s).
Proof.
  intros [Hw Hs] Hin. destruct it as [k v]. destruct (filter_key 0 (m s) k v Hw Hin) as (H1 & H2 & H3 & H4).
  unfold erase_iter. simpl. pose proof (total_nonneg _ _ H1). rewrite (proj2 (Z.leb_le 0 (size s - v))) by lia.
  eexists. split; [done|]. split; [split; simpl; [done|lia]|]. split; [apply H3|exact H4].
Qed.

Lemma trim_ok n s : wf s -> (length (m s) <= n)%nat ->
  exists s', trim n s = Some s' /\ wf s' /\ (forall x, In_set x s' -> In_set x s) /\
    (length (m s') <= max_num_intervals)%nat /\ ((length (m s) <= max_num_intervals)%nat -> s' = s).
Proof.
  revert s. induction n as [|n IH]; intros s Hw Hl; cbn [trim].
  { exists s. split_and!; try done; lia. }
  destruct (max_num_intervals <? length (m s))%nat eqn:E; [apply Nat.ltb_lt in E|apply Nat.ltb_ge in E; by exists s].
  destruct (m s) as [|it l] eqn:Em; [simpl in E; lia|]. rewrite <- Em.
  assert (shortest (m s) it ∈ m s) as Hin by (rewrite Em; pose proof (shortest_in (it :: l) it); set_solver).
  destruct (erase_iter_ok _ s Hw Hin) as (s1 & -> & Hw1 & Hsub & Hlen). cbn [mbind option_bind].
  rewrite <- Em in *. destruct (IH s1) as (s2 & -> & Hw2 & Hsub2 & Hlen2 & _); [done|lia|].
  exists s2. split_and!; try done; [auto|lia].
Qed.

Lemma trimmed_ok s : wf s -> exists s', trimmed s = Some s' /\ wf s' /\ (forall x, In_set x s' -> In_set x s) /\
    (length (m s') <= max_num_intervals)%nat /\ ((length (m s) <= max_num_intervals)%nat -> s' = s).
Proof. intros. by apply trim_ok. Qed.

Lemma merge_ok a b : regions_ok a -> regions_ok b ->
  exists r, merge a b = Some r /\ regions_ok r /\ (forall x, clean r x -> clean a x /\ clean b x).
Proof.
  intros [Ha Ha'] [Hb _]. unfold merge. destruct (inter_spec _ _ Ha Hb) as (s & -> & Hs & Hx). cbn [mbind option_bind].
  destruct (trimmed_ok s Hs) as (s' & -> & Hw & Hsub & _). cbn [mbind option_bind]. eexists. split; [done|].
  unfold regions_ok, clean in *. simpl. split; [split; [done|]|]; intros x H%Hsub%Hx; [apply Ha', H|exact H].
Qed.

Lemma mark_dirty_ok r off len : regions_ok r -> 0 <= off -> 0 < len -> off + len <= all64 ->
  exists r', mark_data_region_dirty off len r = Some r' /\ regions_ok r' /\
    new_object r' = new_object r /\ clean_omap r' = clean_omap r /\
    (forall x, clean r' x -> clean r x /\ ~ off <= x < off + len) /\
    (length (m (clean_offsets r')) <= max_num_intervals)%nat.
Proof.
  intros [Hr Hr'] Ho Hl Hol. unfold mark_data_region_dirty. destruct full_spec as (f & -> & Hf & Hfx). cbn [mbind option_bind].
  destruct (erase_spec f off len Hf Ho Hl) as (c & -> & Hc & Hcx); [unfold all64 in *; lia|intros x ?; apply Hfx; lia|].
  cbn [mbind option_bind]. destruct (inter_spec _ _ Hr Hc) as (s & -> & Hs & Hx). cbn [mbind option_bind].
  destruct (trimmed_ok s Hs) as (s' & -> & Hw & Hsub & Hn & _). cbn [mbind option_bind]. eexists. split; [done|].
  unfold regions_ok, clean in *. simpl. split; [split; [done|]; intros x [H _]%Hsub%Hx; apply Hr', H|].
  split; [done|]. split; [done|]. split; [|done]. intros x [H1 H2%Hcx]%Hsub%Hx. tauto.
Qed.

Lemma mark_fully_dirty_ok r : regions_ok r ->
  exists r', mark_fully_dirty r = Some r' /\ regions_ok r' /\ (forall x, ~ clean r' x) /\
    new_object r' = true /\ clean_omap r' = false.
Proof.
  intros Hr. unfold mark_fully_dirty. destruct (mark_dirty_ok r 0 all64) as (r' & -> & [H1 H1'] & _ & _ & H2 & _); [done..|].
  cbn [mbind option_bind]. eexists. split; [done|]. split; [done|]. split; [|done].
  intros x Hx. destruct (H2 x Hx) as [_ H3]. apply H3. pose proof (mem_bounds _ _ _ (proj1 H1) Hx). specialize (H1' x Hx). lia.
Qed.

Lemma dirty_ok r : regions_ok r -> exists d, get_dirty_regions r = Some d /\ wf d /\
  forall x, In_set x d <-> 0 <= x < all64 /\ ~ clean r x.
Proof.
  intros [Hr Hr']. unfold get_dirty_regions. destruct full_spec as (f & -> & Hf & Hfx). cbn [mbind option_bind].
  unfold subtract. destruct (subtract_list_spec (m (clean_offsets r)) 0 f) as (d & -> & Hd & Hx);
    [done|apply Hr|done|intros x Hx; apply Hfx; pose proof (mem_bounds _ _ _ (proj1 Hr) Hx); specialize (Hr' x Hx); lia|].
  exists d. split; [done|]. split; [done|]. intros x. rewrite Hx, Hfx. done.
Qed.

Lemma all_clean_ok : exists r, all_clean = Some r /\ regions_ok r /\ (forall x, clean r x <-> 0 <= x < all64).
Proof.
  unfold all_clean. destruct full_spec as (f & -> & Hf & Hfx). cbn [mbind option_bind]. eexists. split; [done|].
  unfold regions_ok, clean. simpl. split; [split; [done|]; intros x Hx%Hfx; lia|apply Hfx].
Qed.
End CleanRegionsFacts.

Module CleanRegionsTheorems.
Import interval_set IntervalFacts CleanRegions CleanRegionsFacts.

(** Recovery never skips a changed byte.  Merging the clean regions of two
    updates, or marking a range dirty, returns without failing an assertion of
    the interval sets; a byte that either side considers dirty is dirty in the
    result, even when the limit on the number of intervals drops some of them;
    and [get_dirty_regions], what recovery copies, is exactly the complement of
    the clean bytes. *)
Theorem dirty_bytes_kept a b off len :
  regions_ok a -> regions_ok b -> 0 <= off -> 0 < len -> off + len <= all64 ->
  exists r r' d, merge a b = Some r /\ mark_data_region_dirty off len r = Some r' /\
    get_dirty_regions r' = Some d /\ regions_ok r' /\
    (length (m (clean_offsets r')) <= max_num_intervals)%nat /\
    (forall x, 0 <= x < all64 -> (~ clean a x \/ ~ clean b x \/ off <= x < off + len) -> In_set x d) /\
    (forall x, In_set x d <-> 0 <= x < all64 /\ ~ clean r' x).
Proof.
  intros Ha Hb Ho Hl Hol. destruct (merge_ok a b Ha Hb) as (r & E & Hr & Hx).
  destruct (mark_dirty_ok r off len Hr Ho Hl Hol) as (r' & E' & Hr' & _ & _ & Hx' & Hlen).
  destruct (dirty_ok r' Hr') as (d & Ed & _ & Hd). exists r, r', d. do 4 (split; [done|]). split; [|split; [|done]].
  - exact Hlen.
  - intros x Hb' Hor. apply Hd. split; [done|]. intros [H1 H2]%Hx'. apply Hx in H1 as [? ?]. tauto.
Qed.

Lemma dirty_bytes_kept_witness :
  let r l := {| new_object := false; clean_omap := true; clean_offsets := l |} in
  exists r' d, get_dirty_regions r' = Some d /\
    merge (r (mk 15 [(5, 10); (20, 5)])) (r (mk 100 [(0, 100)])) ≫= mark_data_region_dirty 8 2 = Some r' /\ In_set 8 d.
Proof.
  destruct (dirty_bytes_kept {| new_object := false; clean_omap := true; clean_offsets := mk 15 [(5, 10); (20, 5)] |}
    {| new_object := false; clean_omap := true; clean_offsets := mk 100 [(0, 100)] |} 8 2)
    as (r & r' & d & E1 & E2 & E3 & _ & _ & H & _).
  - split; [split; [simpl; lia|reflexivity]|]. unfold clean, In_set, all64. simpl. lia.
  - split; [split; [simpl; lia|reflexivity]|]. unfold clean, In_set, all64. simpl. lia.
  - lia.
  - lia.
  - unfold all64. lia.
  - exists r', d. split; [exact E3|]. split; [rewrite E1; exact E2|]. apply H; [unfold all64; lia|]. right. right. lia.
Defined.
End CleanRegionsTheorems.
