(* ===== verification/PgMissing.v ===== *)
(** The placement-group log, data: [eversion_t], [pg_log_entry_t],
    [pg_missing_item] and [pg_missing_set] of src/ceph-15.2.17/src/osd/osd_types.h.
    The missing set of a replica records, for every object whose local copy is
    not the one the log calls for, the version it needs and the version it has.  *)
From S2P Require Import Prelude Pg Hobject IntervalSet CleanRegions.
Import Bits.
(** ** Versions *)
Module Eversion.

(** [eversion_t]: the epoch of the map a write was made in, and its number in
    the group, compared in this order. *)
Record eversion_t := ev { epoch : Z; version : Z }.

#[export] Instance eversion_eq_dec : EqDecision eversion_t.
Proof. solve_decision. Defined.
#[export] Program Instance eversion_countable : Countable eversion_t :=
  inj_countable' (fun e => (epoch e, version e)) (fun p => ev p.1 p.2) _.
Next Obligation. by intros []. Qed.

Definition zero : eversion_t := ev 0 0.
Definition max : eversion_t := ev (two32 - 1) (two64 - 1).

Definition lt (l r : eversion_t) : bool :=
  if epoch l =? epoch r then version l <? version r else epoch l <? epoch r.
Definition le (l r : eversion_t) : bool :=
  if epoch l =? epoch r then version l <=? version r else epoch l <=? epoch r.
Definition eqb (l r : eversion_t) : bool := (epoch l =? epoch r) && (version l =? version r).
Definition max_ev (a b : eversion_t) : eversion_t := if lt a b then b else a.
Definition min_ev (a b : eversion_t) : eversion_t := if lt b a then b else a.

End Eversion.

Declare Scope ev_scope.
Delimit Scope ev_scope with ev.
Infix "<?" := Eversion.lt : ev_scope.
Infix "<=?" := Eversion.le : ev_scope.
Infix "=?" := Eversion.eqb : ev_scope.

Module EversionFacts.
Import Eversion.

Lemma lt_spec a b : (a <? b)%ev = true <-> epoch a < epoch b \/ (epoch a = epoch b /\ version a < version b).
Proof. unfold lt. destruct (epoch a =? epoch b) eqn:E; zbool; rewrite Z.ltb_lt; lia. Qed.
Lemma le_spec a b : (a <=? b)%ev = true <-> epoch a < epoch b \/ (epoch a = epoch b /\ version a <= version b).
Proof. unfold le. destruct (epoch a =? epoch b) eqn:E; zbool; rewrite Z.leb_le; lia. Qed.
Lemma eqb_spec a b : (a =? b)%ev = true <-> a = b.
Proof.
  unfold eqb. rewrite andb_true_iff, !Z.eqb_eq. destruct a, b; simpl. split; [intros [-> ->]; done|by intros [= -> ->]].
Qed.
Lemma lt_ge a b : (a <? b)%ev = false <-> (b <=? a)%ev = true.
Proof. rewrite <- not_true_iff_false, lt_spec, le_spec. lia. Qed.
Lemma le_gt a b : (a <=? b)%ev = false <-> (b <? a)%ev = true.
Proof. rewrite <- not_true_iff_false, lt_spec, le_spec. lia. Qed.
Lemma eqb_neq a b : (a =? b)%ev = false <-> a <> b.
Proof. by rewrite <- not_true_iff_false, eqb_spec. Qed.

Definition Lt (a b : eversion_t) : Prop := (a <? b)%ev = true.
Definition Le (a b : eversion_t) : Prop := (a <=? b)%ev = true.

#[export] Instance Lt_strict : StrictOrder Lt.
Proof.
  split.
  - intros a. unfold complement, Lt. rewrite lt_spec. lia.
  - intros a b c. unfold Lt. rewrite !lt_spec. lia.
Qed.
#[export] Instance Le_preorder : PreOrder Le.
Proof.
  split.
  - intros a. unfold Le. rewrite le_spec. lia.
  - intros a b c. unfold Le. rewrite !le_spec. lia.
Qed.
Lemma Lt_Le a b : Lt a b -> Le a b.
Proof. unfold Lt, Le. rewrite lt_spec, le_spec. lia. Qed.
Lemma Le_Lt_trans a b c : Le a b -> Lt b c -> Lt a c.
Proof. unfold Lt, Le. rewrite !lt_spec, le_spec. lia. Qed.
Lemma Lt_Le_trans a b c : Lt a b -> Le b c -> Lt a c.
Proof. unfold Lt, Le. rewrite !lt_spec, le_spec. lia. Qed.
Lemma Le_antisym a b : Le a b -> Le b a -> a = b.
Proof. unfold Le. rewrite !le_spec. destruct a, b; simpl. intros. f_equal; lia. Qed.
Lemma max_ev_l a b : Le a (max_ev a b).
Proof. unfold max_ev. destruct (a <? b)%ev eqn:E; [by apply Lt_Le|reflexivity]. Qed.
Lemma max_ev_r a b : Le b (max_ev a b).
Proof. unfold max_ev. destruct (a <? b)%ev eqn:E; [reflexivity|]. by apply lt_ge in E. Qed.
Lemma min_ev_l a b : Le (min_ev a b) a.
Proof. unfold min_ev. destruct (b <? a)%ev eqn:E; [by apply Lt_Le|reflexivity]. Qed.
Lemma min_ev_r a b : Le (min_ev a b) b.
Proof. unfold min_ev. destruct (b <? a)%ev eqn:E; [reflexivity|]. by apply lt_ge. Qed.
End EversionFacts.

(** ** Log entries *)
Module Entry.
Import Hobject Eversion CleanRegions.

Inductive op_t := MODIFY | CLONE | DELETE | LOST_REVERT | LOST_DELETE | LOST_MARK | PROMOTE | CLEAN | ERROR.
#[export] Instance op_eq_dec : EqDecision op_t.
Proof. solve_decision. Defined.

(** [pg_log_entry_t]; [mod_desc] is reduced to whether it can be rolled back,
    and request ids are numbers. *)
Record pg_log_entry_t := {
  op : op_t;
  soid : hobject_t;
  reqid : Z;
  extra_reqids : list (Z * Z);
  extra_reqid_return_codes : list (nat * Z);
  e_version : eversion_t;
  prior_version : eversion_t;
  user_version : Z;
  return_code : Z;
  can_rollback : bool;
  e_clean_regions : ObjectCleanRegions
}.

Definition is_clone (e : pg_log_entry_t) : bool := bool_decide (op e = CLONE).
Definition is_lost_revert (e : pg_log_entry_t) : bool := bool_decide (op e = LOST_REVERT).
Definition is_lost_delete (e : pg_log_entry_t) : bool := bool_decide (op e = LOST_DELETE).
Definition is_error (e : pg_log_entry_t) : bool := bool_decide (op e = ERROR).
Definition is_update (e : pg_log_entry_t) : bool :=
  match op e with CLONE | MODIFY | PROMOTE | CLEAN | LOST_REVERT | LOST_MARK => true | _ => false end.
Definition is_delete (e : pg_log_entry_t) : bool :=
  match op e with DELETE | LOST_DELETE => true | _ => false end.
Definition object_is_indexed (e : pg_log_entry_t) : bool := negb (is_error e).

End Entry.

#[export] Instance hobject_eq_dec : EqDecision Hobject.hobject_t.
Proof. solve_decision. Defined.
#[export] Program Instance hobject_countable : Countable Hobject.hobject_t :=
  inj_countable' (fun h => (Hobject.oid h, Hobject.snap h, Hobject.hash h, Hobject.max h,
      Hobject.nibblewise_key_cache h, Hobject.hash_reverse_bits h, (Hobject.pool h, Hobject.nspace h, Hobject.key h)))
    (fun '(a, b, c, d, e, f, (g, h, i)) => {| Hobject.oid := a; Hobject.snap := b; Hobject.hash := c; Hobject.max := d;
      Hobject.nibblewise_key_cache := e; Hobject.hash_reverse_bits := f; Hobject.pool := g; Hobject.nspace := h;
      Hobject.key := i |}) _.
Next Obligation. by intros []. Qed.

(** ** The missing set *)
Module Missing.
Import Hobject Eversion CleanRegions Entry.

Record pg_missing_item := {
  need : eversion_t;
  have : eversion_t;
  clean_regions : ObjectCleanRegions;
  flag_delete : bool
}.

(** The constructor: nothing is dirty, unless the caller is [old_style]. *)
Definition item (n h : eversion_t) (is_delete old_style : bool) : option pg_missing_item :=
  r ← all_clean;
  r ← if old_style then mark_fully_dirty r else Some r;
  Some {| need := n; have := h; clean_regions := r; flag_delete := is_delete |}.

Definition set_regions (r : ObjectCleanRegions) (it : pg_missing_item) : pg_missing_item :=
  {| need := need it; have := have it; clean_regions := r; flag_delete := flag_delete it |}.

(** [pg_missing_set]: the items by object, the objects by the number of the
    version they need, and the objects touched since the last write-out. *)
Record pg_missing_set := {
  missing : gmap hobject_t pg_missing_item;
  rmissing : gmap Z hobject_t;
  tracker : gset hobject_t;
  may_include_deletes : bool
}.

Definition with_maps (m : gmap hobject_t pg_missing_item) (r : gmap Z hobject_t) (oid : hobject_t)
    (s : pg_missing_set) : pg_missing_set :=
  {| missing := m; rmissing := r; tracker := {[ oid ]} ∪ tracker s; may_include_deletes := may_include_deletes s |}.

Definition num_missing (s : pg_missing_set) : Z := Z.of_nat (size (missing s)).
Definition have_missing (s : pg_missing_set) : bool := bool_decide (missing s <> ∅).
Definition is_missing (s : pg_missing_set) (oid : hobject_t) : bool := bool_decide (is_Some (missing s !! oid)).
Definition is_missing_at (s : pg_missing_set) (oid : hobject_t) (v : eversion_t) : bool :=
  match missing s !! oid with
  | None => false
  | Some it => negb (v <? need it)%ev
  end.

(** [rmissing.begin()]: the entry of the lowest version number. *)
Definition rmissing_begin (s : pg_missing_set) : option (Z * hobject_t) :=
  foldr (fun p best => match best with
                       | None => Some p
                       | Some q => if fst p <? fst q then Some p else Some q
                       end) None (map_to_list (rmissing s)).

Definition get_oldest_need (s : pg_missing_set) : option eversion_t :=
  if bool_decide (missing s = ∅) then Some zero
  else
    '(_, o) ← rmissing_begin s;
    it ← missing s !! o;
    Some (need it).

(** [merge]: the clean regions of an entry newer than the copy at hand. *)
Definition merge (e : pg_log_entry_t) (s : pg_missing_set) : option pg_missing_set :=
  match missing s !! soid e with
  | Some it =>
    if negb (have it =? zero)%ev && (have it <? e_version e)%ev then
      r ← CleanRegions.merge (clean_regions it) (e_clean_regions e);
      Some {| missing := <[soid e := set_regions r it]> (missing s); rmissing := rmissing s;
              tracker := tracker s; may_include_deletes := may_include_deletes s |}
    else Some s
  | None => Some s
  end.

Definition add_next_event (e : pg_log_entry_t) (s : pg_missing_set) : option pg_missing_set :=
  let found := missing s !! soid e in
  let rm := match found with Some it => delete (version (need it)) (rmissing s) | None => rmissing s end in
  it ← if (prior_version e =? zero)%ev || is_clone e then
         it ← item (e_version e) zero (is_delete e) false;
         r ← mark_fully_dirty (clean_regions it);
         Some (set_regions r it)
       else
         match found with
         | Some it =>
           r ← if is_lost_revert e then mark_fully_dirty (clean_regions it)
               else CleanRegions.merge (clean_regions it) (e_clean_regions e);
           Some {| need := e_version e; have := have it; clean_regions := r; flag_delete := is_delete e |}
         | None =>
           it ← item (e_version e) (prior_version e) (is_delete e) false;
           r ← if is_lost_revert e then mark_fully_dirty (clean_regions it) else Some (e_clean_regions e);
           Some (set_regions r it)
         end;
  Some (with_maps (<[soid e := it]> (missing s)) (<[version (e_version e) := soid e]> rm) (soid e) s).

Definition revise_need (oid : hobject_t) (n : eversion_t) (is_delete : bool) (s : pg_missing_set)
    : option pg_missing_set :=
  let found := missing s !! oid in
  let rm := match found with Some it => delete (version (need it)) (rmissing s) | None => rmissing s end in
  it ← match found with
       | Some it =>
         r ← mark_fully_dirty (clean_regions it);
         Some {| need := n; have := have it; clean_regions := r; flag_delete := is_delete |}
       | None =>
         it ← item n zero is_delete false;
         r ← mark_fully_dirty (clean_regions it);
         Some (set_regions r it)
       end;
  Some (with_maps (<[oid := it]> (missing s)) (<[version n := oid]> rm) oid s).

Definition revise_have (oid : hobject_t) (h : eversion_t) (s : pg_missing_set) : pg_missing_set :=
  match missing s !! oid with
  | Some it => with_maps (<[oid := {| need := need it; have := h; clean_regions := clean_regions it;
                                      flag_delete := flag_delete it |}]> (missing s)) (rmissing s) oid s
  | None => s
  end.

Definition mark_oid_dirty (oid : hobject_t) (s : pg_missing_set) : option pg_missing_set :=
  match missing s !! oid with
  | Some it =>
    r ← mark_fully_dirty (clean_regions it);
    Some (with_maps (<[oid := set_regions r it]> (missing s)) (rmissing s) oid s)
  | None => Some s
  end.

Definition add (oid : hobject_t) (n h : eversion_t) (is_delete : bool) (s : pg_missing_set) : option pg_missing_set :=
  it ← item n h is_delete true;
  Some (with_maps (<[oid := it]> (missing s)) (<[version n := oid]> (rmissing s)) oid s).

(** [rm(iterator)] and [got(iterator)]. *)
Definition rm_it (oid : hobject_t) (it : pg_missing_item) (s : pg_missing_set) : pg_missing_set :=
  with_maps (delete oid (missing s)) (delete (version (need it)) (rmissing s)) oid s.

Definition rm (oid : hobject_t) (v : eversion_t) (s : pg_missing_set) : pg_missing_set :=
  match missing s !! oid with
  | Some it => if (need it <=? v)%ev then rm_it oid it s else s
  | None => s
  end.

Definition got (oid : hobject_t) (v : eversion_t) (s : pg_missing_set) : option pg_missing_set :=
  match missing s !! oid with
  | None => ceph_abort
  | Some it => ceph_assert ((need it <=? v)%ev || flag_delete it) ;; Some (rm_it oid it s)
  end.

Definition before (a b : hobject_t * pg_missing_item) : Prop := Hobject.cmp (fst a) (fst b) <= 0.
#[export] Instance before_dec : RelDecision before.
Proof. intros a b. unfold before. apply _. Defined.

(** The objects of a set in the order of the map. *)
Definition in_order (s : pg_missing_set) : list (hobject_t * pg_missing_item) :=
  merge_sort before (map_to_list (missing s)).

Definition split_mask (split_bits : Z) : Z := u32 (Z.lnot (Z.shiftl (-1) split_bits)).

(** [split_into]: this set and the child's. *)
Definition split_into (child_seed split_bits : Z) (s omissing : pg_missing_set)
    : option (pg_missing_set * pg_missing_set) :=
  foldl (fun r '(o, it) =>
      '(s, om) ← r;
      if Z.land (Hobject.hash o) (split_mask split_bits) =? child_seed then
        om ← add o (need it) (have it) (flag_delete it) om;
        Some (rm_it o it s, om)
      else Some (s, om))
    (Some (s, {| missing := missing omissing; rmissing := rmissing omissing; tracker := tracker omissing;
                 may_include_deletes := may_include_deletes s |}))
    (in_order s).

Definition clear (s : pg_missing_set) : pg_missing_set :=
  {| missing := ∅; rmissing := ∅; tracker := dom (missing s) ∪ tracker s; may_include_deletes := may_include_deletes s |}.

Definition flush (s : pg_missing_set) : pg_missing_set :=
  {| missing := missing s; rmissing := rmissing s; tracker := ∅; may_include_deletes := may_include_deletes s |}.

End Missing.
Module MissingFacts.
Import Hobject Eversion EversionFacts CleanRegions CleanRegionsFacts Entry Missing.

(** The clean regions of every item are well-formed. *)
Definition items_ok (s : pg_missing_set) : Prop :=
  map_Forall (fun _ it => regions_ok (clean_regions it)) (missing s).

(** The two maps of a set agree: a version number leads to the one object that
    needs it. *)
Definition rindex (s : pg_missing_set) : Prop :=
  forall v o, rmissing s !! v = Some o <-> exists it, missing s !! o = Some it /\ version (need it) = v.

(** No other object needs version number [v]. *)
Definition fresh_for (o : hobject_t) (v : Z) (s : pg_missing_set) : Prop :=
  forall o' it, missing s !! o' = Some it -> o' <> o -> version (need it) <> v.

Lemma item_ok n h d old : exists it, item n h d old = Some it /\ need it = n /\ have it = h /\
  flag_delete it = d /\ regions_ok (clean_regions it).
Proof.
  unfold item. destruct all_clean_ok as (r & -> & Hr & _). cbn [mbind option_bind].
  destruct old; [destruct (mark_fully_dirty_ok r Hr) as (r' & -> & Hr' & _)|]; cbn [mbind option_bind]; eexists; done.
Qed.

(** What an operation leaves in place of the item of [oid]. *)
Definition replaced (oid : hobject_t) (it : pg_missing_item) (s s' : pg_missing_set) : Prop :=
  missing s' = <[oid := it]> (missing s) /\
  rmissing s' = <[version (need it) := oid]>
    (match missing s !! oid with Some it0 => delete (version (need it0)) (rmissing s) | None => rmissing s end) /\
  may_include_deletes s' = may_include_deletes s /\ tracker s' = {[ oid ]} ∪ tracker s /\
  (items_ok s -> items_ok s').

Lemma items_insert oid it s : regions_ok (clean_regions it) -> items_ok s ->
  map_Forall (fun _ it => regions_ok (clean_regions it)) (<[oid := it]> (missing s)).
Proof. intros. by apply map_Forall_insert_2. Qed.

Lemma dirty_item_ok n h d : exists it,
  (it ← item n h d false; r ← mark_fully_dirty (clean_regions it); Some (set_regions r it)) = Some it /\
  need it = n /\ have it = h /\ flag_delete it = d /\ regions_ok (clean_regions it).
Proof.
  destruct (item_ok n h d false) as (it & -> & H1 & H2 & H3 & Hr). cbn [mbind option_bind].
  destruct (mark_fully_dirty_ok _ Hr) as (r' & -> & Hr' & _). cbn [mbind option_bind]. eexists. done.
Qed.

(** The version an entry leaves as present: none for a new object. *)
Definition next_have (e : pg_log_entry_t) (found : option pg_missing_item) : eversion_t :=
  if (prior_version e =? zero)%ev || is_clone e then zero
  else match found with Some it => have it | None => prior_version e end.

Lemma add_next_event_ok e s : items_ok s -> regions_ok (e_clean_regions e) ->
  exists s' it, add_next_event e s = Some s' /\ replaced (soid e) it s s' /\
    need it = e_version e /\ flag_delete it = is_delete e /\ have it = next_have e (missing s !! soid e).
Proof.
  intros Hs He. unfold add_next_event, next_have.
  assert (exists it, (if (prior_version e =? zero)%ev || is_clone e then
         it ← item (e_version e) zero (is_delete e) false;
         r ← mark_fully_dirty (clean_regions it);
         Some (set_regions r it)
       else
         match missing s !! soid e with
         | Some it =>
           r ← if is_lost_revert e then mark_fully_dirty (clean_regions it)
               else CleanRegions.merge (clean_regions it) (e_clean_regions e);
           Some {| need := e_version e; have := have it; clean_regions := r; flag_delete := is_delete e |}
         | None =>
           it ← item (e_version e) (prior_version e) (is_delete e) false;
           r ← if is_lost_revert e then mark_fully_dirty (clean_regions it) else Some (e_clean_regions e);
           Some (set_regions r it)
         end) = Some it /\ need it = e_version e /\ flag_delete it = is_delete e /\
    have it = (if (prior_version e =? zero)%ev || is_clone e then zero
               else match missing s !! soid e with Some it => have it | None => prior_version e end) /\
    regions_ok (clean_regions it)) as (it & -> & H1 & H2 & H3 & Hr).
  { destruct ((prior_version e =? zero)%ev || is_clone e).
    { destruct (dirty_item_ok (e_version e) zero (is_delete e)) as (it & E & ? & ? & ? & ?). exists it. done. }
    destruct (missing s !! soid e) as [it0|] eqn:E0.
    - pose proof (Hs _ _ E0) as Hr0. simpl in Hr0. destruct (is_lost_revert e).
      + destruct (mark_fully_dirty_ok _ Hr0) as (r' & -> & Hr' & _). cbn [mbind option_bind]. by eexists.
      + destruct (merge_ok _ _ Hr0 He) as (r' & -> & Hr' & _). cbn [mbind option_bind]. by eexists.
    - destruct (item_ok (e_version e) (prior_version e) (is_delete e) false) as (it & -> & ? & ? & ? & Hr).
      cbn [mbind option_bind]. destruct (is_lost_revert e); [destruct (mark_fully_dirty_ok _ Hr) as (r' & -> & Hr' & _)|];
        cbn [mbind option_bind]; by eexists. }
  cbn [mbind option_bind]. eexists _, it. split; [done|]. split; [|done].
  split; [done|]. rewrite H1. split; [done|]. split; [done|]. split; [done|]. intros _. by apply items_insert.
Qed.

Lemma revise_need_ok oid n d s : items_ok s ->
  exists s' it, revise_need oid n d s = Some s' /\ replaced oid it s s' /\ need it = n /\ flag_delete it = d /\
    have it = match missing s !! oid with Some it0 => have it0 | None => zero end.
Proof.
  intros Hs. unfold revise_need, replaced. destruct (missing s !! oid) as [it0|] eqn:E0.
  - pose proof (Hs _ _ E0) as Hr0. simpl in Hr0. destruct (mark_fully_dirty_ok _ Hr0) as (r' & -> & Hr' & _).
    cbn [mbind option_bind].
    eexists _, {| need := n; have := have it0; clean_regions := r'; flag_delete := d |}.
    split; [done|]. simpl. split; [|done]. do 4 (split; [done|]). intros _. by apply items_insert.
  - destruct (dirty_item_ok n zero d) as (it & -> & <- & ? & ? & ?). cbn [mbind option_bind].
    eexists _, it. split; [done|]. simpl. split; [|done]. do 4 (split; [done|]). intros _. by apply items_insert.
Qed.

Lemma add_ok oid n h d s : missing s !! oid = None ->
  exists s' it, add oid n h d s = Some s' /\ replaced oid it s s' /\ need it = n /\ have it = h /\ flag_delete it = d.
Proof.
  intros Hn. unfold add, replaced. destruct (item_ok n h d true) as (it & -> & <- & ? & ? & ?). cbn [mbind option_bind].
  rewrite Hn. eexists _, it. split; [done|]. simpl. split; [|done]. do 4 (split; [done|]). intros Hs. by apply items_insert.
Qed.

(** [revise_have] and [mark_fully_dirty] leave the needs alone. *)
Lemma forget_ok oid s : items_ok s ->
  exists s', mark_oid_dirty oid (revise_have oid zero s) = Some s' /\ items_ok s' /\
    rmissing s' = rmissing s /\ may_include_deletes s' = may_include_deletes s /\
    (forall o, o <> oid -> missing s' !! o = missing s !! o) /\
    match missing s !! oid with
    | None => missing s' !! oid = None
    | Some it0 => exists it, missing s' !! oid = Some it /\ need it = need it0 /\ have it = zero /\
        flag_delete it = flag_delete it0
    end.
Proof.
  intros Hs. unfold revise_have. destruct (missing s !! oid) as [it0|] eqn:E0.
  - pose proof (Hs _ _ E0) as Hr0. simpl in Hr0. unfold mark_oid_dirty. simpl. rewrite lookup_insert_eq. simpl.
    destruct (mark_fully_dirty_ok _ Hr0) as (r' & -> & Hr' & _). cbn [mbind option_bind]. eexists. split; [done|].
    split; [unfold items_ok; simpl; rewrite insert_insert_eq; by apply items_insert|]. do 2 (split; [done|]).
    split; [intros o Ho; simpl; by rewrite !lookup_insert_ne|]. eexists. simpl. rewrite lookup_insert_eq. done.
  - unfold mark_oid_dirty. rewrite E0. exists s. done.
Qed.

Lemma rm_it_items oid it s : items_ok s -> items_ok (rm_it oid it s).
Proof. intros Hs. unfold items_ok. simpl. by apply map_Forall_delete. Qed.

(** ** The index by version *)

Lemma rindex_replaced oid it s s' : rindex s -> replaced oid it s s' -> fresh_for oid (version (need it)) s -> rindex s'.
Proof.
  intros Hs (Em & Er & _) Hf v o. rewrite Em, Er.
  assert (forall v0, (match missing s !! oid with Some it0 => delete (version (need it0)) (rmissing s) | None => rmissing s end)
    !! v0 = Some o <-> o <> oid /\ exists it0, missing s !! o = Some it0 /\ version (need it0) = v0) as Hdel.
  { intros v0. destruct (missing s !! oid) as [it0|] eqn:E0.
    - rewrite lookup_delete_Some, (Hs v0 o). split.
      + intros (Hne & it1 & E1 & <-). split; [|by exists it1]. intros ->. simplify_eq.
      + intros (Hne & it1 & E1 & <-). split; [|by exists it1]. intros Hv.
        assert (rmissing s !! version (need it1) = Some o) as H1 by (apply Hs; eauto).
        assert (rmissing s !! version (need it1) = Some oid) as H2 by (apply Hs; eauto). congruence.
    - rewrite (Hs v0 o). split; [|tauto]. intros (it1 & E1 & <-). split; [congruence|eauto]. }
  destruct (decide (v = version (need it))) as [->|Hv].
  - rewrite lookup_insert_eq. split.
    + intros [= <-]. exists it. by rewrite lookup_insert_eq.
    + intros (it1 & E1 & Ev). destruct (decide (o = oid)) as [->|Hne]; [done|].
      rewrite lookup_insert_ne in E1 by done. by destruct (Hf o it1 E1 Hne).
  - rewrite lookup_insert_ne, Hdel by done. split.
    + intros (Hne & it1 & E1 & <-). exists it1. by rewrite lookup_insert_ne.
    + intros (it1 & E1 & <-). destruct (decide (o = oid)) as [->|Hne].
      * rewrite lookup_insert_eq in E1. simplify_eq.
      * rewrite lookup_insert_ne in E1 by done. eauto.
Qed.

Lemma rindex_rm oid it s : rindex s -> missing s !! oid = Some it -> rindex (rm_it oid it s).
Proof.
  intros Hs E0 v o. simpl. rewrite lookup_delete_Some, (Hs v o). split.
  - intros (Hne & it1 & E1 & <-). exists it1. rewrite lookup_delete_ne; [done|]. intros ->. simplify_eq.
  - intros (it1 & [Hne E1]%lookup_delete_Some & <-). split; [|by exists it1]. intros Hv.
    assert (rmissing s !! version (need it1) = Some o) as H1 by (apply Hs; eauto).
    assert (rmissing s !! version (need it1) = Some oid) as H2 by (apply Hs; eauto). congruence.
Qed.

Lemma rindex_ext s s' : rindex s -> rmissing s' = rmissing s ->
  (forall o, need <$> missing s' !! o = need <$> missing s !! o) -> rindex s'.
Proof.
  intros Hs Er Em v o. rewrite Er, (Hs v o). specialize (Em o).
  destruct (missing s !! o) as [it|], (missing s' !! o) as [it'|]; simplify_eq/=; [|naive_solver].
  split; intros (? & [= <-] & <-); eexists; (split; [done|]); congruence.
Qed.

(** The lowest version number of the index. *)
Lemma rmissing_begin_spec s :
  match rmissing_begin s with
  | None => rmissing s = ∅
  | Some (v, o) => rmissing s !! v = Some o /\ forall v' o', rmissing s !! v' = Some o' -> v <= v'
  end.
Proof.
  unfold rmissing_begin.
  assert (forall l : list (Z * hobject_t), match foldr (fun p best => match best with
     | None => Some p | Some q => if fst p <? fst q then Some p else Some q end) None l with
   | None => l = []
   | Some p => p ∈ l /\ forall q, q ∈ l -> fst p <= fst q end) as H.
  { induction l as [|p l IH]; simpl; [done|]. destruct (foldr _ None l) as [q|].
    - destruct IH as [Hq Hmin]. destruct (p.1 <? q.1) eqn:E; zbool; (split; [set_solver|]);
        intros q' [->|Hin]%elem_of_cons; try lia; specialize (Hmin _ Hin); lia.
    - subst l. split; [set_solver|]. intros q [->|Hin]%elem_of_cons; [lia|set_solver]. }
  specialize (H (map_to_list (rmissing s))). destruct (foldr _ None _) as [[v o]|].
  - destruct H as [Hin Hmin]. apply elem_of_map_to_list in Hin. split; [done|]. intros v' o' E.
    apply elem_of_map_to_list in E. by apply (Hmin (v', o')).
  - by apply map_to_list_empty_iff.
Qed.

Lemma oldest_need_ok s : rindex s -> missing s <> ∅ ->
  exists o it, get_oldest_need s = Some (need it) /\ missing s !! o = Some it /\
    forall o' it', missing s !! o' = Some it' -> version (need it) <= version (need it').
Proof.
  intros Hs Hne. unfold get_oldest_need. rewrite bool_decide_eq_false_2 by done.
  pose proof (rmissing_begin_spec s) as Hb. destruct (rmissing_begin s) as [[v o]|].
  - destruct Hb as [Hv Hmin]. apply Hs in Hv as (it & E & <-). cbn [mbind option_bind]. rewrite E. cbn [mbind option_bind].
    exists o, it. split; [done|]. split; [done|]. intros o' it' E'. eapply Hmin, Hs. eauto.
  - destruct Hne. apply map_empty. intros o. destruct (missing s !! o) as [it|] eqn:E; [|done].
    assert (rmissing s !! version (need it) = Some o) as H by (apply Hs; eauto). by rewrite Hb, lookup_empty in H.
Qed.

(** ** Splitting *)

Definition to_child (seed bits : Z) (o : hobject_t) : bool := Z.land (Hobject.hash o) (split_mask bits) =? seed.

(** No object and no version number is in both sets. *)
Definition apart (s om : pg_missing_set) : Prop :=
  forall o it o' it', missing s !! o = Some it -> missing om !! o' = Some it' -> o <> o' /\ version (need it) <> version (need it').

Definition same_item (a b : pg_missing_item) : Prop :=
  need a = need b /\ have a = have b /\ flag_delete a = flag_delete b.

Definition split_step (seed bits : Z) (r : option (pg_missing_set * pg_missing_set)) (p : hobject_t * pg_missing_item) :=
  '(s, om) ← r;
  if to_child seed bits (fst p) then
    om ← add (fst p) (need (snd p)) (have (snd p)) (flag_delete (snd p)) om;
    Some (rm_it (fst p) (snd p) s, om)
  else Some (s, om).

Lemma split_loop_ok seed bits l : forall s om,
  NoDup (l.*1) -> (forall o it, (o, it) ∈ l -> missing s !! o = Some it) ->
  rindex s -> rindex om -> apart s om ->
  exists s' om', foldl (split_step seed bits) (Some (s, om)) l = Some (s', om') /\ rindex s' /\ rindex om' /\
    may_include_deletes om' = may_include_deletes om /\
    (forall o, missing s' !! o = if decide (o ∈ l.*1 /\ to_child seed bits o = true) then None else missing s !! o) /\
    (forall o, if decide (o ∈ l.*1 /\ to_child seed bits o = true)
               then exists it it', missing s !! o = Some it /\ missing om' !! o = Some it' /\ same_item it it'
               else missing om' !! o = missing om !! o).
Proof.
  induction l as [|[o it] l IH]; intros s om Hnd Hin Hrs Hro Hap; cbn [foldl fmap list_fmap fst].
  { exists s, om. split; [done|]. do 3 (split; [done|]). split; intros o; by rewrite decide_False by set_solver. }
  cbn [fmap list_fmap fst] in Hnd. apply NoDup_cons in Hnd as [Hni Hnd]. unfold split_step at 2. cbn [mbind option_bind fst snd].
  assert (missing s !! o = Some it) as Eo by (apply Hin; set_solver).
  assert (forall o' it', (o', it') ∈ l -> o' <> o) as Hne.
  { intros o' it' Hl ->. apply Hni. apply list_elem_of_fmap. exists (o, it'). done. }
  assert (forall a, a <> o -> a ∈ o :: l.*1 /\ to_child seed bits a = true <-> a ∈ l.*1 /\ to_child seed bits a = true) as Hcons.
  { intros a Ha. rewrite elem_of_cons. tauto. }
  destruct (to_child seed bits o) eqn:Ec.
  - assert (missing om !! o = None) as Eom.
    { destruct (missing om !! o) as [it'|] eqn:E; [|done]. by destruct (Hap _ _ _ _ Eo E). }
    destruct (add_ok o (need it) (have it) (flag_delete it) om Eom) as (om1 & it1 & -> & Hrep & H1 & H2 & H3).
    cbn [mbind option_bind]. pose proof Hrep as (Em & _ & Emay & _).
    destruct (IH (rm_it o it s) om1) as (s' & om' & -> & Hs' & Hom' & Hmay & Hms & Hmo).
    + done.
    + intros o' it' Hl. simpl. rewrite lookup_delete_ne by (intros <-; by eapply Hne). apply Hin. set_solver.
    + by apply rindex_rm.
    + eapply rindex_replaced; [done|done|]. intros o' it' E _. rewrite H1. by destruct (Hap _ _ _ _ Eo E).
    + intros a ia b ib Ea Eb. simpl in Ea. apply lookup_delete_Some in Ea as [Hao Ea]. rewrite Em in Eb.
      destruct (decide (b = o)) as [->|Hb].
      * rewrite lookup_insert_eq in Eb. injection Eb as <-. split; [done|]. rewrite H1. intros Ev.
        assert (rmissing s !! version (need ia) = Some a) as G1 by (apply Hrs; eauto).
        assert (rmissing s !! version (need ia) = Some o) as G2 by (apply Hrs; eauto). congruence.
      * rewrite lookup_insert_ne in Eb by done. by eapply Hap.
    + exists s', om'. split; [done|]. split; [done|]. split; [done|]. split; [congruence|]. split; intros a.
      * rewrite Hms. simpl. destruct (decide (a = o)) as [->|Ha].
        { rewrite (decide_True (P := o ∈ o :: l.*1 /\ _)) by set_solver.
          case_decide; [done|]. apply lookup_delete_eq. }
        rewrite lookup_delete_ne by done. by rewrite (decide_ext _ _ _ _ (Hcons a Ha)).
      * specialize (Hmo a). simpl in Hmo. destruct (decide (a = o)) as [->|Ha].
        { rewrite decide_True by set_solver. rewrite decide_False in Hmo by set_solver.
          exists it, it1. rewrite Hmo, Em, lookup_insert_eq. split; [done|]. split; [done|]. by split_and!. }
        rewrite (decide_ext _ _ _ _ (Hcons a Ha)). by rewrite Em, lookup_insert_ne, lookup_delete_ne in Hmo by done.
  - destruct (IH s om) as (s' & om' & -> & Hs' & Hom' & Hmay & Hms & Hmo); [done|set_solver|done..|].
    exists s', om'. split; [done|]. do 3 (split; [done|]). 
    assert (forall a, a ∈ o :: l.*1 /\ to_child seed bits a = true <-> a ∈ l.*1 /\ to_child seed bits a = true) as Hiff.
    { intros a. rewrite elem_of_cons. split; [|tauto]. intros [[->|?] ?]; [congruence|done]. }
    split; intros a; rewrite (decide_ext _ _ _ _ (Hiff a)); [apply Hms|apply Hmo].
Qed.
End MissingFacts.
