(* ===== verification/PgLog.v ===== *)
(** The placement-group log, src/ceph-15.2.17/src/osd/PGLog.{h,cc} and
    [pg_log_t] of osd/osd_types.h: the log of a replica with its index, and the
    operations that bring log and missing set in line with an authoritative log
    after a failure.  Calls on the store go to a [LogEntryHandler]; they are
    the list of operations an operation returns. *)
From S2P Require Import Prelude Pg Hobject IntervalSet CleanRegions PgMissing.
Module PgLog.
Import Hobject Eversion CleanRegions Entry Missing.

(** ** Data *)

Record pg_log_dup_t := { d_reqid : Z; d_version : eversion_t; d_user_version : Z; d_return_code : Z }.

(** [PGLog::LogEntryHandler]: what the log asks of the object store. *)
Inductive log_op :=
  | Rollback (entry : pg_log_entry_t)
  | Rollforward (entry : pg_log_entry_t)
  | Trim (entry : pg_log_entry_t)
  | Remove (hoid : hobject_t)
  | TryStash (hoid : hobject_t) (v : Z).

(** [pg_log_t] and [IndexedLog]: the entries and the entries kept for
    duplicate detection, oldest first; the latest entry of each object
    ([indexed] is PGLOG_INDEXED_OBJECTS); the number of entries that
    [rollback_info_trimmed_to_riter] has passed; [complete_to], [None] when it
    is [end()].  The indexes by request are not modelled. *)
Record IndexedLog := {
  head : eversion_t;
  tail : eversion_t;
  can_rollback_to : eversion_t;
  rollback_info_trimmed_to : eversion_t;
  log : list pg_log_entry_t;
  dups : list pg_log_dup_t;
  indexed : bool;
  objects : gmap hobject_t pg_log_entry_t;
  riter : nat;
  complete_to : option nat;
  last_requested : Z
}.

(** The part of [pg_info_t] the log reads and writes. *)
Record pg_info_t := {
  last_update : eversion_t;
  last_complete : eversion_t;
  last_backfill : hobject_t;
  log_tail : eversion_t;
  last_user_version : Z
}.

(** [PGLog]: the log, the missing set and what is to be written out. *)
Record PGLog := {
  missing_ : pg_missing_set;
  log_ : IndexedLog;
  dirty_to : eversion_t;
  dirty_from : eversion_t;
  writeout_from : eversion_t;
  trimmed : list eversion_t;
  dirty_to_dups : eversion_t;
  dirty_from_dups : eversion_t;
  write_from_dups : eversion_t;
  trimmed_dups : list eversion_t;
  dirty_log : bool
}.

(** Field updates. *)
Definition set_log (l : list pg_log_entry_t) (x : IndexedLog) : IndexedLog := {|
  head := head x; tail := tail x; can_rollback_to := can_rollback_to x;
  rollback_info_trimmed_to := rollback_info_trimmed_to x; log := l; dups := dups x; indexed := indexed x;
  objects := objects x; riter := riter x; complete_to := complete_to x; last_requested := last_requested x |}.
Definition set_head (h : eversion_t) (x : IndexedLog) : IndexedLog := {|
  head := h; tail := tail x; can_rollback_to := can_rollback_to x;
  rollback_info_trimmed_to := rollback_info_trimmed_to x; log := log x; dups := dups x; indexed := indexed x;
  objects := objects x; riter := riter x; complete_to := complete_to x; last_requested := last_requested x |}.
Definition set_tail (t : eversion_t) (x : IndexedLog) : IndexedLog := {|
  head := head x; tail := t; can_rollback_to := can_rollback_to x;
  rollback_info_trimmed_to := rollback_info_trimmed_to x; log := log x; dups := dups x; indexed := indexed x;
  objects := objects x; riter := riter x; complete_to := complete_to x; last_requested := last_requested x |}.
Definition set_rollback (crt ritt : eversion_t) (x : IndexedLog) : IndexedLog := {|
  head := head x; tail := tail x; can_rollback_to := crt;
  rollback_info_trimmed_to := ritt; log := log x; dups := dups x; indexed := indexed x;
  objects := objects x; riter := riter x; complete_to := complete_to x; last_requested := last_requested x |}.
Definition set_riter (n : nat) (x : IndexedLog) : IndexedLog := {|
  head := head x; tail := tail x; can_rollback_to := can_rollback_to x;
  rollback_info_trimmed_to := rollback_info_trimmed_to x; log := log x; dups := dups x; indexed := indexed x;
  objects := objects x; riter := n; complete_to := complete_to x; last_requested := last_requested x |}.
Definition set_index (b : bool) (o : gmap hobject_t pg_log_entry_t) (x : IndexedLog) : IndexedLog := {|
  head := head x; tail := tail x; can_rollback_to := can_rollback_to x;
  rollback_info_trimmed_to := rollback_info_trimmed_to x; log := log x; dups := dups x; indexed := b;
  objects := o; riter := riter x; complete_to := complete_to x; last_requested := last_requested x |}.
Definition set_dups (d : list pg_log_dup_t) (x : IndexedLog) : IndexedLog := {|
  head := head x; tail := tail x; can_rollback_to := can_rollback_to x;
  rollback_info_trimmed_to := rollback_info_trimmed_to x; log := log x; dups := d; indexed := indexed x;
  objects := objects x; riter := riter x; complete_to := complete_to x; last_requested := last_requested x |}.
Definition set_complete (c : option nat) (x : IndexedLog) : IndexedLog := {|
  head := head x; tail := tail x; can_rollback_to := can_rollback_to x;
  rollback_info_trimmed_to := rollback_info_trimmed_to x; log := log x; dups := dups x; indexed := indexed x;
  objects := objects x; riter := riter x; complete_to := c; last_requested := last_requested x |}.

(** ** The index *)

Definition index_entry (e : pg_log_entry_t) (o : gmap hobject_t pg_log_entry_t) : gmap hobject_t pg_log_entry_t :=
  if object_is_indexed e then <[soid e := e]> o else o.

(** [index()]. *)
Definition index (x : IndexedLog) : IndexedLog :=
  set_index true (foldl (fun o e => index_entry e o) ∅ (log x)) x.

(** [index(e)]: unless a newer entry of the object is indexed. *)
Definition index_old (x : IndexedLog) (e : pg_log_entry_t) : IndexedLog :=
  if indexed x && object_is_indexed e then
    match objects x !! soid e with
    | Some e0 => if (e_version e0 <? e_version e)%ev then set_index (indexed x) (<[soid e := e]> (objects x)) x else x
    | None => set_index (indexed x) (<[soid e := e]> (objects x)) x
    end
  else x.

(** [unindex(e)], for an entry leaving at the tail. *)
Definition unindex_entry (e : pg_log_entry_t) (x : IndexedLog) : IndexedLog :=
  if indexed x then
    match objects x !! soid e with
    | Some e0 => if (e_version e0 =? e_version e)%ev then set_index (indexed x) (delete (soid e) (objects x)) x else x
    | None => x
    end
  else x.

(** ** Rollback information *)

(** [while (rollback_info_trimmed_to_riter != log.rbegin())]: the entries
    passed over, oldest first. *)
Fixpoint passed (l : list pg_log_entry_t) (upto : eversion_t) : list pg_log_entry_t :=
  match l with
  | [] => []
  | e :: l => if (upto <? e_version e)%ev then [] else e :: passed l upto
  end.

(** [advance_can_rollback_to]: whether the log is dirty, and the entries the
    callback sees. *)
Definition advance_can_rollback_to (to : eversion_t) (x : IndexedLog) : bool * list pg_log_entry_t * IndexedLog :=
  let dirty := (can_rollback_to x <? to)%ev || (rollback_info_trimmed_to x <? to)%ev in
  let x := if dirty then set_rollback (max_ev (can_rollback_to x) to) (max_ev (rollback_info_trimmed_to x) to) x else x in
  let es := passed (drop (riter x) (log x)) (rollback_info_trimmed_to x) in
  (dirty, es, set_riter (riter x + length es) x).

Definition trim_rollback_info_to (to : eversion_t) (x : IndexedLog) : list log_op * IndexedLog :=
  let '(_, es, x) := advance_can_rollback_to to x in (Trim <$> es, x).
Definition log_roll_forward_to (to : eversion_t) (x : IndexedLog) : bool * list log_op * IndexedLog :=
  let '(dirty, es, x) := advance_can_rollback_to to x in (dirty, Rollforward <$> es, x).
Definition skip_can_rollback_to_to_head (x : IndexedLog) : IndexedLog :=
  let '(_, _, x) := advance_can_rollback_to (head x) x in x.

(** [reset_rollback_info_trimmed_to_riter]: skip the newest entries above. *)
Fixpoint drop_above (r : list pg_log_entry_t) (bound : eversion_t) : list pg_log_entry_t :=
  match r with
  | [] => []
  | e :: r' => if (bound <? e_version e)%ev then drop_above r' bound else r
  end.
Definition reset_riter (x : IndexedLog) : IndexedLog :=
  set_riter (length (drop_above (reverse (log x)) (rollback_info_trimmed_to x))) x.

(** ** Adding and rewinding *)

(** [IndexedLog::add]. *)
Definition add (e : pg_log_entry_t) (applied : bool) (x : IndexedLog) : option IndexedLog :=
  ceph_assert (applied || (can_rollback_to x =? head x)%ev) ;;
  ceph_assert (head x <? e_version e)%ev ;;
  ceph_assert ((version (head x) =? 0) || (version (head x) <? version (e_version e))) ;;
  let x := set_log (log x ++ [e]) x in
  let x := set_head (e_version e) x in
  let x := if indexed x && object_is_indexed e then set_index true (<[soid e := e]> (objects x)) x else x in
  Some (if applied then x else skip_can_rollback_to_to_head x).

(** The loop of [rewind_from_head] over the entries, newest first: the
    entries that stay and the divergent ones, [None] when an entry above the
    new head in number is not above it in version. *)
Fixpoint rewind_loop (r : list pg_log_entry_t) (newhead : eversion_t) (divergent : list pg_log_entry_t)
    : option (list pg_log_entry_t * list pg_log_entry_t) :=
  match r with
  | [] => Some ([], divergent)
  | e :: r' =>
    if version (e_version e) <=? version newhead then Some (r, divergent)
    else ceph_assert (newhead <? e_version e)%ev ;; rewind_loop r' newhead (e :: divergent)
  end.

Definition min_ev (a b : eversion_t) : eversion_t := if (b <? a)%ev then b else a.

(** [pg_log_t::rewind_from_head] and [IndexedLog::rewind_from_head]. *)
Definition rewind_from_head (newhead : eversion_t) (x : IndexedLog) : option (list pg_log_entry_t * IndexedLog) :=
  ceph_assert (tail x <=? newhead)%ev ;;
  '(kept, divergent) ← rewind_loop (reverse (log x)) newhead [];
  let x := set_log (reverse kept) x in
  let x := set_head newhead x in
  let x := set_rollback (min_ev (can_rollback_to x) newhead) (min_ev (rollback_info_trimmed_to x) newhead) x in
  Some (divergent, reset_riter (index x)).

(** ** Merging divergent entries *)

(** [std::map] insertion at the place of the key. *)
Fixpoint insert_key {V} (k : hobject_t) (v : V) (l : list (hobject_t * V)) : list (hobject_t * V) :=
  match l with
  | [] => [(k, v)]
  | (k', v') :: l' => if Hobject.cmp k k' <? 0 then (k, v) :: l else (k', v') :: insert_key k v l'
  end.

Definition splice_entry (split : list (hobject_t * list pg_log_entry_t)) (e : pg_log_entry_t)
    : list (hobject_t * list pg_log_entry_t) :=
  if existsb (fun p => bool_decide (fst p = soid e)) split
  then map (fun p => if bool_decide (fst p = soid e) then (fst p, snd p ++ [e]) else p) split
  else insert_key (soid e) [e] split.

Definition split_by_object (entries : list pg_log_entry_t) : list (hobject_t * list pg_log_entry_t) :=
  foldl splice_entry [] entries.

(** The scan that drops ERROR entries; [first] is false after the first entry,
    [seen] is [seen_non_error]. *)
Fixpoint strip_errors (hoid : hobject_t) (es : list pg_log_entry_t) (first seen : bool) (last : eversion_t)
    : option (list pg_log_entry_t) :=
  match es with
  | [] => Some []
  | e :: es =>
    ceph_assert (bool_decide (soid e = hoid)) ;;
    let first_non_error := negb seen && negb (is_error e) in
    let seen := seen || negb (is_error e) in
    let checked := negb first && negb (prior_version e =? zero)%ev && negb first_non_error in
    ceph_assert (negb checked || ((last <? e_version e)%ev && ((prior_version e =? last)%ev || is_error e))) ;;
    if is_error e then strip_errors hoid es false seen last
    else l ← strip_errors hoid es false seen (e_version e); Some (e :: l)
  end.

(** The operations, when there is a rollbacker. *)
Definition ops (rollbacker : bool) (l : list log_op) : list log_op := if rollbacker then l else [].

Definition _merge_object_divergent_entries (x : IndexedLog) (hoid : hobject_t) (orig_entries : list pg_log_entry_t)
    (info : pg_info_t) (olog_can_rollback_to : eversion_t) (ms : pg_missing_set) (rollbacker : bool)
    : option (pg_missing_set * list log_op) :=
  if 0 <? Hobject.cmp hoid (last_backfill info) then Some (ms, [])
  else
    ceph_assert (negb (bool_decide (orig_entries = []))) ;;
    entries ← strip_errors hoid orig_entries true false zero;
    match entries, last entries with
    | e0 :: _, Some en =>
      let prior := prior_version e0 in
      let object_not_in_store := negb (is_missing ms hoid) && is_delete en in
      let discard := (if object_not_in_store then [] else [Remove hoid]) ++ (Trim <$> entries) in
      let recent := match objects x !! hoid with
                    | Some o => if (e_version e0 <=? e_version o)%ev then Some o else None
                    | None => None
                    end in
      match recent with
      | Some o =>
        (* 1: a more recent entry was merged already *)
        ceph_assert (e_version en <? e_version o)%ev ;;
        ceph_assert (if is_update o || (may_include_deletes ms && is_delete o)
                     then match missing ms !! hoid with
                          | Some it => (need it =? e_version o)%ev
                          | None => false
                          end
                     else negb (is_missing ms hoid)) ;;
        ms ← mark_oid_dirty hoid (revise_have hoid zero ms);
        Some (ms, ops rollbacker discard)
      | None =>
        if (prior =? zero)%ev || is_clone e0 then
          (* 2: the object was created by the divergent entries *)
          Some (match missing ms !! hoid with Some it => rm_it hoid it ms | None => ms end, ops rollbacker discard)
        else
          match missing ms !! hoid with
          | Some it =>
            (* 3: the object is missing *)
            ms ← if (have it =? prior)%ev then Some (rm_it hoid it ms) else revise_need hoid prior false ms;
            Some (ms, ops rollbacker (Trim <$> entries))
          | None =>
            if forallb (fun e => can_rollback e && (olog_can_rollback_to <? e_version e)%ev) entries then
              (* 4: roll back, newest first *)
              Some (ms, ops rollbacker (Rollback <$> reverse entries))
            else
              (* 5: remove and recover *)
              ms ← Missing.add hoid prior zero false ms;
              Some (ms, ops rollbacker discard)
          end
      end
    | _, _ => Some (ms, [])
    end.

Fixpoint merge_split (x : IndexedLog) (split : list (hobject_t * list pg_log_entry_t)) (info : pg_info_t)
    (crt : eversion_t) (ms : pg_missing_set) (rollbacker : bool) : option (pg_missing_set * list log_op) :=
  match split with
  | [] => Some (ms, [])
  | (hoid, es) :: split =>
    '(ms, o1) ← _merge_object_divergent_entries x hoid es info crt ms rollbacker;
    '(ms, o2) ← merge_split x split info crt ms rollbacker;
    Some (ms, o1 ++ o2)
  end.

Definition _merge_divergent_entries (x : IndexedLog) (entries : list pg_log_entry_t) (info : pg_info_t)
    (crt : eversion_t) (ms : pg_missing_set) (rollbacker : bool) : option (pg_missing_set * list log_op) :=
  merge_split x (split_by_object entries) info crt ms rollbacker.

(** ** Appending *)

(** What one appended entry does to the missing set and the store. *)
Definition append_missing (last_backfill : hobject_t) (maintain_rollback : bool) (e : pg_log_entry_t)
    (ms : pg_missing_set) (rollbacker : bool) : option (pg_missing_set * list log_op) :=
  if (Hobject.cmp (soid e) last_backfill <=? 0) && negb (is_error e) then
    if may_include_deletes ms then
      ms ← add_next_event e ms; Some (ms, [])
    else
      ms ← if is_delete e then Some (rm (soid e) (e_version e) ms) else add_next_event e ms;
      Some (ms, ops rollbacker
        (if maintain_rollback && is_lost_delete e && can_rollback e then [TryStash (soid e) (version (e_version e))]
         else if is_delete e then [Remove (soid e)] else []))
  else Some (ms, []).

Fixpoint append_loop (last_backfill : hobject_t) (entries : list pg_log_entry_t) (maintain_rollback : bool)
    (x : option IndexedLog) (ms : pg_missing_set) (rollbacker : bool) (invalidate_stats : bool)
    : option (bool * option IndexedLog * pg_missing_set * list log_op) :=
  match entries with
  | [] => Some (invalidate_stats, x, ms, [])
  | e :: entries =>
    x ← match x with
        | Some x => x ← add e true x; Some (Some x)
        | None => Some None
        end;
    '(ms, o1) ← append_missing last_backfill maintain_rollback e ms rollbacker;
    '(inv, x, ms, o2) ← append_loop last_backfill entries maintain_rollback x ms rollbacker
                          (invalidate_stats || negb (is_error e));
    Some (inv, x, ms, o1 ++ o2)
  end.

Definition append_log_entries_update_missing (last_backfill : hobject_t) (entries : list pg_log_entry_t)
    (maintain_rollback : bool) (x : option IndexedLog) (ms : pg_missing_set) (rollbacker : bool)
    : option (bool * option IndexedLog * pg_missing_set * list log_op) :=
  ceph_assert (match x, entries with
               | Some x, e :: _ => (head x <? e_version e)%ev
               | _, _ => true
               end) ;;
  append_loop last_backfill entries maintain_rollback x ms rollbacker false.

(** ** [PGLog] *)

Definition with_log (x : IndexedLog) (p : PGLog) : PGLog := {|
  missing_ := missing_ p; log_ := x; dirty_to := dirty_to p; dirty_from := dirty_from p;
  writeout_from := writeout_from p; trimmed := trimmed p; dirty_to_dups := dirty_to_dups p;
  dirty_from_dups := dirty_from_dups p; write_from_dups := write_from_dups p; trimmed_dups := trimmed_dups p;
  dirty_log := dirty_log p |}.
Definition with_missing (ms : pg_missing_set) (p : PGLog) : PGLog := {|
  missing_ := ms; log_ := log_ p; dirty_to := dirty_to p; dirty_from := dirty_from p;
  writeout_from := writeout_from p; trimmed := trimmed p; dirty_to_dups := dirty_to_dups p;
  dirty_from_dups := dirty_from_dups p; write_from_dups := write_from_dups p; trimmed_dups := trimmed_dups p;
  dirty_log := dirty_log p |}.
Definition with_dirty (to from writeout : eversion_t) (p : PGLog) : PGLog := {|
  missing_ := missing_ p; log_ := log_ p; dirty_to := to; dirty_from := from;
  writeout_from := writeout; trimmed := trimmed p; dirty_to_dups := dirty_to_dups p;
  dirty_from_dups := dirty_from_dups p; write_from_dups := write_from_dups p; trimmed_dups := trimmed_dups p;
  dirty_log := dirty_log p |}.
Definition with_dirty_dups (to from : eversion_t) (p : PGLog) : PGLog := {|
  missing_ := missing_ p; log_ := log_ p; dirty_to := dirty_to p; dirty_from := dirty_from p;
  writeout_from := writeout_from p; trimmed := trimmed p; dirty_to_dups := to;
  dirty_from_dups := from; write_from_dups := write_from_dups p; trimmed_dups := trimmed_dups p;
  dirty_log := dirty_log p |}.
Definition with_trimmed (t td : list eversion_t) (wf : eversion_t) (p : PGLog) : PGLog := {|
  missing_ := missing_ p; log_ := log_ p; dirty_to := dirty_to p; dirty_from := dirty_from p;
  writeout_from := writeout_from p; trimmed := t; dirty_to_dups := dirty_to_dups p;
  dirty_from_dups := dirty_from_dups p; write_from_dups := wf; trimmed_dups := td;
  dirty_log := dirty_log p |}.
Definition with_dirty_log (b : bool) (p : PGLog) : PGLog := {|
  missing_ := missing_ p; log_ := log_ p; dirty_to := dirty_to p; dirty_from := dirty_from p;
  writeout_from := writeout_from p; trimmed := trimmed p; dirty_to_dups := dirty_to_dups p;
  dirty_from_dups := dirty_from_dups p; write_from_dups := write_from_dups p; trimmed_dups := trimmed_dups p;
  dirty_log := b |}.

Definition mark_dirty_to (to : eversion_t) (p : PGLog) : PGLog :=
  with_dirty (max_ev (dirty_to p) to) (dirty_from p) (writeout_from p) p.
Definition mark_dirty_from (from : eversion_t) (p : PGLog) : PGLog :=
  with_dirty (dirty_to p) (min_ev (dirty_from p) from) (writeout_from p) p.
Definition mark_writeout_from (from : eversion_t) (p : PGLog) : PGLog :=
  with_dirty (dirty_to p) (dirty_from p) (min_ev (writeout_from p) from) p.
Definition mark_dirty_to_dups (to : eversion_t) (p : PGLog) : PGLog :=
  with_dirty_dups (max_ev (dirty_to_dups p) to) (dirty_from_dups p) p.
Definition mark_dirty_from_dups (from : eversion_t) (p : PGLog) : PGLog :=
  with_dirty_dups (dirty_to_dups p) (min_ev (dirty_from_dups p) from) p.

Definition set_last_update (v : eversion_t) (i : pg_info_t) : pg_info_t := {|
  last_update := v; last_complete := last_complete i; last_backfill := last_backfill i; log_tail := log_tail i;
  last_user_version := last_user_version i |}.
Definition set_last_complete (v : eversion_t) (i : pg_info_t) : pg_info_t := {|
  last_update := last_update i; last_complete := v; last_backfill := last_backfill i; log_tail := log_tail i;
  last_user_version := last_user_version i |}.
Definition set_log_tail (v : eversion_t) (i : pg_info_t) : pg_info_t := {|
  last_update := last_update i; last_complete := last_complete i; last_backfill := last_backfill i; log_tail := v;
  last_user_version := last_user_version i |}.
Definition set_last_user_version (v : Z) (i : pg_info_t) : pg_info_t := {|
  last_update := last_update i; last_complete := last_complete i; last_backfill := last_backfill i;
  log_tail := log_tail i; last_user_version := v |}.

(** [roll_forward_to]. *)
Definition roll_forward_to (to : eversion_t) (p : PGLog) : list log_op * PGLog :=
  let '(dirty, o, x) := log_roll_forward_to to (log_ p) in
  let p := with_log x p in
  (o, if dirty then with_dirty_log true p else p).

Definition rewind_divergent_log (newhead : eversion_t) (info : pg_info_t) (p : PGLog) (rollbacker : bool)
    : option (PGLog * pg_info_t * list log_op) :=
  let original_crt := can_rollback_to (log_ p) in
  let info := if (newhead <? last_complete info)%ev then set_last_complete newhead info else info in
  '(divergent, x) ← rewind_from_head newhead (log_ p);
  let p := with_log x p in
  let p := match divergent with e :: _ => mark_dirty_from (e_version e) p | [] => p end in
  let info := set_last_update newhead info in
  '(ms, o) ← _merge_divergent_entries (log_ p) divergent info original_crt (missing_ p) rollbacker;
  Some (with_missing ms p, info, o).

(** The entries of the other log up to our tail, and the rest. *)
Fixpoint split_tail (l : list pg_log_entry_t) (t : eversion_t) : list pg_log_entry_t * list pg_log_entry_t :=
  match l with
  | [] => ([], [])
  | e :: l' => if (t <? e_version e)%ev then ([], l) else let '(a, b) := split_tail l' t in (e :: a, b)
  end.

(** "extend on tail?" *)
Definition extend_tail (olog : IndexedLog) (info : pg_info_t) (p : PGLog)
    : PGLog * pg_info_t * list pg_log_entry_t :=
  if (tail olog <? tail (log_ p))%ev then
    let x := log_ p in
    let '(older, rest) := split_tail (log olog) (tail x) in
    let x := foldl index_old x older in
    let p := mark_dirty_to (match last older with Some e => e_version e | None => zero end) p in
    let x := set_log (older ++ log x) x in
    let x := set_riter (length older + riter x) x in
    let x := set_complete (option_map (fun k => (length older + k)%nat) (complete_to x)) x in
    let x := set_tail (tail olog) x in
    (with_log x p, set_log_tail (tail olog) info, rest)
  else (p, info, log olog).

(** The search for the start point, newest first: the version to cut at, and
    the entries above the head. *)
Fixpoint find_start (r : list pg_log_entry_t) (h lower_bound : eversion_t) (acc : list pg_log_entry_t)
    : eversion_t * list pg_log_entry_t :=
  match r with
  | [] => (lower_bound, acc)
  | e :: r => if (e_version e <=? h)%ev then (max_ev lower_bound (e_version e), acc)
              else find_start r h lower_bound (e :: acc)
  end.

(** "extend on head?" *)
Definition extend_head (olog : IndexedLog) (rest : list pg_log_entry_t) (orig_tail : eversion_t) (oinfo info : pg_info_t)
    (p : PGLog) (rollbacker : bool) : option (PGLog * pg_info_t * list log_op) :=
  let '(lower_bound, new_entries) :=
    find_start (reverse rest) (head (log_ p)) (max_ev (tail olog) orig_tail) [] in
  let p := mark_dirty_from lower_bound p in
  let original_crt := can_rollback_to (log_ p) in
  '(divergent, x) ← rewind_from_head lower_bound (log_ p);
  let '(_, o1, x) := log_roll_forward_to (head x) x in
  '(_, x, ms, o2) ← append_log_entries_update_missing (last_backfill info) new_entries false (Some x)
                      (missing_ p) rollbacker;
  x ← x;
  '(ms, o3) ← _merge_divergent_entries x divergent info original_crt ms rollbacker;
  let x := skip_can_rollback_to_to_head (set_head (head olog) x) in
  let info := set_last_user_version (last_user_version oinfo) (set_last_update (head olog) info) in
  Some (with_missing ms (with_log x p), info, ops rollbacker o1 ++ o2 ++ o3).

(** The dups of the other log newer than [t], newest first, and older than
    [f]. *)
Fixpoint newer_dups (r : list pg_log_dup_t) (t : eversion_t) (acc : list pg_log_dup_t) : list pg_log_dup_t :=
  match r with
  | [] => acc
  | d :: r => if (d_version d <=? t)%ev then acc else newer_dups r t (d :: acc)
  end.
Fixpoint older_dups (l : list pg_log_dup_t) (f : eversion_t) : list pg_log_dup_t :=
  match l with
  | [] => []
  | d :: l => if (f <=? d_version d)%ev then [] else d :: older_dups l f
  end.
(** [while (!log.dups.empty() && log.dups.back().version > log.tail)], newest
    first: what stays and the version of the last one dropped. *)
Fixpoint drop_overlap (r : list pg_log_dup_t) (t from : eversion_t) : list pg_log_dup_t * eversion_t :=
  match r with
  | [] => ([], from)
  | d :: r' => if (t <? d_version d)%ev then drop_overlap r' t (min_ev from (d_version d)) else (r, from)
  end.

Definition merge_log_dups (olog : IndexedLog) (p : PGLog) : bool * PGLog :=
  let '(changed, p) :=
    match dups olog, last (dups olog) with
    | of_ :: _, Some ob =>
      match dups (log_ p), last (dups (log_ p)) with
      | lf :: _, Some lb =>
        let '(c1, p) :=
          if (d_version lb <? d_version ob)%ev then
            let add := newer_dups (reverse (dups olog)) (d_version lb) [] in
            (true, mark_dirty_from_dups (match add with d :: _ => d_version d | [] => Eversion.max end)
                     (with_log (set_dups (dups (log_ p) ++ add) (log_ p)) p))
          else (false, p) in
        if (d_version of_ <? d_version lf)%ev then
          let add := older_dups (dups olog) (d_version lf) in
          (true, mark_dirty_to_dups (match last add with Some d => d_version d | None => zero end)
                   (with_log (set_dups (add ++ dups (log_ p)) (log_ p)) p))
        else (c1, p)
      | _, _ => (true, with_dirty_dups Eversion.max zero (with_log (set_dups (dups olog) (log_ p)) p))
      end
    | _, _ => (false, p)
    end in
  match last (dups (log_ p)) with
  | Some b =>
    if (tail (log_ p) <? d_version b)%ev then
      let '(kept, from) := drop_overlap (reverse (dups (log_ p))) (tail (log_ p)) (dirty_from_dups p) in
      (true, with_dirty_dups (dirty_to_dups p) from (with_log (set_dups (reverse kept) (log_ p)) p))
    else (changed, p)
  | None => (changed, p)
  end.

(** [merge_log]: the log, the info, the operations on the store, and whether
    anything changed. *)
Definition merge_log (oinfo : pg_info_t) (olog : IndexedLog) (info : pg_info_t) (p : PGLog) (rollbacker : bool)
    : option (PGLog * pg_info_t * list log_op * bool) :=
  let x := log_ p in
  ceph_assert (negb (head x =? zero)%ev || (tail olog =? zero)%ev) ;;
  ceph_assert ((tail olog <=? head x)%ev && (tail x <=? head olog)%ev) ;;
  let orig_tail := tail x in
  let changed := (tail olog <? tail x)%ev in
  let '(p, info, rest) := extend_tail olog info p in
  '(p, info, o1, changed) ←
    if (head olog <? head (log_ p))%ev then
      '(p, info, o) ← rewind_divergent_log (head olog) info p rollbacker; Some (p, info, o, true)
    else Some (p, info, [], changed);
  '(p, info, o2, changed) ←
    if (head (log_ p) <? head olog)%ev then
      '(p, info, o) ← extend_head olog rest orig_tail oinfo info p rollbacker; Some (p, info, o, true)
    else Some (p, info, [], changed);
  let '(c, p) := merge_log_dups olog p in
  Some (p, info, o1 ++ o2, changed || c).

(** [proc_replica_log]: what a primary concludes about the missing set of a
    peer from the peer's info and log. *)
Fixpoint newest_shared (r : list pg_log_entry_t) (h : eversion_t) : option eversion_t :=
  match r with
  | [] => None
  | e :: r => if (e_version e <=? h)%ev then Some (e_version e) else newest_shared r h
  end.

Fixpoint complete_before (l : list pg_log_entry_t) (first_missing lc : eversion_t) : eversion_t :=
  match l with
  | [] => lc
  | e :: l => if (e_version e <? first_missing)%ev then complete_before l first_missing (e_version e) else lc
  end.

Definition proc_replica_log (p : PGLog) (oinfo : pg_info_t) (olog : IndexedLog) (omissing : pg_missing_set)
    : option (pg_info_t * pg_missing_set) :=
  let x := log_ p in
  if (head olog <? tail x)%ev then Some (oinfo, omissing)
  else if (head olog =? head x)%ev then Some (oinfo, omissing)
  else
    let limit := max_ev (tail olog) (tail x) in
    let lu := match newest_shared (reverse (log x)) (head olog) with
              | None => limit
              | Some v => if (v <? limit)%ev then limit else v
              end in
    let folog := index (reset_riter olog) in
    '(divergent, folog) ← rewind_from_head lu folog;
    '(omissing, _) ← _merge_divergent_entries folog divergent oinfo (can_rollback_to olog) omissing false;
    let oinfo := if (lu <? last_update oinfo)%ev then set_last_update lu oinfo else oinfo in
    if have_missing omissing then
      '(_, o) ← rmissing_begin omissing;
      it ← missing omissing !! o;
      Some (set_last_complete (complete_before (log olog) (need it) zero) oinfo, omissing)
    else Some (set_last_complete (last_update oinfo) oinfo, omissing).
End PgLog.
