(* ===== verification/PgLogFacts.v ===== *)
(** The log and missing set of a replica after merging an authoritative log:
    what each phase of [PGLog::merge_log] does to one object, and the
    composition over all objects. *)
From S2P Require Import Prelude Pg Hobject IntervalSet CleanRegions PgMissing PgLog.
Module LogFacts.
Import Hobject Eversion EversionFacts CleanRegions CleanRegionsFacts Entry Missing MissingFacts PgLog.

(** ** Histories of one object *)

(** The state of an object is the version it is at, or that it does not exist.
    The state an entry leads to and the state it starts from. *)
Definition result (e : pg_log_entry_t) : option eversion_t := if is_delete e then None else Some (e_version e).
Definition prior (e : pg_log_entry_t) : option eversion_t :=
  if (prior_version e =? zero)%ev || is_clone e then None else Some (prior_version e).

(** The entries of a log that concern an object. *)
Definition concerns (o : hobject_t) (e : pg_log_entry_t) : Prop := soid e = o /\ is_error e = false.
#[export] Instance concerns_dec o e : Decision (concerns o e).
Proof. unfold concerns. apply _. Defined.
Definition mine (o : hobject_t) (l : list pg_log_entry_t) : list pg_log_entry_t := filter (concerns o) l.

(** Each entry starts from the state the one before it led to. *)
Fixpoint chain (st : option eversion_t) (l : list pg_log_entry_t) : Prop :=
  match l with
  | [] => True
  | e :: l => prior e = st /\ chain (result e) l
  end.

(** The state after a list of entries. *)
Definition after (st : option eversion_t) (l : list pg_log_entry_t) : option eversion_t :=
  match last l with Some e => result e | None => st end.

Lemma after_cons st e l : after st (e :: l) = after (result e) l.
Proof. unfold after. destruct l as [|e' l]; [done|]. rewrite last_cons_cons. by destruct (last (e' :: l)) eqn:E; [|apply last_None in E]. Qed.

(** ** The object store

    What the log relies on when it calls a [LogEntryHandler]: [remove] and
    [try_stash] take the object away, [rollback] undoes an entry whose result
    is in place, [trim] and [rollforward] drop rollback information only, and
    no call touches another object. *)
Definition op_obj (op : log_op) : hobject_t :=
  match op with
  | Rollback e | Rollforward e | Trim e => soid e
  | Remove h | TryStash h _ => h
  end.

Class ObjectStore (S : Type) := {
  version_of : S -> hobject_t -> option eversion_t;
  run_op : log_op -> S -> S;
  op_frame : forall op s o, op_obj op <> o -> version_of (run_op op s) o = version_of s o;
  op_remove : forall h s, version_of (run_op (Remove h) s) h = None;
  op_stash : forall h v s, version_of (run_op (TryStash h v) s) h = None;
  op_trim : forall e s, version_of (run_op (Trim e) s) (soid e) = version_of s (soid e);
  op_rollforward : forall e s, version_of (run_op (Rollforward e) s) (soid e) = version_of s (soid e);
  op_rollback : forall e s, version_of s (soid e) = result e ->
    version_of (run_op (Rollback e) s) (soid e) = prior e
}.

Section Store.
Context {S : Type} `{!ObjectStore S}.

Definition run_ops (l : list log_op) (s : S) : S := foldl (fun s op => run_op op s) s l.

Lemma run_ops_app l1 l2 s : run_ops (l1 ++ l2) s = run_ops l2 (run_ops l1 s).
Proof. apply foldl_app. Qed.

Lemma run_ops_frame l s o : Forall (fun op => op_obj op <> o) l -> version_of (run_ops l s) o = version_of s o.
Proof. intros H. revert s. induction H as [|op l Hop _ IH]; intros s; [done|]. cbn [run_ops foldl]. fold (run_ops l (run_op op s)). rewrite IH. by apply op_frame. Qed.

Lemma run_keep (f : pg_log_entry_t -> log_op) l s o :
  (forall e s, version_of (run_op (f e) s) o = version_of s o) -> version_of (run_ops (f <$> l) s) o = version_of s o.
Proof.
  intros Hf. revert s. induction l as [|e l IH]; intros s; [done|]. change (version_of (run_ops (f <$> l) (run_op (f e) s)) o = version_of s o).
  rewrite IH. apply Hf.
Qed.

Lemma trim_keeps e s o : version_of (run_op (Trim e) s) o = version_of s o.
Proof. destruct (decide (soid e = o)) as [<-|]; [apply op_trim|by apply op_frame]. Qed.
Lemma rollforward_keeps e s o : version_of (run_op (Rollforward e) s) o = version_of s o.
Proof. destruct (decide (soid e = o)) as [<-|]; [apply op_rollforward|by apply op_frame]. Qed.

(** ** The meaning of a missing set

    The missing set is accurate for an object that should be in state
    [target]: an object that is not missing is in that state; a missing object
    needs exactly that version, or is to be deleted, and the version it is said
    to have is the one in the store. *)
Definition accurate (s : S) (ms : pg_missing_set) (o : hobject_t) (target : option eversion_t) : Prop :=
  match missing ms !! o with
  | None => version_of s o = target
  | Some it =>
      target = (if flag_delete it then None else Some (need it)) /\
      (have it = zero \/ version_of s o = Some (have it)) /\
      (may_include_deletes ms = false -> flag_delete it = false)
  end.

Lemma accurate_ext s s' ms ms' o target : version_of s' o = version_of s o -> missing ms' !! o = missing ms !! o ->
  may_include_deletes ms' = may_include_deletes ms -> accurate s ms o target -> accurate s' ms' o target.
Proof. intros H1 H2 H3. unfold accurate. by rewrite H1, H2, H3. Qed.

(** After the last new entry [e] of a divergent object: it is missing at
    that version, or gone. *)
Definition settled (s : S) (ms : pg_missing_set) (o : hobject_t) (e : pg_log_entry_t) : Prop :=
  if may_include_deletes ms || negb (is_delete e)
  then exists it, missing ms !! o = Some it /\ need it = e_version e /\ flag_delete it = is_delete e
  else missing ms !! o = None /\ version_of s o = None.

Definition need_le (ms : pg_missing_set) (o : hobject_t) (v : eversion_t) : Prop :=
  forall it, missing ms !! o = Some it -> Le (need it) v.

(** ** Appending *)

(** An entry as a log holds it. *)
Definition entry_ok (e : pg_log_entry_t) : Prop :=
  regions_ok (e_clean_regions e) /\ Lt (prior_version e) (e_version e) /\ Lt zero (e_version e).

(** What appending one entry does to the rest. *)
Record appended (e : pg_log_entry_t) (ms ms' : pg_missing_set) (l : list log_op) : Prop := {
  ap_items : items_ok ms';
  ap_may : may_include_deletes ms' = may_include_deletes ms;
  ap_frame : forall o, ~ concerns o e -> missing ms' !! o = missing ms !! o;
  ap_ops : Forall (fun op => concerns (op_obj op) e) l
}.

Lemma rm_effect o v ms : let ms' := rm o v ms in
  may_include_deletes ms' = may_include_deletes ms /\ (items_ok ms -> items_ok ms') /\
  (forall o', o' <> o -> missing ms' !! o' = missing ms !! o') /\
  (need_le ms o v -> missing ms' !! o = None).
Proof.
  unfold rm, need_le. destruct (missing ms !! o) as [it|] eqn:E; [destruct (need it <=? v)%ev eqn:El|]; simpl.
  - split; [done|]. split; [apply rm_it_items|]. split; [intros; by apply lookup_delete_ne|]. intros _. apply lookup_delete_eq.
  - split; [done|]. split; [done|]. split; [done|]. intros H. specialize (H it eq_refl). unfold Le in H. congruence.
  - done.
Qed.

Lemma append_missing_ok lb mr e ms : items_ok ms -> entry_ok e ->
  exists ms' l, append_missing lb mr e ms true = Some (ms', l) /\ appended e ms ms' l.
Proof.
  intros Hs (Hr & _). unfold append_missing. destruct (_ && negb (is_error e)) eqn:Ec.
  2: { exists ms, []. split; [done|]. by split. }
  apply andb_true_iff in Ec as [_ Ene%negb_true_iff].
  destruct (add_next_event_ok e ms Hs Hr) as (ms1 & it & E1 & (Em & _ & Emay & _ & Hit) & _).
  assert (forall o, ~ concerns o e -> missing ms1 !! o = missing ms !! o) as Hfr.
  { intros o Ho. rewrite Em. apply lookup_insert_ne. intros <-. by apply Ho. }
  destruct (may_include_deletes ms) eqn:Emd.
  { rewrite E1. exists ms1, []. split; [done|]. split; [by apply Hit|congruence|done|constructor]. }
  destruct (rm_effect (soid e) (e_version e) ms) as (G1 & G2 & G3 & _).
  assert (forall o, ~ concerns o e -> missing (rm (soid e) (e_version e) ms) !! o = missing ms !! o) as Hfr2.
  { intros o Ho. apply G3. intros ->. by apply Ho. }
  destruct (is_delete e); [|rewrite E1]; cbn [mbind option_bind]; eexists _, _; (split; [done|]);
    split; try done; try congruence; simpl; try (by apply G2); try (by apply Hit); repeat case_match; repeat constructor; done.
Qed.

Lemma lost_delete_is_delete e : is_lost_delete e = true -> is_delete e = true.
Proof. unfold is_lost_delete, is_delete. intros ->%bool_decide_eq_true_1. done. Qed.

(** The operations a deletion asks for leave no object. *)
Lemma delete_ops_ok mr e (s : S) : is_delete e = true ->
  version_of (run_ops (ops true
    (if mr && is_lost_delete e && can_rollback e then [TryStash (soid e) (version (e_version e))]
     else if is_delete e then [Remove (soid e)] else [])) s) (soid e) = None.
Proof. intros ->. simpl. case_match; simpl; [apply op_stash|apply op_remove]. Qed.

Lemma update_ops_nil mr e : is_delete e = false ->
  (if mr && is_lost_delete e && can_rollback e then [TryStash (soid e) (version (e_version e))]
   else if is_delete e then [Remove (soid e)] else []) = [].
Proof.
  intros Hd. rewrite Hd. destruct (is_lost_delete e) eqn:E; [by rewrite (lost_delete_is_delete e E) in Hd|].
  by rewrite andb_false_r.
Qed.

(** One entry of an object in place: its missing set stays accurate. *)
Lemma append_accurate lb mr e ms ms' l (s : S) : items_ok ms -> entry_ok e ->
  Hobject.cmp (soid e) lb <= 0 -> is_error e = false ->
  append_missing lb mr e ms true = Some (ms', l) -> accurate s ms (soid e) (prior e) ->
  accurate (run_ops l s) ms' (soid e) (result e).
Proof.
  intros Hs (Hr & Hlt & _) Hlb Hne E Hacc. unfold append_missing in E. rewrite (proj2 (Z.leb_le _ _) Hlb), Hne in E. simpl in E.
  destruct (add_next_event_ok e ms Hs Hr) as (ms1 & it & E1 & (Em & _ & Emay & _) & Hneed & Hflag & Hhave).
  assert (is_delete e = false \/ may_include_deletes ms = true -> accurate s ms1 (soid e) (result e)) as Hadd.
  { intros Hor. unfold accurate. rewrite Em, lookup_insert_eq, Hneed, Hflag. split; [done|]. split; [|rewrite Emay; intros Hf; destruct Hor; [done|congruence]].
    rewrite Hhave. unfold next_have. unfold prior in Hacc. destruct ((prior_version e =? zero)%ev || is_clone e); [by left|].
    unfold accurate in Hacc. destruct (missing ms !! soid e) as [it0|]; [by apply Hacc|by right]. }
  destruct (may_include_deletes ms) eqn:Emd; [rewrite E1 in E; simplify_eq/=; auto|].
  destruct (is_delete e) eqn:Ed.
  - simplify_eq/=. destruct (rm_effect (soid e) (e_version e) ms) as (_ & _ & _ & G4).
    unfold accurate. rewrite G4.
    + unfold result. rewrite Ed. pose proof (delete_ops_ok mr e s Ed) as H. rewrite Ed in H. exact H.
    + intros it0 E0. unfold accurate in Hacc. rewrite E0 in Hacc. destruct Hacc as (Ht & _ & Hf). rewrite Hf in Ht by done.
      unfold prior in Ht. destruct (_ || _); [done|]. injection Ht as <-. by apply Lt_Le.
  - pose proof (update_ops_nil mr e Ed) as Hops. rewrite Ed in Hops. rewrite E1, Hops in E. simplify_eq/=. auto.
Qed.

(** One entry of a divergent object: only the need is certain. *)
Lemma append_settled lb mr e ms ms' l (s : S) : items_ok ms -> entry_ok e ->
  Hobject.cmp (soid e) lb <= 0 -> is_error e = false ->
  append_missing lb mr e ms true = Some (ms', l) -> need_le ms (soid e) (e_version e) ->
  settled (run_ops l s) ms' (soid e) e /\ need_le ms' (soid e) (e_version e).
Proof.
  intros Hs (Hr & Hlt & _) Hlb Hne E Hle. unfold append_missing in E. rewrite (proj2 (Z.leb_le _ _) Hlb), Hne in E. simpl in E.
  destruct (add_next_event_ok e ms Hs Hr) as (ms1 & it & E1 & (Em & _ & Emay & _) & Hneed & Hflag & _).
  assert (is_delete e = false \/ may_include_deletes ms = true ->
    settled s ms1 (soid e) e /\ need_le ms1 (soid e) (e_version e)) as Hadd.
  { intros Hor. unfold settled, need_le. rewrite Em, lookup_insert_eq, Emay. split.
    - replace (may_include_deletes ms || negb (is_delete e)) with true by (destruct Hor as [-> | ->]; [by rewrite orb_true_r|done]).
      eauto.
    - intros it' [= <-]. rewrite Hneed. reflexivity. }
  destruct (may_include_deletes ms) eqn:Emd; [rewrite E1 in E; simplify_eq/=; auto|].
  destruct (is_delete e) eqn:Ed.
  - simplify_eq/=. destruct (rm_effect (soid e) (e_version e) ms) as (G1 & _ & _ & G4). unfold settled, need_le.
    rewrite G1, Emd, Ed, G4 by done. simpl. split; [|done]. split; [done|].
    pose proof (delete_ops_ok mr e s Ed) as H. rewrite Ed in H. exact H.
  - pose proof (update_ops_nil mr e Ed) as Hops. rewrite Ed in Hops. rewrite E1, Hops in E. simplify_eq/=. auto.
Qed.

(** *** Sequences of entries *)

(** Entries that [add] accepts one after the other above [h]. *)
Fixpoint seq_from (h : eversion_t) (l : list pg_log_entry_t) : Prop :=
  match l with
  | [] => True
  | e :: l => Lt h (e_version e) /\ (version h = 0 \/ version h < version (e_version e)) /\ seq_from (e_version e) l
  end.

Lemma seq_from_above h l : seq_from h l -> Forall (fun e => Lt h (e_version e)) l.
Proof.
  revert h. induction l as [|e l IH]; intros h; simpl; [constructor|]. intros (H1 & _ & H2). constructor; [done|].
  eapply Forall_impl; [by apply IH|]. intros e' He'. by etrans.
Qed.

(** The index holds the latest entry of every object. *)
Definition index_ok (x : IndexedLog) : Prop := indexed x = true /\ forall o, objects x !! o = last (mine o (log x)).

Lemma mine_app o l1 l2 : mine o (l1 ++ l2) = mine o l1 ++ mine o l2.
Proof. apply filter_app. Qed.

Lemma mine_one o e : mine o [e] = if decide (concerns o e) then [e] else [].
Proof. unfold mine. rewrite filter_cons, filter_nil. done. Qed.

Lemma index_entry_ok l o m : m !! o = last (mine o l) ->
  forall e, index_entry e m !! o = last (mine o (l ++ [e])).
Proof.
  intros Hm e. rewrite mine_app, mine_one. unfold index_entry, object_is_indexed. destruct (is_error e) eqn:Ee; simpl.
  - rewrite decide_False by (unfold concerns; intros [_ ?]; congruence). by rewrite app_nil_r.
  - destruct (decide (soid e = o)) as [<-|Hne].
    + rewrite decide_True by done. rewrite lookup_insert_eq, last_snoc. done.
    + rewrite decide_False by (unfold concerns; tauto). by rewrite lookup_insert_ne, app_nil_r.
Qed.

Lemma index_is_ok x : index_ok (index x).
Proof.
  split; [done|]. intros o. simpl.
  assert (forall l l0 m, m !! o = last (mine o l0) ->
    foldl (fun m e => index_entry e m) m l !! o = last (mine o (l0 ++ l))) as H.
  { induction l as [|e l IH]; intros l0 m Hm; simpl; [by rewrite app_nil_r|].
    rewrite (IH (l0 ++ [e])); [by rewrite <- app_assoc|]. by apply index_entry_ok. }
  by apply (H _ []).
Qed.

Lemma log_add_ok e x : Lt (head x) (e_version e) -> (version (head x) = 0 \/ version (head x) < version (e_version e)) ->
  index_ok x ->
  exists x', PgLog.add e true x = Some x' /\ log x' = log x ++ [e] /\ head x' = e_version e /\ tail x' = tail x /\ index_ok x'.
Proof.
  intros H1 H2 [Hi Ho]. unfold PgLog.add. cbn [orb]. unfold Lt in H1. rewrite H1.
  replace ((version (head x) =? 0) || (version (head x) <? version (e_version e))) with true.
  2: { symmetry. apply orb_true_iff. rewrite Z.eqb_eq, Z.ltb_lt. done. }
  eexists. split; [done|]. simpl. rewrite Hi. simpl. destruct (object_is_indexed e) eqn:Eo; simpl.
  - do 3 (split; [done|]). split; [done|]. intros o. simpl. rewrite <- (index_entry_ok (log x) o (objects x) (Ho o) e).
    unfold index_entry. by rewrite Eo.
  - do 3 (split; [done|]). split; [done|]. intros o. simpl. rewrite <- (index_entry_ok (log x) o (objects x) (Ho o) e).
    unfold index_entry. by rewrite Eo.
Qed.

Definition last_version (h : eversion_t) (l : list pg_log_entry_t) : eversion_t :=
  match last l with Some e => e_version e | None => h end.

(** What appending entries did to the missing set and the store, for the
    objects below the backfill point. *)
Record appended_all (lb : hobject_t) (entries : list pg_log_entry_t) (s s' : S) (ms ms' : pg_missing_set) : Prop := {
  aa_items : items_ok ms';
  aa_may : may_include_deletes ms' = may_include_deletes ms;
  aa_frame : forall o, mine o entries = [] -> missing ms' !! o = missing ms !! o /\ version_of s' o = version_of s o;
  aa_accurate : forall o st, Hobject.cmp o lb <= 0 -> chain st (mine o entries) -> accurate s ms o st ->
    accurate s' ms' o (after st (mine o entries));
  aa_settled : forall o e b, Hobject.cmp o lb <= 0 -> last (mine o entries) = Some e -> need_le ms o b ->
    Forall (fun e => Lt b (e_version e)) entries -> settled s' ms' o e
}.

Lemma append_one_all lb mr e ms ms' l (s : S) : items_ok ms -> entry_ok e ->
  append_missing lb mr e ms true = Some (ms', l) -> appended e ms ms' l -> appended_all lb [e] s (run_ops l s) ms ms'.
Proof.
  intros Hs He E [Hi Hm Hfr Hops].
  assert (forall o, ~ concerns o e -> missing ms' !! o = missing ms !! o /\ version_of (run_ops l s) o = version_of s o) as Hframe.
  { intros o Ho. split; [by apply Hfr|]. apply run_ops_frame. eapply Forall_impl; [exact Hops|]. intros op H <-. by apply Ho. }
  split; try done.
  - intros o Ho. apply Hframe. rewrite mine_one in Ho. by case_decide.
  - intros o st Hlb Hch Hacc. rewrite mine_one in *. case_decide as Hc.
    + destruct Hc as [<- Hne]. destruct Hch as [<- _]. change (after (prior e) [e]) with (result e). by apply (append_accurate lb mr e ms).
    + destruct (Hframe o Hc) as [H1 H2]. change (after st []) with st. by eapply accurate_ext.
  - intros o e' b Hlb Hlast Hle Hb. rewrite mine_one in Hlast. case_decide as Hc; [|done]. injection Hlast as <-.
    destruct Hc as [<- Hne]. apply (append_settled lb mr e ms); [done..|]. intros it Hit. rewrite Forall_singleton in Hb.
    etrans; [by apply Hle|by apply Lt_Le].
Qed.

Lemma append_one_need lb mr e ms ms' l : items_ok ms -> entry_ok e ->
  append_missing lb mr e ms true = Some (ms', l) -> appended e ms ms' l -> forall o b,
  need_le ms o b -> Lt b (e_version e) -> need_le ms' o (e_version e).
Proof.
  intros Hs He E [Hi Hm Hfr Hops] o b Hle Hb. destruct (decide (concerns o e)) as [[<- Hne]|Hc].
  2: { intros it Hit. rewrite Hfr in Hit by done. etrans; [by apply Hle|by apply Lt_Le]. }
  unfold append_missing in E. rewrite Hne, andb_true_r in E. destruct (_ <=? 0) eqn:Elb.
  2: { simplify_eq. intros it Hit. etrans; [by apply Hle|by apply Lt_Le]. }
  destruct He as (Hr & _). destruct (add_next_event_ok e ms Hs Hr) as (ms1 & it1 & E1 & (Em & _) & Hneed & _).
  assert (need_le ms1 (soid e) (e_version e)) as Hn1.
  { intros it. rewrite Em, lookup_insert_eq. intros [= <-]. rewrite Hneed. reflexivity. }
  assert (need_le ms (soid e) (e_version e)) as Hn0 by (intros it Hit; etrans; [by apply Hle|by apply Lt_Le]).
  rewrite E1 in E. cbn [mbind option_bind] in E. destruct (may_include_deletes ms); [by simplify_eq|].
  destruct (is_delete e); simplify_eq/=; [|done]. intros it Hit.
  destruct (rm_effect (soid e) (e_version e) ms) as (_ & _ & _ & G4). by rewrite G4 in Hit.
Qed.

(** Appending one entry, then the rest. *)
Lemma appended_all_cons lb e l (s s1 s2 : S) ms ms1 ms2 :
  (forall o b, need_le ms o b -> Lt b (e_version e) -> need_le ms1 o (e_version e)) ->
  Forall (fun e' => Lt (e_version e) (e_version e')) l ->
  appended_all lb [e] s s1 ms ms1 -> appended_all lb l s1 s2 ms1 ms2 -> appended_all lb (e :: l) s s2 ms ms2.
Proof.
  intros Hneed Hl [A1 A2 A3 A4 A5] [B1 B2 B3 B4 B5].
  assert (forall o, mine o (e :: l) = mine o [e] ++ mine o l) as Hm by (intros o; apply (mine_app o [e] l)).
  split; [done|congruence| | |].
  - intros o Ho. rewrite Hm in Ho. apply app_eq_nil in Ho as [H1 H2].
    destruct (A3 o H1), (B3 o H2). split; congruence.
  - intros o st Hlb Hch Hacc. rewrite Hm in *. rewrite mine_one in *. case_decide as Hc; simpl in *.
    + destruct Hch as [Hp Hch]. rewrite after_cons. apply B4; [done|done|].
      specialize (A4 o st Hlb). rewrite mine_one, decide_True in A4 by done. apply A4; [by split|done].
    + apply B4; [done|done|]. specialize (A4 o st Hlb). rewrite mine_one, decide_False in A4 by done. by apply A4.
  - intros o e' b Hlb Hlast Hle Hb. inversion Hb as [|? ? Hb1 Hb2]; subst. rewrite Hm in Hlast.
    destruct (last (mine o l)) as [e2|] eqn:El.
    + rewrite last_app, El in Hlast. injection Hlast as <-. by apply (B5 o e2 (e_version e)); [| |eapply Hneed|].
    + apply last_None in El. rewrite El, app_nil_r in Hlast. destruct (B3 o El) as [H1 H2].
      assert (settled s1 ms1 o e') as Hset by (apply (A5 o e' b); [done..|by constructor]).
      unfold settled in *. by rewrite H1, H2, B2.
Qed.

Lemma append_loop_ok lb mr entries : forall x ms (s : S) inv,
  index_ok x -> seq_from (head x) entries -> Forall entry_ok entries -> items_ok ms ->
  exists inv' x' ms' l, append_loop lb entries mr (Some x) ms true inv = Some (inv', Some x', ms', l) /\
    log x' = log x ++ entries /\ head x' = last_version (head x) entries /\ tail x' = tail x /\ index_ok x' /\
    appended_all lb entries s (run_ops l s) ms ms'.
Proof.
  induction entries as [|e entries IH]; intros x ms s inv Hx Hseq Hok Hms.
  { exists inv, x, ms, []. split; [done|]. split; [by rewrite app_nil_r|]. do 3 (split; [done|]).
    split; [done|done|done|done|]. intros o e b _ Hl. discriminate Hl. }
  cbn [append_loop]. destruct Hseq as (H1 & H2 & Hseq). inversion Hok as [|? ? He Hok']; subst.
  destruct (log_add_ok e x H1 H2 Hx) as (x1 & -> & El & Eh & Et & Hx1). cbn [mbind option_bind].
  destruct (append_missing_ok lb mr e ms Hms He) as (ms1 & l1 & E1 & Hap). rewrite E1. cbn [mbind option_bind].
  rewrite <- Eh in Hseq.
  destruct (IH x1 ms1 (run_ops l1 s) (inv || negb (is_error e)) Hx1 Hseq Hok' (ap_items _ _ _ _ Hap))
    as (inv' & x' & ms' & l2 & -> & El' & Eh' & Et' & Hx' & Hall).
  cbn [mbind option_bind]. exists inv', x', ms', (l1 ++ l2). split; [done|].
  split; [rewrite El', El, <- app_assoc; done|]. split.
  { rewrite Eh'. unfold last_version. destruct entries as [|e2 entries]; [done|]. rewrite last_cons_cons.
    by destruct (last (e2 :: entries)) eqn:E; [|apply last_None in E]. }
  split; [congruence|]. split; [done|]. rewrite run_ops_app. eapply appended_all_cons; [| | |exact Hall].
  - by eapply append_one_need.
  - apply seq_from_above. by rewrite <- Eh.
  - by eapply append_one_all.
Qed.

(** ** Merging divergent entries *)

(** *** Grouping by object *)

Definition of_object (o : hobject_t) (l : list pg_log_entry_t) : list pg_log_entry_t := filter (fun e => soid e = o) l.

Definition grouped (l : list pg_log_entry_t) (sp : list (hobject_t * list pg_log_entry_t)) : Prop :=
  NoDup sp.*1 /\ forall o es, (o, es) ∈ sp <-> es = of_object o l /\ es <> [].

Lemma insert_key_perm {V} k (v : V) l : insert_key k v l ≡ₚ (k, v) :: l.
Proof.
  induction l as [|[k' v'] l IH]; simpl; [done|]. destruct (_ <? 0); [done|]. rewrite IH. apply Permutation_swap.
Qed.

Lemma of_object_snoc o l e : of_object o (l ++ [e]) = if decide (soid e = o) then of_object o l ++ [e] else of_object o l.
Proof. unfold of_object. rewrite filter_app, filter_cons, filter_nil. case_decide; [done|]. by rewrite app_nil_r. Qed.

Lemma splice_keys (sp : list (hobject_t * list pg_log_entry_t)) e : existsb (fun p => bool_decide (fst p = soid e)) sp = bool_decide (soid e ∈ sp.*1).
Proof.
  apply eq_bool_prop_intro. rewrite !Is_true_true, existsb_exists, bool_decide_eq_true, list_elem_of_fmap. split.
  - intros (p & Hp & E%bool_decide_eq_true_1). exists p. by rewrite list_elem_of_In.
  - intros (p & E & Hp). exists p. rewrite <- list_elem_of_In, bool_decide_eq_true. done.
Qed.

Lemma grouped_snoc l sp e : grouped l sp -> grouped (l ++ [e]) (splice_entry sp e).
Proof.
  intros [Hnd Hin]. unfold splice_entry. rewrite splice_keys. case_bool_decide as Hk.
  - split.
    + replace (map _ sp).*1 with sp.*1; [done|]. clear. induction sp as [|p sp IH]; simpl; [done|].
      f_equal; [by case_bool_decide|done].
    + intros o es. rewrite list_elem_of_fmap, of_object_snoc. split.
      * intros ([o' es'] & E & Hp). apply Hin in Hp as [-> Hne]. simpl in E.
        case_bool_decide as Ho; simplify_eq/=; [rewrite decide_True by done|rewrite decide_False by done]; [|done].
        split; [done|]. intros [_ ?]%app_eq_nil. done.
      * intros [-> Hne]. case_decide as Ho.
        { subst o. apply list_elem_of_fmap in Hk as ([o' es'] & -> & Hp). exists (o', es'). simpl.
          rewrite bool_decide_eq_true_2 by done. split; [|done]. f_equal. by apply Hin in Hp as [-> _]. }
        { exists (o, of_object o l). simpl. rewrite bool_decide_eq_false_2 by done. split; [done|]. by apply Hin. }
  - split.
    + rewrite (fmap_Permutation _ _ _ (insert_key_perm _ _ _)). simpl. by constructor.
    + intros o es. rewrite insert_key_perm, elem_of_cons, of_object_snoc, Hin.
      assert (of_object (soid e) l = []) as Hempty.
      { destruct (of_object (soid e) l) as [|e0 l0] eqn:E; [done|]. destruct Hk. apply list_elem_of_fmap.
        exists (soid e, of_object (soid e) l). split; [done|]. apply Hin. rewrite E. done. }
      case_decide as Ho.
      * subst o. rewrite Hempty. simpl. split; [intros [[= ->]|[-> ?]]; done|]. intros [-> _]. by left.
      * split; [intros [[= -> _]|?]; done|tauto].
Qed.

Lemma split_ok l : grouped l (split_by_object l).
Proof.
  unfold split_by_object. assert (forall l1 l0 sp, grouped l0 sp -> grouped (l0 ++ l1) (foldl splice_entry sp l1)) as H.
  { induction l1 as [|e l1 IH]; intros l0 sp Hg; simpl; [by rewrite app_nil_r|].
    rewrite (cons_middle e l0 l1), app_assoc. by apply IH, grouped_snoc. }
  apply (H l []). split; [constructor|]. intros o es. split; [set_solver|]. intros [-> ?]. done.
Qed.

Lemma mine_of_object o l : mine o l = filter (fun e => is_error e = false) (of_object o l).
Proof. unfold mine, of_object. rewrite list_filter_filter. apply list_filter_iff. unfold concerns. tauto. Qed.

(** *** The checks on the entries of one object *)

Fixpoint linked (v : eversion_t) (l : list pg_log_entry_t) : Prop :=
  match l with
  | [] => True
  | e :: l => (prior_version e = zero \/ prior_version e = v) /\ linked (e_version e) l
  end.

Lemma chain_linked l : forall e, chain (result e) l -> Forall (fun e => is_clone e = false) l -> linked (e_version e) l.
Proof.
  induction l as [|e' l IH]; intros e; simpl; [done|]. intros [Hp Hch] Hc. inversion Hc as [|? ? Hc1 Hc2]; subst.
  split; [|by apply IH]. unfold prior in Hp. rewrite Hc1, orb_false_r in Hp.
  destruct (prior_version e' =? zero)%ev eqn:Ez; [left; by apply eqb_spec|right].
  unfold result in Hp. destruct (is_delete e); [done|]. by injection Hp.
Qed.

Definition later (a b : pg_log_entry_t) : Prop := Lt (e_version a) (e_version b).

Lemma strip_ok o es : forall first seen last,
  Forall (fun e => soid e = o) es -> StronglySorted later es -> Forall (fun e => Lt last (e_version e)) es ->
  (if seen : bool then linked last (filter (fun e => is_error e = false) es)
   else match filter (fun e => is_error e = false) es with [] => True | e :: l => linked (e_version e) l end) ->
  strip_errors o es first seen last = Some (filter (fun e => is_error e = false) es).
Proof.
  induction es as [|e es IH]; intros first seen last Ho Hso Hl Hk; [done|].
  inversion Ho as [|? ? Ho1 Ho2]; subst. inversion Hl as [|? ? Hl1 Hl2]; subst. inversion Hso as [|? ? Hs1 Hs2]; subst.
  cbn [strip_errors]. rewrite bool_decide_eq_true_2 by done. unfold Lt in Hl1. rewrite Hl1. cbn [andb].
  rewrite filter_cons in *. destruct (is_error e) eqn:Ee.
  - rewrite decide_False in * by done. rewrite !orb_true_r. simpl negb. rewrite orb_false_r. by apply IH.
  - rewrite decide_True in * by done. rewrite orb_false_r. simpl negb. rewrite andb_true_r, orb_true_r.
    assert (linked (e_version e) (filter (fun e => is_error e = false) es)) as Hk'
      by (destruct seen; [by destruct Hk|done]).
    rewrite (IH false true (e_version e)) by done. cbn [mbind option_bind].
    destruct seen; simpl; [|by rewrite andb_false_r].
    destruct Hk as [[->| ->] _]; [|by rewrite (proj2 (eqb_spec last last) eq_refl), orb_true_r].
    by rewrite (proj2 (eqb_spec zero zero) eq_refl), andb_false_r.
Qed.

(** *** One object *)

Lemma chain_snoc st l e : chain st (l ++ [e]) <-> chain st l /\ prior e = after st l.
Proof.
  revert st. induction l as [|e' l IH]; intros st; simpl; [tauto|]. rewrite IH, after_cons. tauto.
Qed.

(** Rolling back the entries of an object, newest first, undoes them. *)
Lemma rollback_all st o l (s : S) : chain st l -> Forall (fun e => soid e = o) l ->
  version_of s o = after st l -> version_of (run_ops (Rollback <$> reverse l) s) o = st.
Proof.
  revert s. induction l as [|e l IH] using rev_ind; intros s Hch Ho Hv; [done|].
  apply chain_snoc in Hch as [Hch Hp]. apply Forall_app in Ho as [Ho1 Ho2]. rewrite Forall_singleton in Ho2. subst o.
  unfold after in Hv. rewrite last_snoc in Hv. rewrite reverse_app. simpl.
  change (version_of (run_ops (Rollback <$> reverse l) (run_op (Rollback e) s)) (soid e) = st).
  apply IH; [done|done|]. by rewrite op_rollback.
Qed.

Lemma discard_ok (b : bool) o l (s : S) :
  version_of (run_ops ((if b then [] else [Remove o]) ++ (Trim <$> l)) s) o = if b then version_of s o else None.
Proof.
  rewrite run_ops_app, run_keep by (intros; apply trim_keeps). destruct b; [done|]. apply op_remove.
Qed.

(** What merging the entries of [o] leaves alone. *)
Record merged (o : hobject_t) (ms ms' : pg_missing_set) (l : list log_op) : Prop := {
  mg_items : items_ok ms';
  mg_may : may_include_deletes ms' = may_include_deletes ms;
  mg_frame : forall o', o' <> o -> missing ms' !! o' = missing ms !! o';
  mg_ops : Forall (fun op => op_obj op = o) l
}.

Lemma map_ops_obj (f : pg_log_entry_t -> log_op) o l : (forall e, op_obj (f e) = soid e) ->
  Forall (fun e => soid e = o) l -> Forall (fun op => op_obj op = o) (f <$> l).
Proof. intros Hf Hl. apply Forall_fmap. eapply Forall_impl; [exact Hl|]. intros e He. simpl. by rewrite Hf. Qed.

Lemma discard_obj (b : bool) o l : Forall (fun e => soid e = o) l ->
  Forall (fun op => op_obj op = o) ((if b then [] else [Remove o]) ++ (Trim <$> l)).
Proof. intros Hl. apply Forall_app. split; [destruct b; repeat constructor|]. by apply map_ops_obj. Qed.

Lemma replaced_merged o it ms ms' l : items_ok ms -> replaced o it ms ms' -> Forall (fun op => op_obj op = o) l ->
  merged o ms ms' l.
Proof.
  intros Hs (Em & _ & Hm & _ & Hi) Hl. split; [by apply Hi|done| |done]. intros o' Ho'. rewrite Em. by apply lookup_insert_ne.
Qed.

Lemma rm_it_merged o it ms l : items_ok ms -> Forall (fun op => op_obj op = o) l -> merged o ms (rm_it o it ms) l.
Proof. intros Hs Hl. split; [by apply rm_it_items|done| |done]. intros o' Ho'. by apply lookup_delete_ne. Qed.

Section Object.
Context (x : IndexedLog) (o : hobject_t) (es : list pg_log_entry_t) (info : pg_info_t) (crt : eversion_t).
Context (ms : pg_missing_set) (s : S) (e0 en : pg_log_entry_t) (l : list pg_log_entry_t).
Hypotheses (Hlb : Hobject.cmp o (last_backfill info) <= 0) (Hes : es <> []) (Hms : items_ok ms)
  (Hstrip : strip_errors o es true false zero = Some (e0 :: l)) (Hlast : last (e0 :: l) = Some en)
  (Hob : Forall (fun e => soid e = o) (e0 :: l)).

(** A newer entry of the object was merged before. *)
Lemma merge_object_new r : objects x !! o = Some r -> Le (e_version e0) (e_version r) ->
  Lt (e_version en) (e_version r) -> is_error r = false -> settled s ms o r ->
  exists ms' ol, _merge_object_divergent_entries x o es info crt ms true = Some (ms', ol) /\
    merged o ms ms' ol /\ accurate (run_ops ol s) ms' o (result r).
Proof using Hlb Hes Hms Hstrip Hlast Hob.
  intros Hr Hle Hlt Hne Hset. unfold _merge_object_divergent_entries.
  rewrite (proj2 (Z.ltb_ge 0 _)) by done. rewrite bool_decide_eq_false_2 by done. cbn [negb].
  rewrite Hstrip. cbn [mbind option_bind]. rewrite Hlast, Hr. unfold Le, Lt in *. rewrite Hle, Hlt.
  assert (is_update r = negb (is_delete r)) as Hup by (unfold is_update, is_delete, is_error in *; destruct (op r); done).
  destruct (forget_ok o ms Hms) as (ms' & Ems & Hi & _ & Hmay & Hfr & Ho).
  set (ons := negb (is_missing ms o) && is_delete en).
  assert (merged o ms ms' (ops true ((if ons then [] else [Remove o]) ++ (Trim <$> e0 :: l)))) as Hmg
    by (split; [done|done|done|by apply discard_obj]).
  unfold settled in Hset. rewrite Hup. rewrite orb_comm in Hset.
  destruct (negb (is_delete r) || (may_include_deletes ms)) eqn:Eu.
  - destruct Hset as (it & Hit & Hn & Hf). rewrite Hit in Ho. destruct Ho as (it' & Hit' & Hn' & Hh & Hf').
    replace (negb (is_delete r) || may_include_deletes ms && is_delete r) with true
      by (destruct (is_delete r), (may_include_deletes ms); done).
    rewrite Hit, Hn, (proj2 (eqb_spec _ _) eq_refl), Ems. cbn [mbind option_bind]. eexists _, _. split; [done|]. split; [done|].
    unfold accurate. rewrite Hit', Hmay, Hf', Hf, Hn', Hn, Hh. split; [done|]. split; [by left|].
    intros Hm. rewrite Hm, orb_false_r in Eu. by apply negb_true_iff.
  - destruct Hset as [Hnone Hv]. apply orb_false_iff in Eu as [Ed%negb_false_iff Em]. rewrite Ed, Em. cbn [negb andb orb].
    rewrite Hnone in Ho. unfold is_missing at 1. rewrite Hnone. rewrite bool_decide_eq_false_2 by (by intros []). cbn [negb].
    rewrite Ems. cbn [mbind option_bind]. eexists _, _. split; [done|]. split; [done|].
    unfold accurate. rewrite Ho. unfold ops. rewrite discard_ok. unfold result. rewrite Ed. by case_match.
Qed.

(** The divergent entries are the latest of the object. *)
Lemma merge_object_old st : (forall r, objects x !! o = Some r -> Lt (e_version r) (e_version e0)) ->
  chain st (e0 :: l) -> accurate s ms o (after st (e0 :: l)) ->
  exists ms' ol, _merge_object_divergent_entries x o es info crt ms true = Some (ms', ol) /\
    merged o ms ms' ol /\ accurate (run_ops ol s) ms' o st.
Proof using Hlb Hes Hms Hstrip Hlast Hob.
  intros Hr Hch Hacc. unfold _merge_object_divergent_entries.
  rewrite (proj2 (Z.ltb_ge 0 _)) by done. rewrite bool_decide_eq_false_2 by done. cbn [negb].
  rewrite Hstrip. cbn [mbind option_bind]. rewrite Hlast.
  replace (match objects x !! o with Some o0 => if (e_version e0 <=? e_version o0)%ev then Some o0 else None | None => None end)
    with (@None pg_log_entry_t).
  2: { destruct (objects x !! o) as [r|] eqn:E; [|done]. specialize (Hr r eq_refl). apply le_gt in Hr. by rewrite Hr. }
  set (ons := negb (is_missing ms o) && is_delete en).
  assert (prior e0 = st) as Hp by apply Hch. unfold prior in Hp.
  assert (after st (e0 :: l) = result en) as Haf by (unfold after; by rewrite Hlast).
  assert (ons = true -> version_of s o = None) as Hons.
  { intros [H1%negb_true_iff H2]%andb_true_iff. unfold is_missing in H1. apply bool_decide_eq_false_1 in H1.
    unfold accurate in Hacc. destruct (missing ms !! o); [by destruct H1|]. rewrite Hacc, Haf. unfold result. by rewrite H2. }
  assert (version_of (run_ops (ops true ((if ons then [] else [Remove o]) ++ (Trim <$> e0 :: l))) s) o = None) as Hdis.
  { unfold ops. rewrite discard_ok. destruct ons; auto. }
  pose proof (discard_obj ons o (e0 :: l) Hob) as Hdo.
  destruct ((prior_version e0 =? zero)%ev || is_clone e0) eqn:Ec; rewrite <- Hp.
  { destruct (missing ms !! o) as [it|] eqn:Em; eexists _, _; (split; [done|]).
    - split; [by apply rm_it_merged|]. unfold accurate. simpl. by rewrite lookup_delete_eq.
    - split; [by split|]. unfold accurate. by rewrite Em. }
  apply orb_false_iff in Ec as [Ez%eqb_neq _].
  destruct (missing ms !! o) as [it|] eqn:Em.
  - assert (Forall (fun op => op_obj op = o) (ops true (Trim <$> e0 :: l))) as Hto by by apply map_ops_obj.
    assert (version_of (run_ops (ops true (Trim <$> e0 :: l)) s) o = version_of s o) as Hkeep
      by (apply run_keep; intros; apply trim_keeps).
    unfold accurate in Hacc. rewrite Em in Hacc. destruct Hacc as (_ & Hh & _).
    destruct (have it =? prior_version e0)%ev eqn:Eh.
    + apply eqb_spec in Eh. cbn [mbind option_bind]. eexists _, _. split; [done|]. split; [by apply rm_it_merged|].
      unfold accurate. change (missing (rm_it o it ms)) with (delete o (missing ms)). rewrite lookup_delete_eq, Hkeep. destruct Hh as [Hz|Hv]; congruence.
    + destruct (revise_need_ok o (prior_version e0) false ms Hms) as (ms' & it' & -> & Hrep & Hn & Hf & Hhv).
      cbn [mbind option_bind]. eexists _, _. split; [done|]. split; [by eapply replaced_merged|].
      unfold accurate. destruct Hrep as (-> & _). rewrite lookup_insert_eq, Hn, Hf, Hhv, Em, Hkeep. done.
  - unfold accurate in Hacc. rewrite Em in Hacc.
    destruct (forallb _ (e0 :: l)) eqn:Eall.
    + eexists _, _. split; [done|]. split.
      { split; [done|done|done|]. apply map_ops_obj; [done|]. by apply Forall_reverse. }
      unfold accurate. rewrite Em. unfold ops. rewrite (rollback_all st); [by rewrite <- Hp|done|done|done].
    + destruct (add_ok o (prior_version e0) zero false ms Em) as (ms' & it' & -> & Hrep & Hn & Hh & Hf).
      cbn [mbind option_bind]. eexists _, _. split; [done|]. split; [by eapply replaced_merged|].
      unfold accurate. destruct Hrep as (-> & _). rewrite lookup_insert_eq, Hn, Hf, Hh. split; [done|]. split; [by left|done].
Qed.
End Object.

(** *** All objects *)

Section Divergent.
Context (x : IndexedLog) (kept D N : list pg_log_entry_t) (info : pg_info_t) (crt : eversion_t).
Context (st : hobject_t -> option eversion_t).

(** The divergent entries [D] followed the common entries [kept] in the local
    log; the merged log has [N] in their place. *)
Record diverges : Prop := {
  dv_index : forall o, objects x !! o = last (mine o (kept ++ N));
  dv_sorted : StronglySorted later D;
  dv_entries : Forall entry_ok D;
  dv_kept : forall e d, e ∈ kept -> d ∈ D -> later e d;
  dv_new : forall e d, e ∈ N -> d ∈ D -> later d e;
  dv_chain : forall o, chain (st o) (mine o D);
  dv_clone : forall o e, e ∈ list.tail (mine o D) -> is_clone e = false
}.
Hypothesis (Hdv : diverges).

(** Before an object is merged: its missing set is accurate for the divergent
    entries, or settled by new entries. *)
Definition pending (s : S) (ms : pg_missing_set) (o : hobject_t) : Prop :=
  match last (mine o N) with
  | None => accurate s ms o (after (st o) (mine o D))
  | Some r => settled s ms o r
  end.

Lemma pending_ext s s' ms ms' o : version_of s' o = version_of s o -> missing ms' !! o = missing ms !! o ->
  may_include_deletes ms' = may_include_deletes ms -> pending s ms o -> pending s' ms' o.
Proof.
  intros H1 H2 H3. unfold pending. destruct (last (mine o N)); [|by apply accurate_ext].
  unfold settled. by rewrite H1, H2, H3.
Qed.

Lemma mine_in o l e : e ∈ mine o l -> e ∈ l /\ soid e = o /\ is_error e = false.
Proof. intros [[? ?] ?]%list_elem_of_filter. done. Qed.

Lemma strip_mine o : strip_errors o (of_object o D) true false zero = Some (mine o D).
Proof using Hdv.
  rewrite mine_of_object. apply strip_ok.
  - apply Forall_forall. by intros e [? _]%list_elem_of_filter.
  - apply filter_sorted, Hdv.
  - apply Forall_forall. intros e [_ He]%list_elem_of_filter. pose proof (dv_entries Hdv) as H.
    rewrite Forall_forall in H. apply (H e He).
  - rewrite <- mine_of_object. pose proof (dv_chain Hdv o) as Hch. pose proof (dv_clone Hdv o) as Hcl.
    destruct (mine o D) as [|e l]; [done|]. destruct Hch as [_ Hch]. apply chain_linked; [done|].
    apply Forall_forall. intros e' He'. by apply Hcl.
Qed.

Lemma merge_one_ok o ms s : Hobject.cmp o (last_backfill info) <= 0 -> mine o D <> [] -> items_ok ms -> pending s ms o ->
  exists ms' l, _merge_object_divergent_entries x o (of_object o D) info crt ms true = Some (ms', l) /\
    merged o ms ms' l /\ accurate (run_ops l s) ms' o (after (st o) (mine o N)).
Proof using Hdv.
  intros Hlb Hne Hms Hpend. pose proof (strip_mine o) as Hstrip. pose proof (dv_chain Hdv o) as Hch.
  assert (of_object o D <> []) as Hes by (intros E; apply Hne; by rewrite mine_of_object, E).
  assert (forall e, e ∈ mine o D -> e ∈ D /\ soid e = o /\ is_error e = false) as Hin by apply mine_in.
  destruct (mine o D) as [|e0 l] eqn:Em; [done|]. destruct (last (e0 :: l)) as [en|] eqn:El; [|by apply last_None in El].
  assert (Forall (fun e => soid e = o) (e0 :: l)) as Hob by (apply Forall_forall; intros e He; by apply Hin).
  assert (e0 ∈ D) as He0 by (apply Hin; set_solver).
  assert (en ∈ D) as Hen by (apply Hin; apply last_Some_elem_of; exact El).
  pose proof (dv_index Hdv o) as Hix. rewrite mine_app, last_app in Hix. unfold pending in Hpend. unfold after at 1.
  destruct (last (mine o N)) as [r|] eqn:EN.
  - assert (r ∈ mine o N) as (HrN & _ & Hre)%mine_in by by apply last_Some_elem_of.
    eapply merge_object_new; [done|done|done|exact Hstrip|exact El|done|exact Hix| | |done|done].
    + apply Lt_Le. by apply (dv_new Hdv).
    + by apply (dv_new Hdv).
  - rewrite Em in Hpend. eapply merge_object_old; [done|done|done|exact Hstrip|exact El|done| |done|done].
    intros r Hr. rewrite Hix in Hr. assert (r ∈ mine o kept) as (Hrk & _)%mine_in by by apply last_Some_elem_of.
    by apply (dv_kept Hdv).
Qed.

Lemma merge_none_ok o ms : mine o D = [] -> of_object o D <> [] ->
  _merge_object_divergent_entries x o (of_object o D) info crt ms true = Some (ms, []).
Proof using Hdv.
  intros Hm Hes. unfold _merge_object_divergent_entries. case_match; [done|].
  rewrite bool_decide_eq_false_2 by done. cbn [negb]. by rewrite strip_mine, Hm.
Qed.

Definition untouched (o : hobject_t) (s s' : S) (ms ms' : pg_missing_set) : Prop :=
  missing ms' !! o = missing ms !! o /\ version_of s' o = version_of s o.

Lemma merge_split_ok sp : forall ms s,
  NoDup sp.*1 -> (forall o es, (o, es) ∈ sp -> es = of_object o D /\ es <> []) -> items_ok ms ->
  (forall o, o ∈ sp.*1 -> Hobject.cmp o (last_backfill info) <= 0 -> mine o D <> [] -> pending s ms o) ->
  exists ms' l, merge_split x sp info crt ms true = Some (ms', l) /\
    items_ok ms' /\ may_include_deletes ms' = may_include_deletes ms /\
    (forall o, (o ∉ sp.*1 \/ mine o D = []) -> untouched o s (run_ops l s) ms ms') /\
    (forall o, o ∈ sp.*1 -> Hobject.cmp o (last_backfill info) <= 0 -> mine o D <> [] ->
       accurate (run_ops l s) ms' o (after (st o) (mine o N))).
Proof using Hdv.
  induction sp as [|[o es] sp IH]; intros ms s Hnd Hsp Hms Hp; cbn [merge_split].
  { exists ms, []. split; [done|]. do 3 (split; [done|]). intros o Ho. by apply not_elem_of_nil in Ho. }
  cbn [fmap list_fmap fst] in *. apply NoDup_cons in Hnd as [Hni Hnd]. destruct (Hsp o es) as [-> Hes]; [set_solver|].
  assert (exists ms1 l1, _merge_object_divergent_entries x o (of_object o D) info crt ms true = Some (ms1, l1) /\
    merged o ms ms1 l1 /\ (mine o D = [] -> untouched o s (run_ops l1 s) ms ms1) /\
    (Hobject.cmp o (last_backfill info) <= 0 -> mine o D <> [] -> accurate (run_ops l1 s) ms1 o (after (st o) (mine o N))))
    as (ms1 & l1 & -> & Hmg & Hun & Hacc).
  { destruct (decide (mine o D = [])) as [Hm|Hm].
    { exists ms, []. split; [by apply merge_none_ok|]. split; [by split|]. done. }
    destruct (decide (Hobject.cmp o (last_backfill info) <= 0)) as [Hlb|Hlb].
    - destruct (merge_one_ok o ms s Hlb Hm Hms) as (ms1 & l1 & E & Hmg & Hacc); [apply Hp; [set_solver|done|done]|].
      exists ms1, l1. done.
    - exists ms, []. unfold _merge_object_divergent_entries. rewrite (proj2 (Z.ltb_lt 0 _)) by lia.
      split; [done|]. split; [by split|]. done. }
  cbn [mbind option_bind]. destruct Hmg as [G1 G2 G3 G4].
  assert (forall o', o' <> o -> untouched o' s (run_ops l1 s) ms ms1) as Hfr.
  { intros o' Ho'. split; [by apply G3|]. apply run_ops_frame. eapply Forall_impl; [exact G4|]. intros op <-. done. }
  destruct (IH ms1 (run_ops l1 s)) as (ms2 & l2 & -> & H1 & H2 & H3 & H4); [done|set_solver|done| |].
  { intros o' Ho' Hlb Hm. assert (o' <> o) as Hne by (intros ->; done). destruct (Hfr o' Hne).
    eapply pending_ext; [done|done|done|]. apply Hp; [set_solver|done|done]. }
  cbn [mbind option_bind]. exists ms2, (l1 ++ l2). split; [done|]. split; [done|]. split; [congruence|].
  rewrite run_ops_app. split.
  - intros o' Ho'. assert (untouched o' s (run_ops l1 s) ms ms1) as [U1 U2].
    { destruct (decide (o' = o)) as [->|Hne]; [|by apply Hfr]. apply Hun. destruct Ho' as [Ho'|?]; [set_solver|done]. }
    destruct (H3 o') as [U3 U4]; [destruct Ho' as [Ho'|?]; [left; set_solver|by right]|]. split; congruence.
  - intros o' Ho' Hlb Hm. destruct (decide (o' = o)) as [->|Hne].
    + destruct (H3 o) as [U3 U4]; [by left|]. eapply accurate_ext; [exact U4|exact U3|exact H2|by apply Hacc].
    + apply H4; [set_solver|done|done].
Qed.

(** [_merge_divergent_entries]: every object the divergent entries concern ends
    up accurate for the merged log, and no other object changes. *)
Lemma merge_divergent_ok ms s : items_ok ms ->
  (forall o, Hobject.cmp o (last_backfill info) <= 0 -> mine o D <> [] -> pending s ms o) ->
  exists ms' l, _merge_divergent_entries x D info crt ms true = Some (ms', l) /\
    items_ok ms' /\ may_include_deletes ms' = may_include_deletes ms /\
    (forall o, mine o D = [] -> untouched o s (run_ops l s) ms ms') /\
    (forall o, Hobject.cmp o (last_backfill info) <= 0 -> mine o D <> [] ->
       accurate (run_ops l s) ms' o (after (st o) (mine o N))).
Proof using Hdv.
  intros Hms Hp. unfold _merge_divergent_entries. destruct (split_ok D) as [Hnd Hin].
  destruct (merge_split_ok (split_by_object D) ms s) as (ms' & l & E & H1 & H2 & H3 & H4);
    [done|intros o es Hi; by apply Hin|done|auto|].
  exists ms', l. do 3 (split; [done|]). split; [intros o Ho; apply H3; by right|].
  intros o Hlb Hm. apply H4; [|done|done]. apply list_elem_of_fmap. exists (o, of_object o D). split; [done|].
  apply Hin. split; [done|]. intros E0. apply Hm. by rewrite mine_of_object, E0.
Qed.
End Divergent.
End Store.
End LogFacts.
