(* ===== verification/PgLogMerge.v ===== *)
(** Merging an authoritative log: the composition of the phases of
    [PGLog::merge_log], and what the placement-group log promises. *)
From S2P Require Import Prelude Pg Hobject IntervalSet CleanRegions PgMissing PgLog PgLogFacts.
Module MergeFacts.
Import Hobject Eversion EversionFacts CleanRegions CleanRegionsFacts Entry Missing MissingFacts PgLog LogFacts.

(** ** Rewinding *)

Definition beyond (h : eversion_t) (e : pg_log_entry_t) : Prop :=
  Lt h (e_version e) /\ version h < version (e_version e).
Definition within (h : eversion_t) (e : pg_log_entry_t) : Prop :=
  Le (e_version e) h /\ version (e_version e) <= version h.

Lemma rewind_loop_ok h D : forall r acc, Forall (beyond h) D ->
  match r with [] => True | e :: _ => version (e_version e) <= version h end ->
  rewind_loop (reverse D ++ r) h acc = Some (r, D ++ acc).
Proof.
  induction D as [|d D IH] using rev_ind; intros r acc HD Hr.
  { cbn [reverse rev_append app]. destruct r as [|e r]; [done|]. simpl. by rewrite (proj2 (Z.leb_le _ _)). }
  apply Forall_app in HD as [HD Hd]. rewrite Forall_singleton in Hd. destruct Hd as [Hd1 Hd2].
  rewrite reverse_app. cbn [reverse rev_append app rewind_loop]. rewrite (proj2 (Z.leb_gt _ _)) by lia.
  unfold Lt in Hd1. rewrite Hd1. rewrite IH by done. by rewrite <- app_assoc.
Qed.

Lemma rewind_ok h kept D x : log x = kept ++ D -> Le (tail x) h -> Forall (beyond h) D -> Forall (within h) kept ->
  exists x', rewind_from_head h x = Some (D, x') /\ log x' = kept /\ head x' = h /\ tail x' = tail x /\
    index_ok x' /\ dups x' = dups x.
Proof.
  intros Hl Ht HD Hk. unfold rewind_from_head. unfold Le in Ht. rewrite Ht, Hl, reverse_app.
  rewrite rewind_loop_ok; [|done|].
  2: { destruct (reverse kept) as [|e r] eqn:E; [done|]. assert (e ∈ kept) as He.
       { apply elem_of_reverse. rewrite E. set_solver. } rewrite Forall_forall in Hk. by apply Hk. }
  cbn [mbind option_bind]. rewrite app_nil_r, reverse_involutive. eexists. split; [done|]. simpl. do 3 (split; [done|]).
  split; [|done]. split; [done|]. intros o. simpl. by destruct (index_is_ok (set_log kept x)) as [_ H].
Qed.

(** Advancing the rollback information changes neither entries nor index. *)
Lemma advance_ok to x b es x' : advance_can_rollback_to to x = (b, es, x') ->
  log x' = log x /\ head x' = head x /\ tail x' = tail x /\ indexed x' = indexed x /\ objects x' = objects x /\ dups x' = dups x.
Proof. unfold advance_can_rollback_to. intros [= <- <- <-]. destruct (_ || _); done. Qed.

Lemma skip_ok x : let x' := skip_can_rollback_to_to_head x in
  log x' = log x /\ head x' = head x /\ tail x' = tail x /\ dups x' = dups x.
Proof.
  unfold skip_can_rollback_to_to_head. destruct (advance_can_rollback_to (head x) x) as [[b es] x'] eqn:E.
  apply advance_ok in E. naive_solver.
Qed.

(** The search for the start point finds the entries above the head. *)
Lemma find_start_ok h lb R N : forall acc, Forall (fun e => Lt h (e_version e)) N ->
  match last R with Some e => Le (e_version e) h | None => True end ->
  find_start (reverse (R ++ N)) h lb acc =
  (match last R with Some e => max_ev lb (e_version e) | None => lb end, N ++ acc).
Proof.
  intros acc HN HR. rewrite reverse_app. revert acc. induction N as [|e N IH] using rev_ind; intros acc.
  - cbn [reverse rev_append app]. destruct (last R) as [e|] eqn:E.
    + apply last_Some in E as [R' ->]. rewrite reverse_app. cbn [reverse rev_append app find_start].
      unfold Le in HR. by rewrite HR.
    + apply last_None in E as ->. done.
  - apply Forall_app in HN as [HN He]. rewrite Forall_singleton in He. apply le_gt in He.
    rewrite reverse_app. cbn [reverse rev_append app find_start]. rewrite He. rewrite IH by done. by rewrite <- app_assoc.
Qed.

Lemma split_tail_ok t A B : Forall (fun e => Le (e_version e) t) A -> Forall (fun e => Lt t (e_version e)) B ->
  split_tail (A ++ B) t = (A, B).
Proof.
  intros HA HB. induction HA as [|e A He _ IH]; simpl.
  - destruct HB as [|e B He _]; [done|]. simpl. unfold Lt in He. by rewrite He.
  - apply lt_ge in He. rewrite He. by rewrite IH.
Qed.

Lemma dups_keep olog p : let '(_, p') := merge_log_dups olog p in
  missing_ p' = missing_ p /\ log (log_ p') = log (log_ p) /\ head (log_ p') = head (log_ p) /\ tail (log_ p') = tail (log_ p).
Proof. unfold merge_log_dups. repeat (case_match; simplify_eq/=; try done). Qed.

(** ** Two logs of one history *)

(** The point at which the logs [x] and [olog] part: the end of the shorter log
    when ours is longer, else the last entry of the other log that ours
    reaches. *)
Definition parting (x olog : IndexedLog) (shared : list pg_log_entry_t) : eversion_t :=
  if (head olog <? head x)%ev then head olog
  else let lb := max_ev (tail olog) (tail x) in
       match last shared with Some e => max_ev lb (e_version e) | None => lb end.

(** Our log has the entries [kept] and then [D]; the other log has [older]
    entries that we trimmed, the entries [shared] up to our head, and then
    [N].  [st] is the state of every object at the point where they part. *)
Record compatible (x olog : IndexedLog) (older kept D shared N : list pg_log_entry_t)
    (st : hobject_t -> option eversion_t) : Prop := {
  c_log : log x = kept ++ D;
  c_olog : log olog = older ++ shared ++ N;
  c_nonempty : head x <> zero \/ tail olog = zero;
  c_overlap : Le (tail olog) (head x) /\ Le (tail x) (head olog);
  c_tail : if (tail olog <? tail x)%ev
           then Forall (fun e => Le (e_version e) (tail x)) older /\
                Forall (fun e => Lt (tail x) (e_version e)) (shared ++ N)
           else older = [];
  c_shared : Forall (fun e => Le (e_version e) (head x)) shared;
  c_new : Forall (fun e => Lt (head x) (e_version e)) N;
  c_new_head : Forall (fun e => Le (e_version e) (head olog)) N;
  c_seq : seq_from (parting x olog shared) N;
  c_kept : Forall (within (parting x olog shared)) (older ++ kept);
  c_div : Forall (beyond (parting x olog shared)) D /\ Forall (fun e => Le (e_version e) (head x)) D;
  c_bound : Le (tail x) (parting x olog shared) /\ Le (tail olog) (parting x olog shared);
  c_same : head olog = head x -> D = [];
  c_sorted : StronglySorted later D;
  c_entries : Forall entry_ok (D ++ N);
  c_chain : forall o, chain (st o) (mine o D) /\ chain (st o) (mine o N);
  c_clone : forall o e, e ∈ list.tail (mine o D) -> is_clone e = false
}.

Section Merge.
Context {S : Type} `{!ObjectStore S}.
Context (x olog : IndexedLog) (older kept D shared N : list pg_log_entry_t) (st : hobject_t -> option eversion_t).
Hypothesis (Hc : compatible x olog older kept D shared N st).

Definition rest : list pg_log_entry_t := if (tail olog <? tail x)%ev then shared ++ N else log olog.

Lemma rest_eq : rest = shared ++ N.
Proof using Hc.
  unfold rest. pose proof (c_tail _ _ _ _ _ _ _ _ Hc) as Ht. pose proof (c_olog _ _ _ _ _ _ _ _ Hc) as Ho.
  destruct (_ <? _)%ev; [done|]. by rewrite Ho, Ht.
Qed.

(** After "extend on tail": the entries and versions. *)
Lemma extend_tail_ok info p p' info' r : log_ p = x -> extend_tail olog info p = (p', info', r) ->
  r = shared ++ N /\ log (log_ p') = (older ++ kept) ++ D /\ head (log_ p') = head x /\
  missing_ p' = missing_ p /\ last_backfill info' = last_backfill info /\ last_update info' = last_update info /\
  (tail (log_ p') = tail x \/ tail (log_ p') = tail olog) /\ last_complete info' = last_complete info.
Proof using Hc.
  intros Hp. unfold extend_tail. rewrite Hp. pose proof (c_tail _ _ _ _ _ _ _ _ Hc) as Ht.
  pose proof (c_olog _ _ _ _ _ _ _ _ Hc) as Ho. pose proof (c_log _ _ _ _ _ _ _ _ Hc) as Hl.
  destruct (tail olog <? tail x)%ev eqn:E.
  - destruct Ht as [H1 H2]. rewrite Ho, split_tail_ok by done. intros [= <- <- <-]. split; [done|]. simpl.
    assert (forall l y, log (foldl index_old y l) = log y /\ head (foldl index_old y l) = head y) as Hfold.
    { induction l as [|e l IH]; intros y; simpl; [done|]. destruct (IH (index_old y e)) as [-> ->].
      unfold index_old. repeat case_match; done. }
    destruct (Hfold older x) as [-> ->]. rewrite Hl, app_assoc. repeat (split; [done|]). split; [by right|done].
  - intros [= <- <- <-]. subst older. rewrite Ho, Hp, Hl. simpl. repeat (split; [done|]). split; [by left|done].
Qed.

Lemma kept_before_div e d : e ∈ older ++ kept -> d ∈ D -> later e d.
Proof using Hc.
  intros He Hd. pose proof (c_kept _ _ _ _ _ _ _ _ Hc) as Hk. pose proof (c_div _ _ _ _ _ _ _ _ Hc) as [Hv _].
  rewrite Forall_forall in Hk, Hv. destruct (Hk e He) as [H1 _]. destruct (Hv d Hd) as [H2 _]. by eapply Le_Lt_trans.
Qed.

Lemma div_before_new d e : e ∈ N -> d ∈ D -> later d e.
Proof using Hc.
  intros He Hd. pose proof (c_new _ _ _ _ _ _ _ _ Hc) as Hn. pose proof (c_div _ _ _ _ _ _ _ _ Hc) as [_ Hv].
  rewrite Forall_forall in Hn, Hv. eapply Le_Lt_trans; [by apply Hv|by apply Hn].
Qed.

Lemma diverges_ok y N' : (forall o, objects y !! o = last (mine o ((older ++ kept) ++ N'))) -> (forall e, e ∈ N' -> e ∈ N) ->
  diverges y (older ++ kept) D N' st.
Proof using Hc.
  intros Hi HN. split; try apply Hc; try done.
  - pose proof (c_entries _ _ _ _ _ _ _ _ Hc) as H. by apply Forall_app in H as [? _].
  - apply kept_before_div.
  - intros e d He Hd. apply div_before_new; auto.
Qed.

(** Before the merge: accurate for our own log. *)
Definition pre_ok (s : S) (ms : pg_missing_set) (info : pg_info_t) : Prop :=
  items_ok ms /\ (forall o, need_le ms o (head x)) /\
  forall o, Hobject.cmp o (last_backfill info) <= 0 -> accurate s ms o (after (st o) (mine o D)).

(** After the merge: accurate for the other log. *)
Definition post_ok (s : S) (ms : pg_missing_set) (info : pg_info_t) (p' : PGLog) (info' : pg_info_t) (l : list log_op) : Prop :=
  log (log_ p') = (older ++ kept) ++ N /\ head (log_ p') = head olog /\ last_update info' = head olog /\
  items_ok (missing_ p') /\ may_include_deletes (missing_ p') = may_include_deletes ms /\
  forall o, Hobject.cmp o (last_backfill info) <= 0 -> accurate (run_ops l s) (missing_ p') o (after (st o) (mine o N)).

(** Our log is longer: the entries beyond the other log are divergent. *)
Lemma rewind_case s p info : log (log_ p) = (older ++ kept) ++ D -> head (log_ p) = head x ->
  (tail (log_ p) = tail x \/ tail (log_ p) = tail olog) -> (head olog <? head x)%ev = true ->
  pre_ok s (missing_ p) info ->
  exists p' info' l, rewind_divergent_log (head olog) info p true = Some (p', info', l) /\
    post_ok s (missing_ p) info p' info' l.
Proof using Hc.
  intros Hl Hh Ht Hlt (Hms & Hneed & Hacc).
  assert (parting x olog shared = head olog) as Hpt by (unfold parting; by rewrite Hlt).
  assert (N = []) as HN.
  { pose proof (c_new _ _ _ _ _ _ _ _ Hc) as H1. pose proof (c_new_head _ _ _ _ _ _ _ _ Hc) as H2.
    destruct N as [|e N']; [done|]. inversion H1; inversion H2; subst.
    assert (Lt (head x) (head olog)) by by eapply Lt_Le_trans. assert (Lt (head x) (head x)) as Hxx by (by etrans).
    by destruct (irreflexivity Lt (head x)). }
  pose proof (c_kept _ _ _ _ _ _ _ _ Hc) as Hk. pose proof (c_div _ _ _ _ _ _ _ _ Hc) as [Hd _]. rewrite Hpt in *.
  unfold rewind_divergent_log. destruct (rewind_ok (head olog) (older ++ kept) D (log_ p)) as (x1 & -> & E1 & E2 & E3 & [E4 E5] & _);
    [done| |done|done|].
  { pose proof (c_bound _ _ _ _ _ _ _ _ Hc) as [B1 B2]. rewrite Hpt in *. by destruct Ht as [-> | ->]. }
  cbn [mbind option_bind].
  set (info1 := set_last_update (head olog) _). set (p1 := match D with [] => _ | _ => _ end).
  assert (log_ p1 = x1 /\ missing_ p1 = missing_ p) as [-> ->] by (unfold p1; by destruct D).
  assert (last_backfill info1 = last_backfill info) as Hlb by (unfold info1; simpl; by case_match).
  destruct (merge_divergent_ok x1 (older ++ kept) D [] info1 (can_rollback_to (log_ p)) st) with (ms := missing_ p) (s := s)
    as (ms' & l & -> & H1 & H2 & H3 & H4).
  - apply diverges_ok; [|intros e He; by apply not_elem_of_nil in He]. intros o. rewrite app_nil_r, E5, E1. done.
  - done.
  - intros o Ho _. rewrite Hlb in Ho. by apply Hacc.
  - cbn [mbind option_bind]. eexists _, _, _. split; [done|]. unfold post_ok. rewrite HN, app_nil_r. simpl.
    assert (log_ p1 = x1) as -> by (unfold p1; by destruct D). do 5 (split; [done|]). intros o Ho.
    destruct (decide (mine o D = [])) as [Hm|Hm].
    + destruct (H3 o Hm) as [U1 U2]. eapply accurate_ext; [exact U2|exact U1|exact H2|]. specialize (Hacc o Ho). by rewrite Hm in Hacc.
    + apply H4; [by rewrite Hlb|done].
Qed.
(** The other log is longer: its new entries are appended, then the divergent
    entries are merged. *)
Lemma extend_case s p oinfo info : log (log_ p) = (older ++ kept) ++ D -> head (log_ p) = head x ->
  (tail (log_ p) = tail x \/ tail (log_ p) = tail olog) -> (head x <? head olog)%ev = true ->
  pre_ok s (missing_ p) info ->
  exists p' info' l, extend_head olog (shared ++ N) (tail x) oinfo info p true = Some (p', info', l) /\
    post_ok s (missing_ p) info p' info' l.
Proof using Hc.
  intros Hl Hh Ht Hlt (Hms & Hneed & Hacc).
  pose proof (c_kept _ _ _ _ _ _ _ _ Hc) as Hk. pose proof (c_div _ _ _ _ _ _ _ _ Hc) as [Hd _].
  pose proof (c_bound _ _ _ _ _ _ _ _ Hc) as [B1 B2]. pose proof (c_seq _ _ _ _ _ _ _ _ Hc) as Hseq.
  pose proof (c_entries _ _ _ _ _ _ _ _ Hc) as [_ HeN]%Forall_app. pose proof (c_new _ _ _ _ _ _ _ _ Hc) as Hnew.
  unfold extend_head. rewrite Hh, find_start_ok; [|done|].
  2: { pose proof (c_shared _ _ _ _ _ _ _ _ Hc) as Hs. destruct (last shared) as [e|] eqn:El; [|done].
       rewrite Forall_forall in Hs. apply Hs. by apply last_Some_elem_of. }
  rewrite app_nil_r. cbn [mbind option_bind].
  replace (match last shared with Some e => max_ev (max_ev (tail olog) (tail x)) (e_version e) | None => max_ev (tail olog) (tail x) end)
    with (parting x olog shared).
  2: { unfold parting. assert ((head olog <? head x)%ev = false) as ->; [|done]. apply lt_ge. by apply Lt_Le. }
  set (h := parting x olog shared) in *. change (log_ (mark_dirty_from h p)) with (log_ p).
  destruct (rewind_ok h (older ++ kept) D (log_ p)) as (x1 & -> & E1 & E2 & E3 & Hix1 & _);
    [done|by destruct Ht as [-> | ->]|done|done|].
  cbn [mbind option_bind]. unfold log_roll_forward_to.
  destruct (advance_can_rollback_to (head x1) x1) as [[b es] x2] eqn:Ea.
  apply advance_ok in Ea as (F1 & F2 & F3 & F4 & F5 & _).
  assert (index_ok x2) as Hix2 by (destruct Hix1 as [G1 G2]; split; [congruence|]; intros o; by rewrite F5, F1).
  change (missing_ (mark_dirty_from h p)) with (missing_ p).
  set (s1 := run_ops (ops true (Rollforward <$> es)) s).
  assert (forall o, version_of s1 o = version_of s o) as Hs1 by (intros o; apply run_keep; intros; apply rollforward_keeps).
  unfold append_log_entries_update_missing.
  replace (match N with [] => true | e :: _ => (head x2 <? e_version e)%ev end) with true.
  2: { destruct N as [|e N']; [done|]. destruct Hseq as [Hv _]. rewrite F2, E2. done. }
  destruct (append_loop_ok (last_backfill info) false N x2 (missing_ p) s1 false) as (inv & x3 & ms3 & l2 & -> & L1 & L2 & L3 & Hix3 & Hall);
    [done|by rewrite F2, E2|done|done|].
  cbn [mbind option_bind]. rewrite F1, E1 in L1.
  destruct (merge_divergent_ok x3 (older ++ kept) D N info (can_rollback_to (log_ p)) st) with (ms := ms3) (s := run_ops l2 s1)
    as (ms4 & l3 & -> & H1 & H2 & H3 & H4).
  { apply diverges_ok; [|done]. intros o. destruct Hix3 as [_ ->]. by rewrite L1. }
  { apply Hall. }
  { intros o Ho _. unfold pending. destruct (last (mine o N)) as [r|] eqn:Er.
    - by apply (aa_settled _ _ _ _ _ _ Hall o r (head x)).
    - apply last_None in Er. destruct (aa_frame _ _ _ _ _ _ Hall o Er) as [U1 U2].
      eapply accurate_ext; [by rewrite U2, Hs1|exact U1|apply Hall|by apply Hacc]. }
  cbn [mbind option_bind]. eexists _, _, _. split; [done|]. unfold post_ok.
  destruct (skip_ok (set_head (head olog) x3)) as (S1 & S2 & _ & _). cbn [log_ with_missing with_log missing_ last_update set_last_user_version set_last_update].
  rewrite S1, S2. simpl. split; [done|]. split; [done|]. split; [done|]. split; [done|].
  split; [rewrite H2; apply Hall|]. intros o Ho. rewrite !run_ops_app. change (run_ops (Rollforward <$> es) s) with s1.
  destruct (decide (mine o D = [])) as [Hm|Hm]; [|by apply H4].
  destruct (H3 o Hm) as [U1 U2]. eapply accurate_ext; [exact U2|exact U1|exact H2|].
  apply (aa_accurate _ _ _ _ _ _ Hall); [done|apply (c_chain _ _ _ _ _ _ _ _ Hc)|].
  specialize (Hacc o Ho). rewrite Hm in Hacc. eapply accurate_ext; [apply Hs1|done|done|exact Hacc].
Qed.

(** Merging the other log. *)
Lemma merge_log_ok s p oinfo info : log_ p = x -> pre_ok s (missing_ p) info -> last_update info = head x ->
  exists p' info' l c, merge_log oinfo olog info p true = Some (p', info', l, c) /\
    post_ok s (missing_ p) info p' info' l.
Proof using Hc.
  intros Hp Hpre Hlu. unfold merge_log. rewrite Hp.
  pose proof (c_overlap _ _ _ _ _ _ _ _ Hc) as [O1 O2]. unfold Le in O1, O2. rewrite O1, O2.
  replace (negb (head x =? zero)%ev || (tail olog =? zero)%ev) with true.
  2: { symmetry. apply orb_true_iff. destruct (c_nonempty _ _ _ _ _ _ _ _ Hc) as [H|H].
       - left. apply negb_true_iff. by apply eqb_neq.
       - right. by apply eqb_spec. }
  cbn [andb]. destruct (extend_tail olog info p) as [[p1 info1] rest1] eqn:Ee.
  destruct (extend_tail_ok _ _ _ _ _ Hp Ee) as (-> & T1 & T2 & T3 & T4 & T5 & T6 & _).
  assert (pre_ok s (missing_ p1) info1) as Hpre1 by (unfold pre_ok; by rewrite T3, T4).
  assert (forall p2 i2 o2, post_ok s (missing_ p1) info1 p2 i2 o2 ->
    post_ok s (missing_ p) info (snd (merge_log_dups olog p2)) i2 o2) as Hend.
  { intros p2 i2 o2. pose proof (dups_keep olog p2) as Hdk. destruct (merge_log_dups olog p2) as [c p3]. simpl.
    destruct Hdk as (D1 & D2 & D3 & _). unfold post_ok. by rewrite D1, D2, D3, T3, T4. }
  rewrite T2. destruct (head olog <? head x)%ev eqn:Eh.
  - destruct (rewind_case s p1 info1 T1 T2 T6 Eh Hpre1) as (p2 & i2 & o2 & -> & Hpost). cbn [mbind option_bind].
    pose proof Hpost as (_ & Hh & _). rewrite Hh. assert ((head olog <? head olog)%ev = false) as -> by (apply lt_ge; change (Le (head olog) (head olog)); reflexivity).
    cbn [mbind option_bind]. specialize (Hend _ _ _ Hpost). destruct (merge_log_dups olog p2) as [c p3].
    eexists _, _, _, _. split; [done|]. by rewrite app_nil_r.
  - cbn [mbind option_bind]. rewrite T2. destruct (head x <? head olog)%ev eqn:Eg.
    + destruct (extend_case s p1 oinfo info1 T1 T2 T6 Eg Hpre1) as (p2 & i2 & o2 & -> & Hpost). cbn [mbind option_bind].
      specialize (Hend _ _ _ Hpost). destruct (merge_log_dups olog p2) as [c p3].
      eexists _, _, _, _. split; [done|]. done.
    + assert (head olog = head x) as Heq by (apply Le_antisym; by apply lt_ge).
      cbn [mbind option_bind]. assert (post_ok s (missing_ p1) info1 p1 info1 []) as Hpost.
      { pose proof (c_same _ _ _ _ _ _ _ _ Hc Heq) as HD. pose proof (c_new _ _ _ _ _ _ _ _ Hc) as N1.
        pose proof (c_new_head _ _ _ _ _ _ _ _ Hc) as N2. rewrite Heq in N2.
        assert (N = []) as HN.
        { destruct N as [|e N']; [done|]. inversion N1; inversion N2; subst.
          assert (Lt (head x) (head x)) as Hxx by (by eapply Lt_Le_trans). by destruct (irreflexivity Lt (head x)). }
        unfold post_ok. rewrite T1, HD, HN, T2, T5, Heq. destruct Hpre1 as (P1 & _ & P3).
        do 5 (split; [done|]). intros o Ho. specialize (P3 o Ho). rewrite HD in P3. exact P3. }
      specialize (Hend _ _ _ Hpost). destruct (merge_log_dups olog p1) as [c p3]. eexists _, _, _, _. split; [done|]. done.
Qed.
End Merge.
End MergeFacts.
