(* ===== verification/PgLogOps.v ===== *)
(** The rest of the placement-group log, src/ceph-15.2.17/src/osd/PGLog.{h,cc}
    and [pg_log_t] of osd/osd_types.{h,cc}: trimming with the entries kept for
    duplicate detection, the recovery pointer [complete_to], appending to a
    live log, splitting, merging and copying logs. *)
From S2P Require Import Prelude Pg Hobject IntervalSet CleanRegions PgMissing PgLog.
Import Bits.
Module PgLogOps.
Import Hobject Eversion CleanRegions Entry Missing PgLog.

(** ** Trimming *)

(** [pg_log_dup_t(e)], and one for each extra request of an entry. *)
Definition dup_of (e : pg_log_entry_t) : pg_log_dup_t := {|
  d_reqid := reqid e; d_version := e_version e; d_user_version := user_version e; d_return_code := return_code e |}.

Definition find_code (idx : nat) (l : list (nat * Z)) : option Z :=
  match List.find (fun p => Nat.eqb (fst p) idx) l with Some p => Some (snd p) | None => None end.

Definition extra_code (e : pg_log_entry_t) (idx : nat) : Z :=
  if 0 <=? return_code e then default (return_code e) (find_code idx (extra_reqid_return_codes e)) else return_code e.

Definition extra_dups (e : pg_log_entry_t) : list pg_log_dup_t :=
  imap (fun idx extra => {| d_reqid := fst extra; d_version := e_version e; d_user_version := snd extra;
                            d_return_code := extra_code e idx |}) (extra_reqids e).

Definition earliest_dup (newest tracked : Z) : Z := if newest <? tracked then 0 else add64 (sub64 newest tracked) 1.

(** One turn of the loop of [IndexedLog::trim], for the oldest entry [e]: the
    pointers move with the entries they point to. *)
Definition trim_riter (e : pg_log_entry_t) (x : IndexedLog) : nat :=
  match riter x with
  | O => O
  | S k => match log x !! k with
           | Some e' => if (e_version e =? e_version e')%ev then O else k
           | None => k
           end
  end.

Definition trim_complete (e : pg_log_entry_t) (rest : list pg_log_entry_t) (x : IndexedLog) : option nat :=
  match complete_to x with
  | None => None
  | Some k =>
    if match log x !! k with Some c => (e_version c <=? e_version e)%ev | None => false end
    then match rest with [] => None | _ => Some O end
    else Some (Nat.pred k)
  end.

Definition trim_entry (earliest : Z) (e : pg_log_entry_t) (rest : list pg_log_entry_t) (x : IndexedLog) (wf : eversion_t)
    : IndexedLog * eversion_t :=
  let keep := earliest <=? version (e_version e) in
  let r := trim_riter e x in
  let c := trim_complete e rest x in
  let x := unindex_entry e x in
  let x := if keep then set_dups (dups x ++ dup_of e :: extra_dups e) x else x in
  (set_complete c (set_riter r (set_log rest x)),
   if keep && (e_version e <? wf)%ev then e_version e else wf).

Fixpoint trim_loop (s : eversion_t) (earliest : Z) (l : list pg_log_entry_t) (x : IndexedLog) (t : list eversion_t)
    (wf : eversion_t) : IndexedLog * list eversion_t * eversion_t :=
  match l with
  | [] => (x, t, wf)
  | e :: l' =>
    if (s <? e_version e)%ev then (x, t, wf)
    else let '(x, wf) := trim_entry earliest e l' x wf in trim_loop s earliest l' x (t ++ [e_version e]) wf
  end.

(** [while (!dups.empty())]. *)
Fixpoint trim_dups (earliest : Z) (l : list pg_log_dup_t) (t : list eversion_t) : list pg_log_dup_t * list eversion_t :=
  match l with
  | [] => ([], t)
  | d :: l' => if earliest <=? version (d_version d) then (l, t) else trim_dups earliest l' (t ++ [d_version d])
  end.

(** [IndexedLog::trim]; the log, the versions and dups removed, and
    [write_from_dups].  An empty log has no newest entry to read. *)
Definition log_trim (tracked : Z) (s : eversion_t) (x : IndexedLog) (t td : list eversion_t) (wf : eversion_t)
    : option (IndexedLog * list eversion_t * list eversion_t * eversion_t) :=
  ceph_assert (s <=? can_rollback_to x)%ev ;;
  newest ← last (log x);
  let earliest := earliest_dup (version (e_version newest)) tracked in
  let '(x, t, wf) := trim_loop s earliest (log x) x t wf in
  let '(d, td) := trim_dups earliest (dups x) td in
  let x := set_dups d x in
  Some (if (tail x <? s)%ev then set_tail s x else x, t, td, wf).

(** [PGLog::trim]. *)
Definition trim (tracked : Z) (trim_to : eversion_t) (info : pg_info_t) (transaction_applied async : bool) (p : PGLog)
    : option (PGLog * pg_info_t) :=
  if (tail (log_ p) <? trim_to)%ev then
    ceph_assert (negb (transaction_applied && negb async && (num_missing (missing_ p) =? 0))
                 || (trim_to <=? last_complete info)%ev) ;;
    '(x, t, td, wf) ← log_trim tracked trim_to (log_ p) (trimmed p) (trimmed_dups p) (write_from_dups p);
    Some (with_trimmed t td wf (with_log x p), set_log_tail (tail x) info)
  else Some (p, info).

(** ** The recovery pointer *)

(** [while (log.complete_to != log.log.end())] of [recover_got], over the
    entries from [complete_to]: how far it moves, and [last_complete]. *)
Fixpoint raise_complete (l : list pg_log_entry_t) (oldest lc : eversion_t) : nat * eversion_t :=
  match l with
  | [] => (O, lc)
  | e :: l =>
    if (oldest <=? e_version e)%ev then (O, lc)
    else let '(n, lc) := raise_complete l oldest (max_ev lc (e_version e)) in (S n, lc)
  end.

Definition at_index (n : nat) (l : list pg_log_entry_t) : option nat := if Nat.ltb n (length l) then Some n else None.

Definition recover_got (oid : hobject_t) (v : eversion_t) (info : pg_info_t) (p : PGLog) : option (PGLog * pg_info_t) :=
  '(p, info) ←
    if is_missing_at (missing_ p) oid v then
      ms ← got oid v (missing_ p);
      let empty := negb (have_missing ms) in
      let x := if empty then set_complete None (log_ p) else log_ p in
      let info := if empty then set_last_complete (last_update info) info else info in
      oldest ← get_oldest_need ms;
      let '(c, lc) :=
        match complete_to x with
        | None => (None, last_complete info)
        | Some k => let '(n, lc) := raise_complete (drop k (log x)) oldest (last_complete info) in
                    (at_index (k + n) (log x), lc)
        end in
      Some (with_missing ms (with_log (set_complete c x) p), set_last_complete lc info)
    else Some (p, info);
  ceph_assert (v <=? can_rollback_to (log_ p))%ev ;;
  Some (p, info).

(** [while (log.complete_to->version < oldest_need)] of [reset_complete_to]:
    the position of the first entry not below, which must exist. *)
Fixpoint first_not_below (l : list pg_log_entry_t) (oldest : eversion_t) : option nat :=
  match l with
  | [] => None
  | e :: l => if (e_version e <? oldest)%ev then n ← first_not_below l oldest; Some (S n) else Some O
  end.

(** [reset_complete_to]; [None] for the info stands for the null pointer. *)
Definition reset_complete_to (info : option pg_info_t) (p : PGLog) : option (PGLog * option pg_info_t) :=
  let x := log_ p in
  match log x with
  | [] => Some (p, info)
  | _ =>
    oldest ← get_oldest_need (missing_ p);
    k ← if (oldest =? zero)%ev then Some O else first_not_below (log x) oldest;
    let p := with_log (set_complete (Some k) x) p in
    match info with
    | None => Some (p, None)
    | Some info =>
      lc ← match k with
           | O => Some zero
           | S k => e ← log x !! k; Some (e_version e)
           end;
      Some (p, Some (set_last_complete lc info))
    end
  end.

Definition set_last_requested (v : Z) (x : IndexedLog) : IndexedLog := {|
  head := head x; tail := tail x; can_rollback_to := can_rollback_to x;
  rollback_info_trimmed_to := rollback_info_trimmed_to x; log := log x; dups := dups x; indexed := indexed x;
  objects := objects x; riter := riter x; complete_to := complete_to x; last_requested := v |}.

Definition activate_not_complete (info : pg_info_t) (p : PGLog) : option (PGLog * pg_info_t) :=
  '(p, i) ← reset_complete_to (Some info) p;
  info ← i;
  Some (with_log (set_last_requested 0 (log_ p)) p, info).

(** [append_new_log_entries]. *)
Definition append_new_log_entries (last_backfill : hobject_t) (entries : list pg_log_entry_t) (rollbacker : bool) (p : PGLog)
    : option (bool * PGLog * list log_op) :=
  '(inv, x, ms, o) ← append_log_entries_update_missing last_backfill entries true (Some (log_ p)) (missing_ p) rollbacker;
  x ← x;
  let p := with_missing ms (with_log x p) in
  match entries with
  | [] => Some (inv, p, o)
  | e :: _ =>
    let p := mark_writeout_from (e_version e) p in
    if is_lost_delete e then '(p, _) ← reset_complete_to None p; Some (inv, p, o)
    else Some (inv, p, o)
  end.

(** ** Splitting, merging, replacing *)

(** [IndexedLog(pg_log_t)]. *)
Definition indexed_log (h t crt ritt : eversion_t) (l : list pg_log_entry_t) (d : list pg_log_dup_t) : IndexedLog :=
  index (reset_riter {| head := h; tail := t; can_rollback_to := crt; rollback_info_trimmed_to := ritt; log := l;
    dups := d; indexed := false; objects := ∅; riter := length l; complete_to := None; last_requested := 0 |}).

(** [pg_log_t::split_out_child] and [IndexedLog::split_out_child].  The entry
    [complete_to] pointed to was freed: the callers set it again with
    [reset_complete_to], and it is [end()] here until then. *)
Definition split_out_child (child_seed split_bits : Z) (x : IndexedLog) : IndexedLog * IndexedLog :=
  let mine e := Z.land (Hobject.hash (soid e)) (split_mask split_bits) =? child_seed in
  let target := indexed_log (head x) (tail x) (can_rollback_to x) (rollback_info_trimmed_to x)
                  (List.filter mine (log x)) (dups x) in
  let x := set_complete None (set_log (List.filter (fun e => negb (mine e)) (log x)) x) in
  (reset_riter (index x), target).

(** [PGLog::split_into]. *)
Definition split_into (child_seed split_bits : Z) (p op : PGLog) : option (PGLog * PGLog) :=
  let '(x, ox) := split_out_child child_seed split_bits (log_ p) in
  '(ms, oms) ← Missing.split_into child_seed split_bits (missing_ p) (missing_ op);
  let all q := mark_dirty_to_dups Eversion.max (mark_dirty_to Eversion.max q) in
  let oms := if may_include_deletes ms
             then {| missing := missing oms; rmissing := rmissing oms; tracker := tracker oms; may_include_deletes := true |}
             else oms in
  Some (all (with_missing ms (with_log x p)), all (with_missing oms (with_log ox op))).

(** A [multimap] keeps equal keys in the order of insertion. *)
Fixpoint insert_dup (d : pg_log_dup_t) (l : list pg_log_dup_t) : list pg_log_dup_t :=
  match l with
  | [] => [d]
  | d' :: l' => if (d_version d <? d_version d')%ev then d :: l else d' :: insert_dup d l'
  end.

(** [pg_log_t::merge_from] and [PGLog::merge_from]. *)
Definition log_merge_from (slogs : list IndexedLog) (last_update : eversion_t) (x : IndexedLog) : IndexedLog :=
  let sorted := foldl (fun l d => insert_dup d l) [] (dups x ++ concat (map dups slogs)) in
  set_rollback last_update last_update
    (set_tail last_update (set_head last_update (set_dups sorted (set_log [] x)))).

Definition mark_log_for_rewrite (p : PGLog) : PGLog :=
  mark_dirty_from_dups zero (mark_dirty_to_dups Eversion.max (mark_dirty_from zero (mark_dirty_to Eversion.max p))).

Definition merge_from (sources : list PGLog) (last_update : eversion_t) (p : PGLog) : PGLog :=
  let p := with_missing (clear (missing_ p)) p in
  mark_log_for_rewrite (with_log (index (log_merge_from (map log_ sources) last_update (set_index false ∅ (log_ p)))) p).

(** [zero], [clear] and [claim_log_and_clear_rollback_info] of [IndexedLog]. *)
Definition rollback_trimmed (x : IndexedLog) : bool :=
  (rollback_info_trimmed_to x =? head x)%ev && Nat.eqb (riter x) (length (log x)).

Definition log_zero (x : IndexedLog) : option IndexedLog :=
  ceph_assert (rollback_trimmed x) ;;
  Some {| head := zero; tail := zero; can_rollback_to := zero; rollback_info_trimmed_to := zero; log := []; dups := [];
          indexed := false; objects := ∅; riter := O; complete_to := None; last_requested := 0 |}.

Definition log_clear (x : IndexedLog) : option IndexedLog := log_zero (skip_can_rollback_to_to_head x).

Definition claim_log_and_clear_rollback_info (o x : IndexedLog) : option IndexedLog :=
  ceph_assert (rollback_trimmed x) ;;
  Some (index (skip_can_rollback_to_to_head
    (indexed_log (head o) (tail o) (can_rollback_to o) (rollback_info_trimmed_to o) (log o) (dups o)))).

Definition reset_backfill_claim_log (o : IndexedLog) (p : PGLog) : option (PGLog * list log_op) :=
  let '(ops, x) := trim_rollback_info_to (head (log_ p)) (log_ p) in
  x ← claim_log_and_clear_rollback_info o x;
  Some (mark_dirty_to_dups Eversion.max (mark_dirty_to Eversion.max
          (with_missing (clear (missing_ p)) (with_log x p))), ops).

(** [undirty] and [PGLog::clear]. *)
Definition undirty (p : PGLog) : PGLog := {|
  missing_ := flush (missing_ p); log_ := log_ p; dirty_to := zero; dirty_from := Eversion.max;
  writeout_from := Eversion.max; trimmed := []; dirty_to_dups := zero; dirty_from_dups := Eversion.max;
  write_from_dups := Eversion.max; trimmed_dups := []; dirty_log := false |}.

Definition pglog_clear (p : PGLog) : option PGLog :=
  x ← log_clear (log_ p);
  Some (undirty (with_missing (clear (missing_ p)) (with_log x p))).

(** ** Copying and scanning *)

(** The entries newer than [v], from the newest back, and the tail. *)
Fixpoint copy_loop (r : list pg_log_entry_t) (stop : nat -> pg_log_entry_t -> bool) (n : nat) (otail t : eversion_t)
    (acc : list pg_log_entry_t) : option (list pg_log_entry_t * eversion_t) :=
  match r with
  | [] => Some (acc, t)
  | e :: r =>
    ceph_assert (otail <? e_version e)%ev ;;
    if stop n e then Some (acc, e_version e) else copy_loop r stop (S n) otail t (e :: acc)
  end.

(** The loop of [_handle_dups] over the other log's entries. *)
Fixpoint dups_below (l : list pg_log_entry_t) (otail ttail : eversion_t) (earliest : Z) : option (list pg_log_dup_t) :=
  match l with
  | [] => Some []
  | e :: l =>
    ceph_assert (otail <? e_version e)%ev ;;
    if (ttail <? e_version e)%ev then Some []
    else d ← dups_below l otail ttail earliest;
         Some (if earliest <=? version (e_version e) then dup_of e :: d else d)
  end.

Definition _handle_dups (tracked : Z) (target other : IndexedLog) : option IndexedLog :=
  let earliest := earliest_dup (version (head target)) tracked in
  d ← dups_below (log other) (tail other) (tail target) earliest;
  Some (set_dups (dups target ++ List.filter (fun d => earliest <=? version (d_version d)) (dups other) ++ d) target).

Definition copied (tracked : Z) (stop : nat -> pg_log_entry_t -> bool) (other x : IndexedLog) : option IndexedLog :=
  let x := set_rollback (can_rollback_to other) (rollback_info_trimmed_to x) x in
  '(l, t) ← copy_loop (reverse (log other)) stop O (tail other) (tail other) (log x);
  _handle_dups tracked (set_tail t (set_head (head other) (set_log l x))) other.

Definition copy_after (tracked : Z) (other : IndexedLog) (v : eversion_t) (x : IndexedLog) : option IndexedLog :=
  copied tracked (fun _ e => (e_version e <=? v)%ev) other x.
Definition copy_up_to (tracked : Z) (other : IndexedLog) (max : Z) (x : IndexedLog) : option IndexedLog :=
  copied tracked (fun n _ => max <=? Z.of_nat n) other x.

(** [has_write_since] and [scan_log_after]; [get_head] drops the snapshot. *)
Definition obj_get_head (o : hobject_t) : hobject_t := {|
  oid := oid o; snap := Hobject.CEPH_NOSNAP; hash := hash o; Hobject.max := Hobject.max o; nibblewise_key_cache := nibblewise_key_cache o;
  hash_reverse_bits := hash_reverse_bits o; pool := pool o; nspace := nspace o; key := key o |}.

Fixpoint write_since (r : list pg_log_entry_t) (oid : hobject_t) (bound : eversion_t) : bool :=
  match r with
  | [] => false
  | e :: r =>
    if (e_version e <=? bound)%ev then false
    else if bool_decide (obj_get_head (soid e) = obj_get_head oid) then true else write_since r oid bound
  end.
Definition has_write_since (oid : hobject_t) (bound : eversion_t) (x : IndexedLog) : bool :=
  write_since (reverse (log x)) oid bound.

Definition scan_log_after (bound : eversion_t) (x : IndexedLog) : list pg_log_entry_t :=
  drop (length (drop_above (reverse (log x)) bound)) (log x).
End PgLogOps.

(** Small logs for the examples: writes to head objects named "a" in pool 7. *)
Module LogSamples.
Import Hobject Eversion IntervalSet.interval_set CleanRegions Entry Missing PgLog PgLogOps.

Definition obj (h : Z) : hobject_t := mk_hobject [97] [] CEPH_NOSNAP h 7 [].

(** A write of version [ep'v] to the object with hash [h], over [pep'pv]. *)
Definition wr (h ep v pep pv : Z) : pg_log_entry_t := {|
  op := MODIFY; soid := obj h; reqid := 100 + v; extra_reqids := []; extra_reqid_return_codes := [];
  e_version := ev ep v; prior_version := ev pep pv; user_version := v; return_code := 0; can_rollback := true;
  e_clean_regions := {| new_object := false; clean_omap := true; clean_offsets := mk 0 [] |} |}.

Definition no_missing : pg_missing_set := {| missing := ∅; rmissing := ∅; tracker := ∅; may_include_deletes := false |}.

(** A log that may not roll back beyond its head. *)
Definition sample_log (t h : eversion_t) (l : list pg_log_entry_t) : IndexedLog := indexed_log h t h h l [].

Definition clean_log (x : IndexedLog) (ms : pg_missing_set) : PGLog := {|
  missing_ := ms; log_ := x; dirty_to := zero; dirty_from := Eversion.max; writeout_from := Eversion.max; trimmed := [];
  dirty_to_dups := zero; dirty_from_dups := Eversion.max; write_from_dups := Eversion.max; trimmed_dups := [];
  dirty_log := false |}.

Definition sample_info (lu lc : eversion_t) : pg_info_t := {|
  last_update := lu; last_complete := lc; last_backfill := hobject_max; log_tail := zero; last_user_version := 0 |}.

(** The missing set of objects with their needs and nothing at hand. *)
Definition sample_missing (l : list (hobject_t * eversion_t)) : option pg_missing_set :=
  foldl (fun r p => ms ← r; Missing.add (fst p) (snd p) zero false ms) (Some no_missing) l.
End LogSamples.
