(* ===== verification/PgLogRecovery.v ===== *)
(** Trimming, recovery and splitting of a placement-group log: what
    [IndexedLog::trim], [PGLog::recover_got], [reset_complete_to] and
    [PGLog::split_into] do to the entries, the index, the recovery pointer and
    the requests remembered for duplicate detection. *)
From S2P Require Import Prelude Pg Hobject IntervalSet CleanRegions PgMissing PgLog PgLogFacts PgLogOps.
Module TrimFacts.
Import Hobject Eversion EversionFacts CleanRegions Entry Missing MissingFacts PgLog LogFacts PgLogOps.

(** The records of requests a log can answer: those of its entries, and the
    dups. *)
Definition records_of (e : pg_log_entry_t) : list pg_log_dup_t := dup_of e :: extra_dups e.
Definition answers (x : IndexedLog) (d : pg_log_dup_t) : Prop :=
  (exists e, e ∈ log x /\ d ∈ records_of e) \/ d ∈ dups x.

Lemma records_version e d : d ∈ records_of e -> d_version d = e_version e.
Proof.
  intros [->|H]%elem_of_cons; [done|]. unfold extra_dups in H. apply list_elem_of_lookup in H as [i H].
  rewrite list_lookup_imap in H. destruct (extra_reqids e !! i); simplify_eq/=. done.
Qed.

(** The pointers of a log point into it. *)
Definition pointers_ok (x : IndexedLog) : Prop :=
  (riter x <= length (log x))%nat /\ match complete_to x with Some k => (k < length (log x))%nat | None => True end.

(** The index after the oldest entry is taken off. *)
Lemma unindex_ok e rest x : log x = e :: rest -> index_ok x -> StronglySorted later (e :: rest) ->
  indexed (unindex_entry e x) = true /\ forall o, objects (unindex_entry e x) !! o = last (mine o rest).
Proof.
  intros Hl [Hi Ho] Hs. unfold unindex_entry. rewrite Hi. apply StronglySorted_inv in Hs as [_ Hs]. rewrite Forall_forall in Hs.
  assert (forall o, mine o (e :: rest) = if decide (concerns o e) then e :: mine o rest else mine o rest) as Hm
    by (intros o; apply filter_cons).
  assert (forall o e0, last (mine o rest) = Some e0 -> (e_version e0 =? e_version e)%ev = false) as Hne.
  { intros o e0 H. apply last_Some_elem_of, list_elem_of_filter in H as [_ H]. apply eqb_neq. intros E. specialize (Hs e0 H).
    unfold later in Hs. rewrite E in Hs. by destruct (irreflexivity Lt (e_version e)). }
  assert (forall o, o <> soid e -> mine o (e :: rest) = mine o rest) as Hoth.
  { intros o Hne'. rewrite Hm, decide_False; [done|]. intros [<- _]. done. }
  pose proof (Ho (soid e)) as He. rewrite Hl, Hm in He.
  destruct (last (mine (soid e) rest)) as [e0|] eqn:El.
  - assert (objects x !! soid e = Some e0) as E0.
    { rewrite He. case_decide; [|done]. destruct (mine (soid e) rest) eqn:Er; [done|]. by rewrite last_cons_cons. }
    rewrite E0, (Hne _ _ El). split; [done|]. intros o. destruct (decide (o = soid e)) as [->|Hd]; [congruence|].
    by rewrite Ho, Hl, Hoth.
  - apply last_None in El. rewrite El in He. case_decide as Hc.
    + rewrite He. cbn [last]. rewrite (proj2 (eqb_spec _ _) eq_refl). split; [done|]. intros o. simpl.
      destruct (decide (o = soid e)) as [->|Hd]; [by rewrite lookup_delete_eq, El|].
      by rewrite lookup_delete_ne, Ho, Hl, Hoth.
    + rewrite He. cbn [last]. split; [done|]. intros o. destruct (decide (o = soid e)) as [->|Hd]; [by rewrite He, El|].
      by rewrite Ho, Hl, Hoth.
Qed.

(** What trimming leaves, when it removes the entries [gone]. *)
Record trimmed_by (gone : list pg_log_entry_t) (earliest : Z) (x x' : IndexedLog) : Prop := {
  tb_log : log x = gone ++ log x';
  tb_dups : dups x' = dups x ++ concat (map (fun e => if earliest <=? version (e_version e) then records_of e else []) gone);
  tb_index : index_ok x';
  tb_versions : head x' = head x /\ tail x' = tail x /\ can_rollback_to x' = can_rollback_to x;
  tb_riter : riter x' = (riter x - length gone)%nat;
  tb_complete : complete_to x' =
    match complete_to x with Some k => at_index (k - length gone) (log x') | None => None end
}.

Lemma trim_entry_ok earliest e rest x wf : log x = e :: rest -> index_ok x -> StronglySorted later (e :: rest) ->
  pointers_ok x -> let '(x', _) := trim_entry earliest e rest x wf in
  trimmed_by [e] earliest x x' /\ log x' = rest /\ pointers_ok x'.
Proof.
  intros Hl Hix Hs [Hr Hc]. destruct (unindex_ok e rest x Hl Hix Hs) as [Hi1 Hi2].
  pose proof Hs as [_ Hlt]%StronglySorted_inv. rewrite Forall_forall in Hlt.
  assert (forall k e', rest !! k = Some e' -> Lt (e_version e) (e_version e')) as Hlk
    by (intros k e' H; by apply Hlt, (list_elem_of_lookup_2 _ k)).
  assert (trim_riter e x = (riter x - 1)%nat) as Er.
  { unfold trim_riter. destruct (riter x) as [|k]; [done|]. rewrite Hl in *. destruct k as [|k]; simpl.
    - by rewrite (proj2 (eqb_spec _ _) eq_refl).
    - destruct (rest !! k) as [e'|] eqn:E; [|lia]. assert ((e_version e =? e_version e')%ev = false) as ->; [|lia].
      apply eqb_neq. intros Ev. specialize (Hlk _ _ E). rewrite Ev in Hlk. by destruct (irreflexivity Lt (e_version e')). }
  assert (trim_complete e rest x = match complete_to x with Some k => at_index (k - 1) rest | None => None end) as Ec.
  { unfold trim_complete, at_index. destruct (complete_to x) as [k|]; [|done]. rewrite Hl in *. destruct k as [|k]; simpl.
    - assert ((e_version e <=? e_version e)%ev = true) as -> by (change (Le (e_version e) (e_version e)); reflexivity).
      by destruct rest.
    - simpl in Hc. destruct (lookup_lt_is_Some_2 rest k) as [e' E]; [lia|]. rewrite E.
      specialize (Hlk _ _ E). apply le_gt in Hlk. rewrite Hlk. rewrite (proj2 (Nat.ltb_lt _ _)) by lia. f_equal. lia. }
  assert (forall y, unindex_entry e x = y -> head y = head x /\ tail y = tail x /\ can_rollback_to y = can_rollback_to x /\
     dups y = dups x) as Hy.
  { intros y <-. unfold unindex_entry. repeat case_match; done. }
  specialize (Hy _ eq_refl) as (Y1 & Y2 & Y3 & Y4).
  unfold trim_entry. rewrite Er, Ec. set (y := unindex_entry e x) in *. split; [split|].
  - done.
  - simpl. rewrite app_nil_r, <- Y4. destruct (earliest <=? _); [done|]. by rewrite app_nil_r.
  - destruct (earliest <=? _); done.
  - destruct (earliest <=? _); done.
  - done.
  - done.
  - split; [done|]. split; simpl.
    + rewrite Hl in Hr. simpl in Hr. lia.
    + destruct (complete_to x) as [k|]; [|done]. unfold at_index. destruct (Nat.ltb _ _) eqn:E; [|done]. by apply Nat.ltb_lt.
Qed.

Lemma trimmed_cons e gone earliest x x1 x2 : (match complete_to x with Some k => (k < length (log x))%nat | None => True end) ->
  trimmed_by [e] earliest x x1 -> trimmed_by gone earliest x1 x2 -> trimmed_by (e :: gone) earliest x x2.
Proof.
  intros Hk [A1 A2 A3 (A4 & A5 & A6) A7 A8] [B1 B2 B3 (B4 & B5 & B6) B7 B8]. split.
  - rewrite A1, B1. done.
  - rewrite B2, A2, <- app_assoc. simpl. by rewrite app_nil_r.
  - done.
  - split_and!; congruence.
  - rewrite B7, A7. simpl. lia.
  - rewrite B8, A8. destruct (complete_to x) as [k|]; [|done]. simpl in *. unfold at_index. rewrite A1 in Hk. simpl in Hk.
    replace (k - S (length gone))%nat with (k - 1 - length gone)%nat by lia.
    destruct (Nat.ltb (k - 1) (length (log x1))) eqn:E; [done|]. apply Nat.ltb_ge in E.
    destruct (Nat.ltb _ _) eqn:E2; [|done]. apply Nat.ltb_lt in E2. rewrite B1, length_app in E. lia.
Qed.

Lemma trim_loop_ok s earliest l : forall x t wf, log x = l -> index_ok x -> StronglySorted later l -> pointers_ok x ->
  exists gone x' wf', trim_loop s earliest l x t wf = (x', t ++ map e_version gone, wf') /\
    trimmed_by gone earliest x x' /\ Forall (fun e => Le (e_version e) s) gone /\ Forall (fun e => Lt s (e_version e)) (log x').
Proof.
  induction l as [|e l IH]; intros x t wf Hl Hix Hs Hp; cbn [trim_loop].
  { exists [], x, wf. rewrite app_nil_r. split; [done|]. rewrite Hl. split; [|by split]. split; try done.
    - by rewrite app_nil_r.
    - simpl. lia.
    - destruct Hp as [_ Hc]. simpl. unfold at_index. destruct (complete_to x) as [k|]; [|done].
      rewrite Nat.sub_0_r, (proj2 (Nat.ltb_lt _ _)) by lia. done. }
  destruct (s <? e_version e)%ev eqn:E.
  - exists [], x, wf. rewrite app_nil_r. split; [done|]. rewrite Hl. split; [split; try done|].
    + by rewrite app_nil_r.
    + simpl. lia.
    + destruct Hp as [_ Hc]. simpl. unfold at_index. destruct (complete_to x) as [k|]; [|done].
      rewrite Nat.sub_0_r, (proj2 (Nat.ltb_lt _ _)) by lia. done.
    + split; [done|]. apply StronglySorted_inv in Hs as [_ Hs]. constructor; [done|].
      eapply Forall_impl; [exact Hs|]. intros e' He'. transitivity (e_version e); [exact E|exact He'].
  - pose proof (trim_entry_ok earliest e l x wf Hl Hix Hs Hp) as H. destruct (trim_entry earliest e l x wf) as [x1 wf1].
    destruct H as (Htb & Hl1 & Hp1). destruct (IH x1 (t ++ [e_version e]) wf1) as (gone & x' & wf' & -> & H1 & H2 & H3);
      [done|apply Htb|apply StronglySorted_inv in Hs; apply Hs|done|].
    exists (e :: gone), x', wf'. rewrite <- app_assoc. split; [done|]. split; [|split; [|done]].
    + eapply trimmed_cons; [apply Hp|done|done].
    + constructor; [by apply lt_ge|done].
Qed.

Lemma trim_dups_ok earliest l : forall t, exists gone kept t',
  trim_dups earliest l t = (kept, t') /\ l = gone ++ kept /\ t' = t ++ map d_version gone /\
  Forall (fun d => version (d_version d) < earliest) gone /\
  match kept with [] => True | d :: _ => earliest <= version (d_version d) end.
Proof.
  induction l as [|d l IH]; intros t; cbn [trim_dups].
  { exists [], [], t. cbn [map app]. rewrite app_nil_r. split_and!; [done..|constructor|done]. }
  destruct (earliest <=? _) eqn:E; zbool.
  - exists [], (d :: l), t. cbn [map app]. rewrite app_nil_r. split_and!; [done..|constructor|lia].
  - destruct (IH (t ++ [d_version d])) as (gone & kept & t' & -> & -> & -> & H1 & H2).
    exists (d :: gone), kept, (t ++ map d_version (d :: gone)). rewrite <- app_assoc. split_and!; try done. by constructor.
Qed.

(** [IndexedLog::trim] returns; what it leaves. *)
Lemma log_trim_ok tracked s x t td wf newest : last (log x) = Some newest -> Le s (can_rollback_to x) ->
  index_ok x -> StronglySorted later (log x) -> pointers_ok x ->
  let earliest := earliest_dup (version (e_version newest)) tracked in
  exists x' t' td' wf' gone x1 dgone, log_trim tracked s x t td wf = Some (x', t', td', wf') /\
    trimmed_by gone earliest x x1 /\ Forall (fun e => Le (e_version e) s) gone /\ Forall (fun e => Lt s (e_version e)) (log x1) /\
    dups x1 = dgone ++ dups x' /\ Forall (fun d => version (d_version d) < earliest) dgone /\
    match dups x' with [] => True | d :: _ => earliest <= version (d_version d) end /\
    log x' = log x1 /\ index_ok x' /\ head x' = head x /\ tail x' = max_ev (tail x) s /\
    riter x' = riter x1 /\ complete_to x' = complete_to x1 /\
    t' = t ++ map e_version gone /\ td' = td ++ map d_version dgone.
Proof.
  intros Hn Hs Hix Hso Hp earliest. unfold log_trim. unfold Le in Hs. rewrite Hs, Hn. cbn [mbind option_bind].
  fold earliest. destruct (trim_loop_ok s earliest (log x) x t wf eq_refl Hix Hso Hp) as (gone & x1 & wf1 & -> & Htb & H1 & H2).
  destruct (trim_dups_ok earliest (dups x1) td) as (dgone & kept & td' & -> & E & -> & H3 & H4).
  destruct (tb_index _ _ _ _ Htb) as [I1 I2]. destruct (tb_versions _ _ _ _ Htb) as (V1 & V2 & V3).
  eexists _, _, _, _, gone, x1, dgone. split; [done|]. unfold max_ev. simpl tail. rewrite V2.
  destruct (tail x <? s)%ev; simpl; (split; [done|]); do 2 (split; [done|]); rewrite E; (split; [done|]);
    repeat (split; [done|]); done.
Qed.
(** The records of recent requests stay. *)
Lemma trimmed_answers gone earliest x x1 x' dgone : trimmed_by gone earliest x x1 -> log x' = log x1 -> dups x1 = dgone ++ dups x' ->
  Forall (fun d => version (d_version d) < earliest) dgone ->
  forall d, answers x d -> earliest <= version (d_version d) -> answers x' d.
Proof.
  intros [T1 T2 _ _ _ _] El Ed Hlt d Hd Hv. assert (d ∈ dups x1 -> answers x' d) as Hdup.
  { rewrite Ed. intros [H|H]%elem_of_app; [|by right]. rewrite Forall_forall in Hlt. specialize (Hlt _ H). lia. }
  destruct Hd as [(e & He & Hr)|Hd]; [|apply Hdup; rewrite T2; set_solver].
  rewrite T1, <- El in He. apply elem_of_app in He as [He|He]; [|left; eauto].
  apply Hdup. rewrite T2. apply elem_of_app. right. apply list_elem_of_In, in_concat. eexists.
  split; [apply in_map_iff; exists e; split; [reflexivity|by apply list_elem_of_In]|].
  rewrite (records_version e d Hr) in Hv. rewrite (proj2 (Z.leb_le _ _) Hv). by apply list_elem_of_In.
Qed.
End TrimFacts.

Module TrimTheorems.
Import Hobject Eversion EversionFacts CleanRegions Entry Missing MissingFacts PgLog LogFacts PgLogOps LogSamples TrimFacts.

(** trimming a log up to [s] removes exactly the entries up to [s], keeps
    the index of the latest entry per object exact, raises the tail, and moves
    [complete_to] with the entry it points to, or to the new oldest entry when
    that entry was trimmed.  It forgets no request of the last [tracked]
    versions: a record the log could answer before, from an entry or a dup, it
    can answer after, with the same version, user version and return code. *)
Theorem trim_correct tracked s x t td wf newest :
  last (log x) = Some newest -> Le s (can_rollback_to x) -> index_ok x -> StronglySorted later (log x) -> pointers_ok x ->
  exists x' td' wf' gone, log_trim tracked s x t td wf = Some (x', t ++ map e_version gone, td', wf') /\
    log x = gone ++ log x' /\
    Forall (fun e => Le (e_version e) s) gone /\ Forall (fun e => Lt s (e_version e)) (log x') /\
    index_ok x' /\ head x' = head x /\ tail x' = max_ev (tail x) s /\ riter x' = (riter x - length gone)%nat /\
    complete_to x' = match complete_to x with Some k => at_index (k - length gone) (log x') | None => None end /\
    forall d, answers x d -> earliest_dup (version (e_version newest)) tracked <= version (d_version d) -> answers x' d.
Proof.
  intros Hn Hs Hix Hso Hp.
  destruct (log_trim_ok tracked s x t td wf newest Hn Hs Hix Hso Hp)
    as (x' & t' & td' & wf' & gone & x1 & dgone & -> & Htb & H1 & H2 & Ed & Hlt & _ & El & Hix' & Hh & Ht & Er & Ec & -> & _).
  exists x', td', wf', gone. split; [done|]. rewrite Er, Ec.
  pose proof (trimmed_answers _ _ _ _ _ _ Htb El Ed Hlt) as Hans. rewrite El. destruct Htb as [T1 _ _ _ T5 T6]. done.
Qed.

Definition three : IndexedLog := set_complete (Some 2%nat)
  (sample_log zero (ev 1 3) [wr 1 1 1 0 0; wr 2 1 2 0 0; wr 1 1 3 1 1]).

Lemma complete_index_ok c h t crt ritt l d : index_ok (set_complete c (indexed_log h t crt ritt l d)).
Proof. split; [done|]. intros o. apply (proj2 (index_is_ok (reset_riter {| head := h; tail := t; can_rollback_to := crt;
  rollback_info_trimmed_to := ritt; log := l; dups := d; indexed := false; objects := ∅; riter := length l;
  complete_to := None; last_requested := 0 |})) o). Qed.

Lemma three_ok : index_ok three /\ StronglySorted later (log three) /\ pointers_ok three.
Proof. split; [exact (complete_index_ok _ _ _ _ _ _ _)|]. split; [repeat constructor|]. split; simpl; lia. Qed.

(** The request of the entry 1'2 is answered from the dups. *)
Lemma trim_correct_witness : exists x' td wf, log_trim 2 (ev 1 2) three [] [] Eversion.max = Some (x', [ev 1 1; ev 1 2], td, wf) /\
  log x' = [wr 1 1 3 1 1] /\ complete_to x' = Some 0%nat /\ tail x' = ev 1 2 /\ answers x' (dup_of (wr 2 1 2 0 0)).
Proof.
  destruct three_ok as (H1 & H2 & H3).
  destruct (trim_correct 2 (ev 1 2) three [] [] Eversion.max (wr 1 1 3 1 1))
    as (x' & td & wf & gone & E & _ & _ & _ & _ & _ & _ & _ & _ & H);
    [reflexivity|reflexivity|exact H1|exact H2|exact H3|].
  assert (option_map (fun '(x, t, _, _) => (t, log x, complete_to x, tail x)) (log_trim 2 (ev 1 2) three [] [] Eversion.max)
    = Some ([ev 1 1; ev 1 2], [wr 1 1 3 1 1], Some 0%nat, ev 1 2)) as E' by (vm_compute; reflexivity).
  rewrite E in E'. cbn [option_map app] in E'. injection E' as Eg El Ec Et. rewrite E. cbn [app]. rewrite Eg.
  exists x', td, wf. split; [reflexivity|]. split; [exact El|]. split; [exact Ec|]. split; [exact Et|].
  apply H; [|vm_compute; discriminate]. left. exists (wr 2 1 2 0 0).
  split; [apply elem_of_cons; right; apply elem_of_cons; left; reflexivity|]. apply elem_of_cons. left. reflexivity.
Defined.
End TrimTheorems.

Module RecoverFacts.
Import Hobject Eversion EversionFacts CleanRegions CleanRegionsFacts Entry Missing MissingFacts PgLog LogFacts PgLogOps.

(** The versions that are needed come from one log: their numbers order them. *)
Definition ordered_needs (ms : pg_missing_set) : Prop :=
  forall o it o' it', missing ms !! o = Some it -> missing ms !! o' = Some it' ->
    version (need it) <= version (need it') -> Le (need it) (need it').

(** [last_complete] is below everything that is still needed. *)
Definition complete_below (ms : pg_missing_set) (lc : eversion_t) : Prop :=
  forall o it, missing ms !! o = Some it -> Lt lc (need it).

Lemma oldest_is_least ms : rindex ms -> ordered_needs ms -> missing ms <> ∅ ->
  exists oldest, get_oldest_need ms = Some oldest /\
    (exists o it, missing ms !! o = Some it /\ need it = oldest) /\
    forall o it, missing ms !! o = Some it -> Le oldest (need it).
Proof.
  intros Hr Ho Hne. destruct (oldest_need_ok ms Hr Hne) as (o & it & E & Em & Hmin).
  exists (need it). split; [done|]. split; [eauto|]. intros o' it' E'. eapply Ho; [done..|]. by eapply Hmin.
Qed.

Lemma raise_complete_ok oldest l : forall lc, Lt lc oldest ->
  let '(_, lc') := raise_complete l oldest lc in Lt lc' oldest /\ Le lc lc'.
Proof.
  induction l as [|e l IH]; intros lc Hlc; cbn [raise_complete]; [split; [done|reflexivity]|].
  destruct (oldest <=? e_version e)%ev eqn:E; [split; [done|reflexivity]|]. apply le_gt in E.
  assert (Lt (max_ev lc (e_version e)) oldest) as Hm by (unfold max_ev; by case_match).
  specialize (IH _ Hm). destruct (raise_complete l oldest (max_ev lc (e_version e))) as [n lc'].
  destruct IH as [H1 H2]. split; [done|]. etrans; [apply max_ev_l|exact H2].
Qed.

Lemma ordered_rm o it ms : ordered_needs ms -> ordered_needs (rm_it o it ms).
Proof. intros H a ia b ib Ha Hb. simpl in *. apply lookup_delete_Some in Ha as [_ Ha], Hb as [_ Hb]. by eapply H. Qed.

Lemma complete_below_rm o it ms lc : complete_below ms lc -> complete_below (rm_it o it ms) lc.
Proof. intros H a ia Ha. simpl in Ha. apply lookup_delete_Some in Ha as [_ Ha]. by eapply H. Qed.

(** The recovery state of a log: the index by version agrees with the missing
    set, and [last_complete] is sound. *)
Record recovering (p : PGLog) (info : pg_info_t) : Prop := {
  rc_index : rindex (missing_ p);
  rc_ordered : ordered_needs (missing_ p);
  rc_below : complete_below (missing_ p) (last_complete info);
  rc_bound : Le (last_complete info) (last_update info)
}.

(** Recovering one missing object. *)
Lemma recover_got_ok oid v it p info : recovering p info -> missing (missing_ p) !! oid = Some it -> Le (need it) v ->
  Le v (can_rollback_to (log_ p)) -> (forall o i, missing (missing_ p) !! o = Some i -> Le (need i) (last_update info)) ->
  exists p' info', recover_got oid v info p = Some (p', info') /\ recovering p' info' /\
    missing (missing_ p') = delete oid (missing (missing_ p)) /\ can_rollback_to (log_ p') = can_rollback_to (log_ p) /\
    last_update info' = last_update info /\ Le (last_complete info) (last_complete info') /\
    (missing (missing_ p') = ∅ -> last_complete info' = last_update info' /\ complete_to (log_ p') = None).
Proof.
  intros [R1 R2 R3 R4] Em Hv Hcrt Hlu. unfold recover_got, is_missing_at, got. rewrite Em.
  assert ((v <? need it)%ev = false) as -> by by apply lt_ge. unfold Le in Hv, Hcrt. rewrite Hv. cbn [orb negb mbind option_bind].
  set (ms := rm_it oid it (missing_ p)).
  assert (rindex ms) as Q1 by by apply rindex_rm.
  assert (ordered_needs ms) as Q2 by by apply ordered_rm.
  unfold have_missing. destruct (decide (missing ms = ∅)) as [He|Hne].
  - rewrite bool_decide_eq_false_2 by tauto. cbn [negb]. unfold get_oldest_need. rewrite bool_decide_eq_true_2 by done.
    cbn [mbind option_bind]. simpl. rewrite Hcrt. eexists _, _. split; [done|]. split; [|split; [done|split; [done|split; [done|split; [exact R4|done]]]]].
    split; try done; simpl. intros o i Hi. fold ms in Hi. rewrite He in Hi. by rewrite lookup_empty in Hi.
  - rewrite bool_decide_eq_true_2 by done. cbn [negb].
    destruct (oldest_is_least ms Q1 Q2 Hne) as (oldest & -> & (o1 & i1 & Ei & <-) & Hmin). cbn [mbind option_bind].
    assert (Lt (last_complete info) (need i1)) as Hlt by (by eapply complete_below_rm in Ei).
    assert (exists c lc, match complete_to (log_ p) with
        | None => (None, last_complete info)
        | Some k => let '(n, lc) := raise_complete (drop k (log (log_ p))) (need i1) (last_complete info) in
                    (at_index (k + n) (log (log_ p)), lc)
        end = (c, lc) /\ Lt lc (need i1) /\ Le (last_complete info) lc) as (c & lc & -> & L1 & L2).
    { destruct (complete_to (log_ p)) as [k|]; [|exists None, (last_complete info); split; [done|]; split; [done|reflexivity]].
      pose proof (raise_complete_ok (need i1) (drop k (log (log_ p))) _ Hlt) as H.
      destruct (raise_complete _ _ _) as [n lc]. eexists _, lc. split; [done|]. exact H. }
    cbn [mbind option_bind]. simpl. rewrite Hcrt. eexists _, _. split; [done|]. split; [|split; [done|split; [done|split; [done|split; [exact L2|done]]]]].
    split; try done; simpl.
    + intros o i Hi. eapply Lt_Le_trans; [exact L1|]. by eapply Hmin.
    + apply Lt_Le. eapply Lt_Le_trans; [exact L1|]. unfold ms in Ei. simpl in Ei. apply lookup_delete_Some in Ei as [_ Ei]. by eapply Hlu.
Qed.

Fixpoint recover_all (l : list (hobject_t * eversion_t)) (info : pg_info_t) (p : PGLog) : option (PGLog * pg_info_t) :=
  match l with
  | [] => Some (p, info)
  | (o, v) :: l => '(p, info) ← recover_got o v info p; recover_all l info p
  end.

(** Recoveries that come back for missing objects, at versions that suffice. *)
Definition arrives (p : PGLog) (l : list (hobject_t * eversion_t)) : Prop :=
  NoDup l.*1 /\ forall o v, (o, v) ∈ l -> Le v (can_rollback_to (log_ p)) /\
    exists it, missing (missing_ p) !! o = Some it /\ Le (need it) v.

Lemma recover_all_ok l : forall p info, recovering p info -> arrives p l ->
  (forall o i, missing (missing_ p) !! o = Some i -> Le (need i) (last_update info)) ->
  exists p' info', recover_all l info p = Some (p', info') /\ recovering p' info' /\
    (forall o, missing (missing_ p') !! o = if decide (o ∈ l.*1) then None else missing (missing_ p) !! o) /\
    last_update info' = last_update info /\ Le (last_complete info) (last_complete info') /\
    (l <> [] -> missing (missing_ p') = ∅ -> last_complete info' = last_update info' /\ complete_to (log_ p') = None).
Proof.
  induction l as [|[o v] l IH]; intros p info Hr [Hnd Ha] Hlu; cbn [recover_all].
  { exists p, info. split; [done|]. split; [done|]. split; [intros o; by rewrite decide_False by set_solver|].
    split; [done|]. split; [reflexivity|done]. }
  destruct (Ha o v) as (Hv & it & Em & Hn); [set_solver|]. cbn [fmap list_fmap fst] in Hnd. apply NoDup_cons in Hnd as [Hni Hnd].
  destruct (recover_got_ok o v it p info Hr Em Hn Hv Hlu) as (p1 & info1 & -> & Hr1 & M1 & C1 & U1 & L1 & Z1).
  cbn [mbind option_bind]. destruct (IH p1 info1) as (p' & info' & E2 & Hr' & M2 & U2 & L2 & Z2).
  - done.
  - split; [done|]. intros o' v' Hin. destruct (Ha o' v') as (Hv' & it' & Em' & Hn'); [set_solver|]. rewrite C1. split; [done|].
    exists it'. split; [|done]. rewrite M1, lookup_delete_ne; [done|]. intros ->. apply Hni. apply list_elem_of_fmap. exists (o', v'). done.
  - intros o' i. rewrite M1, U1. intros [_ Hi]%lookup_delete_Some. by eapply Hlu.
  - exists p', info'. split; [done|]. split; [done|]. split.
    { intros a. rewrite M2, M1. cbn [fmap list_fmap fst]. destruct (decide (a = o)) as [->|Hd].
      - rewrite (decide_True (P := o ∈ o :: l.*1)) by set_solver. case_decide; [done|]. apply lookup_delete_eq.
      - rewrite lookup_delete_ne by done. assert (a ∈ l.*1 <-> a ∈ o :: l.*1) as Hiff by (rewrite elem_of_cons; tauto).
        by rewrite (decide_ext _ _ _ _ Hiff). }
    split; [congruence|]. split; [by etrans|]. intros _ He. destruct l as [|[o2 v2] l].
    + injection E2 as <- <-. by apply Z1.
    + by apply Z2.
Qed.

(** [reset_complete_to] sets both from the missing set. *)
Lemma first_not_below_ok oldest l : (exists e, e ∈ l /\ Le oldest (e_version e)) ->
  exists k, first_not_below l oldest = Some k /\ Forall (fun e => Lt (e_version e) oldest) (take k l) /\
    exists e, l !! k = Some e /\ Le oldest (e_version e).
Proof.
  induction l as [|e l IH]; intros (e' & He & Hle); [set_solver|]. cbn [first_not_below].
  destruct (e_version e <? oldest)%ev eqn:E.
  - destruct IH as (k & -> & H1 & H2).
    { exists e'. split; [|done]. apply elem_of_cons in He as [-> | He]; [|done]. apply lt_ge in Hle. congruence. }
    cbn [mbind option_bind]. exists (S k). split; [done|]. split; [by constructor|done].
  - exists O. split; [done|]. split; [constructor|]. exists e. split; [done|]. by apply lt_ge.
Qed.

Lemma reset_complete_ok p info : log (log_ p) <> [] -> rindex (missing_ p) -> ordered_needs (missing_ p) -> missing (missing_ p) <> ∅ ->
  (forall o it, missing (missing_ p) !! o = Some it -> Lt zero (need it) /\ Le (need it) (last_update info) /\
     exists e, e ∈ log (log_ p) /\ Le (need it) (e_version e)) ->
  exists p' info' k, reset_complete_to (Some info) p = Some (p', Some info') /\ recovering p' info' /\
    missing_ p' = missing_ p /\ log (log_ p') = log (log_ p) /\ can_rollback_to (log_ p') = can_rollback_to (log_ p) /\
    last_update info' = last_update info /\ complete_to (log_ p') = Some k /\
    Forall (fun e => complete_below (missing_ p) (e_version e)) (take k (log (log_ p))).
Proof.
  intros Hl H1 H2 Hne Hm. unfold reset_complete_to.
  destruct (oldest_is_least _ H1 H2 Hne) as (oldest & -> & (o1 & i1 & Ei & <-) & Hmin).
  destruct (Hm _ _ Ei) as (Hz & Hlu & Hex). destruct (first_not_below_ok _ _ Hex) as (k & Ek & Hk & e & He & _).
  destruct (log (log_ p)) as [|e0 l0] eqn:El; [done|]. rewrite <- El in *. cbn [mbind option_bind].
  assert ((need i1 =? zero)%ev = false) as ->.
  { apply eqb_neq. intros E. rewrite E in Hz. by destruct (irreflexivity Lt zero). }
  rewrite Ek. cbn [mbind option_bind].
  assert (exists lc, match k with O => Some zero | S k => e ← log (log_ p) !! k; Some (e_version e) end = Some lc /\ Lt lc (need i1))
    as (lc & -> & Hlc).
  { destruct k as [|k]; [by exists zero|]. assert (is_Some (log (log_ p) !! k)) as [e' E'].
    { apply lookup_lt_is_Some. apply lookup_lt_Some in He. lia. }
    rewrite E'. exists (e_version e'). split; [done|]. rewrite Forall_forall in Hk. apply Hk.
    apply (list_elem_of_lookup_2 _ k). rewrite lookup_take_lt; [done|lia]. }
  cbn [mbind option_bind]. eexists _, _, k. split; [done|]. simpl. rewrite El. split; [|split_and!; try done].
  - split; try done; simpl.
    + intros o it E. eapply Lt_Le_trans; [exact Hlc|]. by eapply Hmin.
    + apply Lt_Le. by eapply Lt_Le_trans.
  - rewrite <- El. eapply Forall_impl; [exact Hk|]. intros e' He' o it E. eapply Lt_Le_trans; [exact He'|]. by eapply Hmin.
Qed.
End RecoverFacts.

Module RecoverTheorems.
Import Hobject Eversion EversionFacts CleanRegions CleanRegionsFacts Entry Missing MissingFacts PgLog LogFacts PgLogOps LogSamples
  RecoverFacts.

(** C11: recovery completes.  Activating a log with missing objects sets
    [last_complete] below every version still needed and [complete_to] to the
    first entry that is not; then recovering the missing objects, in any order
    and at any versions that suffice, keeps that true after every object, never
    lowers [last_complete], and ends with nothing missing, [last_complete] at
    [last_update] and [complete_to] at the end of the log. *)
Theorem recovery_completes p info l :
  log (log_ p) <> [] -> rindex (missing_ p) -> ordered_needs (missing_ p) -> missing (missing_ p) <> ∅ ->
  (forall o it, missing (missing_ p) !! o = Some it -> Lt zero (need it) /\ Le (need it) (last_update info) /\
     exists e, e ∈ log (log_ p) /\ Le (need it) (e_version e)) ->
  arrives p l -> (forall o, is_Some (missing (missing_ p) !! o) -> o ∈ l.*1) ->
  exists p1 info1, activate_not_complete info p = Some (p1, info1) /\
    (forall l1 l2, l = l1 ++ l2 -> exists p2 info2, recover_all l1 info1 p1 = Some (p2, info2) /\
       complete_below (missing_ p2) (last_complete info2) /\ Le (last_complete info1) (last_complete info2)) /\
    exists p3 info3, recover_all l info1 p1 = Some (p3, info3) /\ missing (missing_ p3) = ∅ /\
      last_complete info3 = last_update info /\ complete_to (log_ p3) = None.
Proof.
  intros Hl H1 H2 Hne Hm Ha Hall.
  destruct (reset_complete_ok p info Hl H1 H2 Hne Hm) as (p1 & info1 & k & E & Hr & Em & El & Ec & Eu & _).
  unfold activate_not_complete. rewrite E. cbn [mbind option_bind].
  set (q := with_log (set_last_requested 0 (log_ p1)) p1). exists q, info1. split; [done|].
  assert (recovering q info1) as Hrq by (destruct Hr; split; done).
  assert (forall l1, (forall o v, (o, v) ∈ l1 -> (o, v) ∈ l) -> NoDup l1.*1 -> arrives q l1) as Haq.
  { intros l1 Hin Hnd. split; [done|]. intros o v Hov. simpl. rewrite Em, Ec. by apply Ha, Hin. }
  assert (forall o i, missing (missing_ q) !! o = Some i -> Le (need i) (last_update info1)) as Hlu
    by (intros o i; simpl; rewrite Em, Eu; intros Hi; by apply (Hm o i)).
  destruct Ha as [Hnd _]. split.
  - intros l1 l2 ->. rewrite fmap_app in Hnd. apply NoDup_app in Hnd as (Hnd & _).
    destruct (recover_all_ok l1 q info1 Hrq) as (p2 & info2 & E2 & Hr2 & _ & _ & L2 & _); [apply Haq; [set_solver|done]|done|].
    exists p2, info2. split; [done|]. split; [apply Hr2|done].
  - destruct (recover_all_ok l q info1 Hrq) as (p3 & info3 & E3 & _ & M3 & U3 & _ & Z3); [by apply Haq|done|].
    assert (missing (missing_ p3) = ∅) as He.
    { apply map_empty. intros o. rewrite M3. case_decide as Ho; [done|]. destruct (missing (missing_ q) !! o) eqn:Eo; [|done].
      destruct Ho. apply Hall. simpl in Eo. rewrite Em in Eo. by rewrite Eo. }
    exists p3, info3. split; [done|]. split; [done|]. rewrite <- Eu, <- U3. apply Z3; [|done].
    intros ->. apply Hne. apply map_empty. intros o. destruct (missing (missing_ p) !! o) eqn:Eo; [|done].
    specialize (Hall o (mk_is_Some _ _ Eo)). set_solver.
Qed.

Definition two_missing : pg_missing_set :=
  default no_missing (sample_missing [(obj 2, ev 1 2); (obj 3, ev 1 3)]).
Definition behind : PGLog := clean_log (sample_log zero (ev 1 3) [wr 1 1 1 0 0; wr 2 1 2 0 0; wr 3 1 3 0 0]) two_missing.

Lemma obj_inj a b : obj a = obj b -> a = b.
Proof. intros E. by apply (f_equal hash) in E. Qed.

(** Its two maps. *)
Lemma two_missing_maps : exists i2 i3, need i2 = ev 1 2 /\ need i3 = ev 1 3 /\
  missing two_missing = <[obj 3 := i3]> (<[obj 2 := i2]> ∅) /\ rmissing two_missing = <[3 := obj 3]> (<[2 := obj 2]> ∅).
Proof.
  unfold two_missing, sample_missing. cbn [foldl mbind option_bind fst snd].
  destruct (add_ok (obj 2) (ev 1 2) zero false no_missing) as (s1 & i1 & E1 & (M1 & R1 & _) & N1 & _); [apply lookup_empty|].
  rewrite E1. cbn [mbind option_bind].
  assert (missing s1 !! obj 3 = None) as H3.
  { rewrite M1, lookup_insert_ne; [apply lookup_empty|]. intros E%obj_inj. discriminate. }
  destruct (add_ok (obj 3) (ev 1 3) zero false s1 H3) as (s2 & i2 & E2 & (M2 & R2 & _) & N2 & _).
  rewrite E2. simpl. exists i1, i2. rewrite M2, R2, H3, R1, M1, N1, N2. split_and!; reflexivity.
Qed.

Lemma two_missing_items o it : missing two_missing !! o = Some it ->
  (o = obj 2 /\ need it = ev 1 2) \/ (o = obj 3 /\ need it = ev 1 3).
Proof.
  destruct two_missing_maps as (i2 & i3 & N2 & N3 & -> & _). intros [[<- <-]|[_ H]]%lookup_insert_Some; [by right|].
  apply lookup_insert_Some in H as [[<- <-]|[_ H]]; [by left|]. by rewrite lookup_empty in H.
Qed.

Lemma two_missing_has :
  (exists it, missing two_missing !! obj 2 = Some it /\ need it = ev 1 2) /\
  (exists it, missing two_missing !! obj 3 = Some it /\ need it = ev 1 3).
Proof.
  destruct two_missing_maps as (i2 & i3 & N2 & N3 & -> & _). split.
  - exists i2. rewrite lookup_insert_ne by (intros E%obj_inj; discriminate). by rewrite lookup_insert_eq.
  - exists i3. by rewrite lookup_insert_eq.
Qed.

Lemma two_missing_rindex : rindex two_missing.
Proof.
  destruct two_missing_maps as (i2 & i3 & N2 & N3 & Em & Er). intros v o. rewrite Em, Er. split.
  - intros [[<- <-]|[_ H]]%lookup_insert_Some; [exists i3; split; [apply lookup_insert_eq|rewrite N3; reflexivity]|].
    apply lookup_insert_Some in H as [[<- <-]|[_ H]]; [|by rewrite lookup_empty in H].
    exists i2. split; [|rewrite N2; reflexivity]. rewrite lookup_insert_ne by (intros E%obj_inj; discriminate). apply lookup_insert_eq.
  - intros (it & [[<- <-]|[_ H]]%lookup_insert_Some & <-); [by rewrite N3|].
    apply lookup_insert_Some in H as [[<- <-]|[_ H]]; [by rewrite N2|by rewrite lookup_empty in H].
Qed.

Lemma recovery_completes_witness : exists p1 info1 p3 info3,
  activate_not_complete (sample_info (ev 1 3) zero) behind = Some (p1, info1) /\
  recover_all [(obj 3, ev 1 3); (obj 2, ev 1 3)] info1 p1 = Some (p3, info3) /\ last_complete info3 = ev 1 3.
Proof.
  destruct (recovery_completes behind (sample_info (ev 1 3) zero) [(obj 3, ev 1 3); (obj 2, ev 1 3)])
    as (p1 & info1 & E1 & _ & p3 & info3 & E3 & _ & H & _).
  - discriminate.
  - exact two_missing_rindex.
  - intros o it o' it' [[_ ->]|[_ ->]]%two_missing_items [[_ ->]|[_ ->]]%two_missing_items; vm_compute; congruence.
  - intros E. destruct two_missing_has as [(it & Ei & _) _]. change (missing two_missing = ∅) in E. rewrite E, lookup_empty in Ei. discriminate.
  - intros o it [[_ ->]|[_ ->]]%two_missing_items; (split; [reflexivity|]); (split; [reflexivity|]).
    + exists (wr 2 1 2 0 0). split; [|reflexivity]. apply elem_of_cons. right. apply elem_of_cons. by left.
    + exists (wr 3 1 3 0 0). split; [|reflexivity]. do 2 (apply elem_of_cons; right). apply elem_of_cons. by left.
  - split; [apply NoDup_cons; split; [|apply NoDup_singleton]; intros [H|H]%elem_of_cons; [discriminate|by apply not_elem_of_nil in H]|].
    intros o v [H|[H|H]%elem_of_cons]%elem_of_cons; [| |by apply not_elem_of_nil in H]; injection H as -> ->; (split; [reflexivity|]).
    + destruct two_missing_has as [_ (it & Ei & Hn)]. exists it. split; [exact Ei|]. rewrite Hn. reflexivity.
    + destruct two_missing_has as [(it & Ei & Hn) _]. exists it. split; [exact Ei|]. rewrite Hn. reflexivity.
  - intros o [it [[-> _]|[-> _]]%two_missing_items]; apply elem_of_cons; [right; apply elem_of_cons|]; by left.
  - exists p1, info1, p3, info3. split; [exact E1|]. split; [exact E3|exact H].
Defined.
End RecoverTheorems.

Module SplitTheorems.
Import Hobject Eversion EversionFacts CleanRegions CleanRegionsFacts Entry Missing MissingFacts PgLog LogFacts PgLogOps LogSamples RecoverTheorems.

Lemma in_order_items s : (in_order s).*1 ≡ₚ (map_to_list (missing s)).*1 /\
  forall o it, (o, it) ∈ in_order s <-> missing s !! o = Some it.
Proof.
  unfold in_order. split; [apply fmap_Permutation, merge_sort_Permutation|]. intros o it.
  rewrite (elem_of_Permutation_proper _ _ _ (merge_sort_Permutation before (map_to_list (missing s)))). apply elem_of_map_to_list.
Qed.

(** C12: splitting a placement group partitions its log and its missing set by
    the hash of the object.  Parent and child each keep, in order, exactly the
    entries of their own objects, with exact indexes; an object is missing in
    exactly one of them, with the need, version at hand and deletion mark it
    had, and both indexes by version stay exact. *)
Theorem split_partitions seed bits p op :
  rindex (missing_ p) -> missing (missing_ op) = ∅ -> rmissing (missing_ op) = ∅ ->
  exists p' op', split_into seed bits p op = Some (p', op') /\
    log (log_ p') = List.filter (fun e => negb (to_child seed bits (soid e))) (log (log_ p)) /\
    log (log_ op') = List.filter (fun e => to_child seed bits (soid e)) (log (log_ p)) /\
    index_ok (log_ p') /\ index_ok (log_ op') /\ head (log_ op') = head (log_ p) /\ tail (log_ op') = tail (log_ p) /\
    rindex (missing_ p') /\ rindex (missing_ op') /\
    forall o, if to_child seed bits o
      then missing (missing_ p') !! o = None /\
           match missing (missing_ p) !! o, missing (missing_ op') !! o with
           | Some it, Some it' => same_item it it'
           | None, None => True
           | _, _ => False
           end
      else missing (missing_ p') !! o = missing (missing_ p) !! o /\ missing (missing_ op') !! o = None.
Proof.
  intros Hr He Hre. unfold split_into, split_out_child, Missing.split_into.
  destruct (in_order_items (missing_ p)) as [Hk Hin].
  match goal with |- context [foldl ?f (Some (_, ?om)) _] => set (F := f); set (om0 := om) end.
  assert (forall l r, foldl F r l = foldl (split_step seed bits) r l) as HF.
  { induction l as [|[o it] l IH]; intros r; [done|]. simpl. rewrite IH. done. }
  rewrite HF. destruct (split_loop_ok seed bits (in_order (missing_ p)) (missing_ p) om0) as (ms & om & E & R1 & R2 & Hmay & Hp & Hc).
  - rewrite Hk. apply NoDup_fst_map_to_list.
  - intros o it. by apply Hin.
  - done.
  - intros v o. unfold om0. simpl. rewrite Hre, He. setoid_rewrite lookup_empty. split; [done|]. by intros (? & ? & _).
  - intros o it o' it' _. unfold om0. simpl. by rewrite He, lookup_empty.
  - rewrite E. cbn [mbind option_bind]. eexists _, _. split; [done|].
    split; [done|]. split; [done|]. split; [apply index_is_ok|]. split; [apply index_is_ok|]. do 2 (split; [done|]).
    split; [done|]. split; [by destruct (may_include_deletes ms)|].
    intros o. specialize (Hp o). specialize (Hc o).
    assert (missing (missing_ p) !! o = None -> o ∉ (in_order (missing_ p)).*1) as Hnone.
    { intros Eo ([o' it] & -> & Ho')%list_elem_of_fmap. apply Hin in Ho'. simpl in Eo. congruence. }
    assert (forall it, missing (missing_ p) !! o = Some it -> o ∈ (in_order (missing_ p)).*1) as Hsome.
    { intros it Eo. apply list_elem_of_fmap. exists (o, it). split; [done|]. by apply Hin. }
    assert (missing om0 !! o = None) as H0 by (unfold om0; simpl; by rewrite He, lookup_empty).
    replace (missing (missing_ (mark_dirty_to_dups _ _)) !! o) with (missing ms !! o) by done.
    destruct (to_child seed bits o) eqn:Ec; simpl.
    + destruct (missing (missing_ p) !! o) as [it|] eqn:Eo.
      * rewrite decide_True in Hp by eauto. rewrite decide_True in Hc by eauto. split; [done|]. destruct Hc as (i1 & i2 & [= <-] & H2 & Hs).
        destruct (may_include_deletes ms); simpl; by rewrite H2.
      * rewrite decide_False in Hp by (intros [? _]; by apply Hnone). rewrite decide_False in Hc by (intros [? _]; by apply Hnone). split; [done|].
        destruct (may_include_deletes ms); simpl; by rewrite Hc, H0.
    + rewrite decide_False in Hp by (intros [_ ?]; congruence). rewrite decide_False in Hc by (intros [_ ?]; congruence). split; [done|].
      destruct (may_include_deletes ms); simpl; by rewrite Hc, H0.
Qed.

(** The objects with odd hashes go to the child. *)
Lemma split_partitions_witness : exists p' op',
  split_into 1 1 behind (clean_log (sample_log zero zero []) no_missing) = Some (p', op') /\
  log (log_ op') = [wr 1 1 1 0 0; wr 3 1 3 0 0] /\ missing (missing_ p') !! obj 3 = None.
Proof.
  destruct (split_partitions 1 1 behind (clean_log (sample_log zero zero []) no_missing))
    as (p' & op' & E & _ & El & _ & _ & _ & _ & _ & _ & H); [exact two_missing_rindex|reflexivity|reflexivity|].
  exists p', op'. split; [exact E|]. split; [rewrite El; reflexivity|]. specialize (H (obj 3)).
  assert (to_child 1 1 (obj 3) = true) as Ec by reflexivity. rewrite Ec in H. destruct H as [H _]. exact H.
Defined.
End SplitTheorems.
