(* ===== verification/PgLogTheorems.v ===== *)
(** What the placement-group log and its missing set promise: the missing set
    of a replica after merging an authoritative log, what a primary concludes
    about a peer, and the index of the missing set by version. *)
From S2P Require Import Prelude Pg Hobject IntervalSet CleanRegions PgMissing PgLog PgLogFacts PgLogMerge PgLogOps PgLogRecovery.
Module ReplicaFacts.
Import Hobject Eversion EversionFacts CleanRegions CleanRegionsFacts Entry Missing MissingFacts PgLog LogFacts PgLogOps RecoverFacts.

(** Where a primary with log [x] and a peer with log [olog] part: the last
    entry of the primary that the peer's head reaches, not below either tail. *)
Definition shared_point (x olog : IndexedLog) : eversion_t :=
  let limit := max_ev (tail olog) (tail x) in
  match newest_shared (reverse (log x)) (head olog) with
  | None => limit
  | Some v => max_ev v limit
  end.

(** Re-indexing before a rewind makes no difference. *)
Lemma rewind_reindexed v x : rewind_from_head v (index (reset_riter x)) = rewind_from_head v x.
Proof.
  unfold rewind_from_head. simpl. destruct (tail x <=? v)%ev; [|done].
  destruct (rewind_loop (reverse (log x)) v []) as [[kept D]|]; done.
Qed.

(** What merging does to the missing set does not depend on there being a
    store to adjust. *)
Lemma merge_object_same x o es i i' crt ms : last_backfill i = last_backfill i' ->
  fst <$> _merge_object_divergent_entries x o es i crt ms true = fst <$> _merge_object_divergent_entries x o es i' crt ms false.
Proof.
  intros Hi. unfold _merge_object_divergent_entries. rewrite Hi. destruct (0 <? _); [done|].
  destruct (negb _); [|done]. destruct (strip_errors _ _ _ _ _) as [[|e0 l]|]; [done| |done]. cbn [mbind option_bind].
  destruct (last (e0 :: l)) as [en|]; [|done].
  destruct (match objects x !! o with Some o0 => if (e_version e0 <=? e_version o0)%ev then Some o0 else None | None => None end) as [r|].
  { destruct (e_version en <? e_version r)%ev; [|done].
    match goal with |- context [if ?b then _ else None] => destruct b end; [|done].
    destruct (mark_oid_dirty _ _); done. }
  destruct (_ || _); [done|]. destruct (missing ms !! o) as [it|].
  - destruct (if (have it =? prior_version e0)%ev then Some (rm_it o it ms) else revise_need o (prior_version e0) false ms); done.
  - destruct (forallb _ _); [done|]. destruct (Missing.add _ _ _ _ _); done.
Qed.

Lemma merge_split_same x sp i i' crt : last_backfill i = last_backfill i' ->
  forall ms, fst <$> merge_split x sp i crt ms true = fst <$> merge_split x sp i' crt ms false.
Proof.
  intros Hi. induction sp as [|[o es] sp IH]; intros ms; cbn [merge_split]; [done|].
  pose proof (merge_object_same x o es i i' crt ms Hi) as H.
  destruct (_merge_object_divergent_entries x o es i crt ms true) as [[ms1 l1]|],
    (_merge_object_divergent_entries x o es i' crt ms false) as [[ms2 l2]|]; simplify_eq/=; [|done].
  specialize (IH ms2). destruct (merge_split x sp i crt ms2 true) as [[ms3 l3]|], (merge_split x sp i' crt ms2 false) as [[ms4 l4]|];
    simplify_eq/=; done.
Qed.

Lemma complete_before_ok first l : forall lc, Lt lc first -> Lt (complete_before l first lc) first.
Proof.
  induction l as [|e l IH]; intros lc H; cbn [complete_before]; [done|]. destruct (_ <? _)%ev eqn:E; [by apply IH|done].
Qed.
End ReplicaFacts.

Module PgLogTheorems.
Import Hobject Eversion EversionFacts CleanRegions CleanRegionsFacts Entry Missing MissingFacts PgLog LogFacts MergeFacts PgLogOps
  LogSamples RecoverFacts ReplicaFacts.

(** ** Merging an authoritative log *)

(** C9: merging an authoritative log is correct.  Let our log and the
    authoritative one share a history up to the point where they part, let
    [st] be the state of every object there, and let our missing set describe
    our store: an object that is not missing is at the version our log ends
    with, a missing one needs that version and has what it says.  Then
    [merge_log] passes all its assertions, our log becomes the authoritative
    one, and after the rollbacks, removals and stashes it asks of the store the
    missing set describes the store again, for the authoritative log: every
    object below the backfill point is at the version that log ends with, or is
    missing with exactly that version as its need. *)
Theorem merge_log_accurate {S} `{!ObjectStore S} (s : S) p oinfo olog info older kept D shared N st :
  compatible (log_ p) olog older kept D shared N st ->
  items_ok (missing_ p) -> (forall o, need_le (missing_ p) o (head (log_ p))) ->
  (forall o, Hobject.cmp o (last_backfill info) <= 0 -> accurate s (missing_ p) o (after (st o) (mine o D))) ->
  last_update info = head (log_ p) ->
  exists p' info' l c, merge_log oinfo olog info p true = Some (p', info', l, c) /\
    log (log_ p') = (older ++ kept) ++ N /\ head (log_ p') = head olog /\ last_update info' = head olog /\
    forall o, Hobject.cmp o (last_backfill info) <= 0 ->
      accurate (run_ops l s) (missing_ p') o (after (st o) (mine o N)).
Proof.
  intros Hc Hi Hn Ha Hlu.
  destruct (merge_log_ok (log_ p) olog older kept D shared N st Hc s p oinfo info eq_refl) as (p' & info' & l & c & E & H);
    [by split_and!|done|].
  exists p', info', l, c. split; [done|]. destruct H as (H1 & H2 & H3 & _ & _ & H4). done.
Qed.

(** A store that keeps the version of every object. *)
Definition gmap_run (op : log_op) (s : gmap hobject_t eversion_t) : gmap hobject_t eversion_t :=
  match op with
  | Rollback e => partial_alter (fun _ => prior e) (soid e) s
  | Remove h | TryStash h _ => delete h s
  | Rollforward _ | Trim _ => s
  end.
#[export] Instance gmap_store : ObjectStore (gmap hobject_t eversion_t).
Proof.
  refine {| version_of s o := s !! o; run_op := gmap_run |}.
  - intros op s o H. destruct op; simpl in *; try done; by rewrite ?lookup_partial_alter_ne, ?lookup_delete_ne.
  - intros. apply lookup_delete_eq.
  - intros. apply lookup_delete_eq.
  - done.
  - done.
  - intros. apply lookup_partial_alter_eq.
Defined.

(** Our third write is divergent: the authoritative log has another one. *)
Definition ours : PGLog :=
  clean_log (sample_log zero (ev 1 3) [wr 1 1 1 0 0; wr 2 1 2 0 0; wr 1 1 3 1 1]) no_missing.
Definition theirs : IndexedLog := sample_log zero (ev 2 3) [wr 1 1 1 0 0; wr 2 1 2 0 0; wr 2 2 3 1 2].
Definition common : gmap hobject_t eversion_t := <[obj 1 := ev 1 1]> (<[obj 2 := ev 1 2]> ∅).

Lemma entry_wr h ep v pep pv : 0 < v -> Lt (ev pep pv) (ev ep v) -> Lt zero (ev ep v) -> entry_ok (wr h ep v pep pv).
Proof. intros Hv H1 H2. split; [|done]. unfold regions_ok. split; [split; [exact I|reflexivity]|]. intros x Hx. destruct Hx. Qed.

Lemma mine_none o e : o <> soid e -> mine o [e] = [].
Proof. intros H. rewrite mine_one. apply decide_False. intros [<- _]. done. Qed.

Lemma sample_compatible : compatible (log_ ours) theirs [] [wr 1 1 1 0 0; wr 2 1 2 0 0] [wr 1 1 3 1 1]
  [wr 1 1 1 0 0; wr 2 1 2 0 0] [wr 2 2 3 1 2] (fun o => common !! o).
Proof.
  split.
  - reflexivity.
  - reflexivity.
  - right. reflexivity.
  - split; reflexivity.
  - reflexivity.
  - repeat constructor.
  - repeat constructor.
  - repeat constructor.
  - split; [reflexivity|]. split; [right; reflexivity|exact I].
  - repeat constructor; vm_compute; congruence.
  - repeat constructor; vm_compute; congruence.
  - split; reflexivity.
  - discriminate.
  - repeat constructor.
  - apply Forall_cons. split; [apply entry_wr; reflexivity|]. apply Forall_cons. split; [apply entry_wr; reflexivity|constructor].
  - intros o. split.
    + destruct (decide (o = obj 1)) as [->|Hne]; [split; [reflexivity|exact I]|]. rewrite mine_none by done. exact I.
    + destruct (decide (o = obj 2)) as [->|Hne]; [split; [reflexivity|exact I]|]. rewrite mine_none by done. exact I.
  - intros o e. destruct (decide (o = obj 1)) as [->|Hne]; [|rewrite mine_none by done]; intros He; by apply not_elem_of_nil in He.
Qed.

Lemma merge_log_accurate_witness : exists p' info' l c,
  merge_log (sample_info (ev 2 3) zero) theirs (sample_info (ev 1 3) (ev 1 3)) ours true = Some (p', info', l, c) /\
  log (log_ p') = log theirs /\
  accurate (run_ops l (<[obj 1 := ev 1 3]> common)) (missing_ p') (obj 1) (Some (ev 1 1)).
Proof.
  destruct (merge_log_accurate (<[obj 1 := ev 1 3]> common) ours (sample_info (ev 2 3) zero) theirs (sample_info (ev 1 3) (ev 1 3))
    [] [wr 1 1 1 0 0; wr 2 1 2 0 0] [wr 1 1 3 1 1] [wr 1 1 1 0 0; wr 2 1 2 0 0] [wr 2 2 3 1 2] (fun o => common !! o) sample_compatible)
    as (p' & info' & l & c & E & H1 & _ & _ & H2).
  - exact (map_Forall_empty _).
  - intros o it Hi. exact (match eq_trans (eq_sym Hi) (lookup_empty o) with end).
  - intros o _. unfold accurate. change (missing (missing_ ours)) with (∅ : gmap hobject_t pg_missing_item). rewrite lookup_empty.
    simpl. destruct (decide (o = obj 1)) as [->|Hne]; [by vm_compute|]. rewrite mine_none by done. by rewrite lookup_insert_ne.
  - reflexivity.
  - exists p', info', l, c. split; [exact E|]. split; [exact H1|]. apply (H2 (obj 1)). vm_compute. discriminate.
Defined.

(** the index by version can lose an object.  [merge_log] appends the new
    entries before it merges the divergent ones, and the index keeps one object
    per version number.  Here object 1 misses the divergent 5'3 and the new log
    has 6'3 for object 2: revising the need of object 1 erases the entry of
    object 2.  The missing set then has object 2, needing 6'3, which the index
    does not know; once object 1 is recovered, [get_oldest_need] reads the
    first element of an empty index although an object is missing. *)
Theorem merge_log_loses_index :
  let p := clean_log (sample_log zero (ev 5 3) [wr 2 1 1 0 0; wr 1 1 2 0 0; wr 1 5 3 1 2])
             (default no_missing (sample_missing [(obj 1, ev 5 3)])) in
  let olog := sample_log zero (ev 6 3) [wr 2 1 1 0 0; wr 1 1 2 0 0; wr 2 6 3 1 1] in
  exists p' info' l c ms,
    merge_log (sample_info (ev 6 3) zero) olog (sample_info (ev 5 3) zero) p true = Some (p', info', l, c) /\
    (need <$> missing (missing_ p') !! obj 2) = Some (ev 6 3) /\ rmissing (missing_ p') !! 3 = None /\
    got (obj 1) (ev 1 2) (missing_ p') = Some ms /\ is_missing ms (obj 2) = true /\ get_oldest_need ms = None.
Proof.
  intros p olog. set (m := merge_log (sample_info (ev 6 3) zero) olog (sample_info (ev 5 3) zero) p true).
  set (f := fun r : PGLog * pg_info_t * list log_op * bool => let '(q, _, _, _) := r in
    let ms := got (obj 1) (ev 1 2) (missing_ q) in
    (need <$> missing (missing_ q) !! obj 2, rmissing (missing_ q) !! 3,
     (fun ms => (is_missing ms (obj 2), get_oldest_need ms)) <$> ms)).
  assert (f <$> m = Some (Some (ev 6 3), None, Some (true, None))) as E by (vm_compute; reflexivity).
  destruct m as [[[[p' info'] l] c]|]; [|discriminate]. cbn [fmap option_fmap option_map] in E.
  destruct (got (obj 1) (ev 1 2) (missing_ p')) as [ms|] eqn:Eg; unfold f in E; rewrite Eg in E; [|discriminate].
  cbn [fmap option_fmap option_map] in E. injection E as E1 E2 E3 E4. exists p', info', l, c, ms. split_and!; try done.
Qed.
(** ** What a primary concludes about a peer *)

(** C10: [proc_replica_log] predicts the peer.  From a peer's info, log and
    missing set a primary computes the same missing set that the peer itself
    arrives at when it rewinds its log to the point where the two part; it
    lowers the peer's [last_update] to that point, and puts [last_complete]
    below everything the peer misses, or at [last_update] when it misses
    nothing. *)
Theorem proc_replica_log_predicts p q oinfo q' i' l :
  let lu := shared_point (log_ p) (log_ q) in
  Le (tail (log_ p)) (head (log_ q)) -> head (log_ q) <> head (log_ p) ->
  rewind_divergent_log lu oinfo q true = Some (q', i', l) ->
  rindex (missing_ q') -> ordered_needs (missing_ q') -> complete_below (missing_ q') zero ->
  exists oinfo', proc_replica_log p oinfo (log_ q) (missing_ q) = Some (oinfo', missing_ q') /\
    last_update oinfo' = min_ev (last_update oinfo) lu /\ complete_below (missing_ q') (last_complete oinfo') /\
    (missing (missing_ q') = ∅ -> last_complete oinfo' = last_update oinfo').
Proof.
  intros lu Ht Hne Hrw Hri Hord Hz. unfold proc_replica_log.
  assert ((head (log_ q) <? tail (log_ p))%ev = false) as -> by by apply lt_ge.
  assert ((head (log_ q) =? head (log_ p))%ev = false) as -> by by apply eqb_neq.
  replace (match newest_shared (reverse (log (log_ p))) (head (log_ q)) with
           | Some v => if (v <? max_ev (tail (log_ q)) (tail (log_ p)))%ev then max_ev (tail (log_ q)) (tail (log_ p)) else v
           | None => max_ev (tail (log_ q)) (tail (log_ p)) end) with lu by done.
  rewrite rewind_reindexed. unfold rewind_divergent_log in Hrw.
  destruct (rewind_from_head lu (log_ q)) as [[D x]|]; [|done]. cbn [mbind option_bind] in *.
  set (q1 := match D with [] => _ | _ => _ end) in Hrw. set (i1 := set_last_update lu _) in Hrw.
  assert (log_ q1 = x /\ missing_ q1 = missing_ q) as [E1 E2] by (unfold q1; by destruct D). rewrite E1, E2 in Hrw.
  assert (last_backfill i1 = last_backfill oinfo) as Hlb by (unfold i1; simpl; by case_match).
  pose proof (merge_split_same x (split_by_object D) i1 oinfo (can_rollback_to (log_ q)) Hlb (missing_ q)) as Hsame.
  unfold _merge_divergent_entries in *.
  destruct (merge_split x (split_by_object D) i1 (can_rollback_to (log_ q)) (missing_ q) true) as [[ms l1]|]; [|done].
  destruct (merge_split x (split_by_object D) oinfo (can_rollback_to (log_ q)) (missing_ q) false) as [[ms2 l2]|]; [|done].
  cbn [mbind option_bind fmap option_fmap option_map fst] in *. injection Hsame as <-. injection Hrw as <- <- <-.
  cbn [missing_ with_missing] in *.
  set (i2 := if (lu <? last_update oinfo)%ev then set_last_update lu oinfo else oinfo).
  assert (last_update i2 = min_ev (last_update oinfo) lu) as Hlu by (unfold i2, min_ev; by case_match).
  unfold have_missing. case_bool_decide as Hm.
  - pose proof (rmissing_begin_spec ms) as Hb. destruct (rmissing_begin ms) as [[v o]|].
    + destruct Hb as [Hv Hmin]. apply Hri in Hv as (it & Ei & <-). cbn [mbind option_bind]. rewrite Ei. cbn [mbind option_bind].
      eexists. split; [done|]. split; [done|]. split; [|done]. simpl. intros o' it' E'.
      eapply Lt_Le_trans; [apply complete_before_ok; by eapply Hz|]. eapply Hord; [done..|]. eapply Hmin, Hri. eauto.
    + destruct Hm. apply map_empty. intros o. destruct (missing ms !! o) as [it|] eqn:E; [|done].
      assert (rmissing ms !! version (need it) = Some o) as H by (apply Hri; eauto). by rewrite Hb, lookup_empty in H.
  - eexists. split; [done|]. split; [done|]. split; [|done]. intros o it E.
    assert (missing ms = ∅) as Hx by (destruct (decide (missing ms = ∅)); tauto). by rewrite Hx, lookup_empty in E.
Qed.

(** The peer is ahead of the primary by one write. *)
Lemma proc_replica_log_predicts_witness : exists q' i' l oinfo',
  rewind_divergent_log (ev 1 2) (sample_info (ev 1 3) (ev 1 3)) ours true = Some (q', i', l) /\
  proc_replica_log (clean_log (sample_log zero (ev 1 2) [wr 1 1 1 0 0; wr 2 1 2 0 0]) no_missing)
    (sample_info (ev 1 3) (ev 1 3)) (log_ ours) no_missing = Some (oinfo', missing_ q') /\ last_update oinfo' = ev 1 2.
Proof.
  assert ((fun r : PGLog * pg_info_t * list log_op => let '(q, _, _) := r in
    (map_to_list (need <$> missing (missing_ q)), map_to_list (rmissing (missing_ q)))) <$>
    rewind_divergent_log (ev 1 2) (sample_info (ev 1 3) (ev 1 3)) ours true = Some ([(obj 1, ev 1 1)], [(1, obj 1)])) as Ev
    by (vm_compute; reflexivity).
  remember (rewind_divergent_log (ev 1 2) (sample_info (ev 1 3) (ev 1 3)) ours true) as m eqn:E.
  destruct m as [[[q' i'] l]|]; [|discriminate Ev]. symmetry in E.
  cbn [fmap option_fmap option_map] in Ev. injection Ev as E1 E2.
  assert (forall o it, missing (missing_ q') !! o = Some it -> o = obj 1 /\ need it = ev 1 1) as Hm.
  { intros o it H. assert ((o, need it) ∈ map_to_list (need <$> missing (missing_ q'))) as Hi
      by (apply elem_of_map_to_list; rewrite lookup_fmap, H; reflexivity).
    rewrite E1 in Hi. apply list_elem_of_singleton in Hi. by injection Hi as -> ->. }
  destruct (proc_replica_log_predicts (clean_log (sample_log zero (ev 1 2) [wr 1 1 1 0 0; wr 2 1 2 0 0]) no_missing) ours
    (sample_info (ev 1 3) (ev 1 3)) q' i' l) as (oinfo' & H1 & H2 & _).
  - reflexivity.
  - discriminate.
  - exact E.
  - intros v o. rewrite <- elem_of_map_to_list, E2, list_elem_of_singleton. split.
    + intros H. injection H as -> ->. destruct (missing (missing_ q') !! obj 1) as [it|] eqn:Ei.
      * exists it. split; [reflexivity|]. destruct (Hm _ _ Ei) as [_ ->]. reflexivity.
      * exfalso. assert ((obj 1, ev 1 1) ∈ map_to_list (need <$> missing (missing_ q'))) as Hi
          by (rewrite E1; apply list_elem_of_singleton; reflexivity).
        apply elem_of_map_to_list in Hi. rewrite lookup_fmap, Ei in Hi. discriminate.
    + intros (it & Ei & <-). destruct (Hm _ _ Ei) as [-> ->]. reflexivity.
  - intros o it o' it' Ho Ho' _. destruct (Hm _ _ Ho) as [_ ->], (Hm _ _ Ho') as [_ ->]. reflexivity.
  - intros o it Ho. destruct (Hm _ _ Ho) as [_ ->]. reflexivity.
  - exists q', i', l, oinfo'. split; [reflexivity|]. split; [exact H1|]. rewrite H2. reflexivity.
Defined.

(** ** The missing set *)

(** One operation on a missing set; the operations that set a need require
    that no other object needs the same version number. *)
Inductive missing_step : pg_missing_set -> pg_missing_set -> Prop :=
  | ms_next e s s' : regions_ok (e_clean_regions e) -> fresh_for (soid e) (version (e_version e)) s ->
      add_next_event e s = Some s' -> missing_step s s'
  | ms_need o n d s s' : fresh_for o (version n) s -> revise_need o n d s = Some s' -> missing_step s s'
  | ms_forget o s s' : mark_oid_dirty o (revise_have o zero s) = Some s' -> missing_step s s'
  | ms_add o n h d s s' : missing s !! o = None -> fresh_for o (version n) s -> Missing.add o n h d s = Some s' -> missing_step s s'
  | ms_rm o v s : missing_step s (rm o v s)
  | ms_got o v s s' : got o v s = Some s' -> missing_step s s'
  | ms_clear s : missing_step s (clear s)
  | ms_flush s : missing_step s (flush s).

Lemma missing_step_ok s s' : missing_step s s' -> items_ok s -> rindex s -> items_ok s' /\ rindex s'.
Proof.
  intros H Hi Hr. destruct H as [e s s' Hre Hf E|o n d s s' Hf E|o s s' E|o n h d s s' Hn Hf E|o v s|o v s s' E|s|s].
  - destruct (add_next_event_ok e s Hi Hre) as (s1 & it & E1 & Hrep & Hneed & _). rewrite E in E1. injection E1 as <-.
    rewrite <- Hneed in Hf. split; [by apply Hrep|by eapply rindex_replaced].
  - destruct (revise_need_ok o n d s Hi) as (s1 & it & E1 & Hrep & Hneed & _). rewrite E in E1. injection E1 as <-.
    rewrite <- Hneed in Hf. split; [by apply Hrep|by eapply rindex_replaced].
  - destruct (forget_ok o s Hi) as (s1 & E1 & Hi1 & Er & _ & Hfr & Ho). rewrite E in E1. injection E1 as <-. split; [done|].
    eapply rindex_ext; [exact Hr|exact Er|]. intros o'. destruct (decide (o' = o)) as [->|Hne]; [|by rewrite Hfr].
    destruct (missing s !! o) as [it0|]; [destruct Ho as (it & -> & Hn & _); simpl; congruence|by rewrite Ho].
  - destruct (add_ok o n h d s Hn) as (s1 & it & E1 & Hrep & Hneed & _). rewrite E in E1. injection E1 as <-.
    rewrite <- Hneed in Hf. split; [by apply Hrep|by eapply rindex_replaced].
  - unfold rm. destruct (missing s !! o) as [it|] eqn:Eo; [|done]. destruct (_ <=? _)%ev; [|done].
    split; [by apply rm_it_items|by apply rindex_rm].
  - unfold got in E. destruct (missing s !! o) as [it|] eqn:Eo; [|done]. destruct (_ || _); [|done]. injection E as <-.
    split; [by apply rm_it_items|by apply rindex_rm].
  - split; [apply map_Forall_empty|]. intros v o. simpl. setoid_rewrite lookup_empty. split; [done|]. by intros (? & ? & _).
  - done.
Qed.

(** the index by version of a missing set is exact: in every set reached
    from the empty one by operations that never let two objects need the same
    version number, a number leads to the one object that needs it, so that
    [get_oldest_need] is the least need, and zero when nothing is missing. *)
Theorem missing_index_exact s : rtc missing_step no_missing s ->
  items_ok s /\ rindex s /\
  if decide (missing s = ∅) then get_oldest_need s = Some zero
  else exists o it, get_oldest_need s = Some (need it) /\ missing s !! o = Some it /\
    forall o' it', missing s !! o' = Some it' -> version (need it) <= version (need it').
Proof.
  intros H. assert (items_ok s /\ rindex s) as [Hi Hr].
  { assert (items_ok no_missing /\ rindex no_missing) as H0.
    { split; [apply map_Forall_empty|]. intros v o. simpl. setoid_rewrite lookup_empty. split; [done|]. by intros (? & ? & _). }
    revert H0. induction H as [s|s1 s2 s3 Hstep _ IH]; intros [Hi Hr]; [done|]. apply IH. by eapply missing_step_ok. }
  split; [done|]. split; [done|]. case_decide as Hm.
  - unfold get_oldest_need. by rewrite bool_decide_eq_true_2.
  - by apply oldest_need_ok.
Qed.

Lemma missing_index_exact_witness : exists s, rtc missing_step no_missing s /\ rindex s /\ is_missing s (obj 1) = true.
Proof.
  destruct (add_ok (obj 1) (ev 1 2) zero false no_missing (lookup_empty _)) as (s & it & E & (Em & _) & _).
  exists s. assert (rtc missing_step no_missing s) as H.
  { apply rtc_once. apply (ms_add (obj 1) (ev 1 2) zero false); [exact (lookup_empty _)| |exact E].
    intros o' it' Hl. exact (match eq_trans (eq_sym Hl) (lookup_empty o') with end). }
  split; [exact H|]. split; [apply (missing_index_exact s H)|].
  unfold is_missing. rewrite Em, lookup_insert_eq. reflexivity.
Defined.
End PgLogTheorems.
