(* ===== verification/PastIntervals.v ===== *)
(** Past intervals, [PastIntervals] of src/ceph-15.2.17/src/osd/osd_types.{h,cc}:
    the periods in which a placement group had one acting set, what of them a
    primary keeps, and the set of OSDs it must hear from before the group may
    serve writes again ([PriorSet], built by [PeeringState::build_prior]). *)
From S2P Require Import Prelude Pg Hobject OSDMap.
Import Bits Pg PgPool.

Module PastIntervals.
Import OSDMap.

(** ** Shards *)

Record pg_shard_t := mk_shard { osd : Z; shard : Z }.
#[export] Instance pg_shard_eq_dec : EqDecision pg_shard_t.
Proof. solve_decision. Defined.
#[export] Program Instance pg_shard_countable : Countable pg_shard_t :=
  inj_countable' (fun s => (osd s, shard s)) (fun p => mk_shard p.1 p.2) _.
Next Obligation. by intros []. Qed.

(** [IsPGRecoverablePredicate]: whether the shards at hand suffice.  More shards
    never hurt. *)
Class IsPGRecoverable := {
  rec_pred : gset pg_shard_t -> bool;
  rec_mono : forall a b, a ⊆ b -> rec_pred a = true -> rec_pred b = true
}.

(** [ReplicatedBackend::RPCRecPred]. *)
#[export] Program Instance RPCRecPred : IsPGRecoverable := {
  rec_pred have := bool_decide (have <> ∅)
}.
Next Obligation. intros a b Hs H%bool_decide_eq_true_1. apply bool_decide_eq_true_2. set_solver. Qed.

(** The shards of a vector of OSDs, [pg_pool_t::convert_to_pg_shards]. *)
Definition shard_of (ec_pool : bool) (i : nat) (o : Z) : pg_shard_t :=
  mk_shard o (if ec_pool then Z.of_nat i else NO_SHARD).
Definition convert_to_pg_shards (ec_pool : bool) (from : list Z) : gset pg_shard_t :=
  list_to_set (omap id (imap (fun i o => if o =? CRUSH_ITEM_NONE then None else Some (shard_of ec_pool i o)) from)).

(** ** Intervals *)

Record pg_interval_t := {
  i_up : list Z;
  i_acting : list Z;
  i_first : Z;
  i_last : Z;
  maybe_went_rw : bool;
  i_primary : Z;
  i_up_primary : Z
}.

Record compact_interval_t := { c_first : Z; c_last : Z; c_acting : gset pg_shard_t }.

Definition supersedes (a b : compact_interval_t) : bool := bool_decide (c_acting a ⊆ c_acting b).

(** [pi_compact_rep]. *)
Record pi_compact_rep := {
  first : Z;
  last : Z;
  all_participants : gset pg_shard_t;
  intervals : list compact_interval_t
}.

Definition empty_rep : pi_compact_rep := {| first := 0; last := 0; all_participants := ∅; intervals := [] |}.

Definition is_empty (r : pi_compact_rep) : bool := (last r <? first r) || ((first r =? 0) && (last r =? 0)).
Definition get_bounds (r : pi_compact_rep) : Z * Z := (first r, u32 (last r + 1)).
Definition adjust_start_backwards (last_epoch_clean : Z) (r : pi_compact_rep) : pi_compact_rep :=
  {| first := last_epoch_clean; last := last r; all_participants := all_participants r; intervals := intervals r |}.

Definition add_interval (ec_pool : bool) (interval : pg_interval_t) (r : pi_compact_rep) : option pi_compact_rep :=
  let f := if first r =? 0 then i_first interval else first r in
  ceph_assert (last r <? i_last interval) ;;
  let acting := convert_to_pg_shards ec_pool (i_acting interval) in
  let all := all_participants r ∪ acting in
  if negb (maybe_went_rw interval) then
    Some {| first := f; last := i_last interval; all_participants := all; intervals := intervals r |}
  else
    let plast := {| c_first := i_first interval; c_last := i_last interval; c_acting := acting |} in
    Some {| first := f; last := i_last interval; all_participants := all;
            intervals := List.filter (fun cur => negb (supersedes plast cur)) (intervals r) ++ [plast] |}.

(** [iterate_mayberw_back_to]: the calls of the callback, in order. *)
Fixpoint back_to (les : Z) (l : list compact_interval_t) : list (Z * gset pg_shard_t) :=
  match l with
  | [] => []
  | i :: l => if c_last i <? les then [] else (c_first i, c_acting i) :: back_to les l
  end.
Definition iterate_mayberw_back_to (les : Z) (r : pi_compact_rep) : list (Z * gset pg_shard_t) :=
  back_to les (reverse (intervals r)).

Definition get_might_have_unfound (whoami : pg_shard_t) (r : pi_compact_rep) : gset pg_shard_t :=
  all_participants r ∖ {[ whoami ]}.

(** ** New intervals *)

Record osd_info_t := { up_from : Z; up_thru : Z; lost_at : Z }.

(** The part of a pool and of a map that decide whether an interval ends. *)
Record pool_view := { p_pool : pg_pool_t; p_min_size : Z; p_pg_num_pending : Z }.
Record map_view := {
  m_epoch : Z;
  m_flags : Z;
  m_map : OSDMap;
  m_info : list osd_info_t;
  m_pools : gmap Z pool_view
}.

Definition CEPH_OSDMAP_SORTBITWISE : Z := 32768.
Definition CEPH_OSDMAP_RECOVERY_DELETES : Z := 524288.
Definition test_flag (m : map_view) (f : Z) : bool := negb (Z.land (m_flags m) f =? 0).
Definition is_erasure (p : pg_pool_t) : bool := type p =? TYPE_ERASURE.

Definition info_of (m : map_view) (o : Z) : osd_info_t :=
  default {| up_from := 0; up_thru := 0; lost_at := 0 |} (m_info m !! Z.to_nat o).
Definition get_up_thru (m : map_view) (o : Z) : option Z :=
  ceph_assert (exists_ (m_map m) o) ;; Some (up_thru (info_of m o)).
Definition get_up_from (m : map_view) (o : Z) : option Z :=
  ceph_assert (exists_ (m_map m) o) ;; Some (up_from (info_of m o)).

(** [a || b] with [b] run only when [a] is false. *)
Definition or_else (a : bool) (b : option bool) : option bool := if a then Some true else b.

Definition splits (p : pg_t) (a b : Z) : option bool := r ← is_split (S (Z.to_nat b)) p a b ∅; Some (fst r).
Definition merges (p : pg_t) (a b : Z) : option bool :=
  r ← is_merge_source (S (Z.to_nat (m_seed p))) p a b; Some (bool_decide (is_Some r)).
Definition targets (p : pg_t) (a b : Z) : option bool := is_merge_target (S (Z.to_nat a)) p a b.

(** One side of the comparison: acting primary, acting, up primary and up. *)
Record placement := { acting_p : Z; acting_v : list Z; up_p : Z; up_v : list Z }.

(** [is_new_interval] on the pools and flags of two maps. *)
Definition pools_differ (pgid : pg_t) (plast pi : pool_view) (lastmap osdmap : map_view) : option bool :=
  let o := pg_num (p_pool plast) in let n := pg_num (p_pool pi) in
  let op := p_pg_num_pending plast in let np := p_pg_num_pending pi in
  a ← splits pgid o n;
  b ← or_else a (merges pgid op np);
  b ← or_else b (merges pgid np op);
  b ← or_else b (merges pgid o n);
  b ← or_else b (targets pgid op np);
  b ← or_else b (targets pgid np op);
  b ← or_else b (targets pgid o n);
  Some (b || negb (eqb (test_flag lastmap CEPH_OSDMAP_SORTBITWISE) (test_flag osdmap CEPH_OSDMAP_SORTBITWISE))
        || negb (eqb (test_flag lastmap CEPH_OSDMAP_RECOVERY_DELETES) (test_flag osdmap CEPH_OSDMAP_RECOVERY_DELETES))).

Definition is_new_interval (old new : placement) (osdmap lastmap : map_view) (pgid : pg_t) : option bool :=
  match m_pools lastmap !! m_pool pgid with
  | None => Some false
  | Some plast =>
    match m_pools osdmap !! m_pool pgid with
    | None => Some true
    | Some pi =>
      or_else
        (negb (acting_p old =? acting_p new) || negb (bool_decide (acting_v new = acting_v old))
         || negb (up_p old =? up_p new) || negb (bool_decide (up_v new = up_v old))
         || negb (p_min_size plast =? p_min_size pi) || negb (size (p_pool plast) =? size (p_pool pi)))
        (pools_differ pgid plast pi lastmap osdmap)
    end
  end.

Definition num_real (l : list Z) : Z := Z.of_nat (length (List.filter (fun o => negb (o =? CRUSH_ITEM_NONE)) l)).

Definition check_new_interval `{!IsPGRecoverable} (old new : placement) (same_interval_since last_epoch_clean : Z)
    (osdmap lastmap : map_view) (pgid : pg_t) (past : pi_compact_rep) : option (bool * pi_compact_rep) :=
  b ← is_new_interval old new osdmap lastmap pgid;
  if (b : bool) then
    let f := same_interval_since in
    let l := u32 (m_epoch osdmap - 1) in
    ceph_assert (f <=? l) ;;
    plast ← m_pools lastmap !! m_pool pgid;
    let ec := is_erasure (p_pool plast) in
    let num_acting := num_real (acting_v old) in
    rw ← if (0 <? num_acting) && negb (acting_p old =? -1) && (p_min_size plast <=? num_acting)
            && rec_pred (convert_to_pg_shards ec (acting_v old)) then
           ut ← get_up_thru lastmap (acting_p old);
           uf ← get_up_from lastmap (acting_p old);
           Some (((f <=? ut) && (uf <=? f)) || ((f <=? last_epoch_clean) && (last_epoch_clean <=? l)))
         else Some false;
    past ← add_interval ec {| i_up := up_v old; i_acting := acting_v old; i_first := f; i_last := l;
                              maybe_went_rw := rw; i_primary := acting_p old; i_up_primary := up_p old |} past;
    Some (true, past)
  else Some (false, past).

(** ** The prior set *)

Inductive osd_state_t := UP | DOWN | DNE | LOST.
#[export] Instance osd_state_eq_dec : EqDecision osd_state_t.
Proof. solve_decision. Defined.

(** The callback of [build_prior]: the state of an OSD with respect to an
    interval that began at [start], and its [lost_at]. *)
Definition state_in (m : map_view) (start o : Z) : osd_state_t :=
  if is_up (m_map m) o then UP
  else if negb (exists_ (m_map m) o) then DNE
  else if start <? lost_at (info_of m o) then LOST
  else DOWN.
Definition lost_in (m : map_view) (o : Z) : Z := if exists_ (m_map m) o then lost_at (info_of m o) else 0.

Record PriorSet := {
  probe : gset pg_shard_t;
  down : gset Z;
  blocked_by : gmap Z Z;
  pg_down : bool
}.

(** The callback on one interval: [up_now] and [candidate_blocked_by]. *)
Definition up_now (m : map_view) (start : Z) (acting : gset pg_shard_t) : gset pg_shard_t :=
  filter (fun so => state_in m start (osd so) = UP \/ state_in m start (osd so) = LOST) acting.
Definition candidates (m : map_view) (start : Z) (acting : gset pg_shard_t) : gmap Z Z :=
  foldr (fun so b => if bool_decide (state_in m start (osd so) = DOWN) then <[osd so := lost_in m (osd so)]> b else b)
    ∅ (elements acting).

Definition consider `{!IsPGRecoverable} (m : map_view) (p : option PriorSet) (i : Z * gset pg_shard_t) : option PriorSet :=
  p ← p;
  let '(start, acting) := i in
  let any_down_now := existsb (fun so => bool_decide (state_in m start (osd so) = DOWN)) (elements acting) in
  if negb (rec_pred (up_now m start acting)) && any_down_now then
    let c := candidates m start acting in
    ceph_assert (negb (bool_decide (c = ∅))) ;;
    Some {| probe := probe p; down := down p; blocked_by := blocked_by p ∪ c; pg_down := true |}
  else Some p.

(** [PriorSet::PriorSet] with the callback of [build_prior]. *)
Definition prior_set `{!IsPGRecoverable} (past : pi_compact_rep) (ec_pool : bool) (last_epoch_started : Z) (m : map_view)
    (up acting : list Z) : option PriorSet :=
  let all_probe := all_participants past in
  let probe0 := convert_to_pg_shards ec_pool acting ∪ convert_to_pg_shards ec_pool up
                ∪ filter (fun s => state_in m 0 (osd s) = UP) all_probe in
  let down0 := set_map osd (filter (fun s => state_in m 0 (osd s) <> UP) all_probe) in
  foldl (consider m) (Some {| probe := probe0; down := down0; blocked_by := ∅; pg_down := false |})
    (iterate_mayberw_back_to last_epoch_started past).

(** [PriorSet::affected_by_map]. *)
Definition lost_changed (m : map_view) (p : PriorSet) (o : Z) : bool :=
  match blocked_by p !! o with Some l => negb (lost_at (info_of m o) =? l) | None => false end.
Definition probe_affected (m : map_view) (p : PriorSet) (s : pg_shard_t) : bool :=
  (is_down (m_map m) (osd s) && bool_decide (osd s ∉ down p))
  || (bool_decide (is_Some (blocked_by p !! osd s)) && (negb (exists_ (m_map m) (osd s)) || lost_changed m p (osd s))).
Definition down_affected (m : map_view) (p : PriorSet) (o : Z) : bool :=
  is_up (m_map m) o || negb (exists_ (m_map m) o) || lost_changed m p o.
Definition affected_by_map (m : map_view) (p : PriorSet) : bool :=
  existsb (probe_affected m p) (elements (probe p)) || existsb (down_affected m p) (elements (down p)).
End PastIntervals.

Module IntervalHistory.
Import OSDMap PastIntervals.

(** ** The compact representation of a history *)

Definition build (ec : bool) (hs : list pg_interval_t) : option pi_compact_rep :=
  foldl (fun r i => r ← r; add_interval ec i r) (Some empty_rep) hs.

Definition shards (ec : bool) (h : pg_interval_t) : gset pg_shard_t := convert_to_pg_shards ec (i_acting h).
Definition compact (ec : bool) (h : pg_interval_t) : compact_interval_t :=
  {| c_first := i_first h; c_last := i_last h; c_acting := shards ec h |}.
Definition before (a b : compact_interval_t) : Prop := c_last a < c_last b.

Record represents (ec : bool) (hs : list pg_interval_t) (r : pi_compact_rep) : Prop := {
  rp_sorted : StronglySorted before (intervals r);
  rp_last : Forall (fun c => c_last c <= last r) (intervals r);
  rp_from : forall c, c ∈ intervals r -> exists h, h ∈ hs /\ maybe_went_rw h = true /\ c = compact ec h;
  rp_kept : forall h, h ∈ hs -> maybe_went_rw h = true ->
    exists c, c ∈ intervals r /\ i_last h <= c_last c /\ c_acting c ⊆ shards ec h;
  rp_all : forall s, s ∈ all_participants r <-> exists h, h ∈ hs /\ s ∈ shards ec h
}.

Lemma build_snoc ec hs h : build ec (hs ++ [h]) = r ← build ec hs; add_interval ec h r.
Proof. unfold build. by rewrite foldl_app. Qed.

Lemma snoc_sorted {A} (R : A -> A -> Prop) l x : StronglySorted R l -> Forall (fun y => R y x) l -> StronglySorted R (l ++ [x]).
Proof.
  induction 1 as [|y l Hl IH Hy]; intros Hx; simpl; [repeat constructor|]. inversion Hx; subst. constructor; [by apply IH|].
  apply Forall_app. split; [done|]. by constructor.
Qed.

Lemma filter_StronglySorted {A} (R : A -> A -> Prop) (f : A -> bool) l : StronglySorted R l -> StronglySorted R (List.filter f l).
Proof.
  induction 1 as [|y l Hl IH Hy]; simpl; [constructor|]. destruct (f y); [|done]. constructor; [done|].
  rewrite Forall_forall in *. intros z Hz. apply Hy. apply list_elem_of_In in Hz. apply filter_In in Hz as [Hz _].
  by apply list_elem_of_In.
Qed.

Lemma represents_snoc ec hs r h r' : represents ec hs r -> add_interval ec h r = Some r' -> represents ec (hs ++ [h]) r'.
Proof.
  intros [R1 R2 R3 R4 R5] E. unfold add_interval in E. destruct (last r <? i_last h) eqn:El; [|done]. zbool.
  assert (forall s, s ∈ all_participants r ∪ shards ec h <-> exists h', h' ∈ hs ++ [h] /\ s ∈ shards ec h') as Hall.
  { intros s. rewrite elem_of_union, R5. setoid_rewrite elem_of_app. setoid_rewrite list_elem_of_singleton. naive_solver. }
  destruct (maybe_went_rw h) eqn:Erw; cbn [negb] in E; injection E as <-; split; simpl; try done.
  - apply snoc_sorted; [by apply filter_StronglySorted|]. apply Forall_forall. intros c Hc. apply list_elem_of_In, filter_In in Hc as [Hc _].
    rewrite Forall_forall in R2. unfold before. simpl. specialize (R2 c). rewrite list_elem_of_In in R2. specialize (R2 Hc). lia.
  - apply Forall_app. split; [|repeat constructor; simpl; lia]. rewrite Forall_forall in *. intros c Hc.
    apply list_elem_of_In, filter_In in Hc as [Hc _]. apply list_elem_of_In in Hc. specialize (R2 c Hc). lia.
  - intros c [Hc|Hc]%elem_of_app.
    + apply list_elem_of_In, filter_In in Hc as [Hc _]. apply list_elem_of_In in Hc.
      destruct (R3 c Hc) as (h' & ? & ?). exists h'. set_solver.
    + apply list_elem_of_singleton in Hc as ->. exists h. set_solver.
  - intros h' [Hh|Hh]%elem_of_app Hrw.
    + destruct (R4 h' Hh Hrw) as (c & Hc & Hle & Hsub).
      set (pl := {| c_first := i_first h; c_last := i_last h; c_acting := convert_to_pg_shards ec (i_acting h) |}).
      destruct (supersedes pl c) eqn:Es.
      * exists pl. split; [set_solver|]. simpl. rewrite Forall_forall in R2. specialize (R2 c Hc). split; [lia|].
        apply bool_decide_eq_true_1 in Es. simpl in Es. set_solver.
      * exists c. split; [|done]. apply elem_of_app. left. apply list_elem_of_In, filter_In. rewrite Es. by apply list_elem_of_In in Hc.
    + apply list_elem_of_singleton in Hh as ->. eexists. split; [apply elem_of_app; right; by apply list_elem_of_singleton|]. simpl. split; [lia|done].
  - rewrite Forall_forall in *. intros c Hc. specialize (R2 c Hc). lia.
  - intros c Hc. destruct (R3 c Hc) as (h' & ? & ?). exists h'. set_solver.
  - intros h' [Hh|Hh]%elem_of_app Hrw; [by apply R4|]. apply list_elem_of_singleton in Hh as ->. congruence.
Qed.

Lemma build_represents ec hs r : build ec hs = Some r -> represents ec hs r.
Proof.
  revert r. induction hs as [|h hs IH] using rev_ind; intros r E.
  - injection E as <-. split; simpl; [constructor|constructor|set_solver|set_solver|set_solver].
  - rewrite build_snoc in E. destruct (build ec hs) as [r0|]; [|done]. cbn [mbind option_bind] in E.
    by eapply represents_snoc; [apply IH|].
Qed.

(** What the callback sees: the kept intervals that reach [les]. *)
Lemma back_to_spec les l : StronglySorted (fun a b => before b a) l -> forall p,
  p ∈ back_to les l <-> exists c, c ∈ l /\ les <= c_last c /\ p = (c_first c, c_acting c).
Proof.
  induction 1 as [|c l Hl IH Hc]; intros p; simpl; [set_solver|]. rewrite Forall_forall in Hc.
  destruct (c_last c <? les) eqn:E; zbool.
  - split; [set_solver|]. intros (c' & [-> | Hin]%elem_of_cons & Hle & _); [lia|]. specialize (Hc c' Hin). unfold before in Hc. lia.
  - rewrite elem_of_cons, IH. split.
    + intros [->|(c' & ? & ? & ?)]; [exists c|exists c']; set_solver.
    + intros (c' & [-> | Hin]%elem_of_cons & Hle & ->); [by left|]. right. eauto.
Qed.

Lemma reverse_sorted {A} (R : A -> A -> Prop) l : StronglySorted R l -> StronglySorted (fun a b => R b a) (reverse l).
Proof.
  induction 1 as [|x l Hl IH Hx]; [constructor|]. rewrite reverse_cons. apply snoc_sorted; [done|]. by apply Forall_reverse.
Qed.

Lemma iterate_spec ec hs r les p : represents ec hs r ->
  p ∈ iterate_mayberw_back_to les r <-> exists c, c ∈ intervals r /\ les <= c_last c /\ p = (c_first c, c_acting c).
Proof.
  intros Hr. unfold iterate_mayberw_back_to. rewrite back_to_spec by (apply reverse_sorted, Hr).
  by setoid_rewrite elem_of_reverse.
Qed.

(** ** The prior set *)

Section Prior.
Context `{!IsPGRecoverable} (m : map_view).

Definition any_down (i : Z * gset pg_shard_t) : Prop := exists so, so ∈ i.2 /\ state_in m i.1 (osd so) = DOWN.
Definition blocks (i : Z * gset pg_shard_t) : bool :=
  negb (rec_pred (up_now m i.1 i.2)) && existsb (fun so => bool_decide (state_in m i.1 (osd so) = DOWN)) (elements i.2).

Lemma any_down_spec i : existsb (fun so => bool_decide (state_in m i.1 (osd so) = DOWN)) (elements i.2) = true <-> any_down i.
Proof.
  rewrite existsb_exists. unfold any_down. split.
  - intros (so & Hin & Hd%bool_decide_eq_true_1). exists so. split; [|done]. by apply elem_of_elements, list_elem_of_In.
  - intros (so & Hin & Hd). exists so. split; [by apply list_elem_of_In, elem_of_elements|]. by apply bool_decide_eq_true_2.
Qed.

Lemma candidates_spec start acting o l : candidates m start acting !! o = Some l <->
  l = lost_in m o /\ exists so, so ∈ acting /\ osd so = o /\ state_in m start o = DOWN.
Proof.
  unfold candidates. setoid_rewrite <- (elem_of_elements acting). generalize (elements acting) as es.
  induction es as [|so es IH]; simpl; [rewrite lookup_empty; set_solver|].
  case_bool_decide as Hd.
  - destruct (decide (osd so = o)) as [<-|Hne].
    + rewrite lookup_insert_eq. split; [intros [= <-]; split; [done|]; exists so; set_solver|]. intros [-> _]. done.
    + rewrite lookup_insert_ne by done. rewrite IH. set_solver.
  - rewrite IH. split; [set_solver|]. intros (-> & so' & [-> | Hin]%elem_of_cons & <- & Hst); [done|]. split; [done|]. eauto.
Qed.

Lemma consider_spec p i : consider m (Some p) i = Some
  {| probe := probe p; down := down p;
     blocked_by := if blocks i then blocked_by p ∪ candidates m i.1 i.2 else blocked_by p;
     pg_down := pg_down p || blocks i |}.
Proof.
  destruct i as [start acting]. unfold consider, blocks. cbn [mbind option_bind fst snd].
  destruct (negb (rec_pred _) && _) eqn:E.
  - rewrite bool_decide_eq_false_2; [by rewrite orb_true_r|]. intros Hc.
    apply andb_true_iff in E as [_ Ed]. apply (any_down_spec (start, acting)) in Ed as (so & Hin & Hst).
    assert (candidates m start acting !! osd so = Some (lost_in m (osd so))) as Hl by (apply candidates_spec; eauto).
    by rewrite Hc, lookup_empty in Hl.
  - rewrite orb_false_r. by destruct p.
Qed.

(** The fold: which intervals block, and on whom. *)
Lemma consider_all l : forall p, exists p', foldl (consider m) (Some p) l = Some p' /\
  probe p' = probe p /\ down p' = down p /\ pg_down p' = pg_down p || existsb blocks l /\
  (forall o v, blocked_by p' !! o = Some v -> blocked_by p !! o = Some v \/
     v = lost_in m o /\ exists i so, i ∈ l /\ blocks i = true /\ so ∈ i.2 /\ osd so = o /\ state_in m i.1 o = DOWN) /\
  (forall o, is_Some (blocked_by p !! o) -> blocked_by p' !! o = blocked_by p !! o) /\
  (forall i so, i ∈ l -> blocks i = true -> so ∈ i.2 -> state_in m i.1 (osd so) = DOWN -> is_Some (blocked_by p' !! osd so)).
Proof.
  induction l as [|i l IH]; intros p; cbn [foldl existsb].
  { exists p. rewrite orb_false_r. split_and!; [done..|by left|done|]. intros i so Hi. by apply not_elem_of_nil in Hi. }
  rewrite consider_spec. set (p1 := {| probe := _; down := _; blocked_by := _; pg_down := _ |}).
  destruct (IH p1) as (p' & -> & H1 & H2 & H3 & H4 & H5 & H6). exists p'. split; [done|]. split; [done|]. split; [done|].
  split; [rewrite H3; simpl; by rewrite orb_assoc|].
  assert (forall o, is_Some (blocked_by p !! o) -> blocked_by p1 !! o = blocked_by p !! o) as Hp1.
  { intros o [v Hv]. simpl. destruct (blocks i); [|done]. rewrite Hv. by apply lookup_union_Some_l. }
  split; [|split].
  - intros o v Hv. destruct (H4 o v Hv) as [Hv1|(-> & i' & so & Hin & Hr)]; [|right; split; [done|]; exists i', so; set_solver].
    simpl in Hv1. destruct (blocks i) eqn:Eb; [|by left]. apply lookup_union_Some_raw in Hv1 as [Hv1|[_ Hv1]]; [by left|].
    right. apply candidates_spec in Hv1 as (-> & so & Hso & <- & Hst). split; [done|]. exists i, so. set_solver.
  - intros o Ho. rewrite H5; [by apply Hp1|]. rewrite Hp1; done.
  - intros i' so [-> | Hin]%elem_of_cons Hb Hso Hst; [|by eapply H6].
    assert (is_Some (blocked_by p1 !! osd so)) as Hs.
    { simpl. rewrite Hb. destruct (blocked_by p !! osd so) eqn:E0; [by erewrite lookup_union_Some_l|].
      rewrite lookup_union_r by done. exists (lost_in m (osd so)). apply candidates_spec. eauto. }
    rewrite H5 by done. done.
Qed.
End Prior.

(** ** Two maps between which the prior set is unaffected *)

Section TwoMaps.
Context `{!IsPGRecoverable} (m m' : map_view).

Definition lost_grows : Prop := forall o, lost_at (info_of m o) <= lost_at (info_of m' o).

Lemma state_up m0 start o : state_in m0 start o = UP <-> is_up (m_map m0) o = true.
Proof. unfold state_in. repeat case_match; naive_solver. Qed.
Lemma state_down m0 start o : state_in m0 start o = DOWN <->
  is_up (m_map m0) o = false /\ exists_ (m_map m0) o = true /\ lost_at (info_of m0 o) <= start.
Proof. unfold state_in. destruct (is_up (m_map m0) o), (exists_ (m_map m0) o), (start <? lost_at (info_of m0 o)) eqn:E; zbool; simpl; intuition (try done; try lia). Qed.
Lemma state_lost m0 start o : state_in m0 start o = LOST <->
  is_up (m_map m0) o = false /\ exists_ (m_map m0) o = true /\ start < lost_at (info_of m0 o).
Proof. unfold state_in. destruct (is_up (m_map m0) o), (exists_ (m_map m0) o), (start <? lost_at (info_of m0 o)) eqn:E; zbool; simpl; intuition (try done; try lia). Qed.

Lemma state_exists m0 start o : exists_ (m_map m0) o = true -> state_in m0 start o <> DNE.
Proof. unfold state_in. intros ->. repeat case_match; done. Qed.

(** The participants stand in the two maps as an unaffected prior set needs. *)
Record agree (P : gset pg_shard_t) : Prop := {
  ag_up : forall s, s ∈ P -> is_up (m_map m) (osd s) = is_up (m_map m') (osd s);
  ag_ex : forall s, s ∈ P -> exists_ (m_map m) (osd s) = true /\ exists_ (m_map m') (osd s) = true;
  ag_lost : lost_grows
}.

Lemma agree_up_now P i : agree P -> i.2 ⊆ P -> up_now m i.1 i.2 ⊆ up_now m' i.1 i.2.
Proof.
  intros [Au Ae Al] Hsub s. unfold up_now. rewrite !elem_of_filter. intros [Hs Hin]. split; [|done].
  specialize (Au s (Hsub s Hin)). destruct (Ae s (Hsub s Hin)) as [E1 E2]. specialize (Al (osd s)).
  destruct Hs as [Hs|Hs]; [left|right].
  - apply state_up in Hs. apply state_up. congruence.
  - apply state_lost in Hs as (? & ? & ?). apply state_lost. split_and!; [congruence|done|lia].
Qed.

Lemma agree_down P i s : agree P -> i.2 ⊆ P -> s ∈ i.2 -> state_in m' i.1 (osd s) = DOWN -> state_in m i.1 (osd s) = DOWN.
Proof.
  intros [Au Ae Al] Hsub Hin (E1 & E2 & E3)%state_down. apply state_down. specialize (Au s (Hsub s Hin)).
  destruct (Ae s (Hsub s Hin)). specialize (Al (osd s)). split_and!; [congruence|done|lia].
Qed.

(** An interval blocks in the new map only when it did before... *)
Lemma agree_blocks P i : agree P -> i.2 ⊆ P -> blocks m' i = true -> blocks m i = true.
Proof.
  intros A Hsub [Hr Hd]%andb_true_iff. apply andb_true_iff. split.
  - destruct (rec_pred (up_now m i.1 i.2)) eqn:E; [|done]. by rewrite (rec_mono _ _ (agree_up_now P i A Hsub) E) in Hr.
  - apply any_down_spec. apply any_down_spec in Hd as (s & Hin & Hs). exists s. split; [done|]. by apply (agree_down P).
Qed.

(** ... and, where no blocking OSD was marked lost meanwhile, whenever it did,
    on the same OSDs. *)
Section Fixed.
Context (P : gset pg_shard_t) (i : Z * gset pg_shard_t) (A : agree P) (Hsub : i.2 ⊆ P)
  (Hfix : forall s, s ∈ i.2 -> state_in m i.1 (osd s) = DOWN -> lost_at (info_of m' (osd s)) = lost_at (info_of m (osd s))).

Lemma fixed_down s : s ∈ i.2 -> state_in m i.1 (osd s) = DOWN <-> state_in m' i.1 (osd s) = DOWN.
Proof.
  intros Hin. split; [|by apply (agree_down P)]. intros Hd. pose proof (Hfix s Hin Hd) as Hl.
  apply state_down in Hd as (E1 & E2 & E3). apply state_down. pose proof (ag_up P A s (Hsub s Hin)).
  destruct (ag_ex P A s (Hsub s Hin)). split_and!; [congruence|done|lia].
Qed.

Lemma fixed_up_now : up_now m i.1 i.2 = up_now m' i.1 i.2.
Proof.
  apply set_eq. intros s. split; [apply (agree_up_now P i A Hsub)|]. unfold up_now. rewrite !elem_of_filter. intros [Hs Hin].
  split; [|done]. destruct (ag_ex P A s (Hsub s Hin)) as [E1 _]. pose proof (state_exists m i.1 (osd s) E1) as Hne.
  destruct (state_in m i.1 (osd s)) eqn:Est; [by left| |done|by right]. apply (fixed_down s Hin) in Est. destruct Hs; congruence.
Qed.

Lemma fixed_blocks : blocks m' i = blocks m i.
Proof.
  unfold blocks. rewrite fixed_up_now. f_equal. apply eq_true_iff_eq. rewrite !any_down_spec. unfold any_down.
  split; intros (s & Hin & Hs); exists s; (split; [done|]); by apply fixed_down.
Qed.

Lemma fixed_candidates : candidates m' i.1 i.2 = candidates m i.1 i.2.
Proof.
  apply map_eq. intros o. apply option_eq. intros v. rewrite !candidates_spec.
  split; intros (-> & s & Hin & <- & Hs).
  - pose proof Hs as Hs'. apply (fixed_down s Hin) in Hs. pose proof (Hfix s Hin Hs).
    destruct (ag_ex P A s (Hsub s Hin)) as [E1 E2]. split; [unfold lost_in; rewrite E1, E2; congruence|]. eauto.
  - pose proof (Hfix s Hin Hs). apply (fixed_down s Hin) in Hs.
    destruct (ag_ex P A s (Hsub s Hin)) as [E1 E2]. split; [unfold lost_in; rewrite E1, E2; congruence|]. eauto.
Qed.
End Fixed.

Lemma agree_filter_up P : agree P ->
  filter (fun s => state_in m 0 (osd s) = UP) P = filter (fun s => state_in m' 0 (osd s) = UP) P /\
  filter (fun s => state_in m 0 (osd s) <> UP) P = filter (fun s => state_in m' 0 (osd s) <> UP) P.
Proof. intros [Au _ _]. split; apply set_eq; intros s; rewrite !elem_of_filter, !state_up; split; intros [H1 H2]; rewrite <- ?Au in *; by rewrite ?Au in *. Qed.

Lemma consider_same P l : agree P -> (forall i, i ∈ l -> i.2 ⊆ P) ->
  (forall i s, i ∈ l -> blocks m i = true -> s ∈ i.2 -> state_in m i.1 (osd s) = DOWN ->
     lost_at (info_of m' (osd s)) = lost_at (info_of m (osd s))) ->
  forall p, foldl (consider m') (Some p) l = foldl (consider m) (Some p) l.
Proof.
  intros A. induction l as [|i l IH]; intros Hsub Hfix p; [done|]. cbn [foldl]. rewrite !consider_spec.
  assert (i.2 ⊆ P) as Hi by (apply Hsub; set_solver).
  destruct (blocks m i) eqn:Eb.
  - assert (forall s, s ∈ i.2 -> state_in m i.1 (osd s) = DOWN -> lost_at (info_of m' (osd s)) = lost_at (info_of m (osd s))) as Hf
      by (intros s; apply Hfix; set_solver).
    rewrite (fixed_blocks P i A Hi Hf), Eb, (fixed_candidates P i A Hi Hf). apply IH; set_solver.
  - destruct (blocks m' i) eqn:Eb'; [by rewrite (agree_blocks P i A Hi Eb') in Eb|]. apply IH; set_solver.
Qed.
End TwoMaps.
(** What the construction leaves behind, whatever the map. *)
Section Built.
Context `{!IsPGRecoverable} (ec : bool) (hs : list pg_interval_t) (r : pi_compact_rep) (Hr : represents ec hs r)
  (les : Z) (m : map_view) (up acting : list Z) (p : PriorSet) (Hp : prior_set r ec les m up acting = Some p).

Lemma built_probe s : s ∈ all_participants r -> is_up (m_map m) (osd s) = true -> s ∈ probe p.
Proof.
  intros Hs Hu. unfold prior_set in Hp. edestruct (consider_all m) as (p1 & Hp1 & E1 & _). rewrite Hp1 in Hp.
  injection Hp as ->. rewrite E1. apply elem_of_union. right. apply elem_of_filter. split; [by apply state_up|done].
Qed.

Lemma built_down s : s ∈ all_participants r -> osd s ∈ down p <-> is_up (m_map m) (osd s) = false.
Proof.
  intros Hs. unfold prior_set in Hp. edestruct (consider_all m) as (p1 & Hp1 & _ & E2 & _). rewrite Hp1 in Hp.
  injection Hp as ->. rewrite E2. cbn [down]. rewrite elem_of_map. setoid_rewrite elem_of_filter. setoid_rewrite state_up. split.
  - intros (s' & -> & Hu & _). by apply not_true_iff_false.
  - intros Hu. exists s. by rewrite Hu.
Qed.

Lemma built_blocked i s : i ∈ iterate_mayberw_back_to les r -> blocks m i = true -> s ∈ i.2 ->
  state_in m i.1 (osd s) = DOWN -> blocked_by p !! osd s = Some (lost_at (info_of m (osd s))).
Proof.
  intros Hi Hb Hs Hd. unfold prior_set in Hp. edestruct (consider_all m) as (p1 & Hp1 & _ & _ & _ & E4 & _ & E6).
  rewrite Hp1 in Hp. injection Hp as ->. destruct (E6 i s Hi Hb Hs Hd) as [v Hv].
  cbn [blocked_by] in E4.
  destruct (E4 _ _ Hv) as [Hv'|[-> _]]; [by rewrite lookup_empty in Hv'|]. rewrite Hv. f_equal.
  apply state_down in Hd as (_ & He & _). unfold lost_in. by rewrite He.
Qed.

Lemma reported_participants i : i ∈ iterate_mayberw_back_to les r -> i.2 ⊆ all_participants r.
Proof.
  intros (c & Hc & _ & ->)%(iterate_spec ec hs); [|done]. destruct (rp_from _ _ _ Hr c Hc) as (h & Hh & _ & ->).
  intros s Hs. apply (rp_all _ _ _ Hr). by exists h.
Qed.

(** An answer of false from [affected_by_map], read member by member. *)
Section Unaffected.
Context (m' : map_view) (Hu : affected_by_map m' p = false).

Lemma unaffected_probe s : s ∈ probe p -> probe_affected m' p s = false.
Proof.
  intros Hs. apply not_true_iff_false. intros Ht. apply orb_false_iff in Hu as [Ha _]. apply not_true_iff_false in Ha.
  apply Ha, existsb_exists. exists s. split; [by apply list_elem_of_In, elem_of_elements|done].
Qed.
Lemma unaffected_down o : o ∈ down p -> is_up (m_map m') o = false /\ exists_ (m_map m') o = true /\ lost_changed m' p o = false.
Proof.
  intros Ho. apply orb_false_iff in Hu as [_ Ha].
  assert (down_affected m' p o = false) as [[H1 H2]%orb_false_iff H3]%orb_false_iff; [|by rewrite negb_false_iff in H2].
  apply not_true_iff_false. intros Ht. apply not_true_iff_false in Ha.
  apply Ha, existsb_exists. exists o. split; [by apply list_elem_of_In, elem_of_elements|done].
Qed.

Lemma unaffected_up s : s ∈ all_participants r -> is_up (m_map m) (osd s) = is_up (m_map m') (osd s).
Proof.
  intros Hs. destruct (is_up (m_map m) (osd s)) eqn:Eu.
  - pose proof Eu as [Ha _]%built_probe%unaffected_probe%orb_false_iff; [|done]. unfold is_down in Ha.
    destruct (is_up (m_map m') (osd s)) eqn:Eu'; [done|]. simpl in Ha. apply bool_decide_eq_false_1, dec_stable in Ha.
    apply built_down in Ha; congruence.
  - apply built_down, unaffected_down in Eu as (-> & _); done.
Qed.

Lemma unaffected_agree : (forall s, s ∈ all_participants r -> exists_ (m_map m) (osd s) = true) -> lost_grows m m' ->
  agree m m' (all_participants r).
Proof.
  intros Hex Hl. split; [apply unaffected_up| |done]. intros s Hs. split; [by apply Hex|].
  destruct (is_up (m_map m) (osd s)) eqn:Eu; [|by apply built_down, unaffected_down in Eu as (_ & ? & _)].
  rewrite unaffected_up in Eu by done. unfold is_up in Eu. by apply andb_true_iff in Eu as [? _].
Qed.

Lemma unaffected_lost i s : i ∈ iterate_mayberw_back_to les r -> blocks m i = true -> s ∈ i.2 ->
  state_in m i.1 (osd s) = DOWN -> lost_at (info_of m' (osd s)) = lost_at (info_of m (osd s)).
Proof.
  intros Hi Hb Hs Hd. pose proof (built_blocked i s Hi Hb Hs Hd) as Hk. apply state_down in Hd as (Eu & _).
  apply built_down, unaffected_down in Eu as (_ & _ & Hc); [|by apply (reported_participants i)].
  unfold lost_changed in Hc. rewrite Hk in Hc. by apply negb_false_iff, Z.eqb_eq in Hc.
Qed.
End Unaffected.
End Built.
End IntervalHistory.

Module PastTheorems.
Import OSDMap PastIntervals IntervalHistory.

(** C14: the compact representation of past intervals loses no obligation.  Of any
    history it was built from ([add_interval] for each interval, oldest first),
    what [iterate_mayberw_back_to] reports for [last_epoch_started] are intervals
    of that history that may have accepted writes and that reach it, newest
    first; and for every such interval of the history, dropped or kept, it
    reports one that is not older and whose acting set is contained in its own:
    hearing from a member of each reported interval is hearing from a member of
    each.  The participants are exactly those of the whole history. *)
Theorem compact_rep_refines_history ec hs r les : build ec hs = Some r ->
  (forall p, p ∈ iterate_mayberw_back_to les r -> exists h, h ∈ hs /\ maybe_went_rw h = true /\ les <= i_last h /\
     p = (i_first h, shards ec h)) /\
  (forall h, h ∈ hs -> maybe_went_rw h = true -> les <= i_last h ->
     exists h', h' ∈ hs /\ maybe_went_rw h' = true /\ i_last h <= i_last h' /\ shards ec h' ⊆ shards ec h /\
       (i_first h', shards ec h') ∈ iterate_mayberw_back_to les r) /\
  (forall s, s ∈ all_participants r <-> exists h, h ∈ hs /\ s ∈ shards ec h) /\
  StronglySorted (fun a b => before b a) (reverse (intervals r)).
Proof.
  intros Hr%build_represents. split_and!.
  - intros p (c & Hc & Hle & ->)%(iterate_spec ec hs); [|done]. destruct (rp_from _ _ _ Hr c Hc) as (h & ? & ? & ->). by exists h.
  - intros h Hh Hrw Hle. destruct (rp_kept _ _ _ Hr h Hh Hrw) as (c & Hc & Hlc & Hsub).
    destruct (rp_from _ _ _ Hr c Hc) as (h' & ? & ? & ->). exists h'. split_and!; [done..|].
    apply (iterate_spec ec hs); [done|]. exists (compact ec h'). split_and!; [done|simpl in *; lia|done].
  - apply Hr.
  - apply reverse_sorted, Hr.
Qed.

Section Cover.
Context `{!IsPGRecoverable}.


(** a new map that [affected_by_map] ignores gives the same prior set.  For
    any backend, if every participant existed in the old map and no [lost_at]
    went backwards, then an answer of false means that building the prior set
    again on the new map gives the one already held, so peering need not
    restart. *)
Theorem unaffected_prior_set_same ec hs r les m m' up acting p : build ec hs = Some r ->
  prior_set r ec les m up acting = Some p ->
  (forall s, s ∈ all_participants r -> exists_ (m_map m) (osd s) = true) ->
  lost_grows m m' ->
  affected_by_map m' p = false ->
  prior_set r ec les m' up acting = Some p.
Proof.
  intros Hb%build_represents Hp Hex Hl Hu. pose proof (unaffected_agree ec r les m up acting p Hp m' Hu Hex Hl) as A.
  rewrite <- Hp. unfold prior_set.
  replace (filter (fun s => state_in m' 0 (osd s) = UP) (all_participants r))
    with (filter (fun s => state_in m 0 (osd s) = UP) (all_participants r)) by (apply (agree_filter_up m m' _ A)).
  replace (filter (fun s => state_in m' 0 (osd s) <> UP) (all_participants r))
    with (filter (fun s => state_in m 0 (osd s) <> UP) (all_participants r)) by (apply (agree_filter_up m m' _ A)).
  apply (consider_same m m' (all_participants r)); [done| |].
  - intros i. by apply (reported_participants ec hs).
  - intros i s. by apply (unaffected_lost ec hs r Hb les m up acting p Hp m' Hu).
Qed.

(** a destroyed participant keeps a prior set affected.  When some participant
    of the past intervals no longer exists in a map, the prior set built on that
    very map counts it as down, and [affected_by_map] on the same map answers
    true: every later map restarts peering although nothing changed. *)
Theorem destroyed_participant_always_affects r ec les m up acting p s :
  prior_set r ec les m up acting = Some p ->
  s ∈ all_participants r -> exists_ (m_map m) (osd s) = false ->
  affected_by_map m p = true.
Proof.
  intros Hp Hs He. apply orb_true_iff. right. apply existsb_exists. exists (osd s). split.
  - apply list_elem_of_In, elem_of_elements. apply (built_down ec r les m up acting p Hp s Hs). unfold is_up. by rewrite He.
  - unfold down_affected. by rewrite He, orb_true_r.
Qed.
End Cover.

(** ** Concrete histories *)

(** The first test instance of [pi_compact_rep]. *)
Definition ival (acting : list Z) (f l : Z) (rw : bool) : pg_interval_t :=
  {| i_up := acting; i_acting := acting; i_first := f; i_last := l; maybe_went_rw := rw;
     i_primary := hd 0 acting; i_up_primary := hd 0 acting |}.
Definition test_history : list pg_interval_t :=
  [ival [0; 1; 2] 10 20 true; ival [1; 2] 21 30 true; ival [2] 31 35 false; ival [0; 2] 36 50 true].
Definition test_rep : pi_compact_rep := default empty_rep (build false test_history).

(** A map of four OSDs with the given states: 1 exists, 3 exists and is up. *)
Definition test_map (states : list Z) (lost3 : Z) : map_view := {|
  m_epoch := 51; m_flags := 0;
  m_map := {| max_osd := 4; osd_state := states; osd_weight := []; osd_primary_affinity := None; pools := ∅;
              pg_temp := ∅; primary_temp := ∅; pg_upmap := ∅; pg_upmap_items := ∅ |};
  m_info := [{| up_from := 1; up_thru := 50; lost_at := 0 |}; {| up_from := 1; up_thru := 50; lost_at := 0 |};
             {| up_from := 1; up_thru := 50; lost_at := 0 |}; {| up_from := 1; up_thru := 50; lost_at := lost3 |}];
  m_pools := ∅ |}.

Lemma test_build : build false test_history = Some test_rep.
Proof. vm_compute. reflexivity. Qed.

Lemma compact_rep_refines_history_witness :
  length (intervals test_rep) = 2%nat /\
  exists h', h' ∈ test_history /\ maybe_went_rw h' = true /\ 20 <= i_last h' /\
    shards false h' ⊆ shards false (ival [0; 1; 2] 10 20 true) /\
    (i_first h', shards false h') ∈ iterate_mayberw_back_to 5 test_rep.
Proof.
  split; [vm_compute; reflexivity|].
  destruct (compact_rep_refines_history false test_history test_rep 5 test_build) as (_ & H & _).
  apply (H (ival [0; 1; 2] 10 20 true)); [by left|reflexivity|vm_compute; discriminate].
Defined.


Definition test_prior : PriorSet :=
  default {| probe := ∅; down := ∅; blocked_by := ∅; pg_down := false |}
    (prior_set test_rep false 5 (test_map [3; 1; 1; 3] 0) [0; 3] [0; 3]).

Lemma unaffected_prior_set_same_witness :
  prior_set test_rep false 5 (test_map [3; 1; 1; 3] 40) [0; 3] [0; 3] = Some test_prior.
Proof.
  apply (unaffected_prior_set_same false test_history test_rep 5 (test_map [3; 1; 1; 3] 0) (test_map [3; 1; 1; 3] 40)).
  - exact test_build.
  - vm_compute. reflexivity.
  - intros s Hs%elem_of_elements. revert s Hs. apply Forall_forall. apply (bool_decide_eq_true_1 _). vm_compute. reflexivity.
  - intros o. unfold info_of. simpl. destruct (Z.to_nat o) as [|[|[|[|n]]]]; simpl; lia.
  - vm_compute. reflexivity.
Defined.

Lemma destroyed_participant_always_affects_witness :
  option_map (affected_by_map (test_map [3; 0; 3; 3] 0))
    (prior_set test_rep false 5 (test_map [3; 0; 3; 3] 0) [0; 3] [0; 3]) = Some true.
Proof.
  destruct (prior_set test_rep false 5 (test_map [3; 0; 3; 3] 0) [0; 3] [0; 3]) as [p|] eqn:Hp; [|vm_compute in Hp; discriminate].
  cbn [option_map]. f_equal.
  apply (destroyed_participant_always_affects test_rep false 5 (test_map [3; 0; 3; 3] 0) [0; 3] [0; 3] p (mk_shard 1 NO_SHARD) Hp).
  - apply (bool_decide_eq_true_1 _). vm_compute. reflexivity.
  - vm_compute. reflexivity.
Defined.
End PastTheorems.
