(* ===== verification/PeerChoice.v ===== *)
(** The choice of an acting set, src/ceph-15.2.17/src/osd/PeeringState.cc: which
    replica has the authoritative log ([find_best_info]), which OSDs should act
    and which need backfill ([calc_replicated_acting], [calc_ec_acting]), which
    of them may recover in the background ([choose_async_recovery_ec],
    [choose_async_recovery_replicated]), and the request for the change
    ([choose_acting]). *)
From S2P Require Import Prelude Pg Hobject OSDMap PgMissing PastIntervals.
Import Bits.

Module PeerChoice.
Import Eversion PastIntervals.
Import OSDMap(CRUSH_ITEM_NONE, NO_SHARD).
Import PgPool(type, size, TYPE_REPLICATED, TYPE_ERASURE).

(** ** Infos *)

(** The part of [pg_info_t] that the choice reads; [history_les] is
    [history.last_epoch_started], [num_objects_missing] that of [stats]. *)
Record pg_info_t := {
  last_update : eversion_t;
  last_complete : eversion_t;
  last_epoch_started : Z;
  log_tail : eversion_t;
  last_backfill : Hobject.hobject_t;
  history_les : Z;
  num_objects_missing : Z
}.

Definition has_missing (i : pg_info_t) : bool := negb (last_complete i =? last_update i)%ev.
Definition is_incomplete (i : pg_info_t) : bool := negb (Hobject.max (last_backfill i)).

(** [std::map<pg_shard_t, pg_info_t>]: an association list in key order. *)
Definition infos_t := list (pg_shard_t * pg_info_t).
Definition shard_lt (a b : pg_shard_t) : bool :=
  (osd a <? osd b) || ((osd a =? osd b) && (shard a <? shard b)).
Fixpoint find (k : pg_shard_t) (l : infos_t) : option pg_info_t :=
  match l with
  | [] => None
  | (k', v) :: l => if bool_decide (k = k') then Some v else find k l
  end.
Fixpoint set_info (k : pg_shard_t) (v : pg_info_t) (l : infos_t) : infos_t :=
  match l with
  | [] => [(k, v)]
  | (k', v') :: l' =>
    if shard_lt k k' then (k, v) :: l
    else if bool_decide (k = k') then (k, v) :: l'
    else (k', v') :: set_info k v l'
  end.

(** [PeeringState::has_shard]. *)
Definition has_shard (ec : bool) (v : list Z) (s : pg_shard_t) : bool :=
  if ec then (u32 (shard s) <? Z.of_nat (length v)) && bool_decide (v !! Z.to_nat (u32 (shard s)) = Some (osd s))
  else bool_decide (osd s ∈ v).

(** ** Configuration, features and state *)

Record conf := {
  osd_find_best_info_ignore_history_les : bool;
  osd_force_auth_primary_missing_objects : Z;
  osd_allow_recovery_below_min_size : bool;
  osd_async_recovery_min_cost : Z;
  osd_debug_no_acting_change : bool;
  server_mimic : bool;
  server_nautilus : bool;
  server_octopus : bool
}.

Record PeeringState := {
  cct : conf;
  pg_whoami : pg_shard_t;
  primary : pg_shard_t;
  pool : pool_view;
  pg_size : Z;
  info : pg_info_t;
  peer_info : infos_t;
  up : list Z;
  acting : list Z;
  up_primary : pg_shard_t;
  stray_set : gset pg_shard_t;
  num_missing : Z;
  peer_missing : gmap pg_shard_t Z;
  want_acting : list Z;
  acting_recovery_backfill : gset pg_shard_t;
  backfill_targets : gset pg_shard_t;
  async_recovery_targets : gset pg_shard_t;
  want_pg_temp : list (list Z)
}.

Section Choice.
Context (st : PeeringState).

Definition ec_pool : bool := is_erasure (p_pool (pool st)).
Definition is_up (s : pg_shard_t) : bool := has_shard ec_pool (up st) s.
Definition is_acting (s : pg_shard_t) : bool := has_shard ec_pool (acting st) s.

(** ** The authoritative log *)

(** First loop: the largest [last_epoch_started], and whether it is only known
    from somebody's history. *)
Definition les_step (acc : bool * Z) (p : pg_shard_t * pg_info_t) : bool * Z :=
  let i := p.2 in
  let acc := if negb (osd_find_best_info_ignore_history_les (cct st)) && (acc.2 <? history_les i)
             then (true, history_les i) else acc in
  if negb (is_incomplete i) && (acc.2 <? last_epoch_started i) then (false, last_epoch_started i) else acc.
Definition max_les (bound : bool) (infos : infos_t) : bool * Z := foldl les_step (bound, 0) infos.

(** Second loop: the least [last_update] among those that reached it. *)
Definition min_step (les : Z) (acc : eversion_t) (p : pg_shard_t * pg_info_t) : eversion_t :=
  if (les <=? last_epoch_started p.2) && (last_update p.2 <? acc)%ev then last_update p.2 else acc.
Definition min_last_update_acceptable (les : Z) (infos : infos_t) : eversion_t := foldl (min_step les) Eversion.max infos.

(** Third loop. *)
Definition disqualified (restrict : bool) (les : Z) (minlu : eversion_t) (p : pg_shard_t * pg_info_t) : bool :=
  (restrict && negb (is_up p.1) && negb (is_acting p.1))
  || (last_update p.2 <? minlu)%ev || (last_epoch_started p.2 <? les) || is_incomplete p.2.

(** Whether [p] takes the place of the best so far. *)
Definition preferred (p best : pg_shard_t * pg_info_t) : bool :=
  let lp := last_update p.2 in let lb := last_update best.2 in
  let '(worse, better) := if ec_pool then ((lb <? lp)%ev, (lp <? lb)%ev) else ((lp <? lb)%ev, (lb <? lp)%ev) in
  if worse then false
  else if better then true
  else if (log_tail best.2 <? log_tail p.2)%ev then false
  else if (log_tail p.2 <? log_tail best.2)%ev then true
  else if negb (has_missing p.2) && has_missing best.2 then true
  else if has_missing p.2 && negb (has_missing best.2) then false
  else bool_decide (p.1 = pg_whoami st).

Definition best_step (restrict : bool) (les : Z) (minlu : eversion_t) (best : option (pg_shard_t * pg_info_t))
    (p : pg_shard_t * pg_info_t) : option (pg_shard_t * pg_info_t) :=
  if disqualified restrict les minlu p then best
  else match best with
       | None => Some p
       | Some b => if preferred p b then Some p else Some b
       end.

Definition find_best_info (infos : infos_t) (restrict : bool) (history_les_bound : bool)
    : option (pg_shard_t * pg_info_t) * bool :=
  let '(bound, les) := max_les history_les_bound infos in
  let minlu := min_last_update_acceptable les infos in
  if (minlu =? Eversion.max)%ev then (None, bound)
  else (foldl (best_step restrict les minlu) None infos, bound).

(** ** Erasure-coded pools *)

Record wants := mk_wants { want : list Z; backfill : gset pg_shard_t; acting_backfill : gset pg_shard_t }.

(** Complete, and within reach of the authoritative log. *)
Definition usable (tail : eversion_t) (i : pg_info_t) : bool := negb (is_incomplete i) && (tail <=? last_update i)%ev.

Definition member_at (v : list Z) (i : nat) : option Z :=
  match v !! i with Some o => if o =? CRUSH_ITEM_NONE then None else Some o | None => None end.

(** Whether position [i] of [v] is filled by a usable shard. *)
Definition usable_at (all_info : infos_t) (tail : eversion_t) (v : list Z) (i : nat) : option bool :=
  match member_at v i with
  | None => Some false
  | Some o => x ← find (mk_shard o (Z.of_nat i)) all_info; Some (usable tail x)
  end.

Fixpoint first_stray (tail : eversion_t) (i : nat) (l : infos_t) : Z :=
  match l with
  | [] => CRUSH_ITEM_NONE
  | (s, x) :: l => if (shard s =? Z.of_nat i) && usable tail x then osd s else first_stray tail i l
  end.

(** One position: what it wants, and whether its up member needs backfill. *)
Definition ec_position (all_info : infos_t) (tail : eversion_t) (restrict : bool) (i : nat) : option (Z * bool) :=
  u ← usable_at all_info tail (up st) i;
  if (u : bool) then Some (nth i (up st) CRUSH_ITEM_NONE, false)
  else
    let bf := bool_decide (is_Some (member_at (up st) i)) in
    a ← usable_at all_info tail (acting st) i;
    if (a : bool) then Some (nth i (acting st) CRUSH_ITEM_NONE, bf)
    else Some (if restrict then CRUSH_ITEM_NONE else first_stray tail i all_info, bf).

(** A shard number is an [int8_t] and the loop counter a [uint8_t]: the model
    covers pools of at most 128 positions, and fails beyond. *)
Definition calc_ec_acting (auth : pg_info_t) (size : Z) (all_info : infos_t) (restrict : bool) : option wants :=
  ceph_assert (size <=? 128) ;;
  ps ← mapM (ec_position all_info (log_tail auth) restrict) (seq 0 (Z.to_nat size));
  let bf : gset pg_shard_t := list_to_set (omap (fun i => if (default (CRUSH_ITEM_NONE, false) (ps !! i)).2
                                 then Some (mk_shard (nth i (up st) CRUSH_ITEM_NONE) (Z.of_nat i)) else None)
                           (seq 0 (Z.to_nat size))) in
  let w := ps.*1 in
  Some (mk_wants w bf (convert_to_pg_shards true w ∪ bf)).

(** ** Replicated pools *)

Definition whole (o : Z) : pg_shard_t := mk_shard o NO_SHARD.

(** [lhs - rhs] of versions added to a count of objects: [uint64_t] arithmetic. *)
Definition approx_missing (objects a b : Z) : Z := add64 objects (sub64 a b).

Definition select_primary (auth : pg_shard_t * pg_info_t) (all_info : infos_t) : option (pg_shard_t * pg_info_t) :=
  let fallback := ceph_assert (negb (is_incomplete auth.2)) ;; Some auth in
  match up st with
  | [] => fallback
  | _ =>
    p ← find (up_primary st) all_info;
    if usable (log_tail auth.2) p then
      if server_nautilus (cct st) then
        let av := version (last_update auth.2) in let pv := version (last_update p) in
        let approx := if pv <? av then approx_missing (num_objects_missing p) av pv
                      else approx_missing (num_objects_missing p) pv av in
        if osd_force_auth_primary_missing_objects (cct st) <? approx then Some auth else Some (up_primary st, p)
      else Some (up_primary st, p)
    else fallback
  end.

(** A peer that its log cannot bring up to date. *)
Definition rejected (oldest : eversion_t) (i : pg_info_t) : bool := is_incomplete i || (last_update i <? oldest)%ev.

Fixpoint add_up (all_info : infos_t) (prim : pg_shard_t) (oldest : eversion_t) (l : list Z) (w : wants) : option wants :=
  match l with
  | [] => Some w
  | i :: l =>
    let cand := whole i in
    if bool_decide (cand = prim) then add_up all_info prim oldest l w
    else
      cur ← find cand all_info;
      add_up all_info prim oldest l
        (if rejected oldest cur then mk_wants (want w) ({[cand]} ∪ backfill w) ({[cand]} ∪ acting_backfill w)
         else mk_wants (want w ++ [i]) (backfill w) ({[cand]} ∪ acting_backfill w))
  end.

Fixpoint acting_candidates (all_info : infos_t) (prim : pg_shard_t) (oldest : eversion_t) (l : list Z) : option (list (eversion_t * Z)) :=
  match l with
  | [] => Some []
  | i :: l =>
    if bool_decide (whole i = prim) || bool_decide (i ∈ up st) then acting_candidates all_info prim oldest l
    else
      cur ← find (whole i) all_info;
      cs ← acting_candidates all_info prim oldest l;
      Some (if rejected oldest cur then cs else (last_update cur, i) :: cs)
  end.

Definition stray_candidates (prim : pg_shard_t) (oldest : eversion_t) (all_info : infos_t) : list (eversion_t * Z) :=
  omap (fun p => if bool_decide (p.1 = prim) || bool_decide (osd p.1 ∈ up st) || bool_decide (osd p.1 ∈ acting st)
                    || rejected oldest p.2
                 then None else Some (last_update p.2, osd p.1)) all_info.

(** Candidates are taken until [size] is reached; [true] is the early return. *)
Fixpoint accept (all_info : infos_t) (size : Z) (l : list (eversion_t * Z)) (w : wants) : option (bool * wants) :=
  match l with
  | [] => Some (false, w)
  | (_, o) :: l =>
    ceph_assert (Z.of_nat (length (want w)) <? size) ;;
    _ ← find (whole o) all_info;
    let w := mk_wants (want w ++ [o]) (backfill w) ({[whole o]} ∪ acting_backfill w) in
    if size <=? Z.of_nat (length (want w)) then Some (true, w) else accept all_info size l w
  end.
End Choice.

(** [std::sort] of the candidates, newest first; the order of equals is left to
    the implementation. *)
Class StdSort := {
  sort_desc : list (eversion_t * Z) -> list (eversion_t * Z);
  sort_perm : forall l, Permutation (sort_desc l) l;
  sort_sorted : forall l, StronglySorted (fun a b => (a.1 <? b.1)%ev = false) (sort_desc l)
}.

Section Acting.
Context `{!StdSort} (st : PeeringState).

Definition calc_replicated_acting (auth : pg_shard_t * pg_info_t) (size : Z) (all_info : infos_t) (restrict : bool) : option wants :=
  prim ← select_primary st auth all_info;
  let w := mk_wants [osd prim.1] ∅ {[prim.1]} in
  let oldest := min_ev (log_tail prim.2) (log_tail auth.2) in
  w ← add_up all_info prim.1 oldest (up st) w;
  if size <=? Z.of_nat (length (want w)) then Some w
  else
    cs ← acting_candidates st all_info prim.1 oldest (acting st);
    '(done, w) ← accept all_info size (sort_desc cs) w;
    if (done : bool) then Some w
    else if restrict then Some w
    else
      let cs := stray_candidates st prim.1 oldest all_info in
      '(_, w) ← accept all_info size (sort_desc cs) w;
      Some w.
End Acting.

(** ** Recoverability and asynchronous recovery *)

Section Async.
Context `{!IsPGRecoverable} (st : PeeringState).

Definition recoverable (w : list Z) : bool :=
  let below := num_real w <? p_min_size (pool st) in
  if below && ec_pool st && negb (server_octopus (cct st)) then false
  else if below && negb (osd_allow_recovery_below_min_size (cct st)) then false
  else rec_pred (convert_to_pg_shards (ec_pool st) w).

(** [std::set<pair<int, pg_shard_t>>], in order. *)
Definition cost_lt (a b : Z * pg_shard_t) : bool := (a.1 <? b.1) || ((a.1 =? b.1) && shard_lt a.2 b.2).
Fixpoint cost_insert (x : Z * pg_shard_t) (l : list (Z * pg_shard_t)) : list (Z * pg_shard_t) :=
  match l with
  | [] => [x]
  | y :: l' => if cost_lt x y then x :: l else if cost_lt y x then y :: cost_insert x l' else l
  end.

(** The cost of a shard when it is large enough; it is stored as an [int]. *)
Definition cost_ec (auth cur : pg_info_t) : option Z :=
  let av := version (last_update auth) in let cv := version (last_update cur) in
  let min_cost := osd_async_recovery_min_cost (cct st) in
  if server_nautilus (cct st) then
    let approx := if cv <? av then approx_missing (num_objects_missing cur) av cv else add64 (num_objects_missing cur) 0 in
    if min_cost <? approx then Some (i32 approx) else None
  else if (cv <? av) && (min_cost <? sub64 av cv) then Some (i32 (sub64 av cv)) else None.
Definition cost_replicated (auth cur : pg_info_t) : option Z :=
  let av := version (last_update auth) in let cv := version (last_update cur) in
  let min_cost := osd_async_recovery_min_cost (cct st) in
  let approx objects := if cv <? av then approx_missing objects av cv else approx_missing objects cv av in
  let c := if server_nautilus (cct st) then approx (num_objects_missing cur) else approx 0 in
  if min_cost <? c then Some (i32 c) else None.

(** The candidates among the shards of [want]. *)
Fixpoint by_cost (all_info : infos_t) (cost : pg_info_t -> option Z) (l : list pg_shard_t)
    (acc : list (Z * pg_shard_t)) : option (list (Z * pg_shard_t)) :=
  match l with
  | [] => Some acc
  | s :: l =>
    if bool_decide (s ∈ stray_set st) || negb (is_up st s) then by_cost all_info cost l acc
    else
      cur ← find s all_info;
      by_cost all_info cost l (match cost cur with Some c => cost_insert (c, s) acc | None => acc end)
  end.

Definition shards_of (ec : bool) (w : list Z) : list pg_shard_t :=
  if ec then omap id (imap (fun i o => if o =? CRUSH_ITEM_NONE then None else Some (shard_of true i o)) w)
  else whole <$> w.

Fixpoint drop_ec (l : list (Z * pg_shard_t)) (w : list Z) (async : gset pg_shard_t) : list Z * gset pg_shard_t :=
  match l with
  | [] => (w, async)
  | (_, s) :: l =>
    let candidate_want := <[Z.to_nat (shard s) := CRUSH_ITEM_NONE]> w in
    if recoverable candidate_want then drop_ec l candidate_want ({[s]} ∪ async) else drop_ec l w async
  end.

Definition choose_async_recovery_ec (all_info : infos_t) (auth : pg_info_t) (w : list Z) : option (list Z * gset pg_shard_t) :=
  ceph_assert (Z.of_nat (length w) <=? 128) ;;
  cs ← by_cost all_info (cost_ec auth) (shards_of true w) [];
  Some (drop_ec (reverse cs) w ∅).

(** Erasing the first occurrence. *)
Fixpoint erase_first (o : Z) (w : list Z) : option (list Z) :=
  match w with
  | [] => None
  | x :: w => if x =? o then Some w else cons x <$> erase_first o w
  end.
Fixpoint drop_replicated (l : list (Z * pg_shard_t)) (w : list Z) (async : gset pg_shard_t) : list Z * gset pg_shard_t :=
  match l with
  | [] => (w, async)
  | (_, s) :: l =>
    if Z.of_nat (length w) <=? p_min_size (pool st) then (w, async)
    else match erase_first (osd s) w with
         | Some w => drop_replicated l w ({[s]} ∪ async)
         | None => drop_replicated l w async
         end
  end.

Definition choose_async_recovery_replicated (all_info : infos_t) (auth : pg_info_t) (w : list Z) : option (list Z * gset pg_shard_t) :=
  cs ← by_cost all_info (cost_replicated auth) (shards_of false w) [];
  Some (drop_replicated (reverse cs) w ∅).

(** [needs_recovery]. *)
Definition needs_recovery (acting_recovery_backfill : gset pg_shard_t) : option bool :=
  ceph_assert (bool_decide (pg_whoami st = primary st)) ;;
  if negb (num_missing st =? 0) then Some true
  else
    ceph_assert (negb (bool_decide (acting_recovery_backfill = ∅))) ;;
    Some (existsb (fun a => negb (bool_decide (a = primary st)) && negb (default 0 (peer_missing st !! a) =? 0))
            (elements acting_recovery_backfill)).
End Async.

(** ** The choice *)

Section ChooseActing.
Context `{!IsPGRecoverable} `{!StdSort}.

Definition set_want_acting (w : list Z) (requests : list (list Z)) (st : PeeringState) : PeeringState := {|
  cct := cct st; pg_whoami := pg_whoami st; primary := primary st; pool := pool st; pg_size := pg_size st;
  info := info st; peer_info := peer_info st; up := up st; acting := acting st; up_primary := up_primary st;
  stray_set := stray_set st; num_missing := num_missing st; peer_missing := peer_missing st;
  want_acting := w; acting_recovery_backfill := acting_recovery_backfill st;
  backfill_targets := backfill_targets st; async_recovery_targets := async_recovery_targets st;
  want_pg_temp := want_pg_temp st ++ requests |}.
Definition set_targets (arb bf async : gset pg_shard_t) (st : PeeringState) : PeeringState := {|
  cct := cct st; pg_whoami := pg_whoami st; primary := primary st; pool := pool st; pg_size := pg_size st;
  info := info st; peer_info := peer_info st; up := up st; acting := acting st; up_primary := up_primary st;
  stray_set := stray_set st; num_missing := num_missing st; peer_missing := peer_missing st;
  want_acting := []; acting_recovery_backfill := arb;
  backfill_targets := bf; async_recovery_targets := async;
  want_pg_temp := want_pg_temp st |}.

Definition all_info (st : PeeringState) : infos_t := set_info (pg_whoami st) (info st) (peer_info st).

(** No usable info: back to the up set, unless it is acting already. *)
Definition revert_to_up (st : PeeringState) : option PeeringState :=
  if negb (bool_decide (up st = acting st)) then Some (set_want_acting (up st) [[]] st)
  else ceph_assert (bool_decide (want_acting st = [])) ;; Some st.

(** The acting set to ask for. *)
Definition calc_acting (st : PeeringState) (auth : pg_shard_t * pg_info_t) (restrict : bool) : option wants :=
  if type (p_pool (pool st)) =? TYPE_REPLICATED then calc_replicated_acting st auth (pg_size st) (all_info st) restrict
  else calc_ec_acting st auth.2 (pg_size st) (all_info st) restrict.

Definition choose_async (st : PeeringState) (auth : pg_info_t) (w : list Z) : option (list Z * gset pg_shard_t) :=
  if server_mimic (cct st) then
    if ec_pool st then choose_async_recovery_ec st (all_info st) auth w
    else choose_async_recovery_replicated st (all_info st) auth w
  else Some (w, ∅).

(** The last peers of an oversized set go. *)
Definition evict (st : PeeringState) (w : list Z) : list Z := take (Z.to_nat (size (p_pool (pool st)))) w.

(** A change is asked for. *)
Definition request_change (st : PeeringState) (w : list Z) (bf : gset pg_shard_t) : option PeeringState :=
  if osd_debug_no_acting_change (cct st) then Some (set_want_acting w [] st)
  else if bool_decide (w = up st) then
    ceph_assert (bool_decide (bf = ∅)) ;; Some (set_want_acting w [[]] st)
  else Some (set_want_acting w [w] st).

(** The targets of recovery are settled. *)
Definition settle (st : PeeringState) (w : wants) (async : gset pg_shard_t) : option PeeringState :=
  let arb := acting_backfill w in
  ceph_assert (bool_decide (backfill_targets st = ∅) || bool_decide (backfill_targets st = backfill w)) ;;
  let bf := if bool_decide (backfill_targets st = ∅) then backfill w else backfill_targets st in
  let old := async_recovery_targets st in
  async' ←
    if bool_decide (old = ∅) then Some async
    else
      nr ← needs_recovery st arb;
      ceph_assert (bool_decide (old = async) || negb nr) ;;
      Some (if negb nr then async else old);
  ceph_assert (bool_decide (backfill w ∩ stray_set st = ∅)) ;;
  Some (set_targets arb bf async' st).

(** [choose_acting]: the answer, the shard with the authoritative log when there
    is one, [history_les_bound], and the new state. *)
Definition choose_acting (st : PeeringState) (restrict history_les_bound request_pg_temp_change_only : bool)
    : option (bool * option pg_shard_t * bool * PeeringState) :=
  let '(best, bound) := find_best_info st (all_info st) restrict history_les_bound in
  match best with
  | None => st' ← revert_to_up st; Some (false, None, bound, st')
  | Some auth =>
    ceph_assert (negb (is_incomplete auth.2)) ;;
    w ← calc_acting st auth restrict;
    if negb (recoverable st (want w)) then Some (false, Some auth.1, bound, set_want_acting [] [] st)
    else
      '(wa, async) ← choose_async st auth.2 (want w);
      let wa := evict st wa in
      if negb (bool_decide (wa = acting st)) then
        st' ← request_change st wa (backfill w); Some (false, Some auth.1, bound, st')
      else if request_pg_temp_change_only then Some (true, Some auth.1, bound, st)
      else
        st' ← settle st w async; Some (true, Some auth.1, bound, st')
  end.
End ChooseActing.
End PeerChoice.
