(* ===== verification/PeerChoiceFacts.v ===== *)
(** Facts about the choice of an acting set (PeerChoice.v): the loops of
    [find_best_info] as a maximum, the wanted sets of replicated and
    erasure-coded pools, what background recovery takes out of them, and how a
    choice ends. *)
From S2P Require Import Prelude Pg Hobject OSDMap PgMissing PastIntervals PeerChoice.
Import Bits.

Module ChoiceFacts.
Import Eversion EversionFacts PastIntervals PeerChoice.
Import OSDMap(CRUSH_ITEM_NONE, NO_SHARD).
Import PgPool(type, size, TYPE_REPLICATED, TYPE_ERASURE).

(** ** Maps of infos *)

Definition keys_sorted (l : infos_t) : Prop := StronglySorted (fun a b => shard_lt a.1 b.1 = true) l.

Lemma shard_lt_spec a b : shard_lt a b = true <-> osd a < osd b \/ (osd a = osd b /\ shard a < shard b).
Proof. unfold shard_lt. rewrite orb_true_iff, andb_true_iff, Z.eqb_eq, !Z.ltb_lt. done. Qed.
Lemma shard_lt_irrefl a : shard_lt a a = false.
Proof. apply not_true_iff_false. rewrite shard_lt_spec. lia. Qed.
Lemma shard_lt_trans a b c : shard_lt a b = true -> shard_lt b c = true -> shard_lt a c = true.
Proof. rewrite !shard_lt_spec. lia. Qed.
Lemma shard_eq a b : osd a = osd b -> shard a = shard b -> a = b.
Proof. destruct a, b; simpl; congruence. Qed.
Lemma shard_total a b : a <> b -> shard_lt a b = false -> shard_lt b a = true.
Proof.
  intros Hne H. apply not_true_iff_false in H. rewrite shard_lt_spec in *.
  destruct (decide (osd a = osd b)), (decide (shard a = shard b)); try lia. by destruct Hne; apply shard_eq.
Qed.

Lemma find_elem k v l : find k l = Some v -> (k, v) ∈ l.
Proof.
  induction l as [|[k' v'] l IH]; [done|]. simpl. case_bool_decide; [intros [= ->]; subst; left|]. intros H'. right. by apply IH.
Qed.
Lemma elem_find k v l : keys_sorted l -> (k, v) ∈ l -> find k l = Some v.
Proof.
  induction 1 as [|[k' v'] l Hs IH Hk]; [by intros ?%not_elem_of_nil|]. simpl. intros [[= -> ->]|Hin]%elem_of_cons.
  - by rewrite bool_decide_eq_true_2.
  - rewrite bool_decide_eq_false_2; [by apply IH|]. intros ->. rewrite Forall_forall in Hk. specialize (Hk _ Hin). simpl in Hk.
    by rewrite shard_lt_irrefl in Hk.
Qed.

Lemma set_info_find k v l k' : find k' (set_info k v l) = if bool_decide (k' = k) then Some v else find k' l.
Proof.
  induction l as [|[k0 v0] l IH]; simpl; [done|]. destruct (shard_lt k k0); [done|]. destruct (bool_decide (k = k0)) eqn:E; simpl.
  - apply bool_decide_eq_true_1 in E as ->. by case_bool_decide.
  - apply bool_decide_eq_false_1 in E. rewrite IH. repeat case_bool_decide; congruence.
Qed.

Lemma set_info_keys k v l p : p ∈ set_info k v l -> p.1 = k \/ p ∈ l.
Proof.
  induction l as [|[k0 v0] l IH]; simpl; [intros ->%list_elem_of_singleton; by left|]. destruct (shard_lt k k0).
  { intros [-> |Hin]%elem_of_cons; [by left|by right]. }
  case_bool_decide; intros [-> |Hin]%elem_of_cons; [by left|right; by right|right; by left|].
  destruct (IH Hin); [by left|right; by right].
Qed.

Lemma set_info_sorted k v l : keys_sorted l -> keys_sorted (set_info k v l).
Proof.
  induction 1 as [|[k0 v0] l Hs IH Hk]; simpl; [repeat constructor|]. destruct (shard_lt k k0) eqn:E1.
  { constructor; [by constructor|]. constructor; [done|]. eapply Forall_impl; [exact Hk|]. intros [k1 v1]. simpl.
    by apply shard_lt_trans. }
  case_bool_decide as E2; [subst; by constructor|]. constructor; [done|]. apply Forall_forall. intros p [Hp|Hp]%set_info_keys.
  - simpl. rewrite Hp. by apply shard_total.
  - rewrite Forall_forall in Hk. by apply Hk.
Qed.

(** ** The authoritative log *)

Section Best.
Context (st : PeeringState).

Definition bounds_les (q : pg_shard_t * pg_info_t) (x : Z) : Prop :=
  (is_incomplete q.2 = false -> last_epoch_started q.2 <= x) /\
  (osd_find_best_info_ignore_history_les (cct st) = false -> history_les q.2 <= x).

Lemma max_les_bound l x : forall acc, (foldl (les_step st) acc l).2 <= x <-> acc.2 <= x /\ forall q, q ∈ l -> bounds_les q x.
Proof.
  induction l as [|q l IH]; intros acc; cbn [foldl].
  { split; [intros ?; split; [done|]; by intros q ?%not_elem_of_nil|tauto]. }
  rewrite IH. assert ((les_step st acc q).2 <= x <-> acc.2 <= x /\ bounds_les q x) as ->.
  { unfold les_step, bounds_les. destruct (osd_find_best_info_ignore_history_les (cct st)), (is_incomplete q.2); simpl;
      repeat (case_match; simpl in *; zbool); simpl; intuition (try lia; try done). }
  setoid_rewrite elem_of_cons. naive_solver.
Qed.

Lemma min_lu_bound les l x : forall acc,
  Le x (foldl (min_step les) acc l) <-> Le x acc /\ forall q, q ∈ l -> les <= last_epoch_started q.2 -> Le x (last_update q.2).
Proof.
  induction l as [|q l IH]; intros acc; cbn [foldl].
  { split; [intros ?; split; [done|]; by intros q ?%not_elem_of_nil|tauto]. }
  rewrite IH. assert (Le x (min_step les acc q) <-> Le x acc /\ (les <= last_epoch_started q.2 -> Le x (last_update q.2))) as ->.
  { unfold min_step. destruct (les <=? last_epoch_started q.2) eqn:E; simpl; zbool; [|intuition lia].
    destruct (last_update q.2 <? acc)%ev eqn:E2.
    - split; [intros Hx; split; [|done]; by etrans; [|apply Lt_Le]|intros [_ Hx]; by apply Hx].
    - apply lt_ge in E2. split; [intros Hx; split; [done|]; intros _; by etrans|tauto]. }
  setoid_rewrite elem_of_cons. naive_solver.
Qed.

(** [p] is better than [b]: by its last update, then by its tail, then by
    having nothing missing. *)
Definition better (p b : pg_shard_t * pg_info_t) : Prop :=
  (if ec_pool st then Lt (last_update p.2) (last_update b.2) else Lt (last_update b.2) (last_update p.2)) \/
  last_update p.2 = last_update b.2 /\
  (Lt (log_tail p.2) (log_tail b.2) \/
   log_tail p.2 = log_tail b.2 /\ has_missing p.2 = false /\ has_missing b.2 = true).

Lemma ev_eq a b : a = b <-> epoch a = epoch b /\ version a = version b.
Proof. destruct a, b; simpl. split; [by intros [= -> ->]|by intros [-> ->]]. Qed.

Lemma better_trans a b c : ~ better a b -> ~ better b c -> ~ better a c.
Proof.
  unfold better, Lt. destruct (ec_pool st); rewrite !lt_spec, !ev_eq;
    destruct (has_missing a.2), (has_missing b.2), (has_missing c.2); intuition (try done; try lia).
Qed.

Lemma better_asym a b : better a b -> ~ better b a.
Proof.
  unfold better, Lt. destruct (ec_pool st); rewrite !lt_spec, !ev_eq;
    destruct (has_missing a.2), (has_missing b.2); intuition (try done; try lia).
Qed.

Lemma ev_cases a b : ((a <? b)%ev = true /\ (b <? a)%ev = false /\ a <> b) \/ ((a <? b)%ev = false /\ (b <? a)%ev = true /\ a <> b) \/
  ((a <? b)%ev = false /\ (b <? a)%ev = false /\ a = b /\ b = a).
Proof. rewrite !lt_ge, !lt_spec, !le_spec, !ev_eq. lia. Qed.

Lemma preferred_spec p b : preferred st p b = true <-> better p b \/ (~ better b p /\ p.1 = pg_whoami st).
Proof.
  unfold preferred, better, Lt.
  destruct (ev_cases (last_update p.2) (last_update b.2)) as [(E1 & E2 & En)|[(E1 & E2 & En)|(E1 & E2 & En & En')]];
  destruct (ev_cases (log_tail p.2) (log_tail b.2)) as [(F1 & F2 & Fn)|[(F1 & F2 & Fn)|(F1 & F2 & Fn & Fn')]];
  destruct (ec_pool st), (has_missing p.2), (has_missing b.2); rewrite ?E1, ?E2, ?F1, ?F2; simpl;
    rewrite ?bool_decide_eq_true; intuition congruence.
Qed.

Lemma best_loop restrict les minlu l : forall acc,
  (forall b, acc = Some b -> disqualified st restrict les minlu b = false) ->
  match foldl (best_step st restrict les minlu) acc l with
  | None => acc = None /\ forall p, p ∈ l -> disqualified st restrict les minlu p = true
  | Some b =>
    (acc = Some b \/ b ∈ l) /\ disqualified st restrict les minlu b = false /\
    forall p, acc = Some p \/ p ∈ l -> disqualified st restrict les minlu p = false ->
      ~ better p b /\ (p.1 = pg_whoami st -> ~ better b p -> b.1 = pg_whoami st)
  end.
Proof.
  induction l as [|q l IH]; intros acc Hacc; cbn [foldl].
  { destruct acc as [b|]; [|split; [done|]; by intros p ?%not_elem_of_nil]. split; [by left|]. split; [by apply Hacc|].
    intros p [[= ->]|?%not_elem_of_nil] _; [|done]. split; [|done]. unfold better. destruct (ec_pool st);
      intros [?%irreflexivity|[_ [?%irreflexivity|(_ & ? & ?)]]]; try apply _; congruence. }
  assert (forall b, best_step st restrict les minlu acc q = Some b -> disqualified st restrict les minlu b = false) as Hb.
  { intros b. unfold best_step. destruct (disqualified st restrict les minlu q) eqn:E; [apply Hacc|].
    destruct acc as [a|]; [destruct (preferred st q a)|]; intros [= <-]; auto. }
  specialize (IH _ Hb). destruct (foldl _ _ l) as [b|].
  2:{ destruct IH as [IH1 IH2]. unfold best_step in IH1. destruct (disqualified st restrict les minlu q) eqn:E.
      - split; [done|]. intros p [-> |]%elem_of_cons; auto.
      - destruct acc; [by destruct (preferred _ _ _)|done]. }
  destruct IH as (IH1 & IH2 & IH3). split; [|split; [done|]].
  - unfold best_step in IH1. rewrite elem_of_cons. destruct (disqualified st restrict les minlu q); [tauto|].
    destruct acc as [a|]; [destruct (preferred st q a)|]; naive_solver.
  - unfold best_step in IH3. intros p Hp Hdp. destruct (disqualified st restrict les minlu q) eqn:E.
    { apply IH3; [|done]. destruct Hp as [|[-> |]%elem_of_cons]; [by left|congruence|by right]. }
    destruct acc as [a|]; [|apply IH3; [|done]; destruct Hp as [?|[-> |]%elem_of_cons]; [done|by left|by right]].
    destruct (preferred st q a) eqn:Ep.
    + destruct Hp as [[= ->]|[-> |]%elem_of_cons]; [|apply IH3; [by left|done]|apply IH3; [by right|done]].
      destruct (IH3 q (or_introl eq_refl) E) as [Hq1 Hq2]. apply preferred_spec in Ep as [Ep|[Ep Hw]].
      * split; [by apply better_trans with q; [apply better_asym|]|]. intros _ Hbp. by destruct (better_trans q b p Hq1 Hbp).
      * split; [by apply better_trans with q|]. intros _ Hbp. apply Hq2; [done|]. by apply better_trans with p.
    + apply not_true_iff_false in Ep. rewrite preferred_spec in Ep.
      destruct Hp as [[= ->]|[-> |]%elem_of_cons]; [apply IH3; [by left|done]| |apply IH3; [by right|done]].
      destruct (IH3 a (or_introl eq_refl) (Hacc a eq_refl)) as [Ha1 _].
      split; [apply better_trans with a; [tauto|done]|]. intros Hw Hbq. destruct Ep. right.
      split; [by apply better_trans with b|done].
Qed.

Definition infos_ok (l : infos_t) : Prop :=
  Forall (fun p => 0 <= last_epoch_started p.2 /\ Lt (last_update p.2) Eversion.max) l.

(** The reference notion of an acceptable source of the log: not incomplete,
    allowed by the restriction, and with a [last_epoch_started] that nobody
    exceeds who is complete, nor any history that counts. *)
Definition eligible (infos : infos_t) (restrict : bool) (p : pg_shard_t * pg_info_t) : Prop :=
  p ∈ infos /\ (restrict = true -> is_up st p.1 = true \/ is_acting st p.1 = true) /\ is_incomplete p.2 = false /\
  forall q, q ∈ infos -> bounds_les q (last_epoch_started p.2).

Lemma eligible_spec infos restrict bound p : infos_ok infos -> p ∈ infos ->
  let les := (max_les st bound infos).2 in
  disqualified st restrict les (min_last_update_acceptable les infos) p = false <-> eligible infos restrict p.
Proof.
  intros Hok Hp les. unfold disqualified, eligible. rewrite !orb_false_iff.
  assert (last_epoch_started p.2 <? les = false <-> forall q, q ∈ infos -> bounds_les q (last_epoch_started p.2)) as Hles.
  { rewrite Z.ltb_ge. unfold les, max_les. rewrite max_les_bound. simpl. unfold infos_ok in Hok. rewrite Forall_forall in Hok.
    specialize (Hok p Hp). intuition lia. }
  assert (last_epoch_started p.2 <? les = false -> (last_update p.2 <? min_last_update_acceptable les infos)%ev = false) as Hmin.
  { intros Hl%Z.ltb_ge. apply lt_ge. pose proof (reflexivity (R := Le) (min_last_update_acceptable les infos)) as Hr.
    unfold min_last_update_acceptable in Hr at 2. apply min_lu_bound in Hr as [_ Hr]. by apply Hr. }
  destruct restrict, (is_up st p.1), (is_acting st p.1); simpl; intuition (try done).
Qed.
End Best.

(** ** Replicated pools *)

Section Replicated.
Context `{!StdSort} (st : PeeringState) (ai : infos_t) (prim : pg_shard_t) (oldest : eversion_t).

Definition acceptable (o : Z) : bool :=
  match find (whole o) ai with Some i => negb (rejected oldest i) | None => false end.
Definition known (l : list Z) : Prop := Forall (fun o => is_Some (find (whole o) ai)) l.

Definition up_accepted : list Z := filter (fun o => whole o <> prim /\ acceptable o = true) (up st).
Definition up_backfill : list Z := filter (fun o => whole o <> prim /\ acceptable o = false) (up st).
Definition acting_accepted (o : Z) : Prop := (whole o <> prim /\ o ∉ up st) /\ acceptable o = true.

(** The set of targets is that of the wanted and the backfilled OSDs. *)
Definition targets_ok (w : wants) : Prop := acting_backfill w = list_to_set (whole <$> want w) ∪ backfill w.

Lemma add_up_spec l : known l -> forall w, targets_ok w -> exists w', add_up ai prim oldest l w = Some w' /\ targets_ok w' /\
  want w' = want w ++ filter (fun o => whole o <> prim /\ acceptable o = true) l /\
  backfill w' = list_to_set (whole <$> filter (fun o => whole o <> prim /\ acceptable o = false) l) ∪ backfill w.
Proof.
  induction 1 as [|o l [i Hi] Hl IH]; intros w Hw; cbn [add_up].
  { exists w. split; [done|]. split; [done|]. rewrite filter_nil, app_nil_r. split; [done|]. rewrite filter_nil. set_solver. }
  rewrite !filter_cons. case_bool_decide as Ep.
  { destruct (IH w Hw) as (w' & ? & ? & ? & ?). exists w'. repeat (case_decide; [tauto|]). done. }
  assert (acceptable o = negb (rejected oldest i)) as Ha by (unfold acceptable; by rewrite Hi).
  rewrite Hi. cbn [mbind option_bind]. destruct (rejected oldest i) eqn:Er.
  - edestruct IH as (w' & Hw' & H1 & H2 & H3); [|exists w'; split; [exact Hw'|]; split; [done|]].
    { unfold targets_ok in *. simpl. rewrite Hw. set_solver. }
    rewrite Ha. cbn [negb]. rewrite decide_False by (intros [_ ?]; done). rewrite decide_True by done. split; [done|].
    rewrite H3. simpl. set_solver.
  - edestruct IH as (w' & Hw' & H1 & H2 & H3); [|exists w'; split; [exact Hw'|]; split; [done|]].
    { unfold targets_ok in *. simpl. rewrite Hw, fmap_app, list_to_set_app_L. simpl. set_solver. }
    rewrite Ha. cbn [negb]. rewrite decide_True by done. rewrite decide_False by (intros [_ ?]; done). split; [|done].
    rewrite H2. simpl. by rewrite <- app_assoc.
Qed.

Lemma acting_candidates_spec l : known l ->
  exists cs, acting_candidates st ai prim oldest l = Some cs /\
    cs.*2 = filter (fun o => (whole o <> prim /\ o ∉ up st) /\ acceptable o = true) l.
Proof.
  induction 1 as [|o l [i Hi] Hl (cs & IH1 & IH2)]; cbn [acting_candidates]; [by exists []|]. rewrite filter_cons.
  destruct (bool_decide (whole o = prim) || bool_decide (o ∈ up st)) eqn:E.
  - exists cs. split; [done|]. rewrite decide_False; [done|]. apply orb_true_iff in E as [E|E]; apply bool_decide_eq_true_1 in E; tauto.
  - apply orb_false_iff in E as [E1 E2]. apply bool_decide_eq_false_1 in E1, E2. rewrite Hi, IH1. cbn [mbind option_bind].
    assert (acceptable o = negb (rejected oldest i)) as -> by (unfold acceptable; by rewrite Hi).
    eexists. split; [done|]. destruct (rejected oldest i); cbn [negb].
    + rewrite decide_False; [done|]. by intros [_ ?].
    + rewrite decide_True by done. by rewrite fmap_cons, IH2.
Qed.

Lemma accept_spec size cs : known (cs.*2) -> forall w, targets_ok w -> Z.of_nat (length (want w)) < size ->
  exists w', accept ai size cs w = Some (size <=? Z.of_nat (length (want w ++ cs.*2)), w') /\ targets_ok w' /\
    want w' = take (Z.to_nat size) (want w ++ cs.*2) /\ backfill w' = backfill w.
Proof.
  induction cs as [|[v o] cs IH]; intros Hk w Hw Hlt; cbn [accept fmap list_fmap snd].
  { exists w. rewrite app_nil_r, take_ge by lia. split; [|done]. by replace (size <=? _) with false by lia. }
  apply Forall_cons in Hk as [[i Hi] Hk]. simpl in Hi. replace (Z.of_nat (length (want w)) <? size) with true by lia.
  rewrite Hi. cbn [mbind option_bind]. set (w1 := mk_wants _ _ _).
  assert (targets_ok w1) as Hw1.
  { unfold targets_ok in *. simpl. rewrite Hw, fmap_app, list_to_set_app_L. simpl. set_solver. }
  assert (length (want w1) = S (length (want w))) as Hl1 by (simpl; rewrite length_app; simpl; lia).
  assert (forall r : list Z, want w ++ o :: r = want w1 ++ r) as Happ by (intros r; simpl; by rewrite <- app_assoc).
  rewrite Happ. rewrite length_app. destruct (size <=? Z.of_nat (length (want w1))) eqn:Es; zbool.
  - exists w1. split; [|split; [done|]; split; [|done]].
    + rewrite (proj2 (Z.leb_le _ _)); [done|]. rewrite ?length_app. lia.
    + replace (Z.to_nat size) with (length (want w1)) by lia. by rewrite take_app_length.
  - destruct (IH Hk w1 Hw1 Es) as (w' & -> & ? & ? & ?). exists w'. rewrite length_app. by split.
Qed.
End Replicated.

Record replicated_ok (st : PeeringState) (ai : infos_t) (auth : pg_shard_t * pg_info_t) : Prop := {
  ro_sorted : keys_sorted ai;
  ro_whole : Forall (fun p => shard p.1 = NO_SHARD) ai;
  ro_up : known ai (up st);
  ro_acting : known ai (acting st);
  ro_nodup_up : NoDup (up st);
  ro_nodup_acting : NoDup (acting st);
  ro_primary : up st <> [] -> is_Some (find (up_primary st) ai);
  ro_auth : auth ∈ ai;
  ro_complete : is_incomplete auth.2 = false;
  ro_tail : Le (log_tail auth.2) (last_update auth.2)
}.

Lemma rejected_spec oldest i : rejected oldest i = false <-> is_incomplete i = false /\ Le oldest (last_update i).
Proof. unfold rejected, Le. rewrite orb_false_iff, lt_ge. done. Qed.

Section Whole.
Context `{!StdSort} (st : PeeringState) (ai : infos_t) (auth : pg_shard_t * pg_info_t) (Hok : replicated_ok st ai auth).

Lemma whole_key p : p ∈ ai -> p.1 = whole (osd p.1).
Proof. intros Hp. pose proof (ro_whole _ _ _ Hok) as Hw. rewrite Forall_forall in Hw. by apply shard_eq; [|apply Hw]. Qed.

Lemma select_primary_spec : exists prim, select_primary st auth ai = Some prim /\ prim ∈ ai /\
  (prim = auth \/ prim.1 = up_primary st) /\ rejected (min_ev (log_tail prim.2) (log_tail auth.2)) prim.2 = false.
Proof.
  destruct Hok as [_ _ _ _ _ _ Hp Ha Hc Ht].
  assert (rejected (min_ev (log_tail auth.2) (log_tail auth.2)) auth.2 = false) as Hauth.
  { apply rejected_spec. split; [done|]. etrans; [apply min_ev_l|done]. }
  unfold select_primary. rewrite Hc. cbn [negb]. destruct (up st) as [|u us]; [exists auth; auto|].
  destruct (Hp ltac:(done)) as [p Hf]. rewrite Hf. cbn [mbind option_bind]. destruct (usable (log_tail auth.2) p) eqn:E; [|exists auth; auto].
  assert (exists prim, Some (up_primary st, p) = Some prim /\ prim ∈ ai /\ (prim = auth \/ prim.1 = up_primary st) /\
    rejected (min_ev (log_tail prim.2) (log_tail auth.2)) prim.2 = false) as Hup.
  { eexists. split; [done|]. split; [by apply find_elem|]. split; [by right|]. apply rejected_spec. simpl.
    apply andb_true_iff in E as [E1 E2]. split; [by apply negb_true_iff|]. etrans; [apply min_ev_r|done]. }
  destruct (server_nautilus (cct st)); [|done]. case_match; [exists auth; auto|done].
Qed.

Section Shape.
Context (prim : pg_shard_t) (oldest : eversion_t).

Lemma strays_spec o : o ∈ (stray_candidates st prim oldest ai).*2 <->
  exists p, p ∈ ai /\ osd p.1 = o /\ p.1 <> prim /\ o ∉ up st /\ o ∉ acting st /\ rejected oldest p.2 = false.
Proof.
  rewrite list_elem_of_fmap. unfold stray_candidates. setoid_rewrite list_elem_of_omap. split.
  - intros ([v o'] & -> & p & Hp & E). destruct (_ || _) eqn:Eb; [done|]. injection E as <- <-. exists p.
    rewrite !orb_false_iff, !bool_decide_eq_false in Eb. naive_solver.
  - intros (p & Hp & <- & H1 & H2 & H3 & H4). exists (last_update p.2, osd p.1). split; [done|]. exists p. split; [done|].
    rewrite !bool_decide_eq_false_2, H4 by done. done.
Qed.

Lemma strays_nodup : NoDup (stray_candidates st prim oldest ai).*2.
Proof.
  pose proof (ro_sorted _ _ _ Hok) as Hs. pose proof (ro_whole _ _ _ Hok) as Hw. clear Hok.
  unfold stray_candidates. induction Hs as [|p l Hs IH Hp]; [constructor|]. apply Forall_cons in Hw as [Hw0 Hw]. cbn [omap list_omap].
  destruct (_ || _) eqn:Eb; [by apply IH|]. rewrite fmap_cons. constructor; [|by apply IH]. simpl.
  rewrite list_elem_of_fmap. intros ([v o] & Ho & Hin). simpl in Ho. subst o. apply list_elem_of_omap in Hin as (q & Hq & E).
  destruct (_ || _) in E; [done|]. injection E as _ Hosd. rewrite Forall_forall in Hp, Hw. specialize (Hp q Hq). specialize (Hw q Hq).
  apply shard_lt_spec in Hp. simpl in *. lia.
Qed.

Lemma known_perm l k : Permutation l k -> known ai k -> known ai l.
Proof. intros Hp Hk. unfold known. by rewrite Hp. Qed.

Lemma known_strays : known ai (stray_candidates st prim oldest ai).*2.
Proof.
  apply Forall_forall. intros o (p & Hp & <- & _)%strays_spec. exists p.2. apply elem_find; [apply Hok|].
  rewrite <- whole_key by done. by destruct p.
Qed.
End Shape.

(** The shape of the result: the primary, the up members it can bring up to
    date, then the acting members and the strays, newest first, until the size
    is reached. *)
Lemma replicated_shape size restrict : exists prim w C1 C2,
  let oldest := min_ev (log_tail prim.2) (log_tail auth.2) in
  let base := osd prim.1 :: up_accepted st ai prim.1 oldest in
  calc_replicated_acting st auth size ai restrict = Some w /\ select_primary st auth ai = Some prim /\
  Permutation C1 (filter (fun o => (whole o <> prim.1 /\ o ∉ up st) /\ acceptable ai oldest o = true) (acting st)) /\
  Permutation C2 (stray_candidates st prim.1 oldest ai).*2 /\
  want w = (if size <=? Z.of_nat (length base) then base
            else take (Z.to_nat size) (base ++ C1 ++ (if restrict then [] else C2))) /\
  backfill w = list_to_set (whole <$> up_backfill st ai prim.1 oldest) /\ targets_ok w.
Proof.
  destruct select_primary_spec as (prim & Hsel & Hin & _). set (oldest := min_ev (log_tail prim.2) (log_tail auth.2)).
  destruct (acting_candidates_spec st ai prim.1 oldest (acting st) (ro_acting _ _ _ Hok)) as (cs & Hcs & Hcs2).
  exists prim. unfold calc_replicated_acting. rewrite Hsel. cbn [mbind option_bind]. fold oldest.
  edestruct (add_up_spec ai prim.1 oldest (up st) (ro_up _ _ _ Hok) (mk_wants [osd prim.1] ∅ {[prim.1]})) as (w1 & -> & Ht1 & Hw1 & Hb1).
  { unfold targets_ok. simpl. rewrite <- whole_key by done. set_solver. }
  cbn [mbind option_bind]. simpl in Hw1, Hb1. fold (up_accepted st ai prim.1 oldest) in Hw1.
  fold (up_backfill st ai prim.1 oldest) in Hb1. rewrite union_empty_r_L in Hb1. rewrite Hcs. cbn [mbind option_bind].
  pose proof (sort_perm cs) as Hp1. set (S2 := stray_candidates st prim.1 oldest ai). pose proof (sort_perm S2) as Hp2.
  assert (known ai (sort_desc cs).*2) as Hk1.
  { eapply known_perm; [by rewrite Hp1|]. rewrite Hcs2. apply Forall_forall. intros o [_ Ho]%list_elem_of_filter.
    pose proof (ro_acting _ _ _ Hok) as Ha. unfold known in Ha. rewrite Forall_forall in Ha. by apply Ha. }
  assert (known ai (sort_desc S2).*2) as Hk2 by (eapply known_perm; [by rewrite Hp2|apply known_strays]).
  assert (Permutation (sort_desc cs).*2 (filter (fun o => (whole o <> prim.1 /\ o ∉ up st) /\ acceptable ai oldest o = true) (acting st)))
    as HC1 by (by rewrite Hp1, Hcs2).
  assert (Permutation (sort_desc S2).*2 S2.*2) as HC2 by (by rewrite Hp2).
  rewrite Hw1. destruct (size <=? _) eqn:Es.
  { by exists w1, (sort_desc cs).*2, (sort_desc S2).*2. }
  zbool. edestruct (accept_spec ai size (sort_desc cs) Hk1 w1 Ht1) as (w2 & -> & Ht2 & Hw2 & Hb2); [by rewrite Hw1|].
  cbn [mbind option_bind]. rewrite Hw1 in *. destruct (size <=? Z.of_nat (length ((_ :: _) ++ _))) eqn:Es2; zbool.
  { exists w2, (sort_desc cs).*2, (sort_desc S2).*2. split_and!; [done..| |congruence|done].
    rewrite Hw2, app_assoc. rewrite (take_app_le (_ ++ _)); [done|lia]. }
  rewrite take_ge in Hw2 by lia. destruct restrict.
  { exists w2, (sort_desc cs).*2, (sort_desc S2).*2. split_and!; [done..| |congruence|done].
    rewrite Hw2, app_nil_r, take_ge by lia. done. }
  edestruct (accept_spec ai size (sort_desc S2) Hk2 w2 Ht2) as (w3 & -> & Ht3 & Hw3 & Hb3); [by rewrite Hw2|].
  exists w3, (sort_desc cs).*2, (sort_desc S2).*2. split_and!; [done..| |congruence|done].
  by rewrite Hw3, Hw2, <- app_assoc.
Qed.
End Whole.

(** What a choice of the acting set must be: the primary first; every member
    complete and within reach of the oldest entry of the combined logs; every up
    member either in it or to be backfilled, and no other backfilled; the
    targets of recovery are these two together. *)
Record sound_wants (st : PeeringState) (ai : infos_t) (oldest : eversion_t) (prim : pg_shard_t * pg_info_t) (w : wants) : Prop := {
  sw_head : head (want w) = Some (osd prim.1);
  sw_nodup : NoDup (want w);
  sw_usable : forall o, o ∈ want w -> exists i, find (whole o) ai = Some i /\ is_incomplete i = false /\ Le oldest (last_update i);
  sw_up : forall o, o ∈ up st -> o ∈ want w \/ whole o ∈ backfill w;
  sw_backfill : forall s, s ∈ backfill w -> s = whole (osd s) /\ osd s ∈ up st /\ osd s ∉ want w;
  sw_targets : acting_backfill w = list_to_set (whole <$> want w) ∪ backfill w
}.

Section Sound.
Context `{!StdSort} (st : PeeringState) (ai : infos_t) (auth : pg_shard_t * pg_info_t) (Hok : replicated_ok st ai auth).
Context (prim : pg_shard_t * pg_info_t) (Hprim : prim ∈ ai) (oldest : eversion_t) (Hold : rejected oldest prim.2 = false).
Context (C1 C2 : list Z)
  (HC1 : Permutation C1 (filter (fun o => (whole o <> prim.1 /\ o ∉ up st) /\ acceptable ai oldest o = true) (acting st)))
  (HC2 : Permutation C2 (stray_candidates st prim.1 oldest ai).*2).

Local Abbreviation all := ((osd prim.1 :: up_accepted st ai prim.1 oldest) ++ C1 ++ C2).

Lemma prim_whole : prim.1 = whole (osd prim.1).
Proof. by apply (whole_key st ai auth). Qed.

Lemma in_C1 o : o ∈ C1 <-> ((whole o <> prim.1 /\ o ∉ up st) /\ acceptable ai oldest o = true) /\ o ∈ acting st.
Proof. rewrite HC1. by rewrite list_elem_of_filter. Qed.
Lemma in_C2 o : o ∈ C2 <-> exists p, p ∈ ai /\ osd p.1 = o /\ p.1 <> prim.1 /\ o ∉ up st /\ o ∉ acting st /\ rejected oldest p.2 = false.
Proof. rewrite HC2. apply strays_spec. Qed.
Lemma in_up_accepted o : o ∈ up_accepted st ai prim.1 oldest <-> (whole o <> prim.1 /\ acceptable ai oldest o = true) /\ o ∈ up st.
Proof. unfold up_accepted. by rewrite list_elem_of_filter. Qed.

Lemma all_nodup : NoDup all.
Proof.
  rewrite <- app_comm_cons. constructor.
  { rewrite !elem_of_app, in_up_accepted, in_C1, in_C2. pose proof prim_whole.
    intros [[[? _] _]|[[[[? _] _] _]|(p & Hp & Ho & Hne & _)]]; [done..|].
    apply Hne. rewrite (whole_key st ai auth Hok p Hp), Ho. by rewrite <- prim_whole. }
  rewrite !NoDup_app. split_and!.
  - apply NoDup_filter, Hok.
  - intros o. rewrite elem_of_app, in_up_accepted, in_C1, in_C2. naive_solver.
  - rewrite HC1. apply NoDup_filter, Hok.
  - intros o. rewrite in_C1, in_C2. naive_solver.
  - rewrite HC2. by apply (strays_nodup st ai auth).
Qed.

Lemma acceptable_spec o : acceptable ai oldest o = true <-> exists i, find (whole o) ai = Some i /\ rejected oldest i = false.
Proof. unfold acceptable. destruct (find (whole o) ai); rewrite ?negb_true_iff; naive_solver. Qed.

Lemma all_acceptable o : o ∈ all -> acceptable ai oldest o = true.
Proof.
  rewrite <- app_comm_cons, elem_of_cons, !elem_of_app, in_up_accepted, in_C1, in_C2.
  intros [-> |[[[_ ?] _]|[[[_ ?] _]|(p & Hp & <- & _ & _ & _ & Hr)]]]; [|done..|]; apply acceptable_spec.
  - exists prim.2. split; [|done]. rewrite <- prim_whole. apply elem_find; [apply Hok|by destruct prim].
  - exists p.2. split; [|done]. rewrite <- (whole_key st ai auth) by done. apply elem_find; [apply Hok|by destruct p].
Qed.

(** Any prefix of the candidates that holds the up members is sound. *)
Lemma prefix_sound w n : want w = take n all -> (length (osd prim.1 :: up_accepted st ai prim.1 oldest) <= n)%nat ->
  backfill w = list_to_set (whole <$> up_backfill st ai prim.1 oldest) -> targets_ok w ->
  sound_wants st ai oldest prim w.
Proof.
  intros Hw Hn Hb Ht. assert (forall o, o ∈ want w -> o ∈ all) as Hsub.
  { intros o. rewrite Hw. apply subseteq_take. }
  assert (forall o, o ∈ up_accepted st ai prim.1 oldest \/ o = osd prim.1 -> o ∈ want w) as Hin.
  { intros o Ho. rewrite Hw, take_app_ge by done. apply elem_of_app. left. rewrite elem_of_cons. tauto. }
  split; [| | | | |done].
  - rewrite Hw. simpl in Hn. destruct n; [lia|]. done.
  - rewrite Hw. apply (sublist_NoDup _ all); [apply all_nodup|apply sublist_take].
  - intros o Ho%Hsub%all_acceptable. apply acceptable_spec in Ho as (i & Hi & [? ?]%rejected_spec). eauto.
  - intros o Ho. destruct (decide (whole o = prim.1)) as [E|E]; [left; apply Hin; right; by rewrite <- E|].
    destruct (acceptable ai oldest o) eqn:Ea; [left; apply Hin; left; by apply in_up_accepted|right].
    rewrite Hb, elem_of_list_to_set. apply list_elem_of_fmap_2. unfold up_backfill. by apply list_elem_of_filter.
  - intros s. rewrite Hb, elem_of_list_to_set, list_elem_of_fmap. intros (o & -> & [[Hne Ha] Ho]%list_elem_of_filter). simpl.
    split_and!; [done|done|]. intros Hw'%Hsub%all_acceptable. congruence.
Qed.

Lemma all_complete p : p ∈ ai -> rejected oldest p.2 = false -> osd p.1 ∈ all.
Proof.
  intros Hp Hr. rewrite <- app_comm_cons, elem_of_cons, !elem_of_app, in_up_accepted, in_C1, in_C2.
  pose proof (whole_key st ai auth Hok p Hp) as Hk. destruct (decide (p.1 = prim.1)) as [-> |Hne]; [by left|]. right.
  assert (acceptable ai oldest (osd p.1) = true) as Ha.
  { apply acceptable_spec. exists p.2. split; [|done]. rewrite <- Hk. apply elem_find; [apply Hok|by destruct p]. }
  rewrite <- Hk. destruct (decide (osd p.1 ∈ up st)); [by left|]. right.
  destruct (decide (osd p.1 ∈ acting st)); [by left|]. right. by exists p.
Qed.
End Sound.

Lemma replicated_sound `{!StdSort} st ai auth size restrict : replicated_ok st ai auth -> exists prim w,
  let oldest := min_ev (log_tail prim.2) (log_tail auth.2) in
  calc_replicated_acting st auth size ai restrict = Some w /\ prim ∈ ai /\ (prim = auth \/ prim.1 = up_primary st) /\
  sound_wants st ai oldest prim w /\
  Z.of_nat (length (want w)) <= Z.max size (1 + Z.of_nat (length (up st))) /\
  (restrict = false -> Z.of_nat (length (want w)) < size -> forall p, p ∈ ai -> is_incomplete p.2 = false ->
     Le oldest (last_update p.2) -> osd p.1 ∈ want w).
Proof.
  intros Hok. destruct (replicated_shape st ai auth Hok size restrict) as (prim & w & C1 & C2 & Hw & Hsel & HC1 & HC2 & Hwant & Hb & Ht).
  destruct (select_primary_spec st ai auth Hok) as (prim' & Hsel' & Hin & Hor & Hold). rewrite Hsel in Hsel'. injection Hsel' as <-.
  exists prim, w. cbv zeta. set (oldest := min_ev (log_tail prim.2) (log_tail auth.2)) in *.
  set (base := osd prim.1 :: up_accepted st ai prim.1 oldest) in *. cbv zeta in HC1, HC2, Hwant, Hb.
  assert (length base <= 1 + length (up st))%nat as Hlen.
  { unfold base, up_accepted. simpl. pose proof (length_filter (fun o => whole o <> prim.1 /\ acceptable ai oldest o = true) (up st)). lia. }
  assert (exists n, want w = take n (base ++ C1 ++ C2) /\ (length base <= n)%nat) as (n & Hn & Hle).
  { destruct (size <=? Z.of_nat (length base)) eqn:Es; [exists (length base); by rewrite take_app_length|]. zbool.
    destruct restrict; [|exists (Z.to_nat size); split; [done|lia]].
    exists (Nat.min (Z.to_nat size) (length (base ++ C1))). rewrite Hwant, app_nil_r, (app_assoc base C1 C2). split.
    - rewrite (take_app_le (base ++ C1) C2) by lia. by rewrite <- take_take, (take_ge _ (length (base ++ C1))).
    - rewrite length_app. lia. }
  split_and!; [done..| | |].
  - by apply (prefix_sound st ai auth Hok prim Hin oldest Hold C1 C2 HC1 HC2 w n).
  - rewrite Hwant. destruct (size <=? _) eqn:Es; [lia|]. rewrite length_take. lia.
  - intros -> Hlt p Hp Hc Hl. rewrite Hwant in *. destruct (size <=? _) eqn:Es; zbool; [lia|].
    rewrite take_ge; [|rewrite length_take in Hlt; lia]. apply (all_complete st ai auth Hok); [done..|]. by apply rejected_spec.
Qed.

(** ** Erasure-coded pools *)

Section Erasure.
Context (st : PeeringState) (ai : infos_t) (tail : eversion_t).

Definition known_at (v : list Z) : Prop := forall i o, member_at v i = Some o -> is_Some (find (mk_shard o (Z.of_nat i)) ai).

(** The info of shard [i] on OSD [o] can be used. *)
Definition usable_shard (i : nat) (o : Z) : Prop := exists x, find (mk_shard o (Z.of_nat i)) ai = Some x /\ usable tail x = true.

Lemma member_at_spec v i o : member_at v i = Some o <-> v !! i = Some o /\ o <> CRUSH_ITEM_NONE.
Proof. unfold member_at. destruct (v !! i) as [x|]; [|naive_solver]. destruct (x =? CRUSH_ITEM_NONE) eqn:E; zbool; naive_solver. Qed.

Lemma usable_at_spec v i : known_at v -> exists b, usable_at ai tail v i = Some b /\
  (b = true <-> exists o, member_at v i = Some o /\ usable_shard i o).
Proof.
  intros Hk. unfold usable_at. destruct (member_at v i) as [o|] eqn:E; [|exists false; split; [done|]; naive_solver].
  destruct (Hk i o E) as [x Hx]. rewrite Hx. cbn [mbind option_bind]. eexists. split; [done|]. unfold usable_shard. naive_solver.
Qed.

Lemma first_stray_spec i l : first_stray tail i l = CRUSH_ITEM_NONE \/
  exists x, (mk_shard (first_stray tail i l) (Z.of_nat i), x) ∈ l /\ usable tail x = true.
Proof.
  induction l as [|[s x] l IH]; [by left|]. simpl. destruct ((shard s =? Z.of_nat i) && usable tail x) eqn:E.
  - right. exists x. apply andb_true_iff in E as [E ?]. zbool. rewrite <- E. split; [|done]. destruct s. left.
  - destruct IH as [|(y & ? & ?)]; [by left|right]. exists y. split; [by right|done].
Qed.
Lemma first_stray_none i l p : Forall (fun q => osd q.1 <> CRUSH_ITEM_NONE) l -> first_stray tail i l = CRUSH_ITEM_NONE ->
  p ∈ l -> shard p.1 = Z.of_nat i -> usable tail p.2 = false.
Proof.
  induction 1 as [|[s x] l Hs Hl IH]; [by intros _ ?%not_elem_of_nil|]. simpl.
  destruct ((shard s =? Z.of_nat i) && usable tail x) eqn:E; [done|]. intros Hf [-> |Hp]%elem_of_cons Hi; [|by apply IH].
  simpl in *. rewrite Hi, Z.eqb_refl in E. done.
Qed.

Section Position.
Context (Hs : keys_sorted ai) (Hosd : Forall (fun q => osd q.1 <> CRUSH_ITEM_NONE) ai)
  (Hu : known_at (up st)) (Ha : known_at (acting st)).

Lemma nth_member v i o : member_at v i = Some o -> nth i v CRUSH_ITEM_NONE = o.
Proof. intros [Hi _]%member_at_spec. by apply nth_lookup_Some. Qed.

Lemma ec_position_spec restrict i : exists o bf, ec_position st ai tail restrict i = Some (o, bf) /\
  (o <> CRUSH_ITEM_NONE -> usable_shard i o) /\
  (restrict = false -> o = CRUSH_ITEM_NONE -> forall p, p ∈ ai -> shard p.1 = Z.of_nat i -> usable tail p.2 = false) /\
  (forall u, member_at (up st) i = Some u -> if bf then ~ usable_shard i u else o = u) /\
  (bf = true -> exists u, member_at (up st) i = Some u).
Proof.
  unfold ec_position. destruct (usable_at_spec (up st) i Hu) as (b & -> & Hb). cbn [mbind option_bind]. destruct b.
  { destruct (proj1 Hb eq_refl) as (u & Hm & Hus). exists u, false. rewrite (nth_member _ _ _ Hm). split; [done|].
    split_and!; [done| |congruence|done]. intros _ ->. by apply member_at_spec in Hm as [_ ?]. }
  assert (forall u, member_at (up st) i = Some u -> ~ usable_shard i u) as Hno by (intros u Hm Hus; by assert (false = true) by (apply Hb; eauto)).
  set (bf := bool_decide _). assert (forall u, member_at (up st) i = Some u -> bf = true) as Hbf.
  { intros u Hm. unfold bf. rewrite Hm. by apply bool_decide_eq_true_2. }
  assert (bf = true -> exists u, member_at (up st) i = Some u) as Hbf2 by (intros [u ?]%bool_decide_eq_true_1; eauto).
  destruct (usable_at_spec (acting st) i Ha) as (b & -> & Hb'). cbn [mbind option_bind]. destruct b.
  { destruct (proj1 Hb' eq_refl) as (a & Hm & Hus). exists a, bf. rewrite (nth_member _ _ _ Hm). split; [done|].
    split_and!; [done| | |done]; [intros _ ->; by apply member_at_spec in Hm as [_ ?]|].
    intros u Hu'. rewrite (Hbf u Hu'). by apply Hno. }
  eexists _, bf. split; [done|]. split_and!; [| | |done].
  - destruct restrict; [done|]. intros Hne. destruct (first_stray_spec i ai) as [?|(x & Hx & ?)]; [done|].
    exists x. split; [by apply elem_find|done].
  - intros -> Hf p Hp. by apply (first_stray_none i ai).
  - intros u Hu'. rewrite (Hbf u Hu'). by apply Hno.
Qed.
End Position.
End Erasure.

(** What a choice must be for an erasure-coded pool, position by position. *)
Record sound_positions (st : PeeringState) (ai : infos_t) (tail : eversion_t) (n : nat) (restrict : bool) (w : wants) : Prop := {
  sp_length : length (want w) = n;
  sp_usable : forall i o, member_at (want w) i = Some o -> usable_shard ai tail i o;
  sp_filled : restrict = false -> forall i, want w !! i = Some CRUSH_ITEM_NONE ->
    forall p, p ∈ ai -> shard p.1 = Z.of_nat i -> usable tail p.2 = false;
  sp_up : forall i u, (i < n)%nat -> member_at (up st) i = Some u ->
    want w !! i = Some u \/ mk_shard u (Z.of_nat i) ∈ backfill w;
  sp_backfill : forall s, s ∈ backfill w -> exists i u, (i < n)%nat /\ member_at (up st) i = Some u /\ s = mk_shard u (Z.of_nat i) /\
    ~ usable_shard ai tail i u;
  sp_targets : acting_backfill w = convert_to_pg_shards true (want w) ∪ backfill w
}.

Lemma ec_sound st ai auth n restrict : (n <= 128)%nat -> keys_sorted ai -> Forall (fun q => osd q.1 <> CRUSH_ITEM_NONE) ai ->
  known_at ai (up st) -> known_at ai (acting st) ->
  exists w, calc_ec_acting st auth (Z.of_nat n) ai restrict = Some w /\ sound_positions st ai (log_tail auth) n restrict w.
Proof.
  intros Hn Hs Hosd Hu Ha. unfold calc_ec_acting. rewrite (proj2 (Z.leb_le _ _)) by lia. rewrite Nat2Z.id.
  set (pos := ec_position st ai (log_tail auth) restrict).
  assert (forall i, is_Some (pos i)) as Hpos.
  { intros i. destruct (ec_position_spec st ai (log_tail auth) Hs Hosd Hu Ha restrict i) as (o & bf & E & _). unfold pos. by rewrite E. }
  destruct (mapM_is_Some_2 pos (seq 0 n)) as [ps Hps]; [apply Forall_forall; intros i _; apply Hpos|]. rewrite Hps. cbn [mbind option_bind].
  apply mapM_Some in Hps. pose proof (Forall2_length _ _ _ Hps) as Hlen. rewrite length_seq in Hlen.
  assert (forall i o bf, ps !! i = Some (o, bf) -> (i < n)%nat /\ pos i = Some (o, bf)) as Hat.
  { intros i o bf E. apply lookup_lt_Some in E as Hi. split; [lia|].
    destruct (Forall2_lookup_r _ _ _ _ _ Hps E) as (j & Hj & Hp). by apply lookup_seq in Hj as [-> _]. }
  assert (forall s, s ∈ (list_to_set (omap (fun i => if (default (CRUSH_ITEM_NONE, false) (ps !! i)).2
      then Some (mk_shard (nth i (up st) CRUSH_ITEM_NONE) (Z.of_nat i)) else None) (seq 0 n)) : gset pg_shard_t) <->
    exists i o, ps !! i = Some (o, true) /\ s = mk_shard (nth i (up st) CRUSH_ITEM_NONE) (Z.of_nat i)) as Hbf.
  { intros s. rewrite elem_of_list_to_set, list_elem_of_omap. split.
    - intros (i & Hi & E). destruct (ps !! i) as [[o []]|] eqn:Ep; simpl in E; [|done..]. injection E as <-. eauto.
    - intros (i & o & E & ->). exists i. destruct (Hat _ _ _ E) as [Hi _]. split; [apply elem_of_seq; lia|]. by rewrite E. }
  assert (forall i o, ps.*1 !! i = Some o -> exists bf, ps !! i = Some (o, bf)) as Hfst.
  { intros i o. rewrite list_lookup_fmap. destruct (ps !! i) as [[o1 bf]|]; [|done]. intros E. injection E as <-. eauto. }
  pose proof (ec_position_spec st ai (log_tail auth) Hs Hosd Hu Ha restrict) as Hspec. fold pos in Hspec.
  eexists. split; [done|]. split; simpl; [by rewrite length_fmap| | | | |done].
  - intros i o [Hw Hne]%member_at_spec. apply Hfst in Hw as [bf [_ Hp]%Hat].
    destruct (Hspec i) as (o2 & bf2 & Hp2 & H1 & _). rewrite Hp in Hp2. injection Hp2 as <- <-. auto.
  - intros Hr i [bf [_ Hp]%Hat]%Hfst. destruct (Hspec i) as (o2 & bf2 & Hp2 & _ & H2 & _). rewrite Hp in Hp2. injection Hp2 as <- <-. auto.
  - intros i u Hi Hm. destruct (lookup_lt_is_Some_2 ps i) as [[o bf] E]; [lia|]. destruct (Hat _ _ _ E) as [_ Hp].
    destruct (Hspec i) as (o2 & bf2 & Hp2 & _ & _ & H3 & _). rewrite Hp in Hp2. injection Hp2 as <- <-. specialize (H3 u Hm). destruct bf.
    + right. apply Hbf. exists i, o. by rewrite (nth_member _ _ _ Hm).
    + left. rewrite list_lookup_fmap, E. simpl. by rewrite H3.
  - intros s (i & o & E & ->)%Hbf. destruct (Hat _ _ _ E) as [Hi Hp].
    destruct (Hspec i) as (o2 & bf2 & Hp2 & _ & _ & H3 & H4). rewrite Hp in Hp2. injection Hp2 as <- <-.
    destruct (H4 eq_refl) as [u Hm]. exists i, u. rewrite (nth_member _ _ _ Hm). split_and!; [done..|]. by apply H3.
Qed.

(** ** Asynchronous recovery *)

Section AsyncFacts.
Context `{!IsPGRecoverable} (st : PeeringState) (ai : infos_t).

Lemma cost_insert_elem x y l : x ∈ cost_insert y l -> x = y \/ x ∈ l.
Proof.
  induction l as [|z l IH]; simpl; [intros ->%list_elem_of_singleton; by left|].
  destruct (cost_lt y z); [|destruct (cost_lt z y)]; rewrite ?elem_of_cons; naive_solver.
Qed.

Lemma by_cost_spec cost l : Forall (fun s => is_Some (find s ai)) l -> forall acc,
  exists cs, by_cost st ai cost l acc = Some cs /\
    forall x, x ∈ cs -> x ∈ acc \/ (x.2 ∈ l /\ x.2 ∉ stray_set st /\ is_up st x.2 = true).
Proof.
  induction 1 as [|s l [i Hi] Hl IH]; intros acc; cbn [by_cost]; [by exists acc; auto|].
  destruct (bool_decide (s ∈ stray_set st) || negb (is_up st s)) eqn:E.
  - destruct (IH acc) as (cs & -> & Hcs). exists cs. split; [done|]. intros x Hx. rewrite elem_of_cons. destruct (Hcs x Hx); tauto.
  - apply orb_false_iff in E as [E1%bool_decide_eq_false_1 E2%negb_false_iff]. rewrite Hi. cbn [mbind option_bind].
    edestruct IH as (cs & -> & Hcs). exists cs. split; [done|]. intros x Hx. rewrite elem_of_cons.
    destruct (Hcs x Hx) as [Hx'|]; [|tauto]. destruct (cost i) as [c|]; [|tauto].
    apply cost_insert_elem in Hx' as [-> |]; [|tauto]. right. simpl. auto.
Qed.

Lemma erase_first_spec o w : match erase_first o w with
  | Some w' => exists a b, w = a ++ o :: b /\ w' = a ++ b
  | None => o ∉ w
  end.
Proof.
  induction w as [|x w IH]; simpl; [by intros ?%not_elem_of_nil|]. destruct (x =? o) eqn:E; zbool; [subst; by exists [], w|].
  destruct (erase_first o w) as [w'|]; simpl.
  - destruct IH as (a & b & -> & ->). by exists (x :: a), b.
  - rewrite elem_of_cons. naive_solver.
Qed.

(** What background recovery takes out of a replicated set: members only, each
    of them a candidate, and never below [min_size]. *)
Record dropped (l : list pg_shard_t) (w w' : list Z) (async async' : gset pg_shard_t) : Prop := {
  dr_sub : sublist w' w;
  dr_keep : forall o, o ∈ w -> o ∈ w' \/ whole o ∈ async';
  dr_old : async ⊆ async';
  dr_new : forall s, s ∈ async' -> s ∈ async \/ (s ∈ l /\ osd s ∈ w /\ osd s ∉ w');
  dr_min : p_min_size (pool st) <= Z.of_nat (length w) -> p_min_size (pool st) <= Z.of_nat (length w')
}.

Lemma drop_replicated_spec l : Forall (fun x => x.2 = whole (osd x.2)) l -> forall w async, NoDup w ->
  dropped l.*2 w (drop_replicated st l w async).1 async (drop_replicated st l w async).2.
Proof.
  assert (forall k w async, dropped k w w async async) as Hid by (intros; split; [done|by left|done|by left|done]).
  induction 1 as [|[c s] l Hs Hl IH]; intros w async Hnd; cbn [drop_replicated]; [apply Hid|].
  destruct (Z.of_nat (length w) <=? p_min_size (pool st)) eqn:E; [apply Hid|]. zbool. simpl in Hs.
  pose proof (erase_first_spec (osd s) w) as Her. destruct (erase_first (osd s) w) as [w1|].
  - destruct Her as (a & b & -> & ->). apply NoDup_app in Hnd as Hnd'. destruct Hnd' as (Na & Nab & Nb). apply NoDup_cons in Nb as [Nb1 Nb2].
    assert (osd s ∉ a ++ b) as Hout by (rewrite elem_of_app; intros [H1|H1]; [apply (Nab _ H1); left|done]).
    destruct (IH (a ++ b) ({[s]} ∪ async)) as [D1 D2 D3 D4 D5].
    { apply NoDup_app. split_and!; [done| |done]. intros x Hx Hb. apply (Nab x Hx). by right. }
    split.
    + etrans; [exact D1|]. apply sublist_app; [done|]. by apply sublist_cons.
    + intros o Ho. destruct (decide (o = osd s)) as [-> |Hne]; [right; rewrite <- Hs; apply D3; set_solver|].
      apply D2. rewrite elem_of_app in *. rewrite elem_of_cons in Ho. tauto.
    + set_solver.
    + intros x Hx. rewrite fmap_cons, elem_of_cons, !elem_of_app, elem_of_cons. destruct (D4 x Hx) as [Hx'|(? & Hx1 & ?)].
      * apply elem_of_union in Hx' as [->%elem_of_singleton|]; [|by left]. right. split_and!; [by left|by right; left|].
        intros Hin. apply Hout. by apply (sublist_subseteq _ _ D1).
      * rewrite elem_of_app in Hx1. tauto.
    + intros _. apply D5. rewrite length_app in *. simpl in E. lia.
  - destruct (IH w async Hnd) as [D1 D2 D3 D4 D5]. split; [done..| |done].
    intros x Hx. rewrite fmap_cons, elem_of_cons. destruct (D4 x Hx); tauto.
Qed.

(** For an erasure-coded pool: positions are emptied, and what is left can
    still be recovered from. *)
Lemma drop_ec_spec l : forall w async,
  let '(w', async') := drop_ec st l w async in
  length w' = length w /\ (forall i o, w' !! i = Some o -> w !! i = Some o \/ o = CRUSH_ITEM_NONE) /\
  (recoverable st w = true -> recoverable st w' = true) /\ (forall s, s ∈ async' -> s ∈ async \/ s ∈ l.*2).
Proof.
  induction l as [|[c s] l IH]; intros w async; cbn [drop_ec]; [by auto|]. destruct (recoverable st (<[_:=_]> w)) eqn:E.
  - specialize (IH (<[Z.to_nat (shard s):=CRUSH_ITEM_NONE]> w) ({[s]} ∪ async)). destruct (drop_ec _ _ _ _) as [w' async'].
    destruct IH as (H1 & H2 & H3 & H4). split_and!; [by rewrite H1, length_insert| |auto|].
    + intros i o Hi. destruct (H2 i o Hi) as [Hi'|]; [|by right]. apply list_lookup_insert_Some in Hi' as [(_ & <- & _)|[_ ?]]; [by right|by left].
    + intros x Hx. rewrite fmap_cons, elem_of_cons. destruct (H4 x Hx); set_solver.
  - specialize (IH w async). destruct (drop_ec _ _ _ _) as [w' async']. destruct IH as (H1 & H2 & H3 & H4). split_and!; [done..|].
    intros x Hx. rewrite fmap_cons, elem_of_cons. destruct (H4 x Hx); tauto.
Qed.
End AsyncFacts.

(** ** The choice *)

(** A primary that has heard from its peers and has settled nothing yet. *)
Record peering_ok (st : PeeringState) : Prop := {
  po_keys : keys_sorted (peer_info st);
  po_tails : Forall (fun p => Le (log_tail p.2) (last_update p.2)) (all_info st);
  po_stray : forall s, s ∈ stray_set st -> is_up st s = false;
  po_want : want_acting st = [];
  po_backfill : backfill_targets st = ∅;
  po_async : async_recovery_targets st = ∅
}.

Record replicated_pool (st : PeeringState) : Prop := {
  rp_type : type (p_pool (pool st)) = TYPE_REPLICATED;
  rp_whole : Forall (fun p => shard p.1 = NO_SHARD) (all_info st);
  rp_up : known (all_info st) (up st);
  rp_acting : known (all_info st) (acting st);
  rp_nodup_up : NoDup (up st);
  rp_nodup_acting : NoDup (acting st);
  rp_primary : up st <> [] -> is_Some (find (up_primary st) (all_info st))
}.
Record erasure_pool (st : PeeringState) : Prop := {
  ep_type : type (p_pool (pool st)) = TYPE_ERASURE;
  ep_size : 0 <= pg_size st <= 128;
  ep_osds : Forall (fun p => osd p.1 <> CRUSH_ITEM_NONE) (all_info st);
  ep_up : known_at (all_info st) (up st);
  ep_acting : known_at (all_info st) (acting st)
}.

Section ChooseFacts.
Context `{!IsPGRecoverable} `{!StdSort} (st : PeeringState) (Hpo : peering_ok st).

Lemma all_sorted : keys_sorted (all_info st).
Proof. apply set_info_sorted, Hpo. Qed.

Lemma best_elem restrict bound auth : (find_best_info st (all_info st) restrict bound).1 = Some auth ->
  auth ∈ all_info st /\ is_incomplete auth.2 = false.
Proof.
  unfold find_best_info. destruct (max_les st bound (all_info st)) as [b les]. case_match; [done|]. simpl. intros E.
  pose proof (best_loop st restrict les (min_last_update_acceptable les (all_info st)) (all_info st) None ltac:(done)) as Hb.
  rewrite E in Hb. destruct Hb as ([?|Hin] & Hd & _); [done|]. split; [done|]. unfold disqualified in Hd. by apply orb_false_iff in Hd as [_ ?].
Qed.

Lemma replicated_pool_ok auth : replicated_pool st -> auth ∈ all_info st -> is_incomplete auth.2 = false -> replicated_ok st (all_info st) auth.
Proof.
  intros [] Hin Hc. split; [apply all_sorted|done..|]. pose proof (po_tails _ Hpo) as Ht. rewrite Forall_forall in Ht. by apply Ht.
Qed.

(** A request never meets pending backfill, a settlement never meets a stray. *)
Definition no_conflict (w : wants) (wa : list Z) : Prop :=
  (wa = up st -> backfill w = ∅) /\ backfill w ∩ stray_set st = ∅.

Lemma not_ec : type (p_pool (pool st)) = TYPE_REPLICATED -> ec_pool st = false.
Proof. intros E. unfold ec_pool, is_erasure. by rewrite E. Qed.

Lemma replicated_async auth ai w : type (p_pool (pool st)) = TYPE_REPLICATED ->
  NoDup w -> Forall (fun o => is_Some (find (whole o) ai)) w -> ai = all_info st ->
  exists wa async, choose_async st auth w = Some (wa, async) /\ dropped st (whole <$> filter (fun o => o ∈ up st) w) w wa ∅ async.
Proof.
  intros Ht Hnd Hk ->. unfold choose_async. rewrite (not_ec Ht).
  destruct (server_mimic (cct st)); [|exists w, ∅; split; [done|]; split; [done|by left|done|set_solver|done]].
  unfold choose_async_recovery_replicated, shards_of.
  destruct (by_cost_spec st (all_info st) (cost_replicated st auth) (whole <$> w)) with (acc := @nil (Z * pg_shard_t)) as (cs & Hcs & Hel).
  { by apply Forall_fmap. }
  rewrite Hcs. cbn [mbind option_bind]. eexists _, _. split; [apply (f_equal Some), surjective_pairing|].
  assert (forall x, x ∈ reverse cs -> x.2 = whole (osd x.2) /\ osd x.2 ∈ w /\ osd x.2 ∈ up st) as Hx.
  { intros x Hx. rewrite elem_of_reverse in Hx. destruct (Hel x Hx) as [?%not_elem_of_nil|(Hin & _ & Hup)]; [done|].
    apply list_elem_of_fmap in Hin as (o & Eo & Ho). rewrite Eo in *. unfold is_up, has_shard in Hup. rewrite (not_ec Ht) in Hup.
    by apply bool_decide_eq_true_1 in Hup. }
  destruct (drop_replicated_spec st (reverse cs)) with (w := w) (async := (∅ : gset pg_shard_t)) as [D1 D2 D3 D4 D5]; [|done|].
  { apply Forall_forall. intros x Hin. by apply Hx. }
  split; [done..| |done]. intros s Hs. destruct (D4 s Hs) as [?|(Hin & ? & ?)]; [by left|right]. split_and!; [|done..].
  apply list_elem_of_fmap in Hin as (x & -> & Hin). destruct (Hx x Hin) as (Ex & ? & ?). rewrite Ex. apply list_elem_of_fmap_2, list_elem_of_filter. done.
Qed.

Lemma erasure_async auth w : type (p_pool (pool st)) = TYPE_ERASURE -> (length w <= 128)%nat ->
  (forall i o, member_at w i = Some o -> is_Some (find (mk_shard o (Z.of_nat i)) (all_info st))) ->
  exists wa async, choose_async st auth w = Some (wa, async) /\ length wa = length w /\
    (forall i o, wa !! i = Some o -> w !! i = Some o \/ o = CRUSH_ITEM_NONE) /\
    (recoverable st w = true -> recoverable st wa = true).
Proof.
  intros Ht Hlen Hk. unfold choose_async. assert (ec_pool st = true) as -> by (unfold ec_pool, is_erasure; by rewrite Ht).
  destruct (server_mimic (cct st)); [|exists w, ∅; by auto]. unfold choose_async_recovery_ec, shards_of.
  rewrite (proj2 (Z.leb_le _ _)) by lia.
  destruct (by_cost_spec st (all_info st) (cost_ec st auth)
    (omap id (imap (fun i o => if o =? CRUSH_ITEM_NONE then None else Some (shard_of true i o)) w)))
    with (acc := @nil (Z * pg_shard_t)) as (cs & Hcs & _).
  { apply Forall_forall. intros s (x & Hx & Hs)%list_elem_of_omap. apply list_elem_of_lookup in Hx as (i & Hi).
    rewrite list_lookup_imap in Hi. destruct (w !! i) as [o|] eqn:E; [|done]. simpl in Hi. injection Hi as <-.
    destruct (o =? CRUSH_ITEM_NONE) eqn:En; [done|]. zbool. injection Hs as <-. apply Hk. by apply member_at_spec. }
  rewrite Hcs. cbn [mbind option_bind]. pose proof (drop_ec_spec st (reverse cs) w ∅) as Hd.
  destruct (drop_ec st (reverse cs) w ∅) as [wa async]. exists wa, async. naive_solver.
Qed.

Lemma evict_sub wa : sublist (evict st wa) wa.
Proof. apply sublist_take. Qed.

Lemma replicated_core auth restrict : replicated_pool st -> auth ∈ all_info st -> is_incomplete auth.2 = false ->
  exists prim w wa async, calc_acting st auth restrict = Some w /\ prim ∈ all_info st /\ (prim = auth \/ prim.1 = up_primary st) /\
    sound_wants st (all_info st) (min_ev (log_tail prim.2) (log_tail auth.2)) prim w /\
    choose_async st auth.2 (want w) = Some (wa, async) /\
    dropped st (whole <$> filter (fun o => o ∈ up st) (want w)) (want w) wa ∅ async /\
    no_conflict w (evict st wa).
Proof.
  intros Hrp Hin Hc. pose proof (replicated_pool_ok auth Hrp Hin Hc) as Hok.
  destruct (replicated_sound st (all_info st) auth (pg_size st) restrict Hok) as (prim & w & Hw & Hp & Hor & Hsw & _).
  destruct (replicated_async auth.2 (all_info st) (want w)) as (wa & async & Hca & Hdr); [apply Hrp|apply Hsw| |done|].
  { apply Forall_forall. intros o Ho. destruct (sw_usable _ _ _ _ _ Hsw o Ho) as (i & Hi & _). eauto. }
  exists prim, w, wa, async. split_and!; [|done..|].
  { unfold calc_acting. by rewrite (rp_type _ Hrp). }
  split.
  - intros E. apply elem_of_equiv_empty_L. intros s Hs. destruct (sw_backfill _ _ _ _ _ Hsw s Hs) as (_ & Hu & Hn). apply Hn.
    apply (sublist_subseteq _ _ (dr_sub _ _ _ _ _ _ Hdr)). apply (sublist_subseteq _ _ (evict_sub wa)). by rewrite E.
  - apply elem_of_equiv_empty_L. intros s [Hs Hst]%elem_of_intersection. destruct (sw_backfill _ _ _ _ _ Hsw s Hs) as (_ & Hu & _).
    apply (po_stray _ Hpo) in Hst. unfold is_up, has_shard in Hst. rewrite (not_ec (rp_type _ Hrp)) in Hst.
    by apply bool_decide_eq_false_1 in Hst.
Qed.

Lemma erasure_core auth restrict : erasure_pool st -> exists w wa async, calc_acting st auth restrict = Some w /\
    sound_positions st (all_info st) (log_tail auth.2) (Z.to_nat (pg_size st)) restrict w /\
    choose_async st auth.2 (want w) = Some (wa, async) /\ length wa = length (want w) /\
    (forall i o, wa !! i = Some o -> want w !! i = Some o \/ o = CRUSH_ITEM_NONE) /\
    (recoverable st (want w) = true -> recoverable st wa = true) /\
    no_conflict w (evict st wa).
Proof.
  intros [Ht Hsz Ho Hu Ha]. destruct (ec_sound st (all_info st) auth.2 (Z.to_nat (pg_size st)) restrict) as (w & Hw & Hsp);
    [lia|apply all_sorted|done..|]. rewrite Z2Nat.id in Hw by lia.
  destruct (erasure_async auth.2 (want w) Ht) as (wa & async & Hca & Hl & Hwa & Hrec); [rewrite (sp_length _ _ _ _ _ _ Hsp); lia| |].
  { intros i o Hm. destruct (sp_usable _ _ _ _ _ _ Hsp i o Hm) as (x & -> & _). done. }
  exists w, wa, async. split_and!; [|done..|]. { unfold calc_acting. by rewrite Ht. }
  split.
  - intros E. apply elem_of_equiv_empty_L. intros s Hs. destruct (sp_backfill _ _ _ _ _ _ Hsp s Hs) as (i & u & Hi & Hm & _ & Hno).
    apply Hno, (sp_usable _ _ _ _ _ _ Hsp). apply member_at_spec in Hm as [Hm Hne]. apply member_at_spec. split; [|done].
    rewrite <- E in Hm. apply lookup_take_Some in Hm as [Hm _]. by destruct (Hwa i u Hm).
  - apply elem_of_equiv_empty_L. intros s [Hs Hst]%elem_of_intersection.
    destruct (sp_backfill _ _ _ _ _ _ Hsp s Hs) as (i & u & Hi & Hm & -> & _). apply member_at_spec in Hm as [Hm _].
    apply (po_stray _ Hpo) in Hst. unfold is_up, has_shard, ec_pool, is_erasure in Hst. rewrite Ht in Hst. simpl in Hst.
    assert (u32 (Z.of_nat i) = Z.of_nat i) as Eu by (unfold u32; apply Z.mod_small; lia). rewrite Eu, Nat2Z.id in Hst.
    apply lookup_lt_Some in Hm as Hl'. rewrite (proj2 (Z.ltb_lt _ _)) in Hst by lia. simpl in Hst.
    by apply bool_decide_eq_false_1 in Hst.
Qed.

Lemma request_total w wa : no_conflict w wa -> exists st', request_change st wa (backfill w) = Some st' /\ want_acting st' = wa.
Proof.
  intros [Hn _]. unfold request_change. destruct (osd_debug_no_acting_change (cct st)); [by eexists|].
  case_bool_decide as E; [|by eexists]. rewrite bool_decide_eq_true_2 by auto. by eexists.
Qed.

Lemma settle_total w wa async : no_conflict w wa -> settle st w async = Some (set_targets (acting_backfill w) (backfill w) async st).
Proof.
  intros [_ Hn]. unfold settle. rewrite (po_backfill _ Hpo), (po_async _ Hpo), !(bool_decide_eq_true_2 (∅ = ∅)) by done.
  cbn [orb mbind option_bind]. by rewrite bool_decide_eq_true_2 by done.
Qed.

Lemma revert_total : exists st', revert_to_up st = Some st' /\ want_acting st' = (if bool_decide (up st = acting st) then [] else up st).
Proof.
  unfold revert_to_up. rewrite (po_want _ Hpo). case_bool_decide; [exists st; split; [done|apply Hpo]|by eexists].
Qed.
(** The ways a choice ends when a log was found. *)
Lemma choose_cases auth bound bd restrict only w wa async r a b st' :
  find_best_info st (all_info st) restrict bound = (Some auth, bd) -> is_incomplete auth.2 = false ->
  calc_acting st auth restrict = Some w -> choose_async st auth.2 (want w) = Some (wa, async) -> no_conflict w (evict st wa) ->
  choose_acting st restrict bound only = Some (r, a, b, st') ->
  a = Some auth.1 /\
  ((r = false /\ want_acting st' = []) \/
   (r = false /\ evict st wa <> acting st /\ want_acting st' = evict st wa) \/
   (r = true /\ evict st wa = acting st /\ (only = false -> st' = set_targets (acting_backfill w) (backfill w) async st))).
Proof.
  intros Hf Hc Hw Hca Hn. unfold choose_acting. rewrite Hf, Hc. cbn [negb]. rewrite Hw. cbn [mbind option_bind].
  destruct (recoverable st (want w)); cbn [negb]; [|intros [= <- <- <- <-]; auto]. rewrite Hca. cbn [mbind option_bind].
  case_bool_decide as E; cbn [negb].
  - destruct only; [intros [= <- <- <- <-]; split; [done|]; right; right; done|]. rewrite (settle_total w _ async Hn). cbn [mbind option_bind].
    intros [= <- <- <- <-]. split; [done|]; right; right; done.
  - destruct (request_total w _ Hn) as (st1 & Hr & Hwa). rewrite Hr. cbn [mbind option_bind]. intros [= <- <- <- <-]. auto 10.
Qed.
End ChooseFacts.
End ChoiceFacts.
