(* ===== verification/PeerChoiceTheorems.v ===== *)
(** The theorems on the choice of an acting set (PeerChoice.v), with concrete
    groups. *)
From S2P Require Import Prelude Pg Hobject OSDMap PgMissing PastIntervals PeerChoice PeerChoiceFacts.
Import Bits.

Module ChoiceTheorems.
Import Eversion EversionFacts PastIntervals PeerChoice ChoiceFacts.
Import OSDMap(CRUSH_ITEM_NONE, NO_SHARD).
Import PgPool(type, size, TYPE_REPLICATED, TYPE_ERASURE).

(** C16: the log chosen is the best there is.  [find_best_info] finds one exactly
    when some info is eligible: complete, allowed by the restriction, and with a
    [last_epoch_started] that no complete info and no counted history exceeds.
    What it finds is eligible; no eligible info is better by last update (newer
    in a replicated pool, older in an erasure-coded one), then by a longer log,
    then by having nothing missing; and between equals it is the primary's own. *)
Theorem find_best_info_correct st infos restrict bound : infos_ok infos ->
  match (find_best_info st infos restrict bound).1 with
  | None => forall p, ~ eligible st infos restrict p
  | Some b => eligible st infos restrict b /\
    forall p, eligible st infos restrict p ->
      ~ better st p b /\ (p.1 = pg_whoami st -> ~ better st b p -> b.1 = pg_whoami st)
  end.
Proof.
  intros Hok. unfold find_best_info. destruct (max_les st bound infos) as [bd les] eqn:El.
  assert (forall p, p ∈ infos -> disqualified st restrict les (min_last_update_acceptable les infos) p = false <-> eligible st infos restrict p) as Hel.
  { intros p Hp. pose proof (eligible_spec st infos restrict bound p Hok Hp) as E. by rewrite El in E. }
  destruct (min_last_update_acceptable les infos =? Eversion.max)%ev eqn:Em; simpl.
  - apply eqb_spec in Em. intros p Hp. assert (p ∈ infos) as Hin by apply Hp. apply (Hel p Hin) in Hp.
    unfold disqualified in Hp. rewrite Em, !orb_false_iff in Hp. destruct Hp as [[[_ Hp] _] _]. apply lt_ge in Hp.
    unfold infos_ok in Hok. rewrite Forall_forall in Hok. destruct (Hok p Hin) as [_ Hlt]. by apply (irreflexivity Lt Eversion.max), (Le_Lt_trans _ (last_update p.2)).
  - pose proof (best_loop st restrict les (min_last_update_acceptable les infos) infos None ltac:(done)) as Hb.
    destruct (foldl _ None infos) as [b|].
    + destruct Hb as ([?|Hin] & Hd & Hb); [done|]. split; [by apply Hel|]. intros p Hp. assert (p ∈ infos) as Hpi by apply Hp.
      apply Hb; [by right|]. by apply Hel.
    + destruct Hb as [_ Hb]. intros p Hp. assert (p ∈ infos) as Hpi by apply Hp. apply (Hel p Hpi) in Hp. by rewrite Hb in Hp.
Qed.

(** the acting set wanted for a replicated pool.  With the infos of the up and
    acting OSDs at hand and an authoritative log that is complete,
    [calc_replicated_acting] never trips an assertion, and wants a set without
    duplicates that starts with the primary, all of whose members are complete
    and can be brought up to date from the combined logs; each up OSD is in it
    or backfilled, never both.  It exceeds the size only by what is up, and, if
    strays may serve, falls short of it only when it already holds every usable
    OSD. *)
Theorem calc_replicated_acting_correct `{!StdSort} st ai auth size restrict : replicated_ok st ai auth -> exists prim w,
  let oldest := min_ev (log_tail prim.2) (log_tail auth.2) in
  calc_replicated_acting st auth size ai restrict = Some w /\ prim ∈ ai /\ (prim = auth \/ prim.1 = up_primary st) /\
  sound_wants st ai oldest prim w /\
  Z.of_nat (length (want w)) <= Z.max size (1 + Z.of_nat (length (up st))) /\
  (restrict = false -> Z.of_nat (length (want w)) < size -> forall p, p ∈ ai -> is_incomplete p.2 = false ->
     Le oldest (last_update p.2) -> osd p.1 ∈ want w).
Proof. apply replicated_sound. Qed.

(** the acting set wanted for an erasure-coded pool, position by position.
    With the infos of the up and acting shards at hand [calc_ec_acting] returns
    a shard or a hole for each position; a shard is complete and within reach of
    the authoritative log; with strays allowed a hole means that no usable shard
    of that position is known; an up shard is wanted or backfilled, and only
    unusable ones are backfilled. *)
Theorem calc_ec_acting_correct st ai auth n restrict : (n <= 128)%nat -> keys_sorted ai ->
  Forall (fun q => osd q.1 <> CRUSH_ITEM_NONE) ai -> known_at ai (up st) -> known_at ai (acting st) ->
  exists w, calc_ec_acting st auth (Z.of_nat n) ai restrict = Some w /\ sound_positions st ai (log_tail auth) n restrict w.
Proof. apply ec_sound. Qed.

Section Choose.
Context `{!IsPGRecoverable} `{!StdSort}.

(** choosing an acting set never ends the process.  For a primary that has
    the infos of its up and acting OSDs and has settled nothing yet, in a
    replicated or an erasure-coded pool, none of the assertions on the way can
    fail: in particular, when the set wanted is the up set nothing is left to
    backfill, and no stray is among the backfill targets. *)
Theorem choose_acting_never_asserts st restrict bound only : peering_ok st -> replicated_pool st \/ erasure_pool st ->
  is_Some (choose_acting st restrict bound only).
Proof.
  intros Hpo Hpool. unfold choose_acting. destruct (find_best_info st (all_info st) restrict bound) as [[auth|] b] eqn:E.
  2:{ destruct (revert_total st Hpo) as (st' & -> & _). by eexists. }
  destruct (best_elem st restrict bound auth) as [Hin Hc]; [by rewrite E|]. rewrite Hc. cbn [negb].
  assert (exists w wa async, calc_acting st auth restrict = Some w /\ choose_async st auth.2 (want w) = Some (wa, async) /\
    no_conflict st w (evict st wa)) as (w & wa & async & -> & Hca & Hn).
  { destruct Hpool as [Hr|He].
    - destruct (replicated_core st Hpo auth restrict Hr Hin Hc) as (p & w & wa & async & ? & _ & _ & _ & ? & _ & ?). eauto 10.
    - destruct (erasure_core st Hpo auth restrict He) as (w & wa & async & ? & _ & ? & _ & _ & _ & ?). eauto 10. }
  cbn [mbind option_bind]. destruct (recoverable st (want w)); cbn [negb]; [|by eexists]. rewrite Hca. cbn [mbind option_bind].
  destruct (bool_decide (evict st wa = acting st)); cbn [negb].
  - destruct only; [by eexists|]. rewrite (settle_total st Hpo w _ async Hn). by eexists.
  - destruct (request_total st w _ Hn) as (st' & -> & _). by eexists.
Qed.

(** C15: what a choice settles in a replicated pool.  When [choose_acting] answers
    that the acting set is the one wanted and settles the targets, every acting
    OSD is complete and within reach of the combined logs; the targets of
    recovery hold every up and every acting OSD; the backfill and background
    recovery targets are up OSDs that are not acting; and an up OSD that is not
    acting is one of these, unless the acting set is full.  When it asks for a
    change, the set asked for has no duplicates, is not the acting set, is at
    most the pool's size, and its members are complete and within reach. *)
Theorem choose_acting_settles st restrict bound only r auth_id b st' : peering_ok st -> replicated_pool st ->
  choose_acting st restrict bound only = Some (r, Some auth_id, b, st') ->
  exists auth prim, auth ∈ all_info st /\ auth.1 = auth_id /\ prim ∈ all_info st /\
  let reach o := exists i, find (whole o) (all_info st) = Some i /\ is_incomplete i = false /\
                   Le (min_ev (log_tail prim.2) (log_tail auth.2)) (last_update i) in
  (r = true -> forall o, o ∈ acting st -> reach o) /\
  (r = true -> only = false ->
    (forall o, o ∈ up st \/ o ∈ acting st -> whole o ∈ acting_recovery_backfill st') /\
    (forall s, s ∈ backfill_targets st' \/ s ∈ async_recovery_targets st' -> osd s ∈ up st /\ osd s ∉ acting st) /\
    (forall o, o ∈ up st -> o ∉ acting st -> whole o ∈ backfill_targets st' \/ whole o ∈ async_recovery_targets st' \/
       size (p_pool (pool st)) <= Z.of_nat (length (acting st)))) /\
  (r = false -> NoDup (want_acting st') /\ (want_acting st' = [] \/ want_acting st' <> acting st) /\
    Z.of_nat (length (want_acting st')) <= Z.max 0 (size (p_pool (pool st))) /\
    forall o, o ∈ want_acting st' -> reach o).
Proof.
  intros Hpo Hrp Hres. destruct (find_best_info st (all_info st) restrict bound) as [[auth|] bd] eqn:E.
  2:{ unfold choose_acting in Hres. rewrite E in Hres. destruct (revert_total st Hpo) as (st1 & Hr & _). by rewrite Hr in Hres. }
  destruct (best_elem st restrict bound auth) as [Hin Hc]; [by rewrite E|].
  destruct (replicated_core st Hpo auth restrict Hrp Hin Hc) as (prim & w & wa & async & Hw & Hp & _ & Hsw & Hca & Hdr & Hn).
  destruct (choose_cases st Hpo auth bound bd restrict only w wa async r _ b st' E Hc Hw Hca Hn Hres) as [[= ->] Hcases]. clear Hres.
  exists auth, prim. split_and!; [done..|]. intros reach.
  assert (sublist (evict st wa) (want w)) as Hsub by (etrans; [apply evict_sub|apply Hdr]).
  assert (forall o, o ∈ evict st wa -> reach o) as Hreach.
  { intros o Ho%(sublist_subseteq _ _ Hsub). by apply (sw_usable _ _ _ _ _ Hsw). }
  destruct Hcases as [[-> Hwa]|[(-> & Hne & Hwa)|(-> & Eq & Hst)]].
  - split_and!; [done|done|]. intros _. rewrite Hwa. split_and!; [constructor|by left|simpl; lia|by intros o ?%not_elem_of_nil].
  - split_and!; [done|done|]. intros _. rewrite Hwa. split_and!; [|by right| |done].
    + by apply (sublist_NoDup _ (want w)); [apply Hsw|].
    + unfold evict. rewrite length_take. lia.
  - rewrite Eq in *. split_and!; [done| |done]. intros _ ->. rewrite (Hst eq_refl). cbn. split_and!.
    + intros o Ho. rewrite (sw_targets _ _ _ _ _ Hsw). apply elem_of_union. rewrite elem_of_list_to_set.
      destruct Ho as [Ho|Ho]; [destruct (sw_up _ _ _ _ _ Hsw o Ho); [left; by apply list_elem_of_fmap_2|by right]|].
      left. by apply list_elem_of_fmap_2, (sublist_subseteq _ _ Hsub).
    + intros s [Hs|Hs].
      * destruct (sw_backfill _ _ _ _ _ Hsw s Hs) as (_ & ? & Hnw). split; [done|]. intros Ha. by apply Hnw, (sublist_subseteq _ _ Hsub).
      * destruct (dr_new _ _ _ _ _ _ Hdr s Hs) as [?|(Hl & _ & Hnw)]; [set_solver|]. apply list_elem_of_fmap in Hl as (o & -> & [Hu _]%list_elem_of_filter).
        split; [done|]. intros Ha. apply Hnw. apply (sublist_subseteq _ _ (evict_sub st wa)). by rewrite Eq.
    + intros o Hu Hna. destruct (sw_up _ _ _ _ _ Hsw o Hu) as [Ho|Ho]; [|by left]. right.
      destruct (dr_keep _ _ _ _ _ _ Hdr o Ho) as [Ho'|]; [|by left]. right. rewrite <- Eq in *.
      unfold evict in *. rewrite length_take. destruct (decide (size (p_pool (pool st)) <= Z.of_nat (length wa))) as [|Hgt]; [lia|].
      destruct Hna. rewrite take_ge by lia. done.
Qed.
End Choose.

(** ** Concrete groups *)

(** A sort that fits. *)
Definition newer_first (a b : eversion_t * Z) : Prop := (a.1 <? b.1)%ev = false.
#[local] Instance newer_first_dec : RelDecision newer_first.
Proof. intros a b. unfold newer_first. apply _. Defined.
#[local] Instance newer_first_total : Total newer_first.
Proof. intros a b. unfold newer_first. rewrite !lt_ge, !le_spec. lia. Qed.
#[local] Instance newer_first_trans : Transitive newer_first.
Proof. intros a b c. unfold newer_first. rewrite !lt_ge, !le_spec. lia. Qed.
#[local] Program Instance merge_StdSort : StdSort := { sort_desc := merge_sort newer_first }.
Next Obligation. apply merge_sort_Permutation. Qed.
Next Obligation. apply (StronglySorted_merge_sort newer_first). Qed.

Definition sample_info (v tail : Z) (complete : bool) : pg_info_t := {|
  last_update := ev 10 v; last_complete := ev 10 v; last_epoch_started := 9; log_tail := ev 10 tail;
  last_backfill := if complete then Hobject.hobject_max else Hobject.hobject_min;
  history_les := 9; num_objects_missing := 0 |}.
Definition sample_conf : conf := {|
  osd_find_best_info_ignore_history_les := false; osd_force_auth_primary_missing_objects := 100;
  osd_allow_recovery_below_min_size := true; osd_async_recovery_min_cost := 100; osd_debug_no_acting_change := false;
  server_mimic := true; server_nautilus := true; server_octopus := true |}.
Definition sample_state (ty : Z) (peers : infos_t) (up_osds acting_osds : list Z) (me : pg_shard_t) : PeeringState := {|
  cct := sample_conf; pg_whoami := me; primary := me;
  pool := {| p_pool := {| PgPool.flags := 0; PgPool.type := ty; PgPool.size := 3; PgPool.crush_rule := 0; PgPool.object_hash := 0;
                          PgPool.pg_num := 8; PgPool.pgp_num := 8; PgPool.pg_num_mask := 7; PgPool.pgp_num_mask := 7 |};
             p_min_size := 2; p_pg_num_pending := 8 |};
  pg_size := 3; info := sample_info 100 50 true; peer_info := peers; up := up_osds; acting := acting_osds;
  up_primary := mk_shard 0 (shard me); stray_set := ∅; num_missing := 0; peer_missing := ∅; want_acting := [];
  acting_recovery_backfill := ∅; backfill_targets := ∅; async_recovery_targets := ∅; want_pg_temp := [] |}.

(** OSD 0 is being backfilled, OSD 2 is too old for the log, OSD 3 is not up. *)
Definition sample_replicated (acting_osds : list Z) : PeeringState :=
  sample_state TYPE_REPLICATED
    [(whole 0, sample_info 100 50 false); (whole 2, sample_info 20 10 true); (whole 3, sample_info 95 60 true)]
    [0; 1; 2] acting_osds (whole 1).
(** Shard 1 of the up set is being backfilled; OSD 4 holds a usable copy of it. *)
Definition sample_erasure : PeeringState :=
  sample_state TYPE_ERASURE
    [(mk_shard 0 0, sample_info 100 50 true); (mk_shard 1 1, sample_info 20 10 false); (mk_shard 4 1, sample_info 100 60 true)]
    [0; 1; 2] [0; CRUSH_ITEM_NONE; 2] (mk_shard 2 2).

Ltac sorted_sample := repeat (constructor; [|repeat constructor]); constructor.
Ltac known_sample := repeat (constructor; [eexists; reflexivity|]); constructor.

Lemma sample_replicated_ok l : peering_ok (sample_replicated l).
Proof. split; [sorted_sample|repeat constructor|set_solver|done..]. Qed.
Lemma sample_replicated_pool : replicated_pool (sample_replicated [1; 3]).
Proof. split; [done|repeat constructor|known_sample|known_sample|apply (bool_decide_eq_true_1 _); reflexivity..|by eexists]. Qed.

Lemma find_best_info_correct_witness :
  infos_ok (all_info (sample_replicated [1; 3])) /\
  option_map fst (find_best_info (sample_replicated [1; 3]) (all_info (sample_replicated [1; 3])) false false).1 = Some (whole 1) /\
  match (find_best_info (sample_replicated [1; 3]) (all_info (sample_replicated [1; 3])) false false).1 with
  | None => False
  | Some b => eligible (sample_replicated [1; 3]) (all_info (sample_replicated [1; 3])) false b
  end.
Proof.
  assert (infos_ok (all_info (sample_replicated [1; 3]))) as Hok by (repeat (constructor; [split; [simpl; lia|reflexivity]|]); constructor).
  split; [exact Hok|]. split; [vm_compute; reflexivity|].
  pose proof (find_best_info_correct (sample_replicated [1; 3]) (all_info (sample_replicated [1; 3])) false false Hok) as H.
  remember (find_best_info (sample_replicated [1; 3]) (all_info (sample_replicated [1; 3])) false false) as r eqn:Er.
  destruct r as [[b|] bd]; [exact (proj1 H)|]. vm_compute in Er. discriminate.
Defined.

Lemma calc_replicated_acting_correct_witness :
  option_map (fun w => (want w, elements (backfill w)))
    (calc_replicated_acting (sample_replicated [1; 3]) (whole 1, sample_info 100 50 true) 3 (all_info (sample_replicated [1; 3])) true)
    = Some ([1; 3], [whole 0; whole 2]) /\
  exists w, calc_replicated_acting (sample_replicated [1; 3]) (whole 1, sample_info 100 50 true) 3 (all_info (sample_replicated [1; 3])) true = Some w.
Proof.
  split; [vm_compute; reflexivity|].
  destruct (calc_replicated_acting_correct (sample_replicated [1; 3]) (all_info (sample_replicated [1; 3])) (whole 1, sample_info 100 50 true) 3 true)
    as (prim & w & Hw & _); [|by exists w].
  apply replicated_pool_ok; [apply sample_replicated_ok|apply sample_replicated_pool|right; left|reflexivity].
Defined.

Lemma sample_erasure_known l : Forall (fun x => is_Some (find (mk_shard x.2 (Z.of_nat x.1)) (all_info sample_erasure)))
    (omap (fun i => o ← member_at l i; Some (i, o)) (seq 0 (length l))) -> known_at (all_info sample_erasure) l.
Proof.
  intros Hf i o Hm. rewrite Forall_forall in Hf. apply (Hf (i, o)). apply list_elem_of_omap. exists i. rewrite Hm. split; [|done].
  apply member_at_spec in Hm as [Hm%lookup_lt_Some _]. apply elem_of_seq. lia.
Qed.
Lemma sample_erasure_ok : peering_ok sample_erasure.
Proof. split; [sorted_sample|repeat constructor|set_solver|done..]. Qed.
Lemma sample_erasure_pool : erasure_pool sample_erasure.
Proof. split; [done|simpl; lia|repeat constructor; done|apply sample_erasure_known; known_sample..]. Qed.

Lemma calc_ec_acting_correct_witness :
  option_map (fun w => (want w, elements (backfill w)))
    (calc_ec_acting sample_erasure (sample_info 100 50 true) 3 (all_info sample_erasure) false) = Some ([0; 4; 2], [mk_shard 1 1]) /\
  exists w, calc_ec_acting sample_erasure (sample_info 100 50 true) 3 (all_info sample_erasure) false = Some w.
Proof.
  split; [vm_compute; reflexivity|].
  destruct (calc_ec_acting_correct sample_erasure (all_info sample_erasure) (sample_info 100 50 true) 3 false) as (w & Hw & _);
    [lia|apply all_sorted, sample_erasure_ok|apply sample_erasure_pool..|by exists w].
Defined.

Lemma choose_acting_never_asserts_witness :
  option_map (fun r => (r.1.1.1, want_pg_temp r.2)) (choose_acting sample_erasure false false false) = Some (false, [[0; 4; 2]]) /\
  is_Some (choose_acting sample_erasure false false false).
Proof.
  split; [vm_compute; reflexivity|]. apply (choose_acting_never_asserts sample_erasure false false false sample_erasure_ok).
  right. exact sample_erasure_pool.
Defined.

Definition settled : PeeringState :=
  default (sample_replicated [1; 3]) (snd <$> choose_acting (sample_replicated [1; 3]) true false false).

Lemma choose_acting_settles_witness :
  elements (backfill_targets settled) = [whole 0; whole 2] /\
  exists auth prim, auth ∈ all_info (sample_replicated [1; 3]) /\ auth.1 = whole 1 /\ prim ∈ all_info (sample_replicated [1; 3]).
Proof.
  split; [vm_compute; reflexivity|].
  destruct (choose_acting_settles (sample_replicated [1; 3]) true false false true (whole 1) true settled) as (auth & prim & H1 & H2 & H3 & _).
  - apply sample_replicated_ok.
  - exact sample_replicated_pool.
  - vm_compute. reflexivity.
  - by exists auth, prim.
Defined.
End ChoiceTheorems.
