(* ===== verification/PeerTrim.v ===== *)
(** How far a primary lets the log be trimmed, src/ceph-15.2.17/src/osd/PeeringState.cc
    [calc_trim_to] and [calc_trim_to_aggressive], over the log of PgLog.v. *)
From S2P Require Import Prelude Pg Hobject CleanRegions PgMissing PgLog PgLogFacts PgLogOps PgLogRecovery.
Import Bits.

Module PeerTrim.
Import Eversion Entry PgLog.

Record trim_conf := {
  osd_pg_log_trim_min : Z;
  osd_pg_log_trim_max : Z;
  osd_target_pg_log_entries_per_osd : Z;
  osd_min_pg_log_entries : Z;
  osd_max_pg_log_entries : Z
}.

(** [OSDService::get_target_pg_log_entries]. *)
Definition get_target_pg_log_entries (c : trim_conf) (num_pgs : Z) : Z :=
  let target := osd_target_pg_log_entries_per_osd c in
  if (0 <? num_pgs) && (0 <? target)
  then Z.max (Z.min (u32 (target / num_pgs)) (u32 (osd_max_pg_log_entries c))) (u32 (osd_min_pg_log_entries c))
  else u32 (osd_min_pg_log_entries c).

(** [pg_log_t::approx_size]: the distance of the versions, not the number of
    entries. *)
Definition approx_size (x : IndexedLog) : Z := sub64 (version (head x)) (version (tail x)).

Section Trim.
Context (c : trim_conf) (target : Z) (x : IndexedLog).

Definition num_to_trim : Z := Z.min (sub64 (approx_size x) target) (osd_pg_log_trim_max c).
Definition too_few : bool := (num_to_trim <? osd_pg_log_trim_min c) && (osd_pg_log_trim_min c <=? osd_pg_log_trim_max c).

(** The loop over the oldest entries; [None] when it reads past the last. *)
Fixpoint walk (limit : eversion_t) (n : nat) (l : list pg_log_entry_t) (new_trim_to : eversion_t) : option eversion_t :=
  match n with
  | O => Some new_trim_to
  | S n =>
    match l with
    | [] => None
    | e :: l => if (limit <? e_version e)%ev then Some limit else walk limit n l (e_version e)
    end
  end.

Definition calc_trim_to (min_last_complete_ondisk pg_trim_to : eversion_t) : option eversion_t :=
  let limit := min_ev min_last_complete_ondisk (can_rollback_to x) in
  if negb (limit =? zero)%ev && negb (limit =? pg_trim_to)%ev && (target <? approx_size x) then
    if too_few then Some pg_trim_to
    else
      t ← walk limit (Z.to_nat num_to_trim) (log x) zero;
      ceph_assert (t <=? head x)%ev ;;
      ceph_assert (t <=? min_last_complete_ondisk)%ev ;;
      Some t
  else Some pg_trim_to.

(** The loop from both ends. *)
Fixpoint walk_both (n i : Z) (it rit : list pg_log_entry_t) (by_n_to_keep by_n_to_trim : eversion_t) : eversion_t * eversion_t :=
  match it, rit with
  | e :: it, r :: rit =>
    let i := i + 1 in
    let k := if (target <? i) && (by_n_to_keep =? zero)%ev then e_version r else by_n_to_keep in
    let t := if (n <=? i) && (by_n_to_trim =? Eversion.max)%ev then e_version e else by_n_to_trim in
    if negb (k =? zero)%ev && negb (t =? Eversion.max)%ev then (k, t) else walk_both n i it rit k t
  | _, _ => (by_n_to_keep, by_n_to_trim)
  end.

Definition calc_trim_to_aggressive (last_update_ondisk pg_trim_to : eversion_t) : option eversion_t :=
  let limit := min_ev (min_ev (head x) (can_rollback_to x)) last_update_ondisk in
  if negb (limit =? zero)%ev && negb (limit =? pg_trim_to)%ev && (target <? approx_size x) then
    if too_few then Some pg_trim_to
    else
      let '(k, t) := walk_both num_to_trim 0 (log x) (reverse (log x)) zero Eversion.max in
      if (k =? zero)%ev then Some pg_trim_to
      else
        let t := min_ev (min_ev k t) limit in
        ceph_assert (t <=? head x)%ev ;; Some t
  else Some pg_trim_to.
End Trim.
End PeerTrim.

Module PeerTrimFacts.
Import Eversion EversionFacts Entry PgLog LogFacts PeerTrim.

Definition upto (t : eversion_t) (l : list pg_log_entry_t) : list pg_log_entry_t := List.filter (fun e => (e_version e <=? t)%ev) l.
Definition beyond (t : eversion_t) (l : list pg_log_entry_t) : list pg_log_entry_t := List.filter (fun e => (t <? e_version e)%ev) l.

Lemma upto_none t l : Forall (fun e => Lt t (e_version e)) l -> upto t l = [].
Proof.
  induction 1 as [|e l He Hl IH]; [done|]. unfold upto in *. simpl. destruct (e_version e <=? t)%ev eqn:E; [|done].
  destruct (irreflexivity Lt t). by eapply Lt_Le_trans.
Qed.

(** What the walk finds: within the limit, and no more than [n] entries up to it. *)
Lemma walk_spec limit n : forall l cur, StronglySorted later l -> Le cur limit -> Forall (fun e => Lt cur (e_version e)) l ->
  match walk limit n l cur with
  | Some t => Le t limit /\ (length (upto t l) <= n)%nat
  | None => (length l < n)%nat /\ Forall (fun e => Le (e_version e) limit) l
  end.
Proof.
  induction n as [|n IH]; intros l cur Hs Hc Hl; simpl.
  { split; [done|]. by rewrite upto_none. }
  destruct l as [|e l]; [split; [simpl; lia|constructor]|]. apply StronglySorted_inv in Hs as [Hs He].
  destruct (limit <? e_version e)%ev eqn:E.
  - split; [reflexivity|]. rewrite upto_none; [simpl; lia|]. constructor; [done|]. eapply Forall_impl; [exact He|].
    intros e' He'. by etrans.
  - apply lt_ge in E. specialize (IH l (e_version e) Hs E He). destruct (walk limit n l (e_version e)) as [t|].
    + destruct IH as [H1 H2]. split; [done|]. unfold upto in *. simpl. destruct (e_version e <=? t)%ev; simpl; lia.
    + destruct IH as [H1 H2]. split; [simpl; lia|by constructor].
Qed.

Lemma walk_past_end limit n : forall l cur, (length l < n)%nat -> Forall (fun e => Le (e_version e) limit) l -> walk limit n l cur = None.
Proof.
  induction n as [|n IH]; intros l cur Hn Hl; [lia|]. destruct Hl as [|e l He Hl]; [done|]. simpl. simpl in Hn.
  rewrite (proj2 (lt_ge _ _)) by done. apply IH; [lia|done].
Qed.

(** What is kept: the entry with [target] newer ones, if there is one. *)
Lemma walk_both_keep target n : forall it rit i k t, length it = length rit -> 0 <= i ->
  (walk_both target n i it rit k t).1 = zero \/
  ((walk_both target n i it rit k t).1 = k \/
   exists j r, rit !! j = Some r /\ target <= i + Z.of_nat j /\ (walk_both target n i it rit k t).1 = e_version r).
Proof.
  induction it as [|e it IH]; intros [|r rit] i k t Hl Hi; try done; simpl; [auto|].
  set (k' := if (target <? i + 1) && _ then _ else _). set (t' := if (n <=? i + 1) && _ then _ else _).
  assert (k' = k \/ (target <= i /\ k' = e_version r)) as Hk.
  { unfold k'. destruct (target <? i + 1) eqn:E1; zbool; simpl; [|by left]. destruct (k =? zero)%ev; [right; split; [lia|done]|by left]. }
  assert (forall v, v = k' -> v = k \/ exists j r0, (r :: rit) !! j = Some r0 /\ target <= i + Z.of_nat j /\ v = e_version r0) as Hhere.
  { intros v ->. destruct Hk as [->|[Hle ->]]; [by left|right]. exists 0%nat, r. split; [done|]. split; [lia|done]. }
  destruct (negb _ && _); [right; by apply Hhere|].
  destruct (IH rit (i + 1) k' t') as [H|[H|(j & r0 & Hj & Hle & H)]]; [by injection Hl|lia|by left|right; by apply Hhere|].
  right. right. exists (S j), r0. split; [done|]. split; [lia|done].
Qed.

(** An entry at index [j] from the end has [j] newer entries. *)
Lemma newer_than l j r : StronglySorted later l -> reverse l !! j = Some r -> (j <= length (beyond (e_version r) l))%nat.
Proof.
  revert j. induction l as [|e l IH] using rev_ind; intros j Hs Hj; [done|].
  rewrite reverse_snoc in Hj. unfold beyond. rewrite List.filter_app, length_app. simpl.
  assert (StronglySorted later l) as Hsl by (clear -Hs; induction l as [|a l IH]; [constructor|]; apply StronglySorted_inv in Hs as [Hs Ha];
    constructor; [by apply IH|]; by apply Forall_app in Ha as [? _]).
  destruct j as [|j]; [lia|]. simpl in Hj. specialize (IH j Hsl Hj). unfold beyond in IH.
  assert ((e_version r <? e_version e)%ev = true) as ->; [|simpl; lia].
  apply list_elem_of_lookup_2 in Hj. rewrite elem_of_reverse in Hj. clear -Hs Hj.
  induction l as [|a l IH]; [by apply not_elem_of_nil in Hj|]. apply StronglySorted_inv in Hs as [Hs Ha].
  apply elem_of_cons in Hj as [-> |Hj]; [|by apply IH]. apply Forall_app in Ha as [_ Ha]. by inversion Ha.
Qed.

Lemma beyond_mono s t l : Le s t -> (length (beyond t l) <= length (beyond s l))%nat.
Proof.
  intros Hle. induction l as [|e l IH]; [done|]. unfold beyond in *. simpl. destruct (t <? e_version e)%ev eqn:E.
  - rewrite (Le_Lt_trans _ _ _ Hle E). simpl. lia.
  - destruct (s <? e_version e)%ev; simpl; lia.
Qed.
End PeerTrimFacts.

Module PeerTrimTheorems.
Import Hobject Eversion EversionFacts Entry PgLog LogFacts PgLogOps LogSamples PeerTrim PeerTrimFacts.

(** how far the log may be trimmed.  For a sorted log with an entry for each
    version between its tail and its head, [calc_trim_to] reads no entry that is
    not there and trips no assertion; where it moves the point, the new point is
    committed on all replicas and cannot be rolled back, at most the configured
    number of entries lies before it, and at least [target] entries after it. *)
Theorem calc_trim_to_correct c target x committed trim_to :
  0 <= target -> StronglySorted later (log x) -> Forall (fun e => Lt zero (e_version e)) (log x) ->
  Le zero committed -> Le zero (can_rollback_to x) -> Le (can_rollback_to x) (head x) -> approx_size x <= Z.of_nat (length (log x)) ->
  exists t, calc_trim_to c target x committed trim_to = Some t /\
    (t = trim_to \/
     Le t committed /\ Le t (can_rollback_to x) /\
     Z.of_nat (length (upto t (log x))) <= Z.max 0 (osd_pg_log_trim_max c) /\
     target <= Z.of_nat (length (beyond t (log x)))).
Proof.
  intros Ht Hs Hz Hc0 Hr0 Hh Hd. unfold calc_trim_to. set (limit := min_ev committed (can_rollback_to x)).
  destruct (negb _ && _ && _) eqn:E; [|by eexists; auto]. destruct (too_few c target x); [by eexists; auto|].
  rewrite !andb_true_iff in E. destruct E as [_ E]. zbool.
  assert (0 <= approx_size x < two64) as Ha by apply sub64_range.
  assert (sub64 (approx_size x) target = approx_size x - target) as Hsub by (apply sub64_small; lia).
  pose proof (walk_spec limit (Z.to_nat (num_to_trim c target x)) (log x) zero Hs) as Hw.
  assert (Le zero limit) as Hzl by (subst limit; unfold min_ev; destruct (_ <? _)%ev; done).
  specialize (Hw Hzl Hz). unfold num_to_trim in *. rewrite Hsub in *. destruct (walk _ _ _ _) as [t|]; [|lia].
  destruct Hw as [Hw1 Hw2]. cbn [mbind option_bind].
  assert (Le t committed) as H1 by (etrans; [exact Hw1|apply min_ev_l]).
  assert (Le t (can_rollback_to x)) as H2 by (etrans; [exact Hw1|apply min_ev_r]).
  assert (Le t (head x)) as H3 by (etrans; [exact H2|exact Hh]).
  rewrite H3, H1. eexists. split; [done|]. right. split_and!; [done..|lia|].
  assert (length (upto t (log x)) + length (beyond t (log x)) = length (log x))%nat as Hsum.
  { clear. induction (log x) as [|e l IH]; [done|]. unfold upto, beyond in *. simpl.
    destruct (e_version e <=? t)%ev eqn:E1, (t <? e_version e)%ev eqn:E2; simpl; try lia.
    - destruct (irreflexivity Lt t). by eapply Lt_Le_trans.
    - apply le_gt in E1. congruence. }
  lia.
Qed.

(** trimming under pressure keeps the target.  For any sorted log, gaps or
    not, [calc_trim_to_aggressive] trips no assertion, and where it moves the
    point, at least [target] entries lie after it, and it does not pass the
    head, what can be rolled back, or what is on disk. *)
Theorem calc_trim_to_aggressive_correct c target x ondisk trim_to :
  0 <= target -> StronglySorted later (log x) ->
  exists t, calc_trim_to_aggressive c target x ondisk trim_to = Some t /\
    (t = trim_to \/
     Le t (head x) /\ Le t (can_rollback_to x) /\ Le t ondisk /\ target <= Z.of_nat (length (beyond t (log x)))).
Proof.
  intros Ht Hs. unfold calc_trim_to_aggressive. set (limit := min_ev (min_ev _ _) _).
  destruct (negb _ && _ && _) eqn:E; [|by eexists; auto]. destruct (too_few c target x); [by eexists; auto|].
  pose proof (walk_both_keep target (num_to_trim c target x) (log x) (reverse (log x)) 0 zero Eversion.max) as Hk.
  destruct (walk_both _ _ _ _ _ _ _) as [k tr]. simpl in Hk. destruct (k =? zero)%ev eqn:Ek; [by eexists; auto|].
  apply eqb_neq in Ek. destruct Hk as [?|[?|(j & r & Hj & Hle & ->)]]; [by rewrite length_reverse|lia|done..|].
  set (t := min_ev (min_ev (e_version r) tr) limit).
  assert (Le limit (head x) /\ Le limit (can_rollback_to x) /\ Le limit ondisk) as (L1 & L2 & L3).
  { unfold limit. split_and!; [etrans; [apply min_ev_l|apply min_ev_l]|etrans; [apply min_ev_l|apply min_ev_r]|apply min_ev_r]. }
  assert (Le t limit) as Htl by apply min_ev_r.
  assert (Le t (e_version r)) as Htr by (etrans; [apply min_ev_l|apply min_ev_l]).
  assert (Le t (head x)) as H1 by (etrans; [exact Htl|exact L1]). rewrite H1. eexists. split; [done|]. right. split_and!; [done|etrans; [exact Htl|exact L2]|etrans; [exact Htl|exact L3]|].
  pose proof (newer_than _ _ _ Hs Hj). pose proof (beyond_mono _ _ (log x) Htr). lia.
Qed.

(** where the number of entries is less than the distance of the versions,
    [calc_trim_to] reads past the end of the log.  The distance counts versions;
    when more of them are to be trimmed than there are entries, and all entries
    may be trimmed, the loop dereferences the end of the list. *)
Theorem calc_trim_to_past_end c target x committed trim_to :
  let limit := min_ev committed (can_rollback_to x) in
  limit <> zero -> limit <> trim_to -> target < approx_size x -> too_few c target x = false ->
  Forall (fun e => Le (e_version e) limit) (log x) -> Z.of_nat (length (log x)) < num_to_trim c target x ->
  calc_trim_to c target x committed trim_to = None.
Proof.
  intros limit Hz Ht Ha Hf Hl Hn. unfold calc_trim_to. fold limit. rewrite Hf.
  rewrite (proj2 (eqb_neq _ _) Hz), (proj2 (eqb_neq _ _) Ht), (proj2 (Z.ltb_lt _ _) Ha). simpl.
  by rewrite (walk_past_end limit (Z.to_nat (num_to_trim c target x)) (log x) zero ltac:(lia) Hl).
Qed.

(** ** A log of eight writes, and a child split off it *)

Definition trim_defaults : trim_conf := {|
  osd_pg_log_trim_min := 2; osd_pg_log_trim_max := 10000; osd_target_pg_log_entries_per_osd := 300000;
  osd_min_pg_log_entries := 3; osd_max_pg_log_entries := 10000 |}.
Definition eight : IndexedLog :=
  sample_log (ev 10 0) (ev 10 8) ((fun n => wr n 10 (n + 1) 0 0) <$> [0; 1; 2; 3; 4; 5; 6; 7]).
Definition child : IndexedLog := (split_out_child 1 2 eight).2.

Ltac in_order := repeat (constructor; [|repeat constructor]); constructor.

Lemma calc_trim_to_correct_witness :
  calc_trim_to trim_defaults 3 eight (ev 10 8) zero = Some (ev 10 5) /\
  exists t, calc_trim_to trim_defaults 3 eight (ev 10 8) zero = Some t.
Proof.
  split; [vm_compute; reflexivity|].
  destruct (calc_trim_to_correct trim_defaults 3 eight (ev 10 8) zero) as (t & Ht & _);
    [lia|in_order|repeat constructor|reflexivity|reflexivity|reflexivity|vm_compute; discriminate|by exists t].
Defined.

Lemma calc_trim_to_aggressive_correct_witness :
  calc_trim_to_aggressive trim_defaults 1 child (ev 10 8) zero = Some (ev 10 2) /\
  exists t, calc_trim_to_aggressive trim_defaults 1 child (ev 10 8) zero = Some t.
Proof.
  split; [vm_compute; reflexivity|].
  destruct (calc_trim_to_aggressive_correct trim_defaults 1 child (ev 10 8) zero) as (t & Ht & _); [lia|in_order|by exists t].
Defined.

(** Two of the eight entries go to the child, whose versions span all eight. *)
Lemma calc_trim_to_past_end_witness :
  length (log child) = 2%nat /\ approx_size child = 8 /\ calc_trim_to trim_defaults 3 child (ev 10 8) zero = None.
Proof.
  split; [vm_compute; reflexivity|]. split; [vm_compute; reflexivity|].
  apply (calc_trim_to_past_end trim_defaults 3 child (ev 10 8) zero);
    [discriminate|discriminate|reflexivity|reflexivity|repeat constructor|reflexivity].
Defined.
End PeerTrimTheorems.
