(* ===== verification/AvlAllocator.v ===== *)
(** The free-space allocator of BlueStore, src/ceph-15.2.17/src/os/bluestore/
    AvlAllocator.{h,cc}: the free ranges of a device in two trees, one by offset
    and one by size, with first-fit and best-fit allocation.  With a bound on
    the number of ranges, smaller ranges spill over to another allocator, as
    HybridAllocator does. *)
From S2P Require Import Prelude Pg.

Module AvlAllocator.

(** ** Alignment, include/intarith.h, on [uint64_t] *)

Definition neg64 (x : Z) : Z := sub64 0 x.
Definition isp2 (x : Z) : bool := Z.land x (sub64 x 1) =? 0.
Definition p2align (x align : Z) : Z := Z.land x (neg64 align).
Definition p2roundup (x align : Z) : Z := neg64 (Z.land (neg64 x) (neg64 align)).
Definition cbits64 (v : Z) : Z := if v =? 0 then 0 else Z.log2 v + 1.

(** ** Data *)

Record range_seg_t := seg { start : Z; end_ : Z }.
#[export] Instance range_seg_eq_dec : EqDecision range_seg_t.
Proof. solve_decision. Defined.

Definition length (r : range_seg_t) : Z := sub64 (end_ r) (start r).

(** [before_t] and [shorter_t]. *)
Definition before (lhs rhs : range_seg_t) : bool := end_ lhs <=? start rhs.
Definition shorter (lhs rhs : range_seg_t) : bool :=
  if length lhs <? length rhs then true
  else if length rhs <? length lhs then false
  else start lhs <? start rhs.

Record conf := {
  num_total : Z;
  block_size : Z;
  range_size_alloc_threshold : Z;
  range_size_alloc_free_pct : Z;
  max_search_count : Z;
  max_search_bytes : Z;
  range_count_cap : Z
}.

(** The allocator; [fallback] is the state of whatever ranges spill over to. *)
Record AvlAllocator (B : Type) := mk_avl {
  range_tree : list range_seg_t;
  range_size_tree : list range_seg_t;
  num_free : Z;
  lbas : list Z;
  fallback : B
}.
Arguments mk_avl {B}.
Arguments range_tree {B}.
Arguments range_size_tree {B}.
Arguments num_free {B}.
Arguments lbas {B}.
Arguments fallback {B}.

Definition MAX_LBAS : nat := 64.
Definition MINUS_1 : Z := two64 - 1.
Definition ENOSPC : Z := 28.

(** ** Searches in the trees

    An ordered tree is its list of elements; a search by a monotone predicate
    is the split of the list at the first element past it. *)

Fixpoint span (p : range_seg_t -> bool) (l : list range_seg_t) : list range_seg_t * list range_seg_t :=
  match l with
  | [] => ([], [])
  | x :: l' => if p x then let '(a, b) := span p l' in (x :: a, b) else ([], l)
  end.

Definition lower_bound (k : range_seg_t) (l : list range_seg_t) := span (fun x => before x k) l.
Definition upper_bound (k : range_seg_t) (l : list range_seg_t) := span (fun x => negb (before k x)) l.
Definition find (k : range_seg_t) (l : list range_seg_t) : option range_seg_t :=
  match (lower_bound k l).2 with
  | [] => None
  | x :: _ => if before k x then None else Some x
  end.

(** Nodes are told apart by their bounds, which differ between nodes. *)
Definition erase (r : range_seg_t) (l : list range_seg_t) : list range_seg_t := List.filter (fun x => negb (bool_decide (x = r))) l.
Definition replace (r n : range_seg_t) (l : list range_seg_t) : list range_seg_t :=
  map (fun x => if bool_decide (x = r) then n else x) l.
Fixpoint insert_before (pos : option range_seg_t) (n : range_seg_t) (l : list range_seg_t) : list range_seg_t :=
  match l with
  | [] => [n]
  | x :: l' => if bool_decide (pos = Some x) then n :: l else x :: insert_before pos n l'
  end.
Fixpoint next_of (r : range_seg_t) (l : list range_seg_t) : option range_seg_t :=
  match l with
  | [] => None
  | x :: l => if bool_decide (x = r) then head l else next_of r l
  end.

Fixpoint size_insert (r : range_seg_t) (l : list range_seg_t) : list range_seg_t :=
  match l with
  | [] => [r]
  | x :: l' => if shorter r x then r :: l else x :: size_insert r l'
  end.

(** ** Operations *)

Section Avl.
Context {B : Type} (_spillover_range : Z -> Z -> B -> option B) (c : conf).
Implicit Types a : AvlAllocator B.

Definition set_tree (t : list range_seg_t) a := mk_avl t (range_size_tree a) (num_free a) (lbas a) (fallback a).

Definition _range_size_tree_rm (r : range_seg_t) a : option (AvlAllocator B) :=
  ceph_assert (length r <=? num_free a) ;;
  Some (mk_avl (range_tree a) (erase r (range_size_tree a)) (sub64 (num_free a) (length r)) (lbas a) (fallback a)).

Definition size_tree_insert (r : range_seg_t) a : AvlAllocator B :=
  mk_avl (range_tree a) (size_insert r (range_size_tree a)) (add64 (num_free a) (length r)) (lbas a) (fallback a).

Definition spill (r : range_seg_t) a : option (AvlAllocator B) :=
  b ← _spillover_range (start r) (end_ r) (fallback a);
  Some (mk_avl (range_tree a) (range_size_tree a) (num_free a) (lbas a) b).

Definition _lowest_size_available a : Z := match range_size_tree a with [] => 0 | r :: _ => length r end.

(** The smallest range goes to the fallback. *)
Definition remove_lowest a : option (AvlAllocator B) :=
  match range_size_tree a with
  | [] => None
  | r :: _ =>
    a ← _range_size_tree_rm r a;
    a ← spill r a;
    Some (set_tree (erase r (range_tree a)) a)
  end.

(** [pos] is [None] without an insertion, [Some p] for one before [p] (before
    the end when [p] is [None]). *)
Definition _try_insert_range (s e : Z) (pos : option (option range_seg_t)) a : option (bool * AvlAllocator B) :=
  let room := (range_count_cap c =? 0) || (Z.of_nat (List.length (range_size_tree a)) <? range_count_cap c) in
  let evict := negb room && (_lowest_size_available a <? sub64 e s) in
  if negb room && negb evict then
    a ← spill (seg s e) a; Some (false, a)
  else
    let a := match pos with
             | Some p => size_tree_insert (seg s e) (set_tree (insert_before p (seg s e) (range_tree a)) a)
             | None => a
             end in
    a ← if evict then remove_lowest a else Some a;
    Some (true, a).

Definition _range_size_tree_try_insert (r : range_seg_t) a : option (AvlAllocator B) :=
  '(res, a) ← _try_insert_range (start r) (end_ r) None a;
  if (res : bool) then Some (size_tree_insert r a) else Some (set_tree (erase r (range_tree a)) a).

Definition _add_to_tree (s size : Z) a : option (AvlAllocator B) :=
  ceph_assert (negb (size =? 0)) ;;
  let e := add64 s size in
  let '(pre, suf) := upper_bound (seg s e) (range_tree a) in
  let rs_before := last pre in
  let rs_after := head suf in
  let merge_before := match rs_before with Some r => end_ r =? s | None => false end in
  let merge_after := match rs_after with Some r => start r =? e | None => false end in
  match rs_before, rs_after with
  | Some b, Some r =>
    if merge_before && merge_after then
      a ← _range_size_tree_rm b a;
      a ← _range_size_tree_rm r a;
      let n := seg (start b) (end_ r) in
      let a := set_tree (erase b (replace r n (range_tree a))) a in
      _range_size_tree_try_insert n a
    else if merge_before then
      a ← _range_size_tree_rm b a;
      let n := seg (start b) e in
      _range_size_tree_try_insert n (set_tree (replace b n (range_tree a)) a)
    else if merge_after then
      a ← _range_size_tree_rm r a;
      let n := seg s (end_ r) in
      _range_size_tree_try_insert n (set_tree (replace r n (range_tree a)) a)
    else '(_, a) ← _try_insert_range s e (Some rs_after) a; Some a
  | Some b, None =>
    if merge_before then
      a ← _range_size_tree_rm b a;
      let n := seg (start b) e in
      _range_size_tree_try_insert n (set_tree (replace b n (range_tree a)) a)
    else '(_, a) ← _try_insert_range s e (Some rs_after) a; Some a
  | None, Some r =>
    if merge_after then
      a ← _range_size_tree_rm r a;
      let n := seg s (end_ r) in
      _range_size_tree_try_insert n (set_tree (replace r n (range_tree a)) a)
    else '(_, a) ← _try_insert_range s e (Some rs_after) a; Some a
  | None, None => '(_, a) ← _try_insert_range s e (Some rs_after) a; Some a
  end.

Definition _process_range_removal (s e : Z) (rs : range_seg_t) a : option (AvlAllocator B) :=
  let left_over := negb (start rs =? s) in
  let right_over := negb (end_ rs =? e) in
  a ← _range_size_tree_rm rs a;
  if left_over && right_over then
    let insert_pos := next_of rs (range_tree a) in
    let n := seg (start rs) s in
    let a := set_tree (replace rs n (range_tree a)) a in
    '(_, a) ← _try_insert_range e (end_ rs) (Some insert_pos) a;
    _range_size_tree_try_insert n a
  else if left_over then
    let n := seg (start rs) s in
    _range_size_tree_try_insert n (set_tree (replace rs n (range_tree a)) a)
  else if right_over then
    let n := seg e (end_ rs) in
    _range_size_tree_try_insert n (set_tree (replace rs n (range_tree a)) a)
  else Some (set_tree (erase rs (range_tree a)) a).

Definition _remove_from_tree (s size : Z) a : option (AvlAllocator B) :=
  let e := add64 s size in
  ceph_assert (negb (size =? 0)) ;;
  ceph_assert (size <=? num_free a) ;;
  rs ← find (seg s e) (range_tree a);
  ceph_assert (start rs <=? s) ;;
  ceph_assert (e <=? end_ rs) ;;
  _process_range_removal s e rs a.

(** The pieces of a range, each with whether it was free here; [None] also when
    the next node was disposed of before it is read. *)
Fixpoint try_remove_loop (fuel : nat) (s e : Z) (rs : range_seg_t) (cb : list (Z * Z * bool)) a
    : option (list (Z * Z * bool) * AvlAllocator B) :=
  match fuel with
  | O => None
  | S fuel =>
    let next_rs := next_of rs (range_tree a) in
    let '(cb, s) := if s <? start rs then (cb ++ [(s, sub64 (start rs) s, false)], start rs) else (cb, s) in
    let range_end := Z.min (end_ rs) e in
    a ← _process_range_removal s range_end rs a;
    let cb := cb ++ [(s, sub64 range_end s, true)] in
    let s := range_end in
    let finish := Some (if s <? e then cb ++ [(s, sub64 e s, false)] else cb, a) in
    match next_rs with
    | None => finish
    | Some n =>
      ceph_assert (bool_decide (n ∈ range_tree a)) ;;
      if (start n <? e) && (s <? e) then try_remove_loop fuel s e n cb a else finish
    end
  end.

Definition _try_remove_from_tree (s size : Z) a : option (list (Z * Z * bool) * AvlAllocator B) :=
  let e := add64 s size in
  ceph_assert (negb (size =? 0)) ;;
  match find (seg s e) (range_tree a) with
  | None => Some ([(s, size, false)], a)
  | Some rs =>
    if e <=? start rs then Some ([(s, size, false)], a)
    else try_remove_loop (S (List.length (range_tree a))) s e rs [] a
  end.

(** ** Picking a block *)

Definition set_cursor (i : nat) (v : Z) a := mk_avl (range_tree a) (range_size_tree a) (num_free a) (<[i := v]> (lbas a)) (fallback a).

(** First fit over [l]: the block found, or whether the search was given up or
    came to the end; with the cursor and the counters. *)
Inductive search := found (offset : Z) | given_up | exhausted (search_count search_bytes : Z).

Fixpoint first_fit (size align cursor count bytes : Z) (distance : range_seg_t -> Z) (l : list range_seg_t) : search * Z :=
  match l with
  | [] => (exhausted count bytes, cursor)
  | rs :: l =>
    let offset := p2roundup (start rs) align in
    let cursor := add64 offset size in
    if cursor <=? end_ rs then (found offset, cursor)
    else
      let count' := if 0 <? max_search_count c then u32 (count + 1) else count in
      if (0 <? max_search_count c) && (max_search_count c <? count') then (given_up, cursor)
      else if (0 <? max_search_bytes c) && (max_search_bytes c <? distance rs) then (given_up, cursor)
      else first_fit size align cursor count' (distance rs) distance l
  end.

(** The offset, or [MINUS_1], and the new cursor. *)
Definition _pick_block_after (cursor size align : Z) a : Z * Z :=
  let '(pre, suf) := lower_bound (seg cursor size) (range_tree a) in
  let first := match suf with [] => 0 | r :: _ => start r end in
  match first_fit size align cursor 0 0 (fun rs => sub64 (start rs) first) suf with
  | (found o, cur) => (o, cur)
  | (given_up, cur) => (MINUS_1, cur)
  | (exhausted count bytes, cur) =>
    if cur =? 0 then (MINUS_1, cur)
    else
      match first_fit size align cur count 0 (fun rs => add64 bytes (start rs)) pre with
      | (found o, cur) => (o, cur)
      | (_, cur) => (MINUS_1, cur)
      end
  end.

Fixpoint fits (size align : Z) (l : list range_seg_t) : Z :=
  match l with
  | [] => MINUS_1
  | rs :: l =>
    let offset := p2roundup (start rs) align in
    if add64 offset size <=? end_ rs then offset else fits size align l
  end.
Definition _pick_block_fits (size align : Z) a : Z :=
  fits size align (span (fun x => shorter x (seg 0 size)) (range_size_tree a)).2.

(** The [do ... while] loop: a block of the size, or of a smaller one. *)
Fixpoint best_fit (fuel : nat) (size unit : Z) a : option (Z * Z) :=
  match fuel with
  | O => None
  | S fuel =>
    let o := _pick_block_fits size unit a in
    if negb (o =? MINUS_1) then Some (o, size)
    else
      let size := p2align (Z.shiftr size 1) unit in
      if unit <=? size then best_fit fuel size unit a else Some (MINUS_1, size)
  end.

(** [_allocate] of one extent: [None] inside is the error. *)
Definition _allocate_one (size unit : Z) a : option (option (Z * Z) * AvlAllocator B) :=
  let max_size := match last (range_size_tree a) with Some p => length p | None => 0 end in
  if (max_size <? size) && (max_size <? unit) then Some (None, a)
  else
    let force := max_size <? size in
    let size := if force then p2align max_size unit else size in
    ceph_assert (negb force || (0 <? size)) ;;
    let free_pct := i32 (((num_free a * 100) mod two64) / num_total c) in
    '(o, a) ←
      if force || (max_size <? range_size_alloc_threshold c) || (free_pct <? range_size_alloc_free_pct c) then Some (MINUS_1, a)
      else
        let align := Z.land size (neg64 size) in
        ceph_assert (negb (align =? 0)) ;;
        let i := Z.to_nat (cbits64 align - 1) in
        cursor ← lbas a !! i;
        let '(o, cur) := _pick_block_after cursor size unit a in
        Some (o, set_cursor i cur a);
    '(o, size) ← if o =? MINUS_1 then best_fit 65 size unit a else Some (o, size);
    if o =? MINUS_1 then Some (None, a)
    else a ← _remove_from_tree o size a; Some (Some (o, size), a).

(** [_allocate] of extents up to [want]. *)
Fixpoint allocate_loop (fuel : nat) (want unit max_alloc_size allocated : Z) (extents : list (Z * Z)) a
    : option (Z * list (Z * Z) * AvlAllocator B) :=
  if allocated <? want then
    match fuel with
    | O => None
    | S fuel =>
      '(r, a) ← _allocate_one (Z.min max_alloc_size (sub64 want allocated)) unit a;
      match r with
      | None => Some (allocated, extents, a)
      | Some (o, l) => allocate_loop fuel want unit max_alloc_size (add64 allocated l) (extents ++ [(o, l)]) a
      end
    end
  else Some (allocated, extents, a).

Definition _allocate (want unit max_alloc_size : Z) (extents : list (Z * Z)) a : option (Z * list (Z * Z) * AvlAllocator B) :=
  '(allocated, extents, a) ← allocate_loop (S (Z.to_nat (want / unit))) want unit max_alloc_size 0 extents a;
  Some (if allocated =? 0 then - ENOSPC else allocated, extents, a).

Definition allocate (want unit max_alloc_size : Z) (extents : list (Z * Z)) a : option (Z * list (Z * Z) * AvlAllocator B) :=
  ceph_assert (isp2 unit) ;;
  ceph_assert (want mod unit =? 0) ;;
  let max_alloc_size := if max_alloc_size =? 0 then want else max_alloc_size in
  let cap := two32 - 1 in
  let max_alloc_size := if cap <=? max_alloc_size then p2align cap (block_size c) else max_alloc_size in
  _allocate want unit max_alloc_size extents a.

(** ** Release and initialisation *)

Fixpoint _release (release_set : list (Z * Z)) a : option (AvlAllocator B) :=
  match release_set with
  | [] => Some a
  | (o, l) :: rs => a ← _add_to_tree o l a; _release rs a
  end.

Definition init_add_free (offset length : Z) a : option (AvlAllocator B) :=
  if length =? 0 then Some a else _add_to_tree offset length a.
Definition init_rm_free (offset length : Z) a : option (AvlAllocator B) :=
  if length =? 0 then Some a else _remove_from_tree offset length a.
Definition get_free a : Z := num_free a.
Definition shutdown a : AvlAllocator B := mk_avl [] [] (num_free a) (lbas a) (fallback a).
Definition empty_avl (b : B) : AvlAllocator B := mk_avl [] [] 0 (replicate MAX_LBAS 0) b.
End Avl.

(** [AvlAllocator] itself has no bound and nowhere to spill to. *)
Definition no_spill (s e : Z) (b : unit) : option unit := ceph_abort.
End AvlAllocator.
