(* ===== verification/AvlFacts.v ===== *)
(** Facts about the allocator of AvlAllocator.v: alignment, the invariant of the
    two trees, and what adding, removing, picking, allocating and releasing do
    to the space that is available. *)
From S2P Require Import Prelude Pg AvlAllocator.

Module AvlFacts.
Import AvlAllocator.

(** ** Alignment *)

Lemma land_high y k : 0 <= y < two64 -> 0 <= k <= 64 -> Z.land y (two64 - 2 ^ k) = y / 2 ^ k * 2 ^ k.
Proof.
  intros Hy Hk. replace (two64 - 2 ^ k) with (Z.shiftl (Z.ones (64 - k)) k).
  2:{ rewrite Z.shiftl_mul_pow2, Z.ones_equiv by lia. replace two64 with (2 ^ (64 - k) * 2 ^ k); [lia|].
      rewrite <- Z.pow_add_r by lia. by replace (64 - k + k) with 64 by lia. }
  rewrite <- Z.shiftr_div_pow2, <- Z.shiftl_mul_pow2 by lia. apply Z.bits_inj'. intros n Hn.
  rewrite Z.land_spec, Z.shiftl_spec by done. destruct (Z.lt_ge_cases n k) as [Hlt|Hge].
  - rewrite (Z.testbit_neg_r (Z.ones _)), andb_false_r by lia. rewrite Z.shiftl_spec by done. by rewrite Z.testbit_neg_r by lia.
  - rewrite Z.shiftl_spec, Z.shiftr_spec by lia. replace (n - k + k) with n by lia.
    destruct (Z.lt_ge_cases n 64) as [Hl|Hg].
    + rewrite Z.ones_spec_low by lia. by rewrite andb_true_r.
    + rewrite (Z.bits_above_log2 y n); [done|lia|]. destruct (Z.eq_dec y 0) as [->|]; [simpl; lia|].
      apply Z.log2_lt_pow2; [lia|]. apply Z.lt_le_trans with (2 ^ 64); [lia|]. apply Z.pow_le_mono_r; lia.
Qed.

Lemma neg64_pow2 k : 0 <= k < 64 -> neg64 (2 ^ k) = two64 - 2 ^ k.
Proof.
  intros Hk. unfold neg64, sub64. assert (0 < 2 ^ k < two64).
  { split; [apply Z.pow_pos_nonneg; lia|]. change two64 with (2 ^ 64). apply Z.pow_lt_mono_r; lia. }
  rewrite <- (Z.mod_add _ 1) by lia. rewrite Z.mod_small; lia.
Qed.

Definition pow2 (u : Z) : Prop := exists k, 0 <= k <= 62 /\ u = 2 ^ k.

Lemma pow2_pos u : pow2 u -> 0 < u <= 2 ^ 62.
Proof. intros (k & Hk & ->). split; [apply Z.pow_pos_nonneg; lia|]. apply Z.pow_le_mono_r; lia. Qed.

Lemma p2align_spec x u : pow2 u -> 0 <= x < two64 -> p2align x u = x / u * u.
Proof. intros (k & Hk & ->) Hx. unfold p2align. rewrite neg64_pow2 by lia. apply land_high; lia. Qed.

Lemma p2roundup_spec x u : pow2 u -> 0 <= x <= 2 ^ 63 -> p2roundup x u = (x + u - 1) / u * u.
Proof.
  intros (k & Hk & ->) Hx. change (2 ^ 63) with 9223372036854775808 in Hx. unfold p2roundup. rewrite neg64_pow2, land_high by (lia || apply sub64_range).
  assert (0 < 2 ^ k <= 2 ^ 62) as Hp by (apply pow2_pos; by exists k). set (u := 2 ^ k) in *.
  assert (two64 = 2 ^ (64 - k) * u) as H64 by (unfold u; rewrite <- Z.pow_add_r by lia; by replace (64 - k + k) with 64 by lia).
  set (q := 2 ^ (64 - k)) in *. pose proof (Z.div_mod (x + u - 1) u ltac:(lia)) as Hd. pose proof (Z.mod_pos_bound (x + u - 1) u ltac:(lia)) as Hm.
  set (d := (x + u - 1) / u) in *. destruct (Z.eq_dec x 0) as [->|Hx0].
  { unfold neg64 at 2, sub64. rewrite Z.mod_0_l, Z.div_0_l by lia. simpl. unfold neg64, sub64. assert (d = 0) as -> by nia. done. }
  unfold neg64 at 2, sub64. rewrite <- (Z.mod_add _ 1) by lia. rewrite Z.mod_small by lia.
  assert ((0 - x + 1 * two64) / u = q - d) as ->.
  { symmetry. apply (Z.div_unique _ _ _ (u - 1 - (x + u - 1) mod u)); [lia|]. rewrite H64. nia. }
  unfold neg64, sub64. rewrite <- (Z.mod_add _ 1) by lia. rewrite H64. replace (0 - (q - d) * u + 1 * (q * u)) with (d * u) by lia.
  apply Z.mod_small. change (2 ^ 62) with 4611686018427387904 in *. nia.
Qed.

Lemma roundup_bounds x u : 0 < u -> x <= (x + u - 1) / u * u < x + u.
Proof. intros Hu. pose proof (Z.div_mod (x + u - 1) u ltac:(lia)). pose proof (Z.mod_pos_bound (x + u - 1) u Hu). nia. Qed.

(** The first aligned address of a range is the best one. *)
Lemma roundup_least x u y : 0 < u -> x <= y -> y mod u = 0 -> (x + u - 1) / u * u <= y.
Proof.
  intros Hu Hxy Hm. pose proof (Z.div_mod y u ltac:(lia)). rewrite Hm in *.
  assert ((x + u - 1) / u <= y / u); [|nia]. apply Z.lt_succ_r. apply Z.div_lt_upper_bound; nia.
Qed.

(** ** Segments *)

Definition LIMIT : Z := 4611686018427387904.
Definition covers (r : range_seg_t) (x : Z) : Prop := start r <= x < end_ r.
Definition seg_ok (r : range_seg_t) : Prop := 0 <= start r < end_ r /\ end_ r <= LIMIT.
Definition apart (x y : range_seg_t) : Prop := end_ x < start y.
Definition tree_ok (l : list range_seg_t) : Prop := StronglySorted apart l /\ Forall seg_ok l.
Definition free_in (l : list range_seg_t) (x : Z) : Prop := exists r, r ∈ l /\ covers r x.
Definition total (l : list range_seg_t) : Z := foldr (fun r n => end_ r - start r + n) 0 l.

Lemma length_ok r : seg_ok r -> length r = end_ r - start r.
Proof. unfold seg_ok, LIMIT. intros [? ?]. unfold length. apply sub64_small. lia. Qed.

Lemma ss_app {A} (R : A -> A -> Prop) l1 l2 : StronglySorted R (l1 ++ l2) <->
  StronglySorted R l1 /\ StronglySorted R l2 /\ forall x y, x ∈ l1 -> y ∈ l2 -> R x y.
Proof.
  induction l1 as [|a l1 IH]; simpl.
  { split; [intros ?; split_and!; [constructor|done|by intros x y ?%not_elem_of_nil]|by intros (_ & ? & _)]. }
  split.
  - intros [Hs Ha]%StronglySorted_inv. apply IH in Hs as (H1 & H2 & H3). apply Forall_app in Ha as [Ha1 Ha2]. split_and!.
    + by constructor.
    + done.
    + intros x y [-> |Hx]%elem_of_cons Hy; [by rewrite Forall_forall in Ha2; apply Ha2|by apply H3].
  - intros (Hs & H2 & H3). apply StronglySorted_inv in Hs as [H1 Ha]. constructor.
    + apply IH. split_and!; [done..|]. intros x y Hx. apply H3. by right.
    + apply Forall_app. split; [done|]. apply Forall_forall. intros y Hy. apply H3; [by left|done].
Qed.

Lemma tree_app l1 l2 : tree_ok (l1 ++ l2) <-> tree_ok l1 /\ tree_ok l2 /\ forall x y, x ∈ l1 -> y ∈ l2 -> apart x y.
Proof. unfold tree_ok. rewrite ss_app, Forall_app. tauto. Qed.
Lemma tree_cons r l : tree_ok (r :: l) <-> seg_ok r /\ tree_ok l /\ forall y, y ∈ l -> apart r y.
Proof.
  change (r :: l) with ([r] ++ l). rewrite tree_app. setoid_rewrite list_elem_of_singleton. split.
  - intros ([_ H1] & H2 & H3). inversion H1; subst. naive_solver.
  - intros (H1 & H2 & H3). split_and!; [split; repeat constructor; apply H1|done|naive_solver].
Qed.

Lemma tree_nodup l : tree_ok l -> NoDup l.
Proof.
  intros [Hs Hok]. induction Hs as [|x l Hs IH Hx]; [constructor|]. apply Forall_cons in Hok as [Hx0 Hok]. constructor; [|by apply IH].
  intros Hin. rewrite Forall_forall in Hx. specialize (Hx x Hin). unfold apart in Hx. destruct Hx0. lia.
Qed.

Lemma space_app l1 l2 : total (l1 ++ l2) = total l1 + total l2.
Proof. induction l1 as [|r l1 IH]; simpl; lia. Qed.
Lemma total_perm l1 l2 : Permutation l1 l2 -> total l1 = total l2.
Proof. induction 1; simpl; lia. Qed.
Lemma space_nonneg l : Forall seg_ok l -> 0 <= total l.
Proof. induction 1 as [|r l [? _] _ IH]; simpl; lia. Qed.
Lemma total_bound_from l b : 0 <= b <= LIMIT -> tree_ok l -> (forall r, r ∈ l -> b <= start r) -> total l <= LIMIT - b.
Proof.
  revert b. induction l as [|r l IH]; intros b Hb Ht Hl; [simpl; lia|]. apply tree_cons in Ht as (Hr & Ht & Ha).
  specialize (IH (end_ r)). simpl. assert (b <= start r) by (apply Hl; left). destruct Hr as [? ?].
  assert (total l <= LIMIT - end_ r); [|lia]. apply IH; [lia|done|]. intros y Hy. specialize (Ha y Hy). unfold apart in Ha. lia.
Qed.
Lemma space_bound l : tree_ok l -> 0 <= total l <= LIMIT.
Proof.
  intros Ht. split; [apply space_nonneg, Ht|]. pose proof (total_bound_from l 0) as H. rewrite Z.sub_0_r in H. apply H; [unfold LIMIT; lia|done|].
  intros r Hr. destruct Ht as [_ Ht]. rewrite Forall_forall in Ht. destruct (Ht r Hr). lia.
Qed.

Lemma free_app l1 l2 x : free_in (l1 ++ l2) x <-> free_in l1 x \/ free_in l2 x.
Proof. unfold free_in. setoid_rewrite elem_of_app. naive_solver. Qed.
Lemma free_cons r l x : free_in (r :: l) x <-> covers r x \/ free_in l x.
Proof. unfold free_in. setoid_rewrite elem_of_cons. naive_solver. Qed.
Lemma free_perm l1 l2 x : Permutation l1 l2 -> free_in l1 x -> free_in l2 x.
Proof. intros Hp (r & Hr & Hc). exists r. by rewrite <- Hp. Qed.
Lemma free_nil x : ~ free_in [] x.
Proof. by intros (r & ?%not_elem_of_nil & _). Qed.

(** ** Positions in a tree *)

Section At.
Context (pre suf : list range_seg_t) (r : range_seg_t) (Hn : NoDup (pre ++ r :: suf)).

Lemma at_notin : r ∉ pre /\ r ∉ suf.
Proof. apply NoDup_app in Hn as (_ & H1 & [H2 _]%NoDup_cons). split; [|done]. intros Hin. apply (H1 r Hin). by left. Qed.

Lemma erase_notin l : r ∉ l -> erase r l = l.
Proof.
  induction l as [|x l IH]; [done|]. rewrite not_elem_of_cons. intros [Hx Hl]. unfold erase in *. simpl.
  rewrite bool_decide_eq_false_2 by congruence. simpl. by rewrite IH.
Qed.
Lemma erase_at : erase r (pre ++ r :: suf) = pre ++ suf.
Proof.
  destruct at_notin as [H1 H2]. unfold erase. rewrite List.filter_app. simpl. rewrite bool_decide_eq_true_2 by done. simpl.
  fold (erase r pre) (erase r suf). by rewrite !erase_notin.
Qed.
Lemma replace_notin n l : r ∉ l -> replace r n l = l.
Proof.
  induction l as [|x l IH]; [done|]. rewrite not_elem_of_cons. intros [Hx Hl]. simpl.
  rewrite bool_decide_eq_false_2 by congruence. fold (replace r n l). by rewrite IH.
Qed.
Lemma replace_at n : replace r n (pre ++ r :: suf) = pre ++ n :: suf.
Proof.
  destruct at_notin as [H1 H2]. unfold replace. rewrite map_app. simpl. rewrite bool_decide_eq_true_2 by done.
  fold (replace r n pre) (replace r n suf). by rewrite !replace_notin.
Qed.
Lemma next_at : next_of r (pre ++ r :: suf) = head suf.
Proof.
  destruct at_notin as [H1 _]. clear Hn. induction pre as [|x l IH]; simpl; [by rewrite bool_decide_eq_true_2|].
  rewrite not_elem_of_cons in H1. destruct H1 as [? ?]. rewrite bool_decide_eq_false_2 by congruence. by apply IH.
Qed.
End At.

Lemma insert_before_at n pre suf : NoDup (pre ++ suf) -> insert_before (head suf) n (pre ++ suf) = pre ++ n :: suf.
Proof.
  induction pre as [|x pre IH]; simpl; intros Hn.
  - destruct suf as [|y suf]; simpl; [done|]. by rewrite bool_decide_eq_true_2.
  - apply NoDup_cons in Hn as [Hx Hn]. rewrite bool_decide_eq_false_2; [by rewrite IH|]. intros E. apply Hx. apply elem_of_app. right.
    destruct suf; [done|]. injection E as ->. left.
Qed.

Lemma erase_perm r l : NoDup l -> r ∈ l -> Permutation (r :: erase r l) l.
Proof.
  intros Hn (l1 & l2 & ->)%list_elem_of_split. rewrite erase_at by done. apply Permutation_middle.
Qed.

Lemma span_app p l : (span p l).1 ++ (span p l).2 = l.
Proof. induction l as [|x l IH]; [done|]. simpl. destruct (p x); [|done]. destruct (span p l). simpl in *. by rewrite IH. Qed.
Lemma span_pre p l : Forall (fun x => p x = true) (span p l).1.
Proof. induction l as [|x l IH]; [constructor|]. simpl. destruct (p x) eqn:E; [|constructor]. destruct (span p l). by constructor. Qed.
Lemma span_head p l x : head (span p l).2 = Some x -> p x = false.
Proof. induction l as [|y l IH]; [done|]. simpl. destruct (p y) eqn:E; [destruct (span p l); done|]. by intros [= <-]. Qed.

(** ** The order by size *)

Lemma shorter_spec x y : shorter x y = true <-> length x < length y \/ (length x = length y /\ start x < start y).
Proof.
  unfold shorter. destruct (length x <? length y) eqn:E1; zbool; [naive_solver lia|].
  destruct (length y <? length x) eqn:E2; zbool; [naive_solver lia|]. rewrite Z.ltb_lt. lia.
Qed.
Definition sized (x y : range_seg_t) : Prop := shorter y x = false.
Lemma sized_spec x y : sized x y <-> length x < length y \/ (length x = length y /\ start x <= start y).
Proof. unfold sized. rewrite <- not_true_iff_false, shorter_spec. lia. Qed.
#[local] Instance sized_trans : Transitive sized.
Proof. intros x y z. rewrite !sized_spec. lia. Qed.

Lemma size_insert_perm r l : Permutation (size_insert r l) (r :: l).
Proof.
  induction l as [|x l IH]; [done|]. simpl. destruct (shorter r x); [done|]. rewrite IH. apply perm_swap.
Qed.
Lemma size_insert_sorted r l : StronglySorted sized l -> StronglySorted sized (size_insert r l).
Proof.
  induction 1 as [|x l Hs IH Hx]; [repeat constructor|]. simpl. destruct (shorter r x) eqn:E.
  - assert (sized r x) as Hrx by (apply shorter_spec in E; apply sized_spec; lia).
    constructor; [by constructor|]. constructor; [done|]. eapply Forall_impl; [exact Hx|]. intros y. by apply sized_trans.
  - constructor; [done|]. rewrite size_insert_perm. by constructor.
Qed.
Lemma erase_sorted r l : StronglySorted sized l -> StronglySorted sized (erase r l).
Proof.
  induction 1 as [|y l Hl IH Hy]; [constructor|]. unfold erase in *. simpl. destruct (negb _); [|done]. constructor; [done|].
  rewrite Forall_forall in *. intros z Hz. apply Hy. apply list_elem_of_In in Hz. apply filter_In in Hz as [Hz _].
  by apply list_elem_of_In.
Qed.

(** ** The invariant *)

Section Invariant.
Context {B : Type} (sp : Z -> Z -> B -> option B) (c : conf) (bfree : B -> Z -> Prop).
Implicit Types a : AvlAllocator B.

(** What a fallback promises: it takes over ranges that it does not hold. *)
Definition spills : Prop := forall s e b, 0 <= s < e -> e <= LIMIT -> (forall x, s <= x < e -> ~ bfree b x) ->
  exists b', sp s e b = Some b' /\ forall x, bfree b' x <-> bfree b x \/ s <= x < e.
Context (Hsp : range_count_cap c <> 0 -> spills).

(** The trees hold the same ranges, except for [P], which the tree by size does
    not hold for the moment. *)
Record inv (P : list range_seg_t) a : Prop := {
  iv_tree : tree_ok (range_tree a);
  iv_perm : Permutation (P ++ range_size_tree a) (range_tree a);
  iv_sized : StronglySorted sized (range_size_tree a);
  iv_free : num_free a = total (range_size_tree a);
  iv_lbas : List.length (lbas a) = MAX_LBAS;
  iv_disj : forall x, free_in (range_tree a) x -> ~ bfree (fallback a) x
}.

(** The space available here or in the fallback. *)
Definition avail a (x : Z) : Prop := free_in (range_tree a) x \/ bfree (fallback a) x.

Lemma in_tree P a r : inv P a -> r ∈ P \/ r ∈ range_size_tree a -> r ∈ range_tree a.
Proof. intros [_ Hp _ _ _ _] Hr. rewrite <- Hp. by apply elem_of_app. Qed.
Lemma in_tree_ok P a r : inv P a -> r ∈ range_tree a -> seg_ok r.
Proof. intros [[_ Hf] _ _ _ _ _] Hr. rewrite Forall_forall in Hf. by apply Hf. Qed.

Lemma size_total P a : inv P a -> Forall seg_ok (range_size_tree a) /\ total P + total (range_size_tree a) <= LIMIT /\ Forall seg_ok P.
Proof.
  intros Hi. pose proof (iv_perm _ _ Hi) as Hp. pose proof (space_bound _ (iv_tree _ _ Hi)). rewrite <- (total_perm _ _ Hp), space_app in H.
  split_and!; [|lia|]; apply Forall_forall; intros r Hr; apply (in_tree_ok P a); try done; apply (in_tree P); auto.
Qed.

Lemma size_nodup P a : inv P a -> NoDup (P ++ range_size_tree a).
Proof. intros Hi. rewrite (iv_perm _ _ Hi). apply tree_nodup, Hi. Qed.

Lemma retree P P' a t : inv P a -> tree_ok t -> Permutation (P' ++ range_size_tree a) t ->
  (forall x, free_in t x -> ~ bfree (fallback a) x) -> inv P' (set_tree t a).
Proof. intros [] ? ? ?. by split. Qed.

Lemma rm_ok P a r : inv P a -> r ∈ range_size_tree a -> exists a', _range_size_tree_rm r a = Some a' /\ inv (r :: P) a' /\
  range_tree a' = range_tree a /\ fallback a' = fallback a.
Proof.
  intros Hi Hr. destruct (size_total P a Hi) as (Hok & Hb & HP). pose proof (space_nonneg _ HP).
  assert (seg_ok r) as Hrok by (by apply (in_tree_ok P a), (in_tree P a); auto).
  assert (NoDup (range_size_tree a)) as Hn by (pose proof (size_nodup P a Hi) as Hn; by apply NoDup_app in Hn as (_ & _ & ?)).
  pose proof (erase_perm r _ Hn Hr) as Hpe. pose proof (total_perm _ _ Hpe) as Ht. simpl in Ht.
  assert (0 <= total (erase r (range_size_tree a))).
  { apply space_nonneg. apply Forall_forall. intros y Hy. rewrite Forall_forall in Hok. apply Hok. rewrite <- Hpe. by right. }
  unfold _range_size_tree_rm. rewrite (length_ok r Hrok), (iv_free _ _ Hi). destruct Hrok as [? ?]. rewrite (proj2 (Z.leb_le _ _)) by lia.
  eexists. split; [done|]. split; [|done]. split; simpl; [apply Hi| |apply erase_sorted, Hi| |apply Hi|apply Hi].
  - rewrite <- (iv_perm _ _ Hi). rewrite <- Hpe at 2. apply Permutation_middle.
  - unfold LIMIT in *. rewrite sub64_small; lia.
Qed.

Lemma insert_ok P a r : inv (r :: P) a -> inv P (size_tree_insert r a).
Proof.
  intros Hi. destruct (size_total (r :: P) a Hi) as (Hok & Hb & HP). apply Forall_cons in HP as [Hr HP]. simpl in Hb.
  pose proof (space_nonneg _ HP). pose proof (space_nonneg _ Hok).
  split; simpl; [apply Hi| |apply size_insert_sorted, Hi| |apply Hi|apply Hi].
  - rewrite size_insert_perm, <- (iv_perm _ _ Hi). simpl. symmetry. apply Permutation_middle.
  - rewrite (total_perm _ _ (size_insert_perm _ _)). simpl. rewrite (iv_free _ _ Hi), (length_ok r Hr). destruct Hr.
    unfold LIMIT in *. rewrite add64_small; lia.
Qed.

Lemma erased P a r : inv (r :: P) a -> exists pre suf, range_tree a = pre ++ r :: suf /\ erase r (range_tree a) = pre ++ suf /\
  NoDup (pre ++ r :: suf).
Proof.
  intros Hi. assert (r ∈ range_tree a) as Hr by (apply (in_tree (r :: P)); [done|left; left]).
  apply list_elem_of_split in Hr as (pre & suf & E). exists pre, suf. pose proof (tree_nodup _ (iv_tree _ _ Hi)) as Hn. rewrite E in *.
  by rewrite erase_at.
Qed.

(** A range that moves from the tree to the fallback. *)
Lemma spill_pending P a r : inv (r :: P) a -> range_count_cap c <> 0 -> exists a', spill sp r a = Some a' /\
  inv P (set_tree (erase r (range_tree a)) a') /\ range_tree a' = range_tree a /\
  (forall x, avail (set_tree (erase r (range_tree a)) a') x <-> avail a x).
Proof.
  intros Hi Hc. destruct (erased P a r Hi) as (pre & suf & E & Ee & Hn).
  assert (r ∈ range_tree a) as Hr by (rewrite E; apply elem_of_app; right; left).
  pose proof (in_tree_ok _ _ _ Hi Hr) as [Hr1 Hr2].
  destruct (Hsp Hc (start r) (end_ r) (fallback a)) as (b' & Hb & Hbf); [done..| |].
  { intros x Hx. apply (iv_disj _ _ Hi). by exists r. }
  unfold spill. rewrite Hb. eexists. split; [done|]. pose proof (iv_tree _ _ Hi) as Ht. rewrite E in Ht. pose proof Ht as Ht0.
  apply tree_app in Ht as (T1 & T2 & T3). apply tree_cons in T2 as (T4 & T5 & T6).
  assert (tree_ok (pre ++ suf)) as Ht' by (apply tree_app; split_and!; [done..|]; intros x y Hx Hy; apply T3; [done|by right]).
  split; [|split; [done|]].
  - split; simpl; [by rewrite Ee| |apply Hi|apply Hi|apply Hi|].
    + rewrite Ee. apply (Permutation_cons_inv (a := r)). rewrite (Permutation_middle pre suf r), <- E. apply (iv_perm _ _ Hi).
    + intros x Hf [Hx|Hx]%Hbf.
      * revert Hx. apply (iv_disj _ _ Hi). rewrite E, free_app, free_cons. rewrite Ee, free_app in Hf. tauto.
      * rewrite Ee in Hf. destruct Hf as (y & Hy & Hc'). apply elem_of_app in Hy as [Hy|Hy].
        -- specialize (T3 y r Hy ltac:(left)). unfold apart, covers in *. lia.
        -- specialize (T6 y Hy). unfold apart, covers in *. lia.
  - intros x. unfold avail. simpl. rewrite Hbf, Ee, E, !free_app, free_cons. unfold covers. tauto.
Qed.

Lemma remove_lowest_ok P a : inv P a -> range_count_cap c <> 0 -> range_size_tree a <> [] ->
  exists a', remove_lowest sp a = Some a' /\ inv P a' /\ (forall x, avail a' x <-> avail a x).
Proof.
  intros Hi Hc Hne. unfold remove_lowest. destruct (range_size_tree a) as [|r l] eqn:E; [done|].
  destruct (rm_ok P a r Hi) as (a1 & -> & Hi1 & Ht & Hf); [rewrite E; left|]. cbn [mbind option_bind].
  destruct (spill_pending P a1 r Hi1 Hc) as (a2 & -> & Hi2 & Ht2 & Hav). cbn [mbind option_bind].
  rewrite Ht2. eexists. split; [done|]. split; [done|]. intros x. rewrite Hav. unfold avail. by rewrite Ht, Hf.
Qed.

Lemma no_room a : (range_count_cap c =? 0) || (Z.of_nat (List.length (range_size_tree a)) <? range_count_cap c) = false ->
  range_count_cap c <> 0 /\ (0 <= range_count_cap c -> range_size_tree a <> []).
Proof. intros [E1 E2]%orb_false_iff. zbool. split; [done|]. intros Hc E. rewrite E in E2. simpl in E2. lia. Qed.

Context (Hcap : 0 <= range_count_cap c).

(** A range of the tree enters the tree by size, or goes to the fallback. *)
Lemma pending_ok P a r : inv (r :: P) a -> exists a', _range_size_tree_try_insert sp c r a = Some a' /\ inv P a' /\
  forall x, avail a' x <-> avail a x.
Proof.
  intros Hi. unfold _range_size_tree_try_insert, _try_insert_range. destruct r as [s e]. cbn [start end_].
  destruct (_ || _) eqn:Er; cbn [negb andb].
  { cbn [mbind option_bind]. eexists. split; [done|]. split; [by apply insert_ok|done]. }
  destruct (no_room a Er) as [Hc Hne]. destruct (_lowest_size_available a <? sub64 e s); cbn [negb andb mbind option_bind].
  - destruct (remove_lowest_ok _ a Hi Hc (Hne Hcap)) as (a1 & -> & Hi1 & Hav). cbn [mbind option_bind].
    eexists. split; [done|]. split; [by apply insert_ok|done].
  - destruct (spill_pending P a (seg s e) Hi Hc) as (a1 & -> & Hi1 & Ht & Hav). cbn [mbind option_bind].
    rewrite Ht. by eexists.
Qed.

(** A new range between [pre] and [suf]. *)
Lemma new_ok P a s e pre suf : inv P a -> range_tree a = pre ++ suf -> tree_ok (pre ++ seg s e :: suf) ->
  (forall x, s <= x < e -> ~ bfree (fallback a) x) ->
  exists b a', _try_insert_range sp c s e (Some (head suf)) a = Some (b, a') /\ inv P a' /\
    forall x, avail a' x <-> avail a x \/ s <= x < e.
Proof.
  intros Hi E Ht Hb.
  assert (inv (seg s e :: P) (set_tree (pre ++ seg s e :: suf) a)) as Hi'.
  { apply (retree P); [done..| |].
    - simpl. rewrite (iv_perm _ _ Hi), E. apply Permutation_middle.
    - intros x. rewrite free_app, free_cons. intros [Hf|[Hf|Hf]]; [|by apply Hb|]; apply (iv_disj _ _ Hi); rewrite E, free_app; auto. }
  assert (insert_before (head suf) (seg s e) (range_tree a) = pre ++ seg s e :: suf) as Eins.
  { rewrite E. apply insert_before_at. rewrite <- E. apply tree_nodup, Hi. }
  assert (forall x, avail (set_tree (pre ++ seg s e :: suf) a) x <-> avail a x \/ s <= x < e) as Hav.
  { intros x. unfold avail. simpl. rewrite E, !free_app, free_cons. unfold covers. simpl. tauto. }
  unfold _try_insert_range. destruct (_ || _) eqn:Er; cbn [negb andb].
  { cbn [mbind option_bind]. rewrite Eins. eexists _, _. split; [done|]. split; [by apply insert_ok|done]. }
  destruct (no_room a Er) as [Hc Hne]. destruct (_lowest_size_available a <? sub64 e s); cbn [negb andb].
  - rewrite Eins. pose proof (insert_ok _ _ _ Hi') as Hi2.
    destruct (remove_lowest_ok _ _ Hi2 Hc) as (a1 & Ha1 & Hi1 & Hav1); [simpl; destruct (range_size_tree a); simpl; [done|by case_match]|].
    rewrite Ha1. cbn [mbind option_bind]. eexists _, _. split; [done|]. split; [done|]. intros x. rewrite Hav1. apply Hav.
  - assert (seg_ok (seg s e)) as [Hs1 Hs2] by (apply tree_app in Ht as (_ & [? _]%tree_cons & _); done). simpl in *.
    destruct (Hsp Hc s e (fallback a) Hs1 Hs2 Hb) as (b' & Hsb & Hbf). unfold spill. simpl. rewrite Hsb. cbn [mbind option_bind].
    eexists _, _. split; [done|]. split.
    + split; simpl; try apply Hi. intros x Hf [Hx|Hx]%Hbf; [by apply (iv_disj _ _ Hi) in Hf|].
      apply tree_app in Ht as (T1 & T2 & T3). apply tree_cons in T2 as (T4 & T5 & T6).
      rewrite E in Hf. destruct Hf as (y & [Hy|Hy]%elem_of_app & Hcv).
      * specialize (T3 y (seg s e) Hy ltac:(left)). unfold apart, covers in *. simpl in *. lia.
      * specialize (T6 y Hy). unfold apart, covers in *. simpl in *. lia.
    + intros x. unfold avail. simpl. rewrite Hbf. tauto.
Qed.

(** A range of the tree is replaced by another one in its place. *)
Lemma swap_ok a r n pre suf : inv [] a -> range_tree a = pre ++ r :: suf -> tree_ok (pre ++ n :: suf) ->
  (forall x, covers n x -> ~ bfree (fallback a) x) ->
  exists a1, _range_size_tree_rm r a = Some a1 /\ inv [n] (set_tree (replace r n (range_tree a1)) a1) /\
    range_tree (set_tree (replace r n (range_tree a1)) a1) = pre ++ n :: suf /\ fallback a1 = fallback a.
Proof.
  intros Hi E Ht Hb. pose proof (tree_nodup _ (iv_tree _ _ Hi)) as Hn. rewrite E in Hn.
  destruct (rm_ok [] a r Hi) as (a1 & -> & Hi1 & Ht1 & Hf1); [rewrite (iv_perm _ _ Hi : Permutation (range_size_tree a) _), E; set_solver|].
  exists a1. split; [done|]. rewrite Ht1, E, replace_at by done. split; [|done].
  apply (retree [r]); [done..| |].
  - simpl. pose proof (iv_perm _ _ Hi1) as Hp. rewrite Ht1, E in Hp. simpl in Hp. rewrite <- Permutation_middle in Hp.
    apply Permutation_cons_inv in Hp. rewrite Hp. apply Permutation_middle.
  - intros x. rewrite Hf1, free_app, free_cons. intros [Hf|[Hf|Hf]]; [|by apply Hb|]; apply (iv_disj _ _ Hi); rewrite E, free_app, free_cons; auto.
Qed.

Lemma swap_insert_ok a r n pre suf : inv [] a -> range_tree a = pre ++ r :: suf -> tree_ok (pre ++ n :: suf) ->
  (forall x, covers n x -> ~ bfree (fallback a) x) ->
  exists a1 a2, _range_size_tree_rm r a = Some a1 /\ _range_size_tree_try_insert sp c n (set_tree (replace r n (range_tree a1)) a1) = Some a2 /\
    inv [] a2 /\ forall x, avail a2 x <-> free_in (pre ++ n :: suf) x \/ bfree (fallback a) x.
Proof.
  intros Hi E Ht Hb. destruct (swap_ok a r n pre suf Hi E Ht Hb) as (a1 & -> & Hi1 & Et & Ef).
  destruct (pending_ok [] _ n Hi1) as (a2 & H2 & Hi2 & Hav). exists a1, a2. split_and!; [done..|].
  intros x. rewrite Hav. unfold avail. rewrite Et. simpl. by rewrite Ef.
Qed.

Lemma tree_join pre n suf : tree_ok pre -> tree_ok suf -> seg_ok n -> (forall x, x ∈ pre -> apart x n) -> (forall y, y ∈ suf -> apart n y) ->
  tree_ok (pre ++ n :: suf).
Proof.
  intros Hp Hs Hn H1 H2. apply tree_app. split_and!; [done|by apply tree_cons|].
  intros x y Hx [-> |Hy]%elem_of_cons; [by apply H1|]. specialize (H1 x Hx). specialize (H2 y Hy). destruct Hn. unfold apart in *. lia.
Qed.

Lemma upper_split t s e : tree_ok t -> s < e -> (forall x, s <= x < e -> ~ free_in t x) ->
  exists pre suf, upper_bound (seg s e) t = (pre, suf) /\ t = pre ++ suf /\
    (forall x, x ∈ pre -> end_ x <= s) /\ (forall y, y ∈ suf -> e <= start y).
Proof.
  intros Ht Hse Hd. unfold upper_bound. set (p := fun x : range_seg_t => negb (before (seg s e) x)). pose proof (span_app p t) as Ea. pose proof (span_pre p t) as Hp.
  pose proof (span_head p t) as Hh. destruct (span p t) as [pre suf]. simpl in *. exists pre, suf. split; [done|]. split; [done|].
  rewrite <- Ea in Ht. apply tree_app in Ht as (T1 & T2 & T3). split.
  - intros x Hx. rewrite Forall_forall in Hp. specialize (Hp x Hx). unfold p, before in Hp. simpl in Hp. zbool.
    destruct (Z.le_gt_cases (end_ x) s) as [|Hgt]; [done|]. exfalso. destruct T1 as [_ T1]. rewrite Forall_forall in T1. destruct (T1 x Hx) as [? _].
    apply (Hd (Z.max (start x) s)); [lia|]. exists x. rewrite <- Ea. split; [apply elem_of_app; by left|]. unfold covers. lia.
  - intros y Hy. destruct suf as [|r suf]; [by apply not_elem_of_nil in Hy|]. specialize (Hh r eq_refl). unfold p, before in Hh. simpl in Hh. zbool.
    apply elem_of_cons in Hy as [-> |Hy]; [done|]. apply tree_cons in T2 as ([? ?] & _ & T4). specialize (T4 y Hy). unfold apart in T4. lia.
Qed.

Section Add.
Context (a : AvlAllocator B) (s e : Z) (Hi : inv [] a) (Hs : 0 <= s < e) (He : e <= LIMIT)
  (Hd : forall x, s <= x < e -> ~ avail a x).

Lemma add_covered lo hi x : (forall x, lo <= x < hi -> s <= x < e \/ free_in (range_tree a) x) -> covers (seg lo hi) x -> ~ bfree (fallback a) x.
Proof.
  intros Hc Hx. destruct (Hc x Hx) as [Hse|Hf]; [|by apply (iv_disj _ _ Hi)]. intros Hb. apply (Hd x Hse). by right.
Qed.

(** A range that ends at [s], one that starts at [e], or both, grow together. *)
Lemma join_both_ok b r pre suf : range_tree a = pre ++ b :: r :: suf -> end_ b = s -> start r = e ->
  exists a1 a2 a3, _range_size_tree_rm b a = Some a1 /\ _range_size_tree_rm r a1 = Some a2 /\
    _range_size_tree_try_insert sp c (seg (start b) (end_ r))
      (set_tree (erase b (replace r (seg (start b) (end_ r)) (range_tree a2))) a2) = Some a3 /\
    inv [] a3 /\ forall x, avail a3 x <-> avail a x \/ s <= x < e.
Proof.
  intros E Eb Er. pose proof (iv_tree _ _ Hi) as Ht. rewrite E in Ht. pose proof (tree_nodup _ Ht) as Hn. set (n := seg (start b) (end_ r)).
  apply tree_app in Ht as (T1 & T2 & T3). apply tree_cons in T2 as ([Tb1 Tb2] & T2 & Tb3). apply tree_cons in T2 as ([Tr1 Tr2] & Ts & Tr3).
  assert (apart b r) as Hbr by (apply Tb3; left).
  assert (tree_ok (pre ++ n :: suf)) as Ht'.
  { apply tree_join; [done..|unfold seg_ok; simpl; lia| |].
    - intros x Hx. specialize (T3 x b Hx ltac:(left)). done.
    - intros y Hy. specialize (Tr3 y Hy). done. }
  pose proof (iv_perm _ _ Hi) as Hp0. simpl in Hp0.
  destruct (rm_ok [] a b Hi) as (a1 & H1 & Hi1 & Et1 & Ef1); [rewrite Hp0, E; set_solver|].
  pose proof (iv_perm _ _ Hi1) as Hp1. rewrite Et1, E in Hp1. simpl in Hp1. rewrite <- Permutation_middle in Hp1. apply Permutation_cons_inv in Hp1.
  destruct (rm_ok [b] a1 r Hi1) as (a2 & H2 & Hi2 & Et2 & Ef2); [rewrite Hp1; set_solver|].
  pose proof (iv_perm _ _ Hi2) as Hp2. rewrite Et2, Et1, E in Hp2. simpl in Hp2.
  assert (b <> r) as Hbr'.
  { intros ->. unfold apart in Hbr. lia. }
  assert (erase b (replace r n (range_tree a2)) = pre ++ n :: suf) as Etree.
  { rewrite Et2, Et1, E. replace (pre ++ b :: r :: suf) with ((pre ++ [b]) ++ r :: suf) in * by (by rewrite <- app_assoc).
    rewrite replace_at by done. rewrite <- app_assoc. simpl. rewrite erase_at; [done|].
    apply NoDup_app in Hn as (N1 & N2 & N3). apply NoDup_app in N1 as (N1 & N4 & _). apply NoDup_app. split_and!; [done| |].
    - intros x Hx [-> |[-> |Hy]%elem_of_cons]%elem_of_cons; [by apply (N4 b Hx); left| |].
      + specialize (T3 n b Hx ltac:(left)). unfold apart, n in T3. simpl in T3. lia.
      + apply (N2 x); [apply elem_of_app; by left|by right].
    - apply NoDup_cons. apply NoDup_cons in N3 as [N3 N5]. split; [|apply NoDup_cons; split; [|done]].
      + intros [Hbn|Hb]%elem_of_cons; [unfold n in Hbn; rewrite Hbn in Hbr; unfold apart in Hbr; simpl in Hbr; lia|].
        apply (N2 b); [set_solver|by right].
      + intros Hns. specialize (Tr3 n Hns). unfold apart, n in Tr3. simpl in Tr3. lia. }
  assert (inv [n] (set_tree (erase b (replace r n (range_tree a2))) a2)) as Hi3.
  { rewrite Etree. apply (retree [r; b]); [done..| |].
    - simpl. assert (Permutation (range_size_tree a2) (pre ++ suf)) as ->; [|apply Permutation_middle].
      apply (Permutation_cons_inv (a := b)), (Permutation_cons_inv (a := r)). rewrite Hp2. rewrite (Permutation_middle pre suf b).
      rewrite (Permutation_middle pre (b :: suf) r). apply Permutation_app_head, perm_swap.
    - intros x Hf. rewrite Ef2, Ef1. rewrite free_app, free_cons in Hf.
      assert (covers n x \/ free_in (range_tree a) x) as [Hn'|Hf'] by (rewrite E, free_app, !free_cons; tauto); [|by apply (iv_disj _ _ Hi)].
      revert Hn'. apply add_covered. intros y Hy. rewrite E, free_app, !free_cons. unfold covers. simpl in *. lia. }
  destruct (pending_ok [] _ n Hi3) as (a3 & H3 & Hi3' & Hav). exists a1, a2, a3. split_and!; [done..|].
  intros x. rewrite Hav. unfold avail. simpl. rewrite Etree, Ef2, Ef1, E, !free_app, !free_cons. unfold covers, n. simpl.
  unfold apart in Hbr.
  assert ((start b <= x < end_ r) <-> (start b <= x < end_ b) \/ (start r <= x < end_ r) \/ (s <= x < e)) as -> by lia. tauto.
Qed.

Lemma join_one_ok r n pre suf : range_tree a = pre ++ r :: suf -> tree_ok (pre ++ n :: suf) ->
  (forall x, covers n x <-> covers r x \/ s <= x < e) ->
  exists a1 a2, _range_size_tree_rm r a = Some a1 /\
    _range_size_tree_try_insert sp c n (set_tree (replace r n (range_tree a1)) a1) = Some a2 /\
    inv [] a2 /\ forall x, avail a2 x <-> avail a x \/ s <= x < e.
Proof.
  intros E Ht Hn. destruct (swap_insert_ok a r n pre suf Hi E Ht) as (a1 & a2 & H1 & H2 & Hi2 & Hav).
  { intros x [Hx|Hx]%Hn; [apply (iv_disj _ _ Hi); exists r; rewrite E; set_solver|]. intros Hb. apply (Hd x Hx). by right. }
  exists a1, a2. split_and!; [done..|]. intros x. rewrite Hav. unfold avail. rewrite E, !free_app, !free_cons, Hn. tauto.
Qed.

(** The neighbours of the new range. *)
Section Split.
Context (pre suf : list range_seg_t) (E : range_tree a = pre ++ suf)
  (Hpre : forall x, x ∈ pre -> end_ x <= s) (Hsuf : forall y, y ∈ suf -> e <= start y).

Lemma sides_ok : tree_ok pre /\ tree_ok suf.
Proof. pose proof (iv_tree _ _ Hi) as Ht. rewrite E in Ht. by apply tree_app in Ht as (? & ? & _). Qed.

Lemma pre_below : (forall b, last pre = Some b -> end_ b <> s) -> forall x, x ∈ pre -> end_ x < s.
Proof.
  intros Hb x Hx. destruct sides_ok as [T _]. specialize (Hpre x Hx) as Hxs. destruct (last pre) as [b|] eqn:El.
  - apply last_Some in El as [pre' ->]. specialize (Hpre b ltac:(set_solver)) as Hbs. specialize (Hb b eq_refl).
    apply tree_app in T as (_ & [[? ?] _]%tree_cons & T5). apply elem_of_app in Hx as [Hx|Hx].
    + specialize (T5 x b Hx ltac:(left)). unfold apart in T5. lia.
    + apply list_elem_of_singleton in Hx as ->. lia.
  - apply last_None in El as ->. by apply not_elem_of_nil in Hx.
Qed.

Lemma suf_above : (forall r, head suf = Some r -> start r <> e) -> forall y, y ∈ suf -> e < start y.
Proof.
  intros Hr y Hy. destruct sides_ok as [_ T]. destruct suf as [|r suf']; [by apply not_elem_of_nil in Hy|].
  specialize (Hr r eq_refl). specialize (Hsuf r ltac:(left)) as Hrs. apply tree_cons in T as ([? ?] & _ & T).
  apply elem_of_cons in Hy as [-> |Hy]; [lia|]. specialize (T y Hy). unfold apart in T. lia.
Qed.

Lemma join_none_ok : (forall b, last pre = Some b -> end_ b <> s) -> (forall r, head suf = Some r -> start r <> e) ->
  exists f a', _try_insert_range sp c s e (Some (head suf)) a = Some (f, a') /\ inv [] a' /\ forall x, avail a' x <-> avail a x \/ s <= x < e.
Proof.
  intros Hb Hr. apply (new_ok [] a s e pre suf); [done..| |intros x Hx Hbf; apply (Hd x Hx); by right].
  apply tree_join; [apply sides_ok..|unfold seg_ok; simpl; lia|by apply pre_below|by apply suf_above].
Qed.

Lemma join_before_ok b : last pre = Some b -> end_ b = s -> (forall r, head suf = Some r -> start r <> e) ->
  exists a1 a2, _range_size_tree_rm b a = Some a1 /\
    _range_size_tree_try_insert sp c (seg (start b) e) (set_tree (replace b (seg (start b) e) (range_tree a1)) a1) = Some a2 /\
    inv [] a2 /\ forall x, avail a2 x <-> avail a x \/ s <= x < e.
Proof.
  intros Hb Eb Hr. destruct sides_ok as [T1 T2]. apply last_Some in Hb as [pre' Hp]. pose proof E as E'. rewrite Hp in T1, E'.
  apply tree_app in T1 as (T1 & [[? ?] _]%tree_cons & T5).
  apply (join_one_ok b (seg (start b) e) pre' suf); [by rewrite E', <- app_assoc| |intros x; unfold covers; simpl; lia].
  apply tree_join; [done..|unfold seg_ok; simpl; lia| |by apply suf_above].
  intros x Hx. by specialize (T5 x b Hx ltac:(left)).
Qed.

Lemma join_after_ok r : head suf = Some r -> start r = e -> (forall b, last pre = Some b -> end_ b <> s) ->
  exists a1 a2, _range_size_tree_rm r a = Some a1 /\
    _range_size_tree_try_insert sp c (seg s (end_ r)) (set_tree (replace r (seg s (end_ r)) (range_tree a1)) a1) = Some a2 /\
    inv [] a2 /\ forall x, avail a2 x <-> avail a x \/ s <= x < e.
Proof.
  intros Hr Er Hb. destruct sides_ok as [T1 T2]. pose proof (pre_below Hb) as Hbelow.
  destruct suf as [|r' suf'] eqn:Es; [done|]. injection Hr as ->. apply tree_cons in T2 as ([? ?] & T2 & T6).
  apply (join_one_ok r (seg s (end_ r)) pre suf'); [done| |intros x; unfold covers; simpl; lia].
  apply tree_join; [done..|unfold seg_ok; simpl; lia|done|]. intros y Hy. by specialize (T6 y Hy).
Qed.
End Split.

Lemma avl_add_ok : exists a', _add_to_tree sp c s (e - s) a = Some a' /\ inv [] a' /\ forall x, avail a' x <-> avail a x \/ s <= x < e.
Proof.
  unfold _add_to_tree. rewrite (proj2 (Z.eqb_neq _ _)) by lia. cbn [negb]. assert (add64 s (e - s) = e) as ->.
  { unfold LIMIT in He. rewrite add64_small; lia. }
  destruct (upper_split (range_tree a) s e (iv_tree _ _ Hi)) as (pre & suf & -> & E & Hpre & Hsuf);
    [lia|intros x Hx Hf; apply (Hd x Hx); by left|].
  pose proof (join_none_ok pre suf E Hpre Hsuf) as Hnone. pose proof (join_before_ok pre suf E Hsuf) as Hbefore.
  pose proof (join_after_ok pre suf E Hpre Hsuf) as Hafter.
  assert (forall b r, last pre = Some b -> head suf = Some r -> exists pre' suf', range_tree a = pre' ++ b :: r :: suf') as Hboth.
  { intros b r [pre' ->]%last_Some Hr. destruct suf as [|r' suf']; [done|]. injection Hr as ->. exists pre', suf'. by rewrite E, <- app_assoc. }
  destruct (last pre) as [b|] eqn:El, (head suf) as [r|] eqn:Eh;
    try (destruct (end_ b =? s) eqn:Eb); try (destruct (start r =? e) eqn:Er); zbool; cbn [andb].
  - destruct (Hboth b r eq_refl eq_refl) as (pre' & suf' & Et).
    destruct (join_both_ok b r pre' suf' Et Eb Er) as (a1 & a2 & a3 & H1 & H2 & H3 & H4 & H5). rewrite H1. cbn [mbind option_bind].
    rewrite H2. cbn [mbind option_bind]. eauto.
  - destruct (Hbefore b eq_refl Eb) as (a1 & a2 & -> & H2 & H3 & H4); [congruence|]. eauto.
  - destruct (Hafter r eq_refl Er) as (a1 & a2 & -> & H2 & H3 & H4); [congruence|]. eauto.
  - destruct Hnone as (f & a' & -> & H1 & H2); [congruence..|]. eauto.
  - destruct (Hbefore b eq_refl Eb) as (a1 & a2 & -> & H2 & H3 & H4); [done|]. eauto.
  - destruct Hnone as (f & a' & -> & H1 & H2); [congruence|done|]. eauto.
  - destruct (Hafter r eq_refl Er) as (a1 & a2 & -> & H2 & H3 & H4); [done|]. eauto.
  - destruct Hnone as (f & a' & -> & H1 & H2); [done|congruence|]. eauto.
  - destruct Hnone as (f & a' & -> & H1 & H2); [done..|]. eauto.
Qed.
End Add.

(** ** Removal *)

Section Remove.
Context (a : AvlAllocator B) (s e : Z) (r : range_seg_t) (Hi : inv [] a) (Hr : r ∈ range_tree a)
  (Hs : start r <= s < e) (He : e <= end_ r).

Definition removed (a' : AvlAllocator B) : Prop := inv [] a' /\ forall x, avail a' x <-> avail a x /\ ~ (s <= x < e).

Lemma not_fallback x : covers r x -> ~ bfree (fallback a) x.
Proof. intros Hc. apply (iv_disj _ _ Hi). by exists r. Qed.

Section RemoveAt.
Context (pre suf : list range_seg_t) (E : range_tree a = pre ++ r :: suf).

Lemma at_ok : seg_ok r /\ tree_ok pre /\ tree_ok suf /\ (forall x, x ∈ pre -> apart x r) /\ (forall y, y ∈ suf -> apart r y).
Proof.
  pose proof (iv_tree _ _ Hi) as Ht. rewrite E in Ht. apply tree_app in Ht as (T1 & T2 & T3). apply tree_cons in T2 as (T4 & T5 & T6).
  split_and!; [done..| |done]. intros x Hx. apply T3; [done|left].
Qed.

Lemma others x : free_in pre x \/ free_in suf x -> ~ (s <= x < e).
Proof.
  destruct at_ok as (_ & _ & _ & T1 & T2). intros [(y & Hy & Hc)|(y & Hy & Hc)]; [specialize (T1 y Hy)|specialize (T2 y Hy)];
    unfold apart, covers in *; lia.
Qed.

(** What is left of the range takes its place. *)
Lemma keep_ok n : start r <= start n < end_ n -> end_ n <= end_ r -> (forall x, covers n x <-> covers r x /\ ~ (s <= x < e)) ->
  exists a1 a2, _range_size_tree_rm r a = Some a1 /\
    _range_size_tree_try_insert sp c n (set_tree (replace r n (range_tree a1)) a1) = Some a2 /\ removed a2.
Proof.
  intros Hn1 Hn2 Hn. destruct at_ok as ([? ?] & T1 & T2 & T3 & T4).
  destruct (swap_insert_ok a r n pre suf Hi E) as (a1 & a2 & H1 & H2 & Hi2 & Hav).
  - apply tree_join; [done..|unfold seg_ok; lia| |].
    + intros x Hx. specialize (T3 x Hx). unfold apart in *. lia.
    + intros y Hy. specialize (T4 y Hy). unfold apart in *. lia.
  - intros x [Hx _]%Hn. by apply not_fallback.
  - exists a1, a2. split_and!; [done..|]. split; [done|]. intros x. rewrite Hav. unfold avail. rewrite E, !free_app, !free_cons, Hn.
    pose proof (others x). assert (bfree (fallback a) x -> ~ (s <= x < e)); [|tauto].
    intros Hb Hx. eapply not_fallback; [|exact Hb]. unfold covers. lia.
Qed.

Lemma drop_ok : start r = s -> end_ r = e -> exists a1, _range_size_tree_rm r a = Some a1 /\ removed (set_tree (erase r (range_tree a1)) a1).
Proof.
  intros E1 E2. pose proof (tree_nodup _ (iv_tree _ _ Hi)) as Hn. rewrite E in Hn. destruct at_ok as ([? ?] & T1 & T2 & T3 & T4).
  pose proof (iv_perm _ _ Hi) as Hp0. simpl in Hp0.
  destruct (rm_ok [] a r Hi) as (a1 & -> & Hi1 & Ht1 & Hf1); [by rewrite Hp0|]. exists a1. split; [done|]. rewrite Ht1, E, erase_at by done.
  assert (tree_ok (pre ++ suf)) as Ht'.
  { apply tree_app. split_and!; [done..|]. intros x y Hx Hy. specialize (T3 x Hx). specialize (T4 y Hy). unfold apart in *. lia. }
  split.
  - apply (retree [r]); [done..| |].
    + simpl. pose proof (iv_perm _ _ Hi1) as Hp. rewrite Ht1, E in Hp. simpl in Hp. rewrite <- Permutation_middle in Hp.
      by apply Permutation_cons_inv in Hp.
    + intros x Hx. rewrite Hf1. apply (iv_disj _ _ Hi). rewrite E, free_app, free_cons. rewrite free_app in Hx. tauto.
  - intros x. unfold avail. simpl. rewrite Hf1, E, !free_app, !free_cons. pose proof (others x).
    assert (bfree (fallback a) x -> ~ (s <= x < e)).
    { intros Hb Hx. eapply not_fallback; [|exact Hb]. unfold covers. lia. }
    assert (covers r x -> s <= x < e) by (unfold covers; lia). tauto.
Qed.

Lemma split_range_ok : start r < s -> e < end_ r -> exists a1 f a2 a3, _range_size_tree_rm r a = Some a1 /\
  _try_insert_range sp c e (end_ r) (Some (next_of r (range_tree a1))) (set_tree (replace r (seg (start r) s) (range_tree a1)) a1) = Some (f, a2) /\
  _range_size_tree_try_insert sp c (seg (start r) s) a2 = Some a3 /\ removed a3.
Proof.
  intros E1 E2. pose proof (tree_nodup _ (iv_tree _ _ Hi)) as Hn. rewrite E in Hn. destruct at_ok as ([? ?] & T1 & T2 & T3 & T4).
  set (n := seg (start r) s). set (m := seg e (end_ r)).
  assert (tree_ok (pre ++ n :: suf)) as Ht1.
  { apply tree_join; [done..|unfold seg_ok, n; simpl; lia|done|]. intros y Hy. specialize (T4 y Hy). unfold apart, n in *. simpl. lia. }
  destruct (swap_ok a r n pre suf Hi E Ht1) as (a1 & H1 & Hi1 & Et & Ef).
  { intros x Hx. apply not_fallback. unfold covers, n in *. simpl in Hx. lia. }
  exists a1. assert (range_tree a1 = pre ++ r :: suf) as Ea1.
  { unfold _range_size_tree_rm in H1. destruct (length r <=? num_free a); [|done]. by injection H1 as <-. }
  rewrite Ea1, (next_at pre suf r Hn). rewrite <- Ea1.
  destruct (new_ok [n] _ e (end_ r) (pre ++ [n]) suf Hi1) as (f & a2 & H2 & Hi2 & Hav2).
  - rewrite Et. by rewrite <- app_assoc.
  - apply tree_join; [|done|unfold seg_ok; simpl; lia| |].
    + apply tree_join; [done|split; constructor|unfold seg_ok, n; simpl; lia|done|by intros y ?%not_elem_of_nil].
    + intros x [Hx|Hx]%elem_of_app; [specialize (T3 x Hx); unfold apart in *; simpl; lia|].
      apply list_elem_of_singleton in Hx as ->. unfold apart. simpl. lia.
    + intros y Hy. by specialize (T4 y Hy).
  - intros x Hx. simpl. rewrite Ef. apply not_fallback. unfold covers. lia.
  - destruct (pending_ok [] a2 n Hi2) as (a3 & H3 & Hi3 & Hav3). exists f, a2, a3. split_and!; [done..|]. split; [done|].
    intros x. rewrite Hav3, Hav2. unfold avail. rewrite Et. simpl. rewrite Ef, E, !free_app, !free_cons. pose proof (others x).
    assert (bfree (fallback a) x -> ~ (s <= x < e)).
    { intros Hb Hx. eapply not_fallback; [|exact Hb]. unfold covers. lia. }
    assert (covers r x /\ ~ (s <= x < e) <-> covers n x \/ e <= x < end_ r) by (unfold covers, n; simpl; lia). tauto.
Qed.
End RemoveAt.

Lemma removal_ok : exists a', _process_range_removal sp c s e r a = Some a' /\ removed a'.
Proof.
  destruct (list_elem_of_split _ _ Hr) as (pre & suf & E). unfold _process_range_removal.
  destruct (start r =? s) eqn:E1, (end_ r =? e) eqn:E2; zbool; cbn [negb andb].
  - destruct (drop_ok pre suf E E1 E2) as (a1 & -> & H1). cbn [mbind option_bind]. eauto.
  - destruct (keep_ok pre suf E (seg e (end_ r))) as (a1 & a2 & -> & H2 & H3); [simpl; lia|simpl; lia|intros x; unfold covers; simpl; lia|].
    cbn [mbind option_bind]. eauto.
  - destruct (keep_ok pre suf E (seg (start r) s)) as (a1 & a2 & -> & H2 & H3); [simpl; lia|simpl; lia|intros x; unfold covers; simpl; lia|].
    cbn [mbind option_bind]. eauto.
  - destruct (split_range_ok pre suf E) as (a1 & f & a2 & a3 & -> & H2 & H3 & H4); [lia|lia|]. cbn [mbind option_bind].
    rewrite H2. cbn [mbind option_bind]. eauto.
Qed.
End Remove.

Lemma span_at p pre r suf : Forall (fun x => p x = true) pre -> p r = false -> span p (pre ++ r :: suf) = (pre, r :: suf).
Proof. induction 1 as [|x pre Hx Hp IH]; intros Hr; simpl; [by rewrite Hr|]. rewrite Hx. by rewrite IH. Qed.

Lemma find_ok t r s e : tree_ok t -> r ∈ t -> start r <= s < e -> e <= end_ r -> find (seg s e) t = Some r.
Proof.
  intros Ht (pre & suf & ->)%list_elem_of_split Hs He. apply tree_app in Ht as (_ & [[? _] _]%tree_cons & T3). unfold find, lower_bound.
  rewrite span_at; simpl.
  - unfold before. simpl. by rewrite (proj2 (Z.leb_gt _ _)) by lia.
  - apply Forall_forall. intros x Hx. specialize (T3 x r Hx ltac:(left)). unfold apart, before in *. simpl. lia.
  - unfold before. simpl. lia.
Qed.

Lemma total_elem l r : Forall seg_ok l -> r ∈ l -> end_ r - start r <= total l.
Proof.
  induction 1 as [|x l [Hx _] Hl IH]; [by intros ?%not_elem_of_nil|]. pose proof (space_nonneg l Hl). simpl.
  intros [-> |Hr]%elem_of_cons; [lia|]. specialize (IH Hr). lia.
Qed.

Lemma remove_ok a s size r : inv [] a -> r ∈ range_tree a -> start r <= s -> 0 < size -> s + size <= end_ r ->
  exists a', _remove_from_tree sp c s size a = Some a' /\ removed a s (s + size) a'.
Proof.
  intros Hi Hr Hs Hz He. pose proof (in_tree_ok _ _ _ Hi Hr) as [Hr1 Hr2]. unfold LIMIT in Hr2. unfold _remove_from_tree.
  rewrite add64_small by lia. rewrite (proj2 (Z.eqb_neq _ _)) by lia. cbn [negb].
  pose proof (iv_perm _ _ Hi) as Hp. simpl in Hp.
  assert (size <= num_free a) as Hnf.
  { rewrite (iv_free _ _ Hi), (total_perm _ _ Hp). pose proof (total_elem _ _ (proj2 (iv_tree _ _ Hi)) Hr). lia. }
  rewrite (proj2 (Z.leb_le _ _) Hnf). rewrite (find_ok _ r) by (apply Hi || done || lia). cbn [mbind option_bind].
  rewrite !(proj2 (Z.leb_le _ _)) by lia. apply removal_ok; [done..|lia|lia].
Qed.

(** ** Picking a block *)

(** A block of [size] at an aligned address inside a range. *)
Definition fit (r : range_seg_t) (size unit o : Z) : Prop := start r <= o /\ o + size <= end_ r /\ o mod unit = 0.

Section Pick.
Context (unit : Z) (Hu : pow2 unit).

Lemma round_ok r : seg_ok r -> let o := p2roundup (start r) unit in
  start r <= o < start r + unit /\ o mod unit = 0 /\ (forall size o', fit r size unit o' -> o <= o').
Proof.
  intros [Hr1 Hr2]. pose proof (pow2_pos _ Hu). unfold LIMIT in Hr2. rewrite p2roundup_spec by (done || change (2 ^ 63) with 9223372036854775808; lia).
  split; [apply roundup_bounds; lia|]. split; [apply Z.mod_mul; lia|]. intros size o' (H1 & _ & H3). apply roundup_least; [lia|done..].
Qed.

Lemma here_ok r size : seg_ok r -> 0 < size <= LIMIT ->
  if add64 (p2roundup (start r) unit) size <=? end_ r then fit r size unit (p2roundup (start r) unit) /\ p2roundup (start r) unit <> MINUS_1
  else forall o, ~ fit r size unit o.
Proof.
  intros Hr Hz. destruct (round_ok r Hr) as (H1 & H2 & H3). destruct Hr as [Hr1 Hr2]. pose proof (pow2_pos _ Hu) as Hp.
  change (2 ^ 62) with 4611686018427387904 in Hp. unfold LIMIT in *. rewrite add64_small by lia. destruct (_ <=? _) eqn:E; zbool.
  - split; [split_and!; [lia|done|done]|]. unfold MINUS_1. lia.
  - intros o Hf. specialize (H3 _ _ Hf). destruct Hf. lia.
Qed.

Lemma fits_ok size l : Forall seg_ok l -> 0 < size <= LIMIT ->
  (fits size unit l = MINUS_1 /\ forall r o, r ∈ l -> ~ fit r size unit o) \/
  (fits size unit l <> MINUS_1 /\ exists r, r ∈ l /\ fit r size unit (fits size unit l)).
Proof.
  intros Hl Hz. induction Hl as [|r l Hr Hl IH]; simpl; [left; split; [done|]; by intros r o ?%not_elem_of_nil|].
  pose proof (here_ok r size Hr Hz) as Hh. destruct (_ <=? _).
  - right. split; [apply Hh|]. exists r. split; [left|apply Hh].
  - destruct IH as [[E IH]|(E & r' & Hr' & IH)]; [left|right]; split; [done| |done|].
    + intros r' o [-> |Hr']%elem_of_cons; [by apply Hh|by apply IH].
    + exists r'. split; [by right|done].
Qed.

Lemma first_fit_ok size cursor count bytes dist l : Forall seg_ok l -> 0 < size <= LIMIT ->
  forall o cur, first_fit c size unit cursor count bytes dist l = (found o, cur) -> o <> MINUS_1 /\ exists r, r ∈ l /\ fit r size unit o.
Proof.
  intros Hl Hz. revert cursor count bytes. induction Hl as [|r l Hr Hl IH]; intros cursor count bytes o cur; simpl; [done|].
  pose proof (here_ok r size Hr Hz) as Hh. destruct (_ <=? end_ r).
  - intros [= <- <-]. split; [apply Hh|]. exists r. split; [left|apply Hh].
  - destruct (_ && _); [done|]. destruct (_ && _); [done|]. intros (? & r' & Hr' & ?)%IH. split; [done|]. exists r'. split; [by right|done].
Qed.

Lemma pick_after_ok P a cursor size : inv P a -> 0 < size <= LIMIT ->
  (_pick_block_after c cursor size unit a).1 = MINUS_1 \/
  ((_pick_block_after c cursor size unit a).1 <> MINUS_1 /\
   exists r, r ∈ range_tree a /\ fit r size unit (_pick_block_after c cursor size unit a).1).
Proof.
  intros Hi Hz. unfold _pick_block_after, lower_bound. pose proof (span_app (fun x => before x (seg cursor size)) (range_tree a)) as E.
  destruct (span _ (range_tree a)) as [pre suf]. simpl in E. pose proof (proj2 (iv_tree _ _ Hi)) as Hok. rewrite <- E, Forall_app in Hok.
  destruct Hok as [Hok1 Hok2]. rewrite <- E. setoid_rewrite elem_of_app.
  destruct (first_fit _ _ _ _ _ _ _ suf) as [[o| |n b] cur] eqn:E1; simpl; [|by left|].
  - right. destruct (first_fit_ok _ _ _ _ _ _ Hok2 Hz _ _ E1) as (? & r & ? & ?). eauto.
  - destruct (cur =? 0); [by left|]. destruct (first_fit _ _ _ _ _ _ _ pre) as [[o| |n' b'] cur'] eqn:E2; simpl; [|by left|by left].
    right. destruct (first_fit_ok _ _ _ _ _ _ Hok1 Hz _ _ E2) as (? & r & ? & ?). eauto.
Qed.

Lemma pick_fits_ok a size : inv [] a -> 0 < size <= LIMIT ->
  (_pick_block_fits size unit a = MINUS_1 /\ forall r o, r ∈ range_tree a -> ~ fit r size unit o) \/
  (_pick_block_fits size unit a <> MINUS_1 /\ exists r, r ∈ range_tree a /\ fit r size unit (_pick_block_fits size unit a)).
Proof.
  intros Hi Hz. unfold _pick_block_fits. set (p := fun x => shorter x (seg 0 size)). pose proof (span_app p (range_size_tree a)) as E.
  pose proof (span_pre p (range_size_tree a)) as Hpre. destruct (size_total [] a Hi) as (Hok & _ & _). pose proof (iv_perm _ _ Hi) as Hp. simpl in Hp.
  destruct (span p (range_size_tree a)) as [pre suf]. simpl in *. rewrite <- E, Forall_app in Hok. destruct Hok as [Hok1 Hok2].
  destruct (fits_ok size suf Hok2 Hz) as [[H1 H2]|(H1 & r & Hr & H2)]; [left|right]; (split; [done|]).
  - intros r o Hr. rewrite <- Hp, <- E in Hr. apply elem_of_app in Hr as [Hr|Hr]; [|by apply H2].
    rewrite Forall_forall in Hpre, Hok1. specialize (Hpre r Hr). specialize (Hok1 r Hr). unfold p in Hpre. apply shorter_spec in Hpre.
    rewrite (length_ok r Hok1) in Hpre. unfold length in Hpre. simpl in Hpre. unfold LIMIT in Hz. rewrite sub64_small in Hpre by lia.
    destruct Hok1 as [? _]. intros (? & ? & _). lia.
  - exists r. split; [|done]. rewrite <- Hp, <- E. apply elem_of_app. by right.
Qed.

Lemma half x : 0 < x -> 0 <= x / 2 < x /\ x / 2 * 2 <= x.
Proof. intros Hx. pose proof (Z.div_mod x 2 ltac:(lia)). pose proof (Z.mod_pos_bound x 2 ltac:(lia)). lia. Qed.

Lemma best_fit_ok fuel : forall size a, inv [] a -> 0 < size <= LIMIT -> size < 2 ^ (Z.of_nat fuel - 1) ->
  exists o size', best_fit fuel size unit a = Some (o, size') /\
    ((o = MINUS_1 /\ (size mod unit = 0 -> forall r o', r ∈ range_tree a -> ~ fit r unit unit o')) \/
     (o <> MINUS_1 /\ 0 < size' <= size /\ (size mod unit = 0 -> size' mod unit = 0) /\ exists r, r ∈ range_tree a /\ fit r size' unit o)).
Proof.
  induction fuel as [|fuel IH]; intros size a Hi Hz Hf; [simpl in Hf; lia|]. cbn [best_fit]. pose proof (pow2_pos _ Hu) as Hp.
  destruct (pick_fits_ok a size Hi Hz) as [[E Hno]|(E & r & Hr & Hfit)].
  2:{ rewrite (proj2 (Z.eqb_neq _ _) E). cbn [negb]. eexists _, _. split; [done|]. right. split; [done|]. split; [lia|]. eauto. }
  rewrite E, Z.eqb_refl. cbn [negb]. unfold LIMIT in Hz. rewrite Z.shiftr_div_pow2 by lia. change (2 ^ 1) with 2.
  pose proof (half size ltac:(lia)) as Hh. rewrite (p2align_spec _ _ Hu) by lia. pose proof (Z.div_mod (size / 2) unit ltac:(lia)) as Hd.
  pose proof (Z.mod_pos_bound (size / 2) unit ltac:(lia)) as Hm. set (size1 := size / 2 / unit * unit) in *.
  assert (size1 <= size / 2) as Hle by (unfold size1; lia). assert (size1 mod unit = 0) as Hmod by (apply Z.mod_mul; lia).
  destruct (unit <=? size1) eqn:Eu; zbool.
  - destruct (IH size1 a Hi) as (o & size' & -> & Hres); [unfold LIMIT; lia| |].
    { replace (Z.of_nat (S fuel) - 1) with (Z.succ (Z.of_nat fuel - 1)) in Hf by lia.
      destruct fuel as [|fuel]; [simpl in Hf; lia|]. rewrite Z.pow_succ_r in Hf by lia. lia. }
    exists o, size'. split; [done|]. destruct Hres as [[-> H1]|(H1 & H2 & H3 & H4)]; [left|right]; split_and!; auto; lia.
  - exists MINUS_1, size1. split; [done|]. left. split; [done|]. intros Hsm r o' Hr Hfit.
    assert (size = unit) as ->; [|by apply (Hno r o')].
    pose proof (Z.div_mod size unit ltac:(lia)) as Hd2. rewrite Hsm in Hd2.
    assert (size / unit = 1) as Hq; [|lia]. assert (size / 2 / unit = 0) as H0 by nia.
    rewrite Z.div_div, Z.mul_comm, <- Z.div_div in H0 by lia. assert (0 < size / unit) by nia. assert (size / unit < 2); [|lia].
    apply Z.nle_gt. intros H2. assert (1 <= size / unit / 2) by (apply Z.div_le_lower_bound; lia). lia.
Qed.

Lemma lowest_bit size : 0 < size < two64 -> Z.land size (neg64 size) <> 0 /\ 0 <= cbits64 (Z.land size (neg64 size)) - 1 < 64.
Proof.
  intros Hz. assert (neg64 size = two64 - size) as En by (unfold neg64, sub64; rewrite <- (Z.mod_add _ 1) by lia; rewrite Z.mod_small; lia).
  assert (Z.land size (neg64 size) <> 0) as Hne.
  { rewrite En. intros H0. pose proof (Z.add_nocarry_lxor _ _ H0) as Hx. replace (size + (two64 - size)) with two64 in Hx by lia.
    assert (Z.testbit two64 64 = true) as Hb by done. rewrite Hx, Z.lxor_spec in Hb.
    assert (forall y, 0 < y < two64 -> Z.testbit y 64 = false) as Hy.
    { intros y Hy. apply Z.bits_above_log2; [lia|]. apply Z.log2_lt_pow2; [lia|]. change (2 ^ 64) with two64. lia. }
    rewrite !Hy in Hb by lia. done. }
  split; [done|]. unfold cbits64. rewrite (proj2 (Z.eqb_neq _ _) Hne). set (al := Z.land size (neg64 size)) in *.
  assert (0 < al) by (assert (0 <= al) by (apply Z.land_nonneg; lia); lia). pose proof (Z.log2_nonneg al).
  pose proof (Z.log2_land size (neg64 size) ltac:(lia) ltac:(lia)) as Hl. fold al in Hl.
  assert (Z.log2 size < 64); [|lia]. apply Z.log2_lt_pow2; [lia|]. change (2 ^ 64) with two64. lia.
Qed.

Lemma cursor_ok P a i v : inv P a -> inv P (set_cursor i v a).
Proof. intros []. split; try done. simpl. by rewrite length_insert. Qed.

(** The largest range is the last of the tree by size. *)
Lemma max_size_ok a r : inv [] a -> r ∈ range_tree a ->
  end_ r - start r <= match last (range_size_tree a) with Some p => length p | None => 0 end.
Proof.
  intros Hi Hr. pose proof (iv_perm _ _ Hi) as Hp. simpl in Hp. pose proof (in_tree_ok _ _ _ Hi Hr) as Hok. rewrite <- Hp in Hr.
  destruct (last (range_size_tree a)) as [q|] eqn:E; [|apply last_None in E; rewrite E in Hr; by apply not_elem_of_nil in Hr].
  rewrite <- (length_ok r Hok). apply last_Some in E as [l E]. pose proof (iv_sized _ _ Hi) as Hs. rewrite E in Hs, Hr.
  apply ss_app in Hs as (_ & _ & Hs). apply elem_of_app in Hr as [Hr|Hr]; [|apply list_elem_of_singleton in Hr as ->; lia].
  specialize (Hs r q Hr ltac:(left)). apply sized_spec in Hs. lia.
Qed.

(** What one extent is: a block of free space, taken out of it. *)
Record taken (a a' : AvlAllocator B) (o l : Z) : Prop := {
  tk_free : forall x, o <= x < o + l -> free_in (range_tree a) x;
  tk_avail : forall x, avail a' x <-> avail a x /\ ~ (o <= x < o + l)
}.

Definition no_block (a : AvlAllocator B) : Prop := forall r o, r ∈ range_tree a -> ~ fit r unit unit o.

Lemma take_ok a o size r : inv [] a -> 0 < size -> r ∈ range_tree a -> fit r size unit o ->
  exists a', _remove_from_tree sp c o size a = Some a' /\ inv [] a' /\ taken a a' o size.
Proof.
  intros Hi Hz Hr (H1 & H2 & H3). destruct (remove_ok a o size r Hi Hr H1 Hz H2) as (a' & Ha & Hi' & Hav). exists a'. split_and!; [done..|].
  split; [|done]. intros x Hx. exists r. split; [done|]. unfold covers. lia.
Qed.

Lemma allocate_one_ok a size : inv [] a -> 0 < size <= LIMIT -> size mod unit = 0 ->
  exists res a', _allocate_one sp c size unit a = Some (res, a') /\ inv [] a' /\
  match res with
  | None => (forall x, avail a' x <-> avail a x) /\ no_block a'
  | Some (o, l) => 0 < l <= size /\ l mod unit = 0 /\ o mod unit = 0 /\ taken a a' o l
  end.
Proof.
  intros Hi Hz Hm. pose proof (pow2_pos _ Hu) as Hp. assert (unit <= size) as Hus.
  { pose proof (Z.div_mod size unit ltac:(lia)) as Hd. rewrite Hm in Hd. assert (0 < size / unit) by nia. nia. }
  unfold _allocate_one. set (max_size := match last _ with Some p => _ | None => _ end).
  assert (forall r, r ∈ range_tree a -> end_ r - start r <= max_size) as Hmax by (intros r; by apply max_size_ok).
  assert (0 <= max_size <= LIMIT) as Hms.
  { unfold max_size. destruct (last (range_size_tree a)) as [q|] eqn:El; [|unfold LIMIT; lia].
    assert (seg_ok q) as Hq. { apply (in_tree_ok [] a q Hi), (in_tree [] a q Hi). right. apply last_Some in El as [l ->]. set_solver. }
    rewrite (length_ok q Hq). destruct Hq. lia. }
  destruct ((max_size <? size) && (max_size <? unit)) eqn:Es.
  { zbool. eexists _, _. split; [done|]. split; [done|]. split; [done|]. intros r o Hr (? & ? & _). specialize (Hmax r Hr). lia. }
  assert (exists size1, (if max_size <? size then p2align max_size unit else size) = size1 /\ 0 < size1 <= size /\ size1 mod unit = 0) as (size1 & -> & Hz1 & Hm1).
  { destruct (max_size <? size) eqn:E1; [|exists size; split; [done|]; split; [lia|done]]. simpl in Es. zbool.
    unfold LIMIT in Hms. rewrite (p2align_spec _ _ Hu) by lia. eexists. split; [done|]. split; [|apply Z.mod_mul; lia].
    pose proof (Z.div_mod max_size unit ltac:(lia)). pose proof (Z.mod_pos_bound max_size unit ltac:(lia)).
    assert (1 <= max_size / unit) by (apply Z.div_le_lower_bound; lia). nia. }
  clear Es. rewrite (proj2 (Z.ltb_lt 0 size1)) by lia. rewrite orb_true_r. set (first := if _ || _ || _ then _ else _).
  assert (exists o a1, first = Some (o, a1) /\ inv [] a1 /\ range_tree a1 = range_tree a /\ fallback a1 = fallback a /\
    (o = MINUS_1 \/ (o <> MINUS_1 /\ exists r, r ∈ range_tree a1 /\ fit r size1 unit o))) as (o & a1 & -> & Hi1 & Et & Ef & Ho).
  { unfold first. destruct (_ || _ || _); [exists MINUS_1, a; by auto 10|]. unfold LIMIT in Hz.
    destruct (lowest_bit size1 ltac:(lia)) as [Hb1 Hb2]. rewrite (proj2 (Z.eqb_neq _ _) Hb1). cbn [negb].
    destruct (lookup_lt_is_Some_2 (lbas a) (Z.to_nat (cbits64 (Z.land size1 (neg64 size1)) - 1))) as [cur ->].
    { rewrite (iv_lbas _ _ Hi). unfold MAX_LBAS. lia. }
    cbn [mbind option_bind]. pose proof (pick_after_ok [] a cur size1 Hi ltac:(unfold LIMIT; lia)) as Hpk.
    destruct (_pick_block_after c cur size1 unit a) as [o cur']. eexists _, _. split; [done|]. split; [by apply cursor_ok|]. done. }
  cbn [mbind option_bind].
  assert (exists o' size', (if o =? MINUS_1 then best_fit 65 size1 unit a1 else Some (o, size1)) = Some (o', size') /\
    ((o' = MINUS_1 /\ no_block a1) \/
     (o' <> MINUS_1 /\ 0 < size' <= size /\ size' mod unit = 0 /\ exists r, r ∈ range_tree a1 /\ fit r size' unit o'))) as (o' & size' & -> & Hres).
  { destruct (o =? MINUS_1) eqn:Eo; zbool.
    - destruct (best_fit_ok 65 size1 a1 Hi1) as (o' & size' & -> & Hres); [lia|unfold LIMIT in Hz; change (2 ^ (Z.of_nat 65 - 1)) with two64; lia|].
      eexists _, _. split; [done|]. destruct Hres as [[-> H1]|(H1 & H2 & H3 & H4)]; [left; split; [done|exact (H1 Hm1)]|right].
      split; [done|]. split; [lia|]. auto.
    - destruct Ho as [?|[_ Ho]]; [done|]. eexists _, _. split; [done|]. right. split_and!; [done|lia|lia|done..]. }
  cbn [mbind option_bind]. destruct Hres as [[-> Hno]|(Hne & Hz' & Hm' & r & Hr & Hfit)].
  - rewrite Z.eqb_refl. eexists _, _. split; [done|]. split; [done|]. split; [|done]. intros x. unfold avail. by rewrite Et, Ef.
  - rewrite (proj2 (Z.eqb_neq _ _) Hne). destruct (take_ok a1 o' size' r Hi1 ltac:(lia) Hr Hfit) as (a2 & -> & Hi2 & [Ht1 Ht2]).
    cbn [mbind option_bind]. eexists _, _. split; [done|]. split; [done|]. split_and!; [lia|lia|done|apply Hfit|]. split.
    + intros x Hx. rewrite <- Et. by apply Ht1.
    + intros x. rewrite Ht2. unfold avail. by rewrite Et, Ef.
Qed.

(** ** Several extents *)

Definition in_exts (exts : list (Z * Z)) (x : Z) : Prop := exists p, p ∈ exts /\ p.1 <= x < p.1 + p.2.
Definition sum_exts (exts : list (Z * Z)) : Z := foldr (fun p n => p.2 + n) 0 exts.
Definition disjoint_exts (p q : Z * Z) : Prop := p.1 + p.2 <= q.1 \/ q.1 + q.2 <= p.1.

(** What an allocation hands out. *)
Record handed_out (a a' : AvlAllocator B) (exts : list (Z * Z)) : Prop := {
  ho_shape : Forall (fun p => 0 < p.2 /\ p.1 mod unit = 0 /\ p.2 mod unit = 0) exts;
  ho_disjoint : StronglySorted disjoint_exts exts;
  ho_free : forall x, in_exts exts x -> avail a x;
  ho_avail : forall x, avail a' x <-> avail a x /\ ~ in_exts exts x
}.

Lemma in_exts_cons p exts x : in_exts (p :: exts) x <-> p.1 <= x < p.1 + p.2 \/ in_exts exts x.
Proof. unfold in_exts. setoid_rewrite elem_of_cons. naive_solver. Qed.
Lemma in_exts_nil x : ~ in_exts [] x.
Proof. by intros (p & ?%not_elem_of_nil & _). Qed.

Lemma handed_nil a : handed_out a a [].
Proof. split; [constructor|constructor|by intros x ?%in_exts_nil|]. intros x. pose proof (in_exts_nil x). tauto. Qed.

Lemma handed_cons a a1 a' o l exts : 0 < l -> o mod unit = 0 -> l mod unit = 0 -> taken a a1 o l -> handed_out a1 a' exts ->
  handed_out a a' ((o, l) :: exts).
Proof.
  intros Hl Ho Hlm [T1 T2] [H1 H2 H3 H4]. split.
  - by constructor.
  - constructor; [done|]. apply Forall_forall. intros p Hp. unfold disjoint_exts. simpl. rewrite Forall_forall in H1. destruct (H1 p Hp) as [Hp0 _].
    destruct (Z.le_gt_cases (o + l) p.1); [by left|]. destruct (Z.le_gt_cases (p.1 + p.2) o); [by right|]. exfalso.
    assert (avail a1 (Z.max o p.1)) as Ha by (apply H3; exists p; split; [done|]; lia). apply T2 in Ha as [_ Hn]. apply Hn. lia.
  - intros x [Hx|Hx]%in_exts_cons; [left; by apply T1|]. apply H3, T2 in Hx. tauto.
  - intros x. rewrite H4, T2, in_exts_cons. simpl. tauto.
Qed.

Lemma allocate_loop_ok want max_alloc fuel : 0 <= want <= LIMIT -> want mod unit = 0 -> 0 < max_alloc <= LIMIT -> max_alloc mod unit = 0 ->
  forall allocated exts0 a, inv [] a -> 0 <= allocated <= want -> allocated mod unit = 0 -> want - allocated <= Z.of_nat fuel * unit ->
  exists al exts a', allocate_loop sp c fuel want unit max_alloc allocated exts0 a = Some (al, exts0 ++ exts, a') /\ inv [] a' /\
    al = allocated + sum_exts exts /\ al <= want /\ handed_out a a' exts /\ (al < want -> no_block a').
Proof.
  intros Hw Hwm Hx Hxm. pose proof (pow2_pos _ Hu) as Hp.
  induction fuel as [|fuel IH]; intros allocated exts0 a Hi Hal Ham Hf; cbn [allocate_loop].
  { rewrite (proj2 (Z.ltb_ge _ _)) by lia. exists allocated, [], a. rewrite app_nil_r. split; [done|]. split; [done|]. simpl.
    split; [lia|]. split; [lia|]. split; [apply handed_nil|lia]. }
  destruct (allocated <? want) eqn:E; zbool.
  2:{ exists allocated, [], a. rewrite app_nil_r. split; [done|]. split; [done|]. simpl. split; [lia|]. split; [lia|]. split; [apply handed_nil|lia]. }
  unfold LIMIT in *. rewrite sub64_small by lia.
  assert ((Z.min max_alloc (want - allocated)) mod unit = 0) as Hmm.
  { destruct (Z.min_spec max_alloc (want - allocated)) as [[_ ->]|[_ ->]]; [done|]. rewrite Zminus_mod, Hwm, Ham. by rewrite Z.mod_0_l by lia. }
  destruct (allocate_one_ok a (Z.min max_alloc (want - allocated)) Hi ltac:(unfold LIMIT; lia) Hmm) as (res & a1 & -> & Hi1 & Hres). cbn [mbind option_bind].
  destruct res as [[o l]|].
  - destruct Hres as (Hl & Hlm & Hom & Htk). assert (unit <= l) as Hul.
    { pose proof (Z.div_mod l unit ltac:(lia)) as Hd. rewrite Hlm in Hd. assert (0 < l / unit) by nia. nia. }
    rewrite add64_small by lia.
    destruct (IH (allocated + l) (exts0 ++ [(o, l)]) a1 Hi1) as (al & exts & a' & -> & Hi' & Hal' & Hle & Hho & Hno); [lia| |lia|].
    { rewrite Zplus_mod, Ham, Hlm. by rewrite Z.mod_0_l by lia. }
    exists al, ((o, l) :: exts), a'. rewrite <- app_assoc. split; [done|]. split; [done|]. simpl. split; [lia|]. split; [lia|].
    split; [|done]. apply (handed_cons a a1); try done; lia.
  - destruct Hres as [Hav Hno]. exists allocated, [], a1. rewrite app_nil_r. split; [done|]. split; [done|]. simpl. split; [lia|]. split; [lia|].
    split; [|done]. split; [constructor|constructor|by intros x ?%in_exts_nil|]. intros x. rewrite Hav. pose proof (in_exts_nil x). tauto.
Qed.
End Pick.

(** Releasing what was handed out. *)
Lemma release_ok exts : forall a, inv [] a -> Forall (fun p => 0 <= p.1 /\ 0 < p.2 /\ p.1 + p.2 <= LIMIT) exts ->
  StronglySorted disjoint_exts exts -> (forall x, in_exts exts x -> ~ avail a x) ->
  exists a', _release sp c exts a = Some a' /\ inv [] a' /\ forall x, avail a' x <-> avail a x \/ in_exts exts x.
Proof.
  induction exts as [|[o l] exts IH]; intros a Hi Hok Hdis Hd; cbn [_release].
  { exists a. split; [done|]. split; [done|]. intros x. pose proof (in_exts_nil x). tauto. }
  apply Forall_cons in Hok as [(H1 & H2 & H3) Hok]. simpl in *. apply StronglySorted_inv in Hdis as [Hdis Hfst].
  destruct (avl_add_ok a o (o + l) Hi) as (a1 & Ha1 & Hi1 & Hav1); [lia|done|intros x Hx; apply Hd, in_exts_cons; by left|].
  replace (o + l - o) with l in Ha1 by lia. rewrite Ha1. cbn [mbind option_bind].
  destruct (IH a1 Hi1 Hok Hdis) as (a' & -> & Hi' & Hav').
  { intros x Hx [Ha|Ho]%Hav1; [revert Ha; apply Hd, in_exts_cons; by right|]. destruct Hx as (p & Hp & Hpx).
    rewrite Forall_forall in Hfst. destruct (Hfst p Hp); simpl in *; lia. }
  exists a'. split; [done|]. split; [done|]. intros x. rewrite Hav', Hav1, in_exts_cons. simpl. tauto.
Qed.
End Invariant.

(** The free ranges are determined by the free space: they are maximal. *)
Lemma tree_unique l1 : forall l2, tree_ok l1 -> tree_ok l2 -> (forall x, free_in l1 x <-> free_in l2 x) -> l1 = l2.
Proof.
  induction l1 as [|r1 l1 IH]; intros [|r2 l2] H1 H2 Hx; [done| | |].
  - apply tree_cons in H2 as ([? _] & _ & _). destruct (free_nil (start r2)). apply Hx, free_cons. left. unfold covers. lia.
  - apply tree_cons in H1 as ([? _] & _ & _). destruct (free_nil (start r1)). apply Hx, free_cons. left. unfold covers. lia.
  - apply tree_cons in H1 as ([Ha _] & T1 & A1). apply tree_cons in H2 as ([Hb _] & T2 & A2).
    assert (forall x, free_in l1 x -> end_ r1 < x) as B1 by (intros x (y & Hy & Hc); specialize (A1 y Hy); unfold apart, covers in *; lia).
    assert (forall x, free_in l2 x -> end_ r2 < x) as B2 by (intros x (y & Hy & Hc); specialize (A2 y Hy); unfold apart, covers in *; lia).
    assert (forall x, covers r1 x \/ free_in l1 x <-> covers r2 x \/ free_in l2 x) as Hx' by (intros x; specialize (Hx x); by rewrite !free_cons in Hx).
    clear Hx. assert (start r1 = start r2) as Es.
    { destruct (proj1 (Hx' (start r1))) as [Hc|Hf]; [left; unfold covers; lia| |]; destruct (proj2 (Hx' (start r2))) as [Hc'|Hf'];
        try (left; unfold covers; lia); try specialize (B2 _ Hf); try specialize (B1 _ Hf'); unfold covers in *; lia. }
    assert (end_ r1 = end_ r2) as Ee.
    { destruct (Z.lt_trichotomy (end_ r1) (end_ r2)) as [Hlt|[?|Hlt]]; [|done|].
      - destruct (proj2 (Hx' (end_ r1))) as [Hc|Hf]; [left; unfold covers; lia|unfold covers in Hc; lia|specialize (B1 _ Hf); lia].
      - destruct (proj1 (Hx' (end_ r2))) as [Hc|Hf]; [left; unfold covers; lia|unfold covers in Hc; lia|specialize (B2 _ Hf); lia]. }
    assert (r1 = r2) as -> by (destruct r1, r2; simpl in *; congruence). f_equal. apply IH; [done..|].
    intros x. specialize (Hx' x). split; intros Hf.
    + destruct (proj1 Hx') as [Hc|]; [by right| |done]. specialize (B1 _ Hf). unfold covers in Hc. lia.
    + destruct (proj2 Hx') as [Hc|]; [by right| |done]. specialize (B2 _ Hf). unfold covers in Hc. lia.
Qed.
End AvlFacts.
