(* ===== verification/AvlTheorems.v ===== *)
(** The theorems on the allocator of AvlAllocator.v, with concrete states. *)
From S2P Require Import Prelude Pg AvlAllocator AvlFacts.

Module AvlTheorems.
Import AvlAllocator AvlFacts.

Lemma pow2_isp2 u : pow2 u -> isp2 u = true.
Proof.
  intros (k & Hk & ->). unfold isp2. assert (0 < 2 ^ k <= 2 ^ 62) as Hp by (apply pow2_pos; by exists k).
  change (2 ^ 62) with 4611686018427387904 in Hp. rewrite sub64_small by lia. rewrite Z.sub_1_r, <- Z.ones_equiv, Z.land_ones by lia.
  rewrite Z.mod_same by lia. done.
Qed.

Lemma sum_nonneg unit l : Forall (fun p : Z * Z => 0 < p.2 /\ p.1 mod unit = 0 /\ p.2 mod unit = 0) l -> 0 <= sum_exts l.
Proof. induction 1 as [|p l [? _] _ IH]; simpl; lia. Qed.

Lemma in_exts_em exts x : in_exts exts x \/ ~ in_exts exts x.
Proof.
  induction exts as [|p exts IH]; [right; apply in_exts_nil|]. rewrite in_exts_cons.
  destruct (Z.le_gt_cases p.1 x), (Z.lt_ge_cases x (p.1 + p.2)), IH; intuition lia.
Qed.

(** The largest extent a caller gets. *)
Definition effective_max (want max_alloc : Z) : Z := if max_alloc =? 0 then want else max_alloc.

Lemma allocate_spec {B} (sp : Z -> Z -> B -> option B) c bfree want unit max_alloc exts0 a :
  (range_count_cap c <> 0 -> spills sp bfree) -> 0 <= range_count_cap c -> inv bfree [] a -> pow2 unit ->
  0 < want <= LIMIT -> want mod unit = 0 -> 0 <= max_alloc -> max_alloc mod unit = 0 -> effective_max want max_alloc < two32 - 1 ->
  exists r exts a', allocate sp c want unit max_alloc exts0 a = Some (r, exts0 ++ exts, a') /\ inv bfree [] a' /\
    handed_out bfree unit a a' exts /\
    (r = sum_exts exts /\ 0 < r <= want \/ r = - ENOSPC /\ exts = []) /\
    (sum_exts exts < want -> no_block unit a').
Proof.
  intros Hsp Hcap Hi Hu Hw Hwm Hm0 Hmm Hx. pose proof (pow2_pos _ Hu) as Hp. unfold allocate. rewrite (pow2_isp2 _ Hu), Hwm. cbn [Z.eqb].
  fold (effective_max want max_alloc). set (m := effective_max want max_alloc) in *. rewrite (proj2 (Z.leb_gt _ _)) by lia.
  assert (0 < m /\ m mod unit = 0) as [Hmp Hmmod] by (unfold m, effective_max; destruct (max_alloc =? 0) eqn:E; zbool; split; lia || done).
  unfold _allocate. destruct (allocate_loop_ok sp c bfree Hsp Hcap unit Hu want m (S (Z.to_nat (want / unit)))) with (allocated := 0) (exts0 := exts0) (a := a)
    as (al & exts & a' & -> & Hi' & Hal & Hle & Hho & Hno); [lia|done|unfold LIMIT; lia|done|done|lia|by rewrite Z.mod_0_l by lia| |].
  { pose proof (Z.div_mod want unit ltac:(lia)). pose proof (Z.mod_pos_bound want unit ltac:(lia)). assert (0 <= want / unit) by (apply Z.div_pos; lia). nia. }
  cbn [mbind option_bind]. eexists _, exts, a'. split; [done|]. split; [done|]. split; [done|]. simpl in Hal.
  split; [|intros Hs; apply Hno; lia]. destruct (al =? 0) eqn:E; zbool; [right|left; split; [lia|]].
  - split; [done|]. destruct exts as [|p exts]; [done|]. pose proof (ho_shape _ _ _ _ _ Hho) as Hsh. exfalso.
    apply Forall_cons in Hsh as [[Hp2 _] Hsh]. pose proof (sum_nonneg _ _ Hsh). simpl in Hal. lia.
  - destruct exts as [|p exts]; [simpl in Hal; lia|]. pose proof (ho_shape _ _ _ _ _ Hho) as Hsh.
    pose proof (sum_nonneg _ _ Hsh). lia.
Qed.

Section General.
Context {B : Type} (sp : Z -> Z -> B -> option B) (c : conf) (bfree : B -> Z -> Prop)
  (Hsp : range_count_cap c <> 0 -> spills sp bfree) (Hcap : 0 <= range_count_cap c).

(** C36: the allocator hands out free space, once.  In every state that keeps the
    invariant (both trees hold the same ranges, sorted, apart and counted), with
    or without a bound on the number of ranges, [allocate] of a multiple of a
    power-of-two unit trips no assertion and keeps the invariant; the extents are
    disjoint, aligned multiples of the unit that were available, and exactly
    they are no longer available; it returns their total, at most what was
    wanted, or ENOSPC when there is none, and falls short only when no aligned
    unit is left in the trees. *)
Theorem allocate_hands_out_free want unit max_alloc exts0 a : inv bfree [] a -> pow2 unit ->
  0 < want <= LIMIT -> want mod unit = 0 -> 0 <= max_alloc -> max_alloc mod unit = 0 -> effective_max want max_alloc < two32 - 1 ->
  exists r exts a', allocate sp c want unit max_alloc exts0 a = Some (r, exts0 ++ exts, a') /\ inv bfree [] a' /\
    handed_out bfree unit a a' exts /\
    (r = sum_exts exts /\ 0 < r <= want \/ r = - ENOSPC /\ exts = []) /\
    (sum_exts exts < want -> no_block unit a').
Proof. intros. by apply allocate_spec. Qed.

(** releasing space that is in use makes exactly that space available again,
    whatever ranges it touches on either side, and keeps the invariant. *)
Theorem release_adds_free exts a : inv bfree [] a -> Forall (fun p => 0 <= p.1 /\ 0 < p.2 /\ p.1 + p.2 <= LIMIT) exts ->
  StronglySorted disjoint_exts exts -> (forall x, in_exts exts x -> ~ avail bfree a x) ->
  exists a', _release sp c exts a = Some a' /\ inv bfree [] a' /\ forall x, avail bfree a' x <-> avail bfree a x \/ in_exts exts x.
Proof. intros. by apply release_ok. Qed.
End General.

(** ** Without a bound *)

Definition nothing (b : ()) (x : Z) : Prop := False.

(** releasing an allocation restores the allocator.  Without a bound on the
    number of ranges, when the extents handed out are released the tree of free
    ranges and the count of free bytes are those from before the allocation:
    ranges are always merged as far as possible. *)
Theorem release_undoes_allocate c want unit max_alloc a r exts a' : range_count_cap c = 0 -> inv nothing [] a -> pow2 unit ->
  0 < want <= LIMIT -> want mod unit = 0 -> 0 <= max_alloc -> max_alloc mod unit = 0 -> effective_max want max_alloc < two32 - 1 ->
  allocate no_spill c want unit max_alloc [] a = Some (r, exts, a') ->
  exists a'', _release no_spill c exts a' = Some a'' /\ range_tree a'' = range_tree a /\ num_free a'' = num_free a.
Proof.
  intros Hc Hi Hu Hw Hwm Hm Hmm Hx Ha. assert (range_count_cap c <> 0 -> spills no_spill nothing) as Hsp by done.
  destruct (allocate_spec no_spill c nothing want unit max_alloc [] a Hsp ltac:(lia) Hi Hu Hw Hwm Hm Hmm Hx)
    as (r' & exts' & a1 & Ha' & Hi1 & [H1 H2 H3 H4] & _ & _).
  rewrite Ha' in Ha. injection Ha as _ <- <-. simpl in *.
  destruct (release_ok no_spill c nothing Hsp ltac:(lia) exts' a1 Hi1) as (a2 & -> & Hi2 & Hav); [|done|intros x Hin Hv; by apply H4 in Hv as [_ ?]|].
  { apply Forall_forall. intros p Hp. rewrite Forall_forall in H1. destruct (H1 p Hp) as [Hp2 _].
    assert (forall x, p.1 <= x < p.1 + p.2 -> 0 <= x < LIMIT) as Hin.
    { intros x Hpx. destruct (H3 x) as [(y & Hy & Hc')|[]]; [by exists p|]. pose proof (in_tree_ok _ _ _ _ Hi Hy) as [? ?]. unfold covers in Hc'. lia. }
    pose proof (Hin p.1 ltac:(lia)). pose proof (Hin (p.1 + p.2 - 1) ltac:(lia)). lia. }
  exists a2. split; [done|].
  assert (range_tree a2 = range_tree a) as Et.
  { apply tree_unique; [apply Hi2|apply Hi|]. intros x. specialize (Hav x). specialize (H4 x). specialize (H3 x). unfold avail, nothing in *.
    destruct (in_exts_em exts' x) as [Hin|Hin]; tauto. }
  split; [done|]. rewrite (iv_free _ _ _ Hi2), (iv_free _ _ _ Hi). pose proof (iv_perm _ _ _ Hi2) as P2. pose proof (iv_perm _ _ _ Hi) as P1.
  simpl in P1, P2. by rewrite (total_perm _ _ P1), (total_perm _ _ P2), Et.
Qed.

(** ** With a bound: ranges spill over to a list *)

Definition list_spill (s e : Z) (b : list range_seg_t) : option (list range_seg_t) := Some (seg s e :: b).

Lemma list_spills : spills list_spill free_in.
Proof.
  intros s e b _ _ _. eexists. split; [done|]. intros x. rewrite free_cons. unfold covers. simpl. tauto.
Qed.

Definition sample_conf (cap : Z) : conf := {|
  num_total := 1000000; block_size := 4096; range_size_alloc_threshold := 131072; range_size_alloc_free_pct := 4;
  max_search_count := 100; max_search_bytes := 16777216; range_count_cap := cap |}.

(** Two free ranges, the most the bound allows. *)
Definition two_ranges : AvlAllocator (list range_seg_t) :=
  mk_avl [seg 0 100; seg 200 210] [seg 200 210; seg 0 100] 110 (replicate MAX_LBAS 0) [].

Lemma two_ranges_ok : inv free_in [] two_ranges.
Proof.
  split.
  - split; [repeat constructor; unfold apart; simpl; lia|]. repeat constructor; unfold seg_ok, LIMIT; simpl; lia.
  - apply perm_swap.
  - repeat constructor.
  - reflexivity.
  - reflexivity.
  - intros x _. apply free_nil.
Qed.

(** removing a range can read a range that was disposed of.  With a bound on
    the number of ranges, [_try_remove_from_tree] takes the next range before it
    cuts the current one in two; cutting may spill the smallest range, which may
    be that next one, and the loop condition then reads it.  In this state
    [_remove_from_tree] of the same bytes succeeds. *)
Theorem try_remove_reads_disposed :
  inv free_in [] two_ranges /\
  is_Some (_remove_from_tree list_spill (sample_conf 2) 40 10 two_ranges) /\
  _try_remove_from_tree list_spill (sample_conf 2) 40 10 two_ranges = None.
Proof. split; [apply two_ranges_ok|]. split; [by vm_compute; eexists|]. vm_compute. reflexivity. Qed.

(** Releasing a block that is free already is not noticed, although the comment
    says that the neighbours are checked for overlap: the trees then hold
    overlapping ranges and count the block twice. *)
Definition one_range : AvlAllocator () := mk_avl [seg 0 65536] [seg 0 65536] 65536 (replicate MAX_LBAS 0) tt.

Lemma double_release_unnoticed :
  exists a, _add_to_tree no_spill (sample_conf 0) 8192 4096 one_range = Some a /\
    range_tree a = [seg 0 65536; seg 8192 12288] /\ num_free a = 69632.
Proof. eexists. split; [vm_compute; reflexivity|]. split; reflexivity. Qed.

(** A request of 4 GiB with a unit of 64 KiB: the cap on the length of an extent
    is aligned to the block size, not to the unit, and leaves a remainder of one
    block, less than the unit. *)
Definition large_range : AvlAllocator () :=
  mk_avl [seg 0 8589934592] [seg 0 8589934592] 8589934592 (replicate MAX_LBAS 0) tt.

Lemma extent_below_unit :
  option_map (fun p => p.1) (allocate no_spill (sample_conf 0) 4294967296 65536 0 [] large_range)
  = Some (4294967296, [(0, 4294963200); (4294967296, 4096)]).
Proof. vm_compute. reflexivity. Qed.

Lemma allocate_hands_out_free_witness :
  option_map (fun p => p.1) (allocate list_spill (sample_conf 2) 32 16 16 [] two_ranges) = Some (32, [(0, 16); (16, 16)]) /\
  exists r exts a', allocate list_spill (sample_conf 2) 32 16 16 [] two_ranges = Some (r, [] ++ exts, a') /\ inv free_in [] a'.
Proof.
  split; [vm_compute; reflexivity|].
  destruct (allocate_hands_out_free list_spill (sample_conf 2) free_in (fun _ => list_spills) ltac:(simpl; lia) 32 16 16 [] two_ranges two_ranges_ok)
    as (r & exts & a' & H1 & H2 & _); [exists 4; split; [lia|reflexivity]|unfold LIMIT; lia|reflexivity|lia|reflexivity|reflexivity|].
  exists r, exts, a'. split; [exact H1|exact H2].
Defined.

Lemma one_range_ok : inv nothing [] one_range.
Proof.
  split; [|reflexivity|repeat constructor|reflexivity|reflexivity|intros x _ []].
  split; repeat constructor; unfold seg_ok, LIMIT; simpl; lia.
Qed.

Lemma release_adds_free_witness :
  exists a', _release no_spill (sample_conf 0) [(65536, 4096)] one_range = Some a' /\ range_tree a' = [seg 0 69632].
Proof.
  destruct (release_adds_free no_spill (sample_conf 0) nothing ltac:(done) ltac:(simpl; lia) [(65536, 4096)] one_range one_range_ok)
    as (a' & H1 & _).
  - repeat constructor; simpl; unfold LIMIT; lia.
  - repeat constructor.
  - intros x (p & Hp & Hx) [(y & Hy & Hc)|[]]. apply list_elem_of_singleton in Hp as ->. apply list_elem_of_singleton in Hy as ->.
    unfold covers in Hc. simpl in *. lia.
  - exists a'. split; [exact H1|]. vm_compute in H1. injection H1 as <-. reflexivity.
Defined.

Definition after_alloc : Z * list (Z * Z) * AvlAllocator () :=
  default (0, [], one_range) (allocate no_spill (sample_conf 0) 8192 4096 0 [] one_range).

Lemma release_undoes_allocate_witness :
  after_alloc.1 = (8192, [(0, 8192)]) /\
  exists a'', _release no_spill (sample_conf 0) after_alloc.1.2 after_alloc.2 = Some a'' /\ range_tree a'' = [seg 0 65536] /\ num_free a'' = 65536.
Proof.
  split; [vm_compute; reflexivity|].
  apply (release_undoes_allocate (sample_conf 0) 8192 4096 0 one_range after_alloc.1.1 after_alloc.1.2 after_alloc.2);
    [reflexivity|exact one_range_ok|exists 12; split; [lia|reflexivity]|unfold LIMIT; lia|reflexivity|lia|reflexivity|reflexivity|].
  vm_compute. reflexivity.
Defined.
End AvlTheorems.
