(* ===== verification/IntervalMap.v ===== *)
(** The map from intervals to values of src/ceph-15.2.17/src/common/interval_map.h,
    over an interface for the values ([SplitMerger], the template parameter [S]):
    later insertions overwrite earlier ones, byte by byte. *)
From S2P Require Import Prelude IntervalSet.

(** What the map asks of its values: cutting a piece out of one, its length, and
    joining two. *)
Class SplitMerger (V : Type) := {
  split : Z -> Z -> V -> V;
  sm_length : V -> Z;
  can_merge : V -> V -> bool;
  merge : V -> V -> V
}.

Module IntervalMap.
Section Map.
Context {V : Type} `{!SplitMerger V}.

(** [std::map<K, std::pair<K, V>>] in key order: offset, length, value. *)
Abbreviation entry := (Z * (Z * V))%type.
Definition stop (e : entry) : Z := add64 e.1 e.2.1.

(** *** std::map *)

(** The position of an iterator: the number of elements before it. *)
Fixpoint count_while (p : Z -> bool) (m : list entry) : nat :=
  match m with
  | [] => 0
  | e :: m => if p e.1 then S (count_while p m) else 0
  end.
Definition upper_bound (k : Z) (m : list entry) : nat := count_while (fun x => x <=? k) m.
Definition lower_bound (k : Z) (m : list entry) : nat := count_while (fun x => x <? k) m.

(** [insert]: nothing when the key is there. *)
Fixpoint emplace (e : entry) (m : list entry) : list entry * bool :=
  match m with
  | [] => ([e], true)
  | f :: m' =>
    if e.1 <? f.1 then (e :: m, true)
    else if e.1 =? f.1 then (m, false)
    else let '(m', b) := emplace e m' in (f :: m', b)
  end.
Definition emplace_all (es m : list entry) : list entry := foldl (fun m e => (emplace e m).1) m es.

(** *** interval_map *)

Definition get_range (off len : Z) (m : list entry) : nat * nat :=
  let fst := pred (upper_bound off m) in
  let fst := match m !! fst with
             | Some e => if stop e <=? off then S fst else fst
             | None => fst
             end in
  (fst, lower_bound (add64 off len) m).

(** What remains of an element around the range. *)
Definition remains (off len : Z) (e : entry) : list entry :=
  (if e.1 <? off then [(e.1, (sub64 off e.1, split 0 (sub64 off e.1) e.2.2))] else []) ++
  (if add64 off len <? stop e then
     let nlen := sub64 (stop e) (add64 off len) in
     [(add64 off len, (nlen, split (sub64 e.2.1 nlen) nlen e.2.2))]
   else []).

Definition erase (off len : Z) (m : list entry) : list entry :=
  if len =? 0 then m
  else
    let '(fst, lst) := get_range off len m in
    let to_insert := flat_map (remains off len) (drop fst (take lst m)) in
    emplace_all to_insert (take fst m ++ drop lst m).

(** [try_merge] on the element between [pre] and [post]. *)
Definition merge_left (pre : list entry) (n : entry) : list entry * entry :=
  match last pre with
  | Some p =>
    if (stop p =? n.1) && can_merge p.2.2 n.2.2
    then (removelast pre, (p.1, (sub64 (stop n) p.1, merge p.2.2 n.2.2)))
    else (pre, n)
  | None => (pre, n)
  end.
Definition merge_right (n : entry) (post : list entry) : list entry :=
  match post with
  | q :: post' =>
    if (stop n =? q.1) && can_merge n.2.2 q.2.2
    then (n.1, (sub64 (stop q) n.1, merge n.2.2 q.2.2)) :: post'
    else n :: post
  | [] => [n]
  end.
Definition try_merge (k : Z) (m : list entry) : list entry :=
  let i := lower_bound k m in
  match m !! i with
  | None => m
  | Some n => let '(pre, n) := merge_left (take i m) n in pre ++ merge_right n (drop (S i) m)
  end.

Definition insert (off len : Z) (v : V) (m : list entry) : option (list entry) :=
  ceph_assert (0 <? len) ;;
  ceph_assert (len =? sm_length v) ;;
  let '(m, inserted) := emplace (off, (len, v)) (erase off len m) in
  ceph_assert inserted ;;
  Some (try_merge off m).

Fixpoint insert_map (other m : list entry) : option (list entry) :=
  match other with
  | [] => Some m
  | e :: other => m ← insert e.1 e.2.1 e.2.2 m; insert_map other m
  end.

(** An element of the range, cut to it. *)
Definition clip (off len : Z) (e : entry) : entry :=
  let '(o, (l, v)) := e in
  let '(o, l, v) :=
    if o <? off then let l := sub64 l (sub64 off o) in (off, l, split (sub64 off o) l v) else (o, l, v) in
  if add64 off len <? add64 o l then
    let l := sub64 l (sub64 (add64 o l) (add64 off len)) in (o, (l, split 0 l v))
  else (o, (l, v)).
Definition intersect (off len : Z) (m : list entry) : option (list entry) :=
  let '(fst, lst) := get_range off len m in
  insert_map (map (clip off len) (drop fst (take lst m))) [].

Definition empty (m : list entry) : bool := match m with [] => true | _ => false end.
Definition get_interval_set (m : list entry) : option interval_set.interval_set :=
  foldl (fun r e => s ← r; interval_set.insert s e.1 e.2.1) (Some interval_set.clear) m.
End Map.
End IntervalMap.

(** What an element of a value is, and how cutting and joining move it. *)
Class SplitMergerLaws (V A : Type) `{!SplitMerger V} := {
  value_at : V -> Z -> A;
  split_length v o l : 0 <= o -> 0 <= l -> o + l <= sm_length v -> sm_length (split o l v) = l;
  value_split v o l i : 0 <= o -> 0 <= i < l -> o + l <= sm_length v -> value_at (split o l v) i = value_at v (o + i);
  merge_length a b : can_merge a b = true -> sm_length (merge a b) = sm_length a + sm_length b;
  value_merge a b i : can_merge a b = true -> 0 <= i < sm_length a + sm_length b ->
    value_at (merge a b) i = if i <? sm_length a then value_at a i else value_at b (i - sm_length a)
}.

Module IntervalMapFacts.
Import IntervalMap.
Section Facts.
Context {V A : Type} `{HL : SplitMergerLaws V A}.
Abbreviation entry := (Z * (Z * V))%type.
Abbreviation fin e := (e.1 + e.2.1).

Definition good (e : entry) : Prop := 0 <= e.1 /\ 0 < e.2.1 /\ fin e < two64 /\ sm_length e.2.2 = e.2.1.
Definition ordered (e f : entry) : Prop := fin e <= f.1.
Definition wf (m : list entry) : Prop := Forall good m /\ StronglySorted ordered m.
Definition covers (e : entry) (x : Z) : Prop := e.1 <= x < fin e.

(** The value at a position. *)
Fixpoint get (m : list entry) (x : Z) : option A :=
  match m with
  | [] => None
  | e :: m => if (e.1 <=? x) && (x <? fin e) then Some (value_at e.2.2 (x - e.1)) else get m x
  end.

Lemma stop_good e : good e -> stop e = fin e.
Proof. intros (?&?&?&?). apply add64_small. lia. Qed.

Lemma get_in m x a : get m x = Some a -> exists e, e ∈ m /\ covers e x /\ a = value_at e.2.2 (x - e.1).
Proof.
  induction m as [|e m IH]; [done|]. cbn [get]. case_match; zbool.
  - intros [= <-]. exists e. unfold covers. split_and!; [set_solver|lia|lia|done].
  - intros (f&?&?)%IH. exists f. set_solver.
  - intros (f&?&?)%IH. exists f. set_solver.
Qed.
Lemma in_get m x e : wf m -> e ∈ m -> covers e x -> get m x = Some (value_at e.2.2 (x - e.1)).
Proof.
  intros [HF HS] He Hx. induction HS as [|f m HS IH Hf]; [set_solver|].
  apply Forall_cons in HF as [Hg HF]. unfold covers in *. cbn [get].
  apply elem_of_cons in He as [->|He].
  - rewrite (proj2 (Z.leb_le _ _)), (proj2 (Z.ltb_lt _ _)) by lia. done.
  - rewrite Forall_forall in Hf. specialize (Hf e He). unfold ordered in Hf.
    rewrite (proj2 (Z.ltb_ge x (fin f))) by lia. rewrite andb_false_r. auto.
Qed.
Lemma get_none m x : (forall e, e ∈ m -> ~ covers e x) -> get m x = None.
Proof.
  intros Hn. destruct (get m x) eqn:E; [|done]. destruct (get_in _ _ _ E) as (e&He&Hc&_). by destruct (Hn e He).
Qed.
Lemma get_none_inv m x e : get m x = None -> e ∈ m -> ~ covers e x.
Proof.
  induction m as [|g m IH]; [set_solver|]. cbn [get]. destruct ((g.1 <=? x) && (x <? fin g)) eqn:Eg; [done|].
  intros E [->|He]%elem_of_cons; [|auto]. unfold covers. intros ?. apply andb_false_iff in Eg. destruct Eg; zbool; lia.
Qed.
(** The values of a well-formed map are determined by its elements. *)
Lemma get_ext m n x :
  wf n -> (forall e, e ∈ m -> covers e x -> exists f, f ∈ n /\ covers f x /\ value_at f.2.2 (x - f.1) = value_at e.2.2 (x - e.1)) ->
  (forall f, f ∈ n -> covers f x -> exists e, e ∈ m /\ covers e x) -> get m x = get n x.
Proof.
  intros Hn H1 H2. destruct (get m x) eqn:E.
  - destruct (get_in _ _ _ E) as (e&He&Hc&->). destruct (H1 e He Hc) as (f&Hf&Hcf&<-). symmetry. by apply in_get.
  - symmetry. apply get_none. intros f Hf Hcf. destruct (H2 f Hf Hcf) as (e&He&Hc). by apply (get_none_inv _ _ _ E He).
Qed.

(** *** Insertion of an element that touches no other *)

Definition apart (e f : entry) : Prop := fin e <= f.1 \/ fin f <= e.1.

Lemma emplace_ok e m :
  wf m -> good e -> (forall f, f ∈ m -> apart e f) ->
  exists m', emplace e m = (m', true) /\ wf m' /\ (forall f, f ∈ m' <-> f = e \/ f ∈ m).
Proof.
  intros Hm He. pose proof He as (?&?&?&?). induction m as [|f m IH]; intros Ha.
  { exists [e]. split; [done|]. split; [|set_solver]. split; [by constructor|]. repeat constructor. }
  destruct Hm as [HF HS]. apply Forall_cons in HF as [Hf HF]. inversion_clear HS as [|? ? HS' Hfm].
  pose proof Hf as (?&?&?&?). specialize (IH (conj HF HS') ltac:(set_solver)). cbn [emplace].
  destruct (Ha f ltac:(set_solver)) as [Hlt|Hlt].
  - rewrite (proj2 (Z.ltb_lt _ _)) by lia. eexists. split; [done|]. split; [|set_solver].
    split; [by repeat constructor|]. constructor; [by constructor|]. constructor; [done|].
    eapply Forall_impl; [exact Hfm|]. unfold ordered. cbn. lia.
  - rewrite (proj2 (Z.ltb_ge _ _)), (proj2 (Z.eqb_neq _ _)) by lia.
    destruct IH as (m'&->&[HF' HS2]&Hin). eexists. split; [done|]. split; [|set_solver].
    split; [by constructor|]. constructor; [done|]. apply Forall_forall. intros g [->|Hg]%Hin; [done|].
    rewrite Forall_forall in Hfm. auto.
Qed.
Lemma emplace_all_ok es m :
  wf m -> wf es -> (forall e f, e ∈ es -> f ∈ m -> apart e f) ->
  wf (emplace_all es m) /\ (forall f, f ∈ emplace_all es m <-> f ∈ es \/ f ∈ m).
Proof.
  unfold emplace_all. revert m. induction es as [|e es IH]; intros m Hm Hes Ha; [cbn; set_solver|]. cbn [foldl].
  destruct Hes as [HF HS]. apply Forall_cons in HF as [He HF]. inversion_clear HS as [|? ? HS' Hes].
  destruct (emplace_ok e m) as (m'&->&Hm'&Hin); [done|done|set_solver|]. cbn [fst].
  destruct (IH m') as [Hw Hin']; [done|done| |].
  - intros f g Hf [->|Hg]%Hin; [|set_solver]. right. rewrite Forall_forall in Hes. apply Hes, Hf.
  - split; [done|]. intros f. rewrite Hin', Hin. set_solver.
Qed.

(** *** Ranges *)

Lemma count_while_spec (p : Z -> bool) m :
  wf m -> (forall a b, a <= b -> p b = true -> p a = true) ->
  (forall e, e ∈ take (count_while p m) m -> p e.1 = true) /\ (forall e, e ∈ drop (count_while p m) m -> p e.1 = false).
Proof.
  intros Hm Hp. induction m as [|e m IH]; [cbn; set_solver|]. destruct Hm as [HF HS].
  apply Forall_cons in HF as [(?&?&?&?) HF]. inversion_clear HS as [|? ? HS' Hem]. specialize (IH (conj HF HS')).
  cbn [count_while]. destruct (p e.1) eqn:E; cbn [take drop].
  - split; [|apply IH]. intros f [->|Hf]%elem_of_cons; [done|by apply IH].
  - split; [set_solver|]. intros f [->|Hf]%elem_of_cons; [done|]. rewrite Forall_forall in Hem. specialize (Hem f Hf).
    unfold ordered in Hem. destruct (p f.1) eqn:Ef; [|done]. rewrite (Hp e.1 f.1) in E; [done|lia|done].
Qed.
Lemma wf_take n m : wf m -> wf (take n m).
Proof.
  rewrite <- (take_drop n m) at 1. intros [HF HS]. split; [by apply Forall_app in HF as [? _]|].
  by apply StronglySorted_app in HS as (_&?&_).
Qed.
Lemma wf_drop n m : wf m -> wf (drop n m).
Proof.
  rewrite <- (take_drop n m) at 1. intros [HF HS]. split; [by apply Forall_app in HF as [_ ?]|].
  by apply StronglySorted_app in HS as (_&_&?).
Qed.
Lemma wf_before n m e f : wf m -> e ∈ take n m -> f ∈ drop n m -> fin e <= f.1.
Proof. intros [_ HS] He Hf. rewrite <- (take_drop n m) in HS. by eapply StronglySorted_app_1_elem_of in HS. Qed.
Lemma wf_good m e : wf m -> e ∈ m -> good e.
Proof. intros [HF _] He. rewrite Forall_forall in HF. auto. Qed.

Lemma count_while_mono (p q : Z -> bool) (m : list entry) :
  (forall a, p a = true -> q a = true) -> (count_while p m <= count_while q m)%nat.
Proof.
  intros Hpq. induction m as [|e m IH]; cbn; [done|]. destruct (p e.1) eqn:E; [|lia].
  rewrite (Hpq _ E). lia.
Qed.
Lemma count_while_len (p : Z -> bool) (m : list entry) : (count_while p m <= List.length m)%nat.
Proof. induction m as [|e m IH]; cbn; [done|]. case_match; lia. Qed.
Lemma elem_of_drop_in {B} n (l : list B) x : x ∈ drop n l -> x ∈ l.
Proof. rewrite <- (take_drop n l) at 2. set_solver. Qed.
Lemma elem_of_take_in {B} n (l : list B) x : x ∈ take n l -> x ∈ l.
Proof. rewrite <- (take_drop n l) at 2. set_solver. Qed.

Lemma wf_apart m e f : wf m -> e ∈ m -> f ∈ m -> e = f \/ apart e f.
Proof.
  intros [_ HS] He Hf. unfold apart. induction HS as [|g m HS IH Hg]; [set_solver|]. rewrite Forall_forall in Hg.
  unfold ordered in Hg. apply elem_of_cons in He as [->|He], Hf as [->|Hf]; auto.
Qed.

Lemma get_range_spec o n m fst lst :
  wf m -> 0 <= o -> 0 < n -> o + n < two64 -> get_range o n m = (fst, lst) ->
  (forall e, e ∈ take fst m -> fin e <= o) /\ (forall e, e ∈ drop fst m -> o < fin e) /\
  (forall e, e ∈ take lst m -> e.1 < o + n) /\ (forall e, e ∈ drop lst m -> o + n <= e.1) /\ (fst <= lst)%nat.
Proof.
  intros Hm Ho Hn Hon. unfold get_range. rewrite add64_small by lia.
  destruct (count_while_spec (fun x => x <=? o) m Hm) as [Hu1 Hu2]; [intros; zbool; apply Z.leb_le; lia|].
  destruct (count_while_spec (fun x => x <? o + n) m Hm) as [Hl1 Hl2]; [intros; zbool; apply Z.ltb_lt; lia|].
  assert (upper_bound o m <= lower_bound (o + n) m)%nat as Hle.
  { apply count_while_mono. intros a ?. zbool. apply Z.ltb_lt. lia. }
  fold (upper_bound o m) in Hu1, Hu2. fold (lower_bound (o + n) m) in Hl1, Hl2.
  assert (forall e, e ∈ drop (upper_bound o m) m -> o < fin e) as Hd.
  { intros e He. pose proof (Hu2 e He). pose proof (wf_good m e Hm ltac:(by eapply elem_of_drop_in)) as (?&?&?&?). zbool. lia. }
  assert (forall e, e ∈ take (lower_bound (o + n) m) m -> e.1 < o + n) as Hlt by (intros e He%Hl1; by zbool).
  assert (forall e, e ∈ drop (lower_bound (o + n) m) m -> o + n <= e.1) as Hge by (intros e He%Hl2; by zbool).
  destruct (upper_bound o m) as [|j] eqn:Ei; cbn [pred].
  - assert (match m !! 0%nat with Some e => if stop e <=? o then 1%nat else 0%nat | None => 0%nat end = 0%nat) as ->.
    { destruct m as [|e m]; [done|]. cbn. specialize (Hd e ltac:(set_solver)).
      rewrite stop_good by (eapply wf_good; [exact Hm|set_solver]). by rewrite (proj2 (Z.leb_gt _ _)) by lia. }
    intros [= <- <-]. split_and!; [set_solver|done|done|done|lia].
  - assert (j < List.length m)%nat as Hj.
    { pose proof (count_while_len (fun x => x <=? o) m). fold (upper_bound o m) in *. lia. }
    destruct (lookup_lt_is_Some_2 m j Hj) as [e He]. rewrite He.
    pose proof (list_elem_of_lookup_2 _ _ _ He) as Hin. pose proof (wf_good m e Hm Hin) as Hg. pose proof Hg as (?&?&?&?).
    rewrite (stop_good e Hg). rewrite (take_S_r _ _ _ He) in Hu1.
    assert (e.1 <= o) by (specialize (Hu1 e ltac:(set_solver)); by zbool).
    assert (forall f, f ∈ take j m -> fin f <= e.1) as Hb.
    { intros f Hf. eapply (wf_before j m); [done|done|]. rewrite (drop_S _ _ _ He). set_solver. }
    destruct (fin e <=? o) eqn:E; zbool; intros [= <- <-].
    + split_and!; [|done|done|done|lia]. intros f. rewrite (take_S_r _ _ _ He). intros [Hf|Hf]%elem_of_app.
      * specialize (Hb f Hf). lia.
      * apply list_elem_of_singleton in Hf as ->. lia.
    + split_and!; [|..|done|done|lia].
      * intros f Hf. specialize (Hb f Hf). lia.
      * intros f. rewrite (drop_S _ _ _ He). intros [->|Hf]%elem_of_cons; [lia|auto].
Qed.

(** *** Erasing *)

Definition inside (o n x : Z) : bool := (o <=? x) && (x <? o + n).

Section Erase.
Context (o n : Z) (Ho : 0 <= o) (Hn : 0 < n) (Hon : o + n < two64).

Lemma remains_in e p :
  good e -> e.1 < o + n -> p ∈ remains o n e <->
  (e.1 < o /\ p = (e.1, (o - e.1, split 0 (o - e.1) e.2.2))) \/
  (o + n < fin e /\ p = (o + n, (fin e - (o + n), split (o + n - e.1) (fin e - (o + n)) e.2.2))).
Proof.
  intros Hg Hlt. pose proof Hg as (?&?&?&?). unfold remains. rewrite (stop_good e Hg), (add64_small o n) by lia.
  rewrite elem_of_app. destruct (e.1 <? o) eqn:E1, (o + n <? fin e) eqn:E2; zbool; cbn zeta; unwrap64;
    rewrite ?list_elem_of_singleton, ?elem_of_nil; replace (e.2.1 - (fin e - (o + n))) with (o + n - e.1) by lia;
    try (intuition lia); tauto.
Qed.

(** A remaining piece lies outside the range and has the values of its element. *)
Lemma piece_ok e p :
  good e -> e.1 < o + n -> o < fin e -> p ∈ remains o n e ->
  good p /\ e.1 <= p.1 /\ fin p <= fin e /\ (fin p <= o \/ o + n <= p.1) /\
  (forall x, covers p x -> value_at p.2.2 (x - p.1) = value_at e.2.2 (x - e.1)).
Proof.
  intros Hg Hlt Hgt Hp. apply (remains_in e p Hg Hlt) in Hp. pose proof Hg as (?&?&?&?).
  unfold good, covers. destruct Hp as [[? ->]|[? ->]]; cbn [fst snd]; split_and!; try lia.
  - rewrite split_length; lia.
  - intros x ?. rewrite value_split by lia. f_equal; lia.
  - rewrite split_length; lia.
  - intros x ?. rewrite value_split by lia. f_equal; lia.
Qed.
Lemma piece_covers e x :
  good e -> e.1 < o + n -> o < fin e -> covers e x -> inside o n x = false -> exists p, p ∈ remains o n e /\ covers p x.
Proof.
  intros Hg Hlt Hgt Hc Hx. unfold covers, inside in *. apply andb_false_iff in Hx as [Hx|Hx]; zbool.
  - eexists. split; [apply (remains_in e _ Hg Hlt); left; split; [lia|done]|]. cbn. lia.
  - eexists. split; [apply (remains_in e _ Hg Hlt); right; split; [lia|done]|]. cbn. lia.
Qed.

Lemma remains_wf r :
  wf r -> (forall e, e ∈ r -> e.1 < o + n /\ o < fin e) -> wf (flat_map (remains o n) r).
Proof.
  intros [HF HS] Hr. assert (forall e p, e ∈ r -> p ∈ remains o n e -> good p) as Hgp.
  { intros e p He Hp. destruct (Hr e He). rewrite Forall_forall in HF. by destruct (piece_ok e p (HF e He)). }
  split.
  - apply Forall_forall. intros p. rewrite list_elem_of_In, in_flat_map. setoid_rewrite <- list_elem_of_In.
    intros (e&He&Hp). eauto.
  - clear Hgp. induction HS as [|e r HS IH He]; [constructor|]. cbn [flat_map].
    apply Forall_cons in HF as [Hg HF]. destruct (Hr e ltac:(set_solver)) as [Hlt Hgt]. apply StronglySorted_app. split_and!.
    + intros p q Hp Hq. apply list_elem_of_In, in_flat_map in Hq as (f&Hf%list_elem_of_In&Hq%list_elem_of_In).
      destruct (Hr f ltac:(set_solver)) as [Hflt Hfgt]. rewrite Forall_forall in He, HF. specialize (He f Hf).
      destruct (piece_ok f q (HF f Hf) Hflt Hfgt Hq) as (_&?&_). destruct (piece_ok e p Hg Hlt Hgt Hp) as (_&_&?&_).
      unfold ordered in *. lia.
    + pose proof Hg as (?&?&?&?). unfold remains. rewrite (stop_good e Hg), (add64_small o n) by lia.
      destruct (e.1 <? o) eqn:E1, (o + n <? fin e) eqn:E2; zbool; cbn [app]; repeat constructor; unfold ordered; cbn.
      rewrite sub64_small; lia.
    + apply IH; [done|set_solver].
Qed.

Lemma erase_ok m :
  wf m -> wf (erase o n m) /\ (forall f, f ∈ erase o n m -> fin f <= o \/ o + n <= f.1) /\
  (forall x, get (erase o n m) x = if inside o n x then None else get m x).
Proof.
  intros Hm. unfold erase. rewrite (proj2 (Z.eqb_neq n 0)) by lia.
  destruct (get_range o n m) as [fst lst] eqn:Er.
  destruct (get_range_spec o n m fst lst) as (H1&H2&H3&H4&Hle); [done..|].
  set (r := drop fst (take lst m)). set (rest := take fst m ++ drop lst m).
  assert (forall e, e ∈ r -> e ∈ m /\ e.1 < o + n /\ o < fin e) as Hr.
  { intros e He. split_and!.
    - by eapply elem_of_take_in, elem_of_drop_in.
    - apply H3. by eapply elem_of_drop_in.
    - apply H2. subst r. rewrite skipn_firstn_comm in He. by eapply elem_of_take_in. }
  assert (forall e, e ∈ rest -> e ∈ m /\ (fin e <= o \/ o + n <= e.1)) as Hrest.
  { intros e [He|He]%elem_of_app; [split; [by eapply elem_of_take_in|auto]|split; [by eapply elem_of_drop_in|auto]]. }
  assert (forall e, e ∈ m -> e ∈ r \/ e ∈ rest) as Hall.
  { intros e He. rewrite <- (take_drop lst m), <- (take_drop fst (take lst m)) in He. fold r in He.
    rewrite take_take, Nat.min_l in He by done. set_solver. }
  assert (wf rest) as Hwrest.
  { split.
    - apply Forall_app. split; [apply (wf_take fst m Hm)|apply (wf_drop lst m Hm)].
    - apply StronglySorted_app. split_and!; [|apply (wf_take fst m Hm)|apply (wf_drop lst m Hm)].
      intros e f He%H1 Hf%H4. unfold ordered. lia. }
  assert (wf r) as Hwr by (subst r; by apply wf_drop, wf_take).
  assert (wf (flat_map (remains o n) r)) as Hwp by (apply remains_wf; [done|intros e He; by apply Hr]).
  assert (forall p, p ∈ flat_map (remains o n) r <-> exists e, e ∈ r /\ p ∈ remains o n e) as Hfm.
  { intros p. rewrite list_elem_of_In, in_flat_map. by setoid_rewrite <- list_elem_of_In. }
  destruct (emplace_all_ok (flat_map (remains o n) r) rest) as [Hw Hin]; [done|done| |].
  { intros p f (e&He&Hp)%Hfm Hf. destruct (Hr e He) as (Hem&Hlt&Hgt). pose proof (wf_good m e Hm Hem) as Hge.
    destruct (piece_ok e p Hge Hlt Hgt Hp) as (_&Hp1&Hp2&_). destruct (Hrest f Hf) as [Hfm' Hff]. unfold apart.
    destruct (wf_good m f Hm Hfm') as (?&?&?&?). destruct (wf_apart m e f Hm Hem Hfm') as [->|[?|?]]; lia. }
  assert (forall f, f ∈ flat_map (remains o n) r \/ f ∈ rest -> fin f <= o \/ o + n <= f.1) as Hout.
  { intros f [(e&He&Hp)%Hfm|Hf]; [|by apply Hrest]. destruct (Hr e He) as (Hem&Hlt&Hgt).
    by destruct (piece_ok e f (wf_good m e Hm Hem) Hlt Hgt Hp) as (_&_&_&?&_). }
  split_and!; [done|intros f Hf%Hin; auto|]. intros x. destruct (inside o n x) eqn:Ex.
  - apply get_none. intros f Hf%Hin%Hout. unfold covers, inside in *. zbool. lia.
  - apply get_ext; [done|..].
    + intros f [Hf|Hf]%Hin Hc; [|exists f; by destruct (Hrest f Hf)]. apply Hfm in Hf as (e&He&Hp).
      destruct (Hr e He) as (Hem&Hlt&Hgt). destruct (piece_ok e f (wf_good m e Hm Hem) Hlt Hgt Hp) as (_&?&?&_&Hv).
      exists e. unfold covers in *. split_and!; [done|lia|lia|]. by rewrite Hv.
    + intros f Hf Hc. destruct (Hall f Hf) as [He|He]; [|exists f; split; [apply Hin; auto|done]].
      destruct (Hr f He) as (Hem&Hlt&Hgt). destruct (piece_covers f x (wf_good m f Hm Hem)) as (p&Hp&Hcp); [done..|].
      exists p. split; [apply Hin; left; apply Hfm; eauto|done].
Qed.
End Erase.

(** *** Merging *)

Definition join (p q : entry) : entry := (p.1, (fin q - p.1, merge p.2.2 q.2.2)).

Lemma join_ok a p q b :
  wf (a ++ p :: q :: b) -> fin p = q.1 -> can_merge p.2.2 q.2.2 = true ->
  wf (a ++ join p q :: b) /\ (forall x, get (a ++ join p q :: b) x = get (a ++ p :: q :: b) x).
Proof.
  intros Hm Hpq Hmg. pose proof Hm as [HF HS]. apply Forall_app in HF as [Ha [Hp [Hq Hb]%Forall_cons]%Forall_cons].
  pose proof Hp as (?&?&?&?). pose proof Hq as (?&?&?&?).
  apply StronglySorted_app in HS as (Hab&HSa&HSb). inversion_clear HSb as [|? ? HSb' Hpb]. inversion_clear HSb' as [|? ? HSb Hqb].
  assert (wf (a ++ join p q :: b)) as Hw.
  { split.
    - apply Forall_app. split; [done|]. constructor; [|done]. unfold good, join. cbn [fst snd].
      rewrite merge_length by done. lia.
    - apply StronglySorted_app. split_and!; [|done|].
      + intros e f He [->|Hf]%elem_of_cons; [|apply Hab; set_solver]. exact (Hab e p He ltac:(set_solver)).
      + constructor; [done|]. eapply Forall_impl; [exact Hqb|]. unfold ordered, join. cbn. lia. }
  split; [done|]. intros x. symmetry. apply get_ext; [done|..].
  - intros e He Hc. assert (e ∈ a \/ e = p \/ e = q \/ e ∈ b) as [?|[->|[->|?]]] by set_solver.
    + exists e. set_solver.
    + exists (join p q). unfold covers, join in *. cbn [fst snd]. split_and!; [set_solver|lia|lia|].
      rewrite value_merge by (done || lia). rewrite (proj2 (Z.ltb_lt _ _)) by lia. done.
    + exists (join p q). unfold covers, join in *. cbn [fst snd]. split_and!; [set_solver|lia|lia|].
      rewrite value_merge by (done || lia). rewrite (proj2 (Z.ltb_ge _ _)) by lia. f_equal. lia.
    + exists e. set_solver.
  - intros f Hf Hc. assert (f ∈ a \/ f = join p q \/ f ∈ b) as [?|[->|?]] by set_solver.
    + exists f. set_solver.
    + unfold covers, join in *. cbn [fst snd] in *. destruct (Z.lt_ge_cases x q.1).
      * exists p. split; [set_solver|lia].
      * exists q. split; [set_solver|lia].
    + exists f. set_solver.
Qed.

Lemma merge_next_ok a n post :
  wf (a ++ n :: post) ->
  wf (a ++ merge_right n post) /\ (forall x, get (a ++ merge_right n post) x = get (a ++ n :: post) x).
Proof.
  intros Hm. destruct post as [|q post]; [done|]. unfold merge_right.
  destruct ((stop n =? q.1) && can_merge n.2.2 q.2.2) eqn:E; [|done]. zbool.
  assert (good n) as Hn by (eapply wf_good; [exact Hm|set_solver]).
  assert (good q) as Hq by (eapply wf_good; [exact Hm|set_solver]).
  rewrite stop_good in * by done. pose proof Hn as (?&?&?&?). pose proof Hq as (?&?&?&?).
  rewrite sub64_small by lia. by apply join_ok.
Qed.
Lemma merge_prev_ok pre n post pre' n' :
  wf (pre ++ n :: post) -> merge_left pre n = (pre', n') ->
  wf (pre' ++ n' :: post) /\ (forall x, get (pre' ++ n' :: post) x = get (pre ++ n :: post) x).
Proof.
  intros Hm. unfold merge_left. destruct pre as [|p pre _] using rev_ind; [by intros [= <- <-]|].
  rewrite last_snoc, removelast_last.
  destruct ((stop p =? n.1) && can_merge p.2.2 n.2.2) eqn:E; [|by intros [= <- <-]]. intros [= <- <-]. zbool.
  rewrite <- app_assoc in *. cbn [app] in *.
  assert (good n) as Hn by (eapply wf_good; [exact Hm|set_solver]).
  assert (good p) as Hp by (eapply wf_good; [exact Hm|set_solver]).
  rewrite stop_good in * by done. pose proof Hn as (?&?&?&?). pose proof Hp as (?&?&?&?).
  rewrite sub64_small by lia. by apply join_ok.
Qed.

Lemma lookup_key m e : wf m -> e ∈ m -> m !! lower_bound e.1 m = Some e.
Proof.
  intros Hm He. destruct (count_while_spec (fun x => x <? e.1) m Hm) as [H1 H2]; [intros; zbool; apply Z.ltb_lt; lia|].
  fold (lower_bound e.1 m) in H1, H2. set (i := lower_bound e.1 m) in *.
  rewrite <- (take_drop i m) in He. apply elem_of_app in He as [He|He].
  { specialize (H1 e He). zbool. lia. }
  destruct (drop i m) as [|f d] eqn:Ed; [set_solver|].
  assert (m !! i = Some f) as Hi by (rewrite <- (Nat.add_0_r i), <- lookup_drop, Ed; done).
  apply elem_of_cons in He as [->|He]; [done|]. exfalso.
  pose proof (wf_drop i m Hm) as [HF HS]. rewrite Ed in HF, HS. inversion_clear HS as [|? ? _ Hf].
  apply Forall_cons in HF as [(?&?&?&?) _]. rewrite Forall_forall in Hf. specialize (Hf e He). unfold ordered in Hf.
  specialize (H2 f ltac:(set_solver)). zbool. lia.
Qed.

Lemma try_merge_ok m e :
  wf m -> e ∈ m -> wf (try_merge e.1 m) /\ (forall x, get (try_merge e.1 m) x = get m x).
Proof.
  intros Hm He. unfold try_merge. pose proof (lookup_key m e Hm He) as Hi. rewrite Hi.
  set (i := lower_bound e.1 m) in *. pose proof (take_drop_middle m i e Hi) as Em.
  destruct (merge_left (take i m) e) as [pre n] eqn:El.
  destruct (merge_prev_ok (take i m) e (drop (S i) m) pre n) as [Hw1 Hg1]; [by rewrite Em|done|].
  destruct (merge_next_ok pre n (drop (S i) m) Hw1) as [Hw2 Hg2].
  split; [done|]. intros x. rewrite Hg2, Hg1, Em. done.
Qed.

Lemma map_insert_ok o n v m :
  wf m -> good (o, (n, v)) ->
  exists m', insert o n v m = Some m' /\ wf m' /\
    (forall x, get m' x = if inside o n x then Some (value_at v (x - o)) else get m x).
Proof.
  intros Hm Hg. pose proof Hg as (?&?&?&Hl). cbn [fst snd] in *. unfold insert.
  rewrite (proj2 (Z.ltb_lt 0 n)), Hl, Z.eqb_refl by lia.
  destruct (erase_ok o n) with (m := m) as (Hw&Hout&Hget); [done..|].
  destruct (emplace_ok (o, (n, v)) (erase o n m)) as (m1&->&Hw1&Hin); [done|done| |].
  { intros f Hf%Hout. unfold apart. cbn. lia. }
  destruct (try_merge_ok m1 (o, (n, v))) as [Hw2 Hg2]; [done|apply Hin; auto|]. cbn [fst] in *.
  eexists. split; [done|]. split; [done|]. intros x. rewrite Hg2. destruct (inside o n x) eqn:Ex.
  - apply (in_get m1 x (o, (n, v))); [done|apply Hin; auto|]. unfold covers, inside in *. cbn. zbool. lia.
  - specialize (Hget x). rewrite Ex in Hget. rewrite <- Hget. apply get_ext; [done|..].
    + intros e [->|He]%Hin Hc; [|by exists e]. unfold covers, inside in *. cbn in Hc.
      apply andb_false_iff in Ex. destruct Ex; zbool; lia.
    + intros f Hf Hc. exists f. split; [apply Hin; auto|done].
Qed.

(** *** Whole maps *)

Lemma insert_map_ok other m :
  wf other -> wf m -> exists m', insert_map other m = Some m' /\ wf m' /\
    (forall x, get m' x = match get other x with Some a => Some a | None => get m x end).
Proof.
  revert m. induction other as [|e other IH]; intros m [HF HS] Hm; [by exists m|]. cbn [insert_map].
  apply Forall_cons in HF as [He HF]. inversion_clear HS as [|? ? HS' Heo].
  destruct (map_insert_ok e.1 e.2.1 e.2.2 m) as (m1&->&Hw1&Hg1); [done|by destruct e as [? []]|]. cbn [mbind option_bind].
  destruct (IH m1) as (m'&->&Hw'&Hg'); [by split|done|]. exists m'. split_and!; [done|done|]. intros x.
  rewrite Hg', Hg1. cbn [get]. fold (inside e.1 e.2.1 x). destruct (inside e.1 e.2.1 x) eqn:Ex; [|done].
  rewrite (get_none other x); [done|]. intros f Hf. rewrite Forall_forall in Heo. specialize (Heo f Hf).
  unfold ordered, covers, inside in *. zbool. lia.
Qed.

Lemma clip_ok o n e :
  good e -> 0 <= o -> 0 < n -> o + n < two64 -> e.1 < o + n -> o < fin e ->
  good (clip o n e) /\ (clip o n e).1 = Z.max o e.1 /\ fin (clip o n e) = Z.min (o + n) (fin e) /\
  (forall x, covers (clip o n e) x -> value_at (clip o n e).2.2 (x - (clip o n e).1) = value_at e.2.2 (x - e.1)).
Proof.
  destruct e as [a [l v]]. intros (?&?&?&Hl) ? ? ? ? ?. unfold clip, good, covers. cbn [fst snd] in *.
  rewrite (add64_small o n) by lia.
  destruct (a <? o) eqn:E1; zbool; cbv zeta; unwrap64.
  - replace (o + (l - (o - a))) with (a + l) by lia. destruct (o + n <? a + l) eqn:E2; zbool; unwrap64; cbn [fst snd].
    + replace (l - (o - a) - (a + l - (o + n))) with n by lia. split_and!; try lia.
      * rewrite !split_length; try lia. rewrite split_length; lia.
      * intros x ?. rewrite !value_split; try lia; [f_equal; lia|]. rewrite split_length; lia.
    + split_and!; try lia; [rewrite split_length; lia|]. intros x ?. rewrite value_split by lia. f_equal; lia.
  - destruct (o + n <? a + l) eqn:E2; zbool; unwrap64; cbn [fst snd].
    + replace (l - (a + l - (o + n))) with (o + n - a) by lia. split_and!; try lia.
      * rewrite split_length; lia.
      * intros x ?. rewrite value_split by lia. f_equal; lia.
    + split_and!; lia || done.
Qed.

Lemma intersect_ok o n m :
  wf m -> 0 <= o -> 0 < n -> o + n < two64 ->
  exists m', intersect o n m = Some m' /\ wf m' /\ (forall x, get m' x = if inside o n x then get m x else None).
Proof.
  intros Hm Ho Hn Hon. unfold intersect. destruct (get_range o n m) as [fst lst] eqn:Er.
  destruct (get_range_spec o n m fst lst) as (H1&H2&H3&H4&Hle); [done..|].
  set (r := drop fst (take lst m)).
  assert (forall e, e ∈ r -> e ∈ m /\ e.1 < o + n /\ o < fin e) as Hr.
  { intros e He. split_and!.
    - by eapply elem_of_take_in, elem_of_drop_in.
    - apply H3. by eapply elem_of_drop_in.
    - apply H2. subst r. rewrite skipn_firstn_comm in He. by eapply elem_of_take_in. }
  assert (wf r) as [HF HS] by (subst r; by apply wf_drop, wf_take).
  assert (wf (map (clip o n) r)) as Hw.
  { split.
    - apply Forall_forall. intros c. rewrite list_elem_of_In, in_map_iff. setoid_rewrite <- list_elem_of_In.
      intros (e&<-&He). destruct (Hr e He) as (Hem&?&?). apply clip_ok; try done. by eapply wf_good.
    - assert (Forall (fun e => good e /\ e.1 < o + n /\ o < fin e) r) as HFr.
      { apply Forall_forall. intros e He. destruct (Hr e He) as (Hem&?&?). split_and!; try done. by eapply wf_good. }
      clear Hr HF. subst r. induction HS as [|e r HS IH He]; [constructor|]. cbn [map].
      apply Forall_cons in HFr as [(Hg&?&?) HFr]. constructor; [by apply IH|]. apply Forall_forall. intros c.
      rewrite list_elem_of_In, in_map_iff. setoid_rewrite <- list_elem_of_In. intros (f&<-&Hf).
      rewrite Forall_forall in He, HFr. specialize (He f Hf). destruct (HFr f Hf) as (Hgf&?&?). unfold ordered in *.
      destruct (clip_ok o n e) as (_&_&->&_); [done..|]. destruct (clip_ok o n f) as (_&->&_&_); [done..|]. lia. }
  destruct (insert_map_ok (map (clip o n) r) []) as (m'&->&Hw'&Hg'); [done|by split; [|constructor]|].
  exists m'. split_and!; [done|done|]. intros x. rewrite Hg'. cbn [get].
  assert (forall e, e ∈ r -> e ∈ m) as Hsub by (intros e He; by apply Hr).
  replace (match get (map (clip o n) r) x with Some a => Some a | None => None end) with (get (map (clip o n) r) x)
    by by destruct (get _ x).
  destruct (inside o n x) eqn:Ex.
  - apply get_ext; [done|..].
    + intros c Hc Hcx. apply list_elem_of_In, in_map_iff in Hc as (e&<-&He%list_elem_of_In).
      destruct (Hr e He) as (Hem&?&?). destruct (clip_ok o n e) as (_&Hs&Hf&Hv); [exact (wf_good m e Hm Hem)|done..|].
      exists e. split; [done|]. rewrite Hv by done. unfold covers in *. split; [lia|done].
    + intros f Hf Hc. unfold covers, inside in *. zbool.
      assert (f ∈ r) as Hfr.
      { rewrite <- (take_drop lst m), <- (take_drop fst (take lst m)) in Hf. fold r in Hf.
        rewrite take_take, Nat.min_l in Hf by done. apply elem_of_app in Hf as [[Hf|Hf]%elem_of_app|Hf]; [|done|].
        - specialize (H1 f Hf). lia.
        - specialize (H4 f Hf). lia. }
      exists (clip o n f). split; [by apply list_elem_of_In, in_map, list_elem_of_In|].
      destruct (Hr f Hfr) as (Hem&?&?). destruct (clip_ok o n f) as (_&Hs&Hfi&_); [exact (wf_good m f Hm Hem)|done..|]. lia.
  - apply get_none. intros c Hc. apply list_elem_of_In, in_map_iff in Hc as (e&<-&He%list_elem_of_In).
    destruct (Hr e He) as (Hem&?&?). destruct (clip_ok o n e) as (_&Hs&Hf&_); [exact (wf_good m e Hm Hem)|done..|].
    unfold covers, inside in *. apply andb_false_iff in Ex. destruct Ex; zbool; lia.
Qed.
End Facts.
End IntervalMapFacts.

(** ** Maps of buffers

    [bl_split_merge] of osd/ExtentCache.h: values are buffers, neighbours are
    joined. *)
#[export] Instance bl_split_merge : SplitMerger (list Z) := {|
  split offset length bl := take (Z.to_nat length) (drop (Z.to_nat offset) bl);
  sm_length bl := Z.of_nat (List.length bl);
  can_merge _ _ := true;
  merge l r := l ++ r
|}.
#[export] Program Instance bl_split_merge_laws : SplitMergerLaws (list Z) (option Z) := {|
  value_at bl i := bl !! Z.to_nat i
|}.
Next Obligation. intros v o l ???. simpl in *. rewrite length_take, length_drop. lia. Qed.
Next Obligation.
  intros v o l i ???. simpl in *. rewrite lookup_take, lookup_drop. rewrite decide_True by lia. f_equal. lia.
Qed.
Next Obligation. intros a b _. simpl. rewrite length_app. lia. Qed.
Next Obligation.
  intros a b i _ ?. simpl in *. case_match; zbool; [apply lookup_app_l; lia|]. rewrite lookup_app_r by lia. f_equal. lia.
Qed.

Module IntervalMapTheorems.
Import IntervalMap IntervalMapFacts.

(** An [interval_map] refines a partial function from positions to values,
    whatever the values are as long as cutting and joining them moves no
    element: [insert] overwrites exactly the positions of its range, [erase]
    undefines exactly those, [intersect] restricts to them, and inserting a
    whole map overwrites what it defines.  No assertion fails and the
    elements stay ordered, disjoint and of their stated length, whichever
    elements are cut or merged. *)
Theorem interval_map_refines {V A} `{!SplitMerger V} `{!SplitMergerLaws V A} (m other : list (Z * (Z * V))) o n v
    (Hm : wf m) (Hother : wf other) (Ho : 0 <= o) (Hn : 0 < n) (Hon : o + n < two64) (Hv : sm_length v = n) :
  (exists m', insert o n v m = Some m' /\ wf m' /\
     forall x, get m' x = if inside o n x then Some (value_at v (x - o)) else get m x) /\
  (wf (erase o n m) /\ forall x, get (erase o n m) x = if inside o n x then None else get m x) /\
  (exists m', intersect o n m = Some m' /\ wf m' /\ forall x, get m' x = if inside o n x then get m x else None) /\
  (exists m', insert_map other m = Some m' /\ wf m' /\
     forall x, get m' x = match get other x with Some a => Some a | None => get m x end).
Proof.
  split_and!.
  - by apply map_insert_ok.
  - by destruct (erase_ok o n Ho Hn Hon m Hm) as (?&_&?).
  - by apply erase_ok.
  - by apply intersect_ok.
  - by apply insert_map_ok.
Qed.
Definition sample : list (Z * (Z * list Z)) := [(2, (4, [1; 2; 3; 4])); (8, (2, [5; 6]))].
Lemma interval_map_refines_witness :
  (exists m', insert 4 3 [7; 8; 9] sample = Some m' /\ wf m' /\
     forall x, get m' x = if inside 4 3 x then Some (value_at [7; 8; 9] (x - 4)) else get sample x) /\
  (wf (erase 4 3 sample) /\ forall x, get (erase 4 3 sample) x = if inside 4 3 x then None else get sample x) /\
  (exists m', intersect 4 3 sample = Some m' /\ wf m' /\ forall x, get m' x = if inside 4 3 x then get sample x else None) /\
  (exists m', insert_map sample sample = Some m' /\ wf m' /\
     forall x, get m' x = match get sample x with Some a => Some a | None => get sample x end).
Proof.
  assert (wf sample) by (split; repeat constructor; vm_compute; done).
  apply (interval_map_refines sample sample 4 3 [7; 8; 9]); [done|done|lia|lia|lia|reflexivity].
Defined.

Example insert_overwrites : insert 4 3 [7; 8; 9] sample = Some [(2, (5, [1; 2; 7; 8; 9])); (8, (2, [5; 6]))].
Proof. reflexivity. Qed.

(** An empty intersection inside an element fails the assertion of [insert]. *)
Example intersect_empty_aborts : intersect 3 0 sample = None.
Proof. reflexivity. Qed.
End IntervalMapTheorems.
