(* ===== verification/PgTransaction.v ===== *)
(** Transactions of a placement group, src/ceph-15.2.17/src/osd/PGTransaction.h, and
    the operations on the object store they stand for, [generate_transaction] of
    src/ceph-15.2.17/src/osd/ReplicatedBackend.cc.  Data and attributes of objects;
    omap, hints and [clone_range], which has no caller, are left out.  So is [rename]:
    [Init] has no [Rename] here, and [remove] not the assertion that the object is not
    the target of one; only the end of a copy, which is not modelled, renames. *)
From stdpp Require Import strings.
From S2P Require Import Prelude IntervalMap.
#[local] Open Scope Z_scope.

(** ** The contents of an object *)

Module ObjectData.
Abbreviation bytes := (list Z).
Definition zlen (c : bytes) : Z := Z.of_nat (List.length c).
(** The byte at a position, zero beyond the end. *)
Definition byte (c : bytes) (x : Z) : Z := if x <? 0 then 0 else default 0 (c !! Z.to_nat x).
Definition zeros (n : Z) : bytes := replicate (Z.to_nat n) 0.

Definition truncate (n : Z) (c : bytes) : bytes := take (Z.to_nat n) c ++ zeros (n - zlen c).
Definition write (off : Z) (bl c : bytes) : bytes :=
  take (Z.to_nat off) (c ++ zeros (off - zlen c)) ++ bl ++ drop (Z.to_nat off + List.length bl) c.
Definition zero (off len : Z) (c : bytes) : bytes := if len =? 0 then c else write off (zeros len) c.

Record object := mk_object { data : bytes; attrs : gmap string bytes }.
Definition empty_object : object := mk_object [] ∅.
End ObjectData.

(** ** The object store

    What os/Transaction.h documents of the operations used here: [create] of an
    object that exists is undefined, and so are the operations that modify one
    that does not. *)

Module StoreOps.
Import ObjectData.
Section Store.
Context {Oid : Type} `{Countable Oid}.

Inductive store_op :=
| S_remove (o : Oid)
| S_create (o : Oid)
| S_touch (o : Oid)
| S_clone (src dst : Oid)
| S_truncate (o : Oid) (n : Z)
| S_rmattr (o : Oid) (k : string)
| S_setattrs (o : Oid) (a : gmap string bytes)
| S_write (o : Oid) (off : Z) (bl : bytes)
| S_zero (o : Oid) (off len : Z).

Definition on_data (f : bytes -> bytes) (o : Oid) (s : gmap Oid object) : option (gmap Oid object) :=
  x ← s !! o; Some (<[o := mk_object (f (data x)) (attrs x)]> s).
Definition on_attrs (f : gmap string bytes -> gmap string bytes) (o : Oid) (s : gmap Oid object) : option (gmap Oid object) :=
  x ← s !! o; Some (<[o := mk_object (data x) (f (attrs x))]> s).

Definition apply_op (p : store_op) (s : gmap Oid object) : option (gmap Oid object) :=
  match p with
  | S_remove o => _ ← s !! o; Some (delete o s)
  | S_create o => match s !! o with Some _ => None | None => Some (<[o := empty_object]> s) end
  | S_touch o => match s !! o with Some _ => Some s | None => Some (<[o := empty_object]> s) end
  | S_clone src dst => x ← s !! src; Some (<[dst := x]> s)
  | S_truncate o n => on_data (truncate n) o s
  | S_rmattr o k => on_attrs (delete k) o s
  | S_setattrs o a => on_attrs (fun b => a ∪ b) o s
  | S_write o off bl => on_data (write off bl) o s
  | S_zero o off len => on_data (zero off len) o s
  end.
Fixpoint apply_ops (ps : list store_op) (s : gmap Oid object) : option (gmap Oid object) :=
  match ps with
  | [] => Some s
  | p :: ps => s ← apply_op p s; apply_ops ps s
  end.
End Store.
Arguments store_op : clear implicits.
Abbreviation store O := (gmap O object).
End StoreOps.

Module PGTransaction.
Import ObjectData StoreOps.

(** [BufferUpdate]: pieces of an object to write or to zero. *)
Inductive BufferUpdate :=
| Write (buffer : bytes) (fadvise_flags : Z)
| Zero (len : Z).

(** [SplitMerger] of [ObjectOperation]. *)
#[export] Instance update_split_merge : SplitMerger BufferUpdate := {|
  split offset len bu :=
    match bu with
    | Write b f => Write (take (Z.to_nat len) (drop (Z.to_nat offset) b)) f
    | Zero _ => Zero len
    end;
  sm_length bu := match bu with Write b _ => zlen b | Zero n => n end;
  can_merge l r :=
    match l, r with
    | Write _ f, Write _ g => f =? g
    | Zero _, Zero _ => true
    | _, _ => false
    end;
  merge l r :=
    match l, r with
    | Write a f, Write b _ => Write (a ++ b) f
    | Zero a, Zero b => Zero (a + b)
    | _, _ => l
    end
|}.

Section Transaction.
Context {Oid : Type} `{Countable Oid}.

Inductive InitType := None_ | Create | Clone (source : Oid).

Record ObjectOperation := {
  init_type : InitType;
  delete_first : bool;
  truncate_to : option (Z * Z);
  attr_updates : gmap string (option bytes);
  updated_snaps : option (list Z * list Z);
  buffer_updates : list (Z * (Z * BufferUpdate))
}.
Definition fresh : ObjectOperation := {|
  init_type := None_; delete_first := false; truncate_to := None; attr_updates := ∅; updated_snaps := None;
  buffer_updates := []
|}.

Definition init_none (op : ObjectOperation) : bool := match init_type op with None_ => true | _ => false end.
Definition is_delete (op : ObjectOperation) : bool := init_none op && delete_first op.
Definition is_none (op : ObjectOperation) : bool := init_none op && negb (delete_first op).
Definition is_fresh_object (op : ObjectOperation) : bool := negb (init_none op).
Definition has_source (op : ObjectOperation) : option Oid := match init_type op with Clone s => Some s | _ => None end.

Definition set_init (i : InitType) (op : ObjectOperation) : ObjectOperation := {|
  init_type := i; delete_first := delete_first op; truncate_to := truncate_to op; attr_updates := attr_updates op;
  updated_snaps := updated_snaps op; buffer_updates := buffer_updates op |}.
Definition set_truncate (p : Z * Z) (op : ObjectOperation) : ObjectOperation := {|
  init_type := init_type op; delete_first := delete_first op; truncate_to := Some p; attr_updates := attr_updates op;
  updated_snaps := updated_snaps op; buffer_updates := buffer_updates op |}.
Definition set_updates (b : list (Z * (Z * BufferUpdate))) (op : ObjectOperation) : ObjectOperation := {|
  init_type := init_type op; delete_first := delete_first op; truncate_to := truncate_to op; attr_updates := attr_updates op;
  updated_snaps := updated_snaps op; buffer_updates := b |}.
Definition set_attrs (a : gmap string (option bytes)) (op : ObjectOperation) : ObjectOperation := {|
  init_type := init_type op; delete_first := delete_first op; truncate_to := truncate_to op; attr_updates := a;
  updated_snaps := updated_snaps op; buffer_updates := buffer_updates op |}.
Definition set_snaps (u : list Z * list Z) (op : ObjectOperation) : ObjectOperation := {|
  init_type := init_type op; delete_first := delete_first op; truncate_to := truncate_to op; attr_updates := attr_updates op;
  updated_snaps := Some u; buffer_updates := buffer_updates op |}.
Definition deletion : ObjectOperation := {|
  init_type := None_; delete_first := true; truncate_to := None; attr_updates := ∅; updated_snaps := None;
  buffer_updates := []
|}.

(** [op_map] is a map from objects; [operator[]] makes a default entry. *)
Definition at_ (t : gmap Oid ObjectOperation) (o : Oid) : ObjectOperation := default fresh (t !! o).
Definition get_object_op_for_modify (t : gmap Oid ObjectOperation) (o : Oid) : option ObjectOperation :=
  ceph_assert (negb (is_delete (at_ t o))) ;; Some (at_ t o).

Definition create (o : Oid) (t : gmap Oid ObjectOperation) : option (gmap Oid ObjectOperation) :=
  ceph_assert (is_none (at_ t o) || is_delete (at_ t o)) ;;
  Some (<[o := set_init Create (at_ t o)]> t).
Definition clone (target source : Oid) (t : gmap Oid ObjectOperation) : option (gmap Oid ObjectOperation) :=
  ceph_assert (is_none (at_ t target) || is_delete (at_ t target)) ;;
  Some (<[target := set_init (Clone source) (at_ t target)]> t).
Definition remove (o : Oid) (t : gmap Oid ObjectOperation) : option (gmap Oid ObjectOperation) :=
  op ← get_object_op_for_modify t o;
  if negb (is_fresh_object op) then
    ceph_assert (bool_decide (updated_snaps op = None)) ;;
    Some (<[o := deletion]> t)
  else Some (delete o t).
Definition update_snaps (o : Oid) (old_snaps new_snaps : list Z) (t : gmap Oid ObjectOperation) : option (gmap Oid ObjectOperation) :=
  let op := at_ t o in
  ceph_assert (bool_decide (updated_snaps op = None)) ;;
  ceph_assert (IntervalMap.empty (buffer_updates op)) ;;
  ceph_assert (bool_decide (truncate_to op = None)) ;;
  Some (<[o := set_snaps (old_snaps, new_snaps) op]> t).
Definition truncate (o : Oid) (off : Z) (t : gmap Oid ObjectOperation) : option (gmap Oid ObjectOperation) :=
  op ← get_object_op_for_modify t o;
  ceph_assert (bool_decide (updated_snaps op = None)) ;;
  let op := set_updates (IntervalMap.erase off (two64 - 1 - off) (buffer_updates op)) op in
  let p := match truncate_to op with
           | None => (off, off)
           | Some (first, second) => if off <? first then (off, off) else (first, off)
           end in
  Some (<[o := set_truncate p op]> t).
Definition setattr (o : Oid) (k : string) (v : bytes) (t : gmap Oid ObjectOperation) : option (gmap Oid ObjectOperation) :=
  op ← get_object_op_for_modify t o; Some (<[o := set_attrs (<[k := Some v]> (attr_updates op)) op]> t).
Definition rmattr (o : Oid) (k : string) (t : gmap Oid ObjectOperation) : option (gmap Oid ObjectOperation) :=
  op ← get_object_op_for_modify t o; Some (<[o := set_attrs (<[k := None]> (attr_updates op)) op]> t).
Definition write (o : Oid) (off : Z) (bl : bytes) (flags : Z) (t : gmap Oid ObjectOperation) : option (gmap Oid ObjectOperation) :=
  op ← get_object_op_for_modify t o;
  ceph_assert (bool_decide (updated_snaps op = None)) ;;
  ceph_assert (0 <? zlen bl) ;;
  b ← IntervalMap.insert off (zlen bl) (Write bl flags) (buffer_updates op);
  Some (<[o := set_updates b op]> t).
Definition zero (o : Oid) (off len : Z) (t : gmap Oid ObjectOperation) : option (gmap Oid ObjectOperation) :=
  op ← get_object_op_for_modify t o;
  ceph_assert (bool_decide (updated_snaps op = None)) ;;
  b ← IntervalMap.insert off len (Zero len) (buffer_updates op);
  Some (<[o := set_updates b op]> t).
Definition nop (o : Oid) (t : gmap Oid ObjectOperation) : option (gmap Oid ObjectOperation) :=
  op ← get_object_op_for_modify t o; Some (<[o := op]> t).
Definition empty (t : gmap Oid ObjectOperation) : bool := bool_decide (t = ∅).

(** *** [safe_create_traverse]

    [objs] is the map in its own order; the stack begins with the roots, and
    [dgraph] holds, per source, the objects made from it. *)
Fixpoint graph_of (t : gmap Oid ObjectOperation) (objs : list Oid) (g : gmap Oid (list Oid)) (stack : list Oid) : gmap Oid (list Oid) * list Oid :=
  match objs with
  | [] => (g, stack)
  | o :: objs =>
    match has_source (at_ t o) with
    | Some s =>
      let l := default [] (g !! s) in
      let stack := if bool_decide (l = []) && bool_decide (t !! s = None) then stack ++ [s] else stack in
      graph_of t objs (<[s := l ++ [o]]> g) stack
    | None => graph_of t objs g (stack ++ [o])
    end
  end.
Fixpoint traverse (fuel : nat) (t : gmap Oid ObjectOperation) (g : gmap Oid (list Oid)) (stack order : list Oid) : option (list Oid) :=
  match stack with
  | [] => Some order
  | cur :: rest =>
    match fuel with
    | O => None
    | S fuel =>
      match g !! cur with
      | None => traverse fuel t g rest (if bool_decide (is_Some (t !! cur)) then order ++ [cur] else order)
      | Some l =>
        ceph_assert (negb (bool_decide (l = []))) ;;
        traverse fuel t (delete cur g) (l ++ stack) order
      end
    end
  end.
Definition safe_create_traverse (t : gmap Oid ObjectOperation) (objs : list Oid) : option (list Oid) :=
  let '(g, stack) := graph_of t objs ∅ [] in
  traverse (2 + 4 * List.length objs) t g stack [].

(** *** [generate_transaction] *)

Definition store_updates (o : Oid) (e : Z * (Z * BufferUpdate)) : store_op Oid :=
  match e.2.2 with
  | Write bl _ => S_write o e.1 bl
  | Zero _ => S_zero o e.1 e.2.1
  end.
Definition store_attrs (o : Oid) (a : gmap string (option bytes)) : list (store_op Oid) :=
  if bool_decide (a = ∅) then []
  else map (fun kv => S_rmattr o kv.1) (List.filter (fun kv => bool_decide (kv.2 = None)) (map_to_list a)) ++
       [S_setattrs o (omap (fun v => v) a)].
Definition store_ops (octopus : bool) (o : Oid) (op : ObjectOperation) : list (store_op Oid) :=
  (if delete_first op then [S_remove o] else []) ++
  match init_type op with
  | None_ => []
  | Create => if octopus then [S_create o] else [S_touch o]
  | Clone s => [S_clone s o]
  end ++
  match truncate_to op with
  | None => []
  | Some (first, second) => S_truncate o first :: if first =? second then [] else [S_truncate o second]
  end ++
  store_attrs o (attr_updates op) ++
  map (store_updates o) (buffer_updates op).
Definition generate_transaction (octopus : bool) (t : gmap Oid ObjectOperation) (objs : list Oid) : option (list (store_op Oid)) :=
  order ← safe_create_traverse t objs;
  Some (flat_map (fun o => store_ops octopus o (at_ t o)) order).
End Transaction.
Arguments InitType : clear implicits.
Arguments ObjectOperation : clear implicits.
Abbreviation op_map O := (gmap O (ObjectOperation O)).
End PGTransaction.
