(* ===== verification/PgTransactionFacts.v ===== *)
(** Facts on placement-group transactions: the bytes of an object after each
    operation, what the operation collected for an object means ([denote]), and
    that every call of the transaction interface changes that meaning as the
    call says. *)
From stdpp Require Import strings.
From S2P Require Import Prelude IntervalMap PgTransaction.
#[local] Open Scope Z_scope.

Module DataFacts.
Import ObjectData.

Lemma byte_lookup c x : 0 <= x -> byte c x = default 0 (c !! Z.to_nat x).
Proof. intros. unfold byte. by rewrite (proj2 (Z.ltb_ge _ _)) by lia. Qed.
Lemma byte_neg c x : x < 0 -> byte c x = 0.
Proof. intros. unfold byte. by rewrite (proj2 (Z.ltb_lt _ _)) by lia. Qed.
Lemma zlen_nonneg c : 0 <= zlen c.
Proof. unfold zlen. lia. Qed.
Lemma byte_beyond c x : zlen c <= x -> byte c x = 0.
Proof.
  intros. pose proof (zlen_nonneg c). rewrite byte_lookup by lia. unfold zlen in *. rewrite lookup_ge_None_2 by lia. done.
Qed.
Lemma zlen_zeros n : 0 <= n -> zlen (zeros n) = n.
Proof. intros. unfold zlen, zeros. rewrite length_replicate. lia. Qed.
Lemma byte_zeros n x : byte (zeros n) x = 0.
Proof.
  destruct (Z.lt_ge_cases x 0); [by apply byte_neg|]. rewrite byte_lookup by lia. unfold zeros.
  destruct (replicate _ _ !! _) eqn:E; [|done]. by apply lookup_replicate in E as [-> _].
Qed.
Lemma byte_app a b x : byte (a ++ b) x = if x <? zlen a then byte a x else byte b (x - zlen a).
Proof.
  pose proof (zlen_nonneg a). destruct (Z.lt_ge_cases x 0).
  { rewrite !byte_neg by lia. by rewrite (proj2 (Z.ltb_lt _ _)) by lia. }
  destruct (x <? zlen a) eqn:E; zbool; rewrite !byte_lookup by lia; unfold zlen in *.
  - rewrite lookup_app_l by lia. done.
  - rewrite lookup_app_r by lia. do 2 f_equal. lia.
Qed.
Lemma byte_take n c x : 0 <= n -> byte (take (Z.to_nat n) c) x = if x <? n then byte c x else 0.
Proof.
  intros. destruct (Z.lt_ge_cases x 0); [rewrite !byte_neg by lia; by case_match|].
  destruct (x <? n) eqn:E; zbool; rewrite !byte_lookup by lia.
  - rewrite lookup_take, decide_True by lia. done.
  - rewrite lookup_take, decide_False by lia. done.
Qed.
Lemma byte_drop (n : nat) c x : 0 <= x -> byte (drop n c) x = byte c (x + Z.of_nat n).
Proof.
  intros. rewrite !byte_lookup by lia. rewrite lookup_drop. do 2 f_equal. lia.
Qed.
Lemma zlen_app a b : zlen (a ++ b) = zlen a + zlen b.
Proof. unfold zlen. rewrite length_app. lia. Qed.

Lemma bytes_ext a b : zlen a = zlen b -> (forall x, 0 <= x < zlen a -> byte a x = byte b x) -> a = b.
Proof.
  unfold zlen. intros Hl Hx. apply list_eq_same_length with (n := List.length a); [lia|lia|].
  intros i x y Hi Ha Hb. specialize (Hx (Z.of_nat i) ltac:(lia)). rewrite !byte_lookup, Nat2Z.id, Ha, Hb in Hx by lia. done.
Qed.

Lemma zlen_truncate n c : 0 <= n -> zlen (truncate n c) = n.
Proof.
  intros. unfold truncate. rewrite zlen_app. unfold zlen, zeros. rewrite length_take, length_replicate. lia.
Qed.
Lemma byte_truncate n c x : 0 <= n -> byte (truncate n c) x = if x <? n then byte c x else 0.
Proof.
  intros. unfold truncate. rewrite byte_app, byte_take, byte_zeros by lia. pose proof (zlen_nonneg c).
  assert (zlen (take (Z.to_nat n) c) = Z.min n (zlen c)) as -> by (unfold zlen; rewrite length_take; lia).
  repeat case_match; zbool; try lia; try done. rewrite byte_beyond by lia. done.
Qed.

Lemma zlen_write off bl c : 0 <= off -> 0 < zlen bl -> zlen (write off bl c) = Z.max (zlen c) (off + zlen bl).
Proof.
  intros. unfold write. rewrite !zlen_app. unfold zlen, zeros in *.
  rewrite length_take, length_app, length_replicate, length_drop. lia.
Qed.
Lemma byte_write off bl c x : 0 <= off ->
  byte (write off bl c) x = if (off <=? x) && (x <? off + zlen bl) then byte bl (x - off) else byte c x.
Proof.
  intros. unfold write. pose proof (zlen_nonneg c). pose proof (zlen_nonneg bl). rewrite !byte_app, byte_take by lia.
  assert (zlen (take (Z.to_nat off) (c ++ zeros (off - zlen c))) = off) as ->.
  { unfold zlen, zeros. rewrite length_take, length_app, length_replicate. unfold zlen. lia. }
  rewrite byte_app, byte_zeros. destruct (x <? off) eqn:E1; zbool.
  - rewrite (proj2 (Z.leb_gt _ _)) by lia. cbn [andb]. case_match; zbool; [done|]. by rewrite byte_beyond by lia.
  - rewrite (proj2 (Z.leb_le _ _)) by lia. cbn [andb]. destruct (x - off <? zlen bl) eqn:E2; zbool.
    + by rewrite (proj2 (Z.ltb_lt _ _)) by lia.
    + rewrite (proj2 (Z.ltb_ge x _)) by lia. rewrite byte_drop by lia. f_equal. unfold zlen in *. lia.
Qed.
End DataFacts.

Module UpdateFacts.
Import ObjectData DataFacts PGTransaction IntervalMapFacts.

Definition update_at (bu : BufferUpdate) (i : Z) : Z := match bu with Write b _ => byte b i | Zero _ => 0 end.
#[export] Program Instance update_laws : SplitMergerLaws BufferUpdate Z := {| value_at := update_at |}.
Next Obligation.
  intros [b f|n] o l ???; simpl in *; [|done]. unfold zlen in *. rewrite length_take, length_drop. lia.
Qed.
Next Obligation.
  intros [b f|n] o l i ???; simpl in *; [|done]. rewrite byte_take by lia. rewrite (proj2 (Z.ltb_lt _ _)) by lia.
  rewrite byte_drop by lia. f_equal. lia.
Qed.
Next Obligation. intros [a f|n] [b g|k] E; simpl in *; try done. by rewrite zlen_app. Qed.
Next Obligation.
  intros [a f|n] [b g|k] i E ?; simpl in *; try done; [apply byte_app|by case_match].
Qed.

Abbreviation updates := (list (Z * (Z * BufferUpdate))).
Abbreviation fin e := (e.1 + e.2.1).

(** The writes of an operation, in order of offset. *)
Definition apply_update (e : Z * (Z * BufferUpdate)) (c : bytes) : bytes :=
  match e.2.2 with
  | Write bl _ => ObjectData.write e.1 bl c
  | Zero _ => ObjectData.zero e.1 e.2.1 c
  end.
Definition apply_updates (b : updates) (c : bytes) : bytes := foldl (fun c e => apply_update e c) c b.
Definition top (b : updates) : Z := foldr (fun e s => Z.max (fin e) s) 0 b.

Lemma apply_update_ok e c : good e ->
  zlen (apply_update e c) = Z.max (zlen c) (fin e) /\
  (forall x, byte (apply_update e c) x = if inside e.1 e.2.1 x then update_at e.2.2 (x - e.1) else byte c x).
Proof.
  intros (?&?&?&Hl). unfold apply_update, inside. destruct e as [o [n [bl f|k]]]; simpl in *.
  - subst n. split; [apply zlen_write; lia|]. intros x. by rewrite byte_write by lia.
  - subst k. unfold ObjectData.zero. rewrite (proj2 (Z.eqb_neq n 0)) by lia. split.
    + rewrite zlen_write; rewrite ?zlen_zeros; lia.
    + intros x. rewrite byte_write, zlen_zeros, byte_zeros by lia. done.
Qed.
Lemma apply_updates_ok b c : wf b ->
  zlen (apply_updates b c) = Z.max (zlen c) (top b) /\
  (forall x, byte (apply_updates b c) x = match get b x with Some v => v | None => byte c x end).
Proof.
  revert c. induction b as [|e b IH]; intros c [HF HS]; [pose proof (zlen_nonneg c); simpl; split; [lia|done]|].
  apply Forall_cons in HF as [He HF]. inversion_clear HS as [|? ? HS' Heb].
  destruct (apply_update_ok e c He) as [Hl Hb]. destruct (IH (apply_update e c) (conj HF HS')) as [Hl' Hb'].
  unfold apply_updates in *. cbn [foldl top foldr get]. fold (top b). split; [lia|]. intros x. rewrite Hb', Hb.
  fold (inside e.1 e.2.1 x). destruct (inside e.1 e.2.1 x) eqn:Ex; [|done].
  rewrite (get_none b x); [done|]. intros f Hf. rewrite Forall_forall in Heb. specialize (Heb f Hf).
  unfold ordered, covers, inside in *. zbool. lia.
Qed.

Lemma top_ge b x : is_Some (get b x) -> x < top b.
Proof.
  intros [a Ha]. destruct (get_in b x a Ha) as (e&He&[_ Hc]&_). clear Ha.
  induction b as [|f b IH]; [set_solver|]. unfold top in *. cbn [foldr]. apply elem_of_cons in He as [->|He]; [lia|].
  specialize (IH He). lia.
Qed.
Lemma top_le b k : wf b -> 0 <= k -> (forall x, k <= x -> get b x = None) -> top b <= k.
Proof.
  intros Hb Hk Hx. assert (forall e, e ∈ b -> fin e <= k) as He.
  { intros e He. pose proof (wf_good b e Hb He) as (?&?&?&?). destruct (Z.le_gt_cases (fin e) k); [done|].
    specialize (Hx (fin e - 1) ltac:(lia)). rewrite (in_get b (fin e - 1) e) in Hx; [done..|unfold covers; lia]. }
  clear Hx Hb. induction b as [|e b IH]; [done|]. unfold top in *. cbn [foldr].
  pose proof (He e ltac:(set_solver)). specialize (IH ltac:(set_solver)). lia.
Qed.
Lemma top_nonneg b : 0 <= top b.
Proof. induction b as [|e b IH]; [done|]. unfold top in *. cbn [foldr]. lia. Qed.
Lemma top_none b x : top b <= x -> get b x = None.
Proof. intros. destruct (get b x) eqn:E; [|done]. pose proof (top_ge b x ltac:(by rewrite E)). lia. Qed.

Lemma top_insert b b' o n (v : Z -> Z) : wf b -> wf b' -> 0 <= o -> 0 < n ->
  (forall x, get b' x = if inside o n x then Some (v x) else get b x) -> top b' = Z.max (top b) (o + n).
Proof.
  intros Hb Hb' Ho Hn Hg. pose proof (top_nonneg b). apply Z.le_antisymm.
  - apply top_le; [done|lia|]. intros x ?. rewrite Hg. unfold inside. rewrite (proj2 (Z.ltb_ge x _)), andb_false_r by lia.
    apply top_none. lia.
  - apply Z.max_lub.
    + apply top_le; [done|apply top_nonneg|]. intros x ?. pose proof (top_none b' x ltac:(done)) as Hx. rewrite Hg in Hx.
      by case_match.
    + assert (o + n - 1 < top b'); [|lia]. apply top_ge. rewrite Hg. unfold inside.
      rewrite (proj2 (Z.leb_le _ _)), (proj2 (Z.ltb_lt _ _)) by lia. eauto.
Qed.
End UpdateFacts.

Module TransFacts.
Import ObjectData DataFacts StoreOps PGTransaction UpdateFacts.
Import IntervalMapFacts.

Definition cut (p : option (Z * Z)) (c : bytes) : bytes :=
  match p with
  | None => c
  | Some (f, s) => let c := ObjectData.truncate f c in if f =? s then c else ObjectData.truncate s c
  end.
Definition patch (a : gmap string (option bytes)) (b : gmap string bytes) : gmap string bytes :=
  stdpp.base.merge (fun new old => match new with Some v => v | None => old end) a b.
Definition cut_ok (p : option (Z * Z)) : Prop := match p with None => True | Some (f, s) => 0 <= f <= s end.

Lemma byte_cut p c x : cut_ok p ->
  byte (cut p c) x = match p with None => byte c x | Some (f, _) => if x <? f then byte c x else 0 end.
Proof.
  destruct p as [[f s]|]; [|done]. cbn. intros [? ?]. case_match; zbool; [by rewrite byte_truncate by lia|].
  rewrite !byte_truncate by lia. repeat case_match; zbool; try lia; done.
Qed.
Lemma zlen_cut f s c : 0 <= f <= s -> zlen (cut (Some (f, s)) c) = s.
Proof. intros. cbn. case_match; zbool; [subst|]; rewrite zlen_truncate; lia. Qed.

(** The interface changes the contents as the call says. *)
Lemma truncate_data b p c n :
  wf b -> cut_ok p -> 0 <= n < two64 - 1 ->
  let p' := match p with None => (n, n) | Some (f, s) => if n <? f then (n, n) else (f, n) end in
  let b' := IntervalMap.erase n (two64 - 1 - n) b in
  wf b' /\ cut_ok (Some p') /\
  apply_updates b' (cut (Some p') c) = ObjectData.truncate n (apply_updates b (cut p c)).
Proof.
  intros Hb Hp Hn p' b'. destruct (erase_ok n (two64 - 1 - n)) with (m := b) as (Hw&_&Hg); [lia|lia|lia|done|]. fold b' in Hw, Hg.
  assert (exists f', p' = (f', n) /\ 0 <= f' <= n /\ match p with None => f' = n | Some (f, s) => f' = Z.min n f end) as (f'&Ep&Hf&Hf').
  { subst p'. destruct p as [[f s]|]; [|exists n; split_and!; lia || done]. cbn in Hp.
    destruct (n <? f) eqn:E; zbool; eexists; split_and!; (done || lia). }
  rewrite Ep. split; [exact Hw|]. split; [exact Hf|].
  destruct (apply_updates_ok b' (cut (Some (f', n)) c) Hw) as [Hl1 Hb1].
  destruct (apply_updates_ok b (cut p c) Hb) as [_ Hb2].
  assert (top b' <= n) as Htop.
  { apply top_le; [done|lia|]. intros x ?. rewrite Hg. unfold inside. rewrite (proj2 (Z.leb_le _ _)) by lia. cbn [andb].
    destruct (x <? n + (two64 - 1 - n)) eqn:Elt; [done|]. zbool. destruct (get b x) eqn:Ex; [|done]. destruct (get_in _ _ _ Ex) as (e&He&[_ Hc]&_).
    destruct (wf_good b e Hb He) as (?&?&?&?). lia. }
  rewrite zlen_cut in Hl1 by lia. apply bytes_ext; [rewrite Hl1, zlen_truncate; lia|]. rewrite Hl1. intros x Hx.
  rewrite Hb1, byte_truncate, (proj2 (Z.ltb_lt x n)), Hb2, Hg by lia. unfold inside.
  rewrite (proj2 (Z.leb_gt _ _)) by lia. cbn [andb]. destruct (get b x); [done|]. rewrite !byte_cut by done.
  destruct p as [[f s]|]; [|subst f'; rewrite (proj2 (Z.ltb_lt _ _)) by lia; done].
  subst f'. destruct (x <? Z.min n f) eqn:E1, (x <? f) eqn:E2; zbool; try lia; done.
Qed.
Lemma insert_data b c o n v (w : bytes) :
  wf b -> good (o, (n, v)) -> zlen w = n -> (forall i, update_at v i = byte w i) ->
  exists b', IntervalMap.insert o n v b = Some b' /\ wf b' /\ apply_updates b' c = ObjectData.write o w (apply_updates b c).
Proof.
  intros Hb Hg Hw Hv. pose proof Hg as (?&?&?&?). cbn [fst snd] in *.
  destruct (map_insert_ok o n v b Hb Hg) as (b'&Hi&Hb'&Hget). exists b'. split_and!; [done|done|].
  destruct (apply_updates_ok b' c Hb') as [Hl1 Hb1]. destruct (apply_updates_ok b c Hb) as [Hl2 Hb2].
  assert (top b' = Z.max (top b) (o + n)) as Ht by (eapply (top_insert b b' o n); [done|done|lia|lia|exact Hget]).
  apply bytes_ext; [rewrite Hl1, zlen_write, Hl2; lia|]. intros x _.
  rewrite Hb1, byte_write, Hget, Hb2, Hw by lia. fold (inside o n x). destruct (inside o n x); [apply Hv|done].
Qed.

Section Facts.
Context {Oid : Type} `{Countable Oid}.
Context (s0 : store Oid).
Abbreviation ObjectOperation := (PGTransaction.ObjectOperation Oid).

(** ** The meaning of an operation *)

Definition base_of (o : Oid) (op : ObjectOperation) : option object :=
  match init_type op with
  | None_ => if delete_first op then None else s0 !! o
  | Create => Some empty_object
  | Clone s => s0 !! s
  end.
Definition denote (o : Oid) (op : ObjectOperation) : option object :=
  x ← base_of o op;
  Some (mk_object (apply_updates (buffer_updates op) (cut (truncate_to op) (data x))) (patch (attr_updates op) (attrs x))).

Record op_ok (o : Oid) (op : ObjectOperation) : Prop := {
  ok_updates : wf (buffer_updates op);
  ok_cut : cut_ok (truncate_to op);
  ok_snaps : updated_snaps op = None;
  ok_delete : delete_first op = true -> is_Some (s0 !! o);
  ok_create : is_fresh_object op = true -> delete_first op = true \/ s0 !! o = None;
  ok_clone : forall s, init_type op = Clone s -> is_Some (s0 !! s);
  ok_deleted : is_delete op = true -> op = deletion;
  ok_absent : is_none op = true -> s0 !! o = None -> op = fresh
}.

Lemma patch_empty b : patch ∅ b = b.
Proof. apply map_eq. intros k. unfold patch. rewrite lookup_merge, lookup_empty. by destruct (b !! k). Qed.
Lemma patch_set a b k v : patch (<[k := Some v]> a) b = <[k := v]> (patch a b).
Proof.
  apply map_eq. intros j. unfold patch. destruct (decide (k = j)) as [->|?].
  - rewrite lookup_merge, !lookup_insert_eq. by destruct (b !! j).
  - rewrite lookup_merge, !lookup_insert_ne, lookup_merge by done. done.
Qed.
Lemma patch_rm a b k : patch (<[k := None]> a) b = delete k (patch a b).
Proof.
  apply map_eq. intros j. unfold patch. destruct (decide (k = j)) as [->|?].
  - rewrite lookup_merge, lookup_insert_eq, lookup_delete_eq. by destruct (b !! j).
  - rewrite lookup_merge, lookup_insert_ne, lookup_delete_ne, lookup_merge by done. done.
Qed.

Lemma fresh_ok o : op_ok o fresh.
Proof. split; try done. by split; [|constructor]. Qed.
Lemma denote_fresh o : denote o fresh = s0 !! o.
Proof.
  unfold denote, base_of. cbn. destruct (s0 !! o) as [[d a]|]; [|done]. cbn. by rewrite patch_empty.
Qed.
Lemma deletion_ok o : is_Some (s0 !! o) -> op_ok o deletion.
Proof. intros. split; try done. by split; [|constructor]. Qed.
Lemma denote_some o op x : denote o op = Some x -> is_delete op = false.
Proof. unfold denote, base_of, is_delete, init_none. destruct (init_type op); [|done..]. by destruct (delete_first op). Qed.
Lemma denote_none o op : op_ok o op -> denote o op = None -> is_none op || is_delete op = true.
Proof.
  intros Hok. unfold denote, base_of, is_none, is_delete, init_none. pose proof (ok_clone _ _ Hok) as Hc.
  destruct (init_type op) as [| |s]; [by destruct (delete_first op)|done|]. destruct (Hc s eq_refl) as [x ->]. done.
Qed.

(** ** Sequences of calls *)

Inductive action :=
| A_create (o : Oid)
| A_clone (target source : Oid)
| A_remove (o : Oid)
| A_truncate (o : Oid) (n : Z)
| A_setattr (o : Oid) (k : string) (v : bytes)
| A_rmattr (o : Oid) (k : string)
| A_write (o : Oid) (off : Z) (bl : bytes) (flags : Z)
| A_zero (o : Oid) (off len : Z)
| A_nop (o : Oid).

Definition run (a : action) (t : op_map Oid) : option (op_map Oid) :=
  match a with
  | A_create o => create o t
  | A_clone target source => clone target source t
  | A_remove o => remove o t
  | A_truncate o n => truncate o n t
  | A_setattr o k v => setattr o k v t
  | A_rmattr o k => rmattr o k t
  | A_write o off bl flags => write o off bl flags t
  | A_zero o off len => zero o off len t
  | A_nop o => nop o t
  end.
Fixpoint run_all (acts : list action) (t : op_map Oid) : option (op_map Oid) :=
  match acts with
  | [] => Some t
  | a :: acts => t ← run a t; run_all acts t
  end.

(** What the calls mean one after the other; [clone] copies the source as it was
    before the transaction, and a call on an object that does not exist, or that
    makes one that does, has no meaning. *)
Definition meaning (a : action) (s : store Oid) : option (store Oid) :=
  match a with
  | A_create o => match s !! o with Some _ => None | None => Some (<[o := empty_object]> s) end
  | A_clone target source =>
    match s !! target with Some _ => None | None => x ← s0 !! source; Some (<[target := x]> s) end
  | A_remove o => _ ← s !! o; Some (delete o s)
  | A_truncate o n => on_data (ObjectData.truncate n) o s
  | A_setattr o k v => on_attrs (fun a => <[k := v]> a) o s
  | A_rmattr o k => on_attrs (delete k) o s
  | A_write o off bl _ => on_data (ObjectData.write off bl) o s
  | A_zero o off len => on_data (ObjectData.zero off len) o s
  | A_nop o => _ ← s !! o; Some s
  end.
Fixpoint meaning_all (acts : list action) (s : store Oid) : option (store Oid) :=
  match acts with
  | [] => Some s
  | a :: acts => s ← meaning a s; meaning_all acts s
  end.

Definition action_ok (a : action) : Prop :=
  match a with
  | A_truncate _ n => 0 <= n < two64 - 1
  | A_write _ off bl _ => 0 <= off /\ 0 < zlen bl /\ off + zlen bl < two64
  | A_zero _ off len => 0 <= off /\ 0 < len /\ off + len < two64
  | _ => True
  end.
(** The objects removed, of those there before the transaction. *)
Definition removal (a : action) : list Oid :=
  match a with A_remove o => match s0 !! o with Some _ => [o] | None => [] end | _ => [] end.

Definition inv (t : op_map Oid) (s : store Oid) : Prop :=
  forall o, op_ok o (at_ t o) /\ denote o (at_ t o) = s !! o.

Lemma inv_start : inv ∅ s0.
Proof. intros o. unfold at_. rewrite lookup_empty. cbn. split; [apply fresh_ok|apply denote_fresh]. Qed.
Lemma at_insert (t : op_map Oid) (o : Oid) op o' : at_ (<[o := op]> t) o' = if decide (o = o') then op else at_ t o'.
Proof. unfold at_. case_decide; [subst; by rewrite lookup_insert_eq|by rewrite lookup_insert_ne]. Qed.
Lemma at_delete (t : op_map Oid) (o : Oid) o' : at_ (delete o t) o' = if decide (o = o') then fresh else at_ t o'.
Proof. unfold at_. case_decide; [subst; by rewrite lookup_delete_eq|by rewrite lookup_delete_ne]. Qed.

(** An operation replaced for one object. *)
Lemma inv_insert t s o op x :
  inv t s -> op_ok o op -> denote o op = Some x -> inv (<[o := op]> t) (<[o := x]> s).
Proof.
  intros Hi Hok Hd o'. rewrite at_insert. case_decide; [subst; by rewrite lookup_insert_eq|].
  rewrite lookup_insert_ne by done. apply Hi.
Qed.
Lemma modify_ok t s o x : inv t s -> s !! o = Some x -> get_object_op_for_modify t o = Some (at_ t o).
Proof.
  intros Hi Hx. unfold get_object_op_for_modify. destruct (Hi o) as [_ Hd]. rewrite Hx in Hd.
  by rewrite (denote_some _ _ _ Hd).
Qed.

(** The contents an operation gives, in parts. *)
Lemma denote_base o op x : denote o op = Some x ->
  exists y, base_of o op = Some y /\ data x = apply_updates (buffer_updates op) (cut (truncate_to op) (data y)) /\
    attrs x = patch (attr_updates op) (attrs y).
Proof. unfold denote. destruct (base_of o op) as [y|]; [|done]. cbn. intros [= <-]. eauto. Qed.

(** A call that modifies an object keeps how it came about. *)
Lemma op_ok_modify o op op' x :
  op_ok o op -> denote o op = Some x -> init_type op' = init_type op -> delete_first op' = delete_first op ->
  wf (buffer_updates op') -> cut_ok (truncate_to op') -> updated_snaps op' = updated_snaps op -> op_ok o op'.
Proof.
  intros [H1 H2 H3 H4 H5 H6 H7 H8] Hd Hi Hdf Hw Hc Hs. pose proof (denote_some _ _ _ Hd) as Hdel.
  unfold denote, base_of in Hd. unfold is_fresh_object, is_delete, is_none, init_none in *.
  split; unfold is_fresh_object, is_delete, is_none, init_none; rewrite ?Hi, ?Hdf, ?Hs; try done; [by rewrite Hdel|].
  intros Hn Ho. rewrite Ho in Hd. destruct (init_type op); [|done..]. by destruct (delete_first op).
Qed.
Lemma modified t s o x op' f g :
  inv t s -> s !! o = Some x -> init_type op' = init_type (at_ t o) -> delete_first op' = delete_first (at_ t o) ->
  wf (buffer_updates op') -> cut_ok (truncate_to op') -> updated_snaps op' = updated_snaps (at_ t o) ->
  (forall c, apply_updates (buffer_updates op') (cut (truncate_to op') c) =
             f (apply_updates (buffer_updates (at_ t o)) (cut (truncate_to (at_ t o)) c))) ->
  (forall b, patch (attr_updates op') b = g (patch (attr_updates (at_ t o)) b)) ->
  inv (<[o := op']> t) (<[o := mk_object (f (data x)) (g (attrs x))]> s).
Proof.
  intros Hinv Hx Hi Hdf Hw Hc Hs Hf Hg. destruct (Hinv o) as [Hok Hd]. rewrite Hx in Hd.
  apply inv_insert; [done|by eapply op_ok_modify|].
  destruct (denote_base _ _ _ Hd) as (y&Hy&Hdx&Hax). unfold denote.
  assert (base_of o op' = Some y) as ->. { rewrite <- Hy. unfold base_of. by rewrite Hi, Hdf. }
  cbn. by rewrite Hf, Hg, <- Hdx, <- Hax.
Qed.

Definition keeps_deletes (a : action) (t t' : op_map Oid) : Prop :=
  forall o, delete_first (at_ t' o) = true -> delete_first (at_ t o) = true \/ o ∈ removal a.
Lemma keeps_deletes_insert a t o op :
  (delete_first op = true -> delete_first (at_ t o) = true \/ o ∈ removal a) -> keeps_deletes a t (<[o := op]> t).
Proof. intros Ho o'. rewrite at_insert. case_decide; [subst; auto|auto]. Qed.

(** Making an object: after a removal, or where there was none. *)
Lemma made t s o i x :
  inv t s -> s !! o = None -> i <> None_ -> (forall s', i = Clone s' -> s0 !! s' = Some x) -> (i = Create -> x = empty_object) ->
  (is_none (at_ t o) || is_delete (at_ t o) = true) /\
  inv (<[o := set_init i (at_ t o)]> t) (<[o := x]> s).
Proof.
  intros Hinv Hs Hi Hcl Hcr. destruct (Hinv o) as [Hok Hd]. rewrite Hs in Hd.
  pose proof (denote_none o _ Hok Hd) as Hn. split; [done|].
  destruct Hok as [H1 H2 H3 H4 H5 H6 H7 H8].
  assert (at_ t o = deletion \/ (at_ t o = fresh /\ s0 !! o = None)) as Hcase.
  { apply orb_true_iff in Hn as [Hn|Hn]; [right|auto]. assert (s0 !! o = None) as Ho; [|auto].
    unfold denote, base_of, is_none, init_none in *.
    destruct (init_type (at_ t o)); [|done..]. destruct (delete_first (at_ t o)); [done|]. by destruct (s0 !! o). }
  assert (op_ok o (set_init i (at_ t o))) as Hok.
  { unfold is_fresh_object, is_delete, is_none, init_none in *.
    split; unfold is_fresh_object, is_delete, is_none, init_none; cbn; try done; try (by destruct i).
    - intros _. destruct Hcase as [->|[-> Ho]]; cbn; auto.
    - intros s' ->. rewrite (Hcl s' eq_refl). eauto. }
  apply inv_insert; [done|done|]. unfold denote, base_of. cbn [init_type set_init].
  assert (match i with None_ => if delete_first (set_init i (at_ t o)) then None else s0 !! o
          | Create => Some empty_object | Clone s1 => s0 !! s1 end = Some x) as ->.
  { destruct i as [| |s1]; [done|by rewrite Hcr|by apply Hcl]. }
  cbn. destruct Hcase as [->|[-> _]]; cbn; rewrite patch_empty; by destruct x.
Qed.

Lemma trans_remove_ok t s o x :
  inv t s -> s !! o = Some x -> (is_Some (s0 !! o) -> delete_first (at_ t o) = false) ->
  exists t', remove o t = Some t' /\ inv t' (delete o s) /\ keeps_deletes (A_remove o) t t'.
Proof.
  intros Hinv Hx Honce. unfold remove. rewrite (modify_ok t s o x Hinv Hx). cbn [mbind option_bind].
  destruct (Hinv o) as [Hok Hd]. rewrite Hx in Hd. pose proof (denote_some _ _ _ Hd) as Hdel.
  destruct (is_fresh_object (at_ t o)) eqn:Ef; cbn [negb].
  - assert (s0 !! o = None) as Ho.
    { destruct (ok_create _ _ Hok Ef) as [Hdf|]; [|done]. rewrite Honce in Hdf; [done|by apply (ok_delete _ _ Hok)]. }
    eexists. split; [done|]. split.
    + intros o'. rewrite at_delete. case_decide; [subst; rewrite lookup_delete_eq, denote_fresh; split; [apply fresh_ok|done]|].
      rewrite lookup_delete_ne by done. apply Hinv.
    + intros o'. rewrite at_delete. case_decide; [done|auto].
  - rewrite (ok_snaps _ _ Hok). cbn [bool_decide]. rewrite bool_decide_true by done. eexists. split; [done|].
    assert (is_Some (s0 !! o)) as Hs0.
    { unfold is_fresh_object, is_delete, init_none, denote, base_of in *. destruct (init_type (at_ t o)); [|done..].
      destruct (delete_first (at_ t o)); [done|]. destruct (s0 !! o); [eauto|done]. }
    split.
    + intros o'. rewrite at_insert. case_decide; [subst; rewrite lookup_delete_eq; split; [by apply deletion_ok|done]|].
      rewrite lookup_delete_ne by done. apply Hinv.
    + apply keeps_deletes_insert. intros _. right. destruct Hs0 as [y Hy]. cbn. rewrite Hy. set_solver.
Qed.

Lemma run_ok a t s s' :
  inv t s -> meaning a s = Some s' -> action_ok a -> (forall o, o ∈ removal a -> delete_first (at_ t o) = false) ->
  exists t', run a t = Some t' /\ inv t' s' /\ keeps_deletes a t t'.
Proof.
  intros Hinv Hm Ha Honce. destruct a as [o|tg src|o|o n|o k v|o k|o off bl fl|o off len|o]; cbn in Hm, Ha; cbn [run].
  - destruct (s !! o) eqn:Ho; [done|]. injection Hm as <-.
    destruct (made t s o Create empty_object) as [Hn Hi]; [done..|]. unfold create. rewrite Hn.
    eexists. split; [done|]. split; [done|]. apply keeps_deletes_insert. auto.
  - destruct (s !! tg) eqn:Ho; [done|]. destruct (s0 !! src) as [x|] eqn:Hx; [|done]. injection Hm as <-.
    destruct (made t s tg (Clone src) x) as [Hn Hi]; [done|done|done|naive_solver|done|]. unfold clone. rewrite Hn.
    eexists. split; [done|]. split; [done|]. apply keeps_deletes_insert. auto.
  - destruct (s !! o) as [x|] eqn:Ho; [|done]. injection Hm as <-. apply (trans_remove_ok t s o x); [done|done|].
    intros [y Hy]. apply Honce. cbn. rewrite Hy. set_solver.
  - unfold on_data in Hm. destruct (s !! o) as [x|] eqn:Ho; [|done]. injection Hm as <-.
    unfold truncate. rewrite (modify_ok t s o x) by done. cbn [mbind option_bind]. destruct (Hinv o) as [[Hu Hcu Hsn _ _ _ _ _] _].
    rewrite bool_decide_true by done. eexists. split; [done|]. split; [|apply keeps_deletes_insert; auto].
    destruct (truncate_data (buffer_updates (at_ t o)) (truncate_to (at_ t o)) (data x) n) as (Hw&Hc&_); [done|done|lia|].
    apply (modified t s o x _ (ObjectData.truncate n) (fun b => b)); try done. intros c. by apply truncate_data.
  - unfold on_attrs in Hm. destruct (s !! o) as [x|] eqn:Ho; [|done]. injection Hm as <-.
    unfold setattr. rewrite (modify_ok t s o x) by done. cbn [mbind option_bind]. destruct (Hinv o) as [[Hu Hcu Hsn _ _ _ _ _] _].
    eexists. split; [done|]. split; [|apply keeps_deletes_insert; auto].
    apply (modified t s o x _ (fun c => c) (fun b => <[k := v]> b)); try done. intros b. apply patch_set.
  - unfold on_attrs in Hm. destruct (s !! o) as [x|] eqn:Ho; [|done]. injection Hm as <-.
    unfold rmattr. rewrite (modify_ok t s o x) by done. cbn [mbind option_bind]. destruct (Hinv o) as [[Hu Hcu Hsn _ _ _ _ _] _].
    eexists. split; [done|]. split; [|apply keeps_deletes_insert; auto].
    apply (modified t s o x _ (fun c => c) (delete k)); try done. intros b. apply patch_rm.
  - unfold on_data in Hm. destruct (s !! o) as [x|] eqn:Ho; [|done]. injection Hm as <-. destruct Ha as (?&?&?).
    unfold write. rewrite (modify_ok t s o x) by done. cbn [mbind option_bind]. destruct (Hinv o) as [[Hu Hcu Hsn _ _ _ _ _] _].
    rewrite bool_decide_true, (proj2 (Z.ltb_lt _ _)) by done.
    destruct (insert_data (buffer_updates (at_ t o)) (cut (truncate_to (at_ t o)) (data x)) off (zlen bl) (Write bl fl) bl)
      as (b'&Hb'&Hw&_); [done|by repeat split|done|done|]. rewrite Hb'. cbn [mbind option_bind].
    eexists. split; [done|]. split; [|apply keeps_deletes_insert; auto].
    apply (modified t s o x _ (ObjectData.write off bl) (fun b => b)); try done. intros c. cbn [buffer_updates truncate_to set_updates].
    destruct (insert_data (buffer_updates (at_ t o)) (cut (truncate_to (at_ t o)) c) off (zlen bl) (Write bl fl) bl)
      as (b2&Hb2&_&<-); [done|by repeat split|done|done|]. congruence.
  - unfold on_data in Hm. destruct (s !! o) as [x|] eqn:Ho; [|done]. injection Hm as <-. destruct Ha as (?&?&?).
    unfold zero. rewrite (modify_ok t s o x) by done. cbn [mbind option_bind]. destruct (Hinv o) as [[Hu Hcu Hsn _ _ _ _ _] _].
    rewrite bool_decide_true by done.
    assert (forall i, update_at (Zero len) i = byte (zeros len) i) as Hz by (intros i; by rewrite byte_zeros).
    destruct (insert_data (buffer_updates (at_ t o)) (cut (truncate_to (at_ t o)) (data x)) off len (Zero len) (zeros len))
      as (b'&Hb'&Hw&_); [done|by repeat split|apply zlen_zeros; lia|done|]. rewrite Hb'. cbn [mbind option_bind].
    eexists. split; [done|]. split; [|apply keeps_deletes_insert; auto].
    apply (modified t s o x _ (ObjectData.zero off len) (fun b => b)); try done. intros c. cbn [buffer_updates truncate_to set_updates].
    destruct (insert_data (buffer_updates (at_ t o)) (cut (truncate_to (at_ t o)) c) off len (Zero len) (zeros len))
      as (b2&Hb2&_&Hd); [done|by repeat split|apply zlen_zeros; lia|done|].
    unfold ObjectData.zero. rewrite (proj2 (Z.eqb_neq _ _)), <- Hd by lia. congruence.
  - destruct (s !! o) as [x|] eqn:Ho; [|done]. injection Hm as <-.
    unfold nop. rewrite (modify_ok t s o x) by done. cbn [mbind option_bind]. eexists. split; [done|].
    split; [|apply keeps_deletes_insert; auto].
    intros o'. rewrite at_insert. case_decide; [subst|]; apply Hinv.
Qed.

Lemma run_all_ok acts t s s' :
  inv t s -> meaning_all acts s = Some s' -> Forall action_ok acts ->
  NoDup (acts ≫= removal) -> (forall o, delete_first (at_ t o) = true -> o ∉ (acts ≫= removal)) ->
  exists t', run_all acts t = Some t' /\ inv t' s'.
Proof.
  revert t s. induction acts as [|a acts IH]; intros t s Hinv Hm Ha Hnd Honce.
  { injection Hm as <-. by exists t. }
  cbn in Hm. destruct (meaning a s) as [s1|] eqn:E1; [|done]. apply Forall_cons in Ha as [Ha Hacts].
  rewrite bind_cons in Hnd, Honce. apply NoDup_app in Hnd as (Hnd1&Hdis&Hnd2).
  destruct (run_ok a t s s1) as (t1&Hr&Hinv1&Hk); [done..| |].
  { intros o Ho. destruct (delete_first (at_ t o)) eqn:Ed; [|done]. exfalso. apply (Honce o Ed). set_solver. }
  cbn [run_all]. rewrite Hr. cbn [mbind option_bind]. apply (IH t1 s1); [done..|].
  intros o Ho. destruct (Hk o Ho) as [Hd|Hin]; [|by apply Hdis]. specialize (Honce o Hd). set_solver.
Qed.

(** ** What the object store does *)

Lemma apply_ops_app ps qs (s : store Oid) : apply_ops (ps ++ qs) s = (s ← apply_ops ps s; apply_ops qs s).
Proof. revert s. induction ps as [|p ps IH]; intros s; cbn; [done|]. destruct (apply_op p s); cbn; auto. Qed.

Lemma apply_truncates o p x (s : store Oid) :
  apply_ops (match p with
             | None => []
             | Some (f, l) => S_truncate o f :: if f =? l then [] else [S_truncate o l]
             end) (<[o := x]> s) = Some (<[o := mk_object (cut p (data x)) (attrs x)]> s).
Proof.
  destruct p as [[f l]|]; cbn; [|by destruct x]. unfold on_data. rewrite lookup_insert_eq. cbn. rewrite insert_insert_eq.
  destruct (f =? l); cbn; [done|]. unfold on_data. rewrite lookup_insert_eq. cbn. by rewrite insert_insert_eq.
Qed.
Lemma apply_rmattrs o l x (s : store Oid) :
  apply_ops (map (fun kv : string * option bytes => S_rmattr o kv.1) l) (<[o := x]> s)
  = Some (<[o := mk_object (data x) (foldl (fun b kv => delete kv.1 b) (attrs x) l)]> s).
Proof.
  revert x. induction l as [|[k v] l IH]; intros x; cbn; [by destruct x|]. unfold on_attrs. rewrite lookup_insert_eq. cbn.
  rewrite insert_insert_eq. apply IH.
Qed.
Lemma lookup_rmattrs (l : list (string * option bytes)) (b : gmap string bytes) k :
  foldl (fun b kv => delete kv.1 b) b l !! k = if decide (k ∈ l.*1) then None else b !! k.
Proof.
  revert b. induction l as [|[j v] l IH]; intros b; cbn; [by rewrite decide_False by set_solver|]. rewrite IH.
  destruct (decide (k ∈ l.*1)); [rewrite decide_True by set_solver; done|].
  destruct (decide (j = k)) as [->|?]; [rewrite lookup_delete_eq, decide_True by set_solver; done|].
  rewrite lookup_delete_ne, decide_False by set_solver. done.
Qed.
Lemma apply_attrs o a x (s : store Oid) :
  apply_ops (store_attrs o a) (<[o := x]> s) = Some (<[o := mk_object (data x) (patch a (attrs x))]> s).
Proof.
  unfold store_attrs. case_bool_decide as Ha; [subst a; cbn; rewrite patch_empty; by destruct x|].
  rewrite apply_ops_app, apply_rmattrs. cbn. unfold on_attrs. rewrite lookup_insert_eq. cbn. rewrite insert_insert_eq.
  do 3 f_equal. apply map_eq. intros k. unfold patch. rewrite lookup_merge, lookup_union, lookup_omap, lookup_rmattrs.
  set (l := List.filter _ (map_to_list a)).
  assert (k ∈ l.*1 <-> a !! k = Some None) as Hk.
  { rewrite list_elem_of_fmap. split.
    - intros ([j v]&->&Hin). subst l. apply list_elem_of_In, List.filter_In in Hin as [Hin Hv].
      apply list_elem_of_In, elem_of_map_to_list in Hin. cbn in *. apply bool_decide_eq_true in Hv. by subst.
    - intros Hk. exists (k, None). split; [done|]. subst l. apply list_elem_of_In, List.filter_In.
      split; [by apply list_elem_of_In, elem_of_map_to_list|]. by apply bool_decide_eq_true. }
  destruct (a !! k) as [[v|]|] eqn:Ek; cbn.
  - rewrite decide_False by (rewrite Hk; done). by destruct (attrs x !! k).
  - rewrite decide_True by by apply Hk. by destruct (attrs x !! k).
  - rewrite decide_False by (rewrite Hk; done). by destruct (attrs x !! k).
Qed.
Lemma apply_store_updates o b x (s : store Oid) :
  apply_ops (map (store_updates o) b) (<[o := x]> s)
  = Some (<[o := mk_object (apply_updates b (data x)) (attrs x)]> s).
Proof.
  revert x. induction b as [|e b IH]; intros x; cbn [map apply_ops]; [by destruct x|].
  destruct e as [off [len [bl f|n]]];
    [change (store_updates o (off, (len, Write bl f))) with (S_write o off bl)
    |change (store_updates o (off, (len, Zero n))) with (S_zero o off len)];
    cbn [apply_op]; unfold on_data; rewrite lookup_insert_eq; cbn [mbind option_bind]; rewrite insert_insert_eq, IH; done.
Qed.

(** The operations of one object, when it and its source are untouched. *)
Lemma store_ops_ok oct o op (s : store Oid) :
  op_ok o op -> s !! o = s0 !! o -> (forall src, init_type op = Clone src -> src <> o /\ s !! src = s0 !! src) ->
  exists s', apply_ops (store_ops oct o op) s = Some s' /\ s' !! o = denote o op /\
    (forall o', o' <> o -> s' !! o' = s !! o').
Proof.
  intros Hok Hso Hsrc. unfold store_ops. set (s1 := if delete_first op then delete o s else s).
  assert (apply_ops (if delete_first op then [S_remove o] else []) s = Some s1) as E1.
  { subst s1. destruct (delete_first op) eqn:Ed; [|done]. destruct (ok_delete _ _ Hok Ed) as [x Hx]. cbn.
    by rewrite Hso, Hx. }
  rewrite apply_ops_app, E1. cbn [mbind option_bind]. clear E1.
  assert (s1 !! o = if delete_first op then None else s0 !! o) as Hs1.
  { subst s1. destruct (delete_first op); [by rewrite lookup_delete_eq|done]. }
  assert (forall o', o' <> o -> s1 !! o' = s !! o') as Hother.
  { intros o' ?. subst s1. destruct (delete_first op); [by rewrite lookup_delete_ne|done]. }
  destruct (base_of o op) as [x|] eqn:Hb.
  - assert (exists s2, apply_ops (match init_type op with
                | None_ => [] | Create => if oct then [S_create o] else [S_touch o] | Clone src => [S_clone src o] end) s1
              = Some s2 /\ s2 = <[o := x]> s1) as (s2&E2&->).
    { unfold base_of in Hb. pose proof (ok_create _ _ Hok) as Hcr. unfold is_fresh_object, init_none in Hcr.
      destruct (init_type op) as [| |src] eqn:Ei.
      - exists s1. split; [done|]. rewrite insert_id; [done|]. by rewrite Hs1.
      - injection Hb as <-. assert (s1 !! o = None) as Hn.
        { rewrite Hs1. destruct (Hcr eq_refl) as [->| ->]; [done|by case_match]. }
        exists (<[o := empty_object]> s1). split; [|done]. destruct oct; cbn; by rewrite Hn.
      - destruct (Hsrc src eq_refl) as [Hne Hs]. exists (<[o := x]> s1). split; [|done]. cbn.
        rewrite Hother, Hs, Hb by done. done. }
    rewrite apply_ops_app, E2. cbn [mbind option_bind]. rewrite apply_ops_app, apply_truncates. cbn [mbind option_bind].
    rewrite apply_ops_app, apply_attrs. cbn [mbind option_bind data attrs]. rewrite apply_store_updates. cbn [data attrs].
    eexists. split; [done|]. rewrite lookup_insert_eq. unfold denote. rewrite Hb. split; [done|].
    intros o' ?. rewrite lookup_insert_ne by done. auto.
  - assert (op = deletion \/ op = fresh) as Hop.
    { unfold base_of in Hb. pose proof (ok_deleted _ _ Hok) as Hd. pose proof (ok_absent _ _ Hok) as Ha.
      pose proof (ok_clone _ _ Hok) as Hc. unfold is_delete, is_none, init_none in *. destruct (init_type op) as [| |src]; [|done|].
      - destruct (delete_first op); [left; by apply Hd|right; by apply Ha].
      - destruct (Hc src eq_refl) as [y Hy]. by rewrite Hy in Hb. }
    assert (denote o op = None) as Hdn by (unfold denote; by rewrite Hb).
    exists s1. rewrite Hdn. split; [by destruct Hop as [-> | ->]|]. split; [|done].
    rewrite Hs1. destruct Hop as [-> | ->]; [done|]. exact Hb.
Qed.

(** Objects are made from another only by [clone]. *)
Lemma run_source a t t' o src :
  run a t = Some t' -> has_source (at_ t' o) = Some src -> has_source (at_ t o) = Some src \/ a = A_clone o src.
Proof.
  assert (forall (t : op_map Oid) o' op, (o' = o -> has_source op = Some src -> has_source (at_ t o) = Some src) ->
    has_source (at_ (<[o' := op]> t) o) = Some src -> has_source (at_ t o) = Some src) as Hins.
  { intros t1 o' op Hop. rewrite at_insert. case_decide; [subst; auto|auto]. }
  destruct a as [o'|tg s|o'|o' n|o' k v|o' k|o' off bl fl|o' off len|o']; cbn [run]; intros Hr Hs.
  - left. unfold create in Hr. case_match; [|done]. injection Hr as <-. eapply Hins; [|exact Hs]. done.
  - unfold clone in Hr. case_match; [|done]. injection Hr as <-. rewrite at_insert in Hs.
    case_decide; [subst; right; unfold has_source in Hs; cbn in Hs; congruence|auto].
  - left. unfold remove, get_object_op_for_modify in Hr. case_match; [|done]. cbn [mbind option_bind] in Hr.
    case_match; [case_match; [|done]|]; injection Hr as <-; [by eapply Hins; [|exact Hs]|].
    rewrite at_delete in Hs. by case_decide.
  - left. unfold truncate, get_object_op_for_modify in Hr. do 2 (case_match; cbn [mbind option_bind] in Hr; [|done]).
    injection Hr as <-. eapply Hins; [|exact Hs]. by intros <-.
  - left. unfold setattr, get_object_op_for_modify in Hr. case_match; cbn [mbind option_bind] in Hr; [|done].
    injection Hr as <-. eapply Hins; [|exact Hs]. by intros <-.
  - left. unfold rmattr, get_object_op_for_modify in Hr. case_match; cbn [mbind option_bind] in Hr; [|done].
    injection Hr as <-. eapply Hins; [|exact Hs]. by intros <-.
  - left. unfold write, get_object_op_for_modify in Hr. destruct (negb _); [|done]. cbn [mbind option_bind] in Hr.
    destruct (bool_decide _); [|done]. destruct (0 <? _); [|done].
    destruct (IntervalMap.insert _ _ _ _); [|done]. cbn in Hr. injection Hr as <-. eapply Hins; [|exact Hs]. by intros <-.
  - left. unfold zero, get_object_op_for_modify in Hr. destruct (negb _); [|done]. cbn [mbind option_bind] in Hr.
    destruct (bool_decide _); [|done].
    destruct (IntervalMap.insert _ _ _ _); [|done]. cbn in Hr. injection Hr as <-. eapply Hins; [|exact Hs]. by intros <-.
  - left. unfold nop, get_object_op_for_modify in Hr. case_match; cbn [mbind option_bind] in Hr; [|done].
    injection Hr as <-. eapply Hins; [|exact Hs]. by intros <-.
Qed.
Lemma run_all_source acts t t' o src :
  run_all acts t = Some t' -> has_source (at_ t' o) = Some src -> has_source (at_ t o) = Some src \/ A_clone o src ∈ acts.
Proof.
  revert t. induction acts as [|a acts IH]; intros t Hr Hs; [injection Hr as <-; auto|]. cbn in Hr.
  destruct (run a t) as [t1|] eqn:E1; [|done]. destruct (IH t1 Hr Hs) as [Hs1|?]; [|right; set_solver].
  destruct (run_source a t t1 o src E1 Hs1) as [?| ->]; [auto|right; set_solver].
Qed.
End Facts.

(** ** The order of the traversal *)

Section Traverse.
Context {Oid : Type} `{Countable Oid}.
Context (t : op_map Oid) (objs : list Oid).
Context (Hnodup : NoDup objs) (Hobjs : forall o, o ∈ objs <-> is_Some (t !! o)).
(** No object is made from itself, however indirectly. *)
Context (rank : Oid -> nat) (Hrank : forall o s, o ∈ objs -> has_source (at_ t o) = Some s -> (rank o < rank s)%nat).

Abbreviation source o := (has_source (at_ t o)).
Definition waiting (g : gmap Oid (list Oid)) (c : Oid) : Prop := exists s l, g !! s = Some l /\ c ∈ l.
Definition num_waiting (g : gmap Oid (list Oid)) : nat := sum_list (length ∘ snd <$> map_to_list g).

(** The graph of the objects seen so far. *)
Record graph_ok (ps : list Oid) (g : gmap Oid (list Oid)) (stack : list Oid) : Prop := {
  gr_some : forall s l, g !! s = Some l -> l <> [] /\ NoDup l /\ (forall c, c ∈ l <-> c ∈ ps /\ source c = Some s);
  gr_none : forall s c, g !! s = None -> c ∈ ps -> source c <> Some s;
  gr_nodup : NoDup stack;
  gr_stack : forall x, x ∈ stack <-> (x ∈ ps /\ source x = None) \/ (t !! x = None /\ exists c, c ∈ ps /\ source c = Some x);
  gr_size : (length stack <= length ps /\ num_waiting g <= length ps)%nat;
  gr_sub : forall x, x ∈ ps -> is_Some (t !! x)
}.

Lemma num_waiting_delete g s l : g !! s = Some l -> num_waiting g = (length l + num_waiting (delete s g))%nat.
Proof.
  intros Hg. unfold num_waiting. rewrite <- (map_to_list_delete g s l Hg). done.
Qed.
Lemma num_waiting_insert g s l : g !! s = None -> num_waiting (<[s := l]> g) = (length l + num_waiting g)%nat.
Proof. intros Hg. unfold num_waiting. by rewrite map_to_list_insert. Qed.

Lemma graph_root ps g stack o :
  graph_ok ps g stack -> o ∉ ps -> is_Some (t !! o) -> source o = None -> graph_ok (ps ++ [o]) g (stack ++ [o]).
Proof.
  intros [Hs Hn Hnd Hst [Hl1 Hl2] Hsub] Ho Ht Hsrc. split.
  - intros s l Hg. destruct (Hs s l Hg) as (?&?&Hc). split_and!; [done|done|]. intros c. rewrite Hc.
    rewrite elem_of_app, list_elem_of_singleton. naive_solver.
  - intros s c Hg [Hc|Hc]%elem_of_app; [by apply Hn|]. apply list_elem_of_singleton in Hc as ->. by rewrite Hsrc.
  - apply NoDup_snoc; [done|]. rewrite Hst. intros [[? _]|[Hx _]]; [done|]. rewrite Hx in Ht. by destruct Ht.
  - intros x. rewrite elem_of_app, list_elem_of_singleton, Hst. setoid_rewrite elem_of_app. setoid_rewrite list_elem_of_singleton.
    split.
    + intros [[[??]|[? (c&?&?)]]| ->]; [left; auto|right; eauto|left; auto].
    + intros [[[?| ->] ?]|[? (c&[?| ->]&?)]]; [auto|auto|left; right; eauto|congruence].
  - rewrite !length_app. cbn. lia.
  - intros x [Hx|Hx]%elem_of_app; [auto|]. by apply list_elem_of_singleton in Hx as ->.
Qed.
Lemma graph_child ps g stack o s :
  graph_ok ps g stack -> o ∉ ps -> is_Some (t !! o) -> source o = Some s ->
  let l := default [] (g !! s) in
  graph_ok (ps ++ [o]) (<[s := l ++ [o]]> g) (if bool_decide (l = []) && bool_decide (t !! s = None) then stack ++ [s] else stack).
Proof.
  intros [Hs Hn Hnd Hst [Hl1 Hl2] Hsub] Ho Ht Hsrc l.
  assert (NoDup l /\ (forall c, c ∈ l <-> c ∈ ps /\ source c = Some s) /\ (l = [] <-> g !! s = None)) as (Hndl&Hcl&Hl0).
  { subst l. destruct (g !! s) as [l|] eqn:Eg; cbn.
    - destruct (Hs s l Eg) as (?&?&?). split_and!; done.
    - split_and!; [constructor| |done]. intros c. split; [set_solver|]. intros [??]. by destruct (Hn s c Eg). }
  split.
  - intros s' l'. destruct (decide (s = s')) as [<-|Hne].
    + rewrite lookup_insert_eq. intros [= <-]. split_and!; [by destruct l| |].
      * apply NoDup_snoc; [done|]. rewrite Hcl. tauto.
      * intros c. rewrite !elem_of_app, !list_elem_of_singleton, Hcl. naive_solver.
    + rewrite lookup_insert_ne by done. intros Hg. destruct (Hs s' l' Hg) as (?&?&Hc). split_and!; [done|done|].
      intros c. rewrite Hc, elem_of_app, list_elem_of_singleton. naive_solver.
  - intros s' c. destruct (decide (s = s')) as [<-|Hne]; [by rewrite lookup_insert_eq|].
    rewrite lookup_insert_ne by done. intros Hg [Hc|Hc]%elem_of_app; [by apply Hn|].
    apply list_elem_of_singleton in Hc as ->. congruence.
  - destruct (bool_decide (l = []) && bool_decide (t !! s = None)) eqn:Eb; [|done].
    apply andb_true_iff in Eb as [E1%bool_decide_eq_true E2%bool_decide_eq_true]. apply NoDup_snoc; [done|]. rewrite Hst.
    intros [[Hps _]|[_ (c&Hc&Hcs)]]; [apply Hsub in Hps; rewrite E2 in Hps; by destruct Hps|].
    by destruct (Hn s c (proj1 Hl0 E1)).
  - intros x. assert ((x ∈ ps ++ [o] /\ source x = None) <-> (x ∈ ps /\ source x = None)) as ->.
    { rewrite elem_of_app, list_elem_of_singleton. naive_solver. }
    assert ((exists c, c ∈ ps ++ [o] /\ source c = Some x) <-> (exists c, c ∈ ps /\ source c = Some x) \/ x = s) as ->.
    { setoid_rewrite elem_of_app. setoid_rewrite list_elem_of_singleton. naive_solver. }
    destruct (bool_decide (l = []) && bool_decide (t !! s = None)) eqn:Eb.
    + apply andb_true_iff in Eb as [E1%bool_decide_eq_true E2%bool_decide_eq_true].
      rewrite elem_of_app, list_elem_of_singleton, Hst. naive_solver.
    + rewrite Hst. split; [tauto|]. intros [?|[Hx [?| ->]]]; [auto|auto|]. right. split; [done|].
      apply andb_false_iff in Eb as [E1%bool_decide_eq_false|E2%bool_decide_eq_false]; [|done].
      destruct l as [|c l'] eqn:El; [done|]. exists c. apply Hcl. set_solver.
  - rewrite !length_app. cbn. split; [case_match; rewrite ?length_app; cbn; lia|].
    assert (num_waiting g = length l + num_waiting (delete s g))%nat as Hw.
    { subst l. destruct (g !! s) as [l|] eqn:Eg; cbn; [by apply num_waiting_delete|]. by rewrite delete_id. }
    rewrite <- insert_delete_eq, num_waiting_insert, length_app by apply lookup_delete_eq. cbn. lia.
  - intros x [Hx|Hx]%elem_of_app; [auto|]. by apply list_elem_of_singleton in Hx as ->.
Qed.

Lemma graph_of_ok rest ps g stack :
  graph_ok ps g stack -> NoDup (ps ++ rest) -> (forall o, o ∈ rest -> is_Some (t !! o)) ->
  exists g' stack', graph_of t rest g stack = (g', stack') /\ graph_ok (ps ++ rest) g' stack'.
Proof.
  revert ps g stack. induction rest as [|o rest IH]; intros ps g stack Hg Hnd Hin; cbn [graph_of].
  { rewrite app_nil_r. eauto. }
  assert (o ∉ ps) as Hno by (apply NoDup_app in Hnd as (_&Hd&_); intros Ho; apply (Hd o Ho); set_solver).
  replace (ps ++ o :: rest) with ((ps ++ [o]) ++ rest) in Hnd |- * by by rewrite <- app_assoc.
  destruct (source o) as [s|] eqn:Es; (apply IH; [|done|intros x Hx; apply Hin; set_solver]).
  - apply graph_child; try done. apply Hin. set_solver.
  - apply graph_root; try done. apply Hin. set_solver.
Qed.
Lemma graph_ok_empty : graph_ok [] ∅ [].
Proof.
  split; try done.
  - intros s c _ Hc. set_solver.
  - constructor.
  - intros x. split; [set_solver|]. intros [[? _]|[_ (c&?&_)]]; set_solver.
  - intros x Hx. set_solver.
Qed.

(** The loop: what is on the stack, waits in the graph or is done. *)
Definition children_first (order : list Oid) : Prop :=
  forall a x b c, order = a ++ x :: b -> c ∈ objs -> source c = Some x -> c ∈ a.
Record loop_ok (g : gmap Oid (list Oid)) (stack order : list Oid) : Prop := {
  lp_some : forall s l, g !! s = Some l -> l <> [] /\ NoDup l /\ (forall c, c ∈ l -> c ∈ objs /\ source c = Some s);
  lp_stack : NoDup stack;
  lp_order : NoDup order;
  lp_disjoint : forall x, x ∈ stack -> x ∉ order;
  lp_waiting : forall c, waiting g c -> c ∉ stack /\ c ∉ order;
  lp_all : forall o, o ∈ objs -> o ∈ order \/ o ∈ stack \/ waiting g o;
  lp_sub : forall o, o ∈ order -> o ∈ objs;
  lp_child : forall s c, c ∈ objs -> source c = Some s ->
    (exists l, g !! s = Some l /\ c ∈ l) \/ c ∈ order \/ (exists a b, stack = a ++ s :: b /\ c ∈ a);
  lp_reach : forall s l, g !! s = Some l -> s ∈ stack \/ waiting g s;
  lp_first : children_first order
}.

Lemma graph_loop g stack : graph_ok objs g stack -> loop_ok g stack [].
Proof.
  intros [Hs Hn Hnd Hst _ _]. split.
  - intros s l Hg. destruct (Hs s l Hg) as (?&?&Hc). split_and!; [done|done|]. intros c. by rewrite Hc.
  - done.
  - constructor.
  - intros x _. set_solver.
  - intros c (s&l&Hg&Hc). destruct (Hs s l Hg) as (_&_&Hl). apply Hl in Hc as [Hc Hcs]. split; [|set_solver].
    rewrite Hst. intros [[_ ?]|[Hx _]]; [congruence|]. apply Hobjs in Hc. rewrite Hx in Hc. by destruct Hc.
  - intros o Ho. destruct (source o) as [s|] eqn:Es; [|right; left; apply Hst; auto]. right; right.
    destruct (g !! s) as [l|] eqn:Eg; [|by destruct (Hn s o Eg Ho)]. exists s, l. split; [done|]. by apply (Hs s l Eg).
  - set_solver.
  - intros s c Hc Hcs. left. destruct (g !! s) as [l|] eqn:Eg; [|by destruct (Hn s c Eg Hc)].
    exists l. split; [done|]. by apply (Hs s l Eg).
  - intros s l Hg. destruct (Hs s l Hg) as (Hne&_&Hl). destruct l as [|c l]; [done|].
    destruct (proj1 (Hl c) ltac:(set_solver)) as [Hc Hcs]. destruct (t !! s) eqn:Et.
    + assert (s ∈ objs) as Hso by (apply Hobjs; rewrite Et; eauto). destruct (source s) as [s'|] eqn:Es.
      * right. destruct (g !! s') as [l'|] eqn:Eg'; [|by destruct (Hn s' s Eg' Hso)]. exists s', l'. split; [done|].
        by apply (Hs s' l' Eg').
      * left. apply Hst. auto.
    + left. apply Hst. right. split; [done|]. exists c. auto.
  - intros a x b c Hab. by destruct a.
Qed.

Lemma waiting_split g s l c : g !! s = Some l -> waiting g c -> c ∈ l \/ waiting (delete s g) c.
Proof.
  intros Hl (s'&l'&Hg&Hc). destruct (decide (s' = s)) as [->|Hne]; [left; congruence|].
  right. exists s', l'. split; [|done]. by rewrite lookup_delete_ne.
Qed.

Lemma loop_expand g cur rest order l :
  loop_ok g (cur :: rest) order -> g !! cur = Some l -> loop_ok (delete cur g) (l ++ cur :: rest) order.
Proof.
  intros [Hs Hst Hord Hdis Hw Hall Hsub Hch Hre Hfi] Hl. destruct (Hs cur l Hl) as (Hne&Hndl&Hcl).
  assert (forall c, c ∈ l -> c ∉ cur :: rest /\ c ∉ order) as Hlw by (intros c Hc; apply Hw; by exists cur, l).
  assert (forall c, waiting (delete cur g) c -> waiting g c) as Hwd.
  { intros c (s'&l'&Hg&Hc). apply lookup_delete_Some in Hg as [_ Hg]. by exists s', l'. }
  split.
  - intros s l' Hg. apply lookup_delete_Some in Hg as [_ Hg]. by apply Hs.
  - apply NoDup_app. split_and!; [done|intros c Hc; by apply Hlw|done].
  - done.
  - intros x [Hx|Hx]%elem_of_app; [by apply Hlw|by apply Hdis].
  - intros c Hc. pose proof (Hw c (Hwd c Hc)) as [Hc1 Hc2]. split; [|done].
    intros [Hin|?]%elem_of_app; [|done]. destruct Hc as (s'&l'&Hg&Hc). apply lookup_delete_Some in Hg as [Hne' Hg].
    destruct (Hs s' l' Hg) as (_&_&Hc'). apply Hc' in Hc as [_ Hcs]. apply Hcl in Hin as [_ Hcs']. congruence.
  - intros o Ho. destruct (Hall o Ho) as [?|[?|Hwo]]; [auto|right; left; set_solver|].
    destruct (waiting_split g cur l o Hl Hwo); [right; left; set_solver|auto].
  - done.
  - intros s c Hc Hcs. destruct (decide (s = cur)) as [->|Hne'].
    + destruct (Hch cur c Hc Hcs) as [(l'&Hl'&Hcl')|[?|(a&b&Hab&Hca)]]; [|auto|].
      * right; right. exists l, rest. split; [done|]. congruence.
      * right; right. exists (l ++ a), b. rewrite Hab, <- app_assoc. set_solver.
    + destruct (Hch s c Hc Hcs) as [(l'&Hl'&Hcl')|[?|(a&b&Hab&Hca)]]; [left; exists l'; by rewrite lookup_delete_ne|auto|].
      right; right. exists (l ++ a), b. rewrite Hab, <- app_assoc. set_solver.
  - intros s l' Hg. apply lookup_delete_Some in Hg as [Hne' Hg]. destruct (Hre s l' Hg) as [?|Hws]; [left; set_solver|].
    destruct (waiting_split g cur l s Hl Hws); [left; set_solver|auto].
  - done.
Qed.

Lemma loop_pop g cur rest order :
  loop_ok g (cur :: rest) order -> g !! cur = None ->
  loop_ok g rest (if bool_decide (is_Some (t !! cur)) then order ++ [cur] else order).
Proof.
  intros [Hs Hst Hord Hdis Hw Hall Hsub Hch Hre Hfi] Hl. apply NoDup_cons in Hst as [Hcur Hst].
  set (order' := if bool_decide (is_Some (t !! cur)) then order ++ [cur] else order).
  assert (forall x, x ∈ order' <-> x ∈ order \/ (x = cur /\ cur ∈ objs)) as Hin.
  { intros x. subst order'. rewrite Hobjs. case_bool_decide; [rewrite elem_of_app, list_elem_of_singleton|]; tauto. }
  assert (forall c, c ∈ objs -> source c = Some cur -> c ∈ order) as Hdone.
  { intros c Hc Hcs. destruct (Hch cur c Hc Hcs) as [(l&Hl'&_)|[?|(a&b&Hab&Hca)]]; [congruence|done|].
    destruct a as [|z a]; [set_solver|]. injection Hab as -> ->. set_solver. }
  split.
  - done.
  - done.
  - subst order'. case_bool_decide; [|done]. apply NoDup_snoc; [done|]. apply Hdis. set_solver.
  - intros x Hx. rewrite Hin. intros [?|[-> _]]; [|done]. apply (Hdis x); [set_solver|done].
  - intros c Hc. destruct (Hw c Hc) as [H1 H2]. rewrite Hin. set_solver.
  - intros o Ho. rewrite Hin. destruct (Hall o Ho) as [?|[[->|?]%elem_of_cons|?]]; auto.
  - intros o. rewrite Hin. intros [?|[-> ?]]; auto.
  - intros s c Hc Hcs. rewrite Hin. destruct (Hch s c Hc Hcs) as [?|[?|(a&b&Hab&Hca)]]; [auto|auto|].
    destruct a as [|z a]; [set_solver|]. injection Hab as -> ->. apply elem_of_cons in Hca as [->|Hca]; [auto|].
    right; right. exists a, b. auto.
  - intros s l Hg. destruct (Hre s l Hg) as [[->|?]%elem_of_cons|?]; [congruence|auto|auto].
  - subst order'. case_bool_decide; [|done]. intros a x b c Hab Hc Hcs.
    apply app_eq_inv in Hab as [(k&->&Hk)|(k&->&Hk)].
    + destruct k as [|z k]; cbn in Hk; [injection Hk as <- _; rewrite app_nil_r in *; by apply Hdone|].
      injection Hk as -> ->. by eapply Hfi.
    + destruct k as [|z k]; cbn in Hk; [injection Hk as <- _; rewrite app_nil_r in *; by apply Hdone|].
      injection Hk as _ Hk. by destruct k.
Qed.

(** When the stack is empty nothing waits: the graph has no cycle. *)
Lemma loop_end g order : loop_ok g [] order -> g = ∅.
Proof.
  intros [Hs _ _ _ _ _ _ _ Hre _]. apply map_empty. intros s. destruct (g !! s) as [l|] eqn:Hg; [|done]. exfalso.
  assert (forall n, exists s l, g !! s = Some l /\ (n <= rank s)%nat) as Hup.
  { intros n. induction n as [|n (s'&l'&Hg'&Hn)]; [exists s, l; split; [done|lia]|].
    destruct (Hre s' l' Hg') as [?|(p&k&Hp&Hk)]; [set_solver|]. destruct (Hs p k Hp) as (_&_&Hk').
    destruct (Hk' s' Hk) as [Hso Hss]. pose proof (Hrank s' p Hso Hss). exists p, k. split; [done|lia]. }
  destruct (Hup (S (max_list ((rank ∘ fst) <$> map_to_list g)))) as (s'&l'&Hg'&Hn).
  assert (rank s' ∈ ((rank ∘ fst) <$> map_to_list g)) as Hin.
  { apply list_elem_of_fmap. exists (s', l'). split; [done|]. by apply elem_of_map_to_list. }
  pose proof (max_list_elem_of_le _ _ Hin). lia.
Qed.

Lemma traverse_ok fuel g stack order :
  loop_ok g stack order -> (length stack + 2 * num_waiting g <= fuel)%nat ->
  exists order', traverse fuel t g stack order = Some order' /\ NoDup order' /\ (forall o, o ∈ order' <-> o ∈ objs) /\
    children_first order'.
Proof.
  revert g stack order. induction fuel as [|fuel IH]; intros g stack order Hok Hf.
  all: destruct stack as [|cur rest].
  1, 3: exists order; pose proof (loop_end g order Hok) as ->; destruct Hok as [_ _ Hord _ _ Hall Hsub _ _ Hfi];
    split; [done|]; split_and!; [done| |done]; intros o; split; [auto|]; intros Ho;
    destruct (Hall o Ho) as [?|[?|(s&l&Hl&_)]]; [done|set_solver|by rewrite lookup_empty in Hl].
  { cbn in Hf. lia. }
  cbn [traverse]. destruct (g !! cur) as [l|] eqn:Hl.
  - destruct (lp_some _ _ _ Hok cur l Hl) as [Hne _]. rewrite bool_decide_false by done. cbn [negb].
    rewrite (num_waiting_delete g cur l Hl) in Hf. cbn [length] in Hf.
    apply IH; [by apply loop_expand|]. rewrite length_app. cbn [length]. destruct l; [done|]. cbn [length] in *. lia.
  - apply IH; [by apply loop_pop|]. cbn in Hf. lia.
Qed.

Lemma safe_create_traverse_ok :
  exists order, safe_create_traverse t objs = Some order /\ NoDup order /\ (forall o, o ∈ order <-> o ∈ objs) /\
    children_first order.
Proof.
  unfold safe_create_traverse.
  destruct (graph_of_ok objs [] ∅ []) as (g&stack&->&Hg); [apply graph_ok_empty|done|intros o; apply Hobjs|].
  cbn [app] in Hg. pose proof (gr_size _ _ _ Hg) as [Hs1 Hs2]. apply traverse_ok; [by apply graph_loop|lia].
Qed.

(** Children come before their source, so a source is never seen changed. *)
Lemma source_not_before order a o b src :
  NoDup order -> (forall x, x ∈ order <-> x ∈ objs) -> children_first order -> order = a ++ o :: b -> source o = Some src ->
  src ∉ a /\ src <> o.
Proof.
  intros Hnd Hin Hfi Hab Hs. assert (o ∈ objs) as Ho by (apply Hin; set_solver). split.
  - intros Ha. apply list_elem_of_split in Ha as (a1&a2&->).
    assert (o ∈ a1) as Ho1 by (eapply (Hfi a1 src (a2 ++ o :: b)); [by rewrite Hab, <- app_assoc|done|done]).
    rewrite Hab in Hnd. apply NoDup_app in Hnd as (_&Hd&_). apply (Hd o); [set_solver|set_solver].
  - intros ->. pose proof (Hrank o o Ho Hs). lia.
Qed.

Lemma apply_order (s0 : store Oid) oct order :
  (forall o, op_ok s0 o (at_ t o)) -> NoDup order -> (forall x, x ∈ order <-> x ∈ objs) -> children_first order ->
  exists s', apply_ops (flat_map (fun o => store_ops oct o (at_ t o)) order) s0 = Some s' /\
    (forall o, s' !! o = denote s0 o (at_ t o)).
Proof.
  intros Hok Hnd Hin Hfi.
  assert (forall b a s, order = a ++ b -> (forall o, s !! o = if decide (o ∈ a) then denote s0 o (at_ t o) else s0 !! o) ->
    exists s', apply_ops (flat_map (fun o => store_ops oct o (at_ t o)) b) s = Some s' /\
      (forall o, s' !! o = if decide (o ∈ order) then denote s0 o (at_ t o) else s0 !! o)) as Hloop.
  { induction b as [|o b IH]; intros a s Hab Hs; cbn [flat_map].
    { exists s. rewrite Hab, app_nil_r. done. }
    assert (o ∉ a) as Hoa.
    { rewrite Hab in Hnd. apply NoDup_app in Hnd as (_&Hd&_). intros Ho. apply (Hd o Ho). set_solver. }
    destruct (store_ops_ok s0 oct o (at_ t o) s) as (s1&E1&Ho1&Hoth); [done|rewrite Hs, decide_False by done; done| |].
    { intros src Hsrc. assert (source o = Some src) as Hs' by (unfold has_source; by rewrite Hsrc).
      destruct (source_not_before order a o b src) as [Hna Hne]; [done..|]. split; [done|].
      rewrite Hs, decide_False by done. done. }
    rewrite apply_ops_app, E1. cbn [mbind option_bind]. apply (IH (a ++ [o])); [by rewrite <- app_assoc|].
    intros x. destruct (decide (x = o)) as [->|Hne].
    - rewrite Ho1, decide_True by set_solver. done.
    - rewrite Hoth, Hs by done. destruct (decide (x ∈ a)); [rewrite decide_True by set_solver; done|].
      rewrite decide_False by set_solver. done. }
  destruct (Hloop order [] s0) as (s'&He&Hs'); [done|intros o; by rewrite decide_False by set_solver|].
  exists s'. split; [done|]. intros o. rewrite Hs'. case_decide as Ho; [done|].
  rewrite Hin, Hobjs in Ho. unfold at_. destruct (t !! o); [by destruct Ho|]. symmetry. apply denote_fresh.
Qed.
End Traverse.
End TransFacts.
