(* ===== verification/PgTransactionTheorems.v ===== *)
(** Placement-group transactions as the theorems state them: a transaction means
    the sequence of its calls, and the one sequence in which it does not. *)
From stdpp Require Import strings.
From S2P Require Import Prelude IntervalMap PgTransaction PgTransactionFacts.
#[local] Open Scope Z_scope.

Module TransTheorems.
Import ObjectData StoreOps PGTransaction TransFacts.

(** C40: A [PGTransaction] means what its calls say one after the other: for any
    sequence of calls in which every object used exists and none is made twice,
    clones form no cycle and no object of the store is removed twice, no
    assertion of the interface fails, [safe_create_traverse] visits every
    object once, objects before the ones they are cloned from, and the operations
    [generate_transaction] hands to the object store are all defined and leave
    the contents and attributes that performing the calls in order would,
    whatever truncations, overwrites and re-creations they combine, with the
    clones taken from the contents before the transaction. *)
Theorem transaction_refines {Oid} `{Countable Oid} (s0 s' : store Oid) (acts : list action) (rank : Oid -> nat) octopus
    (Hmeaning : meaning_all s0 acts s0 = Some s') (Hacts : Forall action_ok acts)
    (Hacyclic : forall o src, A_clone o src ∈ acts -> (rank o < rank src)%nat)
    (Honce : NoDup (acts ≫= removal s0)) :
  exists t, run_all acts ∅ = Some t /\
    forall objs, NoDup objs -> (forall o, o ∈ objs <-> is_Some (t !! o)) ->
      exists ps, generate_transaction octopus t objs = Some ps /\ apply_ops ps s0 = Some s'.
Proof.
  destruct (run_all_ok s0 acts ∅ s0 s') as (t&Hr&Hinv); [apply inv_start|done|done|done|done|].
  exists t. split; [done|]. intros objs Hnd Hobjs.
  assert (forall o s, o ∈ objs -> has_source (at_ t o) = Some s -> (rank o < rank s)%nat) as Hrank.
  { intros o s _ Hs. destruct (run_all_source acts ∅ t o s Hr Hs) as [Hs'|?]; [done|by apply Hacyclic]. }
  destruct (safe_create_traverse_ok t objs Hnd Hobjs rank Hrank) as (order&Ho&Hndo&Hin&Hfi).
  unfold generate_transaction. rewrite Ho. cbn [mbind option_bind]. eexists. split; [done|].
  destruct (apply_order t objs Hnd Hobjs rank Hrank s0 octopus order) as (s1&->&Hs1); [intros o; apply Hinv|done..|].
  f_equal. apply map_eq. intros o. rewrite Hs1. apply Hinv.
Qed.

(** A write to a snapshotted object that is also rolled back: the head (1) is
    cloned to 3, then made from clone 2 and overwritten. *)
Definition rollback_store : store Z := {[ 1 := mk_object [1; 2; 3] ∅; 2 := mk_object [7; 8] {[ "_" := [5] ]} ]}.
Definition rollback_acts : list (@action Z) :=
  [A_remove 1; A_clone 1 2; A_write 1 1 [9; 9; 9] 0; A_truncate 1 3; A_clone 3 1; A_setattr 1 "snapset" [4]].
Definition rollback_result : store Z :=
  {[ 1 := mk_object [7; 9; 9] {[ "_" := [5]; "snapset" := [4] ]}; 2 := mk_object [7; 8] {[ "_" := [5] ]};
     3 := mk_object [1; 2; 3] ∅ ]}.
Lemma transaction_refines_witness :
  exists t, run_all rollback_acts ∅ = Some t /\
    forall objs, NoDup objs -> (forall o, o ∈ objs <-> is_Some (t !! o)) ->
      exists ps, generate_transaction true t objs = Some ps /\ apply_ops ps rollback_store = Some rollback_result.
Proof.
  apply (transaction_refines rollback_store rollback_result rollback_acts
           (fun o => if o =? 3 then 0%nat else if o =? 1 then 1%nat else 2%nat) true).
  - vm_compute. reflexivity.
  - repeat constructor; vm_compute; done.
  - unfold rollback_acts. intros o src Hin. rewrite !elem_of_cons in Hin. destruct_or!; simplify_eq; cbn; try lia.
    by apply elem_of_nil in Hin.
  - vm_compute. repeat constructor; set_solver.
Defined.

(** A second removal of an object in one transaction is lost with the first:
    [remove] on an object that the transaction has made drops its whole entry,
    also the [delete_first] of an earlier removal.  Deleting, creating and
    deleting again leaves an empty transaction, and the object; creating it once
    more asks the store to create an object that exists, which is undefined, or,
    before Octopus, touches it and keeps the old contents. *)
Theorem second_removal_lost {Oid} `{Countable Oid} (s0 : store Oid) (o : Oid) (x : object) (Hx : s0 !! o = Some x) :
  (meaning_all s0 [A_remove o; A_create o; A_remove o] s0 = Some (delete o s0) /\
   run_all [A_remove o; A_create o; A_remove o] ∅ = Some ∅ /\
   generate_transaction true (∅ : op_map Oid) [] = Some []) /\
  (meaning_all s0 [A_remove o; A_create o; A_remove o; A_create o] s0 = Some (<[o := empty_object]> s0) /\
   exists t, run_all [A_remove o; A_create o; A_remove o; A_create o] ∅ = Some t /\
     (exists ps, generate_transaction true t [o] = Some ps /\ apply_ops ps s0 = None) /\
     (exists ps, generate_transaction false t [o] = Some ps /\ apply_ops ps s0 = Some s0)).
Proof.
  assert (forall op (t : op_map Oid), at_ (<[o := op]> t) o = op) as Hat by (intros; rewrite at_insert; by case_decide).
  assert (forall op, at_ ({[ o := op ]} : op_map Oid) o = op) as Hat1 by (intros op; apply (Hat op ∅)).
  assert (at_ (∅ : op_map Oid) o = fresh) as Hat0 by (unfold at_; by rewrite lookup_empty).
  assert (remove o ∅ = Some {[ o := deletion ]}) as E1.
  { unfold remove, get_object_op_for_modify. rewrite Hat0. reflexivity. }
  assert (create o {[ o := deletion ]} = Some (<[o := set_init Create deletion]> {[ o := deletion ]})) as E2.
  { unfold create. rewrite Hat1. reflexivity. }
  assert (remove o (<[o := set_init Create deletion]> {[ o := deletion ]}) = Some ∅) as E3.
  { unfold remove, get_object_op_for_modify. rewrite Hat. cbn. by rewrite delete_insert_eq, delete_singleton_eq. }
  assert (create o (∅ : op_map Oid) = Some {[ o := set_init Create fresh ]}) as E4.
  { unfold create. rewrite Hat0. reflexivity. }
  assert (forall oct, generate_transaction oct ({[ o := set_init Create fresh ]} : op_map Oid) [o] =
            Some [if oct then S_create o else S_touch o]) as E5.
  { intros oct. unfold generate_transaction, safe_create_traverse. cbn [graph_of].
    rewrite Hat1. cbn [has_source init_type set_init]. cbn [app length Nat.mul Nat.add traverse]. rewrite lookup_empty.
    rewrite bool_decide_true by (rewrite lookup_singleton_eq; eauto). cbn [app mbind option_bind flat_map]. rewrite Hat1.
    by destruct oct. }
  split; [|split].
  - cbn [meaning_all meaning run_all run]. rewrite Hx. cbn [mbind option_bind]. rewrite lookup_delete_eq. cbn [mbind option_bind].
    rewrite lookup_insert_eq. cbn [mbind option_bind]. rewrite delete_insert_eq, delete_delete_eq, E1. cbn [mbind option_bind].
    rewrite E2. cbn [mbind option_bind]. rewrite E3. done.
  - cbn [meaning_all meaning]. rewrite Hx. cbn [mbind option_bind]. rewrite lookup_delete_eq. cbn [mbind option_bind].
    rewrite lookup_insert_eq. cbn [mbind option_bind]. rewrite delete_insert_eq, delete_delete_eq, lookup_delete_eq.
    cbn [mbind option_bind]. by rewrite insert_delete_eq.
  - exists {[ o := set_init Create fresh ]}. cbn [run_all run]. rewrite E1. cbn [mbind option_bind]. rewrite E2.
    cbn [mbind option_bind]. rewrite E3. cbn [mbind option_bind]. rewrite E4. split; [done|].
    split; eexists; (split; [apply E5|]); cbn; by rewrite Hx.
Qed.
Lemma second_removal_lost_witness :
  let s0 : store Z := {[ 1 := mk_object [1; 2; 3] ∅ ]} in
  (meaning_all s0 [A_remove 1; A_create 1; A_remove 1] s0 = Some (delete 1 s0) /\
   run_all [A_remove 1; A_create 1; A_remove 1] ∅ = Some ∅ /\
   generate_transaction true (∅ : op_map Z) [] = Some []) /\
  (meaning_all s0 [A_remove 1; A_create 1; A_remove 1; A_create 1] s0 = Some (<[1 := empty_object]> s0) /\
   exists t, run_all [A_remove 1; A_create 1; A_remove 1; A_create 1] ∅ = Some t /\
     (exists ps, generate_transaction true t [1] = Some ps /\ apply_ops ps s0 = None) /\
     (exists ps, generate_transaction false t [1] = Some ps /\ apply_ops ps s0 = Some s0)).
Proof. intros s0. apply (second_removal_lost s0 1 (mk_object [1; 2; 3] ∅)). reflexivity. Defined.
End TransTheorems.
