(* ===== verification/ExtentRefMap.v ===== *)
(** The reference counts of shared blobs, [bluestore_extent_ref_map_t] of
    src/ceph-15.2.17/src/os/bluestore/bluestore_types.{h,cc}: a map from disk
    offsets to records of a length and a count. *)
From S2P Require Import Prelude Pg.

Module ExtentRefMap.

Record record_t := rec { length : Z; refs : Z }.
#[export] Instance record_eq_dec : EqDecision record_t.
Proof. solve_decision. Defined.

(** [std::map<uint64_t, record_t>] in key order; an iterator is a split of it,
    its element the head of the second part. *)
Abbreviation entry := (Z * record_t)%type.
Definition map_t := list entry.

Definition end_of (p : entry) : Z := add64 p.1 (length p.2).

(** [_check]. *)
Fixpoint check_from (pos refs0 : Z) (m : map_t) : option () :=
  match m with
  | [] => Some tt
  | p :: m =>
    ceph_assert (negb (p.1 <? pos)) ;;
    ceph_assert (negb ((p.1 =? pos) && (refs p.2 =? refs0))) ;;
    check_from (end_of p) (refs p.2) m
  end.
Definition _check (m : map_t) : option () := check_from 0 0 m.

(** [_maybe_merge_left]: the part before the iterator, and its element. *)
Definition _maybe_merge_left (pre : map_t) (p : entry) : map_t * entry :=
  match last pre with
  | None => (pre, p)
  | Some q =>
    if (refs q.2 =? refs p.2) && (end_of q =? p.1)
    then (removelast pre, (q.1, rec (u32 (length q.2 + length p.2)) (refs q.2)))
    else (pre, p)
  end.
Definition merge_at (pre suf : map_t) : map_t :=
  match suf with
  | [] => pre
  | p :: suf => let '(pre, p) := _maybe_merge_left pre p in pre ++ p :: suf
  end.

(** [insert] right after the iterator: nothing when the key is there. *)
Definition insert_after (k : Z) (r : record_t) (suf : map_t) : map_t :=
  match suf with
  | p :: _ => if p.1 =? k then suf else (k, r) :: suf
  | [] => [(k, r)]
  end.

Fixpoint lower_bound (offset : Z) (pre suf : map_t) : map_t * map_t :=
  match suf with
  | p :: suf' => if p.1 <? offset then lower_bound offset (pre ++ [p]) suf' else (pre, suf)
  | [] => (pre, [])
  end.
(** One step back when the element before reaches beyond [offset]. *)
Definition step_back (offset : Z) (pre suf : map_t) : map_t * map_t :=
  match last pre with
  | Some q => if end_of q <=? offset then (pre, suf) else (removelast pre, q :: suf)
  | None => (pre, suf)
  end.

(** ** Taking references *)

(** An entry that begins before [offset] is cut there. *)
Definition cut (offset : Z) (pre : map_t) (p : entry) (suf : map_t) : map_t * entry * map_t :=
  if p.1 <? offset then
    (pre ++ [(p.1, rec (u32 (offset - p.1)) (refs p.2))], (offset, rec (u32 (sub64 (end_of p) offset)) (refs p.2)), suf)
  else (pre, p, suf).

Fixpoint get_loop (fuel : nat) (offset len : Z) (pre suf : map_t) : option (map_t * map_t) :=
  if len =? 0 then Some (pre, suf)
  else
    match fuel with
    | O => None
    | S fuel =>
      match suf with
      | [] => Some (pre, [(offset, rec len 1)])
      | p :: suf' =>
        if offset <? p.1 then
          let newlen := Z.min (sub64 p.1 offset) len in
          let '(pre, n) := _maybe_merge_left pre (offset, rec (u32 newlen) 1) in
          get_loop fuel (add64 offset newlen) (u32 (len - newlen)) (pre ++ [n]) suf
        else
          ceph_assert (negb (p.1 <? offset) || (offset <? end_of p)) ;;
          let '(pre, p, suf') := cut offset pre p suf' in
          ceph_assert (p.1 =? offset) ;;
          if len <? length p.2 then
            Some (pre, (offset, rec len (u32 (refs p.2 + 1)))
                       :: insert_after (add64 offset len) (rec (u32 (length p.2 - len)) (refs p.2)) suf')
          else
            let '(pre, n) := _maybe_merge_left pre (offset, rec (length p.2) (u32 (refs p.2 + 1))) in
            get_loop fuel (add64 offset (length p.2)) (u32 (len - length p.2)) (pre ++ [n]) suf'
      end
    end.

Definition get (offset len : Z) (m : map_t) : option map_t :=
  let '(pre, suf) := lower_bound offset [] m in
  let '(pre, suf) := step_back offset pre suf in
  '(pre, suf) ← get_loop (2 * S (List.length m)) offset len pre suf;
  Some (merge_at pre suf).

(** ** Dropping references *)

(** The map, the extents released, and whether every count seen is one. *)
Fixpoint put_loop (fuel : nat) (offset len : Z) (pre suf : map_t) (release : list (Z * Z)) (unshared : bool)
    : option (map_t * list (Z * Z) * bool) :=
  if len =? 0 then Some (merge_at pre suf, release, unshared)
  else
    match fuel, suf with
    | S fuel, p :: suf =>
      ceph_assert (p.1 =? offset) ;;
      if len <? length p.2 then
        let unshared := unshared && (refs p.2 =? 1) in
        let suf := insert_after (add64 offset len) (rec (u32 (length p.2 - len)) (refs p.2)) suf in
        if 1 <? refs p.2 then
          Some (merge_at pre ((p.1, rec len (refs p.2 - 1)) :: suf), release, unshared && (refs p.2 - 1 =? 1))
        else Some (pre ++ suf, release ++ [(p.1, len)], unshared)
      else
        let offset' := add64 offset (length p.2) in
        let len' := u32 (len - length p.2) in
        if 1 <? refs p.2 then
          let '(pre, n) := _maybe_merge_left pre (p.1, rec (length p.2) (refs p.2 - 1)) in
          put_loop fuel offset' len' (pre ++ [n]) suf release (unshared && (refs p.2 - 1 =? 1))
        else put_loop fuel offset' len' pre suf (release ++ [(p.1, length p.2)]) unshared
    | _, _ => None
    end.

Definition put (offset len : Z) (m : map_t) (release : list (Z * Z)) : option (map_t * list (Z * Z) * bool) :=
  let '(pre, suf) := lower_bound offset [] m in
  let here := match suf with p :: _ => negb (offset <? p.1) | [] => false end in
  '(pre, suf) ←
    (if here then Some (pre, suf)
     else match last pre with
          | None => ceph_abort
          | Some q => if end_of q <=? offset then ceph_abort else Some (removelast pre, q :: suf)
          end);
  match suf with
  | [] => None
  | p :: suf' =>
    let unshared := negb (p.1 <? offset) || (refs p.2 =? 1) in
    let '(pre, p, suf') := cut offset pre p suf' in
    '(m, release, unshared) ← put_loop (S (S (List.length m))) offset len pre (p :: suf') release unshared;
    Some (m, release, unshared && forallb (fun p => refs p.2 =? 1) m)
  end.

(** ** Queries *)

Fixpoint contains_loop (offset len : Z) (suf : map_t) : bool :=
  if len =? 0 then true
  else
    match suf with
    | [] => false
    | p :: suf =>
      if offset <? p.1 then false
      else if add64 offset len <=? end_of p then true
      else
        let overlap := sub64 (end_of p) offset in
        contains_loop (add64 offset overlap) (u32 (len - overlap)) suf
    end.

Definition contains (offset len : Z) (m : map_t) : bool :=
  let '(pre, suf) := lower_bound offset [] m in
  match suf with
  | p :: _ => if p.1 =? offset then contains_loop offset len suf
              else match last pre with
                   | None => false
                   | Some q => if end_of q <=? offset then false else contains_loop offset len (q :: suf)
                   end
  | [] => match last pre with
          | None => false
          | Some q => if end_of q <=? offset then false else contains_loop offset len [q]
          end
  end.

Definition intersects (offset len : Z) (m : map_t) : bool :=
  let '(pre, suf) := lower_bound offset [] m in
  let '(_, suf) := step_back offset pre suf in
  match suf with
  | [] => false
  | p :: _ => negb (add64 offset len <=? p.1)
  end.
End ExtentRefMap.
