(* ===== verification/ExtentRefFacts.v ===== *)
(** Facts on the reference counts of shared blobs: records that do not overlap
    and are merged ([wf]), the count of each byte ([cnt]), and what the loops of
    [get] and [put] do to it. *)
From S2P Require Import Prelude Pg ExtentRefMap.

Module ExtentRefFacts.
Import ExtentRefMap Pg.Binning.

Abbreviation fin p := (p.1 + length p.2).

Definition good (p : entry) : Prop :=
  0 <= p.1 /\ 0 < length p.2 < two32 /\ 0 < refs p.2 < two32 /\ fin p < two64.
(** Neither an overlap nor a neighbour that should be merged. *)
Definition link (p q : entry) : Prop :=
  fin p <= q.1 /\ ~ (fin p = q.1 /\ refs p.2 = refs q.2).
Fixpoint links (m : map_t) : Prop :=
  match m with
  | [] => True
  | p :: m' => match m' with q :: _ => link p q | [] => True end /\ links m'
  end.
Definition wf (m : map_t) : Prop := Forall good m /\ links m.
Definition before (pre : map_t) (k : Z) : Prop := forall p, last pre = Some p -> fin p <= k.

(** The number of references to a byte, and the number of bytes kept. *)
Definition seg (o l r x : Z) : Z := if (o <=? x) && (x <? o + l) then r else 0.
Definition cnt1 (x : Z) (p : entry) : Z := seg p.1 (length p.2) (refs p.2) x.
Definition cnt (m : map_t) (x : Z) : Z := foldr (fun p s => cnt1 x p + s) 0 m.
Definition total (m : map_t) : Z := foldr (fun p s => length p.2 + s) 0 m.

(** ** Segments, sums, chains *)

Lemma seg_split o l1 l2 r x : 0 <= l1 -> 0 <= l2 -> seg o (l1 + l2) r x = seg o l1 r x + seg (o + l1) l2 r x.
Proof. intros. unfold seg. repeat case_match; zbool; lia. Qed.
Lemma seg_add o l r1 r2 x : seg o l (r1 + r2) x = seg o l r1 x + seg o l r2 x.
Proof. unfold seg. case_match; lia. Qed.
Lemma seg_nonneg o l r x : 0 <= r -> 0 <= seg o l r x.
Proof. unfold seg. case_match; lia. Qed.
Lemma seg_in o l r x : o <= x < o + l -> seg o l r x = r.
Proof. intros. unfold seg. case_match; zbool; lia. Qed.
Lemma seg_out o l r x : x < o \/ o + l <= x -> seg o l r x = 0.
Proof. intros. unfold seg. case_match; zbool; lia. Qed.

Lemma cnt_app a b x : cnt (a ++ b) x = cnt a x + cnt b x.
Proof. induction a as [|p a IH]; simpl; [done|]. unfold cnt in *. simpl. lia. Qed.
Lemma cnt_cons p m x : cnt (p :: m) x = cnt1 x p + cnt m x.
Proof. done. Qed.
Lemma cnt_nil x : cnt [] x = 0.
Proof. done. Qed.
Lemma kept_app a b : total (a ++ b) = total a + total b.
Proof. induction a as [|p a IH]; simpl; [done|]. unfold total in *. simpl. lia. Qed.
Lemma kept_cons p m : total (p :: m) = length p.2 + total m.
Proof. done. Qed.
Lemma kept_nil : total [] = 0.
Proof. done. Qed.

Lemma kept_nonneg m : Forall good m -> 0 <= total m.
Proof. induction 1 as [|p m [? [? ?]] _ IH]; unfold total in *; simpl; lia. Qed.
Lemma cnt1_nonneg p x : good p -> 0 <= cnt1 x p.
Proof. intros (?&?&?&?). apply seg_nonneg. lia. Qed.
Lemma cnt_nonneg m x : Forall good m -> 0 <= cnt m x.
Proof.
  induction 1 as [|p m Hp _ IH]; [done|]. rewrite cnt_cons.
  pose proof (cnt1_nonneg _ x Hp). lia.
Qed.

Lemma links_cons p m : links (p :: m) <-> (forall q, head m = Some q -> link p q) /\ links m.
Proof. destruct m; simpl; naive_solver. Qed.
Lemma links_app a b :
  links (a ++ b) <-> links a /\ links b /\ (forall p q, last a = Some p -> head b = Some q -> link p q).
Proof.
  induction a as [|p a IH]; [simpl; naive_solver|]. change ((p :: a) ++ b) with (p :: (a ++ b)).
  rewrite !links_cons, IH. destruct a as [|p' a]; [simpl; naive_solver|].
  rewrite last_cons_cons. simpl head. naive_solver.
Qed.
Lemma wf_app a b :
  wf (a ++ b) <-> wf a /\ wf b /\ (forall p q, last a = Some p -> head b = Some q -> link p q).
Proof. unfold wf. rewrite Forall_app, links_app. tauto. Qed.
Lemma wf_cons p m : wf (p :: m) <-> good p /\ wf m /\ (forall q, head m = Some q -> link p q).
Proof. unfold wf. rewrite Forall_cons, links_cons. tauto. Qed.
Lemma wf_nil : wf [].
Proof. done. Qed.
Lemma wf_single p : good p -> wf [p].
Proof. intros. apply wf_cons. split_and!; [done|done|]. done. Qed.
#[export] Hint Resolve wf_nil wf_single : ceph.

Lemma before_snoc pre p k : before (pre ++ [p]) k <-> fin p <= k.
Proof. unfold before. rewrite last_snoc. naive_solver. Qed.
Lemma before_le pre k k' : before pre k -> k <= k' -> before pre k'.
Proof. intros H ? p Hp. specialize (H p Hp). lia. Qed.

(** The sums inside the records of a chain do not wrap. *)
Lemma end_of_good p : good p -> end_of p = fin p.
Proof. intros (?&?&?&?). apply add64_small. lia. Qed.

(** Everything before the end of a chain ends before its last record does. *)
Lemma wf_before_cnt pre k x : wf pre -> before pre k -> k <= x -> cnt pre x = 0.
Proof.
  revert k. induction pre as [|p pre IH] using rev_ind; [done|].
  intros k (Hpre&Hp&Hl)%wf_app Hb%before_snoc ?. rewrite cnt_app, cnt_cons, cnt_nil.
  apply wf_cons in Hp as [(?&?&?&?) _].
  rewrite (IH p.1); [|done| |lia].
  - unfold cnt1. rewrite seg_out by lia. done.
  - intros q Hq. by destruct (Hl q p Hq eq_refl).
Qed.
Lemma wf_after_cnt m k x : wf m -> (forall q, head m = Some q -> k <= q.1) -> x < k -> cnt m x = 0.
Proof.
  revert k. induction m as [|p m IH]; [done|]. intros k (Hp&Hm&Hl)%wf_cons Hk ?.
  rewrite cnt_cons. specialize (Hk p eq_refl). destruct Hp as (?&?&?&?).
  rewrite (IH (fin p)); [|done| |lia].
  - unfold cnt1. rewrite seg_out by lia. done.
  - intros q Hq. by destruct (Hl q Hq).
Qed.

(** ** Merging *)

(** What [_maybe_merge_left] keeps. *)
Record merged (pre : map_t) (p : entry) (pre' : map_t) (p' : entry) : Prop := {
  mg_wf : wf (pre' ++ [p']);
  mg_fin : fin p' = fin p;
  mg_refs : refs p'.2 = refs p.2;
  mg_cnt : forall x, cnt (pre' ++ [p']) x = cnt (pre ++ [p]) x;
  mg_total : total (pre' ++ [p']) = total (pre ++ [p]);
  mg_in : forall q, q ∈ pre -> exists q', q' ∈ pre' ++ [p'] /\ refs q'.2 = refs q.2;
}.

Lemma merge_left_ok pre p :
  wf pre -> good p -> before pre p.1 -> total pre + length p.2 < two32 ->
  exists pre' p', _maybe_merge_left pre p = (pre', p') /\ merged pre p pre' p'.
Proof.
  intros Hpre Hp Hb Ht. unfold _maybe_merge_left.
  destruct pre as [|q pre _] using rev_ind.
  { simpl. do 2 eexists. split; [done|]. split; try done.
    - by apply wf_single.
    - intros q Hq. set_solver. }
  rewrite last_snoc, removelast_last. apply before_snoc in Hb.
  apply wf_app in Hpre as (Hpre&Hq&Hl). apply wf_cons in Hq as [Hq _].
  rewrite (end_of_good q Hq).
  rewrite kept_app, kept_cons, kept_nil in Ht. pose proof (kept_nonneg pre (proj1 Hpre)).
  destruct Hp as (?&?&?&?), Hq as (?&?&?&?).
  destruct ((refs q.2 =? refs p.2) && (fin q =? p.1)) eqn:E; do 2 eexists; (split; [done|]).
  - zbool. rewrite u32_small by lia. split; simpl.
    + apply wf_app. split_and!; [done| |].
      * apply wf_single. repeat split; simpl; lia.
      * intros a b Ha [= <-]. exact (Hl a q Ha eq_refl).
    + lia.
    + done.
    + intros x. rewrite !cnt_app, !cnt_cons, !cnt_nil. unfold cnt1. simpl.
      rewrite seg_split by lia. replace (q.1 + length q.2) with p.1 by lia. replace (refs q.2) with (refs p.2). lia.
    + rewrite !kept_app, !kept_cons, !kept_nil. simpl. lia.
    + intros a [Ha|Ha%list_elem_of_singleton]%elem_of_app.
      * exists a. set_solver.
      * subst. eexists. split; [apply elem_of_app; right; by apply list_elem_of_singleton|done].
  - split; try done.
    + apply wf_app. split_and!.
      * apply wf_app. split_and!; [done|by apply wf_single|]. intros a b Ha [= <-]. exact (Hl a q Ha eq_refl).
      * by apply wf_single.
      * intros a b Ha [= <-]. rewrite last_snoc in Ha. injection Ha as <-. split; [lia|].
        intros [? ?]. apply andb_false_iff in E. destruct E; zbool; lia.
    + intros a Ha. exists a. set_solver.
Qed.

Lemma merge_at_ok pre suf :
  wf pre -> wf suf -> (forall q, head suf = Some q -> before pre q.1) -> total pre + total suf < two32 ->
  wf (merge_at pre suf) /\ (forall x, cnt (merge_at pre suf) x = cnt pre x + cnt suf x) /\
  total (merge_at pre suf) = total pre + total suf /\
  (forall q, q ∈ pre ++ suf -> exists q', q' ∈ merge_at pre suf /\ refs q'.2 = refs q.2).
Proof.
  intros Hpre Hsuf Hb Ht. destruct suf as [|p suf]; cbn [merge_at].
  { rewrite kept_nil in *. split_and!; [done|intros; rewrite cnt_nil; lia|lia|].
    rewrite app_nil_r. eauto. }
  apply wf_cons in Hsuf as (Hp&Hsuf&Hl). rewrite kept_cons in Ht.
  pose proof (kept_nonneg suf (proj1 Hsuf)).
  destruct (merge_left_ok pre p) as (pre'&p'&E&[Hwf Hf Hr Hc Htt Hin]); [done|done|by apply Hb|lia|].
  rewrite E, cons_middle, app_assoc. split_and!.
  - apply wf_app. split_and!; [done|done|]. intros a b. rewrite last_snoc. intros [= <-] Hs.
    destruct (Hl b Hs). unfold link. rewrite Hf, Hr. done.
  - intros x. rewrite cnt_app, Hc, cnt_app, !cnt_cons, cnt_nil. lia.
  - rewrite kept_app, Htt, kept_app, !kept_cons, kept_nil. lia.
  - intros q [Hq|[->|Hq]%elem_of_cons]%elem_of_app.
    + destruct (Hin q Hq) as (q'&?&?). exists q'. set_solver.
    + exists p'. split; [set_solver|done].
    + exists q. set_solver.
Qed.

(** ** Iterators *)

Lemma lower_bound_split offset pre suf pre' suf' :
  lower_bound offset pre suf = (pre', suf') -> Forall (fun p => p.1 < offset) pre ->
  pre ++ suf = pre' ++ suf' /\ Forall (fun p => p.1 < offset) pre' /\
  (forall q, head suf' = Some q -> offset <= q.1).
Proof.
  revert pre. induction suf as [|p suf IH]; cbn [lower_bound]; intros pre.
  { intros [= <- <-] ?. by split_and!. }
  destruct (p.1 <? offset) eqn:E; intros Hl Hpre.
  - apply IH in Hl as (Ha&?&?).
    + rewrite <- app_assoc in Ha. done.
    + zbool. apply Forall_app. auto.
  - injection Hl as <- <-. split_and!; [done|done|]. intros q [= <-]. by zbool.
Qed.

(** An iterator between [pre] and [suf] for [offset]: what precedes ends before
    it, the element ends beyond it. *)
Record iter (offset : Z) (pre suf : map_t) : Prop := {
  it_pre : wf pre;
  it_suf : wf suf;
  it_before : before pre offset;
  it_bound : forall q, head suf = Some q -> before pre q.1;
  it_fin : forall q, head suf = Some q -> offset < fin q;
  it_link : forall p q, last pre = Some p -> head suf = Some q -> q.1 < offset -> link p q;
}.

Lemma iter_split offset pre suf :
  wf (pre ++ suf) -> before pre offset -> (forall q, head suf = Some q -> offset < fin q) -> iter offset pre suf.
Proof.
  intros (?&?&Hl)%wf_app Hb Hf. split; try done; [|auto]. intros q Hq p Hp. by destruct (Hl p q Hp Hq).
Qed.

Lemma step_back_spec offset m pre suf pre' suf' :
  wf m -> lower_bound offset [] m = (pre, suf) -> step_back offset pre suf = (pre', suf') ->
  pre' ++ suf' = m /\ iter offset pre' suf'.
Proof.
  intros Hm Hlb Hsb. apply lower_bound_split in Hlb as (Em&Hpre&Hsuf); [|done]. simpl in Em. subst m.
  unfold step_back in Hsb. destruct pre as [|q pre _] using rev_ind.
  - simplify_eq/=. split; [done|]. apply iter_split; [done|done|].
    intros q Hq. pose proof (Hsuf q Hq). destruct suf'; simplify_eq/=.
    apply wf_cons in Hm as [(?&?&?&?) _]. lia.
  - rewrite last_snoc, removelast_last in Hsb.
    assert (good q) as Hq by (destruct Hm as [HF _]; rewrite !Forall_app, Forall_singleton in HF; tauto).
    rewrite (end_of_good q Hq) in Hsb. case_match; zbool; simplify_eq/=.
    + split; [done|]. apply iter_split; [done|by apply before_snoc|].
      intros a Ha. pose proof (Hsuf a Ha). destruct suf'; simplify_eq/=.
      apply wf_app in Hm as (_&[(?&?&?&?) _]%wf_cons&_). lia.
    + rewrite <- app_assoc in *. split; [done|]. apply iter_split; [done| |naive_solver].
      intros a Ha. apply wf_app in Hm as (_&_&Hl). destruct (Hl a q Ha eq_refl).
      apply Forall_app in Hpre as [_ [Hlt _]%Forall_cons]. lia.
Qed.

(** Cutting at [offset] leaves an element that begins there. *)
Record cut_at (offset : Z) (pre : map_t) (p : entry) (suf pre' : map_t) (p' : entry) : Prop := {
  ca_start : p'.1 = offset;
  ca_fin : fin p' = fin p;
  ca_refs : refs p'.2 = refs p.2;
  ca_iter : iter offset pre' (p' :: suf);
  ca_cnt : forall x, cnt pre' x + cnt1 x p' = cnt pre x + cnt1 x p;
  ca_total : total pre' + length p'.2 = total pre + length p.2;
  ca_shape : (p.1 = offset /\ pre' = pre) \/ (p.1 < offset /\ exists p1, pre' = pre ++ [p1] /\ refs p1.2 = refs p.2);
}.
Lemma cut_ok offset pre p suf :
  iter offset pre (p :: suf) -> p.1 <= offset ->
  exists pre' p', cut offset pre p suf = (pre', p', suf) /\ cut_at offset pre p suf pre' p'.
Proof.
  intros [Hpre (Hp&Hsuf&Hl)%wf_cons Hb Hbd Hf Hk] Hle. specialize (Hbd p eq_refl). specialize (Hf p eq_refl).
  destruct p as [o [l r]]. unfold cut. cbn [fst snd refs].
  rewrite end_of_good by done. destruct Hp as (?&?&?&?). cbn [fst snd length refs] in *. case_match; zbool.
  - unwrap64. rewrite !u32_small by lia. do 2 eexists. split; [done|].
    assert (wf (pre ++ [(o, rec (offset - o) r)])) as Hw.
    { apply wf_app. split_and!; [done|apply wf_single; repeat split; cbn; lia|].
      intros a b Ha [= <-]. exact (Hk a _ Ha eq_refl ltac:(done)). }
    split; cbn [fst snd refs length]; try lia.
    + split; [done| |apply before_snoc; cbn; lia|..].
      * apply wf_cons. split_and!; [repeat split; cbn; lia|done|].
        intros q Hq. destruct (Hl q Hq). unfold link. cbn in *. split; [lia|]. intros [? ?]; lia.
      * intros q [= <-]. apply before_snoc. cbn. lia.
      * intros q [= <-]. cbn. lia.
      * intros a b _ [= <-]. cbn. lia.
    + intros x. rewrite cnt_app, cnt_cons, cnt_nil. unfold cnt1. cbn [fst snd refs length].
      replace l with (offset - o + (o + l - offset)) at 2 by lia. rewrite seg_split by lia.
      replace (o + (offset - o)) with offset by lia. lia.
    + rewrite kept_app, kept_cons, kept_nil. cbn. lia.
    + right. split; [done|]. by eexists.
  - assert (o = offset) as -> by lia. do 2 eexists. split; [done|].
    split; try done; [|by left]. split; try done.
    + by apply wf_cons.
    + intros q [= <-]. by cbn.
    + intros q [= <-]. by cbn.
Qed.

(** Past an element that ends at [k]. *)
Lemma iter_next k pre n suf :
  wf (pre ++ [n]) -> wf suf -> fin n = k -> (forall q, head suf = Some q -> k <= q.1) -> iter k (pre ++ [n]) suf.
Proof.
  intros Hpre Hsuf Hn Hq. split; [done|done|apply before_snoc; lia|..].
  - intros q Hh. apply before_snoc. specialize (Hq q Hh). lia.
  - intros q Hh. specialize (Hq q Hh). destruct suf as [|p suf]; simplify_eq/=.
    apply wf_cons in Hsuf as [(?&?&?&?) _]. lia.
  - intros p q _ Hh ?. specialize (Hq q Hh). lia.
Qed.

(** ** The loop of [get] *)

Definition room (pre suf : map_t) (len : Z) : Prop := total pre + total suf + len < two32.

(** A new element before the iterator. *)
Lemma push_ok offset pre suf l r :
  iter offset pre suf -> 0 <= offset -> 0 < l -> 0 < r < two32 -> offset + l < two64 -> total pre + l < two32 ->
  exists pre' n, _maybe_merge_left pre (offset, rec l r) = (pre', n) /\ wf (pre' ++ [n]) /\ fin n = offset + l /\
    refs n.2 = r /\ (forall x, cnt (pre' ++ [n]) x = cnt pre x + seg offset l r x) /\
    total (pre' ++ [n]) = total pre + l /\
    (forall q, q ∈ pre -> exists q', q' ∈ pre' ++ [n] /\ refs q'.2 = refs q.2).
Proof.
  intros Hi ? ? ? ? Ht. pose proof (kept_nonneg pre (proj1 (it_pre _ _ _ Hi))).
  destruct (merge_left_ok pre (offset, rec l r)) as (pre'&n&E&[Hwf Hf Hr Hc Htt Hin]);
    [apply Hi|repeat split; cbn; lia|apply Hi|done|].
  exists pre', n. split_and!; [done|done|done|done| | |done].
  - intros x. rewrite Hc, cnt_app, cnt_cons, cnt_nil. unfold cnt1. cbn. lia.
  - rewrite Htt, kept_app, kept_cons, kept_nil. cbn. lia.
Qed.

Definition gap (offset : Z) (suf : map_t) : nat :=
  match suf with p :: _ => if offset <? p.1 then 1 else 0 | [] => 0 end.

Lemma insert_after_new k r suf :
  (forall q, head suf = Some q -> k < q.1) -> insert_after k r suf = (k, r) :: suf.
Proof.
  intros Hq. destruct suf as [|p suf]; [done|]. specialize (Hq p eq_refl).
  unfold insert_after. case_match; zbool; [lia|done].
Qed.

(** The element at the iterator is longer than what is left. *)
Lemma shorten_ok offset len p suf r :
  wf (p :: suf) -> p.1 = offset -> 0 < len < length p.2 -> 0 < r < two32 -> r <> refs p.2 ->
  insert_after (add64 offset len) (rec (u32 (length p.2 - len)) (refs p.2)) suf
    = (offset + len, rec (length p.2 - len) (refs p.2)) :: suf /\
  wf ((offset + len, rec (length p.2 - len) (refs p.2)) :: suf) /\
  wf ((offset, rec len r) :: (offset + len, rec (length p.2 - len) (refs p.2)) :: suf) /\
  (forall x, cnt1 x p = seg offset len (refs p.2) x + cnt1 x (offset + len, rec (length p.2 - len) (refs p.2))).
Proof.
  intros ((?&?&?&?)&Hsuf&Hl)%wf_cons <- ? ? ?. unwrap64. rewrite u32_small by lia.
  assert (wf ((p.1 + len, rec (length p.2 - len) (refs p.2)) :: suf)).
  { apply wf_cons. split_and!; [repeat split; cbn; lia|done|]. intros q Hq. destruct (Hl q Hq).
    unfold link. cbn. split; [lia|]. intros [? ?]. lia. }
  split_and!; [|done| |].
  - apply insert_after_new. intros q Hq. destruct (Hl q Hq). lia.
  - apply wf_cons. split_and!; [repeat split; cbn; lia|done|]. intros q [= <-].
    unfold link. cbn. split; [lia|]. intros [? ?]. lia.
  - intros x. unfold cnt1. cbn. rewrite <- seg_split by lia. f_equal. lia.
Qed.

(** What [get] leaves around the iterator. *)
Record taken (offset len : Z) (pre suf pre' suf' : map_t) : Prop := {
  tk_pre : wf pre';
  tk_suf : wf suf';
  tk_bound : forall q, head suf' = Some q -> before pre' q.1;
  tk_cnt : forall x, cnt pre' x + cnt suf' x = cnt pre x + cnt suf x + seg offset len 1 x;
  tk_total : total pre' + total suf' <= total pre + total suf + len;
}.

Lemma taken_step offset l len pre0 suf0 pre suf pre' suf' :
  taken (offset + l) (len - l) pre suf pre' suf' -> 0 <= l <= len ->
  (forall x, cnt pre x + cnt suf x = cnt pre0 x + cnt suf0 x + seg offset l 1 x) ->
  total pre + total suf <= total pre0 + total suf0 + l ->
  taken offset len pre0 suf0 pre' suf'.
Proof.
  intros [? ? ? Hc Ht] ? Hc0 Ht0. split; try done; [|lia]. intros x.
  rewrite Hc, Hc0. replace len with (l + (len - l)) at 2 by lia. rewrite (seg_split _ l) by lia. lia.
Qed.

Lemma get_loop_zero fuel offset pre suf : get_loop fuel offset 0 pre suf = Some (pre, suf).
Proof. by destruct fuel. Qed.
Lemma taken_zero offset pre suf : iter offset pre suf -> taken offset 0 pre suf pre suf.
Proof. intros [? ? ? ? ? ?]. split; try done; [|lia]. intros x. rewrite seg_out by lia. lia. Qed.

Lemma get_loop_ok fuel offset len pre suf :
  (len <> 0 -> (2 * List.length suf + gap offset suf < fuel)%nat) ->
  iter offset pre suf -> 0 <= offset -> 0 <= len -> offset + len < two64 -> room pre suf len ->
  (forall x, offset <= x < offset + len -> cnt suf x < two32 - 1) ->
  exists pre' suf', get_loop fuel offset len pre suf = Some (pre', suf') /\ taken offset len pre suf pre' suf'.
Proof.
  revert offset len pre suf. induction fuel as [|fuel IH]; intros offset len pre suf Hfuel Hi Ho Hlen Hend Hroom Hmax;
    (destruct (Z.eq_dec len 0) as [->|E0];
     [exists pre, suf; split; [apply get_loop_zero|by eapply taken_zero]|specialize (Hfuel E0)]); [lia|].
  cbn [get_loop]. rewrite (proj2 (Z.eqb_neq len 0)) by done.
  pose proof Hi as [Hpre Hsuf Hb Hbd Hf Hk]. unfold room in *.
  pose proof (kept_nonneg pre (proj1 Hpre)). pose proof (kept_nonneg suf (proj1 Hsuf)).
  destruct suf as [|p suf].
  { do 2 eexists. split; [done|]. split; try done.
    - apply wf_single. rewrite kept_nil in *. repeat split; cbn; lia.
    - intros q [= <-]. done.
    - intros x. rewrite cnt_cons, cnt_nil. unfold cnt1. cbn. lia.
    - rewrite kept_cons, kept_nil. cbn. lia. }
  rewrite kept_cons in *. pose proof Hsuf as (Hp&Hsuf'&Hl)%wf_cons.
  specialize (Hf p eq_refl). pose proof Hp as (?&?&?&?). pose proof (kept_nonneg suf (proj1 Hsuf')).
  cbn [gap List.length] in Hfuel.
  destruct (offset <? p.1) eqn:E1; zbool.
  - unwrap64. set (l := Z.min (p.1 - offset) len). rewrite !u32_small by lia.
    destruct (push_ok offset pre (p :: suf) l 1) as (pre'&n&->&Hwf&Hfin&_&Hc&Ht&_); [done|lia..|].
    destruct (IH (offset + l) (len - l) (pre' ++ [n]) (p :: suf)) as (pre2&suf2&->&Htk).
    + cbn [gap List.length]. case_match; zbool; lia.
    + apply iter_next; [done|done|done|]. intros q [= <-]. lia.
    + lia.
    + lia.
    + lia.
    + rewrite Ht, kept_cons. lia.
    + intros x ?. apply Hmax. lia.
    + do 2 eexists. split; [done|]. eapply taken_step; [exact Htk|lia| |].
      * intros x. rewrite Hc. lia.
      * rewrite Ht. lia.
  - rewrite end_of_good by done. replace (negb (p.1 <? offset) || (offset <? fin p)) with true
      by (destruct (p.1 <? offset) eqn:?; zbool; simpl; [symmetry; apply Z.ltb_lt; lia|done]).
    destruct (cut_ok offset pre p suf Hi) as (pre1&p1&->&[Hs1 Hf1 Hr1 Hi1 Hc1 Ht1 _]); [lia|].
    rewrite (proj2 (Z.eqb_eq _ _) Hs1).
    pose proof Hi1 as [Hpre1 Hsuf1 Hb1 Hbd1 _ _]. pose proof (kept_nonneg pre1 (proj1 Hpre1)).
    assert (refs p.2 < two32 - 1) as Hlt.
    { specialize (Hmax offset ltac:(lia)). rewrite cnt_cons in Hmax.
      pose proof (cnt_nonneg suf offset (proj1 Hsuf')). unfold cnt1 in Hmax. rewrite seg_in in Hmax; lia. }
    pose proof Hsuf1 as ((?&?&?&?)&_&Hl1)%wf_cons.
    rewrite (u32_small (refs p1.2 + 1)) by lia. destruct (len <? length p1.2) eqn:E2; zbool.
    + destruct (shorten_ok offset len p1 suf (refs p1.2 + 1)) as (->&_&Hw&Hcc); [done|done|lia|lia|lia|].
      do 2 eexists. split; [done|]. split; try done.
      * intros q [= <-]. done.
      * intros x. rewrite !cnt_cons. specialize (Hc1 x). specialize (Hcc x). unfold cnt1 at 1. cbn [fst snd length refs].
        rewrite seg_add. lia.
      * rewrite !kept_cons. cbn [fst snd length refs]. lia.
    + destruct (push_ok offset pre1 (p1 :: suf) (length p1.2) (refs p1.2 + 1)) as (pre2&n&->&Hwf&Hfin&_&Hc&Ht&_);
        [done|lia..|].
      rewrite add64_small by lia. rewrite u32_small by lia.
      destruct (IH (offset + length p1.2) (len - length p1.2) (pre2 ++ [n]) suf) as (pre3&suf3&->&Htk).
      * intros _. destruct suf as [|q suf]; cbn [gap List.length] in *; [lia|]. repeat case_match; lia.
      * apply iter_next; [done|done|done|]. intros q Hq. destruct (Hl1 q Hq). lia.
      * lia.
      * lia.
      * lia.
      * unfold room. rewrite Ht. lia.
      * intros x ?. specialize (Hmax x ltac:(lia)). rewrite cnt_cons in Hmax.
        pose proof (cnt1_nonneg p x Hp). lia.
      * do 2 eexists. split; [done|]. eapply taken_step; [exact Htk|lia| |].
        -- intros x. rewrite Hc, seg_add, cnt_cons. specialize (Hc1 x). unfold cnt1 at 1 in Hc1. rewrite Hs1 in Hc1. lia.
        -- rewrite Ht, kept_cons. lia.
Qed.

(** ** The loop of [put] *)

(** How often the extents released cover a byte. *)
Definition freed (es : list (Z * Z)) (x : Z) : Z := foldr (fun e s => seg e.1 e.2 1 x + s) 0 es.
Definition one (n : Z) : Z := if n =? 1 then 1 else 0.
Definition shared (m : map_t) : Prop := exists q, q ∈ m /\ refs q.2 <> 1.

Lemma seg_ext o l v w x : (o <= x < o + l -> v = w) -> seg o l v x = seg o l w x.
Proof. unfold seg. intros Hv. case_match; [|done]. zbool. auto. Qed.
Lemma freed_cons e es x : freed (e :: es) x = seg e.1 e.2 1 x + freed es x.
Proof. done. Qed.

Record dropped (offset len : Z) (pre suf m' : map_t) (new : list (Z * Z)) (un' : bool) : Prop := {
  dp_wf : wf m';
  dp_cnt : forall x, cnt m' x = cnt pre x + cnt suf x - seg offset len 1 x;
  dp_freed : forall x, freed new x = seg offset len (one (cnt suf x)) x;
  dp_new : Forall (fun e => 0 < e.2) new;
  dp_total : total m' <= total pre + total suf;
  dp_shared : un' = false -> shared m';
}.

Lemma dropped_zero offset pre suf un :
  iter offset pre suf -> total pre + total suf < two32 -> (un = false -> shared pre) ->
  dropped offset 0 pre suf (merge_at pre suf) [] un.
Proof.
  intros [? ? ? ? ? ?] Ht Hun. destruct (merge_at_ok pre suf) as (?&Hc&?&Hin); [done..|].
  split; try done.
  - intros x. rewrite Hc, seg_out by lia. lia.
  - intros x. by rewrite seg_out by lia.
  - lia.
  - intros (q&Hq&?)%Hun. destruct (Hin q) as (q'&?&Hr); [set_solver|]. exists q'. by rewrite Hr.
Qed.

(** The element [p] at the iterator goes, with the counts of [pre1] in its place. *)
Lemma dropped_step offset len pre pre1 p suf m' new e un' :
  dropped (offset + length p.2) (len - length p.2) pre1 suf m' new un' ->
  wf (p :: suf) -> p.1 = offset -> length p.2 <= len ->
  (forall x, cnt pre1 x = cnt pre x + seg offset (length p.2) (refs p.2 - 1) x) ->
  total pre1 <= total pre + length p.2 ->
  e = (if refs p.2 =? 1 then [(offset, length p.2)] else []) ->
  dropped offset len pre (p :: suf) m' (e ++ new) un'.
Proof.
  intros [Hwf Hc Hfr Hnew Ht Hsh] (Hp&Hsuf&Hl)%wf_cons Hs ? Hc1 Ht1 He. pose proof Hp as (?&?&?&?).
  assert (forall x, x < offset + length p.2 -> cnt suf x = 0) as Hz.
  { intros x ?. apply (wf_after_cnt suf (fin p)); [done| |lia]. intros q Hq. by destruct (Hl q Hq). }
  assert (forall v x, seg offset len v x
    = seg offset (length p.2) v x + seg (offset + length p.2) (len - length p.2) v x) as Hsplit.
  { intros v x. rewrite <- seg_split by lia. f_equal. lia. }
  assert (forall x, seg offset (length p.2) (one (cnt (p :: suf) x)) x = seg offset (length p.2) (one (refs p.2)) x) as Ha.
  { intros x. apply seg_ext. intros ?. rewrite cnt_cons, Hz by lia. unfold cnt1. rewrite Hs, seg_in by lia.
    f_equal. lia. }
  assert (forall x, seg (offset + length p.2) (len - length p.2) (one (cnt (p :: suf) x)) x
    = seg (offset + length p.2) (len - length p.2) (one (cnt suf x)) x) as Hb.
  { intros x. apply seg_ext. intros ?. rewrite cnt_cons. unfold cnt1. rewrite seg_out by lia. done. }
  split; try done.
  - intros x. rewrite Hc, Hc1, cnt_cons, (Hsplit 1). unfold cnt1. rewrite Hs.
    replace (refs p.2) with (refs p.2 - 1 + 1) at 2 by lia. rewrite seg_add. lia.
  - intros x. rewrite Hsplit, Ha, Hb, <- Hfr. subst e. unfold one. case_match; cbn [app].
    + rewrite freed_cons. done.
    + unfold seg at 1. by case_match.
  - apply Forall_app. split; [|done]. subst e. case_match; [|done]. repeat constructor. cbn. lia.
  - rewrite kept_cons. lia.
Qed.

(** The element at the iterator is longer than what is left to drop. *)
Lemma put_short offset len pre p suf rel un :
  iter offset pre (p :: suf) -> p.1 = offset -> 0 < len < length p.2 -> total pre + total (p :: suf) < two32 ->
  (un = false -> shared pre) ->
  exists m' new un',
    (let unshared := un && (refs p.2 =? 1) in
     let suf' := insert_after (add64 offset len) (rec (u32 (length p.2 - len)) (refs p.2)) suf in
     if 1 <? refs p.2
     then Some (merge_at pre ((p.1, rec len (refs p.2 - 1)) :: suf'), rel, unshared && (refs p.2 - 1 =? 1))
     else Some (pre ++ suf', rel ++ [(p.1, len)], unshared)) = Some (m', rel ++ new, un') /\
    dropped offset len pre (p :: suf) m' new un'.
Proof.
  intros [Hpre Hsuf Hb Hbd _ _] Hs Hlen Ht Hun. pose proof Hsuf as ((?&?&?&?)&Hsuf'&Hl)%wf_cons.
  destruct (shorten_ok offset len p suf (if 1 <? refs p.2 then refs p.2 - 1 else refs p.2 + 1)) as (->&Hw1&Hw2&Hc);
    [done|done|lia|case_match; zbool; lia|case_match; zbool; lia|].
  set (q := (offset + len, rec (length p.2 - len) (refs p.2)) : entry) in *.
  assert (forall x, seg offset len (one (cnt (p :: suf) x)) x = seg offset len (one (refs p.2)) x) as Ha.
  { intros x. apply seg_ext. intros ?. f_equal. rewrite cnt_cons. unfold cnt1. rewrite seg_in by lia.
    rewrite (wf_after_cnt suf (fin p)); [lia|done| |lia]. intros a Hq. by destruct (Hl a Hq). }
  rewrite kept_cons in Ht. destruct (1 <? refs p.2) eqn:E; zbool; cbn zeta.
  - destruct (merge_at_ok pre ((offset, rec len (refs p.2 - 1)) :: q :: suf)) as (Hwf&Hcm&Htm&Hin); [done|done| | |].
    { intros a [= <-]. done. }
    { rewrite !kept_cons. cbn. lia. }
    exists (merge_at pre ((offset, rec len (refs p.2 - 1)) :: q :: suf)), [], false. split.
    { rewrite Hs, app_nil_r. replace (refs p.2 =? 1) with false by (symmetry; apply Z.eqb_neq; lia).
      by rewrite andb_false_r. }
    split; try done.
    + intros x. rewrite Hcm, !cnt_cons, Hc. unfold cnt1 at 1. cbn [fst snd length refs].
      replace (refs p.2) with (refs p.2 - 1 + 1) at 2 by lia. rewrite seg_add. lia.
    + intros x. rewrite Ha. unfold one. case_match; zbool; [lia|]. unfold seg. by case_match.
    + rewrite Htm, !kept_cons. cbn. lia.
    + intros _. destruct (Hin q) as (q'&?&Hq'); [set_solver|]. exists q'. rewrite Hq'. cbn. split; [done|lia].
  - assert (refs p.2 = 1) as Hr by lia. exists (pre ++ q :: suf), [(offset, len)], (un && true).
    split; [by rewrite Hs, Hr|]. split.
    + apply wf_app. split_and!; [done|done|]. intros a b Hla [= <-]. specialize (Hb a Hla). unfold link. cbn.
      split; [lia|]. intros [? ?]; lia.
    + intros x. rewrite cnt_app, !cnt_cons, Hc, Hr. lia.
    + intros x. rewrite Ha, Hr. cbn. lia.
    + repeat constructor. cbn. lia.
    + rewrite kept_app, !kept_cons. cbn. lia.
    + rewrite andb_true_r. intros (a&?&?)%Hun. exists a. set_solver.
Qed.

Lemma put_loop_ok fuel offset len pre suf rel un :
  (len <> 0 -> (List.length suf < fuel)%nat) -> iter offset pre suf -> (forall q, head suf = Some q -> offset <= q.1) ->
  0 <= offset -> 0 <= len -> offset + len < two64 -> len < two32 -> total pre + total suf < two32 ->
  (forall x, offset <= x < offset + len -> 0 < cnt suf x) -> (un = false -> shared pre) ->
  exists m' new un', put_loop fuel offset len pre suf rel un = Some (m', rel ++ new, un') /\
    dropped offset len pre suf m' new un'.
Proof.
  revert offset len pre suf rel un. induction fuel as [|fuel IH];
    intros offset len pre suf rel un Hfuel Hi Hge Ho Hlen Hend Hl32 Ht Hpos Hun;
    (destruct (Z.eq_dec len 0) as [->|E0];
     [exists (merge_at pre suf), [], un; split; [rewrite app_nil_r; done|by apply dropped_zero]|specialize (Hfuel E0)]);
    [lia|].
  cbn [put_loop]. rewrite (proj2 (Z.eqb_neq len 0)) by done.
  pose proof Hi as [Hpre Hsuf Hb Hbd _ _]. pose proof (kept_nonneg pre (proj1 Hpre)).
  destruct suf as [|p suf]; [specialize (Hpos offset ltac:(lia)); done|].
  pose proof Hsuf as (Hp&Hsuf'&Hl)%wf_cons. rewrite kept_cons in Ht. pose proof (kept_nonneg suf (proj1 Hsuf')).
  pose proof Hp as (?&?&?&?). specialize (Hge p eq_refl).
  assert (p.1 = offset) as Hs.
  { destruct (Z.eq_dec p.1 offset); [done|]. specialize (Hpos offset ltac:(lia)).
    rewrite (wf_after_cnt _ p.1) in Hpos; [lia|done|naive_solver|lia]. }
  rewrite (proj2 (Z.eqb_eq _ _) Hs). cbn [List.length] in Hfuel. destruct (len <? length p.2) eqn:E2; zbool.
  - apply put_short; try done; lia.
  - rewrite add64_small by lia. rewrite u32_small by lia.
    assert (forall q, head suf = Some q -> offset + length p.2 <= q.1) as Hn by (intros q Hq; destruct (Hl q Hq); lia).
    assert (forall x, offset + length p.2 <= x < offset + length p.2 + (len - length p.2) -> 0 < cnt suf x) as Hpos'.
    { intros x ?. specialize (Hpos x ltac:(lia)). rewrite cnt_cons in Hpos. unfold cnt1 in Hpos.
      rewrite seg_out in Hpos; lia. }
    destruct (1 <? refs p.2) eqn:E3; zbool.
    + destruct (push_ok offset pre (p :: suf) (length p.2) (refs p.2 - 1)) as (pre2&n&E&Hwf&Hfin&Hr&Hc&Htt&Hin);
        [done|lia..|]. rewrite Hs, E.
      destruct (IH (offset + length p.2) (len - length p.2) (pre2 ++ [n]) suf rel (un && (refs p.2 - 1 =? 1)))
        as (m'&new&un'&->&Hd); try done; try lia.
      * by apply iter_next.
      * intros [Hu|Hu]%andb_false_iff.
        -- destruct (Hun Hu) as (q&Hq&?). destruct (Hin q Hq) as (q'&?&Hq'). exists q'. by rewrite Hq'.
        -- exists n. zbool. rewrite Hr. split; [set_solver|done].
      * exists m', new, un'. split; [done|]. apply (dropped_step _ _ _ (pre2 ++ [n]) p suf m' new [] un'); try done; [lia|].
        case_match; zbool; [lia|done].
    + assert (refs p.2 = 1) as Hr1 by lia.
      destruct (IH (offset + length p.2) (len - length p.2) pre suf (rel ++ [(p.1, length p.2)]) un)
        as (m'&new&un'&->&Hd); try done; try lia.
      * split; try done.
        -- apply (before_le _ offset); [done|lia].
        -- intros q Hq. specialize (Hn q Hq). apply (before_le _ offset); [done|lia].
        -- intros q Hq. specialize (Hn q Hq). destruct suf; simplify_eq/=. apply wf_cons in Hsuf' as [(?&?&?&?) _]. lia.
        -- intros a q _ Hq ?. specialize (Hn q Hq). lia.
      * exists m', ([(offset, length p.2)] ++ new), un'. split; [by rewrite <- app_assoc, Hs|].
        apply (dropped_step _ _ _ pre p suf m' new _ un'); try done; [|lia|].
        -- intros x. rewrite Hr1. unfold seg. case_match; lia.
        -- by rewrite Hr1.
Qed.
End ExtentRefFacts.
