(* ===== verification/ExtentRefTheorems.v ===== *)
(** The reference counts of shared blobs, as the theorems about
    [bluestore_extent_ref_map_t]: [get] and [put] move the count of every byte of
    a range by one and keep the invariant of [_check], [put] releases the bytes
    nobody refers to any more, the representation is canonical. *)
From S2P Require Import Prelude Pg ExtentRefMap ExtentRefFacts.

Module ExtentRefTheorems.
Import ExtentRefMap ExtentRefFacts Pg.Binning.

(** ** The invariant of the code *)

(** Records are not empty, and [_check] accepts the map. *)
Definition valid (m : map_t) : Prop := Forall good m /\ _check m = Some tt.

Lemma check_from_links pos r m :
  Forall good m ->
  check_from pos r m = Some tt <->
  links m /\ (forall q, head m = Some q -> pos <= q.1 /\ ~ (q.1 = pos /\ refs q.2 = r)).
Proof.
  revert pos r. induction m as [|p m IH]; intros pos r HF; [split; done|]. cbn [check_from].
  apply Forall_cons in HF as [Hp HF]. rewrite links_cons, (end_of_good p Hp).
  destruct (p.1 <? pos) eqn:E1; zbool; cbn [negb].
  { split; [done|]. intros [_ Hq]. destruct (Hq p eq_refl). lia. }
  destruct ((p.1 =? pos) && (refs p.2 =? r)) eqn:E2; cbn [negb].
  { zbool. split; [done|]. intros [_ Hq]. destruct (Hq p eq_refl). tauto. }
  rewrite (IH _ _ HF). split.
  - intros [Hm Hq]. split_and!; [|done|].
    + intros q Hh. destruct (Hq q Hh). split; [done|]. intros [? ?]. naive_solver.
    + intros q [= <-]. split; [done|]. intros [? ?]. apply andb_false_iff in E2. destruct E2; zbool; lia.
  - intros [[Hl Hm] _]. split; [done|]. intros q Hh. destruct (Hl q Hh) as [? Hn]. split; [done|].
    intros [? ?]. naive_solver.
Qed.
Lemma valid_wf m : valid m <-> wf m.
Proof.
  unfold valid, wf, _check. split; intros [HF Hc]; (split; [done|]).
  - by destruct (proj1 (check_from_links 0 0 m HF) Hc).
  - apply check_from_links; [done|]. split; [done|]. intros q Hq. destruct m; simplify_eq/=.
    apply Forall_cons in HF as [(?&?&?&?) _]. split; [done|]. intros [? ?]; lia.
Qed.

(** ** Canonical representation *)

Lemma wf_head_cnt p m x : wf (p :: m) -> p.1 <= x < fin p -> cnt (p :: m) x = refs p.2.
Proof.
  intros (_&Hm&Hl)%wf_cons ?. rewrite cnt_cons. unfold cnt1. rewrite seg_in by lia.
  rewrite (wf_after_cnt m (fin p)); [lia|done| |lia]. intros q Hq. by destruct (Hl q Hq).
Qed.
Lemma head_start_le p m q n :
  wf (p :: m) -> wf (q :: n) -> (forall x, cnt (p :: m) x = cnt (q :: n) x) -> p.1 <= q.1.
Proof.
  intros Hp Hq Hc. destruct (Z.le_gt_cases p.1 q.1); [done|]. exfalso.
  pose proof Hq as [(?&?&?&?) _]%wf_cons. specialize (Hc q.1). rewrite (wf_head_cnt q) in Hc by (done || lia).
  rewrite (wf_after_cnt (p :: m) p.1) in Hc; [lia|done|naive_solver|lia].
Qed.
Lemma head_fin_le p m q n :
  wf (p :: m) -> wf (q :: n) -> (forall x, cnt (p :: m) x = cnt (q :: n) x) -> p.1 = q.1 -> refs p.2 = refs q.2 ->
  fin p <= fin q.
Proof.
  intros Hp Hq Hc Hs Hr. destruct (Z.le_gt_cases (fin p) (fin q)); [done|]. exfalso.
  pose proof Hp as [(?&?&?&?) _]%wf_cons. pose proof Hq as ((?&?&?&?)&Hn&Hl)%wf_cons.
  specialize (Hc (fin q)). rewrite wf_head_cnt in Hc by (done || lia).
  rewrite cnt_cons in Hc. unfold cnt1 in Hc. rewrite seg_out in Hc by lia.
  destruct n as [|q' n]; [rewrite cnt_nil in Hc; lia|]. destruct (Hl q' eq_refl) as [Hle Hne].
  pose proof Hn as [(?&?&?&?) _]%wf_cons. destruct (Z.eq_dec (fin q) q'.1).
  - rewrite wf_head_cnt in Hc by (done || lia). apply Hne. split; [done|lia].
  - rewrite (wf_after_cnt _ q'.1) in Hc; [lia|done|naive_solver|lia].
Qed.
Lemma wf_not_empty p m : wf (p :: m) -> exists x, cnt (p :: m) x <> 0.
Proof. intros Hp. exists p.1. pose proof Hp as [(?&?&?&?) _]%wf_cons. rewrite wf_head_cnt; (done || lia). Qed.

Lemma wf_canonical m n : wf m -> wf n -> (forall x, cnt m x = cnt n x) -> m = n.
Proof.
  revert n. induction m as [|p m IH]; intros [|q n] Hm Hn Hc; [done|..].
  - destruct (wf_not_empty q n Hn) as [x Hx]. by rewrite <- Hc in Hx.
  - destruct (wf_not_empty p m Hm) as [x Hx]. by rewrite Hc in Hx.
  - pose proof (fun x => eq_sym (Hc x)) as Hc'.
    assert (p.1 = q.1) as Hs by (apply Z.le_antisymm; by eapply head_start_le).
    pose proof Hm as [(?&?&?&?) [? _]]%wf_cons. pose proof Hn as [(?&?&?&?) [? _]]%wf_cons.
    assert (refs p.2 = refs q.2) as Hr.
    { specialize (Hc p.1). rewrite wf_head_cnt in Hc by (done || lia). by rewrite wf_head_cnt in Hc by (done || lia). }
    assert (fin p = fin q) by (apply Z.le_antisymm; by eapply head_fin_le).
    assert (p = q) as ->. { destruct p as [? []], q as [? []]; cbn in *; f_equal; [done|]. f_equal; lia. }
    f_equal. apply IH; [done|done|]. intros x. specialize (Hc x). rewrite !cnt_cons in Hc. lia.
Qed.

(** ** Queries *)

Section Query.
Context (offset len : Z) (m : map_t).
Context (Hm : wf m) (Ho : 0 <= offset) (Hlen : 0 < len < two32) (Hend : offset + len < two64).

Lemma contains_loop_ok o l suf :
  wf suf -> (forall q, head suf = Some q -> o < fin q) -> 0 <= o -> 0 < l < two32 -> o + l < two64 ->
  contains_loop o l suf = true <-> (forall x, o <= x < o + l -> 0 < cnt suf x).
Proof.
  revert o l. induction suf as [|p suf IH]; intros o l Hw Hf ? ? ?; cbn [contains_loop];
    rewrite (proj2 (Z.eqb_neq l 0)) by lia.
  { split; [done|]. intros Hx. by specialize (Hx o ltac:(lia)). }
  pose proof Hw as (Hp&Hsuf&Hl)%wf_cons. specialize (Hf p eq_refl). pose proof Hp as (?&?&?&?).
  rewrite (end_of_good p Hp), add64_small by lia. destruct (o <? p.1) eqn:E1; zbool.
  { split; [done|]. intros Hx. specialize (Hx o ltac:(lia)).
    rewrite (wf_after_cnt _ p.1) in Hx; [lia|done|naive_solver|lia]. }
  destruct (o + l <=? fin p) eqn:E2; zbool.
  { split; [|done]. intros _ x ?. rewrite wf_head_cnt by (done || lia). lia. }
  rewrite sub64_small, add64_small, u32_small by lia. replace (o + (fin p - o)) with (fin p) by lia.
  rewrite IH; [|done| |lia..].
  - split; intros Hx x ?.
    + destruct (Z.lt_ge_cases x (fin p)); [rewrite wf_head_cnt by (done || lia); lia|].
      specialize (Hx x ltac:(lia)). rewrite cnt_cons. pose proof (cnt1_nonneg p x Hp). lia.
    + specialize (Hx x ltac:(lia)). rewrite cnt_cons in Hx. unfold cnt1 in Hx. rewrite seg_out in Hx; lia.
  - intros q Hq. destruct (Hl q Hq). destruct suf; simplify_eq/=. apply wf_cons in Hsuf as [(?&?&?&?) _]. lia.
Qed.

(** The iterator of [contains] is that of [get]. *)
Lemma contains_iter pre suf pre' suf' :
  lower_bound offset [] m = (pre, suf) -> step_back offset pre suf = (pre', suf') ->
  contains offset len m = contains_loop offset len suf'.
Proof.
  intros Hlb Hsb. pose proof Hlb as (Em&_&Hge)%lower_bound_split; [|done]. cbn [app] in Em.
  unfold contains. rewrite Hlb. unfold step_back in Hsb.
  assert (forall p s, offset < p.1 -> contains_loop offset len (p :: s) = false) as Hgap.
  { intros p s ?. cbn [contains_loop]. rewrite (proj2 (Z.eqb_neq len 0)), (proj2 (Z.ltb_lt _ _)) by lia. done. }
  assert (contains_loop offset len [] = false) as Hnil.
  { cbn [contains_loop]. by rewrite (proj2 (Z.eqb_neq len 0)) by lia. }
  destruct suf as [|p suf].
  - destruct (last pre) eqn:El; [|by simplify_eq]. case_match; by simplify_eq.
  - specialize (Hge p eq_refl). destruct (p.1 =? offset) eqn:E; zbool.
    + destruct (last pre) as [q|] eqn:El; [|by simplify_eq]. subst m.
      apply wf_app in Hm as (HF&_&Hl). destruct (Hl q p El eq_refl).
      assert (good q) as Hq.
      { destruct HF as [HF _]. rewrite Forall_forall in HF. apply HF. by apply last_Some_elem_of. }
      rewrite (end_of_good q Hq) in Hsb. case_match; zbool; [by simplify_eq|lia].
    + destruct (last pre) as [q|] eqn:El; [|simplify_eq; rewrite Hgap by lia; done].
      case_match; simplify_eq; [rewrite Hgap by lia; done|done].
Qed.

Lemma split_at : exists pre suf pre' suf',
  lower_bound offset [] m = (pre, suf) /\ step_back offset pre suf = (pre', suf') /\ m = pre' ++ suf' /\
  iter offset pre' suf' /\ (forall x, offset <= x -> cnt m x = cnt suf' x).
Proof.
  destruct (lower_bound offset [] m) as [pre suf] eqn:Hlb. destruct (step_back offset pre suf) as [pre' suf'] eqn:Hsb.
  destruct (step_back_spec offset m pre suf pre' suf') as [Em Hi]; [done..|].
  exists pre, suf, pre', suf'. split_and!; try done. intros x ?. rewrite <- Em, cnt_app.
  rewrite (wf_before_cnt pre' offset); [done|apply Hi|apply Hi|done].
Qed.

(** [contains] tells whether the whole range is referenced. *)
Lemma contains_exact : contains offset len m = true <-> (forall x, offset <= x < offset + len -> 0 < cnt m x).
Proof.
  destruct split_at as (pre&suf&pre'&suf'&Hlb&Hsb&_&Hi&Hc). rewrite (contains_iter _ _ _ _ Hlb Hsb).
  rewrite contains_loop_ok; [|apply Hi|apply Hi|done..].
  split; intros Hx x ?; specialize (Hx x ltac:(lia)); (rewrite Hc in * by lia); done.
Qed.

(** [intersects] tells whether any byte of the range is. *)
Lemma intersects_exact : intersects offset len m = true <-> (exists x, offset <= x < offset + len /\ 0 < cnt m x).
Proof.
  destruct split_at as (pre&suf&pre'&suf'&Hlb&Hsb&_&Hi&Hc). unfold intersects. rewrite Hlb, Hsb, add64_small by lia.
  destruct Hi as [_ Hsuf _ _ Hf _]. destruct suf' as [|p suf'].
  { split; [done|]. intros (x&?&Hx). rewrite Hc in Hx by lia. done. }
  specialize (Hf p eq_refl). pose proof Hsuf as [(?&?&?&?) _]%wf_cons.
  destruct (offset + len <=? p.1) eqn:E; zbool; (split; [|try done]); cbn [negb].
  - done.
  - intros (x&?&Hx). rewrite Hc, (wf_after_cnt _ p.1) in Hx; [lia|done|naive_solver|lia|lia].
  - intros _. exists (Z.max offset p.1). split; [lia|]. rewrite Hc by lia. rewrite wf_head_cnt by (done || lia). lia.
Qed.
End Query.

(** ** Taking and dropping references *)

Definition in_range (offset len x : Z) : bool := (offset <=? x) && (x <? offset + len).
Lemma seg_range offset len r x : seg offset len r x = if in_range offset len x then r else 0.
Proof. done. Qed.

Lemma get_ok offset len m :
  wf m -> 0 <= offset -> 0 <= len -> offset + len < two64 -> total m + len < two32 ->
  (forall x, offset <= x < offset + len -> cnt m x < two32 - 1) ->
  exists m', get offset len m = Some m' /\ wf m' /\ total m' <= total m + len /\
    (forall x, cnt m' x = cnt m x + seg offset len 1 x).
Proof.
  intros Hm Ho Hlen Hend Ht Hmax. unfold get.
  destruct (split_at offset m Hm) as (pre&suf&pre'&suf'&->&->&Em&Hi&Hc).
  rewrite Em, kept_app in Ht.
  destruct (get_loop_ok (2 * S (List.length m)) offset len pre' suf') as (pre2&suf2&->&[? ? ? Hcnt Htt]);
    [|done|done|done|done|unfold room; lia| |].
  { intros _. rewrite Em, length_app. unfold gap. destruct suf'; [simpl; lia|]. case_match; lia. }
  { intros x ?. rewrite <- Hc by lia. by apply Hmax. }
  cbn [mbind option_bind]. destruct (merge_at_ok pre2 suf2) as (?&Hcm&Htm&_); [done..|lia|].
  eexists. split; [done|]. split_and!; [done|rewrite Htm, Em, kept_app; lia|].
  intros x. rewrite Hcm, Hcnt, Em, cnt_app. done.
Qed.

(** The first element [put] looks at is the one [get] would. *)
Lemma put_iter offset len m rel pre suf pre' suf' :
  wf m -> 0 <= offset -> lower_bound offset [] m = (pre, suf) -> step_back offset pre suf = (pre', suf') ->
  put offset len m rel =
    match suf' with
    | [] => None
    | p :: s =>
      if offset <? p.1 then None
      else
        let unshared := negb (p.1 <? offset) || (refs p.2 =? 1) in
        let '(pre, p, s) := cut offset pre' p s in
        '(m, release, unshared) ← put_loop (S (S (List.length m))) offset len pre (p :: s) rel unshared;
        Some (m, release, unshared && forallb (fun p => refs p.2 =? 1) m)
    end.
Proof.
  intros Hm Ho Hlb Hsb. pose proof Hlb as (Em&Hlt&Hge)%lower_bound_split; [|done]. cbn [app] in Em.
  unfold put. rewrite Hlb. unfold step_back in Hsb.
  assert (forall q, last pre = Some q -> good q /\ q.1 < offset /\ (forall p, head suf = Some p -> fin q <= p.1)) as Hq.
  { intros q Hq. pose proof (last_Some_elem_of _ _ Hq) as Hin. subst m. apply wf_app in Hm as ((HF&_)&_&Hl).
    rewrite Forall_forall in HF, Hlt. split_and!; [by apply HF|by apply Hlt|].
    intros p Hp. by destruct (Hl q p Hq Hp). }
  destruct suf as [|p suf].
  - destruct (last pre) as [q|] eqn:El; [|by simplify_eq]. destruct (Hq q eq_refl) as (_&?&_).
    case_match; simplify_eq; [done|]. cbn [mbind option_bind]. rewrite (proj2 (Z.ltb_ge offset q.1)) by lia. done.
  - specialize (Hge p eq_refl). destruct (offset <? p.1) eqn:E; zbool; cbn [negb].
    + destruct (last pre) as [q|] eqn:El.
      * destruct (Hq q eq_refl) as (_&?&_). case_match; simplify_eq.
        -- rewrite (proj2 (Z.ltb_lt offset p.1)) by lia. done.
        -- cbn [mbind option_bind]. rewrite (proj2 (Z.ltb_ge offset q.1)) by lia. done.
      * simplify_eq. rewrite (proj2 (Z.ltb_lt offset p.1)) by lia. done.
    + assert (pre' = pre /\ suf' = p :: suf) as [-> ->].
      { destruct (last pre) as [q|] eqn:El; [|by simplify_eq]. destruct (Hq q eq_refl) as (Hg&?&Hl).
        specialize (Hl p eq_refl). rewrite (end_of_good q Hg) in Hsb. case_match; zbool; [by simplify_eq|lia]. }
      cbn [mbind option_bind]. rewrite (proj2 (Z.ltb_ge offset p.1)) by lia. done.
Qed.

Lemma unshared_ok m b :
  (b = false -> shared m) -> b && forallb (fun p => refs p.2 =? 1) m = forallb (fun p => refs p.2 =? 1) m.
Proof.
  intros Hb. destruct b; [done|]. symmetry. apply not_true_iff_false. rewrite forallb_forall.
  intros Hall. destruct (Hb eq_refl) as (q&Hq&Hr). apply list_elem_of_In, Hall in Hq. by zbool.
Qed.
Lemma all_one m : wf m -> forallb (fun p => refs p.2 =? 1) m = true <-> (forall x, cnt m x <= 1).
Proof.
  intros Hm. rewrite forallb_forall. split.
  - intros Hall. induction m as [|p m IH]; intros x; [done|].
    pose proof Hm as (Hp&Hm'&Hl)%wf_cons. destruct (Z.lt_ge_cases x (fin p)).
    + rewrite cnt_cons, (wf_after_cnt m (fin p)); [|done| |lia].
      * specialize (Hall p (or_introl eq_refl)). zbool. unfold cnt1, seg. case_match; lia.
      * intros q Hq. by destruct (Hl q Hq).
    + rewrite cnt_cons. unfold cnt1. rewrite seg_out by lia. apply IH; [done|]. intros q Hq. apply Hall. by right.
  - intros Hx p Hp. apply Z.eqb_eq. apply list_elem_of_In, list_elem_of_split in Hp as (a&b&->).
    apply wf_app in Hm as ((?&?)&Hb&_). pose proof Hb as [(?&?&?&?) _]%wf_cons. specialize (Hx p.1).
    rewrite cnt_app, wf_head_cnt in Hx by (done || lia). pose proof (cnt_nonneg a p.1 ltac:(done)). lia.
Qed.

Lemma put_ok offset len m rel :
  wf m -> 0 <= offset -> 0 < len < two32 -> offset + len < two64 -> total m < two32 ->
  (forall x, offset <= x < offset + len -> 0 < cnt m x) ->
  exists m' new, put offset len m rel = Some (m', rel ++ new, forallb (fun p => refs p.2 =? 1) m') /\ wf m' /\
    total m' <= total m /\ Forall (fun e => 0 < e.2) new /\
    (forall x, cnt m' x = cnt m x - seg offset len 1 x) /\
    (forall x, freed new x = seg offset len (one (cnt m x)) x).
Proof.
  intros Hm Ho Hlen Hend Ht Hpos. destruct (split_at offset m Hm) as (pre&suf&pre'&suf'&Hlb&Hsb&Em&Hi&Hc).
  rewrite (put_iter _ _ _ _ _ _ _ _ Hm Ho Hlb Hsb).
  destruct suf' as [|p s]; [specialize (Hpos offset ltac:(lia)); rewrite Hc in Hpos by lia; done|].
  destruct (offset <? p.1) eqn:E; zbool.
  { specialize (Hpos offset ltac:(lia)). rewrite Hc, (wf_after_cnt _ p.1) in Hpos; [lia|apply Hi|naive_solver|lia|lia]. }
  destruct (cut_ok offset pre' p s Hi E) as (pre1&p1&->&[Hs1 Hf1 Hr1 Hi1 Hc1 Ht1 Hsh]).
  assert (forall x, offset <= x -> cnt (p1 :: s) x = cnt m x) as Hcs.
  { intros x ?. rewrite Hc by done. rewrite !cnt_cons. specialize (Hc1 x).
    rewrite (wf_before_cnt pre1 offset), (wf_before_cnt pre' offset) in Hc1; try done; try apply Hi; try apply Hi1. lia. }
  rewrite Em, kept_app, kept_cons in Ht. cbn zeta.
  destruct (put_loop_ok (S (S (List.length m))) offset len pre1 (p1 :: s) rel (negb (p.1 <? offset) || (refs p.2 =? 1)))
    as (m'&new&un'&->&[Hwf Hcnt Hfr Hnew Htt Hshd]); try done; try lia.
  - intros _. rewrite Em, length_app. simpl. lia.
  - intros q [= <-]. lia.
  - rewrite kept_cons. lia.
  - intros x ?. rewrite Hcs by lia. by apply Hpos.
  - intros [Hu1 Hu2]%orb_false_iff. zbool. destruct Hsh as [[? _]|(_&p2&->&Hr2)]; [lia|].
    exists p2. split; [set_solver|lia].
  - cbn [mbind option_bind]. exists m', new. rewrite unshared_ok by done. split_and!; [done|done| |done| |].
    + rewrite Em, kept_app, kept_cons. rewrite kept_cons in Htt. lia.
    + intros x. rewrite Hcnt, Em, cnt_app, !cnt_cons. specialize (Hc1 x). lia.
    + intros x. rewrite Hfr. apply seg_ext. intros ?. by rewrite Hcs by lia.
Qed.

(** A byte of the range nobody refers to ends the process. *)
Lemma put_loop_missing fuel offset len pre suf rel un x :
  wf suf -> 0 <= offset -> 0 < len < two32 -> offset + len < two64 ->
  offset <= x < offset + len -> cnt suf x = 0 -> put_loop fuel offset len pre suf rel un = None.
Proof.
  revert offset len pre suf rel un. induction fuel as [|fuel IH]; intros offset len pre suf rel un Hw Ho Hlen Hend Hx Hc;
    cbn [put_loop]; rewrite (proj2 (Z.eqb_neq len 0)) by lia; [done|].
  destruct suf as [|p suf]; [done|]. pose proof Hw as ((?&?&?&?)&Hsuf&_)%wf_cons.
  destruct (p.1 =? offset) eqn:E; [|done]. zbool.
  assert (fin p <= x).
  { destruct (Z.lt_ge_cases x (fin p)); [|done]. rewrite wf_head_cnt in Hc by (done || lia). lia. }
  assert (cnt suf x = 0).
  { rewrite cnt_cons in Hc. unfold cnt1 in Hc. rewrite seg_out in Hc; lia. }
  destruct (len <? length p.2) eqn:E1; zbool; [lia|]. rewrite add64_small by lia. rewrite u32_small by lia.
  destruct (1 <? refs p.2); [destruct (_maybe_merge_left _ _)|]; apply IH; (done || lia).
Qed.
Lemma put_missing offset len m rel x :
  wf m -> 0 <= offset -> 0 < len < two32 -> offset + len < two64 ->
  offset <= x < offset + len -> cnt m x = 0 -> put offset len m rel = None.
Proof.
  intros Hm Ho Hlen Hend Hx Hx0. destruct (split_at offset m Hm) as (pre&suf&pre'&suf'&Hlb&Hsb&Em&Hi&Hc).
  rewrite (put_iter _ _ _ _ _ _ _ _ Hm Ho Hlb Hsb). destruct suf' as [|p s]; [done|].
  destruct (offset <? p.1) eqn:E; [done|]. zbool.
  destruct (cut_ok offset pre' p s Hi E) as (pre1&p1&->&[Hs1 Hf1 Hr1 Hi1 Hc1 Ht1 _]). cbn zeta.
  rewrite (put_loop_missing _ _ _ _ _ _ _ x); [done|apply Hi1|done..|].
  rewrite Hc in Hx0 by lia. rewrite cnt_cons in *. specialize (Hc1 x).
  rewrite (wf_before_cnt pre1 offset), (wf_before_cnt pre' offset) in Hc1; try done; try apply Hi; try apply Hi1; lia.
Qed.

(** ** Claims *)

(** [bluestore_extent_ref_map_t::get] on a range adds one reference to every
    byte of the range and to no other, never fails an assertion, and leaves a
    map that [_check] accepts (no overlap, no two neighbours that should be
    merged), whatever records the range cuts, spans or leaves gaps between; the
    bounds are those of the 32-bit lengths and counts. *)
Theorem get_adds_reference offset len m
    (Hm : valid m) (Ho : 0 <= offset) (Hlen : 0 <= len) (Hend : offset + len < two64)
    (Htotal : total m + len < two32)
    (Hrefs : forall x, offset <= x < offset + len -> cnt m x < two32 - 1) :
  exists m', get offset len m = Some m' /\ valid m' /\
    (forall x, cnt m' x = cnt m x + if in_range offset len x then 1 else 0).
Proof.
  apply valid_wf in Hm. destruct (get_ok offset len m) as (m'&?&?&_&Hc); [done..|].
  exists m'. split_and!; [done|by apply valid_wf|exact Hc].
Qed.
Definition sample : map_t := [(4096, rec 8192 1); (16384, rec 4096 2)].
Lemma sample_valid : valid sample.
Proof. split; [repeat constructor; vm_compute; done|done]. Qed.
Lemma get_adds_reference_witness :
  get 8192 16384 sample = Some [(4096, rec 4096 1); (8192, rec 4096 2); (12288, rec 4096 1); (16384, rec 4096 3);
                                (20480, rec 4096 1)] /\
  exists m', get 8192 16384 sample = Some m' /\ valid m' /\
    (forall x, cnt m' x = cnt sample x + if in_range 8192 16384 x then 1 else 0).
Proof.
  split; [vm_compute; reflexivity|].
  apply (get_adds_reference 8192 16384 sample); [exact sample_valid|lia|lia|lia|vm_compute; reflexivity|].
  intros x _. unfold sample, cnt, cnt1, seg. cbn [foldr fst snd length refs]. repeat case_match; lia.
Defined.

(** [bluestore_extent_ref_map_t::put] on a referenced range takes one
    reference from every byte of the range and from no other; the extents it
    appends to [release] cover exactly the bytes of the range whose last
    reference this was, each once; the map stays one that [_check] accepts; and
    [maybe_unshared] is set exactly when no byte has more than one reference
    left. *)
Theorem put_drops_reference offset len m rel
    (Hm : valid m) (Ho : 0 <= offset) (Hlen : 0 < len < two32) (Hend : offset + len < two64)
    (Htotal : total m < two32)
    (Href : forall x, offset <= x < offset + len -> 0 < cnt m x) :
  exists m' new unshared, put offset len m rel = Some (m', rel ++ new, unshared) /\ valid m' /\
    (forall x, cnt m' x = cnt m x - if in_range offset len x then 1 else 0) /\
    (forall x, freed new x = if in_range offset len x && (cnt m x =? 1) then 1 else 0) /\
    (unshared = true <-> forall x, cnt m' x <= 1).
Proof.
  apply valid_wf in Hm. destruct (put_ok offset len m rel) as (m'&new&?&?&_&_&Hc&Hf); [done..|].
  exists m', new, (forallb (fun p => refs p.2 =? 1) m').
  split_and!; [done|by apply valid_wf|exact Hc| |by apply all_one].
  intros x. rewrite Hf, seg_range. unfold one. by repeat case_match.
Qed.
Lemma put_drops_reference_witness :
  put 6144 4096 sample [(0, 512)] = Some ([(4096, rec 2048 1); (10240, rec 2048 1); (16384, rec 4096 2)],
                                          [(0, 512); (6144, 4096)], false) /\
  exists m' new unshared, put 6144 4096 sample [(0, 512)] = Some (m', [(0, 512)] ++ new, unshared) /\ valid m' /\
    (forall x, cnt m' x = cnt sample x - if in_range 6144 4096 x then 1 else 0) /\
    (forall x, freed new x = if in_range 6144 4096 x && (cnt sample x =? 1) then 1 else 0) /\
    (unshared = true <-> forall x, cnt m' x <= 1).
Proof.
  split; [vm_compute; reflexivity|].
  apply (put_drops_reference 6144 4096 sample); [exact sample_valid|lia|lia|lia|vm_compute; reflexivity|].
  intros x ?. unfold sample, cnt, cnt1, seg. cbn [foldr fst snd length refs]. repeat case_match; zbool; lia.
Defined.

(** [put] on a range of which some byte has no reference does not return:
    it aborts on a missing extent at the start of the range, and fails the
    assertion on the position (or runs off the map) at a hole further on. *)
Theorem put_on_missing_aborts offset len m rel x
    (Hm : valid m) (Ho : 0 <= offset) (Hlen : 0 < len < two32) (Hend : offset + len < two64)
    (Hx : offset <= x < offset + len) (Hx0 : cnt m x = 0) :
  put offset len m rel = None.
Proof. apply valid_wf in Hm. by apply (put_missing offset len m rel x). Qed.
Lemma put_on_missing_aborts_witness : put 8192 8192 sample [] = None.
Proof.
  apply (put_on_missing_aborts 8192 8192 sample [] 13000); [exact sample_valid|lia|lia|lia|lia|vm_compute; reflexivity].
Defined.

(** C37: [put] undoes [get]: dropping the references of a range right after
    taking them gives back the very same map, record by record, and releases
    exactly the bytes that nobody referred to before. *)
Theorem put_undoes_get offset len m rel
    (Hm : valid m) (Ho : 0 <= offset) (Hlen : 0 < len) (Hend : offset + len < two64)
    (Htotal : total m + len < two32)
    (Hrefs : forall x, offset <= x < offset + len -> cnt m x < two32 - 1) :
  exists m1 new unshared, get offset len m = Some m1 /\ put offset len m1 rel = Some (m, rel ++ new, unshared) /\
    (forall x, freed new x = if in_range offset len x && (cnt m x =? 0) then 1 else 0).
Proof.
  apply valid_wf in Hm. pose proof (kept_nonneg m (proj1 Hm)).
  destruct (get_ok offset len m) as (m1&Hg&Hm1&Ht1&Hc1); [done|done|lia|done|done|done|].
  destruct (put_ok offset len m1 rel) as (m2&new&Hp&Hm2&_&_&Hc2&Hf); [done|done|lia|lia|lia| |].
  { intros x ?. rewrite Hc1, seg_in by lia. pose proof (cnt_nonneg m x (proj1 Hm)). lia. }
  assert (m2 = m) as -> by (apply wf_canonical; [done|done|]; intros x; rewrite Hc2, Hc1; lia).
  exists m1, new, (forallb (fun p => refs p.2 =? 1) m). split_and!; [done|done|].
  intros x. rewrite Hf, Hc1, !seg_range. unfold one. destruct (in_range offset len x); [|done]. cbn [andb].
  repeat case_match; zbool; lia.
Qed.
Lemma put_undoes_get_witness :
  exists m1 new unshared, get 8192 16384 sample = Some m1 /\ put 8192 16384 m1 [] = Some (sample, [] ++ new, unshared) /\
    (forall x, freed new x = if in_range 8192 16384 x && (cnt sample x =? 0) then 1 else 0).
Proof.
  apply (put_undoes_get 8192 16384 sample []); [exact sample_valid|lia|lia|lia|vm_compute; reflexivity|].
  intros x _. unfold sample, cnt, cnt1, seg. cbn [foldr fst snd length refs]. repeat case_match; lia.
Defined.
End ExtentRefTheorems.
