(* ===== verification/CleanMarks.v ===== *)
(** Marking regions of an object dirty, empty ones included: an empty region splits
    an interval of the clean offsets in two adjacent ones, which are not merged again,
    so the sets here are only weakly well formed. *)
From S2P Require Import Prelude IntervalSet CleanRegions.
#[local] Open Scope Z_scope.

Module WeakRegions.
Import OMap interval_set IntervalFacts CleanRegions CleanRegionsFacts.

(** Intervals in order that may touch. *)
Fixpoint weak (lo : Z) (m : list (Z * Z)) : Prop :=
  match m with
  | [] => True
  | (k, l) :: m => lo <= k /\ 0 < l /\ k + l < two64 /\ weak (k + l) m
  end.
Fixpoint ends (lo : Z) (m : list (Z * Z)) : Z := match m with [] => lo | (k, l) :: m => ends (k + l) m end.

Lemma weak_app lo m1 m2 : weak lo (m1 ++ m2) <-> weak lo m1 /\ weak (ends lo m1) m2.
Proof. revert lo. induction m1 as [|[k l] m1 IH]; intros lo; simpl; [tauto|]. rewrite IH. tauto. Qed.
Lemma ends_app lo m1 m2 : ends lo (m1 ++ m2) = ends (ends lo m1) m2.
Proof. revert lo. induction m1 as [|[k l] m1 IH]; intros lo; simpl; auto. Qed.
Lemma weak_le lo lo' m : lo' <= lo -> weak lo m -> weak lo' m.
Proof. destruct m as [|[k l] m]; simpl; intuition lia. Qed.
Lemma weak_mem lo m x : weak lo m -> mem x m -> lo <= x.
Proof.
  revert lo. induction m as [|[k l] m IH]; intros lo; simpl; [tauto|].
  intros (?&?&?&Hm) [?|Hx]; [lia|]. specialize (IH _ Hm Hx). lia.
Qed.
Lemma ends_ge lo m : weak lo m -> lo <= ends lo m.
Proof. revert lo. induction m as [|[k l] m IH]; intros lo; simpl; [lia|]. intros (?&?&?&Hm). specialize (IH _ Hm). lia. Qed.
Lemma ends_lt lo m : lo < two64 -> weak lo m -> ends lo m < two64.
Proof. revert lo. induction m as [|[k l] m IH]; intros lo; simpl; [lia|]. intros ? (?&?&?&Hm). apply IH; [lia|done]. Qed.
Lemma weak_total lo m : weak lo m -> 0 <= total m <= ends lo m - lo.
Proof. revert lo. induction m as [|[k l] m IH]; intros lo; simpl; [lia|]. intros (?&?&?&Hm). specialize (IH _ Hm). lia. Qed.
Lemma wf_weak lo m : wf_from lo m -> weak lo m.
Proof.
  revert lo. induction m as [|[k l] m IH]; intros lo; simpl; [done|]. intros (?&?&?&Hm). split_and!; [done..|].
  eapply weak_le; [|apply (IH _ Hm)]. lia.
Qed.
Lemma weak_emplace m k v lo : weak lo m -> ends lo m <= k -> emplace m k v = m ++ [(k, v)].
Proof.
  revert lo. induction m as [|[k' l'] m IH]; intros lo; simpl; [done|].
  intros (?&?&?&Hm) Hn. pose proof (ends_ge _ _ Hm). case_tests; [lia..|]. f_equal. by eapply IH.
Qed.

Definition wset (s : interval_set) : Prop := weak 0 (m s) /\ size s = total (m s).
Lemma weak_emit acc start n : wset acc -> ends 0 (m acc) <= start -> 0 < n -> start + n < two64 ->
  wset (emit acc start n) /\ m (emit acc start n) = m acc ++ [(start, n)].
Proof.
  intros [Hw Hz] He ? ?. unfold emit, wset; simpl. rewrite (weak_emplace _ _ _ 0) by done.
  assert (weak 0 (m acc ++ [(start, n)])) as Hw2 by (apply weak_app; simpl; split_and!; done || lia).
  pose proof (weak_total _ _ Hw2) as Ht. rewrite ends_app in Ht. simpl in Ht.
  pose proof (weak_total _ _ Hw). rewrite total_app in Ht |- *. simpl in *. rewrite add64_small by lia.
  split; [split; [done|lia]|done].
Qed.

(** The last interval reaches the end of the offsets from [reach] on. *)
Definition tail (reach : Z) (m : list (Z * Z)) : Prop := exists pre k l, m = pre ++ [(k, l)] /\ k <= reach /\ k + l = all64.
Lemma tail_cons reach k l m : tail reach ((k, l) :: m) -> m <> [] -> tail reach m.
Proof.
  intros (pre&k'&l'&E&?&?) Hm. destruct pre as [|p pre]; simplify_eq/=. exists pre, k', l'. auto.
Qed.
Lemma tail_last reach lo k l m : weak lo ((k, l) :: m) -> tail reach ((k, l) :: m) -> m <> [] -> k + l < all64.
Proof.
  intros (?&?&?&Hm) Ht Hne. destruct (tail_cons _ _ _ _ Ht Hne) as (pre&k'&l'&->&?&?).
  apply weak_app in Hm as [Hp Hl]. pose proof (ends_ge _ _ Hp). simpl in Hl. lia.
Qed.
Lemma tail_one reach k l : tail reach [(k, l)] -> k <= reach /\ k + l = all64.
Proof. intros (pre&k'&l'&E&?&?). destruct pre as [|? [|]]; by simplify_eq/=. Qed.

(** *** Intersection *)

Definition winv (reach : Z) (pa pb : list (Z * Z)) (acc : interval_set) : Prop :=
  exists la lb, 0 <= la /\ 0 <= lb /\ weak la pa /\ weak lb pb /\ wset acc /\ ends 0 (m acc) <= Z.max la lb /\
    tail reach pa /\ tail reach pb.

Definition wtodo (pa pb : list (Z * Z)) (acc : interval_set) (x : Z) : Prop := mem x (m acc) \/ (mem x pa /\ mem x pb).
Definition done_ok (reach : Z) (P : Z -> Prop) (o : option interval_set) : Prop :=
  exists r, o = Some r /\ wset r /\ tail reach (m r) /\ forall x, In_set x r <-> P x.

Lemma both_tails reach la lb ka na kb nb acc :
  0 <= la -> 0 <= lb -> weak la [(ka, na)] -> weak lb [(kb, nb)] -> wset acc -> ends 0 (m acc) <= Z.max la lb ->
  tail reach [(ka, na)] -> tail reach [(kb, nb)] ->
  let acc2 := emit acc (Z.max ka kb) (Z.min (ka + na) (kb + nb) - Z.max ka kb) in
  done_ok reach (wtodo [(ka, na)] [(kb, nb)] acc) (Some acc2).
Proof.
  intros ? ? (?&?&?&_) (?&?&?&_) Hacc He [? ?]%tail_one [? ?]%tail_one acc2. unfold all64 in *.
  destruct (weak_emit acc (Z.max ka kb) (Z.min (ka + na) (kb + nb) - Z.max ka kb)) as [Hw Hm]; [done|lia..|].
  exists acc2. split; [done|]. split; [done|]. split.
  - exists (m acc), (Z.max ka kb), (Z.min (ka + na) (kb + nb) - Z.max ka kb). unfold acc2, all64. rewrite Hm. split_and!; [done|lia|lia].
  - intros x. unfold In_set, wtodo, acc2. rewrite Hm, mem_app. simpl. intuition lia.
Qed.

Ltac weak_bounds x :=
  repeat match goal with
  | H : weak ?lo ?m |- _ =>
      lazymatch goal with
      | _ : mem x m -> _ |- _ => fail
      | _ => pose proof (weak_mem lo m x H)
      end
  end.

Lemma done_ok_ext reach P Q o : (forall x, P x <-> Q x) -> done_ok reach P o -> done_ok reach Q o.
Proof. intros HPQ (r&->&Hw&Ht&Hx). exists r. split_and!; [done..|]. intros x. by rewrite Hx, HPQ. Qed.

Lemma winv_pass_l reach ka na pa pb acc :
  winv reach ((ka, na) :: pa) pb acc -> (exists kb nb pb', pb = (kb, nb) :: pb' /\ ka + na <= kb) ->
  winv reach pa pb acc /\ forall x, wtodo pa pb acc x <-> wtodo ((ka, na) :: pa) pb acc x.
Proof.
  intros (la&lb&?&?&Ha&Hb&Hacc&He&Hta&Htb) (kb&nb&pb'&->&?). destruct Ha as (?&?&?&Ha'). pose proof Hb as (?&?&?&Hb').
  assert (pa <> []) as Hne.
  { intros ->. apply tail_one in Hta. destruct Htb as (pre&k&l&E&?&?). unfold all64 in *.
    assert (weak lb (pre ++ [(k, l)])) as [Hp Hl]%weak_app by (by rewrite <- E). destruct pre as [|[k1 l1] pre]; simplify_eq/=; [lia|].
    destruct Hp as (_&_&_&Hp). pose proof (ends_ge _ _ Hp). lia. }
  split; [exists (ka + na), lb; split_and!; [lia|lia|done|done|done|lia|by eapply tail_cons|done]|].
  intros x. unfold wtodo. simpl. weak_bounds x. intuition lia.
Qed.
Lemma winv_sym reach pa pb acc : winv reach pa pb acc -> winv reach pb pa acc.
Proof. intros (la&lb&?&?&?&?&?&?&?&?). exists lb, la. rewrite Z.max_comm. split_and!; done. Qed.
Lemma wtodo_sym pa pb acc x : wtodo pa pb acc x <-> wtodo pb pa acc x.
Proof. unfold wtodo. tauto. Qed.

(** Two overlapping heads: what they share is emitted, and the one that ends first
    goes. *)
Lemma winv_overlap reach ka na pa kb nb pb acc :
  winv reach ((ka, na) :: pa) ((kb, nb) :: pb) acc -> kb < ka + na -> ka < kb + nb -> ka + na <= kb + nb ->
  let start := Z.max ka kb in let en := Z.min (ka + na) (kb + nb) in
  let acc2 := emit acc start (en - start) in
  (pa <> [] -> winv reach pa ((kb, nb) :: pb) acc2 /\
    forall x, wtodo pa ((kb, nb) :: pb) acc2 x <-> wtodo ((ka, na) :: pa) ((kb, nb) :: pb) acc x) /\
  (pa = [] -> done_ok reach (wtodo ((ka, na) :: pa) ((kb, nb) :: pb) acc) (Some acc2)).
Proof.
  intros (la&lb&?&?&Ha&Hb&Hacc&He&Hta&Htb) ? ? ? start en acc2. pose proof Ha as (?&?&?&Ha'). pose proof Hb as (?&?&?&Hb').
  destruct (weak_emit acc start (en - start)) as [Hw Hm]; [done|lia..|]. split.
  - intros Hne. split.
    + exists (ka + na), lb. split_and!; [lia|lia|done|done|done| |by eapply tail_cons|done].
      unfold acc2. rewrite Hm, ends_app. simpl. lia.
    + intros x. unfold wtodo, acc2. rewrite Hm, mem_app. simpl. weak_bounds x. intuition lia.
  - intros ->. apply tail_one in Hta as Hta1. destruct pb as [|p pb].
    + apply (both_tails reach la lb); done.
    + pose proof (tail_last _ _ _ _ _ Hb Htb). unfold all64 in *. naive_solver lia.
Qed.

Lemma winv_equal reach k n pa pb acc :
  winv reach ((k, n) :: pa) ((k, n) :: pb) acc ->
  (pa <> [] -> pb <> [] -> winv reach pa pb (emit acc k n) /\
    forall x, wtodo pa pb (emit acc k n) x <-> wtodo ((k, n) :: pa) ((k, n) :: pb) acc x) /\
  (pa = [] <-> pb = []) /\
  (pa = [] -> done_ok reach (wtodo ((k, n) :: pa) ((k, n) :: pb) acc) (Some (emit acc k n))).
Proof.
  intros (la&lb&?&?&Ha&Hb&Hacc&He&Hta&Htb). pose proof Ha as (?&?&?&Ha'). pose proof Hb as (?&?&?&Hb').
  destruct (weak_emit acc k n) as [Hw Hm]; [done|lia..|].
  assert (pa = [] <-> pb = []) as Hiff.
  { split; intros ->; [apply tail_one in Hta|apply tail_one in Htb];
      [destruct pb as [|q pb]|destruct pa as [|q pa]]; try done;
      [pose proof (tail_last _ _ _ _ _ Hb Htb)|pose proof (tail_last _ _ _ _ _ Ha Hta)]; naive_solver lia. }
  split; [|split; [done|]].
  - intros Hne Hne'. split.
    + exists (k + n), (k + n). split_and!; [lia|lia|done|done|done| |by eapply tail_cons|by eapply tail_cons].
      rewrite Hm, ends_app. simpl. lia.
    + intros x. unfold wtodo. rewrite Hm, mem_app. simpl. weak_bounds x. intuition lia.
  - intros ->. rewrite (proj1 Hiff) by done. rewrite (proj1 Hiff) in * by done.
    pose proof (both_tails reach la lb k n k n acc) as Hbt. rewrite !Z.max_id, Z.min_id in Hbt.
    replace (k + n - k) with n in Hbt by lia. by apply Hbt.
Qed.

Lemma wtake_equal pa pb acc reach fuel :
  winv reach pa pb acc ->
  (forall pa2 pb2 acc2, winv reach pa2 pb2 acc2 -> (length pa2 + length pb2 <= length pa + length pb)%nat ->
    (forall x, wtodo pa2 pb2 acc2 x <-> wtodo pa pb acc x) -> done_ok reach (wtodo pa pb acc) (inter_loop fuel pa2 pb2 acc2)) ->
  (fuel <> 0)%nat ->
  let '(pa2, pb2, acc2) := take_equal pa pb acc in done_ok reach (wtodo pa pb acc) (inter_loop fuel pa2 pb2 acc2).
Proof.
  revert pb acc. induction pa as [|[ka na] pa IH]; intros pb acc Hinv Hgo Hf.
  { simpl. by apply Hgo. }
  destruct pb as [|[kb nb] pb]; [by apply Hgo|].
  destruct (decide (ka = kb /\ na = nb)) as [[<- <-]|Hne].
  - rewrite take_equal_cons. destruct (winv_equal _ _ _ _ _ _ Hinv) as (H1&H2&H3).
    destruct pa as [|pa0 pa].
    + rewrite (proj1 H2) by done. simpl. destruct fuel; [done|]. cbn [inter_loop]. rewrite (proj1 H2) in H3 by done. by apply H3.
    + assert (pb <> []) as Hb by (intros E; by apply H2 in E). destruct (H1 ltac:(done) Hb) as [Hi Ht].
      specialize (IH pb (emit acc ka na) Hi). destruct (take_equal (pa0 :: pa) pb (emit acc ka na)) as [[pa2 pb2] acc2].
      eapply done_ok_ext; [exact Ht|]. apply IH; [|done]. intros pa3 pb3 acc3 Hi3 Hl Ht3.
      eapply done_ok_ext; [intros x; symmetry; exact (Ht x)|]. apply Hgo; [done|simpl in *; lia|]. intros x. by rewrite Ht3, Ht.
  - simpl. destruct (_ && _) eqn:E; [zbool; lia|]. by apply Hgo.
Qed.

Lemma winter_loop reach fuel pa pb acc :
  winv reach pa pb acc -> (length pa + length pb < fuel)%nat -> done_ok reach (wtodo pa pb acc) (inter_loop fuel pa pb acc).
Proof.
  revert pa pb acc. induction fuel as [|fuel IH]; intros pa pb acc Hinv Hf; [lia|].
  pose proof Hinv as (la&lb&?&?&Ha&Hb&_&_&(p1&k1&l1&->&_)&(p2&k2&l2&->&_)).
  destruct (p1 ++ _) as [|[ka na] pa'] eqn:Ea; [by destruct p1|]. destruct (p2 ++ _) as [|[kb nb] pb'] eqn:Eb; [by destruct p2|].
  clear Ea Eb. cbn [inter_loop]. pose proof Ha as (?&?&?&_). pose proof Hb as (?&?&?&_). simpl in Hf.
  assert (forall pa2 pb2 acc2, winv reach pa2 pb2 acc2 /\
    (forall x, wtodo pa2 pb2 acc2 x <-> wtodo ((ka, na) :: pa') ((kb, nb) :: pb') acc x) ->
    (length pa2 + length pb2 < fuel)%nat ->
    done_ok reach (wtodo ((ka, na) :: pa') ((kb, nb) :: pb') acc) (inter_loop fuel pa2 pb2 acc2)) as Hgo.
  { intros pa2 pb2 acc2 [Hi Ht] Hl. eapply done_ok_ext; [exact Ht|]. by apply IH. }
  unwrap64. destruct (Z.leb_spec (ka + na) kb); [|destruct (Z.leb_spec (kb + nb) ka)].
  - apply Hgo; [|simpl; lia]. apply winv_pass_l; [done|]. naive_solver.
  - apply Hgo; [|simpl; lia]. destruct (winv_pass_l reach kb nb pb' ((ka, na) :: pa') acc) as [Hi Ht]; [by apply winv_sym|naive_solver|].
    split; [by apply winv_sym|]. intros x. rewrite wtodo_sym, Ht. apply wtodo_sym.
  - destruct ((ka =? kb) && (na =? nb)) eqn:Heq.
    + zbool. subst kb nb. pose proof (wtake_equal _ _ _ reach fuel Hinv) as Hte.
      destruct (take_equal ((ka, na) :: pa') ((ka, na) :: pb') acc) as [[pa2 pb2] acc2] eqn:Et. rewrite take_equal_cons in Et.
      destruct (winv_equal _ _ _ _ _ _ Hinv) as (G1&G2&G3). destruct pa' as [|pa0 pa'].
      * rewrite (proj1 G2) in * by done. simpl in Et. injection Et as <- <- <-. destruct fuel; [simpl in Hf; lia|].
        cbn [inter_loop]. by apply G3.
      * assert (pb' <> []) as Hne by (intros E; by apply G2 in E). destruct (G1 ltac:(done) Hne) as [Hi Ht].
        pose proof (wtake_equal _ _ _ reach fuel Hi) as Hte2. rewrite Et in Hte2. eapply done_ok_ext; [exact Ht|].
        apply Hte2; [|lia]. intros pa3 pb3 acc3 Hi3 Hl Ht3. eapply done_ok_ext; [exact Ht3|]. apply IH; [done|]. simpl in *. lia.
    + rewrite (proj2 (Z.ltb_lt _ _)) by lia. unwrap64.
      fold (emit acc (Z.max ka kb) (Z.min (ka + na) (kb + nb) - Z.max ka kb)).
      destruct (Z.ltb_spec (kb + nb) (ka + na)).
      * destruct (winv_overlap reach kb nb pb' ka na pa' acc) as [G1 G2]; [by apply winv_sym|lia..|].
        rewrite Z.max_comm, Z.min_comm in G1, G2. destruct pb' as [|q pb'].
        -- pose proof (tail_last reach la ka na pa' Ha) as Hl. destruct Hinv as (?&?&_&_&_&_&_&_&Hta&Htb).
           apply tail_one in Htb. destruct Hta as (pre&k&l&E&?&?). unfold all64 in *.
           assert (weak la (pre ++ [(k, l)])) as [Hp Hl2]%weak_app by (by rewrite <- E).
           destruct pre as [|[k9 l9] pre]; simplify_eq/=; [lia|]. destruct Hp as (_&_&_&Hp). pose proof (ends_ge _ _ Hp). lia.
        -- apply Hgo; [|simpl in *; lia]. destruct (G1 ltac:(done)) as [Hi Ht]. split; [by apply winv_sym|].
           intros x. rewrite wtodo_sym, Ht. apply wtodo_sym.
      * destruct (winv_overlap reach ka na pa' kb nb pb' acc) as [G1 G2]; [done|lia..|]. destruct pa' as [|q pa'].
        -- destruct fuel; [simpl in Hf; lia|]. cbn [inter_loop]. by apply G2.
        -- apply Hgo; [|simpl in *; lia]. by apply G1.
Qed.

(** *** Trimming *)

Lemma weak_filter lo l k v : weak lo l -> (k, v) ∈ l ->
  weak lo (filter (fun p : Z * Z => p.1 <> k) l) /\ total (filter (fun p : Z * Z => p.1 <> k) l) = total l - v /\
  (forall x, mem x (filter (fun p : Z * Z => p.1 <> k) l) -> mem x l) /\ v <= total l.
Proof.
  revert lo. induction l as [|[k' v'] l IH]; intros lo; simpl; [set_solver|]. intros (?&?&?&Hl) Hin.
  assert (Forall (fun p : Z * Z => p.1 <> k') l) as Hother.
  { clear -Hl H0. assert (k' < k' + v') as Hlt by lia. clear H0. revert Hl. generalize (k' + v') as lo', Hlt. clear Hlt.
    induction l as [|[k2 v2] l IH]; intros lo' Hlt; simpl; [done|]. intros (?&?&?&Hl). constructor; simpl; [lia|]. apply (IH (k2 + v2)); [lia|done]. }
  pose proof (weak_total _ _ Hl). destruct (decide (k' = k)) as [->|Hne].
  - rewrite filter_cons_False by (simpl; lia). rewrite filter_all by done.
    apply elem_of_cons in Hin as [[= ->]|Hin]; [|rewrite Forall_forall in Hother; by destruct (Hother _ Hin)].
    split_and!; [eapply weak_le; [|done]; lia|lia|auto|lia].
  - rewrite filter_cons_True by done. apply elem_of_cons in Hin as [[= -> ->]|Hin]; [done|].
    destruct (IH _ Hl Hin) as (?&?&Hx&?). simpl. split_and!; [done..|lia| |lia]. naive_solver.
Qed.
Lemma shortest_le l best p : p ∈ best :: l -> (shortest l best).2 <= p.2.
Proof.
  revert p best. induction l as [|it l IH]; intros p best Hp; cbn [shortest].
  - apply list_elem_of_singleton in Hp as ->. lia.
  - assert ((shortest l (if it.2 <? best.2 then it else best)).2 <= (if it.2 <? best.2 then it else best).2) by (apply IH; set_solver).
    destruct (Z.ltb_spec it.2 best.2); (apply elem_of_cons in Hp as [->|[->|Hp]%elem_of_cons]; [lia|lia|apply IH; set_solver]).
Qed.
(** The tail is longer than everything else together. *)
Lemma tail_stays reach l it : 0 <= reach <= 2 ^ 60 -> weak 0 (it :: l) -> l <> [] -> tail reach (it :: l) ->
  tail reach (filter (fun p : Z * Z => p.1 <> (shortest (it :: l) it).1) (it :: l)).
Proof.
  intros Hr Hw Hne (pre&k&n&E&?&Hkn). destruct (shortest (it :: l) it) as [k0 n0] eqn:Es.
  assert ((k0, n0) ∈ it :: l) as Hin by (pose proof (shortest_in (it :: l) it); rewrite Es in *; set_solver).
  assert (forall p, p ∈ it :: l -> n0 <= p.2) as Hmin.
  { intros p Hp. pose proof (shortest_le (it :: l) it p) as Hs. rewrite Es in Hs. apply Hs. set_solver. }
  rewrite E in *. apply weak_app in Hw as [Hwp Hwk]. pose proof (ends_ge _ _ Hwp). destruct Hwk as (Hk&Hn&?&_).
  assert (k0 <> k) as Hkk.
  { intros ->. destruct pre as [|[k1 n1] pre]; [destruct l; [done|destruct it; discriminate]|].
    assert (n0 = n) as ->.
    { apply elem_of_app in Hin as [Hin|[= ->]%list_elem_of_singleton]; [|done].
      exfalso. clear -Hwp Hin Hk. apply list_elem_of_split in Hin as (a&b&Eab). rewrite Eab in *. apply weak_app in Hwp as [Ha Hb].
      rewrite ends_app in Hk. simpl in *. destruct Hb as (?&?&?&Hb). pose proof (ends_ge _ _ Hb). lia. }
    pose proof (Hmin (k1, n1) ltac:(set_solver)). simpl in *. destruct Hwp as (?&?&?&Hwp). pose proof (ends_ge _ _ Hwp).
    unfold all64 in *. lia. }
  exists (filter (fun p : Z * Z => p.1 <> k0) pre), k, n. rewrite filter_app, filter_cons_True by (simpl; lia). by rewrite filter_nil.
Qed.

Lemma wtrim reach n s : 0 <= reach <= 2 ^ 60 -> wset s -> tail reach (m s) ->
  exists s', trim n s = Some s' /\ wset s' /\ tail reach (m s') /\ forall x, In_set x s' -> In_set x s.
Proof.
  intros Hr. revert s. induction n as [|n IH]; intros s Hs Ht; [exists s; auto|]. cbn [trim].
  destruct (max_num_intervals <? length (m s))%nat eqn:El; [|exists s; auto]. apply Nat.ltb_lt in El. unfold max_num_intervals in El.
  destruct (m s) as [|it l] eqn:Em; [exists s; by rewrite Em|]. destruct Hs as [Hw Hz]. rewrite Em in Hw, Hz.
  assert (shortest (it :: l) it ∈ it :: l) as Hin by (pose proof (shortest_in (it :: l) it); set_solver).
  destruct (shortest (it :: l) it) as [k v] eqn:Es.
  destruct (weak_filter 0 (it :: l) k v Hw Hin) as (Hw'&Hz'&Hx&Hv).
  assert (l <> []) as Hne by (intros ->; simpl in El; lia).
  pose proof (tail_stays reach l it Hr Hw Hne Ht) as Ht'. rewrite Es in Ht'. cbn [fst] in Ht'.
  unfold erase_iter. rewrite Em. cbn [fst snd]. rewrite (proj2 (Z.leb_le 0 (size s - v))) by lia. cbn [mbind option_bind].
  destruct (IH (mk (size s - v) (filter (fun p : Z * Z => p.1 <> k) (it :: l)))) as (s'&->&?&?&Hx').
  { split; cbn [m size]; [done|lia]. }
  { done. }
  exists s'. split_and!; [done..|]. intros x Hxs. unfold In_set. rewrite Em. apply Hx. by apply Hx'.
Qed.

(** *** Marking *)

Definition weak_regions (reach : Z) (r : ObjectCleanRegions) : Prop := wset (clean_offsets r) /\ tail reach (m (clean_offsets r)).

Lemma full_eq : insert clear 0 all64 = Some (mk all64 [(0, all64)]).
Proof. reflexivity. Qed.
(** What is left of everything when a region goes. *)
Lemma erase_full reach off len : 0 <= off -> 0 <= len -> off + len <= reach <= 2 ^ 60 ->
  exists s, erase (mk all64 [(0, all64)]) off len = Some s /\ wset s /\ tail reach (m s) /\
    forall x, In_set x s -> ~ off <= x < off + len.
Proof.
  intros ? ? ?. unfold erase, erase_claim.
  assert (find_inc [(0, all64)] off = ([], [(0, all64)])) as Hf.
  { unfold find_inc, lower_bound. simpl. destruct (Z.ltb_spec 0 off); simpl; [|done].
    unfold all64 in *. by rewrite add64_small, (proj2 (Z.leb_gt _ _)) by lia. }
  cbn [m size]. rewrite Hf. cbn [snd fst]. rewrite (proj2 (Z.leb_le 0 off)) by lia. unfold all64 in *. unwrap64.
  rewrite Z.sub_0_r, (proj2 (Z.leb_le (off + len) _)) by lia.
  destruct (Z.eqb_spec off 0) as [->|]; cbn [negb].
  - rewrite (proj2 (Z.eqb_neq (18446744073709551616 - 1 - 0 - len) 0)) by lia. cbn. eexists. split; [done|].
    split; [split; simpl; lia|]. split; [exists [], len, (18446744073709551616 - 1 - 0 - len); split_and!; [done|lia|unfold all64; lia]|].
    unfold In_set. simpl. intros x. lia.
  - rewrite (proj2 (Z.eqb_neq (18446744073709551616 - 1 - off - len) 0)) by lia. cbn [negb close rev_append fst snd put].
    rewrite (proj2 (Z.ltb_ge (off + len) 0)) by lia. rewrite (proj2 (Z.eqb_neq (off + len) 0)) by lia.
    eexists. split; [done|]. split; [split; simpl; lia|].
    split; [exists [(0, off)], (off + len), (18446744073709551616 - 1 - off - len); split_and!; [done|lia|unfold all64; lia]|].
    unfold In_set. simpl. intros x. lia.
Qed.

Lemma mark_ok reach r off len : weak_regions reach r -> 0 <= off -> 0 <= len -> off + len <= reach <= 2 ^ 60 ->
  exists r', mark_data_region_dirty off len r = Some r' /\ weak_regions reach r' /\
    forall x, clean r' x -> clean r x /\ ~ off <= x < off + len.
Proof.
  intros [[Hw Hz] Ht] ? ? ?. unfold mark_data_region_dirty. rewrite full_eq. cbn [mbind option_bind].
  destruct (erase_full reach off len) as (c&->&[Hwc Hzc]&Htc&Hxc); [lia..|]. cbn [mbind option_bind].
  assert (forall s, wset s -> tail reach (m s) -> all64 - reach <= size s <= all64) as Hsz.
  { intros s [Hs1 Hs2] (pre&k&l&E&?&?). rewrite Hs2, E, total_app in *. apply weak_app in Hs1 as [Hp Hl].
    pose proof (weak_total _ _ Hp). pose proof (ends_ge _ _ Hp). simpl in *. unfold all64 in *. lia. }
  pose proof (Hsz _ (conj Hw Hz) Ht). pose proof (Hsz _ (conj Hwc Hzc) Htc).
  assert (intersection_of (clean_offsets r) c = inter_loop (inter_fuel (clean_offsets r) c) (m (clean_offsets r)) (m c) clear) as ->.
  { unfold intersection_of. unfold all64 in *.
    destruct (Z.ltb_spec (size (clean_offsets r)) (size c)); (rewrite (proj2 (Z.eqb_neq _ 0)) by lia);
      rewrite (proj2 (Z.leb_gt 10 _)); [done|apply Z.div_lt_upper_bound; lia|done|apply Z.div_lt_upper_bound; lia]. }
  destruct (winter_loop reach (inter_fuel (clean_offsets r) c) (m (clean_offsets r)) (m c) clear) as (s&->&Hs&Hts&Hx).
  { exists 0, 0. split_and!; try done. }
  { unfold inter_fuel. lia. }
  cbn [mbind option_bind]. unfold trimmed. destruct (wtrim reach (length (m s)) s) as (s'&->&Hs'&Hts'&Hx'); [lia|done..|].
  cbn [mbind option_bind]. eexists. split; [done|]. split; [done|]. unfold clean. cbn [clean_offsets]. intros x Hxs.
  apply Hx', Hx in Hxs as [[]|[Hc1 Hc2]]. split; [done|by apply Hxc].
Qed.
Lemma all_clean_weak reach : 0 <= reach <= 2 ^ 60 ->
  exists r, all_clean = Some r /\ weak_regions reach r.
Proof.
  intros ?. unfold all_clean. rewrite full_eq. cbn [mbind option_bind]. eexists. split; [done|]. unfold weak_regions. cbn [clean_offsets m size].
  split; [split; simpl; unfold all64; lia|]. exists [], 0, all64. split_and!; [done|lia|lia].
Qed.
End WeakRegions.
