(* ===== verification/ObjectInfo.v ===== *)
(** Objects and their snapshots as an OSD describes them: [object_info_t],
    [SnapSet] and [object_stat_sum_t] of src/ceph-15.2.17/src/osd/osd_types.{h,cc} and
    [SnapContext] of src/ceph-15.2.17/src/common/snap_types.cc.  The objects are those of
    one name, the head and its clones, so an object is its snapid. *)
From S2P Require Import Prelude IntervalSet Hobject PgMissing PgTransaction.
#[local] Open Scope Z_scope.

(** ** [std::map] from snapids

    Association lists in increasing order of their keys. *)
Module SnapMap.
Section SnapMap.
Context {V : Type}.

Fixpoint find (k : Z) (m : list (Z * V)) : option V :=
  match m with
  | [] => None
  | (k', v) :: m => if k' =? k then Some v else find k m
  end.
(** [m[k] = v]. *)
Fixpoint set (k : Z) (v : V) (m : list (Z * V)) : list (Z * V) :=
  match m with
  | [] => [(k, v)]
  | (k', v') :: m' => if k <? k' then (k, v) :: m else if k' =? k then (k, v) :: m' else (k', v') :: set k v m'
  end.
Fixpoint erase (k : Z) (m : list (Z * V)) : list (Z * V) :=
  match m with
  | [] => []
  | (k', v) :: m => if k' =? k then m else (k', v) :: erase k m
  end.
Fixpoint lower_bound (k : Z) (m : list (Z * V)) : list (Z * V) :=
  match m with
  | [] => []
  | (k', v) :: m' => if k' <? k then lower_bound k m' else m
  end.
Definition rbegin (m : list (Z * V)) : option (Z * V) := last m.
End SnapMap.
End SnapMap.

Module ObjectInfo.
Abbreviation eversion_t := Eversion.eversion_t.

(** [-2] and [-3] as 64-bit numbers. *)
Abbreviation NOSNAP := Hobject.CEPH_NOSNAP.
Definition CEPH_MAXSNAP : Z := two64 - 3.

(** *** Manifests *)

Record chunk_info_t := mk_chunk { chunk_length : Z; chunk_flags : Z }.
Definition CHUNK_DIRTY : Z := 1.
Definition CHUNK_MISSING : Z := 2.
Definition CHUNK_HAS_REFERENCE : Z := 4.
Inductive manifest_type := TYPE_NONE | TYPE_REDIRECT | TYPE_CHUNKED.
Record object_manifest_t := mk_manifest { mtype : manifest_type; chunk_map : list (Z * chunk_info_t) }.
Definition no_manifest : object_manifest_t := mk_manifest TYPE_NONE [].
Definition is_redirect (m : object_manifest_t) : bool := match mtype m with TYPE_REDIRECT => true | _ => false end.
Definition is_chunked (m : object_manifest_t) : bool := match mtype m with TYPE_CHUNKED => true | _ => false end.

(** *** [object_info_t]

    Request ids and times are numbers; a watcher is its cookie and its name. *)
Record object_info_t := mk_info {
  soid : Z;
  version : eversion_t;
  prior_version : eversion_t;
  user_version : Z;
  last_reqid : Z;
  size : Z;
  mtime : Z;
  local_mtime : Z;
  flags : Z;
  truncate_seq : Z;
  truncate_size : Z;
  watchers : list (Z * Z);
  data_digest : Z;
  omap_digest : Z;
  manifest : object_manifest_t
}.
(** [object_info_t(soid)]. *)
Definition new_info (o : Z) : object_info_t :=
  mk_info o Eversion.zero Eversion.zero 0 0 0 0 0 0 0 0 [] (two32 - 1) (two32 - 1) no_manifest.

Definition set_version (v : eversion_t) (x : object_info_t) : object_info_t :=
  mk_info (soid x) v (prior_version x) (user_version x) (last_reqid x) (size x) (mtime x) (local_mtime x) (flags x) (truncate_seq x) (truncate_size x) (watchers x) (data_digest x) (omap_digest x) (manifest x).
Definition set_prior_version (v : eversion_t) (x : object_info_t) : object_info_t :=
  mk_info (soid x) (version x) v (user_version x) (last_reqid x) (size x) (mtime x) (local_mtime x) (flags x) (truncate_seq x) (truncate_size x) (watchers x) (data_digest x) (omap_digest x) (manifest x).
Definition set_user_version (v : Z) (x : object_info_t) : object_info_t :=
  mk_info (soid x) (version x) (prior_version x) v (last_reqid x) (size x) (mtime x) (local_mtime x) (flags x) (truncate_seq x) (truncate_size x) (watchers x) (data_digest x) (omap_digest x) (manifest x).
Definition set_last_reqid (v : Z) (x : object_info_t) : object_info_t :=
  mk_info (soid x) (version x) (prior_version x) (user_version x) v (size x) (mtime x) (local_mtime x) (flags x) (truncate_seq x) (truncate_size x) (watchers x) (data_digest x) (omap_digest x) (manifest x).
Definition set_size (v : Z) (x : object_info_t) : object_info_t :=
  mk_info (soid x) (version x) (prior_version x) (user_version x) (last_reqid x) v (mtime x) (local_mtime x) (flags x) (truncate_seq x) (truncate_size x) (watchers x) (data_digest x) (omap_digest x) (manifest x).
Definition set_mtime (v : Z) (x : object_info_t) : object_info_t :=
  mk_info (soid x) (version x) (prior_version x) (user_version x) (last_reqid x) (size x) v (local_mtime x) (flags x) (truncate_seq x) (truncate_size x) (watchers x) (data_digest x) (omap_digest x) (manifest x).
Definition set_local_mtime (v : Z) (x : object_info_t) : object_info_t :=
  mk_info (soid x) (version x) (prior_version x) (user_version x) (last_reqid x) (size x) (mtime x) v (flags x) (truncate_seq x) (truncate_size x) (watchers x) (data_digest x) (omap_digest x) (manifest x).
Definition set_flags (v : Z) (x : object_info_t) : object_info_t :=
  mk_info (soid x) (version x) (prior_version x) (user_version x) (last_reqid x) (size x) (mtime x) (local_mtime x) v (truncate_seq x) (truncate_size x) (watchers x) (data_digest x) (omap_digest x) (manifest x).
Definition set_truncate_seq (v : Z) (x : object_info_t) : object_info_t :=
  mk_info (soid x) (version x) (prior_version x) (user_version x) (last_reqid x) (size x) (mtime x) (local_mtime x) (flags x) v (truncate_size x) (watchers x) (data_digest x) (omap_digest x) (manifest x).
Definition set_truncate_size (v : Z) (x : object_info_t) : object_info_t :=
  mk_info (soid x) (version x) (prior_version x) (user_version x) (last_reqid x) (size x) (mtime x) (local_mtime x) (flags x) (truncate_seq x) v (watchers x) (data_digest x) (omap_digest x) (manifest x).
Definition set_watchers (v : list (Z * Z)) (x : object_info_t) : object_info_t :=
  mk_info (soid x) (version x) (prior_version x) (user_version x) (last_reqid x) (size x) (mtime x) (local_mtime x) (flags x) (truncate_seq x) (truncate_size x) v (data_digest x) (omap_digest x) (manifest x).
Definition set_data_digest (v : Z) (x : object_info_t) : object_info_t :=
  mk_info (soid x) (version x) (prior_version x) (user_version x) (last_reqid x) (size x) (mtime x) (local_mtime x) (flags x) (truncate_seq x) (truncate_size x) (watchers x) v (omap_digest x) (manifest x).
Definition set_omap_digest (v : Z) (x : object_info_t) : object_info_t :=
  mk_info (soid x) (version x) (prior_version x) (user_version x) (last_reqid x) (size x) (mtime x) (local_mtime x) (flags x) (truncate_seq x) (truncate_size x) (watchers x) (data_digest x) v (manifest x).
Definition set_manifest (v : object_manifest_t) (x : object_info_t) : object_info_t :=
  mk_info (soid x) (version x) (prior_version x) (user_version x) (last_reqid x) (size x) (mtime x) (local_mtime x) (flags x) (truncate_seq x) (truncate_size x) (watchers x) (data_digest x) (omap_digest x) v.

Definition FLAG_LOST : Z := 1.
Definition FLAG_WHITEOUT : Z := 2.
Definition FLAG_DIRTY : Z := 4.
Definition FLAG_OMAP : Z := 8.
Definition FLAG_DATA_DIGEST : Z := 16.
Definition FLAG_OMAP_DIGEST : Z := 32.
Definition FLAG_CACHE_PIN : Z := 64.
Definition FLAG_MANIFEST : Z := 128.
Definition FLAG_REDIRECT_HAS_REFERENCE : Z := 512.

Definition test_flag (f : Z) (x : object_info_t) : bool := Z.land (flags x) f =? f.
Definition set_flag (f : Z) (x : object_info_t) : object_info_t := set_flags (Z.lor (flags x) f) x.
Definition clear_flag (f : Z) (x : object_info_t) : object_info_t := set_flags (Z.ldiff (flags x) f) x.
Definition is_whiteout := test_flag FLAG_WHITEOUT.
Definition is_dirty := test_flag FLAG_DIRTY.
Definition is_omap := test_flag FLAG_OMAP.
Definition is_data_digest := test_flag FLAG_DATA_DIGEST.
Definition is_omap_digest := test_flag FLAG_OMAP_DIGEST.
Definition is_cache_pinned := test_flag FLAG_CACHE_PIN.
Definition has_manifest := test_flag FLAG_MANIFEST.
Definition put_data_digest (d : Z) (x : object_info_t) : object_info_t := set_data_digest d (set_flag FLAG_DATA_DIGEST x).
Definition put_omap_digest (d : Z) (x : object_info_t) : object_info_t := set_omap_digest d (set_flag FLAG_OMAP_DIGEST x).
Definition clear_data_digest (x : object_info_t) : object_info_t :=
  set_data_digest (two32 - 1) (clear_flag FLAG_DATA_DIGEST x).
Definition clear_omap_digest (x : object_info_t) : object_info_t :=
  set_omap_digest (two32 - 1) (clear_flag FLAG_OMAP_DIGEST x).
Definition new_object (x : object_info_t) : object_info_t := clear_omap_digest (clear_data_digest x).

(** What a clone takes over from the head. *)
Definition copy_user_bits (other x : object_info_t) : object_info_t :=
  mk_info (soid x) (version x) (prior_version x) (user_version other) (last_reqid other) (size other) (mtime other)
    (local_mtime other) (flags other) (truncate_seq other) (truncate_size other) (watchers x) (data_digest other)
    (omap_digest other) (manifest x).

(** *** [SnapSet]: the clones of an object, in its head *)

Record SnapSet := mk_snapset {
  seq : Z;
  snaps : list Z;
  clones : list Z;
  clone_overlap : list (Z * interval_set.interval_set);
  clone_size : list (Z * Z);
  clone_snaps : list (Z * list Z)
}.
Definition no_snapset : SnapSet := mk_snapset 0 [] [] [] [] [].

Definition set_seq (v : Z) (x : SnapSet) : SnapSet :=
  mk_snapset v (snaps x) (clones x) (clone_overlap x) (clone_size x) (clone_snaps x).
Definition set_snaps (v : list Z) (x : SnapSet) : SnapSet :=
  mk_snapset (seq x) v (clones x) (clone_overlap x) (clone_size x) (clone_snaps x).
Definition set_clones (v : list Z) (x : SnapSet) : SnapSet :=
  mk_snapset (seq x) (snaps x) v (clone_overlap x) (clone_size x) (clone_snaps x).
Definition set_clone_overlap (v : list (Z * interval_set.interval_set)) (x : SnapSet) : SnapSet :=
  mk_snapset (seq x) (snaps x) (clones x) v (clone_size x) (clone_snaps x).
Definition set_clone_size (v : list (Z * Z)) (x : SnapSet) : SnapSet :=
  mk_snapset (seq x) (snaps x) (clones x) (clone_overlap x) v (clone_snaps x).
Definition set_clone_snaps (v : list (Z * list Z)) (x : SnapSet) : SnapSet :=
  mk_snapset (seq x) (snaps x) (clones x) (clone_overlap x) (clone_size x) v.

(** The bytes charged to a clone: those it does not share with the next newer
    version. *)
Definition get_clone_bytes (clone : Z) (ss : SnapSet) : option Z :=
  sz ← SnapMap.find clone (clone_size ss);
  overlap ← SnapMap.find clone (clone_overlap ss);
  ceph_assert (interval_set.size overlap <=? sz) ;;
  Some (sz - interval_set.size overlap).

Definition filter_removed (removed : Z -> bool) (ss : SnapSet) : SnapSet :=
  set_snaps (List.filter (fun s => negb (removed s)) (snaps ss)) ss.

Record SnapContext := mk_snapc { snapc_seq : Z; snapc_snaps : list Z }.

(** [SnapContext::is_valid]: a valid [seq], not below the snapshots, which are
    in decreasing order; only the last may be 0. *)
Fixpoint descending (t : Z) (l : list Z) : bool :=
  match l with
  | [] => true
  | s :: l => if (t <=? s) || (t =? 0) then false else descending s l
  end.
Definition is_valid (c : SnapContext) : bool :=
  if CEPH_MAXSNAP <? snapc_seq c then false
  else match snapc_snaps c with
       | [] => true
       | s :: l => if snapc_seq c <? s then false else descending s l
       end.

(** *** [object_stat_sum_t], the counters used here *)

Inductive counter :=
| num_bytes | num_objects | num_object_clones | num_whiteouts | num_objects_dirty | num_objects_omap
| num_objects_pinned | num_objects_manifest | num_wr | num_wr_kb.
#[export] Instance counter_eq_dec : EqDecision counter.
Proof. solve_decision. Defined.

Definition no_stats : counter -> Z := fun _ => 0.
Definition count (k : counter) (n : Z) (st : counter -> Z) : counter -> Z :=
  fun k' => if bool_decide (k' = k) then st k' + n else st k'.
Definition count_if (b : bool) (k : counter) (n : Z) (st : counter -> Z) : counter -> Z :=
  if b then count k n st else st.
(** [object_stat_sum_t::add]. *)
Definition add_stats (a b : counter -> Z) : counter -> Z := fun k => a k + b k.
End ObjectInfo.
