(* ===== verification/PrimaryLogPG.v ===== *)
(** Writes to the objects of one name, src/ceph-15.2.17/src/osd/PrimaryLogPG.cc: the
    operations of a client request on the head ([do_osd_ops]), the clone that keeps
    the contents for a new snapshot ([make_writeable]), the end of a request
    ([finish_ctx]) and the search for the object a snapshot reads
    ([find_object_context]). *)
From stdpp Require Import strings.
From S2P Require Import Prelude IntervalSet CleanRegions PgMissing IntervalMap PgTransaction ObjectInfo.
#[local] Open Scope Z_scope.

Module PrimaryLogPG.
Import interval_set CleanRegions ObjectData ObjectInfo.
Abbreviation op_map O := (PGTransaction.op_map O).

Abbreviation ENOENT := 2.
Abbreviation EAGAIN := 11.
Abbreviation EBUSY := 16.
Abbreviation EEXIST := 17.
Abbreviation EINVAL := 22.
Abbreviation EFBIG := 27.
Abbreviation ENOSPC := 28.
Abbreviation EOPNOTSUPP := 95.
Abbreviation EINPROGRESS := 115.
Abbreviation EDQUOT := 122.

(** ** State *)

Record ObjectState := mk_obs { oi : object_info_t; exists_ : bool }.
Record SnapSetContext := mk_ssc { snapset : SnapSet; ssc_exists : bool }.

(** The objects of one name: the contexts of head and clones, read from their
    [OI_ATTR] or cached, the snapset of the head, the object store and the
    statistics.  A context of an object that does not exist may be cached. *)
Record PG := mk_pg {
  contexts : gmap Z ObjectState;
  ssc : SnapSetContext;
  disk : StoreOps.store Z;
  pg_stats : counter -> Z
}.

(** The constructors of [pg_log_entry_t] used here. *)
Inductive log_op := MODIFY | CLONE | DELETE_.
Record log_entry := mk_entry {
  le_op : log_op; le_soid : Z; le_version : eversion_t; le_prior_version : eversion_t; le_user_version : Z; le_reqid : Z;
  le_mtime : Z; le_return_code : Z; le_snaps : list Z; le_clean_regions : option ObjectCleanRegions
}.

(** Why an operation waits. *)
Inductive block := Degraded_snap | Snap_rollback | Full_cache.
(** [cache_result_t], as far as a rollback distinguishes it. *)
Inductive cache_result_t := NOOP | BLOCKED_PROMOTE | BLOCKED_FULL | REPLIED_WITH_EAGAIN | OTHER.

(** What a request finds around it: its own parameters, the pool and the
    configuration, the map's removed snapshots, which objects are missing or
    degraded, what the tiering code decides, and the functions that are used and
    not modelled: the checksum and the encoders of the two attributes. *)
Record Env := {
  snapc : SnapContext;
  undirty : bool;
  cache_evict : bool;
  ignore_cache : bool;
  reqid : Z;
  op_mtime : Z;
  now : Z;
  last_user_version : Z;
  may_write : bool;
  allows_returnvec : bool;
  is_mds : bool;
  full_force : bool;
  full_try : bool;
  pool_full : bool;
  pool_full_quota : bool;
  cache_mode_none : bool;
  pool_is_tier : bool;
  is_erasure : bool;
  ec_overwrites : bool;
  stripe_width : Z;
  incomplete_clones : bool;
  write_fadvise_dontneed : bool;
  osd_max_object_size : Z;
  skip_data_digest : bool;
  kraken : bool;
  octopus : bool;
  osd_debug_verify_snaps : bool;
  in_removed_snaps_queue : Z -> bool;
  is_removed_snap : Z -> bool;
  is_missing : Z -> bool;
  reverting : Z -> bool;
  is_degraded : Z -> bool;
  tier_mode_result : bool -> Z -> cache_result_t;
  crc32c : Z -> bytes -> Z;
  encode_info : object_info_t -> bytes;
  encode_snapset : SnapSet -> bytes
}.
Definition requires_aligned_append (e : Env) : bool := is_erasure e && negb (ec_overwrites e).
Definition allow_incomplete_clones (e : Env) : bool := negb (cache_mode_none e) || incomplete_clones e.
Definition OI_ATTR : string := "_".
Definition SS_ATTR : string := "snapset".

(** [OpContext]. *)
Record OpContext := mk_ctx {
  obs : ObjectState;
  new_obs : ObjectState;
  new_snapset : SnapSet;
  modified_ranges : interval_set;
  clean_regions : ObjectCleanRegions;
  delta_stats : counter -> Z;
  op_t : op_map Z;
  modify : bool;
  user_modify : bool;
  num_write : Z;
  rvals : list Z;
  at_version : eversion_t;
  user_at_version : Z;
  log : list log_entry;
  clone_obc : option ObjectState;
  watch_disconnects : list (Z * Z);
  on_commit : list Z;
  blocked : list (block * Z);
  update_log_only : bool
}.

Definition set_new_obs (v : ObjectState) (x : OpContext) : OpContext :=
  mk_ctx (obs x) v (new_snapset x) (modified_ranges x) (clean_regions x) (delta_stats x) (op_t x) (modify x) (user_modify x) (num_write x) (rvals x) (at_version x) (user_at_version x) (log x) (clone_obc x) (watch_disconnects x) (on_commit x) (blocked x) (update_log_only x).
Definition set_new_snapset (v : SnapSet) (x : OpContext) : OpContext :=
  mk_ctx (obs x) (new_obs x) v (modified_ranges x) (clean_regions x) (delta_stats x) (op_t x) (modify x) (user_modify x) (num_write x) (rvals x) (at_version x) (user_at_version x) (log x) (clone_obc x) (watch_disconnects x) (on_commit x) (blocked x) (update_log_only x).
Definition set_modified_ranges (v : interval_set) (x : OpContext) : OpContext :=
  mk_ctx (obs x) (new_obs x) (new_snapset x) v (clean_regions x) (delta_stats x) (op_t x) (modify x) (user_modify x) (num_write x) (rvals x) (at_version x) (user_at_version x) (log x) (clone_obc x) (watch_disconnects x) (on_commit x) (blocked x) (update_log_only x).
Definition set_clean_regions (v : ObjectCleanRegions) (x : OpContext) : OpContext :=
  mk_ctx (obs x) (new_obs x) (new_snapset x) (modified_ranges x) v (delta_stats x) (op_t x) (modify x) (user_modify x) (num_write x) (rvals x) (at_version x) (user_at_version x) (log x) (clone_obc x) (watch_disconnects x) (on_commit x) (blocked x) (update_log_only x).
Definition set_delta_stats (v : counter -> Z) (x : OpContext) : OpContext :=
  mk_ctx (obs x) (new_obs x) (new_snapset x) (modified_ranges x) (clean_regions x) v (op_t x) (modify x) (user_modify x) (num_write x) (rvals x) (at_version x) (user_at_version x) (log x) (clone_obc x) (watch_disconnects x) (on_commit x) (blocked x) (update_log_only x).
Definition set_op_t (v : op_map Z) (x : OpContext) : OpContext :=
  mk_ctx (obs x) (new_obs x) (new_snapset x) (modified_ranges x) (clean_regions x) (delta_stats x) v (modify x) (user_modify x) (num_write x) (rvals x) (at_version x) (user_at_version x) (log x) (clone_obc x) (watch_disconnects x) (on_commit x) (blocked x) (update_log_only x).
Definition set_modify (v : bool) (x : OpContext) : OpContext :=
  mk_ctx (obs x) (new_obs x) (new_snapset x) (modified_ranges x) (clean_regions x) (delta_stats x) (op_t x) v (user_modify x) (num_write x) (rvals x) (at_version x) (user_at_version x) (log x) (clone_obc x) (watch_disconnects x) (on_commit x) (blocked x) (update_log_only x).
Definition set_user_modify (v : bool) (x : OpContext) : OpContext :=
  mk_ctx (obs x) (new_obs x) (new_snapset x) (modified_ranges x) (clean_regions x) (delta_stats x) (op_t x) (modify x) v (num_write x) (rvals x) (at_version x) (user_at_version x) (log x) (clone_obc x) (watch_disconnects x) (on_commit x) (blocked x) (update_log_only x).
Definition set_num_write (v : Z) (x : OpContext) : OpContext :=
  mk_ctx (obs x) (new_obs x) (new_snapset x) (modified_ranges x) (clean_regions x) (delta_stats x) (op_t x) (modify x) (user_modify x) v (rvals x) (at_version x) (user_at_version x) (log x) (clone_obc x) (watch_disconnects x) (on_commit x) (blocked x) (update_log_only x).
Definition set_rvals (v : list Z) (x : OpContext) : OpContext :=
  mk_ctx (obs x) (new_obs x) (new_snapset x) (modified_ranges x) (clean_regions x) (delta_stats x) (op_t x) (modify x) (user_modify x) (num_write x) v (at_version x) (user_at_version x) (log x) (clone_obc x) (watch_disconnects x) (on_commit x) (blocked x) (update_log_only x).
Definition set_at_version (v : eversion_t) (x : OpContext) : OpContext :=
  mk_ctx (obs x) (new_obs x) (new_snapset x) (modified_ranges x) (clean_regions x) (delta_stats x) (op_t x) (modify x) (user_modify x) (num_write x) (rvals x) v (user_at_version x) (log x) (clone_obc x) (watch_disconnects x) (on_commit x) (blocked x) (update_log_only x).
Definition set_user_at_version (v : Z) (x : OpContext) : OpContext :=
  mk_ctx (obs x) (new_obs x) (new_snapset x) (modified_ranges x) (clean_regions x) (delta_stats x) (op_t x) (modify x) (user_modify x) (num_write x) (rvals x) (at_version x) v (log x) (clone_obc x) (watch_disconnects x) (on_commit x) (blocked x) (update_log_only x).
Definition set_log (v : list log_entry) (x : OpContext) : OpContext :=
  mk_ctx (obs x) (new_obs x) (new_snapset x) (modified_ranges x) (clean_regions x) (delta_stats x) (op_t x) (modify x) (user_modify x) (num_write x) (rvals x) (at_version x) (user_at_version x) v (clone_obc x) (watch_disconnects x) (on_commit x) (blocked x) (update_log_only x).
Definition set_clone_obc (v : option ObjectState) (x : OpContext) : OpContext :=
  mk_ctx (obs x) (new_obs x) (new_snapset x) (modified_ranges x) (clean_regions x) (delta_stats x) (op_t x) (modify x) (user_modify x) (num_write x) (rvals x) (at_version x) (user_at_version x) (log x) v (watch_disconnects x) (on_commit x) (blocked x) (update_log_only x).
Definition set_watch_disconnects (v : list (Z * Z)) (x : OpContext) : OpContext :=
  mk_ctx (obs x) (new_obs x) (new_snapset x) (modified_ranges x) (clean_regions x) (delta_stats x) (op_t x) (modify x) (user_modify x) (num_write x) (rvals x) (at_version x) (user_at_version x) (log x) (clone_obc x) v (on_commit x) (blocked x) (update_log_only x).
Definition set_on_commit (v : list Z) (x : OpContext) : OpContext :=
  mk_ctx (obs x) (new_obs x) (new_snapset x) (modified_ranges x) (clean_regions x) (delta_stats x) (op_t x) (modify x) (user_modify x) (num_write x) (rvals x) (at_version x) (user_at_version x) (log x) (clone_obc x) (watch_disconnects x) v (blocked x) (update_log_only x).
Definition set_blocked (v : list (block * Z)) (x : OpContext) : OpContext :=
  mk_ctx (obs x) (new_obs x) (new_snapset x) (modified_ranges x) (clean_regions x) (delta_stats x) (op_t x) (modify x) (user_modify x) (num_write x) (rvals x) (at_version x) (user_at_version x) (log x) (clone_obc x) (watch_disconnects x) (on_commit x) v (update_log_only x).
Definition set_update_log_only (v : bool) (x : OpContext) : OpContext :=
  mk_ctx (obs x) (new_obs x) (new_snapset x) (modified_ranges x) (clean_regions x) (delta_stats x) (op_t x) (modify x) (user_modify x) (num_write x) (rvals x) (at_version x) (user_at_version x) (log x) (clone_obc x) (watch_disconnects x) (on_commit x) (blocked x) v.

Definition on_info (f : object_info_t -> object_info_t) (c : OpContext) : OpContext :=
  set_new_obs (mk_obs (f (oi (new_obs c))) (exists_ (new_obs c))) c.
Definition set_exists (b : bool) (c : OpContext) : OpContext := set_new_obs (mk_obs (oi (new_obs c)) b) c.
Definition on_stats (f : (counter -> Z) -> counter -> Z) (c : OpContext) : OpContext := set_delta_stats (f (delta_stats c)) c.
Definition on_op_t (f : op_map Z -> option (op_map Z)) (c : OpContext) : option OpContext :=
  t ← f (op_t c); Some (set_op_t t c).
Definition soid_of (c : OpContext) : Z := soid (oi (new_obs c)).
(** [ch.insert(off, len); modified_ranges.union_of(ch)]. *)
Definition modified (off len : Z) (c : OpContext) : option OpContext :=
  r ← union_insert (modified_ranges c) off len; Some (set_modified_ranges r c).
Definition mark_dirty (off len : Z) (c : OpContext) : option OpContext :=
  r ← mark_data_region_dirty off len (clean_regions c); Some (set_clean_regions r c).
Definition mark_omap (c : OpContext) : OpContext := set_clean_regions (mark_omap_dirty (clean_regions c)) c.
Definition wait_for (b : block) (o : Z) (c : OpContext) : OpContext := set_blocked (blocked c ++ [(b, o)]) c.

Section PrimaryLogPG.
Context (env : Env) (pg : PG).

(** ** Finding objects *)

Definition get_object_context (o : Z) (can_create : bool) : option (option ObjectState) :=
  ceph_assert (negb (is_missing env o) || reverting env o) ;;
  Some match contexts pg !! o with
       | Some obs => Some obs
       | None => if can_create then Some (mk_obs (new_info o) false) else None
       end.
Definition get_snapset_context (can_create : bool) : option SnapSetContext :=
  if can_create || ssc_exists (ssc pg) then Some (ssc pg) else None.

(** The first clone not older than a snapshot. *)
Fixpoint first_clone (l : list Z) (s : Z) : option Z :=
  match l with
  | [] => None
  | c :: l => if c <? s then first_clone l s else Some c
  end.

(** The code, the object and [*pmissing]. *)
Definition find_object_context (oid : Z) (can_create map_snapid_to_clone : bool)
    : option (Z * option ObjectState * option Z) :=
  if oid =? NOSNAP then
    obc ← get_object_context oid can_create;
    match obc with
    | None => Some (- ENOENT, None, Some oid)
    | Some obs => Some (0, Some obs, None)
    end
  else
    match get_snapset_context can_create with
    | None => Some (- ENOENT, None, Some NOSNAP)
    | Some ssc =>
      if negb (ssc_exists ssc || can_create) then Some (- ENOENT, None, Some NOSNAP)
      else
        let ss := snapset ssc in
        if map_snapid_to_clone then
          if seq ss <? oid then
            obc ← get_object_context NOSNAP false;
            Some (match obc with Some obs => if exists_ obs then 0 else - ENOENT | None => - ENOENT end, obc, None)
          else if negb (bool_decide (oid ∈ clones ss)) then Some (- ENOENT, None, None)
          else if is_missing env oid then Some (- EAGAIN, None, Some oid)
          else
            obc ← get_object_context oid false;
            match obc with
            | Some obs => if exists_ obs then Some (0, obc, None) else Some (- ENOENT, None, Some oid)
            | None => Some (- ENOENT, None, Some oid)
            end
        else if seq ss <? oid then
          obc ← get_object_context NOSNAP false;
          obs ← obc;
          Some (0, Some obs, None)
        else
          match first_clone (clones ss) oid with
          | None => Some (- ENOENT, None, None)
          | Some k =>
            if is_missing env k then Some (- EAGAIN, None, Some k)
            else
              obc ← get_object_context k false;
              match obc with
              | Some obs =>
                if exists_ obs then
                  snaps ← SnapMap.find k (clone_snaps ss);
                  if bool_decide (snaps = []) then
                    ceph_assert (negb (osd_debug_verify_snaps env)) ;; Some (- ENOENT, None, None)
                  else if negb (bool_decide (oid ∈ snaps)) then Some (- ENOENT, None, None)
                  else if in_removed_snaps_queue env oid then Some (- ENOENT, None, None)
                  else Some (0, obc, None)
                else Some (if is_degraded env k then - EAGAIN else - ENOENT, None, Some k)
              | None => Some (if is_degraded env k then - EAGAIN else - ENOENT, None, Some k)
              end
          end
    end.

Definition is_present_clone (coid : Z) : option bool :=
  if negb (allow_incomplete_clones env) then Some true
  else if is_missing env coid then Some true
  else
    obc ← get_object_context coid false;
    Some match obc with Some obs => exists_ obs | None => false end.

(** ** Operations on the head *)

Definition check_offset_and_length (offset length : Z) : Z :=
  let max := osd_max_object_size env in
  if (max <=? offset) || (max <? length) || (max <? add64 offset length) then - EFBIG else 0.

Definition maybe_create_new_object (ignore_transaction : bool) (c : OpContext) : option OpContext :=
  if negb (exists_ (new_obs c)) then
    let c := set_exists true (on_stats (count num_objects 1) c) in
    ceph_assert (negb (is_whiteout (oi (new_obs c)))) ;;
    let c := on_info new_object c in
    if ignore_transaction then Some c else on_op_t (PGTransaction.create (soid_of c)) c
  else if is_whiteout (oi (new_obs c)) then
    Some (on_stats (count num_whiteouts (-1)) (on_info (clear_flag FLAG_WHITEOUT) c))
  else Some c.

Definition touch_chunks (offset length : Z) (m : object_manifest_t) : object_manifest_t :=
  mk_manifest (mtype m) (map (fun p =>
    if ((p.1 <=? offset) && (offset <? add64 p.1 (chunk_length p.2))) || ((offset <? p.1) && (p.1 <? add64 offset length))
    then (p.1, mk_chunk (chunk_length p.2) (Z.lor (Z.ldiff (chunk_flags p.2) CHUNK_MISSING) CHUNK_DIRTY)) else p) (chunk_map m)).

Definition write_update_size_and_usage (offset length : Z) (write_full : bool) (c : OpContext) : option OpContext :=
  let size0 := size (oi (new_obs c)) in
  c ← (if write_full then if negb (size0 =? 0) then modified 0 size0 c else Some c
       else if negb (length =? 0) then modified offset length c else Some c);
  let c := if write_full || ((size0 <? add64 offset length) && negb (length =? 0)) then
             on_info (set_size (add64 offset length)) (on_stats (count num_bytes (add64 offset length)) (on_stats (count num_bytes (- size0)) c))
           else c in
  let c := if has_manifest (oi (new_obs c)) && is_chunked (manifest (oi (new_obs c))) then
             on_info (fun x => set_manifest (touch_chunks offset length (manifest x)) x) c else c in
  Some (on_stats (count num_wr_kb (Z.shiftr (add64 length 1023) 10)) (on_stats (count num_wr 1) c)).

Definition truncate_update_size_and_usage (truncate_size : Z) (c : OpContext) : OpContext :=
  let size0 := size (oi (new_obs c)) in
  if negb (size0 =? truncate_size) then
    on_info (set_size truncate_size) (on_stats (count num_bytes truncate_size) (on_stats (count num_bytes (- size0)) c))
  else c.

Definition _delete_oid (no_whiteout try_no_whiteout : bool) (c : OpContext) : option (Z * OpContext) :=
  let ss := new_snapset c in
  let o := soid_of c in
  let will_clone := negb (bool_decide (clones ss = [])) ||
                    match snapc_snaps (snapc env) with [] => false | s :: _ => seq ss <? s end in
  let whiteout := (negb (cache_mode_none env) && negb no_whiteout && negb try_no_whiteout) || (will_clone && negb no_whiteout) in
  if negb (exists_ (new_obs c)) || (is_whiteout (oi (new_obs c)) && whiteout) then Some (- ENOENT, c)
  else
    c ← on_op_t (PGTransaction.remove o) c;
    let size0 := size (oi (new_obs c)) in
    c ← (if 0 <? size0 then c ← modified 0 size0 c; mark_dirty 0 size0 c else Some c);
    let c := on_stats (count num_wr 1) (mark_omap c) in
    c ← (if negb (o =? NOSNAP) then
           b ← get_clone_bytes o (snapset (ssc pg)); Some (on_stats (count num_bytes (- b)) c)
         else Some (on_stats (count num_bytes (- size0)) c));
    let c := on_info (fun x => new_object (set_size 0 x)) c in
    let c := set_watch_disconnects (watch_disconnects c ++ watchers (oi (new_obs c))) c in
    let c := on_info (set_watchers []) c in
    if whiteout then
      let c := on_stats (count num_whiteouts 1) (on_info (set_flag FLAG_WHITEOUT) c) in
      c ← on_op_t (PGTransaction.create o) c;
      Some (0, c)
    else
      let c := on_stats (count num_objects (-1)) c in
      let c := on_stats (count_if (negb (o =? NOSNAP)) num_object_clones (-1)) c in
      let c := if is_whiteout (oi (new_obs c)) then
                 on_info (clear_flag FLAG_WHITEOUT) (on_stats (count num_whiteouts (-1)) c) else c in
      let c := on_stats (count_if (is_cache_pinned (oi (new_obs c))) num_objects_pinned (-1)) c in
      let c := on_stats (count_if (has_manifest (oi (new_obs c))) num_objects_manifest (-1)) c in
      Some (0, set_exists false c).

(** The bytes a clone and every newer version share. *)
Fixpoint common_overlap (acc : interval_set) (l : list (Z * interval_set)) : option interval_set :=
  match l with
  | [] => Some acc
  | p :: l => acc ← intersection_of acc p.2; common_overlap acc l
  end.

(** The head becomes a copy of the clone [r]; what it shares with the clone and
    every version after it is not modified. *)
Definition copy_clone (snapid : Z) (r : ObjectState) (c : OpContext) : option OpContext :=
  let o := soid_of c in
  c ← (if exists_ (new_obs c) then on_op_t (PGTransaction.remove o) c else Some c);
  c ← on_op_t (PGTransaction.clone o (soid (oi r))) c;
  match SnapMap.lower_bound snapid (clone_overlap (new_snapset c)) with
  | [] => ceph_abort
  | (p :: _) as l =>
    overlaps ← common_overlap p.2 l;
    let size0 := size (oi (new_obs c)) in
    c ← (if 0 <? size0 then
           mo ← insert clear 0 size0;
           overlaps ← intersection_of overlaps mo;
           mo ← subtract mo overlaps;
           mr ← union_of (modified_ranges c) mo;
           Some (set_modified_ranges mr c)
         else Some c);
    c ← maybe_create_new_object true c;
    let c := on_stats (count num_bytes (size (oi r))) (on_stats (count num_bytes (- size0)) c) in
    c ← mark_dirty 0 (Z.max size0 (size (oi r))) c;
    let c := on_info (set_size (size (oi r))) (mark_omap c) in
    let c := on_info (if is_data_digest (oi r) then put_data_digest (data_digest (oi r)) else clear_data_digest) c in
    let c := on_info (if is_omap_digest (oi r) then put_omap_digest (omap_digest (oi r)) else clear_omap_digest) c in
    Some (on_info (if is_omap (oi r) then set_flag FLAG_OMAP else clear_flag FLAG_OMAP) c)
  end.

Definition _rollback_to (snapid : Z) (c : OpContext) : option (Z * OpContext) :=
  let o := soid_of c in
  '(ret, rollback_to, missing_oid) ← find_object_context snapid false false;
  if ret =? - EAGAIN then
    m ← missing_oid;
    ceph_assert (is_degraded env m) ;;
    Some (ret, wait_for Degraded_snap m c)
  else
    match tier_mode_result env (exists_ (new_obs c) && has_manifest (oi (new_obs c))) snapid with
    | REPLIED_WITH_EAGAIN | OTHER => ceph_abort
    | BLOCKED_PROMOTE => Some (- EAGAIN, wait_for Snap_rollback o c)
    | BLOCKED_FULL => Some (- EAGAIN, wait_for Full_cache o c)
    | NOOP =>
      if (ret =? - ENOENT) || match rollback_to with Some r => is_whiteout (oi r) | None => false end then
        if negb (bool_decide (watchers (oi (obs c)) = [])) then Some (- EBUSY, c)
        else '(_, c) ← _delete_oid false false c; Some (0, c)
      else if negb (ret =? 0) then ceph_abort
      else
        r ← rollback_to;
        let from := soid (oi r) in
        if is_degraded env from then Some (- EAGAIN, wait_for Degraded_snap from c)
        else if from =? NOSNAP then Some (ret, set_modify true c)
        else
          c ← copy_clone snapid r c;
          Some (ret, c)
    end.

(** ** [do_osd_ops] *)

Inductive opcode := WRITE | WRITEFULL | ROLLBACK | ZERO | CREATE | TRIMTRUNC | TRUNCATE | DELETE.
#[export] Instance opcode_eq_dec : EqDecision opcode.
Proof. solve_decision. Defined.
Record OSDOp := mk_op {
  op : opcode; op_flags : Z; offset : Z; length : Z; op_truncate_size : Z; op_truncate_seq : Z; op_snapid : Z; indata : bytes
}.
Definition FLAG_EXCL : Z := 1.
Definition FLAG_FAILOK : Z := 2.
Definition FADVISE_DONTNEED : Z := 32.
Definition has (flag : Z) (p : OSDOp) : bool := negb (Z.land (op_flags p) flag =? 0).
Definition set_op (k : opcode) (p : OSDOp) : OSDOp :=
  mk_op k (op_flags p) (offset p) (length p) (op_truncate_size p) (op_truncate_seq p) (op_snapid p) (indata p).
Definition set_extent (off tsize tseq : Z) (p : OSDOp) : OSDOp :=
  mk_op (op p) (op_flags p) off (length p) tsize tseq (op_snapid p) (indata p).
Definition uses_extent (k : opcode) : bool :=
  match k with WRITE | WRITEFULL | TRUNCATE | ZERO | TRIMTRUNC => true | _ => false end.
Definition write_flags (p : OSDOp) : Z :=
  if write_fadvise_dontneed env then Z.lor (op_flags p) FADVISE_DONTNEED else op_flags p.
Definition count_write (c : OpContext) : OpContext := set_num_write (num_write c + 1) c.
(** [decode] of a string: its length in four bytes, and that many bytes. *)
Definition decodes_string (b : bytes) : bool :=
  match b with
  | b0 :: b1 :: b2 :: b3 :: b' => b0 + 256 * b1 + 65536 * b2 + 16777216 * b3 <=? zlen b'
  | _ => false
  end.

(** A write that arrives before the truncation its client knows of. *)
Definition early_truncate (p : OSDOp) (c : OpContext) : option OpContext :=
  let tsize := op_truncate_size p in
  let size0 := size (oi (new_obs c)) in
  let stamp x := set_truncate_size tsize (set_truncate_seq (op_truncate_seq p) x) in
  if exists_ (new_obs c) && negb (is_whiteout (oi (new_obs c))) then
    c ← on_op_t (PGTransaction.truncate (soid_of c) tsize) c;
    let c := on_info stamp c in
    c ← (if tsize <? size0 then
           c ← modified tsize (size0 - tsize) c;
           c ← mark_dirty tsize (size0 - tsize) c;
           Some (on_info clear_data_digest c)
         else Some c);
    Some (if negb (tsize =? size (oi (new_obs c))) then truncate_update_size_and_usage tsize c else c)
  else Some (on_info stamp c).

Definition do_write (p : OSDOp) (c : OpContext) : option (Z * OpContext) :=
  let c := count_write c in
  let o := soid_of c in
  let size0 := size (oi (new_obs c)) in
  let seq := truncate_seq (oi (new_obs c)) mod two32 in
  let off := offset p in
  if negb (length p =? zlen (indata p)) then Some (- EINVAL, c)
  else if requires_aligned_append env && negb (off mod stripe_width env =? 0) then Some (- EOPNOTSUPP, c)
  else if requires_aligned_append env && negb (off =? if exists_ (new_obs c) then size0 else 0) then Some (- EOPNOTSUPP, c)
  else
    let old := negb (seq =? 0) && (op_truncate_seq p <? seq) && (size0 <? add64 off (length p)) in
    let len := if old then if size0 <? off then 0 else size0 - off else length p in
    let data := if old then take (Z.to_nat len) (indata p) else indata p in
    c ← (if seq <? op_truncate_seq p then early_truncate p c else Some c);
    let r := check_offset_and_length off len in
    if r <? 0 then Some (r, c)
    else
      c ← maybe_create_new_object false c;
      c ← (if len =? 0 then
             if size (oi (new_obs c)) <? off then
               c ← on_op_t (PGTransaction.truncate o off) c; Some (truncate_update_size_and_usage off c)
             else on_op_t (PGTransaction.nop o) c
           else on_op_t (PGTransaction.write o off data (write_flags p)) c);
      let c := on_info (fun x =>
        if (off =? 0) && (size x <=? len) && negb (skip_data_digest env) then put_data_digest (crc32c env (two32 - 1) data) x
        else if (off =? size x) && is_data_digest x then
          if skip_data_digest env then clear_data_digest x else put_data_digest (crc32c env (data_digest x) data) x
        else clear_data_digest x) c in
      c ← write_update_size_and_usage off len false c;
      c ← mark_dirty off len c;
      Some (r, c).

Definition do_writefull (p : OSDOp) (c : OpContext) : option (Z * OpContext) :=
  let c := count_write c in
  let o := soid_of c in
  if negb (length p =? zlen (indata p)) then Some (- EINVAL, c)
  else
    let r := check_offset_and_length 0 (length p) in
    if r <? 0 then Some (r, c)
    else
      c ← maybe_create_new_object false c;
      c ← (if is_erasure env then on_op_t (PGTransaction.truncate o 0) c
           else if exists_ (new_obs c) && (length p <? size (oi (new_obs c))) then on_op_t (PGTransaction.truncate o (length p)) c
           else Some c);
      c ← (if negb (length p =? 0) then on_op_t (PGTransaction.write o 0 (indata p) (write_flags p)) c else Some c);
      let c := on_info (if negb (skip_data_digest env) then put_data_digest (crc32c env (two32 - 1) (indata p))
                        else clear_data_digest) c in
      c ← mark_dirty 0 (Z.max (length p) (size (oi (new_obs c)))) c;
      c ← write_update_size_and_usage 0 (length p) true c;
      Some (r, c).

Definition do_zero (p : OSDOp) (c : OpContext) : option (Z * OpContext) :=
  if requires_aligned_append env then Some (- EOPNOTSUPP, c)
  else
    let c := count_write c in
    let r := check_offset_and_length (offset p) (length p) in
    if r <? 0 then Some (r, c)
    else
      ceph_assert (negb (length p =? 0)) ;;
      if exists_ (new_obs c) && negb (is_whiteout (oi (new_obs c))) then
        c ← on_op_t (PGTransaction.zero (soid_of c) (offset p) (length p)) c;
        c ← modified (offset p) (length p) c;
        c ← mark_dirty (offset p) (length p) c;
        Some (r, on_info clear_data_digest (on_stats (count num_wr 1) c))
      else Some (r, c).

Definition do_create (p : OSDOp) (c : OpContext) : option (Z * OpContext) :=
  let c := count_write c in
  if exists_ (new_obs c) && negb (is_whiteout (oi (new_obs c))) && has FLAG_EXCL p then Some (- EEXIST, c)
  else if negb (bool_decide (indata p = [])) && negb (decodes_string (indata p)) then Some (- EINVAL, c)
  else
    c ← maybe_create_new_object false c;
    c ← on_op_t (PGTransaction.nop (soid_of c)) c;
    Some (0, c).

Definition do_truncate (p : OSDOp) (c : OpContext) : option (Z * OpContext) :=
  if requires_aligned_append env then Some (- EOPNOTSUPP, c)
  else
    let c := count_write c in
    let off := offset p in
    if negb (exists_ (new_obs c)) || is_whiteout (oi (new_obs c)) then Some (0, c)
    else
      let r := check_offset_and_length off (length p) in
      if r <? 0 then Some (r, c)
      else
        ceph_assert ((op_truncate_seq p =? 0) || (off =? op_truncate_size p)) ;;
        if negb (op_truncate_seq p =? 0) && (op_truncate_seq p <=? truncate_seq (oi (new_obs c))) then Some (r, c)
        else
          let c := if negb (op_truncate_seq p =? 0) then
                     on_info (fun x => set_truncate_size (op_truncate_size p) (set_truncate_seq (op_truncate_seq p) x)) c else c in
          c ← maybe_create_new_object false c;
          c ← on_op_t (PGTransaction.truncate (soid_of c) off) c;
          let size0 := size (oi (new_obs c)) in
          c ← (if off <? size0 then c ← modified off (size0 - off) c; mark_dirty off (size0 - off) c
               else if size0 <? off then mark_dirty size0 (off - size0) c else Some c);
          let c := if negb (off =? size0) then truncate_update_size_and_usage off c else c in
          Some (r, on_info clear_data_digest (on_stats (count num_wr 1) c)).

(** The references of the manifest are dropped when the deletion commits. *)
Definition release_manifest (c : OpContext) : OpContext :=
  let x := oi (new_obs c) in
  if has_manifest x then
    if test_flag FLAG_REDIRECT_HAS_REFERENCE x && is_redirect (manifest x) then set_on_commit (on_commit c ++ [soid x]) c
    else if is_chunked (manifest x) then
      set_on_commit (on_commit c ++ map fst (List.filter (fun p => negb (Z.land (chunk_flags p.2) CHUNK_HAS_REFERENCE =? 0))
                                              (chunk_map (manifest x)))) c
    else c
  else c.
Definition do_delete (c : OpContext) : option (Z * OpContext) :=
  _delete_oid false (ignore_cache env) (release_manifest (count_write c)).

(** [truncate_size] -1 with [truncate_seq] 1 means no truncation. *)
Definition munge_truncate (p : OSDOp) : OSDOp :=
  if uses_extent (op p) && (op_truncate_seq p =? 1) && (op_truncate_size p =? two64 - 1) then set_extent (offset p) 0 0 p else p.
(** A [ZERO] that reaches the end of the object is a [TRUNCATE]; [None] when
    there is nothing to zero. *)
Definition munge_zero (p : OSDOp) (c : OpContext) : option OSDOp :=
  let size0 := size (oi (new_obs c)) in
  if bool_decide (op p = ZERO) && exists_ (new_obs c) && (offset p <? osd_max_object_size env) && (1 <=? length p) &&
     (length p <=? osd_max_object_size env) && (size0 <=? add64 (offset p) (length p))
  then if size0 <=? offset p then None else Some (set_op TRUNCATE p)
  else Some p.

Definition do_osd_op (p : OSDOp) (result : Z) (c : OpContext) : option (Z * OpContext) :=
  let c := set_user_modify true c in
  match munge_zero (munge_truncate p) c with
  | None => Some (result, c)
  | Some p =>
    match op p with
    | WRITE => do_write p c
    | WRITEFULL => do_writefull p c
    | ROLLBACK => _rollback_to (op_snapid p) (count_write c)
    | ZERO => do_zero p c
    | CREATE => do_create p c
    | TRIMTRUNC => do_truncate (set_extent (op_truncate_size p) (op_truncate_size p) (op_truncate_seq p) p) c
    | TRUNCATE => do_truncate p c
    | DELETE => do_delete c
    end
  end.

Fixpoint do_osd_ops (ops : list OSDOp) (result : Z) (c : OpContext) : option (Z * OpContext) :=
  match ops with
  | [] => Some (result, c)
  | p :: ops =>
    '(result, c) ← do_osd_op p result c;
    let c := set_rvals (rvals c ++ [result]) c in
    let result := if (result <? 0) && has FLAG_FAILOK p && negb (result =? - EAGAIN) && negb (result =? - EINPROGRESS)
                  then 0 else result in
    if result <? 0 then Some (result, c) else do_osd_ops ops result c
  end.

(** ** [make_writeable] *)

Definition _make_clone (head coid : Z) (poi : object_info_t) (c : OpContext) : option OpContext :=
  c ← on_op_t (PGTransaction.clone coid head) c;
  c ← on_op_t (PGTransaction.setattr coid OI_ATTR (encode_info env poi)) c;
  on_op_t (PGTransaction.rmattr coid SS_ATTR) c.

(** The [DIRTY] flag and the omap statistics. *)
Definition update_dirty (c : OpContext) : option OpContext :=
  let was_dirty := is_dirty (oi (obs c)) in
  if exists_ (new_obs c) then
    if undirty env && was_dirty then
      ceph_assert (is_dirty (oi (new_obs c))) ;;
      Some (on_stats (count num_objects_dirty (-1)) (on_info (clear_flag FLAG_DIRTY) c))
    else if negb was_dirty && negb (undirty env) then
      Some (on_stats (count num_objects_dirty 1) (on_info (set_flag FLAG_DIRTY) c))
    else Some c
  else if was_dirty then Some (on_stats (count num_objects_dirty (-1)) (on_info (clear_flag FLAG_DIRTY) c))
  else Some c.
Definition update_omap_stats (c : OpContext) : OpContext :=
  let new := exists_ (new_obs c) && is_omap (oi (new_obs c)) in
  let old := exists_ (obs c) && is_omap (oi (obs c)) in
  on_stats (count_if (negb new && old) num_objects_omap (-1)) (on_stats (count_if (new && negb old) num_objects_omap 1) c).

(** The snapshots the clone is for: those newer than the snapset. *)
Fixpoint snaps_after (s : Z) (l : list Z) : list Z :=
  match l with
  | [] => []
  | x :: l => if s <? x then x :: snaps_after s l else []
  end.
Definition wants_clone (c : OpContext) : bool :=
  exists_ (obs c) && negb (is_whiteout (oi (obs c))) && negb (cache_evict env) &&
  match snapc_snaps (snapc env) with [] => false | s :: _ => seq (new_snapset c) <? s end.
(** [snaps] has at least the first snapshot. *)
Definition clone_head (c : OpContext) : option OpContext :=
  let head := oi (obs c) in
  let coid := snapc_seq (snapc env) in
  let snaps := match snapc_snaps (snapc env) with
               | [] => []
               | s :: l => s :: snaps_after (seq (new_snapset c)) l
               end in
  let snap_oi := copy_user_bits head (set_prior_version (version head) (set_version (at_version c) (new_info coid))) in
  let c := set_clone_obc (Some (mk_obs snap_oi true)) c in
  c ← _make_clone (soid head) coid snap_oi c;
  let c := on_stats (count num_objects 1) c in
  let c := on_stats (count_if (is_dirty snap_oi) num_objects_dirty 1) c in
  let c := on_stats (count_if (is_omap snap_oi) num_objects_omap 1) c in
  let c := on_stats (count_if (is_cache_pinned snap_oi) num_objects_pinned 1) c in
  let c := on_stats (count_if (has_manifest snap_oi) num_objects_manifest 1) c in
  let c := on_stats (count num_object_clones 1) c in
  let ss := new_snapset c in
  overlap ← (let old := default clear (SnapMap.find coid (clone_overlap ss)) in
             if negb (size head =? 0) then insert old 0 (size head) else Some old);
  let ss := set_clones (clones ss ++ [coid]) ss in
  let ss := set_clone_size (SnapMap.set coid (size head) (clone_size ss)) ss in
  let ss := set_clone_snaps (SnapMap.set coid snaps (clone_snaps ss)) ss in
  let ss := set_clone_overlap (SnapMap.set coid overlap (clone_overlap ss)) ss in
  let c := set_new_snapset ss c in
  let entry := mk_entry CLONE coid (at_version c) (version head) (user_version head) 0 (mtime (oi (new_obs c))) 0 snaps None in
  let c := set_log (log c ++ [entry]) c in
  Some (set_at_version (Eversion.ev (Eversion.epoch (at_version c)) (Eversion.version (at_version c) + 1)) c).

(** The newest clone no longer shares what was modified. *)
Definition update_overlap (c : OpContext) : option OpContext :=
  let ss := new_snapset c in
  if bool_decide (clones ss = []) then Some c
  else
    '(last_clone, newest_overlap) ← SnapMap.rbegin (clone_overlap ss);
    mr ← intersection_of (modified_ranges c) newest_overlap;
    let c := set_modified_ranges mr c in
    present ← is_present_clone last_clone;
    let c := on_stats (count_if present num_bytes (interval_set.size mr)) c in
    ov ← subtract newest_overlap mr;
    Some (set_new_snapset (set_clone_overlap (SnapMap.set last_clone ov (clone_overlap ss)) ss) c).
Definition update_seq (c : OpContext) : OpContext :=
  let ss := new_snapset c in
  if seq ss <? snapc_seq (snapc env) then
    set_new_snapset (set_snaps (if octopus env then [] else snapc_snaps (snapc env)) (set_seq (snapc_seq (snapc env)) ss)) c
  else c.

Definition make_writeable (c : OpContext) : option OpContext :=
  ceph_assert (soid (oi (obs c)) =? NOSNAP) ;;
  c ← update_dirty c;
  let c := update_omap_stats c in
  c ← (if wants_clone c then clone_head c else Some c);
  c ← update_overlap c;
  Some (update_seq c).

(** ** The end of a request *)

Definition finish_ctx (log_op_type : log_op) (result : Z) (c : OpContext) : option (OpContext * ObjectState * SnapSetContext) :=
  let o := soid (oi (obs c)) in
  let c := if user_modify c then
             let v := Z.max (last_user_version env) (user_version (oi (new_obs c))) + 1 in
             let v := if v <? Eversion.version (at_version c) then Eversion.version (at_version c) else v in
             on_info (set_user_version v) (set_user_at_version v c)
           else c in
  c ← (if exists_ (new_obs c) then
         let c := on_info (set_last_reqid (reqid env)) (on_info (set_prior_version (version (oi (obs c))))
                    (on_info (set_version (at_version c)) c)) in
         let c := if negb (op_mtime env =? 0) then on_info (set_local_mtime (now env)) (on_info (set_mtime (op_mtime env)) c) else c in
         c ← on_op_t (PGTransaction.setattr o OI_ATTR (encode_info env (oi (new_obs c)))) c;
         if o =? NOSNAP then on_op_t (PGTransaction.setattr o SS_ATTR (encode_snapset env (new_snapset c))) c else Some c
       else Some (on_info (fun _ => new_info o) c));
  let snaps := if (o <? NOSNAP) && match log_op_type with MODIFY => true | _ => false end
               then default [] (SnapMap.find o (clone_snaps (new_snapset c))) else [] in
  let entry := mk_entry log_op_type o (at_version c) (version (oi (obs c))) (user_at_version c) (reqid env) (op_mtime env)
                 (if allows_returnvec env then result else 0) snaps (Some (clean_regions c)) in
  let c := set_log (log c ++ [entry]) c in
  Some (c, new_obs c,
        if (o =? NOSNAP) && negb (exists_ (new_obs c)) then mk_ssc no_snapset false else mk_ssc (new_snapset c) true).

(** What [prepare_transaction] leaves: nothing to do, or the new state of the
    object and its snapset. *)
Definition prepare_transaction (ops : list OSDOp) (c : OpContext)
    : option (Z * OpContext * option (ObjectState * SnapSetContext)) :=
  ceph_assert (negb (bool_decide (ops = []))) ;;
  if negb (is_valid (snapc env)) then Some (- EINVAL, c, None)
  else
    '(result, c) ← do_osd_ops ops 0 c;
    if result <? 0 then Some (result, if may_write env && kraken env then set_update_log_only true c else c, None)
    else if PGTransaction.empty (op_t c) && negb (modify c) then
      Some (result, if may_write env && kraken env then set_update_log_only true c else c, None)
    else if ((0 <? delta_stats c num_bytes) || (0 <? delta_stats c num_objects)) && pool_full env && negb (is_mds env || full_force env)
    then Some (if full_try env then if pool_full_quota env then - EDQUOT else - ENOSPC else - EAGAIN, c, None)
    else
      c ← (if soid (oi (obs c)) =? NOSNAP then make_writeable c else Some c);
      '(c, obs, ssc) ← finish_ctx (if exists_ (new_obs c) then MODIFY else DELETE_) result c;
      Some (result, c, Some (obs, ssc)).

(** The context a request on the head starts with. *)
Definition start (at_version : eversion_t) : option OpContext :=
  obc ← get_object_context NOSNAP true;
  obs ← obc;
  regions ← all_clean;
  Some (mk_ctx obs obs (snapset (ssc pg)) clear regions no_stats ∅ false false 0 [] at_version (user_version (oi obs)) [] None [] [] []
          false).

(** The transaction in the order of [op_map], which for the objects of one name
    is the order of the snapids. *)
Definition objects_of (t : op_map Z) : list Z := merge_sort Z.le (elements (dom t)).
Definition apply_transaction (t : op_map Z) (s : StoreOps.store Z) : option (StoreOps.store Z) :=
  ps ← PGTransaction.generate_transaction (octopus env) t (objects_of t);
  StoreOps.apply_ops ps s.

(** A request on the head, from the contexts to the object store. *)
Definition execute (at_version : eversion_t) (ops : list OSDOp) : option (Z * list log_entry * PG) :=
  c ← start at_version;
  '(result, c, done) ← prepare_transaction ops c;
  match done with
  | None => Some (result, [], pg)
  | Some (obs, ssc) =>
    disk ← apply_transaction (op_t c) (disk pg);
    let contexts := <[NOSNAP := obs]> match clone_obc c with Some o => <[soid (oi o) := o]> (contexts pg) | None => contexts pg end in
    Some (result, log c, mk_pg contexts ssc disk (add_stats (pg_stats pg) (delta_stats c)))
  end.

End PrimaryLogPG.
End PrimaryLogPG.
