(* ===== verification/SnapSpec.v ===== *)
(** What a name with snapshots promises its clients, and the invariant that relates
    the contexts, snapset, store and statistics of src/ceph-15.2.17/src/osd/PrimaryLogPG.cc
    to it. *)
From stdpp Require Import strings.
From S2P Require Import Prelude IntervalSet CleanRegions PgMissing IntervalMap PgTransaction PgTransactionFacts ObjectInfo PrimaryLogPG.
#[local] Open Scope Z_scope.

Module SnapSpec.
Import ObjectData ObjectInfo PrimaryLogPG.

(** ** The abstract object

    The current contents, the newest snapshot taken of it, and the contents that
    are kept per snapshot.  [tseq] orders truncations, which arrive with writes;
    [watched] says whether a client watches the object. *)
Record astate := mk_a { cur : option bytes; tseq : Z; watched : bool; aseq : Z; frozen : gmap Z bytes }.
Definition initial : astate := mk_a None 0 false 0 ∅.
(** An object with no contents and no snapshots is forgotten. *)
Definition forget (a : astate) : astate :=
  if bool_decide (cur a = None) && bool_decide (frozen a = ∅) then initial else a.
Definition freeze (l : list Z) (d : bytes) (m : gmap Z bytes) : gmap Z bytes := foldr (fun s m => <[s := d]> m) m l.

(** The contents a snapshot reads. *)
Definition read (a : astate) (s : Z) : option bytes :=
  if (s =? NOSNAP) || (aseq a <? s) then cur a else frozen a !! s.

(** ** Operations *)

Record work := mk_w { w_cur : option bytes; w_tseq : Z; w_watched : bool; touched : bool }.
Definition put (d : bytes) (w : work) : work := mk_w (Some d) (w_tseq w) (w_watched w) true.
Definition contents (w : work) : bytes := default [] (w_cur w).

Section Spec.
Context (env : Env).

(** A write first makes the truncations it knows of, and is cut by those it does
    not know of. *)
Definition clipped (p : OSDOp) (w : work) : bytes :=
  let size := zlen (contents w) in
  if negb (w_tseq w =? 0) && (op_truncate_seq p <? w_tseq w) && (size <? offset p + length p)
  then take (Z.to_nat (if size <? offset p then 0 else size - offset p)) (indata p) else indata p.
Definition early (p : OSDOp) (w : work) : work :=
  if w_tseq w <? op_truncate_seq p then
    mk_w (truncate (op_truncate_size p) <$> w_cur w) (op_truncate_seq p) (w_watched w)
      (touched w || negb (bool_decide (w_cur w = None)))
  else w.
Definition overwrite (off : Z) (data d : bytes) : bytes :=
  if bool_decide (data = []) then if zlen d <? off then truncate off d else d else write off data d.
Definition spec_write (p : OSDOp) (w : work) : Z * work :=
  if negb (length p =? zlen (indata p)) then (- EINVAL, w)
  else
    let data := clipped p w in
    let w := early p w in
    let r := check_offset_and_length env (offset p) (zlen data) in
    if r <? 0 then (r, w) else (0, put (overwrite (offset p) data (contents w)) w).

Definition spec_writefull (p : OSDOp) (w : work) : Z * work :=
  if negb (length p =? zlen (indata p)) then (- EINVAL, w)
  else
    let r := check_offset_and_length env 0 (length p) in
    if r <? 0 then (r, w) else (0, put (indata p) w).

Definition spec_truncate (p : OSDOp) (w : work) : Z * work :=
  match w_cur w with
  | None => (0, w)
  | Some d =>
    let r := check_offset_and_length env (offset p) (length p) in
    if r <? 0 then (r, w)
    else if negb (op_truncate_seq p =? 0) && (op_truncate_seq p <=? w_tseq w) then (0, w)
    else (0, mk_w (Some (truncate (offset p) d)) (if op_truncate_seq p =? 0 then w_tseq w else op_truncate_seq p) (w_watched w) true)
  end.

(** Zeroing up to the end cuts the object. *)
Definition spec_zero (p : OSDOp) (w : work) : Z * work :=
  match w_cur w with
  | None => (0, w)
  | Some d =>
    if zlen d <=? offset p then (0, w)
    else if zlen d <=? offset p + length p then (0, put (truncate (offset p) d) w)
    else (0, put (zero (offset p) (length p) d) w)
  end.

Definition spec_create (p : OSDOp) (w : work) : Z * work :=
  if negb (bool_decide (w_cur w = None)) && has FLAG_EXCL p then (- EEXIST, w)
  else if negb (bool_decide (indata p = [])) && negb (decodes_string (indata p)) then (- EINVAL, w)
  else (0, put (contents w) w).

Definition spec_delete (w : work) : Z * work :=
  match w_cur w with
  | None => (- ENOENT, w)
  | Some _ => (0, mk_w None (w_tseq w) false true)
  end.

(** Back to what a snapshot reads; nothing there means to delete. *)
Definition spec_rollback (a : astate) (s : Z) (w : work) : Z * work :=
  match (if (s <=? aseq a) && in_removed_snaps_queue env s then None else read a s) with
  | None => if watched a then (- EBUSY, w) else (0, (spec_delete w).2)
  | Some d => (0, put d w)
  end.

Definition spec_op (a : astate) (p : OSDOp) (w : work) : Z * work :=
  match op p with
  | WRITE => spec_write p w
  | WRITEFULL => spec_writefull p w
  | ROLLBACK => spec_rollback a (op_snapid p) w
  | ZERO => spec_zero p w
  | CREATE => spec_create p w
  | TRIMTRUNC => spec_truncate (set_extent (op_truncate_size p) (op_truncate_size p) (op_truncate_seq p) p) w
  | TRUNCATE => spec_truncate p w
  | DELETE => spec_delete w
  end.
(** A vector stops at the first failure that is not excused. *)
Fixpoint spec_ops (a : astate) (ops : list OSDOp) (w : work) : Z * work :=
  match ops with
  | [] => (0, w)
  | p :: ops =>
    let '(r, w) := spec_op a (munge_truncate p) w in
    if (r <? 0) && negb (has FLAG_FAILOK p) then (r, w) else spec_ops a ops w
  end.

(** A request that changes the object freezes the old contents for the snapshots
    of its context that are new. *)
Definition spec_commit (a : astate) (w : work) : astate :=
  forget (mk_a (w_cur w) (w_tseq w) (w_watched w) (Z.max (aseq a) (snapc_seq (snapc env)))
    match cur a with
    | Some d => freeze (List.filter (fun s => aseq a <? s) (snapc_snaps (snapc env))) d (frozen a)
    | None => frozen a
    end).
Definition spec_execute (a : astate) (ops : list OSDOp) : Z * astate :=
  if negb (is_valid (snapc env)) then (- EINVAL, a)
  else
    let '(r, w) := spec_ops a ops (mk_w (cur a) (tseq a) (watched a) false) in
    if (r <? 0) || negb (touched w) then (r, a) else (r, spec_commit a w).
End Spec.

(** ** Requests covered

    A replicated pool that is no cache tier, with all its objects at hand, and
    operations as clients send them: offsets that do not wrap, truncations within
    the size limit, no empty [WRITEFULL], and a removal only as the first operation. *)
Record plain_pool (env : Env) : Prop := {
  e_tier : cache_mode_none env = true;
  e_complete : incomplete_clones env = false;
  e_erasure : is_erasure env = false;
  e_undirty : undirty env = false;
  e_evict : cache_evict env = false;
  e_missing : forall o, is_missing env o = false;
  e_degraded : forall o, is_degraded env o = false;
  e_noop : forall b s, tier_mode_result env b s = NOOP;
  e_full : pool_full env = false;
  e_max : 0 < osd_max_object_size env <= two32;
  e_snapc : 0 <= snapc_seq (snapc env)
}.
Record op_ok (env : Env) (p : OSDOp) : Prop := {
  p_offset : 0 <= offset p;
  p_length : 0 <= length p < two32;
  p_wrap : offset p + length p < two64;
  p_tseq : 0 <= op_truncate_seq p < two32;
  p_tsize : 0 <= op_truncate_size p <= osd_max_object_size env;
  p_snapid : 0 <= op_snapid p <= CEPH_MAXSNAP;
  p_writefull : op p = WRITEFULL -> 0 < length p;
  p_zero : op p = ZERO -> 0 < length p /\ offset p + length p <= osd_max_object_size env /\ op_truncate_seq p = 0;
  p_truncate : op p = TRUNCATE -> op_truncate_seq p = 0 \/ offset p = op_truncate_size p
}.
Definition removes (p : OSDOp) : bool := match op p with DELETE | ROLLBACK => true | _ => false end.
Definition ops_ok (env : Env) (ops : list OSDOp) : Prop :=
  ops <> [] /\ Forall (fun p => op_ok env (munge_truncate p)) ops /\ Forall (fun p => removes p = false) (List.tl ops).

(** ** The invariant *)

(** A clone: its id, contents, context, the snapshots it serves and the bytes it
    shares with the next newer version. *)
Record clone := mk_clone { c_id : Z; c_info : object_info_t; c_data : bytes; c_snaps : list Z; c_overlap : interval_set.interval_set }.

Definition frozen_of (cl : list clone) : gmap Z bytes := foldl (fun m c => freeze (c_snaps c) (c_data c) m) ∅ cl.

(** [ov] holds bytes two versions have in common. *)
Definition shares (ov : interval_set.interval_set) (a b : bytes) : Prop :=
  IntervalFacts.wf ov /\ forall x, IntervalFacts.In_set x ov -> x < zlen a /\ x < zlen b /\ byte a x = byte b x.
Fixpoint chain (cl : list clone) (head : bytes) : Prop :=
  match cl with
  | [] => True
  | c :: cl => shares (c_overlap c) (c_data c) (match cl with [] => head | d :: _ => c_data d end) /\ chain cl head
  end.
(** The snapshots of a clone lie after the clone before it. *)
Fixpoint ordered (lo : Z) (cl : list clone) : Prop :=
  match cl with
  | [] => True
  | c :: cl => lo < c_id c /\ c_snaps c <> [] /\ StronglySorted Z.gt (c_snaps c) /\
               Forall (fun s => lo < s <= c_id c) (c_snaps c) /\ ordered (c_id c) cl
  end.

(** No object is pinned or has a manifest. *)
Definition plain (x : object_info_t) : Prop := is_cache_pinned x = false /\ has_manifest x = false.

(** How an object represents contents: a whiteout or nothing where there are none. *)
Definition rep (h : ObjectState) (x : option object) (d : option bytes) : Prop :=
  match d with
  | Some d => exists_ h = true /\ is_whiteout (oi h) = false /\ size (oi h) = zlen d /\ data <$> x = Some d
  | None => size (oi h) = 0 /\ is_whiteout (oi h) = exists_ h /\ data <$> x = (if exists_ h then Some [] else None)
  end.

(** What the counters count. *)
Definition weight (k : counter) (h : ObjectState) : Z :=
  if exists_ h then
    match k with
    | num_objects => 1
    | num_whiteouts => Z.b2z (is_whiteout (oi h))
    | num_objects_dirty => Z.b2z (is_dirty (oi h))
    | num_objects_omap => Z.b2z (is_omap (oi h))
    | num_objects_pinned => Z.b2z (is_cache_pinned (oi h))
    | num_objects_manifest => Z.b2z (has_manifest (oi h))
    | num_bytes => size (oi h)
    | _ => 0
    end
  else 0.
Definition clone_weight (k : counter) (c : clone) : Z :=
  match k with
  | num_bytes => zlen (c_data c) - interval_set.size (c_overlap c)
  | num_object_clones => 1
  | _ => weight k (mk_obs (c_info c) true)
  end.
Definition sum_clones (k : counter) (cl : list clone) : Z := foldr (fun c n => clone_weight k c + n) 0 cl.
Definition tracked (k : counter) : Prop := k <> num_wr /\ k <> num_wr_kb.
Definition exact (st : counter -> Z) (h : ObjectState) (cl : list clone) : Prop :=
  forall k, tracked k -> st k = weight k h + sum_clones k cl.

Definition snapset_of (seq : Z) (snaps : list Z) (cl : list clone) : SnapSet :=
  mk_snapset seq snaps (c_id <$> cl) ((fun c => (c_id c, c_overlap c)) <$> cl) ((fun c => (c_id c, zlen (c_data c))) <$> cl)
    ((fun c => (c_id c, c_snaps c)) <$> cl).

Definition head_of (pg : PG) : ObjectState := default (mk_obs (new_info NOSNAP) false) (contexts pg !! NOSNAP).

Record clone_ok (pg : PG) (c : clone) : Prop := {
  co_context : contexts pg !! c_id c = Some (mk_obs (c_info c) true);
  co_soid : soid (c_info c) = c_id c;
  co_disk : data <$> disk pg !! c_id c = Some (c_data c);
  co_size : size (c_info c) = zlen (c_data c);
  co_whiteout : is_whiteout (c_info c) = false;
  co_plain : plain (c_info c)
}.

(** The objects [pg] of a name, with clones [cl], represent [a]; no object is
    longer than [max]. *)
Record represents (max : Z) (pg : PG) (cl : list clone) (a : astate) : Prop := {
  r_head : rep (head_of pg) (disk pg !! NOSNAP) (cur a);
  r_soid : soid (oi (head_of pg)) = NOSNAP;
  r_plain : plain (oi (head_of pg));
  r_ssc : ssc_exists (ssc pg) = exists_ (head_of pg);
  r_absent : exists_ (head_of pg) = false -> oi (head_of pg) = new_info NOSNAP /\ snapset (ssc pg) = no_snapset;
  r_whiteout : is_whiteout (oi (head_of pg)) = true -> cl <> [];
  r_tseq : tseq a = truncate_seq (oi (head_of pg)) /\ 0 <= tseq a < two32;
  r_watched : watched a = negb (bool_decide (watchers (oi (head_of pg)) = []));
  r_snapset : exists snaps, snapset (ssc pg) = snapset_of (aseq a) snaps cl;
  r_frozen : frozen a = frozen_of cl;
  r_seq : 0 <= aseq a <= CEPH_MAXSNAP /\ Forall (fun c => c_id c <= aseq a) cl;
  r_ordered : ordered 0 cl;
  r_chain : chain cl (default [] (cur a));
  r_clones : Forall (clone_ok pg) cl;
  r_others : forall o, o <> NOSNAP -> o ∉ c_id <$> cl -> disk pg !! o = None;
  r_sizes : zlen (default [] (cur a)) <= max /\ Forall (fun c => zlen (c_data c) <= max) cl;
  r_stats : exact (pg_stats pg) (head_of pg) cl
}.
End SnapSpec.
