(* ===== verification/SnapFacts.v ===== *)
(** Facts on requests to objects with snapshots: flags, transactions on the head, and
    what every operation keeps. *)
From stdpp Require Import strings.
From S2P Require Import Prelude IntervalSet CleanRegions CleanMarks PgMissing IntervalMap PgTransaction PgTransactionFacts.
From S2P Require Import ObjectInfo PrimaryLogPG SnapSpec.
#[local] Open Scope Z_scope.

Module FlagFacts.
Import ObjectInfo.

Lemma land_pow2 a i : 0 <= i -> (Z.land a (2 ^ i) =? 2 ^ i) = Z.testbit a i.
Proof.
  intros Hi. assert (Z.land a (2 ^ i) = if Z.testbit a i then 2 ^ i else 0) as ->.
  { apply Z.bits_inj'. intros j Hj. rewrite Z.land_spec, Z.pow2_bits_eqb by done.
    destruct (Z.eqb_spec i j) as [->|Hne]; [rewrite andb_true_r|rewrite andb_false_r].
    - destruct (Z.testbit a j); [by rewrite Z.pow2_bits_true|by rewrite Z.bits_0].
    - destruct (Z.testbit a i); [by rewrite Z.pow2_bits_false by lia|by rewrite Z.bits_0]. }
  pose proof (Z.pow_pos_nonneg 2 i ltac:(lia) Hi). destruct (Z.testbit a i); [apply Z.eqb_refl|lia].
Qed.
Lemma whiteout_bit x : is_whiteout x = Z.testbit (flags x) 1.
Proof. apply (land_pow2 _ 1). lia. Qed.
Lemma dirty_bit x : is_dirty x = Z.testbit (flags x) 2.
Proof. apply (land_pow2 _ 2). lia. Qed.
Lemma omap_bit x : is_omap x = Z.testbit (flags x) 3.
Proof. apply (land_pow2 _ 3). lia. Qed.
Lemma pinned_bit x : is_cache_pinned x = Z.testbit (flags x) 6.
Proof. apply (land_pow2 _ 6). lia. Qed.
Lemma manifest_bit x : has_manifest x = Z.testbit (flags x) 7.
Proof. apply (land_pow2 _ 7). lia. Qed.
End FlagFacts.

(** Read the tests of flags as bits, and compute those of the constants. *)
Ltac flag_bits :=
  rewrite ?FlagFacts.whiteout_bit, ?FlagFacts.dirty_bit, ?FlagFacts.omap_bit, ?FlagFacts.pinned_bit, ?FlagFacts.manifest_bit.
Ltac bits_flag :=
  rewrite <- ?FlagFacts.whiteout_bit, <- ?FlagFacts.dirty_bit, <- ?FlagFacts.omap_bit, <- ?FlagFacts.pinned_bit,
    <- ?FlagFacts.manifest_bit.
Ltac const_bits :=
  repeat match goal with
  | |- context [Z.testbit ?c ?i] =>
    let b := eval vm_compute in (Z.testbit c i) in
    lazymatch b with true => change (Z.testbit c i) with true | false => change (Z.testbit c i) with false end
  end.
Ltac flags :=
  flag_bits;
  cbn [ObjectInfo.flags ObjectInfo.set_flags ObjectInfo.set_flag ObjectInfo.clear_flag ObjectInfo.clear_data_digest
       ObjectInfo.clear_omap_digest ObjectInfo.put_data_digest ObjectInfo.put_omap_digest ObjectInfo.new_object
       ObjectInfo.set_data_digest ObjectInfo.set_omap_digest ObjectInfo.set_size ObjectInfo.set_watchers
       ObjectInfo.set_truncate_seq ObjectInfo.set_truncate_size ObjectInfo.set_manifest ObjectInfo.set_version
       ObjectInfo.set_prior_version ObjectInfo.set_user_version ObjectInfo.set_last_reqid ObjectInfo.set_mtime
       ObjectInfo.set_local_mtime ObjectInfo.copy_user_bits ObjectInfo.new_info];
  repeat (rewrite Z.lor_spec || rewrite Z.ldiff_spec); const_bits; cbn [negb];
  rewrite ?orb_true_r, ?orb_false_r, ?andb_true_r, ?andb_false_r; bits_flag.

(** Case analysis on a counter. *)
Ltac counters :=
  repeat match goal with
  | |- context [bool_decide ?P] =>
    let b := eval vm_compute in (bool_decide P) in
    lazymatch b with true => change (bool_decide P) with true | false => change (bool_decide P) with false end
  end; cbv beta iota.

(** ** Transactions on the head only *)

Module HeadTx.
Import ObjectData ObjectInfo PGTransaction TransFacts StoreOps.

Definition upd (x : option object) (s : store Z) : store Z :=
  match x with Some x => <[NOSNAP := x]> s | None => delete NOSNAP s end.
Lemma upd_head x s : upd x s !! NOSNAP = x.
Proof. destruct x; cbn [upd]; [apply lookup_insert_eq|apply lookup_delete_eq]. Qed.
Lemma upd_other x s o : o <> NOSNAP -> upd x s !! o = s !! o.
Proof. intros. destruct x; cbn [upd]; [by apply lookup_insert_ne|by apply lookup_delete_ne]. Qed.
Lemma upd_insert x y s : <[NOSNAP := y]> (upd x s) = upd (Some y) s.
Proof. destruct x; cbn [upd]; [apply insert_insert_eq|apply insert_delete_eq]. Qed.
Lemma upd_delete x s : delete NOSNAP (upd x s) = upd None s.
Proof. destruct x; cbn [upd]; [apply delete_insert_eq|apply delete_delete_eq]. Qed.
Lemma upd_same s : upd (s !! NOSNAP) s = s.
Proof.
  apply map_eq. intros o. destruct (decide (o = NOSNAP)) as [->|]; [apply upd_head|by apply upd_other].
Qed.

(** A transaction that touches the head, and leaves [x] there. *)
Record tx (s0 : store Z) (t : op_map Z) (x : option object) : Prop := {
  tx_inv : inv s0 t (upd x s0);
  tx_only : forall o, o <> NOSNAP -> t !! o = None;
  tx_source : forall src, has_source (at_ t NOSNAP) = Some src -> src <> NOSNAP
}.
Lemma tx_start s0 : tx s0 ∅ (s0 !! NOSNAP).
Proof. split; [rewrite upd_same; apply inv_start|intros; apply lookup_empty|]. unfold at_. rewrite lookup_empty. done. Qed.

Definition target (a : @action Z) : Z :=
  match a with
  | A_create o | A_clone o _ | A_remove o | A_truncate o _ | A_setattr o _ _ | A_rmattr o _ | A_write o _ _ _ | A_zero o _ _ | A_nop o => o
  end.
(** A call changes the entry of its object. *)
Lemma run_entry a t t' : run a t = Some t' ->
  (exists op, t' = <[target a := op]> t) \/ (t' = delete (target a) t /\ a = A_remove (target a)).
Proof.
  destruct a as [o|tg src|o|o n|o k v|o k|o off bl fl|o off len|o]; cbn [run target].
  - unfold create. case_match; [|done]. intros [= <-]. eauto.
  - unfold clone. case_match; [|done]. intros [= <-]. eauto.
  - unfold remove, get_object_op_for_modify. case_match; [|done]. cbn [mbind option_bind].
    case_match; [case_match; [|done]|]; intros [= <-]; eauto.
  - unfold truncate, get_object_op_for_modify. do 2 (case_match; cbn [mbind option_bind]; [|done]). intros [= <-]. eauto.
  - unfold setattr, get_object_op_for_modify. case_match; cbn [mbind option_bind]; [|done]. intros [= <-]. eauto.
  - unfold rmattr, get_object_op_for_modify. case_match; cbn [mbind option_bind]; [|done]. intros [= <-]. eauto.
  - unfold write, get_object_op_for_modify. destruct (negb _); [|done]. cbn [mbind option_bind].
    destruct (bool_decide _); [|done]. destruct (0 <? _); [|done]. destruct (IntervalMap.insert _ _ _ _); [|done].
    cbn. intros [= <-]. eauto.
  - unfold zero, get_object_op_for_modify. destruct (negb _); [|done]. cbn [mbind option_bind].
    destruct (bool_decide _); [|done]. destruct (IntervalMap.insert _ _ _ _); [|done]. cbn. intros [= <-]. eauto.
  - unfold nop, get_object_op_for_modify. case_match; cbn [mbind option_bind]; [|done]. intros [= <-]. eauto.
Qed.

(** What a call on the head does to it. *)
Definition head_meaning (s0 : store Z) (a : @action Z) (x : option object) : option (option object) :=
  match a with
  | A_create _ => match x with Some _ => None | None => Some (Some empty_object) end
  | A_clone _ src => match x with Some _ => None | None => y ← s0 !! src; Some (Some y) end
  | A_remove _ => _ ← x; Some None
  | A_truncate _ n => y ← x; Some (Some (mk_object (ObjectData.truncate n (data y)) (attrs y)))
  | A_setattr _ k v => y ← x; Some (Some (mk_object (data y) (<[k := v]> (attrs y))))
  | A_rmattr _ k => y ← x; Some (Some (mk_object (data y) (delete k (attrs y))))
  | A_write _ off bl _ => y ← x; Some (Some (mk_object (ObjectData.write off bl (data y)) (attrs y)))
  | A_zero _ off len => y ← x; Some (Some (mk_object (ObjectData.zero off len (data y)) (attrs y)))
  | A_nop _ => _ ← x; Some x
  end.
Lemma meaning_head s0 a x x' : target a = NOSNAP -> head_meaning s0 a x = Some x' -> meaning s0 a (upd x s0) = Some (upd x' s0).
Proof.
  destruct a as [o|tg src|o|o n|o k v|o k|o off bl fl|o off len|o]; cbn [target head_meaning meaning]; intros -> Hm;
    unfold on_data, on_attrs; rewrite upd_head.
  all: destruct x as [x|]; cbn [mbind option_bind] in *; try done; simplify_eq; rewrite ?upd_insert, ?upd_delete; try done.
  destruct (s0 !! src); [|done]. cbn [mbind option_bind] in *. simplify_eq. by rewrite upd_insert.
Qed.

Lemma tx_run s0 a t x x' :
  tx s0 t x -> target a = NOSNAP -> head_meaning s0 a x = Some x' -> action_ok a ->
  (forall src, a = A_clone NOSNAP src -> src <> NOSNAP) ->
  (a = A_remove NOSNAP -> delete_first (at_ t NOSNAP) = false) ->
  exists t', run a t = Some t' /\ tx s0 t' x' /\ (a <> A_remove NOSNAP -> t' <> ∅).
Proof.
  intros [Hi Ho Hs] Ht Hm Ha Hcl Hdel. destruct (run_ok s0 a t (upd x s0) (upd x' s0)) as (t'&Hr&Hi'&_); [done|by apply meaning_head|done| |].
  { intros o Hrem. destruct a; cbn in Hrem, Ht; try set_solver. subst. destruct (s0 !! NOSNAP); [|set_solver].
    apply list_elem_of_singleton in Hrem as ->. by apply Hdel. }
  exists t'. split; [done|]. pose proof (run_entry a t t' Hr) as He. rewrite Ht in He. split; [split; [done| |]|].
  - intros o Hne. destruct He as [[op ->]|[-> _]]; [rewrite lookup_insert_ne by done|rewrite lookup_delete_ne by done]; auto.
  - intros src Hsrc. destruct (run_source a t t' _ _ Hr Hsrc) as [?|Hc]; [auto|by apply Hcl].
  - intros Hna ->. destruct He as [[op E]|[_ ->]]; [|done]. symmetry in E. by apply insert_non_empty in E.
Qed.
End HeadTx.

(** ** Clones of an object *)

Module CloneFacts.
Import ObjectData ObjectInfo PrimaryLogPG SnapSpec.

Lemma freeze_lookup l d m s : freeze l d m !! s = if bool_decide (s ∈ l) then Some d else m !! s.
Proof.
  unfold freeze. induction l as [|x l IH]; cbn [foldr]; [done|]. destruct (decide (x = s)) as [->|Hne].
  - rewrite lookup_insert_eq, bool_decide_true by set_solver. done.
  - rewrite lookup_insert_ne, IH by done. rewrite (bool_decide_ext (s ∈ x :: l) (s ∈ l)); [done|set_solver].
Qed.

Lemma ordered_app lo cl1 cl2 : ordered lo (cl1 ++ cl2) <-> ordered lo cl1 /\ ordered (default lo (last (c_id <$> cl1))) cl2.
Proof.
  revert lo. induction cl1 as [|c cl1 IH]; intros lo; [cbn; tauto|]. cbn [app ordered]. rewrite IH.
  assert (default lo (last (c_id <$> c :: cl1)) = default (c_id c) (last (c_id <$> cl1))) as ->; [|tauto].
  cbn [fmap list_fmap]. destruct (c_id <$> cl1) as [|k l]; [done|]. change (last (c_id c :: k :: l)) with (last (k :: l)).
  destruct (last (k :: l)) eqn:E; [done|by apply last_None in E].
Qed.
Lemma ordered_above lo cl : ordered lo cl -> Forall (fun c => lo < c_id c /\ Forall (fun s => lo < s <= c_id c) (c_snaps c)) cl.
Proof.
  revert lo. induction cl as [|c cl IH]; intros lo; cbn [ordered]; [done|]. intros (?&_&_&Hs&Ho). constructor; [done|].
  eapply Forall_impl; [exact (IH _ Ho)|]. intros x (?&Hx). split; [lia|]. eapply Forall_impl; [exact Hx|]. cbn. lia.
Qed.
Lemma ordered_weaken lo lo' cl : lo' <= lo -> ordered lo cl -> ordered lo' cl.
Proof.
  destruct cl as [|c cl]; [done|]. cbn [ordered]. intros ? (?&?&?&Hs&?). split_and!; try done; [lia|].
  eapply Forall_impl; [exact Hs|]. cbn. lia.
Qed.
Lemma ordered_below lo cl1 c cl2 : ordered lo (cl1 ++ c :: cl2) ->
  Forall (fun d => c_id d < c_id c /\ Forall (fun s => s < c_id c) (c_snaps d)) cl1 /\
  Forall (fun d => c_id c < c_id d /\ Forall (fun s => c_id c < s) (c_snaps d)) cl2.
Proof.
  revert lo. induction cl1 as [|d cl1 IH]; intros lo; cbn [app ordered].
  - intros (_&_&_&_&Ho). split; [done|]. eapply Forall_impl; [exact (ordered_above _ _ Ho)|]. intros x (?&Hx). split; [lia|].
    eapply Forall_impl; [exact Hx|]. cbn. lia.
  - intros (_&_&_&Hs&Ho). destruct (IH _ Ho) as [H1 H2]. split; [|done]. constructor; [|done].
    pose proof (ordered_above _ _ Ho) as Ha. rewrite Forall_app, Forall_cons in Ha. destruct Ha as (_&(?&_)&_). split; [lia|].
    eapply Forall_impl; [exact Hs|]. cbn. lia.
Qed.

(** Clones older than a snapshot, and the others. *)
Lemma split_clones s cl : exists cl1 cl2, cl = cl1 ++ cl2 /\ Forall (fun c => c_id c < s) cl1 /\
  match cl2 with [] => True | c :: _ => s <= c_id c end.
Proof.
  induction cl as [|c cl (cl1&cl2&->&H1&H2)]; [by exists [], []|]. destruct (decide (c_id c < s)).
  - exists (c :: cl1), cl2. split_and!; [done|by constructor|done].
  - exists [], (c :: cl1 ++ cl2). split_and!; [done|done|lia].
Qed.
Lemma first_clone_at s cl1 cl2 : Forall (fun c => c_id c < s) cl1 -> match cl2 with [] => True | c :: _ => s <= c_id c end ->
  first_clone (c_id <$> cl1 ++ cl2) s = match cl2 with [] => None | c :: _ => Some (c_id c) end.
Proof.
  intros H1 H2. induction H1 as [|c cl1 Hc _ IH]; cbn [app fmap list_fmap first_clone].
  - destruct cl2 as [|c cl2]; [done|]. cbn [fmap list_fmap first_clone]. by rewrite (proj2 (Z.ltb_ge (c_id c) s)) by lia.
  - by rewrite (proj2 (Z.ltb_lt (c_id c) s)) by lia.
Qed.
Lemma lower_bound_at {V} (f : clone -> V) s cl1 cl2 : Forall (fun c => c_id c < s) cl1 -> match cl2 with [] => True | c :: _ => s <= c_id c end ->
  SnapMap.lower_bound s ((fun c => (c_id c, f c)) <$> cl1 ++ cl2) = (fun c => (c_id c, f c)) <$> cl2.
Proof.
  intros H1 H2. induction H1 as [|c cl1 Hc _ IH]; cbn [app fmap list_fmap SnapMap.lower_bound].
  - destruct cl2 as [|c cl2]; [done|]. cbn [fmap list_fmap SnapMap.lower_bound]. by rewrite (proj2 (Z.ltb_ge (c_id c) s)) by lia.
  - by rewrite (proj2 (Z.ltb_lt (c_id c) s)) by lia.
Qed.
Lemma find_at {V} (f : clone -> V) cl1 c cl2 : Forall (fun d => c_id d < c_id c) cl1 ->
  SnapMap.find (c_id c) ((fun c => (c_id c, f c)) <$> cl1 ++ c :: cl2) = Some (f c).
Proof.
  intros H1. induction H1 as [|d cl1 Hd _ IH]; cbn [app fmap list_fmap SnapMap.find]; [by rewrite Z.eqb_refl|].
  by rewrite (proj2 (Z.eqb_neq (c_id d) (c_id c))) by lia.
Qed.
Lemma find_none {V} (f : clone -> V) k cl : Forall (fun d => c_id d < k) cl -> SnapMap.find k ((fun c => (c_id c, f c)) <$> cl) = None.
Proof.
  intros H1. induction H1 as [|d cl Hd _ IH]; cbn [fmap list_fmap SnapMap.find]; [done|]. by rewrite (proj2 (Z.eqb_neq (c_id d) k)) by lia.
Qed.
(** A new key at the end, a new value for a key, and a key removed. *)
Lemma set_end {V} (f : clone -> V) k v cl : Forall (fun d => c_id d < k) cl ->
  SnapMap.set k v ((fun c => (c_id c, f c)) <$> cl) = ((fun c => (c_id c, f c)) <$> cl) ++ [(k, v)].
Proof.
  intros H1. induction H1 as [|d cl Hd _ IH]; cbn [fmap list_fmap SnapMap.set app]; [done|].
  rewrite (proj2 (Z.ltb_ge k (c_id d))), (proj2 (Z.eqb_neq (c_id d) k)) by lia. by rewrite IH.
Qed.
Lemma set_at {V} (f : clone -> V) cl1 c cl2 v : Forall (fun d => c_id d < c_id c) cl1 ->
  SnapMap.set (c_id c) v ((fun c => (c_id c, f c)) <$> cl1 ++ c :: cl2) =
  ((fun c => (c_id c, f c)) <$> cl1) ++ (c_id c, v) :: ((fun c => (c_id c, f c)) <$> cl2).
Proof.
  intros H1. induction H1 as [|d cl1 Hd _ IH]; cbn [app fmap list_fmap SnapMap.set].
  - by rewrite (proj2 (Z.ltb_ge (c_id c) (c_id c))), Z.eqb_refl by lia.
  - rewrite (proj2 (Z.ltb_ge (c_id c) (c_id d))), (proj2 (Z.eqb_neq (c_id d) (c_id c))) by lia. by rewrite IH.
Qed.
Lemma snap_erase_at {V} (f : clone -> V) cl1 c cl2 : Forall (fun d => c_id d < c_id c) cl1 ->
  SnapMap.erase (c_id c) ((fun c => (c_id c, f c)) <$> cl1 ++ c :: cl2) = (fun c => (c_id c, f c)) <$> cl1 ++ cl2.
Proof.
  intros H1. induction H1 as [|d cl1 Hd _ IH]; cbn [app fmap list_fmap SnapMap.erase]; [by rewrite Z.eqb_refl|].
  rewrite (proj2 (Z.eqb_neq (c_id d) (c_id c))) by lia. by rewrite IH.
Qed.

(** What a snapshot is kept as. *)
Lemma frozen_skip m cl s : Forall (fun c => s ∉ c_snaps c) cl -> foldl (fun m c => freeze (c_snaps c) (c_data c) m) m cl !! s = m !! s.
Proof.
  intros Hs. revert m. induction Hs as [|c cl Hc _ IH]; intros m; cbn [foldl]; [done|]. rewrite IH, freeze_lookup, bool_decide_false by done. done.
Qed.
Lemma frozen_at s cl1 cl2 : ordered 0 (cl1 ++ cl2) -> Forall (fun c => c_id c < s) cl1 -> match cl2 with [] => True | c :: _ => s <= c_id c end ->
  frozen_of (cl1 ++ cl2) !! s = match cl2 with [] => None | c :: _ => if bool_decide (s ∈ c_snaps c) then Some (c_data c) else None end.
Proof.
  intros Ho H1 H2. assert (Forall (fun c => s ∉ c_snaps c) cl1) as Hs1.
  { apply ordered_app in Ho as [Ho _]. pose proof (ordered_above _ _ Ho) as Ha. rewrite Forall_forall in *. intros c Hc Hs.
    destruct (Ha c Hc) as [_ Hb]. rewrite Forall_forall in Hb. specialize (Hb s Hs). specialize (H1 c Hc). cbn in *. lia. }
  unfold frozen_of. rewrite foldl_app. destruct cl2 as [|c cl2]; cbn [foldl]; [by rewrite frozen_skip, lookup_empty by done|].
  rewrite frozen_skip, freeze_lookup.
  - case_bool_decide; [done|]. by rewrite frozen_skip, lookup_empty by done.
  - destruct (ordered_below _ _ _ _ Ho) as [_ Hb]. rewrite Forall_forall in *. intros x Hx Hs. destruct (Hb x Hx) as [_ Hb'].
    rewrite Forall_forall in Hb'. specialize (Hb' s Hs). cbn in *. lia.
Qed.
End CloneFacts.
