(* ===== verification/SnapOps.v ===== *)
(** The operations of [do_osd_ops] one by one: each does to the contents of the head
    what [SnapSpec] says, and keeps what the rest of a request relies on, in
    particular which bytes are unchanged and what the statistics count. *)
From stdpp Require Import strings.
From S2P Require Import Prelude IntervalSet CleanRegions CleanMarks PgMissing IntervalMap PgTransaction PgTransactionFacts.
From S2P Require Import ObjectInfo PrimaryLogPG SnapSpec SnapFacts.
#[local] Open Scope Z_scope.

(** ** What the operations keep *)

Module CoreFacts.
Import interval_set IntervalFacts CleanRegions CleanRegionsFacts WeakRegions TransFacts HeadTx ObjectData DataFacts ObjectInfo PrimaryLogPG SnapSpec.

Section Core.
Context (env : Env) (pg : PG) (cl : list clone) (a : astate).
Context (Henv : plain_pool env).
Context (Hrep : represents (osd_max_object_size env) pg cl a).
Abbreviation max := (osd_max_object_size env).

Definition old : bytes := default [] (cur a).
(** Outside the modified ranges the old bytes are still there. *)
Definition kept (mr : interval_set) (old new : bytes) : Prop :=
  forall x, 0 <= x < zlen old -> ~ In_set x mr -> x < zlen new /\ byte new x = byte old x.
(** The head gets a clone, or has one. *)
Definition newer : bool := match snapc_snaps (snapc env) with [] => false | s :: _ => aseq a <? s end.
Definition keeps_clones : Prop := cl <> [] \/ (cur a <> None /\ newer = true).

(** The context after some operations that leave contents [d]. *)
Record core (d : option bytes) (c : OpContext) : Prop := {
  k_obs : obs c = head_of pg;
  k_snapset : new_snapset c = snapset (ssc pg);
  k_soid : soid (oi (new_obs c)) = NOSNAP;
  k_plain : plain (oi (new_obs c));
  k_dirty : is_dirty (oi (new_obs c)) = is_dirty (oi (obs c));
  k_store : exists x, tx (disk pg) (op_t c) x /\ rep (new_obs c) x d;
  k_size : zlen (default [] d) <= max;
  k_modified : wf (modified_ranges c) /\ kept (modified_ranges c) old (default [] d);
  k_clean : weak_regions max (clean_regions c) /\ forall x, clean (clean_regions c) x -> byte (default [] d) x = byte old x;
  k_stats : forall k, tracked k -> delta_stats c k =
    if bool_decide (k = num_objects_dirty \/ k = num_objects_omap) then 0 else weight k (new_obs c) - weight k (obs c);
  k_whiteout : is_whiteout (oi (new_obs c)) = true -> keeps_clones;
  k_gone : exists_ (new_obs c) = false -> ~ keeps_clones;
  k_log : log c = [] /\ clone_obc c = None
}.
(** The rest of the working state. *)
Record meta (w : work) (c : OpContext) : Prop := {
  t_tseq : w_tseq w = truncate_seq (oi (new_obs c)) /\ 0 <= w_tseq w < two32;
  t_watched : w_watched w = negb (bool_decide (watchers (oi (new_obs c)) = []));
  t_touched : touched w = negb (PGTransaction.empty (op_t c) && negb (modify c))
}.

Lemma max_ok : 0 <= max <= 2 ^ 60.
Proof. destruct (e_max _ Henv). lia. Qed.

(** Nothing of the object but its contents changes. *)
Record same_but_data (c c' : OpContext) : Prop := {
  s_obs : obs c' = obs c;
  s_snapset : new_snapset c' = new_snapset c;
  s_soid : soid (oi (new_obs c')) = soid (oi (new_obs c));
  s_exists : exists_ (new_obs c') = exists_ (new_obs c);
  s_whiteout : is_whiteout (oi (new_obs c')) = is_whiteout (oi (new_obs c));
  s_dirty : is_dirty (oi (new_obs c')) = is_dirty (oi (new_obs c));
  s_pinned : is_cache_pinned (oi (new_obs c')) = is_cache_pinned (oi (new_obs c));
  s_manifest : has_manifest (oi (new_obs c')) = has_manifest (oi (new_obs c));
  s_log : log c' = log c /\ clone_obc c' = clone_obc c
}.
Lemma core_data d c d' c' x' :
  core (Some d) c -> same_but_data c c' ->
  tx (disk pg) (op_t c') (Some x') -> data x' = d' -> size (oi (new_obs c')) = zlen d' -> zlen d' <= max ->
  wf (modified_ranges c') -> (forall x, In_set x (modified_ranges c) -> In_set x (modified_ranges c')) ->
  (forall x, 0 <= x < zlen d -> ~ In_set x (modified_ranges c') -> x < zlen d' /\ byte d' x = byte d x) ->
  weak_regions max (clean_regions c') ->
  (forall x, clean (clean_regions c') x -> clean (clean_regions c) x /\ byte d' x = byte d x) ->
  (forall k, tracked k -> delta_stats c' k = delta_stats c k + if bool_decide (k = num_bytes) then zlen d' - zlen d else 0) ->
  core (Some d') c'.
Proof.
  intros [] [] Htx Hd' Hsz Hmax Hwf Hsub Hkeep Hwr Hcl Hst.
  destruct k_store0 as (x&_&(He&Hwh&Hs&_)). destruct k_modified0 as [_ Hk]. destruct k_clean0 as [_ Hc].
  split; try congruence.
  - destruct k_plain0. split; congruence.
  - exists (Some x'). split; [done|]. cbn. split_and!; [congruence|congruence|done|by rewrite <- Hd'].
  - done.
  - split; [done|]. intros z Hz Hn. cbn [default] in *. destruct (Hk z Hz ltac:(auto)) as [Hz1 Hz2].
    cbn in Hz1, Hz2. destruct (Hkeep z ltac:(lia) Hn). split; [done|]. cbn in *. congruence.
  - split; [done|]. intros z Hz. destruct (Hcl z Hz) as [H1 H2]. cbn. rewrite H2. by apply Hc.
  - intros k Hk'. rewrite Hst, k_stats0 by done. unfold weight. rewrite s_exists0, He, s_obs0.
    destruct k; counters; rewrite ?s_whiteout0, ?s_pinned0, ?s_manifest0, ?Hsz, ?Hs; lia.
  - destruct k_log0, s_log0. split; congruence.
Qed.

(** ** The steps *)

Lemma modified_ok off len c : wf (modified_ranges c) -> 0 <= off -> 0 < len -> off + len < two64 ->
  exists r, modified off len c = Some (set_modified_ranges r c) /\ wf r /\
    forall x, In_set x r <-> In_set x (modified_ranges c) \/ off <= x < off + len.
Proof.
  intros Hw ? ? ?. unfold modified, union_insert.
  destruct (insert_spec clear off len) as (s&->&Hs&_&Hx); [apply wf_clear|lia..|intros ? _ []|]. cbn [mbind option_bind].
  destruct (union_spec _ _ Hw Hs) as (r&->&Hr&Hu). cbn [mbind option_bind]. exists r. split_and!; [done..|].
  intros x. rewrite Hu, Hx. unfold In_set. simpl. tauto.
Qed.
Lemma mark_dirty_ctx off len c : weak_regions max (clean_regions c) -> 0 <= off -> 0 <= len -> off + len <= max ->
  exists r, mark_dirty off len c = Some (set_clean_regions r c) /\ weak_regions max r /\
    forall x, clean r x -> clean (clean_regions c) x /\ ~ off <= x < off + len.
Proof.
  intros Hr ? ? ?. pose proof max_ok. unfold mark_dirty. destruct (mark_ok max (clean_regions c) off len) as (r&->&?&?); [done|lia..|].
  cbn [mbind option_bind]. eauto.
Qed.
(** A call on the head. *)
Lemma on_head act f c x x' :
  f = run act -> tx (disk pg) (op_t c) x -> target act = NOSNAP -> head_meaning (disk pg) act x = Some x' -> action_ok act ->
  (forall src, act = A_clone NOSNAP src -> src <> NOSNAP) -> (act = A_remove NOSNAP -> PGTransaction.delete_first (PGTransaction.at_ (op_t c) NOSNAP) = false) ->
  exists t, on_op_t f c = Some (set_op_t t c) /\ tx (disk pg) t x' /\ (act <> A_remove NOSNAP -> PGTransaction.empty t = false).
Proof.
  intros -> Htx Ht Hm Ha Hcl Hdel. destruct (tx_run _ act (op_t c) x x' Htx Ht Hm Ha Hcl Hdel) as (t&Hr&Htx'&Hne).
  exists t. unfold on_op_t. rewrite Hr. split_and!; [done..|]. intros Hna. unfold PGTransaction.empty.
  apply bool_decide_eq_false. auto.
Qed.

(** What [meta] speaks about is the same, but for the transaction. *)
Definition same_meta (c c' : OpContext) : Prop :=
  truncate_seq (oi (new_obs c')) = truncate_seq (oi (new_obs c)) /\ watchers (oi (new_obs c')) = watchers (oi (new_obs c)) /\
  modify c' = modify c.

Lemma maybe_create_ok d c : core d c ->
  exists c', maybe_create_new_object false c = Some c' /\ core (Some (default [] d)) c' /\ same_meta c c' /\
    user_modify c' = user_modify c /\ (op_t c' = op_t c \/ PGTransaction.empty (op_t c') = false).
Proof.
  intros Hc. unfold maybe_create_new_object. pose proof Hc as []. destruct k_store0 as (x&Htx&Hr).
  destruct d as [d|]; cbn [default].
  - destruct Hr as (->&->&_). cbn [negb]. exists c. split_and!; auto; done.
  - destruct Hr as (Hs&Hw&Hx). destruct (exists_ (new_obs c)) eqn:He; cbn [negb].
    + rewrite Hw. eexists. split; [done|]. split; [|split_and!; auto; done].
      split; cbn; try done.
      * destruct k_plain0. split; by flags.
      * rewrite <- k_dirty0. by flags.
      * exists x. split; [done|]. split_and!; [done|by flags|done|done].
      * intros k Hk. unfold on_stats, count. cbn. rewrite k_stats0 by done. unfold weight. cbn. rewrite He.
        destruct k_plain0 as [Hp1 Hp2].
        assert (is_whiteout (clear_flag FLAG_WHITEOUT (oi (new_obs c))) = false) as Hf1 by (by flags).
        assert (is_cache_pinned (clear_flag FLAG_WHITEOUT (oi (new_obs c))) = false) as Hf2 by (by flags).
        assert (has_manifest (clear_flag FLAG_WHITEOUT (oi (new_obs c))) = false) as Hf3 by (by flags).
        destruct k; counters; rewrite ?Hf1, ?Hf2, ?Hf3, ?Hw, ?Hp1, ?Hp2, ?Hs; cbn; lia.
      * by flags.
      * by rewrite He.
    + cbn. rewrite Hw. cbn. destruct x as [x|]; [done|].
      destruct (on_head (A_create NOSNAP) (PGTransaction.create NOSNAP)
        (on_info new_object (set_exists true (on_stats (count num_objects 1) c))) None (Some empty_object)) as (t&Ho&Htx'&Hne); [done..|].
      unfold soid_of. cbn in Ho |- *. rewrite k_soid0, Ho. eexists. split; [done|]. split; [|split; [done|]; split; [done|]; right; by apply Hne].
      split; cbn; try done.
      * destruct k_plain0. split; by flags.
      * rewrite <- k_dirty0. by flags.
      * exists (Some empty_object). split; [done|]. split_and!; [done|by flags|done|done].
      * intros k Hk. unfold on_stats, count. cbn. rewrite k_stats0 by done. unfold weight. cbn. rewrite He.
        destruct k_plain0 as [Hp1 Hp2].
        destruct k; counters; rewrite ?Hs; cbn; try (by destruct Hk); try lia.
        -- assert (is_whiteout (new_object (oi (new_obs c))) = false) as -> by (by flags). cbn. lia.
        -- assert (is_cache_pinned (new_object (oi (new_obs c))) = false) as -> by (by flags). cbn. lia.
        -- assert (has_manifest (new_object (oi (new_obs c))) = false) as -> by (by flags). cbn. lia.
      * by flags.
Qed.

Definition step_ok (sp : Z * work) (o : option (Z * OpContext)) : Prop :=
  exists r w c, sp = (r, w) /\ o = Some (r, c) /\ core (w_cur w) c /\ meta w c.

(** Only what [core] does not speak about changes. *)
Lemma core_info d c f :
  core d c -> soid (f (oi (new_obs c))) = NOSNAP -> size (f (oi (new_obs c))) = size (oi (new_obs c)) ->
  is_whiteout (f (oi (new_obs c))) = is_whiteout (oi (new_obs c)) -> is_dirty (f (oi (new_obs c))) = is_dirty (oi (new_obs c)) ->
  is_cache_pinned (f (oi (new_obs c))) = is_cache_pinned (oi (new_obs c)) -> has_manifest (f (oi (new_obs c))) = has_manifest (oi (new_obs c)) ->
  core d (on_info f c).
Proof.
  intros [] Hso Hsz Hw Hd Hp Hm. split; cbn; try done; try congruence.
  - destruct k_plain0. split; congruence.
  - destruct k_store0 as (x&Htx&Hr). exists x. split; [done|]. destruct d; cbn in *; rewrite Hsz, Hw; done.
  - intros k Hk. rewrite k_stats0 by done. unfold weight. cbn. destruct (exists_ (new_obs c)); [|done].
    destruct k; counters; congruence.
  - by rewrite Hw.
Qed.
Lemma core_count d c : core d c -> core d (count_write c).
Proof. intros []. by split. Qed.
Lemma meta_count w c : meta w c -> meta w (count_write c).
Proof. intros []. by split. Qed.

Lemma zlen_default d : 0 <= zlen (default [] d).
Proof. apply zlen_nonneg. Qed.
Lemma data_head x d : data <$> x = Some d -> exists y, x = Some y /\ data y = d.
Proof. destruct x as [y|]; [|done]. intros [= <-]. eauto. Qed.

(** The contents are cut or extended to [n]: bytes from [n] on change. *)
Lemma core_truncated d c n c' at_ :
  core (Some d) c -> 0 <= n <= max -> same_but_data c c' -> tx (disk pg) (op_t c') (Some (mk_object (truncate n d) at_)) -> size (oi (new_obs c')) = n ->
  wf (modified_ranges c') -> (forall x, In_set x (modified_ranges c') <-> In_set x (modified_ranges c) \/ n <= x < zlen d) ->
  weak_regions max (clean_regions c') -> (forall x, clean (clean_regions c') x -> clean (clean_regions c) x /\ ~ n <= x < zlen d) ->
  (forall k, tracked k -> delta_stats c' k = delta_stats c k + if bool_decide (k = num_bytes) then n - zlen d else 0) ->
  core (Some (truncate n d)) c'.
Proof.
  intros Hc Hn Hsame Htx Hsz Hmw Hmx Hcw Hcx Hst. pose proof (zlen_nonneg d). destruct (e_max _ Henv) as [_ ?].
  eapply (core_data d c _ c' (mk_object (truncate n d) at_)); try done.
  - rewrite zlen_truncate by lia. done.
  - rewrite zlen_truncate by lia. lia.
  - intros z Hz. apply Hmx. auto.
  - intros z Hz Hnot. rewrite zlen_truncate, byte_truncate by lia. rewrite Hmx in Hnot. destruct (Z.ltb_spec z n); [split; [lia|done]|].
    destruct Hnot. right. lia.
  - intros z Hz. destruct (Hcx z Hz) as [G1 G2]. split; [done|]. rewrite byte_truncate by lia.
    destruct (Z.ltb_spec z n); [done|]. rewrite byte_beyond by lia. done.
  - intros k Hk. rewrite zlen_truncate by lia. by apply Hst.
Qed.

Lemma early_ok p w c : op_ok env p -> core (w_cur w) c -> meta w c -> w_tseq w < op_truncate_seq p ->
  exists c', early_truncate p c = Some c' /\ core (w_cur (early p w)) c' /\ meta (early p w) c'.
Proof.
  intros Hp Hc Ht Hlt. unfold early_truncate, early. rewrite (proj2 (Z.ltb_lt (w_tseq w) (op_truncate_seq p))) by done.
  pose proof Hc as []. destruct k_store0 as (x&Htx&Hr). pose proof (p_tsize _ _ Hp). pose proof (p_tseq _ _ Hp).
  destruct (e_max _ Henv) as [_ Hmx]. destruct (w_cur w) as [d|] eqn:Ew.
  - destruct Hr as (He&Hwh&Hs&Hx). rewrite He, Hwh. cbn [andb negb]. cbn [default fmap option_fmap option_map] in *.
    apply data_head in Hx as (y&->&Hy). pose proof (zlen_nonneg d).
    set (ts := op_truncate_size p) in *. set (tq := op_truncate_seq p) in *.
    destruct (on_head (A_truncate NOSNAP ts) (PGTransaction.truncate NOSNAP ts) c (Some y) (Some (mk_object (truncate ts d) (attrs y))))
      as (t&Ho&Htx'&Hne); [done|done|done|cbn; by rewrite Hy|cbn; lia|done|done|]. specialize (Hne ltac:(discriminate)).
    unfold soid_of. rewrite k_soid0, Ho. cbn [mbind option_bind].
    set (c1 := on_info (fun x => set_truncate_size ts (set_truncate_seq tq x)) (set_op_t t c)).
    destruct k_modified0 as [Hmw _]. destruct k_clean0 as [Hcw _].
    assert (forall c', truncate_seq (oi (new_obs c')) = tq -> watchers (oi (new_obs c')) = watchers (oi (new_obs c)) -> op_t c' = t ->
      meta (mk_w (Some (truncate ts d)) tq (w_watched w) (touched w || negb (bool_decide (Some d = None)))) c') as Hmeta.
    { intros c' G1 G2 G3. split; cbn [w_tseq w_watched touched]; [by rewrite G1|rewrite G2; by destruct Ht|].
      rewrite G3, Hne. rewrite bool_decide_false by done. by rewrite orb_true_r. }
    rewrite Hs. destruct (Z.ltb_spec ts (zlen d)) as [Hts|Hts].
    + destruct (modified_ok ts (zlen d - ts) c1) as (mr&->&Hm1&Hm2); [done|lia..|cbn in k_size0; lia|]. cbn [mbind option_bind].
      destruct (mark_dirty_ctx ts (zlen d - ts) (set_modified_ranges mr c1)) as (cr&->&Hr1&Hr2); [done|lia..|cbn in k_size0; lia|].
      cbn [mbind option_bind]. cbn in Hm2, Hr2. unfold truncate_update_size_and_usage. cbn. rewrite Hs.
      rewrite (proj2 (Z.eqb_neq ts (zlen d))) by lia. cbn. rewrite (proj2 (Z.eqb_neq (zlen d) ts)) by lia. cbn [negb].
      eexists. split; [done|]. split; [|by apply Hmeta].
      apply (core_truncated d c ts _ (attrs y)); try done.
      * split; cbn; try done; by flags.
      * cbn. intros z. rewrite Hm2. intuition lia.
      * cbn. intros z Hz. destruct (Hr2 z Hz). split; [done|lia].
      * intros k Hk. cbn. unfold count. destruct k; counters; lia.
    + cbn [mbind option_bind]. unfold c1. cbn. rewrite Hs. unfold truncate_update_size_and_usage. cbn. rewrite Hs.
      destruct (Z.eqb_spec ts (zlen d)) as [E|E]; cbn [negb].
      * eexists. split; [done|]. split; [|by apply Hmeta]. apply (core_truncated d c ts _ (attrs y)); try done.
        -- cbn. lia.
        -- cbn. intros z. intuition lia.
        -- cbn. intros z Hz. split; [done|lia].
        -- intros k Hk. cbn. destruct k; counters; lia.
      * rewrite (proj2 (Z.eqb_neq (zlen d) ts)) by lia. cbn [negb].
        eexists. split; [done|]. split; [|by apply Hmeta]. apply (core_truncated d c ts _ (attrs y)); try done.
        -- cbn. intros z. intuition lia.
        -- cbn. intros z Hz. split; [done|lia].
        -- intros k Hk. cbn. unfold count. destruct k; counters; lia.
  - destruct Hr as (Hs&Hwh&Hx).
    assert (exists_ (new_obs c) && negb (is_whiteout (oi (new_obs c))) = false) as -> by (rewrite Hwh; by destruct (exists_ (new_obs c))).
    eexists. split; [done|]. split.
    + apply core_info; try done; by flags.
    + destruct Ht. split; cbn; try done. by rewrite orb_false_r.
Qed.

(** A write of [data] at [off], which may be empty. *)
Lemma check_ok off len : 0 <= off -> 0 <= len -> off + len < two64 ->
  check_offset_and_length env off len = 0 /\ off + len <= max \/ check_offset_and_length env off len = - EFBIG.
Proof.
  intros. unfold check_offset_and_length. rewrite add64_small by lia.
  destruct (_ || _) eqn:E; [auto|left]. apply orb_false_iff in E as [[E1 E2]%orb_false_iff E3]. zbool. lia.
Qed.

Lemma check_small off len : 0 <= off -> 0 < len -> off + len <= max -> check_offset_and_length env off len = 0.
Proof.
  intros. destruct (e_max _ Henv). unfold check_offset_and_length. rewrite add64_small by lia.
  rewrite (proj2 (Z.leb_gt max off)), (proj2 (Z.ltb_ge max len)), (proj2 (Z.ltb_ge max (off + len))) by lia. done.
Qed.
Lemma zlen_overwrite off data d : 0 <= off -> zlen (overwrite off data d) = if bool_decide (data = []) then Z.max (zlen d) off else Z.max (zlen d) (off + zlen data).
Proof.
  intros. unfold overwrite. case_bool_decide as Hd.
  - destruct (Z.ltb_spec (zlen d) off); [rewrite zlen_truncate by lia; lia|lia].
  - rewrite zlen_write; [done|lia|]. destruct data; [done|]. unfold zlen. cbn [List.length]. lia.
Qed.
Lemma byte_overwrite off data d x : 0 <= off -> 0 <= x ->
  byte (overwrite off data d) x = if (off <=? x) && (x <? off + zlen data) then byte data (x - off) else byte d x.
Proof.
  intros. unfold overwrite. case_bool_decide as Hd.
  - subst. 
    assert ((off <=? x) && (x <? off + zlen []) = false) as ->.
    { destruct (Z.leb_spec off x); [|done]. apply Z.ltb_ge. unfold zlen. cbn [List.length]. lia. }
    destruct (Z.ltb_spec (zlen d) off); [|done]. rewrite byte_truncate by lia. destruct (Z.ltb_spec x off); [done|].
    by rewrite byte_beyond by lia.
  - apply byte_write. lia.
Qed.
Lemma zlen_pos (data : bytes) : data <> [] -> 0 < zlen data.
Proof. destruct data; [done|]. unfold zlen. cbn [List.length]. lia. Qed.
Lemma zlen_nil (data : bytes) : (zlen data =? 0) = bool_decide (data = []).
Proof. case_bool_decide as E; [by subst|]. pose proof (zlen_pos _ E). lia. Qed.

(** The contents are overwritten at [off]. *)
Lemma core_overwritten off data d c c' x' :
  core (Some d) c -> 0 <= off -> off + zlen data <= max -> same_but_data c c' -> tx (disk pg) (op_t c') (Some x') ->
  ObjectData.data x' = overwrite off data d -> size (oi (new_obs c')) = zlen (overwrite off data d) ->
  wf (modified_ranges c') -> (forall x, In_set x (modified_ranges c') <-> In_set x (modified_ranges c) \/ off <= x < off + zlen data) ->
  weak_regions max (clean_regions c') -> (forall x, clean (clean_regions c') x -> clean (clean_regions c) x /\ ~ off <= x < off + zlen data) ->
  (forall k, tracked k -> delta_stats c' k = delta_stats c k + if bool_decide (k = num_bytes) then zlen (overwrite off data d) - zlen d else 0) ->
  core (Some (overwrite off data d)) c'.
Proof.
  intros Hc Ho Hl Hs1 Htx Hx Hsz1 Hmw1 Hmx1 Hcw1 Hcx1 Hst1. pose proof (zlen_overwrite off data d Ho) as Hzo. pose proof (k_size _ _ Hc) as Hk. cbn in Hk.
  pose proof (zlen_nonneg data). eapply (core_data d c _ c' x'); try done.
  - rewrite Hzo. case_bool_decide as E; [subst; change (zlen []) with 0 in *; lia|lia].
  - intros z Hz. apply Hmx1. auto.
  - intros z Hz Hn. rewrite byte_overwrite by lia. rewrite Hmx1 in Hn. split; [rewrite Hzo; case_bool_decide; lia|].
    destruct (_ && _) eqn:E; [zbool; destruct Hn; right; lia|done].
  - intros z Hz. destruct (Hcx1 z Hz) as [G1 G2]. split; [done|].
    destruct (Z.ltb_spec z 0); [by rewrite !byte_neg by lia|]. rewrite byte_overwrite by lia. destruct (_ && _) eqn:E; [zbool; lia|done].
Qed.
(** The end of a write: sizes, statistics, ranges. *)
Lemma write_finish off data d c c1 x' g :
  core (Some d) c -> same_but_data c c1 -> tx (disk pg) (op_t c1) (Some x') -> ObjectData.data x' = overwrite off data d ->
  0 <= off -> off + zlen data <= max ->
  modified_ranges c1 = modified_ranges c -> clean_regions c1 = clean_regions c ->
  size (oi (new_obs c1)) = (if bool_decide (data = []) then Z.max (zlen d) off else zlen d) ->
  (forall k, tracked k -> delta_stats c1 k = delta_stats c k + if bool_decide (k = num_bytes) then size (oi (new_obs c1)) - zlen d else 0) ->
  (forall x, soid (g x) = soid x /\ size (g x) = size x /\ truncate_seq (g x) = truncate_seq x /\ watchers (g x) = watchers x /\
     is_whiteout (g x) = is_whiteout x /\ is_dirty (g x) = is_dirty x /\ is_cache_pinned (g x) = is_cache_pinned x /\ has_manifest (g x) = has_manifest x) ->
  exists c', (c2 ← write_update_size_and_usage off (zlen data) false (on_info g c1); mark_dirty off (zlen data) c2) = Some c' /\
    core (Some (overwrite off data d)) c' /\ same_meta c1 c' /\ op_t c' = op_t c1.
Proof.
  intros Hc Hsame Htx Hx Ho Hl Hm Hr Hs Hst Hg. destruct (e_max _ Henv) as [_ Hmx]. pose proof (zlen_nonneg data) as Hdn.
  pose proof (zlen_nonneg d). pose proof Hc as []. destruct k_store0 as (x&_&(He&Hwh&Hsz&_)). destruct k_modified0 as [Hmw _]. destruct k_clean0 as [Hcw _].
  cbn in k_size0. destruct (Hg (oi (new_obs c1))) as (Hg1&Hg2&Hg3&Hg4&Hg5&Hg6&Hg7&Hg8).
  unfold write_update_size_and_usage. cbn [oi new_obs on_info set_new_obs]. rewrite Hg2.
  assert (has_manifest (g (oi (new_obs c1))) = false) as Hman.
  { rewrite Hg8, (s_manifest _ _ Hsame). apply k_plain0. }
  set (c2 := on_info g c1). rewrite !add64_small by lia. rewrite zlen_nil. pose proof (zlen_overwrite off data d Ho) as Hzo.
  assert (forall c', same_but_data c c' -> op_t c' = op_t c1 -> size (oi (new_obs c')) = zlen (overwrite off data d) ->
    wf (modified_ranges c') -> (forall x, In_set x (modified_ranges c') <-> In_set x (modified_ranges c) \/ off <= x < off + zlen data) ->
    weak_regions max (clean_regions c') -> (forall x, clean (clean_regions c') x -> clean (clean_regions c) x /\ ~ off <= x < off + zlen data) ->
    (forall k, tracked k -> delta_stats c' k = delta_stats c k + if bool_decide (k = num_bytes) then zlen (overwrite off data d) - zlen d else 0) ->
    core (Some (overwrite off data d)) c') as Hgo by (intros c' ? Hot; intros; eapply (core_overwritten off data d c c' x'); try done; by rewrite Hot).
  set (d' := overwrite off data d) in *. clearbody d'. destruct Hsame as [].
  assert (is_whiteout (g (oi (new_obs c1))) = is_whiteout (oi (new_obs c))) as Hq1 by congruence.
  assert (is_dirty (g (oi (new_obs c1))) = is_dirty (oi (new_obs c))) as Hq2 by congruence.
  assert (is_cache_pinned (g (oi (new_obs c1))) = is_cache_pinned (oi (new_obs c))) as Hq3 by congruence.
  assert (has_manifest (g (oi (new_obs c1))) = has_manifest (oi (new_obs c))) as Hq4 by congruence.
  case_bool_decide as E.
  - subst data. change (zlen []) with 0 in *. cbn [negb]. rewrite andb_false_r. cbn [orb mbind option_bind]. unfold c2 at 1 2. cbn [oi new_obs on_info set_new_obs].
    rewrite Hman. cbn [andb mbind option_bind].
    match goal with |- context [mark_dirty off 0 ?c3] => destruct (mark_dirty_ctx off 0 c3) as (cr&->&Hr1&Hr2); [by cbn; rewrite Hr|lia..|] end.
    cbn in Hr2. eexists. split; [done|]. split; [|done]. apply Hgo; try done.
    + split; cbn; congruence.
    + cbn. rewrite Hzo. lia.
    + cbn. by rewrite Hm.
    + cbn. intros z. rewrite Hm. intuition lia.
    + cbn. intros z Hz. destruct (Hr2 z Hz). rewrite <- Hr. split; [done|lia].
    + intros k Hk. cbn. unfold count. rewrite Hzo. destruct Hk as [Hk1 Hk2]. specialize (Hst k (conj Hk1 Hk2)).
      rewrite !(bool_decide_false (k = _)) by done. rewrite Hst. by rewrite Hs.
  - pose proof (zlen_pos data E). cbn [negb]. rewrite andb_true_r. cbn [orb].
    destruct (modified_ok off (zlen data) c2) as (mr&->&Hm1&Hm2); [cbn; by rewrite Hm|lia..|]. cbn [mbind option_bind]. rewrite Hs in Hst |- *.
    assert (has_manifest (set_size (off + zlen data) (g (oi (new_obs c1)))) = false) as Hman2 by exact Hman.
    destruct (Z.ltb_spec (zlen d) (off + zlen data)); cbn; rewrite ?Hman2, ?Hman; cbn [andb];
      (match goal with |- context [mark_dirty off _ ?c3] => destruct (mark_dirty_ctx off (zlen data) c3) as (cr&->&Hr1&Hr2); [by cbn; rewrite Hr|lia..|] end);
      cbn in Hr2, Hm2; (eexists; split; [done|]; split; [|done]; apply Hgo; try done;
      [split; cbn; assumption || congruence|cbn; rewrite Hzo; lia|cbn; intros z; rewrite Hm2, Hm; done|cbn; intros z Hz; destruct (Hr2 z Hz); by rewrite <- Hr|];
       intros k [Hk1 Hk2]; cbn; unfold count; rewrite Hzo; specialize (Hst k (conj Hk1 Hk2));
       rewrite !(bool_decide_false (k = num_wr)), !(bool_decide_false (k = num_wr_kb)) by done; rewrite Hst; case_bool_decide; [lia|done]).
Qed.

Lemma same_refl c : same_but_data c c.
Proof. by split. Qed.
Lemma step_error r w c : core (w_cur w) c -> meta w c -> step_ok (r, w) (Some (r, c)).
Proof. intros. exists r, w, c. auto. Qed.

Lemma meta_put d w c c1 c' : meta w c -> same_meta c c1 -> same_meta c1 c' -> PGTransaction.empty (op_t c') = false -> meta (put d w) c'.
Proof.
  intros [] (E1&E2&E3) (F1&F2&F3) He. split; cbn [put w_tseq w_watched touched]; [by rewrite F1, E1|by rewrite F2, E2|by rewrite He].
Qed.

(** The transaction of a write, with the size of an extension by nothing. *)
Lemma write_tx off data flags d c : core (Some d) c -> 0 <= off -> off + zlen data <= max ->
  exists c1 x', (if zlen data =? 0 then
       if size (oi (new_obs c)) <? off then
         c ← on_op_t (PGTransaction.truncate NOSNAP off) c; Some (truncate_update_size_and_usage off c)
       else on_op_t (PGTransaction.nop NOSNAP) c
     else on_op_t (PGTransaction.write NOSNAP off data flags) c) = Some c1 /\
    same_but_data c c1 /\ tx (disk pg) (op_t c1) (Some x') /\ ObjectData.data x' = overwrite off data d /\
    modified_ranges c1 = modified_ranges c /\ clean_regions c1 = clean_regions c /\
    size (oi (new_obs c1)) = (if bool_decide (data = []) then Z.max (zlen d) off else zlen d) /\
    (forall k, tracked k -> delta_stats c1 k = delta_stats c k + if bool_decide (k = num_bytes) then size (oi (new_obs c1)) - zlen d else 0) /\
    same_meta c c1 /\ PGTransaction.empty (op_t c1) = false.
Proof.
  intros Hc Ho Hl. destruct (e_max _ Henv) as [_ Hmx]. pose proof (zlen_nonneg data). pose proof (zlen_nonneg d).
  destruct Hc as []. destruct k_store0 as (x&Htx&(He&Hwh&Hs&Hx)). apply data_head in Hx as (y&->&Hy). rewrite zlen_nil, Hs.
  unfold overwrite. case_bool_decide as E.
  - subst data. change (zlen []) with 0 in *. destruct (Z.ltb_spec (zlen d) off).
    + destruct (on_head (A_truncate NOSNAP off) (PGTransaction.truncate NOSNAP off) c (Some y) (Some (mk_object (truncate off d) (attrs y))))
        as (t&->&Htx'&Hne); [done|done|done|cbn; by rewrite Hy|cbn; lia|done|done|]. cbn [mbind option_bind].
      unfold truncate_update_size_and_usage. cbn. rewrite Hs, (proj2 (Z.eqb_neq (zlen d) off)) by lia. cbn [negb].
      eexists _, _. split; [done|]. cbn. split; [by split|]. split; [done|]. split; [done|]. split; [done|]. split; [done|]. split; [lia|].
      split; [|split; [done|by apply Hne]]. intros k Hk. unfold count. case_bool_decide; lia.
    + destruct (on_head (A_nop NOSNAP) (PGTransaction.nop NOSNAP) c (Some y) (Some y)) as (t&->&Htx'&Hne); [done..|].
      eexists _, _. split; [done|]. cbn. split; [by split|]. split; [done|]. split; [done|]. split; [done|]. split; [done|]. split; [lia|].
      split; [|split; [done|by apply Hne]]. intros k Hk. case_bool_decide; lia.
  - pose proof (zlen_pos data E).
    destruct (on_head (A_write NOSNAP off data flags) (PGTransaction.write NOSNAP off data flags) c (Some y) (Some (mk_object (write off data d) (attrs y))))
      as (t&->&Htx'&Hne); [done|done|done|cbn; by rewrite Hy|cbn; lia|done|done|].
    eexists _, _. split; [done|]. cbn. split; [by split|]. split; [done|]. split; [done|]. split; [done|]. split; [done|]. split; [lia|].
    split; [|split; [done|by apply Hne]]. intros k Hk. case_bool_decide; lia.
Qed.

Lemma zlen_take n (b : bytes) : zlen (take (Z.to_nat n) b) = Z.max 0 (Z.min n (zlen b)).
Proof. unfold zlen. rewrite length_take. lia. Qed.
Lemma do_write_ok p w c : op_ok env p -> core (w_cur w) c -> meta w c -> step_ok (spec_write env p w) (do_write env p c).
Proof.
  intros Hp Hc Ht. unfold do_write, spec_write. apply core_count in Hc. apply meta_count in Ht.
  set (c0 := count_write c) in *. clearbody c0. clear c.
  destruct (length p =? zlen (indata p)) eqn:El; cbn [negb]; [|by apply step_error]. apply Z.eqb_eq in El.
  assert (requires_aligned_append env = false) as Hal by (unfold requires_aligned_append; by rewrite (e_erasure _ Henv)).
  rewrite Hal. cbn [andb]. destruct (t_tseq _ _ Ht) as [Hts Htr]. rewrite <- Hts. rewrite (Z.mod_small (w_tseq w)) by lia.
  assert (size (oi (new_obs c0)) = zlen (contents w)) as Hsz.
  { destruct Hc as []. destruct k_store0 as (x&_&Hr). unfold contents. destruct (w_cur w); [by destruct Hr as (_&_&->&_)|by destruct Hr as (->&_)]. }
  pose proof (p_wrap _ _ Hp). pose proof (p_offset _ _ Hp). pose proof (p_length _ _ Hp).
  rewrite Hsz, add64_small by lia.
  match goal with |- context [if ?b then take (Z.to_nat ?l) _ else _] =>
    assert ((if b then take (Z.to_nat l) (indata p) else indata p) = clipped p w) as -> by (unfold clipped; by destruct b) end.
  match goal with |- context [if ?b then ?e else length p] => assert ((if b then e else length p) = zlen (clipped p w)) as Hlen end.
  { unfold clipped. pose proof (zlen_nonneg (contents w)). destruct (_ && (zlen (contents w) <? _)) eqn:E; [|done]. zbool.
    rewrite zlen_take. destruct (Z.ltb_spec (zlen (contents w)) (offset p)); lia. }
  rewrite Hlen. clear Hlen.
  assert (exists c1, (if w_tseq w <? op_truncate_seq p then early_truncate p c0 else Some c0) = Some c1 /\
    core (w_cur (early p w)) c1 /\ meta (early p w) c1) as (c1&->&Hc1&Ht1).
  { destruct (w_tseq w <? op_truncate_seq p) eqn:E; zbool; [by apply early_ok|]. exists c0. unfold early.
    by rewrite (proj2 (Z.ltb_ge (w_tseq w) (op_truncate_seq p))) by lia. }
  cbn [mbind option_bind].
  assert (zlen (clipped p w) <= length p) as Hcl.
  { rewrite El. unfold clipped. destruct (_ && _); [|lia]. unfold zlen. rewrite length_take. lia. }
  set (data := clipped p w) in *. clearbody data. set (w1 := early p w) in *. clearbody w1. pose proof (zlen_nonneg data).
  destruct (check_ok (offset p) (zlen data)) as [[-> Hmx]| ->]; [lia..| |by apply step_error]. cbn [Z.ltb Z.compare].
  destruct (maybe_create_ok _ c1 Hc1) as (c2&->&Hc2&Hm2&_&_). cbn [mbind option_bind].
  unfold soid_of. assert (soid (oi (new_obs c0)) = NOSNAP) as -> by apply Hc.
  destruct (write_tx (offset p) data (write_flags env p) _ c2 Hc2) as (c3&x'&->&Hs&Htx&Hd&Hmr&Hcr&Hsz3&Hst&Hm3&Hne); [lia..|].
  cbn [mbind option_bind].
  match goal with |- context [on_info ?g c3] => destruct (write_finish (offset p) data _ c2 c3 x' g Hc2 Hs Htx Hd) as (c4&E4&Hc4&Hm4&Ho4) end; try done.
  { intros x. repeat case_match; split_and!; try done; by flags. }
  destruct (write_update_size_and_usage _ _ _ _) as [c5|]; [|done]. cbn [mbind option_bind] in *. rewrite E4. cbn [mbind option_bind].
  eexists _, _, _. split; [done|]. split; [done|]. split; [exact Hc4|].
  eapply meta_put; [exact Ht1|exact Hm2| |by rewrite Ho4].
  destruct Hm3 as (?&?&?), Hm4 as (?&?&?). split_and!; congruence.
Qed.

Lemma size_contents w c : core (w_cur w) c -> size (oi (new_obs c)) = zlen (contents w).
Proof.
  intros []. destruct k_store0 as (x&_&Hr). unfold contents. destruct (w_cur w); [by destruct Hr as (_&_&->&_)|by destruct Hr as (->&_)].
Qed.
Lemma write_all (bl c : bytes) : 0 < zlen bl -> zlen c <= zlen bl -> write 0 bl c = bl.
Proof.
  intros Hb Hc. apply bytes_ext; [rewrite zlen_write by lia; lia|]. intros x Hx. rewrite zlen_write in Hx by lia.
  rewrite byte_write by lia. rewrite (proj2 (Z.leb_le 0 x)) by lia. rewrite (proj2 (Z.ltb_lt x (0 + zlen bl))) by lia.
  cbn [andb]. f_equal. lia.
Qed.
Lemma truncate_zero (c : bytes) : truncate 0 c = [].
Proof. unfold truncate, zeros. pose proof (zlen_nonneg c). replace (Z.to_nat (0 - zlen c)) with 0%nat by lia. done. Qed.

(** The transaction of [WRITEFULL]. *)
Lemma writefull_tx (data : bytes) flags d c : core (Some d) c -> zlen data <= max ->
  exists t x', (c ← (if is_erasure env then on_op_t (PGTransaction.truncate NOSNAP 0) c
       else if exists_ (new_obs c) && (zlen data <? size (oi (new_obs c))) then on_op_t (PGTransaction.truncate NOSNAP (zlen data)) c
       else Some c);
     (if negb (zlen data =? 0) then on_op_t (PGTransaction.write NOSNAP 0 data flags) c else Some c)) = Some (set_op_t t c) /\
    tx (disk pg) t (Some x') /\ ObjectData.data x' = data /\ (PGTransaction.empty t = false \/ (t = op_t c /\ d = [] /\ data = [])).
Proof.
  intros Hc Hl. destruct (e_max _ Henv) as [_ Hmx]. pose proof (zlen_nonneg data). pose proof (zlen_nonneg d).
  destruct Hc as []. destruct k_store0 as (x&Htx&(He&Hwh&Hs&Hx)). apply data_head in Hx as (y&->&Hy).
  rewrite (e_erasure _ Henv), He, Hs. cbn [andb].
  assert (exists t y', (if zlen data <? zlen d then on_op_t (PGTransaction.truncate NOSNAP (zlen data)) c else Some c) = Some (set_op_t t c) /\
    tx (disk pg) t (Some y') /\ ObjectData.data y' = (if zlen data <? zlen d then truncate (zlen data) d else d) /\
    (PGTransaction.empty t = false \/ (t = op_t c /\ zlen d <= zlen data))) as (t&y'&->&Htx1&Hy'&Ht).
  { destruct (Z.ltb_spec (zlen data) (zlen d)).
    - destruct (on_head (A_truncate NOSNAP (zlen data)) (PGTransaction.truncate NOSNAP (zlen data)) c (Some y)
        (Some (mk_object (truncate (zlen data) d) (attrs y)))) as (t&->&Htx'&Hne); [done|done|done|cbn; by rewrite Hy|cbn; lia|done|done|].
      eexists _, _. split; [done|]. split; [done|]. split; [done|]. left. by apply Hne.
    - exists (op_t c), y. split; [by destruct c|]. split; [done|]. split; [done|]. right. split; [done|lia]. }
  cbn [mbind option_bind]. rewrite zlen_nil. case_bool_decide as E; cbn [negb].
  - subst data. change (zlen []) with 0 in *. exists t, y'. split; [done|]. split; [done|]. destruct (Z.ltb_spec 0 (zlen d)).
    + rewrite Hy', truncate_zero. split; [done|]. destruct Ht as [?|[_ ?]]; [auto|lia].
    + assert (d = []) as -> by (destruct d; [done|]; unfold zlen in *; cbn [List.length] in *; lia). rewrite Hy'. split; [done|].
      destruct Ht as [?|[-> _]]; auto.
  - pose proof (zlen_pos data E).
    destruct (on_head (A_write NOSNAP 0 data flags) (PGTransaction.write NOSNAP 0 data flags) (set_op_t t c) (Some y')
      (Some (mk_object (write 0 data (ObjectData.data y')) (attrs y')))) as (t2&->&Htx'&Hne); [done|done|done|done|cbn; lia|done|done|].
    eexists _, _. split; [done|]. split; [done|]. split; [|left; by apply Hne]. cbn. apply write_all; [lia|]. rewrite Hy'.
    destruct (Z.ltb_spec (zlen data) (zlen d)); [rewrite zlen_truncate by lia; lia|lia].
Qed.

Lemma do_writefull_ok p w c : op_ok env p -> 0 < length p -> core (w_cur w) c -> meta w c -> step_ok (spec_writefull env p w) (do_writefull env p c).
Proof.
  intros Hp Hpos Hc Ht. unfold do_writefull, spec_writefull. apply core_count in Hc. apply meta_count in Ht.
  set (c0 := count_write c) in *. clearbody c0. clear c.
  destruct (length p =? zlen (indata p)) eqn:El; cbn [negb]; [|by apply step_error]. apply Z.eqb_eq in El. rewrite El.
  pose proof (p_wrap _ _ Hp). pose proof (p_offset _ _ Hp). pose proof (zlen_nonneg (indata p)). destruct (e_max _ Henv) as [_ Hmx0].
  destruct (check_ok 0 (zlen (indata p))) as [[-> Hmx]| ->]; [lia..| |by apply step_error]. cbn [Z.ltb Z.compare].
  destruct (maybe_create_ok _ c0 Hc) as (c2&->&Hc2&Hm2&_&Ho2). cbn [mbind option_bind].
  unfold soid_of. assert (soid (oi (new_obs c0)) = NOSNAP) as -> by apply Hc.
  set (d := default [] (w_cur w)) in *. clearbody d. set (data := indata p) in *. clearbody data.
  destruct (writefull_tx data (write_flags env p) d c2 Hc2) as (t&x'&Ew&Htx&Hd&Hne); [lia|].
  assert (PGTransaction.empty t = false) as Hne'.
  { destruct Hne as [?|(_&_&Hnil)]; [done|]. rewrite El, Hnil in Hpos. done. }
  match type of Ew with (?m ≫= ?k) = _ => destruct m as [c3|]; [|done] end. cbn [mbind option_bind] in *. rewrite Ew.
  cbn [mbind option_bind]. clear Ew c3. pose proof Hc2 as []. destruct k_store0 as (x&_&(He&Hwh&Hs&_)).
  destruct k_modified0 as [Hmw _]. destruct k_clean0 as [Hcw _]. cbn in k_size0. pose proof (zlen_nonneg d).
  match goal with |- context [on_info ?f (set_op_t t c2)] => set (g := f); set (c3 := on_info g (set_op_t t c2)) end.
  assert (size (oi (new_obs c3)) = zlen d) as Hs3 by (unfold c3, g; cbn; by destruct (skip_data_digest env)).
  assert (same_but_data c2 c3) as Hsame.
  { unfold c3, g. split; cbn; try done; destruct (skip_data_digest env); cbn; try done; by flags. }
  assert (same_meta c2 c3 /\ op_t c3 = t /\ modified_ranges c3 = modified_ranges c2 /\ clean_regions c3 = clean_regions c2 /\
    delta_stats c3 = delta_stats c2) as (Hm3&Ho3&Hmr3&Hcr3&Hst3).
  { unfold c3, g, same_meta. cbn. by destruct (skip_data_digest env). }
  clearbody c3. clear g. rewrite Hs3.
  destruct (mark_dirty_ctx 0 (Z.max (zlen data) (zlen d)) c3) as (cr&->&Hr1&Hr2); [by rewrite Hcr3|lia..|]. cbn [mbind option_bind].
  unfold write_update_size_and_usage. cbn [oi new_obs set_clean_regions]. rewrite Hs3.
  assert (has_manifest (set_size (zlen data) (oi (new_obs c3))) = false) as Hman.
  { transitivity (has_manifest (oi (new_obs c3))); [done|]. rewrite (s_manifest _ _ Hsame). apply k_plain0. }
  rewrite !add64_small by lia. rewrite Z.add_0_l. cbn [orb].
  assert (exists mr, (if negb (zlen d =? 0) then modified 0 (zlen d) (set_clean_regions cr c3) else Some (set_clean_regions cr c3)) =
     Some (set_modified_ranges mr (set_clean_regions cr c3)) /\ wf mr /\ forall z, In_set z mr <-> In_set z (modified_ranges c2) \/ 0 <= z < zlen d)
    as (mr&->&Hmr1&Hmr2).
  { destruct (Z.eqb_spec (zlen d) 0); cbn [negb].
    - exists (modified_ranges c3). split; [by destruct c3|]. rewrite Hmr3. split; [done|]. intros z. intuition lia.
    - destruct (modified_ok 0 (zlen d) (set_clean_regions cr c3)) as (mr&->&?&Hx); [cbn; by rewrite Hmr3|lia..|]. exists mr.
      split_and!; [done..|]. intros z. rewrite Hx. cbn. by rewrite Hmr3. }
  cbn [mbind option_bind]. cbn. rewrite Hman. cbn [andb].
  eexists _, _, _. split; [done|]. split; [done|]. split.
  - cbn [put w_cur]. eapply (core_data d c2 _ _ x'); cbn; try done.
    + destruct Hsame. split; cbn; assumption || congruence.
    + by rewrite Ho3.
    + intros z Hz. apply Hmr2. auto.
    + intros z Hz Hn. destruct Hn. apply Hmr2. auto.
    + intros z Hz. destruct (Hr2 z Hz) as [G1 G2]. rewrite <- Hcr3. split; [done|].
      destruct (Z.ltb_spec z 0); [by rewrite !byte_neg by lia|]. by rewrite !byte_beyond by lia.
    + intros k Hk. rewrite Hst3. unfold count. destruct Hk as [Hk1 Hk2].
      rewrite !(bool_decide_false (k = num_wr)), !(bool_decide_false (k = num_wr_kb)) by done. case_bool_decide; lia.
  - split; cbn [put w_tseq w_watched touched]; cbn.
    + destruct Hm2 as (E1&E2&E3), Hm3 as (F1&F2&F3). rewrite F1, E1. by destruct Ht.
    + destruct Hm2 as (E1&E2&E3), Hm3 as (F1&F2&F3). rewrite F2, E2. by destruct Ht.
    + by rewrite Ho3, Hne'.
Qed.

Lemma is_there w c : core (w_cur w) c -> exists_ (new_obs c) && negb (is_whiteout (oi (new_obs c))) = negb (bool_decide (w_cur w = None)).
Proof.
  intros []. destruct k_store0 as (x&_&Hr). destruct (w_cur w); cbn in Hr.
  - by destruct Hr as (->&->&_).
  - destruct Hr as (_&->&_). by destruct (exists_ (new_obs c)).
Qed.

Lemma do_create_ok p w c : core (w_cur w) c -> meta w c -> step_ok (spec_create p w) (do_create p c).
Proof.
  intros Hc Ht. unfold do_create, spec_create. apply core_count in Hc. apply meta_count in Ht.
  set (c0 := count_write c) in *. clearbody c0. clear c. rewrite (is_there _ _ Hc).
  destruct (_ && has FLAG_EXCL p); [by apply step_error|].
  destruct (_ && negb (decodes_string _)); [by apply step_error|].
  destruct (maybe_create_ok _ c0 Hc) as (c2&->&Hc2&Hm2&_&_). cbn [mbind option_bind].
  pose proof Hc2 as []. destruct k_store0 as (x&Htx&Hr). pose proof Hr as (_&_&_&Hx). apply data_head in Hx as (y&->&Hy).
  unfold soid_of. rewrite k_soid0.
  destruct (on_head (A_nop NOSNAP) (PGTransaction.nop NOSNAP) c2 (Some y) (Some y)) as (t&->&Htx'&Hne); [done..|]. cbn [mbind option_bind].
  eexists _, _, _. split; [done|]. split; [done|]. split.
  - cbn [put w_cur]. split; cbn; try done. eauto.
  - eapply meta_put; [exact Ht|exact Hm2|done|by apply Hne].
Qed.

(** What a truncation to [off] marks. *)
Lemma cut_ranges off d c : wf (modified_ranges c) -> weak_regions max (clean_regions c) -> 0 <= off <= max -> zlen d <= max ->
  exists mr cr, (if off <? zlen d then c ← modified off (zlen d - off) c; mark_dirty off (zlen d - off) c
      else if zlen d <? off then mark_dirty (zlen d) (off - zlen d) c else Some c) = Some (set_clean_regions cr (set_modified_ranges mr c)) /\
    wf mr /\ (forall z, In_set z mr <-> In_set z (modified_ranges c) \/ off <= z < zlen d) /\ weak_regions max cr /\
    (forall z, clean cr z -> clean (clean_regions c) z /\ ~ off <= z < zlen d).
Proof.
  intros Hmw Hcw Hoff Hd. destruct (e_max _ Henv) as [_ ?]. pose proof (zlen_nonneg d). destruct (Z.ltb_spec off (zlen d)); [|destruct (Z.ltb_spec (zlen d) off)].
  - destruct (modified_ok off (zlen d - off) c) as (mr&->&Hm1&Hm2); [done|lia..|]. cbn [mbind option_bind].
    destruct (mark_dirty_ctx off (zlen d - off) (set_modified_ranges mr c)) as (cr&->&Hr1&Hr2); [done|lia..|].
    exists mr, cr. split_and!; [done|done|intros z; rewrite Hm2; intuition lia|done|]. intros z Hz. destruct (Hr2 z Hz). split; [done|lia].
  - destruct (mark_dirty_ctx (zlen d) (off - zlen d) c) as (cr&->&Hr1&Hr2); [done|lia..|].
    exists (modified_ranges c), cr. split_and!; [by destruct c|done|intros z; intuition lia|done|]. intros z Hz. destruct (Hr2 z Hz). split; [done|lia].
  - exists (modified_ranges c), (clean_regions c). split_and!; [by destruct c|done|intros z; intuition lia|done|]. intros z Hz. split; [done|lia].
Qed.
Ltac resized off d := destruct (Z.eqb_spec off (zlen d)) as [->|]; cbn [negb]; rewrite ?(proj2 (Z.eqb_neq (zlen d) off)) by lia.
Lemma do_truncate_ok p w c : op_ok env p -> op_truncate_seq p = 0 \/ offset p = op_truncate_size p ->
  core (w_cur w) c -> meta w c -> step_ok (spec_truncate env p w) (do_truncate env p c).
Proof.
  intros Hp Hq Hc Ht. unfold do_truncate, spec_truncate.
  assert (requires_aligned_append env = false) as -> by (unfold requires_aligned_append; by rewrite (e_erasure _ Henv)).
  apply core_count in Hc. apply meta_count in Ht. set (c0 := count_write c) in *. clearbody c0. clear c.
  pose proof (is_there _ _ Hc) as Hth. destruct (w_cur w) as [d|] eqn:Ew.
  2:{ rewrite bool_decide_true in Hth by done. cbn [negb] in Hth. apply andb_false_iff in Hth as [->|Hw]; [|apply negb_false_iff in Hw as ->];
        rewrite ?orb_true_r; (apply step_error; [by rewrite Ew|done]). }
  rewrite bool_decide_false in Hth by done. apply andb_true_iff in Hth as [He Hw%negb_true_iff]. rewrite He, Hw. cbn [negb orb].
  pose proof (p_wrap _ _ Hp). pose proof (p_offset _ _ Hp). pose proof (p_length _ _ Hp). destruct (e_max _ Henv) as [_ Hmx0].
  pose proof (p_tseq _ _ Hp) as Htq. destruct (t_tseq _ _ Ht) as [Hts Htr].
  destruct (check_ok (offset p) (length p)) as [[-> Hmx]| ->]; [lia..| |apply step_error; [by rewrite Ew|done]]. cbn [Z.ltb Z.compare].
  assert ((op_truncate_seq p =? 0) || (offset p =? op_truncate_size p) = true) as -> by (apply orb_true_iff; rewrite !Z.eqb_eq; tauto).
  rewrite <- Hts. destruct (negb (op_truncate_seq p =? 0) && (op_truncate_seq p <=? w_tseq w)); [apply step_error; [by rewrite Ew|done]|].
  set (off := offset p) in *. clearbody off. set (tq := op_truncate_seq p) in *. set (ts := op_truncate_size p) in *.
  match goal with |- context [maybe_create_new_object false ?e] => set (c1 := e) end.
  assert (core (Some d) c1) as Hc1 by (unfold c1; destruct (negb _); [apply core_info; [done|apply Hc|by flags..]|done]).
  assert (truncate_seq (oi (new_obs c1)) = (if tq =? 0 then w_tseq w else tq) /\ watchers (oi (new_obs c1)) = watchers (oi (new_obs c0)) /\
    exists_ (new_obs c1) = true /\ is_whiteout (oi (new_obs c1)) = false /\ op_t c1 = op_t c0) as (Hq1&Hq2&Hq3&Hq4&Hq5).
  { unfold c1. destruct (tq =? 0); cbn; split_and!; try done. }
  clearbody c1. unfold maybe_create_new_object. rewrite Hq3, Hq4. cbn [negb mbind option_bind].
  pose proof Hc1 as []. destruct k_store0 as (x&Htx&(_&_&Hs&Hx)). apply data_head in Hx as (y&->&Hy). cbn in k_size0. pose proof (zlen_nonneg d).
  destruct k_modified0 as [Hmw _]. destruct k_clean0 as [Hcw _]. unfold soid_of. rewrite k_soid0.
  destruct (on_head (A_truncate NOSNAP off) (PGTransaction.truncate NOSNAP off) c1 (Some y) (Some (mk_object (truncate off d) (attrs y))))
    as (t&->&Htx'&Hne); [done|done|done|cbn; by rewrite Hy|cbn; lia|done|done|]. specialize (Hne ltac:(discriminate)). cbn [mbind option_bind].
  cbn [oi new_obs set_op_t]. rewrite Hs. set (c2 := set_op_t t c1) in *.
  destruct (cut_ranges off d c2) as (mr&cr&->&Hm1&Hm2&Hr1&Hr2); [done|done|lia..|]. cbn in Hm2, Hr2.
  cbn [mbind option_bind]. unfold truncate_update_size_and_usage. cbn. rewrite Hs.
  eexists _, _, _. split; [done|]. split; [done|]. cbn [w_cur]. split.
  - eapply (core_truncated d c1 off _ (attrs y)); try done; try lia.
    + split; resized off d; cbn; try done; by flags.
    + resized off d; done.
    + resized off d; done.
    + resized off d; done.
    + intros z. resized off d; cbn; apply Hm2.
    + resized off d; done.
    + intros z. resized off d; cbn; apply Hr2.
    + intros k [Hk1 Hk2]. resized off d; cbn; unfold count; rewrite (bool_decide_false (k = num_wr)) by done; case_bool_decide; lia.
  - split; cbn [w_tseq w_watched touched].
    + resized off d; cbn; rewrite Hq1; split; try done; case_match; lia.
    + resized off d; cbn; rewrite Hq2; by destruct Ht.
    + resized off d; cbn; by rewrite Hne.
Qed.

Lemma zlen_zero off len d : 0 <= off -> 0 < len -> zlen (zero off len d) = Z.max (zlen d) (off + len).
Proof. intros. unfold zero. rewrite (proj2 (Z.eqb_neq len 0)) by lia. rewrite zlen_write, zlen_zeros; rewrite ?zlen_zeros; lia. Qed.
Lemma byte_zero off len d x : 0 <= off -> 0 < len -> byte (zero off len d) x = if (off <=? x) && (x <? off + len) then 0 else byte d x.
Proof.
  intros. unfold zero. rewrite (proj2 (Z.eqb_neq len 0)) by lia. rewrite byte_write, zlen_zeros by lia.
  destruct (_ && _); [apply byte_zeros|done].
Qed.

Lemma do_zero_ok p w c d : op_ok env p -> op p = ZERO -> w_cur w = Some d -> core (w_cur w) c -> meta w c ->
  offset p + length p < zlen d -> step_ok (0, put (zero (offset p) (length p) d) w) (do_zero env p c).
Proof.
  intros Hp Hop Ew Hc Ht Hend. unfold do_zero.
  assert (requires_aligned_append env = false) as -> by (unfold requires_aligned_append; by rewrite (e_erasure _ Henv)).
  apply core_count in Hc. apply meta_count in Ht. set (c0 := count_write c) in *. clearbody c0. clear c.
  pose proof (p_wrap _ _ Hp). pose proof (p_offset _ _ Hp). destruct (p_zero _ _ Hp Hop) as (Hl&Hmx&_). destruct (e_max _ Henv) as [_ Hmx0].
  set (off := offset p) in *. set (len := length p) in *.
  rewrite (check_small off len) by lia.
  cbn [Z.ltb Z.compare]. rewrite (proj2 (Z.eqb_neq len 0)) by lia. cbn [negb]. rewrite (is_there _ _ Hc), Ew, bool_decide_false by done. cbn [negb].
  rewrite Ew in Hc. pose proof Hc as []. destruct k_store0 as (x&Htx&(_&_&Hs&Hx)). apply data_head in Hx as (y&->&Hy). cbn in k_size0.
  destruct k_modified0 as [Hmw _]. destruct k_clean0 as [Hcw _]. unfold soid_of. rewrite k_soid0.
  destruct (on_head (A_zero NOSNAP off len) (PGTransaction.zero NOSNAP off len) c0 (Some y) (Some (mk_object (zero off len d) (attrs y))))
    as (t&->&Htx'&Hne); [done|done|done|cbn; by rewrite Hy|cbn; lia|done|done|]. specialize (Hne ltac:(discriminate)). cbn [mbind option_bind].
  destruct (modified_ok off len (set_op_t t c0)) as (mr&->&Hm1&Hm2); [done|lia..|]. cbn [mbind option_bind].
  destruct (mark_dirty_ctx off len (set_modified_ranges mr (set_op_t t c0))) as (cr&->&Hr1&Hr2); [done|lia..|]. cbn [mbind option_bind].
  cbn in Hm2, Hr2. eexists _, _, _. split; [done|]. split; [done|]. split.
  - cbn [put w_cur]. pose proof (zlen_zero off len d ltac:(lia) Hl) as Hz. pose proof (fun x => byte_zero off len d x ltac:(lia) Hl) as Hb.
    remember (zero off len d) as d' eqn:Hd'. clear Hd'.
    eapply (core_data d c0 _ _ (mk_object d' (attrs y))); try done.
    + split; cbn; try done; by flags.
    + cbn. lia.
    + lia.
    + cbn. intros z Hzz. apply Hm2. auto.
    + cbn. intros z Hzz Hn. rewrite Hm2 in Hn. rewrite Hb. split; [lia|]. destruct (_ && _) eqn:E; [zbool; destruct Hn; right; lia|done].
    + cbn. intros z Hzz. destruct (Hr2 z Hzz) as [G1 G2]. split; [done|]. rewrite Hb. destruct (_ && _) eqn:E; [zbool; lia|done].
    + cbn. intros k [Hk1 Hk2]. unfold count. rewrite (bool_decide_false (k = num_wr)) by done. case_bool_decide; lia.
  - eapply meta_put; [exact Ht|done|done|by cbn].
Qed.

(** [ZERO] with the rewriting that comes before it. *)
Lemma zero_ok p w c : op_ok env p -> op p = ZERO -> core (w_cur w) c -> meta w c ->
  step_ok (spec_zero p w)
    match munge_zero env p c with
    | None => Some (0, c)
    | Some q => match op q with TRUNCATE => do_truncate env q c | _ => do_zero env q c end
    end.
Proof.
  intros Hp Hop Hc Ht. unfold munge_zero, spec_zero. rewrite Hop, bool_decide_true by done. cbn [andb].
  pose proof (p_wrap _ _ Hp). pose proof (p_offset _ _ Hp). destruct (p_zero _ _ Hp Hop) as (Hl&Hmx&Hq). destruct (e_max _ Henv) as [_ Hmx0].
  rewrite (proj2 (Z.ltb_lt (offset p) max)) by lia. rewrite (proj2 (Z.leb_le 1 (length p))) by lia.
  rewrite (proj2 (Z.leb_le (length p) max)) by lia. rewrite !andb_true_r. rewrite add64_small by lia. rewrite (size_contents _ _ Hc).
  pose proof (is_there _ _ Hc) as Hth. unfold contents. destruct (w_cur w) as [d|] eqn:Ew; cbn [default from_option id].
  - rewrite bool_decide_false in Hth by done. apply andb_true_iff in Hth as [-> Hw]. cbn [andb].
    destruct (Z.leb_spec (zlen d) (offset p + length p)).
    + destruct (Z.leb_spec (zlen d) (offset p)).
      * apply step_error; [by rewrite Ew|done].
      * cbn [op set_op]. pose proof (do_truncate_ok (set_op TRUNCATE p) w c) as Ht2. unfold spec_truncate in Ht2. rewrite Ew in Ht2.
        cbn [offset length op_truncate_seq set_op] in Ht2. rewrite Hq in Ht2. cbn [Z.eqb negb andb] in Ht2.
        rewrite (check_small (offset p) (length p)) in Ht2 by lia. cbn [Z.ltb Z.compare] in Ht2. apply Ht2; [|by left|done|done].
        destruct Hp. split; cbn; try done; try congruence. auto.
    + rewrite (proj2 (Z.leb_gt (zlen d) (offset p))) by lia. rewrite Hop. apply do_zero_ok; try done; try lia; by rewrite Ew.
  - change (zlen []) with 0. rewrite bool_decide_true in Hth by done. cbn [negb] in Hth.
    destruct (exists_ (new_obs c)) eqn:He; cbn [andb].
    + rewrite (proj2 (Z.leb_le 0 (offset p + length p))) by lia. rewrite (proj2 (Z.leb_le 0 (offset p))) by lia. apply step_error; [by rewrite Ew|done].
    + rewrite Hop. unfold do_zero.
      assert (requires_aligned_append env = false) as -> by (unfold requires_aligned_append; by rewrite (e_erasure _ Henv)).
      rewrite (check_small (offset p) (length p)) by lia.
      cbn [Z.ltb Z.compare]. rewrite (proj2 (Z.eqb_neq (length p) 0)) by lia. cbn. rewrite He. cbn [andb].
      apply step_error; [rewrite Ew; by apply core_count|by apply meta_count].
Qed.

(** ** Removals, as the first operation *)

Definition starting (w : work) (c : OpContext) : Prop := op_t c = ∅ /\ new_obs c = obs c /\ w_cur w = cur a.

Lemma snapset_facts c d : core d c -> clones (new_snapset c) = c_id <$> cl /\ seq (new_snapset c) = aseq a.
Proof. intros []. destruct (r_snapset _ _ _ _ Hrep) as [sn Hss]. rewrite k_snapset0, Hss. done. Qed.
Lemma no_manifest_release c d : core d c -> release_manifest c = c.
Proof. intros []. unfold release_manifest. destruct k_plain0 as [_ ->]. done. Qed.

Lemma ids_nil : c_id <$> cl = [] <-> cl = [].
Proof. destruct cl; by split. Qed.
Lemma will_clone_ok c d : core d c -> d = cur a -> cur a <> None ->
  negb (bool_decide (clones (new_snapset c) = [])) || match snapc_snaps (snapc env) with [] => false | s :: _ => seq (new_snapset c) <? s end = true <-> keeps_clones.
Proof.
  intros Hc -> Hne. destruct (snapset_facts _ _ Hc) as [-> ->]. fold newer. unfold keeps_clones.
  rewrite orb_true_iff, negb_true_iff, bool_decide_eq_false. rewrite ids_nil. intuition.
Qed.

(** The object is gone, or a whiteout. *)
Lemma core_deleted d c c' x' :
  core (Some d) c -> cur a = Some d ->
  obs c' = obs c -> new_snapset c' = new_snapset c -> soid (oi (new_obs c')) = NOSNAP ->
  is_dirty (oi (new_obs c')) = is_dirty (oi (new_obs c)) -> plain (oi (new_obs c')) -> size (oi (new_obs c')) = 0 ->
  is_whiteout (oi (new_obs c')) = exists_ (new_obs c') ->
  tx (disk pg) (op_t c') x' -> data <$> x' = (if exists_ (new_obs c') then Some [] else None) ->
  wf (modified_ranges c') -> (forall x, 0 <= x < zlen d -> In_set x (modified_ranges c')) ->
  weak_regions max (clean_regions c') -> (forall x, clean (clean_regions c') x -> ~ 0 <= x < zlen d) ->
  (forall k, tracked k -> delta_stats c' k = delta_stats c k +
     if bool_decide (k = num_bytes) then - zlen d
     else if bool_decide (k = num_objects) then if exists_ (new_obs c') then 0 else -1
     else if bool_decide (k = num_whiteouts) then if exists_ (new_obs c') then 1 else 0 else 0) ->
  (if exists_ (new_obs c') then keeps_clones else ~ keeps_clones) ->
  log c' = log c -> clone_obc c' = clone_obc c ->
  core None c'.
Proof.
  intros [] Ha Ho Hss Hso Hdi Hpl Hsz Hwh Htx Hx Hmw Hmx Hcw Hcx Hst Hk Hl1 Hl2.
  destruct k_store0 as (x&_&(He&Hw0&Hs0&_)). unfold old in *. rewrite Ha in *. cbn in *.
  split; try done; try congruence.
  - exists x'. split; [done|]. done.
  - destruct (e_max _ Henv). cbn. unfold zlen. cbn. lia.
  - split; [done|]. unfold old. rewrite Ha. intros z Hz Hn. destruct Hn. by apply Hmx.
  - split; [done|]. unfold old. rewrite Ha. intros z Hz. cbn. specialize (Hcx z Hz).
    destruct (Z.ltb_spec z 0); [by rewrite !byte_neg by lia|]. rewrite !byte_beyond; [done|lia|unfold zlen; cbn; lia].
  - intros k Hk'. rewrite Hst, k_stats0, Ho by done. unfold weight. rewrite He. destruct k_plain0 as [Hp1 Hp2], Hpl as [Hq1 Hq2].
    destruct (exists_ (new_obs c')); destruct k; counters; rewrite ?Hw0, ?Hwh, ?Hp1, ?Hp2, ?Hq1, ?Hq2, ?Hsz, ?Hs0; cbn; lia.
  - rewrite Hwh. intros E. by rewrite E in Hk.
  - intros E. by rewrite E in Hk.
Qed.

Lemma tx_empty x : tx (disk pg) ∅ x -> x = disk pg !! NOSNAP.
Proof. intros [Hi _ _]. destruct (Hi NOSNAP) as [_ Hd]. rewrite upd_head in Hd. rewrite <- Hd. apply denote_fresh. Qed.
Lemma first_delete w c : starting w c -> PGTransaction.delete_first (PGTransaction.at_ (op_t c) NOSNAP) = false.
Proof. intros (->&_&_). done. Qed.

Lemma delete_ok w c b : core (w_cur w) c -> meta w c -> starting w c -> step_ok (spec_delete w) (_delete_oid env pg false b c).
Proof.
  intros Hc Ht Hs0. pose proof Hs0 as (Hot&Hno&Hcur). unfold _delete_oid, spec_delete.
  rewrite (e_tier _ Henv). cbn [negb andb orb]. rewrite andb_true_r.
  match goal with |- context [is_whiteout _ && ?b] => set (wo := b) end.
  destruct (w_cur w) as [d|] eqn:Ew.
  - pose proof Hc as []. destruct k_store0 as (x&Htx&(He&Hwh&Hs&Hx)). apply data_head in Hx as (y&->&Hy). cbn in k_size0.
    destruct k_modified0 as [Hmw _]. destruct k_clean0 as [Hcw _]. pose proof (zlen_nonneg d). destruct (e_max _ Henv) as [_ Hmx0].
    assert (wo = true <-> keeps_clones) as Hwo by (eapply will_clone_ok; [exact Hc|done|by rewrite <- Hcur]).
    rewrite He, Hwh. cbn [negb orb andb]. unfold soid_of. rewrite k_soid0.
    destruct (on_head (A_remove NOSNAP) (PGTransaction.remove NOSNAP) c (Some y) None) as (t&->&Htx'&_);
      [done|done|done|done|done|done|intros _; by eapply first_delete|]. cbn [mbind option_bind oi new_obs set_op_t]. rewrite Hs.
    set (c1 := set_op_t t c) in *.
    assert (exists mr cr, (if 0 <? zlen d then c ← modified 0 (zlen d) c1; mark_dirty 0 (zlen d) c else Some c1) =
        Some (set_clean_regions cr (set_modified_ranges mr c1)) /\ wf mr /\ (forall z, 0 <= z < zlen d -> In_set z mr) /\
        weak_regions max cr /\ (forall z, clean cr z -> ~ 0 <= z < zlen d)) as (mr&cr&->&Hm1&Hm2&Hr1&Hr2).
    { destruct (Z.ltb_spec 0 (zlen d)).
      - destruct (modified_ok 0 (zlen d) c1) as (mr&->&Hm1&Hm2); [done|lia..|]. cbn [mbind option_bind].
        destruct (mark_dirty_ctx 0 (zlen d) (set_modified_ranges mr c1)) as (cr&->&Hr1&Hr2); [done|lia..|].
        exists mr, cr. split_and!; [done|done|intros z Hz; apply Hm2; auto|done|]. intros z Hz. by destruct (Hr2 z Hz).
      - exists (modified_ranges c1), (clean_regions c1). split_and!; [by destruct c1|done|intros z; lia|done|intros z _; lia]. }
    cbn [mbind option_bind]. rewrite Z.eqb_refl. cbn [negb mbind option_bind]. destruct wo.
    + match goal with |- context [on_op_t (PGTransaction.create NOSNAP) ?e] =>
        destruct (on_head (A_create NOSNAP) (PGTransaction.create NOSNAP) e None (Some empty_object)) as (t2&->&Htx2&Hne); [done..|] end.
      cbn [mbind option_bind]. eexists _, _, _. split; [done|]. split; [done|]. split.
      * cbn [w_cur]. eapply (core_deleted d c _ (Some empty_object)); try done; cbn; try done.
        -- by flags.
        -- destruct k_plain0. split; by flags.
        -- rewrite He. by flags.
        -- by rewrite He.
        -- intros k [Hk1 Hk2]. unfold count. rewrite He, !(bool_decide_false (k = num_wr)) by done. destruct k; counters; lia.
        -- rewrite He. by apply Hwo.
      * destruct Ht. split; cbn; try done. by rewrite Hne.
    + cbn.
      assert (is_whiteout (set_watchers [] (new_object (set_size 0 (oi (new_obs c))))) = false) as Hf1 by (by flags).
      assert (is_cache_pinned (set_watchers [] (new_object (set_size 0 (oi (new_obs c))))) = false) as Hf2 by (destruct k_plain0; by flags).
      assert (has_manifest (set_watchers [] (new_object (set_size 0 (oi (new_obs c))))) = false) as Hf3 by (destruct k_plain0; by flags).
      rewrite Hf1. cbn. rewrite Hf2, Hf3. cbn [count_if]. eexists _, _, _. split; [done|]. split; [done|]. split.
      * cbn [w_cur]. eapply (core_deleted d c _ None); try done; cbn; try done.
        -- by flags.
        -- intros k [Hk1 Hk2]. unfold count. rewrite !(bool_decide_false (k = num_wr)) by done. destruct k; counters; lia.
        -- intros Hk%Hwo. done.
      * destruct Ht. split; cbn; try done. unfold PGTransaction.empty. rewrite bool_decide_false; [done|].
        intros ->. rewrite Hot in Htx. apply tx_empty in Htx, Htx'. congruence.
  - pose proof Hc as []. destruct k_store0 as (x&Htx&(Hs&Hwh&Hx)).
    assert (negb (exists_ (new_obs c)) || is_whiteout (oi (new_obs c)) && wo = true) as ->; [|apply step_error; [by rewrite Ew|done]].
    rewrite Hwh. destruct (exists_ (new_obs c)) eqn:He; [|done]. cbn [negb orb andb]. unfold wo.
    destruct (snapset_facts _ _ Hc) as [-> _]. rewrite bool_decide_false; [done|]. rewrite ids_nil.
    apply (r_whiteout _ _ _ _ Hrep). rewrite <- k_obs0, <- Hno. done.
Qed.
End Core.
End CoreFacts.
