(* ===== verification/SnapVector.v ===== *)
(** Rollback, and the vectors of operations of a request. *)
From stdpp Require Import strings.
From S2P Require Import Prelude IntervalSet CleanRegions CleanMarks PgMissing IntervalMap PgTransaction PgTransactionFacts.
From S2P Require Import ObjectInfo PrimaryLogPG SnapSpec SnapFacts SnapOps.
#[local] Open Scope Z_scope.

Module FindFacts.
Import ObjectData ObjectInfo PrimaryLogPG SnapSpec CloneFacts.

Section Find.
Context (env : Env) (pg : PG) (cl : list clone) (a : astate).
Context (Henv : plain_pool env).
Context (Hrep : represents (osd_max_object_size env) pg cl a).

Lemma get_context o b : get_object_context env pg o b =
  Some match contexts pg !! o with Some obs => Some obs | None => if b then Some (mk_obs (new_info o) false) else None end.
Proof. unfold get_object_context. by rewrite (e_missing _ Henv). Qed.
Lemma head_context : exists_ (head_of pg) = true -> contexts pg !! NOSNAP = Some (head_of pg).
Proof. unfold head_of. by destruct (contexts pg !! NOSNAP). Qed.

(** The clone a snapshot reads, if any. *)
Inductive found (s : Z) : Z * option ObjectState * option Z -> Prop :=
| found_absent : exists_ (head_of pg) = false -> found s (- ENOENT, None, Some NOSNAP)
| found_head : exists_ (head_of pg) = true -> aseq a < s -> found s (0, Some (head_of pg), None)
| found_none m : exists_ (head_of pg) = true -> s <= aseq a ->
    (in_removed_snaps_queue env s = true \/ frozen a !! s = None) -> found s (- ENOENT, None, m)
| found_clone cl1 c cl2 : exists_ (head_of pg) = true -> s <= aseq a -> in_removed_snaps_queue env s = false ->
    cl = cl1 ++ c :: cl2 -> Forall (fun d => c_id d < s) cl1 -> s <= c_id c -> frozen a !! s = Some (c_data c) ->
    clone_ok pg c -> found s (0, Some (mk_obs (c_info c) true), None).

Lemma find_object_ok s : s <= CEPH_MAXSNAP -> exists r, find_object_context env pg s false false = Some r /\ found s r.
Proof.
  intros Hs. unfold find_object_context. rewrite (proj2 (Z.eqb_neq s NOSNAP)) by (unfold CEPH_MAXSNAP, Hobject.Hobject.CEPH_NOSNAP in *; lia).
  unfold get_snapset_context. rewrite (r_ssc _ _ _ _ Hrep). cbn [orb]. destruct (exists_ (head_of pg)) eqn:He.
  2:{ eexists. split; [done|]. by constructor. }
  rewrite (r_ssc _ _ _ _ Hrep), He. cbn [negb orb]. destruct (r_snapset _ _ _ _ Hrep) as [sn Hss]. rewrite Hss.
  cbn [seq snapset_of clones clone_snaps]. destruct (Z.ltb_spec (aseq a) s).
  { rewrite get_context, head_context by done. cbn [mbind option_bind]. eexists. split; [done|]. by apply found_head. }
  destruct (split_clones s cl) as (cl1&cl2&Hcl&H1&H2). pose proof (frozen_at s cl1 cl2) as Hf. rewrite <- Hcl in Hf.
  specialize (Hf (r_ordered _ _ _ _ Hrep) H1 H2). rewrite <- (r_frozen _ _ _ _ Hrep) in Hf. rewrite Hcl, first_clone_at by done.
  destruct cl2 as [|c cl2].
  { eexists. split; [done|]. apply found_none; auto. }
  pose proof (r_clones _ _ _ _ Hrep) as Hok. rewrite Hcl, Forall_app, Forall_cons in Hok. destruct Hok as (_&Hok&_).
  rewrite (e_missing _ Henv), get_context, (co_context _ _ Hok). cbn [mbind option_bind exists_].
  pose proof (r_ordered _ _ _ _ Hrep) as Ho. rewrite Hcl in Ho. destruct (ordered_below _ _ _ _ Ho) as [Hb _].
  rewrite find_at by (eapply Forall_impl; [exact Hb|]; cbn; tauto). cbn [mbind option_bind].
  apply ordered_app in Ho as [_ (_&Hne&_)]. rewrite (bool_decide_false (c_snaps c = [])) by done.
  destruct (bool_decide (s ∈ c_snaps c)) eqn:Es; cbn [negb].
  - destruct (in_removed_snaps_queue env s) eqn:Er; eexists; (split; [done|]); [apply found_none; auto|].
    eapply found_clone; done.
  - eexists. split; [done|]. apply found_none; auto.
Qed.
End Find.
End FindFacts.

Module RollbackFacts.
Import interval_set IntervalFacts CleanRegions CleanRegionsFacts WeakRegions TransFacts HeadTx ObjectData DataFacts ObjectInfo PrimaryLogPG SnapSpec.
Import CloneFacts FindFacts CoreFacts.

Lemma common_ok acc l : wf acc -> Forall (fun p => wf p.2) l ->
  exists r, common_overlap acc l = Some r /\ wf r /\ forall x, In_set x r <-> In_set x acc /\ Forall (fun p => In_set x p.2) l.
Proof.
  intros Ha Hl. revert acc Ha. induction Hl as [|p l Hp _ IH]; intros acc Ha; cbn [common_overlap].
  - exists acc. split_and!; [done..|]. intros x. rewrite Forall_nil. tauto.
  - destruct (inter_spec _ _ Ha Hp) as (i&->&Hi&Hx). cbn [mbind option_bind]. destruct (IH i Hi) as (r&->&Hr&Hrx). exists r.
    split_and!; [done..|]. intros x. rewrite Hrx, Hx, Forall_cons. tauto.
Qed.
Lemma chain_suffix cl1 cl2 head : chain (cl1 ++ cl2) head -> chain cl2 head.
Proof. induction cl1 as [|c cl1 IH]; cbn [app chain]; [done|]. intros [_ H]. auto. Qed.
Lemma chain_wf cl head : chain cl head -> Forall (fun c => wf (c_overlap c)) cl.
Proof. induction cl as [|c cl IH]; cbn [chain]; [done|]. intros [[Hw _] H]. constructor; auto. Qed.
(** Bytes in all the overlaps from a clone on are those of the head. *)
Lemma chain_common c cl head x : chain (c :: cl) head -> In_set x (c_overlap c) -> Forall (fun d => In_set x (c_overlap d)) cl ->
  x < zlen (c_data c) /\ x < zlen head /\ byte (c_data c) x = byte head x.
Proof.
  revert c. induction cl as [|d cl IH]; intros c; cbn [chain].
  - intros [[_ Hs] _] Hx _. by apply Hs.
  - intros [[_ Hs] Hc] Hx [Hd Hcl]%Forall_cons. destruct (Hs x Hx) as (?&?&?). destruct (IH d Hc Hd Hcl) as (?&?&?).
    split_and!; [done..|congruence].
Qed.

Section Rollback.
Context (env : Env) (pg : PG) (cl : list clone) (a : astate).
Context (Henv : plain_pool env).
Context (Hrep : represents (osd_max_object_size env) pg cl a).
Abbreviation max := (osd_max_object_size env).
Abbreviation core := (core env pg cl a).
Abbreviation starting := (starting a).
Abbreviation step_ok := (step_ok env pg cl a).
Abbreviation old := (old a).

(** The ranges that a rollback to [c] modifies. *)
Lemma rollback_ranges cl1 c cl2 n (mr : interval_set) :
  cl = cl1 ++ c :: cl2 -> 0 < n <= max -> n = zlen old -> wf mr ->
  exists ov mo ov' mo' mr', common_overlap (c_overlap c) ((fun c => (c_id c, c_overlap c)) <$> c :: cl2) = Some ov /\
    insert clear 0 n = Some mo /\ intersection_of ov mo = Some ov' /\ subtract mo ov' = Some mo' /\ union_of mr mo' = Some mr' /\ wf mr' /\
    (forall x, In_set x mr -> In_set x mr') /\
    (forall x, 0 <= x < n -> ~ In_set x mr' -> x < zlen (c_data c) /\ byte (c_data c) x = byte old x).
Proof.
  intros Hcl Hn Hold Hmr. destruct (e_max _ Henv) as [_ Hmx]. pose proof (r_chain _ _ _ _ Hrep) as Hch. rewrite Hcl in Hch. apply chain_suffix in Hch.
  pose proof (chain_wf _ _ Hch) as Hwf. apply Forall_cons in Hwf as [Hw1 Hw2].
  destruct (common_ok (c_overlap c) ((fun c => (c_id c, c_overlap c)) <$> c :: cl2)) as (ov&->&Hov&Hovx); [done| |].
  { rewrite Forall_fmap. constructor; [done|]. done. }
  destruct (insert_spec clear 0 n) as (mo&Emo&Hmo&_&Hmox); [apply wf_clear|lia..|intros ? _ []|].
  destruct (inter_spec _ _ Hov Hmo) as (ov'&Eo&Hov'&Hovx'). exists ov, mo, ov'.
  destruct (subtract_list_spec (m ov') 0 mo) as (mo'&Es&Hmo'&Hmox'); [done|apply Hov'|lia|intros x Hx; apply (Hovx' x), Hx|].
  destruct (union_spec _ _ Hmr Hmo') as (mr'&Eu&Hmr'&Hmrx). exists mo', mr'. split_and!; try done.
  - intros x Hx. apply Hmrx. auto.
  - intros x Hx Hnot. rewrite Hmrx, Hmox' in Hnot. assert (In_set x mo) as Hin by (apply Hmox; auto).
    destruct (mem_dec x (m ov')) as [Hd|Hd]; [|exfalso; apply Hnot; auto].
    apply Hovx' in Hd as [Hd _]. apply Hovx in Hd as [Hd1 Hd2]. rewrite Forall_fmap in Hd2. apply Forall_cons in Hd2 as [_ Hd2].
    destruct (chain_common c cl2 _ x Hch Hd1 Hd2) as (?&?&?). done.
Qed.

(** The head becomes a copy of the clone. *)
Lemma core_rolled d c c' k x' :
  core d c -> d = cur a -> clone_ok pg k -> k ∈ cl ->
  obs c' = obs c -> new_snapset c' = new_snapset c -> soid (oi (new_obs c')) = NOSNAP ->
  is_dirty (oi (new_obs c')) = is_dirty (oi (new_obs c)) -> plain (oi (new_obs c')) ->
  exists_ (new_obs c') = true -> is_whiteout (oi (new_obs c')) = false -> size (oi (new_obs c')) = zlen (c_data k) ->
  tx (disk pg) (op_t c') (Some x') -> data x' = c_data k ->
  wf (modified_ranges c') -> (forall x, 0 <= x < zlen old -> ~ In_set x (modified_ranges c') -> x < zlen (c_data k) /\ byte (c_data k) x = byte old x) ->
  weak_regions max (clean_regions c') -> (forall x, clean (clean_regions c') x -> ~ 0 <= x < Z.max (zlen old) (zlen (c_data k))) ->
  (forall q, tracked q -> delta_stats c' q = delta_stats c q +
     if bool_decide (q = num_bytes) then zlen (c_data k) - zlen old
     else if bool_decide (q = num_whiteouts) then - Z.b2z (is_whiteout (oi (new_obs c))) else 0) ->
  exists_ (new_obs c) = true -> log c' = log c -> clone_obc c' = clone_obc c ->
  core (Some (c_data k)) c'.
Proof.
  intros [] Hd Hk Hin Ho Hss Hso Hdi Hpl He' Hwh Hsz Htx Hx Hmw Hmx Hcw Hcx Hst He Hl1 Hl2.
  destruct k_store0 as (x&_&Hr). assert (size (oi (new_obs c)) = zlen old) as Hs.
  { unfold CoreFacts.old. subst d. destruct (cur a); [by destruct Hr as (_&_&->&_)|by destruct Hr as (->&_)]. }
  pose proof (proj2 (r_sizes _ _ _ _ Hrep)) as Hsizes. rewrite Forall_forall in Hsizes.
  split; try done; try congruence.
  - exists (Some x'). split; [done|]. cbn. by rewrite Hx.
  - cbn. by apply Hsizes.
  - split; [done|]. intros z Hz. cbn. destruct (Z.ltb_spec z 0); [by rewrite !byte_neg by lia|]. specialize (Hcx z Hz). by rewrite !byte_beyond by lia.
  - intros q Hq. rewrite Hst, k_stats0, Ho by done. unfold weight. rewrite He, He'. destruct k_plain0 as [Hp1 Hp2], Hpl as [Hq1 Hq2].
    destruct q; counters; rewrite ?Hwh, ?Hp1, ?Hp2, ?Hq1, ?Hq2, ?Hsz, ?Hs; cbn; lia.
Qed.

Ltac digests k := destruct (is_omap (c_info k)), (is_omap_digest (c_info k)), (is_data_digest (c_info k)).
(** A whiteout becomes an object again; nothing else changes. *)
Record revived (c c' : OpContext) : Prop := {
  v_obs : obs c' = obs c; v_snapset : new_snapset c' = new_snapset c; v_op_t : op_t c' = op_t c;
  v_modified : modified_ranges c' = modified_ranges c; v_clean : clean_regions c' = clean_regions c;
  v_log : log c' = log c; v_clone : clone_obc c' = clone_obc c; v_modify : modify c' = modify c;
  v_exists : exists_ (new_obs c') = true; v_whiteout : is_whiteout (oi (new_obs c')) = false; v_soid : soid (oi (new_obs c')) = soid (oi (new_obs c));
  v_dirty : is_dirty (oi (new_obs c')) = is_dirty (oi (new_obs c)); v_plain : plain (oi (new_obs c'));
  v_tseq : truncate_seq (oi (new_obs c')) = truncate_seq (oi (new_obs c)); v_watchers : watchers (oi (new_obs c')) = watchers (oi (new_obs c));
  v_stats : forall q, delta_stats c' q = delta_stats c q + if bool_decide (q = num_whiteouts) then - Z.b2z (is_whiteout (oi (new_obs c))) else 0
}.
Lemma revive_ok c : exists_ (new_obs c) = true -> plain (oi (new_obs c)) -> exists c', maybe_create_new_object true c = Some c' /\ revived c c'.
Proof.
  intros He [Hp1 Hp2]. unfold maybe_create_new_object. rewrite He. cbn [negb].
  destruct (is_whiteout (oi (new_obs c))) eqn:Ew; (eexists; split; [done|]; split; cbn; try done).
  - by flags.
  - by flags.
  - split; by flags.
  - intros q. unfold count. rewrite Ew. destruct (bool_decide (q = num_whiteouts)); cbn; lia.
  - intros q. rewrite Ew. destruct (bool_decide (q = num_whiteouts)); cbn; lia.
Qed.

(** The modified ranges of a rollback, for an object of any size. *)
Lemma rollback_modified cl1 k cl2 c : cl = cl1 ++ k :: cl2 -> wf (modified_ranges c) ->
  exists ov mr, common_overlap (c_overlap k) ((c_id k, c_overlap k) :: ((fun c => (c_id c, c_overlap c)) <$> cl2)) = Some ov /\
    (if 0 <? zlen old then mo ← insert clear 0 (zlen old); overlaps ← intersection_of ov mo; mo ← subtract mo overlaps;
       mr ← union_of (modified_ranges c) mo; Some (set_modified_ranges mr c) else Some c) = Some (set_modified_ranges mr c) /\
    wf mr /\ (forall x, 0 <= x < zlen old -> ~ In_set x mr -> x < zlen (c_data k) /\ byte (c_data k) x = byte old x).
Proof.
  intros Hcl Hmw. assert (zlen old <= max) as Hmax by apply (r_sizes _ _ _ _ Hrep). destruct (Z.ltb_spec 0 (zlen old)).
  - destruct (rollback_ranges cl1 k cl2 (zlen old) (modified_ranges c)) as (ov&mo&ov'&mo'&mr&E1&E2&E3&E4&E5&E6&E7&E8); [done|lia|done|done|].
    exists ov, mr. split; [done|]. rewrite E2. cbn [mbind option_bind]. rewrite E3. cbn [mbind option_bind]. rewrite E4. cbn [mbind option_bind].
    rewrite E5. done.
  - pose proof (r_chain _ _ _ _ Hrep) as Hch. rewrite Hcl in Hch. apply chain_suffix, chain_wf in Hch. apply Forall_cons in Hch as [Hw1 Hw2].
    destruct (common_ok (c_overlap k) ((c_id k, c_overlap k) :: ((fun c => (c_id c, c_overlap c)) <$> cl2))) as (ov&->&_&_); [done| |].
    { constructor; [done|]. by rewrite Forall_fmap. }
    exists ov, (modified_ranges c). split; [done|]. split; [by destruct c|]. split; [done|]. intros; lia.
Qed.

(** The transaction of a rollback: the head is removed and cloned. *)
Lemma rollback_tx w c k x : core (w_cur w) c -> starting w c -> tx (disk pg) (op_t c) (Some x) -> clone_ok pg k -> c_id k <> NOSNAP ->
  exists t1 t2 z, on_op_t (PGTransaction.remove NOSNAP) c = Some (set_op_t t1 c) /\
    on_op_t (PGTransaction.clone NOSNAP (c_id k)) (set_op_t t1 c) = Some (set_op_t t2 (set_op_t t1 c)) /\
    tx (disk pg) t2 (Some z) /\ data z = c_data k /\ PGTransaction.empty t2 = false.
Proof.
  intros Hc Hst Htx Hk Hid.
  destruct (on_head pg (A_remove NOSNAP) (PGTransaction.remove NOSNAP) c (Some x) None) as (t1&E1&Htx1&_);
    [done|done|done|done|done|done|intros _; by eapply first_delete|].
  pose proof (co_disk _ _ Hk) as Hdk. apply data_head in Hdk as (z&Ez&Hz).
  destruct (on_head pg (A_clone NOSNAP (c_id k)) (PGTransaction.clone NOSNAP (c_id k)) (set_op_t t1 c) None (Some z)) as (t2&E2&Htx2&Hne);
    [done|done|done|cbn; by rewrite Ez|done|intros src [= <-]; done|done|]. specialize (Hne ltac:(discriminate)). eauto 10.
Qed.

Lemma copy_clone_ok s w c cl1 k cl2 : core (w_cur w) c -> meta w c -> starting w c -> exists_ (head_of pg) = true ->
  cl = cl1 ++ k :: cl2 -> Forall (fun d => c_id d < s) cl1 -> s <= c_id k -> clone_ok pg k -> c_id k <> NOSNAP ->
  exists c', copy_clone s (mk_obs (c_info k) true) c = Some c' /\ core (Some (c_data k)) c' /\ meta (put (c_data k) w) c'.
Proof.
  intros Hc Ht Hst He Hcl H1 H2 Hk Hid. pose proof Hc as []. destruct k_store0 as (x&Htx&Hr). pose proof Hst as (_&Hno&Hcur). destruct (e_max _ Henv) as [_ Hmx0].
  assert (exists_ (new_obs c) = true) as Hex by congruence. unfold copy_clone, soid_of. rewrite k_soid0, Hex. cbn [oi]. rewrite (co_soid _ _ Hk), (co_size _ _ Hk).
  assert (is_Some x) as [y ->].
  { destruct (w_cur w); cbn in Hr; [destruct Hr as (_&_&_&Hr)|destruct Hr as (_&_&Hr); rewrite Hex in Hr]; by destruct x. }
  assert (size (oi (new_obs c)) = zlen old) as Hsz.
  { unfold CoreFacts.old. rewrite <- Hcur. destruct (w_cur w); [by destruct Hr as (_&_&->&_)|by destruct Hr as (->&_)]. }
  destruct (rollback_tx w c k y Hc Hst Htx Hk Hid) as (t1&t2&z&->&E2&Htx2&Hz&Hne). cbn [mbind option_bind]. rewrite E2. cbn [mbind option_bind].
  set (c2 := set_op_t t2 (set_op_t t1 c)). assert (size (oi (new_obs c2)) = zlen old) as -> by done.
  assert (SnapMap.lower_bound s (clone_overlap (new_snapset c2)) = (c_id k, c_overlap k) :: ((fun c => (c_id c, c_overlap c)) <$> cl2)) as ->.
  { change (new_snapset c2) with (new_snapset c). rewrite k_snapset0. destruct (r_snapset _ _ _ _ Hrep) as [sn ->]. cbn [clone_overlap snapset_of].
    rewrite Hcl. by apply (lower_bound_at c_overlap s cl1 (k :: cl2)). }
  cbn [snd]. destruct k_modified0 as [Hmw _]. destruct k_clean0 as [Hcw _]. destruct (rollback_modified cl1 k cl2 c2 Hcl Hmw) as (ov&mr&->&Emr&Hmr1&Hmr2).
  cbn [mbind option_bind]. rewrite Emr. cbn [mbind option_bind]. set (c3 := set_modified_ranges mr c2).
  assert (k ∈ cl) as Hkin by (rewrite Hcl; set_solver).
  pose proof (proj2 (r_sizes _ _ _ _ Hrep)) as Hsizes. rewrite Forall_forall in Hsizes. specialize (Hsizes k Hkin). cbn in Hsizes.
  pose proof (zlen_nonneg (c_data k)). pose proof (zlen_nonneg old). assert (zlen old <= max) as Holdmax by apply (r_sizes _ _ _ _ Hrep).
  destruct (revive_ok c3 Hex k_plain0) as (c4&->&[]). cbn [mbind option_bind].
  match goal with |- context [mark_dirty 0 _ ?e] => destruct (mark_dirty_ctx env Henv 0 (Z.max (zlen old) (zlen (c_data k))) e) as (cr&->&Hr1&Hr2) end;
    [cbn; by rewrite v_clean0|lia..|]. cbn in Hr2. cbn [mbind option_bind]. eexists. split; [done|]. split.
  + eapply (core_rolled (w_cur w) c _ k z); try done; cbn; try congruence.
    * digests k; cbn; by rewrite v_soid0.
    * transitivity (is_dirty (oi (new_obs c4))); [digests k; by flags|by rewrite v_dirty0].
    * destruct v_plain0. split; digests k; by flags.
    * digests k; by flags.
    * by digests k.
    * by rewrite v_op_t0.
    * by rewrite v_modified0.
    * by rewrite v_modified0.
    * intros u Hu. by destruct (Hr2 u Hu).
    * intros q Hq. unfold count. rewrite v_stats0. cbn. destruct (decide (q = num_bytes)) as [->|E1]; [counters; lia|]. rewrite !(bool_decide_false (q = num_bytes)) by done. lia.
  + destruct Ht. split; cbn [put w_tseq w_watched touched]; cbn.
    * digests k; cbn; by rewrite v_tseq0.
    * digests k; cbn; by rewrite v_watchers0.
    * rewrite v_op_t0. change (op_t c3) with t2. by rewrite Hne.
Qed.

Lemma rollback_ok s w c : 0 <= s <= CEPH_MAXSNAP -> core (w_cur w) c -> meta w c -> starting w c ->
  step_ok (spec_rollback env a s w) (_rollback_to env pg s c).
Proof.
  intros Hs Hc Ht Hst. pose proof Hst as (Hot&Hno&Hcur). destruct (e_max _ Henv) as [_ Hmx0].
  assert (obs c = head_of pg) as Hobs by apply Hc. assert (soid (oi (new_obs c)) = NOSNAP) as Hso by apply Hc.
  unfold _rollback_to, spec_rollback. destruct (find_object_ok env pg cl a Henv Hrep s) as (r&->&Hf); [lia|]. cbn [mbind option_bind].
  assert (step_ok (if watched a then (- EBUSY, w) else (0, (spec_delete w).2))
    (if negb (bool_decide (watchers (oi (obs c)) = [])) then Some (- EBUSY, c) else '(_, c) ← _delete_oid env pg false false c; Some (0, c))) as Hdel.
  { rewrite Hobs, <- (r_watched _ _ _ _ Hrep). destruct (watched a); [by apply step_error|].
    destruct (delete_ok env pg cl a Henv Hrep w c false Hc Ht Hst) as (r'&w'&c'&->&->&Hc'&Ht'). cbn [mbind option_bind].
    by eapply step_error. }
  assert (read a s = if aseq a <? s then cur a else frozen a !! s) as Hread.
  { unfold read. rewrite (proj2 (Z.eqb_neq s NOSNAP)); [done|]. unfold CEPH_MAXSNAP, Hobject.Hobject.CEPH_NOSNAP in *. lia. }
  rewrite Hread. destruct Hf as [He|He Hlt|m He Hle Hnone|cl1 k cl2 He Hle Hrm Hcl H1 H2 Hfr Hk].
  - (* nothing there *)
    cbn. rewrite (e_noop _ Henv). assert (cur a = None) as Hcn.
    { pose proof (r_head _ _ _ _ Hrep) as Hh. destruct (cur a); [|done]. cbn in Hh. destruct Hh as [Hh _]. congruence. }
    assert (frozen a !! s = None) as Hfn.
    { destruct (r_absent _ _ _ _ Hrep He) as [_ Hns]. destruct (r_snapset _ _ _ _ Hrep) as [sn Hss]. rewrite Hns in Hss.
      assert (cl = []) as Ecl by (destruct cl; [done|discriminate]). rewrite (r_frozen _ _ _ _ Hrep), Ecl. apply lookup_empty. }
    rewrite Hcn, Hfn. assert ((if (s <=? aseq a) && in_removed_snaps_queue env s then None else if aseq a <? s then None else None) = @None bytes) as ->
      by (by repeat case_match). exact Hdel.
  - (* the head *)
    rewrite (proj2 (Z.ltb_lt (aseq a) s)), (proj2 (Z.leb_gt s (aseq a))) by lia. cbn [andb]. cbn. rewrite (e_noop _ Henv).
    pose proof (r_head _ _ _ _ Hrep) as Hh. destruct (cur a) as [d|] eqn:Ecur.
    + destruct Hh as (_&Hwh&_). rewrite Hwh. cbn. rewrite (e_degraded _ Henv), (r_soid _ _ _ _ Hrep). cbn.
      eexists _, _, _. split; [done|]. split; [done|]. split.
      * cbn [put w_cur]. rewrite <- Hcur. destruct Hc. by split.
      * destruct Ht. split; cbn; try done. by rewrite andb_false_r.
    + destruct Hh as (_&Hwh&_). rewrite Hwh, He. exact Hdel.
  - (* no such snapshot *)
    rewrite (proj2 (Z.ltb_ge (aseq a) s)), (proj2 (Z.leb_le s (aseq a))) by lia. cbn [andb]. cbn. rewrite (e_noop _ Henv).
    assert ((if in_removed_snaps_queue env s then None else frozen a !! s) = None) as ->; [|exact Hdel].
    destruct Hnone as [->| ->]; [done|by destruct (in_removed_snaps_queue env s)].
  - (* a clone *)
    rewrite (proj2 (Z.ltb_ge (aseq a) s)), (proj2 (Z.leb_le s (aseq a))) by lia. cbn [andb]. rewrite Hrm, Hfr. cbv zeta. cbn [oi].
    change (0 =? - EAGAIN) with false. change (0 =? - ENOENT) with false. change (0 =? 0) with true. cbv iota. rewrite (e_noop _ Henv), (co_whiteout _ _ Hk).
    cbn [orb negb mbind option_bind oi]. rewrite (e_degraded _ Henv), (co_soid _ _ Hk).
    assert (c_id k <> NOSNAP) as Hid.
    { pose proof (proj2 (r_seq _ _ _ _ Hrep)) as Hb. rewrite Hcl, Forall_app, Forall_cons in Hb. destruct Hb as (_&Hb&_).
      pose proof (proj1 (r_seq _ _ _ _ Hrep)). unfold CEPH_MAXSNAP, Hobject.Hobject.CEPH_NOSNAP in *. lia. }
    rewrite (proj2 (Z.eqb_neq (c_id k) NOSNAP)) by done.
    destruct (copy_clone_ok s w c cl1 k cl2) as (c'&->&Hc'&Ht'); try done. by eexists _, _, _.
Qed.
End Rollback.
End RollbackFacts.

Module VectorFacts.
Import ObjectData ObjectInfo PrimaryLogPG SnapSpec CoreFacts RollbackFacts.

Section Vector.
Context (env : Env) (pg : PG) (cl : list clone) (a : astate).
Context (Henv : plain_pool env).
Context (Hrep : represents (osd_max_object_size env) pg cl a).
Abbreviation core := (core env pg cl a).
Abbreviation starting := (starting a).
Abbreviation step_ok := (step_ok env pg cl a).

Lemma do_osd_op_ok p w c : op_ok env (munge_truncate p) -> core (w_cur w) c -> meta w c -> (removes p = true -> starting w c) ->
  step_ok (spec_op env a (munge_truncate p) w) (do_osd_op env pg p 0 c).
Proof.
  intros Hp Hc Ht Hst. unfold do_osd_op, spec_op.
  assert (core (w_cur w) (set_user_modify true c)) as Hc1 by (destruct Hc; by split).
  assert (meta w (set_user_modify true c)) as Ht1 by (destruct Ht; by split).
  assert (removes p = true -> starting w (set_user_modify true c)) as Hst1 by done.
  assert (op (munge_truncate p) = op p) as Hop by (unfold munge_truncate; by destruct (_ && _)).
  set (q := munge_truncate p) in *. clearbody q. set (c1 := set_user_modify true c) in *. clearbody c1. clear c Hc Ht Hst.
  destruct (decide (op q = ZERO)) as [Ez|Ez].
  - pose proof (zero_ok env pg cl a Henv q w c1 Hp Ez Hc1 Ht1) as Hz. rewrite Ez. unfold munge_zero in *.
    rewrite Ez in *. destruct (_ && (size _ <=? _)); [destruct (_ <=? offset q)|]; cbn [op set_op] in *; rewrite ?Ez in *; exact Hz.
  - unfold munge_zero. rewrite (bool_decide_false (op q = ZERO)) by done. cbn [andb]. unfold removes in Hst1. rewrite <- Hop in Hst1.
    destruct (op q) eqn:Eq; try done.
    + by apply do_write_ok.
    + apply do_writefull_ok; try done. by apply (p_writefull _ _ Hp).
    + apply rollback_ok; try done; [apply (p_snapid _ _ Hp)|by apply core_count|by apply meta_count|]. by apply Hst1.
    + by apply do_create_ok.
    + apply do_truncate_ok; try done; [|by right]. destruct Hp, (e_max _ Henv). split; cbn; try done; try lia; congruence.
    + apply do_truncate_ok; try done. by apply (p_truncate _ _ Hp).
    + unfold do_delete. erewrite (no_manifest_release env pg cl a); [|by apply core_count].
      apply delete_ok; try done; [by apply core_count|by apply meta_count|]. by apply Hst1.
Qed.

(** Results are 0 or errors that [FAILOK] excuses. *)
Lemma spec_code p w : let r := (spec_op env a p w).1 in r = 0 \/ (r < 0 /\ r <> - EAGAIN /\ r <> - EINPROGRESS).
Proof.
  assert (forall off len, check_offset_and_length env off len = 0 \/ check_offset_and_length env off len = - EFBIG) as Hck.
  { intros. unfold check_offset_and_length. destruct (_ || _); auto. }
  unfold spec_op, spec_write, spec_writefull, spec_rollback, spec_zero, spec_create, spec_truncate, spec_delete.
  destruct (op p); cbn [set_extent]; repeat match goal with
    | |- context [check_offset_and_length env ?o ?l] => destruct (Hck o l) as [->| ->]; cbn [Z.ltb Z.compare]
    | |- context [match ?b with _ => _ end] => destruct b; cbn [fst snd]
    end; lia.
Qed.

Lemma do_osd_ops_ok ops w c : Forall (fun p => op_ok env (munge_truncate p)) ops -> Forall (fun p => removes p = false) (List.tl ops) ->
  core (w_cur w) c -> meta w c -> starting w c -> step_ok (spec_ops env a ops w) (do_osd_ops env pg ops 0 c).
Proof.
  intros Hops Htl Hc Ht Hst.
  assert (match ops with [] => True | p :: _ => removes p = true -> starting w c end) as Hfirst by (by destruct ops). clear Hst.
  revert w c Hc Ht Htl Hfirst. induction Hops as [|p ops Hp _ IH]; intros w c Hc Ht Htl Hfirst; cbn [spec_ops do_osd_ops].
  - by apply step_error.
  - destruct (do_osd_op_ok p w c Hp Hc Ht Hfirst) as (r&w1&c1&Es&->&Hc1&Ht1). pose proof (spec_code (munge_truncate p) w) as Hr. rewrite Es in Hr. rewrite Es.
    cbn [fst mbind option_bind] in *.
    assert (core (w_cur w1) (set_rvals (rvals c1 ++ [r]) c1)) as Hc2 by (destruct Hc1; by split).
    assert (meta w1 (set_rvals (rvals c1 ++ [r]) c1)) as Ht2 by (destruct Ht1; by split).
    assert (forall c2, core (w_cur w1) c2 -> meta w1 c2 -> step_ok (spec_ops env a ops w1) (do_osd_ops env pg ops 0 c2)) as Hgo.
    { intros c2 Hc3 Ht3. cbn [List.tl] in Htl. apply IH; try done; [by destruct Htl|]. destruct Htl as [|q ops Hq _]; [done|]. congruence. }
    destruct Hr as [->|(Hneg&Hn1&Hn2)].
    + cbn [Z.ltb Z.compare andb]. by apply Hgo.
    + rewrite (proj2 (Z.ltb_lt r 0)) by lia. rewrite (proj2 (Z.eqb_neq r (- EAGAIN))), (proj2 (Z.eqb_neq r (- EINPROGRESS))) by lia.
      cbn [andb negb]. rewrite andb_true_r. destruct (has FLAG_FAILOK p); cbn [andb negb].
      * cbn [Z.ltb Z.compare]. by apply Hgo.
      * rewrite (proj2 (Z.ltb_lt r 0)) by lia. by apply step_error.
Qed.
End Vector.
End VectorFacts.
