(* ===== verification/SnapCommit.v ===== *)
(** The end of a request: the clone for a new snapshot, the overlaps, the statistics
    and the object store. *)
From stdpp Require Import strings.
From S2P Require Import Prelude IntervalSet CleanRegions CleanMarks PgMissing IntervalMap PgTransaction PgTransactionFacts.
From S2P Require Import ObjectInfo PrimaryLogPG SnapSpec SnapFacts SnapOps SnapVector.
#[local] Open Scope Z_scope.

Module OverlapFacts.
Import interval_set IntervalFacts ObjectData DataFacts ObjectInfo PrimaryLogPG SnapSpec CloneFacts CoreFacts RollbackFacts.

(** Taking away a part takes away its size. *)
Lemma subtract_size l lo s : wf s -> wf_from lo l -> 0 <= lo -> (forall x, mem x l -> In_set x s) ->
  exists s', foldl (fun r '(start, len) => s' ← r; erase s' start len) (Some s) l = Some s' /\
    wf s' /\ (forall x, In_set x s' <-> In_set x s /\ ~ mem x l) /\ interval_set.size s' = interval_set.size s - total l.
Proof.
  revert lo s. induction l as [|[k n] l IH]; intros lo s Hs Hl Hlo Hsub; simpl in *.
  { exists s. split_and!; [done|done|tauto|lia]. }
  destruct Hl as (?&?&?&Hl).
  destruct (erase_spec s k n) as (s1 & He & Hw1 & Hs1); [done|lia..|auto|].
  destruct (erase_size s s1 k n) as [_ Hz]; [done|lia..|auto|done|done|].
  cbn [option_bind mbind]. rewrite He.
  destruct (IH (k + n + 1) s1) as (s2 & Hf & Hw2 & Hs2 & Hz2); [done|done|lia| |].
  { intros x Hx. apply Hs1. pose proof (mem_bounds _ _ _ Hl Hx). split; [auto|lia]. }
  exists s2. split_and!; [done..| |lia]. intros x. rewrite Hs2, Hs1. tauto.
Qed.
(** What two versions share is not longer than either. *)
Lemma shares_size ov a b : zlen a < two64 -> shares ov a b -> 0 <= interval_set.size ov <= zlen a.
Proof.
  intros Hlt [[Hw Hz] Hs]. pose proof (zlen_nonneg a). rewrite Hz. split; [by eapply total_nonneg|].
  destruct (decide (zlen a = 0)) as [E|E].
  - destruct (m ov) as [|[k n] l] eqn:Em; [simpl; lia|]. exfalso. destruct Hw as (?&?&_). destruct (Hs k) as (?&_); [|lia].
    unfold In_set. rewrite Em. simpl. lia.
  - destruct (insert_spec clear 0 (zlen a)) as (s&_&Hws&Hzs&Hx); [apply wf_clear|lia..|intros ? _ []|]. cbn in Hzs. replace (zlen a) with (interval_set.size s) by lia.
    apply (subset_size (m ov) 0); [done|lia|done|]. intros x Hm. apply Hx. right. pose proof (mem_bounds _ _ _ Hw Hm).
    destruct (Hs x Hm) as (?&_). lia.
Qed.

(** The last clone no longer shares what was modified. *)
Definition cut_last (cl : list clone) (ov : interval_set) : list clone :=
  match last cl with
  | None => cl
  | Some c => removelast cl ++ [mk_clone (c_id c) (c_info c) (c_data c) (c_snaps c) ov]
  end.
Lemma cut_last_snoc cl c ov : cut_last (cl ++ [c]) ov = cl ++ [mk_clone (c_id c) (c_info c) (c_data c) (c_snaps c) ov].
Proof. unfold cut_last. rewrite last_snoc, removelast_last. done. Qed.

Lemma clones_chain_snoc cl c head : chain (cl ++ [c]) head <-> chain cl (c_data c) /\ shares (c_overlap c) (c_data c) head.
Proof.
  induction cl as [|d cl IH]; cbn [app chain]; [tauto|]. rewrite IH. destruct cl as [|e cl]; cbn [app chain]; tauto.
Qed.
Lemma ordered_snoc lo cl c : ordered lo (cl ++ [c]) <-> ordered lo cl /\ ordered (default lo (last (c_id <$> cl))) [c].
Proof. apply ordered_app. Qed.
Lemma sum_app k cl1 cl2 : sum_clones k (cl1 ++ cl2) = sum_clones k cl1 + sum_clones k cl2.
Proof. unfold sum_clones. rewrite foldr_app. induction cl1 as [|c cl1 IH]; cbn [foldr]; [done|]. rewrite IH. lia. Qed.
Lemma frozen_snoc cl c : frozen_of (cl ++ [c]) = freeze (c_snaps c) (c_data c) (frozen_of cl).
Proof. unfold frozen_of. by rewrite foldl_app. Qed.
Lemma rbegin_snoc {V} (f : clone -> V) cl c : SnapMap.rbegin ((fun c => (c_id c, f c)) <$> cl ++ [c]) = Some (c_id c, f c).
Proof. unfold SnapMap.rbegin. rewrite fmap_app. apply last_snoc. Qed.

(** The snapshots of a valid context that are newer than the snapset. *)
Lemma descending_bound t l : descending t l = true -> Forall (fun s => s < t) l.
Proof.
  revert t. induction l as [|s l IH]; intros t; cbn [descending]; [done|]. destruct (_ || _) eqn:E; [done|].
  apply orb_false_iff in E as [E _]. zbool. intros Hd. constructor; [lia|]. eapply Forall_impl; [exact (IH _ Hd)|]. cbn. lia.
Qed.
Lemma descending_sorted t l : descending t l = true -> StronglySorted Z.gt (t :: l).
Proof.
  revert t. induction l as [|s l IH]; intros t Hd; [repeat constructor|]. pose proof (descending_bound _ _ Hd) as Hb.
  cbn [descending] in Hd. destruct (_ || _); [done|]. constructor; [by apply IH|]. eapply Forall_impl; [exact Hb|]. cbn. lia.
Qed.
Lemma filter_above q l : StronglySorted Z.gt l -> snaps_after q l = List.filter (fun s => q <? s) l.
Proof.
  induction 1 as [|s l Hl IH Hs]; cbn [snaps_after List.filter]; [done|]. destruct (Z.ltb_spec q s); [by rewrite IH|].
  rewrite <- IH. destruct l as [|s' l]; [done|]. apply Forall_cons in Hs as [? _]. cbn [snaps_after]. rewrite (proj2 (Z.ltb_ge q s')) by lia. done.
Qed.
Lemma filter_sorted_gt (f : Z -> bool) l : StronglySorted Z.gt l -> StronglySorted Z.gt (List.filter f l).
Proof.
  induction 1 as [|s l Hl IH Hs]; cbn [List.filter]; [constructor|]. destruct (f s); [|done]. constructor; [done|].
  rewrite Forall_forall in *. intros x Hx. apply Hs. apply list_elem_of_In. apply list_elem_of_In in Hx. by apply filter_In in Hx as [? _].
Qed.
Lemma in_filter (f : Z -> bool) l x : x ∈ List.filter f l <-> x ∈ l /\ f x = true.
Proof. rewrite !list_elem_of_In. apply filter_In. Qed.
End OverlapFacts.

Module CommitFacts.
Import interval_set IntervalFacts CleanRegions CleanRegionsFacts WeakRegions TransFacts HeadTx ObjectData DataFacts ObjectInfo PrimaryLogPG SnapSpec.
Import CloneFacts CoreFacts RollbackFacts OverlapFacts.

(** Clones are made before their sources change. *)
Definition acyclic (t : PGTransaction.op_map Z) : Prop :=
  exists rank : Z -> nat, forall o src, PGTransaction.has_source (PGTransaction.at_ t o) = Some src -> (rank o < rank src)%nat.

Section Commit.
Context (env : Env) (pg : PG) (cl : list clone) (a : astate).
Context (Henv : plain_pool env).
Context (Hrep : represents (osd_max_object_size env) pg cl a).
Context (Hvalid : is_valid (snapc env) = true).
Abbreviation max := (osd_max_object_size env).
Abbreviation core := (core env pg cl a).
Abbreviation old := (old a).
Abbreviation newer := (newer env a).

Lemma apply_ok t s : inv (disk pg) t s -> acyclic t -> apply_transaction env t (disk pg) = Some s.
Proof.
  intros Hi [rank Hr]. unfold apply_transaction, PGTransaction.generate_transaction, objects_of.
  assert (NoDup (merge_sort Z.le (elements (dom t)))) as Hnd by (rewrite merge_sort_Permutation; apply NoDup_elements).
  assert (forall o, o ∈ merge_sort Z.le (elements (dom t)) <-> is_Some (t !! o)) as Hin.
  { intros o. rewrite merge_sort_Permutation, elem_of_elements, elem_of_dom. done. }
  destruct (safe_create_traverse_ok t _ Hnd Hin rank) as (order&->&Hno&Hio&Hfo); [intros o src _; apply Hr|]. cbn [mbind option_bind].
  destruct (apply_order t _ Hnd Hin rank ltac:(intros o src _; apply Hr) (disk pg) (octopus env) order) as (s'&->&Hs'); [intros o; apply Hi|done..|].
  f_equal. apply map_eq. intros o. rewrite Hs'. apply Hi.
Qed.

(** After the flags are settled the statistics are those of the new state. *)
Record settled (d : option bytes) (c : OpContext) : Prop := {
  g_obs : obs c = head_of pg;
  g_snapset : new_snapset c = snapset (ssc pg);
  g_soid : soid (oi (new_obs c)) = NOSNAP;
  g_plain : plain (oi (new_obs c));
  g_store : exists x, tx (disk pg) (op_t c) x /\ rep (new_obs c) x d;
  g_size : zlen (default [] d) <= max;
  g_modified : wf (modified_ranges c) /\ kept (modified_ranges c) old (default [] d);
  g_stats : forall k, tracked k -> delta_stats c k = weight k (new_obs c) - weight k (obs c);
  g_whiteout : is_whiteout (oi (new_obs c)) = true -> keeps_clones env cl a;
  g_gone : exists_ (new_obs c) = false -> ~ keeps_clones env cl a;
  g_clean : forall x, clean (clean_regions c) x -> byte (default [] d) x = byte old x;
  g_log : log c = [] /\ clone_obc c = None
}.
(** The [DIRTY] flag changes, and is counted. *)
Lemma settle_from d c c1 n :
  core d c -> obs c1 = obs c -> new_snapset c1 = new_snapset c -> op_t c1 = op_t c -> modified_ranges c1 = modified_ranges c ->
  clean_regions c1 = clean_regions c -> log c1 = log c -> clone_obc c1 = clone_obc c -> modify c1 = modify c -> exists_ (new_obs c1) = exists_ (new_obs c) ->
  (oi (new_obs c1) = oi (new_obs c) \/ oi (new_obs c1) = set_flag FLAG_DIRTY (oi (new_obs c)) \/ oi (new_obs c1) = clear_flag FLAG_DIRTY (oi (new_obs c))) ->
  (forall k, delta_stats c1 k = delta_stats c k + if bool_decide (k = num_objects_dirty) then n else 0) ->
  n = weight num_objects_dirty (new_obs c1) - weight num_objects_dirty (obs c) ->
  settled d (update_omap_stats c1) /\ same_meta c (update_omap_stats c1).
Proof.
  intros [] H1 H2 H3 H4 H7 H8 H5 H6 He Hoi Hst Hn. destruct k_plain0 as [Hp1 Hp2]. destruct k_log0 as [Hl1 Hl]. destruct k_clean0 as [_ Hcl].
  assert (soid (oi (new_obs c1)) = soid (oi (new_obs c)) /\ size (oi (new_obs c1)) = size (oi (new_obs c)) /\
    truncate_seq (oi (new_obs c1)) = truncate_seq (oi (new_obs c)) /\ watchers (oi (new_obs c1)) = watchers (oi (new_obs c)) /\
    is_whiteout (oi (new_obs c1)) = is_whiteout (oi (new_obs c)) /\ is_cache_pinned (oi (new_obs c1)) = is_cache_pinned (oi (new_obs c)) /\
    has_manifest (oi (new_obs c1)) = has_manifest (oi (new_obs c))) as (F1&F2&F3&F4&F5&F6&F7).
  { destruct Hoi as [->|[->| ->]]; split_and!; try done; by flags. }
  split; [|by split_and!]. split; cbn; try congruence.
  - split; congruence.
  - destruct k_store0 as (x&Htx&Hr). exists x. rewrite H3. split; [done|]. destruct d; cbn in *; rewrite He, F2, F5; done.
  - intros k Hk. unfold count_if, count, weight. cbn. rewrite He, H1.
    assert (forall b v (f : counter -> Z), k <> num_objects_omap -> (if b : bool then (fun k' => if bool_decide (k' = num_objects_omap) then f k' + v else f k') else f) k = f k) as Hskip.
    { intros b v f Hne. destruct b; [|done]. by rewrite bool_decide_false. }
    destruct (decide (k = num_objects_omap)) as [->|Hne].
    + assert (delta_stats c1 num_objects_omap = 0) as Hz by (rewrite Hst, k_stats0 by done; by counters).
      destruct (exists_ (new_obs c)), (exists_ (obs c)), (is_omap (oi (new_obs c1))), (is_omap (oi (obs c))); cbn; counters; lia.
    + rewrite !Hskip by done. rewrite Hst, k_stats0 by done. unfold weight in Hn |- *. rewrite He in Hn. rewrite H1 in Hn || idtac.
      destruct k; counters; rewrite ?F2, ?F5, ?F6, ?F7 in *; try (by destruct Hne); try lia.
  - by rewrite F5.
  - by rewrite He.
  - by rewrite H7.
  - split; congruence.
Qed.

Lemma settle_ok d c : core d c ->
  exists c1, update_dirty env c = Some c1 /\ settled d (update_omap_stats c1) /\ same_meta c (update_omap_stats c1).
Proof.
  intros Hc. pose proof Hc as []. unfold update_dirty. rewrite (e_undirty _ Henv). cbn [andb negb]. rewrite andb_true_r.
  assert (exists_ (obs c) = false -> is_dirty (oi (obs c)) = false) as Habs.
  { rewrite k_obs0. intros E. by destruct (r_absent _ _ _ _ Hrep E) as [-> _]. }
  destruct (exists_ (new_obs c)) eqn:He, (is_dirty (oi (obs c))) eqn:Ed; cbn [negb]; (eexists; split; [done|]).
  all: destruct (exists_ (obs c)) eqn:Eo; try (by specialize (Habs eq_refl)).
  - apply (settle_from d c c 0); auto; [intros k; by destruct (bool_decide (k = num_objects_dirty)); lia|]. unfold weight. by rewrite He, Eo, Ed, k_dirty0.
  - eapply (settle_from d c _ 1); cbn; auto; [intros k; unfold count; destruct (bool_decide (k = num_objects_dirty)); lia|].
    unfold weight. cbn. rewrite He, Eo, Ed. by flags.
  - eapply (settle_from d c _ 1); cbn; auto; [intros k; unfold count; destruct (bool_decide (k = num_objects_dirty)); lia|].
    unfold weight. cbn. rewrite He, Eo. by flags.
  - eapply (settle_from d c _ (-1)); cbn; auto; [intros k; unfold count; destruct (bool_decide (k = num_objects_dirty)); lia|].
    unfold weight. cbn. by rewrite He, Eo, Ed.
  - apply (settle_from d c c 0); auto; [intros k; by destruct (bool_decide (k = num_objects_dirty)); lia|]. unfold weight. by rewrite He, Eo, Ed.
  - apply (settle_from d c c 0); auto; [intros k; by destruct (bool_decide (k = num_objects_dirty)); lia|]. unfold weight. by rewrite He, Eo.
Qed.

(** ** The clone *)

Lemma make_clone_ok coid poi c x y :
  tx (disk pg) (op_t c) x -> coid <> NOSNAP -> disk pg !! coid = None -> disk pg !! NOSNAP = Some y ->
  exists t z, _make_clone env NOSNAP coid poi c = Some (set_op_t t c) /\ acyclic t /\
    inv (disk pg) t (<[coid := z]> (upd x (disk pg))) /\ data z = data y.
Proof.
  intros [Hi Hon Hso] Hne Hc Hy. set (s := upd x (disk pg)) in *.
  assert (s !! coid = None) as Hs by (unfold s; by rewrite upd_other).
  destruct (run_ok (disk pg) (A_clone coid NOSNAP) (op_t c) s (<[coid := y]> s)) as (t1&R1&I1&_);
    [done|cbn; by rewrite Hs, Hy|done|set_solver|].
  destruct (run_ok (disk pg) (A_setattr coid OI_ATTR (encode_info env poi)) t1 (<[coid := y]> s) (<[coid := mk_object (data y) (<[OI_ATTR := encode_info env poi]> (attrs y))]> s))
    as (t2&R2&I2&_); [exact I1|cbn; unfold StoreOps.on_attrs; rewrite lookup_insert_eq; cbn; by rewrite insert_insert_eq|done|set_solver|].
  destruct (run_ok (disk pg) (A_rmattr coid SS_ATTR) t2 (<[coid := mk_object (data y) (<[OI_ATTR := encode_info env poi]> (attrs y))]> s) (<[coid := mk_object (data y) (delete SS_ATTR (<[OI_ATTR := encode_info env poi]> (attrs y)))]> s))
    as (t3&R3&I3&_); [exact I2|cbn; unfold StoreOps.on_attrs; rewrite lookup_insert_eq; cbn; by rewrite insert_insert_eq|done|set_solver|].
  exists t3, (mk_object (data y) (delete SS_ATTR (<[OI_ATTR := encode_info env poi]> (attrs y)))). cbn [run] in R1, R2, R3.
  unfold _make_clone, on_op_t. rewrite R1. cbn [mbind option_bind op_t set_op_t]. rewrite R2. cbn [mbind option_bind op_t set_op_t]. rewrite R3.
  split; [done|]. split; [|done]. exists (fun o => if decide (o = coid) then 0%nat else if decide (o = NOSNAP) then 1%nat else 2%nat).
  intros o src Hsrc. destruct (run_source (A_rmattr coid SS_ATTR) _ _ _ _ R3 Hsrc) as [H3|]; [|done].
  destruct (run_source (A_setattr coid OI_ATTR (encode_info env poi)) _ _ _ _ R2 H3) as [H2|]; [|done].
  destruct (run_source (A_clone coid NOSNAP) _ _ _ _ R1 H2) as [H1|[= <- <-]].
  - destruct (decide (o = NOSNAP)) as [->|Hn].
    + pose proof (Hso _ H1). destruct (Hi NOSNAP) as [Hok _].
      assert (is_Some (disk pg !! src)) as [? ?].
      { apply (ok_clone _ _ _ Hok). unfold PGTransaction.has_source in H1. destruct (PGTransaction.init_type _); naive_solver. }
      rewrite (decide_False (P := src = coid)) by congruence. repeat case_decide; congruence || lia.
    + unfold PGTransaction.at_ in H1. by rewrite Hon in H1.
  - repeat case_decide; congruence || lia.
Qed.

(** The contexts once the clone is there. *)
Definition with_clone (c : OpContext) : gmap Z ObjectState :=
  match clone_obc c with Some o => <[soid (oi o) := o]> (contexts pg) | None => contexts pg end.
Definition clone_info_ok (k : clone) : Prop :=
  soid (c_info k) = c_id k /\ size (c_info k) = zlen (c_data k) /\ is_whiteout (c_info k) = false /\ plain (c_info k).
(** With the clones of the new state, whose newest one shares bytes with [h]; the
    snapset is of snapshot [q]. *)
Record cloned (q : Z) (h : bytes) (d : option bytes) (cl3 : list clone) (c : OpContext) : Prop := {
  x_obs : obs c = head_of pg;
  x_soid : soid (oi (new_obs c)) = NOSNAP;
  x_plain : plain (oi (new_obs c));
  x_snapset : exists sn, new_snapset c = snapset_of q sn cl3;
  x_contexts : Forall (fun k => with_clone c !! c_id k = Some (mk_obs (c_info k) true)) cl3;
  x_infos : Forall clone_info_ok cl3;
  x_store : exists s, inv (disk pg) (op_t c) s /\ acyclic (op_t c) /\ rep (new_obs c) (s !! NOSNAP) d /\
    Forall (fun k => data <$> s !! c_id k = Some (c_data k)) cl3 /\ (forall o, o <> NOSNAP -> o ∉ c_id <$> cl3 -> s !! o = None);
  x_chain : chain cl3 h;
  x_ordered : ordered 0 cl3;
  x_ids : Forall (fun k => c_id k <= Z.max (aseq a) (snapc_seq (snapc env))) cl3;
  x_sizes : zlen (default [] d) <= max /\ Forall (fun k => zlen (c_data k) <= max) cl3;
  x_stats : forall k, tracked k -> pg_stats pg k + delta_stats c k = weight k (new_obs c) + sum_clones k cl3;
  x_whiteout : is_whiteout (oi (new_obs c)) = true -> cl3 <> [];
  x_gone : exists_ (new_obs c) = false -> cl3 = [];
  x_frozen : frozen_of cl3 = match cur a with
    | Some d => freeze (List.filter (fun s => aseq a <? s) (snapc_snaps (snapc env))) d (frozen a)
    | None => frozen a
    end;
  x_clean : forall x, clean (clean_regions c) x -> byte (default [] d) x = byte old x
}.

Lemma wants_ok d c : settled d c -> wants_clone env c = true <-> cur a <> None /\ newer = true.
Proof.
  intros []. unfold wants_clone, newer. rewrite (e_evict _ Henv), g_obs0, g_snapset0. destruct (r_snapset _ _ _ _ Hrep) as [sn ->].
  cbn [seq snapset_of negb]. rewrite andb_true_r. pose proof (r_head _ _ _ _ Hrep) as Hr. destruct (cur a) as [x|]; cbn in Hr.
  - destruct Hr as (->&->&_). cbn [negb andb]. split; [done|]. by intros [_ ?].
  - destruct Hr as (_&->&_). destruct (exists_ (head_of pg)); cbn [negb andb]; split; intros Hx; (discriminate || by destruct Hx).
Qed.
Lemma valid_snaps : StronglySorted Z.gt (snapc_snaps (snapc env)) /\ Forall (fun s => s <= snapc_seq (snapc env)) (snapc_snaps (snapc env)) /\
  snapc_seq (snapc env) <= CEPH_MAXSNAP.
Proof.
  unfold is_valid in Hvalid. destruct (Z.ltb_spec CEPH_MAXSNAP (snapc_seq (snapc env))); [done|].
  destruct (snapc_snaps (snapc env)) as [|s l]; [split_and!; (done || constructor)|]. destruct (Z.ltb_spec (snapc_seq (snapc env)) s); [done|].
  split_and!; [by apply descending_sorted| |done]. constructor; [lia|]. eapply Forall_impl; [by apply descending_bound|]. cbn. lia.
Qed.
Lemma not_newer : newer = false -> List.filter (fun s => aseq a <? s) (snapc_snaps (snapc env)) = [].
Proof.
  destruct valid_snaps as (Hs&_). unfold newer. rewrite <- filter_above by done. destruct (snapc_snaps (snapc env)); [done|]. cbn [snaps_after]. by intros ->.
Qed.
Lemma below_head k : k <= Z.max (aseq a) (snapc_seq (snapc env)) -> k <> NOSNAP.
Proof.
  destruct (r_seq _ _ _ _ Hrep) as [[_ ?] _]. destruct valid_snaps as (_&_&?). unfold CEPH_MAXSNAP, Hobject.Hobject.CEPH_NOSNAP in *. lia.
Qed.
Lemma ids_below : Forall (fun k => c_id k <= aseq a /\ c_id k <> NOSNAP) cl.
Proof.
  destruct (r_seq _ _ _ _ Hrep) as [_ Hf]. eapply Forall_impl; [exact Hf|]. cbn. intros k Hk. split; [done|]. apply below_head. lia.
Qed.

(** No clone is needed. *)
Lemma uncloned_ok d c : settled d c -> wants_clone env c = false -> cloned (aseq a) old d cl c.
Proof.
  intros Hg Hw. assert (~ (cur a <> None /\ newer = true)) as Hn by (intros Hx; apply (wants_ok d c Hg) in Hx; congruence).
  destruct Hg. destruct g_log0 as [_ Hcl]. pose proof (r_clones _ _ _ _ Hrep) as Hk.
  split; try done.
  - rewrite g_snapset0. apply Hrep.
  - unfold with_clone. rewrite Hcl. eapply Forall_impl; [exact Hk|]. by intros k [].
  - eapply Forall_impl; [exact Hk|]. by intros k [].
  - destruct g_store0 as (x&[Hi Hon Hso]&Hr). exists (upd x (disk pg)). rewrite upd_head. split_and!; try done.
    + exists (fun o => if decide (o = NOSNAP) then 0%nat else 1%nat). intros o src Hs. destruct (decide (o = NOSNAP)) as [->|Hne].
      * rewrite decide_False; [lia|]. by apply Hso.
      * unfold PGTransaction.at_ in Hs. by rewrite Hon in Hs.
    + eapply Forall_impl; [apply Forall_and; exact (conj Hk ids_below)|]. intros k [[Hc _ Hd _ _ _] [_ Hne]]. by rewrite upd_other.
    + intros o Hne Ho. rewrite upd_other by done. by apply (r_others _ _ _ _ Hrep).
  - apply Hrep.
  - apply Hrep.
  - destruct (r_seq _ _ _ _ Hrep) as [_ Hf]. eapply Forall_impl; [exact Hf|]. cbn. lia.
  - split; [done|]. apply Hrep.
  - intros k Hk'. rewrite g_stats0, (r_stats _ _ _ _ Hrep k Hk'), g_obs0 by done. lia.
  - intros Hx. by destruct (g_whiteout0 Hx).
  - intros Hx. specialize (g_gone0 Hx). destruct cl; [done|]. exfalso. apply g_gone0. by left.
  - rewrite <- (r_frozen _ _ _ _ Hrep). destruct (cur a); [|done]. rewrite not_newer; [done|]. destruct newer; [|done]. by destruct Hn.
Qed.

(** The clone of the old contents. *)
Definition new_clone (c : OpContext) (ov : interval_set) : clone :=
  mk_clone (snapc_seq (snapc env))
    (copy_user_bits (oi (obs c)) (set_prior_version (version (oi (obs c))) (set_version (at_version c) (new_info (snapc_seq (snapc env))))))
    old (List.filter (fun s => aseq a <? s) (snapc_snaps (snapc env))) ov.

Lemma new_snaps : newer = true ->
  (match snapc_snaps (snapc env) with [] => [] | s :: l => s :: snaps_after (aseq a) l end) =
    List.filter (fun s => aseq a <? s) (snapc_snaps (snapc env)) /\
  List.filter (fun s => aseq a <? s) (snapc_snaps (snapc env)) <> [] /\ aseq a < snapc_seq (snapc env).
Proof.
  unfold newer. destruct valid_snaps as (Hs&Hb&_). destruct (snapc_snaps (snapc env)) as [|s l]; [done|]. intros E. cbn [List.filter]. rewrite E.
  inversion Hs; subst. apply Forall_cons in Hb as [? _]. rewrite filter_above by done. zbool. split_and!; [done|done|lia].
Qed.
Lemma last_id : default 0 (last (c_id <$> cl)) <= aseq a.
Proof.
  destruct (r_seq _ _ _ _ Hrep) as [[? _] Hf]. destruct (last (c_id <$> cl)) as [i|] eqn:El; [|done]. cbn.
  apply last_Some_elem_of in El. apply list_elem_of_fmap in El as (k&->&Hk). rewrite Forall_forall in Hf. by apply Hf.
Qed.
Lemma new_clone_ordered c ov : newer = true -> ordered 0 (cl ++ [new_clone c ov]).
Proof.
  intros Hn. destruct (new_snaps Hn) as (_&Hne&Hlt). pose proof last_id. destruct valid_snaps as (Hs&Hb&_).
  apply ordered_snoc. split; [apply Hrep|]. cbn. split_and!; [lia|done|by apply filter_sorted_gt| |done].
  rewrite Forall_forall in *. intros s Hx. apply in_filter in Hx as [Hx E]. zbool. specialize (Hb s Hx). cbn in Hb. lia.
Qed.
(** The new clone shares all of its bytes, and counts as an object without bytes. *)
Lemma new_overlap : exists ov, (if negb (zlen old =? 0) then insert clear 0 (zlen old) else Some clear) = Some ov /\
  shares ov old old /\ interval_set.size ov = zlen old.
Proof.
  pose proof (zlen_nonneg old). destruct (r_sizes _ _ _ _ Hrep) as [Hm _]. fold old in Hm. destruct (e_max _ Henv) as [_ Hmx].
  destruct (Z.eqb_spec (zlen old) 0) as [E|E]; cbn [negb].
  - exists clear. split_and!; [done| |done]. split; [apply wf_clear|]. intros x [].
  - destruct (insert_spec clear 0 (zlen old)) as (s&->&Hw&Hz&Hx); [apply wf_clear|lia..|intros ? _ []|]. exists s.
    split_and!; [done| |cbn in Hz; lia]. split; [done|]. intros x Hi. apply Hx in Hi as [[]|Hi]. split_and!; lia || done.
Qed.

Lemma clone_stats st k q : tracked q -> is_whiteout (c_info k) = false -> interval_set.size (c_overlap k) = zlen (c_data k) ->
  count num_object_clones 1 (count_if (has_manifest (c_info k)) num_objects_manifest 1 (count_if (is_cache_pinned (c_info k)) num_objects_pinned 1
    (count_if (is_omap (c_info k)) num_objects_omap 1 (count_if (is_dirty (c_info k)) num_objects_dirty 1 (count num_objects 1 st))))) q =
  st q + clone_weight q k.
Proof.
  intros [] Hw Hs. unfold count, count_if, count, clone_weight, weight. cbn [exists_ oi].
  destruct (has_manifest (c_info k)), (is_cache_pinned (c_info k)), (is_omap (c_info k)), (is_dirty (c_info k)); destruct q;
    counters; rewrite ?Hw; cbn [Z.b2z]; (done || lia).
Qed.

Lemma clone_head_ok d c : settled d c -> wants_clone env c = true ->
  exists k c1, clone_head env c = Some c1 /\ cloned (aseq a) old d (cl ++ [k]) c1 /\ same_meta c c1 /\ modified_ranges c1 = modified_ranges c /\ user_modify c1 = user_modify c.
Proof.
  intros Hg Hw. pose proof (proj1 (wants_ok d c Hg) Hw) as [Hcur Hn]. destruct (new_snaps Hn) as (Hfil&Hne&Hlt).
  destruct Hg. destruct g_store0 as (x&Htx&Hrx). destruct g_log0 as [Hlog Hcl]. destruct (r_snapset _ _ _ _ Hrep) as [sn Hss].
  pose proof (r_head _ _ _ _ Hrep) as Hr. destruct (cur a) as [dd|] eqn:Ecur; [|done]. destruct Hr as (Hex&Hwh&Hsz&Hdd).
  assert (old = dd) as Hold by (unfold old; by rewrite Ecur). destruct (disk pg !! NOSNAP) as [y|] eqn:Ey; [|done]. injection Hdd as Hdd.
  destruct new_overlap as (ov&Hov&Hsh&Hosz). pose proof (new_clone_ordered c ov Hn) as Hord. set (k := new_clone c ov) in *.
  set (coid := snapc_seq (snapc env)) in *. pose proof ids_below as Hids.
  assert (coid <> NOSNAP) as Hcn by (apply below_head; lia).
  assert (Forall (fun e => c_id e < coid) cl) as Hlow by (eapply Forall_impl; [exact Hids|]; cbn; lia).
  assert (coid ∉ c_id <$> cl) as Hnew.
  { intros Hx. apply list_elem_of_fmap in Hx as (e&E&He). rewrite Forall_forall in Hlow. specialize (Hlow e He). cbn in Hlow. lia. }
  unfold clone_head. fold coid. rewrite g_obs0, g_snapset0, Hss. cbn [seq snapset_of]. rewrite Hfil.
  rewrite (r_soid _ _ _ _ Hrep).
  match goal with |- context [_make_clone env NOSNAP coid ?p ?e] => destruct (make_clone_ok coid p e x y) as (t&z&->&Hac&Hinv&Hz) end;
    [done|done|by apply (r_others _ _ _ _ Hrep)|done|]. cbn [mbind option_bind].
  cbn [new_snapset set_op_t set_clone_obc on_stats set_delta_stats]. rewrite g_snapset0, Hss. cbn [clone_overlap clones clone_size clone_snaps snapset_of].
  rewrite find_none by done. cbn [default from_option id]. rewrite Hsz, <- Hold, Hov. cbn [mbind option_bind].
  eexists k, _. split; [done|]. split; [|by split_and!].
  assert (clone_info_ok k) as Hki by (unfold clone_info_ok, plain; cbn; rewrite g_obs0; destruct (r_plain _ _ _ _ Hrep); split_and!; by flags || congruence).
  split; cbn; try done.
  - exists sn. unfold set_clone_overlap, set_clone_snaps, set_clone_size, set_clones, snapset_of. cbn. rewrite !set_end, !fmap_app by done. done.
  - unfold with_clone. cbn. rewrite <- g_obs0. apply Forall_app. split; [|constructor; [apply lookup_insert_eq|done]].
    eapply Forall_impl; [apply Forall_and; exact (conj (r_clones _ _ _ _ Hrep) Hlow)|]. cbn. intros e [[] ?]. by rewrite lookup_insert_ne by lia.
  - apply Forall_app. split; [|by constructor]. eapply Forall_impl; [exact (r_clones _ _ _ _ Hrep)|]. by intros e [].
  - exists (<[coid := z]> (upd x (disk pg))). rewrite lookup_insert_ne, upd_head by done. split_and!; [done..| |].
    + apply Forall_app. split; [|constructor; [|done]].
      * eapply Forall_impl; [apply Forall_and; split; [exact (r_clones _ _ _ _ Hrep)|apply Forall_and; exact (conj Hlow Hids)]|].
        cbn. intros e ([]&?&_&?). by rewrite lookup_insert_ne, upd_other by lia.
      * cbn. rewrite lookup_insert_eq. cbn. congruence.
    + intros o Ho Hi. rewrite fmap_app in Hi. rewrite lookup_insert_ne, upd_other by set_solver. apply (r_others _ _ _ _ Hrep); set_solver.
  - apply clones_chain_snoc. split; [|done]. apply Hrep.
  - apply Forall_app. split; [eapply Forall_impl; [exact Hids|]; cbn; lia|constructor; [cbn; lia|done]].
  - split; [done|]. destruct (r_sizes _ _ _ _ Hrep). apply Forall_app. split; [done|by constructor].
  - intros q Hq. rewrite <- g_obs0. change (copy_user_bits _ _) with (c_info k). rewrite clone_stats by (done || apply Hki).
    rewrite sum_app, g_stats0, (r_stats _ _ _ _ Hrep q Hq), g_obs0 by done. cbn [sum_clones foldr]. lia.
  - intros _. by destruct cl.
  - intros Hx. destruct (g_gone0 Hx). right. by rewrite Ecur.
  - rewrite frozen_snoc, <- (r_frozen _ _ _ _ Hrep), Ecur. cbn. by rewrite Hold.
Qed.

Lemma cloning_ok d c : settled d c ->
  exists cl3 c1, (if wants_clone env c then clone_head env c else Some c) = Some c1 /\ cloned (aseq a) old d cl3 c1 /\ same_meta c c1 /\
    wf (modified_ranges c1) /\ kept (modified_ranges c1) old (default [] d) /\ user_modify c1 = user_modify c.
Proof.
  intros Hg. pose proof (g_modified _ _ Hg) as [Hw Hk]. destruct (wants_clone env c) eqn:E.
  - destruct (clone_head_ok d c Hg E) as (k&c1&->&Hc&Hm&Er&Eu). exists (cl ++ [k]), c1. by rewrite Er.
  - exists cl, c. by split_and!; [|apply uncloned_ok|..].
Qed.

(** ** The overlap *)

Lemma Forall_last {P : clone -> Prop} {l} k k' : (P k -> P k') -> Forall P (l ++ [k]) -> Forall P (l ++ [k']).
Proof. rewrite !Forall_app, !Forall_singleton. tauto. Qed.

Lemma update_overlap_ok d cl3 c : cloned (aseq a) old d cl3 c -> wf (modified_ranges c) -> kept (modified_ranges c) old (default [] d) ->
  exists cl4 c1, update_overlap env pg c = Some c1 /\ cloned (aseq a) (default [] d) d cl4 c1 /\ same_meta c c1 /\ user_modify c1 = user_modify c.
Proof.
  intros Hc Hwf Hkept. unfold update_overlap. destruct (x_snapset _ _ _ _ _ Hc) as [sn Hss]. rewrite Hss. cbn [clones clone_overlap snapset_of].
  destruct cl3 as [|k l _] using rev_ind.
  { exists [], c. split; [done|]. destruct Hc. by split_and!. }
  pose proof Hc as []. rewrite bool_decide_false by (rewrite fmap_app; by destruct (c_id <$> l)). rewrite rbegin_snoc. cbn [mbind option_bind].
  apply clones_chain_snoc in x_chain0 as [Hch [Hov Hsh]].
  destruct (inter_spec (modified_ranges c) (c_overlap k)) as (i&->&Hi&Hix); [done..|]. cbn [mbind option_bind].
  unfold is_present_clone, allow_incomplete_clones. rewrite (e_tier _ Henv), (e_complete _ Henv). cbn [negb orb mbind option_bind].
  destruct (subtract_size (m i) 0 (c_overlap k)) as (ov&Hsub&Hovw&Hovx&Hovz); [done|apply Hi|lia|intros x Hx; by apply Hix|].
  unfold subtract. rewrite Hsub. cbn [mbind option_bind].
  destruct (ordered_below 0 l k [] x_ordered0) as [Hlow _].
  set (k' := mk_clone (c_id k) (c_info k) (c_data k) (c_snaps k) ov).
  exists (l ++ [k']). eexists. split; [done|]. split; [|done].
  assert (c_id <$> l ++ [k'] = c_id <$> l ++ [k]) as Hids by by rewrite !fmap_app.
  split; cbn; try done.
  - exists sn. rewrite set_at by (eapply Forall_impl; [exact Hlow|]; cbn; tauto). unfold set_clone_overlap, snapset_of. cbn. by rewrite !fmap_app.
  - revert x_contexts0. by apply Forall_last.
  - revert x_infos0. by apply Forall_last.
  - destruct x_store0 as (s&?&?&?&?&?). exists s. rewrite Hids. split_and!; try done. by apply (Forall_last k).
  - apply clones_chain_snoc. split; [done|]. split; [done|]. intros x Hx. apply Hovx in Hx as [Hx Hn]. destruct (Hsh x Hx) as (?&?&Hb).
    assert (0 <= x) by (destruct Hov as [Hov _]; pose proof (mem_bounds _ _ _ Hov Hx); lia).
    destruct (Hkept x) as [? ->]; [lia| |split_and!; (done || lia)]. intros Hm. apply Hn. by apply Hix.
  - apply ordered_snoc in x_ordered0. by apply ordered_snoc.
  - revert x_ids0. by apply Forall_last.
  - destruct x_sizes0. split; [done|]. by apply (Forall_last k).
  - intros q Hq. specialize (x_stats0 q Hq). rewrite sum_app in *. unfold count. cbn [sum_clones foldr] in *.
    destruct Hi as [_ Hz]. rewrite <- Hz in Hovz. unfold clone_weight in *. destruct q; counters; cbn [c_data c_overlap c_info k'] in *; lia.
  - intros _. by destruct l.
  - intros Hx. specialize (x_gone0 Hx). by destruct l.
  - rewrite <- x_frozen0, !frozen_snoc. done.
Qed.

Lemma update_seq_ok h d cl4 c : cloned (aseq a) h d cl4 c ->
  cloned (Z.max (aseq a) (snapc_seq (snapc env))) h d cl4 (update_seq env c) /\ same_meta c (update_seq env c) /\
  user_modify (update_seq env c) = user_modify c.
Proof.
  intros Hc. unfold update_seq. destruct (x_snapset _ _ _ _ _ Hc) as [sn Hss]. rewrite Hss. cbn [seq snapset_of].
  destruct (Z.ltb_spec (aseq a) (snapc_seq (snapc env))); (split; [|done]); destruct Hc; split; try done.
  - eexists. rewrite Z.max_r by lia. done.
  - rewrite Z.max_l by lia. eauto.
Qed.

Lemma make_writeable_ok d c : core d c ->
  exists cl4 c1, make_writeable env pg c = Some c1 /\ cloned (Z.max (aseq a) (snapc_seq (snapc env))) (default [] d) d cl4 c1 /\
    same_meta c c1.
Proof.
  intros Hc. unfold make_writeable. rewrite (k_obs _ _ _ _ _ _ Hc), (r_soid _ _ _ _ Hrep), Z.eqb_refl.
  destruct (settle_ok d c Hc) as (c1&->&Hg&Hm1). cbn [mbind option_bind].
  destruct (cloning_ok d _ Hg) as (cl3&c2&->&Hc2&Hm2&Hw&Hk&_). cbn [mbind option_bind].
  destruct (update_overlap_ok d cl3 c2 Hc2 Hw Hk) as (cl4&c3&->&Hc3&Hm3&_). cbn [mbind option_bind].
  destruct (update_seq_ok _ d cl4 c3 Hc3) as (Hc4&Hm4&_). exists cl4. eexists. split; [done|]. split; [done|].
  unfold same_meta in *. intuition congruence.
Qed.

(** ** The end of a request *)

Definition same_info (x y : object_info_t) : Prop :=
  soid x = soid y /\ size x = size y /\ flags x = flags y /\ truncate_seq x = truncate_seq y /\ watchers x = watchers y.

Lemma set_head_attr k v c s x : inv (disk pg) (op_t c) s -> acyclic (op_t c) -> s !! NOSNAP = Some x ->
  exists t y, on_op_t (PGTransaction.setattr NOSNAP k v) c = Some (set_op_t t c) /\ inv (disk pg) t (<[NOSNAP := y]> s) /\ acyclic t /\ data y = data x.
Proof.
  intros Hi [rank Hr] Hx. destruct (run_ok (disk pg) (A_setattr NOSNAP k v) (op_t c) s (<[NOSNAP := mk_object (data x) (<[k := v]> (attrs x))]> s))
    as (t&R&It&_); [done|cbn; unfold StoreOps.on_attrs; by rewrite Hx|done|set_solver|].
  cbn [run] in R. unfold on_op_t. rewrite R. exists t, (mk_object (data x) (<[k := v]> (attrs x))). split_and!; [done..| |done].
  exists rank. intros o src Hs. destruct (run_source (A_setattr NOSNAP k v) _ _ _ _ R Hs); [by apply Hr|done].
Qed.

Lemma on_info_twice f g c : on_info f (on_info g c) = on_info (fun x => f (g x)) c.
Proof. done. Qed.
Lemma info_kept c : on_info (fun x => x) (set_user_at_version (user_at_version c) c) = c.
Proof. by destruct c as [? []]. Qed.
(** The user version, and the version, reqid and times, change nothing else. *)
Lemma finish_user c : exists f u, (forall x, same_info (f x) x) /\
  (if user_modify c then
     let v := Z.max (last_user_version env) (user_version (oi (new_obs c))) + 1 in
     let v := if v <? Eversion.version (at_version c) then Eversion.version (at_version c) else v in
     on_info (set_user_version v) (set_user_at_version v c)
   else c) = on_info f (set_user_at_version u c).
Proof.
  destruct (user_modify c).
  - cbv zeta. eexists _, _. split; [|reflexivity]. intros x. unfold same_info. by split_and!.
  - exists (fun x => x), (user_at_version c). split; [intros x; unfold same_info; by split_and!|]. symmetry. apply info_kept.
Qed.
Lemma finish_times c : exists f, (forall x, same_info (f x) x) /\
  (let c := on_info (set_last_reqid (reqid env)) (on_info (set_prior_version (version (oi (obs c)))) (on_info (set_version (at_version c)) c)) in
   if negb (op_mtime env =? 0) then on_info (set_local_mtime (now env)) (on_info (set_mtime (op_mtime env)) c) else c) = on_info f c.
Proof. cbv zeta. rewrite !on_info_twice. destruct (negb (op_mtime env =? 0)); (eexists; split; [|reflexivity]); intros x; unfold same_info; by split_and!. Qed.

Lemma finish_present typ r c s x : obs c = head_of pg -> exists_ (new_obs c) = true -> inv (disk pg) (op_t c) s -> acyclic (op_t c) -> s !! NOSNAP = Some x ->
  exists c1 y e, finish_ctx env typ r c = Some (c1, new_obs c1, mk_ssc (new_snapset c) true) /\ exists_ (new_obs c1) = true /\
    same_info (oi (new_obs c1)) (oi (new_obs c)) /\ inv (disk pg) (op_t c1) (<[NOSNAP := y]> s) /\ acyclic (op_t c1) /\ data y = data x /\
    delta_stats c1 = delta_stats c /\ clone_obc c1 = clone_obc c /\ log c1 = log c ++ [e] /\ le_clean_regions e = Some (clean_regions c).
Proof.
  intros Ho He Hi Ha Hx. unfold finish_ctx. rewrite Ho, (r_soid _ _ _ _ Hrep). destruct (finish_user c) as (f&u&Hf&Ef). cbv zeta in Ef |- *. rewrite Ef. clear Ef.
  change (exists_ (new_obs (on_info f (set_user_at_version u c)))) with (exists_ (new_obs c)). rewrite He.
  destruct (finish_times (on_info f (set_user_at_version u c))) as (g&Hg&Eg). cbv zeta in Eg. rewrite Eg, on_info_twice. clear Eg.
  set (h := fun x => g (f x)). assert (forall x, same_info (h x) x) as Hh.
  { intros z. destruct (Hf z) as (?&?&?&?&?), (Hg (f z)) as (?&?&?&?&?). unfold h. split_and!; congruence. }
  clearbody h. set (c2 := on_info h (set_user_at_version u c)).
  destruct (set_head_attr OI_ATTR (encode_info env (oi (new_obs c2))) c2 s x) as (t1&y1&->&I1&A1&D1); [done..|].
  cbn [mbind option_bind]. rewrite Z.eqb_refl.
  match goal with |- context [on_op_t (PGTransaction.setattr NOSNAP SS_ATTR ?v) ?e] =>
    destruct (set_head_attr SS_ATTR v e (<[NOSNAP := y1]> s) y1) as (t2&y2&->&I2&A2&D2) end; [done|done|apply lookup_insert_eq|].
  rewrite insert_insert_eq in I2. cbn [mbind option_bind].
  replace (exists_ (new_obs (set_op_t t2 (set_op_t t1 c2)))) with true by (symmetry; exact He). cbn [andb negb].
  match goal with |- context [Some (set_log (_ ++ [?e]) ?d, _, _)] => exists (set_log (log d ++ [e]) d), y2, e end.
  split; [|split_and!; try done; [apply Hh|congruence]].
  cbn. by rewrite He.
Qed.

Lemma finish_gone typ r c : obs c = head_of pg -> exists_ (new_obs c) = false ->
  exists c1 e, finish_ctx env typ r c = Some (c1, mk_obs (new_info NOSNAP) false, mk_ssc no_snapset false) /\ op_t c1 = op_t c /\
    delta_stats c1 = delta_stats c /\ clone_obc c1 = clone_obc c /\ log c1 = log c ++ [e] /\ le_clean_regions e = Some (clean_regions c).
Proof.
  intros Ho He. unfold finish_ctx. rewrite Ho, (r_soid _ _ _ _ Hrep).
  destruct (user_modify c); cbn; rewrite He; cbn; rewrite He; (match goal with |- context [Some (?e, _, _)] => exists e end); eexists; (split; [reflexivity|]); by split_and!.
Qed.

Lemma frozen_some cl4 : ordered 0 cl4 -> cl4 <> [] -> frozen_of cl4 <> ∅.
Proof.
  destruct cl4 as [|k l _] using rev_ind; [done|]. rewrite ordered_snoc. intros [_ (_&Hne&_)] _. rewrite frozen_snoc. cbn in Hne.
  destruct (c_snaps k); [done|]. cbn [freeze foldr]. apply insert_non_empty.
Qed.

(** What is left of a context when its request is done. *)
Definition committed (obs : ObjectState) (ssc : SnapSetContext) (s : StoreOps.store Z) (c : OpContext) : PG :=
  mk_pg (<[NOSNAP := obs]> (with_clone c)) ssc s (add_stats (pg_stats pg) (delta_stats c)).
Definition after (w : work) : astate :=
  mk_a (w_cur w) (w_tseq w) (w_watched w) (Z.max (aseq a) (snapc_seq (snapc env)))
    match cur a with
    | Some d => freeze (List.filter (fun s => aseq a <? s) (snapc_snaps (snapc env))) d (frozen a)
    | None => frozen a
    end.
Abbreviation newseq := (Z.max (aseq a) (snapc_seq (snapc env))).

Lemma commit_gone w cl4 c c1 s : cloned newseq (contents w) (w_cur w) cl4 c -> exists_ (new_obs c) = false ->
  inv (disk pg) (op_t c) s -> rep (new_obs c) (s !! NOSNAP) (w_cur w) -> (forall o, o <> NOSNAP -> o ∉ c_id <$> cl4 -> s !! o = None) ->
  delta_stats c1 = delta_stats c ->
  represents max (committed (mk_obs (new_info NOSNAP) false) (mk_ssc no_snapset false) s c1) cl4 (forget (after w)).
Proof.
  intros [] He Hi Hr Ho Hd. specialize (x_gone0 He). subst cl4. destruct (w_cur w) as [dd|] eqn:Ew; cbn in Hr; [destruct Hr; congruence|].
  rewrite He in Hr. destruct Hr as (_&_&Hx).
  unfold forget, after. cbn [cur frozen]. rewrite Ew, <- x_frozen0. rewrite !bool_decide_true by done. cbn [andb].
  assert (head_of (committed (mk_obs (new_info NOSNAP) false) (mk_ssc no_snapset false) s c1) = mk_obs (new_info NOSNAP) false) as Hh.
  { unfold head_of, committed. cbn. by rewrite lookup_insert_eq. }
  split; rewrite ?Hh; try done.
  - exists []. done.
  - intros k Hk. cbn. unfold add_stats. rewrite Hd, x_stats0 by done. unfold weight. by rewrite He.
Qed.

Lemma same_flags x y : flags x = flags y -> is_whiteout x = is_whiteout y /\ is_dirty x = is_dirty y /\ is_omap x = is_omap y /\
  is_cache_pinned x = is_cache_pinned y /\ has_manifest x = has_manifest y.
Proof. intros E. flag_bits. by rewrite E. Qed.

Lemma commit_present w cl4 c c1 s y : cloned newseq (contents w) (w_cur w) cl4 c -> exists_ (new_obs c) = true -> exists_ (new_obs c1) = true ->
  (w_tseq w = truncate_seq (oi (new_obs c)) /\ 0 <= w_tseq w < two32) -> w_watched w = negb (bool_decide (watchers (oi (new_obs c)) = [])) ->
  rep (new_obs c) (s !! NOSNAP) (w_cur w) -> data <$> s !! NOSNAP = Some (data y) ->
  Forall (fun k => data <$> s !! c_id k = Some (c_data k)) cl4 -> (forall o, o <> NOSNAP -> o ∉ c_id <$> cl4 -> s !! o = None) ->
  same_info (oi (new_obs c1)) (oi (new_obs c)) -> delta_stats c1 = delta_stats c -> clone_obc c1 = clone_obc c ->
  represents max (committed (new_obs c1) (mk_ssc (new_snapset c) true) (<[NOSNAP := y]> s) c1) cl4 (forget (after w)).
Proof.
  intros [] He He1 Ht Hwa Hr Hy Hk Ho (I1&I2&I3&I4&I5) Hd Hcl. destruct (same_flags _ _ I3) as (F1&F2&F3&F4&F5).
  assert (Forall (fun k => c_id k <> NOSNAP) cl4) as Hids by (eapply Forall_impl; [exact x_ids0|]; cbn; intros; by apply below_head).
  assert (forget (after w) = after w) as ->.
  { unfold forget. destruct (w_cur w) eqn:Ew; cbn [after cur]; rewrite Ew; [done|]. rewrite (bool_decide_false (frozen _ = ∅)); [by rewrite andb_false_r|].
    cbn. rewrite <- x_frozen0. apply frozen_some; [done|]. apply x_whiteout0. cbn in Hr. destruct Hr as (_&->&_). done. }
  assert (head_of (committed (new_obs c1) (mk_ssc (new_snapset c) true) (<[NOSNAP := y]> s) c1) = new_obs c1) as Hh.
  { unfold head_of, committed. cbn. by rewrite lookup_insert_eq. }
  split; rewrite ?Hh; cbn [after cur tseq watched aseq frozen committed contexts ssc disk pg_stats ssc_exists snapset]; try done; try congruence.
  - rewrite lookup_insert_eq. unfold rep in *. destruct (w_cur w); cbn [fmap option_fmap option_map] in *.
    + destruct Hr as (_&?&?&?). split_and!; congruence.
    + rewrite He in Hr. destruct Hr as (?&?&?). rewrite He1. split_and!; congruence.
  - destruct x_plain0. split; congruence.
  - intros E. apply x_whiteout0. congruence.
  - by rewrite I5.
  - destruct (r_seq _ _ _ _ Hrep) as [? _]. destruct valid_snaps as (_&_&?). split; [lia|done].
  - rewrite Forall_forall in *. intros k Hin. destruct (x_infos0 k Hin) as (?&?&?&?). specialize (Hids k Hin). split; cbn; try done.
    + rewrite lookup_insert_ne by done. unfold with_clone. rewrite Hcl. by apply x_contexts0.
    + rewrite lookup_insert_ne by done. by apply Hk.
  - intros o Hne Hin. rewrite lookup_insert_ne by done. by apply Ho.
  - intros k Hk'. unfold add_stats. rewrite Hd, x_stats0 by done. f_equal. unfold weight. rewrite He, He1. destruct k; congruence.
Qed.

Lemma commit_ok typ r w cl4 c : cloned newseq (contents w) (w_cur w) cl4 c ->
  (w_tseq w = truncate_seq (oi (new_obs c)) /\ 0 <= w_tseq w < two32) -> w_watched w = negb (bool_decide (watchers (oi (new_obs c)) = [])) ->
  exists c1 obs ssc s e, finish_ctx env typ r c = Some (c1, obs, ssc) /\ apply_transaction env (op_t c1) (disk pg) = Some s /\
    represents max (committed obs ssc s c1) cl4 (forget (after w)) /\ log c1 = log c ++ [e] /\ le_clean_regions e = Some (clean_regions c).
Proof.
  intros Hc Ht Hw. pose proof Hc as []. destruct x_store0 as (s&Hi&Ha&Hr&Hk&Ho). destruct (exists_ (new_obs c)) eqn:He.
  - assert (exists x, s !! NOSNAP = Some x) as [x Hx].
    { unfold rep in Hr. destruct (w_cur w); [destruct Hr as (_&_&_&Hr)|destruct Hr as (_&_&Hr); rewrite He in Hr]; destruct (s !! NOSNAP); by eauto. }
    destruct (finish_present typ r c s x) as (c1&y&e&Hf&He1&Hn&Hi1&Ha1&Hy&Hd&Hcl&Hl&Hre); [done..|].
    exists c1, (new_obs c1), (mk_ssc (new_snapset c) true), (<[NOSNAP := y]> s), e. split_and!; [done|by apply apply_ok| |done..].
    eapply (commit_present w cl4 c); try done. rewrite Hx. cbn. by rewrite Hy.
  - destruct (finish_gone typ r c) as (c1&e&Hf&Ht1&Hd&_&Hl&Hre); [done..|]. exists c1. eexists _, _, s, e. split; [done|].
    rewrite Ht1. split_and!; [by apply apply_ok| |done..]. by eapply commit_gone.
Qed.
End Commit.
End CommitFacts.

(** ** A request *)

Module RequestFacts.
Import interval_set IntervalFacts CleanRegions CleanRegionsFacts WeakRegions HeadTx ObjectData DataFacts ObjectInfo PrimaryLogPG SnapSpec.
Import CloneFacts FindFacts CoreFacts VectorFacts CommitFacts.

Section Request.
Context (env : Env) (pg : PG) (cl : list clone) (a : astate).
Context (Henv : plain_pool env).
Context (Hrep : represents (osd_max_object_size env) pg cl a).
Abbreviation max := (osd_max_object_size env).

Lemma gone_no_clones : exists_ (head_of pg) = false -> cl = [] /\ cur a = None.
Proof.
  intros He. destruct (r_absent _ _ _ _ Hrep He) as [_ Hn]. destruct (r_snapset _ _ _ _ Hrep) as [sn Hs]. split.
  - rewrite Hn in Hs. by destruct cl.
  - pose proof (r_head _ _ _ _ Hrep) as Hr. destruct (cur a); [|done]. destruct Hr. congruence.
Qed.

Lemma start_request_ok v : let w := mk_w (cur a) (tseq a) (watched a) false in
  exists c, start env pg v = Some c /\ core env pg cl a (w_cur w) c /\ meta w c /\ starting a w c.
Proof.
  cbn zeta. unfold start. rewrite (get_context env pg Henv). cbn [mbind option_bind].
  assert (match contexts pg !! NOSNAP with Some obs => Some obs | None => Some (mk_obs (new_info NOSNAP) false) end = Some (head_of pg)) as ->.
  { unfold head_of. by destruct (contexts pg !! NOSNAP). }
  destruct (all_clean_weak max) as (r&->&Hr); [destruct (e_max _ Henv); lia|]. cbn [mbind option_bind]. eexists. split; [done|].
  split; [|split]; [split|split|]; cbn; try done.
  - apply Hrep.
  - apply Hrep.
  - exists (disk pg !! NOSNAP). split; [apply tx_start|apply Hrep].
  - apply Hrep.
  - split; [apply wf_clear|]. intros x Hx _. unfold old in Hx. split; [apply Hx|done].
  - intros k _. unfold no_stats. destruct (bool_decide (k = num_objects_dirty \/ k = num_objects_omap)); lia.
  - intros Hw. left. by apply (r_whiteout _ _ _ _ Hrep).
  - intros He [Hc|[Hc _]]; apply gone_no_clones in He as [? ?]; done.
  - apply Hrep.
  - apply Hrep.
Qed.

(** A request does to the contents and snapshots what its specification says, and
    its log entry marks as clean only bytes that did not change. *)
Lemma execute_ok v ops : ops_ok env ops ->
  exists l pg' cl', execute env pg v ops = Some ((spec_execute env a ops).1, l, pg') /\ represents max pg' cl' (spec_execute env a ops).2 /\
    forall e r x, last l = Some e -> le_clean_regions e = Some r -> clean r x ->
      byte (default [] (cur (spec_execute env a ops).2)) x = byte (default [] (cur a)) x.
Proof.
  intros (Hne&Hops&Htl). unfold execute, prepare_transaction, spec_execute. destruct (start_request_ok v) as (c&->&Hc&Ht&Hst). cbn [mbind option_bind].
  rewrite (bool_decide_false (ops = [])) by done. cbn [negb]. destruct (is_valid (snapc env)) eqn:Hv; cbn [negb]; [|by exists [], pg, cl].
  destruct (do_osd_ops_ok env pg cl a Henv Hrep ops _ c Hops Htl Hc Ht Hst) as (r&w&c1&->&->&Hc1&Ht1). cbn [mbind option_bind].
  destruct (r <? 0) eqn:Er; cbn [orb]; [by eexists [], pg, cl|]. destruct Ht1 as [T1 T2 T3].
  destruct (PGTransaction.empty (op_t c1) && negb (modify c1)); rewrite T3; cbn [negb]; [by exists [], pg, cl|].
  rewrite (e_full _ Henv), andb_false_r. cbn [andb]. rewrite (k_obs _ _ _ _ _ _ Hc1), (r_soid _ _ _ _ Hrep), Z.eqb_refl.
  destruct (make_writeable_ok env pg cl a Henv Hrep Hv _ c1 Hc1) as (cl4&c2&->&Hx&M1&M2&_). cbn [mbind option_bind].
  match goal with |- context [finish_ctx env ?t r c2] => destruct (commit_ok env pg cl a Henv Hrep Hv t r w cl4 c2)
    as (c3&obs&ssc&s&e&->&Happ&Hr&Hl&Hle) end; [done|by rewrite M1|by rewrite M2|]. cbn [mbind option_bind]. rewrite Happ. cbn [mbind option_bind].
  eexists _, _, cl4. split; [done|]. split; [exact Hr|]. intros e' r' x. rewrite Hl, last_snoc. intros [= <-]. rewrite Hle. intros [= <-] Hcl.
  fold (old a). rewrite <- (x_clean _ _ _ _ _ _ _ _ Hx x Hcl). cbn. unfold spec_commit, forget. cbn [cur]. destruct (_ && _) eqn:E; [|done].
  apply andb_true_iff in E as [E _]. apply bool_decide_eq_true in E. cbn in E. by rewrite E.
Qed.
End Request.
End RequestFacts.

(** ** What the snapset says of the clones *)

Module SnapsetFacts.
Import interval_set IntervalFacts ObjectData ObjectInfo PrimaryLogPG SnapSpec CloneFacts OverlapFacts.

Definition sum (l : list Z) : Z := foldr Z.add 0 l.

Section Snapset.
Context (max : Z) (pg : PG) (cl : list clone) (a : astate).
Context (Hmax : max <= two32).
Context (Hrep : represents max pg cl a).

Lemma find_clone {V} (f : clone -> V) c : c ∈ cl -> SnapMap.find (c_id c) ((fun c => (c_id c, f c)) <$> cl) = Some (f c).
Proof.
  intros Hc. apply list_elem_of_split in Hc as (cl1&cl2&Hcl). pose proof (r_ordered _ _ _ _ Hrep) as Ho. rewrite Hcl in *.
  destruct (ordered_below _ _ _ _ Ho) as [Hb _]. apply find_at. eapply Forall_impl; [exact Hb|]. cbn. tauto.
Qed.
Lemma chain_in c head : chain cl head -> c ∈ cl -> exists d, shares (c_overlap c) (c_data c) d.
Proof.
  clear. intros Hch Hc. revert Hch. induction Hc as [c cl|c d cl Hc IH]; cbn [chain]; intros [Hs Hch]; eauto.
Qed.
(** [get_clone_bytes] of a clone never fails its assertion. *)
Lemma clone_bytes c : c ∈ cl -> get_clone_bytes (c_id c) (snapset (ssc pg)) = Some (clone_weight num_bytes c).
Proof.
  intros Hc. destruct (r_snapset _ _ _ _ Hrep) as [sn ->]. unfold get_clone_bytes. cbn [clone_size clone_overlap snapset_of].
  rewrite !find_clone by done. cbn [mbind option_bind]. destruct (chain_in c _ (r_chain _ _ _ _ Hrep) Hc) as [d Hd].
  destruct (r_sizes _ _ _ _ Hrep) as [_ Hs]. rewrite Forall_forall in Hs. specialize (Hs c Hc). cbn in Hs.
  pose proof (shares_size (c_overlap c) (c_data c) d ltac:(lia) Hd). by rewrite (proj2 (Z.leb_le _ _)) by lia.
Qed.
Lemma all_clone_bytes : mapM (fun k => get_clone_bytes k (snapset (ssc pg))) (clones (snapset (ssc pg))) = Some (clone_weight num_bytes <$> cl).
Proof.
  destruct (r_snapset _ _ _ _ Hrep) as [sn Hss]. assert (clones (snapset (ssc pg)) = c_id <$> cl) as -> by by rewrite Hss.
  assert (forall l, (forall c, c ∈ l -> c ∈ cl) -> mapM (fun k => get_clone_bytes k (snapset (ssc pg))) (c_id <$> l) = Some (clone_weight num_bytes <$> l)) as Hl.
  { induction l as [|c l IH]; intros Hin; [done|]. cbn. rewrite clone_bytes by (apply Hin; set_solver). cbn. rewrite IH by set_solver. done. }
  by apply Hl.
Qed.
Lemma sum_weight k : sum_clones k cl = sum (clone_weight k <$> cl).
Proof. unfold sum_clones, sum. clear. induction cl as [|c l IH]; cbn; [done|by rewrite IH]. Qed.
Lemma sum_same k n : (forall c, c ∈ cl -> clone_weight k c = n) -> sum_clones k cl = n * Z.of_nat (List.length cl).
Proof.
  unfold sum_clones. clear. induction cl as [|c l IH]; intros Hc; [cbn; lia|]. cbn [foldr List.length]. rewrite IH by set_solver. rewrite (Hc c) by set_solver. lia.
Qed.

(** The next newer version of a clone. *)
Lemma chain_next i c head : chain cl head -> cl !! i = Some c ->
  shares (c_overlap c) (c_data c) match cl !! S i with Some d => c_data d | None => head end.
Proof.
  clear. revert i. induction cl as [|d l IH]; intros i Hch Hi; [done|]. cbn [chain] in Hch. destruct Hch as [Hs Hch]. destruct i as [|i]; cbn in *.
  - injection Hi as ->. destruct l; cbn; done.
  - by apply IH.
Qed.
Lemma head_bytes : default [] (data <$> disk pg !! NOSNAP) = default [] (cur a).
Proof.
  pose proof (r_head _ _ _ _ Hrep) as Hr. destruct (cur a); cbn in Hr; [destruct Hr as (_&_&_&->)|destruct Hr as (_&_&->)]; [done|].
  by destruct (exists_ _).
Qed.
End Snapset.
End SnapsetFacts.
