(* ===== verification/TrimObject.v ===== *)
(** Trimming: the removal of a snapshot from a clone, and of the clone when no
    snapshot is left for it, [trim_object] of src/ceph-15.2.17/src/osd/PrimaryLogPG.cc. *)
From stdpp Require Import strings.
From S2P Require Import Prelude IntervalSet CleanRegions PgMissing IntervalMap PgTransaction ObjectInfo PrimaryLogPG.
#[local] Open Scope Z_scope.

Module TrimObject.
Import interval_set ObjectData ObjectInfo PrimaryLogPG.

Abbreviation ENOLCK := 37.

(** [std::set] of snapids, in increasing order. *)
Fixpoint insert_snap (s : Z) (l : list Z) : list Z :=
  match l with
  | [] => [s]
  | x :: l' => if s <? x then s :: l else if s =? x then l else x :: insert_snap s l'
  end.
Definition snap_set (l : list Z) : list Z := foldl (fun acc s => insert_snap s acc) [] l.

(** The context of a trim: the clone, the head, their snapset, and the changes. *)
Record TrimContext := mk_trim {
  clone_obs : ObjectState;
  head_obs : ObjectState;
  trim_snapset : SnapSet;
  trim_stats : counter -> Z;
  trim_t : op_map Z;
  trim_version : eversion_t;
  trim_log : list log_entry
}.
Definition next (v : eversion_t) : eversion_t := Eversion.ev (Eversion.epoch v) (Eversion.version v + 1).

Section Trim.
Context (env : Env) (pg : PG).

(** An entry of the log of a trim. *)
Definition trim_entry (k : log_op) (o : Z) (v prior : eversion_t) : log_entry := mk_entry k o v prior 0 0 (now env) 0 [] None.

(** [std::find] in the clones: [None] at the end, else the clone before. *)
Fixpoint clone_before (coid : Z) (l : list Z) (prev : option Z) : option (option Z) :=
  match l with
  | [] => None
  | k :: l => if k =? coid then Some prev else clone_before coid l (Some k)
  end.
Fixpoint erase_clone (coid : Z) (l : list Z) : list Z :=
  match l with
  | [] => []
  | k :: l => if k =? coid then l else k :: erase_clone coid l
  end.

(** The next older clone shares with the version after the one that goes what each
    shared with its next. *)
Definition merge_overlap (coid prev : Z) (ss : SnapSet) (st : counter -> Z) : option (SnapSet * (counter -> Z)) :=
  adjust ← is_present_clone env pg prev;
  st ← (if adjust : bool then b ← get_clone_bytes prev ss; Some (count num_bytes (- b) st) else Some st);
  ov ← intersection_of (default clear (SnapMap.find prev (clone_overlap ss))) (default clear (SnapMap.find coid (clone_overlap ss)));
  let ss := set_clone_overlap (SnapMap.set prev ov (clone_overlap ss)) ss in
  st ← (if adjust : bool then b ← get_clone_bytes prev ss; Some (count num_bytes b st) else Some st);
  Some (ss, st).

(** The clone goes. *)
Definition remove_clone (coid : Z) (prev : option Z) (old_snaps new_snaps : list Z) (x : TrimContext) : option TrimContext :=
  let coi := oi (clone_obs x) in
  b ← get_clone_bytes coid (trim_snapset x);
  let st := count num_bytes (- b) (trim_stats x) in
  '(ss, st) ← (match prev with Some n => merge_overlap coid n (trim_snapset x) st | None => Some (trim_snapset x, st) end : option (SnapSet * (counter -> Z)));
  let st := count num_objects (-1) st in
  let st := count_if (is_dirty coi) num_objects_dirty (-1) st in
  let st := count_if (is_omap coi) num_objects_omap (-1) st in
  let st := count_if (is_whiteout coi) num_whiteouts (-1) st in
  let st := count num_object_clones (-1) st in
  let st := count_if (is_cache_pinned coi) num_objects_pinned (-1) st in
  let st := count_if (has_manifest coi) num_objects_manifest (-1) st in
  let ss := set_clones (erase_clone coid (clones ss)) ss in
  let ss := set_clone_overlap (SnapMap.erase coid (clone_overlap ss)) ss in
  let ss := set_clone_size (SnapMap.erase coid (clone_size ss)) ss in
  let ss := set_clone_snaps (SnapMap.erase coid (clone_snaps ss)) ss in
  let v := trim_version x in
  t ← PGTransaction.remove coid (trim_t x);
  t ← PGTransaction.update_snaps coid old_snaps new_snaps t;
  Some (mk_trim (mk_obs (new_info coid) false) (head_obs x) ss st t (next v) (trim_log x ++ [trim_entry DELETE_ coid v (version coi)])).

(** The clone stays, for fewer snapshots. *)
Definition shrink_clone (coid : Z) (old_snaps new_snaps : list Z) (x : TrimContext) : option TrimContext :=
  let ss := set_clone_snaps (SnapMap.set coid (rev new_snaps) (clone_snaps (trim_snapset x))) (trim_snapset x) in
  let v := trim_version x in
  let coi := set_version v (set_prior_version (version (oi (clone_obs x))) (oi (clone_obs x))) in
  t ← PGTransaction.setattr coid OI_ATTR (encode_info env coi) (trim_t x);
  t ← PGTransaction.update_snaps coid old_snaps new_snaps t;
  Some (mk_trim (mk_obs coi (exists_ (clone_obs x))) (head_obs x) ss (trim_stats x) t (next v)
          (trim_log x ++ [trim_entry MODIFY coid v (prior_version coi)])).

(** The head: a whiteout without clones goes too, else its snapset is written.  The
    manifest that is counted is that of the clone. *)
Definition finish_head (x : TrimContext) : option TrimContext :=
  let h := oi (head_obs x) in
  let v := trim_version x in
  if bool_decide (clones (trim_snapset x) = []) && (is_whiteout h && negb (is_dirty h && pool_is_tier env) && negb (is_cache_pinned h)) then
    let st := count num_objects (-1) (trim_stats x) in
    let st := count_if (is_dirty h) num_objects_dirty (-1) st in
    let st := count_if (is_omap h) num_objects_omap (-1) st in
    let st := count_if (is_whiteout h) num_whiteouts (-1) st in
    let st := count_if (is_cache_pinned h) num_objects_pinned (-1) st in
    let st := count_if (has_manifest (oi (clone_obs x))) num_objects_manifest (-1) st in
    t ← PGTransaction.remove NOSNAP (trim_t x);
    Some (mk_trim (clone_obs x) (mk_obs (new_info NOSNAP) false) (trim_snapset x) st t v
            (trim_log x ++ [trim_entry DELETE_ NOSNAP v (version h)]))
  else
    let ss := if octopus env then set_snaps [] (trim_snapset x) else filter_removed (is_removed_snap env) (trim_snapset x) in
    let h' := set_version v (set_prior_version (version h) h) in
    t ← PGTransaction.setattr NOSNAP OI_ATTR (encode_info env h') (trim_t x);
    t ← PGTransaction.setattr NOSNAP SS_ATTR (encode_snapset env ss) t;
    Some (mk_trim (clone_obs x) (mk_obs h' (exists_ (head_obs x))) ss (trim_stats x) t v
            (trim_log x ++ [trim_entry MODIFY NOSNAP v (version h)])).

(** [lock_clone] and [lock_head] say whether the write locks are to be had. *)
Definition trim_object (lock_clone lock_head : bool) (at_version : eversion_t) (coid snap_to_trim : Z) : option (Z * option TrimContext) :=
  obc ← get_object_context env pg coid false;
  match obc with
  | None => Some (- ENOENT, None)
  | Some obs =>
    if negb (ssc_exists (ssc pg)) then Some (- ENOENT, None)
    else
      head ← get_object_context env pg NOSNAP false;
      match head with
      | None => Some (- ENOENT, None)
      | Some head =>
        let ss := snapset (ssc pg) in
        match SnapMap.find coid (clone_snaps ss) with
        | None => Some (- ENOENT, None)
        | Some l =>
          let old_snaps := snap_set l in
          if bool_decide (old_snaps = []) then Some (- ENOENT, None)
          else if seq ss =? 0 then Some (- ENOENT, None)
          else
            let new_snaps := List.filter (fun s => negb (in_removed_snaps_queue env s) && negb (s =? snap_to_trim)) old_snaps in
            let p := clone_before coid (clones ss) None in
            if bool_decide (new_snaps = []) && bool_decide (p = None) then Some (- ENOENT, None)
            else if negb lock_clone || negb lock_head then Some (- ENOLCK, None)
            else
              let x := mk_trim obs head ss no_stats ∅ at_version [] in
              x ← (if bool_decide (new_snaps = []) then prev ← p; remove_clone coid prev old_snaps new_snaps x
                   else shrink_clone coid old_snaps new_snaps x);
              x ← finish_head x;
              Some (0, Some x)
        end
      end
  end.

(** A trim that is submitted: the contexts and the snapset are those the trim
    changed in place. *)
Definition trim (lock_clone lock_head : bool) (at_version : eversion_t) (coid snap_to_trim : Z) : option (Z * list log_entry * PG) :=
  '(r, x) ← trim_object lock_clone lock_head at_version coid snap_to_trim;
  match x with
  | None => Some (r, [], pg)
  | Some x =>
    disk ← apply_transaction env (trim_t x) (disk pg);
    Some (r, trim_log x, mk_pg (<[NOSNAP := head_obs x]> (<[coid := clone_obs x]> (contexts pg)))
      (mk_ssc (trim_snapset x) (ssc_exists (ssc pg))) disk (add_stats (pg_stats pg) (trim_stats x)))
  end.
End Trim.
End TrimObject.
