(* ===== verification/TrimFacts.v ===== *)
(** Facts on trimming: what the removal of snapshots does to the clones of an object. *)
From stdpp Require Import strings.
From S2P Require Import Prelude IntervalSet CleanRegions CleanMarks PgMissing IntervalMap PgTransaction PgTransactionFacts.
From S2P Require Import ObjectInfo PrimaryLogPG SnapSpec SnapFacts SnapOps SnapVector SnapCommit TrimObject.
#[local] Open Scope Z_scope.

(** ** Transactions that update snapshots

    The object store sees nothing of [update_snaps], which is for the snap mapper. *)
Module UpdateSnaps.
Import PGTransaction ObjectInfo PrimaryLogPG.

Definition with_snaps (o : Z) (u : list Z * list Z) (t : op_map Z) : op_map Z := <[o := PGTransaction.set_snaps u (at_ t o)]> t.

Section With.
Context (o : Z) (u : list Z * list Z) (t : op_map Z) (Hin : is_Some (t !! o)).

Lemma with_dom x : is_Some (with_snaps o u t !! x) <-> is_Some (t !! x).
Proof. unfold with_snaps. destruct (decide (x = o)) as [->|]; [rewrite lookup_insert_eq|rewrite lookup_insert_ne by done]; naive_solver. Qed.
Lemma with_none x : with_snaps o u t !! x = None <-> t !! x = None.
Proof. rewrite !eq_None_not_Some. by rewrite with_dom. Qed.
Lemma with_at {B} (f : ObjectOperation Z -> B) x : (forall op, f (PGTransaction.set_snaps u op) = f op) -> f (at_ (with_snaps o u t) x) = f (at_ t x).
Proof. intros Hf. unfold with_snaps. rewrite TransFacts.at_insert. case_decide; [subst; apply Hf|done]. Qed.
Lemma with_source x : has_source (at_ (with_snaps o u t) x) = has_source (at_ t x).
Proof. by apply with_at. Qed.

Lemma with_graph l g s : graph_of (with_snaps o u t) l g s = graph_of t l g s.
Proof.
  revert g s. induction l as [|x l IH]; intros g s; cbn [graph_of]; [done|]. rewrite with_source. destruct (has_source (at_ t x)); [|apply IH].
  rewrite (bool_decide_ext (with_snaps o u t !! z = None) (t !! z = None)) by apply with_none. apply IH.
Qed.
Lemma with_traverse n g s r : traverse n (with_snaps o u t) g s r = traverse n t g s r.
Proof.
  revert g s r. induction n as [|n IH]; intros g s r; destruct s as [|x s]; cbn [traverse]; try done. destruct (g !! x).
  - destruct (negb _); [|done]. apply IH.
  - rewrite (bool_decide_ext (is_Some (with_snaps o u t !! x)) (is_Some (t !! x))) by apply with_dom. apply IH.
Qed.
Lemma with_apply env s : apply_transaction env (with_snaps o u t) s = apply_transaction env t s.
Proof.
  unfold apply_transaction, generate_transaction, safe_create_traverse, objects_of.
  assert (dom (with_snaps o u t) = dom t) as -> by (apply set_eq; intros x; rewrite !elem_of_dom; apply with_dom).
  rewrite with_graph. destruct (graph_of t _ ∅ []) as [g r]. rewrite with_traverse. destruct (traverse _ t g r []) as [l|]; [|done]. cbn [mbind option_bind].
  f_equal. induction l as [|x l IH]; cbn [flat_map]; [done|]. rewrite IH. f_equal. by apply with_at.
Qed.

(** Calls on another object. *)
Lemma with_other x : x <> o -> at_ (with_snaps o u t) x = at_ t x.
Proof. intros. unfold with_snaps. by rewrite TransFacts.at_insert, decide_False. Qed.
Lemma with_insert x op : x <> o -> <[x := op]> (with_snaps o u t) = with_snaps o u (<[x := op]> t).
Proof. intros. unfold with_snaps. by rewrite TransFacts.at_insert, decide_False, insert_insert_ne by done. Qed.
Lemma with_setattr x k v : x <> o -> setattr x k v (with_snaps o u t) = (t' ← setattr x k v t; Some (with_snaps o u t')).
Proof.
  intros. unfold setattr, get_object_op_for_modify. rewrite with_other by done. destruct (negb _); [|done]. cbn [mbind option_bind]. by rewrite with_insert.
Qed.
Lemma with_remove x : x <> o -> at_ t x = fresh -> remove x (with_snaps o u t) = Some (with_snaps o u (<[x := deletion]> t)) /\ remove x t = Some (<[x := deletion]> t).
Proof.
  intros ? Ht. unfold remove, get_object_op_for_modify. rewrite with_other, Ht by done. cbn [mbind option_bind negb is_delete init_none init_type fresh delete_first andb is_fresh_object updated_snaps].
  rewrite bool_decide_true by done. by rewrite with_insert.
Qed.
End With.
End UpdateSnaps.

Module TrimSets.
Import ObjectData ObjectInfo PrimaryLogPG SnapSpec CloneFacts TrimObject.

(** *** Sets of snapshots *)
Lemma snap_set_from l acc : StronglySorted Z.gt l -> match acc with [] => True | x :: _ => Forall (fun s => s < x) l end ->
  foldl (fun acc s => insert_snap s acc) acc l = rev l ++ acc.
Proof.
  intros Hl. revert acc. induction Hl as [|s l Hl IH Hs]; intros acc Ha; cbn [foldl rev]; [done|].
  assert (insert_snap s acc = s :: acc) as ->.
  { destruct acc as [|x acc]; [done|]. apply Forall_cons in Ha as [Hx _]. cbn. by rewrite (proj2 (Z.ltb_lt s x)). }
  rewrite IH, <- app_assoc; [done|]. eapply Forall_impl; [exact Hs|]. cbn. lia.
Qed.
Lemma snap_set_rev l : StronglySorted Z.gt l -> snap_set l = rev l.
Proof. intros Hl. unfold snap_set. rewrite snap_set_from by done. apply app_nil_r. Qed.

(** *** Positions of clones *)
Lemma clone_before_at p cl1 k cl2 : Forall (fun d => c_id d < c_id k) cl1 ->
  clone_before (c_id k) (c_id <$> cl1 ++ k :: cl2) p = Some (match last cl1 with Some d => Some (c_id d) | None => p end).
Proof.
  intros H1. revert p. induction H1 as [|d cl1 Hd H1 IH]; intros p; cbn [app fmap list_fmap clone_before]; [by rewrite Z.eqb_refl|].
  rewrite (proj2 (Z.eqb_neq (c_id d) (c_id k))) by lia. rewrite IH. destruct cl1 as [|e cl1]; [done|]. cbn [last].
  by destruct (last (e :: cl1)) eqn:E; [|by apply last_None in E].
Qed.
Lemma erase_clone_at cl1 k cl2 : Forall (fun d => c_id d < c_id k) cl1 -> erase_clone (c_id k) (c_id <$> cl1 ++ k :: cl2) = c_id <$> cl1 ++ cl2.
Proof.
  intros H1. induction H1 as [|d cl1 Hd H1 IH]; cbn [app fmap list_fmap erase_clone]; [by rewrite Z.eqb_refl|].
  rewrite (proj2 (Z.eqb_neq (c_id d) (c_id k))) by lia. by rewrite IH.
Qed.

(** *** What is frozen *)
Definition drop (l : list Z) (m : gmap Z bytes) : gmap Z bytes := foldr delete m l.
Lemma drop_lookup l m s : drop l m !! s = if bool_decide (s ∈ l) then None else m !! s.
Proof.
  unfold drop. induction l as [|x l IH]; cbn [foldr]; [done|]. destruct (decide (x = s)) as [->|Hne].
  - rewrite lookup_delete_eq, bool_decide_true by set_solver. done.
  - rewrite lookup_delete_ne, IH by done. by rewrite (bool_decide_ext (s ∈ x :: l) (s ∈ l)) by set_solver.
Qed.
Lemma apart l1 c l2 d s : ordered 0 (l1 ++ c :: l2) -> d ∈ l2 -> s ∈ c_snaps c -> s ∉ c_snaps d.
Proof.
  intros Ho Hd Hc Hs. destruct (ordered_below 0 _ _ _ Ho) as [_ Ha]. apply ordered_app in Ho as [_ Ho]. cbn in Ho. destruct Ho as (_&_&_&Hb&_).
  rewrite Forall_forall in Ha. rewrite Forall_forall in Hb. destruct (Ha d Hd) as [_ Hx]. rewrite Forall_forall in Hx. specialize (Hx s Hs). specialize (Hb s Hc). cbn in *. lia.
Qed.
Lemma frozen_in cl s d : ordered 0 cl -> frozen_of cl !! s = Some d <-> exists c, c ∈ cl /\ s ∈ c_snaps c /\ c_data c = d.
Proof.
  induction cl as [|k cl IH] using rev_ind; intros Ho; [cbn; rewrite lookup_empty; set_solver|].
  rewrite OverlapFacts.frozen_snoc, freeze_lookup. pose proof (proj1 (OverlapFacts.ordered_snoc 0 cl k) Ho) as [Ho1 _]. case_bool_decide as Hs.
  - split; [intros [= <-]; exists k; set_solver|]. intros (c&Hc&Hsc&<-). apply elem_of_app in Hc as [Hc|Hc]; [|set_solver]. exfalso.
    apply list_elem_of_split in Hc as (l1&l2&->). rewrite <- app_assoc in Ho. cbn [app] in Ho. apply (apart l1 c _ k s Ho); set_solver.
  - rewrite IH by done. set_solver.
Qed.
Lemma frozen_unique cl1 k cl2 c s : ordered 0 (cl1 ++ k :: cl2) -> c ∈ cl1 ++ cl2 -> s ∈ c_snaps c -> s ∉ c_snaps k.
Proof.
  intros Ho Hc Hs Hk. apply elem_of_app in Hc as [Hc|Hc].
  - apply list_elem_of_split in Hc as (l1&l2&->). rewrite <- app_assoc in Ho. cbn [app] in Ho. apply (apart l1 c _ k s Ho); set_solver.
  - by apply (apart cl1 k cl2 c s).
Qed.
End TrimSets.

Module TrimFacts.
Import interval_set IntervalFacts TransFacts ObjectData DataFacts ObjectInfo PrimaryLogPG SnapSpec CloneFacts OverlapFacts CommitFacts.
Import TrimObject UpdateSnaps TrimSets.

(** An object that was removed is no longer in memory. *)
Definition reload (pg : PG) : PG :=
  if exists_ (head_of pg) then pg
  else mk_pg (delete NOSNAP (contexts pg)) (mk_ssc no_snapset false) (disk pg) (pg_stats pg).

Section Trim.
Context (env : Env) (pg : PG) (cl : list clone) (a : astate).
Context (Henv : plain_pool env) (Htier : pool_is_tier env = false).
Context (Hrep : represents (osd_max_object_size env) pg cl a).
Abbreviation max := (osd_max_object_size env).
Context (cl1 : list clone) (k : clone) (cl2 : list clone) (Hcl : cl = cl1 ++ k :: cl2).
Context (snap : Z).
Abbreviation head := (default [] (cur a)).

(** The snapshots that go, and those that stay. *)
Definition goes (s : Z) : bool := in_removed_snaps_queue env s || (s =? snap).
Definition gone : list Z := List.filter goes (c_snaps k).
Definition kept_snaps : list Z := List.filter (fun s => negb (in_removed_snaps_queue env s) && negb (s =? snap)) (c_snaps k).
Definition spec_trim : astate := forget (mk_a (cur a) (tseq a) (watched a) (aseq a) (drop gone (frozen a))).

Lemma in_kept s : s ∈ kept_snaps <-> s ∈ c_snaps k /\ s ∉ gone.
Proof.
  unfold kept_snaps, gone. rewrite !in_filter. unfold goes. rewrite <- negb_orb. destruct (_ || _); cbn; intuition congruence.
Qed.
Lemma trim_ordered : ordered 0 (cl1 ++ k :: cl2).
Proof. rewrite <- Hcl. apply Hrep. Qed.
Lemma trim_below : Forall (fun d => c_id d < c_id k) cl1 /\ Forall (fun d => c_id k < c_id d) cl2.
Proof. destruct (ordered_below 0 _ _ _ trim_ordered) as [H1 H2]. split; (eapply Forall_impl; [eassumption|]; cbn; tauto). Qed.
Lemma trim_in : k ∈ cl.
Proof. rewrite Hcl. set_solver. Qed.
Lemma trim_ids : Forall (fun d => c_id d <= aseq a /\ c_id d <> NOSNAP) cl.
Proof.
  destruct (r_seq _ _ _ _ Hrep) as [[_ ?] Hf]. eapply Forall_impl; [exact Hf|]. cbn. intros d Hd. split; [done|].
  unfold CEPH_MAXSNAP, Hobject.Hobject.CEPH_NOSNAP in *. lia.
Qed.

(** After the clone was changed or removed, with clones [cl']. *)
Record trimmed (cl' : list clone) (x : TrimContext) : Prop := {
  y_head : head_obs x = head_of pg;
  y_manifest : has_manifest (oi (clone_obs x)) = false;
  y_snapset : exists sn, trim_snapset x = snapset_of (aseq a) sn cl';
  y_clones : Forall (fun c => clone_info_ok c /\ (<[c_id k := clone_obs x]> (contexts pg)) !! c_id c = Some (mk_obs (c_info c) true)) cl';
  y_store : exists t u s, trim_t x = with_snaps (c_id k) u t /\ is_Some (t !! c_id k) /\ inv (disk pg) t s /\ acyclic t /\
    t !! NOSNAP = None /\ s !! NOSNAP = disk pg !! NOSNAP /\ Forall (fun c => data <$> s !! c_id c = Some (c_data c)) cl' /\
    (forall o, o <> NOSNAP -> o ∉ c_id <$> cl' -> s !! o = None);
  y_chain : chain cl' head;
  y_ordered : ordered 0 cl';
  y_ids : Forall (fun c => c_id c <= aseq a /\ zlen (c_data c) <= max) cl';
  y_stats : forall q, tracked q -> pg_stats pg q + trim_stats x q = weight q (head_of pg) + sum_clones q cl';
  y_frozen : frozen_of cl' = drop gone (frozen a)
}.

(** The contents a clone with fewer snapshots, or none, leaves. *)
Lemma frozen_shrunk k' : c_snaps k' = kept_snaps -> c_data k' = c_data k -> ordered 0 (cl1 ++ k' :: cl2) ->
  frozen_of (cl1 ++ k' :: cl2) = drop gone (frozen a).
Proof.
  intros Hs Hd Ho. apply map_eq. intros s. apply option_eq. intros d. rewrite frozen_in, drop_lookup, (r_frozen _ _ _ _ Hrep) by done.
  transitivity ((s ∉ gone) /\ frozen_of cl !! s = Some d); [|by case_bool_decide; naive_solver]. rewrite frozen_in, Hcl by apply Hrep.
  pose proof trim_ordered as Hor. split.
  - intros (c&Hc&Hsc&<-). assert (c ∈ cl1 ++ cl2 \/ c = k') as [Hin| ->] by set_solver.
    + split; [|exists c; set_solver]. intros Hg. apply in_filter in Hg as [Hg _]. by apply (frozen_unique cl1 k cl2 c s Hor).
    + rewrite Hs, in_kept in Hsc. split; [apply Hsc|]. exists k. rewrite Hd. set_solver.
  - intros (Hg&c&Hc&Hsc&<-). assert (c ∈ cl1 ++ cl2 \/ c = k) as [Hin| ->] by set_solver; [exists c; set_solver|]. exists k'. rewrite Hs, in_kept. set_solver.
Qed.
Lemma removed_ordered : ordered 0 (cl1 ++ cl2).
Proof.
  pose proof trim_ordered as Hor. apply ordered_app in Hor as [H1 H2]. apply ordered_app. split; [done|]. cbn in H2. destruct H2 as (?&_&_&_&H2).
  eapply ordered_weaken; [|exact H2]. lia.
Qed.
Lemma frozen_removed cl1' : kept_snaps = [] -> map (fun c => (c_snaps c, c_data c)) cl1' = map (fun c => (c_snaps c, c_data c)) cl1 ->
  frozen_of (cl1' ++ cl2) = drop gone (frozen a).
Proof.
  intros Hk Hm. assert (frozen_of (cl1' ++ cl2) = frozen_of (cl1 ++ cl2)) as ->.
  { unfold frozen_of. rewrite !foldl_app. f_equal. generalize (∅ : gmap Z bytes). revert cl1' Hm. clear. induction cl1 as [|c l IH]; intros [|c' l'] Hm m; try done.
    cbn in Hm. injection Hm as H1 H2 H3. cbn [foldl]. rewrite H1, H2. by apply IH. }
  pose proof trim_ordered as Hor. pose proof removed_ordered as Ho.
  apply map_eq. intros s. apply option_eq. intros d. rewrite frozen_in, drop_lookup, (r_frozen _ _ _ _ Hrep) by done.
  transitivity ((s ∉ gone) /\ frozen_of cl !! s = Some d); [|by case_bool_decide; naive_solver]. rewrite frozen_in, Hcl by apply Hrep. split.
  - intros (c&Hc&Hsc&<-). split; [|exists c; set_solver]. intros Hg. apply in_filter in Hg as [Hg _]. by apply (frozen_unique cl1 k cl2 c s Hor).
  - intros (Hg&c&Hc&Hsc&<-). assert (c ∈ cl1 ++ cl2 \/ c = k) as [Hin| ->] by set_solver; [by exists c|]. exfalso. assert (s ∈ kept_snaps) by (by apply in_kept). rewrite Hk in *. set_solver.
Qed.

(** *** The clone stays *)

Lemma chain_app l1 c l2 h : chain (l1 ++ c :: l2) h <-> chain l1 (c_data c) /\ chain (c :: l2) h.
Proof.
  induction l1 as [|d l1 IH]; cbn [app chain]; [tauto|]. rewrite IH. destruct l1 as [|e l1]; cbn [app chain]; tauto.
Qed.
Definition start_trim (v : eversion_t) : TrimContext := mk_trim (mk_obs (c_info k) true) (head_of pg) (snapset (ssc pg)) no_stats ∅ v [].

Lemma no_sources t : (forall o, PGTransaction.has_source (PGTransaction.at_ t o) = None) -> acyclic t.
Proof. intros Ht. exists (fun _ => 0%nat). intros o src Hs. by rewrite Ht in Hs. Qed.
Lemma at_empty o : PGTransaction.at_ (∅ : op_map Z) o = PGTransaction.fresh.
Proof. unfold PGTransaction.at_. by rewrite lookup_empty. Qed.

(** A clone that differs from [k] in its snapshots only. *)
Lemma shrunk_ordered k' : c_id k' = c_id k -> c_snaps k' = kept_snaps -> kept_snaps <> [] -> ordered 0 (cl1 ++ k' :: cl2).
Proof.
  intros Hi Hs Hk. pose proof trim_ordered as Ho. rewrite ordered_app in *. destruct Ho as [H1 H2]. split; [done|]. cbn in *.
  destruct H2 as (?&_&Hsrt&Hb&H2). rewrite Hi, Hs. split_and!; [done|done|by apply filter_sorted_gt| |done].
  rewrite Forall_forall in *. intros s Hin. apply in_kept in Hin as [Hin _]. by apply Hb.
Qed.
Lemma shrunk_chain k' : c_data k' = c_data k -> c_overlap k' = c_overlap k -> chain (cl1 ++ k' :: cl2) head.
Proof.
  intros Hd Ho. pose proof (r_chain _ _ _ _ Hrep) as Hch. rewrite Hcl in Hch. rewrite chain_app in *. cbn [chain] in *. by rewrite Hd, Ho.
Qed.

Lemma shrink_ok v old_snaps : kept_snaps <> [] ->
  exists x k', shrink_clone env (c_id k) old_snaps (rev kept_snaps) (start_trim v) = Some x /\ trimmed (cl1 ++ k' :: cl2) x.
Proof.
  intros Hk. unfold shrink_clone, start_trim. cbn [trim_version clone_obs head_obs trim_snapset trim_stats trim_t trim_log oi exists_].
  set (coi := set_version v (set_prior_version (version (c_info k)) (c_info k))).
  destruct (r_snapset _ _ _ _ Hrep) as [sn Hss]. pose proof (r_clones _ _ _ _ Hrep) as Hco. rewrite Hcl, Forall_app, Forall_cons in Hco. destruct Hco as (Hco1&Hck&Hco2).
  destruct trim_below as [Hb1 Hb2]. pose proof trim_ids as Hids. rewrite Forall_forall in Hids. destruct (Hids k trim_in) as [Hki Hkn].
  pose proof (co_disk _ _ Hck) as Hd. destruct (disk pg !! c_id k) as [y|] eqn:Ey; [|done]. injection Hd as Hd.
  destruct (run_ok (disk pg) (A_setattr (c_id k) OI_ATTR (encode_info env coi)) ∅ (disk pg) (<[c_id k := mk_object (data y) (<[OI_ATTR := encode_info env coi]> (attrs y))]> (disk pg)))
    as (t&Ht&Hi&_); [apply inv_start|cbn; unfold StoreOps.on_attrs; by rewrite Ey|done|set_solver|].
  cbn [run] in Ht. pose proof Ht as Ht'. unfold PGTransaction.setattr, PGTransaction.get_object_op_for_modify in Ht'. rewrite at_empty in Ht'. cbn in Ht'. injection Ht' as Et.
  rewrite Ht. cbn [mbind option_bind]. unfold PGTransaction.update_snaps. rewrite <- Et, TransFacts.at_insert, decide_True by done. cbn [PGTransaction.updated_snaps PGTransaction.set_attrs PGTransaction.fresh PGTransaction.buffer_updates PGTransaction.truncate_to].
  rewrite !bool_decide_true by done. cbn [IntervalMap.empty].
  set (k' := mk_clone (c_id k) coi (c_data k) kept_snaps (c_overlap k)). eexists _, k'. split; [done|].
  assert (c_id <$> cl1 ++ k' :: cl2 = c_id <$> cl) as Eids by (rewrite Hcl, !fmap_app; done).
  assert (clone_info_ok k') as Hki'.
  { destruct Hck. repeat split; cbn; try done; destruct co_plain0 as [? ?]; by flags. }
  split; cbn; try done.
  - apply Hck.
  - exists sn. rewrite Hss, Hcl. unfold set_clone_snaps, snapset_of. cbn. rewrite rev_involutive, set_at by done. by rewrite !fmap_app.
  - apply Forall_app. split; [|constructor].
    + eapply Forall_impl; [apply Forall_and; exact (conj Hco1 Hb1)|]. cbn. intros c [[] ?]. rewrite lookup_insert_ne by lia. unfold clone_info_ok; by split_and!.
    + split; [done|]. cbn. by rewrite lookup_insert_eq.
    + eapply Forall_impl; [apply Forall_and; exact (conj Hco2 Hb2)|]. cbn. intros c [[] ?]. rewrite lookup_insert_ne by lia. unfold clone_info_ok; by split_and!.
  - eexists t, _, _. split; [rewrite <- Et; unfold with_snaps; by rewrite TransFacts.at_insert, decide_True by done|]. split; [rewrite <- Et, lookup_insert_eq; eauto|].
    split; [exact Hi|]. split_and!.
    + apply no_sources. intros o. rewrite <- Et, TransFacts.at_insert, at_empty. by case_decide.
    + by rewrite <- Et, lookup_insert_ne, lookup_empty by done.
    + by rewrite lookup_insert_ne.
    + apply Forall_app. split; [|constructor].
      * eapply Forall_impl; [apply Forall_and; exact (conj Hco1 Hb1)|]. cbn. intros c [[] ?]. by rewrite lookup_insert_ne by lia.
      * cbn. rewrite lookup_insert_eq. cbn. by rewrite Hd.
      * eapply Forall_impl; [apply Forall_and; exact (conj Hco2 Hb2)|]. cbn. intros c [[] ?]. by rewrite lookup_insert_ne by lia.
    + intros o Ho Hn. rewrite Eids in Hn. rewrite lookup_insert_ne; [by apply (r_others _ _ _ _ Hrep)|]. intros <-. apply Hn. apply list_elem_of_fmap. exists k. split; [done|apply trim_in].
  - by apply shrunk_chain.
  - by apply shrunk_ordered.
  - destruct (r_sizes _ _ _ _ Hrep) as [_ Hz]. destruct (r_seq _ _ _ _ Hrep) as [_ Hq]. rewrite Hcl in Hz, Hq. rewrite Forall_and, !Forall_app, !Forall_cons in *. cbn. tauto.
  - intros q Hq. rewrite (r_stats _ _ _ _ Hrep q Hq), Hcl, !sum_app. unfold no_stats. cbn [sum_clones foldr].
    assert (clone_weight q k' = clone_weight q k) as ->; [|lia]. unfold clone_weight, weight. cbn. destruct q; try done; f_equal; by flags.
  - apply frozen_shrunk; try done. by apply shrunk_ordered.
Qed.

(** *** The clone goes *)

Definition same_clone (c d : clone) : Prop := c_id c = c_id d /\ c_info c = c_info d /\ c_data c = c_data d /\ c_snaps c = c_snaps d.
Abbreviation same_clones := (Forall2 same_clone).
Abbreviation bytes_of := (clone_weight num_bytes).

Lemma same_clones_refl l : same_clones l l.
Proof. induction l; constructor; [by split_and!|done]. Qed.

(** What the clone before [k] shares with the version after it. *)
Lemma merge_snoc l p st : cl1 = l ++ [p] -> exists cl1' ss st' sn,
  merge_overlap env pg (c_id k) (c_id p) (snapset (ssc pg)) st = Some (ss, st') /\
  ss = snapset_of (aseq a) sn (cl1' ++ k :: cl2) /\ same_clones cl1' cl1 /\ chain (cl1' ++ cl2) head /\
  forall q, st' q = st q + if bool_decide (q = num_bytes) then sum_clones q cl1' - sum_clones q cl1 else 0.
Proof.
  intros El. destruct (r_snapset _ _ _ _ Hrep) as [sn Hss]. pose proof (r_chain _ _ _ _ Hrep) as Hch. rewrite Hcl, El in Hch. apply chain_app in Hch as [Hch1 Hch2].
  apply clones_chain_snoc in Hch1 as [Hch1 [Hw1 Hs1]]. cbn [chain] in Hch2. destruct Hch2 as [[Hw2 Hs2] Hch2]. destruct (e_max _ Henv) as [_ Hmx].
  assert (p ∈ cl) as Hp by (rewrite Hcl, El; set_solver). pose proof trim_in as Hk.
  assert (Forall (fun d => c_id d < c_id p) l) as Hlow.
  { pose proof trim_ordered as Ho. rewrite El, <- app_assoc in Ho. cbn [app] in Ho. destruct (ordered_below 0 _ _ _ Ho) as [Hx _]. eapply Forall_impl; [exact Hx|]. cbn. tauto. }
  unfold merge_overlap, is_present_clone, allow_incomplete_clones. rewrite (e_tier _ Henv), (e_complete _ Henv). cbn [negb orb mbind option_bind].
  rewrite (SnapsetFacts.clone_bytes max pg cl a Hmx Hrep p Hp). cbn [mbind option_bind]. rewrite Hss. cbn [clone_overlap snapset_of].
  rewrite (SnapsetFacts.find_clone max pg cl a Hrep c_overlap p Hp), (SnapsetFacts.find_clone max pg cl a Hrep c_overlap k Hk). cbn [default from_option id].
  destruct (inter_spec (c_overlap p) (c_overlap k)) as (i&->&Hi&Hix); [done..|]. cbn [mbind option_bind].
  set (p' := mk_clone (c_id p) (c_info p) (c_data p) (c_snaps p) i).
  assert (shares i (c_data p) match cl2 with [] => head | d :: _ => c_data d end) as Hsh.
  { split; [done|]. intros x Hx. apply Hix in Hx as [H1 H2]. destruct (Hs1 x H1) as (?&?&E1), (Hs2 x H2) as (?&?&E2). split_and!; [done|done|congruence]. }
  destruct (r_sizes _ _ _ _ Hrep) as [_ Hz]. rewrite Forall_forall in Hz. specialize (Hz p Hp). cbn in Hz.
  pose proof (shares_size i (c_data p) _ ltac:(lia) Hsh) as Hiz.
  assert (SnapMap.set (c_id p) i ((fun c => (c_id c, c_overlap c)) <$> cl) = (fun c => (c_id c, c_overlap c)) <$> (l ++ p' :: k :: cl2)) as Eset.
  { rewrite Hcl, El, <- app_assoc. cbn [app]. rewrite set_at by done. by rewrite fmap_app. }
  rewrite Eset. unfold get_clone_bytes. cbn [clone_size clone_overlap set_clone_overlap snapset_of].
  rewrite (SnapsetFacts.find_clone max pg cl a Hrep (fun c => zlen (c_data c)) p Hp). cbn [mbind option_bind].
  change (c_id p) with (c_id p') at 1. rewrite (find_at c_overlap l p' (k :: cl2)) by done. cbn [mbind option_bind c_overlap p'].
  rewrite (proj2 (Z.leb_le (interval_set.size i) (zlen (c_data p)))) by lia. cbn [mbind option_bind].
  exists (l ++ [p']). eexists _, _, sn. split; [done|]. split; [|split; [|split]].
  - unfold set_clone_overlap, snapset_of. cbn. rewrite Hcl, El, <- !app_assoc. cbn [app]. by rewrite !fmap_app.
  - rewrite El. apply Forall2_app; [apply same_clones_refl|]. constructor; [by split_and!|constructor].
  - rewrite <- app_assoc. cbn [app]. apply chain_app. split; [done|]. cbn [chain]. split; [done|done].
  - intros q. rewrite El, !sum_app. unfold count. cbn [sum_clones foldr]. destruct (decide (q = num_bytes)) as [->|Hq].
    + counters. unfold clone_weight. cbn [c_data c_overlap p']. lia.
    + rewrite !bool_decide_false by done. lia.
Qed.
Lemma merge_clone_ok st : exists cl1' ss st' sn,
  match last cl1 with Some d => merge_overlap env pg (c_id k) (c_id d) (snapset (ssc pg)) st | None => Some (snapset (ssc pg), st) end = Some (ss, st') /\
  ss = snapset_of (aseq a) sn (cl1' ++ k :: cl2) /\ same_clones cl1' cl1 /\ chain (cl1' ++ cl2) head /\
  forall q, st' q = st q + if bool_decide (q = num_bytes) then sum_clones q cl1' - sum_clones q cl1 else 0.
Proof.
  destruct (r_snapset _ _ _ _ Hrep) as [sn Hss]. pose proof (r_chain _ _ _ _ Hrep) as Hch. rewrite Hcl in Hch. apply chain_app in Hch as [Hch1 Hch2].
  destruct trim_below as [Hb1 Hb2]. destruct (e_max _ Henv) as [_ Hmx].
  pose proof (fun l p => merge_snoc l p st) as Hsnoc.
  destruct cl1 as [|p l _] eqn:E using rev_ind.
  - exists [], (snapset (ssc pg)), st, sn. rewrite Hss, Hcl. cbn. split_and!; try done; [by destruct Hch2|]. intros q. destruct (bool_decide _); lia.
  - rewrite last_snoc. by apply (Hsnoc l p).
Qed.

Lemma removed_stats st c q : tracked q -> is_whiteout (c_info c) = false ->
  count_if (has_manifest (c_info c)) num_objects_manifest (-1) (count_if (is_cache_pinned (c_info c)) num_objects_pinned (-1) (count num_object_clones (-1)
    (count_if (is_whiteout (c_info c)) num_whiteouts (-1) (count_if (is_omap (c_info c)) num_objects_omap (-1) (count_if (is_dirty (c_info c)) num_objects_dirty (-1)
      (count num_objects (-1) st)))))) q =
  st q - if bool_decide (q = num_bytes) then 0 else clone_weight q c.
Proof.
  intros [] Hw. unfold count, count_if, count, clone_weight, weight. cbn [exists_ oi]. rewrite Hw.
  destruct (has_manifest (c_info c)), (is_cache_pinned (c_info c)), (is_omap (c_info c)), (is_dirty (c_info c)); destruct q;
    counters; cbn [Z.b2z]; (done || lia).
Qed.
Lemma same_ids l l' : same_clones l l' -> c_id <$> l = c_id <$> l'.
Proof. induction 1 as [|c d l l' (E1&_) _ IH]; cbn; [done|by rewrite E1, IH]. Qed.
Lemma same_forall (P : Z -> object_info_t -> bytes -> list Z -> Prop) l l' : same_clones l l' ->
  Forall (fun c => P (c_id c) (c_info c) (c_data c) (c_snaps c)) l' -> Forall (fun c => P (c_id c) (c_info c) (c_data c) (c_snaps c)) l.
Proof. induction 1 as [|c d l l' (E1&E2&E3&E4) _ IH]; [done|]. rewrite !Forall_cons, E1, E2, E3, E4. tauto. Qed.
Lemma same_ordered lo l l' l2 : same_clones l l' -> ordered lo (l' ++ l2) -> ordered lo (l ++ l2).
Proof. intros Hs. revert lo. induction Hs as [|c d l l' (E1&E2&E3&E4) _ IH]; intros lo; cbn [app ordered]; [done|]. rewrite E1, E4. intros (?&?&?&?&?). split_and!; auto. Qed.
Lemma same_frozen l l' : same_clones l l' -> map (fun c => (c_snaps c, c_data c)) l = map (fun c => (c_snaps c, c_data c)) l'.
Proof. induction 1 as [|c d l l' (_&_&E3&E4) _ IH]; cbn; [done|by rewrite E3, E4, IH]. Qed.
Lemma same_sum q l l' : q <> num_bytes -> same_clones l l' -> sum_clones q l = sum_clones q l'.
Proof.
  intros Hq. unfold sum_clones. induction 1 as [|c d l l' (_&E2&_) _ IH]; cbn [foldr]; [done|]. rewrite IH. f_equal. unfold clone_weight. rewrite E2. by destruct q.
Qed.

Lemma remove_clone_ok v old_snaps : kept_snaps = [] ->
  exists x cl', remove_clone env pg (c_id k) (match last cl1 with Some d => Some (c_id d) | None => None end) old_snaps [] (start_trim v) = Some x /\ trimmed cl' x.
Proof.
  intros Hk. unfold remove_clone, start_trim. cbn [trim_version clone_obs head_obs trim_snapset trim_stats trim_t trim_log oi exists_].
  pose proof (r_clones _ _ _ _ Hrep) as Hco. rewrite Hcl, Forall_app, Forall_cons in Hco. destruct Hco as (Hco1&Hck&Hco2).
  destruct trim_below as [Hb1 Hb2]. pose proof trim_ids as Hids. rewrite Forall_forall in Hids. destruct (Hids k trim_in) as [Hki Hkn]. destruct (e_max _ Henv) as [_ Hmx].
  rewrite (SnapsetFacts.clone_bytes max pg cl a Hmx Hrep k trim_in). cbn [mbind option_bind].
  destruct (merge_clone_ok (count num_bytes (- clone_weight num_bytes k) no_stats)) as (cl1'&ss&st&sn&Hm&->&Hsame&Hch&Hst).
  assert (forall {A} (M : Z -> A) N, match (match last cl1 with Some d => Some (c_id d) | None => None end) with Some n => M n | None => N end =
    match last cl1 with Some d => M (c_id d) | None => N end) as Hpush by (intros; by destruct (last cl1)).
  rewrite (Hpush _ (fun n => merge_overlap env pg (c_id k) n _ _)), Hm. cbn [mbind option_bind].
  pose proof (co_disk _ _ Hck) as Hd. destruct (disk pg !! c_id k) as [y|] eqn:Ey; [|done]. injection Hd as Hd.
  destruct (run_ok (disk pg) (A_remove (c_id k)) ∅ (disk pg) (delete (c_id k) (disk pg))) as (t&Ht&Hi&_); [apply inv_start|cbn; by rewrite Ey|done| |].
  { intros o _. by rewrite at_empty. }
  cbn [run] in Ht. pose proof Ht as Ht'. unfold PGTransaction.remove, PGTransaction.get_object_op_for_modify in Ht'. rewrite at_empty in Ht'. cbn in Ht'. injection Ht' as Et.
  rewrite Ht. cbn [mbind option_bind]. unfold PGTransaction.update_snaps. rewrite <- Et, TransFacts.at_insert, decide_True by done.
  cbn [PGTransaction.updated_snaps PGTransaction.deletion PGTransaction.buffer_updates PGTransaction.truncate_to].
  rewrite !bool_decide_true by done. cbn [IntervalMap.empty]. eexists _, (cl1' ++ cl2). split; [done|].
  assert (c_id <$> cl1' ++ cl2 = c_id <$> cl1 ++ cl2) as Eids by (rewrite !fmap_app; f_equal; by apply same_ids).
  assert (Forall (fun d => c_id d < c_id k) cl1') as Hb1' by (apply (same_forall (fun i _ _ _ => i < c_id k) cl1' cl1); done).
  split; cbn; try done.
  - exists sn. unfold set_clone_overlap, set_clone_snaps, set_clone_size, set_clones, snapset_of. cbn. rewrite !snap_erase_at, erase_clone_at by done. done.
  - apply Forall_app. split.
    + apply (same_forall (fun i f d _ => (soid f = i /\ size f = zlen d /\ is_whiteout f = false /\ plain f) /\
        (<[c_id k := mk_obs (new_info (c_id k)) false]> (contexts pg)) !! i = Some (mk_obs f true)) cl1' cl1 Hsame).
      eapply Forall_impl; [apply Forall_and; exact (conj Hco1 Hb1)|]. cbn. intros c [[] ?]. rewrite lookup_insert_ne by lia. by split_and!.
    + eapply Forall_impl; [apply Forall_and; exact (conj Hco2 Hb2)|]. cbn. intros c [[] ?]. rewrite lookup_insert_ne by lia. unfold clone_info_ok. by split_and!.
  - eexists t, _, _. split; [rewrite <- Et; unfold with_snaps; by rewrite TransFacts.at_insert, decide_True by done|]. split; [rewrite <- Et, lookup_insert_eq; eauto|].
    split; [exact Hi|]. split_and!.
    + apply no_sources. intros o. rewrite <- Et, TransFacts.at_insert, at_empty. by case_decide.
    + by rewrite <- Et, lookup_insert_ne, lookup_empty by done.
    + by rewrite lookup_delete_ne.
    + apply Forall_app. split.
      * apply (same_forall (fun i _ d _ => data <$> delete (c_id k) (disk pg) !! i = Some d) cl1' cl1 Hsame).
        eapply Forall_impl; [apply Forall_and; exact (conj Hco1 Hb1)|]. cbn. intros c [[] ?]. by rewrite lookup_delete_ne by lia.
      * eapply Forall_impl; [apply Forall_and; exact (conj Hco2 Hb2)|]. cbn. intros c [[] ?]. by rewrite lookup_delete_ne by lia.
    + intros o Ho Hn. rewrite Eids in Hn. destruct (decide (c_id k = o)) as [<-|Hne]; [apply lookup_delete_eq|]. rewrite lookup_delete_ne by done.
      apply (r_others _ _ _ _ Hrep); [done|]. rewrite Hcl. rewrite fmap_app in *. set_solver.
  - apply (same_ordered 0 cl1' cl1 cl2 Hsame). apply removed_ordered.
  - destruct (r_sizes _ _ _ _ Hrep) as [_ Hz]. destruct (r_seq _ _ _ _ Hrep) as [_ Hq]. rewrite Hcl in Hz, Hq. rewrite Forall_app, Forall_cons in Hz, Hq.
    apply Forall_app. split; [|apply Forall_and; tauto]. apply (same_forall (fun i _ d _ => i <= aseq a /\ zlen d <= max) cl1' cl1 Hsame). apply Forall_and. tauto.
  - intros q Hq. rewrite removed_stats by (done || apply Hck). rewrite Hst, (r_stats _ _ _ _ Hrep q Hq), Hcl, !sum_app. unfold count, no_stats. cbn [sum_clones foldr].
    destruct (decide (q = num_bytes)) as [->|Hne]; [counters; fold (sum_clones num_bytes cl2); lia|]. rewrite !bool_decide_false, (same_sum q cl1' cl1) by done.
    fold (sum_clones q cl2). lia.
  - apply frozen_removed; [done|]. by apply same_frozen.
Qed.

(** *** The head *)

Lemma head_exists : exists_ (head_of pg) = true.
Proof.
  destruct (exists_ (head_of pg)) eqn:E; [done|]. destruct (RequestFacts.gone_no_clones env pg cl a Hrep E) as [Hn _]. rewrite Hcl in Hn. by destruct cl1.
Qed.
Definition submitted (y : TrimContext) (s : StoreOps.store Z) : PG :=
  mk_pg (<[NOSNAP := head_obs y]> (<[c_id k := clone_obs y]> (contexts pg))) (mk_ssc (trim_snapset y) (ssc_exists (ssc pg))) s
    (add_stats (pg_stats pg) (trim_stats y)).

Lemma submitted_head y s : head_of (submitted y s) = head_obs y.
Proof. unfold head_of, submitted. cbn. by rewrite lookup_insert_eq. Qed.
Lemma reload_gone y s : exists_ (head_obs y) = false ->
  reload (submitted y s) = mk_pg (delete NOSNAP (<[c_id k := clone_obs y]> (contexts pg))) (mk_ssc no_snapset false) s (add_stats (pg_stats pg) (trim_stats y)).
Proof. intros E. unfold reload. rewrite submitted_head, E. unfold submitted. cbn [contexts disk pg_stats]. by rewrite delete_insert_eq. Qed.
Lemma head_removed_stats st h q : tracked q -> exists_ h = true -> plain (oi h) -> is_whiteout (oi h) = true -> size (oi h) = 0 ->
  count_if false num_objects_manifest (-1) (count_if (is_cache_pinned (oi h)) num_objects_pinned (-1) (count_if (is_whiteout (oi h)) num_whiteouts (-1)
    (count_if (is_omap (oi h)) num_objects_omap (-1) (count_if (is_dirty (oi h)) num_objects_dirty (-1) (count num_objects (-1) st))))) q =
  st q - weight q h.
Proof.
  intros [] He [Hp Hm] Hw Hs. unfold count_if, count, weight. rewrite He, Hw, Hp.
  destruct (is_omap (oi h)), (is_dirty (oi h)); destruct q; counters; rewrite ?Hm, ?Hs; cbn [Z.b2z]; (done || lia).
Qed.

Lemma finish_removed cl' x : trimmed cl' x -> cl' = [] -> is_whiteout (oi (head_of pg)) = true ->
  exists y s, finish_head env x = Some y /\ apply_transaction env (trim_t y) (disk pg) = Some s /\ represents max (reload (submitted y s)) cl' spec_trim /\
    (exists_ (head_obs y) = false -> clones (trim_snapset y) = []).
Proof.
  intros [] -> Hw. destruct y_store0 as (t&u&s&Et&Hin&Hi&Ha&Hn&Hs&_&Hoth). destruct y_snapset0 as [sn Hss]. destruct (r_plain _ _ _ _ Hrep) as [Hp Hm].
  pose proof (r_head _ _ _ _ Hrep) as Hr. pose proof head_exists as He. destruct (cur a) as [d|] eqn:Ecur; cbn in Hr; [destruct Hr as (_&E&_); congruence|].
  destruct Hr as (Hsz&_&Hd). rewrite He in Hd. pose proof trim_ids as Hids. rewrite Forall_forall in Hids. destruct (Hids k trim_in) as [_ Hkn].
  unfold finish_head. rewrite y_head0, Hss, Hw, Hp, Htier, y_manifest0. cbn [clones snapset_of fmap list_fmap]. rewrite andb_false_r. cbn [negb andb].
  rewrite bool_decide_true by done.
  destruct (with_remove (c_id k) u t NOSNAP) as [Hrm Hrm']; [done|unfold PGTransaction.at_; by rewrite Hn|]. rewrite Et, Hrm. cbn [mbind option_bind].
  destruct (disk pg !! NOSNAP) as [x0|] eqn:Ex; [|done].
  destruct (run_ok (disk pg) (A_remove NOSNAP) t s (delete NOSNAP s)) as (t'&Ht'&Hi'&_); [done|cbn; by rewrite Hs|done| |].
  { intros o Ho. unfold removal in Ho. rewrite Ex in Ho. apply list_elem_of_singleton in Ho as ->. unfold PGTransaction.at_. by rewrite Hn. }
  cbn [run] in Ht'. rewrite Hrm' in Ht'. injection Ht' as <-. eexists _, (delete NOSNAP s). split; [done|]. cbn [trim_t]. split.
  { rewrite with_apply by (rewrite lookup_insert_ne by done; done). apply apply_ok; [done|]. destruct Ha as [rank Hrk]. exists rank.
    intros o src Hsrc. rewrite TransFacts.at_insert in Hsrc. destruct (decide (NOSNAP = o)); [done|]. by apply Hrk. }
  split; [|done]. rewrite reload_gone by done. cbn [clone_obs trim_stats].
  assert (spec_trim = initial) as ->.
  { unfold spec_trim, forget. cbn [cur frozen]. rewrite Ecur, <- y_frozen0, !bool_decide_true by done. done. }
  assert (forall y1 y2 y3 y4, head_of (mk_pg (delete NOSNAP y1) y2 y3 y4) = mk_obs (new_info NOSNAP) false) as Hh.
  { intros. unfold head_of. cbn. by rewrite lookup_delete_eq. }
  split; rewrite ?Hh; cbn [disk ssc ssc_exists snapset pg_stats]; try done.
  - by rewrite lookup_delete_eq.
  - by exists [].
  - intros o Ho Hno. rewrite lookup_delete_ne by done. by apply Hoth.
  - destruct (e_max _ Henv). split; [change (0 <= osd_max_object_size env); lia|done].
  - intros q Hq. unfold add_stats. pose proof (head_removed_stats (trim_stats x) (head_of pg) q Hq He (conj Hp Hm) Hw Hsz) as Hz. rewrite Hw, Hp in Hz. rewrite Hz.
    pose proof (y_stats0 q Hq). cbn [weight exists_]. lia.
Qed.

Lemma spec_trim_kept cl' : ordered 0 cl' -> frozen_of cl' = drop gone (frozen a) -> ~ (cl' = [] /\ is_whiteout (oi (head_of pg)) = true) ->
  spec_trim = mk_a (cur a) (tseq a) (watched a) (aseq a) (frozen_of cl').
Proof.
  intros Ho Hf Hnr. unfold spec_trim, forget. cbn [cur frozen]. rewrite <- Hf. destruct (bool_decide (cur a = None)) eqn:Ec; [|done].
  apply bool_decide_eq_true in Ec. rewrite bool_decide_false; [done|]. apply frozen_some; [done|]. intros ->. apply Hnr. split; [done|].
  pose proof (r_head _ _ _ _ Hrep) as Hr. rewrite Ec in Hr. cbn in Hr. destruct Hr as (_&->&_). apply head_exists.
Qed.
Lemma kept_represents cl' x y s y0 z : trimmed cl' x -> ~ (cl' = [] /\ is_whiteout (oi (head_of pg)) = true) ->
  exists_ (head_obs y) = true -> same_info (oi (head_obs y)) (oi (head_of pg)) -> clone_obs y = clone_obs x -> trim_stats y = trim_stats x ->
  (exists sn, trim_snapset y = snapset_of (aseq a) sn cl') -> disk pg !! NOSNAP = Some y0 -> data z = data y0 ->
  Forall (fun c => data <$> s !! c_id c = Some (c_data c)) cl' -> (forall o, o <> NOSNAP -> o ∉ c_id <$> cl' -> s !! o = None) ->
  represents max (submitted y (<[NOSNAP := z]> s)) cl' spec_trim.
Proof.
  intros [] Hnr He' (I1&I2&I3&I4&I5) Hco Hst Hss Hy Hz Hdat Hoth. rewrite (spec_trim_kept cl') by done. destruct (same_flags _ _ I3) as (F1&F2&F3&F4&F5).
  pose proof (r_head _ _ _ _ Hrep) as Hr. pose proof head_exists as He. destruct (r_plain _ _ _ _ Hrep) as [Hp Hm]. pose proof (r_seq _ _ _ _ Hrep) as [Hq _].
  assert (Forall (fun c => c_id c <> NOSNAP) cl') as Hne.
  { eapply Forall_impl; [exact y_ids0|]. cbn. intros c [? _]. destruct Hq. unfold CEPH_MAXSNAP, Hobject.Hobject.CEPH_NOSNAP in *. lia. }
  split; rewrite ?submitted_head; cbn [submitted cur tseq watched aseq frozen contexts ssc disk pg_stats ssc_exists snapset]; try done; try congruence.
  - rewrite lookup_insert_eq. unfold rep in *. rewrite Hy in Hr. destruct (cur a); cbn in *; rewrite ?He in Hr; rewrite ?He'.
    + destruct Hr as (_&?&?&?). split_and!; congruence.
    + destruct Hr as (?&?&?). split_and!; congruence.
  - rewrite I1. apply Hrep.
  - split; congruence.
  - rewrite (r_ssc _ _ _ _ Hrep). congruence.
  - intros E -> . apply Hnr. split; [done|congruence].
  - rewrite I4. apply Hrep.
  - rewrite I5. apply Hrep.
  - split; [done|]. eapply Forall_impl; [exact y_ids0|]. cbn. tauto.
  - rewrite Forall_forall in *. intros c Hc. destruct (y_clones0 c Hc) as ((?&?&?&?)&?). specialize (Hne c Hc). split; cbn; try done.
    + rewrite lookup_insert_ne by done. by rewrite Hco.
    + rewrite lookup_insert_ne by done. by apply Hdat.
  - intros o Ho Hin. rewrite lookup_insert_ne by done. by apply Hoth.
  - split; [apply Hrep|]. eapply Forall_impl; [exact y_ids0|]. cbn. tauto.
  - intros q Hq'. unfold add_stats. rewrite Hst, y_stats0 by done. f_equal. unfold weight. rewrite He, He'. destruct q; congruence.
Qed.
Lemma finish_kept cl' x : trimmed cl' x -> ~ (cl' = [] /\ is_whiteout (oi (head_of pg)) = true) ->
  exists y s, finish_head env x = Some y /\ apply_transaction env (trim_t y) (disk pg) = Some s /\ represents max (reload (submitted y s)) cl' spec_trim /\
    (exists_ (head_obs y) = false -> clones (trim_snapset y) = []).
Proof.
  intros Htr Hnr. pose proof Htr as []. destruct y_store0 as (t&u&s&Et&Hin&Hi&Ha&Hn&Hs&Hdat&Hoth). destruct y_snapset0 as [sn Hss]. destruct (r_plain _ _ _ _ Hrep) as [Hp Hm].
  pose proof (r_head _ _ _ _ Hrep) as Hr. pose proof head_exists as He. pose proof trim_ids as Hids. rewrite Forall_forall in Hids. destruct (Hids k trim_in) as [_ Hkn].
  unfold finish_head. rewrite y_head0, Hss, Hp, Htier, andb_false_r. cbn [clones snapset_of negb]. rewrite !andb_true_r.
  replace (bool_decide (c_id <$> cl' = []) && is_whiteout (oi (head_of pg))) with false.
  2:{ symmetry. apply andb_false_iff. destruct (is_whiteout (oi (head_of pg))); [|by right]. left. apply bool_decide_eq_false. intros E. apply Hnr. by destruct cl'. }
  set (h' := set_version (trim_version x) (set_prior_version (version (oi (head_of pg))) (oi (head_of pg)))).
  assert (exists y0, disk pg !! NOSNAP = Some y0) as [y0 Hy].
  { unfold rep in Hr. rewrite He in Hr. destruct (cur a); [destruct Hr as (_&_&_&Hr)|destruct Hr as (_&_&Hr)]; destruct (disk pg !! NOSNAP); by eauto. }
  set (ss := if octopus env then _ else _).
  assert (exists sn', ss = snapset_of (aseq a) sn' cl') as [sn' Ess] by (unfold ss; destruct (octopus env); eexists; reflexivity). clearbody ss.
  destruct (run_ok (disk pg) (A_setattr NOSNAP OI_ATTR (encode_info env h')) t s (<[NOSNAP := mk_object (data y0) (<[OI_ATTR := encode_info env h']> (attrs y0))]> s))
    as (t1&R1&I1&_); [done|cbn; unfold StoreOps.on_attrs; by rewrite Hs, Hy|done|set_solver|].
  destruct (run_ok (disk pg) (A_setattr NOSNAP SS_ATTR (encode_snapset env ss)) t1 (<[NOSNAP := mk_object (data y0) (<[OI_ATTR := encode_info env h']> (attrs y0))]> s)
      (<[NOSNAP := mk_object (data y0) (<[SS_ATTR := encode_snapset env ss]> (<[OI_ATTR := encode_info env h']> (attrs y0)))]> s))
    as (t2&R2&I2&_); [done|cbn; unfold StoreOps.on_attrs; rewrite lookup_insert_eq; cbn; by rewrite insert_insert_eq|done|set_solver|].
  rewrite Et, with_setattr by done. cbn [run] in R1, R2. rewrite R1. cbn [mbind option_bind]. rewrite with_setattr, R2 by done. cbn [mbind option_bind].
  set (z := mk_object (data y0) (<[SS_ATTR := encode_snapset env ss]> (<[OI_ATTR := encode_info env h']> (attrs y0)))) in *.
  eexists _, (<[NOSNAP := z]> s). split; [done|]. cbn [trim_t]. split.
  { rewrite with_apply.
    - apply apply_ok; [done|]. destruct Ha as [rank Hrk]. exists rank. intros o src Hsrc.
      destruct (run_source (A_setattr NOSNAP SS_ATTR (encode_snapset env ss)) _ _ _ _ R2 Hsrc) as [Hs1|]; [|done].
      destruct (run_source (A_setattr NOSNAP OI_ATTR (encode_info env h')) _ _ _ _ R1 Hs1) as [Hs0|]; [|done]. by apply Hrk.
    - destruct (HeadTx.run_entry (A_setattr NOSNAP SS_ATTR (encode_snapset env ss)) _ _ R2) as [[op ->]|[_ ?]]; [|done]. cbn. rewrite lookup_insert_ne by done.
      destruct (HeadTx.run_entry (A_setattr NOSNAP OI_ATTR (encode_info env h')) _ _ R1) as [[op' ->]|[_ ?]]; [|done]. cbn. by rewrite lookup_insert_ne by done. }
  cbn [head_obs exists_]. rewrite He. split; [|done]. unfold reload. rewrite submitted_head. cbn [head_obs exists_]. eapply (kept_represents cl' x _ s y0); try done; by exists sn'.
Qed.

Lemma finish_ok cl' x : trimmed cl' x ->
  exists y s, finish_head env x = Some y /\ apply_transaction env (trim_t y) (disk pg) = Some s /\ represents max (reload (submitted y s)) cl' spec_trim /\
    (exists_ (head_obs y) = false -> clones (trim_snapset y) = []).
Proof.
  intros Hx. destruct (is_whiteout (oi (head_of pg))) eqn:Ew; [destruct cl' as [|c l]|].
  - by apply finish_removed.
  - apply finish_kept; [done|]. by intros [? _].
  - apply finish_kept; [done|]. intros [_ ?]. congruence.
Qed.

Lemma trim_object_ok v : exists l pg' cl', trim env pg true true v (c_id k) snap = Some (0, l, pg') /\ represents max (reload pg') cl' spec_trim /\
  is_Some (contexts pg' !! NOSNAP) /\ (exists_ (head_of pg') = false -> clones (snapset (ssc pg')) = []).
Proof.
  pose proof (r_clones _ _ _ _ Hrep) as Hco. rewrite Forall_forall in Hco. pose proof (co_context _ _ (Hco k trim_in)) as Hck.
  destruct (r_snapset _ _ _ _ Hrep) as [sn Hss]. destruct trim_below as [Hb1 Hb2]. pose proof head_exists as He.
  unfold trim, trim_object. rewrite !(FindFacts.get_context env pg Henv), Hck, (FindFacts.head_context pg He). cbn [mbind option_bind].
  rewrite (r_ssc _ _ _ _ Hrep), He. cbn [negb]. rewrite Hss. cbn [clone_snaps seq clones snapset_of].
  rewrite (SnapsetFacts.find_clone max pg cl a Hrep c_snaps k trim_in).
  pose proof trim_ordered as Ho. apply ordered_app in Ho as [_ Ho]. cbn in Ho. destruct Ho as (Hpos&Hne&Hsrt&_&_). rewrite snap_set_rev by done.
  rewrite (bool_decide_false (rev (c_snaps k) = [])) by (intros E; apply Hne; by apply (f_equal (@rev Z)) in E; rewrite rev_involutive in E).
  assert (0 < aseq a) as Hq.
  { pose proof trim_ids as Hids. rewrite Forall_forall in Hids. destruct (Hids k trim_in) as [? _].
    pose proof trim_ordered as Hor. apply ordered_above in Hor. rewrite Forall_app, Forall_cons in Hor. destruct Hor as (_&[? _]&_). lia. }
  rewrite (proj2 (Z.eqb_neq (aseq a) 0)) by lia. rewrite filter_rev. fold kept_snaps. rewrite Hcl, clone_before_at by done. rewrite andb_false_r. cbn [negb orb].
  assert (exists x cl', (if bool_decide (rev kept_snaps = [])
    then prev ← Some (match last cl1 with Some d => Some (c_id d) | None => None end); remove_clone env pg (c_id k) prev (rev (c_snaps k)) (rev kept_snaps) (start_trim v)
    else shrink_clone env (c_id k) (rev (c_snaps k)) (rev kept_snaps) (start_trim v)) = Some x /\ trimmed cl' x) as (x&cl'&Hx&Htr).
  { destruct kept_snaps as [|s0 l0] eqn:Ek.
    - destruct (remove_clone_ok v (rev (c_snaps k)) Ek) as (x&cl'&Hx&Htr). exists x, cl'. by split.
    - destruct (shrink_ok v (rev (c_snaps k))) as (x&k'&Hx&Htr); [by rewrite Ek|]. rewrite Ek in Hx. exists x. eexists. split; [|exact Htr].
      rewrite bool_decide_false; [done|]. cbn [rev]. by destruct (rev l0). }
  unfold start_trim in Hx. rewrite Hss, Hcl in Hx. cbn [snapset_of] in Hx. rewrite Hx. cbn [mbind option_bind].
  destruct (finish_ok cl' x Htr) as (y&s&->&Happ&Hr&Hgone). cbn [mbind option_bind]. rewrite Happ. cbn [mbind option_bind].
  eexists _, (submitted y s), cl'. split; [unfold submitted; by rewrite (r_ssc _ _ _ _ Hrep), He|]. split; [done|]. split.
  - unfold submitted. cbn. rewrite lookup_insert_eq. eauto.
  - by rewrite submitted_head.
Qed.
End Trim.
End TrimFacts.
