(* ===== verification/SnapTheorems.v ===== *)
(** What requests to an object with snapshots guarantee, from an empty name on. *)
From stdpp Require Import strings.
From S2P Require Import Prelude IntervalSet CleanRegions CleanMarks PgMissing IntervalMap PgTransaction PgTransactionFacts.
From S2P Require Import ObjectInfo PrimaryLogPG SnapSpec SnapFacts SnapOps SnapVector SnapCommit TrimObject TrimFacts.
#[local] Open Scope Z_scope.

(** ** Sequences of requests *)

Module Requests.
Import ObjectData ObjectInfo PrimaryLogPG SnapSpec TrimFacts.

Record request := mk_req { q_env : Env; q_version : eversion_t; q_ops : list OSDOp }.
Definition empty_pg : PG := mk_pg ∅ (mk_ssc no_snapset false) ∅ no_stats.

Fixpoint execute_all (l : list request) (pg : PG) : option (list Z * PG) :=
  match l with
  | [] => Some ([], pg)
  | q :: l =>
    '(r, _, pg) ← execute (q_env q) pg (q_version q) (q_ops q);
    '(rs, pg) ← execute_all l pg;
    Some (r :: rs, pg)
  end.
Fixpoint spec_all (l : list request) (a : astate) : list Z * astate :=
  match l with
  | [] => ([], a)
  | q :: l =>
    let '(r, a) := spec_execute (q_env q) a (q_ops q) in
    let '(rs, a) := spec_all l a in
    (r :: rs, a)
  end.

(** What a reader of a snapshot gets: the object [find_object_context] finds, if it
    exists and is no whiteout. *)
Definition read_object (env : Env) (pg : PG) (s : Z) : option (option bytes) :=
  '(r, obc, _) ← find_object_context env pg s false false;
  if negb (r =? 0) then Some None
  else
    obs ← obc;
    if negb (exists_ obs) || is_whiteout (oi obs) then Some None
    else x ← disk pg !! soid (oi obs); Some (Some (data x)).
(** Snapshots that the map removes are gone. *)
Definition visible (env : Env) (a : astate) (s : Z) : option bytes :=
  if (s <=? aseq a) && in_removed_snaps_queue env s then None else read a s.

Definition trim_ok (max : Z) (env : Env) : Prop :=
  plain_pool env /\ pool_is_tier env = false /\ osd_max_object_size env = max.
Definition request_ok (max : Z) (q : request) : Prop :=
  plain_pool (q_env q) /\ osd_max_object_size (q_env q) = max /\ ops_ok (q_env q) (q_ops q).
(** A state that requests and trims lead to.  An object that a trim removes has left
    the memory when the next request comes. *)
Inductive reached (max : Z) : PG -> Prop :=
| reached_empty : reached max empty_pg
| reached_request pg q r l pg' :
    reached max pg -> request_ok max q -> execute (q_env q) pg (q_version q) (q_ops q) = Some (r, l, pg') -> reached max pg'
| reached_trim pg env b1 b2 v coid snap r l pg' :
    reached max pg -> trim_ok max env -> TrimObject.trim env pg b1 b2 v coid snap = Some (r, l, pg') -> reached max (reload pg').

Lemma represents_empty max : 0 <= max -> represents max empty_pg [] initial.
Proof.
  intros Hm. split; try done. by exists [].
Qed.
Lemma execute_all_ok max l pg cl a : Forall (request_ok max) l -> represents max pg cl a ->
  exists pg' cl', execute_all l pg = Some ((spec_all l a).1, pg') /\ represents max pg' cl' (spec_all l a).2.
Proof.
  intros Hl. revert pg cl a. induction Hl as [|q l (Hp&<-&Ho) _ IH]; intros pg cl a Hr; cbn [execute_all spec_all]; [eauto|].
  destruct (RequestFacts.execute_ok _ pg cl a Hp Hr (q_version q) (q_ops q) Ho) as (lg&pg1&cl1&->&Hr1&_).
  destruct (spec_execute (q_env q) a (q_ops q)) as [r a1]. cbn [fst snd mbind option_bind] in *.
  destruct (IH pg1 cl1 a1 Hr1) as (pg2&cl2&->&Hr2). destruct (spec_all l a1) as [rs a2]. cbn in *. eauto.
Qed.
Lemma execute_all_reached max l pg rs pg' : reached max pg -> Forall (request_ok max) l -> execute_all l pg = Some (rs, pg') -> reached max pg'.
Proof.
  intros Hp Hl. revert pg rs Hp. induction Hl as [|q l Hq _ IH]; intros pg rs Hp; cbn [execute_all]; [by intros [= _ <-]|].
  destruct (execute _ pg _ _) as [[[r lg] pg1]|] eqn:Ex; [|done]. cbn [mbind option_bind]. destruct (execute_all l pg1) as [[rs1 pg2]|] eqn:E2; [|done].
  cbn. intros [= _ <-]. eapply IH; [|exact E2]. by eapply reached_request.
Qed.
Lemma reload_represents max pg cl a : represents max pg cl a -> represents max (reload pg) cl a.
Proof.
  intros Hr. unfold reload. destruct (exists_ (head_of pg)) eqn:He; [done|]. destruct (r_absent _ _ _ _ Hr He) as [Hi Hn].
  assert (head_of (mk_pg (delete NOSNAP (contexts pg)) (mk_ssc no_snapset false) (disk pg) (pg_stats pg)) = head_of pg) as Hh.
  { unfold head_of at 1. cbn. rewrite lookup_delete_eq. cbn. by destruct (head_of pg); cbn in *; subst. }
  assert (cl = []) as -> by (destruct (r_snapset _ _ _ _ Hr) as [sn Hs]; rewrite Hn in Hs; by destruct cl).
  destruct Hr. split; rewrite ?Hh; try done. by rewrite <- Hn.
Qed.
Lemma find_in {V} (f : clone -> V) cl o v : SnapMap.find o ((fun c => (c_id c, f c)) <$> cl) = Some v -> exists c, c ∈ cl /\ c_id c = o /\ f c = v.
Proof.
  induction cl as [|c cl IH]; cbn; [done|]. destruct (Z.eqb_spec (c_id c) o); [intros [= <-]; exists c; set_solver|]. intros Hf. destruct (IH Hf) as (d&?&?&?). exists d. set_solver.
Qed.
(** A trim does not fail an assertion; one that is refused changes nothing. *)
Lemma trim_any max env pg cl a b1 b2 v coid snap : trim_ok max env -> represents max pg cl a ->
  exists r l pg' cl' a', TrimObject.trim env pg b1 b2 v coid snap = Some (r, l, pg') /\ represents max (reload pg') cl' a'.
Proof.
  intros (Hp&Ht&<-) Hr. destruct (r_snapset _ _ _ _ Hr) as [sn Hss]. destruct (b1 && b2) eqn:Eb.
  - apply andb_true_iff in Eb as [-> ->]. destruct (SnapMap.find coid (clone_snaps (snapset (ssc pg)))) as [sl|] eqn:Ef.
    + rewrite Hss in Ef. apply find_in in Ef as (k&Hk&<-&_). apply list_elem_of_split in Hk as (cl1&cl2&Hcl).
      destruct (TrimFacts.trim_object_ok env pg cl a Hp Ht Hr cl1 k cl2 Hcl snap v) as (l&pg'&cl'&Hx&Hr'&_). eauto 10.
    + exists (- ENOENT), [], pg, cl, a. split; [|by apply reload_represents]. unfold TrimObject.trim, TrimObject.trim_object. rewrite !(FindFacts.get_context env pg Hp), Ef. cbn [mbind option_bind].
      destruct (contexts pg !! coid); [|done]. destruct (negb _); [done|]. by destruct (contexts pg !! NOSNAP).
  - assert (exists r, TrimObject.trim_object env pg b1 b2 v coid snap = Some (r, None)) as [r Hx].
    { unfold TrimObject.trim_object. rewrite !(FindFacts.get_context env pg Hp). cbn [mbind option_bind]. replace (negb b1 || negb b2) with true by (by destruct b1, b2).
      destruct (contexts pg !! coid); [|eauto]. destruct (negb (ssc_exists (ssc pg))); [eauto|]. destruct (contexts pg !! NOSNAP); [|eauto].
      destruct (SnapMap.find coid (clone_snaps (snapset (ssc pg)))); [|eauto]. destruct (bool_decide (TrimObject.snap_set _ = [])); [eauto|].
      destruct (seq (snapset (ssc pg)) =? 0); [eauto|]. destruct (bool_decide _ && bool_decide _); eauto. }
    exists r, [], pg, cl, a. unfold TrimObject.trim. rewrite Hx. split; [done|]. by apply reload_represents.
Qed.
Lemma reached_represents max pg : 0 <= max -> reached max pg -> exists cl a, represents max pg cl a.
Proof.
  intros Hm Hre. induction Hre as [|pg q r l pg' _ (cl&a&Hr) (Hp&<-&Ho) Hx|pg env b1 b2 v coid snap r l pg' _ (cl&a&Hr) Hok Hx].
  - exists [], initial. by apply represents_empty.
  - destruct (RequestFacts.execute_ok _ pg cl a Hp Hr (q_version q) (q_ops q) Ho) as (l1&pg1&cl1&Hx1&Hr1&_). rewrite Hx in Hx1. injection Hx1 as _ _ <-. eauto.
  - destruct (trim_any max env pg cl a b1 b2 v coid snap Hok Hr) as (r1&l1&pg1&cl1&a1&Hx1&Hr1). rewrite Hx in Hx1. injection Hx1 as _ _ <-. eauto.
Qed.

(** ** Reads *)

Section Read.
Context (env : Env) (pg : PG) (cl : list clone) (a : astate).
Context (Henv : plain_pool env).
Context (Hrep : represents (osd_max_object_size env) pg cl a).

Lemma read_head : (if negb (exists_ (head_of pg)) || is_whiteout (oi (head_of pg)) then Some None
    else x ← disk pg !! NOSNAP; Some (Some (data x))) = Some (cur a).
Proof.
  pose proof (r_head _ _ _ _ Hrep) as Hr. destruct (cur a) as [d|]; cbn in Hr.
  - destruct Hr as (->&->&_&Hd). cbn [negb orb]. by destruct (disk pg !! NOSNAP) as [x|]; cbn in *; simplify_eq.
  - destruct Hr as (_&->&_). by destruct (exists_ (head_of pg)).
Qed.
Lemma read_ok s : s = NOSNAP \/ s <= CEPH_MAXSNAP -> read_object env pg s = Some (visible env a s).
Proof.
  intros Hs. unfold read_object, visible, read. pose proof read_head as Hh. pose proof (r_soid _ _ _ _ Hrep) as Hso.
  destruct (decide (s = NOSNAP)) as [->|Hne].
  - destruct (r_seq _ _ _ _ Hrep) as [[_ Hq] _]. rewrite (proj2 (Z.leb_gt NOSNAP (aseq a))) by (unfold CEPH_MAXSNAP, Hobject.Hobject.CEPH_NOSNAP in *; lia).
    unfold find_object_context. rewrite Z.eqb_refl, (FindFacts.get_context env pg Henv). cbn [andb orb mbind option_bind].
    unfold head_of in *. destruct (contexts pg !! NOSNAP) as [obs|] eqn:Ec; cbn in *.
    + rewrite Hso. exact Hh.
    + exact Hh.
  - rewrite (proj2 (Z.eqb_neq s NOSNAP)) by done. cbn [orb]. destruct (FindFacts.find_object_ok env pg cl a Henv Hrep s) as (r&->&Hf); [by destruct Hs|].
    cbn [mbind option_bind]. destruct Hf as [He|He Hl|m He Hl Hn|cl1 c cl2 He Hl Hq _ _ _ Hz Hc].
    + destruct (RequestFacts.gone_no_clones env pg cl a Hrep He) as [-> Hcur]. cbn. rewrite Hcur.
      rewrite (r_frozen _ _ _ _ Hrep). cbn. by repeat case_match.
    + cbn. rewrite Hso, (proj2 (Z.leb_gt s (aseq a))), (proj2 (Z.ltb_lt (aseq a) s)) by lia. exact Hh.
    + cbn. rewrite (proj2 (Z.leb_le s (aseq a))), (proj2 (Z.ltb_ge (aseq a) s)) by lia. cbn. destruct Hn as [Hn|Hn]; rewrite Hn; [done|]. by destruct (in_removed_snaps_queue env s).
    + cbn. rewrite (proj2 (Z.leb_le s (aseq a))), (proj2 (Z.ltb_ge (aseq a) s)), Hq by lia. cbn. rewrite (co_whiteout _ _ Hc), (co_soid _ _ Hc), Hz.
      pose proof (co_disk _ _ Hc) as Hd. destruct (disk pg !! c_id c) as [x|]; cbn in *; [|done]. congruence.
Qed.
End Read.

(** An object that was removed reads as nothing, in memory or not. *)
Lemma reload_reads env pg s : plain_pool env -> s = NOSNAP \/ s <= CEPH_MAXSNAP -> is_Some (contexts pg !! NOSNAP) ->
  (exists_ (head_of pg) = false -> clones (snapset (ssc pg)) = []) -> read_object env (reload pg) s = read_object env pg s.
Proof.
  intros He Hs [h Hh] Hg. unfold reload. destruct (exists_ (head_of pg)) eqn:Ex; [done|]. specialize (Hg eq_refl).
  assert (exists_ h = false) as Ehx by (unfold head_of in Ex; by rewrite Hh in Ex).
  unfold read_object, find_object_context, get_snapset_context. rewrite !(FindFacts.get_context env _ He). cbn [contexts ssc ssc_exists orb snapset].
  destruct (Z.eqb_spec s NOSNAP) as [->|Hn]; cbn [mbind option_bind].
  - rewrite lookup_delete_eq, Hh. cbn. by rewrite Ehx.
  - rewrite Hh. destruct (ssc_exists (ssc pg)) eqn:Es; [|done]. rewrite Es, Hg. cbn [orb negb]. destruct (seq (snapset (ssc pg)) <? s); [|done]. cbn. by rewrite Ehx.
Qed.
End Requests.

(** ** Facts on the specification *)

Module SpecFacts.
Import ObjectData ObjectInfo PrimaryLogPG SnapSpec CloneFacts OverlapFacts Requests.

(** What is frozen stays. *)
Lemma commit_frozen env a w s : s <= aseq a -> frozen (spec_commit env a w) !! s = frozen a !! s.
Proof.
  intros Hs. assert (forall d, freeze (List.filter (fun s => aseq a <? s) (snapc_snaps (snapc env))) d (frozen a) !! s = frozen a !! s) as Hf.
  { intros d. rewrite freeze_lookup, bool_decide_false; [done|]. rewrite in_filter. intros [_ E]. zbool. lia. }
  assert (forall x, frozen x !! s = frozen a !! s -> frozen (forget x) !! s = frozen a !! s) as Hg.
  { intros x Hx. unfold forget. destruct (_ && _) eqn:E; [|done]. apply andb_true_iff in E as [_ E]. apply bool_decide_eq_true in E. rewrite E in Hx. done. }
  apply Hg. cbn. by destruct (cur a).
Qed.
Lemma commit_seq env a w : aseq a <= aseq (spec_commit env a w) \/ spec_commit env a w = initial.
Proof. unfold spec_commit, forget. destruct (_ && _); [by right|left; cbn; lia]. Qed.
Lemma visible_kept env env' a ops s : s <> NOSNAP -> s <= aseq a ->
  visible env (spec_execute env' a ops).2 s = visible env a s.
Proof.
  intros Hn Hs. unfold spec_execute. destruct (negb _); [done|]. destruct (spec_ops _ _ _ _) as [r w]. destruct (_ || _); [done|]. cbn [snd].
  unfold visible, read. rewrite (proj2 (Z.eqb_neq s NOSNAP)) by done. cbn [orb]. rewrite (proj2 (Z.leb_le s (aseq a))), (proj2 (Z.ltb_ge (aseq a) s)) by lia.
  rewrite <- (commit_frozen env' a w s Hs). destruct (commit_seq env' a w) as [Hq|E].
  - by rewrite (proj2 (Z.leb_le s _)), (proj2 (Z.ltb_ge _ s)) by lia.
  - rewrite E. cbn. rewrite lookup_empty. by repeat case_match.
Qed.

(** What a trim leaves to be seen. *)
Lemma visible_trim env pg cl a : represents (osd_max_object_size env) pg cl a -> forall cl1 k cl2, cl = cl1 ++ k :: cl2 -> forall snap s,
  visible env (TrimFacts.spec_trim env a k snap) s =
  if bool_decide (s ∈ c_snaps k) && (in_removed_snaps_queue env s || (s =? snap)) then None else visible env a s.
Proof.
  intros Hr cl1 k cl2 Hcl snap s. destruct (r_seq _ _ _ _ Hr) as [[_ Hq] Hids].
  assert (s ∈ c_snaps k -> s <= aseq a) as Hle.
  { intros Hin. pose proof (r_ordered _ _ _ _ Hr) as Ho. rewrite Hcl in Ho, Hids. apply ordered_app in Ho as [_ Ho]. cbn in Ho. destruct Ho as (_&_&_&Hb&_).
    rewrite Forall_forall in Hb. specialize (Hb s Hin). rewrite Forall_app, Forall_cons in Hids. destruct Hids as (_&?&_). lia. }
  assert (bool_decide (s ∈ TrimFacts.gone env k snap) = bool_decide (s ∈ c_snaps k) && (in_removed_snaps_queue env s || (s =? snap))) as Hg.
  { unfold TrimFacts.gone. rewrite (bool_decide_ext _ _ (in_filter _ _ _)). unfold TrimFacts.goes. destruct (_ || _); [rewrite andb_true_r|rewrite andb_false_r].
    - apply bool_decide_ext. naive_solver.
    - apply bool_decide_eq_false. naive_solver. }
  rewrite <- Hg. pose proof (TrimSets.drop_lookup (TrimFacts.gone env k snap) (frozen a) s) as Hd.
  unfold TrimFacts.spec_trim, forget. cbn [cur frozen]. destruct (bool_decide (cur a = None) && bool_decide (_ = ∅)) eqn:E; unfold visible, read.
  - apply andb_true_iff in E as [E1 E2]. apply bool_decide_eq_true in E1, E2. rewrite E2, lookup_empty in Hd. cbn. rewrite E1, lookup_empty.
    destruct (bool_decide (s ∈ TrimFacts.gone env k snap)); [by repeat case_match|]. rewrite <- Hd. by repeat case_match.
  - cbn [cur frozen aseq]. rewrite Hd. destruct (bool_decide (s ∈ TrimFacts.gone env k snap)) eqn:Eg; [|done].
    symmetry in Hg. apply andb_true_iff in Hg as [Hin _]. apply bool_decide_eq_true in Hin. specialize (Hle Hin).
    rewrite (proj2 (Z.eqb_neq s NOSNAP)), (proj2 (Z.ltb_ge (aseq a) s)) by (unfold CEPH_MAXSNAP, Hobject.Hobject.CEPH_NOSNAP in *; lia). cbn. by case_match.
Qed.
End SpecFacts.

(** ** A pool and requests to evaluate *)

Module SnapExamples.
Import ObjectData ObjectInfo PrimaryLogPG SnapSpec Requests.

(** A replicated pool with objects of at most 1000 bytes, a simple checksum, and
    encoders that keep a number each. *)
Definition pool (c : SnapContext) : Env := {|
  snapc := c; undirty := false; cache_evict := false; ignore_cache := false; reqid := 7; op_mtime := 1; now := 1;
  last_user_version := 0; may_write := true; allows_returnvec := false; is_mds := false; full_force := false; full_try := false;
  pool_full := false; pool_full_quota := false; cache_mode_none := true; pool_is_tier := false; is_erasure := false;
  ec_overwrites := false; stripe_width := 0; incomplete_clones := false; write_fadvise_dontneed := false;
  osd_max_object_size := 1000; skip_data_digest := false; kraken := true; octopus := true; osd_debug_verify_snaps := true;
  in_removed_snaps_queue := fun _ => false; is_removed_snap := fun _ => false; is_missing := fun _ => false;
  reverting := fun _ => false; is_degraded := fun _ => false; tier_mode_result := fun _ _ => NOOP;
  crc32c := fun c b => foldl (fun c x => (31 * c + x + 1) mod two32) c b; encode_info := fun x => [size x]; encode_snapset := fun s => clones s
|}.
Definition op_write (off : Z) (l : bytes) : OSDOp := mk_op WRITE 0 off (zlen l) 0 0 0 l.
Definition op_delete : OSDOp := mk_op DELETE 0 0 0 0 0 0 [].
Definition op_rollback (s : Z) : OSDOp := mk_op ROLLBACK 0 0 0 0 0 s [].
Definition req (c : SnapContext) (ops : list OSDOp) : request := mk_req (pool c) (Eversion.ev 1 1) ops.

(** A write, a write after snapshot 3, a deletion after snapshot 5. *)
Definition history : list request :=
  [req (mk_snapc 0 []) [op_write 0 [1; 2; 3; 4]]; req (mk_snapc 3 [3; 2]) [op_write 1 [9]]; req (mk_snapc 5 [5; 3; 2]) [op_delete]].
(** And a rollback to snapshot 2, extended. *)
Definition restore : request := req (mk_snapc 5 [5; 3; 2]) [op_rollback 2; op_write 6 [7]].
Definition pg_after (l : list request) : PG := match execute_all l empty_pg with Some (_, pg) => pg | None => empty_pg end.

Lemma pool_plain c : 0 <= snapc_seq c -> plain_pool (pool c).
Proof. intros. split; cbn; done. Qed.
Lemma history_ok : Forall (request_ok 1000) history.
Proof.
  repeat constructor; try (by apply pool_plain); try done; cbn; try lia; try (intros; discriminate).
Qed.
Lemma restore_ok : request_ok 1000 restore.
Proof.
  repeat constructor; try (by apply pool_plain); try done; cbn; try lia; try (intros; discriminate).
Qed.
Lemma after_reached l : Forall (request_ok 1000) l -> bool_decide (is_Some (execute_all l empty_pg)) = true -> reached 1000 (pg_after l).
Proof.
  intros Hl Hs. apply bool_decide_eq_true in Hs as [[rs pg] Hx]. unfold pg_after. rewrite Hx. eapply execute_all_reached; [constructor|exact Hl|exact Hx].
Qed.
Lemma history_reached : reached 1000 (pg_after history).
Proof. apply after_reached; [apply history_ok|]. vm_compute. reflexivity. Qed.
Lemma early_reached : reached 1000 (pg_after (take 2 history)).
Proof. apply after_reached; [apply Forall_take, history_ok|]. vm_compute. reflexivity. Qed.
End SnapExamples.

(** ** Theorems *)

Module SnapTheorems.
Import interval_set IntervalFacts CleanRegions CleanRegionsFacts ObjectData DataFacts ObjectInfo PrimaryLogPG SnapSpec CloneFacts OverlapFacts TrimObject Requests SnapExamples.

(** C17: Snapshots read what they should.  Any sequence of covered requests on an
    object that does not exist yet (vectors of [WRITE], [WRITEFULL], [ZERO],
    [TRUNCATE], [TRIMTRUNC], [CREATE], [DELETE] and [ROLLBACK] with snapshot contexts
    of their own) runs without failing an assertion, returns the codes of the
    specification, and leaves an object whose head and whose every snapshot read the
    contents the specification keeps for them: through clones, whiteouts, overlaps and
    rollbacks.

    Covered ([request_ok]) are requests to a replicated pool that is no cache tier, is
    not full and has every object at hand ([plain_pool]), whose vector is not empty and
    has [DELETE] or [ROLLBACK] in first place only, and whose operations ([op_ok]) have
    offsets, lengths and truncation sizes in range, with at least one byte in a
    [WRITEFULL], and at least one byte, an end within the maximal object size and no
    truncation sequence in a [ZERO], and a [TRUNCATE] with a truncation sequence
    cutting where that says.  The conditions
    on operations are needed: a [ZERO] of no bytes or with a truncation sequence can
    abort ([SnapFindings.zero_fails_assertion]), an empty [WRITEFULL] of a deleted
    object does nothing ([SnapFindings.empty_writefull_does_nothing]), and a [ROLLBACK]
    behind other operations may keep what they wrote
    ([SnapFindings.rollback_keeps_own_write]). *)
Theorem requests_refine max l env s :
  Forall (request_ok max) l -> plain_pool env -> osd_max_object_size env = max -> s = NOSNAP \/ s <= CEPH_MAXSNAP ->
  exists pg, execute_all l empty_pg = Some ((spec_all l initial).1, pg) /\
    read_object env pg s = Some (visible env (spec_all l initial).2 s).
Proof.
  intros Hl He <- Hs. destruct (execute_all_ok _ l empty_pg [] initial Hl) as (pg&cl&Hx&Hr).
  - apply represents_empty. destruct (e_max _ He). lia.
  - exists pg. split; [done|]. by apply (read_ok env pg cl).
Qed.
Lemma requests_refine_witness :
  exists pg, execute_all (history ++ [restore]) empty_pg = Some ([0; 0; 0; 0], pg) /\
    read_object (pool (mk_snapc 0 [])) pg 3 = Some (Some [1; 2; 3; 4]).
Proof.
  destruct (requests_refine 1000 (history ++ [restore]) (pool (mk_snapc 0 [])) 3) as (pg&Hx&Hr).
  - apply Forall_app. split; [apply history_ok|]. constructor; [apply restore_ok|constructor].
  - apply pool_plain. reflexivity.
  - reflexivity.
  - right. discriminate.
  - exists pg. split; [exact Hx|exact Hr].
Defined.

(** C18: A snapshot that was taken (not newer than the [seq] of the snapset) is not
    changed by any later request that [request_ok] covers: what it reads stays the
    same, whatever is written to, cut from, rolled back or deleted at the head. *)
Theorem snapshots_immutable max pg q env s l r pg' :
  reached max pg -> request_ok max q -> plain_pool env -> osd_max_object_size env = max ->
  s <= seq (snapset (ssc pg)) -> execute (q_env q) pg (q_version q) (q_ops q) = Some (r, l, pg') ->
  read_object env pg' s = read_object env pg s.
Proof.
  intros Hre (Hp&Hm&Ho) He Hm' Hs Hx. destruct (reached_represents max pg) as (cl&a&Hr); [destruct (e_max _ He); lia|done|].
  rewrite <- Hm in Hr. destruct (RequestFacts.execute_ok _ pg cl a Hp Hr (q_version q) (q_ops q) Ho) as (l1&pg1&cl1&Hx1&Hr1&_).
  rewrite Hx in Hx1. injection Hx1 as _ _ <-. destruct (r_snapset _ _ _ _ Hr) as [sn Hss]. rewrite Hss in Hs. cbn in Hs.
  destruct (r_seq _ _ _ _ Hr) as [[_ Hq] _]. rewrite Hm, <- Hm' in Hr, Hr1.
  rewrite (read_ok env pg cl a He Hr s), (read_ok env pg' cl1 _ He Hr1 s) by lia. f_equal.
  apply SpecFacts.visible_kept; [|done]. unfold CEPH_MAXSNAP, Hobject.Hobject.CEPH_NOSNAP in *. lia.
Qed.
Lemma snapshots_immutable_witness :
  match execute (q_env restore) (pg_after history) (q_version restore) (q_ops restore) with
  | Some (_, _, pg') => read_object (pool (mk_snapc 0 [])) pg' 5 = read_object (pool (mk_snapc 0 [])) (pg_after history) 5
  | None => False
  end.
Proof.
  assert (bool_decide (is_Some (execute (q_env restore) (pg_after history) (q_version restore) (q_ops restore))) = true) as Hs
    by (vm_compute; reflexivity).
  apply bool_decide_eq_true in Hs as [[[r l] pg'] Hx]. rewrite Hx.
  apply (snapshots_immutable 1000 (pg_after history) restore _ 5 l r pg').
  - apply history_reached.
  - apply restore_ok.
  - apply pool_plain. reflexivity.
  - reflexivity.
  - vm_compute. discriminate.
  - exact Hx.
Defined.

(** C20: The statistics are exact.  After any sequence of covered requests and trims
    ([reached]) [num_bytes] is the size of the head and what [get_clone_bytes] charges
    to the clones (whose assertion never fails), [num_objects] counts head and clones,
    [num_object_clones] the clones, [num_whiteouts] a head that is a whiteout, and
    nothing is pinned or has a manifest: the increments made along the way by the
    operations, [make_writeable], [_delete_oid] and [trim_object] add up. *)
Theorem statistics_exact max pg :
  0 <= max <= two32 -> reached max pg ->
  exists l, mapM (fun k => get_clone_bytes k (snapset (ssc pg))) (clones (snapset (ssc pg))) = Some l /\
    let n := Z.of_nat (List.length (clones (snapset (ssc pg)))) in
    let head := head_of pg in
    pg_stats pg num_bytes = (if exists_ head then size (oi head) else 0) + SnapsetFacts.sum l /\
    pg_stats pg num_objects = Z.b2z (exists_ head) + n /\
    pg_stats pg num_object_clones = n /\
    pg_stats pg num_whiteouts = Z.b2z (exists_ head && is_whiteout (oi head)) /\
    pg_stats pg num_objects_pinned = 0 /\ pg_stats pg num_objects_manifest = 0.
Proof.
  intros Hm Hre. destruct (reached_represents max pg) as (cl&a&Hr); [lia|done|]. eexists.
  split; [apply (SnapsetFacts.all_clone_bytes max pg cl a); (done || lia)|]. destruct (r_snapset _ _ _ _ Hr) as [sn Hss].
  assert (List.length (clones (snapset (ssc pg))) = List.length cl) as -> by (rewrite Hss; cbn; by rewrite length_fmap). cbv zeta.
  pose proof (r_clones _ _ _ _ Hr) as Hk. rewrite Forall_forall in Hk. destruct (r_plain _ _ _ _ Hr) as [Hp1 Hp2].
  assert (forall k n, tracked k -> (forall c, c ∈ cl -> clone_weight k c = n) -> pg_stats pg k = weight k (head_of pg) + n * Z.of_nat (List.length cl)) as Hc.
  { intros k n Hk' Hn. by rewrite (r_stats _ _ _ _ Hr k Hk'), (SnapsetFacts.sum_same cl k n Hn). }
  split; [rewrite (r_stats _ _ _ _ Hr num_bytes) by done; rewrite SnapsetFacts.sum_weight; done|].
  rewrite (Hc num_objects 1), (Hc num_object_clones 1), (Hc num_whiteouts 0), (Hc num_objects_pinned 0), (Hc num_objects_manifest 0);
    try done; try (intros c Hin; destruct (Hk c Hin) as [_ _ _ _ Hw [Hq1 Hq2]]; cbn; rewrite ?Hw, ?Hq1, ?Hq2; done).
  unfold weight. rewrite Hp1, Hp2. destruct (exists_ (head_of pg)); cbn [Z.b2z andb]; split_and!; lia.
Qed.
Lemma statistics_exact_witness :
  exists l, mapM (fun k => get_clone_bytes k (snapset (ssc (pg_after history)))) (clones (snapset (ssc (pg_after history)))) = Some l /\
    pg_stats (pg_after history) num_objects = 3.
Proof.
  destruct (statistics_exact 1000 (pg_after history)) as (l&Hl&_&Hn&_).
  - lia.
  - apply history_reached.
  - exists l. split; [exact Hl|]. rewrite Hn. vm_compute. reflexivity.
Defined.

(** C21: Overlaps are sound.  After any sequence of covered requests and trims, the bytes that
    [clone_overlap] says a clone shares with the next newer version are inside both
    objects in the store and equal there, so that recovery and [get_clone_bytes] may
    treat them as one copy. *)
Theorem overlaps_sound max pg i c n ov x :
  0 <= max <= two32 -> reached max pg ->
  (clones (snapset (ssc pg)) ++ [NOSNAP]) !! i = Some c -> (clones (snapset (ssc pg)) ++ [NOSNAP]) !! S i = Some n ->
  SnapMap.find c (clone_overlap (snapset (ssc pg))) = Some ov -> In_set x ov ->
  exists o p, disk pg !! c = Some o /\ disk pg !! n = Some p /\ x < zlen (data o) /\ x < zlen (data p) /\ byte (data o) x = byte (data p) x.
Proof.
  intros Hm Hre Hc Hn Hov Hx. destruct (reached_represents max pg) as (cl&a&Hr); [lia|done|]. destruct (r_snapset _ _ _ _ Hr) as [sn Hss].
  rewrite Hss in *. cbn [clones clone_overlap snapset_of] in *. pose proof (r_clones _ _ _ _ Hr) as Hk. rewrite Forall_forall in Hk.
  assert (i < List.length cl)%nat as Hi.
  { apply lookup_lt_Some in Hn. rewrite length_app, length_fmap in Hn. cbn in Hn. lia. }
  destruct (lookup_lt_is_Some_2 cl i Hi) as [k Hik]. rewrite lookup_app_l, list_lookup_fmap, Hik in Hc by (rewrite length_fmap; lia).
  injection Hc as <-. assert (k ∈ cl) as Hin by (by eapply list_elem_of_lookup_2).
  rewrite (SnapsetFacts.find_clone max pg cl a Hr c_overlap k Hin) in Hov. injection Hov as <-.
  pose proof (SnapsetFacts.chain_next cl i k _ (r_chain _ _ _ _ Hr) Hik) as [[Hw _] Hs]. destruct (Hs x Hx) as (X1&X2&X3).
  pose proof (mem_bounds _ _ _ Hw Hx) as X0.
  pose proof (co_disk _ _ (Hk k Hin)) as Hd. destruct (disk pg !! c_id k) as [o|]; [|done]. injection Hd as Hd.
  assert (exists p, disk pg !! n = Some p /\ data p = match cl !! S i with Some d => c_data d | None => default [] (cur a) end) as (p&Hp1&Hp2).
  { destruct (cl !! S i) as [d|] eqn:Ed.
    - rewrite lookup_app_l, list_lookup_fmap, Ed in Hn by (rewrite length_fmap; by eapply lookup_lt_Some). injection Hn as <-.
      assert (d ∈ cl) as Hd' by (by eapply list_elem_of_lookup_2). pose proof (co_disk _ _ (Hk d Hd')) as Hdd.
      destruct (disk pg !! c_id d) as [p|]; [|done]. injection Hdd as Hdd. eauto.
    - apply lookup_ge_None in Ed. rewrite lookup_app_r in Hn by (rewrite length_fmap; lia). rewrite length_fmap in Hn.
      replace (S i - List.length cl)%nat with O in Hn by lia. injection Hn as <-. pose proof (SnapsetFacts.head_bytes max pg cl a Hr) as Hb.
      destruct (disk pg !! NOSNAP) as [p|]; [by eauto|]. cbn in Hb. rewrite <- Hb in X2. change (zlen []) with 0 in X2. lia. }
  exists o, p. rewrite Hd, Hp2. done.
Qed.
Lemma overlaps_sound_witness :
  exists o p, disk (pg_after (take 2 history)) !! 3 = Some o /\ disk (pg_after (take 2 history)) !! NOSNAP = Some p /\
    2 < zlen (data o) /\ 2 < zlen (data p) /\ byte (data o) 2 = byte (data p) 2.
Proof.
  apply (overlaps_sound 1000 (pg_after (take 2 history)) 0 3 NOSNAP (mk 3 [(0, 1); (2, 2)]) 2).
  - lia.
  - apply early_reached.
  - vm_compute. reflexivity.
  - vm_compute. reflexivity.
  - vm_compute. reflexivity.
  - right. left. lia.
Defined.

(** C22: Partial recovery is sound.  The clean regions in the log entry of a covered
    request name only bytes that the request did not change: a replica that misses the request
    and copies the rest of the object has the whole of it. *)
Theorem clean_regions_sound max pg q r l pg' e cr x :
  reached max pg -> request_ok max q -> execute (q_env q) pg (q_version q) (q_ops q) = Some (r, l, pg') ->
  last l = Some e -> le_clean_regions e = Some cr -> clean cr x ->
  byte (default [] (data <$> disk pg' !! NOSNAP)) x = byte (default [] (data <$> disk pg !! NOSNAP)) x.
Proof.
  intros Hre (Hp&Hm&Ho) Hx Hl Hc Hcl. destruct (reached_represents max pg) as (cl&a&Hr); [destruct (e_max _ Hp); lia|done|].
  rewrite <- Hm in Hr. destruct (RequestFacts.execute_ok _ pg cl a Hp Hr (q_version q) (q_ops q) Ho) as (l1&pg1&cl1&Hx1&Hr1&Hcr).
  rewrite Hx in Hx1. injection Hx1 as _ <- <-. rewrite (SnapsetFacts.head_bytes _ pg cl a Hr), (SnapsetFacts.head_bytes _ pg' cl1 _ Hr1). eauto.
Qed.
Lemma clean_regions_sound_witness :
  match execute (q_env restore) (pg_after history) (q_version restore) (q_ops restore) with
  | Some (_, _, pg') =>
    byte (default [] (data <$> disk pg' !! NOSNAP)) 500 = byte (default [] (data <$> disk (pg_after history) !! NOSNAP)) 500
  | None => False
  end.
Proof.
  assert (clean_offsets <$> (x ← execute (q_env restore) (pg_after history) (q_version restore) (q_ops restore); e ← last x.1.2; le_clean_regions e) =
    Some (mk 18446744073709551610 [(4, 2); (7, 18446744073709551608)])) as Hs by (vm_compute; reflexivity).
  destruct (execute (q_env restore) (pg_after history) (q_version restore) (q_ops restore)) as [[[r l] pg']|] eqn:Hx; [|discriminate].
  cbn in Hs. destruct (last l) as [e|] eqn:Hl; [|discriminate]. cbn in Hs. destruct (le_clean_regions e) as [cr|] eqn:Hc; [|discriminate].
  injection Hs as Hcr.
  apply (clean_regions_sound 1000 (pg_after history) restore r l pg' e cr 500).
  - apply history_reached.
  - apply restore_ok.
  - exact Hx.
  - exact Hl.
  - exact Hc.
  - unfold clean. rewrite Hcr. right. left. lia.
Defined.
(** C19: Trimming removes exactly the snapshot.  In a plain pool that is no tier,
    [trim_object] on a clone, with the locks of clone and head available, succeeds without failing an assertion, and afterwards the snapshots of that clone that are
    trimmed or queued for removal read as absent, and every other snapshot and the head
    read as before: also when the clone is removed, its overlap merged into the next
    older clone, or a whiteout head removed with the last clone. *)
Theorem trim_removes_exactly max pg env v coid snap snaps s :
  0 <= max -> reached max pg -> trim_ok max env -> s = NOSNAP \/ s <= CEPH_MAXSNAP ->
  SnapMap.find coid (clone_snaps (snapset (ssc pg))) = Some snaps ->
  exists l pg', trim env pg true true v coid snap = Some (0, l, pg') /\
    read_object env pg' s =
    (if bool_decide (s ∈ snaps) && (in_removed_snaps_queue env s || (s =? snap)) then Some None else read_object env pg s).
Proof.
  intros Hm Hre (Hp&Ht&<-) Hs Hf. destruct (reached_represents _ pg Hm Hre) as (cl&a&Hr). destruct (r_snapset _ _ _ _ Hr) as [sn Hss].
  rewrite Hss in Hf. apply find_in in Hf as (k&Hk&<-&<-). apply list_elem_of_split in Hk as (cl1&cl2&Hcl).
  destruct (TrimFacts.trim_object_ok env pg cl a Hp Ht Hr cl1 k cl2 Hcl snap v) as (l&pg'&cl'&Hx&Hr'&Hc&Hg). exists l, pg'. split; [done|].
  rewrite <- (reload_reads env pg' s Hp Hs Hc Hg), (read_ok env _ cl' _ Hp Hr' s Hs), (read_ok env pg cl a Hp Hr s Hs).
  rewrite (SpecFacts.visible_trim env pg cl a Hr cl1 k cl2 Hcl snap s). by destruct (_ && _).
Qed.
Lemma trim_removes_exactly_witness :
  exists l pg', trim (pool (mk_snapc 0 [])) (pg_after history) true true (Eversion.ev 1 9) 3 2 = Some (0, l, pg') /\
    read_object (pool (mk_snapc 0 [])) pg' 2 = Some None.
Proof.
  apply (trim_removes_exactly 1000 (pg_after history) (pool (mk_snapc 0 [])) (Eversion.ev 1 9) 3 2 [3; 2] 2).
  - lia.
  - apply history_reached.
  - split; [apply pool_plain; reflexivity|]. split; reflexivity.
  - right. discriminate.
  - vm_compute. reflexivity.
Defined.
End SnapTheorems.
