(* ===== verification/SnapFindings.v ===== *)
(** Runs in which requests do what their clients do not expect. *)
From stdpp Require Import strings.
From S2P Require Import Prelude IntervalSet CleanRegions PgMissing IntervalMap PgTransaction ObjectInfo PrimaryLogPG TrimObject SnapSpec SnapTheorems.
#[local] Open Scope Z_scope.

Module SnapFindings.
Import ObjectData ObjectInfo PrimaryLogPG TrimObject SnapSpec Requests SnapExamples.

(** What is seen of a state: the contents of the head, its context's flags and the
    clones. *)
Definition head_data (pg : PG) : option bytes := data <$> disk pg !! NOSNAP.
Definition view (r : option (Z * list log_entry * PG)) : option (Z * option bytes * bool * list Z) :=
  '(r, _, pg) ← r; Some (r, head_data pg, is_whiteout (oi (head_of pg)), clones (snapset (ssc pg))).
Definition run (pg : PG) (c : SnapContext) (ops : list OSDOp) : option (Z * list log_entry * PG) :=
  execute (pool c) pg (Eversion.ev 1 2) ops.
Definition no_snaps : SnapContext := mk_snapc 0 [].
Definition written : PG := pg_after [req no_snaps [op_write 0 [1; 2; 3; 4]]].

(** A write of no bytes past the end extends the object with zeros and keeps the
    data digest of the shorter contents. *)
Theorem empty_write_keeps_digest :
  match run written no_snaps [op_write 8 []] with
  | Some (r, _, pg) =>
    r = 0 /\ head_data pg = Some [1; 2; 3; 4; 0; 0; 0; 0] /\ is_data_digest (oi (head_of pg)) = true /\
    data_digest (oi (head_of pg)) <> crc32c (pool no_snaps) (two32 - 1) [1; 2; 3; 4; 0; 0; 0; 0]
  | None => False
  end.
Proof. vm_compute. split_and!; (reflexivity || discriminate). Qed.

(** An empty [WRITEFULL] on an object that was deleted and has clones returns success
    and leaves it deleted; nothing is logged. *)
Theorem empty_writefull_does_nothing :
  match run (pg_after history) no_snaps [mk_op WRITEFULL 0 0 0 0 0 0 []] with
  | Some (r, l, pg) => r = 0 /\ l = [] /\ read_object (pool no_snaps) pg NOSNAP = Some None
  | None => False
  end.
Proof. vm_compute. split_and!; reflexivity. Qed.

(** [ZERO] of no bytes fails an assertion, and so does one that reaches the end of the
    object with a truncation elsewhere. *)
Theorem zero_fails_assertion :
  run written no_snaps [mk_op ZERO 0 0 0 0 0 0 []] = None /\ run written no_snaps [mk_op ZERO 0 1 8 5 1 0 []] = None.
Proof. vm_compute. split; reflexivity. Qed.

(** The truncation that comes with a write may exceed the largest object. *)
Theorem early_truncate_unbounded :
  match run written no_snaps [mk_op WRITE 0 0 1 1001 1 0 [5]] with
  | Some (r, _, pg) => r = 0 /\ size (oi (head_of pg)) = 1001 /\ osd_max_object_size (pool no_snaps) = 1000
  | None => False
  end.
Proof. vm_compute. split_and!; reflexivity. Qed.

(** A rollback to a snapshot newer than the object does not undo a write of its own
    request. *)
Theorem rollback_keeps_own_write :
  view (run written (mk_snapc 9 [9]) [op_write 0 [7]; op_rollback 9]) = Some (0, Some [7; 2; 3; 4], false, [9]).
Proof. vm_compute. reflexivity. Qed.

(** An object that a request creates and deletes is left as a whiteout without
    clones. *)
Theorem create_delete_leaves_whiteout :
  view (run empty_pg (mk_snapc 3 [3]) [mk_op CREATE 0 0 0 0 0 0 []; op_delete]) = Some (0, Some [], true, []).
Proof. vm_compute. reflexivity. Qed.

Definition trim_next (coid snap : Z) (pg : option PG) : option PG :=
  pg ← pg; '(_, _, pg) ← trim (pool no_snaps) pg true true (Eversion.ev 1 9) coid snap; Some pg.
(** When the last trim removes a whiteout head, the snapset in memory still exists and
    keeps its [seq]; a deletion by a request resets it. *)
Theorem trim_keeps_snapset :
  match trim_next 5 5 (trim_next 3 2 (trim_next 3 3 (Some (pg_after history)))) with
  | Some pg => exists_ (head_of pg) = false /\ disk pg = ∅ /\ ssc_exists (ssc pg) = true /\ seq (snapset (ssc pg)) = 5
  | None => False
  end.
Proof. vm_compute. split_and!; reflexivity. Qed.

(** The manifest of a whiteout head that a trim removes is not uncounted: the test is
    made on the clone. *)
Theorem trim_counts_manifest :
  let head := mk_obs (set_flags (Z.lor FLAG_WHITEOUT FLAG_MANIFEST) (new_info NOSNAP)) true in
  match finish_head (pool no_snaps) (mk_trim (mk_obs (new_info 3) false) head no_snapset no_stats ∅ (Eversion.ev 1 9) []) with
  | Some x => exists_ (head_obs x) = false /\ trim_stats x num_objects = -1 /\ trim_stats x num_objects_manifest = 0
  | None => False
  end.
Proof. vm_compute. split_and!; reflexivity. Qed.
End SnapFindings.
