(* ===== verification/ObjectKeys.v ===== *)
(** The string forms of object names, common/hobject.cc: [to_str], the prefixes
    under which a placement group's names sort ([get_prefixes]), and the keys
    that osd/SnapMapper.cc builds from them.  A string is the list of its
    bytes. *)
From S2P Require Import Prelude Pg Hobject OrderedMap Encoding.
Import Hobject Bits.

Module Printf.

Definition digit (upper : bool) (d : Z) : Z := if d <? 10 then 48 + d else if upper then 55 + d else 87 + d.

(** The last [n] digits of [v]. *)
Fixpoint digits (upper : bool) (base : Z) (n : nat) (v : Z) : list Z :=
  match n with O => [] | S n => digits upper base n (v / base) ++ [digit upper (v mod base)] end.
(** How many digits [v] has. *)
Fixpoint width (fuel : nat) (base v : Z) : nat :=
  match fuel with
  | O => 1
  | S fuel => if v <? base then 1 else S (width fuel base (v / base))
  end.

(** A 64-bit number has at most 64 digits. *)
Definition plain (upper : bool) (base v : Z) : list Z := digits upper base (width 64 base v) v.

(** [%.*X], [%.*llX] with a precision that covers the type; [%016llx]. *)
Definition hexX (n : nat) (v : Z) : list Z := digits true 16 n v.
Definition hex0 (n : nat) (v : Z) : list Z := digits false 16 n v.
(** [%x] and [%llx]; [%llu]; [%lld] and [std::to_string]. *)
Definition hex (v : Z) : list Z := plain false 16 v.
Definition dec (v : Z) : list Z := plain false 10 v.
Definition sdec (v : Z) : list Z := if v <? 0 then 45 :: dec (- v) else dec v.

End Printf.

Module ObjectKeys.
Import Printf.

Definition CEPH_SNAPDIR : Z := two64 - 1.

(** The characters the formats use. *)
Abbreviation DOT := 46 (only parsing).
Abbreviation UNDERSCORE := 95 (only parsing).
Abbreviation PERCENT := 37 (only parsing).

Fixpoint append_escaped (s : list Z) : list Z :=
  match s with
  | [] => []
  | c :: s =>
      (if c =? PERCENT then [PERCENT; 112]
       else if c =? DOT then [PERCENT; 101]
       else if c =? UNDERSCORE then [PERCENT; 117]
       else [c]) ++ append_escaped s
  end.

Definition head_str : list Z := [104; 101; 97; 100].
Definition snapdir_str : list Z := [115; 110; 97; 112; 100; 105; 114].
Definition snap_str (snap : Z) : list Z :=
  if snap =? CEPH_NOSNAP then head_str else if snap =? CEPH_SNAPDIR then snapdir_str else hex snap.

(** The body of [to_str], past the assertion of [get_nibblewise_key_u32]. *)
Definition object_str (h : hobject_t) : list Z :=
  hexX 16 (pool h mod two64) ++ DOT :: hexX 8 (nibblewise_key_cache h) ++ DOT :: snap_str (snap h) ++
  DOT :: append_escaped (oid h) ++ DOT :: append_escaped (key h) ++ DOT :: append_escaped (nspace h).
Definition to_str (h : hobject_t) : option (list Z) :=
  ceph_assert negb (max h);; Some (object_str h).

(** *** [get_prefixes] *)

(** [while (len % 4) len++]. *)
Definition nibble_len (bits : Z) : Z := if bits mod 4 =? 0 then bits else bits + (4 - bits mod 4).

(** One round of the loop over the bits that complete the last nibble: each hash
    with the bit and without. *)
Definition both (i : Z) (to : list Z) (j : Z) : list Z :=
  OrdMap.sinsert j (OrdMap.sinsert (Z.lor j (Z.shiftl 1 i)) to).
Definition with_bit (from : list Z) (i : Z) : list Z := foldl (both i) [] from.

Definition get_prefixes (bits mask pool : Z) : option (list (list Z)) :=
  let len := nibble_len bits in
  ceph_assert bits <=? 32;;
  let from := [if bits <? 32 then Z.land mask (u32 (Z.lnot (Z.shiftl (two32 - 1) bits))) else mask] in
  let from := foldl with_bit from (seqZ bits (len - bits)) in
  let poolstr := hexX 16 (pool mod two64) ++ [DOT] in
  let prefix i := poolstr ++ take (Z.to_nat (len / 4)) (hexX 8 (reverse_nibbles i)) in
  Some (foldl (fun ret i => OrdMap.sinsert (prefix i) ret) [] from).

(** *** The keys of SnapMapper *)

Definition MAPPING_PREFIX : list Z := [83; 78; 65; UNDERSCORE].
Definition OBJECT_PREFIX : list Z := [79; 66; 74; UNDERSCORE].
Definition LEGACY_MAPPING_PREFIX : list Z := [77; 65; 80; UNDERSCORE].
Definition PURGED_SNAP_PREFIX : list Z := [80; 83; 78; UNDERSCORE].

Definition NO_SHARD : Z := -1.

(** [int8_t] printed with [%x] of the [int] it converts to. *)
Definition make_shard_prefix (shard : Z) : list Z :=
  if shard =? NO_SHARD then [] else DOT :: hex (u32 shard) ++ [UNDERSCORE].

(** [static_cast<unsigned>(snap)] keeps the low 32 bits. *)
Definition get_prefix (pool snap : Z) : list Z :=
  MAPPING_PREFIX ++ sdec pool ++ UNDERSCORE :: hexX 16 (u32 snap) ++ [UNDERSCORE].
Definition to_raw_key (shard_prefix : list Z) (snap : Z) (h : hobject_t) : option (list Z) :=
  s ← to_str h; Some (get_prefix (pool h) snap ++ shard_prefix ++ s).
Definition to_object_key (shard_prefix : list Z) (h : hobject_t) : option (list Z) :=
  s ← to_str h; Some (OBJECT_PREFIX ++ shard_prefix ++ s).

(** [s.substr(0, p.size()) == p]. *)
Definition starts_with (p s : list Z) : bool := string_eq (take (length p) s) p.
Definition is_mapping (s : list Z) : bool := starts_with MAPPING_PREFIX s.

Definition get_legacy_prefix (snap : Z) : list Z :=
  LEGACY_MAPPING_PREFIX ++ hexX 16 (u32 snap) ++ [UNDERSCORE].
Definition to_legacy_raw_key (shard_prefix : list Z) (snap : Z) (h : hobject_t) : option (list Z) :=
  s ← to_str h; Some (get_legacy_prefix snap ++ shard_prefix ++ s).
Definition is_legacy_mapping (s : list Z) : bool := starts_with LEGACY_MAPPING_PREFIX s.

Definition make_purged_snap_key (pool last : Z) : list Z :=
  PURGED_SNAP_PREFIX ++ UNDERSCORE :: dec (pool mod two64) ++ UNDERSCORE :: hex0 16 last.

End ObjectKeys.

(** ** Numbers in strings *)
Module PrintfFacts.
Import Printf.

Section Digits.
Context (up : bool) (base : Z).
Hypothesis (Hbase : 2 <= base <= 16).

Lemma length_digits n v : length (digits up base n v) = n.
Proof. revert v. induction n as [|n IH]; intros v; simpl; [done|]. rewrite length_app, IH. simpl. lia. Qed.

Lemma digit_inj a b : 0 <= a < 16 -> 0 <= b < 16 -> digit up a = digit up b -> a = b.
Proof. unfold digit. intros. destruct up; case_tests; lia. Qed.

Lemma digits_mod n v : digits up base n (v mod base ^ Z.of_nat n) = digits up base n v.
Proof.
  revert v. induction n as [|n IH]; intros v; [done|]. simpl digits. rewrite Nat2Z.inj_succ, Z.pow_succ_r by lia.
  assert (0 < base ^ Z.of_nat n) by (apply Z.pow_pos_nonneg; lia).
  rewrite (Z.rem_mul_r v) by lia. rewrite Z.mul_comm, Z.div_add by lia.
  rewrite (Z.div_small (v mod base)) by (apply Z.mod_pos_bound; lia). rewrite Z.add_0_l, IH.
  rewrite Z.mod_add, Z.mod_mod by lia. done.
Qed.

Lemma digits_inj n v w : 0 <= v < base ^ Z.of_nat n -> 0 <= w < base ^ Z.of_nat n ->
  digits up base n v = digits up base n w -> v = w.
Proof.
  revert v w. induction n as [|n IH]; intros v w Hv Hw; [simpl in *; lia|].
  rewrite Nat2Z.inj_succ, Z.pow_succ_r in Hv, Hw by lia. intros [E1 E2]%app_inj_1; [|by rewrite !length_digits].
  injection E2 as E2. pose proof (Z.mod_pos_bound v base). pose proof (Z.mod_pos_bound w base).
  apply digit_inj in E2; [|lia|lia]. apply IH in E1.
  - rewrite (Z.div_mod v base), (Z.div_mod w base) by lia. congruence.
  - split; [apply Z.div_pos; lia|apply Z.div_lt_upper_bound; lia].
  - split; [apply Z.div_pos; lia|apply Z.div_lt_upper_bound; lia].
Qed.

(** The first digits are the digits of the quotient. *)
Lemma take_digits k n v : (k <= n)%nat ->
  take k (digits up base n v) = digits up base k (v / base ^ Z.of_nat (n - k)).
Proof.
  revert v. induction n as [|n IH]; intros v Hk.
  { replace k with 0%nat by lia. done. }
  destruct (decide (k = S n)) as [->|Hne].
  { rewrite take_ge by (rewrite length_digits; lia). by rewrite Nat.sub_diag, Z.pow_0_r, Z.div_1_r. }
  simpl digits. rewrite take_app_le by (rewrite length_digits; lia). rewrite IH by lia.
  rewrite Nat.sub_succ_l, Nat2Z.inj_succ, Z.pow_succ_r by lia. by rewrite Z.div_div by (try apply Z.pow_pos_nonneg; lia).
Qed.

(** Digits are letters and decimal digits. *)
Definition alnum (c : Z) : Prop := 48 <= c < 58 \/ 65 <= c < 71 \/ 97 <= c < 103.
Lemma digits_alnum n v : Forall alnum (digits up base n v).
Proof.
  revert v. induction n as [|n IH]; intros v; simpl; [constructor|]. apply Forall_app. split; [apply IH|].
  constructor; [|constructor]. pose proof (Z.mod_pos_bound v base). unfold digit, alnum. destruct up; case_tests; lia.
Qed.

Lemma width_bound fuel v : 0 <= v < base ^ (Z.of_nat fuel + 1) -> v < base ^ Z.of_nat (width fuel base v).
Proof.
  revert v. induction fuel as [|fuel IH]; intros v Hv; simpl width; [apply Hv|].
  rewrite Nat2Z.inj_succ, Z.add_succ_l, Z.pow_succ_r in Hv by lia.
  destruct (v <? base) eqn:E; zbool; [by rewrite Z.pow_1_r|]. rewrite Nat2Z.inj_succ, Z.pow_succ_r by lia.
  assert (v / base < base ^ Z.of_nat (width fuel base (v / base))).
  { apply IH. split; [apply Z.div_pos; lia|apply Z.div_lt_upper_bound; lia]. }
  rewrite (Z.div_mod v base) at 1 by lia. pose proof (Z.mod_pos_bound v base). nia.
Qed.

Lemma plain_inj v w : u64 v -> u64 w -> plain up base v = plain up base w -> v = w.
Proof.
  unfold u64, plain. intros Hv Hw E. pose proof (f_equal length E) as El. rewrite !length_digits in El.
  assert (two64 <= base ^ (Z.of_nat 64 + 1)) as Hbig.
  { etrans; [|apply Z.pow_le_mono_l; split; [|apply Hbase]; lia]. done. }
  apply (digits_inj (width 64 base v)).
  - split; [lia|]. apply width_bound. lia.
  - split; [lia|]. rewrite El. apply width_bound. lia.
  - by rewrite E, El.
Qed.
Lemma plain_alnum v : Forall alnum (plain up base v).
Proof. apply digits_alnum. Qed.
Lemma width_pos fuel v : (1 <= width fuel base v)%nat.
Proof. destruct fuel; simpl; [lia|]. case_match; lia. Qed.
End Digits.

(** Two strings that agree up to a separator that occurs in neither. *)
Lemma separated (c : Z) a b r s : c ∉ a -> c ∉ b -> a ++ c :: r = b ++ c :: s -> a = b /\ r = s.
Proof.
  revert b. induction a as [|x a IH]; intros [|y b] Ha Hb E; simpl in E; [by simplify_eq|set_solver..|].
  injection E as -> E. apply IH in E as [-> ->]; set_solver.
Qed.
Lemma alnum_not c l : Forall alnum l -> ~ alnum c -> c ∉ l.
Proof. rewrite Forall_forall. auto. Qed.

Lemma sdec_chars v : Forall (fun c => alnum c \/ c = 45) (sdec v).
Proof.
  unfold sdec. assert (forall w, Forall (fun c => alnum c \/ c = 45) (dec w)) as H.
  { intros w. eapply Forall_impl; [apply (plain_alnum false 10); lia|]. auto. }
  case_match; [constructor|]; auto.
Qed.
Lemma sdec_inj v w : INT64_MIN <= v < two64 / 2 -> INT64_MIN <= w < two64 / 2 -> sdec v = sdec w -> v = w.
Proof.
  unfold sdec, INT64_MIN. change (two64 / 2) with 9223372036854775808. intros Hv Hw.
  assert (forall x l, dec x <> 45 :: l) as Hd.
  { intros x l E. pose proof (plain_alnum false 10 ltac:(lia) x) as Hf. unfold dec in E. rewrite E in Hf.
    apply Forall_cons in Hf as [Hf _]. unfold alnum in Hf. lia. }
  destruct (v <? 0) eqn:E1, (w <? 0) eqn:E2; zbool; intros E.
  - injection E as E. apply plain_inj in E; unfold u64; lia.
  - symmetry in E. by apply Hd in E.
  - by apply Hd in E.
  - apply plain_inj in E; unfold u64; lia.
Qed.
End PrintfFacts.

(** ** Names and prefixes *)
Module KeyFacts.
Import HobjectFacts Printf PrintfFacts ObjectKeys Binning PgFacts PgRange.

(** *** Escaping *)

Lemma escaped_clean s : (DOT ∉ append_escaped s) /\ (UNDERSCORE ∉ append_escaped s).
Proof.
  induction s as [|c s [H1 H2]]; simpl; [set_solver|].
  destruct (c =? PERCENT) eqn:E1; [set_solver|]. destruct (c =? DOT) eqn:E2; [set_solver|].
  destruct (c =? UNDERSCORE) eqn:E3; [set_solver|]. zbool. set_solver.
Qed.
Lemma escaped_inj s t : append_escaped s = append_escaped t -> s = t.
Proof.
  revert t. induction s as [|c s IH]; intros [|d t]; simpl; try (case_tests; discriminate); [done|].
  intros E. destruct (c =? PERCENT) eqn:?, (d =? PERCENT) eqn:?, (c =? DOT) eqn:?, (d =? DOT) eqn:?,
    (c =? UNDERSCORE) eqn:?, (d =? UNDERSCORE) eqn:?; zbool; simplify_eq/=; f_equal; auto.
Qed.

(** *** The string form of a name determines the name *)

Lemma hex_clean c n v : ~ alnum c -> c ∉ hexX n v.
Proof. apply alnum_not, digits_alnum. lia. Qed.
Lemma snap_str_clean s : DOT ∉ snap_str s.
Proof.
  unfold snap_str. case_match; [vm_compute; set_solver|]. case_match; [vm_compute; set_solver|].
  apply (alnum_not DOT); [apply plain_alnum; lia|]. unfold alnum. lia.
Qed.
Lemma snap_str_inj s t : u64 s -> u64 t -> snap_str s = snap_str t -> s = t.
Proof.
  intros Hs Ht. unfold snap_str.
  assert (forall x, head_str <> hex x /\ snapdir_str <> hex x) as Hx.
  { intros x. pose proof (plain_alnum false 16 ltac:(lia) x) as Hf. unfold hex.
    split; intros E; rewrite <- E in Hf; repeat (apply Forall_cons in Hf as [? Hf]); unfold alnum in *; lia. }
  destruct (Hx s), (Hx t).
  destruct (s =? CEPH_NOSNAP) eqn:?, (t =? CEPH_NOSNAP) eqn:?, (s =? CEPH_SNAPDIR) eqn:?, (t =? CEPH_SNAPDIR) eqn:?;
    zbool; try congruence; intros E; try done; try (by symmetry in E).
  by apply plain_inj in E.
Qed.

Lemma pool_mod_inj a b : INT64_MIN <= a < two64 / 2 -> INT64_MIN <= b < two64 / 2 -> a mod two64 = b mod two64 -> a = b.
Proof. unfold INT64_MIN. intros. Z.div_mod_to_equations. lia. Qed.

(** *** Reversing the nibbles of a word *)

Lemma swap_nibbles v s m m' i : 0 <= s ->
  Z.testbit (Z.lor (u32 (Z.shiftl (Z.land v m) s)) (Z.shiftr (Z.land v m') s)) i = (0 <=? i) &&
  (((i <? 32) && (Z.testbit m (i - s) && Z.testbit v (i - s))) || (Z.testbit m' (i + s) && Z.testbit v (i + s))).
Proof.
  intros Hs. destruct (0 <=? i) eqn:E; zbool; [|by rewrite Z.testbit_neg_r].
  rewrite Z.lor_spec, testbit_u32, Z.shiftr_spec, Z.shiftl_spec, !Z.land_spec by done.
  by rewrite (andb_comm (Z.testbit m _)), (andb_comm (Z.testbit m' _)).
Qed.

Lemma reverse_nibbles_spec v i : 0 <= i < 32 ->
  Z.testbit (reverse_nibbles v) i = Z.testbit v (28 - 4 * (i / 4) + i mod 4).
Proof.
  unfold reverse_nibbles. cbv zeta. rewrite !swap_nibbles by lia. generalize (Z.testbit v). intros f. revert i.
  apply small_cases. repeat constructor; vm_compute; by repeat case_match.
Qed.

Lemma reverse_nibbles_range v : 0 <= reverse_nibbles v < two32.
Proof.
  unfold reverse_nibbles. cbv zeta. apply lor_range; [apply u32_range|].
  match goal with |- 0 <= Z.shiftr (Z.land ?x _) _ < _ => pose proof (land_range x 0xffff0000 ltac:(done)) as H; revert H; generalize (Z.land x 0xffff0000) end.
  intros y Hy. rewrite Z.shiftr_div_pow2 by done. split; [apply Z.div_pos; lia|apply Z.div_lt_upper_bound; lia].
Qed.

(** The leading nibbles of the reversed word are the low nibbles of the word. *)
Lemma reverse_nibbles_high v w k : 0 <= k <= 8 ->
  reverse_nibbles v / 16 ^ (8 - k) = reverse_nibbles w / 16 ^ (8 - k) <-> v mod 16 ^ k = w mod 16 ^ k.
Proof.
  intros Hk. change 16 with (2 ^ 4). rewrite <- !Z.pow_mul_r by lia. rewrite <- !Z.shiftr_div_pow2 by lia.
  split; intros E; apply Z.bits_inj'; intros i Hi.
  - destruct (Z.lt_ge_cases i (4 * k)); [|by rewrite !Z.mod_pow2_bits_high by lia].
    rewrite !Z.mod_pow2_bits_low by lia.
    apply (f_equal (fun x => Z.testbit x (4 * (k - 1 - i / 4) + i mod 4))) in E.
    rewrite !Z.shiftr_spec, !reverse_nibbles_spec in E by (Z.div_mod_to_equations; lia).
    replace (28 - 4 * ((4 * (k - 1 - i / 4) + i mod 4 + 4 * (8 - k)) / 4) + (4 * (k - 1 - i / 4) + i mod 4 + 4 * (8 - k)) mod 4) with i in E
      by (Z.div_mod_to_equations; lia). done.
  - rewrite !Z.shiftr_spec by lia. destruct (Z.lt_ge_cases i (4 * k)).
    2: { rewrite !testbit_high; try done; try apply reverse_nibbles_range; lia. }
    rewrite !reverse_nibbles_spec by lia.
    apply (f_equal (fun x => Z.testbit x (28 - 4 * ((i + 4 * (8 - k)) / 4) + (i + 4 * (8 - k)) mod 4))) in E.
    by rewrite !Z.mod_pow2_bits_low in E by (Z.div_mod_to_equations; lia).
Qed.
Lemma reverse_nibbles_inj v w : 0 <= v < two32 -> 0 <= w < two32 -> reverse_nibbles v = reverse_nibbles w -> v = w.
Proof.
  intros Hv Hw E. pose proof (proj1 (reverse_nibbles_high v w 8 ltac:(lia))) as H.
  change (16 ^ (8 - 8)) with 1 in H. rewrite !Z.div_1_r in H. specialize (H E).
  by rewrite !Z.mod_small in H by (change (16 ^ 8) with two32; lia).
Qed.

(** The pool in a name, and the rest of it. *)
Lemma object_str_inj a b : EncodingFacts.storable a -> EncodingFacts.storable b -> object_str a = object_str b -> a = b.
Proof.
  intros Ha Hb E. pose proof Ha as ((Wa1 & Wa2 & Wa3 & Wa4 & Wa5 & _) & Ma & Pa & _).
  pose proof Hb as ((Wb1 & Wb2 & Wb3 & Wb4 & Wb5 & _) & Mb & Pb & _).
  unfold object_str in E. apply separated in E as [E1 E]; [|apply hex_clean; unfold alnum; lia..].
  apply separated in E as [E2 E]; [|apply hex_clean; unfold alnum; lia..].
  apply separated in E as [E3 E]; [|apply snap_str_clean..].
  apply separated in E as [E4 E]; [|apply escaped_clean..].
  apply separated in E as [E5 E6]; [|apply escaped_clean..].
  apply digits_inj in E1; [|lia|apply Z.mod_pos_bound; lia..]. apply pool_mod_inj in E1; [|done..].
  rewrite Wa2, Wb2 in E2. apply digits_inj in E2; [|lia|apply reverse_nibbles_range..].
  apply reverse_nibbles_inj in E2; [|done..].
  apply snap_str_inj in E3; [|done..]. apply escaped_inj in E4, E5, E6.
  destruct a, b; simpl in *. congruence.
Qed.

(** *** The prefixes of a group *)

Lemma elem_both i to j x : x ∈ both i to j <-> x = j \/ x = Z.lor j (Z.shiftl 1 i) \/ x ∈ to.
Proof. unfold both. by rewrite !OrdMap.elem_sinsert. Qed.
Lemma elem_with_bit from i x : x ∈ with_bit from i <-> exists j, j ∈ from /\ (x = j \/ x = Z.lor j (Z.shiftl 1 i)).
Proof.
  unfold with_bit. enough (forall to, x ∈ foldl (both i) to from <->
    x ∈ to \/ exists j, j ∈ from /\ (x = j \/ x = Z.lor j (Z.shiftl 1 i))) as H by (rewrite H; set_solver).
  induction from as [|j from IH]; intros to; simpl; [set_solver|]. rewrite IH, elem_both.
  setoid_rewrite elem_of_cons. naive_solver.
Qed.

Lemma lor_high_bit j i : 0 <= j < 2 ^ i -> Z.lor j (Z.shiftl 1 i) = j + 2 ^ i.
Proof.
  intros Hj. assert (0 <= i) by (destruct (Z.lt_ge_cases i 0); [rewrite Z.pow_neg_r in Hj; lia|done]).
  rewrite Z.shiftl_1_l, <- Z.add_nocarry_lor; [done|]. apply Z.bits_inj'. intros k Hk.
  rewrite Z.land_spec, Z.pow2_bits_eqb, Z.bits_0 by done. destruct (i =? k) eqn:E; zbool; [subst|apply andb_false_r].
  rewrite andb_true_r. rewrite <- (Z.mod_small j (2 ^ k)) by done. by apply Z.mod_pow2_bits_high.
Qed.

(** The hashes built from [m]: those of the width that agree with it in the low bits. *)
Lemma elem_completed bits m n x : 0 <= bits -> 0 <= m < 2 ^ bits -> (0 <= n)%Z ->
  x ∈ foldl with_bit [m] (seqZ bits n) <-> 0 <= x < 2 ^ (bits + n) /\ x mod 2 ^ bits = m.
Proof.
  intros Hb Hm Hn. revert x. rewrite <- (Z2Nat.id n) by done. generalize (Z.to_nat n) as k. clear n Hn.
  induction k as [|k IH]; intros x.
  { rewrite Z.add_0_r. simpl. rewrite list_elem_of_singleton. split; [intros ->; rewrite Z.mod_small by done; done|].
    intros [H1 <-]. by rewrite Z.mod_small. }
  rewrite Nat2Z.inj_succ, <- Z.add_1_r, seqZ_app, foldl_app by lia. change (seqZ ?a 1) with [Z.of_nat 0 + a].
  change (Z.of_nat 0 + ?a) with a. simpl foldl. rewrite elem_with_bit.
  rewrite Z.add_assoc, Z.pow_add_r by lia. change (2 ^ 1) with 2.
  assert (2 ^ (bits + Z.of_nat k) = 2 ^ bits * 2 ^ Z.of_nat k) as Ep by (apply Z.pow_add_r; lia).
  assert (0 < 2 ^ Z.of_nat k) by (apply Z.pow_pos_nonneg; lia). split.
  - intros (j & [Hj Ej]%IH & [->| ->]); [by split; [lia|]|]. rewrite lor_high_bit by done. split; [lia|].
    rewrite Ep, Z.mul_comm, Z.mod_add by lia. done.
  - intros [Hx Ex]. destruct (Z.lt_ge_cases x (2 ^ (bits + Z.of_nat k))).
    + exists x. split; [apply IH; split; [lia|done]|by left].
    + exists (x - 2 ^ (bits + Z.of_nat k)). split.
      * apply IH. split; [lia|]. rewrite Ep, <- Ex. rewrite <- (Z.mod_add (x - _) (2 ^ Z.of_nat k)) by lia. f_equal. lia.
      * right. rewrite lor_high_bit by lia. lia.
Qed.

Lemma elem_inserted (f : Z -> list Z) l acc q :
  q ∈ foldl (fun ret i => OrdMap.sinsert (f i) ret) acc l <-> q ∈ acc \/ exists i, i ∈ l /\ q = f i.
Proof.
  revert acc. induction l as [|i l IH]; intros acc; simpl; [set_solver|]. rewrite IH, OrdMap.elem_sinsert.
  setoid_rewrite elem_of_cons. naive_solver.
Qed.
Lemma sorted_inserted (f : Z -> list Z) l acc : OrdMap.ssorted acc ->
  OrdMap.ssorted (foldl (fun ret i => OrdMap.sinsert (f i) ret) acc l).
Proof. revert acc. induction l as [|i l IH]; intros acc Hs; [done|]. simpl. apply IH. by apply OrdMap.ssorted_sinsert. Qed.

Lemma nibble_len_spec bits : 0 <= bits <= 32 -> bits <= nibble_len bits <= 32 /\ nibble_len bits mod 4 = 0.
Proof. unfold nibble_len. intros. case_match; zbool; Z.div_mod_to_equations; lia. Qed.

Lemma low_bits bits mask : 0 <= bits < 32 -> Z.land mask (u32 (Z.lnot (Z.shiftl (two32 - 1) bits))) = mask mod 2 ^ bits.
Proof.
  intros Hb. rewrite <- land_mask by lia. f_equal. unfold u32, Z.lnot. rewrite Z.shiftl_mul_pow2 by lia.
  assert (2 ^ bits <= 2 ^ 31) by (apply pow2_le; lia). assert (0 < 2 ^ bits) by (apply Z.pow_pos_nonneg; lia).
  replace (Z.pred (- ((two32 - 1) * 2 ^ bits))) with (2 ^ bits - 1 + (- 2 ^ bits) * two32) by lia.
  rewrite Z.mod_add by done. apply Z.mod_small. lia.
Qed.

Lemma match_mod h bits mask : 0 <= bits <= 31 -> match_ h bits mask = true <-> hash h mod 2 ^ bits = mask mod 2 ^ bits.
Proof.
  intros Hb. unfold match_, match_hash. rewrite low_mask by lia.
  assert (2 ^ bits <= 2 ^ 31) by (apply pow2_le; lia). assert (0 < 2 ^ bits) by (apply Z.pow_pos_nonneg; lia).
  rewrite u32_small, !land_mask by lia. rewrite Z.eqb_eq. naive_solver.
Qed.

(** How the name of an object begins. *)
Lemma object_str_head h k : (k <= 8)%nat -> nibblewise_key_cache h = reverse_nibbles (hash h) ->
  take (17 + k) (object_str h) = hexX 16 (pool h mod two64) ++ DOT :: hexX k (reverse_nibbles (hash h) / 16 ^ Z.of_nat (8 - k)).
Proof.
  intros Hk E. unfold object_str. rewrite E.
  assert (length (hexX 16 (pool h mod two64)) = 16%nat) as Hl by (unfold hexX; by rewrite length_digits).
  rewrite take_app, Hl, take_ge by (rewrite Hl; lia). replace (17 + k - 16)%nat with (S k) by lia. rewrite firstn_cons.
  rewrite take_app_le by (unfold hexX; rewrite length_digits; lia). unfold hexX. by rewrite take_digits by lia.
Qed.

Definition has_prefix (q s : list Z) : Prop := take (length q) s = q.

Lemma length_object_str h : (29 <= length (object_str h))%nat.
Proof. unfold object_str, hexX. repeat first [rewrite length_app|rewrite length_cons|rewrite length_digits]. lia. Qed.

(** Strings that begin with a digit. *)
Definition begins_alnum (l : list Z) : Prop := exists c r, l = c :: r /\ alnum c.
Lemma hexX_begins n v r : begins_alnum (hexX (S n) v ++ r).
Proof.
  pose proof (digits_alnum true 16 ltac:(lia) (S n) v) as Hf. pose proof (length_digits true 16 (S n) v) as Hl.
  unfold hexX. destruct (digits true 16 (S n) v) as [|c l]; [done|]. apply Forall_cons in Hf as [Hc _].
  by exists c, (l ++ r).
Qed.

(** The hash agrees with the mask in the low bits exactly when its low nibbles are
    those of a completed mask. *)
Lemma completed_match bits mask v (len := nibble_len bits) : 0 <= bits <= 31 ->
  (exists i, i ∈ foldl with_bit [mask mod 2 ^ bits] (seqZ bits (len - bits)) /\
     reverse_nibbles v / 16 ^ (8 - len / 4) = reverse_nibbles i / 16 ^ (8 - len / 4)) <->
  v mod 2 ^ bits = mask mod 2 ^ bits.
Proof.
  intros Hb. destruct (nibble_len_spec bits ltac:(lia)) as [Hlen H4]. fold len in Hlen, H4.
  assert (0 < 2 ^ bits) by (apply Z.pow_pos_nonneg; lia).
  assert (16 ^ (len / 4) = 2 ^ len) as E16.
  { change 16 with (2 ^ 4). rewrite <- Z.pow_mul_r by (Z.div_mod_to_equations; lia). f_equal. Z.div_mod_to_equations; lia. }
  assert (2 ^ len = 2 ^ (len - bits) * 2 ^ bits) as Es by (rewrite <- Z.pow_add_r by lia; f_equal; lia).
  assert (0 < 2 ^ (len - bits)) by (apply Z.pow_pos_nonneg; lia).
  assert (forall x, (x mod 2 ^ len) mod 2 ^ bits = x mod 2 ^ bits) as Hmm.
  { intros x. rewrite Es. rewrite Z.mul_comm, Z.rem_mul_r, Z.mul_comm, Z.mod_add, Z.mod_mod by lia. done. }
  setoid_rewrite elem_completed; [|lia|by apply Z.mod_pos_bound|lia..].
  setoid_rewrite reverse_nibbles_high; [|Z.div_mod_to_equations; lia..].
  replace (bits + (len - bits)) with len by lia. rewrite E16. split.
  - intros (i & [Hi <-] & E). rewrite <- (Hmm v), E. by rewrite Hmm.
  - intros E. exists (v mod 2 ^ len). rewrite Hmm, Z.mod_mod by lia. split; [|done]. split; [|done].
    apply Z.mod_pos_bound. lia.
Qed.

(** A name begins with the prefix of a completed mask when the pool and the leading
    nibbles of the reversed hash are the same. *)
Lemma one_prefix h p i k : (k <= 8)%nat -> EncodingFacts.storable h -> INT64_MIN <= p < two64 / 2 ->
  has_prefix ((hexX 16 (p mod two64) ++ [DOT]) ++ take k (hexX 8 (reverse_nibbles i))) (object_str h) <->
  pool h = p /\ reverse_nibbles (hash h) / 16 ^ (8 - Z.of_nat k) = reverse_nibbles i / 16 ^ (8 - Z.of_nat k).
Proof.
  intros Hk ((Hh & Hc & _) & _ & Hph & _) Hp. unfold has_prefix.
  assert (take k (hexX 8 (reverse_nibbles i)) = hexX k (reverse_nibbles i / 16 ^ Z.of_nat (8 - k))) as ->
    by (unfold hexX; by rewrite take_digits by lia).
  assert (forall n v, length (hexX n v) = n) as Hl by (intros; apply length_digits).
  rewrite !length_app, !Hl. change (16 + length [46] + k)%nat with (17 + k)%nat.
  rewrite object_str_head, <- app_assoc by done. change ([DOT] ++ ?l) with (DOT :: l). rewrite Nat2Z.inj_sub by done. change (Z.of_nat 8) with 8. split.
  - intros [E1 E2]%separated; [|apply hex_clean; unfold alnum; lia..].
    apply digits_inj in E1; [|lia|apply Z.mod_pos_bound; lia..]. apply pool_mod_inj in E1; [|done..]. split; [done|].
    assert (forall x, 0 <= reverse_nibbles x / 16 ^ (8 - Z.of_nat k) < 16 ^ Z.of_nat k) as Hr.
    { intros x. pose proof (reverse_nibbles_range x). assert (0 < 16 ^ (8 - Z.of_nat k)) by (apply Z.pow_pos_nonneg; lia).
      split; [apply Z.div_pos; lia|]. apply Z.div_lt_upper_bound; [done|]. rewrite <- Z.pow_add_r by lia.
      replace (8 - Z.of_nat k + Z.of_nat k) with 8 by lia. change (16 ^ 8) with two32. lia. }
    apply digits_inj in E2; [done|lia|apply Hr..].
  - intros [-> ->]. done.
Qed.

Lemma get_prefixes_exact bits mask p : 0 <= bits <= 31 -> INT64_MIN <= p < two64 / 2 ->
  exists ps n, get_prefixes bits mask p = Some ps /\ OrdMap.ssorted ps /\ Forall (fun q => length q = n) ps /\ (n <= 25)%nat /\ Forall begins_alnum ps /\
    forall h, EncodingFacts.storable h ->
      (exists q, q ∈ ps /\ has_prefix q (object_str h)) <-> pool h = p /\ match_ h bits mask = true.
Proof.
  intros Hb Hp. destruct (nibble_len_spec bits ltac:(lia)) as [Hlen H4]. set (k := Z.to_nat (nibble_len bits / 4)).
  assert (Z.of_nat k = nibble_len bits / 4 /\ (k <= 8)%nat) as [Ek Hk] by (subst k; split; Z.div_mod_to_equations; lia).
  unfold get_prefixes. rewrite (proj2 (Z.leb_le bits 32)), (proj2 (Z.ltb_lt bits 32)), low_bits by lia.
  eexists _, (17 + k)%nat. split; [done|]. fold k. split; [apply sorted_inserted; constructor|]. split.
  { apply Forall_forall. intros q [?|(i & _ & ->)]%elem_inserted; [set_solver|]. unfold hexX.
    rewrite !length_app, length_take, !length_digits. simpl. lia. }
  split; [lia|]. split.
  { apply Forall_forall. intros q [?|(i & _ & ->)]%elem_inserted; [set_solver|]. rewrite <- app_assoc. apply hexX_begins. }
  intros h Hh. rewrite match_mod by done. rewrite <- completed_match, <- Ek by done. setoid_rewrite elem_inserted. split.
  - intros (q & [?|(i & Hi & ->)] & Hpre); [set_solver|]. apply one_prefix in Hpre as [Epool Er]; eauto.
  - intros (Epool & i & Hi & Er). eexists. split; [right; eauto|]. by apply one_prefix.
Qed.

(** *** The keys of the mapper *)

(** The keys, when the assertion in [to_str] holds. *)
Definition raw_key (shard s : Z) (h : hobject_t) : list Z :=
  get_prefix (pool h) s ++ make_shard_prefix shard ++ object_str h.
Definition object_key (shard : Z) (h : hobject_t) : list Z :=
  OBJECT_PREFIX ++ make_shard_prefix shard ++ object_str h.
Definition shard_id (shard : Z) : Prop := -1 <= shard < 128.

Lemma to_raw_key_eq shard s h : max h = false -> to_raw_key (make_shard_prefix shard) s h = Some (raw_key shard s h).
Proof. intros E. unfold to_raw_key, to_str. by rewrite E. Qed.
Lemma to_object_key_eq shard h : max h = false -> to_object_key (make_shard_prefix shard) h = Some (object_key shard h).
Proof. intros E. unfold to_object_key, to_str. by rewrite E. Qed.

Lemma has_prefix_app q s : has_prefix q s <-> exists r, s = q ++ r.
Proof.
  unfold has_prefix. split.
  - intros E. exists (drop (length q) s). by rewrite <- E at 1; rewrite take_drop.
  - intros [r ->]. apply take_app_length.
Qed.
Lemma starts_with_spec q s : starts_with q s = true <-> has_prefix q s.
Proof.
  unfold starts_with, has_prefix, string_eq. pose proof (Lex.cmp_eq (d := string_compare) (take (length q) s) q) as H.
  case_match; naive_solver.
Qed.

Lemma object_str_begins h : begins_alnum (object_str h).
Proof. apply hexX_begins. Qed.

Lemma shard_split sh sh' q q' : shard_id sh -> shard_id sh' -> begins_alnum q -> begins_alnum q' ->
  make_shard_prefix sh ++ q = make_shard_prefix sh' ++ q' -> sh = sh' /\ q = q'.
Proof.
  intros Hs Hs' (c & r & -> & Hc) (c' & r' & -> & Hc'). unfold make_shard_prefix, NO_SHARD, shard_id in *.
  assert (forall x, UNDERSCORE ∉ hex x) as Hx.
  { intros x. apply (alnum_not UNDERSCORE); [apply plain_alnum; lia|]. unfold alnum. lia. }
  destruct (sh =? -1) eqn:E1, (sh' =? -1) eqn:E2; zbool; simpl; intros E.
  - split; [lia|done].
  - exfalso. injection E as -> _. unfold alnum in Hc. lia.
  - exfalso. injection E as <- _. unfold alnum in Hc'. lia.
  - injection E as E. rewrite <- !app_assoc in E. apply separated in E as [E ->]; [|done..].
    split; [|done]. apply plain_inj in E; [|lia|unfold u64, u32; Z.div_mod_to_equations; lia..].
    unfold u32 in E. rewrite !Z.mod_small in E by lia. done.
Qed.

(** A key under the prefix of a snapshot and a group is a key of both. *)
Lemma mapping_key_split p s p' s' sh sh' q q' :
  INT64_MIN <= p < two64 / 2 -> INT64_MIN <= p' < two64 / 2 -> shard_id sh -> shard_id sh' ->
  begins_alnum q -> begins_alnum q' ->
  get_prefix p s ++ make_shard_prefix sh ++ q = get_prefix p' s' ++ make_shard_prefix sh' ++ q' ->
  p = p' /\ u32 s = u32 s' /\ sh = sh' /\ q = q'.
Proof.
  intros Hp Hp' Hs Hs' Hq Hq' E. unfold get_prefix in E. rewrite <- !app_assoc in E. apply app_inv_head in E.
  assert (forall x, UNDERSCORE ∉ sdec x) as Hx.
  { intros x Hin. pose proof (sdec_chars x) as Hf. rewrite Forall_forall in Hf. apply Hf in Hin. unfold alnum in Hin. lia. }
  change ((95 :: ?a) ++ ?b) with (95 :: a ++ b) in E. apply separated in E as [E1 E]; [|done..].
  rewrite <- !app_assoc in E. change ([95] ++ ?b) with (95 :: b) in E.
  apply separated in E as [E2 E]; [|apply hex_clean; unfold alnum; lia..].
  apply sdec_inj in E1; [|done..]. apply shard_split in E as [-> ->]; [|done..].
  apply digits_inj in E2; [done|lia|unfold u32; split; [|etrans; [|by apply (Z.pow_lt_mono_r 16 8 16)]]; apply Z.mod_pos_bound; lia..].
Qed.

Lemma raw_key_inj sh s h sh' s' h' : shard_id sh -> shard_id sh' -> EncodingFacts.storable h -> EncodingFacts.storable h' ->
  raw_key sh s h = raw_key sh' s' h' -> sh = sh' /\ u32 s = u32 s' /\ h = h'.
Proof.
  intros Hs Hs' Hh Hh' E. apply mapping_key_split in E as (_ & E1 & E2 & E3); [|apply Hh|apply Hh'|done|done|apply object_str_begins..].
  split_and!; [done|done|]. by apply object_str_inj.
Qed.
Lemma object_key_inj sh h sh' h' : shard_id sh -> shard_id sh' -> EncodingFacts.storable h -> EncodingFacts.storable h' ->
  object_key sh h = object_key sh' h' -> sh = sh' /\ h = h'.
Proof.
  intros Hs Hs' Hh Hh' E. apply app_inv_head, shard_split in E as [E1 E2]; [|done|done|apply object_str_begins..].
  split; [done|]. by apply object_str_inj.
Qed.
Lemma raw_not_object sh s h sh' h' : raw_key sh s h <> object_key sh' h'.
Proof. done. Qed.
End KeyFacts.
