(* ===== verification/MapCacher.v ===== *)
(** common/map_cacher.hpp over common/sharedptr_registry.hpp: a map in a store
    whose writes become readable only some time after they are issued, read
    through a cache of the writes under way.  A write puts its keys in the
    registry [in_progress] and into the transaction, together with a callback
    that holds references to the entries; when the store has applied the
    transaction it runs the callback, which drops the references, and an entry
    without references leaves the registry.

    The registry's locks and its wait for an entry whose last reference is just
    being dropped are not modelled: an operation on the registry is one step. *)
From S2P Require Import Prelude Hobject OrderedMap.

Definition ENOENT : Z := 2.
Definition EINVAL : Z := 22.

(** ** Interfaces *)

(** The reads a store offers, and the promise that they are those of a map: an
    error code (0, or [-ENOENT] when there is no next key) and the data. *)
Record StoreDriver (K V : Type) := mk_driver {
  drv_get_keys : list K -> Z * list (K * V);
  drv_get_next : K -> Z * option (K * V)
}.
Arguments mk_driver {K V}.
Arguments drv_get_keys {K V}.
Arguments drv_get_next {K V}.

Section Interface.
Context {K V : Type} `{!Ordered K, !EqDecision K}.
Implicit Types (k : K) (m : list (K * V)).

Definition next_of k m : Z * option (K * V) :=
  match OrdMap.upper_bound k m with
  | kv :: _ => (0, Some kv)
  | [] => (- ENOENT, None)
  end.
(** [got] holds what [m] has for the keys asked for, and nothing else. *)
Definition selects (ks : list K) m (got : list (K * V)) : Prop :=
  OrdMap.sorted got /\ forall k, OrdMap.find k got = if decide (k ∈ ks) then OrdMap.find k m else None.

Class Reads (d : StoreDriver K V) (m : list (K * V)) := {
  reads_keys ks : exists got, drv_get_keys d ks = (0, got) /\ selects ks m got;
  reads_next k : drv_get_next d k = next_of k m
}.

(** A write: of a map, or of a set of keys to remove. *)
Inductive op := OpSet (keys : list (K * V)) | OpRemove (keys : list K).
Definition op_keys (o : op) : list K := match o with OpSet l => l.*1 | OpRemove l => l end.
Definition op_ok (o : op) : Prop := match o with OpSet l => OrdMap.sorted l | OpRemove l => OrdMap.ssorted l end.

(** What the store does with it: [omap_setkeys], [omap_rmkeys]. *)
Definition apply_op m (o : op) : list (K * V) :=
  match o with
  | OpSet l => foldl (fun m kv => OrdMap.set kv.1 kv.2 m) m l
  | OpRemove l => foldl (fun m k => OrdMap.erase k m) m l
  end.
Definition apply_ops m (l : list op) : list (K * V) := foldl apply_op m l.
End Interface.
Arguments op : clear implicits.

(** What a user of the cache relies on: a state that stands for a map, reads that
    are those of the map, and writes that are visible at once. *)
Class Backend (S K V : Type) := {
  bk_get_keys : S -> list K -> Z * list (K * V);
  bk_get_next : S -> K -> option (Z * option (K * V));
  bk_set_keys : list (K * V) -> S -> S;
  bk_remove_keys : list K -> S -> S
}.
Class BackendOk (S K V : Type) `{!Ordered K, !EqDecision K, !Backend S K V} := {
  bk_view : S -> list (K * V) -> Prop;
  bk_sorted s m : bk_view s m -> OrdMap.sorted m;
  bk_keys s m ks : bk_view s m -> exists got, bk_get_keys s ks = (0, got) /\ selects ks m got;
  bk_next s m k : bk_view s m -> bk_get_next s k = Some (next_of k m);
  bk_set s m l : bk_view s m -> OrdMap.sorted l -> bk_view (bk_set_keys l s) (apply_op m (OpSet l));
  bk_remove s m l : bk_view s m -> OrdMap.ssorted l -> bk_view (bk_remove_keys l s) (apply_op m (OpRemove l))
}.

(** ** The cache *)
Module MapCacher.
Section MapCacher.
Context {K V : Type} `{!Ordered K, !EqDecision K}.

(** An entry of the registry: the value its shared pointer points to (none: the key
    is being removed) and how many callbacks hold the pointer. *)
Record cell := mk_cell { value : option V; refs : nat }.
Definition registry : Type := list (K * cell).

(** [lookup_or_create(k, arg)], then [*ip = v], and one more holder. *)
Definition lookup_or_create (k : K) (arg : option V) (r : registry) : cell :=
  default (mk_cell arg 0) (OrdMap.find k r).
Definition assign (k : K) (v : option V) (r : registry) : registry :=
  let ip := lookup_or_create k v r in OrdMap.set k (mk_cell v (S (refs ip))) r.

(** The callback goes: [OnRemoval] takes an entry with no holder out. *)
Definition drop_ref (r : registry) (k : K) : registry :=
  match OrdMap.find k r with
  | Some c => if (refs c <=? 1)%nat then OrdMap.erase k r else OrdMap.set k (mk_cell (value c) (refs c - 1)) r
  | None => r
  end.
Definition release (holder : list K) (r : registry) : registry := foldl drop_ref r holder.

(** [set_keys] and [remove_keys]: on the registry; the transaction takes the write. *)
Definition set_keys (keys : list (K * V)) (r : registry) : registry :=
  foldl (fun r kv => assign kv.1 (Some kv.2) r) r keys.
Definition remove_keys (keys : list K) (r : registry) : registry :=
  foldl (fun r k => assign k None r) r keys.

Fixpoint split_keys (ks : list K) (r : registry) (to_get : list K) (got : list (K * V)) : list K * list (K * V) :=
  match ks with
  | [] => (to_get, got)
  | k :: ks =>
      match OrdMap.find k r with
      | Some c =>
          split_keys ks r to_get (match value c with Some v => OrdMap.insert k v got | None => got end)
      | None => split_keys ks r (OrdMap.sinsert k to_get) got
      end
  end.
Definition get_keys (d : StoreDriver K V) (r : registry) (ks : list K) : Z * list (K * V) :=
  let '(to_get, got) := split_keys ks r [] [] in
  let '(e, _got) := drv_get_keys d to_get in
  if e <? 0 then (e, got)
  else (0, foldl (fun got kv => OrdMap.insert kv.1 kv.2 got) got _got).

(** The loop of [get_next]: each turn starts after the key before. *)
Fixpoint get_next_loop (fuel : nat) (d : StoreDriver K V) (r : registry) (key : K) : option (Z * option (K * V)) :=
  match fuel with
  | O => None
  | S fuel =>
      let cached := OrdMap.upper_bound key r in
      let '(e, store) := drv_get_next d key in
      if (e <? 0) && negb (e =? - ENOENT) then Some (e, None)
      else
        let store := if e =? 0 then store else None in
        match cached, store with
        | [], None => Some (- ENOENT, None)
        | (ck, c) :: _, None =>
            match value c with Some v => Some (0, Some (ck, v)) | None => get_next_loop fuel d r ck end
        | (ck, c) :: _, Some (sk, sv) =>
            match compare sk ck with
            | Lt => Some (0, Some (sk, sv))
            | _ => match value c with Some v => Some (0, Some (ck, v)) | None => get_next_loop fuel d r ck end
            end
        | [], Some kv => Some (0, Some kv)
        end
  end.
Definition get_next (d : StoreDriver K V) (r : registry) (key : K) : option (Z * option (K * V)) :=
  get_next_loop (S (length r)) d r key.

(** ** A store with a cache in front of it *)

(** The store, the registry, the writes queued in transactions and in the one being
    filled, and the callbacks of transactions the store has applied. *)
Record System := mk_system {
  db : list (K * V);
  in_progress : registry;
  queue : list (list (op K V));
  current : list (op K V);
  landed : list (list K)
}.

(** [OSDriver]: the omap of one object of the store. *)
Definition omap_get_values (m : list (K * V)) (ks : list K) : list (K * V) :=
  foldl (fun got k => match OrdMap.find k m with Some v => OrdMap.set k v got | None => got end) [] ks.
Definition OSDriver (m : list (K * V)) : StoreDriver K V :=
  mk_driver (fun ks => (0, omap_get_values m ks)) (fun k => next_of k m).

#[global] Instance system_backend : Backend System K V := {|
  bk_get_keys s ks := get_keys (OSDriver (db s)) (in_progress s) ks;
  bk_get_next s k := get_next (OSDriver (db s)) (in_progress s) k;
  bk_set_keys l s := mk_system (db s) (set_keys l (in_progress s)) (queue s) (current s ++ [OpSet l]) (landed s);
  bk_remove_keys l s := mk_system (db s) (remove_keys l (in_progress s)) (queue s) (current s ++ [OpRemove l]) (landed s)
|}.

(** What happens around the operations: the transaction is queued; the store applies
    the oldest one; one of the callbacks of the applied ones runs; the caches of
    other placement groups write other keys of the same object. *)
Inductive step : System -> System -> Prop :=
| step_submit s : step s (mk_system (db s) (in_progress s) (queue s ++ [current s]) [] (landed s))
| step_apply d r t q c l : step (mk_system d r (t :: q) c l) (mk_system (apply_ops d t) r q c (l ++ (op_keys <$> t)))
| step_callback d r q c l1 h l2 : step (mk_system d r q c (l1 ++ h :: l2)) (mk_system d (release h r) q c (l1 ++ l2)).

Inductive foreign_step : list (K * V) -> System -> list (K * V) -> System -> Prop :=
| step_foreign m d r q c l o : op_ok o -> (forall k, k ∈ op_keys o -> OrdMap.find k r = None) ->
    foreign_step m (mk_system d r q c l) (apply_op m o) (mk_system (apply_op d o) r q c l).

(** [evolves m s]: the system can get to [s] when the reads and writes so far, one
    after the other on a plain map, give [m]. *)
Inductive evolves : list (K * V) -> System -> Prop :=
| evolves_start m : OrdMap.sorted m -> evolves m (mk_system m [] [] [] [])
| evolves_set m s l : evolves m s -> OrdMap.sorted l -> evolves (apply_op m (OpSet l)) (bk_set_keys l s)
| evolves_remove m s l : evolves m s -> OrdMap.ssorted l -> evolves (apply_op m (OpRemove l)) (bk_remove_keys l s)
| evolves_step m s s' : evolves m s -> step s s' -> evolves m s'
| evolves_foreign m s m' s' : evolves m s -> foreign_step m s m' s' -> evolves m' s'.

End MapCacher.
End MapCacher.

(** ** The cache is transparent *)
Module CacheFacts.
Import MapCacher.
Section CacheFacts.
Context {K V : Type} `{!Ordered K, !EqDecision K}.
Implicit Types (k : K) (m : list (K * V)) (r : registry (K := K) (V := V)) (s : System (K := K) (V := V)) (o : op K V).

(** *** The store *)

(** What a write does to a key: nothing, or a value, or none. *)
Definition effect o k : option (option V) :=
  match o with
  | OpSet l => Some <$> OrdMap.find k l
  | OpRemove l => if decide (k ∈ l) then Some None else None
  end.

Lemma elem_keys_find l k : OrdMap.sorted (V := V) l -> k ∈ l.*1 <-> exists v, OrdMap.find k l = Some v.
Proof.
  intros Hs. rewrite list_elem_of_fmap. setoid_rewrite OrdMap.find_entry; [|done]. split.
  - intros ([k' v] & -> & Hin). by exists v.
  - intros [v Hin]. by exists (k, v).
Qed.

Lemma find_cons_sorted k1 (v1 : V) l k : OrdMap.sorted ((k1, v1) :: l) ->
  OrdMap.find k ((k1, v1) :: l) = if decide (k = k1) then Some v1 else OrdMap.find k l.
Proof. intros _. simpl. OrdMap.cmp_cases; case_decide; subst; try done; by apply OrdMap.klt_not_self in H. Qed.
Lemma find_tail_none k1 (v1 : V) l : OrdMap.sorted ((k1, v1) :: l) -> OrdMap.find k1 l = None.
Proof.
  intros [_ H]%OrdMap.sorted_inv. destruct (OrdMap.find k1 l) eqn:E; [|done]. apply H in E. by apply OrdMap.klt_not_self in E.
Qed.

Lemma sorted_apply_op m o : OrdMap.sorted m -> OrdMap.sorted (apply_op m o).
Proof.
  destruct o as [l|l]; simpl; revert m; induction l as [|x l IH]; intros m Hm; simpl; auto using OrdMap.sorted_set, OrdMap.sorted_erase.
Qed.

Lemma find_apply_op m o k : OrdMap.sorted m -> op_ok o ->
  OrdMap.find k (apply_op m o) = default (OrdMap.find k m) (effect o k).
Proof.
  destruct o as [l|l]; simpl; revert m.
  - induction l as [|[k1 v1] l IH]; intros m Hm Hl; [done|]. simpl foldl. rewrite IH; [|by apply OrdMap.sorted_set|by apply (OrdMap.sorted_inv _ _ Hl)].
    rewrite find_cons_sorted, OrdMap.find_set by done. case_decide; [subst; by rewrite (find_tail_none _ _ _ Hl)|done].
  - induction l as [|k1 l IH]; intros m Hm Hl; [done|]. simpl foldl. rewrite IH; [|by apply OrdMap.sorted_erase|by apply StronglySorted_inv in Hl as [? _]].
    rewrite OrdMap.find_erase by done. repeat case_decide; simpl; try done; set_solver.
Qed.

Lemma effect_none o k : op_ok o -> effect o k = None <-> k ∉ op_keys o.
Proof.
  destruct o as [l|l]; simpl; intros Hl.
  - rewrite elem_keys_find by done. destruct (OrdMap.find k l); simpl; naive_solver.
  - case_decide; naive_solver.
Qed.

Lemma sorted_apply_ops m l : OrdMap.sorted m -> OrdMap.sorted (apply_ops m l).
Proof. revert m. induction l as [|o l IH]; intros m Hm; [done|]. simpl. by apply IH, sorted_apply_op. Qed.
Lemma find_apply_ops m l k : OrdMap.sorted m -> Forall op_ok l ->
  OrdMap.find k (apply_ops m l) = foldl (fun v o => default v (effect o k)) (OrdMap.find k m) l.
Proof.
  intros Hm Hl. revert m Hm. induction Hl as [|o l Ho Hl IH]; intros m Hm; [done|]. simpl.
  rewrite IH by by apply sorted_apply_op. by rewrite find_apply_op.
Qed.
Lemma find_untouched m l k : OrdMap.sorted m -> Forall op_ok l -> Forall (fun o => k ∉ op_keys o) l ->
  OrdMap.find k (apply_ops m l) = OrdMap.find k m.
Proof.
  intros Hm Hl Hk. rewrite find_apply_ops by done. generalize (OrdMap.find k m). induction l as [|o l IH]; intros v; [done|].
  apply Forall_cons in Hl as [Ho Hl], Hk as [Hn Hk]. simpl. apply effect_none in Hn as ->; [|done]. by apply IH.
Qed.
Lemma writes_app m l1 l2 : apply_ops m (l1 ++ l2) = apply_ops (apply_ops m l1) l2.
Proof. apply foldl_app. Qed.

(** *** The registry *)

Definition refs_of r k : nat := from_option refs 0%nat (OrdMap.find k r).
Definition note o r : registry := match o with OpSet l => set_keys l r | OpRemove l => remove_keys l r end.

Lemma find_assign k v r k' :
  OrdMap.find k' (assign k v r) = if decide (k' = k) then Some (mk_cell v (S (refs_of r k))) else OrdMap.find k' r.
Proof.
  unfold assign, lookup_or_create, refs_of. rewrite OrdMap.find_set. case_decide; [|done].
  by destruct (OrdMap.find k r).
Qed.
Lemma refs_assign k v r k' : k' <> k -> refs_of (assign k v r) k' = refs_of r k'.
Proof. intros Hk. unfold refs_of. rewrite find_assign. by rewrite decide_False. Qed.

Lemma sorted_note o r : OrdMap.sorted r -> OrdMap.sorted (note o r).
Proof. destruct o as [l|l]; simpl; revert r; induction l as [|x l IH]; intros r Hr; simpl; auto; apply IH; by apply OrdMap.sorted_set. Qed.

Lemma find_note o r k : op_ok o ->
  OrdMap.find k (note o r) = match effect o k with Some v => Some (mk_cell v (S (refs_of r k))) | None => OrdMap.find k r end.
Proof.
  destruct o as [l|l]; simpl; revert r.
  - induction l as [|[k1 v1] l IH]; intros r Hl; [done|]. unfold set_keys in *. simpl foldl.
    rewrite IH by apply (OrdMap.sorted_inv _ _ Hl). rewrite find_cons_sorted by done. case_decide as Hk.
    + subst. rewrite (find_tail_none _ _ _ Hl). simpl. rewrite find_assign. by rewrite decide_True.
    + rewrite refs_assign, find_assign by done. by rewrite decide_False.
  - induction l as [|k1 l IH]; intros r Hl; [done|]. unfold remove_keys in *. simpl foldl.
    pose proof (OrdMap.ssorted_nodup _ Hl) as [Hn _]%NoDup_cons.
    rewrite IH by by apply StronglySorted_inv in Hl as [? _]. destruct (decide (k = k1)) as [->|Hk].
    + rewrite !decide_False, (decide_True (P := k1 ∈ k1 :: l)) by set_solver. rewrite find_assign. by rewrite decide_True.
    + rewrite refs_assign, find_assign, (decide_False (P := k = k1)) by done.
      destruct (decide (k ∈ l)); [rewrite decide_True by set_solver|rewrite decide_False by set_solver]; done.
Qed.

Lemma sorted_drop_ref r k : OrdMap.sorted r -> OrdMap.sorted (drop_ref r k).
Proof. intros Hr. unfold drop_ref. repeat case_match; auto using OrdMap.sorted_set, OrdMap.sorted_erase. Qed.
Lemma find_drop_ref r k k' : OrdMap.sorted r -> OrdMap.find k' (drop_ref r k) =
  if decide (k' = k) then c ← OrdMap.find k r; if (refs c <=? 1)%nat then None else Some (mk_cell (value c) (refs c - 1))
  else OrdMap.find k' r.
Proof.
  intros Hr. unfold drop_ref. destruct (OrdMap.find k r) as [c|] eqn:E; simpl; [|by case_decide; subst].
  case_match; [rewrite OrdMap.find_erase by done|rewrite OrdMap.find_set]; by case_decide.
Qed.
Lemma sorted_release h r : OrdMap.sorted r -> OrdMap.sorted (release h r).
Proof. revert r. induction h as [|k h IH]; intros r Hr; [done|]. simpl. by apply IH, sorted_drop_ref. Qed.
Lemma find_release h r k : OrdMap.sorted r -> NoDup h -> OrdMap.find k (release h r) =
  if decide (k ∈ h) then c ← OrdMap.find k r; if (refs c <=? 1)%nat then None else Some (mk_cell (value c) (refs c - 1))
  else OrdMap.find k r.
Proof.
  intros Hr Hh. revert r Hr. induction Hh as [|k1 h Hn Hh IH]; intros r Hr; [done|]. simpl.
  rewrite IH, find_drop_ref by (done || by apply sorted_drop_ref).
  destruct (decide (k = k1)) as [->|Hk]; [by rewrite decide_False, decide_True by set_solver|].
  destruct (decide (k ∈ h)); [by rewrite decide_True by set_solver|by rewrite decide_False by set_solver].
Qed.

(** *** Reading through the cache *)

(** The map a store and a registry stand for. *)
Definition stands_for (m0 : list (K * V)) r m : Prop :=
  OrdMap.sorted m0 /\ OrdMap.sorted r /\ OrdMap.sorted m /\
  forall k, OrdMap.find k m = match OrdMap.find k r with Some c => value c | None => OrdMap.find k m0 end.

Lemma find_values m0 ks got k : OrdMap.find k
    (foldl (fun got k => match OrdMap.find k m0 with Some v => OrdMap.set k v got | None => got end) got ks) =
  if decide (k ∈ ks) then match OrdMap.find k m0 with Some v => Some v | None => OrdMap.find k got end else OrdMap.find k got.
Proof.
  revert got. induction ks as [|k1 ks IH]; intros got; [done|]. simpl. rewrite IH.
  assert (OrdMap.find k (match OrdMap.find k1 m0 with Some v => OrdMap.set k1 v got | None => got end) =
    if decide (k = k1) then match OrdMap.find k m0 with Some v => Some v | None => OrdMap.find k got end else OrdMap.find k got) as ->.
  { destruct (OrdMap.find k1 m0) eqn:E; [rewrite OrdMap.find_set|]; destruct (decide (k = k1)); subst; rewrite ?E; done. }
  destruct (decide (k = k1)) as [->|]; [rewrite (decide_True (P := k1 ∈ k1 :: ks)) by set_solver|].
  - case_decide; by destruct (OrdMap.find k1 m0).
  - destruct (decide (k ∈ ks)); [rewrite decide_True by set_solver|rewrite decide_False by set_solver]; done.
Qed.
Lemma sorted_values m0 ks got : OrdMap.sorted got -> OrdMap.sorted
    (foldl (fun got k => match OrdMap.find k m0 with Some v => OrdMap.set k v got | None => got end) got ks).
Proof. revert got. induction ks as [|k ks IH]; intros got Hg; [done|]. simpl. apply IH. case_match; [by apply OrdMap.sorted_set|done]. Qed.

#[global] Instance OSDriver_reads m0 : Reads (OSDriver m0) m0.
Proof.
  split; [|done]. intros ks. eexists. split; [done|]. split; [apply sorted_values; constructor|].
  intros k. unfold omap_get_values. rewrite find_values. simpl. repeat case_match; done.
Qed.

Lemma split_keys_spec ks r to_get got : OrdMap.sorted got ->
  let '(t, g) := split_keys ks r to_get got in
  OrdMap.sorted g /\ (forall k, k ∈ t <-> k ∈ to_get \/ k ∈ ks /\ OrdMap.find k r = None) /\
  forall k, OrdMap.find k g = match OrdMap.find k got with Some v => Some v | None =>
    if decide (k ∈ ks) then c ← OrdMap.find k r; value c else None end.
Proof.
  revert to_get got. induction ks as [|k1 ks IH]; intros to_get got Hg; simpl.
  { split_and!; [done|set_solver|]. intros k. by case_match. }
  destruct (OrdMap.find k1 r) as [c|] eqn:E.
  - set (got' := match value c with Some v => OrdMap.insert k1 v got | None => got end).
    assert (OrdMap.sorted got') as Hg' by (subst got'; case_match; [by apply OrdMap.sorted_minsert|done]).
    specialize (IH to_get got' Hg'). destruct (split_keys ks r to_get got') as [t g]. destruct IH as (H1 & H2 & H3).
    split_and!; [done|set_solver|]. intros k. rewrite H3. subst got'.
    destruct (decide (k = k1)) as [->|Hk].
    + rewrite (decide_True (P := k1 ∈ k1 :: ks)) by set_solver. rewrite E. simpl. destruct (value c) eqn:Ev.
      * rewrite OrdMap.find_insert, decide_True by done. by destruct (OrdMap.find k1 got).
      * destruct (OrdMap.find k1 got); [done|]. by case_decide.
    + assert (OrdMap.find k (match value c with Some v => OrdMap.insert k1 v got | None => got end) = OrdMap.find k got) as ->.
      { case_match; [|done]. rewrite OrdMap.find_insert, decide_False by done. by destruct (OrdMap.find k got). }
      destruct (OrdMap.find k got); [done|].
      destruct (decide (k ∈ ks)); [rewrite decide_True by set_solver|rewrite decide_False by set_solver]; done.
  - specialize (IH (OrdMap.sinsert k1 to_get) got Hg). destruct (split_keys ks r (OrdMap.sinsert k1 to_get) got) as [t g].
    destruct IH as (H1 & H2 & H3). split_and!; [done| |].
    + intros k. rewrite H2, OrdMap.elem_sinsert. set_solver.
    + intros k. rewrite H3. destruct (OrdMap.find k got); [done|].
      destruct (decide (k = k1)) as [->|]; [rewrite (decide_True (P := k1 ∈ k1 :: ks)) by set_solver; rewrite E; by case_decide|].
      destruct (decide (k ∈ ks)); [rewrite decide_True by set_solver|rewrite decide_False by set_solver]; done.
Qed.

Lemma find_insert_all l (got : list (K * V)) k : OrdMap.sorted l -> OrdMap.find k (foldl (fun got kv => OrdMap.insert kv.1 kv.2 got) got l) =
  match OrdMap.find k got with Some v => Some v | None => OrdMap.find k l end.
Proof.
  revert got. induction l as [|[k1 v1] l IH]; intros got Hl; simpl foldl; [by destruct (OrdMap.find k got)|].
  rewrite IH by apply (OrdMap.sorted_inv _ _ Hl). rewrite OrdMap.find_insert, find_cons_sorted by done.
  destruct (OrdMap.find k got); [done|]. simpl. by case_decide.
Qed.
Lemma sorted_insert_all l (got : list (K * V)) : OrdMap.sorted got -> OrdMap.sorted (foldl (fun got kv => OrdMap.insert kv.1 kv.2 got) got l).
Proof. revert got. induction l as [|kv l IH]; intros got Hg; [done|]. simpl. by apply IH, OrdMap.sorted_minsert. Qed.

Lemma get_keys_view m0 r m ks d `{!Reads d m0} : stands_for m0 r m ->
  exists got, get_keys d r ks = (0, got) /\ selects ks m got.
Proof.
  intros (Hs0 & Hr & Hm & Hf). unfold get_keys. pose proof (split_keys_spec ks r [] [] ltac:(constructor)) as H.
  destruct (split_keys ks r [] []) as [t g]. destruct H as (H1 & H2 & H3).
  destruct (reads_keys (d := d) t) as (got & E & Hg & Hgf). rewrite E. simpl. eexists. split; [done|].
  split; [by apply sorted_insert_all|]. intros k. rewrite find_insert_all by done. rewrite H3, Hgf. simpl.
  rewrite Hf. destruct (decide (k ∈ ks)) as [Hk|Hk].
  - destruct (OrdMap.find k r) as [c|] eqn:E'; simpl; [|by rewrite decide_True by set_solver].
    destruct (value c); [done|]. rewrite decide_False; [done|]. rewrite H2. set_solver.
  - rewrite decide_False; [done|]. rewrite H2. set_solver.
Qed.

(** The next key, by what it is. *)
Lemma next_of_some k m k' v : OrdMap.sorted m -> OrdMap.find k' m = Some v -> OrdMap.klt k k' ->
  (forall k2 v2, OrdMap.find k2 m = Some v2 -> OrdMap.klt k k2 -> k2 = k' \/ OrdMap.klt k' k2) ->
  next_of k m = (0, Some (k', v)).
Proof.
  intros Hm Hf Hk Hleast. unfold next_of. destruct (OrdMap.upper_bound k m) as [|[k2 v2] l] eqn:E.
  - exfalso. by eapply (OrdMap.upper_bound_nil k m Hm E).
  - destruct (OrdMap.upper_bound_head _ _ _ _ _ Hm E) as (H1 & H2 & H3).
    destruct (Hleast _ _ H1 H2) as [->|L]; [by rewrite Hf in H1; simplify_eq|].
    destruct (H3 _ _ Hf Hk) as [->|L']; [by apply OrdMap.klt_not_self in L|by apply OrdMap.klt_asym in L].
Qed.
Lemma next_of_none k m : OrdMap.sorted m -> (forall k2 v2, OrdMap.find k2 m = Some v2 -> ~ OrdMap.klt k k2) -> next_of k m = (- ENOENT, None).
Proof.
  intros Hm Hf. unfold next_of. destruct (OrdMap.upper_bound k m) as [|[k2 v2] l] eqn:E; [done|].
  destruct (OrdMap.upper_bound_head _ _ _ _ _ Hm E) as (H1 & H2 & _). by apply Hf in H1.
Qed.
(** Nothing lies between two keys: what follows the one follows the other. *)
Lemma next_of_skip k k' m : OrdMap.sorted m -> OrdMap.klt k k' -> OrdMap.find k' m = None ->
  (forall k2 v2, OrdMap.find k2 m = Some v2 -> OrdMap.klt k k2 -> k2 = k' \/ OrdMap.klt k' k2) -> next_of k' m = next_of k m.
Proof.
  intros Hm Hk Hn Hb. unfold next_of at 2. destruct (OrdMap.upper_bound k m) as [|[k2 v2] l] eqn:E.
  - apply next_of_none; [done|]. intros k2 v2 Hf L. eapply (OrdMap.upper_bound_nil k m Hm E); [exact Hf|]. by trans k'.
  - destruct (OrdMap.upper_bound_head _ _ _ _ _ Hm E) as (H1 & H2 & H3). apply next_of_some; [done|done| |].
    + destruct (Hb _ _ H1 H2) as [->|]; [congruence|done].
    + intros k3 v3 Hf L. eapply H3; [done|]. by trans k'.
Qed.

Lemma get_next_loop_view fuel m0 r m d key `{!Reads d m0} : stands_for m0 r m ->
  (length (OrdMap.upper_bound key r) < fuel)%nat -> get_next_loop fuel d r key = Some (next_of key m).
Proof.
  intros Hv. pose proof Hv as (Hs0 & Hr & Hm & Hf). revert key. induction fuel as [|fuel IH]; intros key Hfuel; [lia|].
  simpl. rewrite (reads_next (d := d)).
  (* the first cached key, and that nothing before it in the view comes from the cache *)
  destruct (OrdMap.upper_bound key r) as [|[ck c] l] eqn:Ec.
  - assert (forall k, OrdMap.klt key k -> OrdMap.find k m = OrdMap.find k m0) as Hsame.
    { intros k L. rewrite Hf. destruct (OrdMap.find k r) eqn:E; [|done]. exfalso. by eapply (OrdMap.upper_bound_nil key r Hr Ec). }
    unfold next_of at 1. destruct (OrdMap.upper_bound key m0) as [|[sk sv] l'] eqn:E; simpl.
    + rewrite next_of_none; [done..|]. intros k v Hk L. rewrite Hsame in Hk by done. by eapply (OrdMap.upper_bound_nil key m0 Hs0 E).
    + destruct (OrdMap.upper_bound_head _ _ _ _ _ Hs0 E) as (H1 & H2 & H3). symmetry. f_equal. apply next_of_some; [done|by rewrite Hsame|done|].
      intros k v Hk L. rewrite Hsame in Hk by done. by eapply H3.
  - destruct (OrdMap.upper_bound_head _ _ _ _ _ Hr Ec) as (C1 & C2 & C3).
    assert (forall k, OrdMap.klt key k -> OrdMap.klt k ck -> OrdMap.find k m = OrdMap.find k m0) as Hsame.
    { intros k L L'. rewrite Hf. destruct (OrdMap.find k r) eqn:E; [|done]. exfalso.
      destruct (C3 _ _ E L) as [->|?]; [by apply OrdMap.klt_not_self in L'|by apply OrdMap.klt_asym in L']. }
    assert (OrdMap.find ck m = value c) as Hck by (rewrite Hf, C1; done).
    assert (forall k v, OrdMap.find k m = Some v -> OrdMap.klt key k -> k = ck \/ OrdMap.klt ck k \/
      (OrdMap.klt k ck /\ OrdMap.find k m0 = Some v)) as Hview.
    { intros k v Hk L. destruct (OrdMap.compare_spec k ck) as [[_ L']|[[_ ->]|[_ L']]]; [|by left|by right; left].
      right; right. split; [done|]. by rewrite <- Hsame. }
    assert ((forall k v, OrdMap.find k m0 = Some v -> OrdMap.klt key k -> k = ck \/ OrdMap.klt ck k) ->
      match value c with Some v => Some (0, Some (ck, v)) | None => get_next_loop fuel d r ck end = Some (next_of key m)) as Hcached.
    { intros Hst. assert (forall k v, OrdMap.find k m = Some v -> OrdMap.klt key k -> k = ck \/ OrdMap.klt ck k) as Hb.
      { intros k v Hk L. destruct (Hview _ _ Hk L) as [?|[?|[? ?]]]; [by left|by right|by eapply Hst]. }
      destruct (value c) as [v|] eqn:Ev; [symmetry; f_equal; by apply next_of_some|].
      rewrite IH; [|rewrite (OrdMap.upper_bound_next _ _ _ _ _ Hr Ec); simpl in Hfuel; lia]. f_equal. by apply next_of_skip. }
    unfold next_of at 1. destruct (OrdMap.upper_bound key m0) as [|[sk sv] l'] eqn:E; simpl.
    + apply Hcached. intros k v Hk L. exfalso. by eapply (OrdMap.upper_bound_nil key m0 Hs0 E).
    + destruct (OrdMap.upper_bound_head _ _ _ _ _ Hs0 E) as (H1 & H2 & H3).
      destruct (OrdMap.compare_spec sk ck) as [[-> L']|[[-> ->]|[-> L']]].
      * symmetry. f_equal. apply next_of_some; [done|by rewrite Hsame|done|]. intros k v Hk L.
        destruct (Hview _ _ Hk L) as [->|[?|[? ?]]]; [by right|right; by trans ck|by eapply H3].
      * apply Hcached. done.
      * apply Hcached. intros k v Hk L. right. destruct (H3 _ _ Hk L) as [->|]; [done|by trans sk].
Qed.
Lemma get_next_view m0 r m d key `{!Reads d m0} : stands_for m0 r m -> get_next d r key = Some (next_of key m).
Proof.
  intros Hv. unfold get_next. apply (get_next_loop_view _ m0 r m d key); [done|]. destruct (OrdMap.upper_bound_suffix key r) as (l & E & _).
  rewrite E at 2. rewrite length_app. lia.
Qed.

(** *** The references are those of the writes under way *)

Definition holders s : list (list K) := (op_keys <$> concat (queue s)) ++ (op_keys <$> current s) ++ landed s.
Definition pending s : list (op K V) := concat (queue s) ++ current s.
Definition count k (hs : list (list K)) : nat := length (filter (fun h => k ∈ h) hs).

Lemma count_app k h1 h2 : count k (h1 ++ h2) = (count k h1 + count k h2)%nat.
Proof. unfold count. by rewrite filter_app, length_app. Qed.
Lemma count_cons k h hs : count k (h :: hs) = ((if decide (k ∈ h) then 1 else 0) + count k hs)%nat.
Proof. unfold count. rewrite filter_cons. by case_decide. Qed.
Lemma count_zero k hs : count k hs = 0%nat <-> Forall (fun h => k ∉ h) hs.
Proof.
  induction hs as [|h hs IH]; [done|]. rewrite count_cons, Forall_cons, <- IH. case_decide; split; [lia|naive_solver|..]; intuition lia.
Qed.

Lemma no_writes k (l : list (op K V)) : count k (op_keys <$> l) = 0%nat -> Forall (fun o => k ∉ op_keys o) l.
Proof. by rewrite count_zero, Forall_fmap. Qed.

(** The invariant: the writes are well formed, the map is the store after the writes
    under way, and an entry of the registry has the last value of its key and one
    reference per write under way. *)
Definition coherent s m : Prop :=
  OrdMap.sorted (db s) /\ OrdMap.sorted (in_progress s) /\ Forall op_ok (pending s) /\ Forall NoDup (landed s) /\
  m = apply_ops (db s) (pending s) /\
  forall k, match OrdMap.find k (in_progress s) with
            | Some c => refs c = count k (holders s) /\ (0 < refs c)%nat /\ value c = OrdMap.find k m
            | None => count k (holders s) = 0%nat
            end.

Lemma op_ok_nodup o : op_ok o -> NoDup (op_keys o).
Proof. destruct o as [l|l]; simpl; intros H; [apply OrdMap.sorted_alt in H|]; by apply OrdMap.ssorted_nodup. Qed.

Lemma coherent_view s m : coherent s m -> stands_for (db s) (in_progress s) m.
Proof.
  intros (Hd & Hr & Hp & Hl & -> & Hc). split_and!; [done|done|by apply sorted_apply_ops|]. intros k. specialize (Hc k).
  destruct (OrdMap.find k (in_progress s)) as [c|]; [by destruct Hc as (_ & _ & ->)|].
  apply find_untouched; [done|done|]. unfold holders in Hc. rewrite !count_app in Hc. unfold pending.
  apply Forall_app. split; apply no_writes; lia.
Qed.

(** *** Every step keeps it *)

Lemma coherent_op s m o : op_ok o -> coherent s m ->
  coherent (mk_system (db s) (note o (in_progress s)) (queue s) (current s ++ [o]) (landed s)) (apply_op m o).
Proof.
  intros Ho (Hd & Hr & Hp & Hl & Em & Hc). unfold coherent, pending, holders in *; simpl.
  split_and!; [done|by apply sorted_note| | | |].
  - rewrite app_assoc, Forall_app. by rewrite Forall_singleton.
  - done.
  - rewrite app_assoc, writes_app, <- Em. done.
  - intros k. specialize (Hc k). rewrite find_note by done. rewrite fmap_app, !count_app in *. simpl. rewrite count_cons.
    change (count k []) with 0%nat. destruct (effect o k) as [v|] eqn:E.
    + assert (k ∈ op_keys o) as Hk by (destruct (decide (k ∈ op_keys o)) as [?|Hn]; [done|apply effect_none in Hn; [congruence|done]]).
      rewrite decide_True by done. simpl. split_and!; [|lia|].
      * unfold refs_of. destruct (OrdMap.find k (in_progress s)); simpl; lia.
      * rewrite find_apply_op, E by (try done; rewrite Em; by apply sorted_apply_ops). done.
    + apply effect_none in E as Hk; [|done]. rewrite decide_False by done.
      rewrite find_apply_op, E by (try done; rewrite Em; by apply sorted_apply_ops). simpl.
      destruct (OrdMap.find k (in_progress s)); [destruct Hc as (? & ? & ?); split_and!; [lia|done|done]|lia].
Qed.

Lemma coherent_step s s' m : step s s' -> coherent s m -> coherent s' m.
Proof.
  intros Hstep. destruct Hstep as [s|d r t q c l|d r q c l1 h l2]; intros (Hd & Hr & Hp & Hl & Em & Hc);
    unfold coherent, pending, holders in *; simpl in *.
  - rewrite concat_app. simpl. rewrite !app_nil_r. split_and!; try done. intros k. specialize (Hc k).
    rewrite fmap_app, <- app_assoc. exact Hc.
  - rewrite <- app_assoc in Hp, Em. apply Forall_app in Hp as [Ht Hp]. split_and!; try done.
    + by apply sorted_apply_ops.
    + apply Forall_app. split; [done|]. apply Forall_fmap. eapply Forall_impl; [exact Ht|]. apply op_ok_nodup.
    + by rewrite writes_app in Em.
    + intros k. specialize (Hc k). rewrite fmap_app, !count_app in *.
      destruct (OrdMap.find k r); [destruct Hc as (? & ? & ?); split_and!; [lia|done|done]|lia].
  - apply Forall_app in Hl as [Hl1 Hl2]. apply Forall_cons in Hl2 as [Hh Hl2]. split_and!; try done.
    + by apply sorted_release.
    + by apply Forall_app.
    + intros k. specialize (Hc k). rewrite find_release by done. rewrite !count_app, count_cons in Hc. rewrite !count_app.
      case_decide as Hk; destruct (OrdMap.find k r) as [c0|]; simpl; try lia; [|destruct Hc as (? & ? & ?); split_and!; [lia|done|done]].
      destruct Hc as (H1 & H2 & H3). destruct (refs c0 <=? 1)%nat eqn:E; [apply Nat.leb_le in E; lia|].
      apply Nat.leb_gt in E. simpl. split_and!; [lia|lia|done].
Qed.

Lemma coherent_foreign m s m' s' : foreign_step m s m' s' -> coherent s m -> coherent s' m'.
Proof.
  intros Hstep. destruct Hstep as [m d r q c l o Ho Hfree]. intros (Hd & Hr & Hp & Hl & Em & Hc).
  unfold coherent, pending, holders in *; simpl in *. set (p := concat q ++ c) in *.
  assert (OrdMap.sorted m) as Hm by (subst m; by apply sorted_apply_ops).
  assert (forall k, k ∈ op_keys o -> Forall (fun o => k ∉ op_keys o) p) as Hun.
  { intros k Hk. specialize (Hc k). rewrite (Hfree k Hk) in Hc. rewrite !count_app in Hc.
    apply Forall_app. split; apply no_writes; lia. }
  split_and!; [by apply sorted_apply_op|done|done|done| |].
  - apply OrdMap.omap_ext; [by apply sorted_apply_op|by apply sorted_apply_ops, sorted_apply_op|]. intros k.
    rewrite find_apply_op by done. destruct (decide (k ∈ op_keys o)) as [Hk|Hk].
    + rewrite find_untouched by (try apply sorted_apply_op; auto). rewrite find_apply_op by done.
      rewrite Em, find_untouched by auto. done.
    + apply effect_none in Hk as E; [|done]. rewrite E. simpl. subst m.
      rewrite !find_apply_ops by (try apply sorted_apply_op; done). rewrite find_apply_op by done. by rewrite E.
  - intros k. specialize (Hc k). rewrite find_apply_op by done. destruct (OrdMap.find k r) as [c0|] eqn:E; [|done].
    assert (effect o k = None) as ->; [|done]. apply effect_none; [done|]. intros Hk. by rewrite Hfree in E.
Qed.

#[global] Instance system_backend_ok : BackendOk System K V.
Proof.
  exists coherent.
  - intros s m H. apply (coherent_view s m H).
  - intros s m ks H. apply (get_keys_view (db s) (in_progress s) m ks (OSDriver (db s))). by apply coherent_view.
  - intros s m k H. apply (get_next_view (db s) (in_progress s) m (OSDriver (db s)) k). by apply coherent_view.
  - intros s m l H Hl. by apply (coherent_op s m (OpSet l)).
  - intros s m l H Hl. by apply (coherent_op s m (OpRemove l)).
Defined.
End CacheFacts.
End CacheFacts.

Module CacheTheorems.
Import MapCacher CacheFacts.

Lemma evolves_coherent {K V} `{!Ordered K, !EqDecision K} (m : list (K * V)) s : evolves m s -> coherent s m.
Proof.
  induction 1 as [m Hm|m s l _ IH Hl|m s l _ IH Hl|m s s' _ IH Hs|m s m' s' _ IH Hs].
  - split_and!; try done; constructor.
  - by apply (coherent_op s m (OpSet l)).
  - by apply (coherent_op s m (OpRemove l)).
  - by eapply coherent_step.
  - by eapply coherent_foreign.
Qed.

(** C25: Whatever the order in which writes are issued through the cache, transactions
    are queued and applied, callbacks run, and other caches write other keys of the
    same object, [get_keys] and [get_next] return at once, for every key, what a
    plain map would that has all the writes issued so far; and when everything has
    been applied and called back, the registry is empty and the store is that map. *)
Theorem cache_transparent {K V} `{!Ordered K, !EqDecision K} (m : list (K * V)) (s : System) :
  evolves m s ->
  (forall ks, exists got, bk_get_keys s ks = (0, got) /\ selects ks m got) /\
  (forall k, bk_get_next s k = Some (next_of k m)) /\
  (queue s = [] -> current s = [] -> landed s = [] -> in_progress s = [] /\ db s = m).
Proof.
  intros Hc%evolves_coherent. split_and!; [intros; by apply (bk_keys (BackendOk := system_backend_ok))|
    intros; by apply (bk_next (BackendOk := system_backend_ok))|].
  destruct Hc as (_ & _ & _ & _ & -> & Hc). unfold pending, holders in *. intros Hq Hcu Hl. rewrite Hq, Hcu, Hl in *. split; [|done].
  destruct (in_progress s) as [|[k c] r]; [done|]. specialize (Hc k). simpl in Hc. rewrite Lex.cmp_refl in Hc.
  destruct Hc as (E & L & _). simpl in E. change (count k []) with 0%nat in E. lia.
Qed.

(** Two writes of a key; the store has applied the first and its callback has run. *)
Definition midway : System (K := Z) (V := Z) :=
  mk_system [(1, 10); (5, 50)] [(5, mk_cell None 1)] [[OpRemove [5]]] [] [].
Lemma cache_transparent_witness : bk_get_next midway 1 = Some (- ENOENT, None) /\ exists got, bk_get_keys midway [1; 5] = (0, got) /\ selects [1; 5] [(1, 10)] got.
Proof.
  assert (evolves [(1, 10)] midway) as H.
  { assert (evolves [(1, 10)] (mk_system [(1, 10)] [] [] [] [])) as H0 by (apply evolves_start; repeat constructor).
    apply (fun H => evolves_set _ _ [(5, 50)] H ltac:(repeat constructor)) in H0.
    apply (fun H => evolves_step _ _ _ H (step_submit _)) in H0.
    apply (fun H => evolves_remove _ _ [5] H ltac:(repeat constructor)) in H0.
    apply (fun H => evolves_step _ _ _ H (step_submit _)) in H0.
    apply (fun H => evolves_step _ _ _ H (step_apply _ _ _ _ _ _)) in H0.
    apply (fun H => evolves_step _ _ _ H (step_callback _ _ _ _ [] [5] [])) in H0. exact H0. }
  destruct (cache_transparent _ _ H) as (H1 & H2 & _). split; [apply (H2 1)|apply H1].
Defined.
End CacheTheorems.
