(* ===== verification/SnapMapper.v ===== *)
(** osd/SnapMapper.{h,cc}: which snapshots each clone belongs to, and which clones
    belong to a snapshot, kept as keys of one object of the store that all the
    placement groups of an OSD share.  Every operation of [SnapMapper], over any
    backend that keeps a map of strings (MapCacher.v). *)
From S2P Require Import Prelude Pg Hobject OrderedMap Encoding ObjectKeys MapCacher.
Import Hobject ObjectKeys Encoding.

Module SnapMapper.
Section SnapMapper.
Context {S : Type} `{!Backend S (list Z) buffer}.

(** The members of the class; [verify] is [osd_debug_verify_snaps]. *)
Record SnapMapper := mk_mapper {
  mask_bits : Z;
  match_bits : Z;
  mapper_pool : Z;
  shard : Z;
  prefixes : list (list Z);
  verify : bool
}.
Definition shard_prefix (sm : SnapMapper) : list Z := make_shard_prefix (shard sm).

Definition update_bits (new_bits : Z) (sm : SnapMapper) : option SnapMapper :=
  _prefixes ← get_prefixes new_bits (match_bits sm) (mapper_pool sm);
  let prefixes := foldl (fun ps q => OrdMap.sinsert (shard_prefix sm ++ q) ps) [] _prefixes in
  Some (mk_mapper new_bits (match_bits sm) (mapper_pool sm) (shard sm) prefixes (verify sm)).

(** The constructor. *)
Definition new_mapper (match_bits bits pool shard : Z) (verify : bool) : option SnapMapper :=
  update_bits bits (mk_mapper bits match_bits pool shard [] verify).

Definition check (sm : SnapMapper) (hoid : hobject_t) : bool := match_ hoid (mask_bits sm) (match_bits sm).

Definition to_raw (sm : SnapMapper) (snap : Z) (hoid : hobject_t) : option (list Z * buffer) :=
  b ← encode_mapping (mk_mapping snap hoid);
  k ← to_raw_key (shard_prefix sm) snap hoid;
  Some (k, b).
Definition from_raw (image : list Z * buffer) : option (Z * hobject_t) :=
  '(m, _) ← decode_mapping image.2;
  Some (mapping_snap m, mapping_hoid m).

(** [get_snaps] into an [object_snaps]: an error code and what was decoded, empty on
    an error. *)
Definition no_snaps : object_snaps := mk_object_snaps hobject_min [].
Definition get_object_snaps (sm : SnapMapper) (oid : hobject_t) (s : S) : option (Z * object_snaps) :=
  ceph_assert check sm oid;;
  k ← to_object_key (shard_prefix sm) oid;
  let '(r, got) := bk_get_keys s [k] in
  if r <? 0 then Some (r, no_snaps)
  else
    match got with
    | [] => Some (- ENOENT, no_snaps)
    | (_, bl) :: _ =>
        '(out, _) ← decode_object_snaps bl;
        ceph_assert negb (bool_decide (os_snaps out = []) && verify sm);;
        Some (0, out)
    end.

Definition clear_snaps (sm : SnapMapper) (oid : hobject_t) (s : S) : option S :=
  ceph_assert check sm oid;;
  k ← to_object_key (shard_prefix sm) oid;
  Some (bk_remove_keys [k] s).

Definition set_snaps (sm : SnapMapper) (oid : hobject_t) (snaps : object_snaps) (s : S) : option S :=
  ceph_assert check sm oid;;
  bl ← encode_object_snaps snaps;
  k ← to_object_key (shard_prefix sm) oid;
  Some (bk_set_keys [(k, bl)] s).

(** The keys of the snapshots of an object, in a set. *)
Fixpoint raw_keys (sm : SnapMapper) (oid : hobject_t) (snaps : list Z) (to_remove : list (list Z)) : option (list (list Z)) :=
  match snaps with
  | [] => Some to_remove
  | i :: snaps => k ← to_raw_key (shard_prefix sm) i oid; raw_keys sm oid snaps (OrdMap.sinsert k to_remove)
  end.

Definition _remove_oid (sm : SnapMapper) (oid : hobject_t) (s : S) : option (Z * S) :=
  '(r, out) ← get_object_snaps sm oid s;
  if r <? 0 then Some (r, s)
  else
    s ← clear_snaps sm oid s;
    to_remove ← raw_keys sm oid (os_snaps out) [];
    Some (0, bk_remove_keys to_remove s).
Definition remove_oid (sm : SnapMapper) (oid : hobject_t) (s : S) : option (Z * S) :=
  ceph_assert check sm oid;; _remove_oid sm oid s.

Definition update_snaps (sm : SnapMapper) (oid : hobject_t) (new_snaps : list Z) (old_snaps_check : option (list Z)) (s : S) :
    option (Z * S) :=
  ceph_assert check sm oid;;
  match new_snaps with
  | [] => remove_oid sm oid s
  | _ =>
      '(r, out) ← get_object_snaps sm oid s;
      if (r <? 0) && negb (r =? - ENOENT) then Some (r, s)
      else
        ceph_assert match old_snaps_check with Some old => bool_decide (os_snaps out = old) | None => true end;;
        s ← set_snaps sm oid (mk_object_snaps oid new_snaps) s;
        to_remove ← raw_keys sm oid (filter (fun i => i ∉ new_snaps) (os_snaps out)) [];
        Some (0, bk_remove_keys to_remove s)
  end.

Fixpoint raw_entries (sm : SnapMapper) (oid : hobject_t) (snaps : list Z) (to_add : list (list Z * buffer)) : option (list (list Z * buffer)) :=
  match snaps with
  | [] => Some to_add
  | i :: snaps => '(k, b) ← to_raw sm i oid; raw_entries sm oid snaps (OrdMap.insert k b to_add)
  end.

Definition add_oid (sm : SnapMapper) (oid : hobject_t) (snaps : list Z) (s : S) : option S :=
  ceph_assert negb (bool_decide (snaps = []));;
  ceph_assert check sm oid;;
  '(r, _) ← get_object_snaps sm oid s;
  s ← (if r =? - ENOENT then Some s
       else ceph_assert negb (verify sm);; '(_, s) ← remove_oid sm oid s; Some s);
  s ← set_snaps sm oid (mk_object_snaps oid snaps) s;
  to_add ← raw_entries sm oid snaps [];
  Some (bk_set_keys to_add s).

(** The inner loop of [get_next_objects_to_trim]: at most [room] objects under a prefix,
    from the key after [pos]; with the code of the last [get_next]. *)
Fixpoint next_under (room : nat) (sm : SnapMapper) (snap : Z) (prefix pos : list Z) (out : list hobject_t) (r : Z) (s : S) :
    option (Z * list hobject_t) :=
  match room with
  | O => Some (r, out)
  | Datatypes.S room =>
      '(r, next) ← bk_get_next s pos;
      match next with
      | None => Some (r, out)
      | Some (k, v) =>
          if negb (r =? 0) then Some (r, out)
          else if negb (starts_with prefix k) then Some (r, out)
          else
            ceph_assert is_mapping k;;
            '(snap', hoid) ← from_raw (k, v);
            ceph_assert snap' =? snap;;
            ceph_assert check sm hoid;;
            next_under room sm snap prefix k (out ++ [hoid]) r s
      end
  end.

(** The loop over the prefixes. *)
Fixpoint next_in (ps : list (list Z)) (sm : SnapMapper) (snap max : Z) (out : list hobject_t) (r : Z) (s : S) : option (list hobject_t) :=
  match ps with
  | [] => Some out
  | i :: ps =>
      if (Z.of_nat (length out) <? max) && (r =? 0) then
        let prefix := get_prefix (mapper_pool sm) snap ++ i in
        '(r, out) ← next_under (Z.to_nat max - length out) sm snap prefix prefix out r s;
        next_in ps sm snap max out r s
      else Some out
  end.

Definition get_next_objects_to_trim (sm : SnapMapper) (snap max : Z) (s : S) : option (Z * list hobject_t) :=
  ceph_assert 0 <? max;;
  out ← next_in (prefixes sm) sm snap max [] 0 s;
  Some (if bool_decide (out = []) then - ENOENT else 0, out).

(** [get_snaps] into a set. *)
Definition get_snaps (sm : SnapMapper) (oid : hobject_t) (s : S) : option (Z * list Z) :=
  ceph_assert check sm oid;;
  '(r, out) ← get_object_snaps sm oid s;
  Some (if r <? 0 then (r, []) else (0, os_snaps out)).

End SnapMapper.
End SnapMapper.
