(* ===== verification/SnapMapperFacts.v ===== *)
(** What the operations of the snapshot mapper do to the map they keep: a map that
    tracks an assignment of snapshots to the objects of the OSD keeps tracking it,
    with the object of the operation changed, and the keys under a prefix are the
    objects of a snapshot in a placement group. *)
From S2P Require Import Prelude Pg Hobject OrderedMap Encoding ObjectKeys MapCacher SnapMapper.
Import Hobject ObjectKeys Encoding EncodingFacts KeyFacts PrintfFacts SnapMapper CacheFacts.

(** ** The map and what it stands for *)
Module MapperSpec.

(** The snapshots of each object of each shard; none when the object is not mapped. *)
Definition assignment : Type := Z -> hobject_t -> list Z.
Definition nothing : assignment := fun _ _ => [].
Definition assign (sh : Z) (o : hobject_t) (l : list Z) (A : assignment) : assignment :=
  fun sh' o' => if decide (sh' = sh /\ o' = o) then l else A sh' o'.

(** Snapshots the keys tell apart: below [2^32]. *)
Definition small_set (l : list Z) : Prop := snap_set l /\ Forall (fun s => s < two32) l.

Definition object_entry (o : hobject_t) (l : list Z) : option buffer :=
  match l with [] => None | _ => encode_object_snaps (mk_object_snaps o l) end.

Record tracks (A : assignment) (m : list (list Z * buffer)) : Prop := {
  tracks_sorted : OrdMap.sorted m;
  tracks_ok sh o : A sh o <> [] -> shard_id sh /\ storable o /\ small_set (A sh o);
  tracks_object sh o : shard_id sh -> storable o -> OrdMap.find (object_key sh o) m = object_entry o (A sh o);
  tracks_mapping sh o s : s ∈ A sh o -> OrdMap.find (raw_key sh s o) m = encode_mapping (mk_mapping s o);
  tracks_only k v : OrdMap.find k m = Some v -> is_mapping k = true ->
    exists sh o s, k = raw_key sh s o /\ s ∈ A sh o
}.

(** What a lookup of an object returns, and the code of an operation that needs one. *)
Definition found (o : hobject_t) (l : list Z) : Z * object_snaps :=
  match l with [] => (- ENOENT, no_snaps) | _ => (0, mk_object_snaps o l) end.
Definition code (l : list Z) : Z := match l with [] => - ENOENT | _ => 0 end.
Lemma found_some o l : l <> [] -> found o l = (0, mk_object_snaps o l).
Proof. by destruct l. Qed.
Lemma code_some l : l <> [] -> code l = 0.
Proof. by destruct l. Qed.

(** A mapper as its constructor builds it, and the objects it is for. *)
Definition mapper_ok (sm : SnapMapper) : Prop :=
  shard_id (shard sm) /\ 0 <= mask_bits sm <= 31 /\ INT64_MIN <= mapper_pool sm < two64 / 2 /\
  update_bits (mask_bits sm) sm = Some sm.
Definition owns (sm : SnapMapper) (o : hobject_t) : Prop := storable o /\ check sm o = true.

End MapperSpec.

Module MapperFacts.
Import MapperSpec.

Lemma tracks_nothing : tracks nothing [].
Proof. split; try done; [constructor|set_solver]. Qed.

Lemma raw_is_mapping sh s o : is_mapping (raw_key sh s o) = true.
Proof. reflexivity. Qed.
Lemma object_not_mapping sh o : is_mapping (object_key sh o) = false.
Proof. reflexivity. Qed.

Section Ops.
Context {S : Type} `{!Backend S (list Z) buffer, !BackendOk S (list Z) buffer}.
Implicit Types (sm : SnapMapper) (A : assignment) (o : hobject_t) (l : list Z) (st : S).

Lemma small_u32 s l : s ∈ l -> small_set l -> u64 s /\ u32 s = s.
Proof.
  intros Hin [(_ & Hu & _) Hs]. rewrite Forall_forall in Hu, Hs. specialize (Hu _ Hin). specialize (Hs _ Hin). split; [done|].
  apply Z.mod_small. unfold u64 in Hu. simpl in *. lia.
Qed.

Lemma elem_nonempty {X} (x : X) k : x ∈ k -> k <> [].
Proof. by intros H ->; apply not_elem_of_nil in H. Qed.

Lemma raw_key_small A sh s o sh' s' o' m : tracks A m -> s ∈ A sh o -> shard_id sh' -> storable o' -> 0 <= s' < two32 ->
  raw_key sh s o = raw_key sh' s' o' -> sh = sh' /\ s = s' /\ o = o'.
Proof.
  intros Ht Hin Hsh Ho Hs E. destruct (tracks_ok _ _ Ht sh o) as (H1 & H2 & H3); [by eapply elem_nonempty|].
  apply raw_key_inj in E as (-> & E & ->); [|done..]. destruct (small_u32 s _ Hin H3) as [_ E'].
  split_and!; [done| |done]. rewrite <- E', E. by apply Z.mod_small.
Qed.

(** An object's keys are rewritten: the map tracks the new snapshots. *)
Lemma tracks_assign A sh o l m m' : tracks A m -> OrdMap.sorted m' -> shard_id sh -> storable o -> (l <> [] -> small_set l) ->
  (forall k, k <> object_key sh o -> Forall (fun s => k <> raw_key sh s o) (A sh o ++ l) -> OrdMap.find k m' = OrdMap.find k m) ->
  OrdMap.find (object_key sh o) m' = object_entry o l ->
  Forall (fun s => OrdMap.find (raw_key sh s o) m' = if decide (s ∈ l) then encode_mapping (mk_mapping s o) else None) (A sh o ++ l) ->
  tracks (assign sh o l A) m'.
Proof.
  intros Ht Hm' Hsh Ho Hl Hother Hobj Hmap. pose proof (tracks_sorted _ _ Ht) as Hm. rewrite Forall_forall in Hmap.
  assert (forall s, s ∈ A sh o ++ l -> 0 <= s < two32) as Hrange.
  { assert (forall l, small_set l -> forall s, s ∈ l -> 0 <= s < two32) as Hr.
    { intros l' [(_ & Hu & _) Hlt] s Hs. rewrite Forall_forall in Hu, Hlt. specialize (Hu _ Hs). specialize (Hlt _ Hs).
      unfold u64 in Hu. simpl in *. lia. }
    intros s [Hs|Hs]%elem_of_app; (eapply Hr; [|exact Hs]); [apply (tracks_ok _ _ Ht)|apply Hl]; by eapply elem_nonempty. }
  split; [done|..].
  - intros sh' o'. unfold assign. case_decide as Hd; [destruct Hd as [-> ->]; auto|apply (tracks_ok _ _ Ht)].
  - intros sh' o' Hsh' Ho'. unfold assign. case_decide as Hd; [by destruct Hd as [-> ->]|].
    rewrite Hother; [by apply (tracks_object _ _ Ht)| |].
    + intros E. by apply object_key_inj in E.
    + apply Forall_forall. intros s _ E. symmetry in E. by apply raw_not_object in E.
  - intros sh' o' s. unfold assign. case_decide as Hd.
    + destruct Hd as [-> ->]. intros Hs. rewrite Hmap by set_solver. by rewrite decide_True.
    + intros Hs. rewrite Hother; [by apply (tracks_mapping _ _ Ht)|apply raw_not_object|].
      apply Forall_forall. intros s' Hs' E. eapply raw_key_small in E as (? & ? & ?); [|by auto..]. naive_solver.
  - intros k v Hk Hmp. destruct (decide (Exists (fun s => k = raw_key sh s o) (A sh o ++ l))) as [Hd|Hd].
    + apply Exists_exists in Hd as (s & Hs & ->). rewrite Hmap in Hk by done. case_decide as Hsl; [|done].
      exists sh, o, s. split; [done|]. unfold assign. by rewrite decide_True.
    + apply not_Exists_Forall in Hd; [|apply _]. rewrite Hother in Hk; [|intros ->; by rewrite object_not_mapping in Hmp|done].
      destruct (tracks_only _ _ Ht _ _ Hk Hmp) as (sh' & o' & s & -> & Hs). exists sh', o', s. split; [done|].
      unfold assign. case_decide as E; [|done]. destruct E as [-> ->]. rewrite Forall_forall in Hd. by destruct (Hd s); [set_solver|].
Qed.

(** *** The reads and writes of one object *)

Lemma get_object_snaps_ok sm A o st m : bk_view st m -> tracks A m -> mapper_ok sm -> owns sm o ->
  get_object_snaps sm o st = Some (found o (A (shard sm) o)).
Proof.
  intros Hv Ht Hsm [Ho Hc]. unfold get_object_snaps. rewrite Hc. unfold shard_prefix. rewrite to_object_key_eq by apply Ho. simpl.
  destruct (bk_keys st m [object_key (shard sm) o] Hv) as (got & -> & Hg & Hf). simpl. specialize (Hf (object_key (shard sm) o)) as Hfo.
  rewrite decide_True, (tracks_object _ _ Ht) in Hfo by (done || apply Hsm || set_solver).
  destruct got as [|[k b] got].
  - simpl in Hfo. destruct (A (shard sm) o) as [|x l] eqn:E; [done|]. exfalso. unfold object_entry in Hfo. rewrite <- E in Hfo.
    destruct (reads_object_snaps o (A (shard sm) o)) as (b & Eb & _); [done|apply (tracks_ok _ _ Ht); by rewrite E|]. congruence.
  - assert (k = object_key (shard sm) o) as ->.
    { specialize (Hf k). rewrite OrdMap.find_head in Hf. case_decide; [set_solver|done]. }
    rewrite OrdMap.find_head in Hfo. destruct (A (shard sm) o) as [|x l] eqn:E; [done|].
    unfold object_entry in Hfo. rewrite <- E in *.
    destruct (reads_object_snaps o (A (shard sm) o)) as (b' & Eb & Hr); [done|apply (tracks_ok _ _ Ht); by rewrite E|].
    rewrite Eb in Hfo. injection Hfo as ->. specialize (Hr []). rewrite app_nil_r in Hr. rewrite Hr. simpl.
    rewrite E. done.
Qed.

Lemma raw_keys_ok sm o l acc : storable o -> OrdMap.ssorted acc -> exists ks, raw_keys sm o l acc = Some ks /\ OrdMap.ssorted ks /\
  forall k, k ∈ ks <-> k ∈ acc \/ exists s, s ∈ l /\ k = raw_key (shard sm) s o.
Proof.
  intros Ho. revert acc. induction l as [|x l IH]; intros acc Hacc; simpl.
  { exists acc. split_and!; [done|done|]. set_solver. }
  unfold shard_prefix. rewrite to_raw_key_eq by apply Ho. simpl.
  destruct (IH (OrdMap.sinsert (raw_key (shard sm) x o) acc)) as (ks & E & Hs & Hk); [by apply OrdMap.ssorted_sinsert|].
  exists ks. split_and!; [done|done|]. intros k. rewrite Hk, OrdMap.elem_sinsert. setoid_rewrite elem_of_cons. naive_solver.
Qed.

Lemma raw_entries_ok sm o l acc : storable o -> Forall u64 l -> OrdMap.sorted acc ->
  exists es, raw_entries sm o l acc = Some es /\ OrdMap.sorted es /\
  forall k, OrdMap.find k es = match OrdMap.find k acc with Some v => Some v | None =>
    x ← head (filter (fun s => raw_key (shard sm) s o = k) l); encode_mapping (mk_mapping x o) end.
Proof.
  intros Ho Hl. revert acc. induction Hl as [|x l Hx Hl IH]; intros acc Hacc; simpl.
  { exists acc. split_and!; [done|done|]. intros k. by destruct (OrdMap.find k acc). }
  destruct (reads_mapping x o Ho Hx) as (b & Eb & _). unfold to_raw. rewrite Eb. simpl.
  unfold shard_prefix. rewrite to_raw_key_eq by apply Ho. simpl.
  destruct (IH (OrdMap.insert (raw_key (shard sm) x o) b acc)) as (es & E & Hs & Hk); [by apply OrdMap.sorted_minsert|].
  exists es. split_and!; [done|done|]. intros k. rewrite Hk, OrdMap.find_insert, filter_cons.
  destruct (OrdMap.find k acc); [done|]. destruct (decide (k = raw_key (shard sm) x o)) as [->|Hne].
  - rewrite decide_True by done. simpl. by rewrite Eb.
  - by rewrite decide_False by congruence.
Qed.

(** *** The operations *)

#[global] Instance tracks_proper : Proper (pointwise_relation _ (pointwise_relation _ eq) ==> eq ==> impl) tracks.
Proof.
  intros A A' HA m _ <- Ht. assert (forall sh o, A' sh o = A sh o) as E by (intros; symmetry; apply HA).
  split; [apply Ht|..].
  - intros sh o. rewrite E. apply (tracks_ok _ _ Ht).
  - intros sh o. rewrite E. apply (tracks_object _ _ Ht).
  - intros sh o x. rewrite E. apply (tracks_mapping _ _ Ht).
  - intros k v Hk Hm. destruct (tracks_only _ _ Ht k v Hk Hm) as (sh & o & x & ? & ?). exists sh, o, x. by rewrite E.
Qed.
Lemma assign_twice sh o l l' A : pointwise_relation _ (pointwise_relation _ eq) (assign sh o l (assign sh o l' A)) (assign sh o l A).
Proof. intros sh' o'. unfold assign. by case_decide. Qed.
Lemma assign_same sh o l A : A sh o = l -> pointwise_relation _ (pointwise_relation _ eq) A (assign sh o l A).
Proof. intros <- sh' o'. unfold assign. case_decide as E; [by destruct E as [-> ->]|done]. Qed.
Lemma assigned sh o l A : assign sh o l A sh o = l.
Proof. unfold assign. by rewrite decide_True. Qed.

(** What the operation on an object promises: it returns, and the map tracks the new
    snapshots of the object. *)
Definition becomes (sm : SnapMapper) (o : hobject_t) (l : list Z) (A : assignment) (st : S) : Prop :=
  exists m, bk_view st m /\ tracks (assign (shard sm) o l A) m.

Lemma remove_oid_ok sm A o st m : bk_view st m -> tracks A m -> mapper_ok sm -> owns sm o ->
  exists st', remove_oid sm o st = Some (code (A (shard sm) o), st') /\ becomes sm o [] A st'.
Proof.
  intros Hv Ht Hsm Ho. unfold remove_oid, _remove_oid. destruct Ho as [Hst Hc]. rewrite Hc.
  rewrite (get_object_snaps_ok _ A o st m) by done. destruct (decide (A (shard sm) o = [])) as [E|HA].
  { rewrite E. exists st. split; [done|]. exists m. split; [done|]. by rewrite <- assign_same. }
  rewrite found_some, code_some by done. simpl. unfold clear_snaps. rewrite Hc. unfold shard_prefix. rewrite to_object_key_eq by apply Hst. simpl.
  destruct (raw_keys_ok sm o (A (shard sm) o) [] Hst) as (ks & -> & Hks & Hin); [constructor|]. simpl.
  eexists. split; [done|]. eexists. split; [apply bk_remove; [apply bk_remove; [done|by repeat constructor]|done]|].
  pose proof (tracks_sorted _ _ Ht) as Hm.
  set (m1 := apply_op m (OpRemove [object_key (shard sm) o])). assert (OrdMap.sorted m1) by by apply sorted_apply_op.
  assert (forall k, OrdMap.find k (apply_op m1 (OpRemove ks)) =
    if decide (k ∈ ks) then None else if decide (k ∈ [object_key (shard sm) o]) then None else OrdMap.find k m) as Hf.
  { intros k. subst m1. rewrite !find_apply_op by (done || by repeat constructor). unfold effect. by repeat case_decide. }
  apply (tracks_assign A _ o [] m); [done|by apply sorted_apply_op|apply Hsm|done|done| | |].
  - intros k Hk Hn. rewrite app_nil_r, Forall_forall in Hn. rewrite Hf, !decide_False; [done|set_solver|].
    rewrite Hin. intros [?|(y & Hy & ->)]; [set_solver|]. by apply (Hn y).
  - rewrite Hf. repeat case_decide; set_solver.
  - apply Forall_forall. intros y Hy. rewrite app_nil_r in Hy. rewrite Hf, decide_True; [done|]. rewrite Hin. eauto.
Qed.

Lemma set_snaps_ok sm o l st : mapper_ok sm -> owns sm o -> l <> [] -> small_set l -> exists b,
  set_snaps sm o (mk_object_snaps o l) st = Some (bk_set_keys [(object_key (shard sm) o, b)] st) /\ object_entry o l = Some b.
Proof.
  intros Hsm [Ho Hc] Hl [Hs _]. destruct (reads_object_snaps o l Ho Hs) as (b & E & _). exists b. unfold set_snaps.
  rewrite Hc, E. unfold shard_prefix. rewrite to_object_key_eq by apply Ho. split; [done|]. by destruct l.
Qed.

(** Snapshots of one object have different keys. *)
Lemma head_of_key sh o l x : shard_id sh -> storable o -> small_set l -> x ∈ l ->
  head (filter (fun y => raw_key sh y o = raw_key sh x o) l) = Some x.
Proof.
  intros Hsh Ho Hl Hx. destruct (filter (fun y => raw_key sh y o = raw_key sh x o) l) as [|y f] eqn:E.
  - assert (x ∈ filter (fun y => raw_key sh y o = raw_key sh x o) l) as H by by apply list_elem_of_filter.
    rewrite E in H. set_solver.
  - simpl. f_equal. assert (y ∈ filter (fun y => raw_key sh y o = raw_key sh x o) l) as [Ey Hy]%list_elem_of_filter by (rewrite E; by left).
    apply raw_key_inj in Ey as (_ & Ey & _); [|done..].
    destruct (small_u32 x l Hx Hl) as [_ E1], (small_u32 y l Hy Hl) as [_ E2]. congruence.
Qed.

(** The writes of [add_oid] past the removal of an older mapping. *)
Lemma add_fresh_ok sm A o l st m : bk_view st m -> tracks A m -> mapper_ok sm -> owns sm o -> A (shard sm) o = [] -> l <> [] -> small_set l ->
  exists st', (st ← set_snaps sm o (mk_object_snaps o l) st; to_add ← raw_entries sm o l []; Some (bk_set_keys to_add st)) = Some st' /\
    becomes sm o l A st'.
Proof.
  intros Hv Ht Hsm Ho HA Hl Hs. destruct (set_snaps_ok sm o l st Hsm Ho Hl Hs) as (b & -> & Eb). simpl. destruct Ho as [Ho _].
  destruct (raw_entries_ok sm o l [] Ho) as (es & -> & Hes & Hf); [apply Hs|constructor|]. simpl. simpl in Hf.
  eexists. split; [done|]. eexists. split; [apply bk_set; [apply bk_set; [done|by repeat constructor]|done]|].
  pose proof (tracks_sorted _ _ Ht) as Hm.
  set (m1 := apply_op m (OpSet [(object_key (shard sm) o, b)])). assert (OrdMap.sorted m1) by by apply sorted_apply_op.
  assert (forall k, OrdMap.find k (apply_op m1 (OpSet es)) = match OrdMap.find k es with Some v => Some v | None =>
    if decide (k = object_key (shard sm) o) then Some b else OrdMap.find k m end) as Hf'.
  { intros k. subst m1. rewrite !find_apply_op by (done || by repeat constructor). unfold effect.
    rewrite find_cons_sorted by by repeat constructor. destruct (OrdMap.find k es); [done|]. by case_decide. }
  assert (forall k, Forall (fun x => k <> raw_key (shard sm) x o) l -> OrdMap.find k es = None) as Hnone.
  { intros k Hk. rewrite Hf. destruct (head _) as [x|] eqn:E; [|done]. exfalso. apply head_Some in E as [f E].
    assert (x ∈ filter (fun y => raw_key (shard sm) y o = k) l) as [Ex Hx]%list_elem_of_filter by (rewrite E; by left).
    rewrite Forall_forall in Hk. by apply (Hk x). }
  apply (tracks_assign A _ o l m); [done|by apply sorted_apply_op|apply Hsm|done|done| | |]; rewrite ?HA; simpl.
  - intros k Hk Hn. by rewrite Hf', Hnone, decide_False.
  - rewrite Hf', Hnone, decide_True by (done || apply Forall_forall; intros x _ E; symmetry in E; by apply raw_not_object in E). done.
  - apply Forall_forall. intros x Hx. rewrite Hf', Hf, (head_of_key _ o l x) by (done || apply Hsm). simpl. rewrite decide_True by done.
    destruct (reads_mapping x o Ho) as (bm & -> & _); [|done]. apply (small_u32 x l Hx Hs).
Qed.

Lemma add_oid_ok sm A o l st m : bk_view st m -> tracks A m -> mapper_ok sm -> owns sm o ->
  verify sm = false \/ A (shard sm) o = [] -> l <> [] -> small_set l ->
  exists st', add_oid sm o l st = Some st' /\ becomes sm o l A st'.
Proof.
  intros Hv Ht Hsm Ho Hver Hl Hs. unfold add_oid. rewrite bool_decide_eq_false_2 by done. simpl.
  pose proof Ho as [_ Hc]. rewrite Hc. rewrite (get_object_snaps_ok _ A o st m) by done. destruct (A (shard sm) o) as [|x l'] eqn:E; simpl.
  { by apply (add_fresh_ok sm A o l st m). }
  destruct Hver as [-> | ?]; [|done]. simpl. destruct (remove_oid_ok sm A o st m) as (st1 & -> & m1 & Hv1 & Ht1); [done..|]. simpl.
  destruct (add_fresh_ok sm _ o l st1 m1 Hv1 Ht1) as (st2 & -> & m2 & Hv2 & Ht2); [done|done|apply assigned|done|done|].
  exists st2. split; [done|]. exists m2. split; [done|]. by rewrite assign_twice in Ht2.
Qed.

Lemma subset_small l k : small_set k -> l ⊆ k -> OrdMap.ssorted l -> small_set l.
Proof.
  intros [(H1 & H2 & H3) H4] Hsub Hsort. rewrite Forall_forall in H2, H4. split; [split_and!; [done| |]|]; try (apply Forall_forall; auto).
  assert (length l <= length k)%nat; [|lia]. apply submseteq_length, NoDup_submseteq; [by apply OrdMap.ssorted_nodup|done].
Qed.

Lemma update_snaps_ok sm A o l old st m : bk_view st m -> tracks A m -> mapper_ok sm -> owns sm o ->
  l ⊆ A (shard sm) o -> OrdMap.ssorted l -> (forall k, old = Some k -> l <> [] -> A (shard sm) o = k) ->
  exists st', update_snaps sm o l old st = Some (code (A (shard sm) o), st') /\ becomes sm o l A st'.
Proof.
  intros Hv Ht Hsm Ho Hsub Hsort Hold. unfold update_snaps. pose proof Ho as [Hst Hc]. rewrite Hc. destruct l as [|x0 l0] eqn:El.
  { by apply (remove_oid_ok sm A o st m). }
  rewrite <- El in *. assert (l <> []) as Hne by by rewrite El.
  assert (A (shard sm) o <> []) as HA by (apply (elem_nonempty x0), Hsub; rewrite El; by left).
  rewrite (get_object_snaps_ok _ A o st m) by done.
  rewrite found_some, code_some by done. simpl. assert (match old with Some old => bool_decide (A (shard sm) o = old) | None => true end = true) as ->.
  { destruct old as [k|]; [|done]. apply bool_decide_eq_true_2. by apply Hold. }
  assert (small_set l) as Hs by (apply (subset_small l (A (shard sm) o)); [by apply (tracks_ok _ _ Ht)|done..]).
  destruct (set_snaps_ok sm o l st Hsm Ho Hne Hs) as (b & -> & Eb). simpl.
  destruct (raw_keys_ok sm o (filter (fun i => i ∉ l) (A (shard sm) o)) [] Hst) as (ks & -> & Hks & Hin); [constructor|]. simpl.
  eexists. split; [done|]. eexists. split; [apply bk_remove; [apply bk_set; [done|by repeat constructor]|done]|].
  pose proof (tracks_sorted _ _ Ht) as Hm.
  set (m1 := apply_op m (OpSet [(object_key (shard sm) o, b)])). assert (OrdMap.sorted m1) by by apply sorted_apply_op.
  assert (forall k, OrdMap.find k (apply_op m1 (OpRemove ks)) = if decide (k ∈ ks) then None else
    if decide (k = object_key (shard sm) o) then Some b else OrdMap.find k m) as Hf.
  { intros k. subst m1. rewrite !find_apply_op by (done || by repeat constructor). unfold effect.
    rewrite find_cons_sorted by by repeat constructor. by repeat case_decide. }
  apply (tracks_assign A _ o l m); [done|by apply sorted_apply_op|apply Hsm|done|done| | |].
  - intros k Hk Hn. rewrite Forall_forall in Hn. rewrite Hf, !decide_False; [done|done|]. rewrite Hin.
    intros [?|(y & [_ Hy]%list_elem_of_filter & ->)]; [set_solver|]. apply (Hn y); [set_solver|done].
  - rewrite Hf, decide_False, decide_True; [done|done|]. rewrite Hin. intros [?|(y & _ & E)]; [set_solver|].
    symmetry in E. by apply raw_not_object in E.
  - apply Forall_forall. intros y Hy. rewrite Hf. assert (y ∈ A (shard sm) o) as HyA by set_solver.
    destruct (decide (y ∈ l)) as [Hyl|Hyl].
    + rewrite decide_False, decide_False by (done || apply raw_not_object ||
        (rewrite Hin; intros [?|(z & [Hz1 Hz2]%list_elem_of_filter & Ez)]; [set_solver|];
         eapply raw_key_small in Ez as (_ & -> & _); [done|done|done|apply Hsm|done|];
         destruct (small_u32 z _ Hz2 (proj2 (proj2 (tracks_ok _ _ Ht _ _ HA)))) as [? Eu]; rewrite <- Eu; apply Z.mod_pos_bound; done)).
      by apply (tracks_mapping _ _ Ht).
    + rewrite decide_True; [done|]. rewrite Hin. right. exists y. split; [by apply list_elem_of_filter|done].
Qed.

(** *** The objects of a snapshot *)

(** The entries under a prefix, as objects. *)
Definition entry_object (kv : list Z * buffer) : hobject_t :=
  match from_raw kv with Some (_, h) => h | None => hobject_min end.
Definition under (prefix : list Z) (m : list (list Z * buffer)) : list hobject_t :=
  entry_object <$> filter (fun kv => starts_with prefix kv.1 = true) m.

(** Between a prefix and a string with the prefix there are only strings with it. *)
Lemma prefix_between P k r : ~ OrdMap.klt k P -> ~ OrdMap.klt (P ++ r) k -> has_prefix P k.
Proof.
  revert k. induction P as [|c P IH]; intros k H1 H2; [done|]. destruct k as [|d k]; [by destruct H1|].
  unfold OrdMap.klt in *. simpl in *. unfold string_compare in *. simpl in *.
  destruct (Z.compare_spec d c); [subst|done|].
  - rewrite Z.compare_refl in H2. unfold has_prefix. simpl. f_equal. by apply IH.
  - destruct (Z.compare_spec c d); [lia|done|lia].
Qed.
Lemma prefix_least P k : has_prefix P k -> k = P \/ OrdMap.klt P k.
Proof.
  intros [r ->]%has_prefix_app. destruct r as [|c r]; [left; by rewrite app_nil_r|right].
  induction P as [|d P IH]; [done|]. unfold OrdMap.klt in *. simpl in *. unfold string_compare in *. simpl. by rewrite Z.compare_refl.
Qed.

Lemma app_klt p a b : OrdMap.klt a b -> OrdMap.klt (p ++ a) (p ++ b).
Proof. induction p as [|c p IH]; [done|]. intros H. unfold OrdMap.klt in *. simpl in *. unfold string_compare in *. simpl. rewrite Z.compare_refl. auto. Qed.

Section Trim.
Context (sm : SnapMapper) (snap : Z) (st : S) (m : list (list Z * buffer)).
Hypotheses (Hv : bk_view st m).

(** Every entry under the prefix is a mapping of the snapshot to an object of the group. *)
Definition good_prefix (P : list Z) : Prop :=
  OrdMap.find P m = None /\ forall k v, OrdMap.find k m = Some v -> has_prefix P k ->
    is_mapping k = true /\ from_raw (k, v) = Some (snap, entry_object (k, v)) /\ check sm (entry_object (k, v)) = true.

Lemma under_first P pos k v U : has_prefix P pos -> OrdMap.upper_bound pos m = (k, v) :: U ->
  ~ has_prefix P k -> under P ((k, v) :: U) = [].
Proof.
  intros Hpos E Hk. unfold under. rewrite filter_none; [done|]. apply Forall_forall. intros [k2 v2] Hin H2%starts_with_spec. simpl in H2.
  apply Hk. pose proof (bk_sorted _ _ Hv) as Hm. pose proof (OrdMap.sorted_upper_bound pos m Hm) as Hu. rewrite E in Hu.
  apply elem_of_cons in Hin as [[= -> ->]|Hin]; [done|].
  apply StronglySorted_inv in Hu as [_ Hu]. rewrite Forall_forall in Hu. specialize (Hu _ Hin). simpl in Hu.
  apply has_prefix_app in H2 as [r ->]. eapply prefix_between; [|by apply OrdMap.klt_asym].
  assert (OrdMap.klt pos k) as L by apply (OrdMap.upper_bound_head _ _ _ _ _ Hm E).
  intros L'. destruct (prefix_least _ _ Hpos) as [->|L2]; [by apply OrdMap.klt_asym in L|].
  apply (OrdMap.klt_asym P k); [by trans pos|done].
Qed.

Lemma next_under_ok room P pos out : good_prefix P -> has_prefix P pos -> exists r,
  next_under room sm snap P pos out 0 st = Some (r, out ++ take room (under P (OrdMap.upper_bound pos m))) /\
  (r <> 0 -> forall k v, OrdMap.find k m = Some v -> OrdMap.klt P k -> has_prefix P k).
Proof.
  intros Hgood. pose proof (bk_sorted _ _ Hv) as Hm. revert pos out. induction room as [|room IH]; intros pos out Hpos; simpl.
  { exists 0. rewrite app_nil_r. done. }
  rewrite (bk_next st m pos Hv). simpl. unfold next_of. destruct (OrdMap.upper_bound pos m) as [|[k v] U] eqn:E; simpl.
  - exists (- ENOENT). rewrite app_nil_r. split; [done|]. intros _ k v Hk L. apply has_prefix_app in Hpos as [r ->].
    eapply prefix_between; [by apply OrdMap.klt_asym|]. by eapply (OrdMap.upper_bound_nil _ _ Hm E).
  - destruct (OrdMap.upper_bound_head _ _ _ _ _ Hm E) as (Hk & _ & _). destruct (starts_with P k) eqn:Es; simpl.
    + destruct Hgood as [Hn Hg]. pose proof Es as Hp%starts_with_spec. destruct (Hg _ _ Hk Hp) as (-> & -> & Hc). simpl.
      rewrite Z.eqb_refl, Hc. destruct (IH k (out ++ [entry_object (k, v)]) Hp) as (r & Er & Hr). exists r. split; [|done].
      rewrite Er, (OrdMap.upper_bound_next _ _ _ _ _ Hm E). unfold under. rewrite filter_cons_True by done. simpl.
      by rewrite <- app_assoc.
    + exists 0. split; [|done]. rewrite (under_first P pos); [by rewrite take_nil, app_nil_r|done|done|].
      intros H%starts_with_spec. congruence.
Qed.

Lemma under_upper P : good_prefix P -> under P (OrdMap.upper_bound P m) = under P m.
Proof.
  intros [Hn _]. pose proof (bk_sorted _ _ Hv) as Hm. destruct (OrdMap.upper_bound_suffix P m) as (l & E & Hl).
  unfold under. rewrite E at 2. rewrite filter_app, fmap_app. rewrite (filter_none _ l); [done|].
  apply Forall_forall. intros [k v] Hin H%starts_with_spec. rewrite Forall_forall in Hl. specialize (Hl _ Hin). simpl in Hl, H.
  destruct (prefix_least _ _ H) as [->|?]; [|done]. assert ((P, v) ∈ m) as Hin' by (rewrite E; set_solver).
  apply OrdMap.find_entry in Hin'; [congruence|done].
Qed.

(** The prefixes in turn: the objects under all of them, as many as asked for. *)
Definition full (q : list Z) : list Z := get_prefix (mapper_pool sm) snap ++ q.

Lemma next_in_ok ps max out r n :
  OrdMap.ssorted ps -> Forall (fun q => length q = n) ps -> Forall (fun q => good_prefix (full q)) ps ->
  (length out <= Z.to_nat max)%nat -> (r <> 0 -> Forall (fun q => under (full q) m = []) ps) ->
  next_in ps sm snap max out r st = Some (take (Z.to_nat max) (out ++ (ps ≫= fun q => under (full q) m))).
Proof.
  revert out r. induction ps as [|q ps IH]; intros out r Hs Hn Hg Hout Hr; cbn [next_in].
  { simpl. by rewrite app_nil_r, take_ge. }
  rewrite bind_cons.
  pose proof Hs as [Hs' Hlt]%StronglySorted_inv. apply Forall_cons in Hn as [Hq Hn], Hg as [Hg1 Hg].
  destruct ((Z.of_nat (length out) <? max) && (r =? 0)) eqn:E.
  - zbool. subst r. fold (full q). destruct (next_under_ok (Z.to_nat max - length out) (full q) (full q) out Hg1) as (r & -> & Hr').
    { apply has_prefix_app. exists []. by rewrite app_nil_r. }
    cbn [mbind option_bind]. rewrite under_upper by done. set (l := under (full q) m). rewrite IH; [|done..| |].
    + f_equal. rewrite app_assoc. rewrite (take_app (out ++ l)).
      assert (out ++ take (Z.to_nat max - length out) l = take (Z.to_nat max) (out ++ l)) as ->.
      { rewrite take_app. by rewrite (take_ge out) by done. }
      rewrite take_app, take_take, Nat.min_id, length_take. f_equal.
      destruct (Nat.le_gt_cases (length (out ++ l)) (Z.to_nat max)); [by rewrite Nat.min_r|].
      rewrite Nat.min_l by lia. rewrite Nat.sub_diag. replace (Z.to_nat max - length (out ++ l))%nat with 0%nat by lia. done.
    + rewrite length_app, length_take. lia.
    + intros Hne. apply Forall_forall. intros q' Hq'. unfold under. rewrite filter_none; [done|].
      apply Forall_forall. intros [k v] Hin Hk%starts_with_spec. simpl in Hk. pose proof (bk_sorted _ _ Hv) as Hm.
      apply OrdMap.find_entry in Hin; [|done]. rewrite Forall_forall in Hlt, Hn. specialize (Hlt _ Hq'). specialize (Hn _ Hq').
      assert (full q' <> full q) as Hne'.
      { intros Eq%app_inv_head. rewrite Eq in Hlt. by apply OrdMap.klt_not_self in Hlt. }
      assert (length (full q') = length (full q)) as Hlen by (unfold full; rewrite !length_app; lia).
      assert (has_prefix (full q) k) as Hk1.
      { eapply Hr'; [done|done|]. destruct (prefix_least _ _ Hk) as [->|L]; [|trans (full q'); [|done]]; by apply app_klt. }
      unfold has_prefix in *. congruence.
  - rewrite take_app. assert (length out = Z.to_nat max \/ r <> 0) as [El|Hr0] by (zbool; lia).
    + rewrite El, Nat.sub_diag, take_0, app_nil_r. by rewrite take_ge by lia.
    + specialize (Hr Hr0). apply Forall_cons in Hr as [E1 Hr]. rewrite E1. change ([] ++ ?l) with l.
      assert ((ps ≫= fun q => under (full q) m) = []) as ->.
      { clear -Hr. induction Hr as [|x l Hx Hl IH]; [done|]. by rewrite bind_cons, Hx, IH. }
      by rewrite take_nil, app_nil_r, take_ge.
Qed.

Context (A : assignment).
Hypotheses (Ht : tracks A m) (Hsm : mapper_ok sm) (Hsnap : 0 <= snap < two32).

(** The prefixes of the mapper and what they say of an object. *)
Lemma mapper_prefixes : exists n, OrdMap.ssorted (prefixes sm) /\ Forall (fun q => length q = n) (prefixes sm) /\
  (forall p, p ∈ prefixes sm -> exists q, p = make_shard_prefix (shard sm) ++ q /\ begins_alnum q /\ (length q <= 25)%nat) /\
  forall o, storable o -> (exists q, make_shard_prefix (shard sm) ++ q ∈ prefixes sm /\ has_prefix q (object_str o)) <->
    pool o = mapper_pool sm /\ check sm o = true.
Proof.
  destruct Hsm as (Hsh & Hb & Hp & E). unfold update_bits in E.
  destruct (get_prefixes_exact (mask_bits sm) (match_bits sm) (mapper_pool sm) Hb Hp) as (ps & n & Eps & Hs & Hn & Hn25 & Hal & Hx).
  rewrite Eps in E. simpl in E. unfold shard_prefix in E. injection E as E. apply (f_equal prefixes) in E. simpl in E.
  assert (forall (qs acc : list (list Z)) p, p ∈ foldl (fun ps q => OrdMap.sinsert (make_shard_prefix (shard sm) ++ q) ps) acc qs <->
    p ∈ acc \/ exists q, q ∈ qs /\ p = make_shard_prefix (shard sm) ++ q) as Hin.
  { induction qs as [|q qs IH]; intros acc p; simpl; [set_solver|]. rewrite IH, OrdMap.elem_sinsert. setoid_rewrite elem_of_cons. naive_solver. }
  assert (forall (qs acc : list (list Z)), OrdMap.ssorted acc ->
    OrdMap.ssorted (foldl (fun ps q => OrdMap.sinsert (make_shard_prefix (shard sm) ++ q) ps) acc qs)) as Hsort.
  { induction qs as [|q qs IH]; intros acc Hacc; [done|]. simpl. by apply IH, OrdMap.ssorted_sinsert. }
  exists (length (make_shard_prefix (shard sm)) + n)%nat. rewrite <- E. rewrite Forall_forall in Hn, Hal. split_and!.
  - apply Hsort. constructor.
  - apply Forall_forall. intros p [?|(q & Hq & ->)]%Hin; [set_solver|]. rewrite length_app. by rewrite (Hn q Hq).
  - intros p [?|(q & Hq & ->)]%Hin; [set_solver|]. exists q. split_and!; [done|by apply Hal|rewrite (Hn q Hq); lia].
  - intros o Ho. rewrite <- Hx by done. setoid_rewrite Hin. split.
    + intros (q & [?|(q' & Hq & Eq)] & Hpre); [set_solver|]. apply app_inv_head in Eq as ->. eauto.
    + intros (q & Hq & Hpre). exists q. eauto.
Qed.

(** An entry under the prefix of the snapshot and the group. *)
Lemma entry_under p k v : p ∈ prefixes sm -> OrdMap.find k m = Some v -> has_prefix (full p) k -> exists o q,
  p = make_shard_prefix (shard sm) ++ q /\ k = raw_key (shard sm) snap o /\ snap ∈ A (shard sm) o /\ storable o /\
  has_prefix q (object_str o) /\ from_raw (k, v) = Some (snap, o) /\ pool o = mapper_pool sm /\ check sm o = true.
Proof.
  intros Hp Hk [r Er]%has_prefix_app. destruct mapper_prefixes as (n & _ & _ & Hps & Hx).
  destruct (Hps _ Hp) as (q & Eq & Hq & _). assert (is_mapping k = true) as Hmap.
  { subst k. reflexivity. }
  destruct (tracks_only _ _ Ht _ _ Hk Hmap) as (sh & o & s & Ek & Hs).
  destruct (tracks_ok _ _ Ht sh o) as (Hsh & Ho & Hsmall); [by eapply elem_nonempty|].
  assert (get_prefix (mapper_pool sm) snap ++ make_shard_prefix (shard sm) ++ q ++ r = raw_key sh s o) as E.
  { rewrite <- Ek, Er. unfold full. rewrite Eq. by rewrite <- !app_assoc. }
  apply mapping_key_split in E as (Epool & Esnap & Esh & Eo); [|apply Hsm|apply Ho|apply Hsm|done| |apply object_str_begins].
  2: { destruct Hq as (c & q' & -> & Hc). by exists c, (q' ++ r). }
  subst sh. destruct (small_u32 s _ Hs Hsmall) as [Hu Eu]. rewrite Eu in Esnap. unfold u32 in Esnap. rewrite Z.mod_small in Esnap by done. subst s.
  assert (has_prefix q (object_str o)) as Hpre by (apply has_prefix_app; by exists r).
  exists o, q. split_and!; try done; [|apply Hx; [done|]; exists q; by rewrite <- Eq].
  rewrite Ek, (tracks_mapping _ _ Ht) in Hk by done. destruct (reads_mapping snap o Ho Hu) as (b & Eb & Hr). rewrite Eb in Hk. injection Hk as ->.
  unfold from_raw. specialize (Hr []). rewrite app_nil_r in Hr. simpl. by rewrite Hr.
Qed.

Lemma mapper_good : Forall (fun q => good_prefix (full q)) (prefixes sm).
Proof.
  apply Forall_forall. intros p Hp. split.
  - destruct (OrdMap.find (full p) m) as [v|] eqn:E; [|done]. exfalso.
    destruct (entry_under p (full p) v Hp E) as (o & q & Eq & Ek & _ & _ & _ & _ & Epool & _); [apply has_prefix_app; exists []; by rewrite app_nil_r|].
    destruct mapper_prefixes as (n & _ & _ & Hps & _). destruct (Hps _ Hp) as (q' & Eq' & _ & Hl).
    rewrite Eq in Eq'. apply app_inv_head in Eq' as <-. unfold full in Ek. rewrite Eq in Ek.
    apply (f_equal length) in Ek. unfold raw_key in Ek. pose proof (length_object_str o).
    rewrite Epool, !length_app in Ek. lia.
  - intros k v Hk Hpre. destruct (entry_under p k v Hp Hk Hpre) as (o & q & _ & _ & _ & _ & _ & Ef & _ & Hc).
    unfold entry_object. rewrite Ef. split_and!; [|done|done]. apply has_prefix_app in Hpre as [r ->]. reflexivity.
Qed.

(** All the objects of the snapshot in the group. *)
Definition members : list hobject_t := prefixes sm ≫= fun q => under (full q) m.

Lemma elem_under p o : p ∈ prefixes sm -> o ∈ under (full p) m <->
  exists v q, p = make_shard_prefix (shard sm) ++ q /\ has_prefix q (object_str o) /\
    OrdMap.find (raw_key (shard sm) snap o) m = Some v /\ snap ∈ A (shard sm) o /\ pool o = mapper_pool sm /\ check sm o = true.
Proof.
  intros Hp. pose proof (bk_sorted _ _ Hv) as Hm. unfold under. rewrite list_elem_of_fmap. split.
  - intros ([k v] & -> & [Hpre%starts_with_spec Hin]%list_elem_of_filter). apply OrdMap.find_entry in Hin; [|done].
    destruct (entry_under p k v Hp Hin Hpre) as (o & q & Eq & Ek & Hs & _ & Hq & Ef & Hpool & Hc).
    unfold entry_object. rewrite Ef. exists v, q. by rewrite <- Ek.
  - intros (v & q & Eq & Hq & Hf & Hs & Hpool & Hc). exists (raw_key (shard sm) snap o, v).
    assert (has_prefix (full p) (raw_key (shard sm) snap o)) as Hpre.
    { apply has_prefix_app in Hq as [r Er]. apply has_prefix_app. exists r. unfold full, raw_key. rewrite Eq, Er, Hpool. by rewrite <- !app_assoc. }
    destruct (entry_under p _ v Hp Hf Hpre) as (o' & q' & _ & Ek & Hs' & Ho' & _ & Ef & _).
    assert (storable o) as Ho by (apply (tracks_ok _ _ Ht (shard sm)); by eapply elem_nonempty).
    apply raw_key_inj in Ek as (_ & _ & <-); [|apply Hsm|apply Hsm|done|done]. split.
    + unfold entry_object. by rewrite Ef.
    + apply list_elem_of_filter. split; [by apply starts_with_spec|]. by apply OrdMap.find_entry.
Qed.

Lemma elem_members o : o ∈ members <-> snap ∈ A (shard sm) o /\ pool o = mapper_pool sm /\ check sm o = true.
Proof.
  unfold members. rewrite list_elem_of_bind. split.
  - intros (p & Hin & Hp). apply elem_under in Hin as (v & q & _ & _ & _ & ?); [done|done].
  - intros (Hs & Hpool & Hc). destruct (tracks_ok _ _ Ht (shard sm) o) as (_ & Ho & Hsmall); [by eapply elem_nonempty|].
    destruct mapper_prefixes as (n & _ & _ & _ & Hx). destruct (proj2 (Hx o Ho)) as (q & Hq & Hpre); [done|].
    exists (make_shard_prefix (shard sm) ++ q). split; [|done]. apply elem_under; [done|].
    destruct (reads_mapping snap o Ho) as (b & Eb & _); [unfold u64; lia|].
    exists b, q. split_and!; try done. by rewrite (tracks_mapping _ _ Ht), Eb.
Qed.

Lemma members_nodup : NoDup members.
Proof.
  destruct mapper_prefixes as (n & Hs & Hn & _ & _). unfold members. apply NoDup_bind; [| |by apply OrdMap.ssorted_nodup].
  - intros p1 p2 o H1 H2 (v1 & q1 & E1 & P1 & _)%elem_under (v2 & q2 & E2 & P2 & _)%elem_under; [|done..].
    rewrite Forall_forall in Hn. pose proof (Hn _ H1) as L1. pose proof (Hn _ H2) as L2.
    rewrite E1, length_app in L1. rewrite E2, length_app in L2. rewrite E1, E2. f_equal.
    unfold has_prefix in P1, P2. rewrite <- P1, <- P2. f_equal. lia.
  - intros p Hp. unfold under. apply NoDup_fmap_2_strong.
    + intros [k1 v1] [k2 v2] [P1%starts_with_spec H1]%list_elem_of_filter [P2%starts_with_spec H2]%list_elem_of_filter E.
      pose proof (bk_sorted _ _ Hv) as Hm. apply OrdMap.find_entry in H1, H2; [|done..].
      destruct (entry_under p k1 v1 Hp H1 P1) as (o1 & q1 & _ & Ek1 & _ & _ & _ & Ef1 & _).
      destruct (entry_under p k2 v2 Hp H2 P2) as (o2 & q2 & _ & Ek2 & _ & _ & _ & Ef2 & _).
      unfold entry_object in E. rewrite Ef1, Ef2 in E. subst. congruence.
    + apply NoDup_filter. pose proof (bk_sorted _ _ Hv) as Hm%OrdMap.sorted_alt.
      apply (NoDup_fmap_1 fst). by apply OrdMap.ssorted_nodup.
Qed.

Lemma get_next_ok max : 0 < max ->
  get_next_objects_to_trim sm snap max st = Some (if bool_decide (members = []) then - ENOENT else 0, take (Z.to_nat max) members).
Proof.
  intros Hmax. unfold get_next_objects_to_trim. rewrite (proj2 (Z.ltb_lt 0 max)) by done.
  destruct mapper_prefixes as (n & Hs & Hn & _). rewrite (next_in_ok _ _ _ _ n Hs Hn mapper_good) by (done || simpl; lia).
  simpl app. fold members. simpl. destruct members, (Z.to_nat max) eqn:E; [done|done|lia|done].
Qed.
End Trim.
End Ops.
End MapperFacts.
