(* ===== verification/PgSnapMap.v ===== *)
(** The callers of the snapshot mapper in osd/PG.cc and osd/ReplicatedBackend.cc: the
    mapping of an object follows the log entries that are appended, a recovered or
    removed object, and what scrub finds. *)
From S2P Require Import Prelude Pg Hobject OrderedMap Encoding ObjectKeys CleanRegions PgMissing MapCacher SnapMapper.
Import Hobject ObjectKeys Encoding SnapMapper Entry.

Module PgSnapMap.

(** [CEPH_MAXSNAP]. *)
Definition CEPH_MAXSNAP : Z := two64 - 3.

(** [std::vector<snapid_t>] and its encoding, that of a set. *)
Definition encode_vector (l : list Z) : buffer := encode_set l.
Fixpoint decode_elements (n : nat) : decoder (list Z) :=
  match n with
  | O => mret []
  | S n => v ← decode_u64; l ← decode_elements n; mret (v :: l)
  end.
Definition decode_vector : decoder (list Z) := n ← decode_u32; decode_elements (Z.to_nat n).

(** [set<snapid_t>(v.begin(), v.end())]. *)
Definition set_of (l : list Z) : list Z := foldl (fun s v => OrdMap.sinsert v s) [] l.

(** What a log entry says of the snapshots of its object: [op], [soid] and [snaps]. *)
Record snap_entry := mk_snap_entry { se_op : op_t; se_soid : hobject_t; se_snaps : buffer }.

(** ReplicatedBackend.cc, [generate_transaction]: the snapshots that a transaction sets
    go into the entries of the object. *)
Definition fill_snaps (updated_snaps : hobject_t -> option (list Z * list Z)) (le : snap_entry) : snap_entry :=
  match updated_snaps (se_soid le) with
  | Some (_, new_snaps) => mk_snap_entry (se_op le) (se_soid le) (encode_set new_snaps)
  | None => le
  end.

Section PgSnapMap.
Context {St : Type} `{!Backend St (list Z) buffer}.

Definition is_delete_op (o : op_t) : bool := match o with DELETE | LOST_DELETE => true | _ => false end.
Definition is_update_op (o : op_t) : bool :=
  match o with CLONE | MODIFY | PROMOTE | CLEAN | LOST_REVERT | LOST_MARK => true | _ => false end.

(** One entry of [update_snap_map]. *)
Definition update_snap_entry (sm : SnapMapper) (i : snap_entry) (s : St) : option St :=
  if negb (snap (se_soid i) <? CEPH_MAXSNAP) then Some s
  else if is_delete_op (se_op i) then
    '(r, s) ← remove_oid sm (se_soid i) s;
    ceph_assert (r =? 0) || (r =? - ENOENT);; Some s
  else if is_update_op (se_op i) then
    ceph_assert negb (bool_decide (se_snaps i = []));;
    let snaps := match decode_vector (se_snaps i) with Some (l, _) => l | None => [] end in
    let _snaps := set_of snaps in
    match se_op i with
    | CLONE | PROMOTE => add_oid sm (se_soid i) _snaps s
    | MODIFY => '(r, s) ← update_snaps sm (se_soid i) _snaps None s; ceph_assert r =? 0;; Some s
    | op => ceph_assert (bool_decide (op = CLEAN));; Some s
    end
  else Some s.
Fixpoint update_snap_map (sm : SnapMapper) (log_entries : list snap_entry) (s : St) : option St :=
  match log_entries with
  | [] => Some s
  | i :: rest => s ← update_snap_entry sm i s; update_snap_map sm rest s
  end.

Definition clear_object_snap_mapping (sm : SnapMapper) (soid : hobject_t) (s : St) : option St :=
  if snap soid <? CEPH_MAXSNAP then
    '(r, s) ← remove_oid sm soid s;
    ceph_assert (r =? 0) || (r =? - ENOENT);; Some s
  else Some s.

Definition update_object_snap_mapping (sm : SnapMapper) (soid : hobject_t) (snaps : list Z) (s : St) : option St :=
  ceph_assert snap soid <? CEPH_MAXSNAP;;
  '(r, s) ← remove_oid sm soid s;
  ceph_assert (r =? 0) || (r =? - ENOENT);; add_oid sm soid snaps s.

(** [_scan_snaps] on a clone of a head with a snapset: the mapping is compared with the
    snapset's [clone_snaps] of the clone and repaired; the flag says whether it was wrong. *)
Definition scan_clone (sm : SnapMapper) (hoid : hobject_t) (clone_snaps : option (list Z)) (s : St) : option (bool * St) :=
  match clone_snaps with
  | None => Some (false, s)
  | Some l =>
      let obj_snaps := set_of l in
      '(r, cur_snaps) ← get_snaps sm hoid s;
      ceph_assert (r =? 0) || (r =? - ENOENT);;
      if (r =? - ENOENT) || negb (bool_decide (cur_snaps = obj_snaps)) then
        s ← (if r =? 0 then '(r, s) ← remove_oid sm hoid s; ceph_assert r =? 0;; Some s else Some s);
        s ← add_oid sm hoid obj_snaps s;
        Some (true, s)
      else Some (false, s)
  end.

End PgSnapMap.
End PgSnapMap.
