(* ===== verification/SnapMapperTheorems.v ===== *)
(** The theorems about the snapshot mapper: over the cache and the store it works on, it
    implements an assignment of snapshots to objects; it finds exactly the objects of a
    snapshot; and its callers keep it in step with the log and with the snapsets. *)
From S2P Require Import Prelude Pg Hobject OrderedMap Encoding ObjectKeys CleanRegions PgMissing MapCacher SnapMapper SnapMapperFacts PgSnapMap.
Import Hobject ObjectKeys Encoding EncodingFacts KeyFacts SnapMapper PgSnapMap MapperSpec MapperFacts.
Import CacheFacts Entry.

Module MapperRuns.

Abbreviation system := (MapCacher.System (K := list Z) (V := buffer)).

(** [mapped A s]: operations of mappers of any groups and shards that work on one cache,
    with transactions queued and applied and callbacks run in between, can leave the
    system at [s] when the mapping they ask for is [A].  An object that is mapped is
    added again only where the code tolerates it, and an update only takes snapshots
    away. *)
Inductive mapped : assignment -> system -> Prop :=
| mapped_start : mapped nothing (MapCacher.mk_system [] [] [] [] [])
| mapped_add A s sm o l s' : mapped A s -> mapper_ok sm -> owns sm o -> verify sm = false \/ A (shard sm) o = [] ->
    l <> [] -> small_set l -> add_oid sm o l s = Some s' -> mapped (assign (shard sm) o l A) s'
| mapped_update A s sm o l old r s' : mapped A s -> mapper_ok sm -> owns sm o -> l ⊆ A (shard sm) o -> OrdMap.ssorted l ->
    (forall k, old = Some k -> l <> [] -> A (shard sm) o = k) ->
    update_snaps sm o l old s = Some (r, s') -> mapped (assign (shard sm) o l A) s'
| mapped_remove A s sm o r s' : mapped A s -> mapper_ok sm -> owns sm o ->
    remove_oid sm o s = Some (r, s') -> mapped (assign (shard sm) o [] A) s'
| mapped_step A s s' : mapped A s -> MapCacher.step s s' -> mapped A s'.

Lemma mapped_tracks A s : mapped A s -> exists m, bk_view s m /\ tracks A m.
Proof.
  induction 1 as [|A s sm o l s' _ (m & Hv & Ht) Hsm Ho Hver Hl Hs E|A s sm o l old r s' _ (m & Hv & Ht) Hsm Ho Hsub Hsort Hold E|
    A s sm o r s' _ (m & Hv & Ht) Hsm Ho E|A s s' _ (m & Hv & Ht) Hstep].
  - exists []. split; [split_and!; try done; constructor|apply tracks_nothing].
  - destruct (add_oid_ok sm A o l s m Hv Ht Hsm Ho Hver Hl Hs) as (s1 & E1 & m1 & Hv1 & Ht1). rewrite E in E1. injection E1 as <-. by exists m1.
  - destruct (update_snaps_ok sm A o l old s m Hv Ht Hsm Ho Hsub Hsort Hold) as (s1 & E1 & m1 & Hv1 & Ht1).
    rewrite E in E1. injection E1 as _ <-. by exists m1.
  - destruct (remove_oid_ok sm A o s m Hv Ht Hsm Ho) as (s1 & E1 & m1 & Hv1 & Ht1). rewrite E in E1. injection E1 as _ <-. by exists m1.
  - exists m. split; [by eapply coherent_step|done].
Qed.

(** The operations return in every such state. *)
Section Total.
Context (A : assignment) (s : system) (sm : SnapMapper) (o : hobject_t).
Hypotheses (Hm : mapped A s) (Hsm : mapper_ok sm) (Ho : owns sm o).

Lemma run_get : get_object_snaps sm o s = Some (found o (A (shard sm) o)).
Proof. destruct (mapped_tracks _ _ Hm) as (m & Hv & Ht). by apply (get_object_snaps_ok sm A o s m). Qed.
Lemma run_remove : exists s', remove_oid sm o s = Some (code (A (shard sm) o), s') /\ mapped (assign (shard sm) o [] A) s'.
Proof.
  destruct (mapped_tracks _ _ Hm) as (m & Hv & Ht). destruct (remove_oid_ok sm A o s m Hv Ht Hsm Ho) as (s' & E & _).
  exists s'. split; [done|]. by eapply mapped_remove.
Qed.
Lemma run_add l : verify sm = false \/ A (shard sm) o = [] -> l <> [] -> small_set l ->
  exists s', add_oid sm o l s = Some s' /\ mapped (assign (shard sm) o l A) s'.
Proof.
  intros Hver Hl Hs. destruct (mapped_tracks _ _ Hm) as (m & Hv & Ht).
  destruct (add_oid_ok sm A o l s m Hv Ht Hsm Ho Hver Hl Hs) as (s' & E & _). exists s'. split; [done|]. by eapply mapped_add.
Qed.
Lemma run_add_refused l : verify sm = true -> A (shard sm) o <> [] -> add_oid sm o l s = None.
Proof.
  intros Hver HA. unfold add_oid. destruct (negb (bool_decide (l = []))); [|done]. rewrite (proj2 Ho), run_get. unfold found.
  destruct (A (shard sm) o); [done|]. cbn. by rewrite Hver.
Qed.
Lemma run_update l old : l ⊆ A (shard sm) o -> OrdMap.ssorted l -> (forall k, old = Some k -> l <> [] -> A (shard sm) o = k) ->
  exists s', update_snaps sm o l old s = Some (code (A (shard sm) o), s') /\ mapped (assign (shard sm) o l A) s'.
Proof.
  intros Hsub Hsort Hold. destruct (mapped_tracks _ _ Hm) as (m & Hv & Ht).
  destruct (update_snaps_ok sm A o l old s m Hv Ht Hsm Ho Hsub Hsort Hold) as (s' & E & _). exists s'. split; [done|]. by eapply mapped_update.
Qed.
End Total.

Lemma mapped_small A s sh o : mapped A s -> A sh o <> [] -> small_set (A sh o).
Proof. intros (m & _ & Ht)%mapped_tracks. apply (tracks_ok _ _ Ht). Qed.

(** *** The callers *)

Lemma set_of_sorted l : OrdMap.ssorted (set_of l).
Proof.
  unfold set_of. assert (forall acc, OrdMap.ssorted acc -> OrdMap.ssorted (foldl (fun s v => OrdMap.sinsert v s) acc l)) as H.
  { induction l as [|x l IH]; intros acc Hacc; [done|]. simpl. by apply IH, OrdMap.ssorted_sinsert. }
  apply H. constructor.
Qed.
Lemma elem_set_of l x : x ∈ set_of l <-> x ∈ l.
Proof.
  unfold set_of. assert (forall acc, x ∈ foldl (fun s v => OrdMap.sinsert v s) acc l <-> x ∈ acc \/ x ∈ l) as ->; [|set_solver].
  induction l as [|y l IH]; intros acc; simpl; [set_solver|]. rewrite IH, OrdMap.elem_sinsert. set_solver.
Qed.

(** What an entry says, what it has to be for the code to take it, and what it does to
    the mapping. *)
Definition snaps_of (i : snap_entry) : list Z :=
  set_of (match decode_vector (se_snaps i) with Some (l, _) => l | None => [] end).
Definition entry_ok (sm : SnapMapper) (A : assignment) (i : snap_entry) : Prop :=
  snap (se_soid i) < CEPH_MAXSNAP -> owns sm (se_soid i) /\
  match se_op i with
  | DELETE | LOST_DELETE | ERROR => True
  | CLONE | PROMOTE => snaps_of i <> [] /\ small_set (snaps_of i) /\ (verify sm = false \/ A (shard sm) (se_soid i) = [])
  | MODIFY => se_snaps i <> [] /\ snaps_of i ⊆ A (shard sm) (se_soid i) /\ A (shard sm) (se_soid i) <> []
  | CLEAN => se_snaps i <> []
  | LOST_REVERT | LOST_MARK => False
  end.
Definition follow (sm : SnapMapper) (A : assignment) (i : snap_entry) : assignment :=
  if snap (se_soid i) <? CEPH_MAXSNAP then
    match se_op i with
    | DELETE | LOST_DELETE => assign (shard sm) (se_soid i) [] A
    | CLONE | PROMOTE | MODIFY => assign (shard sm) (se_soid i) (snaps_of i) A
    | _ => A
    end
  else A.
Inductive entries_ok (sm : SnapMapper) : assignment -> list snap_entry -> Prop :=
| entries_nil A : entries_ok sm A []
| entries_cons A i l : entry_ok sm A i -> entries_ok sm (follow sm A i) l -> entries_ok sm A (i :: l).

Lemma no_bytes_no_snaps i : snaps_of i <> [] -> se_snaps i <> [].
Proof. intros H E. unfold snaps_of in H. rewrite E in H. done. Qed.

Lemma code_cases l : (code l =? 0) || (code l =? - ENOENT) = true.
Proof. by destruct l. Qed.

Lemma run_log_entry A s sm i : mapped A s -> mapper_ok sm -> entry_ok sm A i ->
  exists s', update_snap_entry sm i s = Some s' /\ mapped (follow sm A i) s'.
Proof.
  intros Hm Hsm Hok. unfold update_snap_entry, follow. destruct (snap (se_soid i) <? CEPH_MAXSNAP) eqn:E; simpl; [|by exists s].
  zbool. destruct (Hok E) as [Ho Hop]. destruct (se_op i) eqn:Eop; simpl; try done; try (by exists s).
  - destruct Hop as (Hb & Hsub & HA). rewrite bool_decide_eq_false_2 by done. simpl. fold (snaps_of i).
    destruct (run_update A s sm (se_soid i) Hm Hsm Ho (snaps_of i) None) as (s' & -> & Hm'); [done|apply set_of_sorted|done|].
    rewrite code_some by done. simpl. by exists s'.
  - destruct Hop as (Hl & Hs & Hver). rewrite bool_decide_eq_false_2 by by apply no_bytes_no_snaps. simpl. by apply run_add.
  - destruct (run_remove A s sm (se_soid i) Hm Hsm Ho) as (s' & -> & Hm'). simpl. rewrite code_cases. by exists s'.
  - destruct (run_remove A s sm (se_soid i) Hm Hsm Ho) as (s' & -> & Hm'). simpl. rewrite code_cases. by exists s'.
  - destruct Hop as (Hl & Hs & Hver). rewrite bool_decide_eq_false_2 by by apply no_bytes_no_snaps. simpl. by apply run_add.
  - rewrite bool_decide_eq_false_2 by done. simpl. by exists s.
Qed.

Lemma run_entries A s sm l : mapped A s -> mapper_ok sm -> entries_ok sm A l ->
  exists s', update_snap_map sm l s = Some s' /\ mapped (foldl (follow sm) A l) s'.
Proof.
  intros Hm Hsm Hl. revert s Hm. induction Hl as [A|A i l Hi Hl IH]; intros s Hm; simpl; [by exists s|].
  destruct (run_log_entry A s sm i Hm Hsm Hi) as (s1 & -> & Hm1). simpl. by apply IH.
Qed.
End MapperRuns.

Module MapperTheorems.
Import MapperRuns.

(** A group of a pool of 8, an object of it and one of another group. *)
Definition sm5 : SnapMapper := default (mk_mapper 0 0 0 0 [] false) (new_mapper 5 3 2 NO_SHARD true).
Definition obj5 : hobject_t := mk_hobject [97] [] 9 13 2 [].
Definition obj5' : hobject_t := mk_hobject [98; 46] [] 9 21 2 [110].
Lemma sm5_ok : mapper_ok sm5.
Proof. unfold mapper_ok, shard_id. split_and!; by vm_compute. Qed.
Lemma obj5_owned : owns sm5 obj5 /\ owns sm5 obj5'.
Proof.
  assert (forall o, max o = false -> 0 <= hash o < two32 -> nibblewise_key_cache o = reverse_nibbles (hash o) ->
    hash_reverse_bits o = reverse_bits (hash o) -> key o = [] -> 0 <= snap o < two64 -> INT64_MIN <= pool o < two64 / 2 ->
    (length (oid o) + length (nspace o) < 100)%nat -> oid o <> [] -> storable o) as H.
  { intros o Hm ? ? ? Hk ? ? ? ?. split; [|rewrite Hk; split_and!; first [done|lia|simpl; lia]].
    split_and!; first [done|lia|by left|by rewrite Hm]. }
  split; (split; [apply H|]); try (split; by vm_compute); try by vm_compute.
  all: vm_compute; lia.
Qed.
Lemma small_pair a b : 0 <= a < b -> b < two32 -> small_set [a; b].
Proof.
  intros Ha Hb. split; [split_and!|].
  - repeat constructor. apply Z.compare_lt_iff. lia.
  - repeat constructor; unfold u64; lia.
  - simpl. lia.
  - repeat constructor; lia.
Qed.

(** C24: In every state the operations of the mapper and the store can lead to, with writes
    still under way, the mapper behaves as the assignment: [get_snaps] returns the
    snapshots of an object or [-ENOENT]; [remove_oid] unmaps it and returns the same code;
    [add_oid] of snapshots below [2^32] maps an object that is not mapped, or replaces its
    mapping when [verify] is off, and fails its assertion when the object is mapped and
    [verify] is on; [update_snaps] to a part of the snapshots it has keeps those.  None
    of the others fails an assertion, and what they leave stands for the assignment
    changed at that object and nowhere else.  [update_snaps] to snapshots the object does
    not have is not covered: see [update_adds_no_mapping]. *)
Theorem mapper_refines (A : assignment) (s : system) (sm : SnapMapper) (o : hobject_t) :
  mapped A s -> mapper_ok sm -> owns sm o ->
  get_snaps sm o s = Some (code (A (shard sm) o), A (shard sm) o) /\
  (exists s', remove_oid sm o s = Some (code (A (shard sm) o), s') /\ mapped (assign (shard sm) o [] A) s') /\
  (forall l, verify sm = false \/ A (shard sm) o = [] -> l <> [] -> small_set l ->
     exists s', add_oid sm o l s = Some s' /\ mapped (assign (shard sm) o l A) s') /\
  (forall l, verify sm = true -> A (shard sm) o <> [] -> add_oid sm o l s = None) /\
  (forall l, l ⊆ A (shard sm) o -> OrdMap.ssorted l ->
     exists s', update_snaps sm o l None s = Some (code (A (shard sm) o), s') /\ mapped (assign (shard sm) o l A) s').
Proof.
  intros Hm Hsm Ho. split_and!.
  - unfold get_snaps. rewrite (proj2 Ho), (run_get A) by done. by destruct (A (shard sm) o).
  - by apply run_remove.
  - intros l. by apply run_add.
  - intros l. by apply run_add_refused.
  - intros l Hsub Hl. by apply run_update.
Qed.

Lemma mapped_pair : exists s, mapped (assign NO_SHARD obj5' [4; 7] (assign NO_SHARD obj5 [4; 6] nothing)) s /\
  add_oid sm5 obj5 [4; 6] (MapCacher.mk_system [] [] [] [] []) ≫= add_oid sm5 obj5' [4; 7] = Some s.
Proof.
  destruct (run_add nothing (MapCacher.mk_system [] [] [] [] []) sm5 obj5 mapped_start sm5_ok (proj1 obj5_owned) [4; 6]) as (s1 & E1 & H1);
    [by right|done|by apply small_pair|].
  destruct (run_add _ s1 sm5 obj5' H1 sm5_ok (proj2 obj5_owned) [4; 7]) as (s2 & E2 & H2); [by right|done|by apply small_pair|].
  exists s2. split; [done|]. by rewrite E1.
Qed.

Lemma mapper_refines_witness : exists s, get_snaps sm5 obj5 s = Some (0, [4; 6]) /\ get_snaps sm5 obj5' s = Some (0, [4; 7]).
Proof.
  destruct mapped_pair as (s & Hm & _). exists s.
  split; [apply (mapper_refines _ s sm5 obj5 Hm sm5_ok (proj1 obj5_owned))|apply (mapper_refines _ s sm5 obj5' Hm sm5_ok (proj2 obj5_owned))].
Defined.

(** C23: [get_next_objects_to_trim] returns, whatever is still under way, a prefix of one
    list of the objects that belong to the snapshot, are in the group of the mapper, and
    are of its pool and shard: all of them when there are at most [max], none twice, and
    [-ENOENT] exactly when there is none.  In particular none of its assertions fails,
    although all the groups of the OSD share the keys. *)
Theorem trim_list_exact (A : assignment) (s : system) (sm : SnapMapper) (snapid : Z) :
  mapped A s -> mapper_ok sm -> 0 <= snapid < two32 ->
  exists L, NoDup L /\
    (forall o, o ∈ L <-> snapid ∈ A (shard sm) o /\ pool o = mapper_pool sm /\ check sm o = true) /\
    forall max, 0 < max ->
      get_next_objects_to_trim sm snapid max s = Some (if bool_decide (L = []) then - ENOENT else 0, take (Z.to_nat max) L).
Proof.
  intros Hm Hsm Hs. destruct (mapped_tracks _ _ Hm) as (m & Hv & Ht). exists (members sm snapid m). split_and!.
  - by apply (members_nodup sm snapid s m Hv A Ht Hsm Hs).
  - intros o. by apply (elem_members sm snapid s m Hv A Ht Hsm Hs).
  - intros max Hmax. by apply (get_next_ok sm snapid s m Hv A Ht Hsm Hs).
Qed.

Lemma trim_list_exact_witness : exists s L, obj5 ∈ L /\ obj5' ∈ L /\
  get_next_objects_to_trim sm5 4 5 s = Some (0, take 5 L) /\ get_next_objects_to_trim sm5 5 5 s = Some (- ENOENT, []).
Proof.
  destruct mapped_pair as (s & Hm & _).
  destruct (trim_list_exact _ s sm5 4 Hm sm5_ok ltac:(lia)) as (L & _ & HL & Hget).
  destruct (trim_list_exact _ s sm5 5 Hm sm5_ok ltac:(lia)) as (L5 & _ & HL5 & Hget5).
  assert (obj5 ∈ L /\ obj5' ∈ L) as [H1 H2] by (split; apply HL; (split; [vm_compute; set_solver|split; by vm_compute])).
  assert (L5 = []) as ->.
  { destruct L5 as [|o L5]; [done|]. destruct (proj1 (HL5 o) ltac:(by left)) as [H _]. exfalso. revert H.
    unfold assign, nothing. repeat case_decide; set_solver. }
  exists s, L. split_and!; [done|done| |by apply Hget5]. rewrite Hget by done. by destruct L; [apply not_elem_of_nil in H1|].
Defined.

(** C26: [update_snap_map] follows the log: entries that delete a clone, make one, promote
    one or take snapshots from one, in any number and order, change the mapping of each
    to what the entry says, with no assertion failing, when each entry is consistent with
    the mapping it meets and names snapshots below [2^32] ([entries_ok]). *)
Theorem snap_map_follows_log (A : assignment) (s : system) (sm : SnapMapper) (entries : list snap_entry) :
  mapped A s -> mapper_ok sm -> entries_ok sm A entries ->
  exists s', update_snap_map sm entries s = Some s' /\ mapped (foldl (follow sm) A entries) s'.
Proof. intros Hm Hsm He. by apply run_entries. Qed.

(** A clone is made for two snapshots, loses one, and is deleted. *)
Definition life_of_clone : list snap_entry :=
  [mk_snap_entry CLONE obj5 (encode_vector [6; 4]); mk_snap_entry MODIFY obj5 (encode_set [6]); mk_snap_entry DELETE obj5 []].
Lemma snap_map_follows_log_witness : exists s', update_snap_map sm5 life_of_clone (MapCacher.mk_system [] [] [] [] []) = Some s' /\
  mapped (foldl (follow sm5) nothing life_of_clone) s'.
Proof.
  apply (snap_map_follows_log nothing _ sm5 life_of_clone mapped_start sm5_ok).
  constructor; [|constructor; [|constructor; [|constructor]]]; intros _; (split; [apply obj5_owned|]); simpl.
  - split; [by vm_compute|]. split; [by apply (small_pair 4 6)|by right].
  - split; [by vm_compute|]. split; [vm_compute; set_solver|by vm_compute].
  - done.
Defined.

(** C27: Scrub repairs the mapping: whatever an assignment says of a clone, after
    [_scan_snaps] its mapping is the (non-empty) set the snapset says, and a repair is reported exactly when it was something else. *)
Theorem scan_repairs (A : assignment) (s : system) (sm : SnapMapper) (o : hobject_t) (l : list Z) :
  mapped A s -> mapper_ok sm -> owns sm o -> l <> [] -> small_set (set_of l) ->
  exists wrong s', scan_clone sm o (Some l) s = Some (wrong, s') /\ get_snaps sm o s' = Some (0, set_of l) /\
    (wrong = true <-> A (shard sm) o <> set_of l) /\
    exists A', mapped A' s' /\ forall sh o', A' sh o' = assign (shard sm) o (set_of l) A sh o'.
Proof.
  intros Hm Hsm Ho Hl Hs. assert (set_of l <> []) as Hne.
  { destruct l as [|x l]; [done|]. apply (elem_nonempty x). apply elem_set_of. by left. }
  assert (forall A' s', mapped A' s' -> A' (shard sm) o = set_of l -> get_snaps sm o s' = Some (0, set_of l)) as Hget.
  { intros A' s' Hm' E. unfold get_snaps. rewrite (proj2 Ho), (run_get A') by done. rewrite E, found_some by done. done. }
  unfold scan_clone. unfold get_snaps at 1. rewrite (proj2 Ho), (run_get A) by done.
  destruct (decide (A (shard sm) o = [])) as [E|HA].
  - rewrite E. simpl. destruct (run_add A s sm o Hm Hsm Ho (set_of l)) as (s' & -> & Hm'); [by right|done|done|]. simpl.
    exists true, s'. split_and!; [done|by eapply Hget, assigned|naive_solver|by eexists].
  - rewrite found_some by done. simpl. destruct (decide (A (shard sm) o = set_of l)) as [E|Hd].
    + rewrite (bool_decide_eq_true_2 _ E). simpl. exists false, s. split_and!; [done|by eapply Hget|naive_solver|].
      exists A. split; [done|]. intros sh o'. by apply (assign_same (shard sm) o (set_of l) A E).
    + rewrite (bool_decide_eq_false_2 _ Hd). simpl.
      destruct (run_remove A s sm o Hm Hsm Ho) as (s1 & -> & Hm1). rewrite code_some by done. simpl.
      destruct (run_add _ s1 sm o Hm1 Hsm Ho (set_of l)) as (s' & -> & Hm'); [right; apply assigned|done|done|]. simpl.
      exists true, s'. split_and!; [done|by eapply Hget, assigned|naive_solver|]. eexists. split; [done|]. intros sh o'. apply assign_twice.
Qed.

Lemma scan_repairs_witness : exists s, get_snaps sm5 obj5 s = Some (0, [4; 6]) /\
  exists s', scan_clone sm5 obj5 (Some [7; 4]) s = Some (true, s') /\ get_snaps sm5 obj5 s' = Some (0, [4; 7]).
Proof.
  destruct (run_add nothing (MapCacher.mk_system [] [] [] [] []) sm5 obj5 mapped_start sm5_ok (proj1 obj5_owned) [4; 6]) as (s & E & Hm);
    [by right|done|by apply small_pair|].
  exists s. split; [vm_compute in E; injection E as <-; by vm_compute|].
  destruct (scan_repairs _ s sm5 obj5 [7; 4] Hm sm5_ok (proj1 obj5_owned)) as (w & s' & Es & Eg & Hw & _); [done|by apply (small_pair 4 7)|].
  exists s'. rewrite Es, Eg. split; [|done]. destruct w; [done|]. exfalso. assert (false = true) by (apply Hw; by vm_compute). done.
Defined.

(** *** What the keys do not tell apart, and what an update does not write *)

(** The key of a mapping has the low 32 bits of the snapshot only: a clone of snapshot
    [2^32 + 1] is found under snapshot 1, and the assertion that it is mapped to the
    snapshot asked for fails. *)
Lemma wide_snapshot_aborts :
  (s ← add_oid sm5 obj5 [two32 + 1] (MapCacher.mk_system [] [] [] [] [] : system); get_next_objects_to_trim sm5 1 5 s) = None /\
  raw_key NO_SHARD (two32 + 1) obj5 = raw_key NO_SHARD 1 obj5.
Proof. split; by vm_compute. Qed.

(** [update_snaps] writes no key for a snapshot that is new to the object, nor any when
    the object was not mapped; the snapshots are in the object's own entry, and its clones
    are not found for trimming. *)
Lemma update_adds_no_mapping :
  (s ← add_oid sm5 obj5 [4] (MapCacher.mk_system [] [] [] [] [] : system); '(r, s) ← update_snaps sm5 obj5 [4; 6] None s;
   l ← get_snaps sm5 obj5 s; n ← get_next_objects_to_trim sm5 6 5 s; Some (r, l, n)) = Some (0, (0, [4; 6]), (- ENOENT, [])).
Proof. by vm_compute. Qed.

(** An error of the store is returned by [update_snaps] and [remove_oid], and nothing is
    written. *)
Lemma store_error_returned {S} `{!Backend S (list Z) buffer} (sm : SnapMapper) (o : hobject_t) (l : list Z) old (s : S) r got :
  check sm o = true -> max o = false -> r < 0 -> r <> - ENOENT ->
  bk_get_keys s [object_key (shard sm) o] = (r, got) ->
  remove_oid sm o s = Some (r, s) /\ update_snaps sm o l old s = Some (r, s).
Proof.
  intros Hc Hm Hr Hn E. assert (get_object_snaps sm o s = Some (r, no_snaps)) as Eg.
  { unfold get_object_snaps. rewrite Hc. unfold shard_prefix. rewrite to_object_key_eq by done. simpl. rewrite E.
    by rewrite (proj2 (Z.ltb_lt r 0)). }
  assert (remove_oid sm o s = Some (r, s)) as Erm.
  { unfold remove_oid, _remove_oid. rewrite Hc, Eg. simpl. by rewrite (proj2 (Z.ltb_lt r 0)). }
  split; [done|]. unfold update_snaps. rewrite Hc. destruct l; [done|]. rewrite Eg. simpl.
  rewrite (proj2 (Z.ltb_lt r 0)) by done. by rewrite (proj2 (Z.eqb_neq r (- ENOENT))).
Qed.
End MapperTheorems.
