(* ===== verification/PurgedSnaps.v ===== *)
(** The rest of osd/SnapMapper.cc: the record of purged snapshots, the scrub that looks for
    clones mapped to a purged snapshot, and the conversion of the keys of older releases.
    They work on the keys of an object of the store directly. *)
From S2P Require Import Prelude Pg Hobject OrderedMap Encoding ObjectKeys MapCacher SnapMapper.
Import Hobject ObjectKeys Encoding SnapMapper.

Module PurgedSnaps.

Abbreviation omap := (list (list Z * buffer)).

(** ** Purged snapshots *)

(** The value at the key takes the encoding at its end. *)
Definition make_purged_snap_key_value (pool b e : Z) (m : omap) : omap :=
  let k := make_purged_snap_key pool (sub64 e 1) in
  let v := default [] (OrdMap.find k m) in
  OrdMap.set k (v ++ encode_purged (mk_purged pool b e)) m.

(** The record whose last snapshot is the first at or after [snap]: its pool is decoded and
    not looked at. *)
Definition _lookup_purged_snap (store : omap) (pool snap : Z) : option (Z * purged) :=
  match OrdMap.lower_bound (make_purged_snap_key pool snap) store with
  | [] => Some (- ENOENT, mk_purged 0 0 0)
  | (k, v) :: _ =>
      if negb (starts_with PURGED_SNAP_PREFIX k) then Some (- ENOENT, mk_purged 0 0 0)
      else
        '(p, _) ← decode_purged v;
        Some (if (snap <? purged_begin p) || (purged_end p <=? snap) then - ENOENT else 0, p)
  end.

(** One range of a pool. *)
Definition record_range (store : omap) (pool b e : Z) (rm : list (list Z)) (m : omap) : option (list (list Z) * omap) :=
  '(rb, before) ← _lookup_purged_snap store pool (sub64 b 1);
  '(ra, after) ← _lookup_purged_snap store pool e;
  Some (
    if (rb =? 0) && (ra =? 0) then
      (OrdMap.sinsert (make_purged_snap_key pool (sub64 (purged_end before) 1)) rm,
       make_purged_snap_key_value pool (purged_begin before) (purged_end after) m)
    else if rb =? 0 then
      (OrdMap.sinsert (make_purged_snap_key pool (sub64 (purged_end before) 1)) rm,
       make_purged_snap_key_value pool (purged_begin before) e m)
    else if ra =? 0 then (rm, make_purged_snap_key_value pool b (purged_end after) m)
    else (rm, make_purged_snap_key_value pool b e m)).
Fixpoint record_ranges (store : omap) (l : list (Z * Z * Z)) (rm : list (list Z)) (m : omap) : option (list (list Z) * omap) :=
  match l with
  | [] => Some (rm, m)
  | (pool, b, e) :: l => '(rm, m) ← record_range store pool b e rm m; record_ranges store l rm m
  end.
(** The ranges of the epochs and pools in the order of the loops, as pool, first and end. *)
Definition record_purged_snaps (store : omap) (purged_snaps : list (Z * Z * Z)) : option omap :=
  '(rm, m) ← record_ranges store purged_snaps [] [];
  Some (apply_op (apply_op store (OpRemove rm)) (OpSet m)).

(** ** Scrub *)

(** [Scrubber]: the iterator over the records with the current one ([pool] is negative
    past the last), the iterator over the mappings with the current one, and the strays. *)
Record Scrubber := mk_scrubber {
  psit : omap; cur_pool : Z; cur_begin : Z; cur_end : Z;
  mapit : omap;
  stray : list (Z * Z * Z * Z)
}.

Definition _parse_p (s : Scrubber) : option Scrubber :=
  match psit s with
  | (k, v) :: rest =>
      if starts_with PURGED_SNAP_PREFIX k then
        '(p, _) ← decode_purged v;
        Some (mk_scrubber rest (purged_pool p) (purged_begin p) (purged_end p) (mapit s) (stray s))
      else Some (mk_scrubber (psit s) (-1) (cur_begin s) (cur_end s) (mapit s) (stray s))
  | [] => Some (mk_scrubber [] (-1) (cur_begin s) (cur_end s) (mapit s) (stray s))
  end.

(** [sscanf(k, "SNA_%lld_%llx.%lx", ..)]: how many numbers it reads.  After the second
    number the format asks for a dot, which a key never has there (an underscore follows
    the digits), so the shard is never read. *)
Fixpoint skip_digits (hexadecimal : bool) (s : list Z) : list Z :=
  match s with
  | c :: r =>
      if ((48 <=? c) && (c <=? 57)) || hexadecimal && (((65 <=? c) && (c <=? 70)) || ((97 <=? c) && (c <=? 102)))
      then skip_digits hexadecimal r else s
  | [] => []
  end.
Definition scan_number (hexadecimal : bool) (s : list Z) : option (list Z) :=
  let s := match s with c :: r => if (c =? 45) || (c =? 43) then r else s | [] => s end in
  let r := skip_digits hexadecimal s in
  if bool_decide (r = s) then None else Some r.
Definition scan_char (c : Z) (s : list Z) : option (list Z) :=
  match s with d :: r => if d =? c then Some r else None | [] => None end.
Definition sscanf_key (k : list Z) : Z :=
  match scan_number false (drop 4 k) with
  | None => 0
  | Some r =>
      match scan_char 95 r ≫= scan_number true with
      | None => 1
      | Some r => match scan_char 46 r ≫= scan_number true with None => 2 | Some _ => 3 end
      end
  end.

(** [_parse_m]: the mapping under the iterator, and the shard: [NO_SHARD] unless exactly
    one number was read, and then a variable that was not set. *)
Definition _parse_m (s : Scrubber) (unset : Z) : option (option (Mapping * Z) * Scrubber) :=
  match mapit s with
  | (k, v) :: rest =>
      if starts_with MAPPING_PREFIX k then
        '(m, _) ← decode_mapping v;
        let sh := if sscanf_key k =? 1 then unset else NO_SHARD in
        Some (Some (m, sh), mk_scrubber (psit s) (cur_pool s) (cur_begin s) (cur_end s) rest (stray s))
      else Some (None, s)
  | [] => Some (None, s)
  end.

(** The inner loop of [run]: the records that end before the mapping are passed. *)
Fixpoint advance (fuel : nat) (m : Mapping) (s : Scrubber) : option Scrubber :=
  match fuel with
  | O => None
  | S fuel =>
      if (0 <=? cur_pool s) &&
         ((cur_pool s <? pool (mapping_hoid m)) || ((pool (mapping_hoid m) =? cur_pool s) && (cur_end s <=? mapping_snap m)))
      then s ← _parse_p s; advance fuel m s
      else Some s
  end.

Fixpoint run_loop (fuel : nat) (unset : Z) (s : Scrubber) : option Scrubber :=
  match fuel with
  | O => None
  | S fuel =>
      '(next, s) ← _parse_m s unset;
      match next with
      | None => Some s
      | Some (m, sh) =>
          s ← advance (S (S (length (psit s)))) m s;
          if cur_pool s <? 0 then Some s
          else if (pool (mapping_hoid m) <? cur_pool s) || (mapping_snap m <? cur_begin s) then run_loop fuel unset s
          else
            ceph_assert (cur_begin s <=? mapping_snap m) && (mapping_snap m <? cur_end s) && (pool (mapping_hoid m) =? cur_pool s);;
            run_loop fuel unset (mk_scrubber (psit s) (cur_pool s) (cur_begin s) (cur_end s) (mapit s)
              (stray s ++ [(cur_pool s, mapping_snap m, hash (mapping_hoid m), sh)]))
      end
  end.

Definition run (purged_store mapping_store : omap) (unset : Z) : option (list (Z * Z * Z * Z)) :=
  s ← _parse_p (mk_scrubber (OrdMap.upper_bound PURGED_SNAP_PREFIX purged_store) 0 0 0 [] []);
  let s := mk_scrubber (psit s) (cur_pool s) (cur_begin s) (cur_end s) (OrdMap.upper_bound MAPPING_PREFIX mapping_store) [] in
  s ← run_loop (S (length (mapit s))) unset s;
  Some (stray s).

(** ** Keys of older releases *)

Definition convert_legacy_key (old_key : list Z) (value : buffer) : option (list Z) :=
  '(_, hoid) ← from_raw (old_key, value);
  let object_suffix := drop (length LEGACY_MAPPING_PREFIX) old_key in
  Some (MAPPING_PREFIX ++ Printf.sdec (pool hoid) ++ 95 :: object_suffix).

(** The loop over the iterator: [to_set] is written to the store when it is full, when the
    legacy keys end, and at the end. *)
Fixpoint convert_loop (max : Z) (iter : omap) (to_set store : omap) : option omap :=
  match iter with
  | [] => Some store
  | (k, v) :: rest =>
      if is_legacy_mapping k then
        nk ← convert_legacy_key k v;
        let to_set := OrdMap.insert nk v to_set in
        if bool_decide (rest = []) || (max <=? Z.of_nat (length to_set))
        then convert_loop max rest [] (apply_op store (OpSet to_set))
        else convert_loop max rest to_set store
      else Some (apply_op store (OpSet to_set))
  end.
(** [omap_rmkeyrange]: from the first key up to the last. *)
Definition rmkeyrange (first last : list Z) (m : omap) : omap :=
  filter (fun kv => string_lt kv.1 first || negb (string_lt kv.1 last)) m.
Definition convert_legacy (max : Z) (store : omap) : option omap :=
  store ← convert_loop max (OrdMap.upper_bound LEGACY_MAPPING_PREFIX store) [] store;
  Some (rmkeyrange LEGACY_MAPPING_PREFIX [77; 65; 80; 96] store).

End PurgedSnaps.
