(* ===== verification/PurgedFacts.v ===== *)
(** Lemmas on the scrub of purged snapshots and on the conversion of old keys
    (PurgedSnaps.v): what the keys hold, the order they are read in, the loops. *)
From S2P Require Import Prelude Pg Hobject OrderedMap Encoding ObjectKeys MapCacher SnapMapper SnapMapperFacts PurgedSnaps.
Import Hobject ObjectKeys Encoding EncodingFacts Printf PrintfFacts KeyFacts SnapMapper PurgedSnaps.

Module PurgedFacts.

(** ** The shard in a key is never read *)

Definition decimal (c : Z) : Prop := 48 <= c < 58.
Lemma dec_decimal v : Forall decimal (dec v).
Proof.
  unfold dec, plain. generalize (width 64 10 v). intros n. revert v. induction n as [|n IH]; intros v; simpl; [constructor|].
  apply Forall_app. split; [apply IH|]. constructor; [|constructor]. pose proof (Z.mod_pos_bound v 10). unfold digit, decimal. case_tests; lia.
Qed.
Lemma dec_nonempty v : dec v <> [].
Proof.
  unfold dec, plain. intros E%(f_equal length). rewrite length_digits in E. pose proof (width_pos 10 64 v). cbn [length] in E. lia.
Qed.

Lemma skip_digits_app (h : bool) l c r : Forall (fun c => if h then alnum c else decimal c) l -> ~ alnum c ->
  skip_digits h (l ++ c :: r) = c :: r.
Proof.
  intros Hl Hc. induction Hl as [|x l Hx Hl IH]; simpl.
  - unfold alnum in Hc. assert ((48 <=? c) && (c <=? 57) || h && ((65 <=? c) && (c <=? 70) || (97 <=? c) && (c <=? 102)) = false) as ->; [|done].
    apply orb_false_iff. split; [|apply andb_false_iff; right; apply orb_false_iff; split];
      apply andb_false_iff; rewrite ?Z.leb_gt; lia.
  - assert ((48 <=? x) && (x <=? 57) || h && ((65 <=? x) && (x <=? 70) || (97 <=? x) && (x <=? 102)) = true) as ->; [|done].
    destruct h; unfold alnum, decimal in Hx; simpl; rewrite ?orb_true_iff, ?andb_true_iff, ?Z.leb_le; lia.
Qed.

Lemma scan_number_app (h : bool) l c r : Forall (fun c => if h then alnum c else decimal c) l -> l <> [] -> ~ alnum c ->
  scan_number h (l ++ c :: r) = Some (c :: r) /\ scan_number h (45 :: l ++ c :: r) = Some (c :: r).
Proof.
  intros Hl Hne Hc. assert (skip_digits h (l ++ c :: r) = c :: r) as E by by apply skip_digits_app.
  assert (c :: r <> l ++ c :: r) as Hd.
  { intros H%(f_equal length). rewrite length_app in H. destruct l; simpl in H; [done|lia]. }
  destruct l as [|x l]; [done|]. apply Forall_cons in Hl as [Hx Hl]. unfold scan_number. cbn [app] in *. cbv beta iota zeta.
  assert ((x =? 45) || (x =? 43) = false) as ->.
  { apply orb_false_iff. rewrite !Z.eqb_neq. unfold alnum, decimal in Hx. destruct h; lia. }
  change ((45 =? 45) || (45 =? 43)) with true. cbv iota. rewrite E, bool_decide_eq_false_2 by done. done.
Qed.

Lemma sscanf_raw_key sh s o : sscanf_key (raw_key sh s o) = 2.
Proof.
  unfold sscanf_key, raw_key, get_prefix. rewrite <- !app_assoc. rewrite (drop_app_length' MAPPING_PREFIX) by done.
  change ((95 :: ?a) ++ ?b) with (95 :: a ++ b). rewrite <- !app_assoc. change ([95] ++ ?b) with (95 :: b).
  set (tl := make_shard_prefix sh ++ object_str o).
  assert (~ alnum 95) as H95 by (unfold alnum; lia).
  assert (forall r, scan_number false (sdec (pool o) ++ 95 :: r) = Some (95 :: r)) as ->.
  { intros r. unfold sdec. case_match.
    - apply (scan_number_app false (dec (- pool o)) 95 r (dec_decimal _) (dec_nonempty _) H95).
    - apply (scan_number_app false (dec (pool o)) 95 r (dec_decimal _) (dec_nonempty _) H95). }
  change (scan_char 95 (95 :: ?r)) with (Some r). cbn [mbind option_bind].
  assert (scan_number true (hexX 16 (u32 s) ++ 95 :: tl) = Some (95 :: tl)) as ->; [|done].
  apply scan_number_app; [apply digits_alnum; lia| |done]. intros E%(f_equal length). unfold hexX in E. by rewrite length_digits in E.
Qed.

(** ** The scrub, on what the keys hold *)

(** The record ends before the mapping; the record contains it. *)
Definition before (r : purged) (m : Mapping) : Prop :=
  purged_pool r < pool (mapping_hoid m) \/ (pool (mapping_hoid m) = purged_pool r /\ purged_end r <= mapping_snap m).
Definition contains (r : purged) (m : Mapping) : Prop :=
  pool (mapping_hoid m) = purged_pool r /\ purged_begin r <= mapping_snap m < purged_end r.
#[global] Instance before_dec r m : Decision (before r m).
Proof. unfold before. apply _. Defined.
#[global] Instance contains_dec r m : Decision (contains r m).
Proof. unfold contains. apply _. Defined.

Fixpoint drop_before (m : Mapping) (R : list purged) : list purged :=
  match R with [] => [] | r :: R' => if decide (before r m) then drop_before m R' else R end.
Fixpoint scrub_list (R : list purged) (M : list Mapping) : list Mapping :=
  match M with
  | [] => []
  | m :: M =>
      match drop_before m R with
      | [] => []
      | r :: R' => (if decide (contains r m) then [m] else []) ++ scrub_list (r :: R') M
      end
  end.

(** The orders in which the two lists are read when the keys sort as their numbers do. *)
Definition record_le (r r2 : purged) : Prop :=
  purged_pool r < purged_pool r2 \/
  (purged_pool r = purged_pool r2 /\ purged_begin r <= purged_begin r2 /\ purged_end r <= purged_end r2).
Definition mapping_le (m m2 : Mapping) : Prop :=
  pool (mapping_hoid m) < pool (mapping_hoid m2) \/
  (pool (mapping_hoid m) = pool (mapping_hoid m2) /\ mapping_snap m <= mapping_snap m2).
Definition is_purged (R : list purged) (m : Mapping) : Prop := Exists (fun r => contains r m) R.
#[global] Instance is_purged_dec R m : Decision (is_purged R m).
Proof. unfold is_purged. apply _. Defined.

Lemma before_later r m m2 : before r m -> mapping_le m m2 -> before r m2.
Proof. unfold before, mapping_le. lia. Qed.
Lemma before_excludes r m : before r m -> ~ contains r m.
Proof. unfold before, contains. lia. Qed.
Lemma drop_before_spec m R : exists D, R = D ++ drop_before m R /\ Forall (fun r => before r m) D /\
  match drop_before m R with [] => True | r :: _ => ~ before r m end.
Proof.
  induction R as [|r R (D & E & HD & Hh)]; simpl; [by exists []|]. case_decide; [|by exists []].
  exists (r :: D). rewrite E at 1. split_and!; [done|by constructor|done].
Qed.
(** The first record that is not passed is the one that can contain the mapping. *)
Lemma first_decides r R m : StronglySorted record_le (r :: R) -> ~ before r m -> is_purged (r :: R) m <-> contains r m.
Proof.
  intros [_ Hs]%StronglySorted_inv Hb. unfold is_purged. rewrite Exists_cons. split; [|by left].
  intros [?|(r2 & Hin & Hc)%Exists_exists]; [done|]. rewrite Forall_forall in Hs. specialize (Hs _ Hin).
  unfold record_le, before, contains in *. lia.
Qed.

Lemma scrub_list_exact R M : StronglySorted record_le R -> StronglySorted mapping_le M -> scrub_list R M = filter (is_purged R) M.
Proof.
  intros HR HM. revert R HR. induction HM as [|m M HM IH Hm]; intros R HR; [done|]. simpl.
  destruct (drop_before_spec m R) as (D & E & HD & Hh). rewrite filter_cons.
  assert (forall m2, mapping_le m m2 -> is_purged R m2 <-> is_purged (drop_before m R) m2) as Hp.
  { intros m2 Hle. rewrite E at 1. unfold is_purged. rewrite Exists_app. split; [|by right]. intros [(r & Hin & Hc)%Exists_exists|?]; [|done].
    rewrite Forall_forall in HD. specialize (HD _ Hin). by destruct (before_excludes r m2 (before_later _ _ _ HD Hle)). }
  assert (filter (is_purged R) M = filter (is_purged (drop_before m R)) M) as ->.
  { rewrite Forall_forall in Hm. clear -Hp Hm. induction M as [|x M IH]; [done|]. rewrite !filter_cons.
    rewrite IH by (intros; apply Hm; set_solver). specialize (Hp x ltac:(apply Hm; set_solver)). repeat case_decide; tauto. }
  assert (is_purged R m <-> is_purged (drop_before m R) m) as Hpm by (apply Hp; unfold mapping_le; lia).
  assert (StronglySorted record_le (drop_before m R)) as HR'.
  { rewrite E in HR. clear -HR. induction D as [|d D IH]; [done|]. apply IH. by apply StronglySorted_inv in HR as [? _]. }
  destruct (drop_before m R) as [|r R'].
  - assert (forall x, ~ is_purged [] x) as Hnil by (intros x H; by inversion H).
    rewrite decide_False by (rewrite Hpm; apply Hnil). symmetry. apply filter_none. apply Forall_forall. auto.
  - pose proof (first_decides r R' m HR' Hh) as Hf. rewrite IH by done. repeat case_decide; tauto.
Qed.

(** ** The code reads the lists *)

(** The records and the mappings from an iterator on, up to the first other key. *)
Inductive records : omap -> list purged -> Prop :=
| records_end : records [] []
| records_other k v l : starts_with PURGED_SNAP_PREFIX k = false -> records ((k, v) :: l) []
| records_next k v l r z R : starts_with PURGED_SNAP_PREFIX k = true -> decode_purged v = Some (r, z) -> 0 <= purged_pool r ->
    records l R -> records ((k, v) :: l) (r :: R).
Inductive mappings : omap -> list Mapping -> Prop :=
| mappings_end : mappings [] []
| mappings_other k v l : starts_with MAPPING_PREFIX k = false -> mappings ((k, v) :: l) []
| mappings_next sh m v l z M : decode_mapping v = Some (m, z) -> mappings l M ->
    mappings ((raw_key sh (mapping_snap m) (mapping_hoid m), v) :: l) (m :: M).

(** The scrubber stands at the first of the records. *)
Definition stands_at (s : Scrubber) (R : list purged) : Prop :=
  match R with
  | [] => cur_pool s < 0
  | r :: R' => r = mk_purged (cur_pool s) (cur_begin s) (cur_end s) /\ 0 <= cur_pool s /\ records (psit s) R'
  end.
Definition same_rest (s s' : Scrubber) : Prop := mapit s' = mapit s /\ stray s' = stray s.

Lemma parse_p_ok s R : records (psit s) R -> exists s', _parse_p s = Some s' /\ stands_at s' R /\ same_rest s s'.
Proof.
  intros H. unfold _parse_p. destruct H as [|k v l E|k v l r z R E1 E2 Hp Hl].
  - by eexists.
  - rewrite E. by eexists.
  - rewrite E1, E2. eexists. split; [done|]. split; [|done]. simpl. by destruct r.
Qed.
Lemma records_length l R : records l R -> (length R <= length l)%nat.
Proof. induction 1; simpl; lia. Qed.

Lemma mappings_length l M : mappings l M -> (length M <= length l)%nat.
Proof. induction 1; simpl; lia. Qed.

Lemma scrub_advance_ok m R : forall fuel s, stands_at s R -> (length R < fuel)%nat ->
  exists s', advance fuel m s = Some s' /\ stands_at s' (drop_before m R) /\ same_rest s s'.
Proof.
  induction R as [|r R IH]; intros [|fuel] s Hs Hf; simpl in Hf; try lia; simpl in Hs.
  - simpl. rewrite (proj2 (Z.leb_gt 0 _)) by done. by exists s.
  - destruct Hs as (-> & Hp & Hr). cbn [advance drop_before].
    assert ((0 <=? cur_pool s) && ((cur_pool s <? pool (mapping_hoid m)) || ((pool (mapping_hoid m) =? cur_pool s) && (cur_end s <=? mapping_snap m))) =
      bool_decide (before (mk_purged (cur_pool s) (cur_begin s) (cur_end s)) m)) as ->.
    { apply eq_bool_prop_intro. rewrite !andb_True, !orb_True, !andb_True, !Is_true_true, !Z.leb_le, !Z.ltb_lt, Z.eqb_eq, bool_decide_eq_true.
      unfold before. simpl. naive_solver lia. }
    case_decide as Hb; [rewrite bool_decide_eq_true_2 by done|rewrite bool_decide_eq_false_2 by done; by exists s].
    destruct (parse_p_ok s R Hr) as (s1 & -> & H1 & E1 & E2). cbn [mbind option_bind].
    destruct (IH fuel s1 H1) as (s2 & -> & H2 & E3 & E4); [lia|]. exists s2. split_and!; try done. split; congruence.
Qed.

Definition report (m : Mapping) : Z * Z * Z * Z := (pool (mapping_hoid m), mapping_snap m, hash (mapping_hoid m), NO_SHARD).

Lemma run_loop_ok unset M : forall fuel s R, stands_at s R -> mappings (mapit s) M -> (length M < fuel)%nat ->
  exists s', run_loop fuel unset s = Some s' /\ stray s' = stray s ++ (report <$> scrub_list R M).
Proof.
  induction M as [|m M IH]; intros [|fuel] s R Hs HM Hf; simpl in Hf; try lia; cbn [run_loop scrub_list].
  - exists s. rewrite app_nil_r. split; [|done]. unfold _parse_m. inversion HM as [E|k v l Ek E|]; [done|]. by rewrite Ek.
  - inversion HM as [| |sh m' v l z M' Em Hl E1 E2]; subst. unfold _parse_m. rewrite <- E1.
    change (starts_with MAPPING_PREFIX (raw_key sh (mapping_snap m) (mapping_hoid m))) with true. rewrite Em, sscanf_raw_key. cbn [mbind option_bind].
    set (s0 := mk_scrubber (psit s) (cur_pool s) (cur_begin s) (cur_end s) l (stray s)).
    assert (length R < S (S (length (psit s0))))%nat as HfR.
    { destruct R as [|r R']; simpl; [lia|]. destruct Hs as (_ & _ & Hr%records_length). lia. }
    destruct (scrub_advance_ok m R _ s0 Hs HfR) as (s1 & -> & H1 & E3 & E4). cbn [mbind option_bind].
    destruct (drop_before_spec m R) as (D & _ & _ & Hfirst). destruct (drop_before m R) as [|r R'].
    + simpl in H1. rewrite (proj2 (Z.ltb_lt _ _)) by done. exists s1. rewrite app_nil_r. by split.
    + pose proof H1 as (Er & Hp & Hr). subst r. rewrite (proj2 (Z.ltb_ge _ 0)) by done. unfold before in Hfirst. simpl in Hfirst.
      destruct ((pool (mapping_hoid m) <? cur_pool s1) || (mapping_snap m <? cur_begin s1)) eqn:Ec.
      * rewrite decide_False by (unfold contains; simpl; zbool; lia). simpl app. change (stray s) with (stray s0). rewrite <- E4. apply IH; [done|by rewrite E3|lia].
      * zbool. rewrite decide_True by (unfold contains; simpl; lia).
        rewrite (proj2 (Z.leb_le (cur_begin s1) _)), (proj2 (Z.ltb_lt _ (cur_end s1))), (proj2 (Z.eqb_eq _ (cur_pool s1))) by lia. cbn [andb].
        match goal with |- exists s', run_loop _ _ ?s2 = _ /\ _ => destruct (IH fuel s2 (mk_purged (cur_pool s1) (cur_begin s1) (cur_end s1) :: R') H1) as (s' & -> & Es); [simpl; by rewrite E3|lia|] end.
        exists s'. split; [done|]. rewrite Es. simpl. rewrite E4, <- app_assoc. do 2 f_equal. simpl. unfold report. f_equal. f_equal. f_equal. f_equal. lia.
Qed.

(** ** Old keys *)

Definition legacy_key (sh s : Z) (o : hobject_t) : list Z := get_legacy_prefix s ++ make_shard_prefix sh ++ object_str o.

Lemma to_legacy_raw_key_eq sh s o : max o = false -> to_legacy_raw_key (make_shard_prefix sh) s o = Some (legacy_key sh s o).
Proof. intros E. unfold to_legacy_raw_key, to_str. by rewrite E. Qed.

(** The entry under an old key, and the key it gets. *)
Definition legacy_entry (k : list Z) (v : buffer) : Prop := exists sh s o,
  k = legacy_key sh s o /\ storable o /\ u64 s /\ encode_mapping (mk_mapping s o) = Some v.
Definition new_key (kv : list Z * buffer) : list Z := default [] (convert_legacy_key kv.1 kv.2).

Lemma convert_key_ok sh s o v : storable o -> u64 s -> encode_mapping (mk_mapping s o) = Some v ->
  convert_legacy_key (legacy_key sh s o) v = Some (raw_key sh s o).
Proof.
  intros Ho Hs E. destruct (reads_mapping s o Ho Hs) as (b & Eb & Hr). rewrite E in Eb. injection Eb as <-.
  unfold convert_legacy_key, from_raw. specialize (Hr []). rewrite app_nil_r in Hr. simpl snd. rewrite Hr. cbn [mbind option_bind mapping_snap mapping_hoid].
  f_equal. unfold legacy_key, get_legacy_prefix, raw_key, get_prefix. rewrite <- !app_assoc. rewrite (drop_app_length' LEGACY_MAPPING_PREFIX) by done.
  change ((95 :: ?a) ++ ?b) with (95 :: a ++ b). by rewrite <- !app_assoc.
Qed.
Lemma legacy_converts k v : legacy_entry k v -> exists sh s o, k = legacy_key sh s o /\ convert_legacy_key k v = Some (raw_key sh s o) /\ storable o.
Proof. intros (sh & s & o & -> & Ho & Hs & E). exists sh, s, o. split_and!; [done|by apply convert_key_ok|done]. Qed.

Lemma raw_determines_legacy sh s o sh' s' o' : storable o -> storable o' -> raw_key sh s o = raw_key sh' s' o' -> legacy_key sh s o = legacy_key sh' s' o'.
Proof.
  intros Ho Ho' E. unfold raw_key, legacy_key, get_prefix, get_legacy_prefix in *. rewrite <- !app_assoc in *. apply app_inv_head in E. f_equal.
  assert (forall x, 95 ∉ sdec x) as Hx.
  { intros x Hin. pose proof (sdec_chars x) as Hf. rewrite Forall_forall in Hf. apply Hf in Hin. unfold alnum in Hin. lia. }
  change ((95 :: ?a) ++ ?b) with (95 :: a ++ b) in E. apply separated in E as [_ E]; [|done..]. by rewrite <- !app_assoc in E.
Qed.

(** The loop, whatever the size of its batches: the converted entries are added. *)
Lemma find_outside (l : omap) k : k ∉ l.*1 -> OrdMap.find k l = None.
Proof.
  induction l as [|[k1 v1] l IH]; simpl; intros H; [done|]. destruct (OrdMap.compare_spec k k1) as [[E _]|[[E ->]|[E _]]]; simpl in E; rewrite E;
    [apply IH|set_solver|apply IH]; set_solver.
Qed.
Lemma find_cons_key k1 (v1 : buffer) l k : OrdMap.find k ((k1, v1) :: l) = if decide (k = k1) then Some v1 else OrdMap.find k l.
Proof.
  simpl. destruct (OrdMap.compare_spec k k1) as [[E L]|[[E ->]|[E L]]]; simpl in E; rewrite E; case_decide; subst; try done;
    by apply OrdMap.klt_not_self in L.
Qed.

Lemma convert_loop_ok max l rest : Forall (fun kv => legacy_entry kv.1 kv.2 /\ is_legacy_mapping kv.1 = true) l ->
  match rest with [] => True | kv :: _ => is_legacy_mapping kv.1 = false end ->
  forall to_set store, OrdMap.sorted to_set -> OrdMap.sorted store -> NoDup ((new_key <$> l) ++ to_set.*1) -> (l ++ rest = [] -> to_set = []) ->
  exists store', convert_loop max (l ++ rest) to_set store = Some store' /\ OrdMap.sorted store' /\
    forall k, OrdMap.find k store' = match OrdMap.find k ((fun kv => (new_key kv, kv.2)) <$> l) with Some v => Some v | None =>
      match OrdMap.find k to_set with Some v => Some v | None => OrdMap.find k store end end.
Proof.
  intros Hl Hrest. induction Hl as [|[k0 v0] l [Hk Hleg] Hl IH]; intros ts store Hts Hst Hnd Hemp.
  - simpl app in *. destruct rest as [|[k v] rest]; simpl.
    + rewrite (Hemp eq_refl). by exists store.
    + simpl in Hrest. rewrite Hrest. exists (apply_op store (OpSet ts)). split; [done|].
      split; [by apply CacheFacts.sorted_apply_op|]. intros k'.
      rewrite CacheFacts.find_apply_op by done. simpl. by destruct (OrdMap.find k' ts).
  - destruct (legacy_converts _ _ Hk) as (sh & s & o & Ek & Ec & Ho). simpl in Ek, Ec, Hleg.
    assert (new_key (k0, v0) = raw_key sh s o) as En by (unfold new_key; simpl fst; simpl snd; by rewrite Ec).
    cbn [app convert_loop]. rewrite Hleg, Ec. cbn [mbind option_bind]. rewrite fmap_cons, En in Hnd. cbn [app] in Hnd.
    apply NoDup_cons in Hnd as [Hn Hnd]. set (ts' := OrdMap.insert (raw_key sh s o) v0 ts).
    assert (OrdMap.sorted ts') as Hts' by by apply OrdMap.sorted_minsert.
    assert (OrdMap.find (raw_key sh s o) ts = None) as Hfresh by (apply find_outside; set_solver).
    assert (forall k, OrdMap.find k ts' = if decide (k = raw_key sh s o) then Some v0 else OrdMap.find k ts) as Hf.
    { intros k. unfold ts'. rewrite OrdMap.find_insert. case_decide; [subst; by rewrite Hfresh|by destruct (OrdMap.find k ts)]. }
    assert (raw_key sh s o ∉ new_key <$> l) as Hnl by set_solver.
    assert (forall k, OrdMap.find k ((fun kv => (new_key kv, kv.2)) <$> (k0, v0) :: l) =
      if decide (k = raw_key sh s o) then Some v0 else OrdMap.find k ((fun kv => (new_key kv, kv.2)) <$> l)) as Hfl.
    { intros k. rewrite fmap_cons, En. apply find_cons_key. }
    assert (OrdMap.find (raw_key sh s o) ((fun kv => (new_key kv, kv.2)) <$> l) = None) as Hlnone.
    { apply find_outside. rewrite <- list_fmap_compose. done. }
    destruct (bool_decide (l ++ rest = []) || (max <=? Z.of_nat (length ts'))) eqn:Eflush.
    + destruct (IH [] (apply_op store (OpSet ts'))) as (st' & -> & Hs' & Hfin);
        [apply SSorted_nil|by apply CacheFacts.sorted_apply_op|simpl; rewrite app_nil_r; by apply NoDup_app in Hnd as [? _]|done|].
      exists st'. split_and!; [done|done|]. intros k. rewrite Hfin, Hfl, CacheFacts.find_apply_op by done. simpl. rewrite Hf.
      case_decide; [subst; by rewrite Hlnone|]. destruct (OrdMap.find k _); [done|]. by destruct (OrdMap.find k ts).
    + apply orb_false_iff in Eflush as [Eflush _]. apply bool_decide_eq_false in Eflush.
      destruct (IH ts' store Hts' Hst) as (st' & -> & Hs' & Hfin); [|done|].
      { apply NoDup_app in Hnd as (H1 & H2 & H3). apply NoDup_app. split_and!; [done| |].
        - intros x Hx Hin. apply CacheFacts.elem_keys_find in Hin as [v Hv]; [|done]. rewrite Hf in Hv. case_decide; [by subst|].
          eapply (H2 x Hx), CacheFacts.elem_keys_find; eauto.
        - apply OrdMap.ssorted_nodup. by apply OrdMap.sorted_alt. }
      exists st'. split_and!; [done|done|]. intros k. rewrite Hfin, Hfl, Hf. case_decide; [subst; by rewrite Hlnone|done].
Qed.

(** The keys with a prefix come first after it. *)
Lemma prefix_first P (U : omap) : OrdMap.sorted U -> Forall (fun kv => OrdMap.klt P kv.1) U -> exists l rest, U = l ++ rest /\
  Forall (fun kv => starts_with P kv.1 = true) l /\ Forall (fun kv => starts_with P kv.1 = false) rest.
Proof.
  induction U as [|[k v] U IH]; intros Hs HP; [by exists [], []|]. pose proof Hs as [Hs' Hlt]%StronglySorted_inv.
  apply Forall_cons in HP as [Hk HP]. destruct (starts_with P k) eqn:E.
  - destruct (IH Hs' HP) as (l & rest & -> & Hl & Hr). exists ((k, v) :: l), rest. split_and!; [done|by constructor|done].
  - exists [], ((k, v) :: U). split_and!; [done|constructor|]. constructor; [done|]. rewrite Forall_forall in Hlt |- *. intros [k2 v2] Hin.
    destruct (starts_with P k2) eqn:E2; [|done]. apply starts_with_spec, has_prefix_app in E2 as [r ->]. specialize (Hlt _ Hin). simpl in Hlt, Hk.
    exfalso. assert (starts_with P k = true) by (apply starts_with_spec; eapply MapperFacts.prefix_between; by apply OrdMap.klt_asym). congruence.
Qed.

Lemma string_lt_klt a b : string_lt a b = true <-> OrdMap.klt a b.
Proof. unfold string_lt, OrdMap.klt. simpl. destruct (string_compare a b); naive_solver. Qed.

(** The range that is removed is that of the prefix. *)
Lemma legacy_range k : string_lt k LEGACY_MAPPING_PREFIX || negb (string_lt k [77; 65; 80; 96]) = negb (is_legacy_mapping k).
Proof.
  destruct (is_legacy_mapping k) eqn:E.
  - apply starts_with_spec, has_prefix_app in E as [r ->]. by destruct r.
  - simpl. assert (~ has_prefix LEGACY_MAPPING_PREFIX k) as Hn by (rewrite <- starts_with_spec; unfold is_legacy_mapping in E; congruence).
    destruct (string_lt k LEGACY_MAPPING_PREFIX) eqn:E1; [done|]. destruct (string_lt k [77; 65; 80; 96]) eqn:E2; [|done]. exfalso. apply Hn.
    unfold has_prefix. clear E Hn. unfold string_lt, string_compare in *.
    destruct k as [|a [|b [|c [|d r]]]]; simpl in *;
      repeat match goal with
      | H : context [match ?x ?= ?y with _ => _ end] |- _ => destruct (Z.compare_spec x y); subst; try done
      end; try (repeat f_equal; lia); destruct r; try done; try (repeat f_equal; lia).
Qed.

Lemma rm_legacy (m : omap) : OrdMap.sorted m -> let m' := rmkeyrange LEGACY_MAPPING_PREFIX [77; 65; 80; 96] m in
  OrdMap.sorted m' /\ forall k, OrdMap.find k m' = if is_legacy_mapping k then None else OrdMap.find k m.
Proof.
  intros Hm m'. assert (OrdMap.sorted m') as Hf by by apply filter_sorted.
  assert (forall kv, kv ∈ m' <-> is_legacy_mapping kv.1 = false /\ kv ∈ m) as Hin.
  { intros kv. unfold m', rmkeyrange. rewrite list_elem_of_filter, legacy_range, Is_true_true, negb_true_iff. done. }
  split; [done|]. intros k. destruct (OrdMap.find k m') as [v|] eqn:E.
  - apply OrdMap.find_entry, Hin in E as [Hp Hv]; [|done]. simpl in Hp. rewrite Hp. symmetry. by apply OrdMap.find_entry.
  - destruct (is_legacy_mapping k) eqn:Ep; [done|]. destruct (OrdMap.find k m) as [v|] eqn:E'; [|done]. exfalso.
    apply OrdMap.find_entry in E'; [|done]. assert ((k, v) ∈ m') as Hv by by apply Hin.
    apply OrdMap.find_entry in Hv; [congruence|done].
Qed.

(** ** Keys sort as their numbers do, for pools with as many digits *)

Lemma klt_app_head p a b : OrdMap.klt a b -> OrdMap.klt (p ++ a) (p ++ b).
Proof.
  intros H. induction p as [|c p IH]; [done|]. unfold OrdMap.klt in *. simpl in *. unfold string_compare in *. simpl. by rewrite Z.compare_refl.
Qed.
Lemma klt_cons c d a b : c < d -> OrdMap.klt (c :: a) (d :: b).
Proof. intros H. unfold OrdMap.klt. simpl. unfold string_compare. simpl. by rewrite (proj2 (Z.compare_lt_iff c d)). Qed.

Lemma digits_klt up base n : 2 <= base <= 16 -> forall v w a b, 0 <= v < w -> w < base ^ Z.of_nat n ->
  OrdMap.klt (digits up base n v ++ a) (digits up base n w ++ b).
Proof.
  intros Hb. induction n as [|n IH]; intros v w a b Hv Hw; [simpl in Hw; lia|].
  rewrite Nat2Z.inj_succ, Z.pow_succ_r in Hw by lia. simpl digits. rewrite <- !app_assoc. simpl app.
  destruct (decide (v / base = w / base)) as [E|Hne].
  - rewrite E. apply klt_app_head, klt_cons. pose proof (Z.mod_pos_bound v base). pose proof (Z.mod_pos_bound w base).
    pose proof (Z.div_mod v base). pose proof (Z.div_mod w base). unfold digit. destruct up; case_tests; nia.
  - apply IH; [|apply Z.div_lt_upper_bound; lia]. split; [apply Z.div_pos; lia|]. pose proof (Z.div_le_mono v w base). lia.
Qed.

(** A key of a prefix, a pool, a snapshot in hexadecimal, and the rest. *)
Definition numbered (up : bool) (P : list Z) (p a : Z) (x : list Z) : list Z := P ++ dec p ++ 95 :: digits up 16 16 a ++ x.

Lemma numbered_order up P p a x p' a' x' : 0 <= p < two64 -> 0 <= p' < two64 -> length (dec p) = length (dec p') -> u64 a -> u64 a' ->
  OrdMap.klt (numbered up P p a x) (numbered up P p' a' x') -> p < p' \/ (p = p' /\ a <= a').
Proof.
  intros Hp Hp' Hl Ha Ha' H. unfold numbered in H. destruct (Z.lt_trichotomy p p') as [?|[->|Hlt]]; [by left| |exfalso].
  - right. split; [done|]. destruct (Z.lt_ge_cases a' a) as [Hlt|?]; [exfalso|done]. eapply OrdMap.klt_asym; [exact H|].
    apply klt_app_head, klt_app_head, (klt_app_head [95]), digits_klt; unfold u64 in *; [lia|lia|]. change (16 ^ Z.of_nat 16) with two64. lia.
  - eapply OrdMap.klt_asym; [exact H|]. apply klt_app_head. unfold dec, plain in *. rewrite !length_digits in Hl. rewrite <- Hl.
    apply digits_klt; [lia|lia|]. apply width_bound; [lia|]. split; [lia|]. apply (Z.lt_trans _ two64); [lia|done].
Qed.

(** ** What the stores hold *)

(** A record under its key, and a mapping under its key; both for a pool of [d] digits. *)
Definition good_record (d : nat) (r : purged) : Prop :=
  0 <= purged_pool r < two64 / 2 /\ 0 <= purged_begin r < purged_end r /\ purged_end r < two64 /\ length (dec (purged_pool r)) = d.
Definition record_of (r : purged) (kv : list Z * buffer) : Prop :=
  kv = (make_purged_snap_key (purged_pool r) (purged_end r - 1), encode_purged r).
Definition good_mapping (d : nat) (m : Mapping) : Prop :=
  storable (mapping_hoid m) /\ 0 <= mapping_snap m < two32 /\ 0 <= pool (mapping_hoid m) /\ length (dec (pool (mapping_hoid m))) = d.
Definition mapping_of (sh : Z) (m : Mapping) (kv : list Z * buffer) : Prop :=
  kv.1 = raw_key sh (mapping_snap m) (mapping_hoid m) /\ encode_mapping m = Some kv.2.

Lemma decode_record r : forall d, good_record d r -> decode_purged (encode_purged r) = Some (r, []).
Proof.
  intros d (Hp & Hb & He & _). destruct r as [p b e]. simpl in *.
  pose proof (reads_purged p b e) as Hr. rewrite <- (app_nil_r (encode_purged _)). apply Hr; unfold INT64_MIN, u64 in *; lia.
Qed.
Lemma decode_mapped d m v : good_mapping d m -> encode_mapping m = Some v -> decode_mapping v = Some (m, []).
Proof.
  intros (Ho & Hs & _) E. destruct m as [s o]. simpl in *. destruct (reads_mapping s o Ho) as (b & Eb & Hr); [unfold u64 in *; lia|].
  rewrite E in Eb. injection Eb as <-. rewrite <- (app_nil_r v). apply Hr.
Qed.
Lemma record_has_prefix r kv : record_of r kv -> starts_with PURGED_SNAP_PREFIX kv.1 = true.
Proof. by intros ->. Qed.

Lemma record_order d r k v r2 k2 v2 : good_record d r -> good_record d r2 -> record_of r (k, v) -> record_of r2 (k2, v2) -> OrdMap.klt k k2 ->
  purged_pool r < purged_pool r2 \/ (purged_pool r = purged_pool r2 /\ purged_end r <= purged_end r2).
Proof.
  intros (Hp & Hb & He & Hd) (Hp2 & Hb2 & He2 & Hd2) [= -> _] [= -> _] H. unfold make_purged_snap_key in H.
  change (two64 / 2) with 9223372036854775808 in *.
  rewrite !Z.mod_small in H by lia. unfold hex0 in H. rewrite <- (app_nil_r (digits _ _ _ (purged_end r - 1))), <- (app_nil_r (digits _ _ _ (purged_end r2 - 1))) in H.
  apply (numbered_order false (PURGED_SNAP_PREFIX ++ [95])) in H; [lia|lia|lia|congruence|unfold u64; lia..].
Qed.
Lemma mapping_order d sh m k v sh2 m2 k2 v2 : good_mapping d m -> good_mapping d m2 -> mapping_of sh m (k, v) -> mapping_of sh2 m2 (k2, v2) ->
  OrdMap.klt k k2 -> mapping_le m m2.
Proof.
  intros (Ho & Hs & Hp & Hd) (Ho2 & Hs2 & Hp2 & Hd2) [E1 _] [E2 _] H. simpl in E1, E2. subst k k2.
  assert (forall o, storable o -> pool o < two64) as Hlt.
  { intros o Hst. destruct Hst as (_ & _ & Hpo & _). change (two64 / 2) with 9223372036854775808 in *. lia. }
  unfold raw_key, get_prefix, sdec, hexX in H. rewrite !(proj2 (Z.ltb_ge _ 0)) in H by done. rewrite !Binning.u32_small in H by done.
  rewrite <- !app_assoc in H. change ((95 :: ?a) ++ ?b) with (95 :: a ++ b) in H. rewrite <- !app_assoc in H.
  apply (numbered_order true MAPPING_PREFIX) in H; [done|split; auto|split; auto|congruence|unfold u64; lia..].
Qed.

Lemma Forall2_mem {A B} (R : A -> B -> Prop) L l a : Forall2 R L l -> a ∈ L -> exists b, b ∈ l /\ R a b.
Proof. intros H Hin. apply list_elem_of_lookup in Hin as [i Hi]. destruct (Forall2_lookup_l _ _ _ _ _ H Hi) as (b & Hb & Hr). exists b. split; [by eapply list_elem_of_lookup_2|done]. Qed.
Lemma Forall2_mem_r {A B} (R : A -> B -> Prop) L l b : Forall2 R L l -> b ∈ l -> exists a, a ∈ L /\ R a b.
Proof. intros H Hin. apply list_elem_of_lookup in Hin as [i Hi]. destruct (Forall2_lookup_r _ _ _ _ _ H Hi) as (a & Ha & Hr). exists a. split; [by eapply list_elem_of_lookup_2|done]. Qed.

(** The things the keys of a prefix hold, in the order of the keys. *)
Section Listed.
Context {A : Type} (P : list Z) (rel : A -> list Z * buffer -> Prop) (le : A -> A -> Prop) (store : omap).
Hypothesis (Hstore : OrdMap.sorted store).
Hypothesis (Hentries : forall kv, kv ∈ store -> starts_with P kv.1 = true -> exists a, rel a kv).
Hypothesis (Hafter : forall kv, kv ∈ store -> starts_with P kv.1 = true -> OrdMap.klt P kv.1).
Hypothesis (Horder : forall a kv a2 kv2, kv ∈ store -> kv2 ∈ store -> rel a kv -> rel a2 kv2 -> OrdMap.klt kv.1 kv2.1 -> le a a2).

Lemma listed_run l : Forall (fun kv => starts_with P kv.1 = true /\ kv ∈ store) l -> OrdMap.sorted l -> exists L, Forall2 rel L l /\ StronglySorted le L.
Proof.
  induction 1 as [|kv l [Hp Hin] Hl IH]; intros Hs; [exists []; split; constructor|]. apply StronglySorted_inv in Hs as [Hs Hlt].
  destruct (Hentries kv Hin Hp) as [a Ha]. destruct (IH Hs) as (L & HL & HsL). exists (a :: L). split; [by constructor|]. constructor; [done|].
  apply Forall_forall. intros a2 [kv2 [Hin2 H2]]%(Forall2_mem _ _ _ a2 HL). rewrite Forall_forall in Hlt, Hl. eapply Horder; [..|by apply Hlt]; try done. by apply Hl.
Qed.
Lemma listed : exists L l rest, OrdMap.upper_bound P store = l ++ rest /\ Forall2 rel L l /\ Forall (fun kv => starts_with P kv.1 = false) rest /\
  StronglySorted le L /\ forall kv, kv ∈ l <-> kv ∈ store /\ starts_with P kv.1 = true.
Proof.
  pose proof (OrdMap.sorted_upper_bound P store Hstore) as Hu.
  assert (forall kv, kv ∈ OrdMap.upper_bound P store <-> kv ∈ store /\ OrdMap.klt P kv.1) as Helem by (intros kv; by apply OrdMap.elem_upper_bound).
  destruct (prefix_first P (OrdMap.upper_bound P store) Hu) as (l & rest & E & Hl & Hr).
  { apply Forall_forall. intros kv Hin. by apply Helem in Hin as [_ ?]. }
  rewrite E in Hu, Helem. rewrite Forall_forall in Hl. pose proof Hr as Hr'. rewrite Forall_forall in Hr'.
  assert (forall kv, kv ∈ l <-> kv ∈ store /\ starts_with P kv.1 = true) as Hmem.
  { intros kv. split; [intros Hin; split; [apply Helem; set_solver|by apply Hl]|]. intros [Hin Hp].
    assert (kv ∈ l ++ rest) as [?|Hin2]%elem_of_app by (apply Helem; auto); [done|]. rewrite (Hr' _ Hin2) in Hp. done. }
  destruct (listed_run l) as (L & HL & HsL).
  { apply Forall_forall. intros kv Hin. apply Hmem in Hin as [? ?]. done. }
  { clear -Hu. induction l as [|x l IH]; [constructor|]. simpl in Hu. apply StronglySorted_inv in Hu as [Hu Hf]. apply Forall_app in Hf as [Hf _].
    constructor; [by apply IH|done]. }
  by exists L, l, rest.
Qed.
End Listed.
End PurgedFacts.

