(* ===== verification/PurgedTheorems.v ===== *)
(** The scrub of purged snapshots, the record of purged ranges and the conversion of old
    keys do what they are for; and runs that show where they do not. *)
From S2P Require Import Prelude Pg Hobject OrderedMap Encoding ObjectKeys MapCacher SnapMapper SnapMapperFacts PgSnapMap SnapMapperTheorems PurgedSnaps PurgedFacts.
Import Hobject ObjectKeys Encoding EncodingFacts Printf PrintfFacts KeyFacts SnapMapper PurgedSnaps.

Module PurgedTheorems.
Import PurgedFacts.

(** ** The scrub *)

(** The snapshot is recorded as purged; the clone is mapped, for a shard. *)
Definition recorded (d : nat) (ps : omap) (r : purged) : Prop := good_record d r /\ exists kv, kv ∈ ps /\ record_of r kv.
Definition mapped (d : nat) (ms : omap) (m : Mapping) : Prop := good_mapping d m /\ exists kv sh, kv ∈ ms /\ mapping_of sh m kv.

(** The stores of the scrub: sorted by key, every key of the two kinds with its value, and
    records of a pool that do not overlap. *)
Record scrub_stores (d : nat) (ps ms : omap) : Prop := {
  ps_sorted : OrdMap.sorted ps;
  ms_sorted : OrdMap.sorted ms;
  ps_entries : forall kv, kv ∈ ps -> starts_with PURGED_SNAP_PREFIX kv.1 = true -> exists r, good_record d r /\ record_of r kv;
  ms_entries : forall kv, kv ∈ ms -> starts_with MAPPING_PREFIX kv.1 = true -> exists m, good_mapping d m /\ exists sh, mapping_of sh m kv;
  ps_disjoint : forall r r2, recorded d ps r -> recorded d ps r2 -> purged_pool r = purged_pool r2 -> purged_end r < purged_end r2 ->
    purged_end r <= purged_begin r2
}.

Section Scrub.
Context (d : nat) (ps ms : omap).
Hypothesis (H : scrub_stores d ps ms).

Lemma record_listed : exists R, records (OrdMap.upper_bound PURGED_SNAP_PREFIX ps) R /\ StronglySorted record_le R /\ forall r, r ∈ R <-> recorded d ps r.
Proof.
  destruct (listed PURGED_SNAP_PREFIX (fun r kv => good_record d r /\ record_of r kv) record_le ps) as (R & l & rest & E & HR & Hrest & Hs & Hmem).
  - apply H.
  - apply H.
  - intros kv Hin Hp. destruct (ps_entries _ _ _ H kv Hin Hp) as (r & _ & ->). done.
  - intros r [k v] r2 [k2 v2] Hin Hin2 [Hg Ho] [Hg2 Ho2] Hlt. destruct (record_order d r k v r2 k2 v2) as [?|[Ep Ee]]; try done; [by left|].
    right. split; [done|]. destruct (decide (purged_end r = purged_end r2)) as [Ee2|Hne].
    + exfalso. injection Ho as -> _. injection Ho2 as -> _. simpl in Hlt. rewrite Ep, Ee2 in Hlt. by apply OrdMap.klt_not_self in Hlt.
    + assert (purged_end r <= purged_begin r2) by (apply (ps_disjoint _ _ _ H); [by split; [|exists (k, v)]|by split; [|exists (k2, v2)]|done|lia]).
      unfold good_record in *. lia.
  - exists R. split_and!; [|done|].
    + rewrite E. clear -HR Hrest. induction HR as [|r [k v] R l [Hg ->] _ IH]; simpl.
      * destruct rest as [|[k v] rest]; [constructor|]. apply Forall_cons in Hrest as [? _]. by constructor.
      * econstructor; [done|by eapply decode_record|apply Hg|done].
    + intros r. split.
      * intros Hin. destruct (Forall2_mem _ _ _ _ HR Hin) as (kv & Hkv & Hg & Ho). split; [done|]. exists kv. split; [by apply Hmem in Hkv as [? _]|done].
      * intros (Hg & kv & Hin & Ho). assert (kv ∈ l) as Hl by (apply Hmem; split; [done|by eapply record_has_prefix]).
        destruct (Forall2_mem_r _ _ _ _ HR Hl) as (r2 & Hin2 & Hg2 & Ho2). assert (r = r2) as ->; [|done].
        unfold record_of in *. subst kv. apply (f_equal snd) in Ho2. simpl in Ho2.
        pose proof (decode_record r d Hg) as D. pose proof (decode_record r2 d Hg2) as D2. rewrite Ho2 in D. congruence.
Qed.

Lemma mapping_listed : exists M, mappings (OrdMap.upper_bound MAPPING_PREFIX ms) M /\ StronglySorted mapping_le M /\ forall m, m ∈ M <-> mapped d ms m.
Proof.
  destruct (listed MAPPING_PREFIX (fun m kv => good_mapping d m /\ exists sh, mapping_of sh m kv) mapping_le ms) as (M & l & rest & E & HM & Hrest & Hs & Hmem).
  - apply H.
  - apply H.
  - intros kv Hin Hp. destruct (ms_entries _ _ _ H kv Hin Hp) as (m & _ & sh & -> & _). unfold raw_key, get_prefix. rewrite <- !app_assoc.
    rewrite <- (app_nil_r MAPPING_PREFIX) at 1. apply klt_app_head. by destruct (sdec (pool (mapping_hoid m))).
  - intros m [k v] m2 [k2 v2] Hin Hin2 [Hg [sh Ho]] [Hg2 [sh2 Ho2]] Hlt. by eapply mapping_order.
  - exists M. split_and!; [|done|].
    + rewrite E. clear -HM Hrest. induction HM as [|m [k v] M l [Hg [sh [Ek Ev]]] _ IH]; simpl.
      * destruct rest as [|[k v] rest]; [constructor|]. apply Forall_cons in Hrest as [? _]. by constructor.
      * simpl in Ek, Ev. subst k. econstructor; [by eapply decode_mapped|done].
    + intros m. split.
      * intros Hin. destruct (Forall2_mem _ _ _ _ HM Hin) as (kv & Hkv & Hg & sh & Ho). split; [done|]. exists kv, sh. split; [by apply Hmem in Hkv as [? _]|done].
      * intros (Hg & kv & sh & Hin & Ho). assert (kv ∈ l) as Hl by (apply Hmem; split; [done|by rewrite (proj1 Ho)]).
        destruct (Forall2_mem_r _ _ _ _ HM Hl) as (m2 & Hin2 & Hg2 & sh2 & Ho2). assert (m = m2) as ->; [|done].
        pose proof (decode_mapped d m _ Hg (proj2 Ho)). pose proof (decode_mapped d m2 _ Hg2 (proj2 Ho2)). congruence.
Qed.

End Scrub.

(** C28: The scrub returns, with no assertion failing, and reports exactly the mapped clones
    whose snapshot is recorded as purged in their pool: its single pass over the two
    ordered lists finds what a search of every record for every mapping would.  The pools
    of the stores have numbers of as many digits, snapshots are below [2^32], and the
    records of a pool do not overlap.  [scrub_misses_stray] shows a stray that is missed
    when the pools differ in digits. *)
Theorem scrub_exact d ps ms unset : scrub_stores d ps ms -> exists strays, run ps ms unset = Some strays /\
  forall x, x ∈ strays <-> exists m r, mapped d ms m /\ recorded d ps r /\ contains r m /\ x = report m.
Proof.
  intros H. destruct (record_listed d ps ms H) as (R & HR & HsR & HmR). destruct (mapping_listed d ps ms H) as (M & HM & HsM & HmM). unfold run.
  destruct (parse_p_ok (mk_scrubber (OrdMap.upper_bound PURGED_SNAP_PREFIX ps) 0 0 0 [] []) R HR) as (s & -> & Hst & _ & _). cbn [mbind option_bind].
  set (s1 := mk_scrubber _ _ _ _ _ _).
  destruct (run_loop_ok unset M (S (length (mapit s1))) s1 R Hst HM) as (s2 & -> & Es); [apply mappings_length in HM; simpl; lia|].
  exists (stray s2). split; [done|]. intros x. rewrite Es. simpl. rewrite (scrub_list_exact R M HsR HsM), list_elem_of_fmap. split.
  - intros (m & -> & Hin). apply list_elem_of_filter in Hin as [Hp Hin]. apply Exists_exists in Hp as (r & Hr & Hc). exists m, r.
    split_and!; [by apply HmM|by apply HmR|done|done].
  - intros (m & r & Hm & Hr & Hc & ->). exists m. split; [done|]. apply list_elem_of_filter. split; [|by apply HmM].
    apply Exists_exists. exists r. split; [by apply HmR|done].
Qed.

(** ** Old keys *)

Lemma new_keys_nodup l : NoDup l.*1 -> Forall (fun kv => legacy_entry kv.1 kv.2) l -> NoDup (new_key <$> l).
Proof.
  induction l as [|[k v] l IH]; intros Hnd Hl; [constructor|]. rewrite fmap_cons in Hnd |- *. apply NoDup_cons in Hnd as [Hn Hnd].
  apply Forall_cons in Hl as [Hk Hl]. constructor; [|by apply IH]. intros Hin. apply list_elem_of_fmap in Hin as ([k2 v2] & E & Hin). apply Hn.
  rewrite Forall_forall in Hl. destruct (legacy_converts _ _ Hk) as (sh & s & o & Ek & Ec & Ho).
  destruct (legacy_converts _ _ (Hl _ Hin)) as (sh2 & s2 & o2 & Ek2 & Ec2 & Ho2). unfold new_key in E. simpl in *. rewrite Ec, Ec2 in E. simpl in E.
  apply list_elem_of_fmap. exists (k2, v2). split; [|done]. simpl. rewrite Ek, Ek2. by apply raw_determines_legacy.
Qed.

Lemma legacy_after kv : legacy_entry kv.1 kv.2 -> OrdMap.klt LEGACY_MAPPING_PREFIX kv.1.
Proof.
  intros (sh & s & o & -> & _). unfold legacy_key, get_legacy_prefix. rewrite <- !app_assoc. rewrite <- (app_nil_r LEGACY_MAPPING_PREFIX) at 1.
  apply klt_app_head. pose proof (length_digits true 16 16 (u32 s)) as Hlen. fold (hexX 16 (u32 s)) in Hlen. by destruct (hexX 16 (u32 s)).
Qed.
Lemma find_converted l k v k' : NoDup (new_key <$> l) -> (k, v) ∈ l -> new_key (k, v) = k' ->
  OrdMap.find k' ((fun kv => (new_key kv, kv.2)) <$> l) = Some v.
Proof.
  intros Hnd Hin <-. induction l as [|kv l IH]; [set_solver|]. rewrite fmap_cons. cbn [fmap list_fmap] in Hnd. apply NoDup_cons in Hnd as [Hn Hnd]. rewrite find_cons_key.
  apply elem_of_cons in Hin as [<-|Hin]; [by rewrite decide_True|]. case_decide as Ek; [|by apply IH]. destruct Hn. rewrite <- Ek.
  apply list_elem_of_fmap. by exists (k, v).
Qed.

(** C29: The conversion of the keys of older releases returns for every size of batch: no old
    key is left, every mapping is under its new key with its value, and every key that is
    neither has the value it had. *)
Theorem legacy_converted max store : OrdMap.sorted store ->
  (forall kv, kv ∈ store -> is_legacy_mapping kv.1 = true -> legacy_entry kv.1 kv.2) ->
  exists store', convert_legacy max store = Some store' /\ OrdMap.sorted store' /\
    (forall k, is_legacy_mapping k = true -> OrdMap.find k store' = None) /\
    (forall sh s o v, storable o -> u64 s -> encode_mapping (mk_mapping s o) = Some v ->
       OrdMap.find (legacy_key sh s o) store = Some v -> OrdMap.find (raw_key sh s o) store' = Some v) /\
    (forall k, is_legacy_mapping k = false ->
       (forall sh s o v, OrdMap.find (legacy_key sh s o) store = Some v -> storable o -> k <> raw_key sh s o) ->
       OrdMap.find k store' = OrdMap.find k store).
Proof.
  intros Hs He.
  destruct (listed LEGACY_MAPPING_PREFIX (fun _ kv => legacy_entry kv.1 kv.2) (fun _ _ : unit => True) store) as (L & l & rest & E & HL & Hrest & _ & Hmem);
    [done|intros kv Hin Hp; exists tt; by apply He|intros kv Hin Hp; eapply legacy_after, He; done|done|].
  assert (Forall (fun kv => legacy_entry kv.1 kv.2 /\ is_legacy_mapping kv.1 = true) l) as Hl.
  { apply Forall_forall. intros kv Hin. apply Hmem in Hin as [Hin Hp]. split; [by apply He|done]. }
  assert (NoDup (new_key <$> l)) as Hnd.
  { apply new_keys_nodup; [|by eapply Forall_impl; [done|intros ? [? _]]].
    pose proof (OrdMap.sorted_upper_bound LEGACY_MAPPING_PREFIX store Hs) as Hu. rewrite E in Hu. apply OrdMap.sorted_alt, OrdMap.ssorted_nodup in Hu.
    rewrite fmap_app in Hu. by apply NoDup_app in Hu as [? _]. }
  destruct (convert_loop_ok max l rest Hl) with (to_set := @nil (list Z * buffer)) (store := store) as (st & Ec & Hst & Hf);
    [destruct Hrest; done|constructor|done|by rewrite app_nil_r|done|].
  destruct (rm_legacy st Hst) as [Hs' Hf']. unfold convert_legacy. rewrite E, Ec. cbn [mbind option_bind]. eexists. split_and!; [done|done|..].
  - intros k Hk. by rewrite Hf', Hk.
  - intros sh s o v Ho Hu Ev Hfind. rewrite Hf'. change (is_legacy_mapping (raw_key sh s o)) with false. cbv iota. rewrite Hf.
    rewrite (find_converted l (legacy_key sh s o) v); [done..| |unfold new_key; simpl; by rewrite (convert_key_ok sh s o v)].
    apply Hmem. split; [by apply OrdMap.find_entry|done].
  - intros k Hk Hnew. rewrite Hf', Hk, Hf, find_outside; [done|]. rewrite <- list_fmap_compose. intros Hin.
    apply list_elem_of_fmap in Hin as ([k0 v0] & Ek & Hin). simpl in Ek. rewrite Forall_forall in Hl.
    destruct (legacy_converts _ _ (proj1 (Hl _ Hin))) as (sh & s & o & E0 & E1 & Ho). apply Hmem in Hin as [Hin _].
    apply (Hnew sh s o v0); [|done|]; simpl in *; [rewrite <- E0; by apply OrdMap.find_entry|]. rewrite Ek. unfold new_key. simpl. by rewrite E1.
Qed.
(** ** The record of purged ranges *)

Definition rkey (r : purged) : list Z := make_purged_snap_key (purged_pool r) (purged_end r - 1).

(** The record of one pool: every record is under its key, and no two overlap. *)
Record pool_records (d : nat) (p : Z) (ps : omap) : Prop := {
  pr_sorted : OrdMap.sorted ps;
  pr_entries : forall kv, kv ∈ ps -> starts_with PURGED_SNAP_PREFIX kv.1 = true -> exists r, good_record d r /\ purged_pool r = p /\ record_of r kv;
  pr_disjoint : forall r r2, recorded d ps r -> recorded d ps r2 -> purged_end r < purged_end r2 -> purged_end r <= purged_begin r2
}.
Definition purged_at (d : nat) (ps : omap) (s : Z) : Prop := exists r, recorded d ps r /\ purged_begin r <= s < purged_end r.

Lemma key_lt p a a' : 0 <= p < two64 / 2 -> 0 <= a < a' -> a' < two64 -> OrdMap.klt (make_purged_snap_key p a) (make_purged_snap_key p a').
Proof.
  intros Hp Ha Ha'. unfold make_purged_snap_key. apply klt_app_head, (klt_app_head [95]), klt_app_head, (klt_app_head [95]). unfold hex0.
  rewrite <- (app_nil_r (digits _ _ _ a)), <- (app_nil_r (digits _ _ _ a')). apply digits_klt; [lia|lia|]. by change (16 ^ Z.of_nat 16) with two64.
Qed.
Lemma key_order p a a' : 0 <= p < two64 / 2 -> u64 a -> u64 a' -> ~ OrdMap.klt (make_purged_snap_key p a) (make_purged_snap_key p a') -> a' <= a.
Proof. unfold u64. intros Hp Ha Ha' H. destruct (Z.le_gt_cases a' a) as [?|Hlt]; [done|]. destruct H. apply key_lt; lia. Qed.

Section Records.
Context (d : nat) (p : Z) (ps : omap).
Hypothesis (H : pool_records d p ps).

Lemma recorded_find r : recorded d ps r <-> good_record d r /\ OrdMap.find (rkey r) ps = Some (encode_purged r).
Proof.
  rewrite OrdMap.find_entry by apply H. unfold recorded, record_of, rkey. split; [intros (Hg & kv & Hin & ->); done|].
  intros [Hg Hin]. split; [done|]. by eexists.
Qed.
Lemma recorded_pool r : recorded d ps r -> purged_pool r = p.
Proof.
  intros (Hg & kv & Hin & Ho). destruct (pr_entries _ _ _ H kv Hin) as (r2 & Hg2 & <- & Ho2); [by eapply record_has_prefix|].
  pose proof (decode_record r d Hg) as D. pose proof (decode_record r2 d Hg2) as D2. unfold record_of in *. subst kv.
  apply (f_equal snd) in Ho2. simpl in Ho2. rewrite Ho2 in D. congruence.
Qed.
Lemma recorded_unique r r2 : recorded d ps r -> recorded d ps r2 -> purged_end r = purged_end r2 -> r = r2.
Proof.
  intros Hr Hr2 E. pose proof (recorded_pool r Hr) as Ep. pose proof (recorded_pool r2 Hr2) as Ep2.
  apply recorded_find in Hr as [Hg Hf]. apply recorded_find in Hr2 as [Hg2 Hf2]. unfold rkey in *. rewrite Ep, E in Hf. rewrite Ep2 in Hf2.
  pose proof (decode_record r d Hg) as D. pose proof (decode_record r2 d Hg2) as D2. congruence.
Qed.

Lemma lookup_ok s : 0 <= p < two64 / 2 -> u64 s -> exists rc r0, _lookup_purged_snap ps p s = Some (rc, r0) /\
  ((rc = 0 /\ recorded d ps r0 /\ purged_begin r0 <= s < purged_end r0) \/ (rc = - ENOENT /\ ~ purged_at d ps s)).
Proof.
  intros Hp Hs. set (K := make_purged_snap_key p s).
  assert (forall r, recorded d ps r -> s < purged_end r -> (rkey r, encode_purged r) ∈ ps /\ ~ OrdMap.klt (rkey r) K) as Hafter.
  { intros r Hr He. pose proof Hr as [Hg Hf%OrdMap.find_entry]%recorded_find; [|apply H]. split; [done|]. unfold rkey, K. rewrite (recorded_pool r Hr).
    unfold good_record, u64 in *. destruct (decide (s = purged_end r - 1)) as [->|Hne]; [by apply OrdMap.klt_not_self|].
    apply OrdMap.klt_asym, key_lt; lia. }
  unfold _lookup_purged_snap. fold K. destruct (OrdMap.lower_bound K ps) as [|[k v] l] eqn:E.
  - do 2 eexists. split; [done|]. right. split; [done|]. intros (r & Hr & Hc). destruct (Hafter r Hr) as [Hin Hn]; [lia|].
    assert ((rkey r, encode_purged r) ∈ OrdMap.lower_bound K ps) as Hl by (apply OrdMap.elem_lower_bound; [apply H|done]). rewrite E in Hl. set_solver.
  - destruct (OrdMap.lower_bound_head K ps _ _ (pr_sorted _ _ _ H) E) as (Hin & Hn & Hfirst). simpl in Hn, Hfirst.
    assert (forall r, recorded d ps r -> s < purged_end r -> (rkey r, encode_purged r) = (k, v) \/ OrdMap.klt k (rkey r)) as Hf.
    { intros r Hr He. destruct (Hafter r Hr He) as [Hi Hk]. by apply (Hfirst (rkey r, encode_purged r)). }
    destruct (starts_with PURGED_SNAP_PREFIX k) eqn:Ek; simpl negb; cbv iota.
    + destruct (pr_entries _ _ _ H _ Hin Ek) as (r0 & Hg & E0 & Ho). assert (recorded d ps r0) as Hr0 by (split; [done|]; by eexists).
      injection Ho as Ekey ->. rewrite (decode_record r0 d Hg). cbn [mbind option_bind]. do 2 eexists. split; [done|].
      assert (s < purged_end r0) as Hse.
      { subst k K. rewrite E0 in Hn. apply key_order in Hn; unfold good_record, u64 in *; lia. }
      destruct ((s <? purged_begin r0) || (purged_end r0 <=? s)) eqn:Ec;
        [right; rewrite orb_true_iff, Z.ltb_lt, Z.leb_le in Ec|left; apply orb_false_iff in Ec as [?%Z.ltb_ge ?%Z.leb_gt]; split_and!; [done|done|lia|lia]].
      split; [done|]. intros (r & Hr & Hc). destruct (Hf r Hr) as [Er|Hlt]; [lia| |].
      * assert (decode_purged (encode_purged r) = decode_purged (encode_purged r0)) as Ed by congruence.
        rewrite (decode_record r d (proj1 Hr)), (decode_record r0 d Hg) in Ed. injection Ed as ->. lia.
      * subst k. pose proof (recorded_pool r Hr) as Ep. unfold rkey in Hlt. rewrite Ep, E0 in Hlt.
        assert (purged_end r0 <= purged_end r) by (apply OrdMap.klt_asym, key_order in Hlt; destruct Hr as [Hgr _]; unfold good_record, u64 in *; lia).
        destruct (decide (purged_end r0 = purged_end r)) as [Ee|Hne].
        -- rewrite (recorded_unique _ _ Hr0 Hr Ee) in *. lia.
        -- pose proof (pr_disjoint _ _ _ H r0 r Hr0 Hr). lia.
    + do 2 eexists. split; [done|]. right. split; [done|]. intros (r & Hr & Hc). destruct (Hf r Hr) as [Er|Hlt]; [lia| |].
      * injection Er as <- _. done.
      * assert (starts_with PURGED_SNAP_PREFIX k = true); [|congruence]. apply starts_with_spec. eapply MapperFacts.prefix_between.
        -- intros Hk. apply Hn. etrans; [exact Hk|]. done.
        -- apply OrdMap.klt_asym. exact Hlt.
Qed.
End Records.

(** One record takes the place of those it covers. *)
Definition replace (ps : omap) (N : purged) (rm : list (list Z)) : omap :=
  apply_op (apply_op ps (OpRemove rm)) (OpSet [(rkey N, encode_purged N)]).

Section Replace.
Context (d : nat) (p : Z) (ps : omap) (N : purged) (rm : list (list Z)).
Hypothesis (H : pool_records d p ps) (HN : good_record d N) (HpN : purged_pool N = p) (Hrm : OrdMap.ssorted rm).
Hypothesis (Hcover : forall r, recorded d ps r ->
  (purged_begin N <= purged_begin r /\ purged_end r <= purged_end N /\ (purged_end r = purged_end N \/ rkey r ∈ rm)) \/
  purged_end r <= purged_begin N \/ purged_end N <= purged_begin r).
Hypothesis (Hkeep : forall k, k ∈ rm -> exists r, recorded d ps r /\ k = rkey r /\ purged_begin N <= purged_begin r /\ purged_end r <= purged_end N).

Lemma replace_sorted : OrdMap.sorted (replace ps N rm).
Proof. by apply CacheFacts.sorted_apply_op, CacheFacts.sorted_apply_op, H. Qed.
Lemma replace_find k : OrdMap.find k (replace ps N rm) =
  if decide (k = rkey N) then Some (encode_purged N) else if decide (k ∈ rm) then None else OrdMap.find k ps.
Proof.
  unfold replace. rewrite CacheFacts.find_apply_op; [|by apply CacheFacts.sorted_apply_op, H|by repeat constructor].
  rewrite CacheFacts.find_apply_op; [|apply H|done]. unfold CacheFacts.effect. rewrite find_cons_key. simpl. by repeat case_decide.
Qed.
Lemma replace_recorded r : recorded d (replace ps N rm) r <->
  r = N \/ (recorded d ps r /\ (purged_end r <= purged_begin N \/ purged_end N <= purged_begin r)).
Proof.
  assert (forall r, recorded d (replace ps N rm) r <-> good_record d r /\ OrdMap.find (rkey r) (replace ps N rm) = Some (encode_purged r)) as Hrf.
  { intros r'. rewrite OrdMap.find_entry by apply replace_sorted. unfold recorded, record_of, rkey. split; [intros (Hg & kv & Hin & ->); done|].
    intros [Hg Hin]. split; [done|]. by eexists. }
  rewrite Hrf, replace_find. split.
  - intros [Hg Hf]. case_decide as Ek; [|case_decide as Em; [done|]].
    + left. pose proof (decode_record r d Hg) as D. pose proof (decode_record N d HN) as D2. congruence.
    + right. assert (recorded d ps r) as Hr by by apply (recorded_find d p ps H). split; [done|].
      destruct (Hcover r Hr) as [(_ & _ & [Ee|?])|?]; [|done|done]. destruct Ek. unfold rkey. by rewrite (recorded_pool d p ps H r Hr), HpN, Ee.
  - intros [->|[Hr Hd]]; [split; [done|]; by rewrite decide_True|]. pose proof Hr as [Hg Hf]%(recorded_find d p ps H). split; [done|].
    pose proof (recorded_pool d p ps H r Hr) as Ep.
    rewrite decide_False, decide_False; [done|..].
    + intros (r2 & Hr2 & Ek & Hb & He)%Hkeep. assert (r = r2) as ->; [|unfold good_record in *; lia].
      apply (recorded_find d p ps H) in Hr2 as [Hg2 Hf2]. rewrite <- Ek in Hf2.
      pose proof (decode_record r d Hg) as D. pose proof (decode_record r2 d Hg2) as D2. congruence.
    + intros Ek. unfold rkey in Ek. rewrite Ep, HpN in Ek.
      assert (purged_end r = purged_end N) as Ee.
      { apply Z.le_antisymm; [assert (purged_end r - 1 <= purged_end N - 1); [|lia]|assert (purged_end N - 1 <= purged_end r - 1); [|lia]];
          (eapply (key_order p); [unfold good_record in *; lia|unfold good_record, u64 in *; lia..|rewrite Ek; apply OrdMap.klt_not_self; done]). }
      unfold good_record in *. lia.
Qed.

Lemma replace_ok : pool_records d p (replace ps N rm) /\
  (forall s, purged_at d (replace ps N rm) s <-> purged_begin N <= s < purged_end N \/ purged_at d ps s) /\
  (forall k, starts_with PURGED_SNAP_PREFIX k = false -> OrdMap.find k (replace ps N rm) = OrdMap.find k ps).
Proof.
  split_and!.
  - constructor; [apply replace_sorted|..].
    + intros [k v] Hin Hk. apply OrdMap.find_entry in Hin; [|apply replace_sorted]. rewrite replace_find in Hin.
      case_decide as Ek; [|case_decide as Em; [done|]].
      * injection Hin as <-. exists N. split_and!; [done|done|]. unfold record_of. by rewrite Ek.
      * apply OrdMap.find_entry in Hin; [|apply H]. by apply H.
    + intros r r2 [->|[Hr Hd]]%replace_recorded [->|[Hr2 Hd2]]%replace_recorded Hlt; [lia|destruct Hr2 as [Hg2 _]; unfold good_record in *; lia| |by apply (pr_disjoint _ _ _ H)].
      destruct Hr as [Hg _]. unfold good_record in *. lia.
  - intros s. unfold purged_at. split.
    + intros (r & [->|[Hr _]]%replace_recorded & Hc); [by left|right; eauto].
    + intros [Hc|(r & Hr & Hc)]; [exists N; split; [apply replace_recorded; by left|done]|].
      destruct (Hcover r Hr) as [(Hb & He & _)|Hd]; [exists N; split; [apply replace_recorded; by left|lia]|].
      exists r. split; [apply replace_recorded; by right|done].
  - intros k Hk. rewrite replace_find, decide_False by (intros ->; done). rewrite decide_False; [done|]. intros (r & _ & -> & _)%Hkeep. done.
Qed.
End Replace.

Lemma record_apart d p ps r r2 : pool_records d p ps -> recorded d ps r -> recorded d ps r2 ->
  r = r2 \/ purged_end r <= purged_begin r2 \/ purged_end r2 <= purged_begin r.
Proof.
  intros H Hr Hr2. destruct (Z.lt_trichotomy (purged_end r) (purged_end r2)) as [?|[?|?]].
  - right; left. by apply (pr_disjoint _ _ _ H).
  - left. by apply (recorded_unique d p ps H).
  - right; right. by apply (pr_disjoint _ _ _ H).
Qed.

Lemma one_value p x y : 1 <= y < two64 -> make_purged_snap_key_value p x y [] = [(rkey (mk_purged p x y), encode_purged (mk_purged p x y))].
Proof. intros Hy. unfold make_purged_snap_key_value. by rewrite sub64_small by lia. Qed.

Section Range.
Context (d : nat) (p : Z) (ps : omap) (b e : Z).
Hypothesis (H : pool_records d p ps) (Hp : 0 <= p < two64 / 2) (Hd : length (dec p) = d).
Hypothesis (Hb : 1 <= b < e) (He : e < two64) (Hnew : forall s, b <= s < e -> ~ purged_at d ps s).

Lemma records_outside r : recorded d ps r -> purged_end r <= b \/ e <= purged_begin r.
Proof.
  intros Hr. destruct (Z.le_gt_cases (purged_end r) b) as [?|?]; [by left|right]. apply Z.nlt_ge. intros Hlt.
  apply (Hnew (Z.max b (purged_begin r))); [lia|]. exists r. split; [done|]. destruct Hr as [Hg _]. unfold good_record in Hg. lia.
Qed.

(** What the two look-ups find: the record that ends, or begins, where the range does. *)
Lemma lookup_before : exists rc B, _lookup_purged_snap ps p (b - 1) = Some (rc, B) /\
  ((rc = 0 /\ recorded d ps B /\ purged_end B = b) \/ rc = - ENOENT).
Proof.
  destruct (lookup_ok d p ps H (b - 1) Hp) as (rc & B & E & [(-> & Hr & Hc)|[-> _]]); [unfold u64; lia|..].
  - exists 0, B. split; [done|]. left. destruct (records_outside B Hr); lia || (split_and!; [done|done|lia]).
  - by exists (- ENOENT), B; split; [|right].
Qed.
Lemma lookup_after : exists rc A, _lookup_purged_snap ps p e = Some (rc, A) /\
  ((rc = 0 /\ recorded d ps A /\ purged_begin A = e) \/ rc = - ENOENT).
Proof.
  destruct (lookup_ok d p ps H e Hp) as (rc & A & E & [(-> & Hr & Hc)|[-> _]]); [unfold u64; lia|..].
  - exists 0, A. split; [done|]. left. destruct (records_outside A Hr); lia || (split_and!; [done|done|lia]).
  - by exists (- ENOENT), A; split; [|right].
Qed.

Lemma record_range_ok N rm : good_record d N -> purged_pool N = p -> OrdMap.ssorted rm ->
  record_range ps p b e [] [] = Some (rm, [(rkey N, encode_purged N)]) -> purged_begin N <= b -> e <= purged_end N ->
  (purged_begin N = b /\ rm = [] \/ exists B, recorded d ps B /\ rm = [rkey B] /\ purged_end B = b /\ purged_begin N = purged_begin B) ->
  (purged_end N = e \/ exists A, recorded d ps A /\ purged_begin A = e /\ purged_end N = purged_end A) ->
  exists ps', record_purged_snaps ps [(p, b, e)] = Some ps' /\ pool_records d p ps' /\
    (forall s, purged_at d ps' s <-> b <= s < e \/ purged_at d ps s) /\
    (forall k, starts_with PURGED_SNAP_PREFIX k = false -> OrdMap.find k ps' = OrdMap.find k ps).
Proof.
  intros HN HpN Hrm E HbN HeN HB HA. exists (replace ps N rm).
  destruct (replace_ok d p ps N rm H HN HpN Hrm) as (H1 & H2 & H3).
  - intros r Hr. destruct (records_outside r Hr) as [Ho|Ho].
    + destruct HB as [[EbN ->]|(B & HrB & -> & EB & EbN)]; [lia|]. destruct (record_apart d p ps r B H Hr HrB) as [->|[?|?]]; [|lia|].
      * left. split_and!; [lia|lia|right; set_solver].
      * destruct Hr as [Hg _]. unfold good_record in Hg. lia.
    + destruct HA as [EeN|(A & HrA & EA & EeN)]; [lia|]. destruct (record_apart d p ps r A H Hr HrA) as [->|[?|?]]; [| |lia].
      * left. split_and!; [lia|lia|left; done].
      * destruct Hr as [Hg _]. unfold good_record in Hg. lia.
  - intros k Hk. destruct HB as [[_ ->]|(B & HrB & -> & EB & EbN)]; [set_solver|]. exists B. split_and!; [done|set_solver|lia|lia].
  - split_and!; [|done| |done].
    + unfold record_purged_snaps. cbn [record_ranges]. by rewrite E.
    + intros s. rewrite H2. split; [|intros [?|?]; [left; lia|by right]]. intros [Hs|?]; [|by right].
      destruct (decide (s < b)) as [?|?]; [|destruct (decide (e <= s)) as [?|?]; [|left; lia]]; right.
      * destruct HB as [[EbN _]|(B & HrB & _ & EB & EbN)]; [lia|]. exists B. split; [done|lia].
      * destruct HA as [EeN|(A & HrA & EA & EeN)]; [lia|]. exists A. split; [done|lia].
Qed.
End Range.

(** Recording a range of a pool adds exactly its snapshots, joining the records it touches,
    and the records still do not overlap: for a store with the records of that pool only,
    see [purge_joins_pools], and for one range in a call, see [purge_overlaps]. *)
Theorem record_purged_exact d p ps b e : pool_records d p ps -> 0 <= p < two64 / 2 -> length (dec p) = d -> 1 <= b < e -> e < two64 ->
  (forall s, b <= s < e -> ~ purged_at d ps s) ->
  exists ps', record_purged_snaps ps [(p, b, e)] = Some ps' /\ pool_records d p ps' /\
    (forall s, purged_at d ps' s <-> b <= s < e \/ purged_at d ps s) /\
    (forall k, starts_with PURGED_SNAP_PREFIX k = false -> OrdMap.find k ps' = OrdMap.find k ps).
Proof.
  intros H Hp Hd Hb He Hnew. destruct (lookup_before d p ps b e H Hp Hd Hb He Hnew) as (rb & B & EB & HB).
  destruct (lookup_after d p ps b e H Hp Hd Hb He Hnew) as (ra & A & EA & HA).
  set (nb := if rb =? 0 then purged_begin B else b). set (ne := if ra =? 0 then purged_end A else e). set (rm := if rb =? 0 then [rkey B] else []).
  assert ((rb = 0 /\ recorded d ps B /\ purged_pool B = p /\ purged_end B = b /\ good_record d B) \/ rb = - ENOENT) as HB'.
  { destruct HB as [(-> & Hr & E)|?]; [left; split_and!; try done; [by apply (recorded_pool d p ps H)|apply Hr]|by right]. }
  assert ((ra = 0 /\ recorded d ps A /\ purged_begin A = e /\ good_record d A) \/ ra = - ENOENT) as HA'.
  { destruct HA as [(-> & Hr & E)|?]; [left; split_and!; try done; apply Hr|by right]. }
  assert (nb <= b /\ 0 <= nb) as Hnb.
  { unfold nb. destruct HB' as [(-> & _ & _ & <- & Hg)| ->]; simpl; unfold good_record in *; lia. }
  assert (e <= ne < two64) as Hne.
  { unfold ne. destruct HA' as [(-> & _ & <- & Hg)| ->]; simpl; unfold good_record in *; lia. }
  apply (record_range_ok d p ps b e H Hp Hd Hb He Hnew (mk_purged p nb ne) rm); simpl; try lia.
  - unfold good_record. simpl. lia.
  - unfold rm. case_match; repeat constructor.
  - unfold record_range. rewrite (sub64_small b 1), EB, EA by lia. cbn [mbind option_bind]. rewrite <- (one_value p nb ne) by lia.
    unfold rm, rkey, nb, ne. destruct HB' as [(-> & _ & -> & -> & Hg)| ->]; destruct HA' as [(-> & _)| ->]; simpl; rewrite ?sub64_small by lia; done.
  - unfold nb, rm. destruct HB' as [(-> & Hr & _ & E & _)| ->]; simpl; [right; by exists B|by left].
  - unfold ne. destruct HA' as [(-> & Hr & E & _)| ->]; simpl; [right; by exists A|by left].
Qed.

(** *** Runs *)

Definition rec46 : purged := mk_purged 2 4 6.
Lemma rec46_good : good_record 1 rec46.
Proof. unfold good_record. split_and!; by vm_compute. Qed.
Lemma single_records r : recorded 1 [(rkey rec46, encode_purged rec46)] r <-> r = rec46.
Proof.
  pose proof rec46_good as Hg. split; [|intros ->; split; [done|]; eexists; split; [by left|done]]. intros (Hr & kv & ->%list_elem_of_singleton & Ho).
  apply (f_equal snd) in Ho. simpl in Ho. pose proof (decode_record r 1 Hr) as D. rewrite <- Ho, (decode_record rec46 1 Hg) in D. by injection D.
Qed.
Lemma single_pool : pool_records 1 2 [(rkey rec46, encode_purged rec46)].
Proof.
  pose proof rec46_good as Hg. constructor.
  - by repeat constructor.
  - intros kv ->%list_elem_of_singleton _. by exists rec46.
  - intros r r2 Hr Hr2 Hlt. apply single_records in Hr, Hr2. subst. lia.
Qed.

(** Two clones of pool 2, of snapshots 5 and 7, and what they are mapped under. *)
Definition map5 : Mapping := mk_mapping 5 MapperTheorems.obj5.
Definition map7 : Mapping := mk_mapping 7 MapperTheorems.obj5.
Definition held (m : Mapping) : list Z * buffer := (raw_key NO_SHARD (mapping_snap m) (mapping_hoid m), default [] (encode_mapping m)).
Lemma maps_good : good_mapping 1 map5 /\ good_mapping 1 map7.
Proof. split; (split; [exact (proj1 (proj1 MapperTheorems.obj5_owned))|]); split_and!; by vm_compute. Qed.
Lemma maps_held : mapping_of NO_SHARD map5 (held map5) /\ mapping_of NO_SHARD map7 (held map7).
Proof. split; (split; [done|]); by vm_compute. Qed.

Lemma stores_ok : scrub_stores 1 [(rkey rec46, encode_purged rec46)] [held map5; held map7].
Proof.
  destruct maps_good as [G5 G7]. destruct maps_held as [M5 M7]. pose proof rec46_good as Hg. constructor.
  - by repeat constructor.
  - by repeat constructor.
  - intros kv ->%list_elem_of_singleton _. by exists rec46.
  - intros kv Hin _. apply elem_of_cons in Hin as [->| ->%list_elem_of_singleton]; [exists map5|exists map7]; (split; [done|by exists NO_SHARD]).
  - intros r r2 Hr Hr2 _ Hlt. apply single_records in Hr, Hr2. subst. lia.
Qed.

Lemma scrub_exact_witness : exists strays, run [(rkey rec46, encode_purged rec46)] [held map5; held map7] 0 = Some strays /\ report map5 ∈ strays.
Proof.
  destruct (scrub_exact 1 _ _ 0 stores_ok) as (strays & E & Hx). exists strays. split; [done|]. apply Hx. exists map5, rec46.
  split_and!; [|by apply single_records|unfold contains; simpl; lia|done].
  split; [apply maps_good|]. exists (held map5), NO_SHARD. split; [by left|apply maps_held].
Defined.

Lemma record_purged_exact_witness : exists ps', record_purged_snaps [(rkey rec46, encode_purged rec46)] [(2, 6, 9)] = Some ps' /\ pool_records 1 2 ps' /\
  purged_at 1 ps' 5 /\ purged_at 1 ps' 8.
Proof.
  destruct (record_purged_exact 1 2 [(rkey rec46, encode_purged rec46)] 6 9 single_pool) as (ps' & E & Hr & Hp & _); [done|done|lia|lia|..].
  - intros s Hs (r & ->%single_records & Hc). simpl in Hc. lia.
  - exists ps'. split_and!; [done|done|apply Hp; right|apply Hp; left; lia]. exists rec46. split; [by apply single_records|simpl; lia].
Defined.

Definition old5 : list Z * buffer := (legacy_key NO_SHARD 5 MapperTheorems.obj5, (held map5).2).
Lemma legacy_converted_witness : exists store', convert_legacy 1000 [old5; held map7] = Some store' /\
  OrdMap.find old5.1 store' = None /\ OrdMap.find (held map5).1 store' = Some old5.2.
Proof.
  destruct (legacy_converted 1000 [old5; held map7]) as (store' & E & _ & Hgone & Hnew & _).
  - by repeat constructor.
  - intros kv Hin Hk. apply elem_of_cons in Hin as [->| ->%list_elem_of_singleton]; [|done].
    exists NO_SHARD, 5, MapperTheorems.obj5. split_and!; [done|exact (proj1 (proj1 MapperTheorems.obj5_owned))|unfold u64; lia|apply maps_held].
  - exists store'. split_and!; [done|by apply Hgone|].
    apply (Hnew NO_SHARD 5 MapperTheorems.obj5); [exact (proj1 (proj1 MapperTheorems.obj5_owned))|unfold u64; lia|apply maps_held|by vm_compute].
Defined.

(** *** Where they do not *)

(** A look-up takes the record of another pool for its own: after [4,6) of pool 1 and [3,9)
    of pool 2, purging [6,7) of pool 1 joins the two and pool 1 has [4,9). *)
Example purge_joins_pools :
  (store ← record_purged_snaps [] [(1, 4, 6); (2, 3, 9)]; store ← record_purged_snaps store [(1, 6, 7)]; snd <$> _lookup_purged_snap store 1 8) =
    Some (mk_purged 1 4 9).
Proof. by vm_compute. Qed.

(** Two ranges of one call on either side of a record: the record is taken into both. *)
Example purge_overlaps :
  (store ← record_purged_snaps [] [(1, 3, 5)]; store ← record_purged_snaps store [(1, 1, 3); (1, 5, 7)];
   a ← _lookup_purged_snap store 1 2; b ← _lookup_purged_snap store 1 6; Some (a.2, b.2)) = Some (mk_purged 1 1 5, mk_purged 1 3 7).
Proof. by vm_compute. Qed.

(** The keys of pool 10 sort before those of pool 2, and the scrub compares the pools as
    numbers: it passes the record of pool 2. *)
Example scrub_misses_stray :
  (store ← record_purged_snaps [] [(2, 4, 6)]; run store [held map5] 0) = Some [report map5] /\
  (store ← record_purged_snaps [] [(2, 4, 6); (10, 4, 6)]; run store [held (mk_mapping 5 (mk_hobject [97] [] 9 13 10 [])); held map5] 0) =
    Some [(10, 5, 13, NO_SHARD)].
Proof. by vm_compute. Qed.

(** The shard of a stray is lost. *)
Example scrub_loses_shard :
  (store ← record_purged_snaps [] [(2, 4, 6)]; run store [(raw_key 3 5 MapperTheorems.obj5, (held map5).2)] 0) = Some [report map5].
Proof. by vm_compute. Qed.
End PurgedTheorems.
